(* ===== verification/_CoqProject ===== *)
-Q . S2P
Prelude.v
SortedVec.v
RustStr.v
Errors.v
Json.v
Model.v
Context.v
Snapshot.v
Keys.v
Plan.v
Store.v
Durable.v
Transaction.v
MemDb.v
Changelog.v
Migration.v
Recovery.v
SchemaLayer.v
JavaOrder.v
Views.v
Registry.v
Queries.v
Mutations.v
ExporterVerbs.v
Engine.v
VerbSafety.v
Consistency.v
Register.v
Deletes.v
Findings.v
Rewrite.v
Authz.v
Locks.v
Avro.v
AvroChecker.v
ProxyProtocol.v
Config.v
Auth.v
Containers.v
Worker.v
WorkerSafety.v
Tags.v
Matching.v
Float64.v
JsonSchema.v
JsonLoad.v
JsonDiff.v
JsonCompare.v
JsonReads.v
JsonFacts.v
Dump.v
DerivedJson.v
Restore.v
RestoreSpec.v
RestoreEngine.v
BackupSpec.v
Protobuf.v
ProtoCheck.v
ProtoAccepts.v
ProtoLex.v
ProtoWire.v
ProtoLogic.v
ProtoSpell.v
ProtoRead.v
ProtoElements.v
ProtoCanonical.v
ProtoEdits.v
FloatText.v
AvroRender.v
AvroJava.v
AvroParse.v
AvroShown.v
AvroStable.v
AvroTypes.v
AvroMeaning.v
AvroEnds.v
Requests.v
Listings.v
Api.v
ApiSafety.v
