(* ===== verification/Prelude.v ===== *)
(** * A schema registry: what is modelled and what is proved

    The program (src/src) is a Confluent-compatible schema registry: an HTTP
    service that stores versioned schemas under subjects, gives each content an
    id, checks compatibility on registration, keeps settings and modes per
    scope, links schemas by reference, exports changes to other registries, and
    serves several host containers from one RocksDB directory.

    ** Parts and files

    - Prelude, SortedVec, RustStr: results, machine integers, Rust's sorted
      small vectors, and [str] as byte strings with the operations the source
      uses (UTF-8 included).
    - Errors (error.rs), Json (the part of serde_json that is relied on), Model
      (model.rs), Context (context.rs, tenant.rs, modegate.rs).
    - Snapshot (snapshot.rs): the published in-memory state, its operations and
      queries, and the invariant [snap_wf].
    - Keys, Store (store.rs): row keys, containers, transactions, the change
      log, loading, the format migration; over the class [RocksDB] (column
      families of rows, atomic batches that may fail as a whole). Durable,
      Transaction, MemDb, Changelog, Migration and Recovery hold the relation
      between rows and snapshot ([durable]), its preservation by every row a
      transaction writes, an instance of the class, and the theorems.
    - SchemaLayer (schema/mod.rs) over the class [SchemaFormats], the interface
      of the three formats; JavaOrder (schema/java_order.rs).
    - Views, Registry, Queries (registry/*.rs): printed forms that decide
      equality, scopes and effective settings, references, canonicalization,
      candidates for compatibility, lookups and listings.
    - Plan, Mutations, ExporterVerbs (mutations/*.rs): every verb as an instance
      of the class [Mutation] with its target, intent, gate, fast path and plan.
    - Engine (engine.rs, registry/mod.rs): run a verb, commit its plan, publish
      the operations. The caches (bodies, parses) are part of the state, and
      what reads do to them is a list of actions: [get_schema] looks at the
      cache or the store in one action and inserts what it read in a later one,
      so a read can be overtaken. [run_inner] takes the actions that happen
      while the fast path and the plan run, and leaves their effect also when
      the verb is refused.
    - VerbSafety: what every verb promises to the engine, as classes
      [SafeVerb] and [LoggedVerb] with an instance per verb; Consistency proves
      the histories of the engine against those classes alone.
    - Register, Deletes: the effect of registration and deletion.
    - Locks (registry/locks.rs): lock acquisition and release as a step relation.
    - Rewrite (api/rewrite.rs, percent coding of api/mod.rs), Authz (authz.rs,
      roles of config.rs, listing filter of api/mod.rs).
    - Avro (schema/avro.rs): the compatibility checker, its memo of named pairs,
      the table of names; AvroChecker proves it. The names of the Avro library
      are parameters (class [AvroNames]).
    - AvroRender, AvroJava, AvroParse (schema/avro.rs, schema/avro_java.rs): the
      text of a schema as Java prints it, Java's checks with their messages and
      the values of defaults, and [AvroSchema::parse], which composes them with
      the Avro library's parser (class [AvroCrate]). FloatText is the reading and
      printing of floats they use. AvroShown describes the text as the JSON text
      of a value, AvroStable shows that this value is shown as itself;
      it also has a printer of JSON for examples. AvroTypes takes runs of the
      checks apart and proves that the types they build are well formed
      and that the pointers they note lead to defaults, AvroMeaning that the
      stored text is a schema with the same meaning when the schema is neatly
      written (no empty namespaces, no names of primitives, no textual defaults
      of floats), AvroEnds for which schemas the checks end; its end has
      schemas that are stored as something else.
    - ProxyProtocol (proxy_protocol.rs): who is believed, both header versions,
      and what is left of the stream; connections are sequences of pieces.
    - Config (config.rs): defaults and [validate] with every error.
    - Auth (auth.rs): users, the cache of verified passwords, the middleware;
      bcrypt, base64 and SHA-256 are parameters.
    - Containers (containers.rs): which container a Host header reaches, over
      the glob crate as an interface (class [GlobLaws]).
    - Worker (exporter.rs): the export worker as a program that sends requests
      to an arbitrary environment; WorkerSafety proves what it may send, when
      its offset moves, and that pruning takes nothing from an exporter.
    - Matching, Float64, JsonSchema, JsonDiff (schema/json.rs): the validator, the
      loader that turns a JSON schema into a graph of nodes, the comparison of
      two graphs and its report, and the maximum matching that pairs the
      branches of unions. JsonLoad, JsonCompare, JsonReads and JsonFacts prove
      them. Float64 is the part of f64 the comparison of numbers uses. The regex
      crate and the parsing of JSON text are an interface (class [JsonCrates]).
    - Protobuf (schema/protobuf.rs): the comparison of two schemas, over the
      descriptors of prost_reflect as an interface (class [Reflect] with its
      laws). ProtoCheck has an instance of it over a table of examples and proves that the comparison ends and that a schema reads itself,
      ProtoAccepts which fields of an accepted reader agree with the writer's, and
      which are not compared.
    - ProtoLex, ProtoWire, ProtoEdits (schema/proto_wire.rs): the lexer, the
      parser and the printer of the source-level model of [.proto] files, the
      text without extensions, and the tag edits. ProtoLogic is a program logic
      for the parser and proves that it ends; ProtoSpell relates texts and the
      tokens they spell; ProtoRead and ProtoElements read back what
      is printed, element by element; ProtoCanonical shows that what the
      parser builds can be printed, and puts them together: a canonical text is
      its own canonical text.
    - Dump, DerivedJson, Restore (backup.rs): dumps as text, the JSON of the
      records they hold, and the dump and the restore of one container as a
      program over the registry's verbs. RestoreSpec states what it relies on as
      a contract (class [RestoreTarget]) and proves that a restore ends and is
      faithful; RestoreEngine shows that the engine keeps the contract;
      BackupSpec composes dump and restore, and has the runs where
      something else than the versions is not given back.
    - Tags (schema/tags.rs, [modify_tags]): tag edits as schema rewrites, proved
      to change nothing but tags for Avro and JSON schemas.
    - Requests, Listings, Api (api/jackson.rs, model.rs, api/mod.rs,
      api/handlers.rs, api/exporters.rs, api/admin.rs, registry/listings.rs,
      registry/admin.rs): bodies and parameters, listings and the rows of the
      admin console, the table of routes, the handlers and the layers of the
      service, as functions of a request and the registry. ApiSafety proves that
      router and authorization read a path the same way and that nothing of a
      subject changes unless the caller may write it, by an interface of the
      verbs (class [Confined]: a plan stays within its target).
    - Findings: concrete runs on which the code does not do what it means to.

    ** How the code corresponds

    State is passed explicitly: a [Snapshot], a [DB] of rows, a [RegistryState]
    with both and the caches. [Result] and [?] are the monad of Prelude;
    panics of the source that a request can reach are the [Panic] outcome.
    Machine integers are [Z] with wrap-around written out where the source
    casts or adds. Maps whose order matters are lists, others [gmap]. Strings
    are byte strings; text from clients is UTF-8 where a theorem says so.

    Not under src/, and so parameters with named laws: RocksDB ([RocksDB],
    [RocksDBLaws]), serde ([Serde]: what is written is read back), the three
    schema formats ([SchemaFormats]), SHA-256, bcrypt and base64 (functions
    without laws except where a theorem names one; no theorem takes SHA-256 to
    be injective), and the hash behind the
    lock stripes. Each theorem that has such a hypothesis has a witness in
    which the parameter is a concrete function.

    ** What is proved

    - Histories: whatever is requested, reported, pruned, evicted and
      restarted, the snapshot stays consistent, a restart gives it back, the
      change log replays to it, a failed verb changes nothing but caches, and
      the mode in scope is respected (Consistency). Reading through the body
      cache is reading the store, with one exception, shown by a run: an id that
      is removed for good and imported again while a read is under way. The
      engine runs verbs one after the other; Locks shows that verbs that do run
      together are about different contexts (or one is about exporters) and that
      the locks always drain.
    - Registration: its exact effect in terms of the content of the request and
      its hash, ids are never reused or overwritten, versions grow, what is
      stored is compatible with the newest live version of its group, and a
      second registration is recognised (Register). Deletion: two stages, exact effect, references
      respected (Deletes).
    - Storage: the log is read and pruned exactly, containers are isolated, the
      migration survives crashes at any write (Changelog, Recovery, Migration).
    - The edges: request paths and their encodings, authorization against what
      the router serves, globs against a reference semantics, names, exporter
      records, iteration orders, compatibility levels, fingerprints. The cache
      of credentials decides as the configuration does unless two of the texts
      it hashes collide under SHA-256.

    ** Bounds and fuel

    Recursion is structural except: [trim], UTF-8 scanning and reference
    resolution, which run on fuel equal to the length of the input or, for
    references, to the depth limit the code itself imposes; the lemmas show
    that this fuel is never exhausted where a theorem needs it.
    The walks of Java's checks through the types of defaults run on fuel: a theorem
    gives fuel for every schema whose defaults hold no object, and another one
    shows a schema for which there is none. The Avro checker recurses through the memo and runs on fuel: a theorem
    gives, for every pair of schemas, fuel for which it answers. The JSON loader
    has such a theorem for every schema; the JSON comparison for every pair in
    which no schema lists itself as a branch, and a theorem shows that it never
    ends on one that does. The fuel of the matching is the number of
    branches, which is enough for it to be exact. The Protobuf comparison has
    fuel for every pair of schemas, bounded by the number of messages and the
    length of their names. The parser of [.proto] sources has a step for each
    token and one more, and a theorem that this is enough. A restore needs one step more than the dump has
    versions. Reading loops
    of the PROXY protocol run at most once per byte they may take.
    ** Not modelled, and why

    The parser of the Avro library, the compilation, normalization and descriptors of
    Protobuf, backup and migration over the network, the access log, metrics and process start-up. *)
From stdpp Require Export base tactics option list list_numbers gmap strings sorting pretty.
From Stdlib Require Export Ascii ZArith Lia.

Declare Scope registry_scope.
Delimit Scope registry_scope with registry.
Open Scope registry_scope.

(** * Results: the source's [Result<T, E>] *)

Inductive result (E A : Type) :=
| Ok (a : A)
| Err (e : E).
Arguments Ok {E A} a.
Arguments Err {E A} e.

#[export] Instance result_ret {E} : MRet (result E) := λ A a, Ok a.
#[export] Instance result_bind {E} : MBind (result E) := λ A B f m,
  match m with Ok a => f a | Err e => Err e end.
#[export] Instance result_fmap {E} : FMap (result E) := λ A B f m,
  match m with Ok a => Ok (f a) | Err e => Err e end.

(** [Option::ok_or_else], [Result::map_err], [Result::ok]. *)
Definition ok_or {E A} (o : option A) (e : E) : result E A :=
  match o with Some a => Ok a | None => Err e end.
Definition map_err {E F A} (f : E → F) (m : result E A) : result F A :=
  match m with Ok a => Ok a | Err e => Err (f e) end.
Definition is_ok {E A} (m : result E A) : bool :=
  match m with Ok _ => true | Err _ => false end.

(** A guard: the early return of an error. *)
Definition refuse_if {E} (b : bool) (e : E) : result E () :=
  if b then Err e else Ok ().

Section result_lemmas.
Context {E : Type}.

Lemma bind_Ok {A B} (f : A → result E B) (m : result E A) b :
  m ≫= f = Ok b ↔ ∃ a, m = Ok a ∧ f a = Ok b.
Proof. destruct m; simpl; naive_solver. Qed.

Lemma bind_Err {A B} (f : A → result E B) (m : result E A) e :
  m ≫= f = Err e ↔ m = Err e ∨ ∃ a, m = Ok a ∧ f a = Err e.
Proof. destruct m; simpl; naive_solver. Qed.

Lemma ok_or_Ok {A} (o : option A) (e : E) a : ok_or o e = Ok a ↔ o = Some a.
Proof. destruct o; simpl; naive_solver. Qed.

Lemma map_err_Ok {F A} (f : E → F) (m : result E A) a : map_err f m = Ok a ↔ m = Ok a.
Proof. destruct m; simpl; naive_solver. Qed.

Lemma refuse_if_Ok b (e : E) u : refuse_if b e = Ok u ↔ b = false.
Proof. destruct u, b; simpl; naive_solver. Qed.
End result_lemmas.

(** Iteration with early exit: [for x in xs { ... ? }]. *)
Fixpoint mapM_result {E A B} (f : A → result E B) (l : list A) : result E (list B) :=
  match l with
  | [] => Ok []
  | x :: l => y ← f x; ys ← mapM_result f l; Ok (y :: ys)
  end.

Lemma mapM_result_Ok {E A B} (f : A → result E B) l k :
  mapM_result f l = Ok k ↔ Forall2 (λ x y, f x = Ok y) l k.
Proof.
  revert k; induction l as [|x l IH]; intros k; simpl.
  - split; [by intros [= <-]|by inversion 1].
  - rewrite bind_Ok; setoid_rewrite bind_Ok. split.
    + intros (y & Hy & ys & Hys & [= <-]). constructor; [done|by apply IH].
    + inversion 1; subst. eexists; split; [done|]. eexists; split; [by apply IH|done].
Qed.

(** * Fixed-width integers *)

Local Open Scope Z_scope.

Definition u16_max : Z := 2 ^ 16 - 1.
Definition u32_max : Z := 2 ^ 32 - 1.
Definition u64_max : Z := 2 ^ 64 - 1.
Definition i32_max : Z := 2 ^ 31 - 1.
Definition i32_min : Z := - 2 ^ 31.

Definition is_u32 (z : Z) : Prop := 0 ≤ z ≤ u32_max.
Definition is_i32 (z : Z) : Prop := i32_min ≤ z ≤ i32_max.
Definition is_u64 (z : Z) : Prop := 0 ≤ z ≤ u64_max.

(** [x as u32], [x as i32] and [a + b] on [u32] in a release build. *)
Definition as_u32 (z : Z) : Z := z `mod` 2 ^ 32.
Definition as_i32 (z : Z) : Z := (z + 2 ^ 31) `mod` 2 ^ 32 - 2 ^ 31.
Definition u32_add (a b : Z) : Z := (a + b) `mod` 2 ^ 32.
Definition u64_add (a b : Z) : Z := (a + b) `mod` 2 ^ 64.

Lemma as_u32_small z : is_u32 z → as_u32 z = z.
Proof. unfold is_u32, u32_max, as_u32. intros. apply Z.mod_small. lia. Qed.
Lemma as_u32_bound z : is_u32 (as_u32 z).
Proof. unfold is_u32, u32_max, as_u32. pose proof (Z.mod_pos_bound z (2^32)). lia. Qed.
Lemma as_i32_small z : is_i32 z → as_i32 z = z.
Proof.
  unfold is_i32, i32_min, i32_max, as_i32. intros. rewrite Z.mod_small; lia.
Qed.
Lemma as_i32_wraps z : 2 ^ 31 ≤ z ≤ u32_max → as_i32 z < 0.
Proof.
  unfold u32_max, as_i32. intros.
  replace ((z + 2 ^ 31) `mod` 2 ^ 32) with (z - 2 ^ 31); [lia|].
  apply (Z.mod_unique_pos _ _ 1); lia.
Qed.
Lemma u32_add_small a b : is_u32 (a + b) → u32_add a b = a + b.
Proof. intros. by apply as_u32_small. Qed.

Close Scope Z_scope.

(** * Ordering: the byte order Rust gives [String] *)

Definition string_le (a b : string) : Prop := String.leb a b = true.
#[export] Instance string_le_dec a b : Decision (string_le a b).
Proof. unfold string_le. apply _. Defined.
Definition string_lt (a b : string) : Prop := String.ltb a b = true.
#[export] Instance string_lt_dec a b : Decision (string_lt a b).
Proof. unfold string_lt. apply _. Defined.
