(* ===== verification/SortedVec.v ===== *)
(** Small sorted vectors (snapshot.rs, [Small<T>]): Rust's [Ord] as a type
    class, [binary_search_by] as the standard library implements it, and the
    four copy-on-write helpers built on it, with their abstraction to finite
    maps and sets. *)
From S2P Require Import Prelude.

(** * Rust's [Ord] *)

Create HintDb registry.

Class RustOrd (K : Type) := cmp : K → K → comparison.
#[export] Hint Mode RustOrd ! : typeclass_instances.

Class RustOrdLaws (K : Type) `{RustOrd K} := {
  cmp_eq : ∀ a b : K, cmp a b = Eq ↔ a = b;
  cmp_antisym : ∀ a b : K, cmp b a = CompOpp (cmp a b);
  cmp_lt_trans : ∀ a b c : K, cmp a b = Lt → cmp b c = Lt → cmp a c = Lt;
}.
#[export] Hint Mode RustOrdLaws ! - : typeclass_instances.

Definition klt `{RustOrd K} (a b : K) : Prop := cmp a b = Lt.
Definition kle `{RustOrd K} (a b : K) : Prop := cmp a b ≠ Gt.
#[export] Instance klt_dec `{RustOrd K} (a b : K) : Decision (klt a b).
Proof. unfold klt. solve_decision. Defined.
#[export] Instance kle_dec `{RustOrd K} (a b : K) : Decision (kle a b).
Proof. unfold kle. solve_decision. Defined.

#[export] Instance Z_ord : RustOrd Z := Z.compare.
#[export] Instance string_ord : RustOrd string := String.compare.
#[export] Instance pair_ord `{RustOrd A, RustOrd B} : RustOrd (A * B) := λ x y,
  match cmp x.1 y.1 with Eq => cmp x.2 y.2 | c => c end.

#[export] Instance Z_ord_laws : RustOrdLaws Z.
Proof.
  split; unfold cmp, Z_ord.
  - apply Z.compare_eq_iff.
  - intros. apply Z.compare_antisym.
  - intros a b c. rewrite !Z.compare_lt_iff. lia.
Qed.

Lemma ascii_compare_eq (a b : ascii) : Ascii.compare a b = Eq ↔ a = b.
Proof.
  split; [apply Ascii.compare_eq_iff|intros ->].
  unfold Ascii.compare. apply N.compare_refl.
Qed.

Lemma ascii_compare_trans (a b c : ascii) :
  Ascii.compare a b = Lt → Ascii.compare b c = Lt → Ascii.compare a c = Lt.
Proof. unfold Ascii.compare. rewrite !N.compare_lt_iff. lia. Qed.

#[export] Instance string_ord_laws : RustOrdLaws string.
Proof.
  split; unfold cmp, string_ord.
  - intros a b; split; [apply String.compare_eq_iff|intros ->].
    induction b as [|x b IH]; simpl; [done|].
    by rewrite (proj2 (ascii_compare_eq x x) eq_refl).
  - intros. apply String.compare_antisym.
  - induction a as [|x a IH]; intros [|y b] [|z c]; simpl; try done.
    destruct (Ascii.compare x y) eqn:Exy; [|clear IH|done].
    + apply ascii_compare_eq in Exy as ->.
      destruct (Ascii.compare y z); [apply IH|done..].
    + intros _. destruct (Ascii.compare y z) eqn:Eyz; [|intros _|done].
      * apply ascii_compare_eq in Eyz as ->. by rewrite Exy.
      * by rewrite (ascii_compare_trans _ _ _ Exy Eyz).
Qed.

#[export] Instance pair_ord_laws `{RustOrdLaws A, RustOrdLaws B} : RustOrdLaws (A * B).
Proof.
  split; unfold cmp, pair_ord.
  - intros [a b] [a' b']; simpl. destruct (cmp a a') eqn:E.
    + apply cmp_eq in E as ->. rewrite cmp_eq. naive_solver.
    + split; [done|]. intros [= -> ->]. by rewrite (proj2 (cmp_eq a' a') eq_refl) in E.
    + split; [done|]. intros [= -> ->]. by rewrite (proj2 (cmp_eq a' a') eq_refl) in E.
  - intros [a b] [a' b']; simpl. rewrite (cmp_antisym a a').
    destruct (cmp a a'); simpl; [apply cmp_antisym|done..].
  - intros [a b] [a' b'] [a'' b'']; simpl.
    destruct (cmp a a') eqn:E1; [apply cmp_eq in E1 as ->|intros _|done].
    + destruct (cmp a' a''); [apply cmp_lt_trans|done..].
    + destruct (cmp a' a'') eqn:E2; [apply cmp_eq in E2 as -> |intros _|done].
      * by rewrite E1.
      * by rewrite (cmp_lt_trans _ _ _ E1 E2).
Qed.

Section order.
Context `{RustOrdLaws K}.
Implicit Types a b c : K.

Lemma cmp_refl a : cmp a a = Eq.
Proof. by apply cmp_eq. Qed.
Lemma cmp_gt a b : cmp a b = Gt ↔ klt b a.
Proof. unfold klt. rewrite (cmp_antisym a b). by destruct (cmp a b). Qed.
Lemma kle_lt_eq a b : kle a b ↔ klt a b ∨ a = b.
Proof.
  unfold kle, klt. rewrite <-(cmp_eq a b). destruct (cmp a b); naive_solver.
Qed.

#[export] Instance klt_trans : Transitive (klt (K:=K)).
Proof. intros a b c. apply cmp_lt_trans. Qed.
#[export] Instance klt_irrefl : Irreflexive (klt (K:=K)).
Proof. intros a. unfold complement, klt. by rewrite cmp_refl. Qed.
#[export] Instance kle_refl : Reflexive (kle (K:=K)).
Proof. intros a. apply kle_lt_eq. by right. Qed.
#[export] Instance kle_trans : Transitive (kle (K:=K)).
Proof.
  intros a b c. rewrite !kle_lt_eq. intros [| ->] [| <-]; auto. left; by etrans.
Qed.
#[export] Instance kle_antisymm : AntiSymm (=) (kle (K:=K)).
Proof.
  intros a b. rewrite !kle_lt_eq. intros [H1|] [H2|]; try done.
  destruct (klt_irrefl a). by etrans.
Qed.
#[export] Instance kle_total : Total (kle (K:=K)).
Proof.
  intros a b. unfold kle. rewrite (cmp_antisym a b). destruct (cmp a b); auto.
Qed.

Lemma kle_klt_trans a b c : kle a b → klt b c → klt a c.
Proof. rewrite kle_lt_eq. intros [| ->]; [by apply klt_trans|done]. Qed.
Lemma klt_kle_trans a b c : klt a b → kle b c → klt a c.
Proof. rewrite kle_lt_eq. intros ? [| <-]; [by eapply klt_trans|done]. Qed.
Lemma klt_ne a b : klt a b → a ≠ b.
Proof. intros Hlt ->. by apply (klt_irrefl b). Qed.
End order.

(** [Vec::sort] / [slice::sort]. *)
Definition sort_vec `{RustOrd K} (l : list K) : list K := merge_sort kle l.

(** * [slice::binary_search_by]

    The standard library's loop: [size] halves while it is more than one, so
    [length l] iterations are always enough. [inl i] is [Ok(i)] and [inr i] is
    [Err(i)]. The probe [f x] is [key(x).cmp(wanted)]. *)
Section binary_search.
Context {A : Type}.

Fixpoint bsearch_loop (fuel : nat) (f : A → comparison) (l : list A) (base size : nat) : nat :=
  match fuel with
  | O => base
  | S fuel =>
      if decide (size ≤ 1) then base else
      let half := Nat.div2 size in
      let mid := base + half in
      let base' := match f <$> (l !! mid) with Some Gt => base | _ => mid end in
      bsearch_loop fuel f l base' (size - half)
  end.

Definition binary_search_by (f : A → comparison) (l : list A) : nat + nat :=
  if decide (length l = 0) then inr 0 else
  let base := bsearch_loop (length l) f l 0 (length l) in
  match f <$> (l !! base) with
  | Some Eq => inl base
  | Some Lt => inr (S base)
  | _ => inr base
  end.
End binary_search.

Section helpers.
Context `{RustOrd K} {V : Type}.

(** [fn small_insert]: replace at the key's index or insert in order. *)
Definition small_insert (v : list (K * V)) (key : K) (value : V) : list (K * V) :=
  match binary_search_by (λ kv, cmp kv.1 key) v with
  | inl i => <[i := (key, value)]> v
  | inr i => take i v ++ (key, value) :: drop i v
  end.

(** [fn small_remove] *)
Definition small_remove (v : list (K * V)) (key : K) : list (K * V) :=
  match binary_search_by (λ kv, cmp kv.1 key) v with
  | inl i => delete i v
  | inr _ => v
  end.

(** [fn set_insert] *)
Definition set_insert (v : list K) (x : K) : list K :=
  match binary_search_by (λ y, cmp y x) v with
  | inl _ => v
  | inr i => take i v ++ x :: drop i v
  end.

(** [fn set_remove] *)
Definition set_remove (v : list K) (x : K) : list K :=
  match binary_search_by (λ y, cmp y x) v with
  | inl i => delete i v
  | inr _ => v
  end.
End helpers.

(** * Correctness of the search on strictly sorted vectors *)
Section search_spec.
Context `{RustOrdLaws K} {A : Type} (key : A → K).
Implicit Types l : list A.

Abbreviation probe k := (λ x : A, cmp (key x) k).
Definition keys_sorted l : Prop := StronglySorted (λ x y, klt (key x) (key y)) l.

Lemma keys_sorted_lookup l i j x y :
  keys_sorted l → l !! i = Some x → l !! j = Some y → i < j → klt (key x) (key y).
Proof.
  intros Hs. revert i j. induction Hs as [|z l Hs IH Hall]; intros i j Hi Hj Hlt; [done|].
  destruct i as [|i], j as [|j]; simplify_eq/=; [lia| |lia|].
  - rewrite Forall_forall in Hall. apply Hall, list_elem_of_lookup. eauto.
  - eapply IH; eauto with lia.
Qed.

(** The loop invariant: everything before [base] is at most the wanted key
    (so is [base] itself once it has moved), everything from [base + size]
    on is greater. *)
Lemma bsearch_loop_spec l k fuel base size :
  keys_sorted l → size ≤ fuel → 0 < size → base + size ≤ length l →
  (base = 0 ∨ ∃ x, l !! base = Some x ∧ kle (key x) k) →
  (∀ j x, l !! j = Some x → base + size ≤ j → klt k (key x)) →
  let b := bsearch_loop fuel (probe k) l base size in
  b < length l ∧ (b = 0 ∨ ∃ x, l !! b = Some x ∧ kle (key x) k) ∧
  (∀ j x, l !! j = Some x → b < j → klt k (key x)).
Proof.
  intros Hs. revert base size. induction fuel as [|fuel IH]; intros base size; [lia|].
  intros Hf Hpos Hlen Hlow Hhigh. simpl. case_decide as Hsz.
  { assert (size = 1) as -> by lia. split_and!; [lia|done|].
    intros j x Hj Hlt. apply (Hhigh j); [done|lia]. }
  assert (0 < Nat.div2 size ∧ 2 * Nat.div2 size ≤ size) as [Hh1 Hh2].
  { pose proof (Nat.div2_odd size) as Ho. split; [|lia].
    rewrite Nat.div2_div. apply Nat.div_str_pos. lia. }
  destruct (lookup_lt_is_Some_2 l (base + Nat.div2 size)) as [x Hx]; [lia|].
  rewrite Hx; simpl. destruct (cmp (key x) k) eqn:E; apply IH; try lia.
  - right. exists x. split; [done|]. unfold kle. by rewrite E.
  - intros j y Hj Hle. apply (Hhigh j); [done|lia].
  - right. exists x. split; [done|]. unfold kle. by rewrite E.
  - intros j y Hj Hle. apply (Hhigh j); [done|lia].
  - done.
  - intros j y Hj Hle. apply cmp_gt in E.
    destruct (decide (j = base + Nat.div2 size)) as [->|]; [by simplify_eq|].
    etrans; [exact E|]. eapply (keys_sorted_lookup l (base + Nat.div2 size) j); eauto. lia.
Qed.

(** The search decides membership and yields the insertion point. *)
Lemma binary_search_spec l k :
  keys_sorted l →
  match binary_search_by (probe k) l with
  | inl i => ∃ x, l !! i = Some x ∧ key x = k
  | inr i => i ≤ length l ∧ (∀ x, x ∈ take i l → klt (key x) k) ∧
             (∀ x, x ∈ drop i l → klt k (key x))
  end.
Proof.
  intros Hs. unfold binary_search_by. case_decide as Hl.
  { apply length_zero_iff_nil in Hl as ->. simpl. set_solver. }
  destruct (bsearch_loop_spec l k (length l) 0 (length l)) as (Hb & Hlow & Hhigh);
    [done|lia|lia|lia|by left| |].
  { intros j x Hj%lookup_lt_Some. lia. }
  set (b := bsearch_loop _ _ _ _ _) in *.
  destruct (lookup_lt_is_Some_2 l b) as [x Hx]; [done|]. rewrite Hx; simpl.
  assert (∀ y, y ∈ drop (S b) l → klt k (key y)) as Hafter.
  { intros y [i Hi]%list_elem_of_lookup. rewrite lookup_drop in Hi.
    apply (Hhigh (S b + i)); [done|lia]. }
  assert (∀ y, y ∈ take b l → klt (key y) (key x)) as Hbefore.
  { intros y [i Hi]%list_elem_of_lookup. apply lookup_take_Some in Hi as [Hi ?].
    by apply (keys_sorted_lookup l i b). }
  destruct (cmp (key x) k) eqn:E.
  - exists x. split; [done|]. by apply cmp_eq.
  - split_and!; [lia| |done]. intros y. rewrite (take_S_r _ _ x Hx).
    rewrite elem_of_app, list_elem_of_singleton. intros [Hy| ->]; [|done].
    etrans; [by apply Hbefore|done].
  - destruct Hlow as [Hb0|(x' & Hx' & Hle)].
    + rewrite Hb0 in *. split_and!; [lia|set_solver|].
      intros y. rewrite (drop_S _ x) by done. rewrite elem_of_cons.
      intros [->|]; [by apply cmp_gt|by apply Hafter].
    + unfold kle in Hle. simplify_eq.
Qed.
End search_spec.

(** * The helpers, abstracted *)
Section small_map.
Context `{RustOrdLaws K} `{!EqDecision K, !Countable K} {V : Type}.
Implicit Types v : list (K * V).

Definition small_sorted v : Prop := keys_sorted fst v.

Lemma keys_sorted_NoDup {A} (key : A → K) (l : list A) : keys_sorted key l → NoDup (key <$> l).
Proof.
  induction 1 as [|x l Hs IH Hall]; csimpl; constructor; [|done].
  rewrite list_elem_of_fmap. intros (y & Hy & Hin).
  rewrite Forall_forall in Hall. apply Hall in Hin. rewrite Hy in Hin. by apply klt_irrefl in Hin.
Qed.

Lemma small_sorted_NoDup v : small_sorted v → NoDup v.*1.
Proof. apply keys_sorted_NoDup. Qed.

Lemma keys_sorted_app {A} (key : A → K) (l k : list A) :
  keys_sorted key (l ++ k) ↔
  keys_sorted key l ∧ keys_sorted key k ∧ ∀ x y, x ∈ l → y ∈ k → klt (key x) (key y).
Proof.
  unfold keys_sorted. induction l as [|x l IH]; simpl.
  { split; [|tauto]. intros Hs. split_and!; [constructor|done|]. intros x y Hx. inversion Hx. }
  split.
  - inversion_clear 1 as [|?? Hs Hall]. apply IH in Hs as (?&?&?).
    rewrite Forall_app, !Forall_forall in Hall. destruct Hall as [Hl Hk].
    split_and!; [constructor; [done|by apply Forall_forall]|done|].
    intros a b. rewrite elem_of_cons. intros [->|]; auto.
  - intros (Hs1 & Hs2 & Hlt). inversion_clear Hs1 as [|?? Hs Hall]. constructor.
    + apply IH. split_and!; [done|done|]. intros ????. apply Hlt; [by right|done].
    + apply Forall_app; split; [done|]. apply Forall_forall. intros y Hy.
      apply Hlt; [by left|done].
Qed.

Lemma keys_sorted_insert_at {A} (key : A → K) (l : list A) i x :
  keys_sorted key l →
  (∀ y, y ∈ take i l → klt (key y) (key x)) → (∀ y, y ∈ drop i l → klt (key x) (key y)) →
  keys_sorted key (take i l ++ x :: drop i l).
Proof.
  intros Hs Hb Ha. rewrite <-(take_drop i l) in Hs.
  apply keys_sorted_app in Hs as (Hs1 & Hs2 & Hlt).
  apply keys_sorted_app. split_and!; [done| |].
  - constructor; [done|]. apply Forall_forall. apply Ha.
  - intros a b Hin. rewrite elem_of_cons. intros [->|]; auto.
Qed.

Lemma keys_sorted_delete {A} (key : A → K) (l : list A) i :
  keys_sorted key l → keys_sorted key (delete i l).
Proof.
  intros Hs. rewrite delete_take_drop. rewrite <-(take_drop (S i) l) in Hs.
  apply keys_sorted_app in Hs as (Hs1 & Hs2 & Hlt).
  assert (take i l = take i (take (S i) l)) as Ht by (rewrite take_take; f_equal; lia).
  rewrite <-(take_drop i (take (S i) l)) in Hs1. rewrite <-Ht in Hs1.
  apply keys_sorted_app in Hs1 as (Hs1 & _ & _).
  apply keys_sorted_app. split_and!; [done|done|].
  intros a b Hin Hin'. apply Hlt; [|done]. rewrite Ht in Hin.
  apply elem_of_take in Hin as (j & Hj & _). apply list_elem_of_lookup. by exists j.
Qed.

(** In a strictly sorted vector no other position has the key of position [i]. *)
Lemma keys_sorted_middle {A} (key : A → K) (l : list A) i x y :
  keys_sorted key l → l !! i = Some x → y ∈ take i l ∨ y ∈ drop (S i) l → key y ≠ key x.
Proof.
  intros Hs Hi. rewrite elem_of_take. intros [(j & Hj & ?)|Hy].
  - apply klt_ne. by eapply keys_sorted_lookup.
  - apply list_elem_of_lookup in Hy as [j Hj]. rewrite lookup_drop in Hj.
    apply not_eq_sym, klt_ne. eapply (keys_sorted_lookup key l i (S i + j)); eauto. lia.
Qed.

Lemma keys_sorted_absent {A} (key : A → K) (l : list A) i k y :
  (∀ x, x ∈ take i l → klt (key x) k) → (∀ x, x ∈ drop i l → klt k (key x)) →
  y ∈ l → key y ≠ k.
Proof.
  intros Hb Ha. rewrite <-(take_drop i l), elem_of_app.
  intros [Hy|Hy]; [apply klt_ne, Hb, Hy|apply not_eq_sym, klt_ne, Ha, Hy].
Qed.

(** The pairs of a sorted vector are determined by its lookup function. *)
Definition small_map v : gmap K V := list_to_map v.

Lemma small_lookup v k x : small_sorted v → small_map v !! k = Some x ↔ (k, x) ∈ v.
Proof. intros Hs. symmetry. apply elem_of_list_to_map, small_sorted_NoDup, Hs. Qed.

Lemma small_lookup_None v k : small_map v !! k = None ↔ k ∉ v.*1.
Proof. symmetry. apply not_elem_of_list_to_map. Qed.

Lemma small_nil_map v : small_map v = ∅ ↔ v = [].
Proof.
  split; [|by intros ->]. destruct v as [|[k x] v]; [done|].
  intros Heq. exfalso. apply (f_equal (lookup k)) in Heq.
  unfold small_map in Heq. simpl in Heq. by rewrite lookup_insert_eq, lookup_empty in Heq.
Qed.

Lemma small_elem_unique v k x y : small_sorted v → (k, x) ∈ v → (k, y) ∈ v → x = y.
Proof. intros Hs. rewrite <-!(small_lookup _ _ _ Hs). congruence. Qed.

(** Sortedness makes the representation canonical. *)
Lemma small_map_inj v w : small_sorted v → small_sorted w → small_map v = small_map w → v = w.
Proof.
  intros Hv Hw Heq. eapply (StronglySorted_unique_strong (λ x y, klt x.1 y.1)); [|done..|].
  - intros [k x] [k' x'] _ _ H1 H2. destruct (klt_irrefl k). by etrans.
  - apply NoDup_Permutation; [eapply NoDup_fmap_1, small_sorted_NoDup; done..|].
    intros [k x]. by rewrite <-!small_lookup, Heq.
Qed.

Lemma small_insert_sorted v k x : small_sorted v → small_sorted (small_insert v k x).
Proof.
  intros Hs. unfold small_insert.
  pose proof (binary_search_spec fst v k Hs) as Hsp.
  destruct (binary_search_by _ v) as [i|i]; simpl in Hsp.
  - destruct Hsp as ([k' x'] & Hi & Hk); simpl in Hk; subst.
    rewrite insert_take_drop by (by eapply lookup_lt_Some).
    pose proof (keys_sorted_delete fst v i Hs) as Hd. rewrite delete_take_drop in Hd.
    rewrite <-(take_drop_middle v i _ Hi) in Hs.
    apply keys_sorted_app in Hs as (Hs1 & Hs2 & Hlt).
    inversion_clear Hs2 as [|?? Hs3 Hall]. apply keys_sorted_app. split_and!; [done| |].
    + by constructor.
    + intros a b Ha. rewrite elem_of_cons. intros [->|Hb].
      * apply (Hlt a (k, x')); [done|by left].
      * apply Hlt; [done|by right].
  - destruct Hsp as (_ & Hb & Ha). by apply keys_sorted_insert_at.
Qed.

Lemma small_insert_map v k x : small_sorted v →
  small_map (small_insert v k x) = <[k := x]> (small_map v).
Proof.
  intros Hs. pose proof (small_insert_sorted v k x Hs) as Hs'.
  apply map_eq. intros j. apply option_eq. intros y.
  rewrite small_lookup, lookup_insert_Some, small_lookup by done.
  unfold small_insert in *. pose proof (binary_search_spec fst v k Hs) as Hsp.
  destruct (binary_search_by _ v) as [i|i]; simpl in Hsp.
  - destruct Hsp as ([k' x'] & Hi & Hk); simpl in Hk; subst.
    pose proof (λ z, keys_sorted_middle fst v i _ (k, z) Hs Hi) as Hm; simpl in Hm.
    rewrite insert_take_drop by (by eapply lookup_lt_Some).
    rewrite <-(take_drop_middle v i _ Hi) at 3.
    rewrite !elem_of_app, !elem_of_cons. naive_solver.
  - destruct Hsp as (_ & Hb & Ha).
    pose proof (λ z, keys_sorted_absent fst v i k (k, z) Hb Ha) as Hm; simpl in Hm.
    assert ((j, y) ∈ v ↔ (j, y) ∈ take i v ∨ (j, y) ∈ drop i v) as Hv
      by (by rewrite <-elem_of_app, take_drop).
    rewrite !elem_of_app, elem_of_cons. naive_solver.
Qed.

Lemma small_remove_sorted v k : small_sorted v → small_sorted (small_remove v k).
Proof.
  intros Hs. unfold small_remove. destruct (binary_search_by _ v); [|done].
  by apply keys_sorted_delete.
Qed.

Lemma small_remove_map v k : small_sorted v →
  small_map (small_remove v k) = delete k (small_map v).
Proof.
  intros Hs. pose proof (small_remove_sorted v k Hs) as Hs'.
  apply map_eq. intros j. apply option_eq. intros y.
  rewrite small_lookup, lookup_delete_Some, small_lookup by done.
  unfold small_remove in *. pose proof (binary_search_spec fst v k Hs) as Hsp.
  destruct (binary_search_by _ v) as [i|i]; simpl in Hsp.
  - destruct Hsp as ([k' x'] & Hi & Hk); simpl in Hk; subst.
    pose proof (λ z, keys_sorted_middle fst v i _ (k, z) Hs Hi) as Hm; simpl in Hm.
    rewrite delete_take_drop. rewrite <-(take_drop_middle v i _ Hi) at 3.
    rewrite !elem_of_app, !elem_of_cons. naive_solver.
  - destruct Hsp as (_ & Hb & Ha).
    pose proof (λ z, keys_sorted_absent fst v i k (k, z) Hb Ha) as Hm; simpl in Hm.
    naive_solver.
Qed.
End small_map.

Section small_set.
Context `{RustOrdLaws K}.
Implicit Types v : list K.

Definition set_sorted v : Prop := keys_sorted id v.

Lemma set_insert_sorted v x : set_sorted v → set_sorted (set_insert v x).
Proof.
  intros Hs. unfold set_insert. pose proof (binary_search_spec id v x Hs) as Hsp.
  unfold id in Hsp. destruct (binary_search_by _ v) as [i|i]; [done|].
  destruct Hsp as (_ & Hb & Ha). by apply keys_sorted_insert_at.
Qed.

Lemma elem_of_set_insert v x y : set_sorted v → y ∈ set_insert v x ↔ y = x ∨ y ∈ v.
Proof.
  intros Hs. unfold set_insert. pose proof (binary_search_spec id v x Hs) as Hsp.
  unfold id in Hsp. destruct (binary_search_by _ v) as [i|i].
  - destruct Hsp as (z & Hz & ->). apply list_elem_of_lookup_2 in Hz. naive_solver.
  - rewrite elem_of_app, elem_of_cons. rewrite <-(take_drop i v) at 3.
    rewrite elem_of_app. naive_solver.
Qed.

Lemma set_remove_sorted v x : set_sorted v → set_sorted (set_remove v x).
Proof.
  intros Hs. unfold set_remove. destruct (binary_search_by _ v); [|done].
  by apply keys_sorted_delete.
Qed.

Lemma elem_of_set_remove v x y : set_sorted v → y ∈ set_remove v x ↔ y ≠ x ∧ y ∈ v.
Proof.
  intros Hs. unfold set_remove. pose proof (binary_search_spec id v x Hs) as Hsp.
  unfold id in Hsp. destruct (binary_search_by _ v) as [i|i].
  - destruct Hsp as (z & Hz & ->).
    pose proof (keys_sorted_middle id v i _ x Hs Hz) as Hm. unfold id in Hm.
    rewrite delete_take_drop. rewrite <-(take_drop_middle v i _ Hz) at 3.
    rewrite !elem_of_app, elem_of_cons. naive_solver.
  - destruct Hsp as (_ & Hb & Ha).
    pose proof (keys_sorted_absent id v i x x Hb Ha) as Hm. naive_solver.
Qed.

Lemma set_sorted_NoDup v : set_sorted v → NoDup v.
Proof. intros Hs. rewrite <-(list_fmap_id v). by apply (keys_sorted_NoDup id). Qed.

Lemma set_sorted_inj v w : set_sorted v → set_sorted w → (∀ x, x ∈ v ↔ x ∈ w) → v = w.
Proof.
  intros Hv Hw Heq. eapply (StronglySorted_unique_strong klt); [|done..|].
  - intros x y _ _ H1 H2. destruct (klt_irrefl x). by etrans.
  - apply NoDup_Permutation; [by apply set_sorted_NoDup..|done].
Qed.
End small_set.

#[export] Hint Resolve small_insert_sorted small_remove_sorted set_insert_sorted set_remove_sorted : registry.

(** A sorted listing of the keys of a map: [OrdMap::keys]. *)
Definition ord_keys `{RustOrd K} `{Countable K} {V} (m : gmap K V) : list K :=
  merge_sort kle (map_to_list m).*1.

Lemma elem_of_ord_keys `{RustOrd K} `{Countable K} {V} (m : gmap K V) k :
  k ∈ ord_keys m ↔ is_Some (m !! k).
Proof.
  unfold ord_keys. rewrite merge_sort_Permutation, list_elem_of_fmap. split.
  - intros ([? x] & -> & Hin%elem_of_map_to_list). eauto.
  - intros [x Hx]. exists (k, x). split; [done|by apply elem_of_map_to_list].
Qed.

(** [Vec::dedup]: neighbours that are equal. *)
Fixpoint dedup {A} `{EqDecision A} (l : list A) : list A :=
  match l with
  | x :: (y :: _) as l' => if decide (x = y) then dedup l' else x :: dedup l'
  | _ => l
  end.

Lemma elem_of_dedup {A} `{EqDecision A} (x : A) l : x ∈ dedup l ↔ x ∈ l.
Proof.
  induction l as [|a [|b l] IH]; [done..|]. cbn [dedup]. destruct (decide (a = b)) as [->|].
  - rewrite IH. set_solver.
  - rewrite !elem_of_cons, IH, elem_of_cons. done.
Qed.
