(* ===== verification/RustStr.v ===== *)
(** Rust's [str] and [String] as the source uses them: byte strings holding
    UTF-8, with the standard library's slicing, searching, splitting, trimming
    and case operations, and the lemmas the components share about them. *)
From S2P Require Import Prelude SortedVec.

Open Scope string_scope.
Open Scope nat_scope.
Open Scope list_scope.

#[global] Arguments String.append !_ _ : simpl nomatch.

(** A single byte, and the byte as a string. *)
Definition byte (n : nat) : ascii := ascii_of_nat n.
Definition str1 (c : ascii) : string := String c EmptyString.
Definition NUL : ascii := Eval cbv in byte 0.

(** * Slices *)

Fixpoint str_take (n : nat) (s : string) : string :=
  match n, s with
  | S n, String c s => String c (str_take n s)
  | _, _ => ""
  end.

Fixpoint str_drop (n : nat) (s : string) : string :=
  match n, s with
  | O, _ => s
  | S n, String _ s => str_drop n s
  | S _, EmptyString => ""
  end.

(** [&s[a..b]] and [&s[a..]], on in-range indices. *)
Definition slice (s : string) (a b : nat) : string := str_take (b - a) (str_drop a s).
Definition slice_from (s : string) (a : nat) : string := str_drop a s.

(** * Prefixes and suffixes *)

Fixpoint strip_prefix (p s : string) : option string :=
  match p, s with
  | EmptyString, _ => Some s
  | String c p, String d s => if decide (c = d) then strip_prefix p s else None
  | String _ _, EmptyString => None
  end.

Definition starts_with (p s : string) : bool := bool_decide (is_Some (strip_prefix p s)).

Definition strip_suffix (p s : string) : option string :=
  String.rev <$> strip_prefix (String.rev p) (String.rev s).
Definition ends_with (p s : string) : bool := bool_decide (is_Some (strip_suffix p s)).

(** * Searching *)

Fixpoint find_char (c : ascii) (s : string) : option nat :=
  match s with
  | EmptyString => None
  | String d s => if decide (c = d) then Some 0 else S <$> find_char c s
  end.

Definition contains_char (c : ascii) (s : string) : bool := bool_decide (is_Some (find_char c s)).

(** [str::find] with a string needle: the first occurrence, the empty needle
    at 0. *)
Fixpoint find_str (p s : string) : option nat :=
  if starts_with p s then Some 0 else
  match s with
  | EmptyString => None
  | String _ s => S <$> find_str p s
  end.

(** [str::split_once]. *)
Definition split_once_char (c : ascii) (s : string) : option (string * string) :=
  i ← find_char c s; Some (str_take i s, str_drop (S i) s).
Definition split_once_str (p s : string) : option (string * string) :=
  i ← find_str p s; Some (str_take i s, str_drop (i + String.length p) s).

(** [str::split] by a character: never the empty list. *)
Fixpoint split_char (c : ascii) (s : string) : list string :=
  match s with
  | EmptyString => [""]
  | String d s' =>
      if decide (c = d) then "" :: split_char c s'
      else match split_char c s' with
           | w :: ws => String d w :: ws
           | [] => [String d ""]
           end
  end.

(** [slice::join]. *)
Fixpoint join (sep : string) (l : list string) : string :=
  match l with
  | [] => ""
  | [s] => s
  | s :: l => s +:+ sep +:+ join sep l
  end.

(** * Characters *)

Definition cval (c : ascii) : nat := nat_of_ascii c.
Definition in_range (lo hi : nat) (c : ascii) : bool := bool_decide (lo ≤ cval c ≤ hi).
Definition is_ascii_digit (c : ascii) : bool := in_range 48 57 c.
Definition is_ascii_upper (c : ascii) : bool := in_range 65 90 c.
Definition is_ascii_lower (c : ascii) : bool := in_range 97 122 c.
Definition is_ascii_alphanumeric (c : ascii) : bool :=
  is_ascii_digit c || is_ascii_upper c || is_ascii_lower c.

Definition to_upper (c : ascii) : ascii :=
  if is_ascii_lower c then ascii_of_nat (cval c - 32) else c.
Definition to_lower (c : ascii) : ascii :=
  if is_ascii_upper c then ascii_of_nat (cval c + 32) else c.

Fixpoint str_map (f : ascii → ascii) (s : string) : string :=
  match s with EmptyString => "" | String c s => String (f c) (str_map f s) end.
Fixpoint str_forall (f : ascii → bool) (s : string) : bool :=
  match s with EmptyString => true | String c s => f c && str_forall f s end.

Definition to_ascii_uppercase (s : string) : string := str_map to_upper s.
Definition to_ascii_lowercase (s : string) : string := str_map to_lower s.
Definition eq_ignore_ascii_case (a b : string) : bool :=
  bool_decide (to_ascii_lowercase a = to_ascii_lowercase b).

(** [chars().any(char::is_control)]: C0, DEL, and the C1 block U+0080..U+009F,
    which UTF-8 writes C2 80 .. C2 9F. *)
Fixpoint has_control (s : string) : bool :=
  match s with
  | EmptyString => false
  | String c s' =>
      bool_decide (cval c < 32) || bool_decide (cval c = 127) ||
      match s' with
      | String d _ => bool_decide (cval c = 194) && in_range 128 159 d
      | EmptyString => false
      end || has_control s'
  end.

(** * [str::trim]: the Unicode [White_Space] characters, by their encoding. *)

Definition bytes (l : list nat) : string := foldr (λ n s, String (ascii_of_nat n) s) "" l.

Definition white_space : list string := Eval vm_compute in
  (bytes <$> ([[9]; [10]; [11]; [12]; [13]; [32]; [194; 133]; [194; 160]; [225; 154; 128]]
     ++ ((λ n, [226; 128; n]) <$> seq 128 11)
     ++ [[226; 128; 168]; [226; 128; 169]; [226; 128; 175]; [226; 129; 159]; [227; 128; 128]])%list).

Definition strip_any (ps : list string) (s : string) : option string :=
  foldr (λ p acc, match strip_prefix p s with Some r => Some r | None => acc end) None ps.

Fixpoint trim_matches_fuel (fuel : nat) (ps : list string) (s : string) : string :=
  match fuel with
  | O => s
  | S fuel => match strip_any ps s with Some r => trim_matches_fuel fuel ps r | None => s end
  end.

Definition trim_start (s : string) : string := trim_matches_fuel (String.length s) white_space s.
Definition trim_end (s : string) : string :=
  String.rev (trim_matches_fuel (String.length s) (String.rev <$> white_space) (String.rev s)).
Definition trim (s : string) : string := trim_end (trim_start s).

(** [s.trim().is_empty()], as the source asks it. *)
Definition is_blank (s : string) : bool := bool_decide (trim s = "").

(** [str::trim_start_matches] and friends for one character. *)
Fixpoint trim_start_char (c : ascii) (s : string) : string :=
  match s with
  | String d s' => if decide (c = d) then trim_start_char c s' else s
  | EmptyString => ""
  end.
Definition trim_end_char (c : ascii) (s : string) : string :=
  String.rev (trim_start_char c (String.rev s)).
Definition trim_char (c : ascii) (s : string) : string := trim_end_char c (trim_start_char c s).

(** [str::split] with a text pattern; every piece but the last ends at a match,
    so the length of the text is enough fuel. *)
Fixpoint split_str_fuel (fuel : nat) (p s : string) : list string :=
  match fuel with
  | O => [s]
  | S fuel =>
      match find_str p s with
      | Some i => str_take i s :: split_str_fuel fuel p (str_drop (i + String.length p) s)
      | None => [s]
      end
  end.
Definition split_str (p s : string) : list string := split_str_fuel (String.length s) p s.
(** [str::replace]. *)
Definition replace_str (p by_ s : string) : string := join by_ (split_str p s).

(** * Lemmas *)

Lemma str_app_nil_r s : s +:+ "" = s.
Proof. induction s; simpl; congruence. Qed.
Lemma str_app_assoc a b c : (a +:+ b) +:+ c = a +:+ (b +:+ c).
Proof. induction a; simpl; congruence. Qed.
Lemma str_length_app a b : String.length (a +:+ b) = String.length a + String.length b.
Proof. induction a; simpl; congruence. Qed.
Lemma str_app_inj_l a b c : a +:+ b = a +:+ c → b = c.
Proof. induction a; simpl; [done|]. intros [= ?]. auto. Qed.

Lemma str_take_app a b : str_take (String.length a) (a +:+ b) = a.
Proof. induction a; simpl; [by destruct b|congruence]. Qed.
Lemma str_drop_app a b : str_drop (String.length a) (a +:+ b) = b.
Proof. by induction a. Qed.
Lemma str_drop_S_app a c b : str_drop (S (String.length a)) (a +:+ String c b) = b.
Proof. induction a; simpl; [done|]. assumption. Qed.
Lemma str_take_drop n s : str_take n s +:+ str_drop n s = s.
Proof. revert s; induction n; intros [|c s]; simpl; congruence. Qed.
Lemma str_take_length s : str_take (String.length s) s = s.
Proof. induction s; simpl; congruence. Qed.

Lemma strip_prefix_Some p s r : strip_prefix p s = Some r ↔ s = p +:+ r.
Proof.
  revert s; induction p as [|c p IH]; intros s; simpl; [naive_solver|].
  destruct s as [|d s]; [naive_solver|]. case_decide as Hc.
  - rewrite IH. naive_solver.
  - naive_solver.
Qed.

Lemma strip_prefix_app p r : strip_prefix p (p +:+ r) = Some r.
Proof. by apply strip_prefix_Some. Qed.

Lemma starts_with_spec p s : starts_with p s = true ↔ ∃ r, s = p +:+ r.
Proof.
  unfold starts_with. rewrite bool_decide_eq_true. unfold is_Some.
  by setoid_rewrite strip_prefix_Some.
Qed.

Lemma starts_with_app p r : starts_with p (p +:+ r) = true.
Proof. apply starts_with_spec. eauto. Qed.

(** The character [c] does not occur in [s]. *)
Definition lacks (c : ascii) (s : string) : Prop := find_char c s = None.
#[export] Instance lacks_dec c s : Decision (lacks c s).
Proof. unfold lacks. apply _. Defined.

Lemma lacks_nil c : lacks c "".
Proof. done. Qed.
Lemma lacks_cons c d s : lacks c (String d s) ↔ c ≠ d ∧ lacks c s.
Proof.
  unfold lacks; simpl. case_decide; [naive_solver|].
  destruct (find_char c s); naive_solver.
Qed.
Lemma lacks_app c a b : lacks c (a +:+ b) ↔ lacks c a ∧ lacks c b.
Proof.
  induction a as [|d a IH]; simpl; [naive_solver|]. rewrite !lacks_cons, IH. naive_solver.
Qed.

Lemma find_char_Some c s i :
  find_char c s = Some i ↔ ∃ a b, s = a +:+ String c b ∧ lacks c a ∧ i = String.length a.
Proof.
  split.
  - revert i; induction s as [|d s IH]; intros i; simpl; [done|]. case_decide as Hc.
    + intros [= <-]. subst. by exists "", s.
    + destruct (find_char c s) as [j|]; [|done]. intros [= <-].
      destruct (IH j eq_refl) as (a & b & -> & Ha & ->).
      exists (String d a), b. split_and!; [done|by apply lacks_cons|done].
  - intros (a & b & -> & Ha & ->). induction a as [|d a IH]; simpl.
    + by rewrite decide_True.
    + apply lacks_cons in Ha as [Hne Ha]. rewrite decide_False by done. by rewrite IH.
Qed.

Lemma find_char_app c a b : lacks c a → find_char c (a +:+ String c b) = Some (String.length a).
Proof. intros. apply find_char_Some. eauto. Qed.

Lemma split_once_char_app c a b : lacks c a → split_once_char c (a +:+ String c b) = Some (a, b).
Proof.
  intros Ha. unfold split_once_char. rewrite (find_char_app _ _ _ Ha). simpl.
  change (match _ with "" => "" | String _ _ => _ end)
    with (str_drop (S (String.length a)) (a +:+ String c b)).
  by rewrite str_take_app, str_drop_S_app.
Qed.

Lemma split_once_char_Some c s a b :
  split_once_char c s = Some (a, b) ↔ s = a +:+ String c b ∧ lacks c a.
Proof.
  split; [|by intros [-> ?]; apply split_once_char_app].
  unfold split_once_char. destruct (find_char c s) as [i|] eqn:Hi; [|done].
  apply find_char_Some in Hi as (a' & b' & -> & Ha & ->). intros Heq.
  assert (split_once_char c (a' +:+ String c b') = Some (a, b)) as Heq'.
  { unfold split_once_char. by rewrite (find_char_app _ _ _ Ha). }
  rewrite split_once_char_app in Heq' by done. by simplify_eq.
Qed.

(** Splitting at a separator the head does not contain is injective: the
    reason a separator byte makes composite keys unambiguous. *)
Lemma sep_inj c a a' b b' :
  lacks c a → lacks c a' → a +:+ String c b = a' +:+ String c b' → a = a' ∧ b = b'.
Proof.
  intros Ha Ha' Heq. apply (f_equal (split_once_char c)) in Heq.
  rewrite !split_once_char_app in Heq by done. naive_solver.
Qed.

Lemma find_str_unfold p s :
  find_str p s = if starts_with p s then Some 0 else
                 match s with "" => None | String _ s => S <$> find_str p s end.
Proof. by destruct s. Qed.

Lemma find_str_Some p s i : find_str p s = Some i → ∃ a b, s = a +:+ p +:+ b ∧ i = String.length a.
Proof.
  revert i; induction s as [|c s IH]; intros i; rewrite find_str_unfold;
    (destruct (starts_with p _) eqn:E;
     [intros [= <-]; apply starts_with_spec in E as [r ->]; by exists "", r|]); [done|].
  destruct (find_str p s) as [j|]; [|done]. intros [= <-].
  destruct (IH j eq_refl) as (a & b & -> & ->). by exists (String c a), b.
Qed.

(** Every occurrence is at or after the one [find_str] reports. *)
Lemma find_str_first p a b : ∃ i, find_str p (a +:+ p +:+ b) = Some i ∧ i ≤ String.length a.
Proof.
  induction a as [|c a IH]; rewrite find_str_unfold; simpl.
  - rewrite starts_with_app. eauto with lia.
  - destruct (starts_with _ _); [eauto with lia|].
    destruct IH as (i & -> & Hi). exists (S i). split; [done|lia].
Qed.

Lemma str_forall_spec f s : str_forall f s = true ↔ Forall (λ c, f c = true) (String.list_ascii_of_string s).
Proof.
  induction s as [|c s IH]; simpl; [by split|].
  by rewrite andb_true_iff, IH, Forall_cons_iff.
Qed.

Lemma str_forall_lacks f c s : f c = false → str_forall f s = true → lacks c s.
Proof.
  intros Hc. induction s as [|d s IH]; simpl; [done|].
  rewrite andb_true_iff. intros [Hd Hs]. apply lacks_cons. split; [congruence|auto].
Qed.

Lemma has_control_lacks_nul s : has_control s = false → lacks NUL s.
Proof.
  induction s as [|c s IH]; [done|]. cbn [has_control].
  rewrite !orb_false_iff. intros [[[Hc _] _] Hs]. apply lacks_cons. split; [|auto].
  intros <-. by rewrite bool_decide_eq_false in Hc; vm_compute in Hc; lia.
Qed.

Lemma str_app_cons_assoc a c b : a +:+ String c b = (a +:+ str1 c) +:+ b.
Proof. by rewrite str_app_assoc. Qed.

(** * [String::from_utf8_lossy]

    One step of the standard library's decoder: how many bytes the next
    character (or the next maximal invalid sequence) takes, and whether it is
    valid. A byte past the end reads as 0. *)
Definition byte_at (s : string) (i : nat) : nat :=
  match String.get i s with Some c => cval c | None => 0 end.
Definition between (lo hi n : nat) : bool := bool_decide (lo ≤ n ≤ hi).
Definition is_cont (n : nat) : bool := between 128 191 n.

Definition second_ok (b c : nat) : bool :=
  if bool_decide (b = 224) then between 160 191 c
  else if bool_decide (b = 237) then between 128 159 c
  else if bool_decide (b = 240) then between 144 191 c
  else if bool_decide (b = 244) then between 128 143 c
  else is_cont c.

Definition utf8_step (s : string) : nat * bool :=
  let b := byte_at s 0 in
  if bool_decide (b < 128) then (1, true)
  else if between 194 223 b then
    if is_cont (byte_at s 1) then (2, true) else (1, false)
  else if between 224 239 b then
    if second_ok b (byte_at s 1) then
      if is_cont (byte_at s 2) then (3, true) else (2, false)
    else (1, false)
  else if between 240 244 b then
    if second_ok b (byte_at s 1) then
      if is_cont (byte_at s 2) then
        if is_cont (byte_at s 3) then (4, true) else (3, false)
      else (2, false)
    else (1, false)
  else (1, false).

Definition replacement : string := Eval vm_compute in bytes [239; 191; 189].

(** Every step consumes at least one byte, so [length s] steps suffice. *)
Fixpoint utf8_lossy_fuel (fuel : nat) (s : string) : string :=
  match fuel, s with
  | S fuel, String _ _ =>
      let '(n, ok) := utf8_step s in
      (if ok then str_take n s else replacement) +:+ utf8_lossy_fuel fuel (str_drop n s)
  | _, _ => ""
  end.
Definition from_utf8_lossy (s : string) : string := utf8_lossy_fuel (String.length s) s.

Fixpoint utf8_valid_fuel (fuel : nat) (s : string) : bool :=
  match fuel, s with
  | S fuel, String _ _ =>
      let '(n, ok) := utf8_step s in ok && utf8_valid_fuel fuel (str_drop n s)
  | O, String _ _ => false
  | _, EmptyString => true
  end.

(** What Rust's type [String] guarantees of its bytes. *)
Definition utf8_valid (s : string) : bool := utf8_valid_fuel (String.length s) s.

Lemma utf8_lossy_valid_fuel fuel s : utf8_valid_fuel fuel s = true → utf8_lossy_fuel fuel s = s.
Proof.
  revert s. induction fuel as [|fuel IH]; intros [|c s]; [done..|].
  cbn [utf8_valid_fuel utf8_lossy_fuel].
  destruct (utf8_step (String c s)) as [n [|]]; [|done]. simpl.
  intros Hv. rewrite IH by done. apply (str_take_drop n (String c s)).
Qed.

Lemma from_utf8_lossy_valid s : utf8_valid s = true → from_utf8_lossy s = s.
Proof. apply utf8_lossy_valid_fuel. Qed.

Lemma str_drop_length n s : String.length (str_drop n s) = String.length s - n.
Proof.
  revert n; induction s as [|c s IH]; intros [|n]; simpl; auto.
Qed.

Lemma utf8_step_pos s : 1 ≤ (utf8_step s).1.
Proof. unfold utf8_step. repeat case_match; simpl; lia. Qed.

(** Validity does not depend on the fuel once there is enough. *)
Lemma utf8_valid_enough fuel s :
  String.length s ≤ fuel → utf8_valid_fuel fuel s = utf8_valid s.
Proof.
  unfold utf8_valid. remember (String.length s) as n eqn:Hn.
  assert (String.length s ≤ n) as Hle by lia. clear Hn. revert fuel s Hle.
  induction n as [n IH] using lt_wf_ind. intros fuel [|c s] Hle Hf; [by destruct fuel, n|].
  destruct fuel as [|fuel], n as [|n]; simpl in Hle; [lia..|].
  cbn [utf8_valid_fuel]. pose proof (utf8_step_pos (String c s)) as Hp.
  destruct (utf8_step (String c s)) as [k ok]; simpl in Hp. f_equal.
  assert (String.length (str_drop k (String c s)) ≤ n) as Hd.
  { rewrite str_drop_length. simpl. lia. }
  apply (IH n); [lia|done|lia].
Qed.

(** A string of ASCII bytes is valid UTF-8. *)
Definition is_ascii (s : string) : bool := str_forall (λ c, bool_decide (cval c < 128)) s.

Lemma is_ascii_utf8 s : is_ascii s = true → utf8_valid s = true.
Proof.
  unfold utf8_valid, is_ascii. induction s as [|c s IH]; [done|].
  cbn [str_forall String.length utf8_valid_fuel]. rewrite andb_true_iff. intros [Hc Hs].
  unfold utf8_step. change (byte_at (String c s) 0) with (cval c).
  rewrite Hc. simpl. auto.
Qed.

Lemma utf8_valid_ascii_cons c s : cval c < 128 → utf8_valid (String c s) = utf8_valid s.
Proof.
  intros Hc. unfold utf8_valid at 1. cbn [String.length utf8_valid_fuel].
  unfold utf8_step. change (byte_at (String c s) 0) with (cval c).
  by rewrite bool_decide_true by done.
Qed.

Lemma utf8_valid_ascii_app p s : is_ascii p = true → utf8_valid (p +:+ s) = utf8_valid s.
Proof.
  unfold is_ascii. induction p as [|c p IH]; [done|]. cbn [str_forall String.append].
  rewrite andb_true_iff, bool_decide_eq_true. intros [Hc Hp].
  rewrite utf8_valid_ascii_cons by done. auto.
Qed.

(** * Reversal, behind the suffix operations *)

Lemma lacks_rev_app c s t : lacks c (String.rev_app s t) ↔ lacks c s ∧ lacks c t.
Proof.
  revert t; induction s as [|d s IH]; intros t; cbn; [naive_solver|].
  rewrite IH, !lacks_cons. tauto.
Qed.

Lemma lacks_rev c s : lacks c (String.rev s) ↔ lacks c s.
Proof. unfold String.rev. rewrite lacks_rev_app. naive_solver. Qed.

Lemma strip_suffix_lacks c s : lacks c s → strip_suffix (str1 c) s = None.
Proof.
  intros Hs%lacks_rev. unfold strip_suffix. cbn. destruct (String.rev s) as [|d r]; [done|].
  apply lacks_cons in Hs as [Hd _]. by rewrite decide_False.
Qed.

Lemma strip_prefix_lacks c s : lacks c s → strip_prefix (str1 c) s = None.
Proof. destruct s as [|d s]; [done|]. intros [Hd _]%lacks_cons. cbn. by rewrite decide_False. Qed.

Lemma rev_app_spec s t : String.rev_app s t = String.rev s +:+ t.
Proof.
  unfold String.rev. revert t; induction s as [|d s IH]; intros t; [done|]. cbn.
  rewrite (IH (String d "")), (IH (String d t)), str_app_assoc. done.
Qed.

Lemma rev_cons c s : String.rev (String c s) = String.rev s +:+ str1 c.
Proof. unfold String.rev at 1. cbn. apply rev_app_spec. Qed.

Lemma rev_app a b : String.rev (a +:+ b) = String.rev b +:+ String.rev a.
Proof.
  induction a as [|c a IH]; [by rewrite str_app_nil_r|].
  change (String c a +:+ b) with (String c (a +:+ b)). by rewrite !rev_cons, IH, str_app_assoc.
Qed.

Lemma rev_rev s : String.rev (String.rev s) = s.
Proof. induction s as [|c s IH]; [done|]. by rewrite rev_cons, rev_app, IH. Qed.

(** Trimming stops at a character that is not trimmed. *)
Lemma trim_start_stop c a b : trim_start_char c a ≠ "" →
  trim_start_char c (a +:+ b) = trim_start_char c a +:+ b.
Proof. induction a as [|d a IH]; cbn; [done|]. case_decide; [exact IH|done]. Qed.

Lemma trim_end_stop c a b : trim_end_char c b ≠ "" → trim_end_char c (a +:+ b) = a +:+ trim_end_char c b.
Proof.
  unfold trim_end_char. intros H. rewrite rev_app, trim_start_stop, rev_app, rev_rev; [done|].
  intros E. by rewrite E in H.
Qed.

Lemma trim_start_nonempty c a b : b ≠ "" → lacks c b → trim_start_char c (a +:+ b) ≠ "".
Proof.
  intros Hb Hc. induction a as [|d a IH]; cbn.
  - destruct b as [|d b]; [done|]. apply lacks_cons in Hc as [? _]. cbn. by rewrite decide_False.
  - by case_decide.
Qed.

Lemma trim_end_nonempty c a b : a ≠ "" → lacks c a → trim_end_char c (a +:+ b) ≠ "".
Proof.
  intros Ha Hc E. unfold trim_end_char in E. apply (f_equal String.rev) in E.
  rewrite rev_rev, rev_app in E. revert E. apply trim_start_nonempty; [|by apply lacks_rev].
  intros E. apply (f_equal String.rev) in E. by rewrite rev_rev in E.
Qed.

Lemma strip_suffix_Some p s r : strip_suffix p s = Some r ↔ s = r +:+ p.
Proof.
  unfold strip_suffix. rewrite fmap_Some. split.
  - intros (x & H & ->). apply strip_prefix_Some, (f_equal String.rev) in H.
    by rewrite rev_rev, rev_app, rev_rev in H.
  - intros ->. exists (String.rev r). rewrite rev_rev, strip_prefix_Some, rev_app. done.
Qed.

Lemma ends_with_spec p s : ends_with p s = true ↔ ∃ r, s = r +:+ p.
Proof.
  unfold ends_with. rewrite bool_decide_eq_true. unfold is_Some.
  by setoid_rewrite strip_suffix_Some.
Qed.

(** [rsplit_once]: at the last occurrence. *)
Definition rsplit_once_char (c : ascii) (s : string) : option (string * string) :=
  '(b, a) ← split_once_char c (String.rev s); Some (String.rev a, String.rev b).

Lemma rsplit_once_char_app c a b : lacks c b → rsplit_once_char c (a +:+ String c b) = Some (a, b).
Proof.
  intros Hb. unfold rsplit_once_char.
  rewrite rev_app, rev_cons, str_app_assoc. cbn [str1 String.append].
  rewrite split_once_char_app by by apply lacks_rev. cbn. by rewrite !rev_rev.
Qed.

Lemma rsplit_once_char_None c s : rsplit_once_char c s = None ↔ lacks c s.
Proof.
  unfold rsplit_once_char, split_once_char. rewrite <-(lacks_rev c s). unfold lacks.
  destruct (find_char c (String.rev s)) as [i|]; cbn; naive_solver.
Qed.

Lemma str_map_app f a b : str_map f (a +:+ b) = str_map f a +:+ str_map f b.
Proof. induction a as [|c a IH]; cbn; congruence. Qed.

Lemma str_forall_app f a b : str_forall f (a +:+ b) = str_forall f a && str_forall f b.
Proof. induction a as [|c a IH]; cbn; [done|]. by rewrite IH, andb_assoc. Qed.

Lemma str_forall_map f g s : (∀ c, f c = true → f (g c) = true) → str_forall f s = true → str_forall f (str_map g s) = true.
Proof. intros H. induction s as [|c s IH]; cbn; [done|]. rewrite !andb_true_iff. naive_solver. Qed.

(** Splitting at a character. *)
Lemma split_slash s : split_char "/" ("/" +:+ s) = "" :: split_char "/" s.
Proof. done. Qed.
Lemma split_char_lacks c s : lacks c s → split_char c s = [s].
Proof.
  induction s as [|d s IH]; [done|]. rewrite lacks_cons. intros [Hcd Hs]. cbn.
  rewrite decide_False by done. by rewrite IH.
Qed.

Lemma split_char_app c a s : lacks c a → split_char c (a +:+ String c s) = a :: split_char c s.
Proof.
  induction a as [|d a IH]; cbn; [by rewrite decide_True|].
  rewrite lacks_cons. intros [Hcd Ha]. rewrite decide_False by done. by rewrite IH.
Qed.
