(* ===== verification/Errors.v ===== *)
(** Confluent-style errors (error.rs): [ApiError], the HTTP status read off an
    error code, and the constructors every component uses. *)
From S2P Require Import Prelude SortedVec RustStr.

Local Open Scope Z_scope.

Record ApiError := mkApiError { code : Z; message : string }.
#[export] Instance ApiError_eq_dec : EqDecision ApiError.
Proof. solve_decision. Defined.

Abbreviation ApiResult := (result ApiError).

(** [Display] for integers. *)
Definition show (n : Z) : string := pretty n.

Module ApiErr.
Definition new (code : Z) (message : string) : ApiError := mkApiError code message.

(** [while c >= 1000 { c /= 10; }]; a [u32] loses at most seven digits. *)
Fixpoint status_loop (fuel : nat) (c : Z) : Z :=
  match fuel with
  | O => c
  | S fuel => if bool_decide (1000 ≤ c) then status_loop fuel (c `quot` 10) else c
  end.

(** [StatusCode::from_u16] accepts 100 to 999; the cast to [u16] wraps. *)
Definition status (e : ApiError) : Z :=
  let s := if bool_decide (1000 ≤ code e) then status_loop 10 (code e) else code e in
  let u := s `mod` 2 ^ 16 in
  if bool_decide (100 ≤ u ≤ 999) then u else 500.

Definition unauthorized := new 401 "Unauthorized".
Definition forbidden (msg : string) := new 403 msg.
Definition subject_not_found (subject : string) :=
  new 40401 ("Subject '" +:+ subject +:+ "' not found.").
Definition version_not_found (version : string) :=
  new 40402 ("Version " +:+ version +:+ " not found.").
Definition schema_not_found := new 40403 "Schema not found".
Definition schema_id_not_found (id : Z) := new 40403 ("Schema " +:+ show id +:+ " not found").
Definition subject_soft_deleted (subject : string) :=
  new 40404 ("Subject '" +:+ subject +:+ "' was soft deleted.Set permanent=true to delete permanently").
Definition subject_not_soft_deleted (subject : string) :=
  new 40405 ("Subject '" +:+ subject +:+ "' was not deleted first before being permanently deleted").
Definition version_soft_deleted (subject : string) (version : Z) :=
  new 40406 ("Subject '" +:+ subject +:+ "' Version " +:+ show version +:+
             " was soft deleted.Set permanent=true to delete permanently").
Definition version_not_soft_deleted (subject : string) (version : Z) :=
  new 40407 ("Subject '" +:+ subject +:+ "' Version " +:+ show version +:+
             " was not deleted first before being permanently deleted").
Definition subject_compat_not_configured (subject : string) :=
  new 40408 ("Subject '" +:+ subject +:+ "' does not have subject-level compatibility configured").
Definition subject_mode_not_configured (subject : string) :=
  new 40409 ("Subject '" +:+ subject +:+ "' does not have subject-level mode configured").
Definition exporter_not_found (name : string) :=
  new 40450 ("Exporter '" +:+ name +:+ "' not found.").
Definition incompatible (subject : string) (messages : list string) :=
  new 409 ("Schema being registered is incompatible with an earlier schema for subject " +:+
           str1 (byte 34) +:+ subject +:+ str1 (byte 34) +:+ ", details: [" +:+ join ", " messages +:+ "]").
Definition exporter_exists (name : string) :=
  new 40950 ("Exporter '" +:+ name +:+ "' already exists.").
Definition invalid_schema (msg : string) := new 42201 ("Invalid schema: " +:+ msg).
Definition invalid_version (v : string) :=
  new 42202 ("The specified version '" +:+ v +:+
    "' is not a valid version id. Allowed values are between [1, 2^31-1] and the string " +:+
    str1 (byte 34) +:+ "latest" +:+ str1 (byte 34)).
Definition invalid_compatibility :=
  new 42203 "Invalid compatibility level. Valid values are none, backward, forward, full, backward_transitive, forward_transitive, and full_transitive".
Definition invalid_mode :=
  new 42204 "Invalid mode. Valid values are READWRITE, READONLY, and IMPORT.".
Definition operation_not_permitted (msg : string) := new 42205 msg.
Definition reference_exists (msg : string) := new 42206 msg.
Definition invalid_subject (subject : string) :=
  new 42208 ("The specified subject '" +:+ subject +:+ "' is not a valid.").
Definition context_not_empty (ctx : string) :=
  new 42211 ("The specified context '" +:+ ctx +:+ "' is not empty.").
Definition invalid_exporter (msg : string) := new 42250 msg.
Definition unprocessable (msg : string) := new 422 msg.
Definition store (msg : string) := new 50001 ("Error in the backend data store - " +:+ msg).
Definition internal (msg : string) := new 500 ("Internal error - " +:+ msg).

(** The loop keeps the leading digits: it divides by a power of ten. *)
Lemma status_loop_digits fuel c :
  0 ≤ c → c < 1000 * 10 ^ Z.of_nat fuel →
  ∃ k, (k ≤ fuel)%nat ∧ status_loop fuel c = c / 10 ^ Z.of_nat k ∧
       status_loop fuel c < 1000 ∧ (100 ≤ c → 100 ≤ status_loop fuel c).
Proof.
  revert c. induction fuel as [|fuel IH]; intros c Hc Hlt.
  { exists 0%nat. simpl in *. rewrite Z.div_1_r. lia. }
  cbn [status_loop]. case_bool_decide as Hge.
  - rewrite Z.quot_div_nonneg by lia.
    destruct (IH (c / 10)) as (k & Hk & Heq & Hb & Hl).
    { apply Z.div_pos; lia. }
    { apply Z.div_lt_upper_bound; [lia|]. rewrite Nat2Z.inj_succ, Z.pow_succ_r in Hlt by lia. lia. }
    exists (S k). split_and!; [lia| |done|].
    + rewrite Heq, Zdiv.Zdiv_Zdiv by lia. do 2 f_equal.
      rewrite Nat2Z.inj_succ, Z.pow_succ_r; lia.
    + intros _. apply Hl. apply Z.div_le_lower_bound; lia.
  - exists 0%nat. rewrite Z.div_1_r. lia.
Qed.

(** For every [u32] error code of at least 100, the HTTP status is
    the number formed by the code's first three digits. *)
Theorem status_first_three_digits (e : ApiError) :
  100 ≤ code e → is_u32 (code e) →
  ∃ k, status e = code e / 10 ^ Z.of_nat k ∧ 100 ≤ status e ≤ 999.
Proof.
  unfold is_u32, u32_max. intros H100 Hu.
  assert (∃ k, (if bool_decide (1000 ≤ code e) then status_loop 10 (code e) else code e)
               = code e / 10 ^ Z.of_nat k ∧ 100 ≤ code e / 10 ^ Z.of_nat k ≤ 999) as (k & Heq & Hb).
  { case_bool_decide.
    - destruct (status_loop_digits 10 (code e)) as (k & _ & Heq & Hlt & Hge); [lia..|].
      exists k. rewrite <-Heq. lia.
    - exists 0%nat. rewrite Z.div_1_r. lia. }
  exists k. unfold status. rewrite Heq, (Z.mod_small (code e / _)) by lia.
  rewrite bool_decide_true by lia. done.
Qed.

Lemma status_first_three_digits_witness :
  100 ≤ code (invalid_version "0") ∧ status (invalid_version "0") = 422 ∧
  ∃ k, status (invalid_version "0") = code (invalid_version "0") / 10 ^ Z.of_nat k ∧
       100 ≤ status (invalid_version "0") ≤ 999.
Proof.
  split; [vm_compute; discriminate|]. split; [reflexivity|].
  apply (status_first_three_digits (invalid_version "0")).
  - vm_compute. discriminate.
  - vm_compute. split; discriminate.
Defined.
End ApiErr.
