(* ===== verification/Json.v ===== *)
(** JSON values as [serde_json] holds them with [preserve_order]: objects are
    insertion-ordered maps whose equality ignores the order. *)
From S2P Require Import Prelude SortedVec RustStr.

Local Open Scope Z_scope.

Inductive Number :=
| PosInt (n : Z)
| NegInt (n : Z)
| Float (bits : Z).
#[export] Instance Number_eq_dec : EqDecision Number.
Proof. solve_decision. Defined.

Inductive Value :=
| VNull
| VBool (b : bool)
| VNumber (n : Number)
| VString (s : string)
| VArray (l : list Value)
| VObject (m : list (string * Value)).

Abbreviation Map := (list (string * Value)).

(** * Object operations ([serde_json::Map] over [IndexMap]) *)

Fixpoint map_get (k : string) (m : Map) : option Value :=
  match m with
  | [] => None
  | (k', v) :: m => if decide (k = k') then Some v else map_get k m
  end.

(** [insert]: in place when the key exists, at the end otherwise. *)
Fixpoint map_insert (k : string) (v : Value) (m : Map) : Map :=
  match m with
  | [] => [(k, v)]
  | (k', v') :: m => if decide (k = k') then (k, v) :: m else (k', v') :: map_insert k v m
  end.

Definition map_extend (m n : Map) : Map := foldl (λ acc '(k, v), map_insert k v acc) m n.

(** [remove] is [swap_remove]: the last entry takes the removed one's place. *)
Fixpoint map_swap_remove (k : string) (m : Map) : Map :=
  match m with
  | [] => []
  | (k', v') :: m =>
      if decide (k = k') then
        match last m with Some e => e :: removelast m | None => [] end
      else (k', v') :: map_swap_remove k m
  end.

(** * Accessors *)

Definition get (k : string) (v : Value) : option Value :=
  match v with VObject m => map_get k m | _ => None end.
Definition as_str (v : Value) : option string :=
  match v with VString s => Some s | _ => None end.
Definition as_object (v : Value) : option Map :=
  match v with VObject m => Some m | _ => None end.
Definition as_array (v : Value) : option (list Value) :=
  match v with VArray l => Some l | _ => None end.
Definition is_null (v : Value) : bool := match v with VNull => true | _ => false end.
Definition is_object (v : Value) : bool := match v with VObject _ => true | _ => false end.
Definition as_i64 (v : Value) : option Z :=
  match v with
  | VNumber (PosInt n) => if bool_decide (n < 2 ^ 63) then Some n else None
  | VNumber (NegInt n) => Some n
  | _ => None
  end.
Definition as_u64 (v : Value) : option Z := match v with VNumber (PosInt n) => Some n | _ => None end.
Definition as_bool (v : Value) : option bool := match v with VBool b => Some b | _ => None end.

(** * Equality: [IndexMap] compares as a map, everything else structurally *)

(** Floats are finite: they are equal when their bits are, or both are zeros. *)
Definition is_zero_bits (bits : Z) : bool := bool_decide (Z.land bits (2 ^ 63 - 1) = 0).
Definition number_eqb (a b : Number) : bool :=
  match a, b with
  | Float x, Float y => bool_decide (x = y) || is_zero_bits x && is_zero_bits y
  | _, _ => bool_decide (a = b)
  end.

Fixpoint value_eqb (a b : Value) : bool :=
  match a, b with
  | VNull, VNull => true
  | VBool x, VBool y => bool_decide (x = y)
  | VNumber x, VNumber y => number_eqb x y
  | VString x, VString y => bool_decide (x = y)
  | VArray l, VArray k =>
      (fix go (l k : list Value) : bool :=
         match l, k with
         | [], [] => true
         | x :: l, y :: k => value_eqb x y && go l k
         | _, _ => false
         end) l k
  | VObject m, VObject n =>
      bool_decide (length m = length n) &&
      (fix go (m : Map) : bool :=
         match m with
         | [] => true
         | (k, v) :: m =>
             match map_get k n with Some w => value_eqb v w | None => false end && go m
         end) m
  | _, _ => false
  end.

Definition opt_value_eqb (a b : option Value) : bool :=
  match a, b with
  | None, None => true
  | Some a, Some b => value_eqb a b
  | _, _ => false
  end.

(** Decidable (syntactic) equality, for records that hold values. *)
#[export] Instance Value_eq_dec : EqDecision Value.
Proof.
  refine (fix go (a b : Value) : {a = b} + {a ≠ b} :=
    match a, b with
    | VNull, VNull => left eq_refl
    | VBool x, VBool y => cast_if (decide (x = y))
    | VNumber x, VNumber y => cast_if (decide (x = y))
    | VString x, VString y => cast_if (decide (x = y))
    | VArray l, VArray k => cast_if (@list_eq_dec _ go l k)
    | VObject m, VObject n =>
        cast_if (@list_eq_dec _ (λ p q : string * Value,
          match p, q with
          | (a, v), (b, w) => cast_if_and (decide (a = b)) (go v w)
          end) m n)
    | _, _ => right _
    end); clear go; abstract congruence.
Defined.

(** * Lemmas *)

Lemma map_get_app k m n : map_get k (m ++ n) = match map_get k m with Some v => Some v | None => map_get k n end.
Proof. induction m as [|[k' v] m IH]; [done|]. cbn. by destruct (decide _). Qed.
Lemma map_get_insert k k' v m :
  map_get k (map_insert k' v m) = if decide (k = k') then Some v else map_get k m.
Proof.
  induction m as [|[k1 v1] m IH]; simpl.
  - by repeat case_decide.
  - destruct (decide (k' = k1)) as [->|Hne]; simpl.
    + by repeat case_decide.
    + destruct (decide (k = k1)) as [->|].
      * by rewrite decide_False.
      * apply IH.
Qed.

Lemma map_get_extend k m n :
  map_get k (map_extend m n) =
  match map_get k (reverse n) with Some v => Some v | None => map_get k m end.
Proof.
  unfold map_extend. revert m. induction n as [|[k1 v1] n IH] using rev_ind; intros m; simpl; [done|].
  rewrite foldl_app, reverse_app; simpl. rewrite map_get_insert.
  case_decide; [done|]. apply IH.
Qed.

Section value_ind.
Context (P : Value → Prop).
Context (Hatom : ∀ v, match v with VArray _ | VObject _ => False | _ => True end → P v).
Context (Harray : ∀ l, Forall P l → P (VArray l)).
Context (Hobject : ∀ o : Map, Forall (λ e, P e.2) o → P (VObject o)).
(** Induction through the lists of a document. *)
Fixpoint value_nested_ind (v : Value) : P v :=
  match v with
  | VArray l => Harray l ((fix go l : Forall P l :=
      match l with [] => List.Forall_nil P | x :: l => List.Forall_cons P x l (value_nested_ind x) (go l) end) l)
  | VObject o => Hobject o ((fix go o : Forall (λ e, P e.2) o :=
      match o with [] => List.Forall_nil _ | (k, x) :: o => List.Forall_cons _ (k, x) o (value_nested_ind x) (go o) end) o)
  | VNull => Hatom VNull I | VBool b => Hatom (VBool b) I | VNumber n => Hatom (VNumber n) I | VString s => Hatom (VString s) I
  end.
End value_ind.

(** Objects as [IndexMap] holds them: no key twice. *)
Fixpoint value_wf (v : Value) : Prop :=
  match v with
  | VArray l => foldr (λ x P, value_wf x ∧ P) True l
  | VObject o => NoDup o.*1 ∧ foldr (λ e P, match e with (_, x) => value_wf x ∧ P end) True o
  | _ => True
  end.

Lemma number_eqb_refl n : number_eqb n n = true.
Proof. destruct n; cbn; repeat rewrite bool_decide_eq_true_2 by done; done. Qed.
Lemma map_get_unique k x (o : Map) : NoDup o.*1 → (k, x) ∈ o → map_get k o = Some x.
Proof.
  induction o as [|[k' y] o IH]; cbn [map_get fmap list_fmap fst]; [by intros _ ?%not_elem_of_nil|].
  intros [Hni Hnd]%NoDup_cons [[= -> ->]|Hx]%elem_of_cons; [by rewrite decide_True|]. rewrite decide_False; [by apply IH|].
  intros ->. apply Hni. apply list_elem_of_fmap. by exists (k', x).
Qed.
Lemma value_eqb_refl v : value_wf v → value_eqb v v = true.
Proof.
  induction v as [v Hv|l IH|o IH] using value_nested_ind; cbn [value_wf].
  - destruct v; try done; intros _; cbn; [by apply bool_decide_eq_true_2|apply number_eqb_refl|by apply bool_decide_eq_true_2].
  - cbn [value_eqb]. induction IH as [|x l Hx _ IHl]; [done|]. cbn. intros [Hwx Hwl]. rewrite Hx by done. by apply IHl.
  - intros [Hnd Hwf]. cbn [value_eqb]. rewrite bool_decide_eq_true_2 by done. cbn [andb].
    assert (∀ e, e ∈ o → map_get e.1 o = Some e.2) as Hget by (intros [k x] He; by apply map_get_unique).
    assert (Forall (λ e, map_get e.1 o = Some e.2 ∧ value_eqb e.2 e.2 = true) o) as Hall.
    { apply Forall_forall. intros [k x] He. split; [by apply Hget|]. apply (proj1 (Forall_forall _ _) IH (k, x) He).
      clear -Hwf He. induction o as [|[k' y] o IH]; [by apply not_elem_of_nil in He|]. cbn in Hwf. destruct Hwf.
      apply elem_of_cons in He as [[= -> ->]|He]; [done|by apply IH]. }
    clear IH Hwf Hget Hnd. revert Hall. generalize o at 1 3 as n. intros n. induction o as [|[k x] o IHo]; [done|].
    intros [[Hk Hx] Ho]%Forall_cons. cbn in Hk, Hx. rewrite Hk, Hx. by apply IHo.
Qed.
