(* ===== verification/Model.v ===== *)
(** Wire and persisted types (model.rs): the enums with their spellings, schema
    references, stored records, configuration and exporter records. *)
From S2P Require Import Prelude SortedVec RustStr Errors Json.

Local Open Scope Z_scope.

(** * Enums *)

Inductive SchemaType := Avro | JsonSchemaT | Protobuf.
#[export] Instance SchemaType_eq_dec : EqDecision SchemaType.
Proof. solve_decision. Defined.

Module SchemaTypeM.
Definition parse (s : option string) : ApiResult SchemaType :=
  match s with
  | None => Ok Avro
  | Some t =>
      if decide (t = "AVRO") then Ok Avro
      else if decide (t = "JSON") then Ok JsonSchemaT
      else if decide (t = "PROTOBUF") then Ok Protobuf
      else Err (ApiErr.new 42201 ("Invalid schema type " +:+ t))
  end.
Definition as_str (t : SchemaType) : string :=
  match t with Avro => "AVRO" | JsonSchemaT => "JSON" | Protobuf => "PROTOBUF" end.
Definition is_avro (t : SchemaType) : bool := match t with Avro => true | _ => false end.
End SchemaTypeM.

Inductive CompatibilityLevel :=
| LNone | Backward | BackwardTransitive | Forward | ForwardTransitive | Full | FullTransitive.
#[export] Instance CompatibilityLevel_eq_dec : EqDecision CompatibilityLevel.
Proof. solve_decision. Defined.

Module Level.
Definition as_str (l : CompatibilityLevel) : string :=
  match l with
  | LNone => "NONE"
  | Backward => "BACKWARD"
  | BackwardTransitive => "BACKWARD_TRANSITIVE"
  | Forward => "FORWARD"
  | ForwardTransitive => "FORWARD_TRANSITIVE"
  | Full => "FULL"
  | FullTransitive => "FULL_TRANSITIVE"
  end.

Definition parse (s : string) : ApiResult CompatibilityLevel :=
  let u := to_ascii_uppercase s in
  if decide (u = "NONE") then Ok LNone
  else if decide (u = "BACKWARD") then Ok Backward
  else if decide (u = "BACKWARD_TRANSITIVE") then Ok BackwardTransitive
  else if decide (u = "FORWARD") then Ok Forward
  else if decide (u = "FORWARD_TRANSITIVE") then Ok ForwardTransitive
  else if decide (u = "FULL") then Ok Full
  else if decide (u = "FULL_TRANSITIVE") then Ok FullTransitive
  else Err ApiErr.invalid_compatibility.

Definition transitive (l : CompatibilityLevel) : bool :=
  match l with BackwardTransitive | ForwardTransitive | FullTransitive => true | _ => false end.
Definition backward (l : CompatibilityLevel) : bool :=
  match l with Backward | BackwardTransitive | Full | FullTransitive => true | _ => false end.
Definition forward (l : CompatibilityLevel) : bool :=
  match l with Forward | ForwardTransitive | Full | FullTransitive => true | _ => false end.
End Level.

Inductive Mode := Readwrite | Readonly | ReadonlyOverride | Import.
#[export] Instance Mode_eq_dec : EqDecision Mode.
Proof. solve_decision. Defined.

Module ModeM.
Definition as_str (m : Mode) : string :=
  match m with
  | Readwrite => "READWRITE"
  | Readonly => "READONLY"
  | ReadonlyOverride => "READONLY_OVERRIDE"
  | Import => "IMPORT"
  end.
Definition parse (s : string) : ApiResult Mode :=
  let u := to_ascii_uppercase s in
  if decide (u = "READWRITE") then Ok Readwrite
  else if decide (u = "READONLY") then Ok Readonly
  else if decide (u = "READONLY_OVERRIDE") then Ok ReadonlyOverride
  else if decide (u = "IMPORT") then Ok Import
  else Err ApiErr.invalid_mode.
End ModeM.

(** * References *)

Record SchemaReference := mkRef { ref_name : string; ref_subject : string; ref_version : Z }.
#[export] Instance SchemaReference_eq_dec : EqDecision SchemaReference.
Proof. solve_decision. Defined.

Module RefIn.
Record t := mk { null : bool; name : option string; subject : option string; version : option Z }.

Definition from (r : SchemaReference) : t :=
  mk false (Some (ref_name r)) (Some (ref_subject r)) (Some (ref_version r)).

Definition from_value (v : Value) : t :=
  mk (is_null v)
     (get "name" v ≫= as_str) (get "subject" v ≫= as_str)
     (as_i32 <$> (get "version" v ≫= as_i64)).

(** [SchemaReference#toString]. *)
Definition display (r : t) : string :=
  if null r then "null" else
  "{name='" +:+ default "null" (name r) +:+ "', subject='" +:+ default "null" (subject r) +:+
  "', version=" +:+ default "null" (show <$> version r) +:+ "}".
End RefIn.

Record RegisterSchemaRequest := mkRegisterRequest {
  rq_schema : option string;
  rq_schema_type : option string;
  rq_references : option (list RefIn.t);
  rq_metadata : option Value;
  rq_rule_set : option Value;
  rq_version : option Z;
  rq_id : option Z;
}.

(** * Persisted records *)

Record SchemaRecord := mkSchemaRecord {
  sr_type : SchemaType;
  sr_schema : string;
  sr_references : list SchemaReference;
  sr_metadata : option Value;
  sr_rule_set : option Value;
  sr_fingerprint : string;
  sr_schema_fingerprint : string;
  sr_guid : string;
}.
#[export] Instance SchemaRecord_eq_dec : EqDecision SchemaRecord.
Proof. solve_decision. Defined.

Record VersionRecord := mkVersion { vr_id : Z; vr_deleted : bool; vr_ts : Z }.
#[export] Instance VersionRecord_eq_dec : EqDecision VersionRecord.
Proof. solve_decision. Defined.

Module ConfigRecord.
Record t := mk {
  compatibility_level : option CompatibilityLevel;
  alias : option string;
  normalize : option bool;
  validate_fields : option bool;
  validate_rules : option bool;
  compatibility_group : option string;
  default_metadata : option Value;
  override_metadata : option Value;
  default_rule_set : option Value;
  override_rule_set : option Value;
}.
#[export] Instance eq_dec : EqDecision t.
Proof. solve_decision. Defined.

(** [ConfigRecord::default()]. *)
Definition empty : t := mk None None None None None None None None None None.

Definition has_defaults_or_overrides (c : t) : bool :=
  bool_decide (is_Some (default_metadata c)) || bool_decide (is_Some (override_metadata c))
  || bool_decide (is_Some (default_rule_set c)) || bool_decide (is_Some (override_rule_set c)).

(** [Option::or]. *)
Definition or {A} (x y : option A) : option A := match x with Some _ => x | None => y end.

(** Fields set in [other] override fields in [self]. *)
Definition merged_with (self other : t) : t :=
  mk (or (compatibility_level other) (compatibility_level self))
     (or (alias other) (alias self))
     (or (normalize other) (normalize self))
     (or (validate_fields other) (validate_fields self))
     (or (validate_rules other) (validate_rules self))
     (or (compatibility_group other) (compatibility_group self))
     (or (default_metadata other) (default_metadata self))
     (or (override_metadata other) (override_metadata self))
     (or (default_rule_set other) (default_rule_set self))
     (or (override_rule_set other) (override_rule_set self)).

Lemma or_assoc {A} (x y z : option A) : or x (or y z) = or (or x y) z.
Proof. by destruct x. Qed.
Lemma or_None_r {A} (x : option A) : or x None = x.
Proof. by destruct x. Qed.
End ConfigRecord.

(** [PUT /config] body: the level is still text. *)
Module ConfigUpdateRequest.
Record t := mk {
  alias : option string;
  normalize : option bool;
  validate_fields : option bool;
  validate_rules : option bool;
  compatibility : option string;
  compatibility_group : option string;
  default_metadata : option Value;
  override_metadata : option Value;
  default_rule_set : option Value;
  override_rule_set : option Value;
}.

Definition into_record (u : t) : ApiResult ConfigRecord.t :=
  level ← match compatibility u with
          | None => Ok None
          | Some s => Some <$> Level.parse s
          end;
  Ok (ConfigRecord.mk level (alias u) (normalize u) (validate_fields u) (validate_rules u)
        (compatibility_group u) (default_metadata u) (override_metadata u)
        (default_rule_set u) (override_rule_set u)).
End ConfigUpdateRequest.

(** * Change log *)

Inductive LogEventKind := Register | SoftDelete | HardDelete.
#[export] Instance LogEventKind_eq_dec : EqDecision LogEventKind.
Proof. solve_decision. Defined.

Record LogEvent := mkEvent {
  ev_ctx : string; ev_subject : string; ev_version : Z; ev_id : Z; ev_kind : LogEventKind }.
#[export] Instance LogEvent_eq_dec : EqDecision LogEvent.
Proof. solve_decision. Defined.

(** * Exporters *)

Record ExporterInfo := mkExporterInfo {
  ei_name : string;
  ei_subjects : list string;
  ei_context_type : string;
  ei_context : option string;
  ei_rename : option string;
  ei_config : Map;
}.
#[export] Instance ExporterInfo_eq_dec : EqDecision ExporterInfo.
Proof. solve_decision. Defined.

Record ExporterUpdateRequest := mkExporterUpdate {
  eu_name : option string;
  eu_subjects : option (list string);
  eu_context_type : option string;
  eu_context : option string;
  eu_rename : option string;
  eu_config : option Map;
}.

Inductive ExporterState := Starting | Running | Paused | ErrorState | Failed.
#[export] Instance ExporterState_eq_dec : EqDecision ExporterState.
Proof. solve_decision. Defined.

Record ExporterRecord := mkExporter {
  er_info : ExporterInfo; er_state : ExporterState; er_offset : Z; er_ts : Z; er_trace : string }.
#[export] Instance ExporterRecord_eq_dec : EqDecision ExporterRecord.
Proof. solve_decision. Defined.

(** * Properties *)

(** A compatibility level is read back from its own spelling in any
    case, and every text that is accepted is such a spelling. *)
Theorem level_parse_spec (s : string) (l : CompatibilityLevel) :
  Level.parse s = Ok l ↔ to_ascii_uppercase s = Level.as_str l.
Proof.
  unfold Level.parse. split.
  - intros H. repeat case_decide; by simplify_eq.
  - intros ->. by destruct l.
Qed.

(** Configuration updates compose: applying two partial updates one
    after the other stores what applying their combination once would, and
    the empty update changes nothing. *)
Theorem config_merge_monoid (a b c : ConfigRecord.t) :
  ConfigRecord.merged_with (ConfigRecord.merged_with a b) c
    = ConfigRecord.merged_with a (ConfigRecord.merged_with b c) ∧
  ConfigRecord.merged_with a ConfigRecord.empty = a ∧
  ConfigRecord.merged_with ConfigRecord.empty a = a.
Proof.
  split_and!.
  - unfold ConfigRecord.merged_with; simpl. by rewrite !ConfigRecord.or_assoc.
  - by destruct a.
  - unfold ConfigRecord.merged_with; simpl. rewrite !ConfigRecord.or_None_r. by destruct a.
Qed.
