(* ===== verification/Context.v ===== *)
(** Context-qualified subject names (context.rs), host container names
    (tenant.rs) and the mode table (modegate.rs). *)
From S2P Require Import Prelude SortedVec RustStr Errors Json Model.

Local Open Scope Z_scope.

Definition DEFAULT_CONTEXT : string := ".".
Definition WILDCARD_CONTEXT : string := "*".

Record QualifiedSubject := mkQ { context : string; subject : string }.
#[export] Instance QualifiedSubject_eq_dec : EqDecision QualifiedSubject.
Proof. solve_decision. Defined.

(** [qualify]: the form clients see, unqualified in the default context. *)
Definition qualify (ctx subj : string) : string :=
  if decide (ctx = DEFAULT_CONTEXT) then subj else ":" +:+ ctx +:+ ":" +:+ subj.

(** [normalize_parsed]: the context as written, [.] when empty. *)
Definition normalize_parsed (ctx : string) : string :=
  if decide (ctx = "") then DEFAULT_CONTEXT else ctx.

Module Qualified.
Definition parse (raw : string) : ApiResult QualifiedSubject :=
  Ok match strip_prefix ":." raw with
     | Some rest =>
         match find_char ":" rest with
         | Some ix => mkQ (normalize_parsed (slice raw 1 (2 + ix))) (slice_from rest (ix + 1))
         | None => mkQ (normalize_parsed (slice_from raw 1)) ""
         end
     | None =>
         match strip_prefix ":*:" raw with
         | Some rest => mkQ WILDCARD_CONTEXT rest
         | None => mkQ DEFAULT_CONTEXT raw
         end
     end.

Definition parse_subject : string → ApiResult QualifiedSubject := parse.
Definition is_wildcard (q : QualifiedSubject) : bool := bool_decide (context q = WILDCARD_CONTEXT).
Definition is_context_only (q : QualifiedSubject) : bool := bool_decide (subject q = "").
Definition qualified (q : QualifiedSubject) : string := qualify (context q) (subject q).
End Qualified.

(** The characters allowed in a context, container or exporter name. *)
Definition name_char (c : ascii) : bool :=
  is_ascii_alphanumeric c || bool_decide (c = "."%char) || bool_decide (c = "-"%char)
  || bool_decide (c = "_"%char).

Definition normalize_context (ctx : string) : option string :=
  if bool_decide (ctx = "") || bool_decide (ctx = DEFAULT_CONTEXT) then Some DEFAULT_CONTEXT
  else if decide (ctx = WILDCARD_CONTEXT) then Some WILDCARD_CONTEXT
  else
    let name := if starts_with "." ctx then ctx else "." +:+ ctx in
    let valid := bool_decide (1 < String.length name)%nat && bool_decide (String.length name ≤ 256)%nat
                 && str_forall name_char (slice_from name 1) in
    if valid then Some name else None.

Definition is_valid_subject (raw : string) : bool :=
  if has_control raw then false else
  match Qualified.parse raw with
  | Ok q => bool_decide (subject q ≠ "__GLOBAL") && bool_decide (subject q ≠ "__EMPTY")
  | Err _ => false
  end.

(** * Host containers *)

Module TenantId.
Definition DEFAULT_TENANT : string := "default".

Record t := mk { name : string }.
#[export] Instance eq_dec : EqDecision t.
Proof. solve_decision. Defined.

Definition default_tenant : t := mk DEFAULT_TENANT.

Definition well_formed (name : string) : bool :=
  bool_decide (name ≠ "") && bool_decide (String.length name ≤ 64)%nat
  && negb (starts_with "." name) && str_forall name_char name.

Definition parse (name : string) : ApiResult t :=
  if well_formed name then Ok (mk name) else
  Err (ApiErr.unprocessable ("Invalid host container name '" +:+ name +:+
    "': 1-64 characters of [A-Za-z0-9._-], not starting with '.'")).

Definition as_str (t : t) : string := name t.

(** What every key of this container starts with. *)
Definition key_prefix (t : t) : string := name t +:+ str1 NUL.
End TenantId.

(** * The mode table *)

Module ModeGate.
Inductive Intent := Write | ImportI | Modify | SetMode | NotSchemaState.
#[export] Instance Intent_eq_dec : EqDecision Intent.
Proof. solve_decision. Defined.

(** Proof that the mode in scope allows the write about to happen. *)
Inductive Allowed : Set := token.

Definition not_schema_state : Allowed := token.

Definition check (intent : Intent) (mode : Mode) (scope : string) : ApiResult Allowed :=
  let refuse what := Err (ApiErr.operation_not_permitted ("Subject " +:+ scope +:+ " is " +:+ what)) in
  match intent, mode with
  | SetMode, _ | NotSchemaState, _ => Ok token
  | _, (Readonly | ReadonlyOverride) => refuse "in read-only mode"
  | Write, Readwrite => Ok token
  | Write, Import => refuse "not in read-write mode"
  | ImportI, Import => Ok token
  | ImportI, Readwrite => refuse "not in import mode"
  | Modify, (Readwrite | Import) => Ok token
  end.
End ModeGate.

(** * Lemmas *)

(** A subject that, unqualified, would be read as naming a context. *)
Definition looks_qualified (s : string) : bool := starts_with ":." s || starts_with ":*:" s.

(** The three shapes [parse] recognises. *)
Lemma parse_context c s : lacks ":" c →
  Qualified.parse (":." +:+ c +:+ ":" +:+ s) = Ok (mkQ ("." +:+ c) s).
Proof.
  intros Hc. unfold Qualified.parse. rewrite strip_prefix_app.
  change (c +:+ ":" +:+ s) with (c +:+ String ":" s). rewrite (find_char_app ":" c s Hc).
  unfold slice, slice_from, normalize_parsed. rewrite Nat.add_1_r, str_drop_S_app.
  replace (2 + String.length c - 1)%nat with (S (String.length c)) by lia.
  cbn -[str_take]. change (String ":" s) with (":" +:+ s).
  cbn [str_take]. rewrite str_take_app. done.
Qed.

Lemma parse_context_only c : lacks ":" c → Qualified.parse (":." +:+ c) = Ok (mkQ ("." +:+ c) "").
Proof. intros Hc. unfold Qualified.parse. rewrite strip_prefix_app. unfold lacks in Hc. by rewrite Hc. Qed.

Lemma parse_wildcard s : Qualified.parse (":*:" +:+ s) = Ok (mkQ "*" s).
Proof. reflexivity. Qed.

Lemma parse_plain s : looks_qualified s = false → Qualified.parse s = Ok (mkQ "." s).
Proof.
  unfold looks_qualified, starts_with, Qualified.parse.
  rewrite orb_false_iff, !bool_decide_eq_false, <-!eq_None_not_Some. by intros [-> ->].
Qed.

(** Every result of [parse] has one of those shapes. *)
Lemma parse_inv raw q : Qualified.parse raw = Ok q →
  (∃ c s, lacks ":" c ∧ raw = ":." +:+ c +:+ ":" +:+ s ∧ q = mkQ ("." +:+ c) s) ∨
  (∃ c, lacks ":" c ∧ raw = ":." +:+ c ∧ q = mkQ ("." +:+ c) "") ∨
  (∃ s, raw = ":*:" +:+ s ∧ q = mkQ "*" s) ∨
  (looks_qualified raw = false ∧ q = mkQ "." raw).
Proof.
  intros Hp. destruct (strip_prefix ":." raw) as [rest|] eqn:E1.
  - apply strip_prefix_Some in E1 as ->. destruct (find_char ":" rest) as [ix|] eqn:E2.
    + apply find_char_Some in E2 as (c & s & -> & Hc & _). left. exists c, s.
      change (c +:+ String ":" s) with (c +:+ ":" +:+ s) in *.
      rewrite parse_context in Hp by done. naive_solver.
    + right; left. exists rest. rewrite parse_context_only in Hp by done. naive_solver.
  - destruct (strip_prefix ":*:" raw) as [rest|] eqn:E2.
    + apply strip_prefix_Some in E2 as ->. do 2 right; left. exists rest.
      rewrite parse_wildcard in Hp. naive_solver.
    + do 3 right. assert (looks_qualified raw = false) as Hl.
      { unfold looks_qualified, starts_with.
        by rewrite orb_false_iff, !bool_decide_eq_false, <-!eq_None_not_Some. }
      rewrite parse_plain in Hp by done. naive_solver.
Qed.

Lemma parse_total raw : ∃ q, Qualified.parse raw = Ok q.
Proof. unfold Qualified.parse. eauto. Qed.

Lemma name_char_lacks_colon s : str_forall name_char s = true → lacks ":" s.
Proof. by apply str_forall_lacks. Qed.
Lemma name_char_lacks_nul s : str_forall name_char s = true → lacks NUL s.
Proof. by apply str_forall_lacks. Qed.

(** What an accepted subject name guarantees of its parts. *)
Lemma valid_subject_parts raw q :
  is_valid_subject raw = true → Qualified.parse raw = Ok q →
  lacks NUL (context q) ∧ lacks NUL (subject q).
Proof.
  unfold is_valid_subject. destruct (has_control raw) eqn:Hc; [done|]. intros _ Hp.
  apply has_control_lacks_nul in Hc.
  destruct (parse_inv raw q Hp) as [(c & s & _ & -> & ->)|[(c & _ & -> & ->)|[(s & -> & ->)|[_ ->]]]]; simpl.
  - rewrite !lacks_app in Hc. rewrite lacks_cons. naive_solver.
  - rewrite !lacks_app in Hc. rewrite lacks_cons. naive_solver.
  - rewrite lacks_app in Hc. naive_solver.
  - done.
Qed.

(** * Properties *)

(** Reading back what was shown: printing a parsed name and parsing it
    again gives the same context and subject, unless the name is a subject of
    the default context that itself looks context-qualified. *)
Theorem qualified_roundtrip (raw : string) (q : QualifiedSubject) :
  Qualified.parse raw = Ok q →
  (context q = DEFAULT_CONTEXT → looks_qualified (subject q) = false) →
  Qualified.parse (Qualified.qualified q) = Ok q.
Proof.
  intros Hp Hd. unfold Qualified.qualified, qualify.
  destruct (parse_inv raw q Hp) as [(c & s & Hc & _ & ->)|[(c & Hc & _ & ->)|[(s & _ & ->)|[Hl ->]]]];
    simpl in *; unfold DEFAULT_CONTEXT in *.
  - case_decide as E; [|by apply (parse_context c s Hc)].
    rewrite parse_plain by auto. by rewrite E.
  - case_decide as E; [by rewrite E|]. by apply (parse_context c "" Hc).
  - reflexivity.
  - by apply parse_plain.
Qed.

Lemma qualified_roundtrip_witness :
  Qualified.parse ":.staging:orders-value" = Ok (mkQ ".staging" "orders-value") ∧
  Qualified.parse (Qualified.qualified (mkQ ".staging" "orders-value")) = Ok (mkQ ".staging" "orders-value").
Proof.
  split; [reflexivity|].
  apply (qualified_roundtrip ":.staging:orders-value"); [reflexivity|discriminate].
Defined.

Lemma tenant_parse_Ok s t : TenantId.parse s = Ok t →
  t = TenantId.mk s ∧ s ≠ "" ∧ lacks NUL s ∧ starts_with "." s = false.
Proof.
  unfold TenantId.parse. destruct (TenantId.well_formed s) eqn:E; [|done]. intros [= <-].
  unfold TenantId.well_formed in E. rewrite !andb_true_iff, bool_decide_eq_true, negb_true_iff in E.
  destruct E as [[[? _] ?] ?]. split_and!; [done|done|by apply name_char_lacks_nul|done].
Qed.

(** Container prefixes are exact: a key of one container never starts
    with the key prefix of another, so a prefix scan returns only its own
    container's rows. *)
Theorem container_prefix_exact (a b : string) (ta tb : TenantId.t) (rest : string) :
  TenantId.parse a = Ok ta → TenantId.parse b = Ok tb →
  starts_with (TenantId.key_prefix tb) (TenantId.key_prefix ta +:+ rest) = true → ta = tb.
Proof.
  intros (-> & _ & Ha & _)%tenant_parse_Ok (-> & _ & Hb & _)%tenant_parse_Ok.
  intros [r Hr]%starts_with_spec. unfold TenantId.key_prefix in Hr; simpl in Hr.
  rewrite !str_app_assoc in Hr. simpl in Hr.
  apply sep_inj in Hr as [-> _]; [done|done|done].
Qed.

Lemma container_prefix_exact_witness :
  TenantId.parse "prod" = Ok (TenantId.mk "prod") ∧
  (starts_with (TenantId.key_prefix (TenantId.mk "prod"))
     (TenantId.key_prefix (TenantId.mk "prod") +:+ "log_seq") = true → TenantId.mk "prod" = TenantId.mk "prod") ∧
  starts_with (TenantId.key_prefix (TenantId.mk "prod")) (TenantId.key_prefix (TenantId.mk "prod-eu")) = false.
Proof.
  split; [reflexivity|]. split; [|reflexivity].
  apply (container_prefix_exact "prod" "prod"); reflexivity.
Defined.

(** The mode table: the exempt intents always pass; a registration needs
    READWRITE, an import needs IMPORT, any other change needs one of the two;
    every refusal is error 42205. *)
Theorem mode_table (i : ModeGate.Intent) (m : Mode) (scope : string) :
  match ModeGate.check i m scope with
  | Ok _ => i = ModeGate.SetMode ∨ i = ModeGate.NotSchemaState ∨
            (i = ModeGate.Write ∧ m = Readwrite) ∨ (i = ModeGate.ImportI ∧ m = Import) ∨
            (i = ModeGate.Modify ∧ (m = Readwrite ∨ m = Import))
  | Err e => code e = 42205 ∧ i ≠ ModeGate.SetMode ∧ i ≠ ModeGate.NotSchemaState ∧
             (m = Readonly ∨ m = ReadonlyOverride ∨
              (i = ModeGate.Write ∧ m = Import) ∨ (i = ModeGate.ImportI ∧ m = Readwrite))
  end.
Proof. destruct i, m; simpl; naive_solver. Qed.

(** Canonical context names: the result is the default, the wildcard, or
    a dotted name of at most 256 bytes without separators; normalizing is
    idempotent; and the canonical name of a context parses back as that
    context. *)
Theorem normalize_context_canonical (ctx c : string) :
  normalize_context ctx = Some c →
  normalize_context c = Some c ∧ lacks NUL c ∧
  (c ≠ WILDCARD_CONTEXT → ∀ s, c ≠ DEFAULT_CONTEXT →
     Qualified.parse (qualify c s) = Ok (mkQ c s)).
Proof.
  unfold normalize_context at 1. case_match eqn:E1; [intros [= <-]; split_and!; naive_solver|].
  destruct (decide (ctx = WILDCARD_CONTEXT)) as [?|Hw]; [intros [= <-]; split_and!; naive_solver|].
  cbv zeta. set (name := if starts_with "." ctx then ctx else "." +:+ ctx).
  case_match eqn:Hv; [|done]. intros [= <-].
  assert (∃ n, name = "." +:+ n) as [n Hn].
  { subst name. destruct (starts_with "." ctx) eqn:Es; [|eauto].
    by apply starts_with_spec in Es. }
  rewrite Hn in *. clear name Hn.
  pose proof Hv as Hv'. rewrite !andb_true_iff, !bool_decide_eq_true in Hv. simpl in Hv.
  destruct Hv as [[Hlen _] Hall].
  assert (n ≠ "") as Hne by (intros ->; simpl in Hlen; lia).
  split_and!.
  - unfold normalize_context. rewrite (bool_decide_false (_ = "")), (bool_decide_false (_ = DEFAULT_CONTEXT)).
    + cbn [orb]. rewrite (decide_False (P := _ = WILDCARD_CONTEXT)) by done.
      rewrite starts_with_app. cbv zeta. by rewrite Hv'.
    + unfold DEFAULT_CONTEXT. simpl. naive_solver.
    + done.
  - apply (lacks_cons NUL "." n). split; [discriminate|]. by apply name_char_lacks_nul.
  - intros _ s Hd. unfold qualify. rewrite decide_False by done.
    apply (parse_context n s). by apply name_char_lacks_colon.
Qed.

Lemma normalize_context_canonical_witness :
  normalize_context "staging" = Some ".staging" ∧
  (normalize_context ".staging" = Some ".staging" ∧ lacks NUL ".staging" ∧
   (".staging" ≠ WILDCARD_CONTEXT → ∀ s, ".staging" ≠ DEFAULT_CONTEXT →
     Qualified.parse (qualify ".staging" s) = Ok (mkQ ".staging" s))).
Proof. split; [reflexivity|]. apply (normalize_context_canonical "staging"). reflexivity. Defined.

(** Printing is not injective on the default context: a subject of the
    default context that looks qualified prints as, and is read back as, a
    subject of another context. *)
Theorem qualified_not_injective :
  ∃ q q', Qualified.parse ":.::.eu:orders" = Ok q ∧ Qualified.parse ":.eu:orders" = Ok q' ∧ q ≠ q' ∧
          is_valid_subject ":.::.eu:orders" = true ∧
          Qualified.qualified q = Qualified.qualified q' ∧
          Qualified.parse (Qualified.qualified q) = Ok q'.
Proof.
  exists (mkQ "." ":.eu:orders"), (mkQ ".eu" "orders"). split_and!; try reflexivity. discriminate.
Qed.
