(* ===== verification/Snapshot.v ===== *)
(** The in-memory read model (snapshot.rs): the metadata snapshot, the
    operations a committed transaction applies to it, its queries, and the
    well-formedness every operation preserves. *)
From S2P Require Import Prelude SortedVec RustStr Errors Json Model Context.

Local Open Scope Z_scope.

(** Where a config or mode value lives (store.rs, [Scope]). *)
Inductive Scope :=
| Global
| ContextScope (ctx : string)
| SubjectScope (ctx subj : string).
#[export] Instance Scope_eq_dec : EqDecision Scope.
Proof. solve_decision. Defined.
#[export] Instance Scope_countable : Countable Scope.
Proof.
  refine (inj_countable'
    (λ s, match s with
          | Global => inl ()
          | ContextScope c => inr (inl c)
          | SubjectScope c s => inr (inr (c, s))
          end)
    (λ x, match x with
          | inl _ => Global
          | inr (inl c) => ContextScope c
          | inr (inr (c, s)) => SubjectScope c s
          end) _).
  by intros [].
Defined.

(** One mutation, mirrored one to one from the RocksDB batch. *)
Inductive Op :=
| OpPutSchema (ctx : string) (id : Z) (rec : SchemaRecord) (index : bool)
| OpDeleteSchema (ctx : string) (id : Z)
| OpPutVersion (ctx subj : string) (version : Z) (rec : VersionRecord)
| OpDeleteVersion (ctx subj : string) (version id : Z)
| OpPutRefby (ctx subj : string) (version id : Z)
| OpDeleteRefby (ctx subj : string) (version id : Z)
| OpSetNextId (ctx : string) (next : Z)
| OpDeleteContext (ctx : string)
| OpPutConfig (scope : Scope) (rec : ConfigRecord.t)
| OpDeleteConfig (scope : Scope)
| OpPutMode (scope : Scope) (mode : Mode)
| OpDeleteMode (scope : Scope)
| OpSetLogSeq (seq : Z).

Abbreviation versions_t := (list (Z * VersionRecord)).

Record CtxState := mkCtx {
  subjects : gmap string versions_t;
  usages : gmap Z (list (string * Z));
  fingerprints : gmap string Z;
  refby : gmap (string * Z) (list Z);
  cs_next_id : option Z;
}.

(** [CtxState::default()]. *)
Definition empty_ctx : CtxState := mkCtx ∅ ∅ ∅ ∅ None.

Record Snapshot := mkSnap {
  ctxs : gmap string CtxState;
  known_contexts : gset string;
  config : gmap Scope ConfigRecord.t;
  has_aliases : bool;
  mode : gmap Scope Mode;
  log_seq : Z;
}.

Definition empty_snap : Snapshot := mkSnap ∅ ∅ ∅ false ∅ 0.

Module Snap.
(** Field updates. *)
Definition set_subjects (f : gmap string versions_t → gmap string versions_t) (c : CtxState) : CtxState :=
  mkCtx (f (subjects c)) (usages c) (fingerprints c) (refby c) (cs_next_id c).
Definition set_usages (f : gmap Z (list (string * Z)) → gmap Z (list (string * Z))) (c : CtxState) : CtxState :=
  mkCtx (subjects c) (f (usages c)) (fingerprints c) (refby c) (cs_next_id c).
Definition set_fingerprints (f : gmap string Z → gmap string Z) (c : CtxState) : CtxState :=
  mkCtx (subjects c) (usages c) (f (fingerprints c)) (refby c) (cs_next_id c).
Definition set_refby (f : gmap (string * Z) (list Z) → gmap (string * Z) (list Z)) (c : CtxState) : CtxState :=
  mkCtx (subjects c) (usages c) (fingerprints c) (f (refby c)) (cs_next_id c).
Definition set_next_id (n : Z) (c : CtxState) : CtxState :=
  mkCtx (subjects c) (usages c) (fingerprints c) (refby c) (Some n).

(** [ctx_mut]: the context's state, created empty when absent. *)
Definition ctx_mut (s : Snapshot) (ctx : string) (f : CtxState → CtxState) : Snapshot :=
  mkSnap (<[ctx := f (default empty_ctx (ctxs s !! ctx))]> (ctxs s))
         (known_contexts s) (config s) (has_aliases s) (mode s) (log_seq s).

Definition set_known (f : gset string → gset string) (s : Snapshot) : Snapshot :=
  mkSnap (ctxs s) (f (known_contexts s)) (config s) (has_aliases s) (mode s) (log_seq s).
Definition set_config (c : gmap Scope ConfigRecord.t) (a : bool) (s : Snapshot) : Snapshot :=
  mkSnap (ctxs s) (known_contexts s) c a (mode s) (log_seq s).
Definition set_mode (m : gmap Scope Mode) (s : Snapshot) : Snapshot :=
  mkSnap (ctxs s) (known_contexts s) (config s) (has_aliases s) m (log_seq s).
Definition set_log_seq (n : Z) (s : Snapshot) : Snapshot :=
  mkSnap (ctxs s) (known_contexts s) (config s) (has_aliases s) (mode s) n.

(** [vs.iter().find(|(v, _)| *v == version)]. *)
Definition find_version (version : Z) (vs : versions_t) : option VersionRecord :=
  snd <$> List.find (λ '(v, _), bool_decide (v = version)) vs.

(** The [PutVersion] arm, on the context's state. *)
Definition put_version (subj : string) (version : Z) (rec : VersionRecord) (c : CtxState) : CtxState :=
  let old_id := i ← vr_id <$> (subjects c !! subj ≫= find_version version);
                if bool_decide (i ≠ vr_id rec) then Some i else None in
  let c := match old_id with
           | Some old =>
               match usages c !! old with
               | Some u => set_usages (<[old := set_remove u (subj, version)]>) c
               | None => c
               end
           | None => c
           end in
  let c := set_subjects (λ m, <[subj := small_insert (default [] (m !! subj)) version rec]> m) c in
  set_usages (λ m, <[vr_id rec := set_insert (default [] (m !! vr_id rec)) (subj, version)]> m) c.

(** The [DeleteVersion] arm: drop the version, and each index entry that
    became empty. *)
Definition delete_version (subj : string) (version id : Z) (c : CtxState) : CtxState :=
  let c := match subjects c !! subj with
           | Some vs =>
               let vs := small_remove vs version in
               if bool_decide (vs = []) then set_subjects (delete subj) c
               else set_subjects (<[subj := vs]>) c
           | None => c
           end in
  match usages c !! id with
  | Some u =>
      let u := set_remove u (subj, version) in
      if bool_decide (u = []) then set_usages (delete id) c
      else set_usages (<[id := u]>) c
  | None => c
  end.

Definition put_refby (subj : string) (version id : Z) (c : CtxState) : CtxState :=
  set_refby (λ m, <[(subj, version) := set_insert (default [] (m !! (subj, version))) id]> m) c.

Definition delete_refby (subj : string) (version id : Z) (c : CtxState) : CtxState :=
  match refby c !! (subj, version) with
  | Some l =>
      let l := set_remove l id in
      if bool_decide (l = []) then set_refby (delete (subj, version)) c
      else set_refby (<[(subj, version) := l]>) c
  | None => c
  end.

(** [c.alias.as_ref().is_some_and(|a| !a.is_empty())]. *)
Definition aliased (c : ConfigRecord.t) : bool :=
  match ConfigRecord.alias c with Some a => bool_decide (a ≠ "") | None => false end.

Definition apply (s : Snapshot) (op : Op) : Snapshot :=
  match op with
  | OpDeleteSchema _ _ => s
  | OpPutSchema ctx id rec index =>
      if index then ctx_mut s ctx (set_fingerprints (<[sr_fingerprint rec := id]>)) else s
  | OpPutVersion ctx subj version rec =>
      ctx_mut (set_known ({[ctx]} ∪.) s) ctx (put_version subj version rec)
  | OpDeleteVersion ctx subj version id => ctx_mut s ctx (delete_version subj version id)
  | OpPutRefby ctx subj version id => ctx_mut s ctx (put_refby subj version id)
  | OpDeleteRefby ctx subj version id => ctx_mut s ctx (delete_refby subj version id)
  | OpSetNextId ctx next => ctx_mut s ctx (set_next_id next)
  | OpDeleteContext ctx => set_known (.∖ {[ctx]}) s
  | OpPutConfig scope rec =>
      set_config (<[scope := rec]> (config s)) (has_aliases s || aliased rec) s
  | OpDeleteConfig scope =>
      let c := delete scope (config s) in
      set_config c (if has_aliases s
                    then existsb aliased (map_to_list c).*2
                    else has_aliases s) s
  | OpPutMode scope m => set_mode (<[scope := m]> (mode s)) s
  | OpDeleteMode scope => set_mode (delete scope (mode s)) s
  | OpSetLogSeq seq => set_log_seq seq s
  end.

Definition apply_all (s : Snapshot) (ops : list Op) : Snapshot := foldl apply s ops.

(** ** Queries *)

Definition get_version (s : Snapshot) (ctx subj : string) (version : Z) : option VersionRecord :=
  c ← ctxs s !! ctx; vs ← subjects c !! subj; find_version version vs.

Definition list_versions (s : Snapshot) (ctx subj : string) : versions_t :=
  default [] (c ← ctxs s !! ctx; subjects c !! subj).

Definition list_subject_names (s : Snapshot) (ctx : string) : list string :=
  match ctxs s !! ctx with Some c => ord_keys (subjects c) | None => [] end.

Definition id_usages (s : Snapshot) (ctx : string) (id : Z) : list (string * Z) :=
  default [] (c ← ctxs s !! ctx; usages c !! id).

Definition referenced_by (s : Snapshot) (ctx subj : string) (version : Z) : list Z :=
  default [] (c ← ctxs s !! ctx; refby c !! (subj, version)).

Definition id_for_fingerprint (s : Snapshot) (ctx fp : string) : option Z :=
  c ← ctxs s !! ctx; fingerprints c !! fp.

Definition next_id (s : Snapshot) (ctx : string) : Z :=
  default 1 (c ← ctxs s !! ctx; cs_next_id c).

(** [insert(0, ".")] when missing, then [sort]. *)
Definition list_contexts (s : Snapshot) : list string :=
  let out := sort_vec (elements (known_contexts s)) in
  let out := if bool_decide (DEFAULT_CONTEXT ∈ out) then out else DEFAULT_CONTEXT :: out in
  sort_vec out.

Definition get_config (s : Snapshot) (scope : Scope) : option ConfigRecord.t := config s !! scope.
Definition get_mode (s : Snapshot) (scope : Scope) : option Mode := mode s !! scope.
End Snap.

(** * Well-formedness *)

Section ctx_state.
Implicit Types c : CtxState.

Definition version_of c (subj : string) (v : Z) : option VersionRecord :=
  subjects c !! subj ≫= Snap.find_version v.
Definition uses c (id : Z) : list (string * Z) := default [] (usages c !! id).
Definition referrers c (subj : string) (v : Z) : list Z := default [] (refby c !! (subj, v)).

(** Version lists are sorted and never empty; the usage index holds exactly
    the stored versions of each id. *)
Record ctx_wf c : Prop := {
  wf_versions : ∀ subj vs, subjects c !! subj = Some vs → small_sorted vs ∧ vs ≠ [];
  wf_usages : ∀ id, set_sorted (uses c id);
  wf_refby : ∀ subj v, set_sorted (referrers c subj v);
  wf_exact : ∀ id subj v,
    (subj, v) ∈ uses c id ↔ ∃ vr, version_of c subj v = Some vr ∧ vr_id vr = id;
}.

(** No stored version has an id at or above the counter. *)
Definition ctx_counter c : Prop :=
  ∀ subj v vr, version_of c subj v = Some vr → vr_id vr < default 1 (cs_next_id c).

Lemma find_version_map v (vs : versions_t) : Snap.find_version v vs = small_map vs !! v.
Proof.
  unfold Snap.find_version, small_map. induction vs as [|[k x] vs IH]; [done|].
  simpl. case_bool_decide as E; simpl.
  - subst. by rewrite lookup_insert_eq.
  - by rewrite lookup_insert_ne.
Qed.

Lemma version_of_elem c subj v vr : ctx_wf c →
  version_of c subj v = Some vr ↔ ∃ vs, subjects c !! subj = Some vs ∧ (v, vr) ∈ vs.
Proof.
  intros Hwf. unfold version_of. destruct (subjects c !! subj) as [vs|] eqn:E; simpl; [|naive_solver].
  rewrite find_version_map. rewrite small_lookup by (by eapply wf_versions). naive_solver.
Qed.

Lemma set_sorted_default {K} `{RustOrdLaws K} (o : option (list K)) :
  (∀ l, o = Some l → set_sorted l) → set_sorted (default [] o).
Proof. destruct o as [l|]; simpl; [auto|constructor]. Qed.

(** The versions after a put: the record at its key, the rest unchanged. *)
Lemma version_of_put c subj v rec subj' v' : ctx_wf c →
  version_of (Snap.put_version subj v rec c) subj' v' =
  if decide (subj' = subj ∧ v' = v) then Some rec else version_of c subj' v'.
Proof.
  intros Hwf.
  assert (version_of (Snap.put_version subj v rec c) subj' v' =
    (<[subj := small_insert (default [] (subjects c !! subj)) v rec]> (subjects c)) !! subj'
      ≫= Snap.find_version v') as ->.
  { unfold version_of at 1, Snap.put_version. cbv zeta. repeat (case_match; try done). }
  destruct (decide (subj' = subj)) as [->|Hne].
  - rewrite lookup_insert_eq. simpl. rewrite find_version_map, small_insert_map.
    + destruct (decide (v' = v)) as [->|Hv].
      * rewrite lookup_insert_eq, decide_True by done. done.
      * rewrite lookup_insert_ne, decide_False by naive_solver.
        unfold version_of. destruct (subjects c !! subj); simpl; by rewrite ?find_version_map.
    + destruct (subjects c !! subj) eqn:E; simpl; [by eapply wf_versions|constructor].
  - rewrite lookup_insert_ne, decide_False by naive_solver. done.
Qed.

(** What a put does to the usage index. *)
Lemma uses_put c subj v rec id x : ctx_wf c →
  x ∈ uses (Snap.put_version subj v rec c) id ↔
  (id = vr_id rec ∧ x = (subj, v)) ∨
  (x ∈ uses c id ∧ (x = (subj, v) → id = vr_id rec ∨ version_of c subj v = None)).
Proof.
  intros Hwf. set (old := version_of c subj v).
  assert (∀ c', (∀ i, set_sorted (uses c' i)) →
    x ∈ uses (Snap.set_usages (λ m, <[vr_id rec := set_insert (default [] (m !! vr_id rec)) (subj, v)]> m) c') id ↔
    (id = vr_id rec ∧ x = (subj, v)) ∨ x ∈ uses c' id) as Hins.
  { intros c' Hs. unfold uses at 1; simpl. destruct (decide (id = vr_id rec)) as [->|].
    - rewrite lookup_insert_eq; simpl. rewrite elem_of_set_insert by apply Hs. naive_solver.
    - rewrite lookup_insert_ne by done. naive_solver. }
  unfold Snap.put_version. fold (version_of c subj v). fold old.
  assert (∀ vr, old = Some vr → (subj, v) ∈ uses c (vr_id vr)) as Hold.
  { intros vr Hvr. apply (wf_exact c Hwf). eauto. }
  destruct old as [vr|] eqn:Eold; simpl; [|rewrite Hins by apply Hwf; naive_solver].
  case_bool_decide as Hid; simpl.
  - assert (∃ u, usages c !! vr_id vr = Some u) as [u Hu].
    { specialize (Hold vr eq_refl). unfold uses in Hold.
      destruct (usages c !! vr_id vr); [eauto|]. by apply not_elem_of_nil in Hold. }
    rewrite Hu. rewrite Hins.
    + assert (x ∈ uses (Snap.set_subjects (λ m, <[subj:=small_insert (default [] (m !! subj)) v rec]> m)
        (Snap.set_usages <[vr_id vr:=set_remove u (subj, v)]> c)) id ↔
        x ∈ uses c id ∧ (id = vr_id vr → x ≠ (subj, v))) as ->.
      { unfold uses; simpl. destruct (decide (id = vr_id vr)) as [->|].
        - rewrite lookup_insert_eq, Hu; simpl. rewrite elem_of_set_remove; [naive_solver|].
          pose proof (wf_usages c Hwf (vr_id vr)) as Hs. unfold uses in Hs. by rewrite Hu in Hs.
        - rewrite lookup_insert_ne by done. naive_solver. }
      assert (∀ i, (subj, v) ∈ uses c i → i = vr_id vr) as Huniq.
      { intros i (vr' & Hvr' & <-)%(wf_exact c Hwf). unfold old in Eold. congruence. }
      naive_solver.
    + intros i. unfold uses; simpl. destruct (decide (i = vr_id vr)) as [->|].
      * rewrite lookup_insert_eq; simpl. apply set_remove_sorted.
        pose proof (wf_usages c Hwf (vr_id vr)) as Hs. unfold uses in Hs. by rewrite Hu in Hs.
      * rewrite lookup_insert_ne by done. apply Hwf.
  - rewrite Hins by apply Hwf.
    assert (∀ i, (subj, v) ∈ uses c i → i = vr_id vr) as Huniq.
    { intros i (vr' & Hvr' & <-)%(wf_exact c Hwf). unfold old in Eold. congruence. }
    naive_solver.
Qed.

Lemma uses_put_sorted c subj v rec id : ctx_wf c → set_sorted (uses (Snap.put_version subj v rec c) id).
Proof.
  intros Hwf. pose proof (wf_usages c Hwf) as Hs. unfold Snap.put_version. cbv zeta.
  assert (∀ c', (∀ i, set_sorted (uses c' i)) → set_sorted (uses (Snap.set_usages
    (λ m, <[vr_id rec := set_insert (default [] (m !! vr_id rec)) (subj, v)]> m) c') id)) as Hins.
  { intros c' Hc'. unfold uses; simpl. destruct (decide (id = vr_id rec)) as [->|].
    - rewrite lookup_insert_eq. apply set_insert_sorted, Hc'.
    - rewrite lookup_insert_ne by done. apply Hc'. }
  apply Hins. intros i. case_match; [|apply Hs]. case_match eqn:Eu; [|apply Hs].
  unfold uses; simpl. destruct (decide (i = z)) as [->|].
  - rewrite lookup_insert_eq. apply set_remove_sorted.
    specialize (Hs z). unfold uses in Hs. by rewrite Eu in Hs.
  - rewrite lookup_insert_ne by done. apply Hs.
Qed.

Lemma subjects_put c subj v rec :
  subjects (Snap.put_version subj v rec c) =
  <[subj := small_insert (default [] (subjects c !! subj)) v rec]> (subjects c).
Proof. unfold Snap.put_version. cbv zeta. repeat (case_match; try done). Qed.

Lemma put_version_rest c subj v rec :
  refby (Snap.put_version subj v rec c) = refby c ∧
  cs_next_id (Snap.put_version subj v rec c) = cs_next_id c ∧
  fingerprints (Snap.put_version subj v rec c) = fingerprints c.
Proof. unfold Snap.put_version. cbv zeta. repeat (case_match; try done). Qed.

Lemma put_version_wf c subj v rec : ctx_wf c → ctx_wf (Snap.put_version subj v rec c).
Proof.
  intros Hwf. destruct (put_version_rest c subj v rec) as (Hr & Hn & _). split.
  - intros subj' vs. rewrite subjects_put. rewrite lookup_insert_Some.
    intros [[<- <-]|[_ Hvs]]; [|by eapply wf_versions].
    assert (small_sorted (default [] (subjects c !! subj))) as Hs.
    { destruct (subjects c !! subj) eqn:E; simpl; [by eapply wf_versions|constructor]. }
    split; [by apply small_insert_sorted|]. rewrite <-small_nil_map, small_insert_map by done.
    apply insert_non_empty.
  - intros id. by apply uses_put_sorted.
  - intros. unfold referrers. rewrite Hr. apply Hwf.
  - intros id subj' v'. rewrite uses_put, version_of_put by done.
    rewrite (wf_exact c Hwf). destruct (decide _) as [[-> ->]|Hne]; [|naive_solver].
    destruct (version_of c subj v); naive_solver.
Qed.

Lemma put_version_counter c subj v rec :
  ctx_wf c → ctx_counter c → vr_id rec < default 1 (cs_next_id c) →
  ctx_counter (Snap.put_version subj v rec c).
Proof.
  intros Hwf Hc Hid subj' v' vr. destruct (put_version_rest c subj v rec) as (_ & Hn & _).
  rewrite version_of_put, Hn by done. destruct (decide _); [naive_solver|]. apply Hc.
Qed.

Lemma delete_version_subjects c subj v id :
  subjects (Snap.delete_version subj v id c) =
  match subjects c !! subj with
  | Some vs => let vs := small_remove vs v in
      if bool_decide (vs = []) then delete subj (subjects c) else <[subj := vs]> (subjects c)
  | None => subjects c
  end.
Proof. unfold Snap.delete_version. cbv zeta. repeat (case_match; try done). Qed.

Lemma delete_version_rest c subj v id :
  refby (Snap.delete_version subj v id c) = refby c ∧
  cs_next_id (Snap.delete_version subj v id c) = cs_next_id c ∧
  fingerprints (Snap.delete_version subj v id c) = fingerprints c.
Proof. unfold Snap.delete_version. cbv zeta. repeat (case_match; try done). Qed.

Lemma version_of_delete c subj v id subj' v' : ctx_wf c →
  version_of (Snap.delete_version subj v id c) subj' v' =
  if decide (subj' = subj ∧ v' = v) then None else version_of c subj' v'.
Proof.
  intros Hwf. unfold version_of at 1. rewrite delete_version_subjects.
  assert (∀ vs, subjects c !! subj = Some vs →
    small_map (small_remove vs v) = delete v (small_map vs)) as Hrem.
  { intros vs Hvs. apply small_remove_map. by eapply wf_versions. }
  unfold version_of. destruct (decide (subj' = subj)) as [->|Hne].
  - destruct (subjects c !! subj) as [vs|] eqn:E; cbv zeta.
    + specialize (Hrem vs eq_refl). simpl. rewrite find_version_map. case_bool_decide as Hnil.
      * rewrite lookup_delete_eq; simpl. apply small_nil_map in Hnil. rewrite Hnil in Hrem.
        destruct (decide (v' = v)) as [->|]; [by rewrite decide_True|].
        rewrite decide_False by naive_solver. symmetry.
        rewrite <-(lookup_delete_ne _ v) by done. by rewrite <-Hrem.
      * rewrite lookup_insert_eq; simpl. rewrite find_version_map, Hrem.
        destruct (decide (v' = v)) as [->|].
        -- by rewrite lookup_delete_eq, decide_True.
        -- by rewrite lookup_delete_ne, decide_False by naive_solver.
    + rewrite E. simpl. by destruct (decide _).
  - rewrite decide_False by naive_solver. destruct (subjects c !! subj); [|done].
    cbv zeta. case_bool_decide; [rewrite lookup_delete_ne|rewrite lookup_insert_ne]; done.
Qed.

Lemma uses_delete c subj v id i : ctx_wf c →
  set_sorted (uses (Snap.delete_version subj v id c) i) ∧
  ∀ x, x ∈ uses (Snap.delete_version subj v id c) i ↔ x ∈ uses c i ∧ (i = id → x ≠ (subj, v)).
Proof.
  intros Hwf. unfold Snap.delete_version. cbv zeta.
  set (c1 := match subjects c !! subj with Some _ => _ | None => _ end).
  assert (usages c1 = usages c) as Hu by (subst c1; repeat (case_match; try done)).
  clearbody c1. unfold uses at 3. rewrite <-Hu.
  pose proof (wf_usages c Hwf) as Hs. unfold uses in Hs. rewrite <-Hu in Hs. clear Hu Hwf.
  unfold uses. destruct (usages c1 !! id) as [u|] eqn:E.
  - pose proof (Hs id) as Hid. rewrite E in Hid; simpl in Hid.
    pose proof (elem_of_set_remove u (subj, v)) as Hel.
    pose proof (set_remove_sorted u (subj, v) Hid) as Hrs.
    case_bool_decide as Hnil; simpl; (destruct (decide (i = id)) as [->|Hne];
      [rewrite ?lookup_delete_eq, ?lookup_insert_eq, ?E; simpl
      |rewrite ?lookup_delete_ne, ?lookup_insert_ne by done; split; [apply Hs|naive_solver]]).
    + split; [constructor|]. intros x. specialize (Hel x Hid). rewrite Hnil in Hel.
      rewrite elem_of_nil in *. naive_solver.
    + split; [done|]. intros x. rewrite Hel by done. naive_solver.
  - split; [apply Hs|]. intros x. destruct (decide (i = id)) as [->|]; [|naive_solver].
    rewrite E; simpl. rewrite elem_of_nil. naive_solver.
Qed.

Lemma delete_version_wf c subj v id :
  ctx_wf c → (∀ vr, version_of c subj v = Some vr → vr_id vr = id) →
  ctx_wf (Snap.delete_version subj v id c).
Proof.
  intros Hwf Hid. destruct (delete_version_rest c subj v id) as (Hr & Hn & _). split.
  - intros subj' vs. rewrite delete_version_subjects. pose proof (wf_versions c Hwf) as Hv.
    destruct (subjects c !! subj) as [vs0|] eqn:E; [|apply Hv]. cbv zeta.
    case_bool_decide as Hnil.
    + rewrite lookup_delete_Some. naive_solver.
    + rewrite lookup_insert_Some. intros [[<- <-]|[_ ?]]; [|by apply (Hv subj')].
      split; [|done]. apply small_remove_sorted. by eapply Hv.
  - intros i. by apply uses_delete.
  - intros. unfold referrers. rewrite Hr. apply Hwf.
  - intros i subj' v'. rewrite (proj2 (uses_delete c subj v id i Hwf)), version_of_delete by done.
    rewrite (wf_exact c Hwf). destruct (decide _) as [[-> ->]|Hne]; naive_solver.
Qed.

Lemma delete_version_counter c subj v id :
  ctx_wf c → ctx_counter c → ctx_counter (Snap.delete_version subj v id c).
Proof.
  intros Hwf Hc subj' v' vr. destruct (delete_version_rest c subj v id) as (_ & Hn & _).
  rewrite version_of_delete, Hn by done. destruct (decide _); [done|]. apply Hc.
Qed.

Lemma put_refby_wf c subj v id : ctx_wf c → ctx_wf (Snap.put_refby subj v id c).
Proof.
  intros Hwf. split; [apply Hwf..| |apply Hwf].
  intros subj' v'. unfold referrers; simpl. pose proof (wf_refby c Hwf) as Hs.
  destruct (decide ((subj', v') = (subj, v))) as [->|].
  - rewrite lookup_insert_eq. apply set_insert_sorted, Hs.
  - rewrite lookup_insert_ne by done. apply Hs.
Qed.

Lemma delete_refby_wf c subj v id : ctx_wf c → ctx_wf (Snap.delete_refby subj v id c).
Proof.
  intros Hwf. unfold Snap.delete_refby. destruct (refby c !! (subj, v)) as [l|] eqn:E; [|done].
  pose proof (wf_refby c Hwf) as Hs. cbv zeta.
  case_bool_decide; (split; [apply Hwf..| |apply Hwf]);
    intros subj' v'; unfold referrers; simpl.
  - destruct (decide ((subj', v') = (subj, v))) as [->|].
    + rewrite lookup_delete_eq. constructor.
    + rewrite lookup_delete_ne by done. apply Hs.
  - destruct (decide ((subj', v') = (subj, v))) as [->|].
    + rewrite lookup_insert_eq. apply set_remove_sorted. specialize (Hs subj v).
      unfold referrers in Hs. by rewrite E in Hs.
    + rewrite lookup_insert_ne by done. apply Hs.
Qed.

Lemma delete_refby_rest c subj v id :
  subjects (Snap.delete_refby subj v id c) = subjects c ∧
  usages (Snap.delete_refby subj v id c) = usages c ∧
  cs_next_id (Snap.delete_refby subj v id c) = cs_next_id c ∧
  fingerprints (Snap.delete_refby subj v id c) = fingerprints c.
Proof. unfold Snap.delete_refby. cbv zeta. repeat (case_match; try done). Qed.

Lemma set_next_id_wf c n : ctx_wf c → ctx_wf (Snap.set_next_id n c).
Proof. intros Hwf. split; apply Hwf. Qed.

Lemma set_next_id_counter c n :
  ctx_counter c → default 1 (cs_next_id c) ≤ n → ctx_counter (Snap.set_next_id n c).
Proof. intros Hc Hn subj v vr Hv. apply (Hc subj v) in Hv. simpl. lia. Qed.

Lemma set_fingerprints_wf c f : ctx_wf c → ctx_wf (Snap.set_fingerprints f c).
Proof. intros Hwf. split; apply Hwf. Qed.

Lemma empty_ctx_wf : ctx_wf empty_ctx.
Proof.
  split; unfold uses, referrers, version_of; simpl.
  - intros ??. by rewrite lookup_empty.
  - intros ?. rewrite lookup_empty. constructor.
  - intros ??. rewrite lookup_empty. constructor.
  - intros ???. rewrite !lookup_empty; simpl. rewrite elem_of_nil. naive_solver.
Qed.
End ctx_state.

Section snapshot.
Implicit Types s : Snapshot.

(** A context that was never touched reads as empty. *)
Definition ctx_of s (ctx : string) : CtxState := default empty_ctx (ctxs s !! ctx).

Lemma get_version_ctx s ctx subj v : Snap.get_version s ctx subj v = version_of (ctx_of s ctx) subj v.
Proof.
  unfold Snap.get_version, ctx_of, version_of. destruct (ctxs s !! ctx); simpl; [done|].
  by rewrite lookup_empty.
Qed.
Lemma id_usages_ctx s ctx id : Snap.id_usages s ctx id = uses (ctx_of s ctx) id.
Proof.
  unfold Snap.id_usages, ctx_of, uses. destruct (ctxs s !! ctx); simpl; [done|].
  by rewrite lookup_empty.
Qed.
Lemma referenced_by_ctx s ctx subj v :
  Snap.referenced_by s ctx subj v = referrers (ctx_of s ctx) subj v.
Proof.
  unfold Snap.referenced_by, ctx_of, referrers. destruct (ctxs s !! ctx); simpl; [done|].
  by rewrite lookup_empty.
Qed.
Lemma next_id_ctx s ctx : Snap.next_id s ctx = default 1 (cs_next_id (ctx_of s ctx)).
Proof. unfold Snap.next_id, ctx_of. by destruct (ctxs s !! ctx). Qed.
Lemma list_versions_ctx s ctx subj :
  Snap.list_versions s ctx subj = default [] (subjects (ctx_of s ctx) !! subj).
Proof.
  unfold Snap.list_versions, ctx_of. destruct (ctxs s !! ctx); simpl; [done|].
  by rewrite lookup_empty.
Qed.
Lemma fingerprint_ctx s ctx fp : Snap.id_for_fingerprint s ctx fp = fingerprints (ctx_of s ctx) !! fp.
Proof.
  unfold Snap.id_for_fingerprint, ctx_of. destruct (ctxs s !! ctx); simpl; [done|].
  by rewrite lookup_empty.
Qed.
Lemma elem_of_subject_names s ctx subj :
  subj ∈ Snap.list_subject_names s ctx ↔ is_Some (subjects (ctx_of s ctx) !! subj).
Proof.
  unfold Snap.list_subject_names, ctx_of. destruct (ctxs s !! ctx); simpl.
  - apply elem_of_ord_keys.
  - rewrite lookup_empty, elem_of_nil. split; [done|]. by intros [].
Qed.

Lemma ctx_of_mut s ctx f ctx' :
  ctx_of (Snap.ctx_mut s ctx f) ctx' =
  if decide (ctx' = ctx) then f (ctx_of s ctx) else ctx_of s ctx'.
Proof.
  unfold ctx_of, Snap.ctx_mut; simpl. destruct (decide (ctx' = ctx)) as [->|].
  - by rewrite lookup_insert_eq.
  - by rewrite lookup_insert_ne.
Qed.

Record snap_wf s : Prop := {
  wf_ctx : ∀ ctx, ctx_wf (ctx_of s ctx);
  wf_counter : ∀ ctx, ctx_counter (ctx_of s ctx);
  wf_known : ∀ ctx subj, is_Some (subjects (ctx_of s ctx) !! subj) → ctx ∈ known_contexts s;
  wf_aliases : ∀ scope c, config s !! scope = Some c → Snap.aliased c = true → has_aliases s = true;
}.

(** What an operation has to respect; each clause is a fact its producers
    establish from the snapshot they planned against. *)
Definition op_ok s (op : Op) : Prop :=
  match op with
  | OpPutVersion ctx subj v rec => vr_id rec < Snap.next_id s ctx
  | OpDeleteVersion ctx subj v id => ∀ vr, Snap.get_version s ctx subj v = Some vr → vr_id vr = id
  | OpSetNextId ctx next => Snap.next_id s ctx ≤ next
  | OpDeleteContext ctx => Snap.list_subject_names s ctx = []
  | _ => True
  end.

Fixpoint ops_ok s (ops : list Op) : Prop :=
  match ops with [] => True | op :: ops => op_ok s op ∧ ops_ok (Snap.apply s op) ops end.

(** Changing one context's state. *)
Lemma ctx_mut_wf s ctx f :
  snap_wf s → ctx_wf (f (ctx_of s ctx)) → ctx_counter (f (ctx_of s ctx)) →
  (∀ subj, is_Some (subjects (f (ctx_of s ctx)) !! subj) → ctx ∈ known_contexts s) →
  snap_wf (Snap.ctx_mut s ctx f).
Proof.
  intros Hwf Hf Hc Hk. split.
  - intros ctx'. rewrite ctx_of_mut. destruct (decide _); [done|apply Hwf].
  - intros ctx'. rewrite ctx_of_mut. destruct (decide _); [done|apply Hwf].
  - intros ctx' subj. rewrite ctx_of_mut. destruct (decide _) as [->|]; [apply Hk|apply Hwf].
  - apply Hwf.
Qed.

(** ... without touching its versions. *)
Lemma ctx_mut_wf_same s ctx f :
  snap_wf s → ctx_wf (f (ctx_of s ctx)) → subjects (f (ctx_of s ctx)) = subjects (ctx_of s ctx) →
  default 1 (cs_next_id (ctx_of s ctx)) ≤ default 1 (cs_next_id (f (ctx_of s ctx))) →
  snap_wf (Snap.ctx_mut s ctx f).
Proof.
  intros Hwf Hf Hsame Hn. apply ctx_mut_wf; [done..| |].
  - intros subj v vr. unfold version_of. rewrite Hsame. intros Hv.
    apply (wf_counter s Hwf) in Hv. lia.
  - intros subj. rewrite Hsame. by apply Hwf.
Qed.

Lemma apply_wf s op : snap_wf s → op_ok s op → snap_wf (Snap.apply s op).
Proof.
  intros Hwf Hok. destruct op as
    [ctx id rec index|ctx id|ctx subj v rec|ctx subj v id|ctx subj v id|ctx subj v id
    |ctx next|ctx|scope rec|scope|scope m|scope|seq]; simpl in *.
  - destruct index; [|done]. apply ctx_mut_wf_same; [done| |done..]. apply set_fingerprints_wf, Hwf.
  - done.
  - assert (snap_wf (Snap.set_known ({[ctx]} ∪.) s)) as Hwf'.
    { split; [apply Hwf..| |apply Hwf]. intros ctx' subj' H'. simpl.
      apply elem_of_union_r. by apply (wf_known s Hwf _ subj'). }
    rewrite next_id_ctx in Hok. apply ctx_mut_wf; [done| | |].
    + apply put_version_wf, Hwf.
    + apply put_version_counter; [apply Hwf..|done].
    + intros subj' _. simpl. set_solver.
  - setoid_rewrite get_version_ctx in Hok. apply ctx_mut_wf; [done| | |].
    + apply delete_version_wf; [apply Hwf|done].
    + apply delete_version_counter; apply Hwf.
    + intros subj' [vs Hvs]. rewrite delete_version_subjects in Hvs.
      destruct (subjects (ctx_of s ctx) !! subj) eqn:E; cbv zeta in *.
      * apply (wf_known s Hwf ctx subj). by rewrite E.
      * by apply (wf_known s Hwf ctx subj').
  - apply ctx_mut_wf_same; [done|apply put_refby_wf, Hwf|done..].
  - destruct (delete_refby_rest (ctx_of s ctx) subj v id) as (? & _ & Hn & _).
    apply ctx_mut_wf_same; [done|apply delete_refby_wf, Hwf|done|by rewrite Hn].
  - rewrite next_id_ctx in Hok. apply ctx_mut_wf_same; [done|apply set_next_id_wf, Hwf|done..].
  - split; [apply Hwf..| |apply Hwf]. intros ctx' subj Hs. simpl.
    change (ctx_of (Snap.set_known _ s) ctx') with (ctx_of s ctx') in Hs.
    apply elem_of_difference. split; [by apply (wf_known s Hwf _ subj)|].
    rewrite elem_of_singleton. intros ->. apply elem_of_subject_names in Hs.
    rewrite Hok in Hs. by apply not_elem_of_nil in Hs.
  - split; [apply Hwf..|]. intros scope' c. simpl.
    rewrite lookup_insert_Some, orb_true_iff. intros [[<- <-]|[_ Hc]] Ha; [by right|left].
    by apply (wf_aliases s Hwf scope' c).
  - split; [apply Hwf..|]. intros scope' c. simpl. intros Hc Ha.
    assert (has_aliases s = true) as ->.
    { apply lookup_delete_Some in Hc as [_ Hc]. by apply (wf_aliases s Hwf scope' c). }
    apply existsb_exists. exists c. split; [|done]. apply list_elem_of_In, list_elem_of_fmap.
    exists (scope', c). split; [done|]. by apply elem_of_map_to_list.
  - split; apply Hwf.
  - split; apply Hwf.
  - split; apply Hwf.
Qed.

Lemma apply_all_wf s ops : snap_wf s → ops_ok s ops → snap_wf (Snap.apply_all s ops).
Proof.
  revert s. induction ops as [|op ops IH]; intros s Hwf; [done|].
  intros [Hop Hops]. apply IH; [by apply apply_wf|done].
Qed.

Lemma empty_snap_wf : snap_wf empty_snap.
Proof.
  split; unfold ctx_of; simpl; intros *; rewrite ?lookup_empty; simpl.
  - apply empty_ctx_wf.
  - intros subj v vr. unfold version_of; simpl. by rewrite lookup_empty.
  - intros [? ?]. done.
  - done.
Qed.
End snapshot.
#[export] Hint Resolve apply_wf apply_all_wf empty_snap_wf : registry.
