(* ===== verification/Keys.v ===== *)
(** Key encoding of the store (store.rs): big-endian integers, the composite
    keys of each column family, their decoders, and the facts the scans and
    the reload rely on. *)
From S2P Require Import Prelude SortedVec RustStr Errors Json Model Context Snapshot.

Local Open Scope Z_scope.

(** * Integers *)

(** [to_be_bytes] of an [n]-byte unsigned integer. *)
Fixpoint be_bytes (n : nat) (z : Z) : string :=
  match n with
  | O => ""
  | S n => String (ascii_of_N (Z.to_N ((z / 2 ^ (8 * Z.of_nat n)) `mod` 256))) (be_bytes n z)
  end.
Definition to_be_u32 (z : Z) : string := be_bytes 4 z.
Definition to_be_u64 (z : Z) : string := be_bytes 8 z.

Fixpoint be_value (n : nat) (s : string) : option Z :=
  match n, s with
  | O, _ => Some 0
  | S n, String c s => v ← be_value n s; Some (Z.of_N (N_of_ascii c) * 2 ^ (8 * Z.of_nat n) + v)
  | S _, EmptyString => None
  end.

(** [be_u32]/[be_u64] read a prefix; [None] is the slice-index panic of a value
    that is too short. [try_be_u64] is the variant that does not panic. *)
Definition be_u32 (s : string) : option Z := be_value 4 s.
Definition be_u64 (s : string) : option Z := be_value 8 s.
Definition try_be_u64 (s : string) : option Z := be_value 8 s.

(** * Composite keys *)

Definition schema_key (ctx : string) (id : Z) : string := ctx +:+ str1 NUL +:+ to_be_u32 id.
Definition fp_key (ctx fp : string) : string := ctx +:+ str1 NUL +:+ fp.
Definition subject_prefix (ctx subj : string) : string := ctx +:+ str1 NUL +:+ subj +:+ str1 NUL.
Definition version_key (ctx subj : string) (version : Z) : string :=
  subject_prefix ctx subj +:+ to_be_u32 version.
Definition refby_key (ctx subj : string) (version id : Z) : string :=
  version_key ctx subj version +:+ to_be_u32 id.

Module ScopeKey.
Definition key (s : Scope) : string :=
  match s with
  | Global => "G"
  | ContextScope ctx => "C" +:+ ctx
  | SubjectScope ctx subj => "S" +:+ ctx +:+ str1 NUL +:+ subj
  end.

Definition from_key (k : string) : option Scope :=
  match k with
  | EmptyString => None
  | String tag rest =>
      let rest := from_utf8_lossy rest in
      if decide (tag = "G"%char) then Some Global
      else if decide (tag = "C"%char) then Some (ContextScope rest)
      else if decide (tag = "S"%char) then
        '(ctx, subj) ← split_once_char NUL rest; Some (SubjectScope ctx subj)
      else None
  end.
End ScopeKey.

(** Split [ctx 0x00 rest]. *)
Definition split_ctx (k : string) : option (string * string) :=
  '(ctx, rest) ← split_once_char NUL k; Some (from_utf8_lossy ctx, rest).

(** Split [subject 0x00 version(u32 BE) tail]. *)
Definition split_subject_version (k : string) : option (string * Z * string) :=
  '(subj, rest) ← split_once_char NUL k;
  if bool_decide (4 ≤ String.length rest)%nat then
    v ← be_u32 (str_take 4 rest); Some (from_utf8_lossy subj, v, str_drop 4 rest)
  else None.

Arguments to_be_u32 : simpl never.
Arguments to_be_u64 : simpl never.
Arguments be_u32 : simpl never.
Arguments be_u64 : simpl never.

(** * Integers: lemmas *)

Lemma be_bytes_length n z : String.length (be_bytes n z) = n.
Proof. induction n; simpl; congruence. Qed.

Lemma be_digit z : Z.of_N (N_of_ascii (ascii_of_N (Z.to_N (z `mod` 256)))) = z `mod` 256.
Proof.
  pose proof (Z.mod_pos_bound z 256).
  rewrite N_ascii_embedding; [lia|]. apply N2Z.inj_lt. lia.
Qed.

Lemma be_value_bytes n z rest : be_value n (be_bytes n z +:+ rest) = Some (z `mod` 2 ^ (8 * Z.of_nat n)).
Proof.
  induction n as [|n IH]; [by rewrite Z.mod_1_r|].
  cbn [be_bytes be_value String.append]. rewrite IH. cbn. f_equal. rewrite be_digit.
  replace (8 * Z.of_nat (S n)) with (8 * Z.of_nat n + 8) by lia.
  rewrite Z.pow_add_r by lia. change (2 ^ 8) with 256.
  rewrite Z.rem_mul_r by lia. lia.
Qed.

Lemma be_u32_bytes z rest : is_u32 z → be_u32 (to_be_u32 z +:+ rest) = Some z.
Proof.
  intros Hz. unfold be_u32, to_be_u32. rewrite be_value_bytes. f_equal.
  apply (as_u32_small z Hz).
Qed.

Lemma be_u64_bytes z rest : is_u64 z → be_u64 (to_be_u64 z +:+ rest) = Some z.
Proof.
  unfold is_u64, u64_max. intros Hz. unfold be_u64, to_be_u64. rewrite be_value_bytes.
  f_equal. apply Z.mod_small. lia.
Qed.

Lemma to_be_u32_inj a b : is_u32 a → is_u32 b → to_be_u32 a = to_be_u32 b → a = b.
Proof.
  intros Ha Hb Heq. pose proof (be_u32_bytes a "" Ha) as H1. rewrite Heq, be_u32_bytes in H1 by done.
  by injection H1.
Qed.

(** Numeric order is byte order. *)
Lemma string_compare_app_same p a b : String.compare (p +:+ a) (p +:+ b) = String.compare a b.
Proof.
  induction p as [|c p IH]; [done|]. cbn [String.append String.compare].
  by rewrite (proj2 (ascii_compare_eq c c) eq_refl).
Qed.

Lemma be_compare n a b : 0 ≤ a < 2 ^ (8 * Z.of_nat n) → 0 ≤ b < 2 ^ (8 * Z.of_nat n) →
  String.compare (be_bytes n a) (be_bytes n b) = Z.compare a b.
Proof.
  (* the low part of a digit string decides only when the high digits agree *)
  assert (∀ n z m, be_bytes n (z + m * 2 ^ (8 * Z.of_nat n)) = be_bytes n z) as Hshift.
  { clear. induction n as [|n IH]; intros z m; [done|]. cbn [be_bytes].
    replace (8 * Z.of_nat (S n)) with (8 + 8 * Z.of_nat n) by lia. rewrite Z.pow_add_r by lia.
    replace (z + m * (2 ^ 8 * 2 ^ (8 * Z.of_nat n))) with (z + (m * 256) * 2 ^ (8 * Z.of_nat n)) by lia.
    rewrite IH, Z.div_add by lia. by rewrite Z.mod_add by lia. }
  revert a b. induction n as [|n IH]; intros a b Ha Hb.
  { simpl in *. replace a with 0 by lia. by replace b with 0 by lia. }
  replace (8 * Z.of_nat (S n)) with (8 + 8 * Z.of_nat n) in * by lia.
  set (p := 2 ^ (8 * Z.of_nat n)) in *.
  assert (0 < p) as Hp by (apply Z.pow_pos_nonneg; lia).
  rewrite Z.pow_add_r in Ha, Hb by lia. fold p in Ha, Hb.
  pose proof (Z.div_mod a p) as Da. pose proof (Z.div_mod b p) as Db.
  pose proof (Z.mod_pos_bound a p Hp) as Ma. pose proof (Z.mod_pos_bound b p Hp) as Mb.
  assert (0 ≤ a / p < 256) as Qa by (split; [apply Z.div_pos|apply Z.div_lt_upper_bound]; lia).
  assert (0 ≤ b / p < 256) as Qb by (split; [apply Z.div_pos|apply Z.div_lt_upper_bound]; lia).
  cbn [be_bytes String.compare]. fold p.
  rewrite !(Z.mod_small _ 256) by lia.
  replace (Ascii.compare _ _) with (Z.compare (a / p) (b / p)).
  2: { unfold Ascii.compare. rewrite !N_ascii_embedding by (apply N2Z.inj_lt; lia).
       rewrite <-N2Z.inj_compare, !Z2N.id by lia. done. }
  assert (be_bytes n a = be_bytes n (a `mod` p)) as ->.
  { rewrite Da at 1 by lia. rewrite Z.add_comm, Z.mul_comm. apply Hshift. }
  assert (be_bytes n b = be_bytes n (b `mod` p)) as ->.
  { rewrite Db at 1 by lia. rewrite Z.add_comm, Z.mul_comm. apply Hshift. }
  rewrite IH by done.
  destruct (Z.compare_spec (a / p) (b / p)) as [Heq|Hlt|Hgt]; symmetry.
  - destruct (Z.compare_spec (a `mod` p) (b `mod` p)); [apply Z.compare_eq_iff|apply Z.compare_lt_iff|apply Z.compare_gt_iff]; nia.
  - apply Z.compare_lt_iff. nia.
  - apply Z.compare_gt_iff. nia.
Qed.

(** * Decoders invert encoders *)

Definition good_name (s : string) : Prop := lacks NUL s ∧ utf8_valid s = true.
#[export] Instance good_name_dec s : Decision (good_name s).
Proof. unfold good_name. apply _. Defined.

Lemma split_ctx_app ctx rest : good_name ctx → split_ctx (ctx +:+ str1 NUL +:+ rest) = Some (ctx, rest).
Proof.
  intros [Hn Hu]. unfold split_ctx. simpl.
  rewrite split_once_char_app by done. simpl. by rewrite from_utf8_lossy_valid.
Qed.

Lemma split_subject_version_app subj v tail : good_name subj → is_u32 v →
  split_subject_version (subj +:+ str1 NUL +:+ to_be_u32 v +:+ tail) = Some (subj, v, tail).
Proof.
  intros [Hn Hu] Hv. unfold split_subject_version.
  change (str1 NUL +:+ to_be_u32 v +:+ tail) with (String NUL (to_be_u32 v +:+ tail)).
  rewrite split_once_char_app by done. cbn [mbind option_bind].
  rewrite str_length_app. rewrite (be_bytes_length 4 v : String.length (to_be_u32 v) = _).
  rewrite bool_decide_true by lia.
  pose proof (str_take_app (to_be_u32 v) tail) as Ht. pose proof (str_drop_app (to_be_u32 v) tail) as Hd.
  rewrite (be_bytes_length 4 v : String.length (to_be_u32 v) = _) in Ht, Hd.
  rewrite Ht, Hd, <-(str_app_nil_r (to_be_u32 v)), be_u32_bytes by done. cbn.
  by rewrite from_utf8_lossy_valid.
Qed.

Definition good_scope (s : Scope) : Prop :=
  match s with
  | Global => True
  | ContextScope ctx => utf8_valid ctx = true
  | SubjectScope ctx subj => good_name ctx ∧ utf8_valid (ctx +:+ str1 NUL +:+ subj) = true
  end.

Lemma scope_key_from_key s : good_scope s → ScopeKey.from_key (ScopeKey.key s) = Some s.
Proof.
  destruct s as [|ctx|ctx subj]; simpl; [done| |].
  - intros Hu. by rewrite from_utf8_lossy_valid.
  - intros [[Hn _] Hu]. rewrite from_utf8_lossy_valid by done.
    by rewrite split_once_char_app.
Qed.

Lemma version_key_eq ctx subj v :
  version_key ctx subj v = ctx +:+ str1 NUL +:+ (subj +:+ str1 NUL +:+ to_be_u32 v).
Proof. unfold version_key, subject_prefix. by rewrite !str_app_assoc. Qed.

Lemma refby_key_eq ctx subj v id :
  refby_key ctx subj v id = ctx +:+ str1 NUL +:+ (subj +:+ str1 NUL +:+ to_be_u32 v +:+ to_be_u32 id).
Proof. unfold refby_key, version_key, subject_prefix. by rewrite !str_app_assoc. Qed.
