(* ===== verification/Plan.v ===== *)
(** What a mutation declares and decides (mutations/mod.rs): its target, when
    the mode is checked, the rows it wants written, and its plan. *)
From S2P Require Import Prelude SortedVec RustStr Errors Json Model Context Snapshot.

Local Open Scope Z_scope.

(** What a mutation touches. *)
Inductive Target :=
| SubjectTarget (q : QualifiedSubject)
| ContextTarget (ctx : string)
| GlobalTarget
| ExportersTarget.
#[export] Instance Target_eq_dec : EqDecision Target.
Proof. solve_decision. Defined.

Inductive Gate := BeforePlan | AfterPlan.

(** One row the store should write. *)
Inductive Write :=
| WPutSchema (ctx : string) (id : Z) (rec : SchemaRecord) (index : bool)
| WPutVersion (ctx subj : string) (version : Z) (rec : VersionRecord)
| WDeleteVersion (ctx subj : string) (version id : Z)
| WDeleteSchema (ctx : string) (id : Z)
| WPutRefby (ctx subj : string) (version id : Z)
| WDeleteRefby (ctx subj : string) (version id : Z)
| WSetNextId (ctx : string) (next : Z)
| WPutConfig (scope : Scope) (rec : ConfigRecord.t)
| WDeleteConfig (scope : Scope)
| WPutMode (scope : Scope) (mode : Mode)
| WDeleteMode (scope : Scope)
| WDeleteContext (ctx : string)
| WPutExporter (rec : ExporterRecord)
| WDeleteExporter (name : string).

Record Plan (T : Type) := mkPlan { writes : list Write; events : list LogEvent; output : T }.
Arguments mkPlan {T}.
Arguments writes {T}.
Arguments events {T}.
Arguments output {T}.

Module PlanM.
Definition new {T} (output : T) : Plan T := mkPlan [] [] output.
Definition write {T} (p : Plan T) (w : Write) : Plan T :=
  mkPlan (writes p ++ [w]) (events p) (output p).
Definition add_writes {T} (p : Plan T) (ws : list Write) : Plan T :=
  mkPlan (writes p ++ ws) (events p) (output p).
End PlanM.

(** How a target is named in an error message. *)
Definition scope_name (t : Target) : string :=
  match t with
  | SubjectTarget q => Qualified.qualified q
  | ContextTarget ctx => Qualified.qualified (mkQ ctx "")
  | GlobalTarget | ExportersTarget => "null"
  end.
