(* ===== verification/Store.v ===== *)
(** RocksDB persistence (store.rs). The database itself is a parameter: a type
    with point reads, ordered iteration and atomic batches ([RocksDB]), and the
    laws the code relies on ([RocksDBLaws]). Serialization is a parameter too
    ([Serde]). On top of them: the physical store with its format migration,
    one container's view of it, snapshot loading, and transactions. *)
From S2P Require Import Prelude SortedVec RustStr Errors Json Model Context Snapshot Keys Plan.

Local Open Scope Z_scope.

(** How a store call can end badly: an error value, or a slice-index panic. *)
Inductive Fault :=
| Api (e : ApiError)
| Anyhow (msg : string)
| Panic.
Abbreviation Outcome := (result Fault).

Definition or_panic {A} (o : option A) : Outcome A := ok_or o Panic.
Definition api {A} (m : ApiResult A) : Outcome A := map_err Api m.

(** * The database *)

Inductive BatchOp :=
| PutCf (cf key value : string)
| DeleteCf (cf key : string)
| DeleteRangeCf (cf from to : string).
Abbreviation WriteBatch := (list BatchOp).

(** Errors are the database's own messages. A write that fails returns the
    database it leaves behind. *)
Class RocksDB (DB : Type) := {
  get_cf : DB → string → string → result string (option string);
  iterator_cf : DB → string → string → result string (list (string * string));
  write_opt : DB → WriteBatch → DB * result string ();
}.

(** Rows of one column family and key, as a finite map. *)
Abbreviation Rows := (gmap (string * string) string).

Definition apply_batch_op (m : Rows) (op : BatchOp) : Rows :=
  match op with
  | PutCf cf k v => <[(cf, k) := v]> m
  | DeleteCf cf k => delete (cf, k) m
  | DeleteRangeCf cf from to =>
      filter (λ '((cf', k), _), ¬ (cf' = cf ∧ kle from k ∧ klt k to)) m
  end.
Definition apply_batch (m : Rows) (b : WriteBatch) : Rows := foldl apply_batch_op m b.

(** Reads see the rows, iteration is in key order from its start key, and a
    batch is applied as a whole or not at all. *)
Class RocksDBLaws (DB : Type) `{RocksDB DB} := {
  rows : DB → Rows;
  get_cf_law : ∀ db cf k, get_cf db cf k = Ok (rows db !! (cf, k));
  iterator_cf_law : ∀ db cf from, ∃ l, iterator_cf db cf from = Ok l ∧ small_sorted l ∧
    ∀ k v, (k, v) ∈ l ↔ rows db !! (cf, k) = Some v ∧ kle from k;
  write_opt_law : ∀ db b db' r, write_opt db b = (db', r) →
    rows db' = match r with Ok _ => apply_batch (rows db) b | Err _ => rows db end;
}.

(** * Serialization (serde_json) *)

Class Serde (A : Type) := {
  to_vec : A → result string string;
  from_slice : string → result string A;
}.

Definition corrupt {A} (m : result string A) : ApiResult A :=
  map_err (λ e, ApiErr.store ("corrupt record: " +:+ e)) m.
Definition backend {A} (m : result string A) : ApiResult A := map_err ApiErr.store m.

(** A record that serialization can write and read back. *)
Definition persistable `{Serde A} (x : A) : Prop := ∃ s, to_vec x = Ok s ∧ from_slice s = Ok x.

(** * Tables *)

Definition CF_SCHEMAS : string := "schemas".
Definition CF_FINGERPRINTS : string := "fingerprints".
Definition CF_VERSIONS : string := "versions".
Definition CF_REFBY : string := "refby".
Definition CF_CONFIG : string := "config".
Definition CF_MODE : string := "mode".
Definition CF_EXPORTERS : string := "exporters".
Definition CF_LOG : string := "log".
Definition CF_META : string := "meta".

Definition ALL_CFS : list string :=
  [CF_SCHEMAS; CF_FINGERPRINTS; CF_VERSIONS; CF_REFBY; CF_CONFIG; CF_MODE; CF_EXPORTERS; CF_LOG; CF_META].

Definition RESERVED : ascii := NUL.
Definition FORMAT_VERSION_KEY : string := String NUL "format_version".
Definition TENANT_KEY_PREFIX : string := String NUL "container/".
Definition FORMAT_VERSION : Z := 2.

(** [take_while]. *)
Fixpoint take_while {A} (f : A → bool) (l : list A) : list A :=
  match l with
  | [] => []
  | x :: l => if f x then x :: take_while f l else []
  end.

Section store.
Context {DB : Type} `{!RocksDB DB}.
Implicit Types db : DB.

(** ** [PhysicalStore] *)

Definition write db (b : WriteBatch) : DB * ApiResult () :=
  let '(db, r) := write_opt db b in (db, backend r).

Definition physical_put db (cf key value : string) : DB * ApiResult () :=
  write db [PutCf cf key value].

Definition format_version db : Outcome (option Z) :=
  v ← api (backend (get_cf db CF_META FORMAT_VERSION_KEY));
  match v with
  | Some v => n ← or_panic (be_u32 v); Ok (Some n)
  | None => Ok None
  end.

(** Every container this store holds, in name order. *)
Fixpoint containers_loop (l : list (string * string)) : list TenantId.t :=
  match l with
  | [] => []
  | (k, _) :: l =>
      match strip_prefix TENANT_KEY_PREFIX k with
      | None => []
      | Some name =>
          match TenantId.parse (from_utf8_lossy name) with
          | Ok t => t :: containers_loop l
          | Err _ => containers_loop l
          end
      end
  end.
Definition containers db : ApiResult (list TenantId.t) :=
  l ← backend (iterator_cf db CF_META TENANT_KEY_PREFIX); Ok (containers_loop l).

(** Rows a migration leaves where they are. *)
Definition stays (cf prefix k : string) : bool :=
  (bool_decide (cf = CF_META) && starts_with (str1 RESERVED) k) || starts_with prefix k.

(** The rows of one column family, in batches of at most [MIGRATION_BATCH]. *)
Definition MIGRATION_BATCH : Z := 10000.
Fixpoint migrate_rows (cf prefix : string) (l : list (string * string))
    (batch : WriteBatch) (in_batch : Z) db : DB * ApiResult () :=
  match l with
  | [] => if bool_decide (0 < in_batch) then write db batch else (db, Ok ())
  | (k, v) :: l =>
      if stays cf prefix k then migrate_rows cf prefix l batch in_batch db else
      let batch := batch ++ [PutCf cf (prefix +:+ k) v; DeleteCf cf k] in
      let in_batch := in_batch + 1 in
      if bool_decide (MIGRATION_BATCH ≤ in_batch) then
        match write db batch with
        | (db, Ok _) => migrate_rows cf prefix l [] 0 db
        | (db, Err e) => (db, Err e)
        end
      else migrate_rows cf prefix l batch in_batch db
  end.

Fixpoint migrate_cfs (prefix : string) (cfs : list string) db : DB * ApiResult () :=
  match cfs with
  | [] => (db, Ok ())
  | cf :: cfs =>
      match backend (iterator_cf db cf "") with
      | Err e => (db, Err e)
      | Ok l =>
          match migrate_rows cf prefix l [] 0 db with
          | (db, Ok _) => migrate_cfs prefix cfs db
          | (db, Err e) => (db, Err e)
          end
      end
  end.

Definition migrate_to_current_format db : DB * Outcome () :=
  match format_version db with
  | Err e => (db, Err e)
  | Ok v =>
      if decide (v = Some FORMAT_VERSION) then (db, Ok ()) else
      let default := TenantId.default_tenant in
      let prefix := TenantId.key_prefix default in
      match migrate_cfs prefix ALL_CFS db with
      | (db, Err e) => (db, Err (Api e))
      | (db, Ok _) =>
          let '(db, r) := write db
            [PutCf CF_META FORMAT_VERSION_KEY (to_be_u32 FORMAT_VERSION);
             PutCf CF_META (TENANT_KEY_PREFIX +:+ TenantId.as_str default) ""] in
          (db, api r)
      end
  end.

(** ** [Store]: one container's view *)

Record Store := mkStore { st_tenant : TenantId.t; st_prefix : string }.
Definition container (t : TenantId.t) : Store := mkStore t (TenantId.key_prefix t).
Implicit Types st : Store.

Definition register_container st db : DB * ApiResult () :=
  physical_put db CF_META (TENANT_KEY_PREFIX +:+ TenantId.as_str (st_tenant st)) "".

Definition key st (rest : string) : string := st_prefix st +:+ rest.

Definition get_json `{Serde T} st db (cf k : string) : ApiResult (option T) :=
  v ← backend (get_cf db cf (key st k));
  match v with
  | Some v => x ← corrupt (from_slice v); Ok (Some x)
  | None => Ok None
  end.

(** Rows under a prefix, the container's own prefix stripped from the keys. *)
Definition scan_prefix st db (cf prefix : string) : ApiResult (list (string * string)) :=
  let full := key st prefix in
  l ← backend (iterator_cf db cf full);
  Ok ((λ '(k, v), (slice_from k (String.length (st_prefix st)), v)) <$>
      take_while (λ kv, starts_with full kv.1) l).

Definition get_schema `{Serde SchemaRecord} st db (ctx : string) (id : Z) : ApiResult (option SchemaRecord) :=
  get_json st db CF_SCHEMAS (schema_key ctx id).

Definition get_meta st db (k : string) : ApiResult (option string) :=
  backend (get_cf db CF_META (key st k)).

Definition get_meta_u64 st db (k : string) : Outcome Z :=
  v ← api (get_meta st db k);
  match v with Some v => or_panic (be_u64 v) | None => Ok 0 end.
Definition stored_log_seq st db : Outcome Z := get_meta_u64 st db "log_seq".
Definition log_floor st db : Outcome Z := get_meta_u64 st db "log_floor".

Definition get_meta_string st db (k : string) : ApiResult (option string) :=
  fmap (fmap (M:=option) from_utf8_lossy) (get_meta st db k).
Definition put_meta_string st db (k value : string) : DB * ApiResult () :=
  physical_put db CF_META (key st k) value.

(** Drop change-log entries below [before]. *)
Definition prune_log st db (before : Z) : DB * Outcome () :=
  match log_floor st db with
  | Err e => (db, Err e)
  | Ok floor =>
      if bool_decide (before ≤ floor) then (db, Ok ()) else
      let '(db, r) := write db
        [DeleteRangeCf CF_LOG (key st (to_be_u64 0)) (key st (to_be_u64 before));
         PutCf CF_META (key st "log_floor") (to_be_u64 before)] in
      (db, api r)
  end.

(** The events from [from] on. The length test comes after the push, so a
    limit of 0 still returns one event. *)
Fixpoint read_log_loop `{Serde LogEvent} st (l : list (string * string)) (limit : nat)
    (out : list (Z * LogEvent)) : ApiResult (list (Z * LogEvent)) :=
  match l with
  | [] => Ok out
  | (k, v) :: l =>
      if starts_with (st_prefix st) k then
        match try_be_u64 (slice_from k (String.length (st_prefix st))) with
        | None => Ok out
        | Some seq =>
            ev ← corrupt (from_slice v);
            let out := out ++ [(seq, ev)] in
            if bool_decide (limit ≤ length out)%nat then Ok out
            else read_log_loop st l limit out
        end
      else Ok out
  end.
Definition read_log `{Serde LogEvent} st db (from : Z) (limit : nat) : ApiResult (list (Z * LogEvent)) :=
  l ← backend (iterator_cf db CF_LOG (key st (to_be_u64 from)));
  read_log_loop st l limit [].

Definition list_exporters `{Serde ExporterRecord} st db : ApiResult (list ExporterRecord) :=
  l ← scan_prefix st db CF_EXPORTERS "";
  mapM_result (λ kv, corrupt (from_slice kv.2)) l.
Definition get_exporter `{Serde ExporterRecord} st db (name : string) : ApiResult (option ExporterRecord) :=
  get_json st db CF_EXPORTERS name.
Definition put_exporter `{Serde ExporterRecord} st db (rec : ExporterRecord) (_ : ModeGate.Allowed) :
    DB * ApiResult () :=
  match corrupt (to_vec rec) with
  | Ok v => physical_put db CF_EXPORTERS (key st (ei_name (er_info rec))) v
  | Err e => (db, Err e)
  end.

(** ** Snapshot loading *)

Section load.
Context `{!Serde VersionRecord, !Serde ConfigRecord.t, !Serde Mode}.

Definition fold_rows (f : Snapshot → string * string → Outcome Snapshot)
    (l : list (string * string)) (s : Snapshot) : Outcome Snapshot :=
  foldl (λ acc kv, s ← acc; f s kv) (Ok s) l.

Definition decode_version_key (msg k : string) : Outcome (string * string * Z * string) :=
  '(ctx, rest) ← ok_or (split_ctx k) (Anyhow msg);
  '(subj, version, tail) ← ok_or (split_subject_version rest) (Anyhow msg);
  Ok (ctx, subj, version, tail).

Definition load_version (s : Snapshot) '((k, v) : string * string) : Outcome Snapshot :=
  '(ctx, subj, version, _) ← decode_version_key "bad version key" k;
  rec ← map_err Anyhow (from_slice v);
  Ok (Snap.apply s (OpPutVersion ctx subj version rec)).

Definition load_fingerprint (s : Snapshot) '((k, v) : string * string) : Outcome Snapshot :=
  '(ctx, fp) ← ok_or (split_ctx k) (Anyhow "bad fingerprint key");
  id ← or_panic (be_u32 v);
  Ok (Snap.ctx_mut s ctx (Snap.set_fingerprints (<[from_utf8_lossy fp := id]>))).

Definition load_refby (s : Snapshot) '((k, v) : string * string) : Outcome Snapshot :=
  '(ctx, subj, version, tail) ← decode_version_key "bad refby key" k;
  id ← or_panic (be_u32 tail);
  Ok (Snap.apply s (OpPutRefby ctx subj version id)).

Definition load_config (s : Snapshot) '((k, v) : string * string) : Outcome Snapshot :=
  match ScopeKey.from_key k with
  | Some scope => rec ← map_err Anyhow (from_slice v); Ok (Snap.apply s (OpPutConfig scope rec))
  | None => Ok s
  end.

Definition load_mode (s : Snapshot) '((k, v) : string * string) : Outcome Snapshot :=
  match ScopeKey.from_key k with
  | Some scope => m ← map_err Anyhow (from_slice v); Ok (Snap.apply s (OpPutMode scope m))
  | None => Ok s
  end.

Definition load_meta (s : Snapshot) '((k, v) : string * string) : Outcome Snapshot :=
  let k := from_utf8_lossy k in
  match strip_prefix "ctx/" k with
  | Some ctx => Ok (Snap.set_known ({[ctx]} ∪.) s)
  | None =>
      match strip_prefix "next_id/" k with
      | Some ctx => next ← or_panic (be_u32 v); Ok (Snap.apply s (OpSetNextId ctx next))
      | None => Ok s
      end
  end.

Definition load_table st db (cf : string) (f : Snapshot → string * string → Outcome Snapshot)
    (s : Snapshot) : Outcome Snapshot :=
  l ← api (scan_prefix st db cf ""); fold_rows f l s.

Definition load_snapshot st db : Outcome Snapshot :=
  s ← load_table st db CF_VERSIONS load_version empty_snap;
  s ← load_table st db CF_FINGERPRINTS load_fingerprint s;
  s ← load_table st db CF_REFBY load_refby s;
  s ← load_table st db CF_CONFIG load_config s;
  s ← load_table st db CF_MODE load_mode s;
  s ← load_table st db CF_META load_meta (Snap.set_known (λ _, ∅) s);
  n ← stored_log_seq st db;
  Ok (Snap.set_log_seq n s).
End load.

(** ** [Tx]: an atomic batch of writes within one container *)

Record Tx := mkTx { tx_batch : WriteBatch; tx_log_seq : Z; tx_log_dirty : bool; tx_ops : list Op }.

Definition tx st db : Outcome Tx :=
  n ← stored_log_seq st db; Ok (mkTx [] n false []).
End store.
Arguments Store : clear implicits.

Module TxM.
Section tx.
Context `{!Serde SchemaRecord, !Serde VersionRecord, !Serde ConfigRecord.t, !Serde Mode,
          !Serde LogEvent, !Serde ExporterRecord}.
Implicit Types (st : Store) (t : Tx).

Definition batch t (b : BatchOp) : Tx := mkTx (tx_batch t ++ [b]) (tx_log_seq t) (tx_log_dirty t) (tx_ops t).
Definition push t (op : Op) : Tx := mkTx (tx_batch t) (tx_log_seq t) (tx_log_dirty t) (tx_ops t ++ [op]).

Definition put `{Serde T} st t (cf k : string) (value : T) : ApiResult Tx :=
  v ← corrupt (to_vec value); Ok (batch t (PutCf cf (key st k) v)).

Definition put_schema st t (ctx : string) (id : Z) (rec : SchemaRecord) (index : bool)
    (_ : ModeGate.Allowed) : ApiResult Tx :=
  t ← put st t CF_SCHEMAS (schema_key ctx id) rec;
  let t := push t (OpPutSchema ctx id rec index) in
  Ok (if index
      then batch t (PutCf CF_FINGERPRINTS (key st (fp_key ctx (sr_fingerprint rec))) (to_be_u32 id))
      else t).

Definition delete_schema st t (ctx : string) (id : Z) (_ : ModeGate.Allowed) : Tx :=
  push (batch t (DeleteCf CF_SCHEMAS (key st (schema_key ctx id)))) (OpDeleteSchema ctx id).

Definition put_version st t (ctx subj : string) (version : Z) (rec : VersionRecord)
    (_ : ModeGate.Allowed) : ApiResult Tx :=
  t ← put st t CF_VERSIONS (version_key ctx subj version) rec;
  let t := batch t (PutCf CF_META (key st ("ctx/" +:+ ctx)) "") in
  Ok (push t (OpPutVersion ctx subj version rec)).

Definition delete_version st t (ctx subj : string) (version id : Z) (_ : ModeGate.Allowed) : Tx :=
  push (batch t (DeleteCf CF_VERSIONS (key st (version_key ctx subj version))))
       (OpDeleteVersion ctx subj version id).

Definition put_refby st t (ctx subj : string) (version id : Z) : Tx :=
  push (batch t (PutCf CF_REFBY (key st (refby_key ctx subj version id)) ""))
       (OpPutRefby ctx subj version id).

Definition delete_refby st t (ctx subj : string) (version id : Z) : Tx :=
  push (batch t (DeleteCf CF_REFBY (key st (refby_key ctx subj version id))))
       (OpDeleteRefby ctx subj version id).

Definition set_next_id st t (ctx : string) (next : Z) : Tx :=
  push (batch t (PutCf CF_META (key st ("next_id/" +:+ ctx)) (to_be_u32 next))) (OpSetNextId ctx next).

Definition delete_context st t (ctx : string) (_ : ModeGate.Allowed) : Tx :=
  push (batch t (DeleteCf CF_META (key st ("ctx/" +:+ ctx)))) (OpDeleteContext ctx).

Definition put_config st t (scope : Scope) (rec : ConfigRecord.t) (_ : ModeGate.Allowed) : ApiResult Tx :=
  put st (push t (OpPutConfig scope rec)) CF_CONFIG (ScopeKey.key scope) rec.

Definition delete_config st t (scope : Scope) (_ : ModeGate.Allowed) : Tx :=
  push (batch t (DeleteCf CF_CONFIG (key st (ScopeKey.key scope)))) (OpDeleteConfig scope).

Definition put_mode st t (scope : Scope) (m : Mode) (_ : ModeGate.Allowed) : ApiResult Tx :=
  put st (push t (OpPutMode scope m)) CF_MODE (ScopeKey.key scope) m.

Definition delete_mode st t (scope : Scope) (_ : ModeGate.Allowed) : Tx :=
  push (batch t (DeleteCf CF_MODE (key st (ScopeKey.key scope)))) (OpDeleteMode scope).

Definition put_exporter st t (rec : ExporterRecord) (_ : ModeGate.Allowed) : ApiResult Tx :=
  put st t CF_EXPORTERS (ei_name (er_info rec)) rec.

Definition delete_exporter st t (name : string) (_ : ModeGate.Allowed) : Tx :=
  batch t (DeleteCf CF_EXPORTERS (key st name)).

Definition append_log st t (ev : LogEvent) : ApiResult Tx :=
  let seq := tx_log_seq t in
  t ← put st t CF_LOG (to_be_u64 seq) ev;
  Ok (mkTx (tx_batch t) (u64_add (tx_log_seq t) 1) true (tx_ops t)).

(** The batch and operations as [commit] closes them. *)
Definition finish st t : Tx :=
  if tx_log_dirty t then
    push (batch t (PutCf CF_META (key st "log_seq") (to_be_u64 (tx_log_seq t))))
         (OpSetLogSeq (tx_log_seq t))
  else t.

Definition commit `{!RocksDB DB} st t (db : DB) : DB * ApiResult (list Op) :=
  let t := finish st t in
  let '(db, r) := write db (tx_batch t) in
  (db, _ ← r; Ok (tx_ops t)).

(** One write of a plan (engine.rs, [apply]). *)
Definition apply_write st (allowed : ModeGate.Allowed) (w : Write) t : ApiResult Tx :=
  match w with
  | WPutSchema ctx id rec index => put_schema st t ctx id rec index allowed
  | WPutVersion ctx subj version rec => put_version st t ctx subj version rec allowed
  | WDeleteVersion ctx subj version id => Ok (delete_version st t ctx subj version id allowed)
  | WDeleteSchema ctx id => Ok (delete_schema st t ctx id allowed)
  | WPutRefby ctx subj version id => Ok (put_refby st t ctx subj version id)
  | WDeleteRefby ctx subj version id => Ok (delete_refby st t ctx subj version id)
  | WSetNextId ctx next => Ok (set_next_id st t ctx next)
  | WPutConfig scope rec => put_config st t scope rec allowed
  | WDeleteConfig scope => Ok (delete_config st t scope allowed)
  | WPutMode scope m => put_mode st t scope m allowed
  | WDeleteMode scope => Ok (delete_mode st t scope allowed)
  | WDeleteContext ctx => Ok (delete_context st t ctx allowed)
  | WPutExporter rec => put_exporter st t rec allowed
  | WDeleteExporter name => Ok (delete_exporter st t name allowed)
  end.

Definition apply_writes st allowed (ws : list Write) t : ApiResult Tx :=
  foldl (λ acc w, t ← acc; apply_write st allowed w t) (Ok t) ws.
Definition append_logs st (evs : list LogEvent) t : ApiResult Tx :=
  foldl (λ acc e, t ← acc; append_log st t e) (Ok t) evs.
End tx.
End TxM.
