(* ===== verification/Durable.v ===== *)
(** The read model and the rows it is rebuilt from (store.rs, snapshot.rs).

    A snapshot is observed cell by cell: one cell per version, fingerprint,
    reference, counter, context flag, config and mode. Every cell has one row
    in the database. Operations on the snapshot and batches on the database
    are both lists of cell updates, which is why reloading the rows gives back
    the snapshot the transactions produced. *)
From S2P Require Import Prelude SortedVec RustStr Errors Json Model Context Snapshot Keys Plan Store.

Local Open Scope Z_scope.

(** * Cells *)

Inductive Cell :=
| CVersion (ctx subj : string) (v : Z)
| CFp (ctx fp : string)
| CRef (ctx subj : string) (v id : Z)
| CKnown (ctx : string)
| CNext (ctx : string)
| CConfig (scope : Scope)
| CMode (scope : Scope).
#[export] Instance Cell_eq_dec : EqDecision Cell.
Proof. solve_decision. Defined.
Arguments Cell_eq_dec : simpl never.

Inductive Val :=
| XVersion (rec : VersionRecord)
| XId (id : Z)
| XUnit
| XConfig (rec : ConfigRecord.t)
| XMode (m : Mode).

Definition flag (b : bool) : option Val := if b then Some XUnit else None.

Definition obs (s : Snapshot) (c : Cell) : option Val :=
  match c with
  | CVersion ctx subj v => XVersion <$> version_of (ctx_of s ctx) subj v
  | CFp ctx fp => XId <$> fingerprints (ctx_of s ctx) !! fp
  | CRef ctx subj v id => flag (bool_decide (id ∈ referrers (ctx_of s ctx) subj v))
  | CKnown ctx => flag (bool_decide (ctx ∈ known_contexts s))
  | CNext ctx => XId <$> cs_next_id (ctx_of s ctx)
  | CConfig scope => XConfig <$> config s !! scope
  | CMode scope => XMode <$> mode s !! scope
  end.

Definition upd (T : Cell → option Val) (e : Cell * option Val) : Cell → option Val :=
  λ c, if decide (c = e.1) then e.2 else T c.
Definition upds (T : Cell → option Val) (es : list (Cell * option Val)) : Cell → option Val := foldl upd T es.

(** What an operation does to the cells. *)
Definition effects (op : Op) : list (Cell * option Val) :=
  match op with
  | OpPutSchema ctx id rec index => if index then [(CFp ctx (sr_fingerprint rec), Some (XId id))] else []
  | OpDeleteSchema _ _ => []
  | OpPutVersion ctx subj v rec => [(CVersion ctx subj v, Some (XVersion rec)); (CKnown ctx, Some XUnit)]
  | OpDeleteVersion ctx subj v id => [(CVersion ctx subj v, None)]
  | OpPutRefby ctx subj v id => [(CRef ctx subj v id, Some XUnit)]
  | OpDeleteRefby ctx subj v id => [(CRef ctx subj v id, None)]
  | OpSetNextId ctx next => [(CNext ctx, Some (XId next))]
  | OpDeleteContext ctx => [(CKnown ctx, None)]
  | OpPutConfig scope rec => [(CConfig scope, Some (XConfig rec))]
  | OpDeleteConfig scope => [(CConfig scope, None)]
  | OpPutMode scope m => [(CMode scope, Some (XMode m))]
  | OpDeleteMode scope => [(CMode scope, None)]
  | OpSetLogSeq _ => []
  end.

Definition all_wf (s : Snapshot) : Prop := ∀ ctx, ctx_wf (ctx_of s ctx).

Lemma flag_eq (P Q : Prop) `{Decision P, Decision Q} : (P ↔ Q) → flag (bool_decide P) = flag (bool_decide Q).
Proof. intros HPQ. by rewrite (bool_decide_ext P Q HPQ). Qed.
Lemma flag_true (P : Prop) `{Decision P} : P → flag (bool_decide P) = Some XUnit.
Proof. intros. by rewrite bool_decide_true. Qed.
Lemma flag_false (P : Prop) `{Decision P} : ¬ P → flag (bool_decide P) = None.
Proof. intros. by rewrite bool_decide_false. Qed.

Lemma referrers_put_version c subj v rec subj' v' :
  referrers (Snap.put_version subj v rec c) subj' v' = referrers c subj' v'.
Proof. unfold referrers. by rewrite (proj1 (put_version_rest c subj v rec)). Qed.

Lemma elem_of_referrers_put c subj v id subj' v' id' : ctx_wf c →
  id' ∈ referrers (Snap.put_refby subj v id c) subj' v' ↔
  (subj' = subj ∧ v' = v ∧ id' = id) ∨ id' ∈ referrers c subj' v'.
Proof.
  intros Hwf. unfold referrers; simpl. destruct (decide ((subj', v') = (subj, v))) as [[= -> ->]|Hne].
  - rewrite lookup_insert_eq; simpl. rewrite elem_of_set_insert by apply (wf_refby c Hwf). naive_solver.
  - rewrite lookup_insert_ne by done. naive_solver.
Qed.

Lemma elem_of_referrers_delete c subj v id subj' v' id' : ctx_wf c →
  id' ∈ referrers (Snap.delete_refby subj v id c) subj' v' ↔
  ¬ (subj' = subj ∧ v' = v ∧ id' = id) ∧ id' ∈ referrers c subj' v'.
Proof.
  intros Hwf. unfold Snap.delete_refby. destruct (refby c !! (subj, v)) as [l|] eqn:E; cbv zeta.
  - pose proof (wf_refby c Hwf subj v) as Hs. unfold referrers in Hs. rewrite E in Hs; simpl in Hs.
    pose proof (elem_of_set_remove l id id' Hs) as Hel.
    case_bool_decide as Hnil; unfold referrers; simpl;
      (destruct (decide ((subj', v') = (subj, v))) as [[= -> ->]|Hne];
        [rewrite ?lookup_delete_eq, ?lookup_insert_eq, ?E; simpl
        |rewrite ?lookup_delete_ne, ?lookup_insert_ne by done; naive_solver]).
    + rewrite Hnil in Hel. naive_solver.
    + rewrite Hel. naive_solver.
  - unfold referrers. destruct (decide ((subj', v') = (subj, v))) as [[= -> ->]|Hne]; [|naive_solver].
    rewrite E; simpl. rewrite elem_of_nil. naive_solver.
Qed.

(** Case analysis on which cell is observed and on every equality test. *)
Ltac cell_cases c :=
  destruct c as [ctx' subj' v'|ctx' fp'|ctx' subj' v' id'|ctx'|ctx'|scope'|scope'];
  unfold upds, upd; simpl; rewrite ?ctx_of_mut;
  repeat match goal with |- context [decide ?P] => destruct (decide P) end;
  simplify_eq/=; try done; try congruence.

Section obs_apply.
Context (s : Snapshot) (Hwf : all_wf s).

Lemma obs_put_fingerprint ctx fp id c :
  obs (Snap.ctx_mut s ctx (Snap.set_fingerprints (<[fp := id]>))) c = upds (obs s) [(CFp ctx fp, Some (XId id))] c.
Proof using Type.
  cell_cases c; by rewrite ?lookup_insert_eq, ?lookup_insert_ne by congruence.
Qed.

Lemma obs_put_version ctx subj v rec c :
  obs (Snap.apply s (OpPutVersion ctx subj v rec)) c = upds (obs s) (effects (OpPutVersion ctx subj v rec)) c.
Proof using Hwf.
  destruct (put_version_rest (ctx_of s ctx) subj v rec) as (Hr & Hn & Hf).
  assert (ctx_of (Snap.set_known ({[ctx]} ∪.) s) ctx = ctx_of s ctx) as Hc by done.
  cell_cases c; rewrite ?Hc, ?Hn, ?Hf, ?referrers_put_version, ?(version_of_put _ _ _ _ _ _ (Hwf _)); try done.
  - by rewrite decide_True.
  - by rewrite decide_False by naive_solver.
  - apply flag_true. set_solver.
  - apply flag_eq. set_solver.
Qed.

Lemma obs_delete_version ctx subj v id c :
  obs (Snap.apply s (OpDeleteVersion ctx subj v id)) c = upds (obs s) (effects (OpDeleteVersion ctx subj v id)) c.
Proof using Hwf.
  destruct (delete_version_rest (ctx_of s ctx) subj v id) as (Hr & Hn & Hf).
  cell_cases c; unfold referrers; rewrite ?Hn, ?Hf, ?Hr, ?(version_of_delete _ _ _ _ _ _ (Hwf _)); try done.
  - by rewrite decide_True.
  - by rewrite decide_False by naive_solver.
Qed.

Lemma obs_put_refby ctx subj v id c :
  obs (Snap.apply s (OpPutRefby ctx subj v id)) c = upds (obs s) (effects (OpPutRefby ctx subj v id)) c.
Proof using Hwf.
  cell_cases c; [apply flag_true|apply flag_eq]; rewrite elem_of_referrers_put by apply Hwf; naive_solver.
Qed.

Lemma obs_delete_refby ctx subj v id c :
  obs (Snap.apply s (OpDeleteRefby ctx subj v id)) c = upds (obs s) (effects (OpDeleteRefby ctx subj v id)) c.
Proof using Hwf.
  destruct (delete_refby_rest (ctx_of s ctx) subj v id) as (Hsub & _ & Hn & Hf).
  cell_cases c; unfold version_of; rewrite ?Hsub, ?Hn, ?Hf; try done;
    [apply flag_false|apply flag_eq]; rewrite elem_of_referrers_delete by apply Hwf; naive_solver.
Qed.

(** An operation on the snapshot is its list of cell updates. *)
Lemma obs_apply op c : obs (Snap.apply s op) c = upds (obs s) (effects op) c.
Proof using Hwf.
  destruct op as
    [ctx id rec [|]|ctx id|ctx subj v rec|ctx subj v id|ctx subj v id|ctx subj v id
    |ctx next|ctx|scope rec|scope|scope m|scope|seq];
    [apply obs_put_fingerprint|done|done|apply obs_put_version|apply obs_delete_version
    |apply obs_put_refby|apply obs_delete_refby|..|done].
  - cell_cases c.
  - cell_cases c; [apply flag_false|apply flag_eq]; set_solver.
  - cell_cases c; by rewrite ?lookup_insert_eq, ?lookup_insert_ne by congruence.
  - cell_cases c; by rewrite ?lookup_delete_eq, ?lookup_delete_ne by congruence.
  - cell_cases c; by rewrite ?lookup_insert_eq, ?lookup_insert_ne by congruence.
  - cell_cases c; by rewrite ?lookup_delete_eq, ?lookup_delete_ne by congruence.
Qed.
End obs_apply.

(** * The row of a cell *)

Definition cell_cf (c : Cell) : string :=
  match c with
  | CVersion _ _ _ => CF_VERSIONS
  | CFp _ _ => CF_FINGERPRINTS
  | CRef _ _ _ _ => CF_REFBY
  | CKnown _ | CNext _ => CF_META
  | CConfig _ => CF_CONFIG
  | CMode _ => CF_MODE
  end.

Definition cell_key (c : Cell) : string :=
  match c with
  | CVersion ctx subj v => version_key ctx subj v
  | CFp ctx fp => fp_key ctx fp
  | CRef ctx subj v id => refby_key ctx subj v id
  | CKnown ctx => "ctx/" +:+ ctx
  | CNext ctx => "next_id/" +:+ ctx
  | CConfig scope | CMode scope => ScopeKey.key scope
  end.

(** Names are valid text without NUL, integers fit their width. *)
Definition good_cell (c : Cell) : Prop :=
  match c with
  | CVersion ctx subj v => good_name ctx ∧ good_name subj ∧ is_u32 v
  | CFp ctx fp => good_name ctx ∧ utf8_valid fp = true
  | CRef ctx subj v id => good_name ctx ∧ good_name subj ∧ is_u32 v ∧ is_u32 id
  | CKnown ctx | CNext ctx => good_name ctx
  | CConfig scope | CMode scope => good_scope scope
  end.

Section rows.
Context `{!Serde VersionRecord, !Serde ConfigRecord.t, !Serde Mode}.

(** The bytes of a cell's value. *)
Definition val_enc (c : Cell) (y : Val) (v : string) : Prop :=
  match c, y with
  | CVersion _ _ _, XVersion rec => to_vec rec = Ok v ∧ from_slice v = Ok rec
  | CFp _ _, XId id | CNext _, XId id => is_u32 id ∧ v = to_be_u32 id
  | CRef _ _ _ _, XUnit | CKnown _, XUnit => v = ""
  | CConfig _, XConfig rec => to_vec rec = Ok v ∧ from_slice v = Ok rec
  | CMode _, XMode m => to_vec m = Ok v ∧ from_slice v = Ok m
  | _, _ => False
  end.

(** The rows of [meta] that are not cells. *)
Definition other_meta (k : string) : Prop := k ∈ ["log_seq"; "log_floor"; "cluster_id"].

Definition is_table (cf : string) : Prop :=
  cf ∈ [CF_VERSIONS; CF_FINGERPRINTS; CF_REFBY; CF_CONFIG; CF_MODE; CF_META].

(** The rows of a container hold exactly the given cells. *)
Record holds (st : Store) (m : Rows) (T : Cell → option Val) : Prop := {
  holds_cell : ∀ c y, T c = Some y →
    good_cell c ∧ ∃ v, val_enc c y v ∧ m !! (cell_cf c, key st (cell_key c)) = Some v;
  holds_row : ∀ cf k v, is_table cf → m !! (cf, key st k) = Some v →
    (∃ c y, cf = cell_cf c ∧ k = cell_key c ∧ T c = Some y ∧ val_enc c y v) ∨
    (cf = CF_META ∧ other_meta k);
}.

Lemma key_inj st k k' : key st k = key st k' → k = k'.
Proof. apply str_app_inj_l. Qed.

Lemma scope_key_inj s s' : good_scope s → good_scope s' → ScopeKey.key s = ScopeKey.key s' → s = s'.
Proof.
  intros Hs Hs' Heq. pose proof (scope_key_from_key s Hs) as H1.
  rewrite Heq, scope_key_from_key in H1 by done. by injection H1.
Qed.

Lemma version_key_inj ctx subj v t ctx' subj' v' t' :
  good_name ctx → good_name subj → is_u32 v → good_name ctx' → good_name subj' → is_u32 v' →
  version_key ctx subj v +:+ t = version_key ctx' subj' v' +:+ t' →
  ctx = ctx' ∧ subj = subj' ∧ v = v' ∧ t = t'.
Proof.
  rewrite !version_key_eq, !str_app_assoc. intros Hc Hs Hv Hc' Hs' Hv' Heq.
  pose proof (split_ctx_app ctx (subj +:+ str1 NUL +:+ to_be_u32 v +:+ t) Hc) as H1.
  rewrite Heq, split_ctx_app in H1 by done.
  apply (inj Some), pair_equal_spec in H1 as [-> Hrest]. split; [done|].
  pose proof (split_subject_version_app subj v t Hs Hv) as H2.
  rewrite <-Hrest, split_subject_version_app in H2 by done. by simplify_eq.
Qed.

(** Distinct cells have distinct rows. *)
Lemma cell_row_inj c c' : good_cell c → good_cell c' →
  cell_cf c = cell_cf c' → cell_key c = cell_key c' → c = c'.
Proof.
  destruct c as [ctx subj v|ctx fp|ctx subj v id|ctx|ctx|scope|scope],
    c' as [ctx' subj' v'|ctx' fp'|ctx' subj' v' id'|ctx'|ctx'|scope'|scope'];
    simpl; intros Hg Hg' Hcf Hk; try discriminate Hcf.
  - rewrite <-(str_app_nil_r (version_key ctx _ _)), <-(str_app_nil_r (version_key ctx' _ _)) in Hk.
    apply version_key_inj in Hk; naive_solver.
  - destruct Hg as [[Hc _] _], Hg' as [[Hc' _] _]. apply sep_inj in Hk; naive_solver.
  - apply version_key_inj in Hk as (-> & -> & -> & Hid%to_be_u32_inj); naive_solver.
  - by injection Hk as ->.
  - discriminate Hk.
  - discriminate Hk.
  - by injection Hk as ->.
  - f_equal. by apply scope_key_inj.
  - f_equal. by apply scope_key_inj.
Qed.

Lemma cell_is_table c : is_table (cell_cf c).
Proof. unfold is_table. destruct c; simpl; set_solver. Qed.

Lemma cell_not_other_meta c : cell_cf c = CF_META → ¬ other_meta (cell_key c).
Proof.
  unfold other_meta. rewrite !elem_of_cons, elem_of_nil.
  destruct c; try discriminate; intros _; simpl; naive_solver.
Qed.

Lemma holds_ext st m T T' : (∀ c, T c = T' c) → holds st m T → holds st m T'.
Proof.
  intros HT [H1 H2]. split.
  - intros c y. rewrite <-HT. apply H1.
  - intros cf k v Hcf Hm. destruct (H2 cf k v Hcf Hm) as [(c & y & ? & ? & ? & ?)|]; [|by right].
    left. exists c, y. by rewrite <-HT.
Qed.

Lemma holds_put st m T c y v : holds st m T → good_cell c → val_enc c y v →
  holds st (<[(cell_cf c, key st (cell_key c)) := v]> m) (upd T (c, Some y)).
Proof.
  intros [H1 H2] Hg Hv. split; unfold upd; simpl.
  - intros c' y'. destruct (decide (c' = c)) as [->|Hne].
    + intros [= <-]. split; [done|]. exists v. by rewrite lookup_insert_eq.
    + intros [Hg' (v' & Hv' & Hm)]%H1. split; [done|]. exists v'. split; [done|].
      rewrite lookup_insert_ne; [done|]. intros [= Hcf Hk%key_inj]. by apply Hne, cell_row_inj.
  - intros cf k v' Hcf. rewrite lookup_insert_Some. intros [[[= <- <-%key_inj] <-]|[Hne Hm]].
    + left. exists c, y. by rewrite decide_True.
    + destruct (H2 cf k v' Hcf Hm) as [(c' & y' & -> & -> & HT & Hv')|]; [|by right].
      left. exists c', y'. rewrite decide_False by congruence. done.
Qed.

Lemma holds_delete st m T c : holds st m T → good_cell c →
  holds st (delete (cell_cf c, key st (cell_key c)) m) (upd T (c, None)).
Proof.
  intros [H1 H2] Hg. split; unfold upd; simpl.
  - intros c' y'. destruct (decide (c' = c)) as [->|Hne]; [done|].
    intros [Hg' (v' & Hv' & Hm)]%H1. split; [done|]. exists v'. split; [done|].
    rewrite lookup_delete_ne; [done|]. intros [= Hcf Hk%key_inj]. by apply Hne, cell_row_inj.
  - intros cf k v' Hcf. rewrite lookup_delete_Some. intros [Hne Hm].
    destruct (H2 cf k v' Hcf Hm) as [(c' & y' & -> & -> & HT & Hv')|]; [|by right].
    left. exists c', y'. rewrite decide_False by congruence. done.
Qed.

(** Rows outside the cells do not matter. *)
Lemma holds_frame st m m' T : holds st m T →
  (∀ cf k, is_table cf → ¬ (cf = CF_META ∧ other_meta k) → m' !! (cf, key st k) = m !! (cf, key st k)) →
  holds st m' T.
Proof.
  intros [H1 H2] Hf. split.
  - intros c y [Hg (v & Hv & Hm)]%H1. split; [done|]. exists v. split; [done|].
    rewrite Hf; [done|apply cell_is_table|]. intros [Hcf Ho]. by apply (cell_not_other_meta c).
  - intros cf k v Hcf Hm.
    destruct (decide (cf = CF_META ∧ k ∈ ["log_seq"; "log_floor"; "cluster_id"])) as [|Hn]; [by right|].
    rewrite Hf in Hm by done. by apply H2.
Qed.
End rows.

(** * Prefix scans *)

Lemma starts_with_cons c p d s : starts_with (String c p) (String d s) = bool_decide (c = d) && starts_with p s.
Proof.
  apply eq_true_iff_eq. rewrite andb_true_iff, bool_decide_eq_true, !starts_with_spec. split.
  - intros [r [= -> ->]]. eauto.
  - intros [-> [r ->]]. by exists r.
Qed.

(** Keys with a prefix are contiguous in byte order. *)
Lemma prefix_contiguous (p a b : string) :
  kle p a → kle a b → starts_with p b = true → starts_with p a = true.
Proof.
  unfold kle, cmp, string_ord. revert a b.
  induction p as [|c p IH]; intros a b Hpa Hab Hb; [by destruct a|].
  destruct a as [|x a]; [done|]. destruct b as [|y b]; [done|].
  rewrite starts_with_cons in *. apply andb_true_iff in Hb as [->%bool_decide_eq_true Hb].
  cbn [String.compare] in *. apply andb_true_iff.
  destruct (Ascii.compare y x) eqn:Eyx; [|by rewrite Ascii.compare_antisym, Eyx in Hab|done].
  apply ascii_compare_eq in Eyx as ->. rewrite (proj2 (ascii_compare_eq x x) eq_refl) in Hab.
  split; [by apply bool_decide_eq_true|]. by apply (IH a b).
Qed.

Lemma elem_of_take_while (p : string) (l : list (string * string)) :
  small_sorted l → (∀ k v, (k, v) ∈ l → kle p k) →
  ∀ x, x ∈ take_while (λ kv, starts_with p kv.1) l ↔ x ∈ l ∧ starts_with p x.1 = true.
Proof.
  induction l as [|[k v] l IH]; intros Hs Hp x; simpl; [by rewrite elem_of_nil; naive_solver|].
  apply StronglySorted_inv in Hs as [Hs Hall]. rewrite Forall_forall in Hall.
  destruct (starts_with p k) eqn:E.
  - rewrite !elem_of_cons, IH; [|done|intros k0 v0 ?; apply (Hp k0 v0); by right].
    clear -E. split; [intros [->|[? ?]]; auto|intros [[->|?] ?]; auto].
  - split; [by intros ?%elem_of_nil|]. intros [[->|Hx]%elem_of_cons Hst]; [simpl in Hst; congruence|].
    rewrite (prefix_contiguous p k x.1) in E; [done| | |done].
    + apply (Hp k v). left.
    + apply kle_lt_eq. left. by apply (Hall x).
Qed.

Lemma kle_app p k : kle p (p +:+ k).
Proof.
  unfold kle, cmp, string_ord. induction p as [|c p IH]; [by destruct k|].
  cbn [String.append String.compare]. by rewrite (proj2 (ascii_compare_eq c c) eq_refl).
Qed.

Lemma scan_prefix_spec `{!RocksDB DB, !RocksDBLaws DB} st (db : DB) cf p :
  ∃ l, scan_prefix st db cf p = Ok l ∧
    ∀ k v, (k, v) ∈ l ↔ rows db !! (cf, key st k) = Some v ∧ starts_with p k = true.
Proof.
  destruct (iterator_cf_law db cf (key st p)) as (l & Hl & Hs & Hel).
  unfold scan_prefix. rewrite Hl. simpl. eexists; split; [done|].
  assert (∀ k v, (k, v) ∈ l → kle (key st p) k) as Hge by (intros ??; apply Hel).
  intros k v. rewrite list_elem_of_fmap. split.
  - intros ([k' v'] & [= -> ->] & [Hin Hst]%elem_of_take_while); [|done..].
    simpl in Hst. apply starts_with_spec in Hst as [r ->]. unfold slice_from.
    assert (str_drop (String.length (st_prefix st)) (key st p +:+ r) = p +:+ r) as ->.
    { unfold key. rewrite str_app_assoc. apply str_drop_app. }
    rewrite starts_with_app. apply Hel in Hin as [Hin _].
    unfold key in *. by rewrite str_app_assoc in Hin.
  - intros [Hm [r ->]%starts_with_spec]. exists (key st (p +:+ r), v). split.
    + unfold slice_from, key. by rewrite str_drop_app.
    + apply elem_of_take_while; [done..|]. split.
      * apply Hel. split; [done|]. unfold key. rewrite <-str_app_assoc. apply kle_app.
      * simpl. unfold key. rewrite <-str_app_assoc. apply starts_with_app.
Qed.

(** * Loading *)

Section load.
Context `{!RocksDB DB, !RocksDBLaws DB}.
Context `{!Serde VersionRecord, !Serde ConfigRecord.t, !Serde Mode}.
Context (st : Store) (T : Cell → option Val).

(** The loader of each column family. *)
Definition loader (cf : string) : Snapshot → string * string → Outcome Snapshot :=
  if decide (cf = CF_VERSIONS) then load_version
  else if decide (cf = CF_FINGERPRINTS) then load_fingerprint
  else if decide (cf = CF_REFBY) then load_refby
  else if decide (cf = CF_CONFIG) then load_config
  else if decide (cf = CF_MODE) then load_mode
  else load_meta.

Lemma apply_put_version_wf s ctx subj v rec : all_wf s → all_wf (Snap.apply s (OpPutVersion ctx subj v rec)).
Proof.
  intros Hwf ctx'. simpl. rewrite ctx_of_mut. destruct (decide _); [|apply Hwf].
  apply put_version_wf, Hwf.
Qed.
Lemma ctx_mut_all_wf s ctx f : all_wf s → (∀ c, ctx_wf c → ctx_wf (f c)) → all_wf (Snap.ctx_mut s ctx f).
Proof. intros Hwf Hf ctx'. rewrite ctx_of_mut. destruct (decide _); [apply Hf|]; apply Hwf. Qed.

Lemma decode_version_row msg ctx subj v tail : good_name ctx → good_name subj → is_u32 v →
  decode_version_key msg (version_key ctx subj v +:+ tail) = Ok (ctx, subj, v, tail).
Proof.
  intros Hc Hs Hv. unfold decode_version_key. rewrite version_key_eq, !str_app_assoc.
  rewrite split_ctx_app by done. cbn [ok_or mbind result_bind]. by rewrite split_subject_version_app.
Qed.

Lemma lossy_meta p ctx : is_ascii p = true → good_name ctx → from_utf8_lossy (p +:+ ctx) = p +:+ ctx.
Proof. intros Hp [_ Hu]. apply from_utf8_lossy_valid. by rewrite utf8_valid_ascii_app. Qed.

Lemma be_u32_own z : is_u32 z → be_u32 (to_be_u32 z) = Some z.
Proof. intros Hz. rewrite <-(str_app_nil_r (to_be_u32 z)). by apply be_u32_bytes. Qed.

Definition is_known (c : Cell) : bool := match c with CKnown _ => true | _ => false end.

(** One row of a cell sets that cell. Version rows also flag their context,
    which the flags read from [meta] replace. *)
Lemma load_cell s c y v : all_wf s → good_cell c → val_enc c y v →
  ∃ s', loader (cell_cf c) s (cell_key c, v) = Ok s' ∧ all_wf s' ∧
        ∀ c', cell_cf c = CF_META ∨ is_known c' = false → obs s' c' = upd (obs s) (c, Some y) c'.
Proof.
  intros Hwf Hg Hv.
  assert (∀ op, effects op = [(c, Some y)] → ∀ c', obs (Snap.apply s op) c' = upd (obs s) (c, Some y) c') as Heff.
  { intros op He c'. rewrite obs_apply by done. by rewrite He. }
  destruct c as [ctx subj n|ctx fp|ctx subj n id|ctx|ctx|scope|scope], y; simpl in Hg, Hv; try done.
  - destruct Hg as (? & ? & ?), Hv as [_ Hd]. exists (Snap.apply s (OpPutVersion ctx subj n rec)); split_and!.
    + change (load_version s (version_key ctx subj n, v) = Ok (Snap.apply s (OpPutVersion ctx subj n rec))).
      unfold load_version. rewrite <-(str_app_nil_r (version_key ctx _ _)), decode_version_row by done.
      cbn [mbind result_bind]. by rewrite Hd.
    + by apply apply_put_version_wf.
    + intros c' [?|Hk]; [done|]. rewrite obs_put_version by done. by destruct c'.
  - destruct Hg as [? ?], Hv as [? ->].
    exists (Snap.ctx_mut s ctx (Snap.set_fingerprints (<[from_utf8_lossy fp := id]>))); split_and!.
    + change (load_fingerprint s (fp_key ctx fp, to_be_u32 id)
        = Ok (Snap.ctx_mut s ctx (Snap.set_fingerprints (<[from_utf8_lossy fp := id]>)))). unfold load_fingerprint, fp_key.
      rewrite split_ctx_app by done. cbn [ok_or mbind result_bind]. by rewrite be_u32_own.
    + apply ctx_mut_all_wf; [done|]. intros. by apply set_fingerprints_wf.
    + intros c' _. rewrite from_utf8_lossy_valid by done. by rewrite obs_put_fingerprint.
  - destruct Hg as (? & ? & ? & ?). exists (Snap.apply s (OpPutRefby ctx subj n id)); split_and!.
    + change (load_refby s (refby_key ctx subj n id, v) = Ok (Snap.apply s (OpPutRefby ctx subj n id))).
      unfold load_refby, refby_key. rewrite decode_version_row by done. cbn [mbind result_bind].
      by rewrite be_u32_own.
    + apply ctx_mut_all_wf; [done|]. intros. by apply put_refby_wf.
    + intros c' _. by apply Heff.
  - exists (Snap.set_known ({[ctx]} ∪.) s); split_and!; [|done|].
    + change (load_meta s ("ctx/" +:+ ctx, v) = Ok (Snap.set_known ({[ctx]} ∪.) s)).
      unfold load_meta. by rewrite lossy_meta.
    + intros c' _. cell_cases c'; [apply flag_true|apply flag_eq]; set_solver.
  - destruct Hv as [? ->]. exists (Snap.apply s (OpSetNextId ctx id)); split_and!.
    + change (load_meta s ("next_id/" +:+ ctx, to_be_u32 id) = Ok (Snap.apply s (OpSetNextId ctx id))).
      unfold load_meta. rewrite lossy_meta by done. cbn -[Snap.apply]. by rewrite be_u32_own.
    + apply ctx_mut_all_wf; [done|]. intros. by apply set_next_id_wf.
    + intros c' _. by apply Heff.
  - destruct Hv as [_ Hd]. exists (Snap.apply s (OpPutConfig scope rec)); split_and!; [|done|].
    + change (load_config s (ScopeKey.key scope, v) = Ok (Snap.apply s (OpPutConfig scope rec))).
      unfold load_config. rewrite scope_key_from_key by done. by rewrite Hd.
    + intros c' _. by apply Heff.
  - destruct Hv as [_ Hd]. exists (Snap.apply s (OpPutMode scope m)); split_and!; [|done|].
    + change (load_mode s (ScopeKey.key scope, v) = Ok (Snap.apply s (OpPutMode scope m))).
      unfold load_mode. rewrite scope_key_from_key by done. by rewrite Hd.
    + intros c' _. by apply Heff.
Qed.

Lemma load_other_meta s k v : other_meta k → loader CF_META s (k, v) = Ok s.
Proof. unfold other_meta. rewrite !elem_of_cons, elem_of_nil. by intros [->|[->|[->|[]]]]. Qed.

(** Every cell not set by a row keeps its value; a set cell has the value
    of the table. *)
Lemma fold_rows_cells cf l s : all_wf s →
  (∀ k v, (k, v) ∈ l → (∃ c y, cf = cell_cf c ∧ k = cell_key c ∧ good_cell c ∧ T c = Some y ∧ val_enc c y v) ∨
                        (cf = CF_META ∧ other_meta k)) →
  ∃ s', fold_rows (loader cf) l s = Ok s' ∧ all_wf s' ∧
    (∀ c, cf = CF_META ∨ is_known c = false → obs s' c = obs s c ∨ obs s' c = T c) ∧
    (∀ c v, (cell_key c, v) ∈ l → cell_cf c = cf → good_cell c → obs s' c = T c).
Proof.
  revert s. induction l as [|[k v] l IH]; intros s Hwf Hl.
  { exists s. split_and!; [done..|auto|]. intros c v []%elem_of_nil. }
  destruct (Hl k v) as [(c & y & -> & -> & Hg & HT & Hv)|[-> Ho]]; [by left|..].
  - destruct (load_cell s c y v Hwf Hg Hv) as (s1 & Hs1 & Hwf1 & Hobs).
    destruct (IH s1 Hwf1) as (s' & Hf & Hwf' & Hold & Hnew); [intros; apply Hl; by right|].
    exists s'. split_and!; [|done|..].
    + unfold fold_rows in *. simpl. by rewrite Hs1.
    + intros c' Hc'. destruct (Hold c' Hc') as [->|]; [|by right]. rewrite Hobs by done.
      unfold upd; simpl. destruct (decide (c' = c)) as [->|]; auto.
    + intros c' v' [[= Hk ->]|Hin]%elem_of_cons Hcf Hg'; [|by eapply Hnew].
      rewrite (cell_row_inj c' c) by done.
      assert (cell_cf c = CF_META ∨ is_known c = false) as Hck by (destruct c; auto).
      destruct (Hold c Hck) as [->|]; [|done]. rewrite Hobs by done.
      unfold upd; simpl. by rewrite decide_True.
  - destruct (IH s Hwf) as (s' & Hf & Hwf' & Hold & Hnew); [intros; apply Hl; by right|].
    exists s'. split_and!; [|done..|].
    + unfold fold_rows in *. simpl. by rewrite load_other_meta.
    + intros c' v' [[= Hk ->]|Hin]%elem_of_cons Hcf Hg'; [|by eapply Hnew].
      destruct (cell_not_other_meta c' Hcf). by rewrite Hk.
Qed.

(** What is known of a partly loaded snapshot. *)
Record loaded (s : Snapshot) (done : list string) : Prop := {
  ld_wf : all_wf s;
  ld_cells : ∀ c, is_known c = false ∨ CF_META ∈ done → obs s c = None ∨ obs s c = T c;
  ld_done : ∀ c, cell_cf c ∈ done → obs s c = T c;
}.

Lemma load_table_loaded (db : DB) cf s done : holds st (rows db) T →
  is_table cf → (cf = CF_META → ∀ c, obs s c = None ∨ obs s c = T c) → CF_META ∉ done → loaded s done →
  ∃ s', load_table st db cf (loader cf) s = Ok s' ∧ loaded s' (cf :: done).
Proof.
  intros Hh Hcf Hmeta Hnd [Hwf Hc Hd]. unfold load_table.
  destruct (scan_prefix_spec st db cf "") as (l & Hl & Hel). rewrite Hl. simpl.
  destruct (fold_rows_cells cf l s Hwf) as (s' & Hf & Hwf' & Hold & Hnew).
  { intros k v [Hm _]%Hel. destruct (holds_row st _ T Hh cf k v Hcf Hm) as [(c & y & -> & -> & HT & Hv)|]; [|by right].
    left. exists c, y. split_and!; [done..| |done|done]. by apply (holds_cell st _ T Hh c y). }
  exists s'. split; [done|]. split; [done|..].
  - intros c Hck. destruct (decide (cf = CF_META)) as [->|Hne].
    + destruct (Hold c) as [->| ->]; auto.
    + assert (is_known c = false) as Hk by (destruct Hck as [|[|]%elem_of_cons]; done).
      destruct (Hold c) as [->| ->]; auto.
  - intros c Hin. destruct (T c) as [y|] eqn:HT.
    + destruct (decide (cell_cf c = cf)) as [Heq|Hne].
      * destruct (holds_cell st _ T Hh c y HT) as (Hg & v & Hv & Hm). rewrite <-HT.
        apply (Hnew c v); [|done..]. apply Hel. rewrite Heq in Hm. done.
      * apply elem_of_cons in Hin as [|Hin]; [done|].
        assert (is_known c = false) as Hk by (destruct c; done).
        destruct (Hold c) as [->| ->]; auto. by rewrite Hd.
    + assert (cf = CF_META ∨ is_known c = false) as Hk.
      { destruct c; auto. left. by apply elem_of_cons in Hin as [|]. }
      destruct (Hold c Hk) as [->| ->]; [|done].
      destruct (decide (cf = CF_META)) as [->|]; [destruct (Hmeta eq_refl c); congruence|].
      destruct Hk as [|Hk]; [done|]. destruct (Hc c) as [|]; [auto|done|congruence].
Qed.

Lemma loaded_empty : loaded empty_snap [].
Proof.
  split; [intros ctx; apply empty_ctx_wf| |intros c []%elem_of_nil].
  intros c _. left. destruct c; unfold obs, ctx_of, version_of, referrers; simpl; by rewrite ?lookup_empty.
Qed.

(** Load one more table. *)
Tactic Notation "load_next" constr(cf) constr(f) hyp(L) "as" ident(s) ident(H) ident(L') :=
  lazymatch goal with Hh : holds st (rows ?db) T |- _ =>
    lazymatch type of L with loaded ?s0 ?d =>
      destruct (load_table_loaded db cf s0 d Hh) as (s & H & L');
        [unfold is_table; set_solver|done|set_solver|exact L|]
    end
  end;
  change f with (loader cf); rewrite H; cbn [mbind result_bind].

Lemma load_snapshot_cells (db : DB) n : holds st (rows db) T → stored_log_seq st db = Ok n →
  ∃ s', load_snapshot st db = Ok s' ∧ all_wf s' ∧ log_seq s' = n ∧ ∀ c, obs s' c = T c.
Proof.
  intros Hh Hn. unfold load_snapshot.
  pose proof loaded_empty as L0.
  load_next CF_VERSIONS load_version L0 as s1 H1 L1.
  load_next CF_FINGERPRINTS load_fingerprint L1 as s2 H2 L2.
  load_next CF_REFBY load_refby L2 as s3 H3 L3.
  load_next CF_CONFIG load_config L3 as s4 H4 L4.
  load_next CF_MODE load_mode L4 as s5 H5 L5.
  assert (loaded (Snap.set_known (λ _, ∅) s5) [CF_MODE; CF_CONFIG; CF_REFBY; CF_FINGERPRINTS; CF_VERSIONS] ∧
          ∀ c, obs (Snap.set_known (λ _, ∅) s5) c = None ∨ obs (Snap.set_known (λ _, ∅) s5) c = T c) as [L5' Hall].
  { destruct L5 as [Hwf Hc Hd].
    assert (∀ c, is_known c = false → obs (Snap.set_known (λ _, ∅) s5) c = obs s5 c) as Hsame by (intros []; done).
    assert (∀ c, is_known c = true → obs (Snap.set_known (λ _, ∅) s5) c = None) as Hnone.
    { by intros []. }
    split; [split; [done|..]|].
    - intros c [Hk|?]; [|set_solver]. rewrite Hsame by done. auto.
    - intros c Hin. rewrite Hsame; [auto|]. destruct c; try done. set_solver.
    - intros c. destruct (is_known c) eqn:Hk; [left; auto|]. rewrite Hsame by done. auto. }
  load_next CF_META load_meta L5' as s6 H6 L6.
  rewrite Hn. eexists; split; [done|]. split_and!; [apply L6|done|].
  intros c. change (obs s6 c = T c). apply (ld_done _ _ L6). destruct c; simpl; set_solver.
Qed.
End load.
