(* ===== verification/Transaction.v ===== *)
(** Committed transactions and what they leave behind: the rows of a
    container, its change log, and the snapshot a restart would load. *)
From S2P Require Import Prelude SortedVec RustStr Errors Json Model Context Snapshot Keys Plan Store Durable.

Local Open Scope Z_scope.

(** * Snapshots up to observation *)

Definition snap_equiv (s s' : Snapshot) : Prop := (∀ c, obs s c = obs s' c) ∧ log_seq s = log_seq s'.
#[export] Instance snap_equiv_equivalence : Equivalence snap_equiv.
Proof.
  split.
  - by intros s.
  - intros s s' [? ?]. by split.
  - intros s s' s'' [H1 ?] [H2 ?]. split; [|congruence]. intros c. by rewrite H1.
Qed.

Lemma option_flag (P Q : Prop) `{Decision P, Decision Q} : flag (bool_decide P) = flag (bool_decide Q) → (P ↔ Q).
Proof. repeat case_bool_decide; naive_solver. Qed.

Section equiv.
Context (s s' : Snapshot) (Hwf : all_wf s) (Hwf' : all_wf s') (Heq : snap_equiv s s').

Lemma equiv_version ctx subj v : version_of (ctx_of s ctx) subj v = version_of (ctx_of s' ctx) subj v.
Proof using Heq. pose proof (proj1 Heq (CVersion ctx subj v)) as H. simpl in H.
  destruct (version_of (ctx_of s ctx) _ _), (version_of (ctx_of s' ctx) _ _); naive_solver. Qed.

Lemma equiv_subjects ctx subj : subjects (ctx_of s ctx) !! subj = subjects (ctx_of s' ctx) !! subj.
Proof using Heq Hwf Hwf'.
  assert (∀ s1 s2 vs, all_wf s1 → (∀ v, version_of (ctx_of s1 ctx) subj v = version_of (ctx_of s2 ctx) subj v) →
    subjects (ctx_of s1 ctx) !! subj = Some vs → subjects (ctx_of s2 ctx) !! subj ≠ None) as Hsome.
  { intros s1 s2 vs H1 Hv E E'. destruct (wf_versions _ (H1 ctx) subj vs E) as [Hs Hne].
    destruct vs as [|[v vr] vs]; [done|]. specialize (Hv v). unfold version_of in Hv.
    rewrite E, E' in Hv. simpl in Hv. rewrite find_version_map in Hv.
    rewrite (proj2 (small_lookup _ v vr Hs)) in Hv; [done|left]. }
  pose proof (equiv_version ctx subj) as Hv.
  destruct (subjects (ctx_of s ctx) !! subj) as [vs|] eqn:E,
    (subjects (ctx_of s' ctx) !! subj) as [vs'|] eqn:E'; [|exfalso..|done].
  - f_equal. apply small_map_inj; [by apply (wf_versions _ (Hwf ctx) subj)|by apply (wf_versions _ (Hwf' ctx) subj)|]. apply map_eq. intros v.
    specialize (Hv v). unfold version_of in Hv. rewrite E, E' in Hv. simpl in Hv.
    by rewrite !find_version_map in Hv.
  - by apply (Hsome s s' vs).
  - by apply (Hsome s' s vs').
Qed.

Lemma equiv_list_versions ctx subj : Snap.list_versions s ctx subj = Snap.list_versions s' ctx subj.
Proof using Heq Hwf Hwf'. by rewrite !list_versions_ctx, equiv_subjects. Qed.

Lemma equiv_get_version ctx subj v : Snap.get_version s ctx subj v = Snap.get_version s' ctx subj v.
Proof using Heq. by rewrite !get_version_ctx, equiv_version. Qed.

Lemma equiv_id_usages ctx id : Snap.id_usages s ctx id = Snap.id_usages s' ctx id.
Proof using Heq Hwf Hwf'.
  rewrite !id_usages_ctx. apply set_sorted_inj; [apply Hwf|apply Hwf'|].
  intros [subj v]. rewrite !(wf_exact _ (Hwf _)), !(wf_exact _ (Hwf' _)). by rewrite equiv_version.
Qed.

Lemma equiv_referenced_by ctx subj v : Snap.referenced_by s ctx subj v = Snap.referenced_by s' ctx subj v.
Proof using Heq Hwf Hwf'.
  rewrite !referenced_by_ctx. apply set_sorted_inj; [apply Hwf|apply Hwf'|].
  intros id. apply (option_flag _ _ (proj1 Heq (CRef ctx subj v id))).
Qed.

Lemma equiv_next_id ctx : Snap.next_id s ctx = Snap.next_id s' ctx.
Proof using Heq.
  rewrite !next_id_ctx. pose proof (proj1 Heq (CNext ctx)) as H. simpl in H.
  destruct (cs_next_id (ctx_of s ctx)), (cs_next_id (ctx_of s' ctx)); naive_solver.
Qed.

Lemma equiv_fingerprint ctx fp : Snap.id_for_fingerprint s ctx fp = Snap.id_for_fingerprint s' ctx fp.
Proof using Heq.
  rewrite !fingerprint_ctx. pose proof (proj1 Heq (CFp ctx fp)) as H. simpl in H.
  destruct (fingerprints (ctx_of s ctx) !! fp), (fingerprints (ctx_of s' ctx) !! fp); naive_solver.
Qed.

Lemma equiv_known : known_contexts s = known_contexts s'.
Proof using Heq. apply set_eq. intros ctx. apply (option_flag _ _ (proj1 Heq (CKnown ctx))). Qed.

Lemma equiv_config : config s = config s'.
Proof using Heq.
  apply map_eq. intros scope. pose proof (proj1 Heq (CConfig scope)) as H. simpl in H.
  destruct (config s !! scope), (config s' !! scope); naive_solver.
Qed.

Lemma equiv_mode : mode s = mode s'.
Proof using Heq.
  apply map_eq. intros scope. pose proof (proj1 Heq (CMode scope)) as H. simpl in H.
  destruct (mode s !! scope), (mode s' !! scope); naive_solver.
Qed.
End equiv.

(** * What a batch touches *)

(** A batch operation of a plan: a key of the container, outside the log and
    its counters. *)
Definition plan_row (st : Store) (b : BatchOp) : Prop :=
  match b with
  | PutCf cf k _ | DeleteCf cf k => ∃ k', k = key st k' ∧ cf ≠ CF_LOG ∧ ¬ (cf = CF_META ∧ other_meta k')
  | DeleteRangeCf _ _ _ => False
  end.

(** A batch operation that stays within the container. *)
Definition own_row (st : Store) (b : BatchOp) : Prop :=
  match b with
  | PutCf cf k _ | DeleteCf cf k => ∃ k', k = key st k'
  | DeleteRangeCf _ _ _ => False
  end.

Lemma plan_own_row st b : plan_row st b → own_row st b.
Proof. destruct b; simpl; naive_solver. Qed.

Lemma apply_batch_app m a b : apply_batch m (a ++ b) = apply_batch (apply_batch m a) b.
Proof. apply foldl_app. Qed.

(** Rows of other containers are out of reach. *)
Lemma own_rows_frame st bs m cf k : Forall (own_row st) bs → (∀ k', k ≠ key st k') →
  apply_batch m bs !! (cf, k) = m !! (cf, k).
Proof.
  intros Hbs Hk. revert m. induction Hbs as [|b bs Hb _ IH]; intros m; [done|].
  simpl. rewrite IH. destruct b as [cf' k' v|cf' k'|]; [| |done]; destruct Hb as [k'' ->]; simpl.
  - apply lookup_insert_ne. intros [= _ <-]. by eapply Hk.
  - apply lookup_delete_ne. intros [= _ <-]. by eapply Hk.
Qed.

Lemma plan_rows_frame st bs m cf k : Forall (plan_row st) bs → cf = CF_LOG ∨ (cf = CF_META ∧ other_meta k) →
  apply_batch m bs !! (cf, key st k) = m !! (cf, key st k).
Proof.
  intros Hbs Hk. revert m. induction Hbs as [|b bs Hb _ IH]; intros m; [done|].
  simpl. rewrite IH. destruct b as [cf' k' v|cf' k'|]; [| |done]; destruct Hb as (k'' & -> & Hl & Hm); simpl.
  - apply lookup_insert_ne. intros [= -> ->%key_inj]. naive_solver.
  - apply lookup_delete_ne. intros [= -> ->%key_inj]. naive_solver.
Qed.

Lemma upds_app T a b : upds T (a ++ b) = upds (upds T a) b.
Proof. apply foldl_app. Qed.

Lemma upds_ext T T' es : (∀ c, T c = T' c) → ∀ c, upds T es c = upds T' es c.
Proof.
  unfold upds. revert T T'. induction es as [|e es IH]; intros T T' HT; [done|].
  simpl. apply IH. intros c. unfold upd. by rewrite HT.
Qed.

(** * The writes of a plan *)

Section writes.
Context `{!Serde SchemaRecord, !Serde VersionRecord, !Serde ConfigRecord.t, !Serde Mode,
          !Serde LogEvent, !Serde ExporterRecord}.

(** What a write does to the snapshot. *)
Definition write_ops (w : Write) : list Op :=
  match w with
  | WPutSchema ctx id rec index => [OpPutSchema ctx id rec index]
  | WPutVersion ctx subj v rec => [OpPutVersion ctx subj v rec]
  | WDeleteVersion ctx subj v id => [OpDeleteVersion ctx subj v id]
  | WDeleteSchema ctx id => [OpDeleteSchema ctx id]
  | WPutRefby ctx subj v id => [OpPutRefby ctx subj v id]
  | WDeleteRefby ctx subj v id => [OpDeleteRefby ctx subj v id]
  | WSetNextId ctx next => [OpSetNextId ctx next]
  | WPutConfig scope rec => [OpPutConfig scope rec]
  | WDeleteConfig scope => [OpDeleteConfig scope]
  | WPutMode scope m => [OpPutMode scope m]
  | WDeleteMode scope => [OpDeleteMode scope]
  | WDeleteContext ctx => [OpDeleteContext ctx]
  | WPutExporter _ | WDeleteExporter _ => []
  end.
Definition plan_ops (ws : list Write) : list Op := concat (write_ops <$> ws).
Definition ops_effects (ops : list Op) : list (Cell * option Val) := concat (effects <$> ops).

Definition good_effect (e : Cell * option Val) : Prop :=
  good_cell e.1 ∧ ∀ y, e.2 = Some y → ∃ v, val_enc e.1 y v.

(** A write whose names, integers and records can be stored. *)
Definition good_write (w : Write) : Prop :=
  Forall good_effect (ops_effects (write_ops w)) ∧
  match w with
  | WPutSchema _ _ rec _ => ∃ v, to_vec rec = Ok v
  | WPutExporter rec => ∃ v, to_vec rec = Ok v
  | _ => True
  end.

Lemma write_ops_effect op w : write_ops w = [op] → ops_effects (write_ops w) = effects op.
Proof. intros ->. apply app_nil_r. Qed.

(** A batch that carries out a list of cell updates, with rows outside the
    cells (schema bodies, exporters) in between. *)
Inductive carries (st : Store) : WriteBatch → list (Cell * option Val) → Prop :=
| carries_nil : carries st [] []
| carries_put c y v bs es : good_cell c → val_enc c y v → carries st bs es →
    carries st (PutCf (cell_cf c) (key st (cell_key c)) v :: bs) ((c, Some y) :: es)
| carries_delete c bs es : good_cell c → carries st bs es →
    carries st (DeleteCf (cell_cf c) (key st (cell_key c)) :: bs) ((c, None) :: es)
| carries_other_put cf k v bs es : cf = CF_SCHEMAS ∨ cf = CF_EXPORTERS → carries st bs es →
    carries st (PutCf cf (key st k) v :: bs) es
| carries_other_delete cf k bs es : cf = CF_SCHEMAS ∨ cf = CF_EXPORTERS → carries st bs es →
    carries st (DeleteCf cf (key st k) :: bs) es.

Lemma carries_plan_row st bs es : carries st bs es → Forall (plan_row st) bs.
Proof.
  induction 1 as [|c y v bs es _ _ _ IH|c bs es _ _ IH|cf k v bs es Hcf _ IH|cf k bs es Hcf _ IH];
    constructor; try done; simpl; eexists; (split; [done|]).
  - split; [by destruct c|]. intros [??]. by apply (cell_not_other_meta c).
  - split; [by destruct c|]. intros [??]. by apply (cell_not_other_meta c).
  - split; [by destruct Hcf as [-> | ->]|]. by destruct Hcf as [-> | ->]; intros [].
  - split; [by destruct Hcf as [-> | ->]|]. by destruct Hcf as [-> | ->]; intros [].
Qed.

Lemma body_not_table cf : cf = CF_SCHEMAS ∨ cf = CF_EXPORTERS → ¬ is_table cf.
Proof. unfold is_table. rewrite !elem_of_cons, elem_of_nil. intros [-> | ->]; naive_solver. Qed.

Lemma carries_holds st bs es : carries st bs es →
  ∀ m T, holds st m T → holds st (apply_batch m bs) (upds T es).
Proof.
  induction 1 as [|c y v bs es Hg Hv _ IH|c bs es Hg _ IH|cf k v bs es Hcf _ IH|cf k bs es Hcf _ IH];
    intros m T Hm; simpl; [done|..]; apply IH.
  - by apply holds_put.
  - by apply holds_delete.
  - apply body_not_table in Hcf. apply (holds_frame st m); [done|].
    intros cf' k' Ht _. rewrite lookup_insert_ne; [done|]. intros [= <- _]. done.
  - apply body_not_table in Hcf. apply (holds_frame st m); [done|].
    intros cf' k' Ht _. rewrite lookup_delete_ne; [done|]. intros [= <- _]. done.
Qed.

Lemma good_effect_put c y : good_effect (c, Some y) → good_cell c ∧ ∃ v, val_enc c y v.
Proof. intros [Hg Hv]. naive_solver. Qed.

(** Each write extends the batch with rows that carry its cell updates. *)
Lemma apply_write_spec st a w t : good_write w →
  ∃ bs, TxM.apply_write st a w t =
          Ok (mkTx (tx_batch t ++ bs) (tx_log_seq t) (tx_log_dirty t) (tx_ops t ++ write_ops w)) ∧
        carries st bs (ops_effects (write_ops w)).
Proof.
  intros [Hgood Hser]. destruct t as [b seq dirty ops].
  destruct w as [ctx id rec [|]|ctx subj v rec|ctx subj v id|ctx id|ctx subj v id|ctx subj v id|ctx next
    |scope rec|scope|scope m|scope|ctx|rec|name];
    unfold ops_effects in *; cbn [write_ops fmap list_fmap concat effects app] in *;
    repeat match goal with
    | H : Forall _ (_ :: _) |- _ => apply Forall_cons in H as [[? ?] ?]
    | H : ∀ y, (_, Some ?z).2 = Some y → _ |- _ => specialize (H z eq_refl); destruct H as [? ?]
    | H : ∃ _, to_vec _ = Ok _ |- _ => destruct H as [? ?]
    end; simpl in *; destruct_and?; subst.
  all: unfold TxM.put_schema, TxM.put_version, TxM.put_config, TxM.put_mode, TxM.put_exporter, TxM.put; simpl.
  all: repeat match goal with H : to_vec _ = Ok _ |- _ => rewrite H; simpl end.
  all: eexists; split; [unfold TxM.delete_schema, TxM.delete_version, TxM.put_refby, TxM.delete_refby,
      TxM.set_next_id, TxM.delete_context, TxM.delete_config, TxM.delete_mode, TxM.delete_exporter,
      TxM.batch, TxM.push; simpl; rewrite <-?app_assoc, ?(app_nil_r ops); reflexivity|].
  all: cbn [app]; repeat match goal with
    | |- carries _ _ ((?c, Some ?y) :: _) => apply (carries_put st c y); [by simpl|by simpl|]
    | |- carries _ _ ((?c, None) :: _) => apply (carries_delete st c); [by simpl|]
    | |- carries _ (PutCf _ _ _ :: _) _ => apply carries_other_put; [by auto|]
    | |- carries _ (DeleteCf _ _ :: _) _ => apply carries_other_delete; [by auto|]
    | |- carries _ [] [] => constructor
    end.
Qed.

Lemma apply_writes_spec st a ws t : Forall good_write ws →
  ∃ bs, TxM.apply_writes st a ws t =
          Ok (mkTx (tx_batch t ++ bs) (tx_log_seq t) (tx_log_dirty t) (tx_ops t ++ plan_ops ws)) ∧
        carries st bs (ops_effects (plan_ops ws)).
Proof.
  unfold plan_ops, TxM.apply_writes. intros Hws. revert t.
  induction Hws as [|w ws Hw Hws IH]; intros t.
  - exists []. simpl. rewrite !app_nil_r. split; [by destruct t|constructor].
  - destruct (apply_write_spec st a w t Hw) as (bs & Heq & Hc). simpl. rewrite Heq.
    destruct (IH (mkTx (tx_batch t ++ bs) (tx_log_seq t) (tx_log_dirty t) (tx_ops t ++ write_ops w)))
      as (bs' & Heq' & Hc'). rewrite Heq'; simpl.
    exists (bs ++ bs'). rewrite <-!app_assoc. split; [done|].
    unfold ops_effects in *. rewrite fmap_app, concat_app. clear -Hc Hc'.
    induction Hc; [done|by constructor..].
Qed.
End writes.

(** * The change log *)

Section change_log.
Context `{!Serde LogEvent}.

Definition log_enc (ev : LogEvent) (v : string) : Prop := to_vec ev = Ok v ∧ from_slice v = Ok ev.

(** The log rows from [floor] on are exactly the events of [log]. *)
Record log_rows (st : Store) (m : Rows) (floor : nat) (log : list LogEvent) : Prop := {
  lr_len : is_u64 (Z.of_nat (length log));
  lr_row : ∀ i ev, log !! i = Some ev → (floor ≤ i)%nat →
    ∃ v, log_enc ev v ∧ m !! (CF_LOG, key st (to_be_u64 (Z.of_nat i))) = Some v;
  lr_only : ∀ k v, m !! (CF_LOG, key st k) = Some v →
    ∃ i ev, k = to_be_u64 (Z.of_nat i) ∧ (floor ≤ i)%nat ∧ log !! i = Some ev ∧ log_enc ev v;
}.

(** A counter of [meta]; absent reads as 0. *)
Definition counter_row (st : Store) (m : Rows) (k : string) (n : Z) : Prop :=
  match m !! (CF_META, key st k) with Some v => be_u64 v = Some n | None => n = 0 end.

Lemma to_be_u64_inj a b : is_u64 a → is_u64 b → to_be_u64 a = to_be_u64 b → a = b.
Proof.
  intros Ha Hb Heq. pose proof (be_u64_bytes a "" Ha) as H1. rewrite Heq, be_u64_bytes in H1 by done.
  by injection H1.
Qed.

Lemma be_u64_own z : is_u64 z → be_u64 (to_be_u64 z) = Some z.
Proof. intros Hz. rewrite <-(str_app_nil_r (to_be_u64 z)). by apply be_u64_bytes. Qed.

Lemma log_index_u64 (log : list LogEvent) i ev :
  is_u64 (Z.of_nat (length log)) → log !! i = Some ev → is_u64 (Z.of_nat i).
Proof. unfold is_u64. intros Hl Hi%lookup_lt_Some. lia. Qed.

Lemma log_rows_frame st m m' floor log : log_rows st m floor log →
  (∀ k, m' !! (CF_LOG, key st k) = m !! (CF_LOG, key st k)) → log_rows st m' floor log.
Proof.
  intros [H1 H2 H3] Hf. split; [done|..].
  - intros i ev Hi Hfl. destruct (H2 i ev Hi Hfl) as (v & ? & ?). exists v. by rewrite Hf.
  - intros k v. rewrite Hf. apply H3.
Qed.

Lemma log_rows_append st m floor log ev v : log_rows st m floor log →
  log_enc ev v → (floor ≤ length log)%nat → is_u64 (Z.of_nat (length log) + 1) →
  log_rows st (<[(CF_LOG, key st (to_be_u64 (Z.of_nat (length log)))) := v]> m) floor (log ++ [ev]).
Proof.
  intros [H1 H2 H3] Hev Hfl Hlen. split.
  - rewrite length_app; simpl. by replace (Z.of_nat (length log + 1)) with (Z.of_nat (length log) + 1) by lia.
  - intros i ev' Hi Hle. apply lookup_snoc_Some in Hi as [[Hlt Hi]|[-> <-]].
    + destruct (H2 i ev' Hi Hle) as (v' & Hv' & Hm). exists v'. split; [done|].
      rewrite lookup_insert_ne; [done|]. intros [= Hk%key_inj%to_be_u64_inj]; [lia|done|].
      by apply (log_index_u64 log i ev').
    + exists v. by rewrite lookup_insert_eq.
  - intros k v'. rewrite lookup_insert_Some. intros [[[= <-%key_inj] <-]|[_ Hm]].
    + exists (length log), ev. split_and!; [done..| |done]. by apply list_lookup_middle.
    + destruct (H3 k v' Hm) as (i & ev' & -> & ? & Hi & ?). exists i, ev'. split_and!; [done..| |done].
      by apply lookup_app_l_Some.
Qed.

Lemma append_logs_spec st evs t : Forall persistable evs → is_u64 (tx_log_seq t + Z.of_nat (length evs)) →
  0 ≤ tx_log_seq t →
  ∃ bs, TxM.append_logs st evs t =
          Ok (mkTx (tx_batch t ++ bs) (tx_log_seq t + Z.of_nat (length evs))
                   (tx_log_dirty t || bool_decide (evs ≠ [])) (tx_ops t)) ∧
        Forall (own_row st) bs ∧
        (∀ m cf k, cf ≠ CF_LOG → apply_batch m bs !! (cf, k) = m !! (cf, k)) ∧
        ∀ m floor log, log_rows st m floor log → (floor ≤ length log)%nat →
          tx_log_seq t = Z.of_nat (length log) → log_rows st (apply_batch m bs) floor (log ++ evs).
Proof.
  unfold TxM.append_logs. intros Hevs. revert t. induction Hevs as [|ev evs Hev Hevs IH]; intros t Hlen H0.
  - exists []. simpl. rewrite app_nil_r, Z.add_0_r, orb_false_r. split_and!; [by destruct t|done..|].
    intros. by rewrite app_nil_r.
  - destruct Hev as (v & Hto & Hfrom). simpl in Hlen. unfold is_u64, u64_max in Hlen.
    simpl. unfold TxM.append_log at 2, TxM.put. rewrite Hto. simpl.
    assert (u64_add (tx_log_seq t) 1 = tx_log_seq t + 1) as ->.
    { unfold u64_add. apply Z.mod_small. lia. }
    set (t1 := mkTx (tx_batch t ++ [PutCf CF_LOG (key st (to_be_u64 (tx_log_seq t))) v]) (tx_log_seq t + 1) true (tx_ops t)).
    destruct (IH t1) as (bs & Heq & Hown & Hfr & Hlog); simpl.
    { unfold is_u64, u64_max. lia. } { lia. }
    exists (PutCf CF_LOG (key st (to_be_u64 (tx_log_seq t))) v :: bs). split_and!.
    + rewrite Heq. simpl. rewrite <-app_assoc, orb_true_r. simpl. do 2 f_equal. lia.
    + constructor; [by eexists|done].
    + intros m cf k Hcf. simpl. rewrite Hfr by done. apply lookup_insert_ne. congruence.
    + intros m floor log Hm Hfl Hseq. simpl. rewrite (cons_middle ev log evs), app_assoc.
      apply Hlog; rewrite ?length_app; simpl; [|lia..].
      rewrite Hseq. apply log_rows_append; [done|by split|done|]. unfold is_u64, u64_max. lia.
Qed.
End change_log.

(** * One transaction *)

Section commit.
Context `{!RocksDB DB, !RocksDBLaws DB}.
Context `{!Serde SchemaRecord, !Serde VersionRecord, !Serde ConfigRecord.t, !Serde Mode,
          !Serde LogEvent, !Serde ExporterRecord}.
Implicit Types db : DB.

(** The writes and events of a plan as one batch (engine.rs, [apply], up to
    the commit). *)
Definition commit_plan (st : Store) (db : DB) (allowed : ModeGate.Allowed)
    (ws : list Write) (evs : list LogEvent) : DB * Outcome (list Op) :=
  match tx st db with
  | Err e => (db, Err e)
  | Ok t =>
      match (t ← TxM.apply_writes st allowed ws t; TxM.append_logs st evs t) with
      | Err e => (db, Err (Api e))
      | Ok t => let '(db, r) := TxM.commit st t db in (db, api r)
      end
  end.

(** What is on disk for a container: the cells of a snapshot, and a log. *)
Record durable (st : Store) (m : Rows) (s : Snapshot) (floor : nat) (log : list LogEvent) : Prop := {
  du_wf : snap_wf s;
  du_cells : holds st m (obs s);
  du_log : log_rows st m floor log;
  du_floor : counter_row st m "log_floor" (Z.of_nat floor) ∧ (floor ≤ length log)%nat;
  du_seq : counter_row st m "log_seq" (Z.of_nat (length log)) ∧ log_seq s = Z.of_nat (length log);
}.

Lemma stored_counter st db k n : counter_row st (rows db) k n → get_meta_u64 st db k = Ok n.
Proof.
  unfold counter_row, get_meta_u64, get_meta. rewrite get_cf_law. simpl.
  destruct (rows db !! _); simpl; [by intros ->|by intros ->].
Qed.

Lemma obs_apply_all s ops : snap_wf s → ops_ok s ops →
  ∀ c, obs (Snap.apply_all s ops) c = upds (obs s) (ops_effects ops) c.
Proof.
  revert s. induction ops as [|op ops IH]; intros s Hwf; [done|]. intros [Hop Hops] c.
  unfold ops_effects. simpl. rewrite upds_app.
  transitivity (upds (obs (Snap.apply s op)) (ops_effects ops) c).
  - apply IH; [by apply apply_wf|done].
  - apply upds_ext. intros c'. apply obs_apply. intros ctx. apply Hwf.
Qed.

Definition finish_ops (evs : list LogEvent) (n : Z) : list Op := if bool_decide (evs ≠ []) then [OpSetLogSeq n] else [].

Lemma ops_ok_app s a b : ops_ok s (a ++ b) ↔ ops_ok s a ∧ ops_ok (Snap.apply_all s a) b.
Proof. revert s. induction a as [|op a IH]; intros s; simpl; [naive_solver|]. rewrite IH. naive_solver. Qed.

(** The counter written at the end of a batch that logged events. *)
Definition seq_batch (st : Store) (evs : list LogEvent) (n : Z) : WriteBatch :=
  if bool_decide (evs ≠ []) then [PutCf CF_META (key st "log_seq") (to_be_u64 n)] else [].

Lemma seq_batch_frame st evs n m cf k : ¬ (cf = CF_META ∧ k = key st "log_seq") →
  apply_batch m (seq_batch st evs n) !! (cf, k) = m !! (cf, k).
Proof.
  intros Hk. unfold seq_batch. case_bool_decide; [|done]. simpl. apply lookup_insert_ne. naive_solver.
Qed.

Lemma seq_batch_counter st evs n m : is_u64 n → (evs = [] → counter_row st m "log_seq" n) →
  counter_row st (apply_batch m (seq_batch st evs n)) "log_seq" n.
Proof.
  intros Hn Hnil. unfold seq_batch. case_bool_decide as E; simpl.
  - unfold counter_row. rewrite lookup_insert_eq. by apply be_u64_own.
  - apply Hnil. destruct evs; [done|]. by destruct E.
Qed.

(** The batch of a plan, in its three parts. *)
Lemma commit_plan_batch st db s floor log a ws evs :
  durable st (rows db) s floor log → Forall good_write ws → Forall persistable evs →
  is_u64 (Z.of_nat (length log) + Z.of_nat (length evs)) →
  let n := Z.of_nat (length log) + Z.of_nat (length evs) in
  ∃ bs lbs, carries st bs (ops_effects (plan_ops ws)) ∧
    Forall (own_row st) lbs ∧
    (∀ m cf k, cf ≠ CF_LOG → apply_batch m lbs !! (cf, k) = m !! (cf, k)) ∧
    (∀ m, log_rows st m floor log → log_rows st (apply_batch m lbs) floor (log ++ evs)) ∧
    commit_plan st db a ws evs =
      (let '(db', r) := write_opt db (bs ++ lbs ++ seq_batch st evs n) in
       (db', api (_ ← backend r; Ok (plan_ops ws ++ finish_ops evs n)))).
Proof.
  intros Hd Hws Hevs Hlen n. destruct (du_seq _ _ _ _ _ Hd) as [Hseq _].
  assert (tx st db = Ok (mkTx [] (Z.of_nat (length log)) false [])) as Htx.
  { unfold tx, stored_log_seq. by rewrite (stored_counter st db "log_seq" _ Hseq). }
  destruct (apply_writes_spec st a ws (mkTx [] (Z.of_nat (length log)) false []) Hws) as (bs & Hw & Hc).
  set (t1 := mkTx ([] ++ bs) (Z.of_nat (length log)) false ([] ++ plan_ops ws)) in *.
  destruct (append_logs_spec st evs t1 Hevs Hlen ltac:(simpl; lia)) as (lbs & Hl & Hown & Hfr & Hlog).
  exists bs, lbs. split_and!; [done..| |].
  - intros m Hm. apply Hlog; [done|apply (du_floor _ _ _ _ _ Hd)|done].
  - unfold commit_plan. rewrite Htx, Hw. cbn [mbind result_bind]. change (mkTx _ _ _ _) with t1. rewrite Hl.
    unfold TxM.commit, TxM.finish, seq_batch, finish_ops, write. simpl.
    case_bool_decide; simpl; rewrite <-?app_assoc, ?app_nil_r; by destruct (write_opt _ _).
Qed.

Lemma plan_ops_log_seq s ws : log_seq (Snap.apply_all s (plan_ops ws)) = log_seq s.
Proof.
  assert (∀ ops, Forall (λ op, ∀ n, op ≠ OpSetLogSeq n) ops → ∀ s, log_seq (Snap.apply_all s ops) = log_seq s) as Hops.
  { induction 1 as [|op ops Hop _ IH]; intros s'; [done|]. simpl. rewrite IH.
    destruct op as [? ? ? [|]| | | | | | | | | | | |]; try done. by destruct (Hop seq). }
  apply Hops. unfold plan_ops. induction ws as [|w ws IH]; simpl; [constructor|].
  apply Forall_app. split; [|done]. destruct w; repeat constructor; done.
Qed.

(** The counter operation closes the snapshot's side. *)
Lemma finish_ops_spec s (log evs : list LogEvent) : snap_wf s → log_seq s = Z.of_nat (length log) →
  let s' := Snap.apply_all s (finish_ops evs (Z.of_nat (length log) + Z.of_nat (length evs))) in
  (∀ c, obs s' c = obs s c) ∧ snap_wf s' ∧ log_seq s' = Z.of_nat (length log) + Z.of_nat (length evs).
Proof.
  intros Hwf Hseq. unfold finish_ops. case_bool_decide as E; simpl.
  - split_and!; [done| |done]. by apply (apply_wf _ (OpSetLogSeq _)).
  - split_and!; [done..|]. destruct evs; [simpl; lia|]. done.
Qed.

(** A transaction that commits leaves the rows of the snapshot it publishes;
    one that does not leaves the database as it was. *)
Lemma commit_plan_durable st db s floor log a ws evs db' r :
  durable st (rows db) s floor log → Forall good_write ws → Forall persistable evs →
  ops_ok s (plan_ops ws) → is_u64 (Z.of_nat (length log) + Z.of_nat (length evs)) →
  commit_plan st db a ws evs = (db', r) →
  match r with
  | Ok ops => ops = plan_ops ws ++ finish_ops evs (Z.of_nat (length log) + Z.of_nat (length evs)) ∧
              durable st (rows db') (Snap.apply_all s ops) floor (log ++ evs)
  | Err e => rows db' = rows db ∧ ∃ msg, e = Api (ApiErr.store msg)
  end.
Proof.
  intros Hd Hws Hevs Hok Hlen.
  destruct (commit_plan_batch st db s floor log a ws evs Hd Hws Hevs Hlen) as (bs & lbs & Hc & Hown & Hfr & Hlog & ->).
  set (n := Z.of_nat (length log) + Z.of_nat (length evs)) in *.
  destruct (write_opt db _) as [db1 [u|e]] eqn:Hwr; pose proof (write_opt_law _ _ _ _ Hwr) as Hrows;
    intros [= <- <-]; [|by split; [|eexists]].
  split; [done|]. destruct Hd as [Hwf Hcells Hlr [Hf Hfl] [Hs Hseq]].
  rewrite !apply_batch_app in Hrows. pose proof (carries_plan_row _ _ _ Hc) as Hplan.
  assert (∀ cf k, cf ≠ CF_LOG → ¬ (cf = CF_META ∧ k = "log_seq") →
    rows db1 !! (cf, key st k) = apply_batch (rows db) bs !! (cf, key st k)) as Hother.
  { intros cf k Hcf Hk. rewrite Hrows, seq_batch_frame, Hfr; [done|done|].
    intros [-> ?%key_inj]. naive_solver. }
  assert (∀ k, other_meta k → apply_batch (rows db) bs !! (CF_META, key st k) = rows db !! (CF_META, key st k)) as Hmeta.
  { intros k Hk. apply plan_rows_frame; auto. }
  destruct (finish_ops_spec (Snap.apply_all s (plan_ops ws)) log evs) as (Hobs & Hwf' & Hseq').
  { by apply apply_all_wf. } { by rewrite plan_ops_log_seq. }
  unfold Snap.apply_all in *. rewrite foldl_app. split; [done|..].
  - eapply holds_ext; [intros c; symmetry; apply Hobs|].
    eapply holds_ext; [intros c; symmetry; by apply obs_apply_all|].
    apply (holds_frame st (apply_batch (rows db) bs)); [by apply (carries_holds st bs)|].
    intros cf k Ht Hk. apply Hother.
    + intros ->. unfold is_table in Ht. by rewrite !elem_of_cons, elem_of_nil in Ht; naive_solver.
    + intros [-> ->]. apply Hk. split; [done|]. unfold other_meta. set_solver.
  - rewrite Hrows. apply (log_rows_frame st (apply_batch (apply_batch (rows db) bs) lbs)).
    + apply Hlog. apply (log_rows_frame st (rows db)); [done|]. intros k. apply plan_rows_frame; auto.
    + intros k. apply seq_batch_frame. by intros [].
  - split; [|rewrite length_app; lia]. unfold counter_row.
    rewrite Hother, Hmeta; [done|unfold other_meta; set_solver|done|by intros []].
  - rewrite length_app, Nat2Z.inj_add. split; [|done]. rewrite Hrows. apply seq_batch_counter; [done|].
    intros ->. simpl. rewrite Z.add_0_r. unfold counter_row. rewrite Hfr, Hmeta; [done| |done].
    unfold other_meta; set_solver.
Qed.

(** Whatever a plan does, the rows of other containers stay as they were. *)
Lemma commit_plan_isolated st db s floor log a ws evs db' r cf k :
  durable st (rows db) s floor log → Forall good_write ws → Forall persistable evs →
  is_u64 (Z.of_nat (length log) + Z.of_nat (length evs)) →
  commit_plan st db a ws evs = (db', r) → (∀ k', k ≠ key st k') →
  rows db' !! (cf, k) = rows db !! (cf, k).
Proof.
  intros Hd Hws Hevs Hlen.
  destruct (commit_plan_batch st db s floor log a ws evs Hd Hws Hevs Hlen) as (bs & lbs & Hc & Hown & _ & _ & ->).
  destruct (write_opt db _) as [db1 [u|e]] eqn:Hwr; pose proof (write_opt_law _ _ _ _ Hwr) as Hrows;
    intros [= <- <-] Hk; [|by rewrite Hrows].
  rewrite Hrows. apply (own_rows_frame st); [|done].
  rewrite !Forall_app. split_and!; [|done|].
  - eapply Forall_impl; [by eapply carries_plan_row|]. apply plan_own_row.
  - unfold seq_batch. case_bool_decide; repeat constructor. by eexists.
Qed.

(** A restart loads the published snapshot, up to observation. *)
Lemma durable_load st db s floor log : durable st (rows db) s floor log →
  ∃ s', load_snapshot st db = Ok s' ∧ snap_equiv s' s ∧ all_wf s'.
Proof.
  intros [Hwf Hcells Hlr _ [Hs Hseq]].
  destruct (load_snapshot_cells st (obs s) db (Z.of_nat (length log)) Hcells) as (s' & Hl & Hwf' & Hn & Hobs).
  { by apply stored_counter. }
  exists s'. split_and!; [done| |done]. split; [done|congruence].
Qed.

Lemma durable_empty st m : (∀ cf k, m !! (cf, key st k) = None) → durable st m empty_snap 0 [].
Proof.
  intros Hm. assert (∀ c, obs empty_snap c = None) as Hnone.
  { intros []; unfold obs, ctx_of, version_of, referrers; simpl; by rewrite ?lookup_empty. }
  split; [apply empty_snap_wf|split|split|split|split]; try done.
  - intros c y. by rewrite Hnone.
  - intros cf k v _. by rewrite Hm.
  - intros k v. by rewrite Hm.
  - unfold counter_row. by rewrite Hm.
  - unfold counter_row. by rewrite Hm.
Qed.
End commit.
