(* ===== verification/MemDb.v ===== *)
(** Concrete instances of the store's parameters: an in-memory database with a
    budget of writes after which it fails, and a serialization of the stored
    records. They show that the laws can hold, and let the development run. *)
From S2P Require Import Prelude SortedVec RustStr Errors Json Model Context Snapshot Keys Plan Store Durable Transaction.

(** * An in-memory database *)

(** [budget]: how many more writes succeed; [None] for no limit. *)
Record MemDB := mkMem { mem_rows : Rows; budget : option nat }.

Definition mem_select (m : Rows) (cf from : string) : list (string * string) :=
  omap (λ r : string * string * string,
          if decide (r.1.1 = cf ∧ kle from r.1.2) then Some (r.1.2, r.2) else None) (map_to_list m).
Definition mem_iter (m : Rows) (cf from : string) : list (string * string) :=
  merge_sort (λ x y, kle x.1 y.1) (mem_select m cf from).

#[export] Instance MemDB_rocksdb : RocksDB MemDB := {
  get_cf db cf k := Ok (mem_rows db !! (cf, k));
  iterator_cf db cf from := Ok (mem_iter (mem_rows db) cf from);
  write_opt db b :=
    match budget db with
    | Some O => (db, Err "disk full")
    | Some (S n) => (mkMem (apply_batch (mem_rows db) b) (Some n), Ok ())
    | None => (mkMem (apply_batch (mem_rows db) b) None, Ok ())
    end;
}.

Lemma elem_of_mem_iter m cf from k v :
  (k, v) ∈ mem_iter m cf from ↔ m !! (cf, k) = Some v ∧ kle from k.
Proof.
  unfold mem_iter. rewrite merge_sort_Permutation. unfold mem_select. rewrite list_elem_of_omap. split.
  - intros ([[cf' k'] v'] & Hin & Heq). apply elem_of_map_to_list in Hin.
    simpl in Heq. case_decide as Hd; [|done]. destruct Hd as [-> Hle]. by simplify_eq.
  - intros [Hm Hle]. exists ((cf, k), v). rewrite elem_of_map_to_list. split; [done|].
    simpl. by rewrite decide_True.
Qed.

Lemma mem_select_NoDup m cf from : NoDup (mem_select m cf from).*1.
Proof.
  unfold mem_select.
  pose proof (NoDup_fst_map_to_list m) as Hnd. induction (map_to_list m) as [|[[cf' k] v] l IH]; [constructor|].
  apply NoDup_cons in Hnd as [Hni Hnd]. simpl. case_decide as Hd; simpl; [|auto].
  destruct Hd as [-> Hle]. constructor; [|auto]. intros Hin. apply Hni.
  apply list_elem_of_fmap in Hin as ([k' v'] & -> & Hin). apply list_elem_of_omap in Hin as ([[cf2 k2] v2] & Hin & Heq).
  simpl in Heq. case_decide as Hd2; [|done]. destruct Hd2 as [-> _]. simplify_eq/=.
  apply list_elem_of_fmap. by exists ((cf, k'), v').
Qed.

Lemma sorted_strict (l : list (string * string)) :
  NoDup l.*1 → StronglySorted (λ x y, kle x.1 y.1) l → small_sorted l.
Proof.
  intros Hnd Hs. induction Hs as [|x l Hs IH Hall]; [constructor|].
  apply NoDup_cons in Hnd as [Hni Hnd]. constructor; [by apply IH|].
  apply Forall_forall. intros y Hy. rewrite Forall_forall in Hall. specialize (Hall y Hy).
  apply kle_lt_eq in Hall as [|Heq]; [done|]. destruct Hni. rewrite Heq.
  apply list_elem_of_fmap. by exists y.
Qed.

#[export] Instance MemDB_laws : RocksDBLaws MemDB.
Proof.
  refine {| rows := mem_rows |}.
  - done.
  - intros db cf from. eexists; split; [done|]. split; [|apply elem_of_mem_iter].
    unfold mem_iter. apply sorted_strict.
    + rewrite merge_sort_Permutation. apply mem_select_NoDup.
    + assert (Transitive (λ x y : string * string, kle x.1 y.1)) by (intros x y z; apply kle_trans).
      assert (Total (λ x y : string * string, kle x.1 y.1)) by (intros x y; apply kle_total).
      apply (StronglySorted_merge_sort (λ x y : string * string, kle x.1 y.1)).
  - intros [m [[|n]|]] b db' r; simpl; intros [= <- <-]; done.
Defined.

(** * Serialization *)

Fixpoint bits (p : positive) : string :=
  match p with
  | xH => ""
  | xO p => String "0" (bits p)
  | xI p => String "1" (bits p)
  end.
Fixpoint unbits (s : string) : positive :=
  match s with
  | EmptyString => xH
  | String c s => if decide (c = "0"%char) then xO (unbits s) else xI (unbits s)
  end.
Lemma unbits_bits p : unbits (bits p) = p.
Proof. induction p; simpl; congruence. Qed.

(** A type that embeds into a countable one on part of its values. *)
Definition serde_via {A B} `{Countable B} (enc : A → option B) (dec : B → A) : Serde A := {|
  to_vec x := ok_or (bits ∘ encode <$> enc x) "unsupported value";
  from_slice s := dec <$> ok_or (decode (A:=B) (unbits s)) "expected value";
|}.

Lemma serde_via_persistable {A B} `{Countable B} (enc : A → option B) (dec : B → A) x b :
  enc x = Some b → dec b = x → persistable (H := serde_via enc dec) x.
Proof.
  intros He Hd. exists (bits (encode b)). simpl. rewrite He. simpl. split; [done|].
  rewrite unbits_bits, decode_encode. simpl. by rewrite Hd.
Qed.

(** Enumerations, by position. *)
#[export] Instance SchemaType_countable : Countable SchemaType.
Proof.
  refine (inj_countable' (λ t, match t with Avro => 0 | JsonSchemaT => 1 | Protobuf => 2 end)
    (λ n, match n with 0 => Avro | 1 => JsonSchemaT | _ => Protobuf end) _). by intros [].
Defined.
#[export] Instance Level_countable : Countable CompatibilityLevel.
Proof.
  refine (inj_countable'
    (λ l, match l with LNone => 0 | Backward => 1 | BackwardTransitive => 2 | Forward => 3
                     | ForwardTransitive => 4 | Full => 5 | FullTransitive => 6 end)
    (λ n, match n with 0 => LNone | 1 => Backward | 2 => BackwardTransitive | 3 => Forward
                     | 4 => ForwardTransitive | 5 => Full | _ => FullTransitive end) _). by intros [].
Defined.
#[export] Instance Mode_countable : Countable Mode.
Proof.
  refine (inj_countable' (λ m, match m with Readwrite => 0 | Readonly => 1 | ReadonlyOverride => 2 | Import => 3 end)
    (λ n, match n with 0 => Readwrite | 1 => Readonly | 2 => ReadonlyOverride | _ => Import end) _). by intros [].
Defined.
#[export] Instance Kind_countable : Countable LogEventKind.
Proof.
  refine (inj_countable' (λ k, match k with Register => 0 | SoftDelete => 1 | HardDelete => 2 end)
    (λ n, match n with 0 => Register | 1 => SoftDelete | _ => HardDelete end) _). by intros [].
Defined.
#[export] Instance State_countable : Countable ExporterState.
Proof.
  refine (inj_countable' (λ s, match s with Starting => 0 | Running => 1 | Paused => 2 | ErrorState => 3 | Failed => 4 end)
    (λ n, match n with 0 => Starting | 1 => Running | 2 => Paused | 3 => ErrorState | _ => Failed end) _). by intros [].
Defined.

#[export] Instance version_serde : Serde VersionRecord :=
  serde_via (λ r, Some (vr_id r, vr_deleted r, vr_ts r)) (λ '(i, d, t), mkVersion i d t).
#[export] Instance mode_serde : Serde Mode := serde_via (λ m, Some m) id.
#[export] Instance event_serde : Serde LogEvent :=
  serde_via (λ e, Some (ev_ctx e, ev_subject e, ev_version e, ev_id e, ev_kind e))
            (λ '(c, s, v, i, k), mkEvent c s v i k).
(** Records holding JSON documents: those without documents. *)
#[export] Instance config_serde : Serde ConfigRecord.t :=
  serde_via
    (λ c, match c with
          | ConfigRecord.mk l a n f r g None None None None => Some (l, a, n, f, r, g)
          | _ => None
          end)
    (λ '(l, a, n, f, r, g), ConfigRecord.mk l a n f r g None None None None).
#[export] Instance schema_serde : Serde SchemaRecord :=
  serde_via
    (λ r, match r with
          | mkSchemaRecord t s refs None None fp sfp g =>
              Some (t, s, (λ x, (ref_name x, ref_subject x, ref_version x)) <$> refs, fp, sfp, g)
          | _ => None
          end)
    (λ '(t, s, refs, fp, sfp, g),
       mkSchemaRecord t s ((λ '(n, s, v), mkRef n s v) <$> refs) None None fp sfp g).
(** ... or, for exporters, whose settings are all texts. *)
#[export] Instance exporter_serde : Serde ExporterRecord :=
  serde_via
    (λ r, match r with
          | mkExporter (mkExporterInfo n ss ct c rn cfg) st o ts tr =>
              cfg ← mapM (M:=option) (λ kv : string * Value, match kv.2 with VString x => Some (kv.1, x) | _ => None end) cfg;
              Some (n, ss, ct, c, rn, cfg, st, o, ts, tr)
          end)
    (λ '(n, ss, ct, c, rn, cfg, st, o, ts, tr),
       mkExporter (mkExporterInfo n ss ct c rn ((λ kv, (kv.1, VString kv.2)) <$> cfg)) st o ts tr).

Lemma version_persistable (r : VersionRecord) : persistable r.
Proof. eapply serde_via_persistable; [done|]. by destruct r. Qed.
Lemma mode_persistable (m : Mode) : persistable m.
Proof. by eapply serde_via_persistable. Qed.
Lemma event_persistable (e : LogEvent) : persistable e.
Proof. eapply serde_via_persistable; [done|]. by destruct e. Qed.
#[export] Hint Resolve version_persistable mode_persistable event_persistable : registry.
