(* ===== verification/Changelog.v ===== *)
(** The change log as exporters use it (store.rs): reading a page of events in
    order, and dropping the events every exporter has consumed. *)
From S2P Require Import Prelude SortedVec RustStr Errors Json Model Context Snapshot Keys Plan Store Durable Transaction MemDb.

Local Open Scope Z_scope.

(** The log with its sequence numbers. *)
Definition numbered (log : list LogEvent) : list (Z * LogEvent) := imap (λ i ev, (Z.of_nat i, ev)) log.

(** The page a reader asks for: the events from [from] that are still there. *)
Definition log_page (floor : nat) (log : list LogEvent) (from : Z) (limit : nat) : list (Z * LogEvent) :=
  take (Nat.max 1 limit) (drop (Nat.max floor (Z.to_nat from)) (numbered log)).

Section read_log.
Context `{!RocksDB DB, !RocksDBLaws DB, !Serde LogEvent}.
Context (st : Store).

(** Big-endian sequence numbers: byte order is numeric order. *)
Lemma log_key_lt (a b : Z) : is_u64 a → is_u64 b →
  klt (key st (to_be_u64 a)) (key st (to_be_u64 b)) ↔ a < b.
Proof.
  unfold is_u64, u64_max. intros Ha Hb. unfold klt, cmp, string_ord, key.
  rewrite string_compare_app_same. unfold to_be_u64. rewrite be_compare by (simpl; lia).
  apply Z.compare_lt_iff.
Qed.

(** Encoded rows of a list of numbered events. *)
Definition log_row (r : string * string) (e : Z * LogEvent) : Prop :=
  r.1 = key st (to_be_u64 e.1) ∧ is_u64 e.1 ∧ log_enc e.2 r.2.

Lemma read_log_loop_take l limit out :
  read_log_loop st l limit out = read_log_loop st (take_while (λ kv, starts_with (st_prefix st) kv.1) l) limit out.
Proof.
  revert out. induction l as [|[k v] l IH]; intros out; [done|]. simpl.
  destruct (starts_with (st_prefix st) k) eqn:E; simpl; [|done]. rewrite E.
  destruct (try_be_u64 _); [|done]. destruct (corrupt _); simpl; [|done].
  case_bool_decide; [done|]. apply IH.
Qed.

Lemma read_log_loop_rows l es limit out : Forall2 log_row l es → (length out < Nat.max 1 limit)%nat →
  read_log_loop st l limit out = Ok (out ++ take (Nat.max 1 limit - length out) es).
Proof.
  intros Hl. revert out. induction Hl as [|[k v] [n ev] l es (Hk & Hn & Henc) Hl IH]; intros out Hlen.
  { simpl. by rewrite take_nil, app_nil_r. }
  simpl in Hk, Hn, Henc. subst k. simpl.
  unfold slice_from, key. rewrite starts_with_app, str_drop_app.
  change (try_be_u64 (to_be_u64 n)) with (be_u64 (to_be_u64 n)). rewrite be_u64_own by done.
  rewrite (proj2 Henc). simpl. rewrite length_app; simpl.
  destruct (Nat.max 1 limit - length out)%nat as [|r] eqn:Er; [lia|]. simpl.
  case_bool_decide as Hlim.
  - assert (r = 0%nat) as -> by lia. by rewrite take_0.
  - rewrite IH by (rewrite length_app; simpl; lia). rewrite <-app_assoc. simpl. do 4 f_equal.
    rewrite length_app; simpl. lia.
Qed.

Lemma numbered_drop_lookup log n i : (drop n (numbered log)) !! i = (λ ev, (Z.of_nat (n + i), ev)) <$> log !! (n + i)%nat.
Proof. unfold numbered. by rewrite lookup_drop, list_lookup_imap. Qed.

Lemma sorted_by_index {A} (R : A → A → Prop) (l : list A) :
  (∀ i j x y, (i < j)%nat → l !! i = Some x → l !! j = Some y → R x y) → StronglySorted R l.
Proof.
  induction l as [|x l IH]; intros Hl; constructor.
  - apply IH. intros i j y z Hij Hy Hz. apply (Hl (S i) (S j)); [lia|done..].
  - apply Forall_lookup. intros i y Hy. apply (Hl 0%nat (S i)); [lia|done..].
Qed.

Lemma small_sorted_ext (l k : list (string * string)) :
  small_sorted l → small_sorted k → (∀ x, x ∈ l ↔ x ∈ k) → l = k.
Proof.
  intros Hl Hk Hext. apply small_map_inj; [done..|]. apply map_eq. intros i.
  apply option_eq. intros x. rewrite !small_lookup by done. apply Hext.
Qed.

Lemma take_while_sorted (f : string * string → bool) l : small_sorted l → small_sorted (take_while f l).
Proof.
  induction 1 as [|x l Hs IH Hall]; simpl; [constructor|]. case_match; [|constructor].
  constructor; [done|]. clear -Hall. induction Hall as [|y l Hy _ IH]; simpl; [constructor|].
  case_match; constructor; done.
Qed.

(** The rows of the log, from some index on, as a sorted list. *)
Lemma log_rows_list m floor log n : log_rows st m floor log → (floor ≤ n)%nat →
  ∃ R, Forall2 log_row R (drop n (numbered log)) ∧ small_sorted R ∧
    ∀ k v, (k, v) ∈ R ↔ m !! (CF_LOG, k) = Some v ∧
      ∃ i, k = key st (to_be_u64 (Z.of_nat i)) ∧ (n ≤ i < length log)%nat.
Proof.
  intros Hlr Hfl.
  assert (∃ R, Forall2 (λ r e, log_row r e ∧ m !! (CF_LOG, r.1) = Some r.2) R (drop n (numbered log))) as (R & HR).
  { assert (Forall (λ e, ∃ r, log_row r e ∧ m !! (CF_LOG, r.1) = Some r.2) (drop n (numbered log))) as HF.
    { apply Forall_lookup. intros i e. rewrite numbered_drop_lookup, fmap_Some. intros (ev & Hev & ->).
      destruct (lr_row _ _ _ _ Hlr (n + i)%nat ev Hev) as (v & Hv & Hm); [lia|].
      exists (key st (to_be_u64 (Z.of_nat (n + i))), v). split; [|done].
      split_and!; [done|by eapply log_index_u64, Hev; apply Hlr|done]. }
    clear -HF. induction HF as [|e es (r & Hr & Hm) _ (R & H1)]; [by exists []|].
    exists (r :: R). by constructor. }
  assert (∀ i r, R !! i = Some r → ∃ ev, log !! (n + i)%nat = Some ev ∧
    r.1 = key st (to_be_u64 (Z.of_nat (n + i))) ∧ m !! (CF_LOG, r.1) = Some r.2) as HRi.
  { intros i r Hr. destruct (Forall2_lookup_l _ _ _ _ _ HR Hr) as (e & He & Hrow & Hm).
    rewrite numbered_drop_lookup, fmap_Some in He. destruct He as (ev & Hev & ->). exists ev.
    by split_and!; [|apply Hrow|]. }
  exists R. split_and!.
  - eapply Forall2_impl; [done|]. naive_solver.
  - apply sorted_by_index. intros i j [k v] [k' v'] Hij Hi Hj.
    destruct (HRi i _ Hi) as (ev & Hev & -> & _), (HRi j _ Hj) as (ev' & Hev' & -> & _).
    apply log_key_lt; [eapply log_index_u64, Hev; apply Hlr|eapply log_index_u64, Hev'; apply Hlr|lia].
  - intros k v. split.
    + intros [i Hi]%list_elem_of_lookup. destruct (HRi i _ Hi) as (ev & Hev & Hk & Hm). split; [done|].
      exists (n + i)%nat. split; [done|]. apply lookup_lt_Some in Hev. lia.
    + intros [Hm (i & -> & Hi)]. assert (∃ ev, log !! i = Some ev) as [ev Hev].
      { apply lookup_lt_is_Some. lia. }
      assert (drop n (numbered log) !! (i - n)%nat = Some (Z.of_nat i, ev)) as He.
      { rewrite numbered_drop_lookup. replace (n + (i - n))%nat with i by lia. by rewrite Hev. }
      destruct (Forall2_lookup_r _ _ _ _ _ HR He) as ([k' v'] & Hr & (Hk & _) & Hm').
      simpl in Hk, Hm'. subst k'. rewrite Hm in Hm'. injection Hm' as <-.
      by eapply list_elem_of_lookup_2.
Qed.

(** The rows an exporter's iterator yields for its container. *)
Lemma log_scan (db : DB) floor log from l :
  log_rows st (rows db) floor log → is_u64 from →
  iterator_cf db CF_LOG (key st (to_be_u64 from)) = Ok l →
  Forall2 log_row (take_while (λ kv, starts_with (st_prefix st) kv.1) l)
    (drop (Nat.max floor (Z.to_nat from)) (numbered log)).
Proof.
  intros Hlr Hfrom Hl. destruct (iterator_cf_law db CF_LOG (key st (to_be_u64 from))) as (l' & Hl' & Hs & Hel).
  rewrite Hl in Hl'. injection Hl' as <-.
  assert (∀ k v, (k, v) ∈ l → kle (st_prefix st) k) as Hge.
  { intros k v [_ Hle]%Hel. etrans; [|done]. apply kle_app. }
  destruct (log_rows_list (rows db) floor log (Nat.max floor (Z.to_nat from)) Hlr ltac:(lia)) as (R & HR & HsR & HelR).
  assert (take_while (λ kv, starts_with (st_prefix st) kv.1) l = R) as ->; [|done].
  apply small_sorted_ext; [by apply take_while_sorted|done|].
  intros [k v]. rewrite elem_of_take_while, HelR, Hel by done. simpl. split.
  - intros [[Hm Hle] [r ->]%starts_with_spec]. split; [done|].
    destruct (lr_only _ _ _ _ Hlr r v Hm) as (i & ev & -> & Hfl & Hi & _). exists i. split; [done|].
    pose proof (log_index_u64 log i ev (lr_len _ _ _ _ Hlr) Hi) as Hu. apply lookup_lt_Some in Hi.
    assert (¬ Z.of_nat i < from); [|lia]. rewrite <-log_key_lt by done. intros Hlt.
    apply (klt_irrefl (key st (to_be_u64 from))). by eapply kle_klt_trans.
  - intros [Hm (i & -> & Hi)]. split; [split; [done|]|apply starts_with_app].
    assert (is_u64 (Z.of_nat i)) as Hu by (pose proof (lr_len _ _ _ _ Hlr); unfold is_u64 in *; lia).
    apply kle_lt_eq. destruct (decide (from = Z.of_nat i)) as [->|]; [by right|left].
    apply log_key_lt; [done..|]. unfold is_u64 in Hfrom. lia.
Qed.

Lemma read_log_page (db : DB) floor log from limit :
  log_rows st (rows db) floor log → is_u64 from →
  read_log st db from limit = Ok (log_page floor log from limit).
Proof.
  intros Hlr Hfrom. unfold read_log.
  destruct (iterator_cf_law db CF_LOG (key st (to_be_u64 from))) as (l & Hl & _). rewrite Hl. simpl.
  rewrite read_log_loop_take. rewrite (read_log_loop_rows _ _ _ [] (log_scan db floor log from l Hlr Hfrom Hl)) by (simpl; lia).
  simpl. by rewrite Nat.sub_0_r.
Qed.

(** Dropping the rows below [before]. *)
Lemma log_rows_prune m floor log before : log_rows st m floor log → (floor ≤ before ≤ length log)%nat →
  log_rows st (apply_batch_op m (DeleteRangeCf CF_LOG (key st (to_be_u64 0)) (key st (to_be_u64 (Z.of_nat before)))))
    before log.
Proof.
  intros Hlr Hb. pose proof (lr_len _ _ _ _ Hlr) as Hlen.
  assert (∀ i, (i ≤ length log)%nat → is_u64 (Z.of_nat i)) as Hu64 by (unfold is_u64 in *; intros; lia).
  split; [done|..].
  - intros i ev Hi Hle. destruct (lr_row _ _ _ _ Hlr i ev Hi) as (v & Hv & Hm); [lia|].
    exists v. split; [done|]. simpl. apply map_lookup_filter_Some. split; [done|].
    intros (_ & _ & Hlt). apply lookup_lt_Some in Hi. apply log_key_lt in Hlt; [lia|apply Hu64; lia..].
  - intros k v. simpl. intros [Hm Hn]%map_lookup_filter_Some.
    destruct (lr_only _ _ _ _ Hlr k v Hm) as (i & ev & -> & Hfl & Hi & Henc).
    exists i, ev. split_and!; [done| |done|done].
    apply lookup_lt_Some in Hi. destruct (decide (before ≤ i)%nat) as [|Hlt]; [done|]. destruct Hn.
    split_and!; [done| |apply log_key_lt; [apply Hu64; lia..|lia]].
    apply kle_lt_eq. destruct i as [|i]; [by right|left].
    apply log_key_lt; [apply (Hu64 0%nat); lia|apply Hu64; lia|lia].
Qed.
End read_log.

Section prune.
Context `{!RocksDB DB, !RocksDBLaws DB}.
Context `{!Serde VersionRecord, !Serde ConfigRecord.t, !Serde Mode, !Serde LogEvent}.
Implicit Types db : DB.

Lemma prune_durable st m s floor log before :
  durable st m s floor log → (floor ≤ before ≤ length log)%nat →
  durable st (apply_batch m
    [DeleteRangeCf CF_LOG (key st (to_be_u64 0)) (key st (to_be_u64 (Z.of_nat before)));
     PutCf CF_META (key st "log_floor") (to_be_u64 (Z.of_nat before))]) s before log.
Proof.
  intros [Hwf Hcells Hlr [Hf Hfl] [Hs Hseq]] Hb. simpl.
  set (m1 := filter _ m).
  assert (∀ cf k, cf ≠ CF_LOG → m1 !! (cf, k) = m !! (cf, k)) as Hm1.
  { intros cf k Hcf. subst m1. destruct (m !! (cf, k)) as [v|] eqn:E.
    - apply map_lookup_filter_Some. split; [done|]. naive_solver.
    - apply map_lookup_filter_None. by left. }
  split; [done|..].
  - apply (holds_frame st m); [done|]. intros cf k Ht Hk.
    rewrite lookup_insert_ne.
    + apply Hm1. intros ->. unfold is_table in Ht. rewrite !elem_of_cons, elem_of_nil in Ht. naive_solver.
    + intros [= <- <-%key_inj]. apply Hk. split; [done|]. unfold other_meta. set_solver.
  - apply (log_rows_frame st m1); [by apply (log_rows_prune st m floor)|].
    intros k. apply lookup_insert_ne. by intros [=].
  - split; [|lia]. unfold counter_row. rewrite lookup_insert_eq. apply be_u64_own.
    pose proof (lr_len _ _ _ _ Hlr). unfold is_u64 in *. lia.
  - split; [|done]. unfold counter_row. rewrite lookup_insert_ne, Hm1; [done|done|].
    intros [= Hk%key_inj]. discriminate Hk.
Qed.

(** Reading the change log returns exactly the committed events that
    are still kept, in sequence order from the requested number, at most the
    page size (and at least one when there is one), and nothing of other
    containers. *)
Theorem log_read_exact st db s floor log (from : Z) (limit : nat) :
  durable st (rows db) s floor log → is_u64 from →
  read_log st db from limit = Ok (log_page floor log from limit).
Proof. intros Hd Hfrom. apply read_log_page; [apply Hd|done]. Qed.

Lemma prune_log_durable st db s floor log (before : nat) db' r :
  durable st (rows db) s floor log → (before ≤ length log)%nat →
  prune_log st db (Z.of_nat before) = (db', r) →
  match r with
  | Ok _ => durable st (rows db') s (Nat.max floor before) log
  | Err _ => rows db' = rows db
  end.
Proof.
  intros Hd Hb. pose proof (du_floor _ _ _ _ _ Hd) as [Hf Hfl].
  unfold prune_log, log_floor. rewrite (stored_counter st db "log_floor" _ Hf).
  case_bool_decide as Hle.
  - intros [= <- <-]. by replace (Nat.max floor before) with floor by lia.
  - unfold write. destruct (write_opt db _) as [db1 [u|e]] eqn:Hwr;
      pose proof (write_opt_law _ _ _ _ Hwr) as Hrows; intros [= <- <-]; [|done].
    rewrite Hrows. replace (Nat.max floor before) with before by lia.
    apply (prune_durable st (rows db) s floor); [done|lia].
Qed.

(** Pruning never loses an event at or above the bound it was given:
    afterwards the same log is on disk with the floor raised to the bound
    (never lowered), the snapshot's rows are untouched, and a failed write
    changes nothing. *)
Theorem prune_keeps_tail st db s floor log (before : nat) db' r :
  durable st (rows db) s floor log → (before ≤ length log)%nat →
  prune_log st db (Z.of_nat before) = (db', r) →
  match r with
  | Ok _ => durable st (rows db') s (Nat.max floor before) log
  | Err _ => rows db' = rows db
  end.
Proof. apply prune_log_durable. Qed.
End prune.

(** * Witnesses *)

Definition demo_store : Store := container (TenantId.mk "default").
Definition demo_events : list LogEvent := [mkEvent "." "orders" 1 1 Register; mkEvent "." "orders" 2 2 Register].
Definition demo_db : MemDB := (commit_plan demo_store (mkMem ∅ None) ModeGate.token [] demo_events).1.
Definition demo_snap : Snapshot := Snap.set_log_seq 2 empty_snap.

Lemma demo_durable : durable demo_store (rows demo_db) demo_snap 0 demo_events.
Proof.
  apply (commit_plan_durable demo_store (mkMem ∅ None) empty_snap 0 [] ModeGate.token [] demo_events demo_db
    (Ok [OpSetLogSeq 2])).
  - by apply durable_empty.
  - constructor.
  - repeat constructor; auto with registry.
  - done.
  - vm_compute. split; discriminate.
  - vm_compute. reflexivity.
Qed.

Lemma log_read_exact_witness :
  is_u64 1 ∧ read_log demo_store demo_db 1 10 = Ok [(1, mkEvent "." "orders" 2 2 Register)].
Proof.
  split; [vm_compute; split; discriminate|].
  apply (log_read_exact demo_store demo_db demo_snap 0 demo_events 1 10 demo_durable).
  vm_compute; split; discriminate.
Defined.

Lemma prune_keeps_tail_witness :
  ∃ db', prune_log demo_store demo_db 1 = (db', Ok ()) ∧
         durable demo_store (rows db') demo_snap 1 demo_events.
Proof.
  exists (prune_log demo_store demo_db 1).1. split; [vm_compute; reflexivity|].
  apply (prune_keeps_tail demo_store demo_db demo_snap 0 demo_events 1 _ (Ok ()) demo_durable).
  - vm_compute. lia.
  - vm_compute. reflexivity.
Defined.
