(* ===== verification/Migration.v ===== *)
(** The on-disk format migration (store.rs, [migrate_to_current_format]): every
    row of a directory written before host containers existed moves into the
    [default] container. It writes in batches, any of which may fail or be cut
    off by a crash, and is then simply run again. *)
From S2P Require Import Prelude SortedVec RustStr Errors Json Model Context Snapshot Keys Plan Store Durable Transaction MemDb.

Local Open Scope Z_scope.

Section prefix.
Context (prefix : string).

(** A row of the store's own. *)
Definition reserved (cf k : string) : bool := bool_decide (cf = CF_META) && starts_with (str1 RESERVED) k.

(** Where the rows of an old directory belong. *)
Definition migrated (m : Rows) (cf k : string) : option string :=
if reserved cf k then m !! (cf, k) else
match strip_prefix prefix k with
| Some k0 => if reserved cf k0 then None else m !! (cf, k0)
| None => None
end.

(** The same while some rows have moved already. *)
Definition settled (m : Rows) (cf k : string) : option string :=
if reserved cf k then m !! (cf, k) else
match strip_prefix prefix k with
| Some k0 => match m !! (cf, k) with
             | Some v => Some v
             | None => if stays cf prefix k0 then None else m !! (cf, k0)
             end
| None => None
end.

(** No row waits to move onto another. *)
Definition no_clash (m : Rows) : Prop :=
∀ cf k v, m !! (cf, k) = Some v → stays cf prefix k = false → m !! (cf, prefix +:+ k) = None.

Context (Hfirst : ∃ c p, prefix = String c p ∧ c ≠ NUL).

Lemma stays_prefixed cf k : stays cf prefix (prefix +:+ k) = true.
Proof. unfold stays. rewrite starts_with_app. apply orb_true_r. Qed.
Lemma stays_reserved cf k : reserved cf k = true → stays cf prefix k = true.
Proof. unfold stays, reserved. by intros ->. Qed.
Lemma not_stays cf k : stays cf prefix k = false →
reserved cf k = false ∧ strip_prefix prefix k = None.
Proof.
unfold stays. intros [Hr Hp]%orb_false_iff. split; [done|].
unfold starts_with in Hp. rewrite bool_decide_eq_false in Hp. by apply eq_None_not_Some.
Qed.
Lemma prefixed_not_reserved cf k : reserved cf (prefix +:+ k) = false.
Proof using Hfirst.
unfold reserved. destruct Hfirst as (c & p & -> & Hc). unfold str1.
change (String c p +:+ k) with (String c (p +:+ k)). rewrite starts_with_cons.
rewrite (bool_decide_false (RESERVED = c)) by (intros <-; by apply Hc). apply andb_false_r.
Qed.
Lemma prefixed_ne k : k ≠ prefix +:+ k.
Proof using Hfirst. intros Heq. apply (f_equal String.length) in Heq. rewrite str_length_app in Heq.
destruct Hfirst as (c & p & -> & Hc). simpl in Heq. lia. Qed.

(** Moving one row. *)
Definition move (cf k v : string) : WriteBatch := [PutCf cf (prefix +:+ k) v; DeleteCf cf k].

Lemma move_lookup m cf k v x : apply_batch m (move cf k v) !! x =
if decide (x = (cf, k)) then None
else if decide (x = (cf, prefix +:+ k)) then Some v else m !! x.
Proof.
simpl. destruct (decide (x = (cf, k))) as [->|]; [by rewrite lookup_delete_eq|].
rewrite lookup_delete_ne by done.
destruct (decide _) as [->|]; [by rewrite lookup_insert_eq|by rewrite lookup_insert_ne].
Qed.

Lemma move_settled m cf k v : no_clash m → m !! (cf, k) = Some v → stays cf prefix k = false →
no_clash (apply_batch m (move cf k v)) ∧
∀ cf' k', settled (apply_batch m (move cf k v)) cf' k' = settled m cf' k'.
Proof.
intros Hnc Hm Hst. pose proof (not_stays cf k Hst) as [Hres Hstrip]. split.
- intros cf' k' v'. rewrite !move_lookup. intros Hk' Hst'.
  destruct (decide ((cf', k') = (cf, k))) as [|Hne]; [done|].
  destruct (decide ((cf', k') = _)) as [[= -> ->]|Hne']; [by rewrite stays_prefixed in Hst'|].
  destruct (decide ((cf', _) = (cf, k))) as [[= -> Heq]|]; [done|].
  rewrite decide_False; [by eapply Hnc|]. intros [= -> ?%str_app_inj_l]. naive_solver.
- intros cf' k'. unfold settled. rewrite !move_lookup.
  destruct (reserved cf' k') eqn:Hr.
  { rewrite !decide_False; [done| |].
    - intros [= -> ->]. by rewrite prefixed_not_reserved in Hr.
    - intros [= -> ->]. congruence. }
  destruct (strip_prefix prefix k') as [k0|] eqn:Hs; [|done].
  apply strip_prefix_Some in Hs as ->. rewrite !move_lookup.
  rewrite (decide_False (P := (cf', prefix +:+ k0) = (cf, k))).
  2: { intros [= -> <-]. by rewrite strip_prefix_app in Hstrip. }
  destruct (decide (_ = _)) as [[= -> ->%str_app_inj_l]|Hne].
  + rewrite (Hnc cf k v Hm Hst), Hst. by rewrite Hm.
  + destruct (m !! (cf', _)); [done|]. destruct (stays cf' prefix k0) eqn:Hst0; [done|].
    rewrite decide_False by naive_solver. rewrite decide_False; [done|].
    intros [= -> ->]. by rewrite stays_prefixed in Hst0.
Qed.

Section migrate.
Context `{!RocksDB DB, !RocksDBLaws DB}.
Implicit Types db : DB.

(** Nothing was lost or moved twice on the way from [m0] to [m]. *)
Record on_way (m0 m : Rows) : Prop := {
ow_clash : no_clash m;
ow_settled : ∀ cf k, settled m cf k = settled m0 cf k;
ow_waiting : ∀ cf k, stays cf prefix k = false → m0 !! (cf, k) = None → m !! (cf, k) = None;
}.

Lemma on_way_move m0 m cf k v : on_way m0 m → m !! (cf, k) = Some v → stays cf prefix k = false →
on_way m0 (apply_batch m (move cf k v)).
Proof.
intros [H1 H2 H3] Hm Hst. destruct (move_settled m cf k v H1 Hm Hst) as [Hc Hs].
split; [done|..].
- intros cf' k'. by rewrite Hs.
- intros cf' k' Hst' Hn. rewrite move_lookup. case_decide; [done|].
  rewrite decide_False; [auto|]. intros [= -> ->]. by rewrite stays_prefixed in Hst'.
Qed.

Lemma write_rows db b : (write db b).2 = Ok () ∧ rows (write db b).1 = apply_batch (rows db) b ∨
(∃ e, (write db b).2 = Err e) ∧ rows (write db b).1 = rows db.
Proof.
unfold write. destruct (write_opt db b) as [db1 [[]|e]] eqn:E; pose proof (write_opt_law _ _ _ _ E) as Hr; simpl.
- by left.
- right. by split; [eexists|].
Qed.

Definition waits (cf : string) (kv : string * string) : Prop := stays cf prefix kv.1 = false.
#[local] Instance waits_dec cf kv : Decision (waits cf kv).
Proof. unfold waits. apply _. Defined.
Definition moves (cf : string) (l : list (string * string)) : WriteBatch :=
concat ((λ kv, move cf kv.1 kv.2) <$> filter (waits cf) l).

(** The loop writes the moves of its rows, or of a first part of them when a
  write fails. *)
Lemma migrate_rows_moves cf l batch n db db' r :
(n = 0 → batch = []) → 0 ≤ n → migrate_rows cf prefix l batch n db = (db', r) →
(r = Ok () ∧ rows db' = apply_batch (rows db) (batch ++ moves cf l)) ∨
((∃ e, r = Err e) ∧
   (rows db' = rows db ∨ ∃ l1 l2, l = l1 ++ l2 ∧ rows db' = apply_batch (rows db) (batch ++ moves cf l1))).
Proof.
revert batch n db. induction l as [|[k v] l IH]; intros batch n db Hn0 Hn; cbn [migrate_rows].
- unfold moves. simpl. rewrite app_nil_r. case_bool_decide.
  + destruct (write_rows db batch) as [[H1 H2]|[[e H1] H2]]; destruct (write db batch) as [db1 r1];
      simpl in *; intros [= <- <-]; [by left|right]; eauto.
  + intros [= <- <-]. left. rewrite Hn0 by lia. done.
- assert (∀ l, moves cf ((k, v) :: l) = (if stays cf prefix k then [] else move cf k v) ++ moves cf l) as Hmoves.
  { intros l'. unfold moves, waits. destruct (stays cf prefix k) eqn:E.
    - by rewrite filter_cons_False by (simpl; congruence).
    - by rewrite filter_cons_True by done. }
  rewrite Hmoves. destruct (stays cf prefix k) eqn:Est.
  { intros Heq. destruct (IH batch n db Hn0 Hn Heq) as [|[? [|(l1 & l2 & -> & ?)]]]; [by left|by right; auto|].
    right. split; [done|]. right. exists ((k, v) :: l1), l2. by rewrite Hmoves. }
  change [PutCf cf (prefix +:+ k) v; DeleteCf cf k] with (move cf k v).
  case_bool_decide.
  + destruct (write_rows db (batch ++ move cf k v)) as [[H1 H2]|[[e H1] H2]];
      destruct (write db (batch ++ move cf k v)) as [db1 r1]; simpl in H1, H2; subst r1.
    * intros Heq. destruct (IH [] 0 db1 ltac:(done) ltac:(lia) Heq) as [[-> Hr]|[He [Hr|(l1 & l2 & -> & Hr)]]];
        rewrite Hr, H2; simpl.
      -- left. rewrite <-apply_batch_app, <-app_assoc. done.
      -- right. split; [done|]. right. exists [(k, v)], l. rewrite Hmoves.
         change (moves cf []) with ([] : WriteBatch). by rewrite app_nil_r.
      -- right. split; [done|]. right. exists ((k, v) :: l1), l2. split; [done|].
         rewrite Hmoves, <-apply_batch_app, <-app_assoc. done.
    * intros [= <- <-]. right. eauto.
  + intros Heq. destruct (IH (batch ++ move cf k v) (n + 1) db ltac:(lia) ltac:(lia) Heq)
      as [[-> Hr]|[He [Hr|(l1 & l2 & -> & Hr)]]].
    * left. by rewrite Hr, <-app_assoc.
    * right. auto.
    * right. split; [done|]. right. exists ((k, v) :: l1), l2. split; [done|]. by rewrite Hmoves, Hr, <-app_assoc.
Qed.

Lemma moves_absent m cf l cf' k : stays cf' prefix k = false → m !! (cf', k) = None →
apply_batch m (moves cf l) !! (cf', k) = None.
Proof.
unfold moves. intros Hst. revert m. induction (filter (waits cf) l) as [|[k' v'] l' IH]; intros m Hm; [done|].
rewrite fmap_cons. cbn [concat]. rewrite apply_batch_app. apply IH. rewrite move_lookup.
case_decide; [done|]. rewrite decide_False; [done|]. intros [= -> ->]. by rewrite stays_prefixed in Hst.
Qed.

(** Moving waiting rows with their own values keeps everything on the way. *)
Lemma moves_on_way m0 m cf l : on_way m0 m → NoDup l.*1 →
(∀ k v, (k, v) ∈ l → m !! (cf, k) = Some v) →
on_way m0 (apply_batch m (moves cf l)) ∧
(∀ k, k ∈ l.*1 → stays cf prefix k = false → apply_batch m (moves cf l) !! (cf, k) = None).
Proof.
revert m. induction l as [|[k v] l IH]; intros m Hm Hnd Hl; [by split; [|intros ? ?%elem_of_nil]|].
apply NoDup_cons in Hnd as [Hni Hnd]. unfold moves in *. destruct (stays cf prefix k) eqn:Est.
- rewrite filter_cons_False by (unfold waits; simpl; congruence).
  destruct (IH m) as [H1 H2]; [done..|intros; apply Hl; by right|]. split; [done|].
  intros k' [->|]%elem_of_cons; [by simpl; rewrite Est|auto].
- rewrite filter_cons_True by done. rewrite fmap_cons. cbn [concat]. rewrite apply_batch_app. cbn [fst snd].
  assert (m !! (cf, k) = Some v) as Hk by (apply Hl; left).
  destruct (IH (apply_batch m (move cf k v))) as [H1 H2].
  + by apply on_way_move.
  + done.
  + intros k' v' Hin. rewrite move_lookup. rewrite decide_False.
    * rewrite decide_False; [apply Hl; by right|]. intros [= ->].
      pose proof (ow_clash _ _ Hm cf k v Hk Est) as Hn. rewrite (Hl _ v') in Hn; [done|by right].
    * intros [= ->]. apply Hni, list_elem_of_fmap. by exists (k, v').
  + split; [done|]. intros k' [->|Hin]%elem_of_cons Hst'; [|auto].
    cbn [fst] in *. apply (moves_absent _ cf l); [done|]. by rewrite move_lookup, decide_True.
Qed.

(** The rows an iterator yields, as the loop sees them. *)
Lemma migrate_rows_on_way m0 cf l db db' r :
on_way m0 (rows db) → iterator_cf db cf "" = Ok l → migrate_rows cf prefix l [] 0 db = (db', r) →
on_way m0 (rows db') ∧
(r = Ok () → ∀ k, stays cf prefix k = false → rows db' !! (cf, k) = None) ∧
(∀ cf' k, stays cf' prefix k = false → rows db !! (cf', k) = None → rows db' !! (cf', k) = None).
Proof.
intros Hw Hl Hm. destruct (iterator_cf_law db cf "") as (l' & Hl' & Hs & Hel).
rewrite Hl in Hl'. injection Hl' as <-.
assert (∀ k, kle "" k) as Hle by (intros []; done).
pose proof (small_sorted_NoDup l Hs) as Hnd.
assert (∀ k v, (k, v) ∈ l → rows db !! (cf, k) = Some v) as Hin by (intros; by apply Hel).
destruct (migrate_rows_moves cf l [] 0 db db' r ltac:(done) ltac:(lia) Hm)
  as [[-> Hr]|[[e ->] [Hr|(l1 & l2 & -> & Hr)]]]; rewrite Hr; simpl.
- destruct (moves_on_way m0 (rows db) cf l Hw Hnd Hin) as [H1 H2]. split_and!; [done| |].
  + intros _ k Hst. destruct (rows db !! (cf, k)) as [v|] eqn:E; [|by apply moves_absent].
    apply H2; [|done]. apply list_elem_of_fmap. exists (k, v). split; [done|]. by apply Hel.
  + intros. by apply moves_absent.
- split_and!; done.
- rewrite fmap_app in Hnd. apply NoDup_app in Hnd as (Hnd & _).
  destruct (moves_on_way m0 (rows db) cf l1 Hw Hnd) as [H1 H2].
  { intros k v Hkv. apply Hin, elem_of_app. by left. }
  split_and!; [done|done|]. intros. by apply moves_absent.
Qed.

Lemma migrate_cfs_on_way m0 cfs db db' r :
on_way m0 (rows db) → migrate_cfs prefix cfs db = (db', r) →
on_way m0 (rows db') ∧
(r = Ok () → ∀ cf k, cf ∈ cfs → stays cf prefix k = false → rows db' !! (cf, k) = None) ∧
(∀ cf k, stays cf prefix k = false → rows db !! (cf, k) = None → rows db' !! (cf, k) = None).
Proof.
revert db. induction cfs as [|cf cfs IH]; intros db Hw; cbn [migrate_cfs].
{ intros [= <- <-]. split_and!; [done| |done]. intros _ cf k []%elem_of_nil. }
destruct (iterator_cf_law db cf "") as (l & Hl & _). rewrite Hl. cbn [backend map_err].
destruct (migrate_rows cf prefix l [] 0 db) as [db1 r1] eqn:Hm.
destruct (migrate_rows_on_way m0 cf l db db1 r1 Hw Hl Hm) as (Hw1 & Hok1 & Hab1).
destruct r1 as [[]|e]; [|intros [= <- <-]; split_and!; done].
intros Heq. destruct (IH db1 Hw1 Heq) as (Hw2 & Hok2 & Hab2). split_and!; [done| |].
- intros Hr cf' k [->|Hin]%elem_of_cons Hst; [|by apply Hok2]. apply Hab2; [done|]. by apply Hok1.
- intros cf' k Hst Hn. auto.
Qed.

(** When nothing waits any more, every row is where it belongs. *)
Lemma settled_done m0 m cf k : on_way m0 m →
(∀ k, m0 !! (cf, prefix +:+ k) = None) →
(∀ k, stays cf prefix k = false → m !! (cf, k) = None) →
m !! (cf, k) = migrated m0 cf k.
Proof.
intros [H1 H2 _] Hold Hdone. specialize (H2 cf k). unfold settled, migrated in *.
destruct (reserved cf k) eqn:Hr; [done|].
destruct (strip_prefix prefix k) as [k0|] eqn:Hs.
- apply strip_prefix_Some in Hs as ->. rewrite (Hold k0) in H2.
  destruct (stays cf prefix k0) eqn:Hst.
  + assert (m0 !! (cf, k0) = None ∨ reserved cf k0 = true) as Hk0.
    { unfold stays in Hst. apply orb_true_iff in Hst as [|Hp]; [by right|left].
      apply starts_with_spec in Hp as [r ->]. apply Hold. }
    destruct (m !! (cf, prefix +:+ k0)); [done|].
    destruct Hk0 as [Hk0|Hk0]; rewrite Hk0; [by destruct (reserved cf k0)|done].
  + rewrite (Hdone k0 Hst) in H2. pose proof (not_stays cf k0 Hst) as [-> _].
    by destruct (m !! (cf, prefix +:+ k0)).
- apply Hdone. unfold stays. fold (reserved cf k). rewrite Hr. simpl.
  unfold starts_with. rewrite bool_decide_eq_false. by rewrite Hs; intros [].
Qed.
End migrate.
End prefix.

(** * The migration *)

Section migration.
Context `{!RocksDB DB, !RocksDBLaws DB}.
Implicit Types db : DB.

Definition default_prefix : string := TenantId.key_prefix TenantId.default_tenant.

Lemma default_prefix_first : ∃ c p, default_prefix = String c p ∧ c ≠ NUL.
Proof. by eexists _, _. Qed.

(** A directory written before host containers existed. *)
Record old_format (m : Rows) : Prop := {
  of_version : m !! (CF_META, FORMAT_VERSION_KEY) = None;
  of_keys : ∀ cf k, m !! (cf, default_prefix +:+ k) = None;
}.

(** Runs that failed, each followed by a restart on the rows it left. *)
Inductive failed_runs : DB → DB → Prop :=
| no_run db : failed_runs db db
| failed_run db db1 e db2 db3 :
    migrate_to_current_format db = (db1, Err e) → rows db2 = rows db1 → failed_runs db2 db3 →
    failed_runs db db3.

Lemma old_on_way m : old_format m → on_way default_prefix m m.
Proof. intros [Hv Hk]. split; [|done|done]. intros cf k v _ _. apply Hk. Qed.

Lemma on_way_version m0 m : old_format m0 → on_way default_prefix m0 m → m !! (CF_META, FORMAT_VERSION_KEY) = None.
Proof.
  intros Hof Hw. pose proof (ow_settled _ _ _ Hw CF_META FORMAT_VERSION_KEY) as Hs.
  unfold settled in Hs. change (reserved CF_META FORMAT_VERSION_KEY) with true in Hs. simpl in Hs.
  rewrite Hs. apply Hof.
Qed.

Definition format_rows : WriteBatch :=
  [PutCf CF_META FORMAT_VERSION_KEY (to_be_u32 FORMAT_VERSION);
   PutCf CF_META (TENANT_KEY_PREFIX +:+ TenantId.as_str TenantId.default_tenant) ""].

(** One run from a state on the way: it stays on the way, or it finishes. *)
Lemma migrate_run m0 db db' r : old_format m0 → on_way default_prefix m0 (rows db) →
  migrate_to_current_format db = (db', r) →
  (∃ e, r = Err e) ∧ on_way default_prefix m0 (rows db') ∨
  r = Ok () ∧ ∃ m, on_way default_prefix m0 m ∧ rows db' = apply_batch m format_rows ∧
    ∀ cf k, cf ∈ ALL_CFS → stays cf default_prefix k = false → m !! (cf, k) = None.
Proof.
  intros Hof Hw. unfold migrate_to_current_format, format_version. rewrite get_cf_law.
  rewrite (on_way_version m0 (rows db)) by done. cbn [backend map_err api mbind result_bind].
  rewrite decide_False by done. cbv zeta. fold default_prefix.
  destruct (migrate_cfs default_prefix ALL_CFS db) as [db1 r1] eqn:Hm.
  destruct (migrate_cfs_on_way _ default_prefix_first m0 ALL_CFS db db1 r1 Hw Hm) as (Hw1 & Hok & _).
  destruct r1 as [[]|e]; [|intros [= <- <-]; left; eauto].
  destruct (write_rows db1 format_rows) as [[H1 H2]|[[e H1] H2]]; unfold format_rows in *;
    destruct (write db1 _) as [db2 r2]; simpl in H1, H2; subst r2; intros [= <- <-].
  - right. split; [done|]. exists (rows db1). split_and!; [done..|]. intros; by apply Hok.
  - left. split; [eauto|]. by rewrite H2.
Qed.

Lemma failed_runs_on_way m0 dba dbb : old_format m0 → failed_runs dba dbb →
  on_way default_prefix m0 (rows dba) → on_way default_prefix m0 (rows dbb).
Proof.
  intros Hof. induction 1 as [|db db1 e db2 db3 Hrun Heq _ IH]; [done|]. intros Hw. apply IH. rewrite Heq.
  destruct (migrate_run m0 db db1 _ Hof Hw Hrun) as [[_ ?]|[? _]]; done.
Qed.

(** (C36) The format migration survives interruption. Start from an old
    directory, let any number of runs fail at any write, then let one
    finish: every row ends up under the [default] container with its value,
    the store's own rows stay, nothing else is left, and the directory is
    marked as current. *)
Theorem migration_crash_safe (db db1 db2 : DB) :
  old_format (rows db) → failed_runs db db1 → migrate_to_current_format db1 = (db2, Ok ()) →
  (∀ cf k, cf ∈ ALL_CFS → (cf, k) ≠ (CF_META, FORMAT_VERSION_KEY) →
     (cf, k) ≠ (CF_META, TENANT_KEY_PREFIX +:+ "default") →
     rows db2 !! (cf, k) = migrated default_prefix (rows db) cf k) ∧
  migrate_to_current_format db2 = (db2, Ok ()).
Proof.
  intros Hof Hruns Hlast.
  assert (on_way default_prefix (rows db) (rows db1)) as Hw1 by (by eapply failed_runs_on_way, old_on_way).
  destruct (migrate_run (rows db) db1 db2 _ Hof Hw1 Hlast) as [[[e ?] _]|(_ & m & Hw & Hrows & Hdone)]; [done|].
  split.
  - intros cf k Hcf H1 H2. rewrite Hrows. cbn [apply_batch foldl apply_batch_op format_rows].
    rewrite !lookup_insert_ne by (intros Heq; first [by apply H1|by apply H2]).
    apply settled_done; [done| |].
    + intros k'. apply Hof.
    + intros k' Hst. by apply Hdone.
  - unfold migrate_to_current_format, format_version. rewrite get_cf_law, Hrows. simpl.
    rewrite lookup_insert_ne, lookup_insert_eq by done. simpl. done.
Qed.
End migration.

(** An old directory of two rows, and a disk that fails at the third write. *)
Lemma migration_crash_safe_witness :
  let m : Rows := {[(CF_VERSIONS, version_key "." "orders" 1) := "v"; (CF_LOG, to_be_u64 0) := "e"]} in
  let db := mkMem m (Some 1%nat) in
  ∃ db1 db2 : MemDB, failed_runs db db1 ∧ rows db1 ≠ m ∧
    migrate_to_current_format db1 = (db2, Ok ()) ∧
    rows db2 !! (CF_LOG, default_prefix +:+ to_be_u64 0) = Some "e" ∧
    (∀ cf k, cf ∈ ALL_CFS → (cf, k) ≠ (CF_META, FORMAT_VERSION_KEY) →
       (cf, k) ≠ (CF_META, TENANT_KEY_PREFIX +:+ "default") →
       rows db2 !! (cf, k) = migrated default_prefix (rows db) cf k) ∧
    migrate_to_current_format db2 = (db2, Ok ()).
Proof.
  intros m db. set (dba := (migrate_to_current_format db).1). set (db1 := mkMem (mem_rows dba) None).
  exists db1, (migrate_to_current_format db1).1.
  assert (failed_runs db db1) as Hruns.
  { eapply (failed_run db dba _ db1); [vm_compute; reflexivity|done|apply no_run]. }
  split; [done|]. split.
  { intros Heq. apply (f_equal (lookup (CF_VERSIONS, version_key "." "orders" 1))) in Heq.
    vm_compute in Heq. discriminate. }
  split; [vm_compute; reflexivity|]. split; [vm_compute; reflexivity|].
  apply (migration_crash_safe db db1 (migrate_to_current_format db1).1); [|done|vm_compute; reflexivity].
  split; [vm_compute; reflexivity|]. intros cf k. subst m db. simpl.
  rewrite lookup_insert_ne, lookup_singleton_ne; [done|..]; by intros [=].
Defined.
