(* ===== verification/Recovery.v ===== *)
(** What survives a restart, and what one container can see of another. *)
From S2P Require Import Prelude SortedVec RustStr Errors Json Model Context Snapshot Keys Plan Store Durable Transaction MemDb Changelog.

Local Open Scope Z_scope.

Section recovery.
Context `{!RocksDB DB, !RocksDBLaws DB}.
Context `{!Serde SchemaRecord, !Serde VersionRecord, !Serde ConfigRecord.t, !Serde Mode,
          !Serde LogEvent, !Serde ExporterRecord}.
Implicit Types db : DB.

(** Every query of the read model answers the same. *)
Definition same_answers (s s' : Snapshot) : Prop :=
  (∀ ctx subj, Snap.list_versions s ctx subj = Snap.list_versions s' ctx subj) ∧
  (∀ ctx subj v, Snap.get_version s ctx subj v = Snap.get_version s' ctx subj v) ∧
  (∀ ctx id, Snap.id_usages s ctx id = Snap.id_usages s' ctx id) ∧
  (∀ ctx subj v, Snap.referenced_by s ctx subj v = Snap.referenced_by s' ctx subj v) ∧
  (∀ ctx fp, Snap.id_for_fingerprint s ctx fp = Snap.id_for_fingerprint s' ctx fp) ∧
  (∀ ctx, Snap.next_id s ctx = Snap.next_id s' ctx) ∧
  Snap.list_contexts s = Snap.list_contexts s' ∧
  (∀ scope, Snap.get_config s scope = Snap.get_config s' scope) ∧
  (∀ scope, Snap.get_mode s scope = Snap.get_mode s' scope) ∧
  log_seq s = log_seq s'.

Lemma equiv_same_answers s s' : all_wf s → all_wf s' → snap_equiv s s' → same_answers s s'.
Proof.
  intros Hwf Hwf' Heq. split_and!; intros; try (by apply Heq).
  - by apply equiv_list_versions.
  - by apply equiv_get_version.
  - by apply equiv_id_usages.
  - by apply equiv_referenced_by.
  - by apply equiv_fingerprint.
  - by apply equiv_next_id.
  - unfold Snap.list_contexts. by rewrite (equiv_known s s' Heq).
  - unfold Snap.get_config. by rewrite (equiv_config s s' Heq).
  - unfold Snap.get_mode. by rewrite (equiv_mode s s' Heq).
Qed.

(** Restart equivalence. Commit any plan whose names and records can be
    stored and whose operations fit the snapshot: if the commit succeeds, a
    restart loads a snapshot that answers every query like the one the
    server publishes; if it fails, a restart still answers like the snapshot
    before it. *)
Theorem commit_reload st db s floor log a ws evs db' r :
  durable st (rows db) s floor log → Forall good_write ws → Forall persistable evs →
  ops_ok s (plan_ops ws) → is_u64 (Z.of_nat (length log) + Z.of_nat (length evs)) →
  commit_plan st db a ws evs = (db', r) →
  ∃ s', load_snapshot st db' = Ok s' ∧
    same_answers s' match r with Ok ops => Snap.apply_all s ops | Err _ => s end.
Proof.
  intros Hd Hws Hevs Hok Hlen Hc.
  pose proof (commit_plan_durable st db s floor log a ws evs db' r Hd Hws Hevs Hok Hlen Hc) as Hres.
  assert (∃ floor log, durable st (rows db') match r with Ok ops => Snap.apply_all s ops | Err _ => s end floor log)
    as (floor' & log' & Hd').
  { destruct r as [ops|e]; [destruct Hres; eauto|]. destruct Hres as [-> _]. eauto. }
  destruct (durable_load st db' _ _ _ Hd') as (s' & Hl & Heq & Hwf'). exists s'. split; [done|].
  apply equiv_same_answers; [done| |done]. intros ctx. apply (du_wf _ _ _ _ _ Hd').
Qed.

(** A scan depends only on the rows of its own container. *)
Lemma scan_prefix_own st db db' cf p :
  (∀ k, rows db !! (cf, key st k) = rows db' !! (cf, key st k)) →
  scan_prefix st db cf p = scan_prefix st db' cf p.
Proof.
  intros Hrows. unfold scan_prefix.
  destruct (iterator_cf_law db cf (key st p)) as (l & -> & Hs & Hel).
  destruct (iterator_cf_law db' cf (key st p)) as (l' & -> & Hs' & Hel'). simpl. do 2 f_equal.
  apply small_sorted_ext; [by apply take_while_sorted..|].
  intros [k v]. rewrite !elem_of_take_while, Hel, Hel';
    [|done|intros ? ?; apply Hel'|done|intros ? ?; apply Hel]. simpl.
  split; intros [[Hm Hle] Hst]; split; [|done| |done]; split; try done;
    apply starts_with_spec in Hst as [r ->]; unfold key in *; rewrite str_app_assoc in *; congruence.
Qed.

Lemma load_snapshot_own st db db' :
  (∀ cf k, rows db !! (cf, key st k) = rows db' !! (cf, key st k)) →
  load_snapshot st db = load_snapshot st db'.
Proof.
  intros Hrows.
  assert (∀ cf f s, load_table st db cf f s = load_table st db' cf f s) as Ht.
  { intros cf f s. unfold load_table. by rewrite (scan_prefix_own st db db'). }
  assert (stored_log_seq st db = stored_log_seq st db') as Hn.
  { unfold stored_log_seq, get_meta_u64, get_meta. by rewrite !get_cf_law, Hrows. }
  unfold load_snapshot. rewrite Ht, Hn.
  repeat (match goal with |- ?m ≫= _ = _ => destruct m; [cbn [mbind result_bind]|done] end; rewrite ?Ht; try done).
Qed.

Lemma container_keys_disjoint a b ta tb k k' :
  TenantId.parse a = Ok ta → TenantId.parse b = Ok tb → ta ≠ tb →
  key (container ta) k ≠ key (container tb) k'.
Proof.
  intros (-> & _ & Ha & _)%tenant_parse_Ok (-> & _ & Hb & _)%tenant_parse_Ok Hne Heq.
  unfold key, container, TenantId.key_prefix in Heq; simpl in Heq. rewrite !str_app_assoc in Heq.
  apply sep_inj in Heq as [-> _]; done.
Qed.

(** (C37) Container isolation: whatever one container commits, another
    container's rows, change log and reloaded snapshot are exactly what they
    were. *)
Theorem container_isolation (a b : string) (ta tb : TenantId.t) db s floor log tok ws evs db' r :
  TenantId.parse a = Ok ta → TenantId.parse b = Ok tb → ta ≠ tb →
  durable (container ta) (rows db) s floor log → Forall good_write ws → Forall persistable evs →
  is_u64 (Z.of_nat (length log) + Z.of_nat (length evs)) →
  commit_plan (container ta) db tok ws evs = (db', r) →
  load_snapshot (container tb) db' = load_snapshot (container tb) db ∧
  ∀ cf k, rows db' !! (cf, key (container tb) k) = rows db !! (cf, key (container tb) k).
Proof.
  intros Ha Hb Hne Hd Hws Hevs Hlen Hc.
  assert (∀ cf k, rows db' !! (cf, key (container tb) k) = rows db !! (cf, key (container tb) k)) as Hrows.
  { intros cf k. apply (commit_plan_isolated (container ta) db s floor log tok ws evs db' r); try done.
    intros k' Heq. symmetry in Heq. by eapply container_keys_disjoint in Heq. }
  split; [|done]. by apply load_snapshot_own.
Qed.
End recovery.

(** * Witnesses *)

(** A registration as the register verb plans it. *)
Definition demo_record : SchemaRecord := mkSchemaRecord Avro "{}" [] None None "f0" "f0" "guid".
Definition demo_writes : list Write :=
  [WSetNextId "." 2; WPutSchema "." 1 demo_record true; WPutVersion "." "orders" 1 (mkVersion 1 false 0)].

Lemma demo_writes_good : Forall good_write demo_writes.
Proof.
  assert (good_name "." ∧ good_name "orders") as [Hc Hs] by (split; vm_compute; split; reflexivity).
  assert (∀ n, 0 ≤ n ≤ 10 → is_u32 n) as Hu by (unfold is_u32, u32_max; lia).
  unfold demo_writes, good_write, ops_effects. repeat constructor; simpl; try done.
  - intros y [= <-]. exists (to_be_u32 2). split; [apply Hu; lia|done].
  - intros y [= <-]. exists (to_be_u32 1). split; [apply Hu; lia|done].
  - by eexists.
  - intros y [= <-]. apply version_persistable.
  - intros y [= <-]. by exists "".
Qed.

Lemma demo_ops_ok s : Snap.next_id s "." ≤ 2 → ops_ok s (plan_ops demo_writes).
Proof.
  intros Hn. simpl. split_and!; try done. rewrite !next_id_ctx, !ctx_of_mut. simpl. lia.
Qed.

Lemma commit_reload_witness :
  ∃ db' ops s', commit_plan demo_store demo_db ModeGate.token demo_writes demo_events = (db', Ok ops) ∧
    load_snapshot demo_store db' = Ok s' ∧ same_answers s' (Snap.apply_all demo_snap ops) ∧
    Snap.list_versions s' "." "orders" = [(1, mkVersion 1 false 0)].
Proof.
  set (run := commit_plan demo_store demo_db ModeGate.token demo_writes demo_events).
  exists run.1, (plan_ops demo_writes ++ [OpSetLogSeq 4]).
  assert (run = (run.1, Ok (plan_ops demo_writes ++ [OpSetLogSeq 4]))) as Hrun by (vm_compute; reflexivity).
  destruct (commit_reload demo_store demo_db demo_snap 0 demo_events ModeGate.token demo_writes demo_events _ _
    demo_durable demo_writes_good ltac:(repeat constructor; auto with registry) ltac:(apply demo_ops_ok; vm_compute; discriminate)
    ltac:(vm_compute; split; discriminate) Hrun) as (s' & Hl & Hs).
  exists s'. split; [done|]. split; [done|]. split; [done|].
  rewrite (proj1 Hs). vm_compute. reflexivity.
Defined.

Lemma container_isolation_witness :
  TenantId.parse "eu" = Ok (TenantId.mk "eu") ∧
  ∃ db', (commit_plan demo_store demo_db ModeGate.token demo_writes demo_events).1 = db' ∧
    load_snapshot (container (TenantId.mk "eu")) db' = load_snapshot (container (TenantId.mk "eu")) demo_db ∧
    ∀ cf k, rows db' !! (cf, key (container (TenantId.mk "eu")) k) =
            rows demo_db !! (cf, key (container (TenantId.mk "eu")) k).
Proof.
  split; [reflexivity|]. eexists; split; [reflexivity|].
  apply (container_isolation "default" "eu" (TenantId.mk "default") (TenantId.mk "eu") demo_db demo_snap 0 demo_events
    ModeGate.token demo_writes demo_events _ (Ok (plan_ops demo_writes ++ [OpSetLogSeq 4]))).
  - reflexivity.
  - reflexivity.
  - discriminate.
  - exact demo_durable.
  - exact demo_writes_good.
  - repeat constructor; auto with registry.
  - vm_compute; split; discriminate.
  - vm_compute. reflexivity.
Defined.
