(* ===== verification/SchemaLayer.v ===== *)
(** Format-independent schema handling (schema/mod.rs): parsing through the
    format of a schema, the content fingerprint, and compatibility levels as
    combinations of one reader/writer check. The three formats are an
    interface: each parses a text with its resolved references and compares a
    reader with a writer. *)
From S2P Require Import Prelude SortedVec RustStr Errors Json Model Context Snapshot Keys.

Local Open Scope Z_scope.

(** A referenced schema, already fetched from the store. *)
Record ResolvedRef := mkResolved { rr_name : string; rr_schema : string }.
#[export] Instance ResolvedRef_eq_dec : EqDecision ResolvedRef.
Proof. solve_decision. Defined.

Inductive ErrorKind := ParseKind | ValidateKind.
Record SchemaError := mkSchemaError { se_kind : ErrorKind; se_message : string }.

Module SchemaErr.
Definition parse (m : string) : SchemaError := mkSchemaError ParseKind m.
Definition validate (m : string) : SchemaError := mkSchemaError ValidateKind m.
End SchemaErr.

(** Labels used in messages. *)
Record Labels := mkLabels { lb_reader : string; lb_writer : string }.

(** What a format offers. *)
Class Format (S : Type) := {
  f_canonical : S → string;
  f_normalized : S → string;
  f_can_read : S → S → Labels → list string;
}.

(** The three formats and the external functions of this layer. *)
Class SchemaFormats := {
  AvroSchema : Type;
  JsonSchema : Type;
  ProtoSchema : Type;
  avro_format :: Format AvroSchema;
  json_format :: Format JsonSchema;
  proto_format :: Format ProtoSchema;
  avro_parse : string → list ResolvedRef → bool → result SchemaError AvroSchema;
  avro_normalize_error : AvroSchema → option string;
  json_parse : string → list ResolvedRef → result string JsonSchema;
  (** [serde_json::from_str::<Value>] accepts the text. *)
  json_text_ok : string → bool;
  proto_parse : string → list ResolvedRef → result SchemaError ProtoSchema;
  proto_serialized : ProtoSchema → option string;
  without_extensions : string → option string;
  (** SHA-256 of the bytes, in lower-case hexadecimal. *)
  sha256_hex : string → string;
  (** [Value::to_string]. *)
  value_to_string : Value → string;
}.

Section schema.
Context `{!SchemaFormats}.

Inductive Parsed :=
| PAvro (s : AvroSchema)
| PJson (s : JsonSchema)
| PProtobuf (s : ProtoSchema).

Record ParsedSchema := mkParsed {
  ps_type : SchemaType;
  ps_canonical : string;
  ps_normalized : string;
  ps_normalize_error : option string;
  ps_inner : Parsed;
}.

Definition parse_with (ty : SchemaType) (text : string) (refs : list ResolvedRef)
    (validate_defaults : bool) : result SchemaError ParsedSchema :=
  match ty with
  | Avro =>
      s ← avro_parse text refs validate_defaults;
      Ok (mkParsed ty (f_canonical s) (f_normalized s) (avro_normalize_error s) (PAvro s))
  | JsonSchemaT =>
      if json_text_ok text then
        s ← map_err (λ _, SchemaErr.validate "Invalid JSON Schema") (json_parse text refs);
        Ok (mkParsed ty (f_canonical s) (f_normalized s) None (PJson s))
      else Err (SchemaErr.parse ("Invalid JSON " +:+ text))
  | Protobuf =>
      s ← proto_parse text refs;
      Ok (mkParsed ty (f_canonical s) (f_normalized s) None (PProtobuf s))
  end.

(** Can [reader] read data written with [writer]? Empty means yes. *)
Definition can_read (reader writer : ParsedSchema) (labels : Labels) : list string :=
  match ps_inner reader, ps_inner writer with
  | PAvro r, PAvro w => f_can_read r w labels
  | PJson r, PJson w => f_can_read r w labels
  | PProtobuf r, PProtobuf w => f_can_read r w labels
  | _, _ =>
      ["{errorType:'SCHEMA_TYPE_CHANGED', description:'The " +:+ lb_reader labels +:+ " schema is of type " +:+
       SchemaTypeM.as_str (ps_type reader) +:+ " but the " +:+ lb_writer labels +:+ " schema is of type " +:+
       SchemaTypeM.as_str (ps_type writer) +:+ "'}"]
  end.

(** What is hashed for one reference. *)
Definition SOH : ascii := byte 1.
Definition ref_preimage (r : SchemaReference) : string :=
  ref_name r +:+ str1 SOH +:+ ref_subject r +:+ str1 SOH +:+ to_be_u32 (as_u32 (ref_version r)) +:+ str1 NUL.

Definition doc_string (v : option Value) : string :=
  match v with Some v => if is_null v then "" else value_to_string v | None => "" end.

Definition fingerprint_preimage (ty : SchemaType) (schema : string) (references : list SchemaReference)
    (metadata rule_set : option Value) : string :=
  SchemaTypeM.as_str ty +:+ str1 NUL +:+ schema +:+ str1 NUL +:+
  foldr (λ r s, ref_preimage r +:+ s) "" references +:+ str1 NUL +:+
  doc_string metadata +:+ str1 NUL +:+ doc_string rule_set.

Definition fingerprint (ty : SchemaType) (schema : string) (references : list SchemaReference)
    (metadata rule_set : option Value) : string :=
  sha256_hex (fingerprint_preimage ty schema references metadata rule_set).

(** An earlier version to check against. *)
Record Previous := mkPrevious { pv_version : Z; pv_schema : ParsedSchema }.

Definition MAX_SCHEMA_SIZE_FOR_LOGGING : Z := 10240.

(** [str::is_char_boundary] below the length: not a continuation byte. *)
Definition is_char_boundary (s : string) (i : nat) : bool :=
  bool_decide (i = 0%nat) || bool_decide (i = String.length s) || negb (is_cont (byte_at s i)).
(** [while !is_char_boundary(cut) { cut -= 1 }]: index 0 is a boundary. *)
Fixpoint cut_back (s : string) (cut : nat) : nat :=
  match cut with
  | O => O
  | S n => if is_char_boundary s cut then cut else cut_back s n
  end.

Definition with_trailer (msgs : list string) (p : Previous) (append : bool) : list string :=
  if negb (bool_decide (msgs = [])) && append then
    let old := ps_canonical (pv_schema p) in
    msgs ++ ["{oldSchemaVersion: " +:+ show (pv_version p) +:+ "}";
             if bool_decide (Z.of_nat (String.length old) ≤ MAX_SCHEMA_SIZE_FOR_LOGGING)
             then "{oldSchema: '" +:+ old +:+ "'}"
             else "{oldSchema: <truncated> '" +:+
                  str_take (cut_back old (Z.to_nat MAX_SCHEMA_SIZE_FOR_LOGGING)) old +:+ "...'}"]
  else msgs.

Definition new_reads_old : Labels := mkLabels "new" "old".
Definition old_reads_new : Labels := mkLabels "old" "new".

(** One candidate of [check_level]'s loop. *)
Definition check_one (new : ParsedSchema) (level : CompatibilityLevel) (p : Previous) : list string :=
  if bool_decide (ps_type (pv_schema p) ≠ ps_type new) then ["Incompatible because of different schema type"] else
  match Level.backward level, Level.forward level with
  | true, false => with_trailer (can_read new (pv_schema p) new_reads_old) p true
  | false, true => with_trailer (can_read (pv_schema p) new old_reads_new) p true
  | _, _ =>
      with_trailer (can_read (pv_schema p) new old_reads_new) p false ++
      with_trailer (can_read new (pv_schema p) new_reads_old) p true
  end.

Fixpoint check_candidates (new : ParsedSchema) (level : CompatibilityLevel) (l : list Previous) : list string :=
  match l with
  | [] => []
  | p :: l =>
      let msgs := check_one new level p in
      if bool_decide (msgs = []) then check_candidates new level l else msgs
  end.

Definition candidates (previous_newest_first : list Previous) (level : CompatibilityLevel) : list Previous :=
  if Level.transitive level then previous_newest_first
  else take (Nat.min (length previous_newest_first) 1) previous_newest_first.

Definition check_level (new : ParsedSchema) (previous_newest_first : list Previous)
    (level : CompatibilityLevel) : list string :=
  if decide (level = LNone) then [] else
  check_candidates new level (candidates previous_newest_first level).

(** ** Compatibility levels *)

Lemma with_trailer_nil msgs p b : with_trailer msgs p b = [] ↔ msgs = [].
Proof.
  unfold with_trailer. destruct (decide (msgs = [])) as [->|E]; [done|].
  rewrite bool_decide_false by done. cbn [negb andb]. destruct b; [|done].
  split; [|done]. by intros [? _]%app_eq_nil.
Qed.

(** The relation a level stands for, for one earlier version. *)
Definition compatible_with (new : ParsedSchema) (level : CompatibilityLevel) (p : Previous) : Prop :=
  ps_type (pv_schema p) = ps_type new ∧
  (Level.backward level = true → can_read new (pv_schema p) new_reads_old = []) ∧
  (Level.forward level = true → can_read (pv_schema p) new old_reads_new = []).

Lemma check_one_nil new level p : level ≠ LNone → check_one new level p = [] ↔ compatible_with new level p.
Proof.
  intros Hl. unfold check_one, compatible_with. case_bool_decide as E; [naive_solver|].
  destruct level; simpl; try done; rewrite ?app_nil, ?with_trailer_nil; naive_solver.
Qed.

Lemma check_level_nil (new : ParsedSchema) (prev : list Previous) (level : CompatibilityLevel) :
  check_level new prev level = [] ↔
  level = LNone ∨ ∀ p, p ∈ (if Level.transitive level then prev else option_list (head prev)) →
                       compatible_with new level p.
Proof.
  unfold check_level. destruct (decide (level = LNone)) as [->|Hl]; [naive_solver|].
  assert (candidates prev level = if Level.transitive level then prev else option_list (head prev)) as ->.
  { unfold candidates. destruct (Level.transitive level); [done|]. by destruct prev as [|? []]. }
  set (l := if Level.transitive level then _ else _). clearbody l. split.
  - intros Hc. right. induction l as [|p l IH]; [by intros p ?%elem_of_nil|].
    simpl in Hc. case_bool_decide as E; [|done].
    intros p' [->|Hin]%elem_of_cons; [by apply check_one_nil|auto].
  - intros [?|Hall]; [done|]. induction l as [|p l IH]; [done|]. simpl.
    rewrite bool_decide_true; [apply IH; intros; apply Hall; by right|].
    apply check_one_nil; [done|]. apply Hall. left.
Qed.

(** Compatibility checking is exact: no message is reported precisely
    when the level is NONE or the new schema is compatible, in the directions
    the level names, with every version the level looks at - the latest one,
    or all of them for the transitive levels. *)
Theorem check_level_exact (new : ParsedSchema) (prev : list Previous) (level : CompatibilityLevel) :
  check_level new prev level = [] ↔
  level = LNone ∨ ∀ p, p ∈ (if Level.transitive level then prev else option_list (head prev)) →
                       compatible_with new level p.
Proof. apply check_level_nil. Qed.

(** A failing check reports the newest incompatible version: the
    messages are those of one candidate, and every newer candidate is
    compatible. *)
Theorem check_level_reports_newest (new : ParsedSchema) (prev : list Previous) (level : CompatibilityLevel) m ms :
  check_level new prev level = m :: ms →
  ∃ l1 p l2, candidates prev level = l1 ++ p :: l2 ∧ check_one new level p = m :: ms ∧
             ¬ compatible_with new level p ∧ Forall (compatible_with new level) l1.
Proof.
  unfold check_level. destruct (decide (level = LNone)) as [->|Hl]; [done|].
  induction (candidates prev level) as [|p l IH]; [done|]. simpl. case_bool_decide as E; intros Hm.
  - destruct (IH Hm) as (l1 & p' & l2 & -> & Hp & Hn & Hall). exists (p :: l1), p', l2.
    split_and!; [done..|]. constructor; [by apply check_one_nil|done].
  - exists [], p, l. split_and!; [done|done| |constructor].
    rewrite <-check_one_nil by done. by rewrite Hm.
Qed.

(** ** The fingerprint *)

Definition plain_ref (r : SchemaReference) : Prop :=
  lacks NUL (ref_name r) ∧ lacks SOH (ref_name r) ∧ lacks SOH (ref_subject r) ∧ is_i32 (ref_version r).

Lemma as_u32_i32_inj a b : is_i32 a → is_i32 b → as_u32 a = as_u32 b → a = b.
Proof.
  unfold is_i32, i32_min, i32_max, as_u32. intros Ha Hb Heq.
  pose proof (Z.div_mod a (2 ^ 32)) as Da. pose proof (Z.div_mod b (2 ^ 32)) as Db. lia.
Qed.

Lemma fixed_app_inj (a b s t : string) : String.length a = String.length b → a +:+ s = b +:+ t → a = b ∧ s = t.
Proof.
  revert b. induction a as [|c a IH]; intros [|d b] Hl Heq; simpl in Hl; try lia; [done|].
  cbn [String.append] in Heq. injection Heq as -> Heq. destruct (IH b) as [-> ->]; [lia|done|done].
Qed.

Lemma refs_preimage_inj refs refs' s s' : Forall plain_ref refs → Forall plain_ref refs' →
  foldr (λ r s, ref_preimage r +:+ s) "" refs +:+ String NUL s = foldr (λ r s, ref_preimage r +:+ s) "" refs' +:+ String NUL s' →
  refs = refs' ∧ s = s'.
Proof.
  assert (∀ n c s t, lacks NUL n → c ≠ NUL → n +:+ String c s ≠ String NUL t) as Hstart.
  { intros [|d n] c u t Hn Hc; cbn [String.append]; intros Heq; injection Heq as Hd _; [done|].
    apply lacks_cons in Hn as [Hn _]. congruence. }
  intros Hr. revert refs'. induction Hr as [|r refs Hr _ IH]; intros refs' Hr' Heq.
  - destruct Hr' as [|r' refs' Hr' _]; [cbn in Heq; by injection Heq as ->|]. exfalso. symmetry in Heq.
    cbn [foldr] in Heq. unfold ref_preimage in Heq. rewrite !str_app_assoc in Heq.
    eapply Hstart; [apply Hr'| |exact Heq]. discriminate.
  - destruct Hr' as [|r' refs' Hr' Hrs'].
    { exfalso. cbn [foldr] in Heq. unfold ref_preimage in Heq. rewrite !str_app_assoc in Heq.
      eapply Hstart; [apply Hr| |exact Heq]. discriminate. }
    cbn [foldr] in Heq. unfold ref_preimage in Heq. rewrite !str_app_assoc in Heq.
    destruct Hr as (_ & Hn & Hs & Hv), Hr' as (_ & Hn' & Hs' & Hv').
    apply sep_inj in Heq as [Hname Heq]; [|done|done].
    apply sep_inj in Heq as [Hsubj Heq]; [|done|done].
    apply fixed_app_inj in Heq as [Hver Heq]; [|done]. cbn [String.append str1] in Heq.
    apply to_be_u32_inj in Hver; [|apply as_u32_bound..]. apply as_u32_i32_inj in Hver; [|done..].
    injection Heq as Heq. destruct (IH refs' Hrs' Heq) as [-> ->]. split; [|done].
    f_equal. destruct r, r'; simpl in *; congruence.
Qed.

(** Two contents have the same fingerprint preimage only if they have
    the same type, text, references and printed documents: with texts free
    of NUL and reference names free of the two separator bytes, nothing of a
    schema's identity is lost before hashing. *)
Theorem fingerprint_preimage_inj ty schema refs meta rules ty' schema' refs' meta' rules' :
  lacks NUL schema → lacks NUL schema' → Forall plain_ref refs → Forall plain_ref refs' →
  lacks NUL (doc_string meta) → lacks NUL (doc_string meta') →
  fingerprint_preimage ty schema refs meta rules = fingerprint_preimage ty' schema' refs' meta' rules' →
  ty = ty' ∧ schema = schema' ∧ refs = refs' ∧ doc_string meta = doc_string meta' ∧
  doc_string rules = doc_string rules'.
Proof.
  intros Hs Hs' Hr Hr' Hm Hm' Heq. unfold fingerprint_preimage in Heq.
  apply sep_inj in Heq as [Hty Heq]; [|by destruct ty|by destruct ty'].
  apply sep_inj in Heq as [-> Heq]; [|done|done].
  apply refs_preimage_inj in Heq as [-> Heq]; [|done|done].
  apply sep_inj in Heq as [-> ->]; [|done|done].
  split_and!; try done. by destruct ty, ty'.
Qed.
End schema.
Arguments ParsedSchema {_}.

(** * A small instance

    Schemas are their own text; a reader accepts exactly its own text. *)

#[export] Instance text_format : Format string := {
  f_canonical s := s;
  f_normalized s := s;
  f_can_read r w l := if decide (r = w) then [] else [lb_reader l +:+ " cannot read " +:+ lb_writer l];
}.
#[export] Instance demo_formats : SchemaFormats := {
  AvroSchema := string;
  JsonSchema := string;
  ProtoSchema := string;
  avro_parse t _ _ := if decide (t = "bad") then Err (SchemaErr.parse "bad") else Ok t;
  avro_normalize_error _ := None;
  json_parse t _ := Ok t;
  json_text_ok _ := true;
  proto_parse t _ := Ok t;
  proto_serialized t := Some t;
  without_extensions t := Some t;
  sha256_hex s := s;
  value_to_string _ := "{}";
}.

Definition demo_parsed (t : string) : ParsedSchema := mkParsed Avro t t None (PAvro (t : AvroSchema)).

Lemma check_level_reports_newest_witness :
  let prev := [mkPrevious 2 (demo_parsed "b"); mkPrevious 1 (demo_parsed "a")] in
  ∃ m ms, check_level (demo_parsed "b") prev BackwardTransitive = m :: ms ∧
  ∃ l1 p l2, candidates prev BackwardTransitive = l1 ++ p :: l2 ∧
    check_one (demo_parsed "b") BackwardTransitive p = m :: ms ∧
    ¬ compatible_with (demo_parsed "b") BackwardTransitive p ∧
    Forall (compatible_with (demo_parsed "b") BackwardTransitive) l1.
Proof.
  intros prev. eexists _, _. split; [vm_compute; reflexivity|].
  apply (check_level_reports_newest (demo_parsed "b") prev BackwardTransitive). vm_compute. reflexivity.
Defined.

Lemma fingerprint_preimage_inj_witness :
  lacks NUL "string" ∧
  (fingerprint_preimage Avro "string" [mkRef "n" "s" 1] None None =
     fingerprint_preimage Avro "string" [mkRef "n" "s" 1] None None →
   Avro = Avro ∧ "string" = "string" ∧ [mkRef "n" "s" 1] = [mkRef "n" "s" 1] ∧
   doc_string None = doc_string None ∧ doc_string None = doc_string None).
Proof.
  assert (Forall plain_ref [mkRef "n" "s" 1]) as Hr.
  { constructor; [|constructor]. split_and!; try reflexivity. vm_compute. split; discriminate. }
  split; [reflexivity|].
  apply (fingerprint_preimage_inj Avro "string" [mkRef "n" "s" 1] None None Avro "string" [mkRef "n" "s" 1] None None);
    try reflexivity; done.
Defined.
