(* ===== verification/JavaOrder.v ===== *)
(** Java's hash iteration order (schema/java_order.rs): the string hash, the
    bucket of a key, and the order a [HashMap] or [ConcurrentHashMap] filled in
    a given order is walked in. *)
From S2P Require Import Prelude SortedVec RustStr.

Local Open Scope Z_scope.

(** * UTF-16 code units of a UTF-8 string *)

(** The scalar value of the character at the start, for a valid string. *)
Definition scalar (s : string) (n : nat) : Z :=
  let b i := Z.of_nat (byte_at s i) in
  match n with
  | 1%nat => b 0%nat
  | 2%nat => Z.land (b 0%nat) 31 * 64 + Z.land (b 1%nat) 63
  | 3%nat => Z.land (b 0%nat) 15 * 4096 + Z.land (b 1%nat) 63 * 64 + Z.land (b 2%nat) 63
  | _ => Z.land (b 0%nat) 7 * 262144 + Z.land (b 1%nat) 63 * 4096 + Z.land (b 2%nat) 63 * 64 + Z.land (b 3%nat) 63
  end.

Definition utf16_units (c : Z) : list Z :=
  if bool_decide (c < 65536) then [c]
  else [55296 + Z.shiftr (c - 65536) 10; 56320 + Z.land (c - 65536) 1023].

Fixpoint encode_utf16_fuel (fuel : nat) (s : string) : list Z :=
  match fuel, s with
  | S fuel, String _ _ =>
      let n := (utf8_step s).1 in utf16_units (scalar s n) ++ encode_utf16_fuel fuel (str_drop n s)
  | _, _ => []
  end.
(** Every character takes at least one byte. *)
Definition encode_utf16 (s : string) : list Z := encode_utf16_fuel (String.length s) s.

(** * Hashing *)

Class JavaHash (K : Type) := java_hash : K → Z.

(** [h = h.wrapping_mul(31).wrapping_add(u)] on [i32]. *)
#[export] Instance string_java_hash : JavaHash string := λ s,
  foldl (λ h u, as_i32 (as_i32 (h * 31) + u)) 0 (encode_utf16 s).
#[export] Instance u32_java_hash : JavaHash Z := as_i32.

Definition spread (h : Z) : Z := let h := as_u32 h in Z.lxor h (Z.shiftr h 16).

(** [next_power_of_two]. *)
Definition table_size_for (cap : Z) : Z := 2 ^ Z.log2_up (Z.max cap 1).

(** * Sets *)

Section java_set.
Context {K : Type} `{!EqDecision K, !JavaHash K}.

Record JavaSet := mkJavaSet { js_keys : list K; js_cap : Z }.

Definition js_new : JavaSet := mkJavaSet [] 16.

Definition js_insert (s : JavaSet) (k : K) : JavaSet :=
  if bool_decide (k ∈ js_keys s) then s else
  let keys := js_keys s ++ [k] in
  mkJavaSet keys (if bool_decide (js_cap s * 3 / 4 < Z.of_nat (length keys)) then js_cap s * 2 else js_cap s).

Definition js_extend (s : JavaSet) (items : list K) : JavaSet := foldl js_insert s items.

(** [(len as f32 / 0.75) as usize] is [4 len / 3] rounded down: exact while
    the quotient is below 2^23. *)
Definition from_collection (items : list K) : JavaSet :=
  js_extend (mkJavaSet [] (table_size_for (Z.max (Z.of_nat (length items) * 4 / 3 + 1) 16))) items.

(** Keys by bucket, insertion order within one. *)
Definition by_bucket (keys : list K) (cap : Z) : list K :=
  let mask := cap - 1 in
  (merge_sort (λ x y : Z * Z * K, kle x.1 y.1)
     (imap (λ i k, (Z.land (spread (java_hash k)) mask, Z.of_nat i, k)) keys)).*2.

Definition js_ordered (s : JavaSet) : list K := by_bucket (js_keys s) (js_cap s).

Definition chm_step (acc : list K * Z) (k : K) : list K * Z :=
  let '(seen, cap) := acc in
  if bool_decide (k ∈ seen) then (seen, cap) else
  let seen := seen ++ [k] in
  (seen, if bool_decide (cap * 3 / 4 ≤ Z.of_nat (length seen)) then cap * 2 else cap).
Definition chm_order (keys : list K) : list K :=
  let '(seen, cap) := foldl chm_step ([], 16) keys in by_bucket seen cap.

Definition map_order (keys : list K) : list K := js_ordered (js_extend js_new keys).
Definition union_order (a b : list K) : list K :=
  js_ordered (js_extend (from_collection (map_order a)) (map_order b)).

(** ** Nothing is lost or repeated *)

Lemma by_bucket_Permutation keys cap : by_bucket keys cap ≡ₚ keys.
Proof.
  unfold by_bucket. rewrite merge_sort_Permutation. rewrite fmap_imap.
  assert (imap (λ n, snd ∘ (λ k, (Z.land (spread (java_hash k)) (cap - 1), Z.of_nat n, k))) keys = imap (λ _ k, k) keys) as ->.
  { by apply imap_ext. }
  assert (imap (λ _ k, k) keys = keys) as ->; [|done].
  clear. induction keys as [|k keys IH]; [done|]. simpl. f_equal. apply IH.
Qed.

Lemma js_insert_spec s k : NoDup (js_keys s) →
  NoDup (js_keys (js_insert s k)) ∧ ∀ x, x ∈ js_keys (js_insert s k) ↔ x ∈ js_keys s ∨ x = k.
Proof.
  intros Hnd. unfold js_insert. case_bool_decide as Hin; simpl; [naive_solver|]. split.
  - apply NoDup_app. split_and!; [done| |apply NoDup_singleton]. intros x Hx ->%list_elem_of_singleton. done.
  - intros x. rewrite elem_of_app, list_elem_of_singleton. done.
Qed.

Lemma js_extend_spec s items : NoDup (js_keys s) →
  NoDup (js_keys (js_extend s items)) ∧ ∀ x, x ∈ js_keys (js_extend s items) ↔ x ∈ js_keys s ∨ x ∈ items.
Proof.
  unfold js_extend. revert s. induction items as [|k items IH]; intros s Hnd; simpl.
  - split; [done|]. intros x. rewrite elem_of_nil. naive_solver.
  - destruct (js_insert_spec s k Hnd) as [Hnd' Hel]. destruct (IH _ Hnd') as [H1 H2]. split; [done|].
    intros x. rewrite H2, Hel, elem_of_cons. naive_solver.
Qed.

Lemma chm_fold_spec keys acc : NoDup acc.1 →
  NoDup (foldl chm_step acc keys).1 ∧ ∀ x, x ∈ (foldl chm_step acc keys).1 ↔ x ∈ acc.1 ∨ x ∈ keys.
Proof.
  revert acc. induction keys as [|k keys IH]; intros [seen cap] Hnd; simpl.
  - split; [done|]. intros x. rewrite elem_of_nil. naive_solver.
  - case_bool_decide as Hin; (edestruct IH as [H1 H2]; [|split; [exact H1|]; intros x; rewrite H2, elem_of_cons]); simpl in *.
    + done.
    + naive_solver.
    + apply NoDup_app. split_and!; [done| |apply NoDup_singleton]. intros x Hx ->%list_elem_of_singleton. done.
    + rewrite elem_of_app, list_elem_of_singleton. naive_solver.
Qed.

Lemma chm_order_spec keys : NoDup (chm_order keys) ∧ ∀ x, x ∈ chm_order keys ↔ x ∈ keys.
Proof.
  unfold chm_order. destruct (chm_fold_spec keys ([], 16) NoDup_nil_2) as [Hnd Hel].
  destruct (foldl chm_step ([], 16) keys) as [seen cap]. simpl in *.
  split; [by rewrite by_bucket_Permutation|]. intros x. rewrite by_bucket_Permutation, Hel, elem_of_nil. naive_solver.
Qed.

(** The emulated orders are orders of the same set: walking a map, a
    concurrent map or a union lists every key that was put in, once. *)
Theorem java_orders_complete (a b : list K) :
  (NoDup (map_order a) ∧ ∀ x, x ∈ map_order a ↔ x ∈ a) ∧
  (NoDup (chm_order a) ∧ ∀ x, x ∈ chm_order a ↔ x ∈ a) ∧
  (NoDup (union_order a b) ∧ ∀ x, x ∈ union_order a b ↔ x ∈ a ∨ x ∈ b).
Proof.
  assert (∀ l, NoDup (map_order l) ∧ ∀ x, x ∈ map_order l ↔ x ∈ l) as Hmap.
  { intros l. unfold map_order, js_ordered. destruct (js_extend_spec js_new l NoDup_nil_2) as [H1 H2].
    split; [by rewrite by_bucket_Permutation|]. intros x. rewrite by_bucket_Permutation, H2. simpl.
    rewrite elem_of_nil. naive_solver. }
  split_and!; [apply Hmap..|apply chm_order_spec|apply chm_order_spec| |].
  - unfold union_order, js_ordered, from_collection. rewrite by_bucket_Permutation.
    apply js_extend_spec, js_extend_spec, NoDup_nil_2.
  - intros x. unfold union_order, js_ordered, from_collection. rewrite by_bucket_Permutation.
    set (e := mkJavaSet [] _). destruct (js_extend_spec e (map_order a) NoDup_nil_2) as [Hnd Hel].
    rewrite (proj2 (js_extend_spec _ (map_order b) Hnd)), Hel. simpl.
    rewrite elem_of_nil, (proj2 (Hmap a)), (proj2 (Hmap b)). naive_solver.
Qed.
End java_set.

(** Values of [java.lang.String#hashCode]. *)
Example java_hash_hello : java_hash "hello" = 99162322.
Proof. vm_compute. reflexivity. Qed.
Example java_hash_min : java_hash "polygenelubricants" = - 2 ^ 31.
Proof. vm_compute. reflexivity. Qed.
Example map_order_collision : map_order [17; 1; 2] = [17; 1; 2].
Proof. vm_compute. reflexivity. Qed.
