(* ===== verification/Views.v ===== *)
(** Request and answer shapes (registry/views.rs) and the JSON document helpers
    of the registry (registry/mod.rs): drafts, canonical schemas, stored
    entities, when two of them are the same schema, and how metadata and rule
    sets are merged. *)
From S2P Require Import Prelude SortedVec RustStr Errors Json Model Context Snapshot Keys Plan Store SchemaLayer.

Local Open Scope Z_scope.

(** [{:?}]-free helpers: Rust's [str::parse::<u32>] and Java's
    [Integer.parseInt]. *)
Fixpoint digits_value (acc : Z) (s : string) : option Z :=
  match s with
  | EmptyString => Some acc
  | String c s => if is_ascii_digit c then digits_value (acc * 10 + (Z.of_nat (cval c) - 48)) s else None
  end.

(** Digits only, no overflow of the type. *)
Definition parse_digits (max : Z) (s : string) : option Z :=
  if decide (s = "") then None else
  v ← digits_value 0 s; if bool_decide (v ≤ max) then Some v else None.

Definition parse_u32 (s : string) : option Z :=
  parse_digits u32_max (default s (strip_prefix "+" s)).

Definition java_int (s : string) : option Z :=
  match strip_prefix "-" s with
  | Some d => Z.opp <$> parse_digits (- i32_min) d
  | None => parse_digits i32_max (default s (strip_prefix "+" s))
  end.

(** * Version selectors *)

Inductive VersionSpec := Latest | Exact (v : Z).
#[export] Instance VersionSpec_eq_dec : EqDecision VersionSpec.
Proof. solve_decision. Defined.

Module Spec.
Definition parse (s : string) : ApiResult VersionSpec :=
  let t := trim s in
  if eq_ignore_ascii_case t "latest" then Ok Latest else
  match java_int t with
  | Some n =>
      if decide (n = -1) then Ok Latest
      else if bool_decide (1 ≤ n) then Ok (Exact (as_u32 n))
      else Err (ApiErr.invalid_version (show n))
  | None => Err (ApiErr.invalid_version s)
  end.
Definition display (s : VersionSpec) : string := match s with Latest => "-1" | Exact n => show n end.
End Spec.

Definition schema_type_view (t : SchemaType) : option string :=
  if SchemaTypeM.is_avro t then None else Some (SchemaTypeM.as_str t).

(** [SearchLimits::normalize]. *)
Definition normalize_limit (supplied default max : Z) : Z :=
  if bool_decide (0 < supplied) && bool_decide (supplied ≤ max) then supplied else default.

(** * JSON documents *)

(** [RuleSet#hasRulesWithType]. *)
Definition has_rules_with_type (rule_set : option Value) (ty : string) : bool :=
  match rule_set with
  | None => false
  | Some rs =>
      existsb (λ k, match get k rs ≫= as_array with
                    | Some a => existsb (λ r, bool_decide (get "type" r ≫= as_str = Some ty)) a
                    | None => false
                    end) ["domainRules"; "migrationRules"]
  end.

Definition present_layers (layers : list (option Value)) : list Value :=
  filter (λ v, is_null v = false) (omap id layers).

(** [Vec::contains], with JSON equality. *)
Definition contains_value (l : list Value) (v : Value) : bool := existsb (λ x, value_eqb x v) l.
Definition push_new (l : list Value) (v : Value) : list Value := if contains_value l v then l else l ++ [v].

Definition merge_metadata_step (acc : Map * Map * list Value) (m : Value) : Map * Map * list Value :=
  let '(tags, props, sensitive) := acc in
  (match get "tags" m ≫= as_object with Some t => map_extend tags t | None => tags end,
   match get "properties" m ≫= as_object with Some p => map_extend props p | None => props end,
   match get "sensitive" m ≫= as_array with Some s => foldl push_new sensitive s | None => sensitive end).

Definition insert_nonempty {A} (k : string) (l : list A) (v : Value) (m : Map) : Map :=
  match l with [] => m | _ => map_insert k v m end.

Definition merge_metadata (layers : list (option Value)) : option Value :=
  match present_layers layers with
  | [] => None
  | present =>
      let '(tags, props, sensitive) := foldl merge_metadata_step ([], [], []) present in
      let out := insert_nonempty "tags" tags (VObject tags) [] in
      let out := insert_nonempty "properties" props (VObject props) out in
      let out := insert_nonempty "sensitive" sensitive (VArray sensitive) out in
      Some (VObject out)
  end.

(** [Option<&Value>] equality. *)
Definition same_name (name : option Value) (x : Value) : bool :=
  bool_decide (is_Some name) && opt_value_eqb (get "name" x) name.

Fixpoint replace_or_push (r : Value) (name : option Value) (rules : list Value) : list Value :=
  match rules with
  | [] => [r]
  | x :: rules => if same_name name x then r :: rules else x :: replace_or_push r name rules
  end.

Definition rules_of (key : string) (rs : Value) : list Value := default [] (get key rs ≫= as_array).

Definition merge_rules (key : string) (present : list Value) : list Value :=
  foldl (λ rules rs, foldl (λ rules r, replace_or_push r (get "name" r) rules) rules (rules_of key rs)) [] present.

Definition merge_rule_sets (layers : list (option Value)) : option Value :=
  match present_layers layers with
  | [] => None
  | present =>
      Some (VObject (foldl (λ out key, let rules := merge_rules key present in
                              insert_nonempty key rules (VArray rules) out)
                           [] ["migrationRules"; "domainRules"; "encodingRules"]))
  end.

Definition metadata_property (m : option Value) (key : string) : option Value :=
  m ← m; p ← get "properties" m; get key p.

(** [v[k] = x]: [None] is the panic of indexing something that is neither an
    object nor null. *)
Definition index_set (k : string) (x v : Value) : option Value :=
  match v with
  | VObject m => Some (VObject (map_insert k x m))
  | VNull => Some (VObject [(k, x)])
  | _ => None
  end.

Definition with_confluent_version (metadata : option Value) (version : Z) : Outcome (option Value) :=
  let m := default (VObject []) metadata in
  m ← (if match get "properties" m with Some p => is_object p | None => false end then Ok m
       else or_panic (index_set "properties" (VObject []) m));
  props ← or_panic (index_set "confluent:version" (VString (show version)) (default VNull (get "properties" m)));
  m ← or_panic (index_set "properties" props m);
  Ok (Some m).

Definition confluent_version (m : option Value) : option string :=
  metadata_property m "confluent:version" ≫= as_str.

Definition without_confluent_version (m : option Value) : option Value :=
  m ← m;
  Some match m with
       | VObject o =>
           match map_get "properties" o with
           | Some (VObject props) =>
               let props := map_swap_remove "confluent:version" props in
               match props with
               | [] => VObject (map_swap_remove "properties" o)
               | _ => VObject (map_insert "properties" (VObject props) o)
               end
           | _ => m
           end
       | _ => m
       end.

(** * Shapes *)

Section views.
Context `{!SchemaFormats}.

Record SchemaView := mkView {
  sv_subject : string; sv_version : Z; sv_id : Z; sv_schema_type : option string;
  sv_references : list SchemaReference; sv_metadata : option Value; sv_rule_set : option Value;
  sv_schema : string; sv_aliases : option (list string);
}.

Record SchemaByIdView := mkByIdView {
  bi_schema_type : option string; bi_schema : string; bi_references : list SchemaReference;
  bi_metadata : option Value; bi_rule_set : option Value; bi_max_id : option Z;
}.

Record SubjectVersion := mkSubjectVersion { sn_subject : string; sn_version : Z }.

Record RegisterResponse := mkResponse {
  rs_id : Z; rs_version : option Z; rs_schema_type : option string;
  rs_references : list SchemaReference; rs_metadata : option Value; rs_rule_set : option Value;
  rs_schema : option string;
}.

Record Draft := mkDraft {
  d_schema : option string; d_schema_type : option string; d_refs : list RefIn.t;
  d_metadata : option Value; d_rule_set : option Value; d_version : Z; d_id : Z;
}.

Definition draft_from (r : RegisterSchemaRequest) : Draft :=
  mkDraft (rq_schema r) (rq_schema_type r) (default [] (rq_references r)) (rq_metadata r) (rq_rule_set r)
    (default 0 (rq_version r)) (default (-1) (rq_id r)).

Record Canon := mkCanon {
  c_type : SchemaType; c_text : string; c_refs : list SchemaReference;
  c_targets : list (QualifiedSubject * Z); c_metadata : option Value; c_rule_set : option Value;
  c_parsed : ParsedSchema;
}.
Definition canon_fingerprint (c : Canon) : string :=
  fingerprint (c_type c) (c_text c) (c_refs c) (c_metadata c) (c_rule_set c).

Record Entity := mkEntity {
  en_subject : string; en_version : Z; en_id : Z; en_type : SchemaType;
  en_references : list SchemaReference; en_metadata : option Value; en_rule_set : option Value;
  en_schema : string;
}.

Definition entity_stored (q : QualifiedSubject) (version id : Z) (rec : SchemaRecord) : Entity :=
  mkEntity (Qualified.qualified q) version id (sr_type rec) (sr_references rec) (sr_metadata rec)
    (sr_rule_set rec) (sr_schema rec).
Definition entity_from_canon (q : QualifiedSubject) (version id : Z) (c : Canon) : Entity :=
  mkEntity (Qualified.qualified q) version id (c_type c) (c_refs c) (c_metadata c) (c_rule_set c) (c_text c).
Definition entity_fingerprint (e : Entity) : string :=
  fingerprint (en_type e) (en_schema e) (en_references e) (en_metadata e) (en_rule_set e).
Definition entity_view (e : Entity) : SchemaView :=
  mkView (en_subject e) (en_version e) (en_id e) (schema_type_view (en_type e)) (en_references e)
    (en_metadata e) (en_rule_set e) (en_schema e) None.

Definition response_id (id : Z) : RegisterResponse := mkResponse id None None [] None None None.
Definition response_full (e : Entity) : RegisterResponse :=
  mkResponse (en_id e) (Some (en_version e)) (schema_type_view (en_type e)) (en_references e)
    (en_metadata e) (en_rule_set e) (Some (en_schema e)).

(** ** What the error messages print *)

Fixpoint java_string (v : Value) : string :=
  match v with
  | VObject o => "{" +:+ join ", " (map (λ '(k, x), k +:+ "=" +:+ java_string x) o) +:+ "}"
  | VArray a => "[" +:+ join ", " (map java_string a) +:+ "]"
  | VString s => s
  | other => value_to_string other
  end.

Definition java_metadata (m : option Value) : string :=
  match m with
  | None => "null"
  | Some m =>
      let part k empty := default empty (java_string <$> get k m) in
      "Metadata{tags=" +:+ part "tags" "{}" +:+ ", properties=" +:+ part "properties" "{}" +:+
      ", sensitive=" +:+ part "sensitive" "[]" +:+ "}"
  end.

Definition java_rule (x : Value) : string :=
  let f n := default "null" (java_string <$> get n x) in
  "Rule{name=" +:+ f "name" +:+ ", doc=" +:+ f "doc" +:+ ", kind=" +:+ f "kind" +:+ ", mode=" +:+ f "mode" +:+
  ", type='" +:+ f "type" +:+ "', tags='" +:+ f "tags" +:+ "', params='" +:+ f "params" +:+ "', expr='" +:+
  f "expr" +:+ "', onSuccess='" +:+ f "onSuccess" +:+ "', onFailure='" +:+ f "onFailure" +:+ "', disabled='" +:+
  default "false" (java_string <$> get "disabled" x) +:+ "'}".
Definition java_rule_set (r : option Value) : string :=
  match r with
  | None => "null"
  | Some r =>
      let rules k := match get k r ≫= as_array with
                     | Some a => "[" +:+ join ", " (map java_rule a) +:+ "]"
                     | None => "[]"
                     end in
      "Rules{migrationRules=" +:+ rules "migrationRules" +:+ ", domainRules=" +:+ rules "domainRules" +:+ "}"
  end.

Definition refs_string (d : Draft) : string := "[" +:+ join ", " (map RefIn.display (d_refs d)) +:+ "]".
Definition entity_string (d : Draft) (q : QualifiedSubject) : string :=
  "{subject=" +:+ Qualified.qualified q +:+ ",version=" +:+ show (d_version d) +:+ ",id=" +:+ show (d_id d) +:+
  ",schemaType=" +:+ default "AVRO" (d_schema_type d) +:+ ",references=" +:+ refs_string d +:+
  ",metadata=" +:+ java_metadata (d_metadata d) +:+ ",ruleSet=" +:+ java_rule_set (d_rule_set d) +:+
  ",schema=" +:+ default "null" (d_schema d) +:+ ",schemaTags=null}".
Definition draft_invalid (d : Draft) (q : QualifiedSubject) (kind : ErrorKind) (detail : string) : ApiError :=
  ApiErr.new 42201
    match kind with
    | ParseKind => "Invalid schema " +:+ entity_string d q +:+ " with refs " +:+ refs_string d +:+
                   " of type " +:+ default "AVRO" (d_schema_type d) +:+ ", details: " +:+ detail
    | ValidateKind => "Invalid schema " +:+ entity_string d q +:+ ", details: " +:+ detail
    end.

(** ** When two schemas are the same *)

Definition equivalent (c : Canon) (c_meta : option Value) (p : Entity) (p_meta : option Value) : bool :=
  bool_decide (c_type c = en_type p) && bool_decide (c_text c = en_schema p) &&
  opt_value_eqb c_meta p_meta && opt_value_eqb (c_rule_set c) (en_rule_set p).

Definition or_empty (m : option Value) : option Value := match m with Some _ => m | None => Some (VObject []) end.

Definition can_lookup_ignoring_version (c : Canon) (p : Entity) : bool :=
  let cv := confluent_version (c_metadata c) ≫= parse_u32 in
  let pv := confluent_version (en_metadata p) ≫= parse_u32 in
  match cv, pv with
  | None, Some _ => equivalent c (or_empty (c_metadata c)) p (without_confluent_version (en_metadata p))
  | Some v, None =>
      bool_decide (v = en_version p) &&
      equivalent c (without_confluent_version (c_metadata c)) p (or_empty (en_metadata p))
  | _, _ => equivalent c (c_metadata c) p (en_metadata p)
  end.

Definition can_lookup (c : Canon) (p : Entity) : bool :=
  if bool_decide (c_refs c = []) && negb (bool_decide (en_references p = [])) && can_lookup_ignoring_version c p
  then true
  else if bool_decide (is_Some (confluent_version (c_metadata c))) ||
          bool_decide (is_Some (confluent_version (en_metadata p)))
  then bool_decide (c_refs c = en_references p) && can_lookup_ignoring_version c p
  else false.

Record OldVersion := mkOld { ov_version : Z; ov_id : Z; ov_rec : SchemaRecord }.
End views.
