(* ===== verification/Registry.v ===== *)
(** The read side of the registry (registry/mod.rs, resolution.rs, schemas.rs,
    lookup.rs, listings.rs): which configuration and mode apply, how references
    resolve, how a request becomes a canonical schema, lookups, compatibility
    candidates and listings. Everything is a function of one reader: a pinned
    snapshot, access to schema bodies, and the contents of the parse caches. *)
From S2P Require Import Prelude SortedVec RustStr Errors Json Model Context Snapshot Keys Plan Store JavaOrder SchemaLayer Views.

Local Open Scope Z_scope.

Definition fail {A} (e : ApiError) : Outcome A := Err (Api e).
Definition refuse (b : bool) (e : ApiError) : Outcome () := if b then fail e else Ok ().

(** [for x in xs { if let Some(y) = f(x)? { return Ok(Some(y)) } }]. *)
Fixpoint find_map {A B} (f : A → Outcome (option B)) (l : list A) : Outcome (option B) :=
  match l with
  | [] => Ok None
  | x :: l => r ← f x; match r with Some y => Ok (Some y) | None => find_map f l end
  end.

(** [iter().rev().find(p)] and [iter().find(p)]. *)
Definition find_last {A} (p : A → bool) (l : list A) : option A := List.find p (reverse l).

Section registry.
Context `{!SchemaFormats}.

(** The registry's settings. *)
Record Settings := mkSettings { default_compatibility : CompatibilityLevel; normalize_default : bool }.

(** One request's view. [rd_parsed] and [rd_text] are what the two parse
    caches hold: parsed stored schemas by context, id and resolved
    references, parsed request schemas by content hash. *)
Record Reader := mkReader {
  rd_reg : Settings;
  rd_snap : Snapshot;
  rd_body : string → Z → Outcome (option SchemaRecord);
  rd_parsed : string * Z * string → option ParsedSchema;
  rd_text : string → option ParsedSchema;
}.
Implicit Types r : Reader.

Definition get_schema r (ctx : string) (id : Z) : Outcome (option SchemaRecord) := rd_body r ctx id.
(** [get_schema(..)?.ok_or_else(schema_not_found)]. *)
Definition need_schema r (ctx : string) (id : Z) : Outcome SchemaRecord :=
  rec ← get_schema r ctx id; ok_or rec (Api ApiErr.schema_not_found).
Definition versions_of r (q : QualifiedSubject) : versions_t := Snap.list_versions (rd_snap r) (context q) (subject q).

(** ** Resolution (resolution.rs) *)

Definition scope_for (q : QualifiedSubject) : Scope :=
  if Qualified.is_context_only q then ContextScope (context q) else SubjectScope (context q) (subject q).

(** [get_or_insert]. *)
Definition get_or_insert {A} (o : option A) (a : A) : option A := match o with Some _ => o | None => Some a end.

Definition filled (reg : Settings) (c : ConfigRecord.t) : ConfigRecord.t :=
  ConfigRecord.mk
    (get_or_insert (ConfigRecord.compatibility_level c) (default_compatibility reg))
    (ConfigRecord.alias c)
    (if normalize_default reg then get_or_insert (ConfigRecord.normalize c) true else ConfigRecord.normalize c)
    (ConfigRecord.validate_fields c) (ConfigRecord.validate_rules c) (ConfigRecord.compatibility_group c)
    (ConfigRecord.default_metadata c) (ConfigRecord.override_metadata c)
    (ConfigRecord.default_rule_set c) (ConfigRecord.override_rule_set c).

Definition config_of r (q : option QualifiedSubject) : option ConfigRecord.t :=
  match q with
  | None => Some (filled (rd_reg r) (default ConfigRecord.empty (Snap.get_config (rd_snap r) Global)))
  | Some q => filled (rd_reg r) <$> Snap.get_config (rd_snap r) (scope_for q)
  end.

Definition config_in_scope r (q : QualifiedSubject) : ConfigRecord.t :=
  match Snap.get_config (rd_snap r) (scope_for q) with
  | Some c => filled (rd_reg r) c
  | None =>
      let parent := if bool_decide (context q ≠ DEFAULT_CONTEXT)
                    then Snap.get_config (rd_snap r) (ContextScope (context q))
                    else Snap.get_config (rd_snap r) Global in
      filled (rd_reg r) (default ConfigRecord.empty parent)
  end.

Definition normalize_in_scope r (q : QualifiedSubject) : bool :=
  bool_decide (ConfigRecord.normalize (config_in_scope r q) = Some true).

Definition global_mode_in r : Mode := default Readwrite (Snap.get_mode (rd_snap r) Global).

Definition mode_of_scope r (q : option QualifiedSubject) : option Mode :=
  let global := global_mode_in r in
  if decide (global = ReadonlyOverride) then Some global else
  match q with
  | None => Some global
  | Some q => Snap.get_mode (rd_snap r) (scope_for q)
  end.

Definition mode_in_scope r (q : QualifiedSubject) : Mode :=
  let global := global_mode_in r in
  if decide (global = ReadonlyOverride) then global else
  match Snap.get_mode (rd_snap r) (scope_for q) with
  | Some m => m
  | None =>
      let parent := if bool_decide (context q ≠ DEFAULT_CONTEXT)
                    then Snap.get_mode (rd_snap r) (ContextScope (context q)) else Some global in
      default Readwrite parent
  end.

Definition get_config r (subject : option string) (default_to_global : bool) : Outcome ConfigRecord.t :=
  match subject with
  | None => or_panic (config_of r None)
  | Some s =>
      q ← api (Qualified.parse s);
      if default_to_global then Ok (config_in_scope r q) else
      ok_or (config_of r (Some q)) (Api (ApiErr.subject_compat_not_configured (Qualified.qualified q)))
  end.

Definition get_mode r (subject : option string) (default_to_global : bool) : Outcome Mode :=
  match subject with
  | None => or_panic (mode_of_scope r None)
  | Some s =>
      q ← api (Qualified.parse s);
      if default_to_global then Ok (mode_in_scope r q) else
      ok_or (mode_of_scope r (Some q)) (Api (ApiErr.subject_mode_not_configured (Qualified.qualified q)))
  end.

(** ** References (schemas.rs) *)

Definition ref_target (ctx : string) (sr : SchemaReference) : ApiResult QualifiedSubject :=
  q ← Qualified.parse_subject (ref_subject sr);
  Ok (if starts_with ":." (ref_subject sr) then q else mkQ ctx (subject q)).

(** [get(subject, version, returnDeleted)] (lookup.rs). *)
Definition get_exact r (q : QualifiedSubject) (spec : VersionSpec) (deleted : bool) : option (Z * VersionRecord) :=
  let vs := versions_of r q in
  match spec with
  | Latest => find_last (λ x, negb (vr_deleted x.2)) vs
  | Exact n => List.find (λ x, bool_decide (x.1 = n) && (deleted || negb (vr_deleted x.2))) vs
  end.

(** The visited set and the resolved schemas, dependencies first. *)
Abbreviation walk := (gset (string * string * Z) * list ResolvedRef)%type.

(** [sr.version.max(1) as u32]. *)
Definition ref_version_u32 (sr : SchemaReference) : Z := as_u32 (Z.max (ref_version sr) 1).

(** [depth] counts up from 0 and is refused above 64: 65 levels of fuel, of
    which running out is that refusal. *)
Fixpoint collect_ref (fuel : nat) r (name : string) (q : QualifiedSubject) (version : Z) (w : walk) : Outcome walk :=
  match fuel with
  | O => fail (ApiErr.invalid_schema "reference chain too deep")
  | S fuel =>
      let '(visited, out) := w in
      if bool_decide ((context q, subject q, version) ∈ visited) then Ok w else
      let visited := {[(context q, subject q, version)]} ∪ visited in
      vr ← ok_or (Snap.get_version (rd_snap r) (context q) (subject q) version)
             (Api (ApiErr.new 42201 ("No schema reference found for subject " +:+ str1 (byte 34) +:+
                     Qualified.qualified q +:+ str1 (byte 34) +:+ " and version " +:+ show version)));
      rec ← need_schema r (context q) (vr_id vr);
      w ← foldl (λ acc sr, w ← acc; t ← api (ref_target (context q) sr);
                   collect_ref fuel r (ref_name sr) t (ref_version_u32 sr) w)
                (Ok (visited, out)) (sr_references rec);
      Ok (w.1, w.2 ++ [mkResolved name (sr_schema rec)])
  end.
Definition REF_DEPTH : nat := 65.

(** [map_err(|e| e.message)]: an API error becomes its message. *)
Definition message_of {A} (m : Outcome A) : result (Fault + string) A :=
  map_err (λ f, match f with Api e => inr (message e) | f => inl f end) m.

Definition resolve_one r (ctx : string)
    (acc : list SchemaReference * walk * list (QualifiedSubject * Z)) (rin : RefIn.t) :
    result (Fault + string) (list SchemaReference * walk * list (QualifiedSubject * Z)) :=
  let '(concrete, w, targets) := acc in
  if RefIn.null rin then
    Err (inr ("Cannot invoke " +:+ str1 (byte 34) +:+
      "io.confluent.kafka.schemaregistry.client.rest.entities.SchemaReference.getName()" +:+ str1 (byte 34) +:+
      " because " +:+ str1 (byte 34) +:+ "reference" +:+ str1 (byte 34) +:+ " is null"))
  else
  match RefIn.name rin, RefIn.subject rin, RefIn.version rin with
  | Some name, Some subj, Some version =>
      let sr := mkRef name subj version in
      q ← message_of (api (ref_target ctx sr));
      spec ← (if decide (version = -1) then Ok Latest
              else if bool_decide (0 < version) then Ok (Exact (as_u32 version))
              else Err (inr ("io.confluent.kafka.schemaregistry.exceptions.InvalidVersionException: " +:+ show version)));
      match get_exact r q spec true with
      | None => Err (inr ("No schema reference found for subject " +:+ str1 (byte 34) +:+ Qualified.qualified q +:+
                          str1 (byte 34) +:+ " and version " +:+ show version))
      | Some (v, _) =>
          let sr := mkRef name subj (as_i32 v) in
          w ← message_of (collect_ref REF_DEPTH r (ref_name sr) q v w);
          Ok (concrete ++ [sr], w, targets ++ [(q, v)])
      end
  | _, _, _ => Err (inr ("Invalid reference: " +:+ RefIn.display rin))
  end.

Definition resolve_references r (ctx : string) (refs : list RefIn.t) :
    result (Fault + string) (list SchemaReference * list ResolvedRef * list (QualifiedSubject * Z)) :=
  '(concrete, w, targets) ← foldl (λ acc rin, a ← acc; resolve_one r ctx a rin) (Ok ([], (∅, []), [])) refs;
  Ok (concrete, w.2, targets).

(** Turn the textual error of a resolution into an API error. *)
Definition detail_error {A} (f : string → ApiError) (m : result (Fault + string) A) : Outcome A :=
  map_err (λ e, match e with inl f => f | inr s => Api (f s) end) m.

Definition resolve_stored r (ctx : string) (refs : list SchemaReference) : Outcome (list ResolvedRef) :=
  '(_, resolved, _) ← detail_error ApiErr.internal (resolve_references r ctx (RefIn.from <$> refs));
  Ok resolved.

(** ** Parsing through the caches (schemas.rs) *)

Definition resolved_preimage (refs : list ResolvedRef) : string :=
  foldr (λ x s, str1 NUL +:+ rr_name x +:+ str1 SOH +:+ rr_schema x +:+ s) "" refs.

Definition text_key (ty : SchemaType) (text : string) (refs : list ResolvedRef) (validate_defaults : bool) : string :=
  sha256_hex (SchemaTypeM.as_str ty +:+ str1 (byte (if validate_defaults then 1 else 0)) +:+ text +:+
              resolved_preimage refs).

Definition parse_cached r (ty : SchemaType) (text : string) (refs : list ResolvedRef) (validate_defaults : bool) :
    result SchemaError ParsedSchema :=
  match rd_text r (text_key ty text refs validate_defaults) with
  | Some p => Ok p
  | None => parse_with ty text refs validate_defaults
  end.

(** Thirty-two zero bytes for a schema without references. *)
Definition deps_fingerprint (resolved : list ResolvedRef) : string :=
  match resolved with [] => "" | _ => sha256_hex (resolved_preimage resolved) end.

Definition parse_record r (ctx : string) (id : Z) (rec : SchemaRecord) : Outcome ParsedSchema :=
  resolved ← resolve_stored r ctx (sr_references rec);
  match rd_parsed r (ctx, id, deps_fingerprint resolved) with
  | Some p => Ok p
  | None =>
      map_err (λ e, Api (ApiErr.internal ("stored schema no longer parses: " +:+ se_message e)))
        (parse_with (sr_type rec) (sr_schema rec) resolved false)
  end.

Definition canonicalize r (q : QualifiedSubject) (d : Draft) (is_new normalize : bool) : Outcome (option Canon) :=
  match d_schema d with
  | None => Ok None
  | Some text =>
      if is_blank text then Ok None else
      ty ← api (SchemaTypeM.parse (d_schema_type d));
      '(refs, resolved, targets) ←
        detail_error (draft_invalid d q ParseKind) (resolve_references r (context q) (d_refs d));
      parsed ← map_err (λ e, Api (draft_invalid d q (se_kind e) (se_message e)))
                 (parse_cached r ty text resolved (normalize && is_new));
      _ ← match ps_normalize_error parsed with
          | Some e => refuse normalize (draft_invalid d q ValidateKind e)
          | None => Ok ()
          end;
      let text := if normalize then ps_normalized parsed else ps_canonical parsed in
      Ok (Some (mkCanon ty text refs targets (d_metadata d) (d_rule_set d) parsed))
  end.

(** [iter().max()]. *)
Definition max_opt (l : list Z) : option Z :=
  foldl (λ acc v, Some match acc with Some a => Z.max a v | None => v end) None l.

Definition hash_lookup r (q : QualifiedSubject) (c : Canon) : option (Z * option (Z * VersionRecord)) :=
  id ← Snap.id_for_fingerprint (rd_snap r) (context q) (canon_fingerprint c);
  let usages := Snap.id_usages (rd_snap r) (context q) id in
  if bool_decide (usages = []) then None else
  let v := max_opt (filter (λ x, x.1 = subject q) usages).*2 in
  let sv := v ← v; vr ← Snap.get_version (rd_snap r) (context q) (subject q) v; Some (v, vr) in
  Some (id, sv).

Definition entity r (q : QualifiedSubject) (version : Z) (vr : VersionRecord) : Outcome Entity :=
  rec ← need_schema r (context q) (vr_id vr); Ok (entity_stored q version (vr_id vr) rec).

Definition formatted r (ctx : string) (id : Z) (rec : SchemaRecord) (format : option string) : Outcome string :=
  let proto := bool_decide (sr_type rec = Protobuf) in
  match (if proto && bool_decide (format = Some "ignore_extensions") then without_extensions (sr_schema rec) else None) with
  | Some text => Ok text
  | None =>
      if proto && bool_decide (format = Some "serialized") then
        p ← parse_record r ctx id rec;
        match ps_inner p with
        | PProtobuf p => Ok (default (sr_schema rec) (proto_serialized p))
        | _ => Ok (sr_schema rec)
        end
      else Ok (sr_schema rec)
  end.

(** [maybePopulateFromPrevious]: the new draft and whether it was modified. *)
Definition populate_from_previous r (q : QualifiedSubject) (cfg : ConfigRecord.t) (d : Draft)
    (latest_live : option (Z * VersionRecord)) (new_version : Z) : Outcome (Draft * bool) :=
  previous ← match latest_live with
             | Some (v, vr) => e ← entity r q v vr; Ok (Some e)
             | None => Ok None
             end;
  '(d, populated) ←
    (if match d_schema d with Some s => is_blank s | None => true end then
       match previous with
       | None => fail (ApiErr.new 42201 "Empty schema")
       | Some p =>
           Ok (mkDraft (Some (en_schema p)) (Some (SchemaTypeM.as_str (en_type p))) (RefIn.from <$> en_references p)
                 (d_metadata d) (d_rule_set d) (d_version d) (d_id d), true)
       end
     else Ok (d, false));
  let specific_meta := ConfigRecord.or (d_metadata d) (previous ≫= en_metadata) in
  let metadata := merge_metadata [ConfigRecord.default_metadata cfg; specific_meta; ConfigRecord.override_metadata cfg] in
  let specific_rules := ConfigRecord.or (d_rule_set d) (previous ≫= en_rule_set) in
  let rule_set := merge_rule_sets [ConfigRecord.default_rule_set cfg; specific_rules; ConfigRecord.override_rule_set cfg] in
  metadata ← (if bool_decide (d_version d ≠ 0) || bool_decide (is_Some (metadata_property metadata "confluent:version"))
              then with_confluent_version metadata new_version else Ok metadata);
  if bool_decide (is_Some metadata) || bool_decide (is_Some rule_set) then
    Ok (mkDraft (d_schema d) (d_schema_type d) (d_refs d) metadata rule_set (d_version d) (d_id d), true)
  else Ok (d, populated).

(** ** Listings used by the write side (listings.rs) *)

Definition is_live (deleted : bool) (x : Z * VersionRecord) : bool := deleted || negb (vr_deleted x.2).

Definition has_subjects r (q : QualifiedSubject) (deleted : bool) : bool :=
  existsb (is_live deleted) (versions_of r q) ||
  (Qualified.is_context_only q &&
   existsb (λ name, existsb (is_live deleted) (Snap.list_versions (rd_snap r) (context q) name))
           (Snap.list_subject_names (rd_snap r) (context q))).

Definition has_any_subject r (deleted : bool) : bool :=
  existsb (λ ctx, existsb (λ name, existsb (is_live deleted) (Snap.list_versions (rd_snap r) ctx name))
                          (Snap.list_subject_names (rd_snap r) ctx)) (Snap.list_contexts (rd_snap r)).

(** A usage whose version is not deleted. *)
Definition live_usage r (ctx : string) (u : string * Z) : bool :=
  match Snap.get_version (rd_snap r) ctx u.1 u.2 with Some vr => negb (vr_deleted vr) | None => false end.

Definition live_referrers r (ctx subj : string) (version : Z) : list Z :=
  dedup (sort_vec (List.filter (λ id, existsb (live_usage r ctx) (Snap.id_usages (rd_snap r) ctx id))
                     (Snap.referenced_by (rd_snap r) ctx subj version))).

Definition check_not_referenced r (q : QualifiedSubject) (version : Z) : Outcome () :=
  refuse (negb (bool_decide (live_referrers r (context q) (subject q) version = [])))
    (ApiErr.reference_exists ("One or more references exist to the schema {magic=1,keytype=SCHEMA,subject=" +:+
       Qualified.qualified q +:+ ",version=" +:+ show version +:+ "}.")).

(** ** Compatibility (lookup.rs) *)

Definition group_differs (cfg : ConfigRecord.t) (a b : option Value) : bool :=
  match ConfigRecord.compatibility_group cfg with
  | Some group => negb (opt_value_eqb (metadata_property a group) (metadata_property b group))
  | None => false
  end.

(** The candidates among the given versions, in their order. *)
Fixpoint collect_candidates r (ctx : string) (cfg : ConfigRecord.t) (new_metadata : option Value)
    (vs : versions_t) : Outcome (list OldVersion) :=
  match vs with
  | [] => Ok []
  | (v, vr) :: vs =>
      rec ← need_schema r ctx (vr_id vr);
      rest ← collect_candidates r ctx cfg new_metadata vs;
      Ok (if group_differs cfg (sr_metadata rec) new_metadata then rest else mkOld v (vr_id vr) rec :: rest)
  end.

Definition live_newest_first (vs : versions_t) : versions_t := filter (λ x, vr_deleted x.2 = false) (reverse vs).

Definition compat_candidates r (q : QualifiedSubject) (cfg : ConfigRecord.t) (new_metadata : option Value) :
    Outcome (list OldVersion) :=
  collect_candidates r (context q) cfg new_metadata (live_newest_first (versions_of r q)).

Definition check_compatibility r (ctx : string) (new : ParsedSchema) (olds : list OldVersion)
    (level : CompatibilityLevel) (cfg : ConfigRecord.t) : Outcome (list string) :=
  if bool_decide (level = LNone) || bool_decide (olds = []) then Ok [] else
  let needed := if Level.transitive level then length olds else 1%nat in
  previous ← mapM_result (λ o, p ← parse_record r ctx (ov_id o) (ov_rec o); Ok (mkPrevious (ov_version o) p))
               (take needed olds);
  let msgs := check_level new previous level in
  Ok (if bool_decide (msgs = []) then msgs else
      msgs ++ ["{validateFields: '" +:+
               (if default false (ConfigRecord.validate_fields cfg) then "true" else "false") +:+
               "', compatibility: '" +:+ Level.as_str level +:+ "'}"]).
End registry.
