(* ===== verification/Queries.v ===== *)
(** The queries of the API (registry/lookup.rs, registry/listings.rs): lookup
    of a schema under a subject, version reads, compatibility tests, listings
    and the id indexes. *)
From S2P Require Import Prelude SortedVec RustStr Errors Json Model Context Snapshot Keys Plan Store JavaOrder SchemaLayer Views Registry.

Local Open Scope Z_scope.

(** [format.is_some_and(|f| !f.trim().is_empty())]. *)
Definition wants_format (format : option string) : bool :=
  match format with Some f => negb (is_blank f) | None => false end.

Section queries.
Context `{!SchemaFormats}.
Implicit Types r : Reader.

(** ** Lookup *)

(** The first of the given versions the schema can be looked up as. *)
Fixpoint lookup_versions r (q : QualifiedSubject) (c : Canon) (vs : versions_t) : Outcome (option Entity) :=
  match vs with
  | [] => Ok None
  | (v, vr) :: vs =>
      prev ← entity r q v vr;
      if can_lookup c prev then Ok (Some prev) else lookup_versions r q c vs
  end.

Definition lookup_under_subject r (q : QualifiedSubject) (d : Draft)
    (normalize lookup_deleted latest_only : bool) : Outcome (option Entity) :=
  canon ← canonicalize r q d false normalize;
  match canon with
  | None => Ok None
  | Some c =>
      match (if latest_only then None else hash_lookup r q c) with
      | Some (id, Some (v, vr)) =>
          if lookup_deleted || negb (vr_deleted vr) then Ok (Some (entity_from_canon q v id c))
          else lookup_versions r q c (filter (λ x, is_live lookup_deleted x = true) (reverse (versions_of r q)))
      | _ =>
          if latest_only then
            match find_last (λ x, negb (vr_deleted x.2)) (versions_of r q) with
            | Some (v, vr) => lookup_versions r q c [(v, vr)]
            | None => Ok None
            end
          else lookup_versions r q c (filter (λ x, is_live lookup_deleted x = true) (reverse (versions_of r q)))
      end
  end.

Definition other_contexts r : list string :=
  filter (λ c, c ≠ DEFAULT_CONTEXT) (Snap.list_contexts (rd_snap r)).

(** In the other contexts, a schema that does not parse there is skipped. *)
Definition skip_invalid {A} (m : Outcome (option A)) : Outcome (option A) :=
  match m with
  | Err (Api e) => if decide (code e = 42201) then Ok None else m
  | _ => m
  end.

Definition lookup_using_contexts r (q : QualifiedSubject) (d : Draft) (normalize deleted : bool) : Outcome (option Entity) :=
  e ← lookup_under_subject r q d normalize deleted false;
  match e with
  | Some e => Ok (Some e)
  | None =>
      if bool_decide (context q ≠ DEFAULT_CONTEXT) then Ok None else
      find_map (λ ctx, skip_invalid (lookup_under_subject r (mkQ ctx (subject q)) d normalize deleted false))
        (other_contexts r)
  end.

Definition get_using_contexts r (q : QualifiedSubject) (spec : VersionSpec) (deleted : bool) :
    option (QualifiedSubject * Z * VersionRecord) :=
  match get_exact r q spec deleted with
  | Some (v, vr) => Some (q, v, vr)
  | None =>
      if bool_decide (context q ≠ DEFAULT_CONTEXT) then None else
      head (omap (λ ctx, '(v, vr) ← get_exact r (mkQ ctx (subject q)) spec deleted; Some (mkQ ctx (subject q), v, vr))
              (other_contexts r))
  end.

Definition with_format r (ctx : string) (id : Z) (rec : SchemaRecord) (format : option string) (view : SchemaView) :
    Outcome SchemaView :=
  if wants_format format then
    s ← formatted r ctx id rec format;
    Ok (mkView (sv_subject view) (sv_version view) (sv_id view) (sv_schema_type view) (sv_references view)
          (sv_metadata view) (sv_rule_set view) s (sv_aliases view))
  else Ok view.

Definition not_found r (q : QualifiedSubject) (deleted : bool) (otherwise : ApiError) : ApiError :=
  if has_subjects r q deleted then otherwise else ApiErr.subject_not_found (Qualified.qualified q).

(** [POST /subjects/{subject}]. *)
Definition lookup r (subj : string) (req : RegisterSchemaRequest) (normalize deleted : bool) (format : option string) :
    Outcome SchemaView :=
  q ← api (Qualified.parse subj);
  let normalize := normalize || normalize_in_scope r q in
  e ← lookup_using_contexts r q (draft_from req) normalize deleted;
  match e with
  | None => fail (not_found r q deleted ApiErr.schema_not_found)
  | Some e =>
      let view := entity_view e in
      if wants_format format then
        eq ← api (Qualified.parse (sv_subject view));
        rec ← get_schema r (context eq) (sv_id view);
        match rec with
        | Some rec => with_format r (context eq) (sv_id view) rec format view
        | None => Ok view
        end
      else Ok view
  end.

(** ** Version reads *)

Definition version_or_error r (subj : string) (spec : VersionSpec) (deleted : bool) :
    Outcome (QualifiedSubject * Z * VersionRecord) :=
  q ← api (Qualified.parse subj);
  match get_using_contexts r q spec deleted with
  | Some found => Ok found
  | None => fail (not_found r q deleted (ApiErr.version_not_found (Spec.display spec)))
  end.

Definition get_version_formatted r (subj : string) (spec : VersionSpec) (deleted : bool) (format : option string) :
    Outcome SchemaView :=
  '(cq, v, vr) ← version_or_error r subj spec deleted;
  rec ← need_schema r (context cq) (vr_id vr);
  with_format r (context cq) (vr_id vr) rec format (entity_view (entity_stored cq v (vr_id vr) rec)).

Definition list_versions r (subj : string) (deleted deleted_only : bool) : Outcome (list Z) :=
  q ← api (Qualified.parse subj);
  if has_subjects r q (deleted || deleted_only) then
    Ok (filter (λ x, (if deleted_only then vr_deleted x.2 else deleted || negb (vr_deleted x.2)) = true)
          (versions_of r q)).*1
  else fail (ApiErr.subject_not_found (Qualified.qualified q)).

Definition referenced_by r (subj : string) (spec : VersionSpec) : Outcome (list Z) :=
  '(cq, v, _) ← version_or_error r subj spec true;
  Ok (live_referrers r (context cq) (subject cq) v).

(** The newest version whose metadata properties contain every given pair;
    collecting the pairs into a map keeps the last of repeated keys. *)
Definition has_pairs (pairs : gmap string string) (props : Map) : bool :=
  forallb (λ '(k, v), bool_decide (map_get k props ≫= as_str = Some v)) (map_to_list pairs).
Fixpoint latest_with_loop r (q : QualifiedSubject) (wanted : gmap string string) (format : option string)
    (vs : versions_t) : Outcome (option SchemaView) :=
  match vs with
  | [] => Ok None
  | (v, vr) :: vs =>
      rec ← need_schema r (context q) (vr_id vr);
      match (m ← sr_metadata rec; p ← get "properties" m; as_object p) with
      | Some props =>
          if has_pairs wanted props then
            view ← with_format r (context q) (vr_id vr) rec format (entity_view (entity_stored q v (vr_id vr) rec));
            Ok (Some view)
          else latest_with_loop r q wanted format vs
      | None => latest_with_loop r q wanted format vs
      end
  end.
Definition latest_with_metadata r (subj : string) (pairs : list (string * string)) (deleted : bool)
    (format : option string) : Outcome SchemaView :=
  q ← api (Qualified.parse subj);
  let wanted := foldl (λ m '(k, v), <[k := v]> m) (∅ : gmap string string) pairs in
  found ← latest_with_loop r q wanted format (filter (λ x, is_live deleted x = true) (reverse (versions_of r q)));
  match found with
  | Some view => Ok view
  | None => fail (not_found r q deleted ApiErr.schema_not_found)
  end.

(** ** Compatibility test *)

Definition test_compatibility r (subj : string) (version : option VersionSpec) (req : RegisterSchemaRequest)
    (normalize verbose : bool) : Outcome (list string) :=
  q ← api (Qualified.parse subj);
  previous ← match version with
             | Some spec =>
                 match get_exact r q spec false with
                 | Some found => Ok [found]
                 | None => if decide (spec = Latest) then Ok []
                           else fail (ApiErr.version_not_found (Spec.display spec))
                 end
             | None => Ok (live_newest_first (versions_of r q))
             end;
  let normalize := normalize || normalize_in_scope r q in
  let result :=
    canon ← canonicalize r q (draft_from req) true normalize;
    c ← ok_or canon (Api (ApiErr.new 42201 "Empty schema"));
    let cfg := config_in_scope r q in
    olds ← collect_candidates r (context q) cfg (c_metadata c) previous;
    let level := default (default_compatibility (rd_reg r)) (ConfigRecord.compatibility_level cfg) in
    check_compatibility r (context q) (c_parsed c) olds level cfg in
  match result with
  | Err (Api e) => if bool_decide (code e = 42201) && verbose then Ok [message e] else fail e
  | other => other
  end.

(** ** Listings *)

Definition contexts_matching r (ctx : string) : list string :=
  if decide (ctx = WILDCARD_CONTEXT) then Snap.list_contexts (rd_snap r) else [ctx].
Definition parse_prefix (prefix : option string) : ApiResult QualifiedSubject :=
  match prefix with None => Ok (mkQ WILDCARD_CONTEXT "") | Some p => Qualified.parse p end.

Definition included (deleted deleted_only : bool) (vs : versions_t) : bool :=
  let live := existsb (λ x, negb (vr_deleted x.2)) vs in
  if deleted_only then negb live && negb (bool_decide (vs = []))
  else live || (deleted && negb (bool_decide (vs = []))).

Definition list_subjects r (prefix : option string) (deleted deleted_only : bool) : Outcome (list string) :=
  p ← api (parse_prefix prefix);
  Ok (sort_vec (ctx ← contexts_matching r (context p);
                name ← Snap.list_subject_names (rd_snap r) ctx;
                if starts_with (subject p) name &&
                   included deleted deleted_only (Snap.list_versions (rd_snap r) ctx name)
                then [qualify ctx name] else [])).

(** ** The id indexes *)

(** The body, when some (or the named) subject of the context uses the id. *)
Definition found_in r (id : Z) (ctx : string) (name : option string) : Outcome (option SchemaRecord) :=
  let usages := Snap.id_usages (rd_snap r) ctx id in
  let used := match name with
              | None => negb (bool_decide (usages = []))
              | Some n => existsb (λ u, bool_decide (u.1 = n)) usages
              end in
  if used then get_schema r ctx id else Ok None.

(** The subject hint, with whether it was written context-qualified. *)
Definition id_hint (subj : option string) : Outcome (option (QualifiedSubject * bool)) :=
  match subj with
  | Some s => if decide (s = "") then Ok None else
              q ← api (Qualified.parse s); Ok (Some (q, starts_with ":." s))
  | None => Ok None
  end.

(** The first context in which this very subject uses the id. *)
Definition find_under_subject r (id : Z) (name : string) : Outcome (option (string * SchemaRecord)) :=
  find_map (λ ctx, rec ← found_in r id ctx (Some name);
                   Ok match rec with Some rec => Some (ctx, rec) | None => None end)
    (DEFAULT_CONTEXT :: other_contexts r).

Definition locate_general r (id : Z) (hint : option (QualifiedSubject * bool)) : Outcome (string * SchemaRecord) :=
  hit ← match hint with
        | Some (q, _) => if decide (subject q = "") then Ok None else find_under_subject r id (subject q)
        | None => Ok None
        end;
  match hit with
  | Some x => Ok x
  | None =>
      rec ← found_in r id DEFAULT_CONTEXT None;
      match rec with
      | Some rec => Ok (DEFAULT_CONTEXT, rec)
      | None => fail (ApiErr.schema_id_not_found id)
      end
  end.

Definition locate_id r (id : Z) (subj : option string) : Outcome (string * SchemaRecord) :=
  hint ← id_hint subj;
  match hint with
  | Some (q, true) =>
      if bool_decide (context q ≠ DEFAULT_CONTEXT) then
        rec ← found_in r id (context q) (if decide (subject q = "") then None else Some (subject q));
        match rec with
        | Some rec => Ok (context q, rec)
        | None => fail (ApiErr.schema_id_not_found id)
        end
      else locate_general r id hint
  | _ => locate_general r id hint
  end.

(** [u32::try_from(id).ok().filter(|i| *i > 0)]. *)
Definition positive_u32 (id : Z) : option Z := if bool_decide (0 < id ≤ u32_max) then Some id else None.

Definition get_schema_by_id r (id : Z) (subj : option string) (fetch_max_id : bool) (format : option string) :
    Outcome SchemaByIdView :=
  uid ← ok_or (positive_u32 id) (Api (ApiErr.schema_id_not_found id));
  '(ctx, rec) ← locate_id r uid subj;
  let max_id := if fetch_max_id then Some (Z.max 0 (Snap.next_id (rd_snap r) ctx - 1)) else None in
  s ← formatted r ctx uid rec format;
  Ok (mkByIdView (schema_type_view (sr_type rec)) s (sr_references rec) (sr_metadata rec) (sr_rule_set rec) max_id).

(** Per subject: its latest version with the id and the first time. *)
Fixpoint note_usage (s : string) (v ts : Z) (l : list (string * Z * Z)) : list (string * Z * Z) :=
  match l with
  | [] => [(s, v, ts)]
  | (s', v', ts') :: l =>
      if decide (s' = s) then (s', Z.max v' v, Z.min ts' ts) :: l else (s', v', ts') :: note_usage s v ts l
  end.
Definition per_subject r (ctx : string) (id : Z) : list (string * Z * Z) :=
  foldl (λ acc '(s, v), match Snap.get_version (rd_snap r) ctx s v with
                        | Some vr => note_usage s v (vr_ts vr) acc
                        | None => acc
                        end) [] (Snap.id_usages (rd_snap r) ctx id).

(** By first time, then version, then name. *)
Definition sort_per_subject (l : list (string * Z * Z)) : list (string * Z * Z) :=
  merge_sort (λ x y, kle (x.2, x.1.2, x.1.1) (y.2, y.1.2, y.1.1)) l.

Fixpoint id_versions_loop r (ctx : string) (per : list (string * Z * Z)) (deleted : bool) (names : list string) :
    Outcome (list SubjectVersion) :=
  match names with
  | [] => Ok []
  | name :: names =>
      q ← api (Qualified.parse name);
      '(_, v, _) ← or_panic (List.find (λ x, bool_decide (x.1.1 = subject q)) per);
      rest ← id_versions_loop r ctx per deleted names;
      let keep := deleted || match Snap.get_version (rd_snap r) ctx (subject q) v with
                             | Some vr => negb (vr_deleted vr)
                             | None => false
                             end in
      Ok (if keep then mkSubjectVersion name v :: rest else rest)
  end.

Definition id_versions r (id : Z) (subj : option string) (deleted : bool) : Outcome (list SubjectVersion) :=
  uid ← ok_or (positive_u32 id) (Api ApiErr.schema_not_found);
  '(ctx, _) ← map_err (λ f, match f with Api _ => Api ApiErr.schema_not_found | f => f end) (locate_id r uid subj);
  let per := sort_per_subject (per_subject r ctx uid) in
  id_versions_loop r ctx per deleted (chm_order (map (λ x, qualify ctx x.1.1) per)).

Definition id_subjects r (id : Z) (subj : option string) (deleted : bool) : Outcome (list string) :=
  l ← id_versions r id subj deleted; Ok (map sn_subject l).

(** ** Small reads *)

Definition all_subject_versions r : list (string * string * Z) :=
  ctx ← Snap.list_contexts (rd_snap r);
  subj ← Snap.list_subject_names (rd_snap r) ctx;
  x ← Snap.list_versions (rd_snap r) ctx subj;
  [(ctx, subj, x.1)].

Definition export_payload r (ctx subj : string) (version : Z) : Outcome (option (VersionRecord * SchemaRecord)) :=
  match Snap.get_version (rd_snap r) ctx subj version with
  | None => Ok None
  | Some vr => rec ← need_schema r ctx (vr_id vr); Ok (Some (vr, rec))
  end.

Definition alias_of r (subj : string) : option string :=
  if has_aliases (rd_snap r) then
    match Qualified.parse subj with
    | Ok q => Snap.get_config (rd_snap r) (scope_for q) ≫= ConfigRecord.alias
    | Err _ => None
    end
  else None.

(** ** The lock-free answer of a registration (registry/mod.rs) *)

Definition register_fast_path r (q : QualifiedSubject) (d : Draft) (normalize : bool) : Outcome (option RegisterResponse) :=
  if ConfigRecord.has_defaults_or_overrides (config_in_scope r q) then Ok None else
  let is_latest := bool_decide (d_version d = -1) in
  existing ← lookup_under_subject r q d normalize false is_latest;
  match existing with
  | None => Ok None
  | Some existing =>
      if bool_decide (d_version d = 0) || is_latest then
        Ok (if bool_decide (d_id d < 0) || bool_decide (as_u32 (d_id d) = en_id existing)
            then Some (response_id (en_id existing)) else None)
      else if bool_decide (0 ≤ d_id d) && bool_decide (en_id existing = as_u32 (d_id d)) then
        if bool_decide (0 < d_version d) && bool_decide (en_version existing = as_u32 (d_version d))
        then Ok (Some (response_full existing))
        else if bool_decide (0 < d_version d) then
          match get_exact r q (Exact (as_u32 (d_version d))) false with
          | Some (v, vr) =>
              older ← entity r q v vr;
              Ok (if bool_decide (en_id older = en_id existing) &&
                     bool_decide (entity_fingerprint older = entity_fingerprint existing)
                  then Some (response_full older) else None)
          | None => Ok None
          end
        else Ok None
      else Ok None
  end.
End queries.
