(* ===== verification/Mutations.v ===== *)
(** The verbs (mutations/): every intended change to the registry, as what it
    touches, what kind of change it is, and a pure plan from one view. *)
From S2P Require Import Prelude SortedVec RustStr Errors Json Model Context Snapshot Keys Plan Store JavaOrder SchemaLayer Views Registry Queries.

Local Open Scope Z_scope.

Section mutations.
Context `{!SchemaFormats}.

(** ** The view a verb plans against (mutations/mod.rs, [ReadView]) *)

Record ReadView := mkReadView {
  vw_reader : Reader;
  vw_now : Z;
  vw_guid : string;
  (** Exporter records live in the store rather than the snapshot. *)
  vw_exporter : string → Outcome (option ExporterRecord);
}.
Implicit Types view : ReadView.

Definition view_config view (scope : Scope) : option ConfigRecord.t := Snap.get_config (rd_snap (vw_reader view)) scope.
Definition stored_config view (q : option QualifiedSubject) : option ConfigRecord.t := config_of (vw_reader view) q.

Definition mode_for view (t : Target) : Mode :=
  match t with
  | SubjectTarget q => mode_in_scope (vw_reader view) q
  | ContextTarget ctx => mode_in_scope (vw_reader view) (mkQ ctx "")
  | GlobalTarget | ExportersTarget => global_mode_in (vw_reader view)
  end.

(** The trait. *)
Class Mutation (M : Type) := {
  Output : Type;
  fast_path : M → ReadView → Outcome (option Output);
  target : M → Target;
  intent : M → ModeGate.Intent;
  gate : M → Gate;
  plan : M → ReadView → Outcome (Plan Output);
}.
Definition no_fast_path {M O} (_ : M) (_ : ReadView) : Outcome (option O) := Ok None.

(** ** Shared planning (registry/mod.rs) *)

Definition HashSet := (gset (string * Z)).

Definition hard_delete_writes (r : Reader) (q : QualifiedSubject) (version : Z) (vr : VersionRecord)
    (also_removed : HashSet) : Outcome (list Write * LogEvent) :=
  let still_used := existsb (λ u : string * Z,
      negb (bool_decide (u.1 = subject q) && (bool_decide (u.2 = version) || bool_decide (u ∈ also_removed))))
    (Snap.id_usages (rd_snap r) (context q) (vr_id vr)) in
  let delete := WDeleteVersion (context q) (subject q) version (vr_id vr) in
  extra ← (if still_used then Ok [] else
           rec ← get_schema r (context q) (vr_id vr);
           match rec with
           | None => Ok []
           | Some rec =>
               refs ← mapM_result (λ sr, t ← api (ref_target (context q) sr);
                        Ok (WDeleteRefby (context t) (subject t) (ref_version_u32 sr) (vr_id vr))) (sr_references rec);
               Ok (refs ++ [WDeleteSchema (context q) (vr_id vr)])
           end);
  Ok (delete :: extra, mkEvent (context q) (subject q) version (vr_id vr) HardDelete).

(** One hard delete after another: the writes and the events. *)
Definition hard_delete_all (r : Reader) (l : list (QualifiedSubject * Z * VersionRecord)) (also : HashSet) :
    Outcome (list Write * list LogEvent) :=
  xs ← mapM_result (λ '(q, v, vr), hard_delete_writes r q v vr also) l;
  Ok (concat xs.*1, xs.*2).

(** ** [RegisterSchema] *)

Record RegisterSchema := mkRegister { rg_subject : QualifiedSubject; rg_draft : Draft; rg_normalize : bool }.

Definition register_new (subj : string) (req : RegisterSchemaRequest) (normalize : bool) : ApiResult RegisterSchema :=
  if is_valid_subject subj then
    q ← Qualified.parse subj; Ok (mkRegister q (draft_from req) normalize)
  else Err (ApiErr.invalid_subject subj).

Definition register_normalize (m : RegisterSchema) view : bool :=
  rg_normalize m || normalize_in_scope (vw_reader view) (rg_subject m).

(** The version the subject already has of the same schema, newest first. *)
Fixpoint find_same (r : Reader) (q : QualifiedSubject) (c : Canon) (schema_id : Z) (vs : versions_t) :
    Outcome (option (Z * VersionRecord)) :=
  match vs with
  | [] => Ok None
  | (v, vr) :: vs =>
      if bool_decide (0 ≤ schema_id) && bool_decide (as_u32 schema_id ≠ vr_id vr)
      then find_same r q c schema_id vs
      else e ← entity r q v vr;
           if can_lookup c e then Ok (Some (v, vr)) else find_same r q c schema_id vs
  end.

Definition answer (modified : bool) (e : Entity) : RegisterResponse :=
  if modified then response_full e else response_id (en_id e).

(** Is the content already stored? Either the registered version, or the id
    to register under. *)
Definition find_stored (r : Reader) (q : QualifiedSubject) (d : Draft) (canon : option Canon) :
    Outcome (Entity + Z) :=
  match canon with
  | None => Ok (inr (d_id d))
  | Some c =>
      let by_hash := match hash_lookup r q c with
                     | Some (id, sv) => if bool_decide (d_id d < 0) || bool_decide (as_u32 (d_id d) = id)
                                        then Some (id, sv) else None
                     | None => None
                     end in
      match by_hash with
      | Some (id, Some (v, vr)) =>
          if bool_decide (d_version d = 0) && negb (vr_deleted vr)
          then Ok (inl (entity_from_canon q v id c)) else Ok (inr (as_i32 id))
      | Some (id, None) => Ok (inr (as_i32 id))
      | None => Ok (inr (d_id d))
      end
  end.

Definition new_version_of (versions : versions_t) : Z :=
  match max_opt versions.*1 with Some m => u32_add m 1 | None => 1 end.

(** The version number the registration gets. *)
Definition choose_version (d : Draft) (new_version : Z) (import : bool) : Outcome Z :=
  if bool_decide (d_version d ≤ 0) then Ok new_version
  else if bool_decide (new_version ≠ as_u32 (d_version d)) && negb import
  then fail (ApiErr.new 42201 "Version is not one more than previous version")
  else Ok (as_u32 (d_version d)).

(** The id it gets: the one it asked for, unless that id holds other content. *)
Definition choose_id (r : Reader) (q : QualifiedSubject) (schema_id : Z) (fp : string) : Outcome Z :=
  if bool_decide (0 ≤ schema_id) then
    let id := as_u32 schema_id in
    existing ← (if bool_decide (Snap.id_usages (rd_snap r) (context q) id = []) then Ok None
                else get_schema r (context q) id);
    match existing with
    | Some existing =>
        if bool_decide (sr_fingerprint existing ≠ fp)
        then fail (ApiErr.operation_not_permitted ("Overwrite new schema with id " +:+ show id +:+ " is not permitted."))
        else Ok id
    | None => Ok id
    end
  else Ok (Snap.next_id (rd_snap r) (context q)).

(** The body to store. *)
Definition choose_record (r : Reader) view (q : QualifiedSubject) (id : Z) (c : Canon) (fp : string) : Outcome SchemaRecord :=
  existing ← get_schema r (context q) id;
  let fresh := mkSchemaRecord (c_type c) (c_text c) (c_refs c) (c_metadata c) (c_rule_set c) fp
                 (fingerprint (c_type c) (ps_normalized (c_parsed c)) (c_refs c) None None) (vw_guid view) in
  Ok match existing with
     | Some e => if decide (sr_fingerprint e = fp) then e else fresh
     | None => fresh
     end.

(** The plan once the content, the id and the version are decided. *)
Definition register_rows (r : Reader) view (q : QualifiedSubject) (c : Canon) (versions : versions_t)
    (version id : Z) (fp : string) : Outcome (list Write * list LogEvent) :=
  let next_id := Snap.next_id (rd_snap r) (context q) in
  let old := List.find (λ x : Z * VersionRecord, bool_decide (x.1 = version)) versions in
  '(ws1, evs1) ← hard_delete_all r (match old with Some (_, vr) => [(q, version, vr)] | None => [] end) ∅;
  let stale := filter (λ x : Z * VersionRecord, vr_deleted x.2 = true ∧ vr_id x.2 = id ∧ x.1 < version) versions in
  let stale_keys : HashSet := list_to_set (map (λ x, (subject q, x.1)) stale) in
  '(ws2, evs2) ← hard_delete_all r (map (λ x, (q, x.1, x.2)) stale) stale_keys;
  rec ← choose_record r view q id c fp;
  let ws := ws1 ++ ws2 ++ [WPutSchema (context q) id rec true] ++
            (if bool_decide (next_id ≤ id) then [WSetNextId (context q) (u32_add id 1)] else []) ++
            [WPutVersion (context q) (subject q) version (mkVersion id false (vw_now view))] ++
            map (λ x, WPutRefby (context x.1) (subject x.1) x.2 id) (c_targets c) in
  Ok (ws, evs1 ++ evs2 ++ [mkEvent (context q) (subject q) version id Register]).

Definition register_plan (m : RegisterSchema) view : Outcome (Plan RegisterResponse) :=
  let r := vw_reader view in
  let q := rg_subject m in
  let normalize := register_normalize m view in
  let import := bool_decide (mode_for view (SubjectTarget q) = Import) in
  let versions := versions_of r q in
  let new_version := new_version_of versions in
  let undeleted := live_newest_first versions in
  let cfg := config_in_scope r q in
  '(d, modified) ← (if import then Ok (rg_draft m, false)
                    else populate_from_previous r q cfg (rg_draft m) (head undeleted) new_version);
  canon ← canonicalize r q d (bool_decide (d_id d < 0)) normalize;
  stored ← find_stored r q d canon;
  match stored with
  | inl e => Ok (PlanM.new (answer modified e))
  | inr schema_id =>
      same ← (if bool_decide (d_version d = 0)
              then match canon with Some c => find_same r q c schema_id undeleted | None => Ok None end
              else Ok None);
      c ← ok_or canon (Api (ApiErr.new 42201 "Empty schema"));
      match same with
      | Some (v, vr) => Ok (PlanM.new (answer modified (entity_from_canon q v (vr_id vr) c)))
      | None =>
          _ ← (if import then Ok () else
               let level := default (default_compatibility (rd_reg r)) (ConfigRecord.compatibility_level cfg) in
               olds ← compat_candidates r q cfg (c_metadata c);
               msgs ← check_compatibility r (context q) (c_parsed c) olds level cfg;
               refuse (negb (bool_decide (msgs = []))) (ApiErr.incompatible (Qualified.qualified q) msgs));
          version ← choose_version d new_version import;
          let fp := canon_fingerprint c in
          id ← choose_id r q schema_id fp;
          '(ws, evs) ← register_rows r view q c versions version id fp;
          Ok (mkPlan ws evs (answer modified (entity_from_canon q version id c)))
      end
  end.

#[export] Instance register_mutation : Mutation RegisterSchema := {
  Output := RegisterResponse;
  fast_path m view :=
    register_fast_path (vw_reader view) (rg_subject m) (rg_draft m) (register_normalize m view);
  target m := SubjectTarget (rg_subject m);
  intent m := if bool_decide (0 ≤ d_id (rg_draft m)) then ModeGate.ImportI else ModeGate.Write;
  gate _ := BeforePlan;
  plan := register_plan;
}.

(** ** [DeleteSubject] *)

Record DeleteSubject := mkDeleteSubject { ds_subject : QualifiedSubject; ds_permanent : bool }.
Definition delete_subject_new (subj : string) (permanent : bool) : ApiResult DeleteSubject :=
  q ← Qualified.parse subj; Ok (mkDeleteSubject q permanent).

Definition soft_delete_write (q : QualifiedSubject) (v : Z) (vr : VersionRecord) : Write :=
  WPutVersion (context q) (subject q) v (mkVersion (vr_id vr) true (vr_ts vr)).
Definition soft_delete_event (q : QualifiedSubject) (v : Z) (vr : VersionRecord) : LogEvent :=
  mkEvent (context q) (subject q) v (vr_id vr) SoftDelete.
Definition drop_settings (q : QualifiedSubject) : list Write :=
  [WDeleteMode (SubjectScope (context q) (subject q)); WDeleteConfig (SubjectScope (context q) (subject q))].

(** Nothing references the versions, and permanent deletes come second. *)
Fixpoint check_deletable (r : Reader) (q : QualifiedSubject) (permanent : bool) (vs : versions_t) : Outcome () :=
  match vs with
  | [] => Ok ()
  | (v, vr) :: vs =>
      _ ← check_not_referenced r q v;
      _ ← refuse (permanent && negb (vr_deleted vr)) (ApiErr.subject_not_soft_deleted (Qualified.qualified q));
      check_deletable r q permanent vs
  end.

Definition delete_subject_plan (m : DeleteSubject) view : Outcome (Plan (list Z)) :=
  let r := vw_reader view in
  let q := ds_subject m in
  _ ← refuse (negb (has_subjects r q true)) (ApiErr.subject_not_found (Qualified.qualified q));
  _ ← refuse (negb (ds_permanent m) && negb (has_subjects r q false))
        (ApiErr.subject_soft_deleted (Qualified.qualified q));
  let versions := filter (λ x, ds_permanent m || negb (vr_deleted x.2) = true) (versions_of r q) in
  _ ← check_deletable r q (ds_permanent m) versions;
  '(ws, evs) ← (if ds_permanent m then
                  let all : HashSet := list_to_set (map (λ x, (subject q, x.1)) versions) in
                  hard_delete_all r (map (λ x, (q, x.1, x.2)) versions) all
                else Ok (map (λ x, soft_delete_write q x.1 x.2) versions ++ drop_settings q,
                         map (λ x, soft_delete_event q x.1 x.2) versions));
  Ok (mkPlan ws evs versions.*1).

#[export] Instance delete_subject_mutation : Mutation DeleteSubject := {
  Output := list Z;
  fast_path := no_fast_path;
  target m := SubjectTarget (ds_subject m);
  intent _ := ModeGate.Modify;
  gate _ := AfterPlan;
  plan := delete_subject_plan;
}.

(** ** [DeleteSubjectVersion] *)

Record DeleteSubjectVersion := mkDeleteVersion {
  dv_subject : QualifiedSubject; dv_spec : VersionSpec; dv_permanent : bool }.
Definition delete_version_new (subj : string) (spec : VersionSpec) (permanent : bool) : ApiResult DeleteSubjectVersion :=
  q ← Qualified.parse subj; Ok (mkDeleteVersion q spec permanent).

Definition delete_version_plan (m : DeleteSubjectVersion) view : Outcome (Plan Z) :=
  let r := vw_reader view in
  let q := dv_subject m in
  match get_exact r q (dv_spec m) true with
  | None => fail (not_found r q true (ApiErr.version_not_found (Spec.display (dv_spec m))))
  | Some (version, vr) =>
      _ ← refuse (negb (dv_permanent m) && bool_decide (get_exact r q (dv_spec m) false = None))
            (ApiErr.version_soft_deleted (Qualified.qualified q) version);
      _ ← check_not_referenced r q version;
      _ ← refuse (dv_permanent m && negb (vr_deleted vr))
            (ApiErr.version_not_soft_deleted (Qualified.qualified q) version);
      if dv_permanent m then
        '(ws, ev) ← hard_delete_writes r q version vr ∅;
        Ok (mkPlan ws [ev] version)
      else
        let live_left := existsb (λ x, bool_decide (x.1 ≠ version) && negb (vr_deleted x.2)) (versions_of r q) in
        Ok (mkPlan (soft_delete_write q version vr :: (if live_left then [] else drop_settings q))
              [soft_delete_event q version vr] version)
  end.

#[export] Instance delete_version_mutation : Mutation DeleteSubjectVersion := {
  Output := Z;
  fast_path := no_fast_path;
  target m := SubjectTarget (dv_subject m);
  intent _ := ModeGate.Modify;
  gate _ := AfterPlan;
  plan := delete_version_plan;
}.

(** ** Scopes shared by the config and mode verbs *)

Definition optional_parse (subj : option string) : ApiResult (option QualifiedSubject) :=
  match subj with None => Ok None | Some s => q ← Qualified.parse s; Ok (Some q) end.
Definition opt_scope (q : option QualifiedSubject) : Scope :=
  match q with
  | None => Global
  | Some q => if Qualified.is_context_only q then ContextScope (context q) else SubjectScope (context q) (subject q)
  end.
Definition opt_target (q : option QualifiedSubject) : Target :=
  match q with
  | None => GlobalTarget
  | Some q => if Qualified.is_context_only q then ContextTarget (context q) else SubjectTarget q
  end.

(** ** [UpdateCompatibility] *)

Record UpdateCompatibility := mkUpdate { uc_subject : option QualifiedSubject; uc_update : ConfigRecord.t }.
Definition update_new (subj : option string) (update : ConfigRecord.t) : ApiResult UpdateCompatibility :=
  q ← optional_parse subj; Ok (mkUpdate q update).
Definition update_plan (m : UpdateCompatibility) view : Outcome (Plan ()) :=
  let scope := opt_scope (uc_subject m) in
  let merged := ConfigRecord.merged_with (default ConfigRecord.empty (view_config view scope)) (uc_update m) in
  Ok (PlanM.write (PlanM.new ()) (WPutConfig scope merged)).
#[export] Instance update_mutation : Mutation UpdateCompatibility := {
  Output := (); fast_path := no_fast_path;
  target m := opt_target (uc_subject m);
  intent _ := ModeGate.Modify;
  gate _ := BeforePlan;
  plan := update_plan;
}.

(** ** [DeleteSubjectConfig] *)

Record DeleteSubjectConfig := mkDeleteConfig { dc_subject : option QualifiedSubject }.
Definition delete_config_new (subj : option string) : ApiResult DeleteSubjectConfig :=
  q ← optional_parse subj; Ok (mkDeleteConfig q).
Definition delete_config_plan (m : DeleteSubjectConfig) view : Outcome (Plan ConfigRecord.t) :=
  previous ← match dc_subject m with
             | None => or_panic (stored_config view None)
             | Some q => ok_or (stored_config view (Some q)) (Api (ApiErr.subject_not_found (Qualified.qualified q)))
             end;
  Ok (PlanM.write (PlanM.new previous) (WDeleteConfig (opt_scope (dc_subject m)))).
#[export] Instance delete_config_mutation : Mutation DeleteSubjectConfig := {
  Output := ConfigRecord.t; fast_path := no_fast_path;
  target m := opt_target (dc_subject m);
  intent _ := ModeGate.Modify;
  gate _ := AfterPlan;
  plan := delete_config_plan;
}.

(** ** [DeleteContext] *)

Record DeleteContext := mkDeleteContext { dx_ctx : string }.
Definition delete_context_new (ctx : string) : ApiResult DeleteContext :=
  ctx ← ok_or (normalize_context ctx) (ApiErr.invalid_subject ctx);
  if bool_decide (ctx = DEFAULT_CONTEXT) || bool_decide (ctx = WILDCARD_CONTEXT)
  then Err (ApiErr.operation_not_permitted "The default context cannot be deleted")
  else Ok (mkDeleteContext ctx).
Definition delete_context_plan (m : DeleteContext) view : Outcome (Plan ()) :=
  let ctx := dx_ctx m in
  _ ← refuse (negb (bool_decide (Snap.list_subject_names (rd_snap (vw_reader view)) ctx = [])))
        (ApiErr.context_not_empty ctx);
  Ok (PlanM.write (PlanM.write (PlanM.write (PlanM.new ()) (WDeleteContext ctx))
        (WDeleteConfig (ContextScope ctx))) (WDeleteMode (ContextScope ctx))).
#[export] Instance delete_context_mutation : Mutation DeleteContext := {
  Output := (); fast_path := no_fast_path;
  target m := ContextTarget (dx_ctx m);
  intent _ := ModeGate.NotSchemaState;
  gate _ := BeforePlan;
  plan := delete_context_plan;
}.

(** ** [SetMode] and [DeleteMode] *)

Record SetMode := mkSetMode { sm_subject : option QualifiedSubject; sm_mode : Mode; sm_force : bool }.
Definition set_mode_new (subj : option string) (m : Mode) (force : bool) : ApiResult SetMode :=
  q ← optional_parse subj; Ok (mkSetMode q m force).

Definition subjects_in_scope (r : Reader) (subj : option QualifiedSubject) : list QualifiedSubject :=
  match subj with
  | None => ctx ← Snap.list_contexts (rd_snap r); mkQ ctx <$> Snap.list_subject_names (rd_snap r) ctx
  | Some q => if Qualified.is_context_only q then mkQ (context q) <$> Snap.list_subject_names (rd_snap r) (context q)
              else [q]
  end.

Definition versions_in_scope (r : Reader) (subj : option QualifiedSubject) : list (QualifiedSubject * Z * VersionRecord) :=
  sq ← subjects_in_scope r subj; (λ x, (sq, x.1, x.2)) <$> versions_of r sq.

Fixpoint check_none_referenced (r : Reader) (l : list (QualifiedSubject * Z * VersionRecord)) : Outcome () :=
  match l with
  | [] => Ok ()
  | (q, v, _) :: l => _ ← check_not_referenced r q v; check_none_referenced r l
  end.

Definition set_mode_plan (m : SetMode) view : Outcome (Plan ()) :=
  let r := vw_reader view in
  let current := mode_for view (opt_target (sm_subject m)) in
  '(ws, evs) ←
    (if bool_decide (sm_mode m = Import) && bool_decide (current ≠ Import) && negb (sm_force m) then
       let has_live := match sm_subject m with Some q => has_subjects r q false | None => has_any_subject r false end in
       _ ← refuse has_live (ApiErr.operation_not_permitted "Cannot import since found existing subjects");
       let doomed := versions_in_scope r (sm_subject m) in
       _ ← check_none_referenced r doomed;
       let keys : HashSet := list_to_set (map (λ x, (subject x.1.1, x.1.2)) doomed) in
       hard_delete_all r doomed keys
     else Ok ([], []));
  Ok (mkPlan (ws ++ [WPutMode (opt_scope (sm_subject m)) (sm_mode m)]) evs ()).
#[export] Instance set_mode_mutation : Mutation SetMode := {
  Output := (); fast_path := no_fast_path;
  target m := opt_target (sm_subject m);
  intent _ := ModeGate.SetMode;
  gate _ := BeforePlan;
  plan := set_mode_plan;
}.

Record DeleteMode := mkDeleteMode { dm_subject : QualifiedSubject }.
Definition delete_mode_new (subj : string) : ApiResult DeleteMode :=
  q ← Qualified.parse subj; Ok (mkDeleteMode q).
Definition delete_mode_plan (m : DeleteMode) view : Outcome (Plan Mode) :=
  let q := dm_subject m in
  previous ← ok_or (mode_of_scope (vw_reader view) (Some q)) (Api (ApiErr.subject_not_found (Qualified.qualified q)));
  Ok (PlanM.write (PlanM.new previous) (WDeleteMode (opt_scope (Some q)))).
#[export] Instance delete_mode_mutation : Mutation DeleteMode := {
  Output := Mode; fast_path := no_fast_path;
  target m := opt_target (Some (dm_subject m));
  intent _ := ModeGate.SetMode;
  gate _ := AfterPlan;
  plan := delete_mode_plan;
}.
End mutations.
