(* ===== verification/ExporterVerbs.v ===== *)
(** The exporter verbs (mutations/exporters.rs) and the worker's progress
    report (registry/mod.rs, [exporter_state]): what a stored exporter looks
    like, how its state moves, and who may move it. *)
From S2P Require Import Prelude SortedVec RustStr Errors Json Model Context Snapshot Plan Store MemDb SchemaLayer Registry Mutations.

Local Open Scope Z_scope.

Definition exporter_name_char (c : ascii) : bool :=
  is_ascii_alphanumeric c || bool_decide (c ∈ ["-"%char; "_"%char; "."%char]).
Definition valid_exporter_name (name : string) : bool :=
  bool_decide (name ≠ "") && bool_decide (Z.of_nat (String.length name) ≤ 256) && str_forall exporter_name_char name.

(** The distinct source contexts of an exporter, in order of appearance; the
    context wildcard is refused on the way. *)
Fixpoint source_contexts (info : ExporterInfo) (ps acc : list string) : ApiResult (list string) :=
  match ps with
  | [] => Ok acc
  | p :: ps =>
      q ← Qualified.parse p;
      if Qualified.is_wildcard q then
        Err (ApiErr.invalid_exporter ("Exporter '" +:+ ei_name info +:+ "' with contextType " +:+ ei_context_type info
          +:+ " cannot use the context wildcard ':*:': ids are per context and could not be preserved in '"
          +:+ default DEFAULT_CONTEXT (ei_context info) +:+ "'"))
      else source_contexts info ps (if bool_decide (context q ∈ acc) then acc else acc ++ [context q])
  end.

Definition check_context_type (info : ExporterInfo) : ApiResult () :=
  if bool_decide (ei_context_type info ∈ ["AUTO"; "NONE"; "DEFAULT"]) then Ok ()
  else if bool_decide (ei_context_type info = "CUSTOM") then
    refuse_if (match ei_context info with None => true | Some c => bool_decide (normalize_context c = None) end)
      (ApiErr.invalid_exporter "Context type CUSTOM requires a valid 'context'")
  else Err (ApiErr.invalid_exporter ("Invalid context type '" +:+ ei_context_type info +:+ "'")).

Definition validate (info : ExporterInfo) : ApiResult () :=
  _ ← refuse_if (negb (valid_exporter_name (ei_name info)))
        (ApiErr.invalid_exporter ("Invalid exporter name '" +:+ ei_name info +:+ "'"));
  _ ← check_context_type info;
  _ ← refuse_if (negb (match map_get "schema.registry.url" (ei_config info) ≫= as_str with
                       | Some s => bool_decide (s ≠ "") | None => false end))
        (ApiErr.invalid_exporter "Missing required config 'schema.registry.url'");
  _ ← refuse_if (bool_decide (ei_subjects info = [])) (ApiErr.invalid_exporter "Exporter 'subjects' must not be empty");
  if bool_decide (ei_context_type info ∈ ["CUSTOM"; "DEFAULT"]) then
    contexts ← source_contexts info (ei_subjects info) [];
    refuse_if (bool_decide (1 < length contexts)%nat)
      (ApiErr.invalid_exporter ("Exporter '" +:+ ei_name info +:+ "' with contextType " +:+ ei_context_type info
        +:+ " would merge contexts " +:+ join ", " contexts
        +:+ " into one destination context; ids are per context and could not be preserved"))
  else Ok ().

Definition exporter_plan (rec : ExporterRecord) : Plan string :=
  PlanM.write (PlanM.new (ei_name (er_info rec))) (WPutExporter rec).

(** * The worker's report *)

Definition keep_going (s : ExporterState) : bool := negb (bool_decide (s ∈ [Paused; Failed])).

(** The record the report leaves, [None] when it does not apply. *)
Definition reported (rec : ExporterRecord) (expected_offset new_offset : Z) (s : ExporterState) (trace : option string)
    (now : Z) : option ExporterRecord :=
  if bool_decide (er_offset rec = expected_offset) && keep_going (er_state rec)
  then Some (mkExporter (er_info rec) s new_offset now (default "" trace)) else None.

Section exporters.
Context `{!SchemaFormats}.
Implicit Types view : ReadView.

Record CreateExporter := mkCreate { ce_req : ExporterUpdateRequest }.

(** [map(str::to_ascii_uppercase).unwrap_or("AUTO")] and the other defaults. *)
Definition created_info (name : string) (req : ExporterUpdateRequest) : ExporterInfo :=
  mkExporterInfo name (default ["*"] (eu_subjects req)) (default "AUTO" (to_ascii_uppercase <$> eu_context_type req))
    (eu_context req) (eu_rename req) (default [] (eu_config req)).

Definition create_plan (m : CreateExporter) view : Outcome (Plan string) :=
  let name := default "" (eu_name (ce_req m)) in
  existing ← vw_exporter view name;
  _ ← refuse (bool_decide (existing ≠ None)) (ApiErr.exporter_exists name);
  let info := created_info name (ce_req m) in
  _ ← api (validate info);
  Ok (exporter_plan (mkExporter info Running 0 (vw_now view) "")).
#[export] Instance create_exporter_mutation : Mutation CreateExporter := {
  Output := string; fast_path := no_fast_path;
  target _ := ExportersTarget; intent _ := ModeGate.NotSchemaState; gate _ := AfterPlan; plan := create_plan }.

Record RestoreExporter := mkRestore { re_rec : ExporterRecord }.
Definition restore_plan (m : RestoreExporter) view : Outcome (Plan bool) :=
  existing ← vw_exporter view (ei_name (er_info (re_rec m)));
  if bool_decide (existing ≠ None) then Ok (PlanM.new false) else
  _ ← api (validate (er_info (re_rec m)));
  Ok (PlanM.write (PlanM.new true) (WPutExporter (re_rec m))).
#[export] Instance restore_exporter_mutation : Mutation RestoreExporter := {
  Output := bool; fast_path := no_fast_path;
  target _ := ExportersTarget; intent _ := ModeGate.NotSchemaState; gate _ := BeforePlan; plan := restore_plan }.

Record UpdateExporter := mkUpdateExporter { ue_name : string; ue_req : ExporterUpdateRequest }.
Definition update_exporter_config_only (name : string) (config : Map) : UpdateExporter :=
  mkUpdateExporter name (mkExporterUpdate None None None None None (Some config)).
Definition updated_info (info : ExporterInfo) (req : ExporterUpdateRequest) : ExporterInfo :=
  mkExporterInfo (ei_name info)
    (default (ei_subjects info) (eu_subjects req))
    (default (ei_context_type info) (to_ascii_uppercase <$> eu_context_type req))
    (match eu_context req with Some c => Some c | None => ei_context info end)
    (match eu_rename req with Some c => Some c | None => ei_rename info end)
    (match eu_config req with Some cfg => map_extend (ei_config info) cfg | None => ei_config info end).
Definition need_exporter view (name : string) : Outcome ExporterRecord :=
  existing ← vw_exporter view name; ok_or existing (Api (ApiErr.exporter_not_found name)).
Definition update_exporter_plan (m : UpdateExporter) view : Outcome (Plan string) :=
  rec ← need_exporter view (ue_name m);
  let info := updated_info (er_info rec) (ue_req m) in
  _ ← api (validate info);
  Ok (exporter_plan (mkExporter info (er_state rec) (er_offset rec) (vw_now view) (er_trace rec))).
#[export] Instance update_exporter_mutation : Mutation UpdateExporter := {
  Output := string; fast_path := no_fast_path;
  target _ := ExportersTarget; intent _ := ModeGate.NotSchemaState; gate _ := AfterPlan; plan := update_exporter_plan }.

Record DeleteExporter := mkDeleteExporter { de_name : string }.
Definition delete_exporter_plan (m : DeleteExporter) view : Outcome (Plan ()) :=
  _ ← need_exporter view (de_name m);
  Ok (PlanM.write (PlanM.new ()) (WDeleteExporter (de_name m))).
#[export] Instance delete_exporter_mutation : Mutation DeleteExporter := {
  Output := (); fast_path := no_fast_path;
  target _ := ExportersTarget; intent _ := ModeGate.NotSchemaState; gate _ := AfterPlan; plan := delete_exporter_plan }.

Record TransitionExporter := mkTransition { te_name : string; te_action : string }.
(** [pause], [resume] and [reset] on a record. *)
Definition transition (name action : string) (rec : ExporterRecord) : Outcome ExporterRecord :=
  if bool_decide (action = "pause") then
    Ok (mkExporter (er_info rec) Paused (er_offset rec) (er_ts rec) (er_trace rec))
  else if bool_decide (action = "resume") then
    _ ← refuse (bool_decide (er_state rec = Failed))
          (ApiErr.operation_not_permitted ("Exporter " +:+ name
             +:+ " has failed and cannot be resumed; reset it to start over. Last error: " +:+ er_trace rec));
    Ok (mkExporter (er_info rec) Running (er_offset rec) (er_ts rec) "")
  else if bool_decide (action = "reset") then
    Ok (mkExporter (er_info rec) (if bool_decide (er_state rec ≠ Paused) then Running else er_state rec) 0 (er_ts rec) "")
  else fail (ApiErr.unprocessable ("unknown action " +:+ action)).
Definition transition_plan (m : TransitionExporter) view : Outcome (Plan string) :=
  rec ← need_exporter view (te_name m);
  rec ← transition (te_name m) (te_action m) rec;
  Ok (exporter_plan (mkExporter (er_info rec) (er_state rec) (er_offset rec) (vw_now view) (er_trace rec))).
#[export] Instance transition_mutation : Mutation TransitionExporter := {
  Output := string; fast_path := no_fast_path;
  target _ := ExportersTarget; intent _ := ModeGate.NotSchemaState; gate _ := AfterPlan; plan := transition_plan }.

(** [exporter_state] and [exporter_progress]. *)
Definition exporter_state `{!RocksDB DB, !Serde ExporterRecord} (st : Store) (db : DB) (name : string)
    (expected_offset new_offset : Z) (s : ExporterState) (trace : option string) (now : Z) : DB * ApiResult () :=
  match Store.get_exporter st db name with
  | Err e => (db, Err e)
  | Ok None => (db, Ok ())
  | Ok (Some rec) =>
      match reported rec expected_offset new_offset s trace now with
      | None => (db, Ok ())
      | Some rec => Store.put_exporter st db rec ModeGate.not_schema_state
      end
  end.
Definition exporter_progress `{!RocksDB DB, !Serde ExporterRecord} (st : Store) (db : DB) (name : string)
    (expected_offset new_offset : Z) (error : option string) (now : Z) : DB * ApiResult () :=
  exporter_state st db name expected_offset new_offset (match error with Some _ => ErrorState | None => Running end)
    error now.
End exporters.

(** * What a stored exporter looks like *)

(** [ctx] is the one source context of the exporter's patterns. *)
Definition one_source (info : ExporterInfo) (ctx : string) : Prop :=
  ctx ≠ WILDCARD_CONTEXT ∧ ∀ p, p ∈ ei_subjects info → ∃ q, Qualified.parse p = Ok q ∧ context q = ctx.

Definition context_type_ok (info : ExporterInfo) : Prop :=
  ei_context_type info ∈ ["AUTO"; "NONE"; "DEFAULT"] ∨
  (ei_context_type info = "CUSTOM" ∧ ∃ c, ei_context info = Some c ∧ normalize_context c ≠ None).

Record exporter_ok (info : ExporterInfo) : Prop := {
  eo_name : valid_exporter_name (ei_name info) = true;
  eo_type : context_type_ok info;
  eo_url : ∃ u, map_get "schema.registry.url" (ei_config info) ≫= as_str = Some u ∧ u ≠ "";
  eo_subjects : ei_subjects info ≠ [];
  eo_ids : ei_context_type info ∈ ["CUSTOM"; "DEFAULT"] → ∃ ctx, one_source info ctx;
}.

(** The contexts collected are exactly those of the patterns, each once. *)
Lemma source_contexts_spec info ps acc l : source_contexts info ps acc = Ok l →
  (NoDup acc → NoDup l) ∧
  (∀ c, c ∈ l ↔ c ∈ acc ∨ ∃ p q, p ∈ ps ∧ Qualified.parse p = Ok q ∧ context q = c) ∧
  (∀ p, p ∈ ps → ∃ q, Qualified.parse p = Ok q ∧ Qualified.is_wildcard q = false).
Proof.
  revert acc. induction ps as [|p ps IH]; intros acc; cbn [source_contexts].
  - intros [= <-]. set_solver.
  - destruct (Qualified.parse p) as [q|] eqn:Hp; cbn [mbind result_bind]; [|done].
    destruct (Qualified.is_wildcard q) eqn:Hw; [done|]. intros Hl. apply IH in Hl as (Hnd & Hin & Hall).
    split_and!.
    + intros Hacc. apply Hnd. case_bool_decide; [done|]. apply NoDup_app. split_and!; [done|set_solver|].
      apply NoDup_singleton.
    + intros c. rewrite Hin. clear -Hp. split.
      * intros [Hc|(p' & q' & Hp' & Hq')]; [|by right; exists p', q'; rewrite elem_of_cons; auto].
        case_bool_decide; [by left|]. apply elem_of_app in Hc as [|Hc%list_elem_of_singleton]; [by left|].
        right. exists p, q. rewrite elem_of_cons. auto.
      * intros [Hc|(p' & q' & [-> |Hp']%elem_of_cons & Hq' & <-)]; [left|left|by right; exists p', q'].
        -- case_bool_decide; [done|]. rewrite elem_of_app. auto.
        -- assert (q' = q) as -> by congruence. case_bool_decide; [done|].
           rewrite elem_of_app, list_elem_of_singleton. auto.
    + intros p' [-> |Hp']%elem_of_cons; [by exists q|by apply Hall].
Qed.

Lemma source_contexts_total info ps acc :
  (∀ p, p ∈ ps → ∃ q, Qualified.parse p = Ok q ∧ Qualified.is_wildcard q = false) →
  ∃ l, source_contexts info ps acc = Ok l.
Proof.
  revert acc. induction ps as [|p ps IH]; intros acc Hall; cbn [source_contexts]; [by eexists|].
  destruct (Hall p) as (q & Hq & Hw); [set_solver|]. rewrite Hq; cbn [mbind result_bind]. rewrite Hw. apply IH. set_solver.
Qed.

(** At most one context is what one source means. *)
Lemma one_source_iff info : ei_subjects info ≠ [] →
  (∃ l, source_contexts info (ei_subjects info) [] = Ok l ∧ (length l ≤ 1)%nat) ↔ ∃ ctx, one_source info ctx.
Proof.
  intros Hne. unfold one_source. split.
  - intros (l & Hl & Hlen). apply source_contexts_spec in Hl as (_ & Hin & Hall).
    destruct (ei_subjects info) as [|p ps]; [done|].
    destruct (Hall p) as (q & Hq & Hw); [set_solver|].
    exists (context q). split; [unfold Qualified.is_wildcard in Hw; by case_bool_decide|]. intros p' Hp'.
    destruct (Hall p' Hp') as (q' & Hq' & _). exists q'. split; [done|].
    assert (context q' ∈ l ∧ context q ∈ l) as [H1 H2].
    { rewrite !Hin. split; right; [by exists p', q'|exists p, q; set_solver]. }
    destruct l as [|a [|b l]]; simpl in Hlen; [by apply elem_of_nil in H1| |lia]. set_solver.
  - intros (ctx & Hw & Hall).
    destruct (source_contexts_total info (ei_subjects info) []) as [l Hl].
    { intros p Hp. destruct (Hall p Hp) as (q & Hq & <-). exists q. split; [done|]. unfold Qualified.is_wildcard. by case_bool_decide. }
    exists l. split; [done|]. apply source_contexts_spec in Hl as (Hnd & Hin & _).
    assert (∀ c, c ∈ l → c = ctx) as Hone.
    { intros c. rewrite Hin, elem_of_nil. intros [[]|(p & q & Hp & Hq & <-)].
      destruct (Hall p Hp) as (q' & Hq' & <-). congruence. }
    destruct l as [|a [|b l]]; simpl; [lia..|].
    specialize (Hnd NoDup_nil_2). apply NoDup_cons in Hnd as [Hni _].
    rewrite (Hone a), (Hone b) in Hni by set_solver. set_solver.
Qed.

Lemma context_type_spec info : check_context_type info = Ok () ↔ context_type_ok info.
Proof.
  unfold check_context_type, context_type_ok. case_bool_decide as Hin; [by split; auto|].
  case_bool_decide as Hc; [|split; [done|naive_solver]]. rewrite refuse_if_Ok.
  destruct (ei_context info) as [c|]; [|split; [done|naive_solver]].
  case_bool_decide; split; try done; naive_solver.
Qed.

Lemma bind_unit_Ok {E B} (m : result E ()) (f : () → result E B) b :
  (x ← m; f x) = Ok b ↔ m = Ok () ∧ f () = Ok b.
Proof. destruct m as [[]|e]; cbn [mbind result_bind]; naive_solver. Qed.

Lemma exporter_validate_iff (info : ExporterInfo) : validate info = Ok () ↔ exporter_ok info.
Proof.
  unfold validate. rewrite !bind_unit_Ok, !refuse_if_Ok, context_type_spec, !negb_false_iff, bool_decide_eq_false.
  assert (∀ o : option string, match o with Some s => bool_decide (s ≠ "") | None => false end = true ↔
            ∃ u, o = Some u ∧ u ≠ "") as Hurl.
  { intros [s|]; rewrite ?bool_decide_eq_true; naive_solver. }
  rewrite Hurl. clear Hurl. case_bool_decide as Ht; [|split; [intros (?&?&?&?&_); by split|intros []; auto]].
  assert (∀ e : list string → ApiError,
    (l ← source_contexts info (ei_subjects info) []; refuse_if (bool_decide (1 < length l)%nat) (e l)) = Ok () ↔
     ∃ l, source_contexts info (ei_subjects info) [] = Ok l ∧ (length l ≤ 1)%nat) as Hids.
  { intros e. destruct (source_contexts _ _ _) as [l|]; cbn [mbind result_bind]; [|naive_solver].
    rewrite refuse_if_Ok, bool_decide_eq_false. split; [intros ?; exists l; split; [done|lia]|intros (l' & [= ->] & ?); lia]. }
  rewrite Hids. clear Hids. split.
  - intros (? & ? & ? & Hne & ?). split; try done. intros _. by apply one_source_iff.
  - intros [? ? ? Hne Hone]. split_and!; try done. apply one_source_iff; auto.
Qed.

(** An exporter is accepted exactly when its name, context type, registry
    URL and subject list are well formed and, if its context type sends every
    source context to one destination (CUSTOM, DEFAULT), all its patterns name
    one and the same source context: ids are per context, and only then can
    they be preserved. *)
Theorem exporter_validate_exact (info : ExporterInfo) : validate info = Ok () ↔ exporter_ok info.
Proof. apply exporter_validate_iff. Qed.

(** * The life of an exporter record *)

Section lifecycle.
Context `{!SchemaFormats}.

(** What may replace a stored record: an operator's transition or update, as
    the verbs plan it, or a report of the worker. *)
Inductive exporter_step (rec : ExporterRecord) : ExporterRecord → Prop :=
| step_transition m view p rec' : vw_exporter view (te_name m) = Ok (Some rec) →
    transition_plan m view = Ok p → writes p = [WPutExporter rec'] → exporter_step rec rec'
| step_update m view p rec' : vw_exporter view (ue_name m) = Ok (Some rec) →
    update_exporter_plan m view = Ok p → writes p = [WPutExporter rec'] → exporter_step rec rec'
| step_report expected new s trace now rec' :
    reported rec expected new s trace now = Some rec' → exporter_step rec rec'.

Lemma transition_plan_writes m view rec p : vw_exporter view (te_name m) = Ok (Some rec) →
  transition_plan m view = Ok p →
  ∃ rec', transition (te_name m) (te_action m) rec = Ok rec' ∧
          writes p = [WPutExporter (mkExporter (er_info rec') (er_state rec') (er_offset rec') (vw_now view) (er_trace rec'))].
Proof.
  intros Hv. unfold transition_plan, need_exporter. rewrite Hv. cbn [mbind result_bind ok_or].
  destruct (transition _ _ rec) as [rec'|] eqn:Ht; cbn [mbind result_bind]; [|done]. intros [= <-]. by exists rec'.
Qed.

Lemma transition_info name action rec rec' : transition name action rec = Ok rec' → er_info rec' = er_info rec.
Proof.
  unfold transition, refuse, fail. repeat case_bool_decide; cbn [mbind result_bind]; by intros [= <-].
Qed.

(** Every change to a record comes from a well-formed one and leaves one. *)
Lemma exporter_step_ok rec rec' : exporter_step rec rec' →
  ei_name (er_info rec') = ei_name (er_info rec) ∧
  (validate (er_info rec) = Ok () → validate (er_info rec') = Ok ()).
Proof.
  intros [m view p rec2 Hv Hp Hw|m view p rec2 Hv Hp Hw|expected new s trace now rec2 Hr].
  - destruct (transition_plan_writes m view rec p Hv Hp) as (rec1 & Ht & Hw').
    rewrite Hw in Hw'. simplify_eq/=. by rewrite (transition_info _ _ _ _ Ht).
  - revert Hp. unfold update_exporter_plan, need_exporter. rewrite Hv. cbn [mbind result_bind ok_or].
    destruct (validate (updated_info _ _)) as [[]|] eqn:Hok; cbn [mbind result_bind api map_err]; [|done].
    intros [= <-]. simplify_eq/=. split; [done|]. by intros _.
  - revert Hr. unfold reported. case_match; [|done]. by intros [= <-].
Qed.

(** (C38) Whatever operators (transitions and updates) and the worker (reports)
    do to an exporter, in any order, its record keeps its name and stays one
    that can be exported: a valid name, a known context type (a custom one with
    its context), a destination URL, some subjects, and - where the context
    type sends every source context to one destination - patterns that name one
    and the same source context. *)
Theorem exporter_stays_valid (rec rec' : ExporterRecord) :
  rtc exporter_step rec rec' → exporter_ok (er_info rec) →
  exporter_ok (er_info rec') ∧ ei_name (er_info rec') = ei_name (er_info rec).
Proof.
  assert (∀ info, validate info = Ok () ↔ exporter_ok info) as Hex by apply exporter_validate_iff.
  induction 1 as [rec|x y z Hstep _ IH]; [done|]. apply exporter_step_ok in Hstep as [Hn Hv].
  rewrite <-!Hex in *. intros Hok. destruct (IH (Hv Hok)). by rewrite <-Hn.
Qed.

(** The worker never moves an exporter that an operator paused or reset
    or that has failed: its report changes the stored record only while the
    record is neither paused nor failed and still has the offset the worker
    started from, and then it stores exactly the reported offset and state. *)
Theorem worker_report_guarded `{!RocksDB DB, !Serde ExporterRecord} (st : Store) (db : DB) (name : string)
    (rec : ExporterRecord) (expected new : Z) (s : ExporterState) (trace : option string) (now : Z) :
  Store.get_exporter st db name = Ok (Some rec) →
  exporter_state st db name expected new s trace now =
    if decide (er_offset rec = expected ∧ er_state rec ∉ [Paused; Failed])
    then Store.put_exporter st db (mkExporter (er_info rec) s new now (default "" trace)) ModeGate.not_schema_state
    else (db, Ok ()).
Proof.
  intros Hget. unfold exporter_state. rewrite Hget. unfold reported, keep_going.
  case_decide as Hd; repeat case_bool_decide; simpl; tauto.
Qed.

(** A failed exporter cannot be resumed - but it can be paused and then
    resumed, which leaves it running at the very offset where the replay
    conflicts, although only a reset is meant to move it on. *)
Theorem failed_exporter_resumes (rec : ExporterRecord) : er_state rec = Failed →
  (∀ name, ∃ msg, transition name "resume" rec = fail (ApiErr.operation_not_permitted msg)) ∧
  ∃ rec', rtc exporter_step rec rec' ∧ er_state rec' = Running ∧ er_offset rec' = er_offset rec.
Proof.
  intros Hf. split; [intros name; unfold transition; simpl; rewrite Hf; by eexists|].
  set (paused := mkExporter (er_info rec) Paused (er_offset rec) 0 (er_trace rec)).
  exists (mkExporter (er_info rec) Running (er_offset rec) 0 ""). split; [|done].
  assert (∀ r : ExporterRecord, ∃ view, vw_exporter view (ei_name (er_info r)) = Ok (Some r) ∧ vw_now view = 0) as Hview.
  { intros r. by exists (mkReadView (mkReader (mkSettings Backward false) empty_snap (λ _ _, Ok None) (λ _, None) (λ _, None))
      0 "" (λ _, Ok (Some r))). }
  destruct (Hview rec) as (v1 & Hv1 & Hn1), (Hview paused) as (v2 & Hv2 & Hn2). change (er_info paused) with (er_info rec) in Hv2.
  apply (rtc_l _ _ paused); [|apply rtc_once].
  - eapply (step_transition rec (mkTransition _ "pause")); [exact Hv1| |].
    { unfold transition_plan, need_exporter; simpl. by rewrite Hv1. }
    by rewrite Hn1.
  - eapply (step_transition paused (mkTransition _ "resume")); [exact Hv2| |].
    { unfold transition_plan, need_exporter; simpl. by rewrite Hv2. }
    by rewrite Hn2.
Qed.
End lifecycle.

(** * A concrete exporter *)

Definition demo_exporter : ExporterRecord :=
  mkExporter (mkExporterInfo "dr" [":.eu:orders*"; ":.eu:users"] "DEFAULT" None None
    [("schema.registry.url", VString "http://dr:8081")]) Failed 7 0 "409".

Definition demo_report : ExporterRecord := mkExporter (er_info demo_exporter) Running 9 5 "".

(** The worker reports, an operator pauses the exporter, and then points it at
    another context. *)
Definition demo_operator (now : Z) (rec : ExporterRecord) : ReadView :=
  mkReadView (mkReader (mkSettings Backward false) empty_snap (λ _ _, Ok None) (λ _, None) (λ _, None)) now "" (λ _, Ok (Some rec)).
Definition demo_paused : ExporterRecord := mkExporter (er_info demo_exporter) Paused 9 6 "".
Definition demo_moved : ExporterRecord :=
  mkExporter (mkExporterInfo "dr" [":.us:*"] "DEFAULT" None None [("schema.registry.url", VString "http://dr:8081")]) Paused 9 8 "".

Lemma exporter_stays_valid_witness : exporter_ok (er_info demo_moved) ∧ ei_name (er_info demo_moved) = "dr".
Proof.
  apply (exporter_stays_valid (mkExporter (er_info demo_exporter) Running 7 0 "") demo_moved).
  - apply (rtc_l _ _ demo_report); [apply (step_report _ 7 9 Running None 5); vm_compute; reflexivity|].
    apply (rtc_l _ _ demo_paused).
    { eapply (step_transition _ (mkTransition "dr" "pause") (demo_operator 6 demo_report)); [reflexivity|vm_compute; reflexivity|reflexivity]. }
    apply rtc_once.
    eapply (step_update _ (mkUpdateExporter "dr" (mkExporterUpdate None (Some [":.us:*"]) None None None None)) (demo_operator 8 demo_paused));
      [reflexivity|vm_compute; reflexivity|reflexivity].
  - apply exporter_validate_iff. vm_compute; reflexivity.
Defined.

Lemma failed_exporter_resumes_witness :
  ∃ rec', rtc exporter_step demo_exporter rec' ∧ er_state rec' = Running ∧ er_offset rec' = 7.
Proof. exact (proj2 (failed_exporter_resumes demo_exporter eq_refl)). Defined.

(** The database after [demo_exporter] was stored. *)
Definition demo_exporter_store : Store := container (TenantId.mk "t").
Definition demo_exporter_db : MemDB :=
  (Store.put_exporter demo_exporter_store (mkMem ∅ None) demo_exporter ModeGate.not_schema_state).1.

Lemma worker_report_guarded_witness :
  exporter_state demo_exporter_store demo_exporter_db "dr" 7 9 Running None 5 = (demo_exporter_db, Ok ()).
Proof.
  refine (worker_report_guarded demo_exporter_store demo_exporter_db "dr" demo_exporter 7 9 Running None 5 _).
  vm_compute; reflexivity.
Defined.
