(* ===== verification/Engine.v ===== *)
(** The engine (engine.rs, [Registry::reader] and [Registry::commit] of
    registry/mod.rs): the one path by which anything changes. A verb is looked
    at without the lock, then planned under it, gated by the mode in scope,
    committed as one batch and published as one snapshot. *)
From S2P Require Import Prelude SortedVec RustStr Errors Json Model Context Snapshot Keys Plan Store Durable Transaction JavaOrder SchemaLayer Views Registry Queries Mutations.

Local Open Scope Z_scope.

Section engine.
Context `{!SchemaFormats, !RocksDB DB}.
Context `{!Serde SchemaRecord, !Serde VersionRecord, !Serde ConfigRecord.t, !Serde Mode,
          !Serde LogEvent, !Serde ExporterRecord}.

(** A schema body some request has read and still works with; [ri_insert]
    while it was read from the store and is yet to be put into the cache. *)
Record ReadInFlight := mkRead { ri_ctx : string; ri_id : Z; ri_rec : SchemaRecord; ri_insert : bool }.

(** The registry of one container: its store, the published snapshot, the
    caches (schema bodies; parsed stored and requested schemas), the bodies
    requests are working with, and the commit notices broadcast so far. *)
Record RegistryState := mkRegistry {
  reg_settings : Settings;
  reg_store : Store;
  reg_db : DB;
  reg_snap : Snapshot;
  reg_bodies : gmap (string * Z) SchemaRecord;
  reg_parsed : gmap (string * Z * string) ParsedSchema;
  reg_text : gmap string ParsedSchema;
  reg_reads : list ReadInFlight;
  reg_notices : list nat;
}.
Implicit Types reg : RegistryState.

Definition with_caches reg bodies parsed text reads : RegistryState :=
  mkRegistry (reg_settings reg) (reg_store reg) (reg_db reg) (reg_snap reg) bodies parsed text reads (reg_notices reg).
Definition with_bodies reg bodies : RegistryState := with_caches reg bodies (reg_parsed reg) (reg_text reg) (reg_reads reg).
Definition with_parsed reg parsed : RegistryState := with_caches reg (reg_bodies reg) parsed (reg_text reg) (reg_reads reg).
Definition with_text reg text : RegistryState := with_caches reg (reg_bodies reg) (reg_parsed reg) text (reg_reads reg).
Definition with_reads reg reads : RegistryState := with_caches reg (reg_bodies reg) (reg_parsed reg) (reg_text reg) reads.

(** [Reader::get_schema], when nothing comes in between: the cache, then the
    store, whose answer is put into the cache. *)
Definition get_body reg (ctx : string) (id : Z) : RegistryState * Outcome (option SchemaRecord) :=
  match reg_bodies reg !! (ctx, id) with
  | Some rec => (reg, Ok (Some rec))
  | None =>
      match Store.get_schema (reg_store reg) (reg_db reg) ctx id with
      | Ok (Some rec) => (with_bodies reg (<[(ctx, id) := rec]> (reg_bodies reg)), Ok (Some rec))
      | Ok None => (reg, Ok None)
      | Err e => (reg, Err (Api e))
      end
  end.

(** ** What reads do to the caches

    Reads run at any time, beside each other and beside a mutation, and a body
    that was read from the store is put into the cache later, whatever
    happened in between. So a read is two actions; a parse uses the body its
    request works with, and what the references resolved to when it looked;
    and entries may be evicted at any time. *)
Inductive CacheAct :=
| ReadBody (ctx : string) (id : Z)
| InsertBody (n : nat)
| ParseStored (n : nat) (resolved : list ResolvedRef)
| ParseText (ty : SchemaType) (text : string) (resolved : list ResolvedRef) (validate : bool)
| EndRead (n : nat)
| EvictBody (k : string * Z)
| EvictParsed (k : string * Z * string)
| EvictText (k : string).

Definition cache_act reg (a : CacheAct) : RegistryState :=
  match a with
  | ReadBody ctx id =>
      match reg_bodies reg !! (ctx, id) with
      | Some rec => with_reads reg (reg_reads reg ++ [mkRead ctx id rec false])
      | None =>
          match Store.get_schema (reg_store reg) (reg_db reg) ctx id with
          | Ok (Some rec) => with_reads reg (reg_reads reg ++ [mkRead ctx id rec true])
          | _ => reg
          end
      end
  | InsertBody n =>
      match reg_reads reg !! n with
      | Some (mkRead ctx id rec true) =>
          with_caches reg (<[(ctx, id) := rec]> (reg_bodies reg)) (reg_parsed reg) (reg_text reg)
            (<[n := mkRead ctx id rec false]> (reg_reads reg))
      | _ => reg
      end
  | ParseStored n resolved =>
      match reg_reads reg !! n with
      | Some (mkRead ctx id rec _) =>
          match parse_with (sr_type rec) (sr_schema rec) resolved false with
          | Ok p => with_parsed reg (<[(ctx, id, deps_fingerprint resolved) := p]> (reg_parsed reg))
          | Err _ => reg
          end
      | None => reg
      end
  | ParseText ty text resolved validate =>
      match parse_with ty text resolved validate with
      | Ok p => with_text reg (<[text_key ty text resolved validate := p]> (reg_text reg))
      | Err _ => reg
      end
  | EndRead n => with_reads reg (delete n (reg_reads reg))
  | EvictBody k => with_bodies reg (delete k (reg_bodies reg))
  | EvictParsed k => with_parsed reg (delete k (reg_parsed reg))
  | EvictText k => with_text reg (delete k (reg_text reg))
  end.

(** Several actions, one after the other; whatever they are, only the caches
    and the reads are any different afterwards ([cache_acts_foldl]). *)
Definition cache_acts reg (acts : list CacheAct) : RegistryState :=
  let reg' := foldl cache_act reg acts in
  with_caches reg (reg_bodies reg') (reg_parsed reg') (reg_text reg') (reg_reads reg').

Definition reader reg : Reader :=
  mkReader (reg_settings reg) (reg_snap reg) (λ ctx id, (get_body reg ctx id).2) (λ k, reg_parsed reg !! k) (λ k, reg_text reg !! k).

(** [ReadView::new]: a reader, the time and the id a new schema would get. *)
Definition read_view reg (now : Z) (guid : string) : ReadView :=
  mkReadView (reader reg) now guid (λ name, api (Store.get_exporter (reg_store reg) (reg_db reg) name)).

(** The bodies cache follows the published operations. *)
Definition cache_op (bodies : gmap (string * Z) SchemaRecord) (op : Op) : gmap (string * Z) SchemaRecord :=
  match op with
  | OpPutSchema ctx id rec _ => <[(ctx, id) := rec]> bodies
  | OpDeleteSchema ctx id => delete (ctx, id) bodies
  | _ => bodies
  end.

(** [Registry::commit], after the batch. *)
Definition publish reg (db : DB) (ops : list Op) (logged : nat) : RegistryState :=
  mkRegistry (reg_settings reg) (reg_store reg) db (Snap.apply_all (reg_snap reg) ops)
    (foldl cache_op (reg_bodies reg) ops) (reg_parsed reg) (reg_text reg) (reg_reads reg) (reg_notices reg ++ [logged]).

Definition with_db reg (db : DB) : RegistryState :=
  mkRegistry (reg_settings reg) (reg_store reg) db (reg_snap reg) (reg_bodies reg) (reg_parsed reg) (reg_text reg)
    (reg_reads reg) (reg_notices reg).

(** [apply]: the plan as one batch, then [commit]. *)
Definition apply_plan {T} reg (p : Plan T) (allowed : ModeGate.Allowed) : RegistryState * Outcome T :=
  match commit_plan (reg_store reg) (reg_db reg) allowed (writes p) (events p) with
  | (db, Err e) => (with_db reg db, Err e)
  | (db, Ok ops) => (publish reg db ops (length (events p)), Ok (output p))
  end.

(** What a verb decides under the lock: its plan and the mode's consent. *)
Definition decide_plan `{!Mutation M} (m : M) (view : ReadView) : Outcome (Plan Output * ModeGate.Allowed) :=
  let check := api (ModeGate.check (intent m) (mode_for view (target m)) (scope_name (target m))) in
  match gate m with
  | BeforePlan => a ← check; p ← plan m view; Ok (p, a)
  | AfterPlan => p ← plan m view; a ← check; Ok (p, a)
  end.

(** What an attempt meets on the way: the clock and a fresh id, which each of
    its two views reads on its own, and what happens to the caches while the
    fast path and then the plan run. Every body a verb looks at is such a
    read, whether the verb is refused in the end or not. *)
Record Ambient := mkAmbient {
  am_now0 : Z; am_guid0 : string; am_seen0 : list CacheAct;
  am_now : Z; am_guid : string; am_seen : list CacheAct }.

(** [run_inner], once the lock is held. *)
Definition run_locked `{!Mutation M} reg (m : M) (a : Ambient) : RegistryState * Outcome Output :=
  let reg' := cache_acts reg (am_seen a) in
  match decide_plan m (read_view reg (am_now a) (am_guid a)) with
  | Err e => (reg', Err e)
  | Ok (p, allowed) => apply_plan reg' p allowed
  end.

Definition run_inner `{!Mutation M} reg (m : M) (a : Ambient) : RegistryState * Outcome Output :=
  let reg' := cache_acts reg (am_seen0 a) in
  match fast_path m (read_view reg (am_now0 a) (am_guid0 a)) with
  | Err e => (reg', Err e)
  | Ok (Some out) => (reg', Ok out)
  | Ok None => run_locked reg' m a
  end.

(** Two registries that differ in their caches and reads only. *)
Definition same_but_caches reg reg' : Prop :=
  reg_settings reg' = reg_settings reg ∧ reg_store reg' = reg_store reg ∧ reg_db reg' = reg_db reg ∧
  reg_snap reg' = reg_snap reg ∧ reg_notices reg' = reg_notices reg.

Lemma cache_act_same reg a : same_but_caches reg (cache_act reg a).
Proof. destruct a; cbn; repeat case_match; done. Qed.

Lemma cache_acts_foldl reg acts : cache_acts reg acts = foldl cache_act reg acts.
Proof.
  unfold cache_acts, with_caches. cbv zeta. assert (same_but_caches reg (foldl cache_act reg acts)) as (<- & <- & <- & <- & <-).
  { revert reg. induction acts as [|a acts IH]; intros reg; [done|].
    destruct (IH (cache_act reg a)) as (H1 & H2 & H3 & H4 & H5), (cache_act_same reg a) as (G1 & G2 & G3 & G4 & G5).
    repeat split; etrans; eassumption. }
  by destruct (foldl _ _ _).
Qed.

Lemma cache_acts_same reg acts : same_but_caches reg (cache_acts reg acts).
Proof. done. Qed.

Lemma cache_acts_app reg acts acts' : cache_acts reg (acts ++ acts') = cache_acts (cache_acts reg acts) acts'.
Proof. by rewrite !cache_acts_foldl, foldl_app. Qed.

(** What reads alone do to a registry. *)
Definition only_reads reg reg' : Prop := ∃ acts, reg' = cache_acts reg acts.
#[export] Instance only_reads_preorder : PreOrder only_reads.
Proof.
  split; [by exists []; rewrite cache_acts_foldl|].
  intros x y z [acts ->] [acts' ->]. exists (acts ++ acts'). by rewrite cache_acts_app.
Qed.
Lemma only_reads_same reg reg' : only_reads reg reg' → same_but_caches reg reg'.
Proof. intros [acts ->]. apply cache_acts_same. Qed.

(** An undisturbed [get_schema] is its two actions, one after the other. *)
Lemma get_body_acts reg ctx id : let n := length (reg_reads reg) in
  (get_body reg ctx id).1 = reg ∨ (get_body reg ctx id).1 = cache_acts reg [ReadBody ctx id; InsertBody n; EndRead n].
Proof.
  cbv zeta. unfold get_body. rewrite cache_acts_foldl. cbn. destruct (reg_bodies reg !! (ctx, id)) eqn:Hb; [by left|].
  destruct (Store.get_schema _ _ _ _) as [[rec|]|e]; [right|by left..]. cbn.
  rewrite list_lookup_middle by done. cbn. unfold with_reads, with_bodies, with_caches. cbn.
  f_equal. rewrite insert_app_r_alt, Nat.sub_diag by done. cbn.
  rewrite delete_middle. by rewrite app_nil_r.
Qed.
End engine.
Arguments RegistryState : clear implicits.
Arguments RegistryState {_} _.

(** * Commits, whatever they carry *)

Section commits.
Context `{!RocksDB DB}.
Context `{!Serde SchemaRecord, !Serde VersionRecord, !Serde ConfigRecord.t, !Serde Mode,
          !Serde LogEvent, !Serde ExporterRecord}.

Lemma apply_write_ops st a w t t' : TxM.apply_write st a w t = Ok t' →
  tx_ops t' = tx_ops t ++ write_ops w ∧ tx_log_dirty t' = tx_log_dirty t.
Proof.
  destruct w as [ctx id rec [|]|ctx subj v rec|ctx subj v id|ctx id|ctx subj v id|ctx subj v id|ctx next
    |scope rec|scope|scope m|scope|ctx|rec|name]; simpl;
    unfold TxM.put_schema, TxM.put_version, TxM.put_config, TxM.put_mode, TxM.put_exporter, TxM.put;
    try (destruct (corrupt (to_vec _)); cbn [mbind result_bind]; [|done]);
    intros [= <-]; simpl; by rewrite ?app_nil_r.
Qed.

Lemma apply_writes_ops st a ws t t' : TxM.apply_writes st a ws t = Ok t' →
  tx_ops t' = tx_ops t ++ plan_ops ws ∧ tx_log_dirty t' = tx_log_dirty t.
Proof.
  unfold TxM.apply_writes, plan_ops. revert t. induction ws as [|w ws IH]; intros t; simpl.
  { intros [= <-]. by rewrite app_nil_r. }
  destruct (TxM.apply_write st a w t) as [t1|e] eqn:Hw.
  - intros Ht. apply IH in Ht as [-> ->]. apply apply_write_ops in Hw as [-> ->]. by rewrite app_assoc.
  - intros Ht. exfalso. revert Ht. clear. induction ws; [done|]. exact IHws.
Qed.

Lemma append_logs_ops st evs t t' : TxM.append_logs st evs t = Ok t' →
  tx_ops t' = tx_ops t ∧ tx_log_dirty t' = tx_log_dirty t || bool_decide (evs ≠ []).
Proof.
  unfold TxM.append_logs. revert t. induction evs as [|e evs IH]; intros t; simpl.
  { intros [= <-]. by rewrite orb_false_r. }
  destruct (TxM.append_log st t e) as [t1|err] eqn:Hw.
  - intros Ht. apply IH in Ht as [-> ->]. revert Hw. unfold TxM.append_log, TxM.put.
    destruct (corrupt (to_vec e)); cbn [mbind result_bind]; [|done]. intros [= <-]. simpl. by rewrite orb_true_r.
  - intros Ht. exfalso. revert Ht. clear. induction evs; [done|]. exact IHevs.
Qed.

(** A commit publishes the operations of the plan's writes, in order, and
    moves the log counter when it logged anything. *)
Lemma commit_plan_ops st (db : DB) a ws evs db' ops : commit_plan st db a ws evs = (db', Ok ops) →
  ∃ seq, ops = plan_ops ws ++ (if bool_decide (evs ≠ []) then [OpSetLogSeq seq] else []).
Proof.
  unfold commit_plan, tx. destruct (stored_log_seq st db) as [n|]; cbn [mbind result_bind]; [|done].
  destruct (TxM.apply_writes _ _ _ _) as [t1|] eqn:H1; cbn [mbind result_bind]; [|done].
  destruct (TxM.append_logs _ _ _) as [t2|] eqn:H2; [|done].
  apply apply_writes_ops in H1 as [Ho1 Hd1]. apply append_logs_ops in H2 as [Ho2 Hd2]. simpl in *.
  unfold TxM.commit, TxM.finish. rewrite Hd2, Hd1. cbn [orb].
  destruct (write db _) as [db1 [u|e]] eqn:Hw; [|done]. intros [= <- <-].
  exists (tx_log_seq t2). case_bool_decide; simpl; rewrite Ho2, Ho1; by rewrite ?app_nil_r.
Qed.

Lemma commit_plan_Err `{!RocksDBLaws DB} st (db : DB) a ws evs db' e :
  commit_plan st db a ws evs = (db', Err e) → rows db' = rows db.
Proof.
  unfold commit_plan. destruct (tx st db); [|by intros [= <- _]].
  destruct (t ← _; _); [|by intros [= <- _]]. unfold TxM.commit, write.
  destruct (write_opt db _) as [db1 [u|e1]] eqn:Hw; intros [= <- ?].
  by apply write_opt_law in Hw.
Qed.
End commits.
