(* ===== verification/VerbSafety.v ===== *)
(** What every verb promises the engine: the operations of its plan respect the
    snapshot it planned against. The promise is an interface; each verb has its
    instance, and the engine's theorems use nothing else about a verb. *)
From S2P Require Import Prelude SortedVec RustStr Errors Json Model Context Snapshot Keys Plan Store Durable Transaction SchemaLayer JavaOrder Views Registry Queries Mutations ExporterVerbs Engine.

Local Open Scope Z_scope.

(** * What one operation does to the queries *)

Section operations.
Implicit Types s : Snapshot.

Lemma get_version_apply s op ctx subj v : snap_wf s →
  Snap.get_version (Snap.apply s op) ctx subj v =
  match op with
  | OpPutVersion ctx' subj' v' rec =>
      if decide (ctx = ctx' ∧ subj = subj' ∧ v = v') then Some rec else Snap.get_version s ctx subj v
  | OpDeleteVersion ctx' subj' v' _ =>
      if decide (ctx = ctx' ∧ subj = subj' ∧ v = v') then None else Snap.get_version s ctx subj v
  | _ => Snap.get_version s ctx subj v
  end.
Proof.
  intros Hwf. rewrite !get_version_ctx. pose proof (wf_ctx s Hwf) as Hc.
  destruct op as [ctx' id rec [|]| |ctx' subj' v' rec|ctx' subj' v' id|ctx' subj' v' id|ctx' subj' v' id
    |ctx' next| | | | | |]; simpl; try done; rewrite ctx_of_mut; destruct (decide (ctx = ctx')) as [<-|]; try done.
  - change (ctx_of (Snap.set_known _ s) ctx) with (ctx_of s ctx). rewrite version_of_put by done.
    repeat destruct (decide _); naive_solver.
  - change (ctx_of (Snap.set_known _ s) ctx) with (ctx_of s ctx). rewrite decide_False by naive_solver. done.
  - rewrite version_of_delete by done. repeat destruct (decide _); naive_solver.
  - rewrite decide_False by naive_solver. done.
  - destruct (delete_refby_rest (ctx_of s ctx) subj' v' id) as (Hs & _). unfold version_of. by rewrite Hs.
Qed.

Lemma next_id_apply s op ctx :
  Snap.next_id (Snap.apply s op) ctx =
  match op with
  | OpSetNextId ctx' n => if decide (ctx = ctx') then n else Snap.next_id s ctx
  | _ => Snap.next_id s ctx
  end.
Proof.
  rewrite !next_id_ctx.
  destruct op as [ctx' id rec [|]| |ctx' subj' v' rec|ctx' subj' v' id|ctx' subj' v' id|ctx' subj' v' id
    |ctx' next| | | | | |]; simpl; try done; rewrite ctx_of_mut; destruct (decide (ctx = ctx')) as [<-|]; try done.
  - change (ctx_of (Snap.set_known _ s) ctx) with (ctx_of s ctx).
    by destruct (put_version_rest (ctx_of s ctx) subj' v' rec) as (_ & -> & _).
  - by destruct (delete_version_rest (ctx_of s ctx) subj' v' id) as (_ & -> & _).
  - by destruct (delete_refby_rest (ctx_of s ctx) subj' v' id) as (_ & _ & -> & _).
Qed.

(** Operations that put no version and move no counter; the deletes name the
    id their version has. *)
Definition removes s (op : Op) : Prop :=
  match op with
  | OpPutVersion _ _ _ _ | OpSetNextId _ _ | OpDeleteContext _ => False
  | _ => op_ok s op
  end.

Lemma removes_mono s op op' : snap_wf s → removes s op → removes s op' → removes (Snap.apply s op) op'.
Proof.
  intros Hwf Hop Hop'. destruct op'; try done. intros vr Hvr. apply (Hop' vr).
  rewrite get_version_apply in Hvr by done. destruct op; try done. by destruct (decide _).
Qed.

Lemma removes_ok s ops : snap_wf s → Forall (removes s) ops →
  ops_ok s ops ∧ snap_wf (Snap.apply_all s ops) ∧
  (∀ ctx, Snap.next_id (Snap.apply_all s ops) ctx = Snap.next_id s ctx).
Proof.
  intros Hwf Hops. revert s Hwf Hops. induction ops as [|op ops IH]; intros s Hwf Hops; [done|].
  apply Forall_cons in Hops as [Hop Hops].
  assert (op_ok s op) as Hok by (by destruct op).
  destruct (IH (Snap.apply s op)) as (Hoks & Hwf' & Hn); [by apply apply_wf| |].
  - eapply Forall_impl; [exact Hops|]. intros op'. by apply removes_mono.
  - split_and!; [done|done|]. intros ctx0. simpl. unfold Snap.apply_all in Hn. rewrite Hn, next_id_apply.
    by destruct op.
Qed.

(** Operations that delete no version and move no counter; the puts have
    allocated ids. *)
Definition adds s (op : Op) : Prop :=
  match op with
  | OpDeleteVersion _ _ _ _ | OpSetNextId _ _ | OpDeleteContext _ => False
  | _ => op_ok s op
  end.

Lemma adds_ok s ops : Forall (adds s) ops →
  ops_ok s ops ∧ (∀ ctx, Snap.next_id (Snap.apply_all s ops) ctx = Snap.next_id s ctx).
Proof.
  intros Hops. revert s Hops. induction ops as [|op ops IH]; intros s Hops; [done|].
  apply Forall_cons in Hops as [Hop Hops].
  assert (∀ ctx, Snap.next_id (Snap.apply s op) ctx = Snap.next_id s ctx) as Hn1.
  { intros ctx. rewrite next_id_apply. by destruct op. }
  destruct (IH (Snap.apply s op)) as (Hoks & Hn).
  - eapply Forall_impl; [exact Hops|]. intros op' Hop'. destruct op'; try done. simpl. by rewrite Hn1.
  - split; [by split; [destruct op|]|]. intros ctx. simpl. unfold Snap.apply_all in Hn. by rewrite Hn.
Qed.

Lemma list_versions_get s ctx subj v vr : snap_wf s →
  (v, vr) ∈ Snap.list_versions s ctx subj ↔ Snap.get_version s ctx subj v = Some vr.
Proof.
  intros Hwf. rewrite get_version_ctx, list_versions_ctx.
  rewrite (version_of_elem _ subj v vr (wf_ctx s Hwf ctx)).
  destruct (subjects (ctx_of s ctx) !! subj); simpl; rewrite ?elem_of_nil; naive_solver.
Qed.
End operations.

Lemma plan_ops_app a b : plan_ops (a ++ b) = plan_ops a ++ plan_ops b.
Proof. unfold plan_ops. by rewrite fmap_app, concat_app. Qed.
Lemma plan_ops_cons w ws : plan_ops (w :: ws) = write_ops w ++ plan_ops ws.
Proof. done. Qed.

(** A property of the operations of each write is one of the plan's. *)
Lemma plan_ops_Forall (P : Op → Prop) ws : Forall (λ w, Forall P (write_ops w)) ws → Forall P (plan_ops ws).
Proof. unfold plan_ops. induction 1; simpl; [constructor|]. by apply Forall_app. Qed.

Section plans.
Context {formats : SchemaFormats}.

(** ** Hard deletes *)

(** Versions to be hard-deleted, as the plans read them off the snapshot. *)
Definition stored_version (r : Reader) (x : QualifiedSubject * Z * VersionRecord) : Prop :=
  Snap.get_version (rd_snap r) (context x.1.1) (subject x.1.1) x.1.2 = Some x.2.

Lemma hard_delete_shape r q v vr also ws ev : hard_delete_writes r q v vr also = Ok (ws, ev) →
  ev = mkEvent (context q) (subject q) v (vr_id vr) HardDelete ∧
  ∃ extra, ws = WDeleteVersion (context q) (subject q) v (vr_id vr) :: extra ∧
    Forall (λ w, match w with
                 | WDeleteRefby _ _ _ id => id = vr_id vr
                 | WDeleteSchema ctx id => ctx = context q ∧ id = vr_id vr
                 | _ => False
                 end) extra.
Proof.
  unfold hard_delete_writes. cbv zeta. intros H. apply bind_Ok in H as (extra & He & [= <- <-]).
  split; [done|]. exists extra. split; [done|]. destruct (existsb _ _); [by injection He as <-|].
  apply bind_Ok in He as ([rec|] & _ & He); [|by injection He as <-].
  apply bind_Ok in He as (refs & Hrefs & [= <-]). apply Forall_app. split; [|by repeat constructor].
  apply mapM_result_Ok in Hrefs. induction Hrefs as [|sr w l k Hw _ IH]; constructor; [|done].
  apply bind_Ok in Hw as (t & _ & [= <-]). done.
Qed.

Lemma hard_delete_removes r q v vr also ws ev : hard_delete_writes r q v vr also = Ok (ws, ev) →
  Snap.get_version (rd_snap r) (context q) (subject q) v = Some vr →
  Forall (removes (rd_snap r)) (plan_ops ws).
Proof.
  intros H Hv. apply hard_delete_shape in H as (_ & extra & -> & Hextra). apply plan_ops_Forall.
  constructor.
  - repeat constructor. simpl. intros vr'. rewrite Hv. by intros [= <-].
  - eapply Forall_impl; [exact Hextra|]. intros w. by destruct w; repeat constructor.
Qed.

Lemma hard_delete_all_removes r l also ws evs : hard_delete_all r l also = Ok (ws, evs) →
  Forall (stored_version r) l → Forall (removes (rd_snap r)) (plan_ops ws).
Proof.
  unfold hard_delete_all. intros H Hl. apply bind_Ok in H as (xs & Hxs & [= <- <-]).
  apply mapM_result_Ok in Hxs. induction Hxs as [|[[q v] vr] [ws ev] l k Hx Hxs IH]; simpl; [constructor|].
  apply Forall_cons in Hl as [Hv Hl]. rewrite plan_ops_app. apply Forall_app. split; [|by apply IH].
  by eapply hard_delete_removes.
Qed.

Lemma versions_stored r q : snap_wf (rd_snap r) →
  Forall (λ x, stored_version r (q, x.1, x.2)) (versions_of r q).
Proof.
  intros Hwf. apply Forall_forall. intros [v vr] Hin. by apply list_versions_get.
Qed.

(** ** The shape of a registration *)

Lemma populate_keeps r q cfg d latest nv d' b : populate_from_previous r q cfg d latest nv = Ok (d', b) →
  d_id d' = d_id d ∧ d_version d' = d_version d.
Proof.
  unfold populate_from_previous. intros H. apply bind_Ok in H as (previous & _ & H).
  apply bind_Ok in H as ([d1 populated] & H1 & H).
  assert (d_id d1 = d_id d ∧ d_version d1 = d_version d) as [<- <-].
  { destruct (match d_schema d with Some s => is_blank s | None => true end).
    - destruct previous; [|done]. by injection H1 as <- _.
    - by injection H1 as <- _. }
  cbv zeta in H. apply bind_Ok in H as (metadata & _ & H). destruct (_ || _); by injection H as <- _.
Qed.

Definition in_import (view : ReadView) (q : QualifiedSubject) : bool :=
  bool_decide (mode_for view (SubjectTarget q) = Import).
Definition level_in_force (r : Reader) (q : QualifiedSubject) : CompatibilityLevel :=
  default (default_compatibility (rd_reg r)) (ConfigRecord.compatibility_level (config_in_scope r q)).

(** What a request asks to register: the draft, completed from the newest live
    version outside IMPORT mode, parsed and normalised. *)
Definition request_canon (m : RegisterSchema) (view : ReadView) : Outcome (option Canon) :=
  let r := vw_reader view in let q := rg_subject m in
  let versions := versions_of r q in
  '(d, _) ← (if in_import view q then Ok (rg_draft m, false)
             else populate_from_previous r q (config_in_scope r q) (rg_draft m) (head (live_newest_first versions))
                    (new_version_of versions));
  canonicalize r q d (bool_decide (d_id d < 0)) (register_normalize m view).

(** The schema is registered in the subject, live, under the id: the id is
    the one the content hash leads to, or the stored body has the same type,
    text and rules, and the same references (or the request gave none). *)
Definition already_there (r : Reader) (q : QualifiedSubject) (c : Canon) (id : Z) : Prop :=
  ∃ v vr, Snap.get_version (rd_snap r) (context q) (subject q) v = Some vr ∧ vr_deleted vr = false ∧ vr_id vr = id ∧
    (Snap.id_for_fingerprint (rd_snap r) (context q) (canon_fingerprint c) = Some id ∨
     ∃ rec, get_schema r (context q) id = Ok (Some rec) ∧ sr_type rec = c_type c ∧ sr_schema rec = c_text c ∧
       opt_value_eqb (c_rule_set c) (sr_rule_set rec) = true ∧ (c_refs c = [] ∨ c_refs c = sr_references rec)).

(** A registration that stores something, step by step. *)
Record registration (m : RegisterSchema) (view : ReadView) (p : Plan RegisterResponse)
    (d : Draft) (c : Canon) (schema_id version id : Z) : Prop := {
  rn_draft : d_id d = d_id (rg_draft m) ∧ d_version d = d_version (rg_draft m);
  rn_request : request_canon m view = Ok (Some c);
  rn_canon : canonicalize (vw_reader view) (rg_subject m) d (bool_decide (d_id d < 0)) (register_normalize m view) = Ok (Some c);
  rn_stored : find_stored (vw_reader view) (rg_subject m) d (Some c) = Ok (inr schema_id);
  rn_same : d_version d = 0 →
    find_same (vw_reader view) (rg_subject m) c schema_id
      (live_newest_first (versions_of (vw_reader view) (rg_subject m))) = Ok None;
  rn_compatible : in_import view (rg_subject m) = false → ∃ olds,
    compat_candidates (vw_reader view) (rg_subject m) (config_in_scope (vw_reader view) (rg_subject m)) (c_metadata c) = Ok olds ∧
    check_compatibility (vw_reader view) (context (rg_subject m)) (c_parsed c) olds
      (level_in_force (vw_reader view) (rg_subject m)) (config_in_scope (vw_reader view) (rg_subject m)) = Ok [];
  rn_version : choose_version d (new_version_of (versions_of (vw_reader view) (rg_subject m))) (in_import view (rg_subject m)) = Ok version;
  rn_id : choose_id (vw_reader view) (rg_subject m) schema_id (canon_fingerprint c) = Ok id;
  rn_rows : register_rows (vw_reader view) view (rg_subject m) c (versions_of (vw_reader view) (rg_subject m))
              version id (canon_fingerprint c) = Ok (writes p, events p);
  rn_output : ∃ modified, output p = answer modified (entity_from_canon (rg_subject m) version id c);
}.

Lemma refuse_Ok b e u : refuse b e = Ok u ↔ b = false.
Proof. unfold refuse, fail. destruct u, b; naive_solver. Qed.

Lemma find_stored_inl r q d canon e : find_stored r q d canon = Ok (inl e) → d_version d = 0.
Proof.
  unfold find_stored. destruct canon as [c|]; [|done]. cbv zeta.
  destruct (match hash_lookup r q c with Some _ => _ | None => _ end) as [[id [[v vr]|]]|]; [|done..].
  case_bool_decide; [done|]. discriminate.
Qed.

Lemma max_opt_spec l : match max_opt l with
                       | Some m => m ∈ l ∧ ∀ x, x ∈ l → x ≤ m
                       | None => l = []
                       end.
Proof.
  unfold max_opt.
  destruct l as [|x l]; [done|]. cbn [foldl].
  assert (∀ acc, foldl (λ a v, Some match a with Some a => Z.max a v | None => v end) (Some acc) l =
    Some (foldl Z.max acc l)) as -> by (induction l; [done|]; intros; simpl; auto).
  revert x. induction l as [|y l IH]; intros x; simpl; [set_solver by lia|].
  specialize (IH (Z.max x y)). destruct IH as [Hin Hle]. split.
  - apply elem_of_cons in Hin as [->|Hin]; [|set_solver]. destruct (Z.max_spec x y) as [[_ ->]|[_ ->]]; set_solver.
  - intros z Hz. assert (Z.max x y ≤ foldl Z.max (Z.max x y) l) by (apply Hle; set_solver).
    apply elem_of_cons in Hz as [->|Hz]; [lia|]. apply elem_of_cons in Hz as [->|Hz]; [lia|]. apply Hle. set_solver.
Qed.

Lemma answer_id modified e : rs_id (answer modified e) = en_id e.
Proof. by destruct modified. Qed.

Lemma hash_lookup_Some r q c id v vr : snap_wf (rd_snap r) → hash_lookup r q c = Some (id, Some (v, vr)) →
  Snap.id_for_fingerprint (rd_snap r) (context q) (canon_fingerprint c) = Some id ∧
  Snap.get_version (rd_snap r) (context q) (subject q) v = Some vr ∧ vr_id vr = id.
Proof.
  intros Hwf. unfold hash_lookup. destruct (Snap.id_for_fingerprint _ _ _) as [i|] eqn:Hf; cbn [mbind option_bind]; [|done].
  case_bool_decide; [done|]. cbv zeta. intros [= <- Hm]. destruct (max_opt _) as [w|] eqn:Hmax; [|done]. cbn [mbind option_bind] in Hm.
  destruct (Snap.get_version _ _ _ w) as [x|] eqn:Hg; [|done]. injection Hm as <- <-. split_and!; [done..|].
  pose proof (max_opt_spec (filter (λ x, x.1 = subject q) (Snap.id_usages (rd_snap r) (context q) i)).*2) as Hin.
  rewrite Hmax in Hin. destruct Hin as [Hin _]. apply list_elem_of_fmap in Hin as ([subj v'] & Hv & [Hs Hu]%list_elem_of_filter).
  simpl in *. subst. rewrite id_usages_ctx in Hu. apply (wf_exact _ (wf_ctx _ Hwf _)) in Hu as (vr' & Hvr' & <-).
  rewrite get_version_ctx in Hg. congruence.
Qed.

Lemma equivalent_same c m e m' : equivalent c m e m' = true →
  c_type c = en_type e ∧ c_text c = en_schema e ∧ opt_value_eqb (c_rule_set c) (en_rule_set e) = true.
Proof. unfold equivalent. rewrite !andb_true_iff, !bool_decide_eq_true. naive_solver. Qed.

Lemma can_lookup_same c e : can_lookup c e = true →
  c_type c = en_type e ∧ c_text c = en_schema e ∧ opt_value_eqb (c_rule_set c) (en_rule_set e) = true ∧
  (c_refs c = [] ∨ c_refs c = en_references e).
Proof.
  assert (can_lookup_ignoring_version c e = true → c_type c = en_type e ∧ c_text c = en_schema e ∧
    opt_value_eqb (c_rule_set c) (en_rule_set e) = true) as Hi.
  { unfold can_lookup_ignoring_version. cbv zeta.
    destruct (_ ≫= parse_u32), (_ ≫= parse_u32); rewrite ?andb_true_iff; intros Hc; try (by eapply equivalent_same);
      destruct Hc as [_ Hc]; by eapply equivalent_same. }
  unfold can_lookup. destruct (_ && _) eqn:E.
  - intros _. rewrite !andb_true_iff, bool_decide_eq_true in E. destruct E as [[Hr _] Hc]. destruct (Hi Hc) as (? & ? & ?). auto.
  - destruct (_ || _); [|done]. rewrite andb_true_iff, bool_decide_eq_true. intros [Hr Hc]. destruct (Hi Hc) as (? & ? & ?). auto.
Qed.

Lemma find_same_Some r q c sid vs v vr : find_same r q c sid vs = Ok (Some (v, vr)) →
  (v, vr) ∈ vs ∧ ∃ rec, need_schema r (context q) (vr_id vr) = Ok rec ∧ can_lookup c (entity_stored q v (vr_id vr) rec) = true.
Proof.
  induction vs as [|[v' vr'] vs IH]; cbn [find_same]; [done|]. destruct (_ && _).
  { intros Hs. destruct (IH Hs) as [Hin Hrec]. split; [by right|done]. }
  intros Hs. apply bind_Ok in Hs as (e & He & Hs). destruct (can_lookup c e) eqn:Hc.
  - injection Hs as -> ->. split; [by left|]. apply bind_Ok in He as (rec & Hrec & [= <-]). by exists rec.
  - destruct (IH Hs) as [Hin Hrec]. split; [by right|done].
Qed.

Lemma live_newest_first_elem r q v vr : snap_wf (rd_snap r) → (v, vr) ∈ live_newest_first (versions_of r q) ↔
  Snap.get_version (rd_snap r) (context q) (subject q) v = Some vr ∧ vr_deleted vr = false.
Proof.
  intros Hwf. unfold live_newest_first. rewrite list_elem_of_filter, elem_of_reverse. unfold versions_of.
  rewrite list_versions_get by done. cbn [snd]. naive_solver.
Qed.

Lemma find_stored_found r q d c e : snap_wf (rd_snap r) → find_stored r q d (Some c) = Ok (inl e) → already_there r q c (en_id e).
Proof.
  intros Hwf. unfold find_stored. cbv zeta. destruct (hash_lookup r q c) as [[id sv]|] eqn:Hh; [|done].
  destruct (_ || _); [|done]. destruct sv as [[v vr]|]; [|done]. destruct (_ && _) eqn:E; [|done]. intros [= <-].
  apply andb_true_iff in E as [_ Hd%negb_true_iff]. apply hash_lookup_Some in Hh as (Hf & Hg & Hid); [|done].
  exists v, vr. split_and!; [done..|by left].
Qed.

Lemma find_same_found r q c sid v vr : snap_wf (rd_snap r) →
  find_same r q c sid (live_newest_first (versions_of r q)) = Ok (Some (v, vr)) → already_there r q c (vr_id vr).
Proof.
  intros Hwf Hs. apply find_same_Some in Hs as [Hin (rec & Hrec & Hc)]. apply live_newest_first_elem in Hin as [Hg Hd]; [|done].
  exists v, vr. split_and!; [done..|right]. exists rec. apply bind_Ok in Hrec as (o & Ho & Hrec). apply ok_or_Ok in Hrec as ->.
  apply can_lookup_same in Hc as (? & ? & ? & ?). split_and!; done.
Qed.

(** A registration either finds its schema in place and writes nothing, which
    happens only without a version of its own, or is one of the above. *)
Lemma register_plan_inv m view p : register_plan m view = Ok p →
  (writes p = [] ∧ events p = [] ∧ d_version (rg_draft m) = 0 ∧
   ∃ c, request_canon m view = Ok (Some c) ∧
     (snap_wf (rd_snap (vw_reader view)) → already_there (vw_reader view) (rg_subject m) c (rs_id (output p)))) ∨
  ∃ d c schema_id version id, registration m view p d c schema_id version id.
Proof.
  unfold register_plan. cbv zeta. intros H. apply bind_Ok in H as ([d modified] & Hd & H).
  assert (d_id d = d_id (rg_draft m) ∧ d_version d = d_version (rg_draft m)) as Hkeep.
  { destruct (bool_decide (_ = Import)); [by injection Hd as <- _|]. by eapply populate_keeps. }
  apply bind_Ok in H as (canon & Hc & H).
  assert (request_canon m view = Ok canon) as Hreq by (unfold request_canon, in_import; cbv zeta; by rewrite Hd).
  apply bind_Ok in H as ([e|schema_id] & Hs & H).
  { left. injection H as <-. split_and!; [done..| |].
    - rewrite <-(proj2 Hkeep). by eapply find_stored_inl.
    - destruct canon as [c|]; [|done]. exists c. split; [done|]. intros Hwf. cbn [output PlanM.new]. rewrite answer_id.
      by eapply find_stored_found. }
  apply bind_Ok in H as (same & Hsame & H). apply bind_Ok in H as (c & Hcanon & H).
  apply ok_or_Ok in Hcanon as ->.
  destruct same as [[v vr]|].
  { left. injection H as <-. case_bool_decide as Hv; [|done]. split_and!; [done..|by rewrite <-(proj2 Hkeep)|].
    exists c. split; [done|]. intros Hwf. cbn [output PlanM.new]. rewrite answer_id. by eapply find_same_found. }
  apply bind_Ok in H as ([] & Hcompat & H). apply bind_Ok in H as (version & Hv & H).
  apply bind_Ok in H as (id & Hid & H). apply bind_Ok in H as ([ws evs] & Hrows & [= <-]).
  right. exists d, c, schema_id, version, id. split; try done; [| |by eexists].
  - intros H0. by rewrite bool_decide_eq_true_2 in Hsame.
  - unfold in_import. intros Himp. rewrite Himp in Hcompat. apply bind_Ok in Hcompat as (olds & Ho & Hcompat).
    apply bind_Ok in Hcompat as (msgs & Hm & Hcompat). apply refuse_Ok in Hcompat.
    apply negb_false_iff, bool_decide_eq_true in Hcompat as ->. by exists olds.
Qed.

(** The ids a registration may store under. *)
Lemma choose_id_cases r q schema_id fp id : choose_id r q schema_id fp = Ok id →
  (0 ≤ schema_id ∧ id = as_u32 schema_id) ∨ (schema_id < 0 ∧ id = Snap.next_id (rd_snap r) (context q)).
Proof.
  unfold choose_id. case_bool_decide as H0; [|intros [= <-]; right; split; [lia|done]].
  cbv zeta. intros H. apply bind_Ok in H as ([e|] & _ & H); [|left; by injection H as <-].
  case_bool_decide; [done|]. left. by injection H as <-.
Qed.

Lemma find_stored_i32 r q d c schema_id : is_i32 (d_id d) → find_stored r q d (Some c) = Ok (inr schema_id) → is_i32 schema_id.
Proof.
  assert (∀ z, is_i32 (as_i32 z)) as Hi.
  { intros z. unfold is_i32, i32_min, i32_max, as_i32. pose proof (Z.mod_pos_bound (z + 2^31) (2^32)). lia. }
  intros Hd. unfold find_stored. cbv zeta.
  destruct (match hash_lookup r q c with Some _ => _ | None => _ end) as [[id [[v vr]|]]|];
    [destruct (_ && _)|..]; intros H; simplify_eq/=; try done; apply Hi.
Qed.
End plans.

(** * The interface *)

Section interface.
Context {formats : SchemaFormats}.

(** No context has used up its ids. *)
Definition id_space (s : Snapshot) : Prop := ∀ ctx, 0 ≤ Snap.next_id s ctx < u32_max.

Class SafeVerb (M : Type) `{!Mutation M} := {
  (** Integers of the request fit their machine types. *)
  well_typed : M → Prop;
  plan_safe : ∀ (m : M) (view : ReadView) p, well_typed m →
    snap_wf (rd_snap (vw_reader view)) → id_space (rd_snap (vw_reader view)) →
    plan m view = Ok p → ops_ok (rd_snap (vw_reader view)) (plan_ops (writes p));
}.

(** The rows of a registration, in order: the versions it replaces go, the
    content and counter come, then the version and its references. *)
Lemma register_rows_shape r view q c versions version id fp ws evs :
  register_rows r view q c versions version id fp = Ok (ws, evs) →
  ∃ ws1 evs1 ws2 evs2 rec,
    hard_delete_all r (match List.find (λ x : Z * VersionRecord, bool_decide (x.1 = version)) versions with
                       | Some (_, vr) => [(q, version, vr)] | None => [] end) ∅ = Ok (ws1, evs1) ∧
    hard_delete_all r (map (λ x, (q, x.1, x.2))
      (filter (λ x : Z * VersionRecord, vr_deleted x.2 = true ∧ vr_id x.2 = id ∧ x.1 < version) versions))
      (list_to_set (map (λ x, (subject q, x.1))
        (filter (λ x : Z * VersionRecord, vr_deleted x.2 = true ∧ vr_id x.2 = id ∧ x.1 < version) versions))) = Ok (ws2, evs2) ∧
    choose_record r view q id c fp = Ok rec ∧
    ws = (ws1 ++ ws2) ++ [WPutSchema (context q) id rec true] ++
         (if bool_decide (Snap.next_id (rd_snap r) (context q) ≤ id) then [WSetNextId (context q) (u32_add id 1)] else []) ++
         [WPutVersion (context q) (subject q) version (mkVersion id false (vw_now view))] ++
         map (λ x, WPutRefby (context x.1) (subject x.1) x.2 id) (c_targets c) ∧
    evs = evs1 ++ evs2 ++ [mkEvent (context q) (subject q) version id Register].
Proof.
  unfold register_rows. cbv zeta. intros Hr. apply bind_Ok in Hr as ([ws1 evs1] & H1 & Hr).
  apply bind_Ok in Hr as ([ws2 evs2] & H2 & Hr). apply bind_Ok in Hr as (rec & Hrec & [= <- <-]).
  exists ws1, evs1, ws2, evs2, rec. split_and!; try done. by rewrite <-!app_assoc.
Qed.

Lemma registered_id_fits r q schema_id fp id : is_i32 schema_id → id_space (rd_snap r) →
  choose_id r q schema_id fp = Ok id → 0 ≤ id < u32_max.
Proof.
  intros Hi Hs Hid. apply choose_id_cases in Hid as [[H0 ->]|[_ ->]]; [|apply Hs].
  unfold is_i32, i32_max, u32_max in *. rewrite as_u32_small; [lia|]. unfold is_u32, u32_max. lia.
Qed.

Lemma register_rows_old r q versions version : snap_wf (rd_snap r) → versions = versions_of r q →
  Forall (stored_version r) (match List.find (λ x : Z * VersionRecord, bool_decide (x.1 = version)) versions with
                             | Some (_, vr) => [(q, version, vr)] | None => [] end).
Proof.
  intros Hwf ->. destruct (List.find _ _) as [[v vr]|] eqn:Hf; [|constructor].
  apply find_some in Hf as [Hin Hv]. simpl in Hv. apply bool_decide_eq_true in Hv as ->.
  constructor; [|constructor]. apply list_elem_of_In in Hin. by apply list_versions_get.
Qed.

Lemma filtered_stored r q (P : Z * VersionRecord → Prop) `{∀ x, Decision (P x)} : snap_wf (rd_snap r) →
  Forall (stored_version r) (map (λ x, (q, x.1, x.2)) (filter P (versions_of r q))).
Proof.
  intros Hwf. apply Forall_forall. intros x Hx. apply list_elem_of_fmap in Hx as ([v vr] & -> & Hx).
  apply list_elem_of_filter in Hx as [_ Hx]. by apply list_versions_get.
Qed.

Lemma register_plan_safe m view (p : Plan RegisterResponse) : is_i32 (d_id (rg_draft m)) →
  snap_wf (rd_snap (vw_reader view)) → id_space (rd_snap (vw_reader view)) →
  register_plan m view = Ok p → ops_ok (rd_snap (vw_reader view)) (plan_ops (writes p)).
Proof.
  intros Htyped Hwf Hspace Hp. apply register_plan_inv in Hp as [[-> _]|(d & c & sid & version & id & Hn)]; [done|].
  destruct Hn as [[Hd _] _ _ Hst _ _ _ Hid Hrows _]. rewrite <-Hd in Htyped.
  assert (is_i32 sid) as Hsid by (by eapply find_stored_i32).
  pose proof (registered_id_fits _ _ _ _ _ Hsid Hspace Hid) as Hfit.
  apply register_rows_shape in Hrows as (ws1 & evs1 & ws2 & evs2 & rec & H1 & H2 & _ & -> & _).
  rewrite plan_ops_app. apply ops_ok_app.
  assert (Forall (removes (rd_snap (vw_reader view))) (plan_ops (ws1 ++ ws2))) as Hrem.
  { rewrite plan_ops_app. apply Forall_app. split.
    - eapply hard_delete_all_removes; [exact H1|]. by apply register_rows_old.
    - eapply hard_delete_all_removes; [exact H2|]. by apply filtered_stored. }
  apply removes_ok in Hrem as (Hok & Hwf1 & Hn1); [|done]. split; [exact Hok|].
  set (s1 := Snap.apply_all _ (plan_ops (ws1 ++ ws2))) in *.
  rewrite plan_ops_app. apply ops_ok_app. split; [done|].
  set (s2 := Snap.apply_all s1 _).
  assert (∀ ctx, Snap.next_id s2 ctx = Snap.next_id (rd_snap (vw_reader view)) ctx) as Hn2.
  { intros ctx. unfold s2. simpl. rewrite <-Hn1. apply (next_id_apply s1 (OpPutSchema _ _ _ true)). }
  assert (∀ s, id < Snap.next_id s (context (rg_subject m)) →
    ops_ok s (plan_ops ([WPutVersion (context (rg_subject m)) (subject (rg_subject m)) version (mkVersion id false (vw_now view))] ++
      map (λ x, WPutRefby (context x.1) (subject x.1) x.2 id) (c_targets c)))) as Htail.
  { intros s Hs. apply adds_ok, plan_ops_Forall. constructor; [by repeat constructor|].
    apply Forall_forall. intros w Hw. apply list_elem_of_fmap in Hw as (x & -> & _). by repeat constructor. }
  case_bool_decide as Hle; [|apply Htail; rewrite Hn2; lia].
  assert (u32_add id 1 = id + 1) as Hadd by (apply u32_add_small; unfold is_u32; lia).
  rewrite plan_ops_app. apply ops_ok_app. split; [split; [|done]; simpl; rewrite Hn2; lia|].
  apply Htail. unfold s2. cbn [plan_ops write_ops fmap list_fmap concat app Snap.apply_all foldl].
  rewrite next_id_apply, decide_True by done. lia.
Qed.

#[export] Instance register_safe : SafeVerb RegisterSchema :=
  { well_typed m := is_i32 (d_id (rg_draft m)); plan_safe := register_plan_safe }.

(** ** Deletes *)

Lemma get_exact_in r q spec del v vr : get_exact r q spec del = Some (v, vr) →
  (v, vr) ∈ versions_of r q ∧ (spec = Latest ∨ spec = Exact v) ∧ (spec = Latest ∨ del = false → vr_deleted vr = false).
Proof.
  unfold get_exact, find_last. destruct spec as [|n]; intros Hf; apply find_some in Hf as [Hin Hb]; simpl in Hb.
  - apply list_elem_of_In in Hin. rewrite elem_of_reverse in Hin. apply negb_true_iff in Hb. split_and!; [done|by left|done].
  - apply list_elem_of_In in Hin. apply andb_true_iff in Hb as [Hn Hb]. apply bool_decide_eq_true in Hn as ->.
    split_and!; [done|by right|]. intros [|Hd]; [done|]. rewrite Hd in Hb. by apply negb_true_iff.
Qed.

(** Soft deletes only set a flag, so the ids they put back are allocated. *)
Lemma soft_delete_adds r q x : snap_wf (rd_snap r) → x ∈ versions_of r q →
  Forall (adds (rd_snap r)) (write_ops (soft_delete_write q x.1 x.2)).
Proof.
  intros Hwf Hin. destruct x as [v vr]. apply list_versions_get in Hin; [|done]. repeat constructor. simpl.
  rewrite next_id_ctx. rewrite get_version_ctx in Hin. by apply (wf_counter _ Hwf) in Hin.
Qed.
Lemma drop_settings_adds s q : Forall (adds s) (plan_ops (drop_settings q)).
Proof. by repeat constructor. Qed.

Lemma delete_subject_safe_plan m view p : True →
  snap_wf (rd_snap (vw_reader view)) → id_space (rd_snap (vw_reader view)) →
  delete_subject_plan m view = Ok p → ops_ok (rd_snap (vw_reader view)) (plan_ops (writes p)).
Proof.
  intros _ Hwf _. unfold delete_subject_plan. cbv zeta. intros Hp.
  apply bind_Ok in Hp as ([] & _ & Hp). apply bind_Ok in Hp as ([] & _ & Hp). apply bind_Ok in Hp as ([] & _ & Hp).
  apply bind_Ok in Hp as ([ws evs] & Hws & [= <-]). simpl. destruct (ds_permanent m).
  - eapply removes_ok; [done|]. eapply hard_delete_all_removes; [exact Hws|]. by apply filtered_stored.
  - injection Hws as <- <-. apply adds_ok. rewrite plan_ops_app. apply Forall_app. split; [|apply drop_settings_adds].
    apply plan_ops_Forall, Forall_forall. intros w Hw. apply list_elem_of_fmap in Hw as (x & -> & Hx).
    apply list_elem_of_filter in Hx as [_ Hx]. by apply soft_delete_adds.
Qed.
#[export] Instance delete_subject_safe : SafeVerb DeleteSubject :=
  { well_typed _ := True; plan_safe := delete_subject_safe_plan }.

Lemma delete_version_safe_plan m view p : True →
  snap_wf (rd_snap (vw_reader view)) → id_space (rd_snap (vw_reader view)) →
  delete_version_plan m view = Ok p → ops_ok (rd_snap (vw_reader view)) (plan_ops (writes p)).
Proof.
  intros _ Hwf _. unfold delete_version_plan. cbv zeta.
  destruct (get_exact _ _ _ true) as [[v vr]|] eqn:Hex; [|done]. apply get_exact_in in Hex as (Hin & _). intros Hp.
  apply bind_Ok in Hp as ([] & _ & Hp). apply bind_Ok in Hp as ([] & _ & Hp). apply bind_Ok in Hp as ([] & _ & Hp).
  destruct (dv_permanent m).
  - apply bind_Ok in Hp as ([ws ev] & Hws & [= <-]). simpl. eapply removes_ok; [done|].
    eapply hard_delete_removes; [exact Hws|]. by apply list_versions_get.
  - injection Hp as <-. cbn [writes]. apply adds_ok. rewrite plan_ops_cons. apply Forall_app.
    split; [by apply (soft_delete_adds _ _ (v, vr))|]. destruct (existsb _ _); [constructor|apply drop_settings_adds].
Qed.
#[export] Instance delete_version_safe : SafeVerb DeleteSubjectVersion :=
  { well_typed _ := True; plan_safe := delete_version_safe_plan }.

(** ** Settings *)

Lemma update_safe_plan m view p : True →
  snap_wf (rd_snap (vw_reader view)) → id_space (rd_snap (vw_reader view)) →
  update_plan m view = Ok p → ops_ok (rd_snap (vw_reader view)) (plan_ops (writes p)).
Proof. intros _ _ _ [= <-]. done. Qed.
#[export] Instance update_safe : SafeVerb UpdateCompatibility := { well_typed _ := True; plan_safe := update_safe_plan }.

Lemma delete_config_safe_plan m view p : True →
  snap_wf (rd_snap (vw_reader view)) → id_space (rd_snap (vw_reader view)) →
  delete_config_plan m view = Ok p → ops_ok (rd_snap (vw_reader view)) (plan_ops (writes p)).
Proof. intros _ _ _ Hp. unfold delete_config_plan in Hp. apply bind_Ok in Hp as (c & _ & [= <-]). done. Qed.
#[export] Instance delete_config_safe : SafeVerb DeleteSubjectConfig :=
  { well_typed _ := True; plan_safe := delete_config_safe_plan }.

Lemma delete_context_safe_plan m view p : True →
  snap_wf (rd_snap (vw_reader view)) → id_space (rd_snap (vw_reader view)) →
  delete_context_plan m view = Ok p → ops_ok (rd_snap (vw_reader view)) (plan_ops (writes p)).
Proof.
  intros _ _ _ Hp. unfold delete_context_plan in Hp. apply bind_Ok in Hp as ([] & Hr & [= <-]).
  apply refuse_Ok, negb_false_iff, bool_decide_eq_true in Hr. by split.
Qed.
#[export] Instance delete_context_safe : SafeVerb DeleteContext :=
  { well_typed _ := True; plan_safe := delete_context_safe_plan }.

Lemma versions_in_scope_stored r subj : snap_wf (rd_snap r) → Forall (stored_version r) (versions_in_scope r subj).
Proof.
  intros Hwf. apply Forall_forall. intros x Hx. unfold versions_in_scope in Hx.
  apply list_elem_of_bind in Hx as (sq & Hx & _). apply list_elem_of_fmap in Hx as ([v vr] & -> & Hx).
  by apply list_versions_get.
Qed.

Lemma set_mode_safe_plan m view p : True →
  snap_wf (rd_snap (vw_reader view)) → id_space (rd_snap (vw_reader view)) →
  set_mode_plan m view = Ok p → ops_ok (rd_snap (vw_reader view)) (plan_ops (writes p)).
Proof.
  intros _ Hwf _. unfold set_mode_plan. cbv zeta. intros Hp. apply bind_Ok in Hp as ([ws evs] & Hws & [= <-]). simpl.
  eapply removes_ok; [done|]. rewrite plan_ops_app. apply Forall_app. split; [|by repeat constructor].
  destruct (_ && _); [|injection Hws as <- <-; constructor].
  apply bind_Ok in Hws as ([] & _ & Hws). apply bind_Ok in Hws as ([] & _ & Hws).
  eapply hard_delete_all_removes; [exact Hws|]. by apply versions_in_scope_stored.
Qed.
#[export] Instance set_mode_safe : SafeVerb SetMode := { well_typed _ := True; plan_safe := set_mode_safe_plan }.

Lemma delete_mode_safe_plan m view p : True →
  snap_wf (rd_snap (vw_reader view)) → id_space (rd_snap (vw_reader view)) →
  delete_mode_plan m view = Ok p → ops_ok (rd_snap (vw_reader view)) (plan_ops (writes p)).
Proof. intros _ _ _ Hp. unfold delete_mode_plan in Hp. apply bind_Ok in Hp as (c & _ & [= <-]). done. Qed.
#[export] Instance delete_mode_safe : SafeVerb DeleteMode := { well_typed _ := True; plan_safe := delete_mode_safe_plan }.

(** ** Exporters: no operation reaches the snapshot *)

Lemma exporter_ops s ws : Forall (λ w, write_ops w = []) ws → ops_ok s (plan_ops ws).
Proof. intros Hws. assert (plan_ops ws = []) as ->; [|done]. induction Hws as [|w ws Hw _ IH]; [done|]. by rewrite plan_ops_cons, Hw. Qed.

#[export] Program Instance create_exporter_safe : SafeVerb CreateExporter := { well_typed _ := True }.
Next Obligation.
  intros m view p _ _ _ Hp. apply exporter_ops. change (create_plan m view = Ok p) in Hp. unfold create_plan in Hp.
  apply bind_Ok in Hp as (e & _ & Hp). apply bind_Ok in Hp as ([] & _ & Hp). apply bind_Ok in Hp as ([] & _ & [= <-]).
  by repeat constructor.
Qed.
#[export] Program Instance restore_exporter_safe : SafeVerb RestoreExporter := { well_typed _ := True }.
Next Obligation.
  intros m view p _ _ _ Hp. apply exporter_ops. change (restore_plan m view = Ok p) in Hp. unfold restore_plan in Hp.
  apply bind_Ok in Hp as (e & _ & Hp). destruct (bool_decide _); [injection Hp as <-; constructor|].
  apply bind_Ok in Hp as ([] & _ & [= <-]). by repeat constructor.
Qed.
#[export] Program Instance update_exporter_safe : SafeVerb UpdateExporter := { well_typed _ := True }.
Next Obligation.
  intros m view p _ _ _ Hp. apply exporter_ops. change (update_exporter_plan m view = Ok p) in Hp.
  apply bind_Ok in Hp as (e & _ & Hp). apply bind_Ok in Hp as ([] & _ & [= <-]). by repeat constructor.
Qed.
#[export] Program Instance delete_exporter_safe : SafeVerb DeleteExporter := { well_typed _ := True }.
Next Obligation.
  intros m view p _ _ _ Hp. apply exporter_ops. change (delete_exporter_plan m view = Ok p) in Hp.
  apply bind_Ok in Hp as (e & _ & [= <-]). by repeat constructor.
Qed.
#[export] Program Instance transition_safe : SafeVerb TransitionExporter := { well_typed _ := True }.
Next Obligation.
  intros m view p _ _ _ Hp. apply exporter_ops. change (transition_plan m view = Ok p) in Hp.
  apply bind_Ok in Hp as (e & _ & Hp). apply bind_Ok in Hp as (e' & _ & [= <-]). by repeat constructor.
Qed.
End interface.

(** * The second promise of every verb: the events it logs are exactly the
    version changes it makes, in order. Replaying the log therefore rebuilds
    the versions of the registry. *)

Local Open Scope Z_scope.

(** A version change: where, and what the version is afterwards (its id and
    whether it is soft-deleted), nothing when it is gone. *)
Definition VersionChange := (string * string * Z * option (Z * bool))%type.

Definition op_change (op : Op) : option VersionChange :=
  match op with
  | OpPutVersion ctx subj v rec => Some (ctx, subj, v, Some (vr_id rec, vr_deleted rec))
  | OpDeleteVersion ctx subj v _ => Some (ctx, subj, v, None)
  | _ => None
  end.
Definition event_change (e : LogEvent) : VersionChange :=
  (ev_ctx e, ev_subject e, ev_version e,
   match ev_kind e with
   | Register => Some (ev_id e, false) | SoftDelete => Some (ev_id e, true) | HardDelete => None
   end).

(** The versions after a list of changes. *)
Abbreviation versions_map := (gmap (string * string * Z) (Z * bool)).
Definition change (m : versions_map) (c : VersionChange) : versions_map :=
  let '(ctx, subj, v, o) := c in
  match o with Some x => <[(ctx, subj, v) := x]> m | None => delete (ctx, subj, v) m end.
Definition replay (log : list LogEvent) : versions_map := foldl change ∅ (event_change <$> log).

(** The snapshot's versions, seen the same way. *)
Definition version_view (s : Snapshot) (k : string * string * Z) : option (Z * bool) :=
  (λ vr, (vr_id vr, vr_deleted vr)) <$> Snap.get_version s k.1.1 k.1.2 k.2.

Section replay.
Lemma version_view_apply s op m : snap_wf s → (∀ k, version_view s k = m !! k) →
  ∀ k, version_view (Snap.apply s op) k = foldl change m (option_list (op_change op)) !! k.
Proof.
  intros Hwf Hm [[ctx subj] v]. unfold version_view in *. simpl in *. rewrite get_version_apply by done.
  specialize (Hm (ctx, subj, v)); simpl in Hm.
  destruct op as [? ? ? [|]| |ctx' subj' v' rec|ctx' subj' v' id| | | | | | | | |]; simpl; try done.
  - destruct (decide _) as [(-> & -> & ->)|Hne]; [by rewrite lookup_insert_eq|].
    rewrite lookup_insert_ne; [done|]. naive_solver.
  - destruct (decide _) as [(-> & -> & ->)|Hne]; [by rewrite lookup_delete_eq|].
    rewrite lookup_delete_ne; [done|]. naive_solver.
Qed.

Lemma version_view_apply_all s ops m : snap_wf s → ops_ok s ops → (∀ k, version_view s k = m !! k) →
  ∀ k, version_view (Snap.apply_all s ops) k = foldl change m (omap op_change ops) !! k.
Proof.
  revert s m. induction ops as [|op ops IH]; intros s m Hwf Hok Hm k; [by apply Hm|].
  destruct Hok as [Hop Hok]. simpl. rewrite (IH (Snap.apply s op) (foldl change m (option_list (op_change op)))).
  - destruct (op_change op); done.
  - by apply apply_wf.
  - done.
  - by apply version_view_apply.
Qed.
End replay.

Lemma omap_plan_ops_app a b : omap op_change (plan_ops (a ++ b)) = omap op_change (plan_ops a) ++ omap op_change (plan_ops b).
Proof. by rewrite plan_ops_app, omap_app. Qed.

Section logged.
Context {formats : SchemaFormats}.

Class LoggedVerb (M : Type) `{!Mutation M} :=
  plan_logged : ∀ (m : M) (view : ReadView) p, plan m view = Ok p →
    omap op_change (plan_ops (writes p)) = event_change <$> events p.

(** Writes that change no version. *)
Definition silent (w : Write) : Prop := omap op_change (write_ops w) = [].
Lemma silent_ops ws : Forall silent ws → omap op_change (plan_ops ws) = [].
Proof. induction 1 as [|w ws Hw _ IH]; [done|]. rewrite plan_ops_cons, omap_app. by rewrite Hw, IH. Qed.

Lemma hard_delete_logged r q v vr also ws ev : hard_delete_writes r q v vr also = Ok (ws, ev) →
  omap op_change (plan_ops ws) = [event_change ev].
Proof.
  intros Hd. apply hard_delete_shape in Hd as (-> & extra & -> & Hextra).
  rewrite plan_ops_cons, omap_app, (silent_ops extra); [done|].
  eapply Forall_impl; [exact Hextra|]. by intros [].
Qed.

Lemma hard_delete_all_logged r l also ws evs : hard_delete_all r l also = Ok (ws, evs) →
  omap op_change (plan_ops ws) = event_change <$> evs.
Proof.
  unfold hard_delete_all. intros Hd. apply bind_Ok in Hd as (xs & Hxs & [= <- <-]). apply mapM_result_Ok in Hxs.
  induction Hxs as [|[[q v] vr] [ws ev] l k Hx _ IH]; [done|].
  change (concat ((ws, ev) :: k).*1) with (ws ++ concat k.*1).
  rewrite omap_plan_ops_app, IH, (hard_delete_logged _ _ _ _ _ _ _ Hx). done.
Qed.

Lemma register_logged_plan m view p : register_plan m view = Ok p →
  omap op_change (plan_ops (writes p)) = event_change <$> events p.
Proof.
  intros Hp. apply register_plan_inv in Hp as [(-> & -> & _)|(d & c & sid & version & id & Hn)]; [done|].
  destruct (register_rows_shape _ _ _ _ _ _ _ _ _ _ (rn_rows _ _ _ _ _ _ _ _ Hn))
    as (ws1 & evs1 & ws2 & evs2 & rec & H1 & H2 & _ & -> & ->).
  apply hard_delete_all_logged in H1, H2. rewrite !omap_plan_ops_app, H1, H2, !fmap_app, <-!app_assoc.
  do 2 f_equal.
  rewrite (silent_ops (if bool_decide _ then _ else _)) by (case_bool_decide; by repeat constructor).
  rewrite (silent_ops (map _ (c_targets c))); [done|].
  apply Forall_forall. intros w Hw. by apply list_elem_of_fmap in Hw as (x & -> & _).
Qed.
#[export] Instance register_logged : LoggedVerb RegisterSchema := register_logged_plan.

Lemma soft_deletes_logged q (vs : versions_t) :
  omap op_change (plan_ops (map (λ x, soft_delete_write q x.1 x.2) vs)) =
  event_change <$> map (λ x, soft_delete_event q x.1 x.2) vs.
Proof. induction vs as [|x vs IH]; [done|]. cbn [map]. rewrite plan_ops_cons, omap_app, IH. done. Qed.

Lemma delete_subject_logged_plan m view p : delete_subject_plan m view = Ok p →
  omap op_change (plan_ops (writes p)) = event_change <$> events p.
Proof.
  unfold delete_subject_plan. cbv zeta. intros Hp.
  apply bind_Ok in Hp as ([] & _ & Hp). apply bind_Ok in Hp as ([] & _ & Hp). apply bind_Ok in Hp as ([] & _ & Hp).
  apply bind_Ok in Hp as ([ws evs] & Hws & [= <-]). cbn [writes events]. destruct (ds_permanent m).
  - by eapply hard_delete_all_logged.
  - injection Hws as <- <-. rewrite omap_plan_ops_app, soft_deletes_logged. apply app_nil_r.
Qed.
#[export] Instance delete_subject_logged : LoggedVerb DeleteSubject := delete_subject_logged_plan.

Lemma delete_version_logged_plan m view p : delete_version_plan m view = Ok p →
  omap op_change (plan_ops (writes p)) = event_change <$> events p.
Proof.
  unfold delete_version_plan. cbv zeta. destruct (get_exact _ _ _ true) as [[v vr]|]; [|done]. intros Hp.
  apply bind_Ok in Hp as ([] & _ & Hp). apply bind_Ok in Hp as ([] & _ & Hp). apply bind_Ok in Hp as ([] & _ & Hp).
  destruct (dv_permanent m).
  - apply bind_Ok in Hp as ([ws ev] & Hws & [= <-]). cbn [writes events]. by rewrite (hard_delete_logged _ _ _ _ _ _ _ Hws).
  - injection Hp as <-. cbn [writes events]. rewrite plan_ops_cons, omap_app, silent_ops; [done|].
    destruct (existsb _ _); by repeat constructor.
Qed.
#[export] Instance delete_version_logged : LoggedVerb DeleteSubjectVersion := delete_version_logged_plan.

Lemma set_mode_logged_plan m view p : set_mode_plan m view = Ok p →
  omap op_change (plan_ops (writes p)) = event_change <$> events p.
Proof.
  unfold set_mode_plan. cbv zeta. intros Hp. apply bind_Ok in Hp as ([ws evs] & Hws & [= <-]). cbn [writes events].
  rewrite omap_plan_ops_app. assert (omap op_change (plan_ops ws) = event_change <$> evs) as ->; [|apply app_nil_r].
  destruct (_ && _); [|by injection Hws as <- <-].
  apply bind_Ok in Hws as ([] & _ & Hws). apply bind_Ok in Hws as ([] & _ & Hws). by eapply hard_delete_all_logged.
Qed.
#[export] Instance set_mode_logged : LoggedVerb SetMode := set_mode_logged_plan.

#[export] Instance update_logged : LoggedVerb UpdateCompatibility.
Proof. intros m view p Hp. change (update_plan m view = Ok p) in Hp. by injection Hp as <-. Qed.
#[export] Instance delete_config_logged : LoggedVerb DeleteSubjectConfig.
Proof. intros m view p Hp. change (delete_config_plan m view = Ok p) in Hp. by apply bind_Ok in Hp as (c & _ & [= <-]). Qed.
#[export] Instance delete_context_logged : LoggedVerb DeleteContext.
Proof. intros m view p Hp. change (delete_context_plan m view = Ok p) in Hp. by apply bind_Ok in Hp as (c & _ & [= <-]). Qed.
#[export] Instance delete_mode_logged : LoggedVerb DeleteMode.
Proof. intros m view p Hp. change (delete_mode_plan m view = Ok p) in Hp. by apply bind_Ok in Hp as (c & _ & [= <-]). Qed.

#[export] Instance create_exporter_logged : LoggedVerb CreateExporter.
Proof.
  intros m view p Hp. change (create_plan m view = Ok p) in Hp. apply bind_Ok in Hp as (e & _ & Hp).
  apply bind_Ok in Hp as ([] & _ & Hp). by apply bind_Ok in Hp as ([] & _ & [= <-]).
Qed.
#[export] Instance restore_exporter_logged : LoggedVerb RestoreExporter.
Proof.
  intros m view p Hp. change (restore_plan m view = Ok p) in Hp. apply bind_Ok in Hp as (e & _ & Hp).
  destruct (bool_decide _); [by injection Hp as <-|]. by apply bind_Ok in Hp as ([] & _ & [= <-]).
Qed.
#[export] Instance update_exporter_logged : LoggedVerb UpdateExporter.
Proof.
  intros m view p Hp. change (update_exporter_plan m view = Ok p) in Hp. apply bind_Ok in Hp as (e & _ & Hp).
  by apply bind_Ok in Hp as ([] & _ & [= <-]).
Qed.
#[export] Instance delete_exporter_logged : LoggedVerb DeleteExporter.
Proof. intros m view p Hp. change (delete_exporter_plan m view = Ok p) in Hp. by apply bind_Ok in Hp as (e & _ & [= <-]). Qed.
#[export] Instance transition_logged : LoggedVerb TransitionExporter.
Proof.
  intros m view p Hp. change (transition_plan m view = Ok p) in Hp. apply bind_Ok in Hp as (e & _ & Hp).
  by apply bind_Ok in Hp as (e' & _ & [= <-]).
Qed.
End logged.
