(* ===== verification/Consistency.v ===== *)
(** The registry over any history of requests: the published snapshot stays
    well formed, what is on disk stays what is published, and the body of an
    id is read as it is stored, unless it is taken away while it is being read. *)
From S2P Require Import Prelude SortedVec RustStr Errors Json Model Context Snapshot Keys Plan Store Durable Transaction MemDb Changelog Recovery SchemaLayer JavaOrder Views Registry Queries Mutations ExporterVerbs Engine VerbSafety.

Local Open Scope Z_scope.

(** * Schema bodies on disk *)

Section bodies.
Context `{!Serde SchemaRecord, !Serde VersionRecord, !Serde ConfigRecord.t, !Serde Mode,
          !Serde LogEvent, !Serde ExporterRecord}.

(** Ids of bodies are 32-bit, and bodies are read back as they were written. *)
Definition body_ok (w : Write) : Prop :=
  match w with
  | WPutSchema _ id rec _ => is_u32 id ∧ persistable rec
  | WDeleteSchema _ id => is_u32 id
  | _ => True
  end.

Definition coherent (st : Store) (m : Rows) (bodies : gmap (string * Z) SchemaRecord) : Prop :=
  ∀ ctx id rec, bodies !! (ctx, id) = Some rec →
    is_u32 id ∧ ∃ v, m !! (CF_SCHEMAS, key st (schema_key ctx id)) = Some v ∧ from_slice v = Ok rec.

Lemma str_app_same_suffix a a' b b' : String.length b = String.length b' →
  a +:+ b = a' +:+ b' → a = a' ∧ b = b'.
Proof.
  intros Hlen. revert a'. induction a as [|x a IH]; intros [|y a'] Heq; simpl in Heq.
  - done.
  - subst b. simpl in Hlen. rewrite str_length_app in Hlen. lia.
  - subst b'. simpl in Hlen. rewrite str_length_app in Hlen. lia.
  - injection Heq as -> Heq. apply IH in Heq as [-> ->]. done.
Qed.

Lemma schema_key_inj ctx id ctx' id' : is_u32 id → is_u32 id' →
  schema_key ctx id = schema_key ctx' id' → ctx = ctx' ∧ id = id'.
Proof.
  intros Hi Hi' Heq. unfold schema_key in Heq. rewrite <-!str_app_assoc in Heq.
  apply str_app_same_suffix in Heq as [Hc Hd]; [|exact (eq_trans (be_bytes_length 4 id) (eq_sym (be_bytes_length 4 id')))].
  apply str_app_same_suffix in Hc as [-> _]; [|done]. split; [done|]. by apply to_be_u32_inj.
Qed.

Lemma coherent_frame st m m' bodies :
  (∀ k, m' !! (CF_SCHEMAS, k) = m !! (CF_SCHEMAS, k)) → coherent st m bodies → coherent st m' bodies.
Proof. intros Hm Hc ctx id rec Hb. rewrite Hm. by apply Hc. Qed.

(** One write moves the cache and the rows together. *)
Lemma apply_write_coherent st a w t t' m bodies : body_ok w → TxM.apply_write st a w t = Ok t' →
  coherent st (apply_batch m (tx_batch t)) bodies →
  coherent st (apply_batch m (tx_batch t')) (foldl cache_op bodies (write_ops w)).
Proof.
  assert (∀ cf k v (rs : Rows), cf ≠ CF_SCHEMAS → ∀ k', <[(cf, k) := v]> rs !! (CF_SCHEMAS, k') = rs !! (CF_SCHEMAS, k')) as Hins.
  { intros cf k v rs Hne k'. apply lookup_insert_ne. congruence. }
  assert (∀ cf k (rs : Rows), cf ≠ CF_SCHEMAS → ∀ k', delete (cf, k) rs !! (CF_SCHEMAS, k') = rs !! (CF_SCHEMAS, k')) as Hdel.
  { intros cf k rs Hne k'. apply lookup_delete_ne. congruence. }
  destruct w as [ctx id rec index|ctx subj v rec|ctx subj v id|ctx id|ctx subj v id|ctx subj v id|ctx next
    |scope rec|scope|scope md|scope|ctx|rec|name]; intros Hw.
  1: { cbn [TxM.apply_write]. unfold TxM.put_schema, TxM.put. destruct Hw as [Hid (v & Hto & Hfrom)]. rewrite Hto.
    cbn [corrupt map_err mbind result_bind]. intros [= <-] Hc.
    assert (coherent st (<[(CF_SCHEMAS, key st (schema_key ctx id)) := v]> (apply_batch m (tx_batch t)))
              (<[(ctx, id) := rec]> bodies)) as Hput.
    { intros ctx' id' rec' Hb. apply lookup_insert_Some in Hb as [[[= <- <-] <-]|[Hne Hb]].
      - split; [done|]. exists v. by rewrite lookup_insert_eq.
      - destruct (Hc ctx' id' rec' Hb) as (Hid' & v' & Hrow & Hfrom'). split; [done|]. exists v'. split; [|done].
        rewrite lookup_insert_ne; [done|]. intros [= Heq%key_inj]. apply schema_key_inj in Heq as [-> ->]; done. }
    destruct index; simpl; rewrite !apply_batch_app; simpl; [|done].
    eapply coherent_frame; [|exact Hput]. intros k. by apply Hins. }
  3: { intros [= <-] Hc. simpl. rewrite apply_batch_app. simpl. intros ctx' id' rec' Hb.
    apply lookup_delete_Some in Hb as [Hne Hb]. destruct (Hc ctx' id' rec' Hb) as (Hid' & v' & Hrow & Hfrom').
    split; [done|]. exists v'. split; [|done]. rewrite lookup_delete_ne; [done|].
    intros [= Heq%key_inj]. apply schema_key_inj in Heq as [-> ->]; done. }
  all: cbn [TxM.apply_write write_ops foldl cache_op]; unfold TxM.put_version, TxM.put_config, TxM.put_mode, TxM.put_exporter, TxM.put;
    try (destruct (corrupt (to_vec _)); cbn [mbind result_bind]; [|done]); intros [= <-] Hc;
    (eapply coherent_frame; [|exact Hc]); intros k; simpl; rewrite !apply_batch_app; simpl;
    rewrite ?Hins, ?Hdel by done; done.
Qed.

Lemma apply_writes_coherent st a ws t t' m bodies : Forall body_ok ws → TxM.apply_writes st a ws t = Ok t' →
  coherent st (apply_batch m (tx_batch t)) bodies →
  coherent st (apply_batch m (tx_batch t')) (foldl cache_op bodies (plan_ops ws)).
Proof.
  unfold TxM.apply_writes. intros Hws. revert t bodies. induction Hws as [|w ws Hw _ IH]; intros t bodies; simpl.
  { by intros [= <-]. }
  destruct (TxM.apply_write st a w t) as [t1|e] eqn:Ht1.
  - intros Ht Hc. rewrite plan_ops_cons, foldl_app. eapply IH; [exact Ht|]. by eapply apply_write_coherent.
  - intros Ht. exfalso. revert Ht. clear. induction ws; [done|]. exact IHws.
Qed.

Lemma append_logs_bodies st evs t t' m k : TxM.append_logs st evs t = Ok t' →
  apply_batch m (tx_batch t') !! (CF_SCHEMAS, k) = apply_batch m (tx_batch t) !! (CF_SCHEMAS, k).
Proof.
  unfold TxM.append_logs. revert t. induction evs as [|e evs IH]; intros t; simpl; [by intros [= <-]|].
  destruct (TxM.append_log st t e) as [t1|err] eqn:Ht1.
  - intros Ht. apply IH in Ht as ->. revert Ht1. unfold TxM.append_log, TxM.put.
    destruct (corrupt (to_vec e)); cbn [mbind result_bind]; [|done]. intros [= <-]. simpl.
    rewrite apply_batch_app. simpl. by apply lookup_insert_ne.
  - intros Ht. exfalso. revert Ht. clear. induction evs; [done|]. exact IHevs.
Qed.

(** A commit keeps the cache coherent with what it wrote. *)
Lemma commit_coherent `{!RocksDB DB, !RocksDBLaws DB} st (db : DB) a ws evs db' ops bodies : Forall body_ok ws →
  commit_plan st db a ws evs = (db', Ok ops) → coherent st (rows db) bodies →
  coherent st (rows db') (foldl cache_op bodies ops).
Proof.
  intros Hws Hc Hb. pose proof (commit_plan_ops _ _ _ _ _ _ _ Hc) as [seq ->]. revert Hc.
  unfold commit_plan, tx. destruct (stored_log_seq st db) as [n|]; cbn [mbind result_bind]; [|done].
  destruct (TxM.apply_writes _ _ _ _) as [t1|] eqn:H1; cbn [mbind result_bind]; [|done].
  destruct (TxM.append_logs _ _ _) as [t2|] eqn:H2; [|done]. unfold TxM.commit, write.
  destruct (write_opt db _) as [db1 [u|e]] eqn:Hw; [|done]. intros [= <- _].
  apply write_opt_law in Hw. rewrite Hw, foldl_app.
  assert (∀ b, foldl cache_op b (if bool_decide (evs ≠ []) then [OpSetLogSeq seq] else []) = b) as ->.
  { intros b. by case_bool_decide. }
  eapply apply_writes_coherent in H1; [|done|exact Hb]. eapply coherent_frame; [|exact H1].
  intros k. etrans; [|by eapply append_logs_bodies]. unfold TxM.finish. destruct (tx_log_dirty t2); [|done].
  simpl. rewrite apply_batch_app. simpl. by apply lookup_insert_ne.
Qed.
End bodies.

(** * Restarts *)

Section restart.
Context `{!RocksDB DB, !RocksDBLaws DB}.
Context `{!Serde SchemaRecord, !Serde VersionRecord, !Serde ConfigRecord.t, !Serde Mode,
          !Serde LogEvent, !Serde ExporterRecord}.

Definition aliases_ok (s : Snapshot) : Prop :=
  ∀ scope c, config s !! scope = Some c → Snap.aliased c = true → has_aliases s = true.

Lemma fold_rows_ind (P : Snapshot → Prop) f l s s' : (∀ s kv s', P s → f s kv = Ok s' → P s') →
  P s → fold_rows f l s = Ok s' → P s'.
Proof.
  intros Hstep. unfold fold_rows. revert s. induction l as [|kv l IH]; intros s Hs; simpl; [by intros [= <-]|].
  destruct (f s kv) as [s1|e] eqn:Hf; [by apply IH; eapply Hstep|].
  intros Hr. exfalso. revert Hr. clear. induction l; [done|]. exact IHl.
Qed.

Lemma load_table_ind (P : Snapshot → Prop) st (db : DB) cf f s s' : (∀ s kv s', P s → f s kv = Ok s' → P s') →
  P s → load_table st db cf f s = Ok s' → P s'.
Proof.
  intros Hstep Hs Hl. unfold load_table in Hl. apply bind_Ok in Hl as (l & _ & Hl). by eapply fold_rows_ind.
Qed.

Lemma same_config_aliases s s' : config s' = config s → has_aliases s' = has_aliases s → aliases_ok s → aliases_ok s'.
Proof. intros Hc Ha Hs scope c. rewrite Hc, Ha. apply Hs. Qed.

(** The alias flag is rebuilt with the configurations. *)
Lemma load_aliases st (db : DB) s : load_snapshot st db = Ok s → aliases_ok s.
Proof.
  unfold load_snapshot. intros Hl.
  apply bind_Ok in Hl as (s1 & H1 & Hl). apply bind_Ok in Hl as (s2 & H2 & Hl). apply bind_Ok in Hl as (s3 & H3 & Hl).
  apply bind_Ok in Hl as (s4 & H4 & Hl). apply bind_Ok in Hl as (s5 & H5 & Hl). apply bind_Ok in Hl as (s6 & H6 & Hl).
  apply bind_Ok in Hl as (n & _ & [= <-]).
  assert (aliases_ok empty_snap) as H0 by done.
  apply (load_table_ind aliases_ok) in H1; [|clear; intros s [k v] s' Hs Hf|done].
  2: { unfold load_version in Hf. apply bind_Ok in Hf as ([[[ctx subj] vv] tail] & _ & Hf).
       apply bind_Ok in Hf as (rec & _ & [= <-]). by eapply same_config_aliases; [..|exact Hs]. }
  apply (load_table_ind aliases_ok) in H2; [|clear; intros s [k v] s' Hs Hf|done].
  2: { unfold load_fingerprint in Hf. apply bind_Ok in Hf as ([ctx fp] & _ & Hf).
       apply bind_Ok in Hf as (id & _ & [= <-]). by eapply same_config_aliases; [..|exact Hs]. }
  apply (load_table_ind aliases_ok) in H3; [|clear; intros s [k v] s' Hs Hf|done].
  2: { unfold load_refby in Hf. apply bind_Ok in Hf as ([[[ctx subj] vv] tail] & _ & Hf).
       apply bind_Ok in Hf as (rec & _ & [= <-]). by eapply same_config_aliases; [..|exact Hs]. }
  apply (load_table_ind aliases_ok) in H4; [|clear; intros s [k v] s' Hs Hf|done].
  2: { unfold load_config in Hf. destruct (ScopeKey.from_key k) as [scope|]; [|by injection Hf as <-].
       apply bind_Ok in Hf as (rec & _ & [= <-]). intros scope' c. simpl. rewrite lookup_insert_Some, orb_true_iff.
       intros [[<- <-]|[_ Hc]] Ha; [by right|left; by apply (Hs scope' c)]. }
  apply (load_table_ind aliases_ok) in H5; [|clear; intros s [k v] s' Hs Hf|done].
  2: { unfold load_mode in Hf. destruct (ScopeKey.from_key k) as [scope|]; [|by injection Hf as <-].
       apply bind_Ok in Hf as (rec & _ & [= <-]). by eapply same_config_aliases; [..|exact Hs]. }
  apply (load_table_ind aliases_ok) in H6; [|clear; intros s [k v] s' Hs Hf|by eapply same_config_aliases; [..|exact H5]].
  2: { unfold load_meta in Hf. cbv zeta in Hf.
       destruct (strip_prefix "ctx/" _); [injection Hf as <-; by eapply same_config_aliases; [..|exact Hs]|].
       destruct (strip_prefix "next_id/" _); [|by injection Hf as <-].
       apply bind_Ok in Hf as (next & _ & [= <-]). by eapply same_config_aliases; [..|exact Hs]. }
  by eapply same_config_aliases; [..|exact H6].
Qed.

(** What a restart loads is as good as what was published. *)
Lemma durable_restart st (db : DB) s floor log s' : durable st (rows db) s floor log →
  load_snapshot st db = Ok s' → durable st (rows db) s' floor log ∧ same_answers s' s.
Proof.
  intros Hd Hl. pose proof (load_aliases _ _ _ Hl) as Ha.
  destruct (durable_load st db s floor log Hd) as (s1 & Hl1 & Heq & Hall).
  rewrite Hl in Hl1. injection Hl1 as <-. destruct Hd as [Hwf Hc Hlr Hf [Hs Hseq]].
  assert (same_answers s' s) as Hsame by (apply equiv_same_answers; [done|exact (wf_ctx s Hwf)|done]).
  split; [|done]. split; [split|..]; try done.
  - intros ctx subj v vr Hv. rewrite <-get_version_ctx in Hv. rewrite <-next_id_ctx.
    destruct Hsame as (_ & Hgv & _ & _ & _ & Hn & _). rewrite Hgv in Hv. rewrite Hn.
    rewrite next_id_ctx. rewrite get_version_ctx in Hv. by apply (wf_counter s Hwf) in Hv.
  - intros ctx subj Hsub. rewrite (equiv_known s' s Heq). apply (wf_known s Hwf ctx subj).
    by rewrite <-(equiv_subjects s' s Hall (wf_ctx s Hwf) Heq).
  - eapply holds_ext; [|exact Hc]. intros c. symmetry. apply Heq.
  - split; [done|]. destruct Hsame as (_ & _ & _ & _ & _ & _ & _ & _ & _ & ->). done.
Qed.

Lemma durable_frame st m m' s floor log : (∀ cf k, cf ≠ CF_EXPORTERS → m' !! (cf, k) = m !! (cf, k)) →
  durable st m s floor log → durable st m' s floor log.
Proof.
  intros Hm [Hwf Hc Hlr [Hf Hfl] [Hs Hseq]]. split; try done.
  - eapply holds_frame; [exact Hc|]. intros cf k Ht _. apply Hm. intros ->.
    unfold is_table in Ht. by rewrite !elem_of_cons, elem_of_nil in Ht; naive_solver.
  - eapply log_rows_frame; [exact Hlr|]. intros k. by apply Hm.
  - split; [|done]. unfold counter_row. by rewrite Hm.
  - split; [|done]. unfold counter_row. by rewrite Hm.
Qed.
End restart.

(** * Writes that can be stored *)

Section storable_writes.
Context `{!Serde SchemaRecord, !Serde VersionRecord, !Serde ConfigRecord.t, !Serde Mode,
          !Serde LogEvent, !Serde ExporterRecord}.

Lemma good_delete_effect c : good_cell c → good_effect (c, None).
Proof. by split. Qed.
Lemma good_put_effect c y v : good_cell c → val_enc c y v → good_effect (c, Some y).
Proof. intros Hc Hv. split; [done|]. intros y' [= <-]. by exists v. Qed.

Lemma good_put_schema ctx id rec index : good_name ctx → utf8_valid (sr_fingerprint rec) = true → is_u32 id →
  persistable rec → good_write (WPutSchema ctx id rec index).
Proof.
  intros Hc Hf Hid (v & Hto & _). split; [|by exists v]. destruct index; simpl; [|constructor].
  constructor; [|constructor]. by apply (good_put_effect _ _ (to_be_u32 id)).
Qed.
Lemma good_set_next ctx next : good_name ctx → is_u32 next → good_write (WSetNextId ctx next).
Proof. intros. split; [|done]. constructor; [|constructor]. by apply (good_put_effect _ _ (to_be_u32 next)). Qed.
Lemma good_put_version ctx subj v rec : good_name ctx → good_name subj → is_u32 v → persistable rec →
  good_write (WPutVersion ctx subj v rec).
Proof.
  intros ??? (b & Hb). split; [|done]. constructor; [by apply (good_put_effect _ _ b)|].
  constructor; [|constructor]. by apply (good_put_effect _ _ "").
Qed.
Lemma good_delete_version ctx subj v id : good_name ctx → good_name subj → is_u32 v →
  good_write (WDeleteVersion ctx subj v id).
Proof. intros. split; [|done]. constructor; [|constructor]. by apply good_delete_effect. Qed.
Lemma good_delete_schema ctx id : good_write (WDeleteSchema ctx id).
Proof. split; [constructor|done]. Qed.
Lemma good_put_refby ctx subj v id : good_name ctx → good_name subj → is_u32 v → is_u32 id →
  good_write (WPutRefby ctx subj v id).
Proof. intros. split; [|done]. constructor; [|constructor]. by apply (good_put_effect _ _ ""). Qed.
Lemma good_delete_refby ctx subj v id : good_name ctx → good_name subj → is_u32 v → is_u32 id →
  good_write (WDeleteRefby ctx subj v id).
Proof. intros. split; [|done]. constructor; [|constructor]. by apply good_delete_effect. Qed.
Lemma good_put_mode scope m : good_scope scope → persistable m → good_write (WPutMode scope m).
Proof. intros ? (b & Hb). split; [|done]. constructor; [|constructor]. by apply (good_put_effect _ _ b). Qed.
Lemma good_delete_mode scope : good_scope scope → good_write (WDeleteMode scope).
Proof. intros. split; [|done]. constructor; [|constructor]. by apply good_delete_effect. Qed.
Lemma good_put_config scope c : good_scope scope → persistable c → good_write (WPutConfig scope c).
Proof. intros ? (b & Hb). split; [|done]. constructor; [|constructor]. by apply (good_put_effect _ _ b). Qed.
Lemma good_delete_config scope : good_scope scope → good_write (WDeleteConfig scope).
Proof. intros. split; [|done]. constructor; [|constructor]. by apply good_delete_effect. Qed.
End storable_writes.
Create HintDb storable.
#[export] Hint Resolve good_put_schema good_set_next good_put_version good_delete_version good_delete_schema
  good_put_refby good_delete_refby good_put_mode good_delete_mode good_put_config good_delete_config : storable.

(** * Histories *)

Section histories.
Context {formats : SchemaFormats} `{!RocksDB DB, !RocksDBLaws DB}.
Context `{!Serde SchemaRecord, !Serde VersionRecord, !Serde ConfigRecord.t, !Serde Mode,
          !Serde LogEvent, !Serde ExporterRecord}.
Implicit Types reg : RegistryState DB.

(** A plan whose names and records can be stored, and whose events still fit
    the log's sequence numbers. *)
Definition storable {T} reg (p : Plan T) : Prop :=
  Forall good_write (writes p) ∧ Forall body_ok (writes p) ∧ Forall persistable (events p) ∧
  is_u64 (log_seq (reg_snap reg) + Z.of_nat (length (events p))).

(** What happens to a registry: a verb through the engine, a report of the
    exporter worker, pruning, an action of some read on the caches, or a
    restart. A verb whose fast path looked at an earlier state is [es_locked]. *)
Inductive engine_step reg : RegistryState DB → Prop :=
| es_run {M} `{Hm : !Mutation M, !SafeVerb M, !LoggedVerb M} (m : M) a reg' r :
    well_typed m → id_space (reg_snap reg) →
    (∀ p, plan m (read_view (cache_acts reg (am_seen0 a)) (am_now a) (am_guid a)) = Ok p → storable reg p) →
    run_inner reg m a = (reg', r) → engine_step reg reg'
| es_locked {M} `{Hm : !Mutation M, !SafeVerb M, !LoggedVerb M} (m : M) a reg' r :
    well_typed m → id_space (reg_snap reg) →
    (∀ p, plan m (read_view reg (am_now a) (am_guid a)) = Ok p → storable reg p) →
    run_locked reg m a = (reg', r) → engine_step reg reg'
| es_worker name expected new s trace now db' r :
    exporter_state (reg_store reg) (reg_db reg) name expected new s trace now = (db', r) →
    engine_step reg (with_db reg db')
| es_prune (before : nat) db' r : Z.of_nat before ≤ log_seq (reg_snap reg) →
    prune_log (reg_store reg) (reg_db reg) (Z.of_nat before) = (db', r) → engine_step reg (with_db reg db')
| es_cache act : engine_step reg (cache_act reg act)
| es_restart s : load_snapshot (reg_store reg) (reg_db reg) = Ok s →
    engine_step reg (mkRegistry (reg_settings reg) (reg_store reg) (reg_db reg) s ∅ ∅ ∅ [] []).

(** The rows hold the published snapshot and a log of which the entries below
    [floor] were pruned, and that log, replayed from the start, gives the
    snapshot's versions. *)
Record registry_inv reg (floor : nat) (log : list LogEvent) : Prop := {
  ri_durable : durable (reg_store reg) (rows (reg_db reg)) (reg_snap reg) floor log;
  ri_log : ∀ k, version_view (reg_snap reg) k = replay log !! k;
}.
Definition registry_ok reg : Prop := ∃ floor log, registry_inv reg floor log.

(** What an attempted change leads to: reads, and perhaps a committed plan the
    mode in scope allowed. *)
Definition run_result `{!Mutation M} reg (m : M) a reg1 reg' (r : Outcome Output) : Prop :=
  reg' = reg1 ∨
  ∃ p allowed, plan m (read_view reg (am_now a) (am_guid a)) = Ok p ∧
    ModeGate.check (intent m) (mode_for (read_view reg (am_now a) (am_guid a)) (target m)) (scope_name (target m)) = Ok allowed ∧
    ((∃ db' e, r = Err e ∧ commit_plan (reg_store reg) (reg_db reg) allowed (writes p) (events p) = (db', Err e) ∧
               reg' = with_db reg1 db') ∨
     (∃ db' ops, r = Ok (output p) ∧ commit_plan (reg_store reg) (reg_db reg) allowed (writes p) (events p) = (db', Ok ops) ∧
                 reg' = publish reg1 db' ops (length (events p)))).

Lemma decide_plan_Ok `{!Mutation M} (m : M) view p allowed : decide_plan m view = Ok (p, allowed) →
  plan m view = Ok p ∧ ModeGate.check (intent m) (mode_for view (target m)) (scope_name (target m)) = Ok allowed.
Proof.
  unfold decide_plan. intros Hdec. destruct (gate m).
  - apply bind_Ok in Hdec as (a & Ha & Hdec). apply map_err_Ok in Ha.
    apply bind_Ok in Hdec as (p' & Hp' & Hdec). by simplify_eq.
  - apply bind_Ok in Hdec as (p' & Hp' & Hdec). apply bind_Ok in Hdec as (a & Ha & Hdec).
    apply map_err_Ok in Ha. by simplify_eq.
Qed.

Lemma locked_cases `{!Mutation M} reg (m : M) a reg' r : run_locked reg m a = (reg', r) →
  run_result reg m a (cache_acts reg (am_seen a)) reg' r.
Proof.
  unfold run_locked. destruct (decide_plan m _) as [[p allowed]|e] eqn:Hdec; [|by intros [= <- _]; left].
  intros Happ. right. exists p, allowed. apply decide_plan_Ok in Hdec as [Hp Hg]. split_and!; [done..|].
  unfold apply_plan in Happ. cbn [cache_acts with_caches reg_store reg_db] in Happ.
  destruct (commit_plan _ _ _ _ _) as [db' [ops|e]] eqn:Hc; injection Happ as <- <-; [right|left]; by eauto 10.
Qed.

Lemma run_cases `{!Mutation M} reg (m : M) a reg' r : run_inner reg m a = (reg', r) →
  (∃ acts, reg' = cache_acts reg acts) ∨
  ∃ acts, run_result (cache_acts reg (am_seen0 a)) m a (cache_acts reg acts) reg' r.
Proof.
  unfold run_inner. destruct (fast_path m _) as [[out|]|e]; [by intros [= <- _]; left; eexists| |by intros [= <- _]; left; eexists].
  intros Hrun. right. exists (am_seen0 a ++ am_seen a). rewrite cache_acts_app. by apply locked_cases.
Qed.

Lemma get_schema_row st (db : DB) ctx id rec : Store.get_schema st db ctx id = Ok (Some rec) ↔
  ∃ v, rows db !! (CF_SCHEMAS, key st (schema_key ctx id)) = Some v ∧ from_slice v = Ok rec.
Proof.
  unfold Store.get_schema, get_json. rewrite get_cf_law. cbn [backend map_err mbind result_bind].
  destruct (rows db !! _) as [v|]; [|split; [done|by intros (v & ? & _)]]. unfold corrupt.
  destruct (from_slice v) as [x|] eqn:Hv; cbn [map_err mbind result_bind].
  - split; [intros [= <-]; by exists v|]. intros (v' & [= <-] & Hx). congruence.
  - split; [done|]. intros (v' & [= <-] & Hx). congruence.
Qed.

Lemma same_inv reg reg' floor log : same_but_caches reg reg' → registry_inv reg floor log → registry_inv reg' floor log.
Proof. intros (_ & Hst & Hdb & Hs & _) [Hd Hlog]. split; [by rewrite Hst, Hdb, Hs|by rewrite Hs]. Qed.

Lemma worker_rows reg name expected new s trace now db' r :
  exporter_state (reg_store reg) (reg_db reg) name expected new s trace now = (db', r) →
  ∀ cf k, cf ≠ CF_EXPORTERS → rows db' !! (cf, k) = rows (reg_db reg) !! (cf, k).
Proof.
  unfold exporter_state. destruct (Store.get_exporter _ _ _) as [[rec|]|e]; try (by intros [= <- _]).
  destruct (reported _ _ _ _ _ _) as [rec'|]; [|by intros [= <- _]].
  unfold Store.put_exporter. destruct (corrupt _); [|by intros [= <- _]]. unfold physical_put, write.
  destruct (write_opt _ _) as [db1 r1] eqn:Hwr. intros [= <- _] cf k Hcf. apply write_opt_law in Hwr.
  destruct r1; rewrite Hwr; [|done]. simpl. apply lookup_insert_ne. congruence.
Qed.

Lemma prune_bodies reg before db' r : prune_log (reg_store reg) (reg_db reg) before = (db', r) →
  ∀ k, rows db' !! (CF_SCHEMAS, k) = rows (reg_db reg) !! (CF_SCHEMAS, k).
Proof.
  unfold prune_log. destruct (log_floor _ _) as [n|]; [|by intros [= <- _]].
  case_bool_decide; [by intros [= <- _]|]. unfold write.
  destruct (write_opt _ _) as [db1 r1] eqn:Hwr. intros [= <- _] k. apply write_opt_law in Hwr.
  destruct r1; rewrite Hwr; [|done]. simpl. rewrite lookup_insert_ne by done.
  destruct (rows (reg_db reg) !! (CF_SCHEMAS, k)) eqn:E.
  - apply map_lookup_filter_Some. split; [done|]. by intros [[=] _].
  - apply map_lookup_filter_None. by left.
Qed.

Lemma worker_inv reg floor log name expected new s trace now db' r :
  exporter_state (reg_store reg) (reg_db reg) name expected new s trace now = (db', r) →
  registry_inv reg floor log → registry_inv (with_db reg db') floor log.
Proof.
  intros Hw [Hd Hlog]. pose proof (worker_rows _ _ _ _ _ _ _ _ _ Hw) as Hrows.
  split; simpl; [by eapply durable_frame|done].
Qed.

Lemma prune_inv reg floor log (before : nat) db' r : Z.of_nat before ≤ log_seq (reg_snap reg) →
  prune_log (reg_store reg) (reg_db reg) (Z.of_nat before) = (db', r) →
  registry_inv reg floor log → ∃ floor', registry_inv (with_db reg db') floor' log.
Proof.
  intros Hle Hp [Hd Hlog]. rewrite (proj2 (du_seq _ _ _ _ _ Hd)) in Hle.
  assert (before ≤ length log)%nat as Hle' by lia.
  pose proof (prune_log_durable _ _ _ _ _ _ _ _ Hd Hle' Hp) as Hres. destruct r as [u|e].
  - exists (Nat.max floor before). by split.
  - exists floor. split; [|done..]. simpl. by rewrite Hres.
Qed.

Lemma commit_inv {T} reg floor log (p : Plan T) allowed db' ops : registry_inv reg floor log → storable reg p →
  ops_ok (reg_snap reg) (plan_ops (writes p)) → omap op_change (plan_ops (writes p)) = event_change <$> events p →
  commit_plan (reg_store reg) (reg_db reg) allowed (writes p) (events p) = (db', Ok ops) →
  registry_inv (publish reg db' ops (length (events p))) floor (log ++ events p).
Proof.
  intros [Hd Hlog] (Hgood & Hbody & Hev & Hseq) Hops Hlogged Hc.
  rewrite (proj2 (du_seq _ _ _ _ _ Hd)) in Hseq.
  destruct (commit_plan_durable _ _ _ _ _ _ _ _ _ _ Hd Hgood Hev Hops Hseq Hc) as [Heq Hd'].
  split; simpl; [done|]. intros k.
  rewrite (version_view_apply_all _ ops (replay log)); [|apply Hd| |done].
  - unfold replay. rewrite fmap_app, foldl_app, <-Hlogged, Heq, omap_app. unfold finish_ops.
    case_bool_decide; by rewrite app_nil_r.
  - rewrite Heq. apply ops_ok_app. split; [done|]. unfold finish_ops. by case_bool_decide.
Qed.

Lemma run_result_ok `{!Mutation M, !SafeVerb M, !LoggedVerb M} reg (m : M) a acts reg' r :
  let reg0 := cache_acts reg (am_seen0 a) in
  well_typed m → id_space (reg_snap reg) →
  (∀ p, plan m (read_view reg0 (am_now a) (am_guid a)) = Ok p → storable reg p) →
  run_result reg0 m a (cache_acts reg acts) reg' r → registry_ok reg → registry_ok reg'.
Proof.
  cbv zeta. intros Hty Hspace Hst Hres (floor & log & Hok).
  assert (registry_inv (cache_acts reg acts) floor log) as Hok' by (by eapply same_inv; [apply cache_acts_same|]).
  destruct Hres as [->|(p & allowed & Hp & _ & Hcommit)]; [by exists floor, log|].
  cbn [cache_acts with_caches reg_store reg_db] in Hcommit.
  destruct Hcommit as [(db' & e & -> & Hc & ->)|(db' & ops & -> & Hc & ->)].
  - apply commit_plan_Err in Hc. exists floor, log. destruct Hok' as [Hd Hlog]. split; simpl; [by rewrite Hc|done].
  - exists floor, (log ++ events p). eapply commit_inv; [done| | |by eapply plan_logged|exact Hc].
    + by apply Hst.
    + pose proof (plan_safe m (read_view (cache_acts reg (am_seen0 a)) (am_now a) (am_guid a)) p Hty) as Hsafe.
      apply Hsafe; [apply Hok|done|done].
Qed.

Lemma engine_step_ok reg reg' : engine_step reg reg' → registry_ok reg → registry_ok reg'.
Proof.
  intros Hstep Hok.
  destruct Hstep as [M Hm Hsafe Hlogs m a reg' r Hty Hspace Hst Hrun|M Hm Hsafe Hlogs m a reg' r Hty Hspace Hst Hrun
    |name expected new s trace now db' r Hw|before db' r Hle Hp|act|s Hl].
  - apply run_cases in Hrun as [[acts ->]|[acts Hres]]; [|by eapply run_result_ok].
    destruct Hok as (floor & log & Hok). exists floor, log. eapply same_inv; [apply cache_acts_same|done].
  - apply locked_cases in Hrun.
    refine (run_result_ok reg m (mkAmbient 0 "" [] (am_now a) (am_guid a) (am_seen a)) (am_seen a) reg' r Hty Hspace _ _ Hok);
      cbn [am_seen0 am_now am_guid]; by rewrite cache_acts_foldl.
  - destruct Hok as (floor & log & Hok). exists floor, log. by eapply worker_inv.
  - destruct Hok as (floor & log & Hok). destruct (prune_inv _ _ _ _ _ _ Hle Hp Hok) as [floor' ?]. by exists floor', log.
  - destruct Hok as (floor & log & Hok). exists floor, log. eapply same_inv; [apply cache_act_same|done].
  - destruct Hok as (floor & log & [Hd Hlog]). exists floor, log.
    destruct (durable_restart _ _ _ _ _ _ Hd Hl) as [Hd' Hsame]. split; simpl; [done|].
    intros k. rewrite <-Hlog. unfold version_view. destruct Hsame as (_ & Hgv & _). by rewrite Hgv.
Qed.

Lemma history_ok reg reg' : rtc engine_step reg reg' → registry_ok reg → registry_ok reg'.
Proof. induction 1; [done|]. eauto using engine_step_ok. Qed.

(** (C1) Whatever requests, worker reports, prunings, cache fills and
    evictions, and restarts a registry goes through, the published snapshot
    is consistent: version lists are sorted and never empty, the id index
    lists exactly the stored versions of each id, no stored version has an id
    the counter has not passed, and every context with subjects is known. *)
Theorem history_consistent reg reg' :
  registry_ok reg → rtc engine_step reg reg' → snap_wf (reg_snap reg').
Proof. intros Hok Hh. destruct (history_ok _ _ Hh Hok) as (floor & log & Hi). apply Hi. Qed.

(** (C2) After any such history a restart succeeds, and the snapshot it loads
    answers every query like the one that was published. *)
Theorem history_recoverable reg reg' :
  registry_ok reg → rtc engine_step reg reg' →
  ∃ s, load_snapshot (reg_store reg') (reg_db reg') = Ok s ∧ same_answers s (reg_snap reg').
Proof.
  intros Hok Hh. destruct (history_ok _ _ Hh Hok) as (floor & log & Hi).
  destruct (durable_load _ _ _ _ _ (ri_durable _ _ _ Hi)) as (s & Hl & _). exists s. split; [done|].
  by eapply durable_restart; [apply Hi|].
Qed.

(** (C3) The change log is complete: after any such history, the events that
    were logged, replayed from the first to the last, give exactly the
    versions the registry has, with their ids and soft-delete marks. *)
Theorem history_logged reg reg' :
  registry_ok reg → rtc engine_step reg reg' →
  ∃ floor log, durable (reg_store reg') (rows (reg_db reg')) (reg_snap reg') floor log ∧
    ∀ ctx subj v, (λ vr, (vr_id vr, vr_deleted vr)) <$> Snap.get_version (reg_snap reg') ctx subj v =
                  replay log !! (ctx, subj, v).
Proof.
  intros Hok Hh. destruct (history_ok _ _ Hh Hok) as (floor & log & [Hd Hlog]).
  exists floor, log. split; [done|]. intros ctx subj v. apply (Hlog (ctx, subj, v)).
Qed.

(** ** The cache of schema bodies *)

Definition stored_body reg ctx id : ApiResult (option SchemaRecord) :=
  Store.get_schema (reg_store reg) (reg_db reg) ctx id.

(** A step that leaves the content of an id alone, if it has any. *)
Definition keeps_body ctx id reg reg' : Prop :=
  ∀ rec, stored_body reg ctx id = Ok (Some rec) → stored_body reg' ctx id = Ok (Some rec).

(** No read of the id is under way. *)
Definition unread ctx id reg : Prop := ∀ rec b, mkRead ctx id rec b ∉ reg_reads reg.

(** What is cached for an id, or on its way into the cache, is what is stored. *)
Definition settled ctx id reg : Prop :=
  (∀ rec, reg_bodies reg !! (ctx, id) = Some rec → stored_body reg ctx id = Ok (Some rec)) ∧
  (∀ rec b, mkRead ctx id rec b ∈ reg_reads reg → stored_body reg ctx id = Ok (Some rec)).

Lemma stored_body_same reg reg' ctx id : same_but_caches reg reg' → stored_body reg' ctx id = stored_body reg ctx id.
Proof. intros (_ & Hst & Hdb & _). unfold stored_body. by rewrite Hst, Hdb. Qed.

Lemma settled_ext ctx id reg reg' : keeps_body ctx id reg reg' → settled ctx id reg →
  (∀ rec, reg_bodies reg' !! (ctx, id) = Some rec → reg_bodies reg !! (ctx, id) = Some rec ∨ stored_body reg' ctx id = Ok (Some rec)) →
  (∀ rec b, mkRead ctx id rec b ∈ reg_reads reg' → (∃ b', mkRead ctx id rec b' ∈ reg_reads reg) ∨ stored_body reg' ctx id = Ok (Some rec)) →
  settled ctx id reg'.
Proof.
  intros Hk [Hb Hr] Hb' Hr'. split.
  - intros rec [?|?]%Hb'; [|done]. by apply Hk, Hb.
  - intros rec b [[b' ?]|?]%Hr'; [|done]. by eapply Hk, Hr.
Qed.

Lemma cache_act_settled ctx id reg act : settled ctx id reg → settled ctx id (cache_act reg act).
Proof.
  intros Hs. pose proof (stored_body_same _ _ ctx id (cache_act_same reg act)) as Hst.
  assert (keeps_body ctx id reg (cache_act reg act)) as Hk by (intros rec; by rewrite Hst).
  apply (settled_ext _ _ _ _ Hk Hs); rewrite Hst; destruct Hs as [Hb Hr];
    destruct act as [ctx' id'|n|n resolved|ty text resolved validate|n|k|k|k]; cbn.
  all: repeat case_match; cbn; try (by left); try (by eauto).
  - intros rec Hl. apply lookup_insert_Some in Hl as [[[= -> ->] ->]|[_ Hl]]; [|by left].
    right. by eapply Hr, list_elem_of_lookup_2.
  - intros rec Hl. apply lookup_delete_Some in Hl as [_ Hl]. by left.
  - intros rec b Hin. apply elem_of_app in Hin as [Hin|Hin%list_elem_of_singleton]; [by eauto|].
    injection Hin as -> -> -> ->. right. by apply Hb.
  - intros rec b Hin. apply elem_of_app in Hin as [Hin|Hin%list_elem_of_singleton]; [by eauto|].
    injection Hin as -> -> -> ->. by right.
  - intros rec b Hin. apply list_elem_of_lookup_1 in Hin as [i Hi]. apply list_lookup_insert_Some in Hi as [(-> & Heq & _)|[_ Hi]].
    + simplify_eq. left. eexists. by eapply list_elem_of_lookup_2.
    + left. eexists. by eapply list_elem_of_lookup_2.
  - intros rec b Hin%list_elem_of_delete_inv. left. by exists b.
Qed.

Lemma cache_acts_settled ctx id acts reg : settled ctx id reg → settled ctx id (cache_acts reg acts).
Proof. rewrite cache_acts_foldl. revert reg. induction acts; [done|]. intros reg Hs. by apply IHacts, cache_act_settled. Qed.

Lemma get_schema_frame st (db db' : DB) ctx id : (∀ k, rows db' !! (CF_SCHEMAS, k) = rows db !! (CF_SCHEMAS, k)) →
  Store.get_schema st db' ctx id = Store.get_schema st db ctx id.
Proof. intros Hr. unfold Store.get_schema, get_json. by rewrite !get_cf_law, Hr. Qed.

Lemma settled_frame ctx id reg db' : (∀ k, rows db' !! (CF_SCHEMAS, k) = rows (reg_db reg) !! (CF_SCHEMAS, k)) →
  settled ctx id reg → settled ctx id (with_db reg db').
Proof.
  intros Hr Hs. assert (stored_body (with_db reg db') ctx id = stored_body reg ctx id) as Hst by (by apply get_schema_frame).
  unfold settled. rewrite Hst. exact Hs.
Qed.

(** The operations do to the entry of a key what they do to that entry alone. *)
Lemma cache_ops_local ops k bodies bodies' : bodies !! k = bodies' !! k →
  foldl cache_op bodies ops !! k = foldl cache_op bodies' ops !! k.
Proof.
  revert bodies bodies'. induction ops as [|op ops IH]; intros b b' Hk; [done|]. cbn. apply IH. destruct op; cbn; try done.
  - rewrite !lookup_insert. by case_decide.
  - rewrite !lookup_delete. by case_decide.
Qed.

(** A commit leaves for an id only what it holds then: what it replaces is
    replaced in the cache, and what it removes is evicted. *)
Lemma commit_cached {T} ctx id reg (p : Plan T) allowed db' ops : is_u32 id → Forall body_ok (writes p) →
  commit_plan (reg_store reg) (reg_db reg) allowed (writes p) (events p) = (db', Ok ops) →
  (∀ rec, reg_bodies reg !! (ctx, id) = Some rec → stored_body reg ctx id = Ok (Some rec)) →
  ∀ rec, foldl cache_op (reg_bodies reg) ops !! (ctx, id) = Some rec → Store.get_schema (reg_store reg) db' ctx id = Ok (Some rec).
Proof.
  intros Hid Hbody Hc Hb rec Hl.
  set (only := from_option (λ x, {[(ctx, id) := x]}) (∅ : gmap (string * Z) SchemaRecord) (reg_bodies reg !! (ctx, id))).
  assert (reg_bodies reg !! (ctx, id) = only !! (ctx, id)) as Hsame.
  { subst only. destruct (reg_bodies reg !! (ctx, id)); cbn; by rewrite ?lookup_singleton_eq, ?lookup_empty. }
  assert (coherent (reg_store reg) (rows (reg_db reg)) only) as Hco.
  { intros ctx' id' rec' H'. subst only. destruct (reg_bodies reg !! (ctx, id)) as [x|] eqn:Hx; cbn in H'; [|by rewrite lookup_empty in H'].
    apply lookup_singleton_Some in H' as [[= <- <-] <-]. split; [done|]. by apply get_schema_row, Hb. }
  rewrite (cache_ops_local ops _ _ _ Hsame) in Hl. apply get_schema_row.
  exact (proj2 (commit_coherent _ _ _ _ _ _ _ _ Hbody Hc Hco ctx id rec Hl)).
Qed.

Lemma run_result_settled `{!Mutation M} ctx id reg (m : M) a acts reg' r : let reg0 := cache_acts reg (am_seen0 a) in
  is_u32 id → (∀ p, plan m (read_view reg0 (am_now a) (am_guid a)) = Ok p → storable reg p) →
  run_result reg0 m a (cache_acts reg acts) reg' r → keeps_body ctx id reg reg' ∨ unread ctx id reg' →
  settled ctx id reg → settled ctx id reg'.
Proof.
  cbv zeta. intros Hid Hst Hres Hk Hs. pose proof (cache_acts_settled ctx id acts reg Hs) as Hs'.
  destruct Hres as [->|(p & allowed & Hp & _ & [(db' & e & -> & Hc & ->)|(db' & ops & -> & Hc & ->)])]; [done| |].
  - apply settled_frame; [|done]. intros k. by rewrite (commit_plan_Err _ _ _ _ _ _ _ Hc).
  - destruct (Hst p Hp) as (_ & Hbody & _). destruct Hs' as [Hb Hr]. split.
    + by eapply (commit_cached ctx id (cache_acts reg acts)).
    + intros rec b Hin. destruct Hk as [Hk|Hno]; [|by destruct (Hno rec b)]. by apply Hk, (Hr rec b).
Qed.

Lemma engine_step_settled ctx id reg reg' : is_u32 id → engine_step reg reg' →
  keeps_body ctx id reg reg' ∨ unread ctx id reg' → settled ctx id reg → settled ctx id reg'.
Proof.
  intros Hid Hstep Hk Hs.
  destruct Hstep as [M Hm Hsafe Hlogs m a reg' r _ _ Hst Hrun|M Hm Hsafe Hlogs m a reg' r _ _ Hst Hrun
    |name expected new s trace now db' r Hw|before db' r Hle Hp|act|s Hl].
  - apply run_cases in Hrun as [[acts ->]|[acts Hres]]; [by apply cache_acts_settled|by eapply run_result_settled].
  - apply locked_cases in Hrun.
    refine (run_result_settled ctx id reg m (mkAmbient 0 "" [] (am_now a) (am_guid a) (am_seen a)) (am_seen a) reg' r Hid _ _ Hk Hs);
      cbn [am_seen0 am_now am_guid]; by rewrite cache_acts_foldl.
  - apply settled_frame; [|done]. intros k. by eapply worker_rows.
  - apply settled_frame; [|done]. by eapply prune_bodies.
  - by apply cache_act_settled.
  - split; cbn; [intros rec; by rewrite lookup_empty|intros rec b Hin; by apply elem_of_nil in Hin].
Qed.

(** (C11) Reading through the cache is reading the store, unless a body is taken
    away while it is being read: when nothing was cached or being read for the
    id to begin with, and every step of the history that removes or replaces
    the body of the id ends with no read of it under way, then after the
    history [get_schema] answers what the store holds, whatever was registered,
    removed for good, imported again, read, cached late or evicted on the way,
    and a read that was begun and is still to be cached holds the same. (With a
    read under way the old body can stay, see [late_insert_hides_import].) *)
Theorem body_cache_transparent reg reg' ctx id : is_u32 id →
  reg_bodies reg !! (ctx, id) = None → unread ctx id reg →
  rtc (λ x y, engine_step x y ∧ (keeps_body ctx id x y ∨ unread ctx id y)) reg reg' →
  (get_body reg' ctx id).2 = api (Store.get_schema (reg_store reg') (reg_db reg') ctx id) ∧
  ∀ rec b, mkRead ctx id rec b ∈ reg_reads reg' → Store.get_schema (reg_store reg') (reg_db reg') ctx id = Ok (Some rec).
Proof.
  intros Hid Hnone Hreads Hh. assert (settled ctx id reg') as [Hb Hr].
  { assert (settled ctx id reg) as Hs by (split; [intros rec; by rewrite Hnone|intros rec b Hin; by destruct (Hreads rec b)]).
    clear Hnone Hreads. induction Hh as [|x y z [Hstep Hk] _ IH]; [done|]. by eapply IH, engine_step_settled. }
  split; [|done]. unfold get_body. destruct (reg_bodies reg' !! (ctx, id)) as [rec|] eqn:Hl.
  - by rewrite (Hb rec eq_refl : Store.get_schema _ _ _ _ = _).
  - by destruct (Store.get_schema _ _ _ _) as [[rec|]|e].
Qed.

(** (C10) A refused or failed mutation changes nothing that lasts: not a row,
    not the published snapshot, not the settings, and nobody is notified; the
    registry is as it was but for what reads did to the caches meanwhile. *)
Theorem failed_mutation_changes_nothing `{!Mutation M} reg (m : M) a reg' e :
  run_inner reg m a = (reg', Err e) →
  rows (reg_db reg') = rows (reg_db reg) ∧ reg_snap reg' = reg_snap reg ∧ reg_settings reg' = reg_settings reg ∧
  reg_store reg' = reg_store reg ∧ reg_notices reg' = reg_notices reg ∧
  ∃ acts, reg' = with_db (cache_acts reg acts) (reg_db reg').
Proof.
  intros Hrun.
  assert (∃ acts, rows (reg_db reg') = rows (reg_db reg) ∧ reg' = with_db (cache_acts reg acts) (reg_db reg')) as (acts & Hrows & Heq).
  { apply run_cases in Hrun as [[acts ->]|[acts [->|(p & allowed & _ & _ & Hres)]]];
      [exists acts; split; [done|by destruct (cache_acts reg acts)]..|].
    destruct Hres as [(db' & e' & _ & Hc & ->)|(db' & ops & ? & _)]; [|done].
    exists acts. split; [by eapply commit_plan_Err|done]. }
  split_and!; [done|rewrite Heq; done..|by exists acts].
Qed.

(** (C9) Nothing is written against the mode in scope: when the mode table
    forbids a verb, the attempt is refused (with its own error, when the verb
    answers before the gate) or was answered without writing, and the
    registry is untouched but for what reads did to the caches. *)
Theorem mode_gate_enforced `{!Mutation M} reg (m : M) a e :
  ModeGate.check (intent m) (mode_for (read_view reg (am_now a) (am_guid a)) (target m)) (scope_name (target m)) = Err e →
  ∃ reg' acts r, run_inner reg m a = (reg', r) ∧ reg' = cache_acts reg acts ∧ same_but_caches reg reg' ∧
    match fast_path m (read_view reg (am_now0 a) (am_guid0 a)), gate m,
          plan m (read_view (cache_acts reg (am_seen0 a)) (am_now a) (am_guid a)) with
    | Ok (Some out), _, _ => r = Ok out
    | Err e', _, _ => r = Err e'
    | Ok None, AfterPlan, Err e' => r = Err e'
    | Ok None, _, _ => r = Err (Api e)
    end.
Proof.
  intros Hg.
  unfold run_inner. destruct (fast_path m _) as [[out|]|e'].
  1, 3: exists (cache_acts reg (am_seen0 a)), (am_seen0 a); eexists; split_and!; [done|done|apply cache_acts_same|done].
  exists (cache_acts reg (am_seen0 a ++ am_seen a)), (am_seen0 a ++ am_seen a).
  assert (ModeGate.check (intent m) (mode_for (read_view (cache_acts reg (am_seen0 a)) (am_now a) (am_guid a)) (target m))
    (scope_name (target m)) = Err e) as Hg' by exact Hg.
  unfold run_locked, decide_plan, api. rewrite Hg', <-cache_acts_app. cbn [map_err].
  destruct (gate m); cbn [mbind result_bind]; [eexists; split_and!; [done|done|apply cache_acts_same|done]|].
  destruct (plan m _); cbn [mbind result_bind]; eexists; (split_and!; [done|done|apply cache_acts_same|done]).
Qed.
End histories.

(** * A concrete history *)

(** A fresh registry, and the registration of a schema in it. *)
Definition fresh_registry : RegistryState MemDB :=
  mkRegistry (mkSettings Backward false) demo_store (mkMem ∅ None) empty_snap ∅ ∅ ∅ [] [].
Definition demo_register (subj text : string) : RegisterSchema :=
  mkRegister (mkQ "." subj) (mkDraft (Some text) None [] None None 0 (-1)) false.
(** An attempt at time 7, while nobody reads; and one during which another
    request reads the body of id 1. *)
Definition quiet_attempt : Ambient := mkAmbient 0 "" [] 7 "guid" [].
Definition busy_attempt : Ambient := mkAmbient 0 "" [ReadBody "." 1] 7 "guid" [InsertBody 0].
Definition demo_registered : RegistryState MemDB :=
  (run_inner fresh_registry (demo_register "orders" "a") quiet_attempt).1.

Lemma fresh_registry_ok : registry_ok fresh_registry.
Proof.
  exists 0%nat, []. split; simpl.
  - apply durable_empty. intros cf k. apply lookup_empty.
  - intros [[ctx subj] v]. reflexivity.
Qed.

Definition demo_plan : Plan RegisterResponse :=
  match register_plan (demo_register "orders" "a") (read_view fresh_registry 7 "guid") with
  | Ok p => p | Err _ => mkPlan [] [] (response_id 0)
  end.


Lemma schema_persistable (r : SchemaRecord) : sr_metadata r = None → sr_rule_set r = None → persistable r.
Proof.
  destruct r as [t s refs m rs fp sfp g]; simpl. intros -> ->. eapply serde_via_persistable; [done|]. simpl. f_equal.
  induction refs as [|[n sj v] refs IH]; simpl; [done|]. by f_equal.
Qed.
#[export] Hint Resolve schema_persistable version_persistable mode_persistable event_persistable : storable.

(** Plans given in full: names, integers and records are checked by
    computation. *)
Ltac concrete :=
  lazymatch goal with
  | |- persistable ?x =>
      lazymatch type of x with
      | VersionRecord => apply version_persistable
      | Mode => apply mode_persistable
      | LogEvent => apply event_persistable
      | SchemaRecord => apply schema_persistable; reflexivity
      end
  | |- _ => vm_compute; repeat split; solve [reflexivity | discriminate | exact I]
  end.
Ltac good_row :=
  lazymatch goal with
  | |- good_write (WPutSchema _ _ _ _) => apply good_put_schema; concrete
  | |- good_write (WSetNextId _ _) => apply good_set_next; concrete
  | |- good_write (WPutVersion _ _ _ _) => apply good_put_version; concrete
  | |- good_write (WDeleteVersion _ _ _ _) => apply good_delete_version; concrete
  | |- good_write (WPutRefby _ _ _ _) => apply good_put_refby; concrete
  | |- good_write (WDeleteRefby _ _ _ _) => apply good_delete_refby; concrete
  | |- good_write (WPutMode _ _) => apply good_put_mode; concrete
  | |- good_write (WDeleteMode _) => apply good_delete_mode; concrete
  | |- good_write (WDeleteConfig _) => apply good_delete_config; concrete
  | |- good_write (WDeleteSchema _ _) => apply good_delete_schema
  end.
Ltac each_row tac :=
  repeat lazymatch goal with
  | |- Forall _ (_ :: _) => apply Forall_cons; split; [tac|]
  | |- Forall _ [] => apply Forall_nil_2
  end.
Ltac prove_storable p :=
  let p' := eval vm_compute in p in
  replace p with p' by (vm_compute; reflexivity);
  unfold storable; cbn [writes events]; split; [|split; [|split]];
  [ each_row ltac:(idtac; good_row)
  | each_row ltac:(cbn [body_ok]; lazymatch goal with |- _ ∧ _ => split; concrete | |- _ => concrete end)
  | each_row ltac:(idtac; concrete)
  | concrete ].

Lemma demo_plan_storable : storable fresh_registry demo_plan.
Proof. prove_storable demo_plan. Qed.

(** The registration, then a restart. *)
Lemma demo_step : engine_step fresh_registry demo_registered.
Proof.
  eapply (es_run _ (demo_register "orders" "a") quiet_attempt).
  - vm_compute. split; discriminate.
  - intros ctx. unfold Snap.next_id; simpl. rewrite lookup_empty. vm_compute. split; [discriminate|reflexivity].
  - intros p Hp. change (register_plan (demo_register "orders" "a") (read_view fresh_registry 7 "guid") = Ok p) in Hp.
    assert (p = demo_plan) as -> by (unfold demo_plan; by rewrite Hp). apply demo_plan_storable.
  - apply surjective_pairing.
Qed.

Lemma demo_history : rtc engine_step fresh_registry demo_registered.
Proof. apply rtc_once, demo_step. Qed.

Lemma history_consistent_witness : snap_wf (reg_snap demo_registered) ∧
  Snap.list_versions (reg_snap demo_registered) "." "orders" = [(1, mkVersion 1 false 7)].
Proof.
  split; [exact (history_consistent fresh_registry demo_registered fresh_registry_ok demo_history)|].
  vm_compute; reflexivity.
Defined.

Lemma history_recoverable_witness :
  ∃ s, load_snapshot demo_store (reg_db demo_registered) = Ok s ∧ same_answers s (reg_snap demo_registered).
Proof. exact (history_recoverable fresh_registry demo_registered fresh_registry_ok demo_history). Defined.

Lemma history_logged_witness :
  ∃ floor log, durable demo_store (rows (reg_db demo_registered)) (reg_snap demo_registered) floor log ∧
    replay log !! (".", "orders", 1) = Some (1, false).
Proof.
  destruct (history_logged fresh_registry demo_registered fresh_registry_ok demo_history) as (floor & log & Hd & Hlog).
  exists floor, log. split; [exact Hd|]. rewrite <-Hlog. vm_compute; reflexivity.
Defined.

(** The version is deleted, and deleted for good, which takes the body away;
    and, on another occasion, the body is evicted and read again but not cached
    yet. *)
Definition demo_delete (permanent : bool) : DeleteSubjectVersion := mkDeleteVersion (mkQ "." "orders") (Exact 1) permanent.
Definition demo_marked : RegistryState MemDB := (run_inner demo_registered (demo_delete false) quiet_attempt).1.
Definition demo_gone : RegistryState MemDB := (run_inner demo_marked (demo_delete true) quiet_attempt).1.
Definition demo_rereading : RegistryState MemDB :=
  cache_act (cache_act demo_registered (EvictBody (".", 1))) (ReadBody "." 1).

Definition demo_delete_plan (reg : RegistryState MemDB) (permanent : bool) : Plan Z :=
  match delete_version_plan (demo_delete permanent) (read_view reg 7 "guid") with Ok p => p | Err _ => mkPlan [] [] 0 end.

Lemma demo_id_space (reg : RegistryState MemDB) c : ctxs (reg_snap reg) = {["." := c]} → 0 ≤ default 1 (cs_next_id c) < u32_max → id_space (reg_snap reg).
Proof.
  intros Hc Hn ctx. unfold Snap.next_id. rewrite Hc. destruct (decide (ctx = ".")) as [->|Hne].
  - by rewrite lookup_singleton_eq.
  - by rewrite lookup_singleton_ne by done.
Qed.

Lemma demo_delete_step reg permanent c : ctxs (reg_snap reg) = {["." := c]} → 0 ≤ default 1 (cs_next_id c) < u32_max →
  storable reg (demo_delete_plan reg permanent) → engine_step reg (run_inner reg (demo_delete permanent) quiet_attempt).1.
Proof.
  intros Hc Hn Hs. eapply (es_run _ (demo_delete permanent) quiet_attempt); [done|by eapply demo_id_space| |apply surjective_pairing].
  intros p Hp. unfold demo_delete_plan in Hs. rewrite cache_acts_foldl in Hp.
  change (delete_version_plan (demo_delete permanent) (read_view reg 7 "guid") = Ok p) in Hp. by rewrite Hp in Hs.
Qed.

Lemma demo_marked_step : engine_step demo_registered demo_marked.
Proof. eapply demo_delete_step; [vm_compute; reflexivity|by vm_compute|]. prove_storable (demo_delete_plan demo_registered false). Qed.
Lemma demo_gone_step : engine_step demo_marked demo_gone.
Proof. eapply demo_delete_step; [vm_compute; reflexivity|by vm_compute|]. prove_storable (demo_delete_plan demo_marked true). Qed.

Lemma body_cache_transparent_witness :
  ((get_body demo_gone "." 1).2 = api (Store.get_schema demo_store (reg_db demo_gone) "." 1) ∧
   Store.get_schema demo_store (reg_db demo_gone) "." 1 = Ok None) ∧
  ∃ rec, reg_reads demo_rereading = [mkRead "." 1 rec true] ∧ sr_schema rec = "a" ∧
    Store.get_schema demo_store (reg_db demo_rereading) "." 1 = Ok (Some rec).
Proof.
  split.
  - destruct (body_cache_transparent fresh_registry demo_gone "." 1) as [Hget _].
    + by vm_compute.
    + reflexivity.
    + intros rec b Hin. by apply elem_of_nil in Hin.
    + eapply rtc_l; [split; [apply demo_step|left; intros rec Hrec; vm_compute in Hrec; discriminate]|].
      eapply rtc_l; [split; [apply demo_marked_step|right; intros rec b Hin; by apply elem_of_nil in Hin]|].
      apply rtc_once. split; [apply demo_gone_step|]. right. intros rec b Hin. by apply elem_of_nil in Hin.
    + split; [exact Hget|vm_compute; reflexivity].
  - destruct (body_cache_transparent fresh_registry demo_rereading "." 1) as [_ Hreads].
    + by vm_compute.
    + reflexivity.
    + intros rec b Hin. by apply elem_of_nil in Hin.
    + eapply rtc_l; [split; [apply demo_step|left; intros rec Hrec; vm_compute in Hrec; discriminate]|].
      eapply rtc_l; [split; [apply (es_cache _ (EvictBody (".", 1)))|left; intros rec Hrec; exact Hrec]|].
      apply rtc_once. split; [apply (es_cache _ (ReadBody "." 1))|]. left. intros rec Hrec. exact Hrec.
    + assert (∃ rec, reg_reads demo_rereading = [mkRead "." 1 rec true] ∧ sr_schema rec = "a") as (rec & Hr & Ha)
        by (eexists; split; vm_compute; reflexivity).
      exists rec. split_and!; [exact Hr|exact Ha|]. apply (Hreads rec true). rewrite Hr. by apply list_elem_of_singleton.
Defined.

(** A registry whose disk fails at once. *)
Definition failing_registry : RegistryState MemDB :=
  mkRegistry (mkSettings Backward false) demo_store (mkMem ∅ (Some 0%nat)) empty_snap ∅ ∅ ∅ [] [].

Lemma failed_mutation_changes_nothing_witness :
  let run := run_inner failing_registry (demo_register "orders" "a") busy_attempt in
  ∃ e, run.2 = Err e ∧ rows (reg_db run.1) = ∅ ∧ reg_snap run.1 = empty_snap ∧ reg_notices run.1 = [].
Proof.
  set (run := run_inner failing_registry (demo_register "orders" "a") busy_attempt). cbv zeta.
  assert (∃ e, run.2 = Err e) as [e He] by (eexists; vm_compute; reflexivity).
  exists e. split; [exact He|].
  destruct (failed_mutation_changes_nothing failing_registry (demo_register "orders" "a") busy_attempt run.1 e)
    as (Hrows & Hsnap & _ & _ & Hnotices & _).
  - rewrite <-He. apply surjective_pairing.
  - split_and!; [exact Hrows|exact Hsnap|exact Hnotices].
Defined.

(** A registry in read-only mode. *)
Definition readonly_registry : RegistryState MemDB :=
  mkRegistry (mkSettings Backward false) demo_store (mkMem ∅ None)
    (Snap.apply empty_snap (OpPutMode Global Readonly)) ∅ ∅ ∅ [] [].

Lemma mode_gate_enforced_witness :
  let run := run_inner readonly_registry (demo_register "orders" "a") quiet_attempt in
  same_but_caches readonly_registry run.1 ∧
  run.2 = fail (ApiErr.operation_not_permitted "Subject orders is in read-only mode").
Proof.
  cbv zeta. destruct (mode_gate_enforced readonly_registry (demo_register "orders" "a") quiet_attempt
    (ApiErr.operation_not_permitted "Subject orders is in read-only mode")) as (reg' & acts & r & Hrun & _ & Hsame & Hr).
  - vm_compute; reflexivity.
  - rewrite Hrun. split; [exact Hsame|]. vm_compute in Hr. rewrite Hr. reflexivity.
Defined.

(** ** A body cached too late *)

(** In IMPORT mode, [text] is imported under id 1. *)
Definition import_text (text : string) : RegisterSchema :=
  mkRegister (mkQ "." "orders") (mkDraft (Some text) None [] None None 0 1) false.
Definition request `{!Mutation M} (reg : RegistryState MemDB) (m : M) : RegistryState MemDB := (run_inner reg m quiet_attempt).1.
Definition outcome `{!Mutation M} (reg : RegistryState MemDB) (m : M) : Outcome Output := (run_inner reg m quiet_attempt).2.
Definition importing : RegistryState MemDB := request fresh_registry (mkSetMode None Import false).
Definition imported_a : RegistryState MemDB := request importing (import_text "a").
(** A read that missed the cache is under way while the version is removed for
    good and its id imported again; then the read ends. *)
Definition reading_a : RegistryState MemDB := cache_act (cache_act imported_a (EvictBody (".", 1))) (ReadBody "." 1).
Definition removed_a : RegistryState MemDB :=
  request (request reading_a (mkDeleteVersion (mkQ "." "orders") (Exact 1) false))
    (mkDeleteVersion (mkQ "." "orders") (Exact 1) true).
Definition late_insert : RegistryState MemDB := cache_act (request removed_a (import_text "b")) (InsertBody 0).

(** A read that began before an id was removed and imported again puts the
    old body into the cache after the new one: from then on, the old content
    is served for the id, though the store holds the new. *)
Theorem late_insert_hides_import :
  ∃ old new, (get_body late_insert "." 1).2 = Ok (Some old) ∧ sr_schema old = "a" ∧
    Store.get_schema demo_store (reg_db late_insert) "." 1 = Ok (Some new) ∧ sr_schema new = "b".
Proof. do 2 eexists. split_and!; vm_compute; reflexivity. Qed.
