(* ===== verification/Register.v ===== *)
(** Registration (mutations/register_schema.rs): what it stores, which id and
    version it gives out, what it never overwrites, what it checks first, and
    that the same schema is recognised afterwards. *)
From S2P Require Import Prelude SortedVec RustStr Errors Json Model Context Snapshot Keys Plan Store Durable Transaction MemDb Changelog Recovery SchemaLayer JavaOrder Views Registry Queries Mutations ExporterVerbs Engine VerbSafety Consistency.

Local Open Scope Z_scope.

(** * Versions after a list of operations *)

(** The versions a list of operations deletes. *)
Definition op_deletes (op : Op) : option (string * string * Z) :=
  match op with OpDeleteVersion ctx subj v _ => Some (ctx, subj, v) | _ => None end.

Lemma get_version_removes s ops ctx subj v : snap_wf s → Forall (removes s) ops →
  Snap.get_version (Snap.apply_all s ops) ctx subj v =
  if decide ((ctx, subj, v) ∈ omap op_deletes ops) then None else Snap.get_version s ctx subj v.
Proof.
  intros Hwf Hops. revert s Hwf Hops. induction ops as [|op ops IH]; intros s Hwf Hops.
  { rewrite decide_False; [done|]. apply not_elem_of_nil. }
  apply Forall_cons in Hops as [Hop Hops]. assert (op_ok s op) as Hok by (by destruct op).
  assert (Forall (removes (Snap.apply s op)) ops) as Hops'.
  { eapply Forall_impl; [exact Hops|]. intros op'. by apply removes_mono. }
  simpl. rewrite (IH (Snap.apply s op)) by eauto using apply_wf. rewrite get_version_apply by done.
  destruct op as [| | |ctx' subj' v' id| | | | | | | | |]; simpl; try done.
  repeat destruct (decide _) as [?|?]; try done; set_solver.
Qed.

(** The put of a registration, among operations that put no other version. *)
Definition no_version (op : Op) : Prop :=
  match op with OpPutVersion _ _ _ _ | OpDeleteVersion _ _ _ _ => False | _ => True end.

Lemma get_version_silent s ops ctx subj v : snap_wf s → ops_ok s ops → Forall no_version ops →
  Snap.get_version (Snap.apply_all s ops) ctx subj v = Snap.get_version s ctx subj v.
Proof.
  revert s. induction ops as [|op ops IH]; intros s Hwf Hok Hops; [done|].
  apply Forall_cons in Hops as [Hop Hops]. destruct Hok as [Ho Hok]. simpl.
  rewrite IH by eauto using apply_wf. rewrite get_version_apply by done. by destruct op.
Qed.

Lemma fingerprint_apply s op ctx fp :
  Snap.id_for_fingerprint (Snap.apply s op) ctx fp =
  match op with
  | OpPutSchema ctx' id rec true =>
      if decide (ctx = ctx' ∧ fp = sr_fingerprint rec) then Some id else Snap.id_for_fingerprint s ctx fp
  | _ => Snap.id_for_fingerprint s ctx fp
  end.
Proof.
  rewrite !fingerprint_ctx.
  destruct op as [ctx' id rec [|]| |ctx' subj' v' rec|ctx' subj' v' id|ctx' subj' v' id|ctx' subj' v' id
    |ctx' next| | | | | |]; simpl; try done; rewrite ctx_of_mut; destruct (decide (ctx = ctx')) as [<-|]; try done.
  - destruct (decide (ctx = ctx ∧ fp = sr_fingerprint rec)) as [[_ ->]|Hne]; simpl; [by rewrite lookup_insert_eq|].
    rewrite lookup_insert_ne; [done|]. naive_solver.
  - rewrite decide_False by naive_solver. done.
  - change (ctx_of (Snap.set_known _ s) ctx) with (ctx_of s ctx).
    by destruct (put_version_rest (ctx_of s ctx) subj' v' rec) as (_ & _ & ->).
  - by destruct (delete_version_rest (ctx_of s ctx) subj' v' id) as (_ & _ & ->).
  - by destruct (delete_refby_rest (ctx_of s ctx) subj' v' id) as (_ & _ & _ & ->).
Qed.

(** Reference rows touch neither versions, nor counters, nor fingerprints. *)
Definition refby_only (op : Op) : Prop := match op with OpPutRefby _ _ _ _ => True | _ => False end.

Lemma refby_only_frame s ops : Forall refby_only ops →
  ops_ok s ops ∧ (∀ ctx, Snap.next_id (Snap.apply_all s ops) ctx = Snap.next_id s ctx) ∧
  (∀ ctx fp, Snap.id_for_fingerprint (Snap.apply_all s ops) ctx fp = Snap.id_for_fingerprint s ctx fp).
Proof.
  intros Hops. revert s. induction Hops as [|op ops Hop _ IH]; intros s; [done|].
  destruct (IH (Snap.apply s op)) as (Hok & Hn & Hf). simpl. unfold Snap.apply_all in *.
  split_and!; [by destruct op|..]; intros; rewrite ?Hn, ?Hf, ?next_id_apply, ?fingerprint_apply; by destruct op.
Qed.

Section register.
Context {formats : SchemaFormats}.
Implicit Types view : ReadView.

(** The soft-deleted earlier versions of the same content, which a
    registration replaces. *)
Definition replaced (r : Reader) (q : QualifiedSubject) (version id v : Z) : Prop :=
  ∃ vr, Snap.get_version (rd_snap r) (context q) (subject q) v = Some vr ∧
        vr_deleted vr = true ∧ vr_id vr = id ∧ v < version.
#[export] Instance replaced_dec r q version id v : Decision (replaced r q version id v).
Proof.
  destruct (Snap.get_version (rd_snap r) (context q) (subject q) v) as [vr|] eqn:E.
  - destruct (decide (vr_deleted vr = true ∧ vr_id vr = id ∧ v < version)).
    + left. exists vr. naive_solver.
    + right. intros (vr' & ? & ?). naive_solver.
  - right. intros (vr & ? & _). naive_solver.
Defined.

(** The deletes of one hard delete, and of many. *)
Lemma hard_delete_all_deletes r l also ws evs : hard_delete_all r l also = Ok (ws, evs) →
  omap op_deletes (plan_ops ws) = map (λ x, (context x.1.1, subject x.1.1, x.1.2)) l.
Proof.
  unfold hard_delete_all. intros Hd. apply bind_Ok in Hd as (xs & Hxs & [= <- <-]). apply mapM_result_Ok in Hxs.
  induction Hxs as [|[[q v] vr] [ws ev] l k Hx _ IH]; [done|].
  change (concat ((ws, ev) :: k).*1) with (ws ++ concat k.*1). rewrite plan_ops_app, omap_app, IH.
  apply hard_delete_shape in Hx as (_ & extra & -> & Hextra). rewrite plan_ops_cons, omap_app.
  assert (omap op_deletes (plan_ops extra) = []) as ->; [|done].
  induction Hextra as [|w extra Hw _ IHe]; [done|]. rewrite plan_ops_cons, omap_app, IHe. by destruct w.
Qed.

(** The plan of a registration in three parts. *)
Lemma registration_ops m view p d c sid version id : registration m view p d c sid version id →
  is_i32 (d_id (rg_draft m)) → snap_wf (rd_snap (vw_reader view)) → id_space (rd_snap (vw_reader view)) →
  let s := rd_snap (vw_reader view) in let q := rg_subject m in
  ∃ dels rec, Forall (removes s) dels ∧
    (∀ v, (context q, subject q, v) ∈ omap op_deletes dels ↔
          (v = version ∧ is_Some (Snap.get_version s (context q) (subject q) v)) ∨ replaced (vw_reader view) q version id v) ∧
    (∀ ctx subj v, (ctx, subj, v) ∈ omap op_deletes dels → ctx = context q ∧ subj = subject q) ∧
    choose_record (vw_reader view) view q id c (canon_fingerprint c) = Ok rec ∧ 0 ≤ id < u32_max ∧
    plan_ops (writes p) = dels ++ OpPutSchema (context q) id rec true ::
      (if bool_decide (Snap.next_id s (context q) ≤ id) then [OpSetNextId (context q) (id + 1)] else []) ++
      OpPutVersion (context q) (subject q) version (mkVersion id false (vw_now view)) ::
      plan_ops (map (λ x, WPutRefby (context x.1) (subject x.1) x.2 id) (c_targets c)).
Proof.
  intros [[Hd _] _ _ Hst _ _ _ Hid Hrows _] Htyped Hwf Hspace s q. rewrite <-Hd in Htyped.
  pose proof (registered_id_fits _ _ _ _ _ (find_stored_i32 _ _ _ _ _ Htyped Hst) Hspace Hid) as Hfit.
  apply register_rows_shape in Hrows as (ws1 & evs1 & ws2 & evs2 & rec & H1 & H2 & Hrec & -> & _).
  exists (plan_ops (ws1 ++ ws2)), rec.
  pose proof (hard_delete_all_deletes _ _ _ _ _ H1) as Hd1. pose proof (hard_delete_all_deletes _ _ _ _ _ H2) as Hd2.
  split_and!; [| | |done|lia|lia|].
  - rewrite plan_ops_app. apply Forall_app. split.
    + eapply hard_delete_all_removes; [exact H1|]. by apply register_rows_old.
    + eapply hard_delete_all_removes; [exact H2|]. by apply filtered_stored.
  - intros v. rewrite plan_ops_app, omap_app, Hd1, Hd2, elem_of_app. f_equiv.
    + destruct (List.find _ _) as [[v0 vr]|] eqn:Hf; simpl.
      * apply find_some in Hf as [Hin Hv]. simpl in Hv. apply bool_decide_eq_true in Hv as ->.
        apply list_elem_of_In, list_versions_get in Hin; [|done]. rewrite list_elem_of_singleton. split.
        -- intros [= ->]. split; [done|]. by exists vr.
        -- by intros [-> _].
      * rewrite elem_of_nil. split; [done|]. intros [-> [vr Hvr]].
        apply list_versions_get in Hvr; [|done]. apply list_elem_of_In in Hvr.
        apply (find_none _ _ Hf) in Hvr. simpl in Hvr. by rewrite bool_decide_eq_true_2 in Hvr.
    + rewrite list_elem_of_fmap. unfold replaced. split.
      * intros (y & Heq & Hy). apply list_elem_of_fmap in Hy as ([v0 vr] & -> & Hx). simpl in Heq. injection Heq as ->.
        apply list_elem_of_filter in Hx as [Hp Hx]. apply list_versions_get in Hx; [|done]. by exists vr.
      * intros (vr & Hv & Hp). exists (q, v, vr). split; [done|]. apply list_elem_of_fmap. exists (v, vr).
        split; [done|]. apply list_elem_of_filter. split; [done|]. by apply list_versions_get.
  - intros ctx subj v. rewrite plan_ops_app, omap_app, Hd1, Hd2, elem_of_app, !list_elem_of_fmap. intros [Hin|(y & Heq & Hy)].
    + destruct Hin as (y & Heq & Hy). destruct (List.find _ _) as [[v0 vr]|]; [|by apply elem_of_nil in Hy].
      apply list_elem_of_singleton in Hy as ->. by injection Heq as -> -> _.
    + apply list_elem_of_fmap in Hy as ([v0 vr] & -> & _). by injection Heq as -> -> _.
  - rewrite plan_ops_app. f_equal.
    assert (u32_add id 1 = id + 1) as -> by (apply u32_add_small; unfold is_u32; lia).
    fold s. fold q. by case_bool_decide.
Qed.

(** The snapshot after a registration. *)
Record registered_state (s s' : Snapshot) (r : Reader) (q : QualifiedSubject) (version id now : Z) (fp : string) : Prop := {
  ra_wf : snap_wf s';
  ra_version : ∀ ctx subj v, Snap.get_version s' ctx subj v =
    if decide (ctx = context q ∧ subj = subject q ∧ v = version) then Some (mkVersion id false now)
    else if decide (ctx = context q ∧ subj = subject q ∧ replaced r q version id v) then None
    else Snap.get_version s ctx subj v;
  ra_next : ∀ ctx, Snap.next_id s' ctx =
    if decide (ctx = context q) then Z.max (Snap.next_id s ctx) (id + 1) else Snap.next_id s ctx;
  ra_fingerprint : Snap.id_for_fingerprint s' (context q) fp = Some id;
}.

Lemma choose_record_fingerprint r view q id c fp rec : choose_record r view q id c fp = Ok rec → sr_fingerprint rec = fp.
Proof.
  unfold choose_record. intros Hc. apply bind_Ok in Hc as ([e|] & _ & Hc); cbv zeta in Hc.
  - injection Hc as <-. by destruct (decide _).
  - by injection Hc as <-.
Qed.

Lemma registration_state m view p d c sid version id : registration m view p d c sid version id →
  is_i32 (d_id (rg_draft m)) → snap_wf (rd_snap (vw_reader view)) → id_space (rd_snap (vw_reader view)) →
  registered_state (rd_snap (vw_reader view)) (Snap.apply_all (rd_snap (vw_reader view)) (plan_ops (writes p)))
    (vw_reader view) (rg_subject m) version id (vw_now view) (canon_fingerprint c).
Proof.
  intros Hreg Htyped Hwf Hspace.
  destruct (registration_ops _ _ _ _ _ _ _ _ Hreg Htyped Hwf Hspace) as (dels & rec & Hrem & Hdel & Hctx & Hrec & Hfit & ->).
  apply choose_record_fingerprint in Hrec. set (s := rd_snap (vw_reader view)) in *. set (q := rg_subject m) in *.
  set (refs := plan_ops (map _ (c_targets c))).
  assert (Forall refby_only refs) as Hrefs.
  { apply plan_ops_Forall, Forall_forall. intros w Hw. apply list_elem_of_fmap in Hw as (x & -> & _). by repeat constructor. }
  destruct (removes_ok s dels Hwf Hrem) as (Hok1 & Hwf1 & Hn1).
  pose proof (λ ctx subj v, get_version_removes s dels ctx subj v Hwf Hrem) as Hv1.
  unfold Snap.apply_all. rewrite foldl_app. fold (Snap.apply_all s dels).
  set (s1 := Snap.apply_all s dels) in *.
  set (next := if bool_decide (Snap.next_id s (context q) ≤ id) then _ else _).
  cbn [foldl]. rewrite foldl_app. cbn [foldl].
  set (s2 := Snap.apply s1 (OpPutSchema (context q) id rec true)).
  assert (snap_wf s2) as Hwf2 by (by apply apply_wf).
  set (s3 := foldl Snap.apply s2 next).
  assert (snap_wf s3 ∧ (∀ ctx subj v, Snap.get_version s3 ctx subj v = Snap.get_version s1 ctx subj v) ∧
    (∀ ctx, Snap.next_id s3 ctx = if decide (ctx = context q) then Z.max (Snap.next_id s ctx) (id + 1) else Snap.next_id s ctx) ∧
    Snap.id_for_fingerprint s3 (context q) (canon_fingerprint c) = Some id) as (Hwf3 & Hv3 & Hn3 & Hf3).
  { assert (∀ ctx, Snap.next_id s2 ctx = Snap.next_id s ctx) as Hn2 by (intros; unfold s2; by rewrite next_id_apply, Hn1).
    assert (∀ ctx subj v, Snap.get_version s2 ctx subj v = Snap.get_version s1 ctx subj v) as Hv2.
    { intros. unfold s2. by rewrite get_version_apply. }
    assert (Snap.id_for_fingerprint s2 (context q) (canon_fingerprint c) = Some id) as Hf2.
    { unfold s2. rewrite fingerprint_apply, decide_True by done. done. }
    unfold s3, next. case_bool_decide as Hle; cbn [foldl].
    - assert (op_ok s2 (OpSetNextId (context q) (id + 1))) by (simpl; rewrite Hn2; lia).
      split_and!; [by apply apply_wf|..].
      + intros. rewrite get_version_apply by done. apply Hv2.
      + intros ctx. rewrite next_id_apply. destruct (decide _) as [->|]; [lia|apply Hn2].
      + by rewrite fingerprint_apply.
    - split_and!; [done..| |done]. intros ctx. rewrite Hn2. destruct (decide _) as [->|]; [lia|done]. }
  set (put := OpPutVersion (context q) (subject q) version (mkVersion id false (vw_now view))).
  assert (op_ok s3 put) as Hput by (simpl; rewrite Hn3, decide_True by done; lia).
  assert (snap_wf (Snap.apply s3 put)) as Hwf4 by (by apply apply_wf).
  destruct (refby_only_frame (Snap.apply s3 put) refs Hrefs) as (Hok & Hn & Hf). unfold Snap.apply_all in Hn, Hf.
  split.
  - by apply apply_all_wf.
  - intros ctx subj v. fold (Snap.apply_all (Snap.apply s3 put) refs). rewrite get_version_silent; [|done..|].
    2: { eapply Forall_impl; [exact Hrefs|]. by intros []. }
    unfold put. rewrite get_version_apply by done. destruct (decide (ctx = _ ∧ _)) as [|Hne]; [done|].
    rewrite Hv3, Hv1. destruct (decide (_ ∈ _)) as [Hin|Hnin].
    + destruct (Hctx _ _ _ Hin) as [-> ->]. apply Hdel in Hin as [[-> _]|Hin]; [naive_solver|]. by rewrite decide_True.
    + destruct (decide (ctx = _ ∧ _)) as [(-> & -> & Hr)|]; [|done]. destruct Hnin. apply Hdel. by right.
  - intros ctx. rewrite Hn. unfold put. by rewrite next_id_apply, Hn3.
  - rewrite Hf. unfold put. by rewrite fingerprint_apply.
Qed.

(** A stored body that holds the content of a request. *)
Definition holds_content (rec : SchemaRecord) (c : Canon) : Prop :=
  sr_type rec = c_type c ∧ sr_schema rec = c_text c ∧ sr_references rec = c_refs c ∧
  sr_metadata rec = c_metadata c ∧ sr_rule_set rec = c_rule_set c.

(** The body row: the request's content, or the body the id already has with
    the same content hash. *)
Lemma registration_body m view p d c sid version id : registration m view p d c sid version id →
  ∃ rec, WPutSchema (context (rg_subject m)) id rec true ∈ writes p ∧ sr_fingerprint rec = canon_fingerprint c ∧
    (holds_content rec c ∨ get_schema (vw_reader view) (context (rg_subject m)) id = Ok (Some rec)).
Proof.
  intros Hn. destruct (register_rows_shape _ _ _ _ _ _ _ _ _ _ (rn_rows _ _ _ _ _ _ _ _ Hn))
    as (ws1 & evs1 & ws2 & evs2 & rec & _ & _ & Hrec & -> & _).
  exists rec. split_and!; [rewrite !elem_of_app, list_elem_of_singleton; auto|by eapply choose_record_fingerprint|].
  unfold choose_record in Hrec. apply bind_Ok in Hrec as (existing & He & Hrec). cbv zeta in Hrec. injection Hrec as <-.
  destruct existing as [e|]; [destruct (decide _)|]; [by right|by left..].
Qed.

Lemma registration_event m view p d c sid version id : registration m view p d c sid version id →
  last (events p) = Some (mkEvent (context (rg_subject m)) (subject (rg_subject m)) version id Register).
Proof.
  intros Hn. destruct (register_rows_shape _ _ _ _ _ _ _ _ _ _ (rn_rows _ _ _ _ _ _ _ _ Hn))
    as (ws1 & evs1 & ws2 & evs2 & rec & _ & _ & _ & _ & ->). by rewrite app_assoc, last_snoc.
Qed.

(** (C5) What a registration does with the content [c] of its request. Either
    the subject has it already - a live version under the id that is answered,
    which is the id of the content hash or whose stored body has the same type,
    text and rules - and nothing is written; or exactly one version is added,
    live, under the id that is answered; soft-deleted earlier versions of the
    same id in the subject are removed, every other version of every subject is
    untouched, the id counter of that context alone moves past the id, the hash
    of the request's content leads to the id, the snapshot stays consistent,
    the body that is stored holds that content (or is the one the id had with
    the same hash), and the registration is logged last. *)
Theorem register_effect m view p :
  is_i32 (d_id (rg_draft m)) → snap_wf (rd_snap (vw_reader view)) → id_space (rd_snap (vw_reader view)) →
  register_plan m view = Ok p →
  let r := vw_reader view in let q := rg_subject m in let id := rs_id (output p) in
  ∃ c, request_canon m view = Ok (Some c) ∧
  ((writes p = [] ∧ events p = [] ∧ already_there r q c id) ∨
   ∃ version rec,
     registered_state (rd_snap r) (Snap.apply_all (rd_snap r) (plan_ops (writes p))) r q version id (vw_now view) (canon_fingerprint c) ∧
     WPutSchema (context q) id rec true ∈ writes p ∧ sr_fingerprint rec = canon_fingerprint c ∧
     (holds_content rec c ∨ get_schema r (context q) id = Ok (Some rec)) ∧
     last (events p) = Some (mkEvent (context q) (subject q) version id Register)).
Proof.
  intros Htyped Hwf Hspace Hp r q id.
  apply register_plan_inv in Hp as [(Hw & He & _ & c & Hc & Hthere)|(d & c & sid & version & id' & Hn)].
  { exists c. split; [done|]. left. split_and!; [done..|by apply Hthere]. }
  assert (id = id') as ->. { unfold id. destruct (rn_output _ _ _ _ _ _ _ _ Hn) as [b ->]. apply answer_id. }
  exists c. split; [apply Hn|right]. destruct (registration_body _ _ _ _ _ _ _ _ Hn) as (rec & Hin & Hfp & Hbody).
  exists version, rec. split_and!; [by eapply registration_state|done..|by eapply registration_event].
Qed.

Lemma next_id_unused s ctx : snap_wf s → Snap.id_usages s ctx (Snap.next_id s ctx) = [].
Proof.
  intros Hwf. rewrite id_usages_ctx, next_id_ctx. destruct (uses _ _) as [|[subj v] l] eqn:Hu; [done|].
  assert ((subj, v) ∈ uses (ctx_of s ctx) (default 1 (cs_next_id (ctx_of s ctx)))) as Hin by (rewrite Hu; by left).
  apply (wf_exact _ (wf_ctx s Hwf ctx)) in Hin as (vr & Hv & Hid).
  apply (wf_counter s Hwf) in Hv. lia.
Qed.

Definition is_delete (w : Write) : Prop :=
  match w with WDeleteVersion _ _ _ _ | WDeleteRefby _ _ _ _ | WDeleteSchema _ _ => True | _ => False end.
Lemma hard_delete_all_only r l also ws evs : hard_delete_all r l also = Ok (ws, evs) → Forall is_delete ws.
Proof.
  unfold hard_delete_all. intros Hd. apply bind_Ok in Hd as (xs & Hxs & [= <- <-]). apply mapM_result_Ok in Hxs.
  induction Hxs as [|[[q v] vr] [ws ev] l k Hx _ IH]; [constructor|]. simpl. apply Forall_app. split; [|done].
  apply hard_delete_shape in Hx as (_ & extra & -> & Hextra). constructor; [done|].
  eapply Forall_impl; [exact Hextra|]. by intros [].
Qed.

(** The content, counter and version rows of a registration. *)
Lemma registration_rows m view p d c sid version id w : registration m view p d c sid version id →
  w ∈ writes p →
  is_delete w ∨
  (∃ rec, w = WPutSchema (context (rg_subject m)) id rec true ∧
          choose_record (vw_reader view) view (rg_subject m) id c (canon_fingerprint c) = Ok rec) ∨
  (∃ n, w = WSetNextId (context (rg_subject m)) n) ∨
  w = WPutVersion (context (rg_subject m)) (subject (rg_subject m)) version (mkVersion id false (vw_now view)) ∨
  (∃ x, x ∈ c_targets c ∧ w = WPutRefby (context x.1) (subject x.1) x.2 id).
Proof.
  intros Hn Hin.
  destruct (register_rows_shape _ _ _ _ _ _ _ _ _ _ (rn_rows _ _ _ _ _ _ _ _ Hn))
    as (ws1 & evs1 & ws2 & evs2 & rec & H1 & H2 & Hrec & Hw & _). rewrite Hw in Hin.
  apply hard_delete_all_only in H1, H2. rewrite Forall_forall in H1, H2.
  rewrite !elem_of_app in Hin. destruct Hin as [[Hin|Hin]|[Hin|[Hin|[Hin|Hin]]]].
  - left. by apply H1.
  - left. by apply H2.
  - apply list_elem_of_singleton in Hin as ->. right; left. by exists rec.
  - right; right; left. case_bool_decide; [|by apply elem_of_nil in Hin].
    apply list_elem_of_singleton in Hin as ->. by eexists.
  - apply list_elem_of_singleton in Hin as ->. auto.
  - apply list_elem_of_fmap in Hin as (x & -> & Hx). right; right; right; right. by exists x.
Qed.

(** (C4) The content under an id in use never changes: if any version uses the
    id a registration stores under, and the id has a body, then the body that
    is written is that same body. *)
Theorem register_never_overwrites m view p ctx id rec b e :
  snap_wf (rd_snap (vw_reader view)) → register_plan m view = Ok p → WPutSchema ctx id rec b ∈ writes p →
  Snap.id_usages (rd_snap (vw_reader view)) ctx id ≠ [] → get_schema (vw_reader view) ctx id = Ok (Some e) →
  rec = e.
Proof.
  intros Hwf Hp Hin Hused Hbody.
  apply register_plan_inv in Hp as [[Hw _]|(d & c & sid & version & id0 & Hn)]; [by rewrite Hw in Hin; apply elem_of_nil in Hin|].
  destruct (registration_rows _ _ _ _ _ _ _ _ _ Hn Hin) as [[]|[(rec' & [= -> -> -> ->] & Hrec)|[(n & [=])|[[=]|(x & _ & [=])]]]].
  pose proof (rn_id _ _ _ _ _ _ _ _ Hn) as Hid.
  destruct (choose_id_cases _ _ _ _ _ Hid) as [[H0 ->]|[_ ->]].
  2: { by rewrite next_id_unused in Hused. }
  unfold choose_id in Hid. rewrite bool_decide_eq_true_2 in Hid by done. cbv zeta in Hid.
  rewrite bool_decide_eq_false_2 in Hid by done. rewrite Hbody in Hid. cbn [mbind result_bind] in Hid.
  case_bool_decide as Hfp; [done|].
  unfold choose_record in Hrec. rewrite Hbody in Hrec. cbn [mbind result_bind] in Hrec. cbv zeta in Hrec.
  destruct (decide (sr_fingerprint e = canon_fingerprint c)) as [Heq|Hne]; [by injection Hrec as <-|].
  by destruct Hfp.
Qed.

(** Which id a request without one of its own gets. *)
Lemma find_stored_new r q d c sid : d_id d < 0 → find_stored r q d (Some c) = Ok (inr sid) →
  sid = d_id d ∨ ∃ id, sid = as_i32 id ∧ Snap.id_for_fingerprint (rd_snap r) (context q) (canon_fingerprint c) = Some id ∧
                       Snap.id_usages (rd_snap r) (context q) id ≠ [].
Proof.
  intros Hd. unfold find_stored. cbv zeta.
  destruct (hash_lookup r q c) as [[id sv]|] eqn:Hh; [|intros [= <-]; by left].
  rewrite (bool_decide_eq_true_2 (d_id d < 0)) by done. cbn [orb].
  assert (Snap.id_for_fingerprint (rd_snap r) (context q) (canon_fingerprint c) = Some id ∧
          Snap.id_usages (rd_snap r) (context q) id ≠ []) as [Hf Hu].
  { unfold hash_lookup in Hh. destruct (Snap.id_for_fingerprint _ _ _) as [i|]; [|done]. simpl in Hh.
    case_bool_decide; [done|]. by injection Hh as -> _. }
  intros Hs. right. exists id. split; [|done].
  destruct sv as [[v vr]|]; [destruct (_ && _); [done|]|]; by injection Hs as <-.
Qed.

Lemma new_version_above (vs : versions_t) : (∀ v, v ∈ vs.*1 → 0 ≤ v < u32_max) →
  1 ≤ new_version_of vs ∧ ∀ v, v ∈ vs.*1 → v < new_version_of vs.
Proof.
  intros Hb. unfold new_version_of. pose proof (max_opt_spec vs.*1) as Hm. destruct (max_opt vs.*1) as [m|].
  - destruct Hm as [Hin Hle]. rewrite u32_add_small by (unfold is_u32; specialize (Hb m Hin); lia).
    split; [specialize (Hb m Hin); lia|]. intros v Hv. specialize (Hle v Hv). lia.
  - rewrite Hm. split; [lia|]. by intros v ?%elem_of_nil.
Qed.

(** (C6) Ids are given out once: a request that brings no id of its own is
    stored either under the id the index of this context has for the hash of
    its very content, which some version uses, or under the context's next id,
    which no version uses and which is then taken. *)
Theorem register_allocates_fresh m view p :
  snap_wf (rd_snap (vw_reader view)) → id_space (rd_snap (vw_reader view)) → is_i32 (d_id (rg_draft m)) →
  d_id (rg_draft m) < 0 → register_plan m view = Ok p → writes p ≠ [] →
  let s := rd_snap (vw_reader view) in let ctx := context (rg_subject m) in let id := rs_id (output p) in
  ∃ c, request_canon m view = Ok (Some c) ∧
  ((∃ id0, Snap.id_for_fingerprint s ctx (canon_fingerprint c) = Some id0 ∧ id = as_u32 id0 ∧ Snap.id_usages s ctx id0 ≠ []) ∨
   (id = Snap.next_id s ctx ∧ Snap.id_usages s ctx id = [] ∧
    Snap.next_id (Snap.apply_all s (plan_ops (writes p))) ctx = id + 1)).
Proof.
  intros Hwf Hspace Htyped Hneg Hp Hne s ctx id.
  apply register_plan_inv in Hp as [[Hw _]|(d & c & sid & version & id' & Hn)]; [done|].
  assert (id = id') as ->. { unfold id. destruct (rn_output _ _ _ _ _ _ _ _ Hn) as [b ->]. apply answer_id. }
  exists c. split; [apply Hn|]. pose proof (proj1 (rn_draft _ _ _ _ _ _ _ _ Hn)) as Hd. pose proof (rn_stored _ _ _ _ _ _ _ _ Hn) as Hst.
  destruct (choose_id_cases _ _ _ _ _ (rn_id _ _ _ _ _ _ _ _ Hn)) as [[H0 ->]|[Hs ->]].
  - left. apply find_stored_new in Hst as [->|(id0 & -> & Hf & Hu)]; [lia| |lia].
    exists id0. split_and!; [done| |done].
    unfold as_u32, as_i32. rewrite Zminus_mod, Zmod_mod, <-Zminus_mod. f_equal. lia.
  - right. split_and!; [done|by apply next_id_unused|].
    pose proof (ra_next _ _ _ _ _ _ _ _ (registration_state _ _ _ _ _ _ _ _ Hn Htyped Hwf Hspace) ctx) as Hnext.
    rewrite decide_True in Hnext by done. fold s in Hnext. rewrite Hnext. unfold s, ctx. lia.
Qed.

(** A version number is never given out twice while its history is
    kept: outside IMPORT mode the new version is above every version the
    subject has, soft-deleted ones included. *)
Theorem register_version_above m view p ctx subj v rec :
  snap_wf (rd_snap (vw_reader view)) → in_import view (rg_subject m) = false →
  (∀ v', v' ∈ (versions_of (vw_reader view) (rg_subject m)).*1 → 0 ≤ v' < u32_max) →
  0 ≤ d_version (rg_draft m) ≤ i32_max →
  register_plan m view = Ok p → WPutVersion ctx subj v rec ∈ writes p →
  ctx = context (rg_subject m) ∧ subj = subject (rg_subject m) ∧ 1 ≤ v ∧
  ∀ v', v' ∈ (versions_of (vw_reader view) (rg_subject m)).*1 → v' < v.
Proof.
  intros Hwf Himp Hbound Hdv Hp Hin.
  apply register_plan_inv in Hp as [[Hw _]|(d & c & sid & version & id & Hn)]; [by rewrite Hw in Hin; apply elem_of_nil in Hin|].
  destruct (registration_rows _ _ _ _ _ _ _ _ _ Hn Hin) as [[]|[(rec' & [=] & _)|[(n & [=])|[[= -> -> -> ->]|(x & _ & [=])]]]].
  split; [done|]. split; [done|]. pose proof (rn_version _ _ _ _ _ _ _ _ Hn) as Hv.
  rewrite <-(proj2 (rn_draft _ _ _ _ _ _ _ _ Hn)) in Hdv. rewrite Himp in Hv.
  set (vs := versions_of (vw_reader view) (rg_subject m)) in *.
  assert (version = new_version_of vs) as ->.
  { unfold choose_version in Hv. case_bool_decide; [by injection Hv as <-|].
    case_bool_decide as Hnv; [by destruct (negb _) eqn:E|]. injection Hv as <-. done. }
  apply new_version_above; done.
Qed.

(** What the level compares with: every candidate, or the newest. *)
Definition compared (level : CompatibilityLevel) (olds : list OldVersion) : list OldVersion :=
  if Level.transitive level then olds else option_list (head olds).

Lemma check_compatibility_nil r ctx new olds level cfg : level ≠ LNone →
  check_compatibility r ctx new olds level cfg = Ok [] →
  ∀ o, o ∈ compared level olds → ∃ parsed,
    parse_record r ctx (ov_id o) (ov_rec o) = Ok parsed ∧ compatible_with new level (mkPrevious (ov_version o) parsed).
Proof.
  intros Hl. unfold check_compatibility. rewrite (bool_decide_eq_false_2 (level = LNone)) by done. cbn [orb].
  case_bool_decide as Hnil.
  { subst olds. unfold compared. intros _ o Ho. by destruct (Level.transitive level); apply elem_of_nil in Ho. }
  cbv zeta. intros Hc. apply bind_Ok in Hc as (prev & Hprev & Hc). apply mapM_result_Ok in Hprev.
  assert (check_level new prev level = []) as Hnone.
  { injection Hc as Hc. case_bool_decide as E; [done|]. by destruct (check_level new prev level). }
  apply check_level_nil in Hnone as [|Hall]; [done|].
  assert (compared level olds = take (if Level.transitive level then length olds else 1%nat) olds) as ->.
  { unfold compared. destruct (Level.transitive level); [by rewrite firstn_all|]. by destruct olds as [|? []]. }
  assert ((if Level.transitive level then prev else option_list (head prev)) = prev) as Heq.
  { destruct (Level.transitive level) eqn:E; [done|]. apply Forall2_length in Hprev. rewrite length_take in Hprev.
    destruct prev as [|a [|b prev]]; [done..|]. cbn [length] in Hprev. lia. }
  rewrite Heq in Hall. clear Heq Hc Hnil. intros o Ho.
  apply list_elem_of_lookup in Ho as [i Hi]. eapply Forall2_lookup_l in Hi as (pv & Hpv & Hparse); [|exact Hprev].
  apply bind_Ok in Hparse as (parsed & Hparse & [= <-]). exists parsed. split; [done|].
  apply Hall. by eapply list_elem_of_lookup_2.
Qed.

(** ** The versions a new one has to be compatible with *)

(** A live version of the subject whose stored body is in the compatibility
    group of the new schema. *)
Definition rival (r : Reader) (q : QualifiedSubject) (c : Canon) (v : Z) (vr : VersionRecord) (rec : SchemaRecord) : Prop :=
  Snap.get_version (rd_snap r) (context q) (subject q) v = Some vr ∧ vr_deleted vr = false ∧
  get_schema r (context q) (vr_id vr) = Ok (Some rec) ∧
  group_differs (config_in_scope r q) (sr_metadata rec) (c_metadata c) = false.

(** Its parse: cached for its id and what its references resolve to, or made. *)
Definition parse_of (r : Reader) (ctx : string) (id : Z) (rec : SchemaRecord) (parsed : ParsedSchema) : Prop :=
  ∃ resolved, resolve_stored r ctx (sr_references rec) = Ok resolved ∧
    (rd_parsed r (ctx, id, deps_fingerprint resolved) = Some parsed ∨
     parse_with (sr_type rec) (sr_schema rec) resolved false = Ok parsed).

Lemma parse_record_of r ctx id rec parsed : parse_record r ctx id rec = Ok parsed → parse_of r ctx id rec parsed.
Proof.
  unfold parse_record. intros Hp. apply bind_Ok in Hp as (resolved & Hr & Hp). exists resolved. split; [done|].
  destruct (rd_parsed _ _) as [p|]; [left; by injection Hp as ->|right]. by apply map_err_Ok in Hp.
Qed.

Lemma need_schema_Ok r ctx id rec : need_schema r ctx id = Ok rec ↔ get_schema r ctx id = Ok (Some rec).
Proof.
  unfold need_schema. destruct (get_schema r ctx id) as [[x|]|]; cbn; split; try done; by intros [= ->].
Qed.

(** The candidates are the live versions of the group, in their order. *)
Lemma collect_candidates_elem r ctx cfg md vs olds : collect_candidates r ctx cfg md vs = Ok olds →
  ∀ o, o ∈ olds ↔ ∃ vr, (ov_version o, vr) ∈ vs ∧ ov_id o = vr_id vr ∧ get_schema r ctx (vr_id vr) = Ok (Some (ov_rec o)) ∧
                         group_differs cfg (sr_metadata (ov_rec o)) md = false.
Proof.
  revert olds. induction vs as [|[v vr] vs IH]; intros olds; cbn [collect_candidates].
  { intros [= <-] o. split; [by intros ?%elem_of_nil|]. by intros (vr & ?%elem_of_nil & _). }
  intros Hc. apply bind_Ok in Hc as (rec & Hrec%need_schema_Ok & Hc). apply bind_Ok in Hc as (rest & Hrest & [= <-]) .
  specialize (IH rest Hrest). intros o.
  assert (o ∈ (if group_differs cfg (sr_metadata rec) md then rest else mkOld v (vr_id vr) rec :: rest) ↔
    (o = mkOld v (vr_id vr) rec ∧ group_differs cfg (sr_metadata rec) md = false) ∨ o ∈ rest) as ->.
  { destruct (group_differs _ _ _); rewrite ?elem_of_cons; naive_solver. }
  rewrite IH. setoid_rewrite elem_of_cons. split.
  - intros [[-> Hg]|(vr' & ? & ?)]; [exists vr; split_and!; [by left|done..]|exists vr'; split_and!; [by right|naive_solver..]].
  - intros (vr' & [[= Hv ->]|Hin] & Hid & Hb & Hg); [left|right; by exists vr'].
    destruct o as [ov oi orec]; cbn in *. subst. split; congruence.
Qed.

Lemma collect_candidates_sublist r ctx cfg md vs olds : collect_candidates r ctx cfg md vs = Ok olds →
  sublist (ov_version <$> olds) vs.*1.
Proof.
  revert olds. induction vs as [|[v vr] vs IH]; intros olds; cbn [collect_candidates]; [intros [= <-]; constructor|].
  intros Hc. apply bind_Ok in Hc as (rec & _ & Hc). apply bind_Ok in Hc as (rest & Hrest & [= <-]).
  destruct (group_differs _ _ _); cbn; constructor; by apply IH.
Qed.

Lemma versions_sorted r q : snap_wf (rd_snap r) → StronglySorted Z.lt (versions_of r q).*1.
Proof.
  intros Hwf. unfold versions_of. rewrite list_versions_ctx. destruct (subjects _ !! _) as [vs|] eqn:E; cbn; [|constructor].
  apply (wf_versions _ (wf_ctx _ Hwf _)) in E as [Hs _]. induction Hs as [|x l _ IH Hall]; cbn; constructor; [done|].
  apply Forall_fmap. eapply Forall_impl; [exact Hall|]. done.
Qed.

Lemma sublist_sorted {A} (R : A → A → Prop) (k l : list A) : sublist k l → StronglySorted R l → StronglySorted R k.
Proof.
  induction 1 as [|x k l Hs IH|x k l _ IH]; [done|..]; intros [Hall Hl]%StronglySorted_cons; [|by apply IH].
  constructor; [by apply IH|]. rewrite Forall_forall in Hall |- *. intros y Hy. apply Hall.
  by eapply elem_of_sublist.
Qed.

Lemma newest_first_sorted (vs : versions_t) : StronglySorted Z.lt vs.*1 → StronglySorted Z.gt (live_newest_first vs).*1.
Proof.
  intros Hs. apply (sublist_sorted _ _ (reverse vs).*1).
  { unfold live_newest_first. induction (reverse vs) as [|x l IH]; [constructor|]. rewrite filter_cons.
    destruct (decide _); cbn; by constructor. }
  induction vs as [|x vs IH]; [constructor|]. cbn in Hs. apply StronglySorted_inv in Hs as [Hs Hall].
  rewrite reverse_cons, fmap_app. apply StronglySorted_app_2; [|by apply IH|repeat constructor].
  intros a b Ha ->%list_elem_of_singleton. rewrite Forall_forall in Hall. rewrite fmap_reverse, elem_of_reverse in Ha.
  apply Hall in Ha. lia.
Qed.

(** The first candidate is the newest. *)
Lemma first_candidate_newest r q cfg md o olds : snap_wf (rd_snap r) → compat_candidates r q cfg md = Ok (o :: olds) →
  ∀ o', o' ∈ o :: olds → ov_version o' ≤ ov_version o.
Proof.
  intros Hwf Hc. pose proof (collect_candidates_sublist _ _ _ _ _ _ Hc) as Hsub.
  pose proof (newest_first_sorted _ (versions_sorted r q Hwf)) as Hs.
  assert (StronglySorted Z.gt (ov_version <$> o :: olds)) as Ho by (by eapply sublist_sorted).
  cbn in Ho. apply StronglySorted_inv in Ho as [_ Hall]. rewrite Forall_forall in Hall.
  intros o' [->|Hin]%elem_of_cons; [done|]. assert (ov_version o' ∈ ov_version <$> olds) as Hin' by (by apply list_elem_of_fmap_2).
  apply Hall in Hin'. lia.
Qed.


(** The hash index leads to the highest version of the subject under the id. *)
Lemma hash_lookup_max r q c version vr : snap_wf (rd_snap r) →
  Snap.id_for_fingerprint (rd_snap r) (context q) (canon_fingerprint c) = Some (vr_id vr) →
  Snap.get_version (rd_snap r) (context q) (subject q) version = Some vr →
  (∀ v vr', Snap.get_version (rd_snap r) (context q) (subject q) v = Some vr' → vr_id vr' = vr_id vr → v ≤ version) →
  hash_lookup r q c = Some (vr_id vr, Some (version, vr)).
Proof.
  intros Hwf Hf Hv Hmax. unfold hash_lookup. rewrite Hf. cbn [mbind option_bind].
  assert (∀ v, v ∈ (filter (λ x, x.1 = subject q) (Snap.id_usages (rd_snap r) (context q) (vr_id vr))).*2 ↔
    ∃ vr', Snap.get_version (rd_snap r) (context q) (subject q) v = Some vr' ∧ vr_id vr' = vr_id vr) as Hin.
  { intros v. rewrite list_elem_of_fmap, get_version_ctx, id_usages_ctx, <-(wf_exact _ (wf_ctx _ Hwf _)). split.
    - intros ([subj v'] & -> & [Hs Hu]%list_elem_of_filter). simpl in *. by subst.
    - intros Hu. exists (subject q, v). split; [done|]. by apply list_elem_of_filter. }
  assert (version ∈ (filter (λ x, x.1 = subject q) (Snap.id_usages (rd_snap r) (context q) (vr_id vr))).*2) as Hversion.
  { apply Hin. by exists vr. }
  case_bool_decide as Hnil. { rewrite Hnil in Hversion. by apply elem_of_nil in Hversion. }
  pose proof (max_opt_spec (filter (λ x, x.1 = subject q) (Snap.id_usages (rd_snap r) (context q) (vr_id vr))).*2) as Hm.
  destruct (max_opt _) as [m|]; [|rewrite Hm in Hversion; by apply elem_of_nil in Hversion].
  destruct Hm as [Hm Hle]. apply Hin in Hm as (vr' & Hvr' & Hid). specialize (Hle version Hversion).
  assert (m = version) as -> by (specialize (Hmax m vr' Hvr' Hid); lia). cbn [mbind option_bind]. by rewrite Hv.
Qed.

(** A request for content the index leads to a live version of is answered
    with its id, and nothing is planned. *)
Lemma register_found m view c v vr : d_id (rg_draft m) < 0 → d_version (rg_draft m) = 0 → request_canon m view = Ok (Some c) →
  hash_lookup (vw_reader view) (rg_subject m) c = Some (vr_id vr, Some (v, vr)) → vr_deleted vr = false →
  ∃ p, register_plan m view = Ok p ∧ writes p = [] ∧ events p = [] ∧ rs_id (output p) = vr_id vr.
Proof.
  intros Hid Hv Hc Hh Hd. unfold request_canon, in_import in Hc. cbv zeta in Hc. unfold register_plan. cbv zeta.
  apply bind_Ok in Hc as ([d modified] & Hpop & Hc). rewrite Hpop. cbn [mbind result_bind]. rewrite Hc. cbn [mbind result_bind].
  assert (d_id d = d_id (rg_draft m) ∧ d_version d = d_version (rg_draft m)) as [Ei Ev].
  { destruct (bool_decide _); [by injection Hpop as <- _|by eapply populate_keeps]. }
  unfold find_stored. cbv zeta. rewrite Hh, Ei. rewrite (bool_decide_eq_true_2 (d_id (rg_draft m) < 0)) by done.
  cbn [orb]. rewrite Ev, Hv, Hd, (bool_decide_eq_true_2 (0 = 0)) by done. cbn [andb negb mbind result_bind].
  eexists. split_and!; [done..|]. cbn [output PlanM.new]. by rewrite answer_id.
Qed.

End register.

(** * Witnesses *)

Definition fresh_view : ReadView := read_view fresh_registry 7 "guid".
Lemma demo_plan_eq : register_plan (demo_register "orders" "a") fresh_view = Ok demo_plan.
Proof. vm_compute; reflexivity. Qed.
Lemma fresh_view_wf : snap_wf (rd_snap (vw_reader fresh_view)).
Proof. apply empty_snap_wf. Qed.
Lemma fresh_id_space : id_space (rd_snap (vw_reader fresh_view)).
Proof. intros ctx. unfold Snap.next_id; simpl. rewrite lookup_empty. vm_compute. split; [discriminate|reflexivity]. Qed.
Lemma demo_typed subj text : is_i32 (d_id (rg_draft (demo_register subj text))).
Proof. vm_compute. split; discriminate. Qed.

Lemma register_effect_witness :
  ∃ c version rec, request_canon (demo_register "orders" "a") fresh_view = Ok (Some c) ∧ c_text c = "a" ∧
    registered_state empty_snap (Snap.apply_all empty_snap (plan_ops (writes demo_plan)))
      (vw_reader fresh_view) (mkQ "." "orders") version 1 7 (canon_fingerprint c) ∧
    WPutSchema "." 1 rec true ∈ writes demo_plan ∧ holds_content rec c.
Proof.
  destruct (register_effect (demo_register "orders" "a") fresh_view demo_plan (demo_typed _ _) fresh_view_wf
    fresh_id_space demo_plan_eq) as (c & Hc & [[Hw _]|(version & rec & Hs & Hin & _ & Hbody & _)]).
  - exfalso. revert Hw. vm_compute. discriminate.
  - exists c, version, rec. split_and!; [exact Hc| |exact Hs|exact Hin|].
    + vm_compute in Hc. injection Hc as <-. reflexivity.
    + destruct Hbody as [Hb|Hb]; [exact Hb|]. exfalso. revert Hb. vm_compute. discriminate.
Defined.

(** The registry after its first registration. *)
Definition second_view : ReadView := read_view demo_registered 9 "guid2".
Lemma second_view_wf : snap_wf (rd_snap (vw_reader second_view)).
Proof. destruct (history_ok _ _ demo_history fresh_registry_ok) as (floor & log & Hi). apply Hi. Qed.
Lemma second_id_space : id_space (rd_snap (vw_reader second_view)).
Proof.
  intros ctx. change (rd_snap (vw_reader second_view)) with (reg_snap demo_registered).
  assert (reg_snap demo_registered = Snap.apply (Snap.apply_all empty_snap (plan_ops (writes demo_plan))) (OpSetLogSeq 1)) as ->
    by (vm_compute; reflexivity).
  rewrite next_id_apply. destruct (register_plan_inv _ _ _ demo_plan_eq) as [(Hw & _)|(d & c & sid & v & id & Hn)].
  { exfalso. revert Hw. vm_compute. discriminate. }
  assert (id = 1) as ->.
  { destruct (rn_output _ _ _ _ _ _ _ _ Hn) as [b Hb]. transitivity (rs_id (output demo_plan)); [|vm_compute; reflexivity].
    by rewrite Hb, answer_id. }
  pose proof (ra_next _ _ _ _ _ _ _ _ (registration_state _ _ _ _ _ _ _ _ Hn (demo_typed _ _) fresh_view_wf fresh_id_space) ctx) as Hnext.
  change (rd_snap (vw_reader fresh_view)) with empty_snap in Hnext. rewrite Hnext.
  pose proof (fresh_id_space ctx) as Hf. change (rd_snap (vw_reader fresh_view)) with empty_snap in Hf.
  unfold u32_max in *. destruct (decide _); lia.
Qed.
Definition plan_of (m : RegisterSchema) (view : ReadView) : Plan RegisterResponse :=
  match register_plan m view with Ok p => p | Err _ => mkPlan [] [] (response_id 0) end.
Definition demo_body : SchemaRecord := mkSchemaRecord Avro "a" [] None None (sr_fingerprint (
  match writes demo_plan with WPutSchema _ _ rec _ :: _ => rec | _ => demo_record end)) (sr_fingerprint (
  match writes demo_plan with WPutSchema _ _ rec _ :: _ => rec | _ => demo_record end)) "guid".

(** The same content under a second subject shares the id and its body. *)
Lemma register_never_overwrites_witness :
  WPutSchema "." 1 demo_body true ∈ writes (plan_of (demo_register "users" "a") second_view) ∧ demo_body = demo_body.
Proof.
  assert (WPutSchema "." 1 demo_body true ∈ writes (plan_of (demo_register "users" "a") second_view)) as Hin.
  { apply (list_elem_of_lookup_2 _ 0). vm_compute; reflexivity. }
  split; [exact Hin|].
  refine (register_never_overwrites (demo_register "users" "a") second_view (plan_of (demo_register "users" "a") second_view)
    "." 1 demo_body true demo_body second_view_wf _ Hin _ _).
  - vm_compute; reflexivity.
  - vm_compute; discriminate.
  - vm_compute; reflexivity.
Defined.

(** A first schema gets the first id; the same content in another subject, the
    id it has. *)
Lemma register_allocates_fresh_witness :
  rs_id (output demo_plan) = 1 ∧ Snap.next_id (Snap.apply_all empty_snap (plan_ops (writes demo_plan))) "." = 2 ∧
  rs_id (output (plan_of (demo_register "users" "a") second_view)) = 1.
Proof.
  destruct (register_allocates_fresh (demo_register "orders" "a") fresh_view demo_plan fresh_view_wf fresh_id_space
    (demo_typed _ _) ltac:(reflexivity) demo_plan_eq ltac:(vm_compute; discriminate)) as (c & Hc & [(id0 & Hf & _)|(Hid & _ & Hn)]).
  - exfalso. revert Hf. unfold Snap.id_for_fingerprint; simpl. rewrite lookup_empty. discriminate.
  - split_and!; [exact Hid|exact Hn|].
    destruct (register_allocates_fresh (demo_register "users" "a") second_view (plan_of (demo_register "users" "a") second_view)
      second_view_wf second_id_space (demo_typed _ _) ltac:(reflexivity) ltac:(vm_compute; reflexivity) ltac:(vm_compute; discriminate))
      as (c' & Hc' & [(id0 & Hf & -> & _)|(_ & Hu & _)]).
    + vm_compute in Hc'. injection Hc' as <-. vm_compute in Hf. injection Hf as <-. reflexivity.
    + exfalso. revert Hu. vm_compute. discriminate.
Defined.

Lemma register_version_above_witness :
  "." = "." ∧ "orders" = "orders" ∧ 1 ≤ 1 ∧ ∀ v', v' ∈ (versions_of (vw_reader fresh_view) (mkQ "." "orders")).*1 → v' < 1.
Proof.
  apply (register_version_above (demo_register "orders" "a") fresh_view demo_plan "." "orders" 1 (mkVersion 1 false 7) fresh_view_wf).
  - vm_compute; reflexivity.
  - intros v' Hv'. exfalso. revert Hv'. change ((versions_of _ _).*1) with (@nil Z). apply not_elem_of_nil.
  - vm_compute. split; discriminate.
  - exact demo_plan_eq.
  - apply (list_elem_of_lookup_2 _ 2). vm_compute; reflexivity.
Defined.

(** The same schema with a description: a new, compatible version. *)
Definition demo_described : RegisterSchema :=
  mkRegister (mkQ "." "orders") (mkDraft (Some "a") None [] (Some (VObject [("tags", VObject [("x", VNull)])])) None 0 (-1)) false.


(** The view once the first registration is committed, and the same request. *)
Definition demo_after : ReadView :=
  mkReadView (mkReader (mkSettings Backward false) (Snap.apply_all empty_snap (plan_ops (writes demo_plan)))
    (λ _ _, Ok (Some demo_body)) (λ _, None) (λ _, None)) 8 "guid2" (λ _, Ok None).

