(* ===== verification/Deletes.v ===== *)
(** Deletes (mutations/delete_subject.rs, delete_subject_version.rs,
    set_mode.rs): the two stages of deletion, and what is protected from it. *)
From S2P Require Import Prelude SortedVec RustStr Errors Json Model Context Snapshot Keys Plan Store Durable Transaction MemDb Changelog Recovery SchemaLayer JavaOrder Views Registry Queries Mutations ExporterVerbs Engine VerbSafety Consistency Register.

Local Open Scope Z_scope.

Lemma apply_all_app s a b : Snap.apply_all s (a ++ b) = Snap.apply_all (Snap.apply_all s a) b.
Proof. apply foldl_app. Qed.

Section deletes.
Context {formats : SchemaFormats}.
Implicit Types view : ReadView.

(** ** Live referrers *)

(** A version of [ctx] that is not deleted uses [id]. *)
Definition live_id (s : Snapshot) (ctx : string) (id : Z) : Prop :=
  ∃ subj v vr, Snap.get_version s ctx subj v = Some vr ∧ vr_id vr = id ∧ vr_deleted vr = false.

Lemma elem_of_live_referrers r ctx subj v id : snap_wf (rd_snap r) →
  id ∈ live_referrers r ctx subj v ↔
  id ∈ Snap.referenced_by (rd_snap r) ctx subj v ∧ live_id (rd_snap r) ctx id.
Proof.
  intros Hwf. unfold live_referrers. unfold sort_vec.
  rewrite elem_of_dedup, merge_sort_Permutation, list_elem_of_In, filter_In, <-list_elem_of_In.
  f_equiv. rewrite existsb_exists. unfold live_id, live_usage. split.
  - intros ([subj' v'] & Hin & Hl). apply list_elem_of_In in Hin. simpl in Hl.
    destruct (Snap.get_version _ _ _ _) as [vr|] eqn:Hv; [|done]. apply negb_true_iff in Hl.
    rewrite id_usages_ctx in Hin. apply (wf_exact _ (wf_ctx _ Hwf _)) in Hin as (vr' & Hv' & <-).
    rewrite get_version_ctx, Hv' in Hv. injection Hv as ->. exists subj', v', vr. by rewrite get_version_ctx.
  - intros (subj' & v' & vr & Hv & <- & Hl). exists (subj', v'). split.
    + apply list_elem_of_In. rewrite id_usages_ctx. apply (wf_exact _ (wf_ctx _ Hwf _)). exists vr. by rewrite <-get_version_ctx.
    + simpl. by rewrite Hv, Hl.
Qed.

(** What may be deleted: nothing live in its context refers to it. *)
Definition unreferenced (s : Snapshot) (ctx subj : string) (v : Z) : Prop :=
  ∀ id, id ∈ Snap.referenced_by s ctx subj v → ¬ live_id s ctx id.

Lemma check_not_referenced_Ok r q v u : snap_wf (rd_snap r) →
  check_not_referenced r q v = Ok u ↔ unreferenced (rd_snap r) (context q) (subject q) v.
Proof.
  intros Hwf. unfold check_not_referenced. rewrite refuse_Ok, negb_false_iff, bool_decide_eq_true. split.
  - intros Hnil id Hr Hl. assert (id ∈ live_referrers r (context q) (subject q) v) as Hin.
    { by apply elem_of_live_referrers. } rewrite Hnil in Hin. by apply elem_of_nil in Hin.
  - intros Hu. destruct (live_referrers _ _ _ _) as [|id l] eqn:E; [done|].
    assert (id ∈ live_referrers r (context q) (subject q) v) as Hin by (rewrite E; by left).
    apply elem_of_live_referrers in Hin as [Hr Hl]; [|done]. by destruct (Hu id).
Qed.

Lemma check_deletable_Ok r q permanent vs u : snap_wf (rd_snap r) →
  check_deletable r q permanent vs = Ok u ↔
  ∀ v vr, (v, vr) ∈ vs → unreferenced (rd_snap r) (context q) (subject q) v ∧ (permanent = true → vr_deleted vr = true).
Proof.
  intros Hwf. destruct u. induction vs as [|[v vr] vs IH]; cbn [check_deletable].
  { split; [|done]. by intros _ v vr ?%elem_of_nil. }
  rewrite !bind_unit_Ok, check_not_referenced_Ok, refuse_Ok, IH by done. split.
  - intros (Hu & Hp & Hall) v' vr' [[= -> ->]|Hin]%elem_of_cons; [|by apply Hall]. split; [done|].
    intros ->. by destruct (vr_deleted vr).
  - intros Hall. destruct (Hall v vr) as [Hu Hp]; [by left|]. split_and!; [done| |intros; apply Hall; by right].
    destruct permanent; [|done]. by rewrite Hp.
Qed.

(** ** Soft deletes of a list of versions *)

Definition soft (vr : VersionRecord) : VersionRecord := mkVersion (vr_id vr) true (vr_ts vr).

Lemma soft_deletes_versions s q (vs : versions_t) ctx subj v : snap_wf s → NoDup vs.*1 →
  (∀ v vr, (v, vr) ∈ vs → Snap.get_version s (context q) (subject q) v = Some vr) →
  let s' := Snap.apply_all s (plan_ops (map (λ x, soft_delete_write q x.1 x.2) vs)) in
  snap_wf s' ∧ config s' = config s ∧ mode s' = mode s ∧
  Snap.get_version s' ctx subj v =
    if decide (ctx = context q ∧ subj = subject q ∧ v ∈ vs.*1) then soft <$> Snap.get_version s ctx subj v
    else Snap.get_version s ctx subj v.
Proof.
  revert s. induction vs as [|[v0 vr0] vs IH]; intros s Hwf Hnd Hvs.
  { split_and!; [done..|]. rewrite decide_False; [done|]. by intros (_ & _ & ?%elem_of_nil). }
  apply NoDup_cons in Hnd as [Hni Hnd]. cbn [fst] in Hni.
  set (op := OpPutVersion (context q) (subject q) v0 (soft vr0)).
  change (Snap.apply_all s (plan_ops (map _ ((v0, vr0) :: vs))))
    with (Snap.apply_all (Snap.apply s op) (plan_ops (map (λ x, soft_delete_write q x.1 x.2) vs))).
  assert (Snap.get_version s (context q) (subject q) v0 = Some vr0) as Hv0 by (apply Hvs; by left).
  assert (snap_wf (Snap.apply s op)) as Hwf'.
  { apply apply_wf; [done|]. simpl. rewrite next_id_ctx. rewrite get_version_ctx in Hv0. by apply (wf_counter s Hwf) in Hv0. }
  assert (∀ v, v ≠ v0 → Snap.get_version (Snap.apply s op) (context q) (subject q) v =
    Snap.get_version s (context q) (subject q) v) as Hother.
  { intros v' Hv'. unfold op. rewrite get_version_apply by done. by rewrite decide_False by naive_solver. }
  destruct (IH (Snap.apply s op) Hwf' Hnd) as (Hwf2 & Hc & Hm & Hv).
  { intros v' vr' Hin. rewrite Hother; [apply Hvs; by right|]. intros ->. apply Hni.
    apply list_elem_of_fmap. by exists (v0, vr'). }
  split_and!; [done|by rewrite Hc|by rewrite Hm|]. rewrite Hv.
  assert (Snap.get_version (Snap.apply s op) ctx subj v =
    if decide (ctx = context q ∧ subj = subject q ∧ v = v0) then Some (soft vr0) else Snap.get_version s ctx subj v) as ->.
  { unfold op. by rewrite get_version_apply. }
  rewrite fmap_cons. cbn [fst].
  destruct (decide (ctx = context q ∧ subj = subject q ∧ v ∈ vs.*1)) as [(-> & -> & Hin)|Hnin].
  - rewrite (decide_True _ _ (P := _ ∧ _ ∧ v ∈ v0 :: vs.*1)) by (by rewrite elem_of_cons; auto).
    rewrite decide_False; [done|]. intros (_ & _ & ->). done.
  - destruct (decide (ctx = context q ∧ subj = subject q ∧ v = v0)) as [(-> & -> & ->)|Hne].
    + rewrite decide_True by (by rewrite elem_of_cons; auto). by rewrite Hv0.
    + rewrite decide_False; [done|]. rewrite elem_of_cons. naive_solver.
Qed.

Lemma versions_NoDup r q : snap_wf (rd_snap r) → NoDup (versions_of r q).*1.
Proof.
  intros Hwf. unfold versions_of. rewrite list_versions_ctx.
  destruct (subjects _ !! _) as [vs|] eqn:E; [|constructor].
  apply small_sorted_NoDup. by eapply (wf_versions _ (wf_ctx _ Hwf _)).
Qed.

(** ** Deleting a subject *)

Lemma delete_subject_inv m view p : delete_subject_plan m view = Ok p → snap_wf (rd_snap (vw_reader view)) →
  let r := vw_reader view in let q := ds_subject m in
  has_subjects r q true = true ∧ (ds_permanent m = false → has_subjects r q false = true) ∧
  let versions := filter (λ x, ds_permanent m || negb (vr_deleted x.2) = true) (versions_of r q) in
  output p = versions.*1 ∧
  (∀ v vr, (v, vr) ∈ versions → unreferenced (rd_snap r) (context q) (subject q) v ∧ (ds_permanent m = true → vr_deleted vr = true)) ∧
  (if ds_permanent m
   then hard_delete_all r (map (λ x, (q, x.1, x.2)) versions) (list_to_set (map (λ x, (subject q, x.1)) versions)) = Ok (writes p, events p)
   else writes p = map (λ x, soft_delete_write q x.1 x.2) versions ++ drop_settings q ∧
        events p = map (λ x, soft_delete_event q x.1 x.2) versions).
Proof.
  intros Hp Hwf r q. revert Hp. unfold delete_subject_plan. cbv zeta. fold r q.
  intros Hp. apply bind_unit_Ok in Hp as [H1 Hp]. apply bind_unit_Ok in Hp as [H2 Hp]. apply bind_unit_Ok in Hp as [H3 Hp].
  apply bind_Ok in Hp as ([ws evs] & Hws & [= <-]).
  apply refuse_Ok in H1, H2. rewrite check_deletable_Ok in H3 by exact Hwf.
  split_and!; [by apply negb_false_iff| |done|exact H3|].
  - intros Hperm. rewrite Hperm in H2. by apply negb_false_iff.
  - destruct (ds_permanent m); [exact Hws|]. injection Hws as <- <-. done.
Qed.

(** Soft-deleting a subject marks exactly its versions as deleted - ids
    and times kept -, answers the versions that were live, drops the
    subject's own mode and configuration, and touches no other subject. *)
Theorem delete_subject_soft m view p :
  snap_wf (rd_snap (vw_reader view)) → ds_permanent m = false → delete_subject_plan m view = Ok p →
  let s := rd_snap (vw_reader view) in let q := ds_subject m in
  let s' := Snap.apply_all s (plan_ops (writes p)) in
  output p = (filter (λ x, vr_deleted x.2 = false) (versions_of (vw_reader view) q)).*1 ∧
  (∀ ctx subj v, Snap.get_version s' ctx subj v =
     if decide (ctx = context q ∧ subj = subject q) then soft <$> Snap.get_version s ctx subj v
     else Snap.get_version s ctx subj v) ∧
  (∀ scope, Snap.get_config s' scope = if decide (scope = SubjectScope (context q) (subject q)) then None else Snap.get_config s scope) ∧
  (∀ scope, Snap.get_mode s' scope = if decide (scope = SubjectScope (context q) (subject q)) then None else Snap.get_mode s scope).
Proof.
  intros Hwf Hperm Hp s q s'. destruct (delete_subject_inv m view p Hp Hwf) as (_ & _ & Hout & _ & Hws). fold q in Hout, Hws.
  rewrite Hperm in Hout, Hws. cbn [orb] in Hout, Hws. destruct Hws as [Hws _].
  set (vs := filter (λ x, negb (vr_deleted x.2) = true) (versions_of (vw_reader view) q)) in *.
  assert (∀ v vr, (v, vr) ∈ vs ↔ Snap.get_version s (context q) (subject q) v = Some vr ∧ vr_deleted vr = false) as Hvs.
  { intros v vr. unfold vs. rewrite list_elem_of_filter. simpl. unfold versions_of.
    rewrite negb_true_iff, list_versions_get by done. fold s. tauto. }
  assert (NoDup vs.*1) as Hnd.
  { eapply sublist_NoDup; [by apply versions_NoDup|]. apply fmap_sublist, sublist_filter. }
  split_and!.
  - rewrite Hout. f_equal. unfold vs. apply list_filter_iff. intros x. by rewrite negb_true_iff.
  - intros ctx subj v. unfold s'. rewrite Hws, plan_ops_app, apply_all_app.
    pose proof (soft_deletes_versions s q vs ctx subj v Hwf Hnd (λ v vr Hin, proj1 (proj1 (Hvs v vr) Hin))) as (Hwf1 & _ & _ & Hv).
    rewrite get_version_silent; [|done|by repeat split|by repeat constructor]. rewrite Hv.
    destruct (decide (ctx = context q ∧ subj = subject q)) as [[-> ->]|Hne]; [|by rewrite decide_False by naive_solver].
    destruct (decide (_ ∧ _ ∧ _)) as [|Hnin]; [done|].
    destruct (Snap.get_version s (context q) (subject q) v) as [vr|] eqn:E; [|done]. simpl. f_equal.
    destruct (vr_deleted vr) eqn:Hd; [destruct vr; simpl in *; by subst|].
    destruct Hnin. split_and!; [done..|]. apply list_elem_of_fmap. exists (v, vr). split; [done|]. by apply Hvs.
  - intros scope. unfold s'. rewrite Hws, plan_ops_app, apply_all_app.
    pose proof (soft_deletes_versions s q vs "" "" 0 Hwf Hnd (λ v vr Hin, proj1 (proj1 (Hvs v vr) Hin))) as (_ & Hc & _ & _).
    unfold Snap.get_config. simpl. rewrite Hc. destruct (decide _) as [->|]; [by rewrite lookup_delete_eq|by rewrite lookup_delete_ne].
  - intros scope. unfold s'. rewrite Hws, plan_ops_app, apply_all_app.
    pose proof (soft_deletes_versions s q vs "" "" 0 Hwf Hnd (λ v vr Hin, proj1 (proj1 (Hvs v vr) Hin))) as (_ & _ & Hm & _).
    unfold Snap.get_mode. simpl. rewrite Hm. destruct (decide _) as [->|]; [by rewrite lookup_delete_eq|by rewrite lookup_delete_ne].
Qed.

(** Deletion has two stages: a subject is removed for good only when
    every version of it was soft-deleted before; then all its versions are
    gone, all their numbers are answered, and no other subject is touched. *)
Theorem delete_subject_hard m view p :
  snap_wf (rd_snap (vw_reader view)) → ds_permanent m = true → delete_subject_plan m view = Ok p →
  let s := rd_snap (vw_reader view) in let q := ds_subject m in
  output p = (versions_of (vw_reader view) q).*1 ∧
  (∀ v vr, Snap.get_version s (context q) (subject q) v = Some vr → vr_deleted vr = true) ∧
  (∀ ctx subj v, Snap.get_version (Snap.apply_all s (plan_ops (writes p))) ctx subj v =
     if decide (ctx = context q ∧ subj = subject q) then None else Snap.get_version s ctx subj v).
Proof.
  intros Hwf Hperm Hp s q. destruct (delete_subject_inv m view p Hp Hwf) as (_ & _ & Hout & Hdel & Hws).
  rewrite Hperm in Hout, Hws, Hdel. cbn [orb] in Hout, Hws, Hdel. fold q in Hout, Hws, Hdel.
  assert (filter (λ x : Z * VersionRecord, true = true) (versions_of (vw_reader view) q) = versions_of (vw_reader view) q) as Hall.
  { generalize (versions_of (vw_reader view) q). intros l. induction l; [done|]. rewrite filter_cons_True by done. by f_equal. }
  rewrite Hall in Hout, Hws, Hdel. split_and!; [done| |].
  - intros v vr Hv. apply (Hdel v vr); [|done]. by apply list_versions_get.
  - intros ctx subj v.
    rewrite get_version_removes, (hard_delete_all_deletes _ _ _ _ _ Hws); [|done|].
    2: { eapply hard_delete_all_removes; [exact Hws|]. apply Forall_forall. intros x Hx.
         apply list_elem_of_fmap in Hx as ([v' vr] & -> & Hx). by apply list_versions_get. }
    rewrite map_map. destruct (decide (ctx = context q ∧ subj = subject q)) as [[-> ->]|Hne].
    + destruct (decide (_ ∈ _)) as [|Hnin]; [done|]. fold s.
      destruct (Snap.get_version s (context q) (subject q) v) as [vr|] eqn:E; [|done]. destruct Hnin.
      apply list_elem_of_fmap. exists (v, vr). split; [done|]. by apply list_versions_get.
    + rewrite decide_False; [done|]. intros Hin. apply list_elem_of_fmap in Hin as (x & [= -> -> _] & _). by apply Hne.
Qed.

(** ** Deleting one version *)

Lemma delete_version_inv m view p : delete_version_plan m view = Ok p → snap_wf (rd_snap (vw_reader view)) →
  let r := vw_reader view in let q := dv_subject m in
  ∃ version vr, get_exact r q (dv_spec m) true = Some (version, vr) ∧ output p = version ∧
    Snap.get_version (rd_snap r) (context q) (subject q) version = Some vr ∧
    unreferenced (rd_snap r) (context q) (subject q) version ∧ vr_deleted vr = dv_permanent m ∧
    (if dv_permanent m
     then ∃ ev, hard_delete_writes r q version vr ∅ = Ok (writes p, ev) ∧ events p = [ev]
     else writes p = soft_delete_write q version vr ::
            (if existsb (λ x, bool_decide (x.1 ≠ version) && negb (vr_deleted x.2)) (versions_of r q) then [] else drop_settings q) ∧
          events p = [soft_delete_event q version vr]).
Proof.
  intros Hp Hwf r q. revert Hp. unfold delete_version_plan. cbv zeta. fold r q.
  destruct (get_exact r q (dv_spec m) true) as [[version vr]|] eqn:Hex; [|done]. intros Hp.
  apply bind_unit_Ok in Hp as [H1 Hp]. apply bind_unit_Ok in Hp as [H2 Hp]. apply bind_unit_Ok in Hp as [H3 Hp].
  apply refuse_Ok in H1, H3. rewrite check_not_referenced_Ok in H2 by exact Hwf.
  destruct (get_exact_in _ _ _ _ _ _ Hex) as (Hin & Hspec & Hlive). apply list_versions_get in Hin; [|exact Hwf].
  exists version, vr.
  assert (vr_deleted vr = dv_permanent m) as Hdel.
  { destruct (dv_permanent m); cbn [andb negb] in *; [by apply negb_false_iff in H3|].
    apply bool_decide_eq_false in H1. destruct (get_exact r q (dv_spec m) false) as [[v' vr']|] eqn:Hex'; [|done].
    destruct (get_exact_in _ _ _ _ _ _ Hex') as (Hin' & Hspec' & Hlive'). apply list_versions_get in Hin'; [|exact Hwf].
    destruct Hspec as [Hs|Hs]; [by apply Hlive; left|]. destruct Hspec' as [Hs'|Hs']; [congruence|].
    assert (version = v') as <- by congruence. assert (vr = vr') as -> by congruence. apply Hlive'. by right. }
  split_and!; try done; destruct (dv_permanent m).
  - apply bind_Ok in Hp as ([ws ev] & Hws & [= <-]). done.
  - by injection Hp as <-.
  - apply bind_Ok in Hp as ([ws ev] & Hws & [= <-]). by exists ev.
  - by injection Hp as <-.
Qed.

(** Deleting a version touches that version alone, in two stages: a live
    one is marked (id and time kept), a marked one is removed for good, and
    no request does both at once. *)
Theorem delete_version_effect m view p :
  snap_wf (rd_snap (vw_reader view)) → delete_version_plan m view = Ok p →
  let s := rd_snap (vw_reader view) in let q := dv_subject m in
  ∃ vr, Snap.get_version s (context q) (subject q) (output p) = Some vr ∧ vr_deleted vr = dv_permanent m ∧
    ∀ ctx subj v, Snap.get_version (Snap.apply_all s (plan_ops (writes p))) ctx subj v =
      if decide (ctx = context q ∧ subj = subject q ∧ v = output p)
      then (if dv_permanent m then None else Some (soft vr)) else Snap.get_version s ctx subj v.
Proof.
  intros Hwf Hp s q. destruct (delete_version_inv m view p Hp Hwf) as (version & vr & _ & -> & Hv & _ & Hd & Hws).
  exists vr. split_and!; [done..|]. intros ctx subj v. fold s q in Hv, Hws. destruct (dv_permanent m).
  - destruct Hws as (ev & Hws & _). rewrite get_version_removes; [|done|by eapply hard_delete_removes].
    assert (omap op_deletes (plan_ops (writes p)) = [(context q, subject q, version)]) as ->.
    { apply hard_delete_shape in Hws as (_ & extra & -> & Hextra). rewrite plan_ops_cons, omap_app.
      assert (omap op_deletes (plan_ops extra) = []) as ->; [|done].
      induction Hextra as [|w extra Hw _ IHe]; [done|]. rewrite plan_ops_cons, omap_app, IHe. by destruct w. }
    destruct (decide (_ ∈ _)) as [Hin|Hnin].
    + apply list_elem_of_singleton in Hin as [= -> -> ->]. by rewrite decide_True.
    + rewrite decide_False; [done|]. intros (-> & -> & ->). apply Hnin. by left.
  - destruct Hws as [Hws _]. rewrite Hws, plan_ops_cons, apply_all_app.
    pose proof (soft_deletes_versions s q [(version, vr)] ctx subj v Hwf (NoDup_singleton _)) as (Hwf1 & _ & _ & Hv1).
    { intros v' vr' Hin. apply list_elem_of_singleton in Hin. by simplify_eq. }
    change (write_ops (soft_delete_write q version vr))
      with (plan_ops (map (λ x : Z * VersionRecord, soft_delete_write q x.1 x.2) [(version, vr)])).
    rewrite get_version_silent; [|done|destruct (existsb _ _); by repeat split|destruct (existsb _ _); by repeat constructor].
    rewrite Hv1. cbn [fmap list_fmap fst]. destruct (decide (_ ∧ _ ∧ _)) as [(-> & -> & Hin)|Hne].
    + apply list_elem_of_singleton in Hin as ->. rewrite decide_True by done. cbn [fst]. by rewrite Hv.
    + rewrite decide_False; [done|]. intros (-> & -> & ->). apply Hne. split_and!; [done..|]. by left.
Qed.

(** ** References are protected *)

Lemma check_none_referenced_Ok r l u : snap_wf (rd_snap r) → check_none_referenced r l = Ok u →
  ∀ q v vr, (q, v, vr) ∈ l → unreferenced (rd_snap r) (context q) (subject q) v.
Proof.
  intros Hwf. destruct u. induction l as [|[[q v] vr] l IH]; cbn [check_none_referenced].
  { by intros _ q v vr ?%elem_of_nil. }
  rewrite bind_unit_Ok, check_not_referenced_Ok by done. intros [Hu Hl] q' v' vr' [[= -> -> ->]|Hin]%elem_of_cons; [done|].
  by eapply IH.
Qed.

Lemma hard_delete_all_changes r l also ws evs c : hard_delete_all r l also = Ok (ws, evs) →
  c ∈ omap op_change (plan_ops ws) → ∃ q v vr, (q, v, vr) ∈ l ∧ c = (context q, subject q, v, None).
Proof.
  unfold hard_delete_all. intros Hd. apply bind_Ok in Hd as (xs & Hxs & [= <- <-]). apply mapM_result_Ok in Hxs.
  induction Hxs as [|[[q v] vr] [ws ev] l k Hx _ IH]; [by intros ?%elem_of_nil|].
  change (concat ((ws, ev) :: k).*1) with (ws ++ concat k.*1). rewrite omap_plan_ops_app, elem_of_app.
  pose proof (hard_delete_logged _ _ _ _ _ _ _ Hx) as ->. apply hard_delete_shape in Hx as (-> & _).
  intros [Hin|Hin].
  - apply list_elem_of_singleton in Hin as ->. exists q, v, vr. split; [by left|done].
  - destruct (IH Hin) as (q' & v' & vr' & Hin' & ->). exists q', v', vr'. split; [by right|done].
Qed.

End deletes.

(** * Witnesses *)

(** A view on a snapshot with one version, live or soft-deleted. *)
Definition one_version (deleted : bool) : Snapshot :=
  Snap.apply_all empty_snap [OpSetNextId "." 2; OpPutVersion "." "orders" 1 (mkVersion 1 deleted 7)].
Definition one_view (deleted : bool) : ReadView :=
  mkReadView (mkReader (mkSettings Backward false) (one_version deleted) (λ _ _, Ok (Some demo_body)) (λ _, None) (λ _, None))
    9 "" (λ _, Ok None).
Lemma one_version_wf deleted : snap_wf (one_version deleted).
Proof.
  apply apply_all_wf; [apply empty_snap_wf|]. split; [vm_compute; discriminate|]. split; [|exact I].
  destruct deleted; vm_compute; reflexivity.
Qed.
Definition delete_orders (permanent : bool) : DeleteSubject := mkDeleteSubject (mkQ "." "orders") permanent.
Definition delete_orders_1 (permanent : bool) : DeleteSubjectVersion := mkDeleteVersion (mkQ "." "orders") (Exact 1) permanent.
Definition ok_plan {A} (d : A) (m : Outcome (Plan A)) : Plan A := match m with Ok p => p | Err _ => mkPlan [] [] d end.

Lemma delete_subject_soft_witness :
  let p := ok_plan [] (delete_subject_plan (delete_orders false) (one_view false)) in
  output p = [1] ∧ Snap.get_version (Snap.apply_all (one_version false) (plan_ops (writes p))) "." "orders" 1 = Some (mkVersion 1 true 7).
Proof.
  intros p. destruct (delete_subject_soft (delete_orders false) (one_view false) p (one_version_wf false) eq_refl
    ltac:(vm_compute; reflexivity)) as (Hout & Hv & _).
  split; [rewrite Hout; vm_compute; reflexivity|]. rewrite Hv. vm_compute; reflexivity.
Defined.

Lemma delete_subject_hard_witness :
  let p := ok_plan [] (delete_subject_plan (delete_orders true) (one_view true)) in
  output p = [1] ∧ Snap.get_version (Snap.apply_all (one_version true) (plan_ops (writes p))) "." "orders" 1 = None.
Proof.
  intros p. destruct (delete_subject_hard (delete_orders true) (one_view true) p (one_version_wf true) eq_refl
    ltac:(vm_compute; reflexivity)) as (Hout & _ & Hv).
  split; [rewrite Hout; vm_compute; reflexivity|]. rewrite Hv. vm_compute; reflexivity.
Defined.

Lemma delete_version_effect_witness :
  let p := ok_plan 0 (delete_version_plan (delete_orders_1 false) (one_view false)) in
  Snap.get_version (Snap.apply_all (one_version false) (plan_ops (writes p))) "." "orders" 1 = Some (mkVersion 1 true 7).
Proof.
  intros p. destruct (delete_version_effect (delete_orders_1 false) (one_view false) p (one_version_wf false)
    ltac:(vm_compute; reflexivity)) as (vr & Hvr & _ & Hv).
  rewrite Hv. vm_compute in Hvr. injection Hvr as <-. vm_compute; reflexivity.
Defined.

