(* ===== verification/Findings.v ===== *)
(** Runs of the whole registry that show where it does not do what it means to.
    Each is a history of engine runs on an in-memory database, evaluated. *)
From S2P Require Import Prelude SortedVec RustStr Errors Json Model Context Snapshot Keys Plan Store Durable Transaction MemDb Changelog Recovery SchemaLayer JavaOrder Views Registry Queries Mutations ExporterVerbs Engine VerbSafety Consistency Register Deletes.

Local Open Scope Z_scope.

Definition register_in (ctx subj text : string) (refs : list RefIn.t) (id : Z) : RegisterSchema :=
  mkRegister (mkQ ctx subj) (mkDraft (Some text) None refs None None 0 id) false.
Definition a_ref (name subj : string) (version : Z) : RefIn.t := RefIn.from (mkRef name subj version).

(** ** References across contexts *)

(** [base] in context [.eu]; in the default context a first schema takes id 1
    and [user], which references [base], gets id 2. *)
Definition cross_registry : RegistryState MemDB :=
  request (request (request fresh_registry
    (register_in ".eu" "base" "a" [] (-1)))
    (register_in "." "other" "o" [] (-1)))
    (register_in "." "user" "u" [a_ref "base" ":.eu:base" 1] (-1)).

(** A reference into another context protects nothing: a live schema of
    the default context references version 1 of [base] in context [.eu], and
    yet that version can be deleted, because the referrer's id is looked up in
    the wrong context. *)
Theorem cross_context_reference_unprotected :
  (∃ rec, (get_body cross_registry "." 2).2 = Ok (Some rec) ∧ sr_references rec = [mkRef "base" ":.eu:base" 1]) ∧
  Snap.get_version (reg_snap cross_registry) "." "user" 1 = Some (mkVersion 2 false 7) ∧
  outcome cross_registry (mkDeleteVersion (mkQ ".eu" "base") (Exact 1) false) = Ok 1 ∧
  outcome (request cross_registry (mkDeleteVersion (mkQ ".eu" "base") (Exact 1) false))
    (mkDeleteVersion (mkQ ".eu" "base") (Exact 1) true) = Ok 1.
Proof. split; [eexists; split; vm_compute; reflexivity|]. split_and!; vm_compute; reflexivity. Qed.

(** ** Entering IMPORT mode *)

(** Two subjects share an id; both are soft-deleted. *)
Definition shared_registry : RegistryState MemDB :=
  request (request (request (request fresh_registry
    (register_in "." "a" "text" [] (-1)))
    (register_in "." "b" "text" [] (-1)))
    (mkDeleteSubject (mkQ "." "a") false))
    (mkDeleteSubject (mkQ "." "b") false).

(** Entering IMPORT mode removes every version but may keep their content:
    two deleted subjects that share an id each count the other as still using
    it, so the body stays in the store with nothing left that could free it. *)
Theorem import_purge_leaks_bodies :
  let after := request shared_registry (mkSetMode None Import false) in
  outcome shared_registry (mkSetMode None Import false) = Ok () ∧
  Snap.id_usages (reg_snap after) "." 1 = [] ∧
  ∃ rec, Store.get_schema (reg_store after) (reg_db after) "." 1 = Ok (Some rec).
Proof. cbv zeta. split_and!; [vm_compute; reflexivity..|]. eexists. vm_compute; reflexivity. Qed.

(** ** The cache of parsed schemas *)

(** The text imported under id 1 is read and parsed (by any compatibility
    check or formatted read) ... *)
Definition parsed_a : RegistryState MemDB := cache_acts imported_a [ReadBody "." 1; ParseStored 0 []; EndRead 0].
(** ... removed for good, and imported again with other content. *)
Definition reimported_b : RegistryState MemDB :=
  request (request (request parsed_a (mkDeleteVersion (mkQ "." "orders") (Exact 1) false))
    (mkDeleteVersion (mkQ "." "orders") (Exact 1) true)) (import_text "b").

(** The cache of parsed schemas can be stale: the content of an id is
    removed by a hard delete and may be imported again with other content, but
    the parsed form cached for a schema without references is kept, so the new
    content is judged by the parse of the old. *)
Theorem parsed_cache_goes_stale :
  ∃ rec, (get_body reimported_b "." 1).2 = Ok (Some rec) ∧ sr_schema rec = "b" ∧
    parse_with (sr_type rec) (sr_schema rec) [] false = Ok (demo_parsed "b") ∧
    parse_record (reader reimported_b) "." 1 rec = Ok (demo_parsed "a").
Proof. eexists. split; [vm_compute; reflexivity|]. split_and!; vm_compute; reflexivity. Qed.

(** ** Names *)

(** Scopes of settings can collide on disk: subjects of the settings verbs
    are not validated, so a name with a NUL byte can make the settings of two
    different subjects share one row. *)
Theorem scope_keys_collide :
  let nul := str1 NUL in
  ∃ q q', Qualified.parse (":.a" +:+ nul +:+ "b:c") = Ok q ∧ Qualified.parse (":.a:b" +:+ nul +:+ "c") = Ok q' ∧
    opt_scope (Some q) ≠ opt_scope (Some q') ∧
    ScopeKey.key (opt_scope (Some q)) = ScopeKey.key (opt_scope (Some q')).
Proof.
  cbv zeta. exists (mkQ (".a" +:+ str1 NUL +:+ "b") "c"), (mkQ ".a" ("b" +:+ str1 NUL +:+ "c")).
  split_and!; try (vm_compute; reflexivity). vm_compute. discriminate.
Qed.

(** A subject of the default context that prints like one of another. *)
Definition lookalike_registry : RegistryState MemDB :=
  match register_new ":.::.eu:orders" (mkRegisterRequest (Some "a") None None None None None None) false with
  | Ok m => request fresh_registry m
  | Err _ => fresh_registry
  end.

(** A subject with such a name makes the listing of its id panic: the name
    is printed, read back as another context's subject, and not found. *)
Theorem lookalike_subject_panics :
  Snap.get_version (reg_snap lookalike_registry) "." ":.eu:orders" 1 = Some (mkVersion 1 false 7) ∧
  id_versions (reader lookalike_registry) 1 None false = Err Panic.
Proof. split; vm_compute; reflexivity. Qed.
