(* ===== verification/Rewrite.v ===== *)
(** Request paths before routing (api/rewrite.rs, and the percent coding of
    api/mod.rs): the [/contexts/{ctx}/...] form, subject aliases, and the
    percent encodings the rewritten request is put back together with. *)
From S2P Require Import Prelude SortedVec RustStr Errors Json Model Context.

Open Scope string_scope.
Open Scope nat_scope.
Open Scope list_scope.

(** * Percent coding (api/mod.rs) *)

(** [(b as char).to_digit(16)]. *)
Definition hex (c : ascii) : option nat :=
  if is_ascii_digit c then Some (cval c - 48)
  else if in_range 65 70 c then Some (cval c - 55)
  else if in_range 97 102 c then Some (cval c - 87)
  else None.

(** The bytes [percent_decode] collects. *)
Fixpoint decode_bytes (s : string) : string :=
  match s with
  | EmptyString => ""
  | String c s' =>
      if decide (c = "+"%char) then String " " (decode_bytes s')
      else if decide (c = "%"%char) then
        match s' with
        | String h (String l r) =>
            match hex h, hex l with
            | Some h, Some l => String (byte (16 * h + l)) (decode_bytes r)
            | _, _ => String "%" (decode_bytes s')
            end
        | _ => String "%" (decode_bytes s')
        end
      else String c (decode_bytes s')
  end.

Definition percent_decode (s : string) : string := from_utf8_lossy (decode_bytes s).

(** [{b:02X}]. *)
Definition hex_digit (n : nat) : ascii := byte (if bool_decide (n < 10) then 48 + n else 55 + n).
Definition percent_byte (c : ascii) : string :=
  String "%" (String (hex_digit (cval c / 16)) (str1 (hex_digit (cval c mod 16)))).

(** The loop the three encoders share: bytes of the safe set as they are, any
    other as its escape. *)
Fixpoint encode_with (safe : ascii → bool) (s : string) : string :=
  match s with
  | EmptyString => ""
  | String c s => (if safe c then str1 c else percent_byte c) +:+ encode_with safe s
  end.

Definition one_of (set : string) (c : ascii) : bool := contains_char c set.

Definition percent_encode_segment (s : string) : string :=
  encode_with (λ c, is_ascii_alphanumeric c || one_of "-_.~:" c) s.

(** The two encoders of api/rewrite.rs. *)
Definition encode_segment (s : string) : string :=
  encode_with (λ c, is_ascii_alphanumeric c || one_of "-._~:*@!$&'()+,;=" c) s.
Definition encode_query_value (s : string) : string :=
  encode_with (λ c, is_ascii_alphanumeric c || one_of "-._~:*" c) s.

Abbreviation Pairs := (list (string * string)).

Definition query_pairs (q : string) : Pairs :=
  (λ kv, let (k, v) := default (kv, "") (split_once_char "=" kv) in (percent_decode k, percent_decode v))
    <$> filter (λ kv, kv ≠ "") (split_char "&" q).

(** * The context form (api/rewrite.rs) *)

Module Rewrite.
(** [QualifiedSubject.normalizeContext]. *)
Definition normalize_context (ctx : string) : result string string :=
  let c := default ctx (strip_prefix ":" ctx) in
  let c := default c (strip_suffix ":" c) in
  if contains_char ":" c then Err "Context name cannot contain a colon" else
  let c := if starts_with "." c then c else "." +:+ c in
  Ok (if decide (c = ".") then "" else ":" +:+ c +:+ ":").

Definition qualified (s : string) : bool := starts_with ":." s || starts_with ":*:" s.

(** The locals of [context_filter_path]'s loop. *)
Record filter_state := mkFilter {
  context_path_found : bool;
  context : string;
  config_or_mode_found : bool;
  subject_path_found : bool;
  out : string;
  is_first : bool }.

Definition filter_start : filter_state := mkFilter false "." false false "" true.

Definition filter_seg (st : filter_state) (seg : string) : result string filter_state :=
  let '(mkFilter found ctx cm subj out first) := st in
  if found then Ok (mkFilter false seg cm subj out first) else
  if decide (seg = "contexts") then Ok (mkFilter true ctx cm subj out first) else
  modified ← (if subj && negb (qualified seg)
              then p ← normalize_context ctx; Ok (p +:+ seg)
              else Ok seg);
  let root_config_or_mode := first && (bool_decide (seg = "config") || bool_decide (seg = "mode")) in
  let subj' := bool_decide (seg = "subjects") || bool_decide (seg = "deks") || root_config_or_mode in
  Ok (mkFilter false ctx (cm || root_config_or_mode) subj' (out +:+ modified +:+ "/")
        (first && bool_decide (seg = ""))).

Fixpoint filter_segs (st : filter_state) (segs : list string) : result string filter_state :=
  match segs with
  | [] => Ok st
  | seg :: segs => st' ← filter_seg st seg; filter_segs st' segs
  end.

(** [while segs.len() > 1 && segs.last() == Some("")], on the reversed list. *)
Fixpoint pop_empty (rev_segs : list string) : list string :=
  match rev_segs with
  | "" :: ((_ :: _) as rest) => pop_empty rest
  | _ => rev_segs
  end.

Definition context_filter_path (path : string) : result string (string * string) :=
  st ← filter_segs filter_start (reverse (pop_empty (reverse (split_char "/" path))));
  if config_or_mode_found st && subject_path_found st then
    nc ← normalize_context (context st);
    Ok (out st +:+ (if decide (nc = "") then "" else nc +:+ "/"), context st)
  else if context_path_found st then Ok (out st +:+ "contexts/", context st)
  else Ok (out st, context st).

Definition set_param (pairs : Pairs) (name : string) (values : list string) : Pairs :=
  filter (λ kv, kv.1 ≠ name) pairs ++ ((λ v, (name, v)) <$> values).

(** The first value under a name. *)
Definition find_param (pairs : Pairs) (name : string) : option string :=
  snd <$> head (filter (λ kv, kv.1 = name) pairs).

Definition context_filter_query (path context : string) (pairs : Pairs) : result string Pairs :=
  let p := trim_start_char "/" (trim_end_char "/" path) in
  prefix ← normalize_context context;
  if starts_with "schemas/ids" p then
    let subject := default "" (find_param pairs "subject") in
    if qualified subject then Ok pairs else Ok (set_param pairs "subject" [prefix +:+ subject])
  else if bool_decide (p = "schemas") || bool_decide (p = "subjects") || starts_with "keks" p then
    let found := snd <$> filter (λ kv, kv.1 = "subjectPrefix") pairs in
    let prefixes := match found with [] => [""] | _ => found end in
    Ok (set_param pairs "subjectPrefix" ((λ x, if qualified x then x else prefix +:+ x) <$> prefixes))
  else Ok pairs.

(** ** Aliases, and the whole rewriting *)

Section aliases.
(** The configured alias of a decoded subject, from the registry. *)
Context (alias_of : string → ApiResult (option string)).

Definition replace (raw decoded : string) : ApiResult (option string) :=
  if decide (raw = "") then Ok None else
  found ← alias_of decoded;
  match found with
  | None | Some "" => Ok None
  | Some alias =>
      match Qualified.parse alias, Qualified.parse raw with
      | Ok a, Ok parent =>
          let target :=
            if bool_decide (Context.context a = ".") && bool_decide (Context.context parent ≠ ".")
            then mkQ (Context.context parent) alias else a in
          Ok (Some (Qualified.qualified target))
      | _, _ => Ok None
      end
  end.

Fixpoint alias_segs (subject_path_found : bool) (out : string) (segs : list string) : ApiResult string :=
  match segs with
  | [] => Ok out
  | seg :: segs =>
      m ← (if subject_path_found then
             a ← replace seg (percent_decode seg);
             Ok (from_option encode_segment seg a)
           else Ok seg);
      alias_segs (bool_decide (seg = "subjects") || bool_decide (seg = "deks"))
        ((out +:+ "/") +:+ m) segs
  end.

Definition alias_filter (path : string) (pairs : Pairs) : ApiResult (string * Pairs) :=
  out ← alias_segs false "" (filter (λ s, s ≠ "") (split_char "/" path));
  let out := if decide (out = "") then "/" else out in
  if starts_with "schemas/ids" (trim_char "/" path) then
    let subject := default "" (find_param pairs "subject") in
    a ← replace subject subject;
    Ok (out, from_option (λ a, set_param pairs "subject" [a]) pairs a)
  else Ok (out, pairs).

(** [None] when there is nothing to clean. *)
Definition clean_path (path : string) : option string :=
  if bool_decide (find_str "//" path = None)
     && (bool_decide (String.length path ≤ 1) || negb (ends_with "/" path)) then None
  else Some ("/" +:+ join "/" (filter (λ s, s ≠ "") (split_char "/" path))).

(** The two pre-matching filters in their order. *)
Definition prematch (path : string) (query : option string) (is_delete_context : bool) : ApiResult string :=
  let path := default path (clean_path path) in
  let pairs := from_option query_pairs [] query in
  let bare := trim_start_char "/" path in
  '(path, pairs, changed) ←
    (if starts_with "contexts/" bare && negb is_delete_context then
       '(p, ctx) ← map_err (ApiErr.new 400) (context_filter_path bare);
       pairs ← map_err (ApiErr.new 400) (context_filter_query p ctx pairs);
       Ok ("/" +:+ p, pairs, true)
     else Ok (path, pairs, false));
  '(new_path, pairs') ← alias_filter path pairs;
  let query :=
    if changed || bool_decide (pairs ≠ pairs') then
      match pairs' with
      | [] => None
      | _ => Some (join "&" ((λ kv, encode_query_value kv.1 +:+ "=" +:+ encode_query_value kv.2) <$> pairs'))
      end
    else query in
  Ok (match query with Some q => new_path +:+ "?" +:+ q | None => new_path end).
End aliases.
End Rewrite.

(** * Lemmas *)

Lemma cval_lt c : cval c < 256.
Proof. apply nat_ascii_bounded. Qed.
Lemma byte_cval c : byte (cval c) = c.
Proof. apply ascii_nat_embedding. Qed.

Lemma hex_digit_hex n : n < 16 → hex (hex_digit n) = Some n.
Proof. intros. do 16 (destruct n as [|n]; [vm_compute; reflexivity|]). lia. Qed.

(** Every escape is read back, whatever set of bytes is left as it is. *)
Lemma decode_encode safe s :
  safe "%"%char = false → (lacks "+" s ∨ safe "+"%char = false) → decode_bytes (encode_with safe s) = s.
Proof.
  intros Hp Hs. induction s as [|c s IH]; [done|].
  rewrite lacks_cons in Hs. cbn [encode_with].
  destruct (safe c) eqn:Hc; cbn [str1 percent_byte String.append decode_bytes].
  - rewrite decide_False by (destruct Hs as [[? _]|?]; congruence).
    rewrite decide_False by congruence. rewrite IH by tauto. done.
  - rewrite decide_False, decide_True by done.
    pose proof (cval_lt c). rewrite !hex_digit_hex
      by (try apply Nat.mod_upper_bound; try apply Nat.Div0.div_lt_upper_bound; lia).
    cbn [str1]. rewrite <-Nat.div_mod_eq, byte_cval, IH by tauto. done.
Qed.

(** ** Splitting what was joined *)

Lemma join_cons sep s l : l ≠ [] → join sep (s :: l) = s +:+ sep +:+ join sep l.
Proof. by destruct l. Qed.

Lemma split_join c l : l ≠ [] → Forall (lacks c) l → split_char c (join (str1 c) l) = l.
Proof.
  intros Hne Hl. induction Hl as [|s l Hs Hl IH]; [done|].
  destruct l as [|s' l]; [by apply split_char_lacks|].
  rewrite join_cons by done. cbn [str1 String.append]. rewrite split_char_app, IH by done. done.
Qed.

(** ** Paths and their segments *)

Definition segment (s : string) : Prop := s ≠ "" ∧ lacks "/" s.
Definition path_of (l : list string) : string := "/" +:+ join "/" l.
(** The segments each closed by a slash, as the context filter writes them. *)
Definition slashed (l : list string) : string := foldr (λ s acc, s +:+ "/" +:+ acc) "" l.
(** A segment the filters take for a name and not for a step of the path. *)
Definition plain (s : string) : Prop := segment s ∧ s ∉ ["contexts"; "subjects"; "deks"].

Lemma plain_segment s : plain s → segment s.
Proof. by intros []. Qed.

Lemma filter_segments l : Forall segment l → filter (λ s, s ≠ "") l = l.
Proof.
  induction 1 as [|s l [Hs _] Hl IH]; [done|]. rewrite filter_cons_True by done. by rewrite IH.
Qed.

Lemma split_path_of l : l ≠ [] → Forall segment l → split_char "/" (path_of l) = "" :: l.
Proof.
  intros Hne Hl. unfold path_of.
  rewrite split_slash. f_equal. apply (split_join "/"%char); [done|].
  eapply Forall_impl; [exact Hl|]. by intros s [].
Qed.

Lemma split_slashed l : Forall segment l → split_char "/" (slashed l) = l ++ [""].
Proof.
  induction 1 as [|s l [_ Hs] Hl IH]; [done|].
  change (slashed (s :: l)) with (s +:+ String "/" (slashed l)). by rewrite split_char_app, IH.
Qed.

Lemma segs_path_of l : l ≠ [] → Forall segment l →
  filter (λ s, s ≠ "") (split_char "/" (path_of l)) = l.
Proof. intros. rewrite split_path_of, filter_cons_False by naive_solver. by apply filter_segments. Qed.

Lemma segs_slashed l : Forall segment l →
  filter (λ s, s ≠ "") (split_char "/" ("/" +:+ slashed l)) = l.
Proof.
  intros. rewrite split_slash, split_slashed, filter_cons_False by naive_solver.
  rewrite filter_app, filter_segments by done. by rewrite app_nil_r.
Qed.

Lemma clean_path_of l : l ≠ [] → Forall segment l →
  default (path_of l) (Rewrite.clean_path (path_of l)) = path_of l.
Proof.
  intros. unfold Rewrite.clean_path. destruct (_ && _); [done|]. cbn [default from_option].
  by rewrite segs_path_of.
Qed.

Lemma trim_start_char_lacks c a b : a ≠ "" → lacks c a → trim_start_char c (a +:+ b) = a +:+ b.
Proof. destruct a as [|d a]; [done|]. rewrite lacks_cons. intros _ [? _]. cbn. by rewrite decide_False. Qed.

Lemma join_head s l : ∃ r, join "/" (s :: l) = s +:+ r.
Proof.
  destruct l as [|s' l]; [exists ""; by rewrite str_app_nil_r|]. rewrite join_cons by done. eauto.
Qed.

Lemma trim_path_of s l : segment s → trim_start_char "/" (path_of (s :: l)) = join "/" (s :: l).
Proof.
  intros [? ?]. unfold path_of. destruct (join_head s l) as [r ->].
  cbn. by apply trim_start_char_lacks.
Qed.

Lemma pop_empty_segments s l : s ≠ "" → Rewrite.pop_empty (s :: l) = s :: l.
Proof. by destruct s. Qed.

Lemma pop_segments l : l ≠ [] → Forall segment l → reverse (Rewrite.pop_empty (reverse l)) = l.
Proof.
  intros Hne Hl. destruct l as [|s l _] using rev_ind; [done|].
  rewrite reverse_snoc. apply Forall_app in Hl as [_ [Hs _]%Forall_cons].
  rewrite pop_empty_segments by apply Hs. by rewrite reverse_cons, reverse_involutive.
Qed.

(** ** The context filter *)

Lemma filter_plain ctx subj out s : plain s → subj && negb (Rewrite.qualified s) = false →
  Rewrite.filter_seg (Rewrite.mkFilter false ctx false subj out false) s
  = Ok (Rewrite.mkFilter false ctx false false (out +:+ s +:+ "/") false).
Proof.
  intros [_ Hs] Hq. unfold Rewrite.filter_seg. rewrite decide_False by set_solver. rewrite Hq.
  cbn. rewrite !bool_decide_eq_false_2 by set_solver. done.
Qed.

Lemma filter_subject ctx p out s : plain s → Rewrite.qualified s = false →
  Rewrite.normalize_context ctx = Ok p →
  Rewrite.filter_seg (Rewrite.mkFilter false ctx false true out false) s
  = Ok (Rewrite.mkFilter false ctx false false (out +:+ (p +:+ s) +:+ "/") false).
Proof.
  intros [_ Hs] Hq Hp. unfold Rewrite.filter_seg. rewrite decide_False by set_solver. rewrite Hq.
  cbn [andb negb]. rewrite Hp. cbn. rewrite !bool_decide_eq_false_2 by set_solver. done.
Qed.

Lemma filter_rest ctx out l : Forall plain l →
  Rewrite.filter_segs (Rewrite.mkFilter false ctx false false out false) l
  = Ok (Rewrite.mkFilter false ctx false false (out +:+ slashed l) false).
Proof.
  intros Hl. revert out. induction Hl as [|s l Hs Hl IH]; intros out; cbn [Rewrite.filter_segs slashed foldr].
  - by rewrite str_app_nil_r.
  - rewrite filter_plain by done. cbn [mbind result_bind]. rewrite IH. by rewrite !str_app_assoc.
Qed.

(** What the filter puts in front of a subject is what makes it qualified. *)
Lemma rewrite_normalize ctx c s :
  ctx ≠ "" → normalize_context ctx = Some c → c ≠ WILDCARD_CONTEXT →
  lacks "/" c ∧ ∃ p, Rewrite.normalize_context ctx = Ok p ∧ p +:+ s = qualify c s.
Proof.
  intros Hne Hc Hw. unfold normalize_context in Hc. rewrite (bool_decide_eq_false_2 (ctx = "")) in Hc by done.
  unfold Rewrite.normalize_context, qualify. cbn [orb] in Hc. case_bool_decide as Hd.
  { injection Hc as <-. rewrite Hd. split; [done|]. exists "". done. }
  destruct (decide (ctx = WILDCARD_CONTEXT)) as [?|_]; [congruence|].
  destruct (_ && _) eqn:Hv; [injection Hc as <-|done].
  assert (str_forall name_char ctx = true) as Hn.
  { rewrite !andb_true_iff in Hv. destruct Hv as [_ Hv]. destruct (starts_with "." ctx) eqn:Es; [|done].
    apply starts_with_spec in Es as [r ->]. exact Hv. }
  pose proof (name_char_lacks_colon _ Hn) as Hcolon.
  rewrite (strip_prefix_lacks ":"%char) by done. cbn [default from_option].
  rewrite (strip_suffix_lacks ":"%char) by done. cbn [default from_option].
  unfold contains_char. rewrite bool_decide_eq_false_2 by (rewrite Hcolon; by intros []).
  split.
  { pose proof (str_forall_lacks name_char "/" ctx eq_refl Hn).
    destruct (starts_with _ _); [done|]. by apply lacks_cons. }
  destruct (starts_with "." ctx) eqn:Es; (eexists; split; [done|]);
    unfold DEFAULT_CONTEXT; rewrite ?decide_False by (intros ?; simplify_eq).
  - by rewrite !str_app_assoc.
  - change ("." +:+ ctx) with (String "." ctx).
    rewrite !decide_False by (intros ?; simplify_eq). by rewrite !str_app_assoc.
Qed.

Lemma context_filter_subjects ctx c s rest :
  segment ctx → normalize_context ctx = Some c → c ≠ WILDCARD_CONTEXT →
  plain s → Rewrite.qualified s = false → Forall plain rest →
  Rewrite.context_filter_path (join "/" ("contexts" :: ctx :: "subjects" :: s :: rest))
  = Ok (slashed ("subjects" :: qualify c s :: rest), ctx).
Proof.
  intros Hctx Hc Hw Hs Hq Hrest. destruct (rewrite_normalize ctx c s) as (_ & p & Hp & Hps); [apply Hctx|done..|].
  assert (Forall segment ("contexts" :: ctx :: "subjects" :: s :: rest)) as Hseg.
  { repeat (constructor; [try done; try by apply plain_segment|]).
    eapply Forall_impl; [exact Hrest|]. apply plain_segment. }
  unfold Rewrite.context_filter_path. rewrite (split_join "/"%char), pop_segments; [|done..|].
  2: { eapply Forall_impl; [exact Hseg|]. by intros ? []. }
  change (Rewrite.filter_segs Rewrite.filter_start _)
    with (Rewrite.filter_segs (Rewrite.mkFilter false ctx false true "subjects/" false) (s :: rest)).
  cbn [Rewrite.filter_segs]. rewrite (filter_subject _ p) by done.
  cbn [mbind result_bind]. rewrite filter_rest by done. cbn. rewrite Hps. by rewrite !str_app_assoc.
Qed.

Lemma trim_subjects s r : segment s →
  ∃ x, x ≠ "" ∧ trim_end_char "/" ("subjects/" +:+ s +:+ r) = "subjects/" +:+ x.
Proof.
  intros [Hs Hl]. pose proof (trim_end_nonempty "/" s r Hs Hl). eexists. split; [|by apply trim_end_stop]. done.
Qed.

Lemma slashed_cons s l : slashed (s :: l) = s +:+ "/" +:+ slashed l.
Proof. done. Qed.

(** The query filter leaves a request under [/subjects/...] alone. *)
Lemma query_filter_subjects ctx p s rest pairs : Rewrite.normalize_context ctx = Ok p → segment s →
  Rewrite.context_filter_query (slashed ("subjects" :: s :: rest)) ctx pairs = Ok pairs.
Proof.
  intros Hp Hs. unfold Rewrite.context_filter_query. rewrite Hp, slashed_cons, slashed_cons.
  destruct (trim_subjects s ("/" +:+ slashed rest) Hs) as (x & Hx & E).
  change ("subjects" +:+ "/" +:+ s +:+ "/" +:+ slashed rest) with ("subjects/" +:+ s +:+ "/" +:+ slashed rest).
  by rewrite E.
Qed.

(** The alias filter sees the segments of a path under [/subjects/...] alone. *)
Lemma alias_filter_subjects alias_of path s r pairs : segment s →
  path = "/subjects/" +:+ s +:+ r →
  Rewrite.alias_filter alias_of path pairs
  = out ← Rewrite.alias_segs alias_of false "" (filter (λ s, s ≠ "") (split_char "/" path));
    Ok (if decide (out = "") then "/" else out, pairs).
Proof.
  intros Hs ->. unfold Rewrite.alias_filter, trim_char.
  change (trim_start_char "/" ("/subjects/" +:+ s +:+ r)) with ("subjects/" +:+ s +:+ r).
  destruct (trim_subjects s r Hs) as (x & _ & ->). by destruct (Rewrite.alias_segs _ _ _ _).
Qed.

(** What the rewriting of a request under [/subjects/...] comes down to. *)
Definition aliased (alias_of : string → ApiResult (option string)) (segs : list string) : ApiResult string :=
  out ← Rewrite.alias_segs alias_of false "" segs; Ok (if decide (out = "") then "/" else out).

Lemma prematch_subjects alias_of s rest : Forall segment (s :: rest) →
  Rewrite.prematch alias_of (path_of ("subjects" :: s :: rest)) None false
  = aliased alias_of ("subjects" :: s :: rest).
Proof.
  intros Hl. assert (Forall segment ("subjects" :: s :: rest)) as Hl' by (by constructor).
  unfold Rewrite.prematch. rewrite clean_path_of, trim_path_of by done.
  change (starts_with "contexts/" _) with false. cbn [andb mbind result_bind].
  destruct (join_head s rest) as [r Hr].
  rewrite (alias_filter_subjects alias_of _ s r).
  - rewrite segs_path_of by done. unfold aliased. by destruct (Rewrite.alias_segs _ _ _ _).
  - by apply Forall_cons in Hl as [? _].
  - unfold path_of. rewrite join_cons, Hr by done. done.
Qed.

Lemma prematch_contexts alias_of ctx c s rest :
  segment ctx → normalize_context ctx = Some c → c ≠ WILDCARD_CONTEXT →
  plain s → Rewrite.qualified s = false → Forall plain rest → segment (qualify c s) →
  Rewrite.prematch alias_of (path_of ("contexts" :: ctx :: "subjects" :: s :: rest)) None false
  = aliased alias_of ("subjects" :: qualify c s :: rest).
Proof.
  intros Hctx Hc Hw Hs Hq Hrest Hqs.
  assert (Forall segment rest) as Hrest'
    by (eapply Forall_impl; [exact Hrest|]; apply plain_segment).
  assert (Forall segment ("contexts" :: ctx :: "subjects" :: s :: rest)) as Hl
    by (repeat (constructor; [try done; by apply plain_segment|]); done).
  destruct (rewrite_normalize ctx c s) as (_ & p & Hp & _); [apply Hctx|done..|].
  unfold Rewrite.prematch. rewrite clean_path_of, trim_path_of by done.
  change (starts_with "contexts/" _) with true. cbn [andb negb].
  rewrite (context_filter_subjects ctx c) by done. cbn [map_err mbind result_bind].
  rewrite (query_filter_subjects ctx p) by done. cbn [map_err mbind result_bind from_option].
  rewrite (alias_filter_subjects alias_of _ (qualify c s) ("/" +:+ slashed rest)) by done.
  rewrite segs_slashed by (constructor; [done|by constructor]).
  unfold aliased. by destruct (Rewrite.alias_segs _ _ _ _).
Qed.

Lemma qualify_segment ctx c s : segment ctx → normalize_context ctx = Some c → c ≠ WILDCARD_CONTEXT →
  segment s → segment (qualify c s).
Proof.
  intros [Hne _] Hc Hw [Hs Hl]. destruct (rewrite_normalize ctx c s) as (Hcl & _); [done..|].
  unfold qualify. case_decide; [done|]. split; [done|].
  rewrite !lacks_app. split_and!; done.
Qed.

(** * Properties *)

(** The two URL forms of a context are one: whatever aliases are configured,
    [/contexts/{ctx}/subjects/{s}/...] is rewritten to exactly what
    [/subjects/:.ctx:{s}/...] is, and to [/subjects/{s}/...] for the default
    context, with the context in its canonical spelling. *)
Theorem context_form_equivalent (alias_of : string → ApiResult (option string)) (ctx c s : string) (rest : list string) :
  segment ctx → normalize_context ctx = Some c → c ≠ WILDCARD_CONTEXT →
  plain s → Rewrite.qualified s = false → Forall plain rest →
  Rewrite.prematch alias_of (path_of ("contexts" :: ctx :: "subjects" :: s :: rest)) None false
  = Rewrite.prematch alias_of (path_of ("subjects" :: qualify c s :: rest)) None false.
Proof.
  intros. assert (segment (qualify c s)) by (eapply qualify_segment; eauto using plain_segment).
  rewrite (prematch_contexts alias_of ctx c), prematch_subjects; [done| |done..].
  constructor; [done|]. eapply Forall_impl; [done|]. apply plain_segment.
Qed.

Lemma context_form_equivalent_witness :
  let alias_of s := Ok (if decide (s = ":.dev:orders") then Some "billing" else None) in
  Rewrite.prematch alias_of "/contexts/dev/subjects/orders/versions/latest" None false
    = Rewrite.prematch alias_of "/subjects/:.dev:orders/versions/latest" None false ∧
  Rewrite.prematch alias_of "/contexts/dev/subjects/orders/versions/latest" None false
    = Ok "/subjects/:.dev:billing/versions/latest".
Proof.
  intros alias_of. split; [|vm_compute; reflexivity].
  apply (context_form_equivalent alias_of "dev" ".dev" "orders" ["versions"; "latest"]);
    repeat constructor; try done; try (vm_compute; reflexivity); set_solver.
Defined.

(** What is escaped is read back: every UTF-8 string survives the segment and
    query encodings and the decoding of request paths and queries; the encoding
    of an alias does too, provided the alias has no plus sign. *)
Theorem percent_roundtrip (s : string) :
  utf8_valid s = true →
  percent_decode (percent_encode_segment s) = s ∧ percent_decode (encode_query_value s) = s ∧
  (lacks "+" s → percent_decode (encode_segment s) = s).
Proof.
  intros Hs. unfold percent_decode, percent_encode_segment, encode_query_value, encode_segment.
  split_and!; [..|intros ?]; (rewrite decode_encode; [by apply from_utf8_lossy_valid|done|by auto]).
Qed.

Lemma percent_roundtrip_witness :
  let s := bytes [195; 169; 32; 47; 37; 58; 97] in
  utf8_valid s = true ∧ percent_decode (percent_encode_segment s) = s ∧ percent_decode (encode_query_value s) = s ∧
  (lacks "+" s → percent_decode (encode_segment s) = s).
Proof. intros s. split; [vm_compute; reflexivity|]. apply percent_roundtrip. vm_compute. reflexivity. Defined.
