(* ===== verification/Authz.v ===== *)
(** Authorization (authz.rs): subject patterns and their globs, what a caller's
    roles and bindings reach, what a request path is about, and the decision
    itself; with the filtering of listings (api/mod.rs). *)
From S2P Require Import Prelude SortedVec RustStr Errors Json Model Context Rewrite.

Open Scope string_scope.
Open Scope nat_scope.
Open Scope list_scope.

(** * Globs *)

Module Glob.
Inductive t :=
| Any
| Literal (l : string)
| Parts (parts : list string) (open_start open_end : bool).

Definition parse (raw : string) : t :=
  if decide (raw = "*") then Any
  else if negb (contains_char "*" raw) then Literal raw
  else Parts (filter (λ p, p ≠ "") (split_char "*" raw)) (starts_with "*" raw) (ends_with "*" raw).

Definition is_any (g : t) : bool := match g with Any => true | _ => false end.

(** The loop over the parts: what is left of the string after the last one,
    [None] where the code returns false. [anchored] is [i == 0 && !open_start]. *)
Fixpoint match_parts (anchored : bool) (parts : list string) (rest : string) : option string :=
  match parts with
  | [] => Some rest
  | part :: parts =>
      at_ ← (if anchored then if starts_with part rest then Some 0 else None
             else find_str part rest);
      match_parts false parts (slice_from rest (at_ + String.length part))
  end.

Definition matches (g : t) (s : string) : bool :=
  match g with
  | Any => true
  | Literal l => bool_decide (l = s)
  | Parts parts open_start open_end =>
      match match_parts (negb open_start) parts s with
      | Some rest => open_end || bool_decide (rest = "")
      | None => false
      end
  end.
End Glob.

(** * Patterns *)

Module Pattern.
Record t := mk { context : Glob.t; subject : Glob.t }.

Definition parse (raw : string) : result string t :=
  let '(ctx, subj) := default (DEFAULT_CONTEXT, raw) (split_once_str "::" raw) in
  if decide (subj = "") then Err "no subject part (did you mean '::*'?)" else
  let context :=
    if bool_decide (ctx = "") || bool_decide (ctx = DEFAULT_CONTEXT) then Glob.Literal DEFAULT_CONTEXT
    else if decide (ctx = WILDCARD_CONTEXT) then Glob.Any
    else if starts_with "." ctx then Glob.parse ctx
    else Glob.parse ("." +:+ ctx) in
  Ok (mk context (Glob.parse subj)).

Definition matches (p : t) (ctx subj : string) : bool :=
  Glob.matches (context p) ctx && Glob.matches (subject p) subj.
Definition covers_context (p : t) (ctx : string) : bool :=
  Glob.matches (context p) ctx && Glob.is_any (subject p).
Definition touches_context (p : t) (ctx : string) : bool := Glob.matches (context p) ctx.
Definition is_everything (p : t) : bool := Glob.is_any (context p) && Glob.is_any (subject p).
End Pattern.

(** * Callers *)

Module Authz.
Inductive Role := Admin | Write | Readonly.
#[export] Instance Role_eq_dec : EqDecision Role.
Proof. solve_decision. Defined.

(** config.rs *)
Record RoleBinding := mkBinding { rb_role : Role; rb_subjects : list string }.
Record UserConfig := mkUser {
  username : string; password : string;
  u_roles : list Role; u_bindings : list RoleBinding; u_containers : list string }.

Inductive Target :=
| TSubject (q : QualifiedSubject)
| TContext (ctx : string)
| Listing
| Global.
#[export] Instance Target_eq_dec : EqDecision Target.
Proof. solve_decision. Defined.

Record Principal := mkPrincipal {
  roles : list Role;
  bindings : list (Role * list Pattern.t);
  containers : list string }.

Definition unrestricted : Principal := mkPrincipal [Admin] [] [].

Definition from_user (u : UserConfig) : Principal :=
  let ok_pattern raw := match Pattern.parse raw with Ok p => Some p | Err _ => None end in
  mkPrincipal (u_roles u) ((λ b, (rb_role b, omap ok_pattern (rb_subjects b))) <$> u_bindings u)
    (u_containers u).

Definition may_use (p : Principal) (container : TenantId.t) : bool :=
  bool_decide (containers p = []) || existsb (λ c, bool_decide (c = TenantId.as_str container)) (containers p).

(** The two loops of [roles_for_subject] and [roles_for_context]. *)
Definition add_roles (reaches : Pattern.t → bool) (p : Principal) : list Role :=
  foldl (λ out b, if negb (bool_decide (b.1 ∈ out)) && existsb reaches b.2 then out ++ [b.1] else out)
    (roles p) (bindings p).

Definition roles_for_subject (p : Principal) (q : QualifiedSubject) : list Role :=
  add_roles (λ pt, Pattern.matches pt (context q) (subject q)) p.
Definition roles_for_context (p : Principal) (ctx : string) : list Role :=
  add_roles (λ pt, Pattern.covers_context pt ctx) p.

Definition sees_everything (p : Principal) : bool :=
  bool_decide (roles p ≠ []) || bool_decide (bindings p = []).

Definition is_global_admin (p : Principal) : bool :=
  bool_decide (Admin ∈ roles p)
  || existsb (λ b, bool_decide (b.1 = Admin) && existsb Pattern.is_everything b.2) (bindings p).

Definition can_see_subject (p : Principal) (ctx subj : string) : bool :=
  sees_everything p || existsb (λ b, existsb (λ pt, Pattern.matches pt ctx subj) b.2) (bindings p).

Definition can_see_context (p : Principal) (ctx : string) : bool :=
  sees_everything p || existsb (λ b, existsb (λ pt, Pattern.touches_context pt ctx) b.2) (bindings p).

Definition has_any_role (p : Principal) : bool :=
  bool_decide (roles p ≠ []) || bool_decide (bindings p ≠ []).

Definition has_role_anywhere (p : Principal) (role : Role) : bool :=
  bool_decide (role ∈ roles p) || existsb (λ b, bool_decide (b.1 = role)) (bindings p).

Definition is_admin_of (p : Principal) (ctx subj : string) : bool :=
  bool_decide (Admin ∈ roles p)
  || existsb (λ b, bool_decide (b.1 = Admin) && existsb (λ pt, Pattern.matches pt ctx subj) b.2) (bindings p).

(** ** What a path is about *)

(** Slice patterns over the segments: literals, alternatives, and [_]. *)
Definition lit (alts : list string) (s : string) : bool := bool_decide (s ∈ alts).
Definition wild (s : string) : bool := true.

Fixpoint fits_then (open : bool) (ps : list (string → bool)) (segs : list string) : bool :=
  match ps, segs with
  | [], [] => true
  | [], _ => open
  | p :: ps, s :: segs => p s && fits_then open ps segs
  | _ :: _, [] => false
  end.
(** [[p, ..., p]] and [[p, ..., p, ..]]. *)
Definition fits : list (string → bool) → list string → bool := fits_then false.
Definition fits_prefix : list (string → bool) → list string → bool := fits_then true.

Definition segs_of (path : string) : list string := split_char "/" (trim_char "/" path).
Definition seg (segs : list string) (i : nat) : string := default "" (segs !! i).

Definition subject_or_context (raw : string) : Target :=
  match Qualified.parse (percent_decode raw) with
  | Ok q => if Qualified.is_context_only q then TContext (context q) else TSubject q
  | Err _ => Global
  end.
Definition subject_only (raw : string) : Target :=
  match Qualified.parse (percent_decode raw) with
  | Ok q => TSubject q
  | Err _ => Global
  end.

Definition target_of (path : string) : Target :=
  let segs := segs_of path in
  if fits [lit ["subjects"; "schemas"; "contexts"]] segs then Listing
  else if fits [lit ["schemas"]; lit ["ids"]; wild; lit ["subjects"; "versions"]] segs then Listing
  else if fits [lit ["metrics"]] segs then Global
  else if fits [lit ["admin"]] segs || fits [lit ["admin"]; lit [""]] segs
       || fits [lit ["admin"]; lit ["api"]; lit ["overview"; "backup"; "restore"]] segs then Listing
  else if fits_prefix [lit ["_admin"]] segs then Listing
  else if fits_prefix [lit ["subjects"]; wild] segs then subject_only (seg segs 1)
  else if fits_prefix [lit ["compatibility"]; lit ["subjects"]; wild] segs then subject_only (seg segs 2)
  else if fits_prefix [lit ["config"; "mode"]; wild] segs then subject_or_context (seg segs 1)
  else if fits_prefix [lit ["contexts"]; wild] segs then
    TContext (default "" (normalize_context (percent_decode (seg segs 1))))
  else if fits_prefix [lit ["admin"]; lit ["api"]; lit ["subjects"]; wild] segs then subject_only (seg segs 3)
  else Global.

Definition is_admin_ui (path : string) : bool := starts_with "/admin" path || starts_with "/_admin" path.
Definition is_whole_process (path : string) : bool := is_admin_ui path || bool_decide (path = "/metrics").
Definition reveals_exporter_credentials (path : string) : bool :=
  fits [lit ["exporters"]; wild] (segs_of path)
  || fits [lit ["exporters"]; wild; lit ["config"]] (segs_of path).
Definition is_lookup_post (path : string) : bool :=
  fits [lit ["subjects"]; wild] (segs_of path)
  || fits_prefix [lit ["compatibility"]; lit ["subjects"]; wild; lit ["versions"]] (segs_of path).

(** ** The decision; a method is its name. *)

Definition read_only_request (method path : string) : bool :=
  bool_decide (method ∈ ["GET"; "HEAD"; "OPTIONS"])
  || (bool_decide (method = "POST") && is_lookup_post path).

Definition allows (roles : list Role) (method path : string) (target : Target) : bool :=
  if is_whole_process path then bool_decide (Admin ∈ roles)
  else if bool_decide (Admin ∈ roles) then true
  else if reveals_exporter_credentials path then false
  else if read_only_request method path then bool_decide (roles ≠ [])
  else if bool_decide (Write ∈ roles) then match target with TSubject _ => true | _ => false end
  else false.

Definition authorized (p : Principal) (method path : string) : bool :=
  let target := target_of path in
  match target with
  | TSubject q => allows (roles_for_subject p q) method path target
  | TContext ctx => allows (roles_for_context p ctx) method path target
  | Listing => if is_admin_ui path then has_role_anywhere p Admin else has_any_role p
  | Global => allows (roles p) method path target
  end.

(** ** The filtering of listings ([Caller::filter], api/mod.rs) *)

Definition caller_filter {A} (p : Principal) (items : list A) (subject_of : A → string) : list A :=
  if sees_everything p then items else
  filter (λ x, match Qualified.parse (subject_of x) with
               | Ok q => can_see_subject p (context q) (subject q)
               | Err _ => false
               end = true) items.
End Authz.

(** * Globs: the reference, and the lemmas of the search *)

(** What a [*]-glob means, character by character. *)
Inductive glob : string → string → Prop :=
| glob_nil : glob "" ""
| glob_char c p s : c ≠ "*"%char → glob p s → glob (String c p) (String c s)
| glob_star p a s : glob p s → glob (String "*" p) (a +:+ s).

(** The same over the words between the stars. *)
Fixpoint pieces (ws : list string) (s : string) : Prop :=
  match ws with
  | [] => False
  | [w] => s = w
  | w :: ws => ∃ a t, s = w +:+ a +:+ t ∧ pieces ws t
  end.

Lemma pieces_cons w w' ws s : pieces (w :: w' :: ws) s ↔ ∃ a t, s = w +:+ a +:+ t ∧ pieces (w' :: ws) t.
Proof. done. Qed.

Lemma split_char_cons c s : ∃ w ws, split_char c s = w :: ws.
Proof. destruct s as [|d s]; cbn; [eauto|]. case_decide; [eauto|]. destruct (split_char c s); eauto. Qed.

Lemma glob_inv_char c p s : c ≠ "*"%char → glob (String c p) s ↔ ∃ t, s = String c t ∧ glob p t.
Proof.
  intros Hc. split; [|intros (t & -> & H); by constructor].
  inversion 1; subst; [eauto|done].
Qed.

Lemma glob_inv_star p s : glob (String "*" p) s ↔ ∃ a t, s = a +:+ t ∧ glob p t.
Proof.
  split; [|intros (a & t & -> & H); by constructor].
  inversion 1; subst; [done|eauto].
Qed.

Lemma pieces_char c w ws s : pieces (String c w :: ws) s ↔ ∃ t, s = String c t ∧ pieces (w :: ws) t.
Proof.
  destruct ws as [|w' ws]; [cbn; naive_solver|]. rewrite pieces_cons. setoid_rewrite pieces_cons.
  split.
  - intros (a & t & -> & H). cbn. eauto 8.
  - intros (t' & -> & a & t & -> & H). exists a, t. done.
Qed.

Lemma glob_pieces p s : glob p s ↔ pieces (split_char "*" p) s.
Proof.
  revert s; induction p as [|c p IH]; intros s; [cbn; split; [by inversion 1|intros ->; constructor]|].
  cbn [split_char]. destruct (split_char_cons "*" p) as (w & ws & E). case_decide as Hc.
  - subst c. rewrite E, pieces_cons, glob_inv_star, <-E. cbn. by setoid_rewrite IH.
  - rewrite glob_inv_char, E, pieces_char, <-E by done. by setoid_rewrite IH.
Qed.

(** The words in this order with anything before, between and after them. *)
Fixpoint gaps (ws : list string) (s : string) : Prop :=
  match ws with [] => True | w :: ws => ∃ a t, s = a +:+ w +:+ t ∧ gaps ws t end.
(** The same with the end of the string named. *)
Fixpoint chain (ws : list string) (s rest : string) : Prop :=
  match ws with [] => s = rest | w :: ws => ∃ a t, s = a +:+ w +:+ t ∧ chain ws t rest end.

Lemma slice_after a p b : slice_from (a +:+ p +:+ b) (String.length a + String.length p) = b.
Proof. unfold slice_from. rewrite <-str_length_app, <-str_app_assoc. apply str_drop_app. Qed.

Lemma match_parts_chain ws s f : Glob.match_parts false ws s = Some f → chain ws s f.
Proof.
  revert s; induction ws as [|w ws IH]; intros s; cbn; [congruence|].
  destruct (find_str w s) as [i|] eqn:Ef; [|done]. apply find_str_Some in Ef as (a & b & -> & ->).
  cbn. rewrite slice_after. eauto.
Qed.

Lemma gaps_prefix ws a s : gaps ws s → gaps ws (a +:+ s).
Proof. destruct ws as [|w ws]; [done|]. intros (b & t & -> & H). exists (a +:+ b), t. by rewrite str_app_assoc. Qed.

Lemma str_app_split a b c d : a +:+ b = c +:+ d → String.length a ≤ String.length c → ∃ e, b = e +:+ d.
Proof.
  revert c; induction a as [|x a IH]; intros c; cbn; [eauto|].
  destruct c as [|y c]; cbn; [lia|]. intros [= <- H] ?. eapply IH; [done|lia].
Qed.

Lemma match_parts_gaps ws s : gaps ws s → is_Some (Glob.match_parts false ws s).
Proof.
  revert s; induction ws as [|w ws IH]; intros s; cbn; [eauto|].
  intros (a & t & -> & H). destruct (find_str_first w a t) as (i & Ei & Hi).
  rewrite Ei. apply find_str_Some in Ei as (a' & t' & E & ->). cbn. rewrite E, slice_after.
  apply IH. assert (∃ e, t' = e +:+ t) as [e ->]; [|by apply gaps_prefix].
  symmetry in E. rewrite <-!str_app_assoc in E. apply (str_app_split _ _ _ _ E). rewrite !str_length_app. lia.
Qed.

Lemma match_parts_filter ws s :
  Glob.match_parts false (filter (λ p, p ≠ "") ws) s = Glob.match_parts false ws s.
Proof.
  revert s; induction ws as [|w ws IH]; intros s; [done|].
  destruct (decide (w = "")) as [->|Hw].
  - rewrite filter_cons_False by naive_solver. rewrite IH. cbn. by destruct s.
  - rewrite filter_cons_True by done. cbn. destruct (find_str w s); [apply IH|done].
Qed.

(** The first word is anchored unless the pattern starts with a star; either
    way the search is for the words after it. *)
Lemma match_parts_split p w ws s f :
  p ≠ "" → split_char "*" p = w :: ws →
  Glob.match_parts (negb (starts_with "*" p)) (filter (λ p, p ≠ "") (w :: ws)) s = Some f
  ↔ ∃ t, s = w +:+ t ∧ Glob.match_parts false ws t = Some f.
Proof.
  intros Hp E. destruct p as [|c p]; [done|]. cbn [split_char] in E.
  destruct (decide ("*"%char = c)) as [<-|Hc].
  - injection E as <- <-. change (starts_with "*" (String "*" p)) with true. cbn [negb].
    rewrite filter_cons_False by naive_solver. rewrite match_parts_filter. naive_solver.
  - assert (w ≠ "") as Hw by (destruct (split_char "*" p); naive_solver).
    assert (starts_with "*" (String c p) = false) as Hs.
    { apply not_true_is_false. rewrite starts_with_spec. intros [r [= ?]]. congruence. }
    rewrite Hs, filter_cons_True by done. cbn [negb Glob.match_parts].
    destruct (starts_with w s) eqn:Ew.
    + apply starts_with_spec in Ew as [t ->]. cbn. unfold slice_from. rewrite str_drop_app, match_parts_filter.
      split; [eauto|]. by intros (? & <-%str_app_inj_l & ?).
    + cbn. split; [done|]. intros (t & -> & _). by rewrite starts_with_app in Ew.
Qed.

Lemma chain_pieces w ws t f : ws ≠ [] → chain ws t f → (f = "" ∨ last ws = Some "") → pieces (w :: ws) (w +:+ t).
Proof.
  revert w t; induction ws as [|w' ws IH]; [done|]. intros w t _ (a & t' & -> & Hc) Hf. apply pieces_cons.
  destruct ws as [|w'' ws].
  - cbn in Hc. subst t'. destruct Hf as [-> | [= ->]].
    + exists a, w'. by rewrite str_app_nil_r.
    + exists (a +:+ f), "". by rewrite str_app_nil_r.
  - exists a, (w' +:+ t'). split; [done|]. apply IH; [done..|]. by rewrite last_cons_cons in Hf.
Qed.

Lemma pieces_gaps w ws s : pieces (w :: ws) s → ∃ t, s = w +:+ t ∧ gaps ws t.
Proof.
  revert w s; induction ws as [|w' ws IH]; intros w s.
  - intros ->. exists "". by rewrite str_app_nil_r.
  - intros (a & t & -> & H)%pieces_cons. exists (a +:+ t). split; [done|].
    apply IH in H as (t' & -> & H). cbn. eauto.
Qed.

Lemma split_char_snoc c r : split_char c (r +:+ str1 c) = split_char c r ++ [""].
Proof.
  induction r as [|d r IH]; cbn; [by rewrite decide_True|]. rewrite IH.
  case_decide; [done|]. destruct (split_char_cons c r) as (w & ws & ->). done.
Qed.

Lemma contains_char_split c s : contains_char c s = true → ∃ w w' ws, split_char c s = w :: w' :: ws.
Proof.
  unfold contains_char. rewrite bool_decide_eq_true. intros [i (a & b & -> & Ha & _)%find_char_Some].
  rewrite split_char_app by done. destruct (split_char_cons c b) as (w & ws & ->). eauto.
Qed.

Lemma literal_glob p s : contains_char "*" p = false → glob p s ↔ p = s.
Proof.
  intros H. rewrite glob_pieces, split_char_lacks; [cbn; naive_solver|].
  unfold contains_char in H. apply bool_decide_eq_false in H. unfold lacks. by apply eq_None_not_Some.
Qed.

Lemma glob_any s : glob "*" s.
Proof. rewrite <-(str_app_nil_r s). repeat constructor. Qed.

Lemma glob_sound raw s : Glob.matches (Glob.parse raw) s = true → glob raw s.
Proof.
  unfold Glob.parse. case_decide as Ha; [subst; intros _; apply glob_any|].
  destruct (contains_char "*" raw) eqn:Hc; cbn [negb Glob.matches].
  2: { rewrite bool_decide_eq_true. by apply literal_glob. }
  destruct (contains_char_split _ _ Hc) as (w & w' & ws & E). rewrite E.
  assert (raw ≠ "") by (by intros ->).
  case_match eqn:Em; [|done]. apply match_parts_split in Em as (t & -> & Em); [|done..].
  intros Hend. apply glob_pieces. rewrite E. apply (chain_pieces _ _ _ s0); [done|by apply match_parts_chain|].
  apply orb_true_iff in Hend as [(r & Hr)%ends_with_spec|?%bool_decide_eq_true]; [right|by left].
  pose proof (split_char_snoc "*" r) as Hl. change (str1 "*") with "*" in Hl. rewrite <-Hr, E in Hl.
  rewrite <-(last_cons_cons w), Hl. apply last_snoc.
Qed.

Lemma glob_complete raw s :
  (lacks "*" raw ∨ ends_with "*" raw = true) → glob raw s → Glob.matches (Glob.parse raw) s = true.
Proof.
  intros Hraw Hg. unfold Glob.parse. case_decide as Ha; [done|].
  destruct (contains_char "*" raw) eqn:Hc; cbn [negb Glob.matches].
  2: { apply bool_decide_eq_true. by apply literal_glob. }
  destruct Hraw as [Hl| ->].
  { unfold contains_char in Hc. rewrite Hl in Hc. done. }
  destruct (contains_char_split _ _ Hc) as (w & w' & ws & E).
  assert (raw ≠ "") by (by intros ->).
  apply glob_pieces in Hg. rewrite E in Hg. apply pieces_gaps in Hg as (t & -> & [f Hf]%match_parts_gaps).
  destruct (match_parts_split raw w (w' :: ws) (w +:+ t) f) as [_ H']; [done..|].
  rewrite E, H' by eauto. done.
Qed.

(** * What a caller holds *)

Import Authz.

(** A role held registry-wide, or by a binding with a pattern that reaches. *)
Definition holds (p : Principal) (reaches : Pattern.t → bool) (r : Role) : Prop :=
  r ∈ roles p ∨ ∃ ps pt, (r, ps) ∈ bindings p ∧ pt ∈ ps ∧ reaches pt = true.

Definition holds_at (p : Principal) (t : Target) (r : Role) : Prop :=
  match t with
  | TSubject q => holds p (λ pt, Pattern.matches pt (context q) (subject q)) r
  | TContext ctx => holds p (λ pt, Pattern.covers_context pt ctx) r
  | Listing | Global => r ∈ roles p
  end.

Lemma existsb_elem {A} (f : A → bool) l : existsb f l = true ↔ ∃ x, x ∈ l ∧ f x = true.
Proof. rewrite existsb_exists. by setoid_rewrite list_elem_of_In. Qed.

Lemma add_roles_elem reaches p r : r ∈ add_roles reaches p ↔ holds p reaches r.
Proof.
  unfold add_roles, holds. generalize (roles p) as out. induction (bindings p) as [|[r' ps] bs IH]; intros out; cbn.
  { set_solver. }
  rewrite IH. setoid_rewrite elem_of_cons. destruct (existsb reaches ps) eqn:Ex.
  - apply existsb_elem in Ex. destruct (bool_decide_reflect (r' ∈ out)); cbn.
    + naive_solver.
    + rewrite elem_of_app, list_elem_of_singleton. naive_solver.
  - rewrite andb_false_r. assert (¬ ∃ x, x ∈ ps ∧ reaches x = true)
      by (rewrite <-existsb_elem; congruence). naive_solver.
Qed.

(** The roles [authorized] consults. *)
Definition roles_at (p : Principal) (t : Target) : list Role :=
  match t with
  | TSubject q => roles_for_subject p q
  | TContext ctx => roles_for_context p ctx
  | Listing | Global => roles p
  end.

Lemma roles_at_elem p t r : r ∈ roles_at p t ↔ holds_at p t r.
Proof. destruct t; cbn; try done; apply add_roles_elem. Qed.

Lemma roles_nonempty (l : list Role) : l ≠ [] ↔ ∃ r, r ∈ l.
Proof. destruct l; set_solver. Qed.

Lemma authorized_at p m path : target_of path ≠ Listing →
  authorized p m path = allows (roles_at p (target_of path)) m path (target_of path).
Proof. unfold authorized. by destruct (target_of path). Qed.

Lemma allows_spec rs m path t : allows rs m path t = true ↔
  Admin ∈ rs ∨ is_whole_process path = false ∧ reveals_exporter_credentials path = false ∧
    (if read_only_request m path then rs ≠ [] else Write ∈ rs ∧ ∃ q, t = TSubject q).
Proof.
  unfold allows. destruct (is_whole_process path).
  { rewrite bool_decide_eq_true. naive_solver. }
  case_bool_decide; [naive_solver|].
  destruct (reveals_exporter_credentials path); [naive_solver|].
  destruct (read_only_request m path).
  { rewrite bool_decide_eq_true. naive_solver. }
  case_bool_decide; [|naive_solver]. destruct t; naive_solver.
Qed.

(** ** Paths *)

Lemma encode_with_lacks safe c s : safe c = false → c ≠ "%"%char → (∀ n, n < 16 → hex_digit n ≠ c) →
  lacks c (encode_with safe s).
Proof.
  intros Hc Hp Hh. induction s as [|d s IH]; [done|]. cbn [encode_with]. apply lacks_app. split; [|done].
  pose proof (cval_lt d). destruct (safe d) eqn:Hd; unfold str1, percent_byte.
  - apply lacks_cons. split; [congruence|done].
  - unfold str1. rewrite !lacks_cons. split_and!; try done; apply not_eq_sym, Hh;
      [apply Nat.Div0.div_lt_upper_bound|apply Nat.mod_upper_bound]; lia.
Qed.

Lemma encode_segment_lacks_slash s : lacks "/" (percent_encode_segment s).
Proof.
  apply encode_with_lacks; [done|done|]. intros n Hn.
  do 16 (destruct n as [|n]; [by vm_compute|]). lia.
Qed.

(** The versions of a subject, as a client addresses them. *)
Definition versions_path (name : string) : string := "/subjects/" +:+ percent_encode_segment name +:+ "/versions".

Lemma segs_versions_path name : segs_of (versions_path name) = ["subjects"; percent_encode_segment name; "versions"].
Proof.
  pose proof (encode_segment_lacks_slash name) as Hl. unfold segs_of, versions_path, trim_char.
  change (trim_start_char "/" _) with ("subjects/" +:+ percent_encode_segment name +:+ "/versions").
  change "/versions" with ("/" +:+ "versions"). rewrite <-2!str_app_assoc.
  rewrite trim_end_stop by done. change (trim_end_char "/" "versions") with "versions".
  rewrite 2!str_app_assoc. change ("subjects/" +:+ ?x) with ("subjects" +:+ String "/" x).
  rewrite split_char_app by done. f_equal. by apply split_char_app.
Qed.

Lemma target_versions_path name q : utf8_valid name = true → Qualified.parse name = Ok q →
  target_of (versions_path name) = TSubject q.
Proof.
  intros Hn Hq. unfold target_of. rewrite segs_versions_path. cbn -[subject_only percent_encode_segment].
  unfold subject_only, percent_decode, percent_encode_segment.
  rewrite decode_encode by auto. by rewrite from_utf8_lossy_valid, Hq.
Qed.

Lemma not_whole_process name : is_whole_process (versions_path name) = false.
Proof. done. Qed.

Lemma exporters_target path : reveals_exporter_credentials path = true → target_of path = Global.
Proof.
  unfold reveals_exporter_credentials, target_of. destruct (segs_of path) as [|s l]; [done|].
  cbn. unfold lit. destruct (bool_decide_reflect (s ∈ ["exporters"])) as [Hs|]; [|by rewrite !andb_false_l].
  apply list_elem_of_singleton in Hs as ->. done.
Qed.

(** ** What is shown and what is reachable *)

Lemma can_see_holds p q : has_any_role p = true →
  can_see_subject p (context q) (subject q) = true ↔ roles_for_subject p q ≠ [].
Proof.
  intros Hany. rewrite roles_nonempty. unfold roles_for_subject. setoid_rewrite add_roles_elem.
  unfold can_see_subject, sees_everything, has_any_role, holds in *.
  rewrite !orb_true_iff, !bool_decide_eq_true in *. rewrite existsb_elem. setoid_rewrite existsb_elem.
  rewrite roles_nonempty in *. split.
  - intros [[?|Hb]|([r ps] & ? & pt & ? & ?)]; [naive_solver| |naive_solver].
    rewrite Hb in Hany. naive_solver.
  - intros (r & [?|(ps & pt & ? & ? & ?)]); [naive_solver|]. right. exists (r, ps). naive_solver.
Qed.

Lemma sees_everything_can_see p ctx subj : sees_everything p = true → can_see_subject p ctx subj = true.
Proof. unfold can_see_subject. by intros ->. Qed.

Lemma versions_path_authorized p name q :
  utf8_valid name = true → Qualified.parse name = Ok q →
  authorized p "GET" (versions_path name) = true ↔ roles_for_subject p q ≠ [].
Proof.
  intros Hn Hq. rewrite authorized_at; rewrite (target_versions_path _ q) by done; [|done].
  rewrite allows_spec. change (read_only_request "GET" _) with true. cbn [roles_at].
  split; [intros [?|?]; [apply roles_nonempty; eauto|naive_solver]|].
  intros Hr. right. split_and!; [done| |done].
  apply not_true_is_false. intros Hx%exporters_target. by rewrite (target_versions_path _ q) in Hx.
Qed.

(** * Properties *)

(** Without an admin role nothing but subjects is written, and no secret is
    read: whatever such a caller is let through for, it is not the admin
    console, the process metrics or an exporter's credentials, and it is a read,
    a request about a subject the caller holds the write role for, or a listing. *)
Theorem writers_keep_to_subjects (p : Principal) (method path : string) :
  has_role_anywhere p Admin = false → authorized p method path = true →
  is_whole_process path = false ∧ reveals_exporter_credentials path = false ∧
  (read_only_request method path = true ∨
   match target_of path with
   | TSubject q => Write ∈ roles_for_subject p q
   | Listing => True
   | TContext _ | Global => False
   end).
Proof.
  intros Hadmin Hauth.
  assert (∀ t, Admin ∉ roles_at p t) as Hno.
  { intros t Ht. apply roles_at_elem in Ht. revert Hadmin. unfold has_role_anywhere.
    rewrite orb_false_iff, bool_decide_eq_false. intros [Hr Hb].
    assert (∀ reaches, ¬ holds p reaches Admin).
    { intros reaches [?|(ps & pt & Hps & _)]; [done|]. apply not_true_iff_false in Hb. apply Hb.
      apply existsb_elem. exists (Admin, ps). split; [done|]. by apply bool_decide_eq_true. }
    destruct t; naive_solver. }
  destruct (decide (target_of path = Listing)) as [Ht|Ht].
  - unfold authorized in Hauth. rewrite Ht in *. destruct (is_admin_ui path) eqn:Hui; [congruence|].
    split_and!; [|apply not_true_is_false; intros Hx%exporters_target; congruence|by right].
    unfold is_whole_process. rewrite Hui. apply bool_decide_eq_false. intros ->. by vm_compute in Ht.
  - rewrite authorized_at, allows_spec in Hauth by done.
    destruct Hauth as [?|(? & ? & Hr)]; [by destruct (Hno (target_of path))|]. split_and!; [done..|].
    destruct (read_only_request method path); [by left|right]. destruct Hr as [Hw [q Hq]]. by rewrite Hq in *.
Qed.

Lemma writers_keep_to_subjects_witness :
  let p := mkPrincipal [Write] [] [] in
  has_role_anywhere p Admin = false ∧ authorized p "PUT" "/config/orders" = true ∧
  is_whole_process "/config/orders" = false ∧ reveals_exporter_credentials "/config/orders" = false ∧
  (read_only_request "PUT" "/config/orders" = true ∨ Write ∈ roles_for_subject p (mkQ "." "orders")).
Proof.
  intros p. do 2 (split; [vm_compute; reflexivity|]).
  apply (writers_keep_to_subjects p "PUT" "/config/orders"); vm_compute; reflexivity.
Defined.

(** A listing shows exactly what its reader may open: an item survives the
    filter precisely when the caller is let through to the versions of the
    subject it names. *)
Theorem listing_matches_access {A} (p : Principal) (items : list A) (subject_of : A → string) (x : A) :
  has_any_role p = true → utf8_valid (subject_of x) = true →
  x ∈ caller_filter p items subject_of ↔
  x ∈ items ∧ authorized p "GET" (versions_path (subject_of x)) = true.
Proof.
  intros Hany Hx. destruct (parse_total (subject_of x)) as [q Hq].
  rewrite (versions_path_authorized p _ q), <-can_see_holds by done.
  unfold caller_filter. destruct (sees_everything p) eqn:Hs.
  - split; [|by intros []]. intros ?. split; [done|]. by apply sees_everything_can_see.
  - rewrite list_elem_of_filter, Hq. naive_solver.
Qed.

Lemma listing_matches_access_witness :
  let p := mkPrincipal [] [(Readonly, [Pattern.mk (Glob.parse ".") (Glob.parse "abc*")])] [] in
  has_any_role p = true ∧ utf8_valid "abc-1" = true ∧
  ("abc-1" ∈ caller_filter p ["abc-1"; "other"] id ↔
   "abc-1" ∈ ["abc-1"; "other"] ∧ authorized p "GET" (versions_path (id "abc-1")) = true).
Proof.
  intros p. do 2 (split; [vm_compute; reflexivity|]).
  apply (listing_matches_access p ["abc-1"; "other"] id "abc-1"); vm_compute; reflexivity.
Defined.

(** Glob matching never reaches too far, and where a pattern has no star or
    ends in one it reaches exactly what it stands for. *)
Theorem glob_matches_exact (raw s : string) :
  (Glob.matches (Glob.parse raw) s = true → glob raw s) ∧
  ((lacks "*" raw ∨ ends_with "*" raw = true) → glob raw s → Glob.matches (Glob.parse raw) s = true).
Proof. split; [apply glob_sound|apply glob_complete]. Qed.

(** A pattern that ends in a word may miss subjects it stands for: the last
    word is looked for at its first occurrence only, so [*-value] does not
    match [a-value-value]. *)
Theorem suffix_glob_misses :
  glob "*-value" "a-value-value" ∧ Glob.matches (Glob.parse "*-value") "a-value-value" = false ∧
  Glob.matches (Glob.parse "*-value") "a-value" = true.
Proof.
  split; [|by vm_compute]. apply (glob_star "-value" "a-value" "-value").
  repeat (apply glob_char; [done|]). constructor.
Qed.

(** A binding over everything is not a registry-wide role: the caller counts
    as an admin of the whole registry, yet no binding whatsoever opens the
    global settings or a schema by its id. *)
Theorem everything_binding_is_not_global :
  let u := mkUser "root" "pw" [] [mkBinding Admin ["*::*"]] [] in
  is_global_admin (from_user u) = true ∧
  (∀ bs containers method, authorized (mkPrincipal [] bs containers) method "/config" = false ∧
     authorized (mkPrincipal [] bs containers) method "/schemas/ids/7" = false) ∧
  authorized unrestricted "PUT" "/config" = true.
Proof.
  split_and!; [by vm_compute| |by vm_compute]. intros bs cs m.
  unfold authorized, allows.
  change (target_of "/config") with Global. change (target_of "/schemas/ids/7") with Global. cbn [roles].
  change (is_whole_process "/config") with false. change (is_whole_process "/schemas/ids/7") with false.
  cbn. split; by repeat case_match.
Qed.

(** A plus sign in a path is read as a space when a request is authorized: an
    alias with a plus sign is written into the path as it is, and the decision
    is then made about another subject. *)
Theorem plus_sign_misread :
  let alias_of s := Ok (if decide (s = "sums") then Some "a+b" else None) in
  Rewrite.prematch alias_of "/subjects/sums/versions" None false = Ok "/subjects/a+b/versions" ∧
  target_of "/subjects/a+b/versions" = TSubject (mkQ "." "a b").
Proof. split; vm_compute; reflexivity. Qed.
