(* ===== verification/Locks.v ===== *)
(** Who may write what at the same time (registry/locks.rs): the container
    lock, the striped context locks and the exporter lock, the acquisition of a
    mutation's guard step by step and its release, under any schedule. *)
From S2P Require Import Prelude SortedVec RustStr Errors Json Model Context Snapshot Keys Plan.

Open Scope string_scope.
Open Scope nat_scope.
Open Scope list_scope.

Definition CONTEXT_STRIPES : nat := 64.

Abbreviation Tid := nat.

(** The lock words: who holds each. *)
Record Locks := mkLocks {
  lk_writer : option Tid;          (** [container], exclusively *)
  lk_readers : gset Tid;           (** [container], shared *)
  lk_contexts : gmap nat Tid;      (** the held stripes *)
  lk_exporters : option Tid }.

Definition locks_default : Locks := mkLocks None ∅ ∅ None.

(** Where a mutation is between asking for its guard and having dropped it. *)
Inductive Phase :=
| Waiting (t : Target)             (** has called [acquire] *)
| Shared (t : Target)              (** holds [container] shared, waits for its stripe *)
| Held (t : Target)                (** [acquire] returned: the mutation runs *)
| Dropping (n : nat).              (** dropped the shared half of [WriteGuard::Context] *)

Definition ctx_of (t : Target) : option string :=
  match t with
  | SubjectTarget q => Some (context q)
  | ContextTarget ctx => Some ctx
  | GlobalTarget | ExportersTarget => None
  end.

Record System := mkSystem { sys_locks : Locks; sys_threads : gmap Tid Phase }.

Section locks.
(** [DefaultHasher]'s hash of a string; its algorithm is unspecified. *)
Context (hash : string → nat).

Definition stripe (ctx : string) : nat := hash ctx mod CONTEXT_STRIPES.

(** ** [acquire], one blocking call at a time: [None] while it blocks. *)
Definition acquire_step (i : Tid) (l : Locks) (ph : Phase) : option (Locks * Phase) :=
  let '(mkLocks writer readers contexts exporters) := l in
  match ph with
  | Waiting t =>
      match t with
      | GlobalTarget =>
          if bool_decide (writer = None) && bool_decide (readers = ∅)
          then Some (mkLocks (Some i) readers contexts exporters, Held t) else None
      | ExportersTarget =>
          if bool_decide (exporters = None)
          then Some (mkLocks writer readers contexts (Some i), Held t) else None
      | ContextTarget _ | SubjectTarget _ =>
          if bool_decide (writer = None)
          then Some (mkLocks writer ({[i]} ∪ readers) contexts exporters, Shared t) else None
      end
  | Shared t =>
      ctx ← ctx_of t;
      if bool_decide (contexts !! stripe ctx = None)
      then Some (mkLocks writer readers (<[stripe ctx := i]> contexts) exporters, Held t) else None
  | Held _ | Dropping _ => None
  end.

(** ** Dropping the guard, field by field; [None] once nothing is held. *)
Definition release_step (i : Tid) (l : Locks) (ph : Phase) : option (Locks * option Phase) :=
  let '(mkLocks writer readers contexts exporters) := l in
  match ph with
  | Held t =>
      match t with
      | GlobalTarget => Some (mkLocks None readers contexts exporters, None)
      | ExportersTarget => Some (mkLocks writer readers contexts None, None)
      | ContextTarget ctx | SubjectTarget (mkQ ctx _) =>
          Some (mkLocks writer (readers ∖ {[i]}) contexts exporters, Some (Dropping (stripe ctx)))
      end
  | Dropping n => Some (mkLocks writer readers (delete n contexts) exporters, None)
  | Waiting _ | Shared _ => None
  end.

(** One thread moves: it acquires, or it lets go. *)
Inductive lock_step : System → System → Prop :=
| step_acquire i l th ph l' ph' :
    th !! i = Some ph → acquire_step i l ph = Some (l', ph') →
    lock_step (mkSystem l th) (mkSystem l' (<[i := ph']> th))
| step_release i l th ph l' ph' :
    th !! i = Some ph → release_step i l ph = Some (l', ph') →
    lock_step (mkSystem l th) (mkSystem l' (partial_alter (λ _, ph') i th)).

(** Mutations arrive at any time. *)
Inductive reachable : System → Prop :=
| reach_start : reachable (mkSystem locks_default ∅)
| reach_request i t l th : reachable (mkSystem l th) → th !! i = None →
    reachable (mkSystem l (<[i := Waiting t]> th))
| reach_step s s' : reachable s → lock_step s s' → reachable s'.

(** ** What each lock word means *)

Definition holds_container (ph : Phase) : Prop := ph = Held GlobalTarget.
Definition holds_shared (ph : Phase) : Prop :=
  match ph with Shared t | Held t => is_Some (ctx_of t) | _ => False end.
Definition holds_stripe (n : nat) (ph : Phase) : Prop :=
  match ph with
  | Held t => stripe <$> ctx_of t = Some n
  | Dropping m => m = n
  | _ => False
  end.
Definition holds_exporters (ph : Phase) : Prop := ph = Held ExportersTarget.
Definition well_placed (ph : Phase) : Prop :=
  match ph with Shared t => is_Some (ctx_of t) | _ => True end.

Definition at_phase (th : gmap Tid Phase) (i : Tid) (Q : Phase → Prop) : Prop :=
  ∃ ph, th !! i = Some ph ∧ Q ph.

Record lock_inv (s : System) : Prop := {
  inv_writer i : lk_writer (sys_locks s) = Some i ↔ at_phase (sys_threads s) i holds_container;
  inv_readers i : i ∈ lk_readers (sys_locks s) ↔ at_phase (sys_threads s) i holds_shared;
  inv_contexts n i : lk_contexts (sys_locks s) !! n = Some i ↔ at_phase (sys_threads s) i (holds_stripe n);
  inv_exporters i : lk_exporters (sys_locks s) = Some i ↔ at_phase (sys_threads s) i holds_exporters;
  inv_rw : lk_writer (sys_locks s) = None ∨ lk_readers (sys_locks s) = ∅;
  inv_placed i ph : sys_threads s !! i = Some ph → well_placed ph }.

Lemma at_phase_here th i ph Q : th !! i = Some ph → at_phase th i Q ↔ Q ph.
Proof. intros H. unfold at_phase. rewrite H. naive_solver. Qed.

Lemma at_phase_nowhere th i Q : th !! i = None → ¬ at_phase th i Q.
Proof. intros H (ph & ? & _). congruence. Qed.

Lemma at_phase_move th i new j Q :
  at_phase (partial_alter (λ _, new) i th) j Q ↔
  if decide (j = i) then ∃ ph, new = Some ph ∧ Q ph else at_phase th j Q.
Proof.
  unfold at_phase. case_decide as Hj.
  - subst. by rewrite lookup_partial_alter_eq.
  - by rewrite lookup_partial_alter_ne by done.
Qed.

Lemma inv_start : lock_inv (mkSystem locks_default ∅).
Proof.
  split; cbn; [intros ?..|by left|done]; try (split; [done|]); try (split; [set_solver|]);
    by intros []%at_phase_nowhere.
Qed.

Definition is_at (o : option Phase) (Q : Phase → Prop) : Prop := ∃ ph, o = Some ph ∧ Q ph.

(** A thread moves from [old] to [new] and the lock words follow: its own
    entries say what [new] holds, and everybody else's are as they were. *)
Record tracks (i : Tid) (l l' : Locks) (new : option Phase) : Prop := {
  tr_writer j : lk_writer l' = Some j ↔ if decide (j = i) then is_at new holds_container else lk_writer l = Some j;
  tr_readers j : j ∈ lk_readers l' ↔ if decide (j = i) then is_at new holds_shared else j ∈ lk_readers l;
  tr_contexts n j : lk_contexts l' !! n = Some j ↔
    if decide (j = i) then is_at new (holds_stripe n) else lk_contexts l !! n = Some j;
  tr_exporters j : lk_exporters l' = Some j ↔
    if decide (j = i) then is_at new holds_exporters else lk_exporters l = Some j;
  tr_rw : lk_writer l' = None ∨ lk_readers l' = ∅;
  tr_placed : ∀ ph, new = Some ph → well_placed ph }.

Lemma inv_move i l th l' new :
  lock_inv (mkSystem l th) → tracks i l l' new →
  lock_inv (mkSystem l' (partial_alter (λ _, new) i th)).
Proof.
  intros [Hw Hr Hc He _ Hp] [Tw Tr Tc Te Trw Tp]. split; cbn in *.
  - intros j. rewrite Tw, at_phase_move. by case_decide.
  - intros j. rewrite Tr, at_phase_move. by case_decide.
  - intros n j. rewrite Tc, at_phase_move. by case_decide.
  - intros j. rewrite Te, at_phase_move. by case_decide.
  - done.
  - intros j ph. destruct (decide (j = i)) as [-> |].
    + rewrite lookup_partial_alter_eq. by apply Tp.
    + rewrite lookup_partial_alter_ne by done. apply Hp.
Qed.

(** What the lock words say of one thread. *)
Lemma inv_here i l th ph : lock_inv (mkSystem l th) → th !! i = Some ph →
  (lk_writer l = Some i ↔ holds_container ph) ∧ (i ∈ lk_readers l ↔ holds_shared ph) ∧
  (∀ n, lk_contexts l !! n = Some i ↔ holds_stripe n ph) ∧ (lk_exporters l = Some i ↔ holds_exporters ph) ∧
  (lk_writer l = None ∨ lk_readers l = ∅) ∧ well_placed ph.
Proof.
  intros [Hw Hr Hc He Hrw Hp] Hi. cbn in *. split_and!; eauto; intros.
  - by rewrite Hw, at_phase_here by done.
  - by rewrite Hr, at_phase_here by done.
  - by rewrite Hc, at_phase_here by done.
  - by rewrite He, at_phase_here by done.
Qed.

Lemma is_at_Some ph Q : is_at (Some ph) Q ↔ Q ph.
Proof. unfold is_at. naive_solver. Qed.

(** A lock word that does not change. *)
Lemma unchanged (X : Tid → Prop) i new Q : (X i ↔ is_at new Q) →
  ∀ j, X j ↔ if decide (j = i) then is_at new Q else X j.
Proof. intros H j. case_decide; [by subst|done]. Qed.

Lemma is_at_None Q : is_at None Q ↔ False.
Proof. unfold is_at. naive_solver. Qed.

(** A lock word its holder lets go of. *)
Lemma word_dropped (w : option Tid) i Q : w = Some i →
  ∀ j, None = Some j ↔ if decide (j = i) then is_at None Q else w = Some j.
Proof. intros -> j. unfold is_at. case_decide; naive_solver. Qed.

Lemma reader_dropped (r : gset Tid) i new Q : ¬ is_at new Q →
  ∀ j, j ∈ r ∖ {[i]} ↔ if decide (j = i) then is_at new Q else j ∈ r.
Proof. intros Hn j. case_decide; set_solver. Qed.

(** A stripe taken and a stripe let go, by the thread that moves. *)
Lemma stripe_taken (c : gmap nat Tid) i m ph : c !! m = None →
  (∀ n, ¬ c !! n = Some i) → (∀ n, holds_stripe n ph ↔ m = n) → ∀ n j,
  <[m := i]> c !! n = Some j ↔ if decide (j = i) then is_at (Some ph) (holds_stripe n) else c !! n = Some j.
Proof.
  intros Hm Hi Hph n j. rewrite lookup_insert_Some. case_decide as Hj.
  - subst. unfold is_at. specialize (Hi n). specialize (Hph n). naive_solver.
  - split; [by intros [[_ <-]|[_ ?]]|]. intros Hn. right. split; [congruence|done].
Qed.

Lemma stripe_dropped (c : gmap nat Tid) i m : c !! m = Some i → (∀ n, c !! n = Some i → m = n) → ∀ n j,
  delete m c !! n = Some j ↔ if decide (j = i) then is_at None (holds_stripe n) else c !! n = Some j.
Proof.
  intros Hm Hi n j. rewrite lookup_delete_Some. case_decide as Hj.
  - subst. unfold is_at. specialize (Hi n). naive_solver.
  - split; [by intros [_ ?]|]. intros Hn. split; [congruence|done].
Qed.

Ltac track :=
  split; cbn; intros; try case_decide; unfold is_at, holds_container, holds_exporters in *; cbn in *;
  try set_solver; try naive_solver.

Lemma inv_request i t l th : lock_inv (mkSystem l th) → th !! i = None →
  lock_inv (mkSystem l (<[i := Waiting t]> th)).
Proof.
  intros HI Hi. apply (inv_move i l th l (Some (Waiting t)) HI).
  destruct HI as [Hw Hr Hc He Hrw Hp]; cbn in *.
  pose proof (λ Q, at_phase_nowhere th i Q Hi) as Hno.
  split; intros; try case_decide; subst; unfold is_at, holds_container, holds_exporters;
    rewrite ?Hw, ?Hr, ?Hc, ?He; naive_solver.
Qed.

Lemma inv_acquire i l th ph l' ph' : lock_inv (mkSystem l th) → th !! i = Some ph →
  acquire_step i l ph = Some (l', ph') → lock_inv (mkSystem l' (<[i := ph']> th)).
Proof.
  intros HI Hi Hstep. apply (inv_move i l th l' (Some ph') HI).
  destruct (inv_here i l th ph HI Hi) as (Hw & Hr & Hc & He & Hrw & Hp). clear HI.
  destruct l as [w r c e]. cbn in *. destruct ph as [[q|ctx| |]|t|t|n]; cbn in *; simplify_eq.
  - case_bool_decide; simplify_eq. track.
  - case_bool_decide; simplify_eq. track.
  - case_bool_decide; [|done]. case_bool_decide; [|done]. simplify_eq/=. track.
  - case_bool_decide; simplify_eq. track.
  - destruct Hp as [ctx Ectx]. rewrite Ectx in Hstep. cbn in Hstep. case_bool_decide; simplify_eq.
    split; cbn; [apply unchanged..|apply stripe_taken|apply unchanged| |].
    all: rewrite ?is_at_Some, ?Hw, ?Hr, ?He; try done; unfold holds_container, holds_exporters;
      cbn [holds_shared holds_stripe well_placed].
    + naive_solver.
    + by intros n ?%Hc.
    + intros n. rewrite Ectx. cbn [fmap option_fmap option_map]. naive_solver.
    + naive_solver.
    + naive_solver.
Qed.

(** A lock word that says the same of the thread before and after. *)
Ltac same H :=
  apply unchanged; rewrite ?is_at_Some, ?is_at_None, H; unfold holds_container, holds_exporters;
  cbn [holds_shared]; try (by split; intros ?); naive_solver.

Lemma inv_release i l th ph l' ph' : lock_inv (mkSystem l th) → th !! i = Some ph →
  release_step i l ph = Some (l', ph') → lock_inv (mkSystem l' (partial_alter (λ _, ph') i th)).
Proof.
  intros HI Hi Hstep. apply (inv_move i l th l' ph' HI).
  destruct (inv_here i l th ph HI Hi) as (Hw & Hr & Hc & He & Hrw & Hp). clear HI.
  destruct l as [w r c e]. cbn [lk_writer lk_readers lk_contexts lk_exporters] in *.
  destruct ph as [t|t|[[ctx subj]|ctx| |]|n]; simplify_eq/=.
  1,2: split; cbn; [same Hw|apply reader_dropped; by intros ?%is_at_Some| |same He|set_solver|naive_solver].
  1,2: intros m; apply (unchanged (λ j, c !! m = Some j)); rewrite is_at_Some, Hc;
    cbn [holds_stripe ctx_of context fmap option_fmap option_map]; naive_solver.
  - split; cbn; [by apply word_dropped, Hw|same Hr| |same He|by left|done].
    intros m. by apply (unchanged (λ j, c !! m = Some j)); rewrite is_at_None, Hc.
  - split; cbn; [same Hw|same Hr| |by apply word_dropped, He|done|done].
    intros m. by apply (unchanged (λ j, c !! m = Some j)); rewrite is_at_None, Hc.
  - split; cbn; [same Hw|same Hr| |same He|done|done].
    apply stripe_dropped; [by apply Hc|]. intros m. by rewrite Hc.
Qed.

Lemma reachable_inv s : reachable s → lock_inv s.
Proof.
  induction 1 as [|i t l th _ IH Hi|s s' _ IH Hstep]; [apply inv_start|by apply inv_request|].
  destruct Hstep; eauto using inv_acquire, inv_release.
Qed.

(** ** Exclusion *)

Lemma held_compatible s i j a b : lock_inv s → i ≠ j →
  sys_threads s !! i = Some (Held a) → sys_threads s !! j = Some (Held b) →
  (a = ExportersTarget ∧ b ≠ ExportersTarget) ∨ (b = ExportersTarget ∧ a ≠ ExportersTarget) ∨
  ∃ c d, ctx_of a = Some c ∧ ctx_of b = Some d ∧ stripe c ≠ stripe d.
Proof.
  destruct s as [l th]. intros HI Hij Hi Hj. cbn in Hi, Hj.
  destruct (inv_here i l th _ HI Hi) as (Wi & Ri & Ci & Ei & Hrw & _).
  destruct (inv_here j l th _ HI Hj) as (Wj & Rj & Cj & Ej & _ & _).
  unfold holds_container, holds_exporters in *. cbn [holds_shared holds_stripe] in *.
  destruct (decide (a = ExportersTarget)) as [-> |Ha], (decide (b = ExportersTarget)) as [-> |Hb]; [|by auto..|].
  { assert (Some i = Some j) by (rewrite <-(proj2 Ei), (proj2 Ej) by done; done). congruence. }
  destruct (ctx_of a) as [c|] eqn:Ea, (ctx_of b) as [d|] eqn:Eb.
  - right; right. exists c, d. split_and!; [done..|]. intros E.
    assert (lk_contexts l !! stripe c = Some i) by (by apply Ci).
    assert (lk_contexts l !! stripe d = Some j) by (by apply Cj). congruence.
  - destruct b; simplify_eq/=. assert (i ∈ lk_readers l) by (apply Ri; eauto).
    destruct Hrw as [?|?]; [naive_solver|set_solver].
  - destruct a; simplify_eq/=. assert (j ∈ lk_readers l) by (apply Rj; eauto).
    destruct Hrw as [?|?]; [naive_solver|set_solver].
  - destruct a, b; simplify_eq/=. naive_solver.
Qed.

(** ** Progress *)

Definition weight (ph : Phase) : nat :=
  match ph with Waiting _ => 4 | Shared _ => 3 | Held _ => 2 | Dropping _ => 1 end.
Definition pending (th : gmap Tid Phase) : nat := map_fold (λ _ ph n, weight ph + n) 0 th.

Lemma pending_insert th i ph : th !! i = None → pending (<[i := ph]> th) = weight ph + pending th.
Proof. intros. unfold pending. rewrite map_fold_insert_L; [done| |done]. intros. lia. Qed.

Lemma pending_delete th i ph : th !! i = Some ph → pending th = weight ph + pending (delete i th).
Proof.
  intros Hi. rewrite <-(insert_delete_id th i ph) at 1 by done.
  apply pending_insert. apply lookup_delete_eq.
Qed.

Lemma pending_move th i ph new : th !! i = Some ph → from_option weight 0 new < weight ph →
  pending (partial_alter (λ _, new) i th) < pending th.
Proof.
  intros Hi Hw. rewrite (pending_delete th i ph) by done. destruct new as [ph'|]; cbn in Hw.
  - change (partial_alter (λ _, Some ph') i th) with (<[i := ph']> th).
    rewrite <-insert_delete_eq, pending_insert by apply lookup_delete_eq. lia.
  - change (partial_alter (λ _, None) i th) with (delete i th). lia.
Qed.

Lemma pending_size th : pending th ≤ 4 * size th.
Proof.
  induction th as [|i ph th Hi IH] using map_ind; [done|].
  rewrite pending_insert, map_size_insert_None by done. destruct ph; cbn [weight]; lia.
Qed.

Lemma acquire_weight i l ph l' ph' : acquire_step i l ph = Some (l', ph') → weight ph' < weight ph.
Proof.
  destruct l, ph as [[]|t| |]; cbn; try done; [..|destruct (ctx_of t); [cbn|done]];
    repeat case_bool_decide; cbn; intros; simplify_eq/=; lia.
Qed.

Lemma release_weight i l ph l' ph' : release_step i l ph = Some (l', ph') → from_option weight 0 ph' < weight ph.
Proof. destruct l, ph as [| |[[]| | |]|]; cbn; intros; simplify_eq/=; lia. Qed.

Lemma step_pending s s' : lock_step s s' → pending (sys_threads s') < pending (sys_threads s).
Proof.
  destruct 1 as [i l th ph l' ph' Hi Hs|i l th ph l' ph' Hi Hs]; cbn.
  - apply (pending_move th i ph (Some ph')); [done|]. by eapply acquire_weight.
  - apply (pending_move th i ph); [done|]. by eapply release_weight.
Qed.

Lemma steps_bounded n s s' : nsteps lock_step n s s' → n + pending (sys_threads s') ≤ pending (sys_threads s).
Proof. induction 1 as [|n s s' s'' Hs _ IH]; [done|]. apply step_pending in Hs. lia. Qed.

(** A mutation that runs can always finish. *)
Lemma holder_steps l th i ph : th !! i = Some ph → weight ph ≤ 2 → ∃ s', lock_step (mkSystem l th) s'.
Proof.
  intros Hi Hw. destruct (release_step i l ph) as [[l' ph']|] eqn:E; [by eexists; eapply step_release|].
  destruct l, ph as [| |[[]| | |]|]; cbn in *; (lia || done).
Qed.

(** Where nobody runs, a stripe is free for who waits for it. *)
Lemma shared_steps l th i t : lock_inv (mkSystem l th) → (∀ j ph, th !! j = Some ph → 2 < weight ph) →
  th !! i = Some (Shared t) → ∃ s', lock_step (mkSystem l th) s'.
Proof.
  intros HI Hno Hi. destruct (inv_placed _ HI _ _ Hi) as [ctx Hc].
  destruct (lk_contexts l !! stripe ctx) as [j|] eqn:Es.
  { apply (inv_contexts _ HI) in Es as (ph & Hj & Hph). apply Hno in Hj. destruct ph; cbn in *; (lia || done). }
  destruct l as [w r c e]. eexists. eapply step_acquire; [done|]. cbn [acquire_step]. rewrite Hc. cbn.
  by rewrite bool_decide_eq_true_2.
Qed.

(** Where everybody waits at the door, every lock is free. *)
Lemma waiting_steps l th i t : lock_inv (mkSystem l th) → (∀ j ph, th !! j = Some ph → 3 < weight ph) →
  th !! i = Some (Waiting t) → ∃ s', lock_step (mkSystem l th) s'.
Proof.
  intros HI Hno Hi.
  assert (∀ j Q, (∀ ph, Q ph → weight ph ≤ 3) → ¬ at_phase th j Q) as Hfree.
  { intros j Q HQ (ph & Hj & Hq). apply Hno in Hj. apply HQ in Hq. lia. }
  assert (lk_writer l = None) as Hw.
  { apply eq_None_ne_Some. intros j Hj%(inv_writer _ HI). by apply Hfree in Hj; [|intros ? ->; cbn; lia]. }
  assert (lk_exporters l = None) as He.
  { apply eq_None_ne_Some. intros j Hj%(inv_exporters _ HI). by apply Hfree in Hj; [|intros ? ->; cbn; lia]. }
  assert (lk_readers l = ∅) as Hr.
  { apply set_eq. intros j. split; [|set_solver]. intros Hj%(inv_readers _ HI).
    apply Hfree in Hj; [done|]. intros [] ?; cbn in *; (lia || done). }
  destruct l as [w r c e]; cbn in *; subst.
  destruct t; (eexists; eapply step_acquire; [done|]; cbn; by rewrite ?bool_decide_eq_true_2).
Qed.

Lemma stuck_empty s : lock_inv s → (¬ ∃ s', lock_step s s') → sys_threads s = ∅.
Proof.
  destruct s as [l th]. intros HI Hstuck. cbn. apply map_empty. intros i.
  assert (∀ j ph, th !! j = Some ph → 2 < weight ph) as H2.
  { intros j ph Hj. apply Nat.lt_nge. intros Hw. by apply Hstuck, (holder_steps l th j ph). }
  assert (∀ j ph, th !! j = Some ph → 3 < weight ph) as H3.
  { intros j ph Hj. pose proof (H2 j ph Hj). destruct ph; cbn in *; try lia.
    exfalso. by apply Hstuck, (shared_steps l th j t). }
  apply eq_None_ne_Some. intros ph Hi. pose proof (H3 i ph Hi). destruct ph; cbn in *; try lia.
  by apply Hstuck, (waiting_steps l th i t).
Qed.

Lemma reachable_steps s s' : reachable s → rtc lock_step s s' → reachable s'.
Proof. intros Hs. induction 1; [done|]. eauto using reach_step. Qed.

(** (C12) Two mutations that run at the same time cannot disturb each other: one
    of them is about exporters and the other is not, or both are about single
    contexts and the contexts differ. In particular nothing that writes schema
    state runs beside a mutation of the registry as a whole. *)
Theorem mutations_exclude (s : System) (i j : Tid) (a b : Target) :
  reachable s → i ≠ j → sys_threads s !! i = Some (Held a) → sys_threads s !! j = Some (Held b) →
  (a = ExportersTarget ∧ b ≠ ExportersTarget) ∨ (b = ExportersTarget ∧ a ≠ ExportersTarget) ∨
  ∃ c d, ctx_of a = Some c ∧ ctx_of b = Some d ∧ c ≠ d.
Proof.
  intros Hs%reachable_inv Hij Hi Hj.
  destruct (held_compatible s i j a b) as [?|[?|(c & d & ? & ? & Hcd)]]; [done..|by auto|by auto|].
  right; right. exists c, d. split_and!; [done..|congruence].
Qed.

(** (C13) The locks cannot deadlock: under any schedule, every mutation that has
    asked for its guard gets it and lets it go. From any reachable state at
    most four steps per mutation are possible, and a state in which no thread
    can move has no mutation left. *)
Theorem locks_drain (s : System) :
  reachable s →
  (∀ n s', nsteps lock_step n s s' → n ≤ 4 * size (sys_threads s)) ∧
  (∀ s', rtc lock_step s s' → (¬ ∃ s'', lock_step s' s'') → sys_threads s' = ∅).
Proof.
  intros Hs. split.
  - intros n s' Hn%steps_bounded. pose proof (pending_size (sys_threads s)). lia.
  - intros s' Hsteps Hstuck. apply stuck_empty; [|done]. by eapply reachable_inv, reachable_steps.
Qed.
End locks.

(** A mutation asks, and a thread moves on if it can. *)
Definition ask (i : Tid) (t : Target) (s : System) : System :=
  match sys_threads s !! i with
  | None => mkSystem (sys_locks s) (<[i := Waiting t]> (sys_threads s))
  | Some _ => s
  end.
Definition advance (hash : string → nat) (i : Tid) (s : System) : System :=
  match sys_threads s !! i ≫= acquire_step hash i (sys_locks s) with
  | Some (l', ph') => mkSystem l' (<[i := ph']> (sys_threads s))
  | None => s
  end.

Lemma ask_reachable hash i t s : reachable hash s → reachable hash (ask i t s).
Proof.
  destruct s as [l th]. intros Hs. unfold ask. cbn. destruct (th !! i) eqn:Hi; [done|]. by apply reach_request.
Qed.

Lemma advance_reachable hash i s : reachable hash s → reachable hash (advance hash i s).
Proof.
  destruct s as [l th]. intros Hs. unfold advance. cbn [sys_threads sys_locks].
  destruct (th !! i) as [ph|] eqn:Hi; [|done]. cbn [mbind option_bind].
  destruct (acquire_step hash i l ph) as [[l' ph']|] eqn:Ha; [|done].
  eapply reach_step; [exact Hs|]. by eapply step_acquire.
Qed.

(** Three mutations: two contexts at work, and the whole registry waiting. *)
Definition demo_locks : System :=
  let adv := advance String.length in
  adv 2 (adv 1 (adv 1 (ask 1 (ContextTarget ".a") (ask 2 GlobalTarget
    (adv 0 (adv 0 (ask 0 (ContextTarget ".") (mkSystem locks_default ∅)))))))).

Lemma demo_locks_reachable : reachable String.length demo_locks.
Proof. repeat first [apply advance_reachable|apply ask_reachable]. apply reach_start. Qed.

Lemma mutations_exclude_witness :
  reachable String.length demo_locks ∧
  sys_threads demo_locks !! 0 = Some (Held (ContextTarget ".")) ∧
  sys_threads demo_locks !! 1 = Some (Held (ContextTarget ".a")) ∧
  ∃ c d, ctx_of (ContextTarget ".") = Some c ∧ ctx_of (ContextTarget ".a") = Some d ∧ c ≠ d.
Proof.
  split; [apply demo_locks_reachable|]. do 2 (split; [vm_compute; reflexivity|]).
  destruct (mutations_exclude String.length demo_locks 0 1 (ContextTarget ".") (ContextTarget ".a"))
    as [[? _]|[[? _]|?]]; [apply demo_locks_reachable|lia|vm_compute; reflexivity..|discriminate|discriminate|assumption].
Defined.

Lemma locks_drain_witness :
  reachable String.length demo_locks ∧
  (∀ n s', nsteps (lock_step String.length) n demo_locks s' → n ≤ 12) ∧
  (∀ s', rtc (lock_step String.length) demo_locks s' →
     (¬ ∃ s'', lock_step String.length s' s'') → sys_threads s' = ∅).
Proof. split; [apply demo_locks_reachable|]. apply (locks_drain String.length demo_locks demo_locks_reachable). Defined.
