(* ===== verification/Avro.v ===== *)
(** Avro compatibility (schema/avro.rs): the table of named types, schemas with
    their logical types stripped, and the reader/writer checker with its memo
    of named pairs. The parser of the Avro library and its names are
    parameters; a schema has the constructors the checker matches on. *)
From S2P Require Import Prelude SortedVec RustStr Errors Json Model Context Snapshot Keys SchemaLayer.

Open Scope string_scope.
Open Scope nat_scope.
Open Scope list_scope.

Inductive Prim := PNull | PBoolean | PInt | PLong | PFloat | PDouble | PBytes | PString.
#[export] Instance Prim_eq_dec : EqDecision Prim.
Proof. solve_decision. Defined.

(** Writer primitive can be promoted to reader primitive. *)
Definition promotable (writer reader : Prim) : bool :=
  bool_decide (writer = reader)
  || match writer, reader with
     | PInt, (PLong | PFloat | PDouble) | PLong, (PFloat | PDouble) | PFloat, PDouble
     | PString, PBytes | PBytes, PString => true
     | _, _ => false
     end.

(** The Avro library's names and aliases: a qualified name, the namespace of a
    name, and an alias qualified by an enclosing namespace. *)
Class AvroNames := {
  Name : Type;
  Alias : Type;
  fullname : Name → string;
  namespace : Name → option string;
  alias_fullname : Alias → option string → string;
}.

Section avro.
Context {avro_names : AvroNames}.

Record FixedSchema := mkFixed { fx_name : Name; fx_aliases : option (list Alias); fx_size : Z }.
Record EnumSchema := mkEnum {
  en_name : Name; en_aliases : option (list Alias); en_symbols : list string; en_default : option string }.

(** [apache_avro::Schema], by the constructors [lower] and [collect_names] name. *)
Inductive Schema :=
| SNull | SBoolean
| SInt | SDate | STimeMillis
| SLong | STimeMicros | STimestampMillis | STimestampMicros | STimestampNanos
| SLocalTimestampMillis | SLocalTimestampMicros | SLocalTimestampNanos
| SFloat | SDouble
| SBytes | SBigDecimal | SString
| SUuidString | SUuidBytes | SUuidFixed (f : FixedSchema)
| SDuration (f : FixedSchema) | SFixed (f : FixedSchema)
| SDecimalBytes | SDecimalFixed (f : FixedSchema)
| SArray (items : Schema) | SMap (types : Schema) | SUnion (variants : list Schema)
| SRecord (name : Name) (aliases : option (list Alias)) (fields : list RecordField)
| SEnum (e : EnumSchema)
| SRef (name : Name)
with RecordField :=
| mkField (fd_name : string) (fd_aliases : list string) (fd_default : option Value) (fd_schema : Schema).

Definition f_name (f : RecordField) : string := let '(mkField n _ _ _) := f in n.
Definition f_aliases (f : RecordField) : list string := let '(mkField _ a _ _) := f in a.
Definition f_default (f : RecordField) : option Value := let '(mkField _ _ d _) := f in d.
Definition f_schema (f : RecordField) : Schema := let '(mkField _ _ _ s) := f in s.

Abbreviation Names := (gmap string Schema).

(** [out.entry(k).or_insert_with(|| s)]. *)
Definition or_insert (k : string) (s : Schema) (out : Names) : Names :=
  match out !! k with Some _ => out | None => <[k := s]> out end.

Fixpoint collect_names (s : Schema) (out : Names) : Names :=
  match s with
  | SRecord name _ fields =>
      foldl (λ out f, match f with mkField _ _ _ s => collect_names s out end)
        (or_insert (fullname name) s out) fields
  | SEnum e => or_insert (fullname (en_name e)) s out
  | SFixed f | SDuration f => or_insert (fullname (fx_name f)) s out
  | SDecimalFixed f | SUuidFixed f => or_insert (fullname (fx_name f)) (SFixed f) out
  | SArray items => collect_names items out
  | SMap types => collect_names types out
  | SUnion variants => foldl (λ out v, collect_names v out) out variants
  | _ => out
  end.

(** [rsplit('.').next()]. *)
Definition short_name (n : Name) : string := default (fullname n) (last (split_char "." (fullname n))).

(** A schema with logical types stripped. *)
Inductive Lowered :=
| LPrim (p : Prim)
| LArray (items : Schema)
| LMap (types : Schema)
| LUnion (variants : list Schema)
| LRecord (name : Name) (aliases : option (list Alias)) (fields : list RecordField)
| LEnum (e : EnumSchema)
| LFixed (f : FixedSchema)
| LUnresolved (n : string).

Definition type_name (l : Lowered) : string :=
  match l with
  | LPrim PNull => "null" | LPrim PBoolean => "boolean" | LPrim PInt => "int" | LPrim PLong => "long"
  | LPrim PFloat => "float" | LPrim PDouble => "double" | LPrim PBytes => "bytes" | LPrim PString => "string"
  | LArray _ => "array" | LMap _ => "map" | LUnion _ => "union" | LRecord _ _ _ => "record"
  | LEnum _ => "enum" | LFixed _ => "fixed" | LUnresolved _ => "unresolved reference"
  end.

(** A reference is followed through the table. The table holds definitions and
    no references, so two rounds are enough; a chain of references that never
    ends in a definition is left unresolved. *)
Fixpoint lower_fuel (fuel : nat) (s : Schema) (names : Names) : Lowered :=
  match s with
  | SNull => LPrim PNull
  | SBoolean => LPrim PBoolean
  | SInt | SDate | STimeMillis => LPrim PInt
  | SLong | STimeMicros | STimestampMillis | STimestampMicros | STimestampNanos
  | SLocalTimestampMillis | SLocalTimestampMicros | SLocalTimestampNanos => LPrim PLong
  | SFloat => LPrim PFloat
  | SDouble => LPrim PDouble
  | SBytes | SBigDecimal => LPrim PBytes
  | SString | SUuidString => LPrim PString
  | SUuidBytes | SDecimalBytes => LPrim PBytes
  | SUuidFixed f | SDuration f | SFixed f | SDecimalFixed f => LFixed f
  | SArray items => LArray items
  | SMap types => LMap types
  | SUnion variants => LUnion variants
  | SRecord name aliases fields => LRecord name aliases fields
  | SEnum e => LEnum e
  | SRef name =>
      match names !! fullname name, fuel with
      | Some def, S fuel => lower_fuel fuel def names
      | _, _ => LUnresolved (fullname name)
      end
  end.
Definition lower (s : Schema) (names : Names) : Lowered := lower_fuel 2 s names.

Definition named_key (l : Lowered) : option string :=
  match l with
  | LRecord name _ _ => Some (fullname name)
  | LEnum e => Some (fullname (en_name e))
  | LFixed f => Some (fullname (fx_name f))
  | _ => None
  end.

Definition prim_of (l : Lowered) : option Prim :=
  match l with LPrim p => Some p | _ => None end.

(** [std::mem::discriminant], with primitives compared by value. *)
Definition same_type (r w : Lowered) : bool :=
  match r, w with
  | LPrim a, LPrim b => bool_decide (a = b)
  | LArray _, LArray _ | LMap _, LMap _ | LUnion _, LUnion _ | LRecord _ _ _, LRecord _ _ _
  | LEnum _, LEnum _ | LFixed _, LFixed _ | LUnresolved _, LUnresolved _ => true
  | _, _ => false
  end.

(** ** Messages *)

Definition msg (error_type description info : string) : string :=
  "{errorType:'" +:+ error_type +:+ "', description:'" +:+ description +:+ "', additionalInfo:'" +:+ info +:+ "'}".

Definition loc_path (loc : list string) : string := "/" +:+ join "/" loc.

Section checker.
Context (rn wn : Names) (labels : Labels).
Let rl := lb_reader labels.
Let wl := lb_writer labels.

Definition names_match (reader : Name) (aliases : option (list Alias)) (writer : Name) : bool :=
  bool_decide (short_name reader = short_name writer)
  || match aliases with
     | Some a => existsb (λ a, bool_decide (alias_fullname a None = fullname writer)
                               || bool_decide (alias_fullname a (namespace reader) = fullname writer)) a
     | None => false
     end.

Definition type_mismatch (r w : Lowered) (loc : list string) : string :=
  msg "TYPE_MISMATCH"
    ("The type (path '" +:+ loc_path loc +:+ "') of a field in the " +:+ rl +:+ " schema does not match with the " +:+ wl +:+ " schema")
    ("reader type: " +:+ to_ascii_uppercase (type_name r) +:+ " not compatible with writer type: " +:+ to_ascii_uppercase (type_name w)).

Definition missing_union_branch (writer_type : string) (loc : list string) : string :=
  msg "MISSING_UNION_BRANCH"
    ("The " +:+ rl +:+ " schema is missing a type inside a union field at path '" +:+ loc_path loc +:+ "' in the " +:+ wl +:+ " schema")
    ("reader union lacking writer type: " +:+ to_ascii_uppercase writer_type).

Definition check_names (reader : Name) (aliases : option (list Alias)) (writer : Name) (loc : list string) : list string :=
  if names_match reader aliases writer then []
  else [msg "NAME_MISMATCH" ("The name of the schema has changed (path '" +:+ loc_path (loc ++ ["name"]) +:+ "')")
          ("expected: " +:+ fullname writer)].

Definition unresolved (n : string) (loc : list string) : string :=
  msg "TYPE_MISMATCH" ("Unresolved named type '" +:+ n +:+ "' at path '" +:+ loc_path loc +:+ "'") n.

Definition check_fixed (rf wf : FixedSchema) (loc : list string) : list string :=
  check_names (fx_name rf) (fx_aliases rf) (fx_name wf) loc ++
  (if decide (fx_size rf = fx_size wf) then []
   else [msg "FIXED_SIZE_MISMATCH"
           ("The size of FIXED type field at path '" +:+ loc_path (loc ++ ["size"]) +:+ "' in the " +:+ rl +:+
            " schema does not match with the " +:+ wl +:+ " schema")
           ("expected: " +:+ show (fx_size wf) +:+ ", found: " +:+ show (fx_size rf))]).

Definition missing_symbols (re we : EnumSchema) : list string :=
  dedup (sort_vec (filter (λ s, s ∉ en_symbols re) (en_symbols we))).

Definition check_enum (re we : EnumSchema) (loc : list string) : list string :=
  let missing := missing_symbols re we in
  let default_ok := match en_default re with Some d => bool_decide (d ∈ en_symbols re) | None => false end in
  check_names (en_name re) (en_aliases re) (en_name we) loc ++
  (if negb (bool_decide (missing = [])) && negb default_ok then
     let list := "[" +:+ join ", " missing +:+ "]" in
     [msg "MISSING_ENUM_SYMBOLS"
        ("The " +:+ rl +:+ " schema is missing enum symbols '" +:+ list +:+ "' at path '" +:+
         loc_path (loc ++ ["symbols"]) +:+ "' in the " +:+ wl +:+ " schema") list]
   else []).

(** The writer's field for a reader's: by name, else by one of its aliases. *)
Definition writer_field (rf : RecordField) (wfs : list RecordField) : option RecordField :=
  match List.find (λ wf, bool_decide (f_name wf = f_name rf)) wfs with
  | Some wf => Some wf
  | None => List.find (λ wf, bool_decide (f_name wf ∈ f_aliases rf)) wfs
  end.

Definition missing_default (rf : RecordField) (loc : list string) : string :=
  msg "READER_FIELD_MISSING_DEFAULT_VALUE"
    ("The field '" +:+ f_name rf +:+ "' at path '" +:+ loc_path loc +:+ "' in the " +:+ rl +:+
     " schema has no default value and is missing in the " +:+ wl +:+ " schema") (f_name rf).

(** ** The checker, threading its memo *)

(** The memoized result for a pair of named types. *)
Inductive Memo := InProgress | Done (m : list string).
Abbreviation MemoTable := (gmap (string * string) Memo).

(** A run of the checker: [None] when the fuel is used up. *)
Definition Run (A : Type) : Type := MemoTable → option (A * MemoTable).
#[export] Instance run_ret : MRet Run := λ A a memo, Some (a, memo).
#[export] Instance run_bind : MBind Run := λ A B f m memo,
  match m memo with Some (a, memo) => f a memo | None => None end.

(** [get(token, reader, writer, loc)]. *)
Abbreviation Getter := (option string → Schema → Schema → list string → Run (list string)).

Section calc.
Context (get : Getter).

(** A fresh root location. *)
Definition fresh (reader writer : Schema) : Run (list string) := get None reader writer [].

Fixpoint check_fields (pos : nat) (rfs wfs : list RecordField) (writer : Schema) (loc : list string) : Run (list string) :=
  match rfs with
  | [] => mret []
  | rf :: rfs =>
      let loc' := loc ++ ["fields"; show (Z.of_nat pos)] in
      here ← match writer_field rf wfs, f_default rf with
             | Some wf, _ => get (Some "type") (f_schema rf) (f_schema wf) loc'
             | None, Some _ => mret []
             | None, None =>
                 match lower (f_schema rf) rn with
                 | LEnum (mkEnum _ _ _ (Some _)) => get (Some "type") (f_schema rf) writer loc'
                 | _ => mret [missing_default rf loc']
                 end
             end;
      rest ← check_fields (S pos) rfs wfs writer loc;
      mret (here ++ rest)
  end.

(** Both are unions: every branch of the writer is read by the whole reader. *)
Fixpoint check_branches (i : nat) (reader : Schema) (ws : list Schema) (loc : list string) : Run (list string) :=
  match ws with
  | [] => mret []
  | wb :: ws =>
      m ← fresh reader wb;
      rest ← check_branches (S i) reader ws loc;
      mret ((if bool_decide (m = []) then []
             else [missing_union_branch (type_name (lower wb wn)) (loc ++ [show (Z.of_nat i)])]) ++ rest)
  end.

(** The writer alone is a union: every branch is readable. *)
Fixpoint read_branches (reader : Schema) (ws : list Schema) : Run (list string) :=
  match ws with
  | [] => mret []
  | wb :: ws => m ← fresh reader wb; rest ← read_branches reader ws; mret (m ++ rest)
  end.

(** The reader alone is a union: the first branch that reads the writer. *)
Fixpoint find_branch (rs : list Schema) (writer : Schema) : Run bool :=
  match rs with
  | [] => mret false
  | rb :: rs => m ← fresh rb writer; if bool_decide (m = []) then mret true else find_branch rs writer
  end.

Definition calc (reader writer : Schema) (loc : list string) : Run (list string) :=
  let r := lower reader rn in
  let w := lower writer wn in
  match r, w with
  | LUnresolved n, _ => mret [unresolved n loc]
  | _, LUnresolved n => mret [unresolved n loc]
  | LArray ri, LArray wi => get (Some "items") ri wi loc
  | LMap rv, LMap wv => get (Some "values") rv wv loc
  | LFixed rf, LFixed wf => mret (check_fixed rf wf loc)
  | LEnum re, LEnum we => mret (check_enum re we loc)
  | LRecord rname raliases rfs, LRecord wname _ wfs =>
      rest ← check_fields 0 rfs wfs writer loc;
      mret (check_names rname raliases wname loc ++ rest)
  | LUnion _, LUnion ws => check_branches 0 reader ws loc
  | _, _ =>
      if same_type r w then mret [] else
      match w, r, prim_of w with
      | LUnion ws, _, _ => read_branches reader ws
      | _, LUnion rs, _ =>
          found ← find_branch rs writer;
          mret (if found : bool then [] else [missing_union_branch (type_name w) loc])
      | _, LPrim rp, Some wp => mret (if promotable wp rp then [] else [type_mismatch r w loc])
      | _, _, _ => mret [type_mismatch r w loc]
      end
  end.
End calc.

Definition pair_key (reader writer : Schema) : option (string * string) :=
  match named_key (lower reader rn), named_key (lower writer wn) with
  | Some r, Some w => Some (r, w)
  | _, _ => None
  end.

Fixpoint get (fuel : nat) (token : option string) (reader writer : Schema) (loc : list string) : Run (list string) :=
  λ memo,
  match fuel with
  | O => None
  | S fuel =>
      let loc := loc ++ option_list token in
      match pair_key reader writer with
      | None => calc (get fuel) reader writer loc memo
      | Some k =>
          match memo !! k with
          | Some InProgress => Some ([], memo)
          | Some (Done m) => Some (m, memo)
          | None =>
              match calc (get fuel) reader writer loc (<[k := InProgress]> memo) with
              | Some (r, memo) => Some (r, <[k := Done r]> memo)
              | None => None
              end
          end
      end
  end.
End checker.

(** A parsed schema with its table of names. *)
Record AvroSchema := mkAvro { av_schema : Schema; av_names : Names }.

(** The table of a schema and of the schemas it references. *)
Definition avro_of (schema : Schema) (schemata : list Schema) : AvroSchema :=
  mkAvro schema (foldl (λ out s, collect_names s out) (collect_names schema ∅) schemata).

Definition can_read_fuel (fuel : nat) (reader writer : AvroSchema) (labels : Labels) : option (list string) :=
  fst <$> get (av_names reader) (av_names writer) labels fuel None (av_schema reader) (av_schema writer) [] ∅.
End avro.
