(* ===== verification/AvroChecker.v ===== *)
(** The Avro checker terminates on every pair of schemas, and every well-formed
    schema reads what it wrote. *)
From S2P Require Import Prelude SortedVec RustStr Errors Json Model Context Snapshot Keys SchemaLayer Avro.

Open Scope string_scope.
Open Scope nat_scope.
Open Scope list_scope.

Section checker_facts.
Context {avro_names : AvroNames}.

Abbreviation Names := (gmap string Schema).
Abbreviation MemoTable := (gmap (string * string) Memo).

(** ** Induction over nested schemas *)

Section schema_rect.
Context (P : Schema → Prop).
Context (Hrecord : ∀ n a fs, Forall (λ f, P (f_schema f)) fs → P (SRecord n a fs)).
Context (Hunion : ∀ vs, Forall P vs → P (SUnion vs)).
Context (Harray : ∀ s, P s → P (SArray s)) (Hmap : ∀ s, P s → P (SMap s)).
Context (Hleaf : ∀ s, match s with SRecord _ _ _ | SUnion _ | SArray _ | SMap _ => False | _ => True end → P s).

Fixpoint schema_nested_ind (s : Schema) : P s :=
  match s with
  | SRecord n a fs =>
      Hrecord n a fs ((fix go (fs : list RecordField) : Forall (λ f, P (f_schema f)) fs :=
        match fs with
        | [] => Forall_nil_2 _
        | mkField fn fa fd s :: fs =>
            Forall_cons_2 (λ f, P (f_schema f)) (mkField fn fa fd s) fs (schema_nested_ind s) (go fs)
        end) fs)
  | SUnion vs =>
      Hunion vs ((fix go (vs : list Schema) : Forall P vs :=
        match vs with [] => Forall_nil_2 _ | v :: vs => Forall_cons_2 P v vs (schema_nested_ind v) (go vs) end) vs)
  | SArray s => Harray s (schema_nested_ind s)
  | SMap s => Hmap s (schema_nested_ind s)
  | s => Hleaf s I
  end.
End schema_rect.

(** ** Sizes, and the definitions inside a schema *)

Fixpoint schema_size (s : Schema) : nat :=
  match s with
  | SRecord _ _ fs => S (foldr (λ f n, match f with mkField _ _ _ s => schema_size s end + n) 0 fs)
  | SUnion vs => S (foldr (λ v n, schema_size v + n) 0 vs)
  | SArray s | SMap s => S (schema_size s)
  | _ => 1
  end.

(** What [collect_names] would insert, in its order. *)
Fixpoint schema_defs (s : Schema) : list (string * Schema) :=
  match s with
  | SRecord n _ fs => (fullname n, s) :: foldr (λ f l, match f with mkField _ _ _ s => schema_defs s end ++ l) [] fs
  | SEnum e => [(fullname (en_name e), s)]
  | SFixed f | SDuration f => [(fullname (fx_name f), s)]
  | SDecimalFixed f | SUuidFixed f => [(fullname (fx_name f), SFixed f)]
  | SArray s | SMap s => schema_defs s
  | SUnion vs => foldr (λ v l, schema_defs v ++ l) [] vs
  | _ => []
  end.

Definition insert_all (l : list (string * Schema)) (m : Names) : Names :=
  foldl (λ m kd, or_insert kd.1 kd.2 m) m l.

Lemma insert_all_cons kd l m : insert_all (kd :: l) m = insert_all l (or_insert kd.1 kd.2 m).
Proof. done. Qed.
Arguments insert_all : simpl never.

Lemma insert_all_app l k m : insert_all (l ++ k) m = insert_all k (insert_all l m).
Proof. apply foldl_app. Qed.

Lemma collect_fields fs : Forall (λ f, ∀ m, collect_names (f_schema f) m = insert_all (schema_defs (f_schema f)) m) fs →
  ∀ m, foldl (λ out f, match f with mkField _ _ _ s => collect_names s out end) m fs
       = insert_all (foldr (λ f l, match f with mkField _ _ _ s => schema_defs s end ++ l) [] fs) m.
Proof.
  induction 1 as [|[fn fa fd s] fs Hf _ IH]; intros m; [done|]. cbn. rewrite insert_all_app, IH. by rewrite Hf.
Qed.

Lemma collect_variants vs : Forall (λ v, ∀ m, collect_names v m = insert_all (schema_defs v) m) vs →
  ∀ m, foldl (λ out v, collect_names v out) m vs = insert_all (foldr (λ v l, schema_defs v ++ l) [] vs) m.
Proof. induction 1 as [|v vs Hv _ IH]; intros m; [done|]. cbn. by rewrite insert_all_app, IH, Hv. Qed.

Lemma collect_names_defs s m : collect_names s m = insert_all (schema_defs s) m.
Proof.
  revert m. induction s as [n a fs IH|vs IH|s IH|s IH|s Hs] using schema_nested_ind; intros m.
  - cbn. by apply collect_fields.
  - cbn. by apply collect_variants.
  - apply IH.
  - apply IH.
  - by destruct s.
Qed.

Lemma insert_all_lookup l m k d : insert_all l m !! k = Some d → m !! k = Some d ∨ (k, d) ∈ l.
Proof.
  revert m; induction l as [|[k' d'] l IH]; intros m; [by left|].
  rewrite insert_all_cons. intros [H|H]%IH; [|right; by right]. cbn [fst snd] in H. unfold or_insert in H. destruct (m !! k') eqn:E; [by left|].
  apply lookup_insert_Some in H as [[-> ->]|[_ ?]]; [right; by left|by left].
Qed.

Lemma or_insert_dom k d m x : x ∈ dom (or_insert k d m) ↔ x = k ∨ x ∈ dom m.
Proof.
  unfold or_insert. destruct (m !! k) eqn:E; [|set_solver].
  apply elem_of_dom_2 in E. set_solver.
Qed.

Lemma insert_all_dom l m x : x ∈ dom (insert_all l m) ↔ x ∈ l.*1 ∨ x ∈ dom m.
Proof.
  revert m; induction l as [|[k d] l IH]; intros m; [unfold insert_all; set_solver|].
  rewrite insert_all_cons, IH, or_insert_dom. set_solver.
Qed.

(** Every definition inside a definition is itself listed. *)
Lemma schema_defs_closed s k d : (k, d) ∈ schema_defs s → ∀ kd, kd ∈ schema_defs d → kd ∈ schema_defs s.
Proof.
  induction s as [n a fs IH|vs IH|s IH|s IH|s Hs] using schema_nested_ind; cbn.
  - intros [[= -> ->]|Hin]%elem_of_cons; [done|]. intros kd Hkd. right.
    induction IH as [|[fn fa fd s] fs Hf _ IHfs]; cbn in *; [by apply elem_of_nil in Hin|].
    rewrite elem_of_app in *. naive_solver.
  - intros Hin kd Hkd. induction IH as [|v vs Hv _ IHvs]; cbn in *; [by apply elem_of_nil in Hin|].
    rewrite elem_of_app in *. naive_solver.
  - done.
  - done.
  - destruct s; try done; cbn; intros Hin; try by apply elem_of_nil in Hin.
    all: apply list_elem_of_singleton in Hin as [= -> ->]; cbn; set_solver.
Qed.

(** ** Tables *)

(** What a table holds: definitions, never references. *)
Definition is_def (s : Schema) : Prop :=
  match s with SRecord _ _ _ | SEnum _ | SFixed _ | SDuration _ => True | _ => False end.

(** A schema of bounded size whose definitions are all in the table. *)
Definition good (names : Names) (B : nat) (s : Schema) : Prop :=
  schema_size s ≤ B ∧ ∀ kd, kd ∈ schema_defs s → kd.1 ∈ dom names.
Definition table_good (names : Names) (B : nat) : Prop :=
  ∀ k d, names !! k = Some d → is_def d ∧ good names B d.

Lemma defs_is_def s k d : (k, d) ∈ schema_defs s → is_def d.
Proof.
  induction s as [n a fs IH|vs IH|s IH|s IH|s Hs] using schema_nested_ind; cbn.
  - intros [[= -> ->]|Hin]%elem_of_cons; [done|].
    induction IH as [|[fn fa fd s] fs Hf _ IHfs]; cbn in *; [by apply elem_of_nil in Hin|].
    rewrite elem_of_app in Hin. naive_solver.
  - intros Hin. induction IH as [|v vs Hv _ IHvs]; cbn in *; [by apply elem_of_nil in Hin|].
    rewrite elem_of_app in Hin. naive_solver.
  - done.
  - done.
  - destruct s; try done; cbn; intros Hin; try by apply elem_of_nil in Hin.
    all: by apply list_elem_of_singleton in Hin as [= -> ->].
Qed.

Section lowering.
Context (names : Names) (B : nat) (Htable : table_good names B).

(** A reference is its definition; anything else is itself. *)
Lemma lower_ref n d : names !! fullname n = Some d → lower (SRef n) names = lower d names ∧ is_def d ∧ good names B d.
Proof.
  intros Hd. destruct (Htable _ _ Hd) as [Hdef Hgood]. split; [|done].
  unfold lower at 1. cbn. rewrite Hd. by destruct d.
Qed.

Ltac lower_inv s H :=
  destruct s; try discriminate H; try (by injection H as <-);
  unfold lower in H; cbn in H;
  match type of H with context [names !! ?k] =>
    let d := fresh "d" in destruct (names !! k) as [d|] eqn:?; [|discriminate H];
    match goal with E : names !! k = Some d |- _ => destruct (Htable _ _ E) as [? _] end;
    destruct d; done || discriminate H
  end.

Lemma lower_array s i : lower s names = LArray i → s = SArray i.
Proof. intros H. lower_inv s H. Qed.
Lemma lower_map s i : lower s names = LMap i → s = SMap i.
Proof. intros H. lower_inv s H. Qed.
Lemma lower_union s vs : lower s names = LUnion vs → s = SUnion vs.
Proof. intros H. lower_inv s H. Qed.

(** The definition behind a named type is good when the schema is. *)
Lemma lower_named s k : good names B s → named_key (lower s names) = Some k →
  ∃ d, lower d names = lower s names ∧ good names B d ∧ ∃ d', (k, d') ∈ schema_defs d.
Proof.
  intros Hs Hk.
  assert (∀ d, good names B d → (∀ n, d ≠ SRef n) → named_key (lower d names) = Some k →
    ∃ d0, lower d0 names = lower d names ∧ good names B d0 ∧ ∃ d', (k, d') ∈ schema_defs d0) as Hdirect.
  { intros d Hd Hnr Hkd. exists d. split_and!; [done..|].
    destruct d; cbn in Hkd; try discriminate Hkd; try injection Hkd as <-; try (eexists; by left).
    by destruct (Hnr name). }
  destruct s; try (by apply Hdirect).
  destruct (names !! fullname name) as [d|] eqn:Hd; [|unfold lower in Hk; cbn in Hk; by rewrite Hd in Hk].
  destruct (lower_ref _ _ Hd) as (-> & Hdef & Hgood). rewrite (proj1 (lower_ref _ _ Hd)) in Hk.
  apply Hdirect; [done| |done]. by intros n ->.
Qed.

Lemma lower_key_dom s k : good names B s → named_key (lower s names) = Some k → k ∈ dom names.
Proof. intros Hs Hk. destruct (lower_named s k Hs Hk) as (d & _ & [_ Hd] & d' & Hin). by apply Hd in Hin. Qed.

Lemma good_field n a fs f : good names B (SRecord n a fs) → f ∈ fs → good names B (f_schema f).
Proof.
  intros [Hsz Hdefs] Hf. cbn in Hsz, Hdefs.
  assert (schema_size (f_schema f) ≤ foldr (λ f n, match f with mkField _ _ _ s => schema_size s end + n) 0 fs ∧
    ∀ kd, kd ∈ schema_defs (f_schema f) →
      kd ∈ foldr (λ f l, match f with mkField _ _ _ s => schema_defs s end ++ l) [] fs) as [Hs Hd].
  { clear -Hf. induction fs as [|[fn fa fd s] fs IH]; [by apply elem_of_nil in Hf|].
    apply elem_of_cons in Hf as [-> |Hf]; cbn.
    - split; [lia|]. intros. rewrite elem_of_app. by left.
    - destruct (IH Hf). split; [lia|]. intros. rewrite elem_of_app. right. auto. }
  split; [lia|]. intros kd Hkd. apply Hdefs. right. auto.
Qed.

Lemma good_record s n a fs f : good names B s → lower s names = LRecord n a fs → f ∈ fs → good names B (f_schema f).
Proof.
  intros Hs Hl. destruct (lower_named s (fullname n) Hs) as (d & Hd & Hgood & d' & Hin); [by rewrite Hl|].
  rewrite Hl in Hd. destruct d; try discriminate Hd.
  - injection Hd as -> -> ->. by eapply good_field.
  - by apply elem_of_nil in Hin.
Qed.

Lemma good_items i : good names B (SArray i) ∨ good names B (SMap i) → good names B i.
Proof. intros [[Hs Hd]|[Hs Hd]]; (split; [cbn in Hs; lia|exact Hd]). Qed.

Lemma union_member v vs : v ∈ vs → schema_size v < schema_size (SUnion vs) ∧
  ∀ kd, kd ∈ schema_defs v → kd ∈ schema_defs (SUnion vs).
Proof.
  intros Hv. cbn. induction vs as [|v' vs IH]; [by apply elem_of_nil in Hv|].
  apply elem_of_cons in Hv as [-> |Hv]; cbn.
  - split; [lia|]. intros. rewrite elem_of_app. by left.
  - destruct (IH Hv). split; [lia|]. intros. rewrite elem_of_app. right. auto.
Qed.

Lemma good_variant vs v : good names B (SUnion vs) → v ∈ vs → good names B v.
Proof. intros [? Hd] [? Hin]%union_member. split; [lia|]. eauto. Qed.

(** What is left to descend into: nothing below a named type, since its pairs
    are remembered. *)
Definition descent (s : Schema) : nat :=
  match lower s names with LArray _ | LMap _ | LUnion _ => schema_size s | _ => 0 end.

Lemma descent_size s : descent s ≤ schema_size s.
Proof. unfold descent. destruct (lower s names); lia. Qed.
Lemma descent_good s : good names B s → descent s ≤ B.
Proof. intros [? _]. pose proof (descent_size s). lia. Qed.
End lowering.

(** ** Runs that end *)

Definition total {A} (m : Run A) (memo : MemoTable) : Prop :=
  ∃ a memo', m memo = Some (a, memo') ∧ dom memo ⊆ dom memo'.

Lemma total_ret {A} (a : A) memo : total (mret a) memo.
Proof. by exists a, memo. Qed.

Lemma total_bind {A B} (m : Run A) (f : A → Run B) memo : total m memo →
  (∀ a memo', dom memo ⊆ dom memo' → total (f a) memo') → total (m ≫= f) memo.
Proof.
  intros (a & memo' & Hm & Hsub) Hf. destruct (Hf a memo' Hsub) as (b & memo'' & Hb & Hsub').
  exists b, memo''. unfold mbind, run_bind. rewrite Hm. split; [done|set_solver].
Qed.

Section termination.
Context (rn wn : Names) (Br Bw : nat) (labels : Labels).
Context (Hr : table_good rn Br) (Hw : table_good wn Bw).

(** The pairs a comparison may ask about next. *)
Inductive child (r w : Schema) : Schema → Schema → Prop :=
| child_items ri wi : lower r rn = LArray ri → lower w wn = LArray wi → child r w ri wi
| child_values ri wi : lower r rn = LMap ri → lower w wn = LMap wi → child r w ri wi
| child_field n a rfs n' a' wfs rf wf : lower r rn = LRecord n a rfs → lower w wn = LRecord n' a' wfs →
    rf ∈ rfs → wf ∈ wfs → child r w (f_schema rf) (f_schema wf)
| child_enum n a rfs n' a' wfs rf : lower r rn = LRecord n a rfs → lower w wn = LRecord n' a' wfs →
    rf ∈ rfs → child r w (f_schema rf) w
| child_writer ws wb : lower w wn = LUnion ws → wb ∈ ws → child r w r wb
| child_reader rs rb : lower r rn = LUnion rs → rb ∈ rs → child r w rb w.

Lemma child_good r w r' w' : good rn Br r → good wn Bw w → child r w r' w' → good rn Br r' ∧ good wn Bw w'.
Proof.
  intros Hgr Hgw. destruct 1.
  - rewrite (lower_array rn Br Hr r ri) in Hgr by done. rewrite (lower_array wn Bw Hw w wi) in Hgw by done. split; eapply good_items; eauto.
  - rewrite (lower_map rn Br Hr r ri) in Hgr by done. rewrite (lower_map wn Bw Hw w wi) in Hgw by done. split; eapply good_items; eauto.
  - split; by eapply good_record.
  - split; [by eapply good_record|done].
  - rewrite (lower_union wn Bw Hw w ws) in Hgw by done. split; [done|by eapply good_variant].
  - rewrite (lower_union rn Br Hr r rs) in Hgr by done. split; [by eapply good_variant|done].
Qed.

Lemma child_descent r w r' w' : pair_key rn wn r w = None → child r w r' w' →
  descent rn r' + descent wn w' < descent rn r + descent wn w.
Proof.
  intros Hkey. destruct 1 as [ri wi E1 E2|ri wi E1 E2|n a rfs n' a' wfs rf wf E1 E2 _ _
    |n a rfs n' a' wfs rf E1 E2 _|ws wb E1 Hin|rs rb E1 Hin].
  - unfold descent at 3 4. rewrite E1, E2. apply (lower_array rn Br Hr) in E1 as ->.
    apply (lower_array wn Bw Hw) in E2 as ->. cbn.
    pose proof (descent_size rn ri). pose proof (descent_size wn wi). lia.
  - unfold descent at 3 4. rewrite E1, E2. apply (lower_map rn Br Hr) in E1 as ->.
    apply (lower_map wn Bw Hw) in E2 as ->. cbn.
    pose proof (descent_size rn ri). pose proof (descent_size wn wi). lia.
  - unfold pair_key in Hkey. by rewrite E1, E2 in Hkey.
  - unfold pair_key in Hkey. by rewrite E1, E2 in Hkey.
  - unfold descent at 4. rewrite E1. apply (lower_union wn Bw Hw) in E1 as ->.
    destruct (union_member _ _ Hin). pose proof (descent_size wn wb). lia.
  - unfold descent at 3. rewrite E1. apply (lower_union rn Br Hr) in E1 as ->.
    destruct (union_member _ _ Hin). pose proof (descent_size rn rb). lia.
Qed.

(** A comparison ends when the comparisons it asks for do. *)
Section calc_total.
Context (get' : option string → Schema → Schema → list string → Run (list string)).
Context (r w : Schema) (memo : MemoTable).
Context (Hget : ∀ tok loc r' w' memo', child r w r' w' → dom memo ⊆ dom memo' → total (get' tok r' w' loc) memo').

Lemma check_fields_total n a all n' a' wfs loc rfs pos memo' :
  lower r rn = LRecord n a all → lower w wn = LRecord n' a' wfs → rfs ⊆ all → dom memo ⊆ dom memo' →
  total (check_fields rn labels get' pos rfs wfs w loc) memo'.
Proof.
  intros Er Ew. revert pos memo'. induction rfs as [|rf rfs IH]; intros pos memo' Hsub Hm; [apply total_ret|].
  cbn [check_fields]. apply total_bind.
  - destruct (writer_field rf wfs) as [wf|] eqn:Ef.
    + apply Hget; [|done]. eapply child_field; [done..|set_solver|]. unfold writer_field in Ef.
      case_match eqn:E1; simplify_eq; [apply find_some in E1 as [? _]|apply find_some in Ef as [? _]];
        by apply list_elem_of_In.
    + destruct (f_default rf); [apply total_ret|]. destruct (lower (f_schema rf) rn) as [| | | | |[? ? ? []]| |];
        try apply total_ret. apply Hget; [|done]. eapply child_enum; [done..|set_solver].
  - intros here memo'' Hm'. apply total_bind; [apply IH; set_solver|]. intros. apply total_ret.
Qed.

Lemma check_branches_total ws all loc i memo' :
  lower w wn = LUnion all → ws ⊆ all → dom memo ⊆ dom memo' → total (check_branches wn labels get' i r ws loc) memo'.
Proof.
  intros Ew. revert i memo'. induction ws as [|wb ws IH]; intros i memo' Hsub Hm; [apply total_ret|].
  cbn [check_branches]. apply total_bind; [apply Hget; [eapply child_writer; [done|set_solver]|done]|].
  intros m memo'' Hm'. apply total_bind; [apply IH; set_solver|]. intros. apply total_ret.
Qed.

Lemma read_branches_total ws all memo' :
  lower w wn = LUnion all → ws ⊆ all → dom memo ⊆ dom memo' → total (read_branches get' r ws) memo'.
Proof.
  intros Ew. revert memo'. induction ws as [|wb ws IH]; intros memo' Hsub Hm; [apply total_ret|].
  cbn [read_branches]. apply total_bind; [apply Hget; [eapply child_writer; [done|set_solver]|done]|].
  intros m memo'' Hm'. apply total_bind; [apply IH; set_solver|]. intros. apply total_ret.
Qed.

Lemma find_branch_total rs all memo' :
  lower r rn = LUnion all → rs ⊆ all → dom memo ⊆ dom memo' → total (find_branch get' rs w) memo'.
Proof.
  intros Er. revert memo'. induction rs as [|rb rs IH]; intros memo' Hsub Hm; [apply total_ret|].
  cbn [find_branch]. apply total_bind; [apply Hget; [eapply child_reader; [done|set_solver]|done]|].
  intros m memo'' Hm'. case_bool_decide; [apply total_ret|]. apply IH; set_solver.
Qed.

Lemma calc_total loc : total (calc rn wn labels get' r w loc) memo.
Proof.
  unfold calc. destruct (lower r rn) as [rp|ri|ri|rs|n a rfs|re|rf|un] eqn:Er,
    (lower w wn) as [wp|wi|wi|ws|n' a' wfs|we|wf|un'] eqn:Ew; try apply total_ret; cbn [same_type];
    try (case_bool_decide; apply total_ret);
    try (by eapply read_branches_total); try (by eapply check_branches_total);
    try (apply total_bind; [by eapply find_branch_total|intros; apply total_ret]).
  - apply Hget; [by eapply child_items|done].
  - apply Hget; [by eapply child_values|done].
  - apply total_bind; [by eapply check_fields_total|]. intros. apply total_ret.
Qed.
End calc_total.

(** ** The measure: pairs of names not remembered yet, then the descent *)

Definition pairs_of : gset (string * string) :=
  list_to_set (list_prod (elements (dom rn)) (elements (dom wn))).
Definition remaining (memo : MemoTable) : nat := size (pairs_of ∖ dom memo).
Definition step_cost : nat := S (Br + Bw).
Definition enough (fuel : nat) (memo : MemoTable) (r w : Schema) : Prop :=
  remaining memo * step_cost + (descent rn r + descent wn w) < fuel.

Lemma pair_in_pairs r w k : good rn Br r → good wn Bw w → pair_key rn wn r w = Some k → k ∈ pairs_of.
Proof.
  intros Hgr Hgw. unfold pair_key.
  destruct (named_key (lower r rn)) as [a|] eqn:Ea; [|done]. destruct (named_key (lower w wn)) as [b|] eqn:Eb; [|done].
  intros [= <-]. unfold pairs_of. apply elem_of_list_to_set, list_elem_of_In, in_prod; apply list_elem_of_In, elem_of_elements.
  - exact (lower_key_dom rn Br Hr r a Hgr Ea).
  - exact (lower_key_dom wn Bw Hw w b Hgw Eb).
Qed.

Lemma remaining_mono memo memo' : dom memo ⊆ dom memo' → remaining memo' ≤ remaining memo.
Proof. intros. unfold remaining. apply subseteq_size. set_solver. Qed.

Lemma remaining_insert memo k m : k ∈ pairs_of → memo !! k = None → remaining (<[k := m]> memo) < remaining memo.
Proof.
  intros Hk Hm%not_elem_of_dom. unfold remaining. apply subset_size. rewrite dom_insert_L. set_solver.
Qed.

Lemma get_total fuel tok r w loc memo : good rn Br r → good wn Bw w → enough fuel memo r w →
  total (get rn wn labels fuel tok r w loc) memo.
Proof.
  revert tok r w loc memo. induction fuel as [|fuel IH]; intros tok r w loc memo Hgr Hgw Hf; [by unfold enough in Hf; lia|].
  assert (∀ memo0, (∀ r' w' memo', child r w r' w' → dom memo0 ⊆ dom memo' → enough fuel memo' r' w') →
    ∀ loc', total (calc rn wn labels (get rn wn labels fuel) r w loc') memo0) as Hcalc.
  { intros memo0 Hen loc'. apply calc_total. intros tok' loc'' r' w' memo' Hc Hsub.
    destruct (child_good r w r' w' Hgr Hgw Hc). apply IH; eauto. }
  unfold total. cbn [get]. destruct (pair_key rn wn r w) as [k|] eqn:Ek.
  - destruct (memo !! k) as [[|m]|] eqn:Em; [by eexists _, _..|].
    assert (remaining (<[k:=InProgress]> memo) < remaining memo) as Hlt
      by (apply remaining_insert; [by eapply pair_in_pairs|done]).
    destruct (Hcalc (<[k:=InProgress]> memo)) with (loc' := loc ++ option_list tok) as (a & memo' & -> & Hsub).
    { intros r' w' memo' Hc Hsub. destruct (child_good r w r' w' Hgr Hgw Hc) as [Hg1 Hg2].
      pose proof (descent_good rn Br r' Hg1). pose proof (descent_good wn Bw w' Hg2).
      pose proof (remaining_mono _ _ Hsub). unfold enough, step_cost in *. nia. }
    eexists _, _. split; [done|]. rewrite !dom_insert_L in *. set_solver.
  - destruct (Hcalc memo) with (loc' := loc ++ option_list tok) as (a & memo' & -> & Hsub); [|by eauto].
    intros r' w' memo' Hc Hsub. pose proof (child_descent r w r' w' Ek Hc). pose proof (remaining_mono _ _ Hsub).
    unfold enough, step_cost in *. nia.
Qed.
End termination.


(** ** More fuel changes nothing *)

Definition extends {A} (m m' : Run A) : Prop := ∀ memo x, m memo = Some x → m' memo = Some x.

Lemma extends_refl {A} (m : Run A) : extends m m.
Proof. by intros ??. Qed.
Lemma extends_bind {A B} (m m' : Run A) (f f' : A → Run B) :
  extends m m' → (∀ a, extends (f a) (f' a)) → extends (m ≫= f) (m' ≫= f').
Proof.
  intros Hm Hf memo x. unfold mbind, run_bind. destruct (m memo) as [[a memo']|] eqn:E; [|done].
  rewrite (Hm _ _ E). apply Hf.
Qed.

Section more.
Context (rn wn : Names) (labels : Labels).
Context (g g' : option string → Schema → Schema → list string → Run (list string)).
Context (Hg : ∀ tok r w loc, extends (g tok r w loc) (g' tok r w loc)).

Ltac ext := repeat first [apply Hg | apply extends_refl | apply extends_bind; [|intros ?]].

Lemma check_fields_more pos rfs wfs w loc :
  extends (check_fields rn labels g pos rfs wfs w loc) (check_fields rn labels g' pos rfs wfs w loc).
Proof.
  revert pos. induction rfs as [|rf rfs IH]; intros pos; cbn [check_fields]; [ext|].
  ext; [|apply IH]. destruct (writer_field rf wfs); [ext|]. destruct (f_default rf); [ext|].
  destruct (lower (f_schema rf) rn) as [| | | | |[? ? ? []]| |]; ext.
Qed.
Lemma check_branches_more i r ws loc :
  extends (check_branches wn labels g i r ws loc) (check_branches wn labels g' i r ws loc).
Proof. revert i. induction ws as [|wb ws IH]; intros i; cbn [check_branches]; unfold fresh; ext. apply IH. Qed.
Lemma read_branches_more r ws : extends (read_branches g r ws) (read_branches g' r ws).
Proof. induction ws as [|wb ws IH]; cbn [read_branches]; unfold fresh; ext. apply IH. Qed.
Lemma find_branch_more rs w : extends (find_branch g rs w) (find_branch g' rs w).
Proof.
  induction rs as [|rb rs IH]; cbn [find_branch]; unfold fresh; ext. case_bool_decide; [ext|apply IH].
Qed.

Lemma calc_more r w loc : extends (calc rn wn labels g r w loc) (calc rn wn labels g' r w loc).
Proof.
  unfold calc. destruct (lower r rn), (lower w wn); cbn [same_type]; try case_bool_decide; ext;
    auto using check_fields_more, check_branches_more, read_branches_more, find_branch_more.
Qed.
End more.

Lemma get_more rn wn labels fuel fuel' tok r w loc : fuel ≤ fuel' →
  extends (get rn wn labels fuel tok r w loc) (get rn wn labels fuel' tok r w loc).
Proof.
  revert fuel' tok r w loc. induction fuel as [|fuel IH]; intros [|fuel'] tok r w loc Hle; try lia; [by intros ??|by intros ??|].
  intros memo x. cbn [get].
  assert (∀ loc', extends (calc rn wn labels (get rn wn labels fuel) r w loc')
    (calc rn wn labels (get rn wn labels fuel') r w loc')) as Hc.
  { intros loc'. apply calc_more. intros. apply IH. lia. }
  destruct (pair_key rn wn r w) as [k|]; [|apply Hc]. destruct (memo !! k) as [[]|]; [done..|].
  destruct (calc rn wn labels (get rn wn labels fuel) r w _ _) as [y|] eqn:E; [|done]. by rewrite (Hc _ _ _ E).
Qed.

(** ** Tables that were collected *)

Lemma foldr_size_elem {A} (f : A → nat) x l : x ∈ l → f x ≤ sum_list_with f l.
Proof. induction l as [|y l IH]; [by intros ?%elem_of_nil|]. intros [->|?]%elem_of_cons; cbn; [lia|]. specialize (IH H). lia. Qed.

Lemma defs_size s k d : (k, d) ∈ schema_defs s → schema_size d ≤ schema_size s.
Proof.
  induction s as [n a fs IH|vs IH|s IH|s IH|s Hs] using schema_nested_ind; cbn.
  - intros [[= -> ->]|Hin]%elem_of_cons; [done|].
    assert (schema_size d ≤ foldr (λ f n, match f with mkField _ _ _ s => schema_size s end + n) 0 fs); [|lia].
    induction IH as [|[fn fa fd s] fs Hf _ IHfs]; cbn in *; [by apply elem_of_nil in Hin|].
    apply elem_of_app in Hin as [?%Hf|?%IHfs]; lia.
  - intros Hin. assert (schema_size d ≤ foldr (λ v n, schema_size v + n) 0 vs); [|lia].
    induction IH as [|v vs Hv _ IHvs]; cbn in *; [by apply elem_of_nil in Hin|].
    apply elem_of_app in Hin as [?%Hv|?%IHvs]; lia.
  - intros ?%IH. lia.
  - intros ?%IH. lia.
  - destruct s; try done; cbn; intros Hin; try by apply elem_of_nil in Hin.
    all: by apply list_elem_of_singleton in Hin as [= -> ->].
Qed.

(** The definitions of a schema and of the schemas it references, in order. *)
Definition all_defs (ss : list Schema) : list (string * Schema) := ss ≫= schema_defs.

Lemma avro_of_names schema schemata : av_names (avro_of schema schemata) = insert_all (all_defs (schema :: schemata)) ∅.
Proof.
  unfold avro_of, all_defs. cbn [av_names]. rewrite collect_names_defs. cbn. rewrite insert_all_app.
  generalize (insert_all (schema_defs schema) ∅) as m. induction schemata as [|s ss IH]; intros m; [done|]. cbn.
  by rewrite insert_all_app, IH, collect_names_defs.
Qed.

Definition avro_bound (a : AvroSchema) : nat :=
  schema_size (av_schema a) + sum_list_with (λ kd, schema_size kd.2) (map_to_list (av_names a)).
Definition checker_fuel (r w : AvroSchema) : nat :=
  S (size (pairs_of (av_names r) (av_names w)) * S (avro_bound r + avro_bound w) + (avro_bound r + avro_bound w)).

Lemma avro_of_good schema schemata : let a := avro_of schema schemata in
  table_good (av_names a) (avro_bound a) ∧ good (av_names a) (avro_bound a) (av_schema a).
Proof.
  intros a. assert (∀ kd, kd ∈ all_defs (schema :: schemata) → kd.1 ∈ dom (av_names a)) as Hdom.
  { intros kd Hkd. unfold a. rewrite avro_of_names, insert_all_dom. left. by apply list_elem_of_fmap_2. }
  split; [|split].
  - intros k d Hd. assert ((k, d) ∈ all_defs (schema :: schemata)) as Hin.
    { unfold a in Hd. rewrite avro_of_names in Hd. apply insert_all_lookup in Hd as [Hd|Hd]; [|done].
      by rewrite lookup_empty in Hd. }
    apply list_elem_of_bind in Hin as (s & Hin & Hs). split; [by eapply defs_is_def|split].
    + apply elem_of_map_to_list in Hd.
      apply (foldr_size_elem (λ kd, schema_size kd.2)) in Hd. unfold avro_bound. cbn [snd] in Hd. lia.
    + intros kd Hkd. apply Hdom, list_elem_of_bind. exists s. split; [|done].
      by apply (schema_defs_closed s k d).
  - unfold avro_bound. cbn. lia.
  - intros kd Hkd. apply Hdom, list_elem_of_bind. exists schema. split; [done|left].
Qed.

(** (C16) The Avro checker answers on every pair of schemas, recursive ones and
    ones with unresolved or repeated names included: the pairs of named types it
    remembers bound the run, and with that much fuel, or any more, it gives
    one and the same list of messages. *)
Theorem avro_checker_terminates (schema schema' : Schema) (schemata schemata' : list Schema) (labels : Labels) :
  let r := avro_of schema schemata in let w := avro_of schema' schemata' in
  ∃ msgs, ∀ fuel, checker_fuel r w ≤ fuel → can_read_fuel fuel r w labels = Some msgs.
Proof.
  cbv zeta. pose proof (avro_of_good schema schemata) as Hr. pose proof (avro_of_good schema' schemata') as Hw.
  revert Hr Hw. generalize (avro_of schema schemata) as r, (avro_of schema' schemata') as w.
  intros r w [Hrt Hrg] [Hwt Hwg].
  destruct (get_total _ _ _ _ labels Hrt Hwt (checker_fuel r w) None (av_schema r) (av_schema w) [] ∅ Hrg Hwg) as (msgs & memo & E & _).
  - unfold enough, step_cost, remaining, checker_fuel. rewrite dom_empty_L, difference_empty_L.
    pose proof (descent_good _ _ _ Hrg). pose proof (descent_good _ _ _ Hwg). lia.
  - exists msgs. intros fuel Hle. unfold can_read_fuel.
    by rewrite (get_more _ _ _ _ fuel _ _ _ _ Hle _ _ E).
Qed.

(** ** Well-formed schemas *)

Definition is_union (s : Schema) : bool := match s with SUnion _ => true | _ => false end.

(** Distinct field names, no union directly inside a union, and every reference
    to one of the names given. *)
Fixpoint schema_ok (keys : list string) (s : Schema) : bool :=
  match s with
  | SRecord _ _ fs =>
      bool_decide (NoDup (f_name <$> fs)) && forallb (λ f, match f with mkField _ _ _ s => schema_ok keys s end) fs
  | SUnion vs => forallb (λ v, schema_ok keys v && negb (is_union v)) vs
  | SArray s | SMap s => schema_ok keys s
  | SRef n => bool_decide (fullname n ∈ keys)
  | _ => true
  end.

(** What the Avro library accepts: every name defined once, every reference defined. *)
Definition well_formed (ss : list Schema) : Prop :=
  NoDup (all_defs ss).*1 ∧ forallb (schema_ok (all_defs ss).*1) ss = true.

Section reflexivity.
Context (names : Names) (keys : list string) (B : nat) (labels : Labels).

(** A schema whose definitions are the ones in the table. *)
Definition sane (s : Schema) : Prop :=
  schema_ok keys s = true ∧ ∀ kd, kd ∈ schema_defs s → names !! kd.1 = Some kd.2.

Context (Htable : table_good names B) (Hsane : ∀ k d, names !! k = Some d → sane d).
Context (Hkeys : ∀ k, k ∈ keys → is_Some (names !! k)).

Lemma sane_resolved s n : sane s → lower s names ≠ LUnresolved n.
Proof.
  intros [Hok _]. destruct s; try done. cbn in Hok. apply bool_decide_eq_true, Hkeys in Hok as [d Hd].
  destruct (lower_ref names B Htable _ _ Hd) as (-> & Hdef & _). by destruct d.
Qed.

Lemma sane_direct s k : sane s → (∀ n, s ≠ SRef n) → named_key (lower s names) = Some k →
  ∃ d, names !! k = Some d ∧ lower d names = lower s names.
Proof.
  intros [_ Hs] Hnr Hk. assert (∃ d, (k, d) ∈ schema_defs s ∧ lower d names = lower s names) as (d & Hd & E).
  { destruct s; try discriminate Hk; try (by destruct (Hnr name)); injection Hk as <-; (eexists; split; [by left|done]). }
  exists d. split; [exact (Hs _ Hd)|done].
Qed.

(** Two occurrences of one name are one type. *)
Lemma sane_named s k : sane s → named_key (lower s names) = Some k →
  ∃ d, names !! k = Some d ∧ lower d names = lower s names.
Proof.
  intros Hs Hk. destruct s; try (by eapply sane_direct). destruct Hs as [Hok _].
  cbn in Hok. apply bool_decide_eq_true, Hkeys in Hok as [d Hd].
  destruct (lower_ref names B Htable _ _ Hd) as (El & Hdef & _). rewrite El in *.
  apply sane_direct; [by eapply Hsane|by intros n ->|done].
Qed.

Lemma sane_same_key r w k : sane r → sane w → named_key (lower r names) = Some k →
  named_key (lower w names) = Some k → lower r names = lower w names.
Proof.
  intros Hr Hw Er Ew. destruct (sane_named r k Hr Er) as (d & Hd & <-).
  destruct (sane_named w k Hw Ew) as (d' & Hd' & <-). by simplify_eq.
Qed.

Lemma sane_fields n a fs f : sane (SRecord n a fs) → f ∈ fs → NoDup (f_name <$> fs) ∧ sane (f_schema f).
Proof.
  intros [[Hnd Hok]%andb_true_iff Hdefs] Hf. apply bool_decide_eq_true in Hnd. split; [done|].
  cbn in Hdefs. rewrite forallb_forall in Hok. split.
  - specialize (Hok f). apply list_elem_of_In in Hf. destruct f. by apply Hok.
  - intros kd Hkd. apply Hdefs. right. clear -Hf Hkd. induction fs as [|[fn fa fd s] fs IH]; [by apply elem_of_nil in Hf|].
    cbn. apply elem_of_app. apply elem_of_cons in Hf as [-> |Hf]; [by left|right; auto].
Qed.

Lemma sane_record s n a fs f : sane s → lower s names = LRecord n a fs → f ∈ fs →
  NoDup (f_name <$> fs) ∧ sane (f_schema f).
Proof.
  intros Hs Hl. destruct (sane_named s (fullname n) Hs) as (d & Hd & E); [by rewrite Hl|].
  rewrite Hl in E. destruct (Htable _ _ Hd) as [Hdef _]. destruct d; try done. injection E as -> -> ->.
  apply sane_fields with (1 := Hsane _ _ Hd).
Qed.

Lemma sane_variant vs v : sane (SUnion vs) → v ∈ vs → sane v ∧ is_union v = false.
Proof.
  intros [Hok Hdefs] Hv. cbn in Hok. rewrite forallb_forall in Hok.
  assert (schema_ok keys v && negb (is_union v) = true) as Hv' by (apply Hok; by apply list_elem_of_In).
  apply andb_true_iff in Hv' as [Hv' Hu].
  split; [split; [done|]|by destruct (is_union v)]. intros kd Hkd. apply Hdefs.
  destruct (union_member _ _ Hv) as [_ Hsub]. auto.
Qed.

Lemma sane_items i : sane (SArray i) ∨ sane (SMap i) → sane i.
Proof. by intros [[? ?]|[? ?]]. Qed.

(** ** Runs that keep the diagonal clean *)

(** No pair of a name with itself has been found incompatible. *)
Definition diagonal (memo : MemoTable) : Prop := ∀ n m, memo !! (n, n) = Some (Done m) → m = [].

Definition keeps {A} (m : Run A) (Post : A → Prop) : Prop :=
  ∀ memo a memo', diagonal memo → m memo = Some (a, memo') → diagonal memo' ∧ Post a.

Lemma keeps_ret {A} (a : A) (Post : A → Prop) : Post a → keeps (mret a) Post.
Proof. by intros ? memo a' memo' ? [= <- <-]. Qed.
Lemma keeps_bind {A B'} (m : Run A) (f : A → Run B') (P : A → Prop) (Q : B' → Prop) :
  keeps m P → (∀ a, P a → keeps (f a) Q) → keeps (m ≫= f) Q.
Proof.
  intros Hm Hf memo b memo' Hd. unfold mbind, run_bind. destruct (m memo) as [[a memo1]|] eqn:E; [|done].
  destruct (Hm _ _ _ Hd E) as [Hd1 HP]. by apply Hf.
Qed.
Lemma keeps_impl {A} (m : Run A) (P Q : A → Prop) : keeps m P → (∀ a, P a → Q a) → keeps m Q.
Proof. intros Hm HPQ memo a memo' Hd E. destruct (Hm _ _ _ Hd E). auto. Qed.

(** What the checker must find nothing wrong with: a type against itself, and a
    union against one of its branches. *)
Definition alike (r w : Schema) : Prop :=
  lower r names = lower w names ∨ ∃ vs, lower r names = LUnion vs ∧ w ∈ vs.

Section calc_keeps.
Context (g : option string → Schema → Schema → list string → Run (list string)).
Context (Hg : ∀ tok r w loc, sane r → sane w → keeps (g tok r w loc) (λ out, alike r w → out = [])).

Lemma check_fields_keeps pos rfs wfs w loc :
  (∀ rf, rf ∈ rfs → sane (f_schema rf)) → (∀ wf, wf ∈ wfs → sane (f_schema wf)) → sane w →
  keeps (check_fields names labels g pos rfs wfs w loc)
    (λ out, (∀ rf, rf ∈ rfs → writer_field rf wfs = Some rf) → out = []).
Proof.
  intros Hr Hwf Hw. revert pos. induction rfs as [|rf rfs IH]; intros pos; cbn [check_fields]; [by apply keeps_ret|].
  apply (keeps_bind _ _ (λ here, writer_field rf wfs = Some rf → here = [])).
  - destruct (writer_field rf wfs) as [wf|] eqn:Ef.
    + eapply keeps_impl; [apply Hg; [apply Hr; by left|]|].
      * apply Hwf. unfold writer_field in Ef. case_match eqn:E1; simplify_eq;
          [apply find_some in E1 as [? _]|apply find_some in Ef as [? _]]; by apply list_elem_of_In.
      * intros out Hout [= ->]. apply Hout. by left.
    + destruct (f_default rf); [by apply keeps_ret|].
      destruct (lower (f_schema rf) names) as [| | | | |[? ? ? []]| |]; try (by apply keeps_ret).
      eapply keeps_impl; [apply Hg; [apply Hr; by left|done]|]. done.
  - intros here Hhere. eapply keeps_bind; [apply IH; intros; apply Hr; by right|].
    intros rest Hrest. apply keeps_ret. intros Hall. rewrite Hhere, Hrest; [done|intros; apply Hall; by right|apply Hall; by left].
Qed.

Lemma check_branches_keeps i r ws loc : sane r → (∀ wb, wb ∈ ws → sane wb) →
  keeps (check_branches names labels g i r ws loc) (λ out, (∀ wb, wb ∈ ws → alike r wb) → out = []).
Proof.
  intros Hr Hws. revert i. induction ws as [|wb ws IH]; intros i; cbn [check_branches]; [by apply keeps_ret|].
  eapply keeps_bind; [apply Hg; [done|apply Hws; by left]|]. intros m Hm.
  eapply keeps_bind; [apply IH; intros; apply Hws; by right|]. intros rest Hrest. apply keeps_ret. intros Hall.
  rewrite Hm, Hrest; [done|intros; apply Hall; by right|apply Hall; by left].
Qed.

Lemma read_branches_keeps r ws : sane r → (∀ wb, wb ∈ ws → sane wb) → keeps (read_branches g r ws) (λ _, True).
Proof.
  intros Hr Hws. induction ws as [|wb ws IH]; cbn [read_branches]; [by apply keeps_ret|].
  eapply keeps_bind; [apply Hg; [done|apply Hws; by left]|]. intros m _.
  eapply keeps_bind; [apply IH; intros; apply Hws; by right|]. intros rest _. by apply keeps_ret.
Qed.

Lemma find_branch_keeps rs w : (∀ rb, rb ∈ rs → sane rb) → sane w → keeps (find_branch g rs w) (λ b, w ∈ rs → b = true).
Proof.
  intros Hrs Hw. induction rs as [|rb rs IH]; cbn [find_branch]; [apply keeps_ret; by intros ?%elem_of_nil|].
  eapply keeps_bind; [apply Hg; [apply Hrs; by left|done]|]. intros m Hm. case_bool_decide as Hb.
  - by apply keeps_ret.
  - eapply keeps_impl; [apply IH; intros; apply Hrs; by right|]. intros b Hfound [-> |?]%elem_of_cons; [|auto].
    destruct Hb. apply Hm. by left.
Qed.

Lemma check_names_refl n a loc : check_names n a n loc = [].
Proof. unfold check_names, names_match. by rewrite bool_decide_eq_true_2. Qed.

Lemma check_fixed_refl f loc : check_fixed labels f f loc = [].
Proof. unfold check_fixed. by rewrite check_names_refl, decide_True. Qed.

Lemma check_enum_refl e loc : check_enum labels e e loc = [].
Proof.
  unfold check_enum. rewrite check_names_refl.
  assert (missing_symbols e e = []) as ->; [|done]. unfold missing_symbols.
  replace (filter _ _) with (@nil string); [done|]. symmetry. destruct (filter _ _) as [|x l] eqn:E; [done|].
  assert (x ∈ x :: l) as Hx by left. rewrite <-E in Hx. apply list_elem_of_filter in Hx. naive_solver.
Qed.

Lemma writer_field_self rf fs : NoDup (f_name <$> fs) → rf ∈ fs → writer_field rf fs = Some rf.
Proof.
  intros Hnd Hin. unfold writer_field.
  assert (List.find (λ wf, bool_decide (f_name wf = f_name rf)) fs = Some rf) as ->; [|done].
  induction fs as [|f fs IH]; [by apply elem_of_nil in Hin|]. cbn in *. apply NoDup_cons in Hnd as [Hn Hnd].
  apply elem_of_cons in Hin as [-> |Hin]; [by rewrite bool_decide_eq_true_2|].
  rewrite bool_decide_eq_false_2; [auto|]. intros E. apply Hn. rewrite E. by apply list_elem_of_fmap_2.
Qed.

(** A type that is not a union, against a union or against nothing alike. *)
Lemma alike_nonunion r w : (∀ vs, lower r names ≠ LUnion vs) → alike r w → lower r names = lower w names.
Proof. intros Hn [?|(vs & E & _)]; [done|]. by destruct (Hn vs). Qed.

Lemma branch_nonunion r vs w : sane r → lower r names = LUnion vs → w ∈ vs → ∀ ws, lower w names ≠ LUnion ws.
Proof.
  intros Hr El Hw ws Ew. rewrite (lower_union names B Htable r vs El) in Hr.
  destruct (sane_variant vs w Hr Hw) as [_ Hu]. by rewrite (lower_union names B Htable w ws Ew) in Hu.
Qed.

Lemma sane_branches r vs w : sane r → lower r names = LUnion vs → w ∈ vs → sane w.
Proof. intros Hr El Hw. rewrite (lower_union names B Htable r vs El) in Hr. by destruct (sane_variant vs w Hr Hw). Qed.

Lemma union_reader_keeps r w rs (msgs : list string) : sane r → sane w → lower r names = LUnion rs →
  (∀ vs, lower w names ≠ LUnion vs) →
  keeps (found ← find_branch g rs w; (mret (if found : bool then [] else msgs) : Run (list string)))
    (λ out, alike r w → out = []).
Proof.
  intros Hr Hw Er Hnu. eapply keeps_bind; [apply find_branch_keeps; [intros rb Hrb; exact (sane_branches r rs rb Hr Er Hrb)|done]|].
  intros b Hb. apply keeps_ret. intros [E|(vs & E & Hin)].
  - rewrite E in Er. by destruct (Hnu rs).
  - rewrite Er in E. injection E as <-. by rewrite Hb.
Qed.

Lemma calc_keeps r w loc : sane r → sane w → keeps (calc names names labels g r w loc) (λ out, alike r w → out = []).
Proof.
  intros Hr Hw. unfold calc. destruct (lower r names) as [rp|ri|ri|rs|n a rfs|re|rf|un] eqn:Er;
    [..|by destruct (sane_resolved r un)].
  all: destruct (lower w names) as [wp|wi|wi|ws|n' a' wfs|we|wf|un] eqn:Ew;
    [..|by destruct (sane_resolved w un)]; cbn [same_type].
  all: try (apply keeps_ret; intros Ha%alike_nonunion; [congruence|congruence]).
  all: try (eapply keeps_impl; [apply read_branches_keeps; [done|intros wb Hwb; exact (sane_branches w ws wb Hw Ew Hwb)]|];
    intros out _ Ha%alike_nonunion; congruence).
  all: try (apply union_reader_keeps; [done..|congruence]).
  - case_bool_decide as Hp; [by apply keeps_ret|]. apply keeps_ret. intros Ha%alike_nonunion; congruence.
  - eapply keeps_impl; [apply Hg|].
    + rewrite (lower_array names B Htable r ri Er) in Hr. eauto using sane_items.
    + rewrite (lower_array names B Htable w wi Ew) in Hw. eauto using sane_items.
    + intros out Hout Ha%alike_nonunion; [|congruence]. apply Hout. left. congruence.
  - eapply keeps_impl; [apply Hg|].
    + rewrite (lower_map names B Htable r ri Er) in Hr. eauto using sane_items.
    + rewrite (lower_map names B Htable w wi Ew) in Hw. eauto using sane_items.
    + intros out Hout Ha%alike_nonunion; [|congruence]. apply Hout. left. congruence.
  - eapply keeps_impl; [apply check_branches_keeps; [done|intros wb Hwb; exact (sane_branches w ws wb Hw Ew Hwb)]|].
    intros out Hout [E|(vs & E & Hin)]; [|by destruct (branch_nonunion r vs w Hr E Hin ws)].
    apply Hout. intros wb Hwb. right. exists ws. split; [congruence|done].
  - eapply keeps_bind; [apply check_fields_keeps; [intros f Hf; apply (sane_record r n a rfs f Hr Er Hf)|
      intros f Hf; apply (sane_record w n' a' wfs f Hw Ew Hf)|done]|].
    intros rest Hrest. apply keeps_ret. intros Ha%alike_nonunion; [|congruence].
    assert (n = n' ∧ rfs = wfs) as [<- <-] by (split; congruence).
    rewrite check_names_refl, Hrest; [done|]. intros rf Hrf. apply writer_field_self; [|done].
    apply (sane_record r n a rfs rf Hr Er Hrf).
  - apply keeps_ret. intros Ha%alike_nonunion; [|congruence]. assert (re = we) as <- by congruence. apply check_enum_refl.
  - apply keeps_ret. intros Ha%alike_nonunion; [|congruence]. assert (rf = wf) as <- by congruence. apply check_fixed_refl.
Qed.
End calc_keeps.

Lemma get_keeps fuel tok r w loc : sane r → sane w →
  keeps (get names names labels fuel tok r w loc) (λ out, alike r w → out = []).
Proof.
  revert tok r w loc. induction fuel as [|fuel IH]; intros tok r w loc Hr Hw memo out memo' Hd; [done|].
  pose proof (λ loc', calc_keeps (get names names labels fuel) IH r w loc' Hr Hw) as Hcalc.
  cbn [get]. destruct (pair_key names names r w) as [[a b]|] eqn:Ek; [|by apply Hcalc].
  unfold pair_key in Ek. destruct (named_key (lower r names)) eqn:Ea; [|done].
  destruct (named_key (lower w names)) eqn:Eb; [|done]. injection Ek as -> ->.
  assert (alike r w → a = b) as Hab.
  { intros [E|(vs & E & _)]; [rewrite E in Ea; congruence|by rewrite E in Ea]. }
  assert (a = b → alike r w) as Hba by (intros ->; left; by eapply sane_same_key).
  destruct (memo !! (a, b)) as [[|m]|] eqn:Em.
  - by intros [= <- <-].
  - intros [= <- <-]. split; [done|]. intros ?%Hab. subst. by eapply Hd.
  - destruct (calc names names labels _ r w _ _) as [[x memo1]|] eqn:Ec; [|done]. intros [= <- <-].
    apply Hcalc in Ec as [Hd1 Hx].
    + split; [|done]. intros n m [[[= <- <-] [= <-]]|[_ Hm]]%lookup_insert_Some; [auto|by eapply Hd1].
    + intros n m [[_ [=]]|[_ Hm]]%lookup_insert_Some. by eapply Hd.
Qed.
End reflexivity.

(** ** The table of a well-formed schema *)

Lemma insert_all_keeps l m k d : m !! k = Some d → insert_all l m !! k = Some d.
Proof.
  revert m; induction l as [|[k' d'] l IH]; intros m Hm; [done|]. rewrite insert_all_cons. apply IH.
  cbn [fst snd]. unfold or_insert. destruct (m !! k') eqn:E; [done|]. rewrite lookup_insert_ne by congruence. done.
Qed.

Lemma insert_all_elem l m k d : NoDup l.*1 → (∀ k', k' ∈ l.*1 → m !! k' = None) → (k, d) ∈ l →
  insert_all l m !! k = Some d.
Proof.
  revert m; induction l as [|[k' d'] l IH]; intros m Hnd Hm Hin; [by apply elem_of_nil in Hin|].
  cbn [fmap list_fmap fst] in Hnd. apply NoDup_cons in Hnd as [Hn Hnd]. rewrite insert_all_cons. cbn [fst snd].
  assert (m !! k' = None) as Hk' by (apply Hm; left). unfold or_insert. rewrite Hk'.
  apply elem_of_cons in Hin as [[= -> ->]|Hin].
  - apply insert_all_keeps, lookup_insert_eq.
  - apply IH; [done| |done]. intros k0 Hk0. rewrite lookup_insert_ne; [apply Hm; by right|]. set_solver.
Qed.

Lemma schema_ok_defs keys s k d : schema_ok keys s = true → (k, d) ∈ schema_defs s → schema_ok keys d = true.
Proof.
  induction s as [n a fs IH|vs IH|s IH|s IH|s Hs] using schema_nested_ind.
  - intros Hok [[= -> ->]|Hin]%elem_of_cons; [done|]. cbn in Hok. apply andb_true_iff in Hok as [_ Hok].
    induction IH as [|[fn fa fd s] fs Hf _ IHfs]; cbn in *; [by apply elem_of_nil in Hin|].
    apply andb_true_iff in Hok as [? ?]. apply elem_of_app in Hin as [?|?]; auto.
  - cbn. intros Hok Hin. induction IH as [|v vs Hv _ IHvs]; cbn in *; [by apply elem_of_nil in Hin|].
    apply andb_true_iff in Hok as [[? _]%andb_true_iff ?]. apply elem_of_app in Hin as [?|?]; auto.
  - done.
  - done.
  - destruct s; try done; cbn; intros _ Hin; try by apply elem_of_nil in Hin.
    all: by apply list_elem_of_singleton in Hin as [= -> ->].
Qed.

Lemma well_formed_sane schema schemata s : well_formed (schema :: schemata) →
  let a := avro_of schema schemata in let keys := (all_defs (schema :: schemata)).*1 in
  s ∈ schema :: schemata →
  sane (av_names a) keys s ∧ ∀ k d, (k, d) ∈ schema_defs s → av_names a !! k = Some d ∧ sane (av_names a) keys d.
Proof.
  intros [Hnd Hok] a keys Hs. rewrite forallb_forall in Hok.
  assert (schema_ok keys s = true) as Hoks by (by apply Hok, list_elem_of_In).
  assert (∀ kd, kd ∈ schema_defs s → av_names a !! kd.1 = Some kd.2) as Hdefs.
  { intros [k d] Hkd. unfold a. rewrite avro_of_names. apply insert_all_elem; [done|done|].
    apply list_elem_of_bind. eauto. }
  split; [done|]. intros k d Hkd. split; [exact (Hdefs _ Hkd)|]. split; [by eapply schema_ok_defs|].
  intros kd Hin. apply Hdefs. by eapply schema_defs_closed.
Qed.

(** (C17) Every well-formed schema reads what it wrote: whatever its unions,
    recursion and references, compared with itself it yields no message, so a
    schema is compatible with itself under every level. *)
Theorem avro_reads_itself (schema : Schema) (schemata : list Schema) (labels : Labels) :
  well_formed (schema :: schemata) →
  let a := avro_of schema schemata in
  ∀ fuel, checker_fuel a a ≤ fuel → can_read_fuel fuel a a labels = Some [].
Proof.
  intros Hwf a fuel Hle. destruct (avro_of_good schema schemata) as [Htable Hgood]. fold a in Htable, Hgood.
  pose proof (λ s, well_formed_sane schema schemata s Hwf) as Hs.
  destruct (get_total _ _ _ _ labels Htable Htable fuel None (av_schema a) (av_schema a) [] ∅ Hgood Hgood)
    as (msgs & memo & E & _).
  { unfold enough, step_cost, remaining, checker_fuel in *. rewrite dom_empty_L, difference_empty_L.
    pose proof (descent_good _ _ _ Hgood). lia. }
  unfold can_read_fuel. rewrite E. cbn. f_equal.
  assert (∀ k d, av_names a !! k = Some d → ∃ s, s ∈ schema :: schemata ∧ (k, d) ∈ schema_defs s) as Hinv.
  { intros k d Hd. unfold a in Hd. rewrite avro_of_names in Hd. apply insert_all_lookup in Hd as [Hd|Hd].
    - by rewrite lookup_empty in Hd.
    - apply list_elem_of_bind in Hd as (s & ? & ?). eauto. }
  assert (schema ∈ schema :: schemata) as Hin by left.
  eapply (get_keeps _ _ _ labels Htable) with (memo := ∅); [..|exact E|by left].
  - intros k d (s & Hss & Hd)%Hinv. destruct (Hs s Hss) as [_ Hx]. destruct (Hx _ _ Hd). eassumption.
  - intros k Hk. apply list_elem_of_fmap in Hk as ([k' d] & -> & Hk).
    apply list_elem_of_bind in Hk as (s & Hd & Hss). destruct (Hs s Hss) as [_ Hx].
    destruct (Hx _ _ Hd). eauto.
  - apply (Hs schema Hin).
  - apply (Hs schema Hin).
  - intros n m Hm. by rewrite lookup_empty in Hm.
Qed.
End checker_facts.

(** * Concrete schemas *)

(** Names without namespaces. *)
Definition simple_names : AvroNames := {|
  Name := string; Alias := string; fullname := id; namespace := λ _, None; alias_fullname := λ a _, a |}.

Definition demo_labels : Labels := mkLabels "new" "old".

(** [Node { next: null | Node, v: F(4), w: F }]. *)
Definition demo_node : Schema (avro_names := simple_names) :=
  let _ := simple_names in
  SRecord "Node" None
    [mkField "next" [] None (SUnion [SNull; SRef "Node"]);
     mkField "v" [] None (SFixed (mkFixed "F" None 4));
     mkField "w" [] None (SRef "F")].

Lemma avro_reads_itself_witness :
  well_formed (avro_names := simple_names) [demo_node] ∧
  ∀ fuel, checker_fuel (avro_names := simple_names) (avro_of demo_node []) (avro_of demo_node []) ≤ fuel →
    can_read_fuel (avro_names := simple_names) fuel (avro_of demo_node []) (avro_of demo_node []) demo_labels = Some [].
Proof.
  assert (well_formed (avro_names := simple_names) [demo_node]) as Hwf.
  { split; [|vm_compute; reflexivity]. apply (bool_decide_unpack _). vm_compute. exact I. }
  split; [exact Hwf|]. exact (avro_reads_itself (avro_names := simple_names) demo_node [] demo_labels Hwf).
Defined.

(** [A] (also known as [W]) needs a field [y]; [B] (also [V]) holds an [A]; [C] (also [W]) holds a [B]. *)
Definition union_reader : AvroSchema (avro_names := simple_names) :=
  let _ := simple_names in
  avro_of (SUnion
    [SRecord "A" (Some ["W"]) [mkField "x" [] None (SRecord "B" (Some ["V"]) [mkField "p" [] None (SRef "A")]);
                               mkField "y" [] None SInt];
     SRecord "C" (Some ["W"]) [mkField "x" [] None (SRef "B")]]) [].

(** [W { x: V { p: W } }]. *)
Definition record_writer : AvroSchema (avro_names := simple_names) :=
  let _ := simple_names in
  avro_of (SRecord "W" None [mkField "x" [] None (SRecord "V" None [mkField "p" [] None (SRef "W")])]) [].

(** The checker can accept a reader that cannot read the writer: while [A] is
    compared with [W], [B] is found to read [V] on the assumption that [A] reads
    [W]; that fails for the missing field [y], but the result for [B] stays in
    the memo, and the other branch of the union, [C], is accepted through it.
    Asked alone, [B] does not read [V]. *)
Theorem memo_accepts_incompatible :
  can_read_fuel (avro_names := simple_names) 40 union_reader record_writer demo_labels = Some [] ∧
  ∃ m, can_read_fuel (avro_names := simple_names) 40 (mkAvro (SRef (avro_names := simple_names) "B") (av_names union_reader))
    (mkAvro (SRef (avro_names := simple_names) "V") (av_names record_writer)) demo_labels = Some [m].
Proof. split; [vm_compute; reflexivity|]. eexists. vm_compute. reflexivity. Qed.
