(* ===== verification/ProxyProtocol.v ===== *)
(** The PROXY protocol (proxy_protocol.rs): which header is believed, what it
    says, and what is left of the stream. A connection is the sequence of
    pieces its reads deliver; an address is a number of 32 or 128 bits. *)
From S2P Require Import Prelude SortedVec RustStr Errors Json Model Context Snapshot Keys Views Rewrite.

Open Scope string_scope.
Open Scope nat_scope.
Open Scope list_scope.

(** * Addresses ([std::net]) *)

Inductive IpAddr := V4 (a : Z) | V6 (a : Z).
#[export] Instance IpAddr_eq_dec : EqDecision IpAddr.
Proof. solve_decision. Defined.

Record SocketAddr := mkSock { ip : IpAddr; port : Z }.
#[export] Instance SocketAddr_eq_dec : EqDecision SocketAddr.
Proof. solve_decision. Defined.

Definition is_ipv4 (a : IpAddr) : bool := match a with V4 _ => true | V6 _ => false end.

(** [Ipv6Addr::to_ipv4_mapped]: [::ffff:a.b.c.d]. *)
Definition to_ipv4_mapped (a : Z) : option Z :=
  if decide (Z.shiftr a 32 = 65535)%Z then Some (a mod 2 ^ 32)%Z else None.

(** ** The address parser of the standard library *)

Module IpParser.
(** A parser takes from the front of the text, or fails and takes nothing. *)
Definition t (A : Type) : Type := string → option (A * string).

Definition given (c : ascii) : t () := λ s,
  match s with String d s' => if decide (c = d) then Some ((), s') else None | EmptyString => None end.

(** [read_number(radix, max_digits, allow_zero_prefix)] into [0..=max]: the
    digits, most significant first. *)
Fixpoint digits (radix : nat) (s : string) : list nat * string :=
  match s with
  | String c s' =>
      match hex c with
      | Some d => if bool_decide (d < radix) then let '(ds, r) := digits radix s' in (d :: ds, r) else ([], s)
      | None => ([], s)
      end
  | EmptyString => ([], s)
  end.
Definition value_of (radix : nat) (ds : list nat) : Z :=
  foldl (λ acc d, acc * Z.of_nat radix + Z.of_nat d)%Z 0%Z ds.

Definition read_number (radix max_digits : nat) (allow_zero_prefix : bool) (max : Z) : t Z := λ s,
  let '(ds, r) := digits radix s in
  if bool_decide (ds = []) || bool_decide (max_digits < length ds)
     || (negb allow_zero_prefix && bool_decide (head ds = Some 0) && bool_decide (1 < length ds))
     || bool_decide (max < value_of radix ds)%Z
  then None else Some (value_of radix ds, r).

(** [read_separator]: the separator before every group but the first. *)
Definition separated {A} (sep : ascii) (i : nat) (p : t A) : t A := λ s,
  match i with O => p s | S _ => '(_, s) ← given sep s; p s end.

Definition read_octet (i : nat) : t Z := separated "." i (read_number 10 3 false 255).
Definition read_ipv4_addr : t Z := λ s,
  '(a, s) ← read_octet 0 s; '(b, s) ← read_octet 1 s; '(c, s) ← read_octet 2 s; '(d, s) ← read_octet 3 s;
  Some (((a * 256 + b) * 256 + c) * 256 + d, s)%Z.

(** [read_groups]: up to [limit] groups from index [i]; whether the last two were an IPv4 address. *)
Fixpoint read_groups (limit i : nat) (s : string) : list Z * bool * string :=
  match limit with
  | O => ([], false, s)
  | S more =>
      match (if bool_decide (0 < more) then separated ":" i read_ipv4_addr s else None) with
      | Some (v4, s) => ([v4 / 65536; v4 mod 65536]%Z, true, s)
      | None =>
          match separated ":" i (read_number 16 4 true 65535) s with
          | Some (g, s) => let '(gs, v4, s) := read_groups more (S i) s in (g :: gs, v4, s)
          | None => ([], false, s)
          end
      end
  end.

Definition of_groups (gs : list Z) : Z := foldl (λ acc g, acc * 65536 + g)%Z 0%Z gs.

Definition read_ipv6_addr : t Z := λ s,
  let '(head, v4, s) := read_groups 8 0 s in
  if decide (length head = 8) then Some (of_groups head, s)
  else if v4 : bool then None
  else
    '(_, s) ← given ":" s; '(_, s) ← given ":" s;
    let '(tail, _, s) := read_groups (7 - length head) 0 s in
    Some (of_groups (head ++ replicate (8 - length head - length tail) 0%Z ++ tail), s).

(** [str::parse::<IpAddr>]: the whole text. *)
Definition parse (s : string) : option IpAddr :=
  match read_ipv4_addr s with
  | Some (a, "") => Some (V4 a)
  | Some _ => None
  | None => match read_ipv6_addr s with Some (a, "") => Some (V6 a) | _ => None end
  end.
End IpParser.

Example ip_1 : IpParser.parse "192.168.44.99" = Some (V4 3232246883).
Proof. vm_compute. reflexivity. Qed.
Example ip_2 : IpParser.parse "::ffff:10.0.0.9" = Some (V6 (65535 * 2 ^ 32 + 167772169)).
Proof. vm_compute. reflexivity. Qed.
Example ip_3 : IpParser.parse "fe80::1" = Some (V6 (65152 * 2 ^ 112 + 1)).
Proof. vm_compute. reflexivity. Qed.
Example ip_4 : IpParser.parse "010.0.0.1" = None ∧ IpParser.parse "1.2.3" = None ∧ IpParser.parse "1::2::3" = None.
Proof. by vm_compute. Qed.

(** * What is expected and who is believed *)

Inductive Version := One | Two.
#[export] Instance Version_eq_dec : EqDecision Version.
Proof. solve_decision. Defined.

Definition V2_SIGNATURE : string := Eval vm_compute in bytes [13; 10; 13; 10; 0; 13; 10; 81; 85; 73; 84; 10].
Definition V1_PREFIX : string := "PROXY ".
Definition V1_MAX : nat := 108.
Definition CRLF : string := Eval vm_compute in bytes [13; 10].

Module VersionM.
Definition parse (v : Z) : result string Version :=
  if decide (v = 1%Z) then Ok One else if decide (v = 2%Z) then Ok Two
  else Err ("proxy_version must be 1 or 2, not " +:+ show v).
Definition signature (v : Version) : string := match v with One => V1_PREFIX | Two => V2_SIGNATURE end.
End VersionM.

Record Expect := mkExpect { on : bool; version : Version }.
Definition expect_off : Expect := mkExpect false Two.

(** Networks: an address and a prefix length. *)
Abbreviation Trusted := (list (IpAddr * Z)).

Definition within (a net : IpAddr) (bits : Z) : bool :=
  match a, net with
  | V4 a, V4 n => bool_decide (bits = 0%Z) || bool_decide (Z.shiftr (Z.lxor a n) (32 - bits) = 0)%Z
  | V6 a, V6 n => bool_decide (bits = 0%Z) || bool_decide (Z.shiftr (Z.lxor a n) (128 - bits) = 0)%Z
  | _, _ => false
  end.

Module TrustedM.
Definition parse_one (c : string) : result string (IpAddr * Z) :=
  '(addr, bits) ← ok_or (split_once_char "/" c) ("'" +:+ c +:+ "' is not a CIDR (address/prefix)");
  a ← ok_or (IpParser.parse addr) ("'" +:+ c +:+ "': '" +:+ addr +:+ "' is not an address");
  n ← ok_or (parse_u32 bits) ("'" +:+ c +:+ "': '" +:+ bits +:+ "' is not a prefix length");
  if bool_decide ((if is_ipv4 a then 32 else 128) < n)%Z
  then Err ("'" +:+ c +:+ "': /" +:+ show n +:+ " is too long for " +:+ (if is_ipv4 a then "IPv4" else "IPv6"))
  else Ok (a, n).
Definition parse (cidrs : list string) : result string Trusted := mapM_result parse_one cidrs.

Definition DEFAULT_TRUSTED : list string :=
  ["127.0.0.0/8"; "10.0.0.0/8"; "172.16.0.0/12"; "192.168.0.0/16"; "169.254.0.0/16"; "::1/128"; "fc00::/7"; "fe80::/10"].

Definition default_lan : result string Trusted := parse DEFAULT_TRUSTED.

(** An IPv4 address on a dual-stack socket. *)
Definition unmap (a : IpAddr) : IpAddr :=
  match a with V6 v6 => from_option V4 (V6 v6) (to_ipv4_mapped v6) | v4 => v4 end.
Definition contains (t : Trusted) (a : IpAddr) : bool := existsb (λ nb, within (unmap a) nb.1 nb.2) t.
End TrustedM.

(** The default networks parse, so [default_lan] does not panic. *)
Lemma default_lan_parses : ∃ t, TrustedM.default_lan = Ok t.
Proof. eexists. vm_compute. reflexivity. Qed.

(** * Streams *)

(** What successive reads of the socket find: bytes, or an error. At the end
    (and when no byte is delivered) a read returns 0. *)
Inductive Piece := Data (b : string) | Broken (e : string).
Abbreviation Stream := (list Piece).

Inductive IoError := InvalidData (m : string) | UnexpectedEof (m : string) | TimedOut (m : string) | Other (m : string).
Abbreviation IoResult := (result IoError).

(** [stream.read(&mut b[..n])]. *)
Definition read (n : nat) (s : Stream) : IoResult (string * Stream) :=
  match s with
  | [] => Ok ("", [])
  | Broken e :: s => Err (Other e)
  | Data b :: s =>
      if bool_decide (String.length b ≤ n) then Ok (b, s) else Ok (str_take n b, Data (str_drop n b) :: s)
  end.

(** Read until [n] bytes are there or a read returns 0; each round of the loop
    gets at least a byte, so [n] rounds are enough. *)
Fixpoint read_upto (fuel n : nat) (s : Stream) : IoResult (string * Stream) :=
  match fuel with
  | O => Ok ("", s)
  | S fuel =>
      if decide (n = 0) then Ok ("", s) else
      '(b, s) ← read n s;
      if decide (b = "") then Ok ("", s) else
      '(rest, s) ← read_upto fuel (n - String.length b) s;
      Ok (b +:+ rest, s)
  end.

(** The same, refusing to stop short. *)
Definition read_all (n : nat) (cut : IoError) (s : Stream) : IoResult (string * Stream) :=
  '(b, s) ← read_upto n n s;
  if bool_decide (String.length b < n) then Err cut else Ok (b, s).

(** A stream that replays what was read too far. *)
Record Prefixed := mkPrefixed { inner : Stream; prefix : string; at_ : nat }.
Definition prefixed (s : Stream) (b : string) : Prefixed := mkPrefixed s b 0.

(** [poll_read] into a buffer of [n] bytes. *)
Definition poll_read (n : nat) (p : Prefixed) : IoResult (string * Prefixed) :=
  if decide (n = 0) then Ok ("", p)
  else if bool_decide (at_ p < String.length (prefix p)) then
    let take := Nat.min (String.length (prefix p) - at_ p) n in
    Ok (slice (prefix p) (at_ p) (at_ p + take), mkPrefixed (inner p) (prefix p) (at_ p + take))
  else '(b, s) ← read n (inner p); Ok (b, mkPrefixed s (prefix p) (at_ p)).

(** * Headers *)

Definition is_ascii_space (c : ascii) : bool := bool_decide (cval c ∈ [9; 10; 12; 13; 32]).

(** [split_ascii_whitespace]. *)
Fixpoint split_ws (word : string) (s : string) : list string :=
  let flush := if decide (word = "") then [] else [String.rev word] in
  match s with
  | EmptyString => flush
  | String c s => if is_ascii_space c then flush ++ split_ws "" s else split_ws (String c word) s
  end.

Definition parse_port (s : string) : option Z := parse_digits u16_max (default s (strip_prefix "+" s)).

Definition parse_v1 (line : string) : option SocketAddr :=
  let parts := split_ws "" line in
  w ← parts !! 0; if bool_decide (w ≠ "PROXY") then None else
  fam ← parts !! 1; if negb (bool_decide (fam ∈ ["TCP4"; "TCP6"])) then None else
  src ← parts !! 2 ≫= IpParser.parse;
  _ ← parts !! 3;
  p ← parts !! 4 ≫= parse_port;
  Some (mkSock src p).

(** Up to and including CRLF, a byte at a time; the length is checked before
    each byte, so [V1_MAX + 1] rounds are enough. *)
Fixpoint read_line (fuel : nat) (buf : string) (s : Stream) : IoResult (string * Stream) :=
  if bool_decide (find_str CRLF buf ≠ None) then Ok (buf, s) else
  match fuel with
  | O => Err (InvalidData "PROXY v1 header too long")
  | S fuel =>
      if bool_decide (V1_MAX < String.length buf) then Err (InvalidData "PROXY v1 header too long") else
      '(b, s) ← read 1 s;
      if decide (b = "") then Err (UnexpectedEof "PROXY v1 header cut short") else
      read_line fuel (buf +:+ b) s
  end.

Definition read_v1 (s : Stream) (buf : string) (peer : SocketAddr) : IoResult (Prefixed * SocketAddr) :=
  '(buf, s) ← read_line (S V1_MAX) buf s;
  let at_ := default 0 (find_str CRLF buf) in
  let line := from_utf8_lossy (str_take at_ buf) in
  Ok (prefixed s (str_drop (at_ + 2) buf), default peer (parse_v1 line)).

Definition byteZ (s : string) (i : nat) : Z := Z.of_nat (byte_at s i).
(** Big-endian bytes [i..i+n], which are there where this is used. *)
Definition be (s : string) (i n : nat) : Z := default 0%Z (be_value n (str_drop i s)).

Definition v2_client (ver_cmd family : Z) (body : string) : option SocketAddr :=
  if bool_decide (Z.shiftr ver_cmd 4 = 2)%Z && bool_decide (Z.land ver_cmd 15 = 1)%Z then
    let fam := Z.shiftr family 4 in
    if bool_decide (fam = 1)%Z && bool_decide (12 ≤ String.length body)
    then Some (mkSock (V4 (be body 0 4)) (be body 8 2))
    else if bool_decide (fam = 2)%Z && bool_decide (36 ≤ String.length body)
    then Some (mkSock (V6 (be body 0 16)) (be body 32 2))
    else None
  else None.

Definition read_v2 (s : Stream) (buf : string) (peer : SocketAddr) : IoResult (Prefixed * SocketAddr) :=
  '(more, s) ← read_all (16 - String.length buf) (UnexpectedEof "PROXY v2 header cut short") s;
  let buf := buf +:+ more in
  '(body, s) ← read_all (Z.to_nat (be buf 14 2)) (UnexpectedEof "early eof") s;
  Ok (prefixed s "", default peer (v2_client (byteZ buf 12) (byteZ buf 13) body)).

Definition read_header (s : Stream) (peer : SocketAddr) (expect : Expect) (trusted : Trusted) : IoResult (Prefixed * SocketAddr) :=
  '(buf, s) ← read_upto 12 12 s;
  let wanted := starts_with (VersionM.signature (version expect)) buf in
  let other := starts_with (match version expect with One => V2_SIGNATURE | Two => V1_PREFIX end) buf in
  if negb (TrustedM.contains trusted (ip peer)) then Ok (prefixed s buf, peer)
  else if other then Ok (prefixed s buf, peer)
  else if wanted then
    match version expect with One => read_v1 s buf peer | Two => read_v2 s buf peer end
  else Ok (prefixed s buf, peer).

(** [timely]: whether the header arrived within [HEADER_TIMEOUT]. *)
Definition accept (s : Stream) (peer : SocketAddr) (expect : Expect) (trusted : Trusted) (timely : bool) : IoResult (Prefixed * SocketAddr) :=
  if negb (on expect) then Ok (prefixed s "", peer)
  else if timely then read_header s peer expect trusted
  else Err (TimedOut "no PROXY header within 5s").

(** * Lemmas *)

(** The bytes a stream delivers before it ends or breaks. *)
Fixpoint bytes_of (s : Stream) : string :=
  match s with
  | Data b :: s => b +:+ bytes_of s
  | Broken _ :: _ | [] => ""
  end.

(** What the server behind the header reads. *)
Definition delivered (p : Prefixed) : string := str_drop (at_ p) (prefix p) +:+ bytes_of (inner p).

Lemma delivered_prefixed s b : delivered (prefixed s b) = b +:+ bytes_of s.
Proof. done. Qed.

Lemma read_bytes n s b s' : read n s = Ok (b, s') → bytes_of s = b +:+ bytes_of s'.
Proof.
  destruct s as [|[d|e] s]; cbn; [by intros [= <- <-]| |done].
  case_bool_decide; intros [= <- <-]; [done|]. cbn. by rewrite <-str_app_assoc, str_take_drop.
Qed.

Lemma read_upto_bytes fuel n s b s' : read_upto fuel n s = Ok (b, s') → bytes_of s = b +:+ bytes_of s'.
Proof.
  revert n s b s'; induction fuel as [|fuel IH]; intros n s b s'; cbn [read_upto]; [by intros [= <- <-]|].
  case_decide; [by intros [= <- <-]|].
  destruct (read n s) as [[d s1]|] eqn:Er; [|done]. cbn [mbind result_bind]. apply read_bytes in Er.
  case_decide; [by intros [= <- <-]; subst|].
  destruct (read_upto fuel _ s1) as [[rest s2]|] eqn:Eu; [|done]. cbn [mbind result_bind]. intros [= <- <-].
  rewrite Er, (IH _ _ _ _ Eu), str_app_assoc. done.
Qed.

Lemma read_all_bytes n e s b s' : read_all n e s = Ok (b, s') → bytes_of s = b +:+ bytes_of s'.
Proof.
  unfold read_all. destruct (read_upto n n s) as [[b1 s1]|] eqn:E; [|done]. cbn [mbind result_bind].
  case_bool_decide; [done|]. intros [= <- <-]. by eapply read_upto_bytes.
Qed.

Lemma read_line_bytes fuel buf s b s' : read_line fuel buf s = Ok (b, s') →
  buf +:+ bytes_of s = b +:+ bytes_of s' ∧ find_str CRLF b ≠ None.
Proof.
  revert buf s; induction fuel as [|fuel IH]; intros buf s; cbn [read_line].
  - case_bool_decide; [|done]. by intros [= <- <-].
  - case_bool_decide; [by intros [= <- <-]|]. case_bool_decide; [done|].
    destruct (read 1 s) as [[d s1]|] eqn:Er; [|done]. cbn [mbind result_bind]. apply read_bytes in Er.
    case_decide; [done|]. intros [Hb Hf]%IH. split; [|done]. by rewrite Er, <-str_app_assoc.
Qed.

Lemma find_str_split p s i : find_str p s = Some i →
  s = str_take i s +:+ p +:+ str_drop (i + String.length p) s.
Proof.
  intros (a & b & -> & ->)%find_str_Some. rewrite str_take_app, <-str_length_app, <-str_app_assoc, str_drop_app.
  by rewrite str_app_assoc.
Qed.

(** ** Headers, as the protocol has them *)

(** A version 1 header is a line that starts with [PROXY ], up to and with the
    first CRLF; a version 2 header is the signature, four bytes of which the
    last two give a length, and as many bytes. What each says of the client. *)
Definition v1_header (peer : SocketAddr) (h : string) (c : SocketAddr) : Prop :=
  ∃ line, h = line +:+ CRLF ∧ find_str CRLF line = None ∧ starts_with V1_PREFIX line = true ∧
    c = default peer (parse_v1 (from_utf8_lossy line)).
Definition v2_header (peer : SocketAddr) (h : string) (c : SocketAddr) : Prop :=
  ∃ head body, h = head +:+ body ∧ String.length head = 16 ∧ starts_with V2_SIGNATURE head = true ∧
    String.length body = Z.to_nat (be head 14 2) ∧ c = default peer (v2_client (byteZ head 12) (byteZ head 13) body).
Definition header (v : Version) (peer : SocketAddr) (h : string) (c : SocketAddr) : Prop :=
  match v with One => v1_header peer h c | Two => v2_header peer h c end.

Lemma str_take_length_le n s : String.length (str_take n s) ≤ n.
Proof. revert s; induction n as [|n IH]; intros [|c s]; cbn; [lia..|]. specialize (IH s). lia. Qed.

Lemma str_take_drop_app n a b : String.length a ≤ n →
  str_take n (a +:+ b) = a +:+ str_take (n - String.length a) b ∧ str_drop n (a +:+ b) = str_drop (n - String.length a) b.
Proof.
  revert n; induction a as [|c a IH]; intros n Hn; cbn in *; [by rewrite Nat.sub_0_r|].
  destruct n as [|n]; [lia|]. cbn. destruct (IH n) as [-> ->]; [lia|done].
Qed.

Lemma find_str_before p s i : p ≠ "" → find_str p s = Some i → find_str p (str_take i s) = None.
Proof.
  intros Hp Hi. destruct (find_str p (str_take i s)) as [j|] eqn:Hj; [|done]. exfalso.
  apply find_str_Some in Hj as (a & b & E & _). destruct (find_str_first p a (b +:+ str_drop i s)) as (k & Hk & Hle).
  assert (s = (a +:+ p +:+ b) +:+ str_drop i s) as Es by (by rewrite <-E, str_take_drop).
  assert (k = i) as -> by (rewrite Es, !str_app_assoc in Hi; congruence).
  pose proof (str_take_length_le i s) as Hlen. rewrite E, !str_length_app in Hlen. destruct p; cbn in *; [done|lia].
Qed.

Lemma read_line_grows fuel buf s b s' : read_line fuel buf s = Ok (b, s') → ∃ r, b = buf +:+ r.
Proof.
  revert buf s; induction fuel as [|fuel IH]; intros buf s; cbn [read_line].
  - case_bool_decide; [|done]. intros [= <- <-]. exists "". by rewrite str_app_nil_r.
  - case_bool_decide; [intros [= <- <-]; exists ""; by rewrite str_app_nil_r|]. case_bool_decide; [done|].
    destruct (read 1 s) as [[d s1]|] eqn:Er; [|done]. cbn [mbind result_bind]. case_decide; [done|].
    intros [r ->]%IH. eexists. by rewrite str_app_assoc.
Qed.

Lemma read_length n s b s' : read n s = Ok (b, s') → String.length b ≤ n.
Proof.
  destruct s as [|[d|e] s]; cbn; [intros [= <- _]; cbn; lia| |done].
  case_bool_decide; intros [= <- _]; [done|]. apply str_take_length_le.
Qed.

Lemma read_upto_length fuel n s b s' : read_upto fuel n s = Ok (b, s') → String.length b ≤ n.
Proof.
  revert n s b s'; induction fuel as [|fuel IH]; intros n s b s'; cbn [read_upto]; [intros [= <- _]; cbn; lia|].
  case_decide; [intros [= <- _]; cbn; lia|]. destruct (read n s) as [[d s1]|] eqn:Er; [|done]. cbn [mbind result_bind].
  apply read_length in Er. case_decide; [intros [= <- _]; cbn; lia|].
  destruct (read_upto fuel _ s1) as [[rest s2]|] eqn:Eu; [|done]. cbn [mbind result_bind]. intros [= <- _].
  apply IH in Eu. rewrite str_length_app. lia.
Qed.

Lemma read_all_length n e s b s' : read_all n e s = Ok (b, s') → String.length b = n.
Proof.
  unfold read_all. destruct (read_upto n n s) as [[b1 s1]|] eqn:E; [|done]. cbn [mbind result_bind].
  case_bool_decide; [done|]. intros [= <- _]. apply read_upto_length in E. lia.
Qed.

(** The line of a version 1 header keeps its first word. *)
Lemma prefix_before_crlf r i : find_str CRLF (V1_PREFIX +:+ r) = Some i → starts_with V1_PREFIX (str_take i (V1_PREFIX +:+ r)) = true.
Proof.
  intros Hi. assert (6 ≤ i) as Hle.
  { do 6 (destruct i as [|i]; [exfalso; apply find_str_Some in Hi as (a & b & E & Hl); do 6 (destruct a as [|? a]; cbn in Hl; try done); cbn in E; by simplify_eq|]). lia. }
  apply starts_with_spec. exists (str_take (i - 6) r). by destruct (str_take_drop_app i V1_PREFIX r) as [-> _].
Qed.

Lemma read_v1_header s buf peer p c : starts_with V1_PREFIX buf = true → read_v1 s buf peer = Ok (p, c) →
  ∃ h, buf +:+ bytes_of s = h +:+ delivered p ∧ v1_header peer h c.
Proof.
  intros [w ->]%starts_with_spec. unfold read_v1. destruct (read_line _ _ s) as [[b s1]|] eqn:E; [|done]. cbn [mbind result_bind].
  intros [= <- <-]. destruct (read_line_grows _ _ _ _ _ E) as [r Hb]. apply read_line_bytes in E as [-> Hf].
  destruct (find_str CRLF b) as [i|] eqn:Ei; [|done]. cbn [default from_option].
  rewrite delivered_prefixed. exists (str_take i b +:+ CRLF). split.
  - rewrite (find_str_split CRLF b i Ei) at 1. by rewrite !str_app_assoc.
  - exists (str_take i b). split_and!; [done|by apply find_str_before| |done].
    rewrite Hb, str_app_assoc in Ei |- *. by apply prefix_before_crlf.
Qed.

Lemma read_v2_header s buf peer p c : String.length buf ≤ 12 → starts_with V2_SIGNATURE buf = true → read_v2 s buf peer = Ok (p, c) →
  ∃ h, buf +:+ bytes_of s = h +:+ delivered p ∧ v2_header peer h c.
Proof.
  intros Hlen [w ->]%starts_with_spec. unfold read_v2. destruct (read_all (16 - _) _ s) as [[more s1]|] eqn:E1; [|done].
  cbn [mbind result_bind]. destruct (read_all _ _ s1) as [[body s2]|] eqn:E2; [|done]. cbn [mbind result_bind]. intros [= <- <-].
  pose proof (read_all_length _ _ _ _ _ E1) as L1. pose proof (read_all_length _ _ _ _ _ E2) as L2.
  apply read_all_bytes in E1, E2. rewrite delivered_prefixed, E1, E2.
  exists (((V2_SIGNATURE +:+ w) +:+ more) +:+ body). split; [by rewrite !str_app_assoc|].
  exists ((V2_SIGNATURE +:+ w) +:+ more), body. split_and!; [done| | |done|done].
  - rewrite str_length_app, L1. lia.
  - rewrite str_app_assoc. apply starts_with_app.
Qed.

(** ** Reads do not depend on how the bytes arrive *)

(** A stream that ends without an error and delivers something on every read. *)
Definition steady (s : Stream) : Prop := Forall (λ p, match p with Data b => b ≠ "" | Broken _ => False end) s.
Definition same (s t : Stream) : Prop := steady s ∧ steady t ∧ bytes_of s = bytes_of t.

Lemma str_length_pos b : b ≠ "" → 1 ≤ String.length b.
Proof. destruct b; cbn; [done|lia]. Qed.

Lemma str_drop_nonempty n b : n < String.length b → str_drop n b ≠ "".
Proof. intros H E. apply (f_equal String.length) in E. rewrite str_drop_length in E. cbn in E. lia. Qed.

Lemma steady_bytes s : steady s → bytes_of s = "" → s = [].
Proof. destruct 1 as [|[b|] s Hb _]; [done| |done]. cbn. by destruct b. Qed.

Lemma read_steady n s : steady s → 0 < n → bytes_of s ≠ "" →
  ∃ b s', read n s = Ok (b, s') ∧ steady s' ∧ 1 ≤ String.length b ≤ n.
Proof.
  destruct 1 as [|[b|] s Hb Hs]; [done| |done]. cbn. intros Hn _. pose proof (str_length_pos b Hb). case_bool_decide as Hl.
  - eexists _, _. split_and!; [done|done|lia|lia].
  - eexists _, _. split; [done|]. split; [constructor; [apply str_drop_nonempty; lia|done]|].
    assert (String.length (str_take n b) = n) as ->; [|lia]. clear -Hl. revert b Hl. induction n as [|n IH]; intros b Hl; [done|].
    destruct b as [|c b]; cbn in *; [lia|]. rewrite IH; lia.
Qed.

(** Reading up to [n] bytes takes exactly the first [n] there are. *)
Lemma read_upto_steady fuel n s : steady s → n ≤ fuel →
  ∃ s', read_upto fuel n s = Ok (str_take n (bytes_of s), s') ∧ steady s' ∧ bytes_of s' = str_drop n (bytes_of s).
Proof.
  revert n s; induction fuel as [|fuel IH]; intros n s Hs Hn; cbn [read_upto].
  { assert (n = 0) as -> by lia. by exists s. }
  destruct (decide (n = 0)) as [-> |Hn0]; [by exists s|].
  destruct (decide (bytes_of s = "")) as [E|Hne].
  { apply steady_bytes in E as ->; [|done]. exists []. cbn. destruct n; split_and!; done. }
  destruct (read_steady n s Hs) as (b & s1 & Er & Hs1 & Hb); [lia|done|]. rewrite Er. cbn [mbind result_bind].
  rewrite decide_False by (intros ->; cbn in Hb; lia).
  destruct (IH (n - String.length b) s1 Hs1) as (s2 & -> & Hs2 & E2); [lia|]. cbn [mbind result_bind].
  exists s2. rewrite (read_bytes _ _ _ _ Er). destruct (str_take_drop_app n b (bytes_of s1)) as [-> ->]; [lia|].
  split_and!; done.
Qed.

Lemma read_upto_same n s t : same s t →
  ∃ b s' t', read_upto n n s = Ok (b, s') ∧ read_upto n n t = Ok (b, t') ∧ same s' t'.
Proof.
  intros (Hs & Ht & E). destruct (read_upto_steady n n s Hs) as (s' & -> & ? & Es); [done|].
  destruct (read_upto_steady n n t Ht) as (t' & -> & ? & Et); [done|].
  rewrite E. eexists _, _, _. split_and!; [done..|]. split_and!; congruence.
Qed.

(** What a client sees of a result: the address and the bytes that follow. *)
Definition seen (r : IoResult (Prefixed * SocketAddr)) : IoResult (string * SocketAddr) :=
  '(p, c) ← r; Ok (delivered p, c).

Lemma read_all_same n e s t : same s t →
  (∃ b s' t', read_all n e s = Ok (b, s') ∧ read_all n e t = Ok (b, t') ∧ same s' t') ∨
  (read_all n e s = Err e ∧ read_all n e t = Err e).
Proof.
  intros (b & s' & t' & Es & Et & Hst)%(read_upto_same n). unfold read_all. rewrite Es, Et. cbn [mbind result_bind].
  case_bool_decide; [by right|left]. eauto 10.
Qed.

Lemma read_one_same s t : same s t →
  ∃ b s' t', read 1 s = Ok (b, s') ∧ read 1 t = Ok (b, t') ∧ same s' t'.
Proof.
  intros Hst. destruct (read_upto_same 1 s t Hst) as (b & s' & t' & Es & Et & Hst'). destruct Hst as (Hs & Ht & _).
  assert (∀ u d u', steady u → read_upto 1 1 u = Ok (d, u') → read 1 u = Ok (d, u')) as Hone.
  { intros u d u' Hu. cbn [read_upto]. rewrite decide_False by done.
    destruct (read 1 u) as [[x u1]|] eqn:Er; [|done]. cbn [mbind result_bind].
    case_decide; [subst; by intros [= <- <-]|]. intros [= <- <-]. by rewrite str_app_nil_r. }
  exists b, s', t'. auto.
Qed.

Lemma read_line_same fuel buf s t : same s t →
  (∃ b s' t', read_line fuel buf s = Ok (b, s') ∧ read_line fuel buf t = Ok (b, t') ∧ same s' t') ∨
  (∃ e, read_line fuel buf s = Err e ∧ read_line fuel buf t = Err e).
Proof.
  revert buf s t; induction fuel as [|fuel IH]; intros buf s t Hst; cbn [read_line].
  - case_bool_decide; [left|right]; eauto 10.
  - case_bool_decide; [left; eauto 10|]. case_bool_decide; [right; eauto|].
    destruct (read_one_same s t Hst) as (b & s' & t' & -> & -> & Hst'). cbn [mbind result_bind].
    case_decide; [right; eauto|]. by apply IH.
Qed.

Lemma seen_prefixed s t b c : same s t → seen (Ok (prefixed s b, c)) = seen (Ok (prefixed t b, c)).
Proof. intros (_ & _ & E). unfold seen. cbn [mbind result_bind]. by rewrite !delivered_prefixed, E. Qed.

Lemma read_v1_same s t buf peer : same s t → seen (read_v1 s buf peer) = seen (read_v1 t buf peer).
Proof.
  intros Hst. unfold read_v1. destruct (read_line_same (S V1_MAX) buf s t Hst) as
    [(b & s' & t' & -> & -> & Hst')|(e & -> & ->)]; [|done]. cbn [mbind result_bind]. by apply seen_prefixed.
Qed.

Lemma read_v2_same s t buf peer : same s t → seen (read_v2 s buf peer) = seen (read_v2 t buf peer).
Proof.
  intros Hst. unfold read_v2.
  destruct (read_all_same (16 - String.length buf) (UnexpectedEof "PROXY v2 header cut short") s t Hst)
    as [(b & s' & t' & -> & -> & Hst')|[-> ->]]; [|done]. cbn [mbind result_bind].
  destruct (read_all_same (Z.to_nat (be (buf +:+ b) 14 2)) (UnexpectedEof "early eof") s' t' Hst')
    as [(b' & s2 & t2 & -> & -> & Hst2)|[-> ->]]; [|done]. cbn [mbind result_bind]. by apply seen_prefixed.
Qed.

(** ** Numbers in network order *)

(** A number written in network order is read back, wherever it stands. *)
Lemma be_spec a n z r : (0 ≤ z < 2 ^ (8 * Z.of_nat n))%Z → be (a +:+ be_bytes n z +:+ r) (String.length a) n = z.
Proof. intros Hz. unfold be. rewrite str_drop_app, be_value_bytes. cbn. by apply Z.mod_small. Qed.

(** * Theorems *)

(** (C31) A PROXY header is believed only when the feature is on, the peer is in a
    trusted network and the connection starts with a header of the expected
    version: then exactly that header is taken off the front, and the client
    is the address it gives (or the socket's, when it gives none). In every
    other case - the feature off, an untrusted peer, no header, a header of the
    other version - the client is the socket's address and the server reads
    every byte that was sent. *)
Theorem header_only_from_trusted s peer expect trusted timely p c :
  accept s peer expect trusted timely = Ok (p, c) →
  (c = peer ∧ delivered p = bytes_of s) ∨
  (on expect = true ∧ TrustedM.contains trusted (ip peer) = true ∧
   ∃ h, bytes_of s = h +:+ delivered p ∧ header (version expect) peer h c).
Proof.
  unfold accept. destruct (on expect) eqn:Eon; cbn [negb].
  2: { intros [= <- <-]. by left. }
  destruct timely; [|done]. unfold read_header.
  destruct (read_upto 12 12 s) as [[buf s1]|] eqn:Er; [|done]. cbn [mbind result_bind].
  pose proof (read_upto_length _ _ _ _ _ Er) as Hlen. apply read_upto_bytes in Er. rewrite Er.
  destruct (TrustedM.contains trusted (ip peer)); cbn [negb]; [|intros [= <- <-]; by left].
  case_match; [intros [= <- <-]; by left|].
  destruct (starts_with (VersionM.signature _) buf) eqn:Esig; [|intros [= <- <-]; by left].
  intros Ha. right. split_and!; [done..|]. destruct (version expect); [by eapply read_v1_header|by eapply read_v2_header].
Qed.

(** How the network cuts the bytes into reads does not matter: two connections
    that deliver the same bytes get the same client address, the same rest of
    the stream, or the same error. *)
Theorem chunking_irrelevant s t peer expect trusted timely : same s t →
  seen (accept s peer expect trusted timely) = seen (accept t peer expect trusted timely).
Proof.
  intros Hst. unfold accept. case_match; [by apply seen_prefixed|]. destruct timely; [|done].
  unfold read_header. destruct (read_upto_same 12 s t Hst) as (b & s' & t' & -> & -> & Hst'). cbn [mbind result_bind].
  repeat case_match; auto using seen_prefixed, read_v1_same, read_v2_same.
Qed.

(** ** A version 2 header read back *)

(** What a proxy writes for an IPv4 client: signature, [PROXY] command, TCP over
    IPv4, the length, both addresses and ports, and any extensions. *)
Definition encode_v4 (src dst sport dport : Z) (tlv : string) : string :=
  V2_SIGNATURE +:+ bytes [33; 17] +:+ be_bytes 2 (12 + Z.of_nat (String.length tlv)) +:+
  be_bytes 4 src +:+ be_bytes 4 dst +:+ be_bytes 2 sport +:+ be_bytes 2 dport +:+ tlv.

Lemma read_upto_app n s a b : steady s → bytes_of s = a +:+ b → String.length a = n →
  ∃ s', read_upto n n s = Ok (a, s') ∧ steady s' ∧ bytes_of s' = b.
Proof.
  intros Hs E <-. destruct (read_upto_steady (String.length a) (String.length a) s Hs) as (s' & H & ? & E'); [done|].
  rewrite E, ?str_take_app, ?str_drop_app in *. eauto.
Qed.

Lemma read_all_app n e s a b : steady s → bytes_of s = a +:+ b → String.length a = n →
  ∃ s', read_all n e s = Ok (a, s') ∧ steady s' ∧ bytes_of s' = b.
Proof.
  intros Hs E Hn. destruct (read_upto_app n s a b Hs E Hn) as (s' & H & ? & ?). exists s'. split; [|done].
  unfold read_all. rewrite H. cbn [mbind result_bind]. case_bool_decide; [lia|done].
Qed.

(** The addresses of a header's body, read back. *)
Definition v4_body (src dst sport dport : Z) (tlv : string) : string :=
  be_bytes 4 src +:+ be_bytes 4 dst +:+ be_bytes 2 sport +:+ be_bytes 2 dport +:+ tlv.

Lemma v2_client_v4 src dst sport dport tlv : (0 ≤ src < 2 ^ 32)%Z → (0 ≤ sport < 2 ^ 16)%Z →
  v2_client 33 17 (v4_body src dst sport dport tlv) = Some (mkSock (V4 src) sport).
Proof.
  intros Hsrc Hport. unfold v2_client. cbn [Z.shiftr Z.land].
  do 3 rewrite bool_decide_eq_true_2 by done.
  rewrite bool_decide_eq_true_2 by (unfold v4_body; rewrite !str_length_app, !be_bytes_length; lia). cbn [andb].
  do 2 f_equal; [f_equal; exact (be_spec "" 4 src _ Hsrc)|].
  pose proof (be_spec (be_bytes 4 src +:+ be_bytes 4 dst) 2 sport (be_bytes 2 dport +:+ tlv) Hport) as H.
  rewrite str_length_app, !be_bytes_length, !str_app_assoc in H. exact H.
Qed.

(** A version 2 header says what its proxy wrote: from a trusted peer, however
    the bytes arrive, the client is the address and port encoded in it, and
    what follows the header (extensions included) is the payload, untouched. *)
Theorem v2_header_roundtrip s peer trusted src dst sport dport tlv payload :
  steady s → TrustedM.contains trusted (ip peer) = true →
  bytes_of s = encode_v4 src dst sport dport tlv +:+ payload →
  (0 ≤ src < 2 ^ 32)%Z → (0 ≤ sport < 2 ^ 16)%Z → (12 + Z.of_nat (String.length tlv) < 2 ^ 16)%Z →
  ∃ p, accept s peer (mkExpect true Two) trusted true = Ok (p, mkSock (V4 src) sport) ∧ delivered p = payload.
Proof.
  intros Hs Ht E Hsrc Hport Htlv. unfold accept, read_header. cbn [negb on version].
  unfold encode_v4 in E. rewrite !str_app_assoc in E.
  destruct (read_upto_app 12 s _ _ Hs E) as (s1 & -> & Hs1 & E1); [done|]. cbn [mbind result_bind]. rewrite Ht.
  cbn [negb]. replace (starts_with V1_PREFIX V2_SIGNATURE) with false by done.
  replace (starts_with (VersionM.signature Two) V2_SIGNATURE) with true by done.
  unfold read_v2. rewrite <-str_app_assoc in E1.
  destruct (read_all_app (16 - String.length V2_SIGNATURE) (UnexpectedEof "PROXY v2 header cut short") s1 _ _ Hs1 E1)
    as (s2 & -> & Hs2 & E2); [rewrite str_length_app, be_bytes_length; done|]. cbn [mbind result_bind].
  set (len := (12 + Z.of_nat (String.length tlv))%Z) in *.
  assert (be (V2_SIGNATURE +:+ bytes [33; 17] +:+ be_bytes 2 len) 14 2 = len) as ->.
  { pose proof (be_spec (V2_SIGNATURE +:+ bytes [33; 17]) 2 len "") as H. rewrite str_app_nil_r, str_app_assoc in H.
    apply H. change (8 * Z.of_nat 2)%Z with 16%Z. lia. }
  destruct (read_all_app (Z.to_nat len) (UnexpectedEof "early eof") s2 (v4_body src dst sport dport tlv) payload Hs2)
    as (s3 & -> & _ & E3).
  { rewrite E2. unfold v4_body. by rewrite !str_app_assoc. }
  { unfold v4_body. rewrite !str_length_app, !be_bytes_length. unfold len. lia. }
  cbn [mbind result_bind]. exists (prefixed s3 ""). split; [|exact E3].
  replace (byteZ _ 12) with 33%Z by done. replace (byteZ _ 13) with 17%Z by done. by rewrite v2_client_v4.
Qed.

(** ** Networks *)

(** Membership of a network of a valid prefix length is equality of the top
    bits, for both families; addresses of the two families never match. *)
Theorem within_exact a net bits : (0 ≤ bits ≤ if is_ipv4 net then 32 else 128)%Z →
  (match a, net with V4 x, V4 y => 0 ≤ x < 2 ^ 32 ∧ 0 ≤ y < 2 ^ 32 | V6 x, V6 y => 0 ≤ x < 2 ^ 128 ∧ 0 ≤ y < 2 ^ 128 | _, _ => True end)%Z →
  within a net bits = true ↔
  match a, net with
  | V4 x, V4 y => x / 2 ^ (32 - bits) = y / 2 ^ (32 - bits)
  | V6 x, V6 y => x / 2 ^ (128 - bits) = y / 2 ^ (128 - bits)
  | _, _ => False
  end%Z.
Proof.
  assert (∀ w x y, (0 ≤ bits ≤ w → 0 ≤ x < 2 ^ w → 0 ≤ y < 2 ^ w →
    bool_decide (bits = 0) || bool_decide (Z.shiftr (Z.lxor x y) (w - bits) = 0) = true ↔
    x / 2 ^ (w - bits) = y / 2 ^ (w - bits))%Z) as H.
  { intros w x y Hb Hx Hy. rewrite orb_true_iff, !bool_decide_eq_true, Z.shiftr_lxor, Z.lxor_eq_0_iff,
      !Z.shiftr_div_pow2 by lia. split; [intros [-> |]; [|done]|by right].
    rewrite Z.sub_0_r, !Z.div_small by lia. done. }
  destruct a, net; cbn [is_ipv4 within]; intros Hb Hr; [apply H; lia|done|done|apply H; lia].
Qed.

(** ** The theorems on a connection *)

Definition lan : Trusted := [(V4 167772160, 8%Z)].
Definition balancer : SocketAddr := mkSock (V4 167772165) 40000.
Definition stranger : SocketAddr := mkSock (V4 3405803786) 40000.
Definition proxied : Stream := [Data (encode_v4 3325256711 167772162 56324 8081 "" +:+ "GET /")].
Definition proxied_slowly : Stream := (λ c, Data (String c "")) <$> String.list_ascii_of_string (bytes_of proxied).

(** The same bytes from a stranger and from the balancer, and a connection of
    the balancer without a header. *)
Definition direct : Stream := [Data "GET / HTTP/1.1"].
Lemma header_only_from_trusted_witness :
  (∃ p, accept proxied stranger (mkExpect true Two) lan true = Ok (p, stranger) ∧ delivered p = bytes_of proxied) ∧
  (∃ p, accept direct balancer (mkExpect true Two) lan true = Ok (p, balancer) ∧ delivered p = "GET / HTTP/1.1") ∧
  ∃ p c h, accept proxied balancer (mkExpect true Two) lan true = Ok (p, c) ∧ bytes_of proxied = h +:+ delivered p ∧
    v2_header balancer h c ∧ ip c = V4 3325256711.
Proof.
  split_and!.
  - assert (∃ p c, accept proxied stranger (mkExpect true Two) lan true = Ok (p, c)) as (p & c & E)
      by (eexists _, _; vm_compute; reflexivity).
    destruct (header_only_from_trusted _ _ _ _ _ _ _ E) as [[-> Hd]|(_ & Hin & _)].
    + exists p. split; [exact E|exact Hd].
    + exfalso. vm_compute in Hin. discriminate.
  - assert (∃ p c, accept direct balancer (mkExpect true Two) lan true = Ok (p, c)) as (p & c & E)
      by (eexists _, _; vm_compute; reflexivity).
    destruct (header_only_from_trusted _ _ _ _ _ _ _ E) as [[-> Hd]|(_ & _ & h & Hh & head & body & -> & _ & Hs & _)].
    + exists p. split; [exact E|exact Hd].
    + exfalso. apply starts_with_spec in Hs as [r ->]. vm_compute in Hh. discriminate.
  - assert (∃ p c, accept proxied balancer (mkExpect true Two) lan true = Ok (p, c) ∧ ip c = V4 3325256711) as (p & c & E & Hc)
      by (eexists _, _; split; [vm_compute; reflexivity|reflexivity]).
    destruct (header_only_from_trusted _ _ _ _ _ _ _ E) as [[-> _]|(_ & _ & h & Hh & Hv)].
    + exfalso. vm_compute in Hc. discriminate.
    + exists p, c, h. split_and!; [exact E|exact Hh|exact Hv|exact Hc].
Defined.

Lemma chunking_irrelevant_witness :
  seen (accept proxied balancer (mkExpect true Two) lan true) =
  seen (accept proxied_slowly balancer (mkExpect true Two) lan true).
Proof.
  apply chunking_irrelevant. split_and!; [repeat constructor; done| |vm_compute; reflexivity].
  unfold steady. apply Forall_fmap, Forall_true. done.
Defined.

Lemma v2_header_roundtrip_witness :
  ∃ p, accept proxied balancer (mkExpect true Two) lan true = Ok (p, mkSock (V4 3325256711) 56324) ∧ delivered p = "GET /".
Proof.
  apply (v2_header_roundtrip proxied balancer lan 3325256711 167772162 56324 8081 "" "GET /");
    [repeat constructor; done|vm_compute; reflexivity|vm_compute; reflexivity|lia|lia|cbn; lia].
Defined.

Lemma within_exact_witness : within (V4 167772165) (V4 167772160) 8 = true.
Proof. apply within_exact; [cbn; lia|lia|vm_compute; reflexivity]. Defined.
