(* ===== verification/Config.v ===== *)
(** The configuration (config.rs): what is validated at start-up, and that a
    configuration that passes is the one that runs. Host patterns are those of
    the [glob] crate, an interface here. *)
From S2P Require Import Prelude SortedVec RustStr Errors Json Model Context Snapshot Keys Views Rewrite Authz ProxyProtocol.

Open Scope string_scope.
Open Scope nat_scope.
Open Scope list_scope.

(** * The [glob] crate *)

Class GlobCrate := {
  GPattern : Type;
  (** [Pattern::new]: the pattern, or the error's text. *)
  glob_new : string → result string GPattern;
  glob_matches : GPattern → string → bool;
  glob_as_str : GPattern → string;
  glob_escape : string → string;
}.

(** * The configuration file *)

Record ProxyConfig := mkProxy { proxy_on : bool; proxy_version : Z; trust : list string }.
Record ContainerConfig := mkContainer { c_name : string; c_hosts : list string }.
Record AuthConfig := mkAuthConfig { a_enabled : bool; a_realm : string; a_users : list Authz.UserConfig }.
(** The settings [validate] looks at. *)
Record ServerConfig := mkServer {
  log_format : string; default_compatibility : string;
  s_proxy : ProxyConfig; s_auth : AuthConfig; s_containers : list ContainerConfig }.

Definition proxy_default : ProxyConfig := mkProxy false 2 TrustedM.DEFAULT_TRUSTED.
Definition container_default : ContainerConfig := mkContainer TenantId.DEFAULT_TENANT ["*"].
Definition auth_default : AuthConfig := mkAuthConfig false "SchemaRegistry" [].

Definition proxy_expect (p : ProxyConfig) : result string Expect :=
  v ← VersionM.parse (proxy_version p); Ok (mkExpect (proxy_on p) v).

(** A list written as one line, or line by line. *)
Definition split_list (s : string) : list string :=
  filter (λ p, p ≠ "") (trim <$> (split_char ";" s ≫= split_char ",")).
Inductive OneOrMany := OneLine (s : string) | Many (v : list string).
Definition one_or_many (v : OneOrMany) : list string :=
  match v with OneLine s => split_list s | Many v => v ≫= split_list end.

Section config.
Context {glob : GlobCrate}.

(** ** Validation *)

(** [for x in xs { ...? }], for its refusals. *)
Fixpoint each {A} (f : A → result string ()) (l : list A) : result string () :=
  match l with [] => Ok () | x :: l => _ ← f x; each f l end.

Definition check_host (c : ContainerConfig) (h : string) : result string () :=
  _ ← map_err (λ e, "container '" +:+ c_name c +:+ "': host pattern '" +:+ h +:+ "': " +:+ e) (glob_new h); Ok ().

(** The loop over the containers, with the names seen so far. *)
Fixpoint check_containers (names : list string) (cs : list ContainerConfig) : result string (list string) :=
  match cs with
  | [] => Ok names
  | c :: cs =>
      _ ← map_err message (TenantId.parse (c_name c));
      _ ← refuse_if (bool_decide (c_name c ∈ names)) ("duplicate host container '" +:+ c_name c +:+ "'");
      _ ← refuse_if (bool_decide (c_hosts c = [])) ("host container '" +:+ c_name c +:+ "' has no hosts");
      _ ← each (check_host c) (c_hosts c);
      check_containers (c_name c :: names) cs
  end.

Definition check_user_containers (cs : list ContainerConfig) (names : list string) (u : Authz.UserConfig) : result string () :=
  each (λ c, refuse_if (negb (bool_decide (cs = [])) && negb (bool_decide (c ∈ names)))
    ("user '" +:+ Authz.username u +:+ "' is bound to unknown host container '" +:+ c +:+ "'")) (Authz.u_containers u).

Definition check_pattern (u : Authz.UserConfig) (p : string) : result string () :=
  _ ← map_err (λ e, "user '" +:+ Authz.username u +:+ "': subject pattern '" +:+ p +:+ "': " +:+ e) (Pattern.parse p); Ok ().

Definition check_binding (u : Authz.UserConfig) (b : Authz.RoleBinding) : result string () :=
  _ ← refuse_if (bool_decide (Authz.rb_subjects b = []))
        ("user '" +:+ Authz.username u +:+ "': a binding needs at least one subject pattern");
  each (check_pattern u) (Authz.rb_subjects b).

Fixpoint check_users (seen : list string) (us : list Authz.UserConfig) : result string () :=
  match us with
  | [] => Ok ()
  | u :: us =>
      _ ← refuse_if (bool_decide (Authz.username u = "") || contains_char ":" (Authz.username u))
            ("invalid username '" +:+ Authz.username u +:+ "'");
      _ ← refuse_if (bool_decide (Authz.username u ∈ seen)) ("duplicate user '" +:+ Authz.username u +:+ "'");
      _ ← each (check_binding u) (Authz.u_bindings u);
      _ ← refuse_if (bool_decide (Authz.u_roles u = []) && bool_decide (Authz.u_bindings u = []))
            ("user '" +:+ Authz.username u +:+ "' has no roles and no bindings");
      check_users (Authz.username u :: seen) us
  end.

Definition validate (c : ServerConfig) : result string () :=
  _ ← map_err (λ e, "[proxy] " +:+ e) (VersionM.parse (proxy_version (s_proxy c)));
  _ ← map_err (λ e, "[proxy] trust: " +:+ e) (TrustedM.parse (trust (s_proxy c)));
  _ ← refuse_if (negb (bool_decide (log_format c ∈ ["text"; "json"])))
        ("log_format must be 'text' or 'json', not '" +:+ log_format c +:+ "'");
  _ ← map_err (λ e, "default_compatibility: " +:+ message e) (Level.parse (default_compatibility c));
  _ ← refuse_if (a_enabled (s_auth c) && bool_decide (a_users (s_auth c) = []))
        "auth.enabled = true but no [[auth.users]] are configured";
  names ← check_containers [] (s_containers c);
  _ ← each (check_user_containers (s_containers c) names) (a_users (s_auth c));
  check_users [] (a_users (s_auth c)).

(** ** What a valid configuration is *)

Record valid_container (c : ContainerConfig) : Prop := {
  container_named : TenantId.parse (c_name c) = Ok (TenantId.mk (c_name c));
  container_hosts : c_hosts c ≠ [];
  hosts_parse : ∀ h, h ∈ c_hosts c → ∃ p, glob_new h = Ok p }.

Record valid_user (cs : list ContainerConfig) (u : Authz.UserConfig) : Prop := {
  user_named : Authz.username u ≠ "" ∧ lacks ":" (Authz.username u);
  user_placed : cs ≠ [] → ∀ c, c ∈ Authz.u_containers u → c ∈ (c_name <$> cs);
  user_bindings : ∀ b, b ∈ Authz.u_bindings u →
    Authz.rb_subjects b ≠ [] ∧ ∀ p, p ∈ Authz.rb_subjects b → ∃ q, Pattern.parse p = Ok q;
  user_privileged : Authz.u_roles u ≠ [] ∨ Authz.u_bindings u ≠ [] }.

Record valid_config (c : ServerConfig) : Prop := {
  version_known : proxy_version (s_proxy c) = 1%Z ∨ proxy_version (s_proxy c) = 2%Z;
  networks_parse : ∃ t, TrustedM.parse (trust (s_proxy c)) = Ok t;
  format_known : log_format c = "text" ∨ log_format c = "json";
  level_known : ∃ l, Level.parse (default_compatibility c) = Ok l;
  someone_enters : a_enabled (s_auth c) = true → a_users (s_auth c) ≠ [];
  containers_distinct : NoDup (c_name <$> s_containers c);
  containers_valid : Forall valid_container (s_containers c);
  users_distinct : NoDup (Authz.username <$> a_users (s_auth c));
  users_valid : Forall (valid_user (s_containers c)) (a_users (s_auth c)) }.

(** ** Lemmas *)

Lemma each_Ok {A} (f : A → result string ()) l : each f l = Ok () ↔ ∀ x, x ∈ l → f x = Ok ().
Proof.
  induction l as [|x l IH]; cbn [each].
  - split; [|done]. intros _ x []%elem_of_nil.
  - rewrite bind_Ok. split.
    + intros ([] & Hx & Hl) y [-> |Hy]%elem_of_cons; [done|]. by apply IH.
    + intros H. exists (). split; [apply H; left|]. apply IH. intros y Hy. apply H. by right.
Qed.

Lemma drop_Ok {A} (m : result string A) : (_ ← m; Ok ()) = Ok () ↔ ∃ a, m = Ok a.
Proof. destruct m; cbn; naive_solver. Qed.

Lemma then_Ok {A B} (m : result string A) (n : result string B) b : (_ ← m; n) = Ok b ↔ (∃ a, m = Ok a) ∧ n = Ok b.
Proof. destruct m; cbn; naive_solver. Qed.

Lemma refused {b} {e : string} : (∃ a, refuse_if b e = Ok a) ↔ b = false.
Proof. setoid_rewrite refuse_if_Ok. split; [by intros [_ ?]|by exists ()]. Qed.

Lemma map_err_ok {E F A} (f : E → F) (m : result E A) : (∃ a, map_err f m = Ok a) ↔ ∃ a, m = Ok a.
Proof. by setoid_rewrite map_err_Ok. Qed.

Lemma unit_Ok (m : result string ()) : (∃ a, m = Ok a) ↔ m = Ok ().
Proof. split; [by intros [[] ?]|eauto]. Qed.

Lemma tenant_named s : (∃ t, TenantId.parse s = Ok t) ↔ TenantId.parse s = Ok (TenantId.mk s).
Proof. split; [|eauto]. intros [t Ht]. pose proof Ht as [-> _]%tenant_parse_Ok. done. Qed.

Lemma check_containers_Ok names cs out : check_containers names cs = Ok out ↔
  out = reverse (c_name <$> cs) ++ names ∧ Forall valid_container cs ∧
  NoDup (c_name <$> cs) ∧ ∀ c, c ∈ cs → c_name c ∉ names.
Proof.
  revert names; induction cs as [|c cs IH]; intros names; cbn [check_containers].
  { split; [intros [= <-]; split_and!; [done|done|constructor|set_solver]|by intros [-> _]]. }
  rewrite !then_Ok, map_err_ok, tenant_named, !refused, unit_Ok, each_Ok, IH, !bool_decide_eq_false.
  unfold check_host. setoid_rewrite drop_Ok. setoid_rewrite map_err_ok.
  cbn [fmap list_fmap]. rewrite reverse_cons, <-app_assoc, Forall_cons, NoDup_cons. cbn [app]. split.
  - intros (? & ? & ? & ? & -> & ? & ? & Hn). split_and!; [done|by constructor|done| |done|].
    + intros (d & Hd & He)%list_elem_of_fmap. destruct (Hn d); [done|]. rewrite <-Hd. left.
    + intros d [-> |Hd]%elem_of_cons; [done|]. intros Hx. destruct (Hn d); [done|]. by right.
  - intros (-> & [[] ?] & [Hnew ?] & Hn). split_and!; try done.
    + apply Hn. left.
    + intros d Hd [E|Hin]%elem_of_cons; [|destruct (Hn d); [by right|done]].
      apply Hnew. rewrite <-E. by apply list_elem_of_fmap_2.
Qed.

Lemma contains_char_lacks c s : contains_char c s = false ↔ lacks c s.
Proof. unfold contains_char, lacks. rewrite bool_decide_eq_false, eq_None_not_Some. done. Qed.

Lemma check_binding_Ok u b : check_binding u b = Ok () ↔
  Authz.rb_subjects b ≠ [] ∧ ∀ p, p ∈ Authz.rb_subjects b → ∃ q, Pattern.parse p = Ok q.
Proof.
  unfold check_binding, check_pattern. rewrite then_Ok, refused, bool_decide_eq_false, each_Ok.
  setoid_rewrite drop_Ok. setoid_rewrite map_err_ok. done.
Qed.

Lemma check_users_Ok seen us : check_users seen us = Ok () ↔
  NoDup (Authz.username <$> us) ∧ (∀ u, u ∈ us → Authz.username u ∉ seen) ∧
  Forall (λ u, (Authz.username u ≠ "" ∧ lacks ":" (Authz.username u)) ∧
    (∀ b, b ∈ Authz.u_bindings u → Authz.rb_subjects b ≠ [] ∧ ∀ p, p ∈ Authz.rb_subjects b → ∃ q, Pattern.parse p = Ok q) ∧
    (Authz.u_roles u ≠ [] ∨ Authz.u_bindings u ≠ [])) us.
Proof.
  revert seen; induction us as [|u us IH]; intros seen; cbn [check_users].
  { split; [|done]. intros _. split_and!; [constructor|set_solver|constructor]. }
  rewrite !then_Ok, !refused, unit_Ok, each_Ok, IH, orb_false_iff, andb_false_iff, !bool_decide_eq_false, contains_char_lacks.
  setoid_rewrite check_binding_Ok. cbn [fmap list_fmap]. rewrite Forall_cons, NoDup_cons. split.
  - intros ([? ?] & ? & ? & ? & ? & Hn & ?). split_and!; try done.
    + intros (v & Hv & He)%list_elem_of_fmap. destruct (Hn v); [done|]. rewrite <-Hv. left.
    + intros v [-> |Hv]%elem_of_cons; [done|]. intros Hx. destruct (Hn v); [done|]. by right.
  - intros ([Hnew ?] & Hn & ([? ?] & ? & ?) & ?). split_and!; try done.
    + apply Hn. left.
    + intros v Hv [E|Hin]%elem_of_cons; [|destruct (Hn v); [by right|done]].
      apply Hnew. rewrite <-E. by apply list_elem_of_fmap_2.
Qed.

Lemma check_user_containers_Ok cs names u : check_user_containers cs names u = Ok () ↔
  (cs ≠ [] → ∀ c, c ∈ Authz.u_containers u → c ∈ names).
Proof.
  unfold check_user_containers. rewrite each_Ok. setoid_rewrite refuse_if_Ok.
  setoid_rewrite andb_false_iff. setoid_rewrite negb_false_iff. setoid_rewrite bool_decide_eq_true.
  split; [intros H Hc c Hin; destruct (H c Hin); done|]. intros H c Hin.
  destruct (decide (cs = [])); [by left|right; auto].
Qed.

Lemma version_parse_Ok v : (∃ a, VersionM.parse v = Ok a) ↔ v = 1%Z ∨ v = 2%Z.
Proof. unfold VersionM.parse. repeat case_decide; naive_solver. Qed.

(** Start-up accepts exactly the valid configurations: nothing that could not
    run as written gets past it, and it refuses nothing else. *)
Theorem validate_exact c : validate c = Ok () ↔ valid_config c.
Proof.
  unfold validate. rewrite !then_Ok, !map_err_ok, version_parse_Ok, !refused, bind_Ok, negb_false_iff, andb_false_iff,
    bool_decide_eq_true, bool_decide_eq_false.
  setoid_rewrite check_containers_Ok. setoid_rewrite then_Ok. setoid_rewrite unit_Ok. setoid_rewrite each_Ok.
  setoid_rewrite check_user_containers_Ok. setoid_rewrite check_users_Ok. rewrite !elem_of_cons, elem_of_nil. split.
  - intros (? & ? & Hf & ? & He & names & (-> & ? & ? & _) & Hp & ? & _ & Hu). constructor; try done.
    + naive_solver.
    + intros Hen. destruct He; congruence.
    + rewrite Forall_forall in *. intros u Hin. destruct (Hu u Hin) as (? & ? & ?). constructor; try done.
      intros Hc k Hk. specialize (Hp u Hin Hc k Hk). rewrite app_nil_r in Hp. by rewrite elem_of_reverse in Hp.
  - intros [? ? Hf ? He ? ? ? Hu]. split_and!; try done; [naive_solver| |].
    + destruct (a_enabled _); [right; auto|by left].
    + eexists. split_and!; [done|done|done|set_solver| |done|set_solver|].
      * intros u Hin Hc k Hk. rewrite app_nil_r, elem_of_reverse. rewrite Forall_forall in Hu. by apply (user_placed _ _ (Hu u Hin)).
      * rewrite Forall_forall in *. intros u Hin. by destruct (Hu u Hin).
Qed.
End config.
