(* ===== verification/Auth.v ===== *)
(** HTTP Basic authentication (auth.rs): the users, the cache of verified
    credentials, and the middleware that lets a request through. bcrypt, base64
    and SHA-256 are parameters. *)
From S2P Require Import Prelude SortedVec RustStr Errors Json Model Context Snapshot Keys SchemaLayer Views Rewrite Authz ProxyProtocol Config.

Open Scope string_scope.
Open Scope nat_scope.
Open Scope list_scope.

Section auth.
(** [bcrypt::verify] ([None]: an error), [bcrypt::hash], base64's standard
    engine and SHA-256. *)
Context (bcrypt_verify : string → string → option bool) (bcrypt_hash : string → Z → option string).
Context (base64_decode : string → option string) (sha256 : string → string).

Record Auth := mkAuth {
  enabled : bool; realm : string;
  users : gmap string (string * Authz.Principal);
  verified : gset string;
  dummy_hash : option string }.

Definition DEFAULT_BCRYPT_COST : Z := 12.
Definition CACHE_MAX : Z := 10000.

(** The cost in a [$2b$12$...] hash, if it is one. *)
Definition bcrypt_cost (stored : string) : option Z :=
  let parts := split_char "$" stored in
  v ← parts !! 1; if starts_with "2" v then parts !! 2 ≫= parse_u32 else None.

Definition dummy_hash_for (cfg : AuthConfig) : option string :=
  match omap (λ u, bcrypt_cost (Authz.password u)) (a_users cfg) with
  | [] => None
  | c :: cs =>
      let cost := foldl Z.max c cs in
      bcrypt_hash "schema-registry-dummy-password" (Z.min (Z.max cost 4) (Z.max DEFAULT_BCRYPT_COST cost))
  end.

(** [collect] into a [HashMap]: a later user replaces an earlier one. *)
Definition add_user (m : gmap string (string * Authz.Principal)) (u : Authz.UserConfig) :=
  <[Authz.username u := (Authz.password u, Authz.from_user u)]> m.
Definition users_of (us : list Authz.UserConfig) : gmap string (string * Authz.Principal) := foldl add_user ∅ us.

Definition auth_new (cfg : AuthConfig) : Auth :=
  mkAuth (a_enabled cfg) (a_realm cfg) (users_of (a_users cfg)) ∅ (dummy_hash_for cfg).
Definition auth_disabled : Auth := mkAuth false "" ∅ ∅ None.

Definition decode_basic (header_value : string) : option (string * string) :=
  '(scheme, encoded) ← split_once_char " " header_value;
  if negb (eq_ignore_ascii_case scheme "Basic") then None else
  decoded ← base64_decode (trim encoded);
  if utf8_valid decoded then split_once_char ":" decoded else None.

Definition framed (s : string) : string := to_be_u64 (Z.of_nat (String.length s)) +:+ s.
Definition cache_key (user password stored : string) : string :=
  sha256 (framed user +:+ framed password +:+ framed stored).

Definition cached (a : Auth) (header_value : string) : option Authz.Principal :=
  '(user, password) ← decode_basic header_value;
  '(stored, principal) ← users a !! user;
  if bool_decide (cache_key user password stored ∈ verified a) then Some principal else None.

Definition is_bcrypt (stored : string) : bool :=
  starts_with "$2a$" stored || starts_with "$2b$" stored || starts_with "$2y$" stored.

(** Whether the password is the stored one; [ct_eq] compares byte strings. *)
Definition password_ok (password stored : string) : bool :=
  if is_bcrypt stored then default false (bcrypt_verify password stored) else bool_decide (stored = password).

Definition remember (a : Auth) (key : string) : Auth :=
  let s := if bool_decide (CACHE_MAX < Z.of_nat (size (verified a)))%Z then ∅ else verified a in
  mkAuth (enabled a) (realm a) (users a) ({[key]} ∪ s) (dummy_hash a).

(** The principal, the new state, and the hashes [bcrypt::verify] ran on. *)
Definition authenticate (a : Auth) (header_value : string) : option Authz.Principal * Auth * list string :=
  match decode_basic header_value with
  | None => (None, a, [])
  | Some (user, password) =>
      match users a !! user with
      | None => (None, a, option_list (dummy_hash a))
      | Some (stored, principal) =>
          let key := cache_key user password stored in
          if bool_decide (key ∈ verified a) then (Some principal, a, []) else
          let work := if is_bcrypt stored then [stored] else [] in
          if password_ok password stored then (Some principal, remember a key, work) else (None, a, work)
      end
  end.

(** ** The middleware *)

(** The parts of a request it reads: the Authorization header, the container
    resolved before, the method and the path. *)
Record AuthRequest := mkAuthRequest {
  rq_credentials : option string; rq_container : option TenantId.t; rq_method : string; rq_path : string }.

Inductive Verdict := PassOn (who : option Authz.Principal) | Refuse (e : ApiError).

Definition denied : ApiError := ApiErr.forbidden "User is denied operation on this resource".

(** What is asked of a caller whose credentials were accepted. *)
Definition permit (p : Authz.Principal) (rq : AuthRequest) : Verdict :=
  if (match rq_container rq with Some c => negb (Authz.may_use p c) | None => false end) then Refuse denied
  else if negb (Authz.authorized p (rq_method rq) (rq_path rq)) then Refuse denied
  else PassOn (Some p).

Definition middleware (a : Auth) (rq : AuthRequest) : Verdict * Auth :=
  if negb (enabled a) then (PassOn None, a) else
  match rq_credentials rq with
  | None => (Refuse ApiErr.unauthorized, a)
  | Some creds =>
      let '(principal, a) :=
        match cached a creds with
        | Some p => (Some p, a)
        | None => let '(p, a, _) := authenticate a creds in (p, a)
        end in
      match principal with
      | None => (Refuse ApiErr.unauthorized, a)
      | Some p => (permit p rq, a)
      end
  end.

(** Requests one after the other. *)
Fixpoint serve (a : Auth) (rqs : list AuthRequest) : list Verdict :=
  match rqs with [] => [] | rq :: rqs => let '(v, a) := middleware a rq in v :: serve a rqs end.

(** ** The reference: a decision from the configuration alone *)

Definition accepts (cfg : AuthConfig) (creds : string) : option Authz.Principal :=
  '(user, password) ← decode_basic creds;
  '(stored, principal) ← users_of (a_users cfg) !! user;
  if password_ok password stored then Some principal else None.

Definition decision (cfg : AuthConfig) (rq : AuthRequest) : Verdict :=
  if negb (a_enabled cfg) then PassOn None else
  match rq_credentials rq ≫= accepts cfg with
  | None => Refuse ApiErr.unauthorized
  | Some p => permit p rq
  end.

(** ** Lemmas *)

Definition fits (s : string) : Prop := (Z.of_nat (String.length s) < 2 ^ 64)%Z.

Lemma framed_inj s t a b : fits s → fits t → framed s +:+ a = framed t +:+ b → s = t ∧ a = b.
Proof.
  unfold framed, fits. rewrite !str_app_assoc. intros Hs Ht E.
  apply fixed_app_inj in E as [El E]; [|unfold to_be_u64; by rewrite !be_bytes_length].
  assert (Z.of_nat (String.length s) = Z.of_nat (String.length t)).
  { unfold to_be_u64 in El. apply (f_equal (λ x, be_value 8 (x +:+ ""))) in El. rewrite !be_value_bytes in El.
    injection El as El. by rewrite !Z.mod_small in El by (cbn; lia). }
  apply fixed_app_inj in E; [done|lia].
Qed.

(** What serving some requests hashes: the user, the password and the stored
    password of each whose user is known. *)
Definition preimage (user password stored : string) : string := framed user +:+ framed password +:+ framed stored.
Definition preimages (cfg : AuthConfig) (rqs : list AuthRequest) : list string :=
  omap (λ rq, creds ← rq_credentials rq; '(user, password) ← decode_basic creds;
              '(stored, _) ← users_of (a_users cfg) !! user; Some (preimage user password stored)) rqs.

Lemma preimages_elem cfg rqs rq creds user password stored principal : rq ∈ rqs → rq_credentials rq = Some creds →
  decode_basic creds = Some (user, password) → users_of (a_users cfg) !! user = Some (stored, principal) →
  preimage user password stored ∈ preimages cfg rqs.
Proof.
  intros Hin Hc Hd Hu. apply list_elem_of_omap. exists rq. split; [done|]. rewrite Hc. cbn [mbind option_bind].
  rewrite Hd. cbn [mbind option_bind]. by rewrite Hu.
Qed.

Section cache.
(** A decoded header fits in memory. *)
Context (decoded_fits : ∀ s d, base64_decode s = Some d → fits d).
(** The texts that are hashed, of which no two have the same hash. *)
Context (texts : list string) (no_collision : ∀ s t, s ∈ texts → t ∈ texts → sha256 s = sha256 t → s = t).

Lemma preimage_inj u p s u' p' s' : fits u → fits p → fits s → fits u' → fits p' → fits s' →
  preimage u p s = preimage u' p' s' → u = u' ∧ p = p' ∧ s = s'.
Proof.
  intros ?????? E. apply framed_inj in E as [-> E]; [|done..]. apply framed_inj in E as [-> E]; [|done..].
  rewrite <-(str_app_nil_r (framed s)), <-(str_app_nil_r (framed s')) in E. apply framed_inj in E as [-> _]; done.
Qed.

Lemma split_fits c d u p : split_once_char c d = Some (u, p) → fits d → fits u ∧ fits p.
Proof. intros [-> _]%split_once_char_Some Hd. unfold fits in *. rewrite str_length_app in Hd. cbn in Hd. lia. Qed.

Lemma decode_fits h u p : decode_basic h = Some (u, p) → fits u ∧ fits p.
Proof.
  unfold decode_basic. destruct (split_once_char " " h) as [[sch enc]|]; [|done]. cbn [mbind option_bind].
  case_match; [done|]. destruct (base64_decode (trim enc)) as [d|] eqn:E; [|done]. cbn [mbind option_bind].
  case_match; [|done]. intros Hsp. apply split_fits in Hsp; [done|]. by eapply decoded_fits.
Qed.

(** The cache holds only keys of credentials that were verified. *)
Definition sound_cache (cfg : AuthConfig) (a : Auth) : Prop :=
  enabled a = a_enabled cfg ∧ users a = users_of (a_users cfg) ∧
  ∀ k, k ∈ verified a → ∃ u p s q, fits u ∧ fits p ∧ users_of (a_users cfg) !! u = Some (s, q) ∧
    preimage u p s ∈ texts ∧ k = cache_key u p s ∧ password_ok p s = true.

Definition fitting (cfg : AuthConfig) : Prop := ∀ u s q, users_of (a_users cfg) !! u = Some (s, q) → fits s.

(** The credentials are among those that are hashed. *)
Definition foreseen (cfg : AuthConfig) (h : string) : Prop :=
  ∀ u p s q, decode_basic h = Some (u, p) → users_of (a_users cfg) !! u = Some (s, q) → preimage u p s ∈ texts.

Lemma cached_sound cfg a h p : fitting cfg → foreseen cfg h → sound_cache cfg a → cached a h = Some p → accepts cfg h = Some p.
Proof.
  intros Hc Hf (_ & Hu & Hv). unfold cached, accepts. destruct (decode_basic h) as [[user pw]|] eqn:Ed; [|done].
  cbn [mbind option_bind]. rewrite Hu. destruct (users_of (a_users cfg) !! user) as [[s q]|] eqn:El; [|done]. cbn [mbind option_bind].
  case_bool_decide as Hin; [|done]. intros [= <-]. apply Hv in Hin as (u' & p' & s' & q' & ? & ? & El' & Ht & Ek & Hok).
  pose proof (Hf _ _ _ _ Ed El) as Ht'. apply decode_fits in Ed as [? ?]. apply no_collision in Ek; [|done..].
  apply preimage_inj in Ek as (-> & -> & ->); eauto. by rewrite Hok.
Qed.

Lemma authenticate_sound cfg a h r a' w : fitting cfg → foreseen cfg h → sound_cache cfg a → authenticate a h = (r, a', w) →
  r = accepts cfg h ∧ sound_cache cfg a'.
Proof.
  intros Hc Hf Ha. pose proof (cached_sound cfg a h) as Hs. pose proof Ha as (He & Hu & Hv).
  unfold authenticate, accepts, cached in *. destruct (decode_basic h) as [[user pw]|] eqn:Ed; [|by intros [= <- <- _]].
  cbn [mbind option_bind] in *. rewrite Hu in *. destruct (users_of (a_users cfg) !! user) as [[s q]|] eqn:El; [|by intros [= <- <- _]].
  cbn [mbind option_bind] in *. case_bool_decide as Hin; [intros [= <- <- _]; split; [symmetry; by apply Hs|done]|].
  destruct (password_ok pw s) eqn:Hok; intros [= <- <- _]; split; try done.
  pose proof (Hf _ _ _ _ Ed El) as Ht. apply decode_fits in Ed as [? ?].
  unfold remember. split_and!; [done|done|]. cbn [verified]. intros k [->%elem_of_singleton|Hk]%elem_of_union; [by eauto 10|].
  apply Hv. by case_bool_decide.
Qed.

Lemma middleware_sound cfg a rq v a' : fitting cfg → (∀ creds, rq_credentials rq = Some creds → foreseen cfg creds) →
  sound_cache cfg a → middleware a rq = (v, a') → v = decision cfg rq ∧ sound_cache cfg a'.
Proof.
  intros Hc Hf Ha. pose proof Ha as (He & _). unfold middleware, decision. rewrite He. destruct (a_enabled cfg); cbn [negb]; [|by intros [= <- <-]].
  destruct (rq_credentials rq) as [creds|]; [|by intros [= <- <-]]. specialize (Hf creds eq_refl). cbn [mbind option_bind].
  destruct (cached a creds) as [p|] eqn:Ec.
  - rewrite (cached_sound cfg a creds p) by done. by intros [= <- <-].
  - destruct (authenticate a creds) as [[r a1] w] eqn:Ea. apply (authenticate_sound cfg) in Ea as [-> ?]; [|done..].
    destruct (accepts cfg creds); by intros [= <- <-].
Qed.

Lemma serve_sound cfg rqs a : fitting cfg → (∀ rq creds, rq ∈ rqs → rq_credentials rq = Some creds → foreseen cfg creds) →
  sound_cache cfg a → serve a rqs = decision cfg <$> rqs.
Proof.
  intros Hc. revert a. induction rqs as [|rq rqs IH]; intros a Hf Ha; [done|]. cbn [serve fmap list_fmap].
  destruct (middleware a rq) as [v a'] eqn:Em. apply (middleware_sound cfg) in Em as [-> Ha']; [|done|intros creds; by apply Hf; left|done].
  f_equal. apply IH; [|done]. intros rq' creds Hin. apply Hf. by right.
Qed.
End cache.

(** ** Theorems *)

(** (C34) The cache of verified credentials cannot be observed unless SHA-256
    collides on it: whatever requests came before, each is decided as the
    configuration alone says - or, among the texts (user, password and stored
    password) that serving these very requests hashes, two different ones have
    the same hash. So but for such a collision a request passes with a
    principal only if its credentials are those of a configured user who may
    use the container and is authorized for the path. (Decoded headers and
    stored passwords are shorter than 2^64 bytes.) *)
Theorem authentication_exact cfg rqs :
  (∀ s d, base64_decode s = Some d → fits d) → fitting cfg →
  serve (auth_new cfg) rqs = decision cfg <$> rqs ∨
  ∃ s t, s ∈ preimages cfg rqs ∧ t ∈ preimages cfg rqs ∧ s ≠ t ∧ sha256 s = sha256 t.
Proof.
  intros Hb Hc. set (L := preimages cfg rqs).
  destruct (decide (Exists (λ s, Exists (λ t, s ≠ t ∧ sha256 s = sha256 t) L) L)) as [Hcol|Hno].
  { right. apply Exists_exists in Hcol as (s & Hs & (t & Ht & ? & ?)%Exists_exists). by exists s, t. }
  left. apply (serve_sound Hb L); [|done| |split_and!; set_solver].
  - intros s t Hs Ht E. destruct (decide (s = t)) as [|Hne]; [done|]. destruct Hno. apply Exists_exists. exists s. split; [done|].
    apply Exists_exists. by exists t.
  - intros rq creds Hin Hcr u p s q Hd Hu. by eapply preimages_elem.
Qed.

(** The state after some requests. *)
Fixpoint served (a : Auth) (rqs : list AuthRequest) : Auth :=
  match rqs with [] => a | rq :: rqs => served (middleware a rq).2 rqs end.

Lemma remember_size a k : (Z.of_nat (size (verified a)) ≤ CACHE_MAX + 1 →
  Z.of_nat (size (verified (remember a k))) ≤ CACHE_MAX + 1)%Z.
Proof.
  intros Ha. unfold remember. cbn [verified].
  assert (∀ X : gset string, size ({[k]} ∪ X) ≤ S (size X)) as Hs.
  { intros X. pose proof (size_union_alt {[k]} X). rewrite size_singleton in H. rewrite H.
    pose proof (subseteq_size (X ∖ {[k]}) X). set_solver by lia. }
  case_bool_decide.
  - specialize (Hs ∅). rewrite size_empty in Hs. unfold CACHE_MAX. lia.
  - specialize (Hs (verified a)). lia.
Qed.

(** The cache stays small: however many different credentials succeed, it never
    holds more than one key above its limit. *)
Theorem verified_cache_bounded cfg rqs : (Z.of_nat (size (verified (served (auth_new cfg) rqs))) ≤ CACHE_MAX + 1)%Z.
Proof.
  assert (Z.of_nat (size (verified (auth_new cfg))) ≤ CACHE_MAX + 1)%Z as Ha by (cbn [auth_new verified]; rewrite size_empty; done).
  revert Ha. generalize (auth_new cfg) as a. induction rqs as [|rq rqs IH]; intros a Ha; [done|]. apply IH.
  unfold middleware. case_match; [done|]. destruct (rq_credentials rq) as [creds|]; [|done].
  destruct (cached a creds); [done|]. unfold authenticate.
  destruct (decode_basic creds) as [[user pw]|]; [|done]. destruct (users a !! user) as [[st q]|]; [|done].
  case_bool_decide; [done|]. destruct (password_ok pw st); [|done]. by apply remember_size.
Qed.

Lemma add_users_other us m k : k ∉ (Authz.username <$> us) → foldl add_user m us !! k = m !! k.
Proof.
  revert m; induction us as [|v us IH]; intros m Hn; [done|]. cbn [foldl]. cbn in Hn. apply not_elem_of_cons in Hn as [Hne Hn].
  rewrite IH by done. unfold add_user. by rewrite lookup_insert_ne by done.
Qed.

Lemma users_of_spec us u : NoDup (Authz.username <$> us) → u ∈ us →
  users_of us !! Authz.username u = Some (Authz.password u, Authz.from_user u).
Proof.
  unfold users_of. generalize (∅ : gmap string (string * Authz.Principal)) as m.
  induction us as [|v us IH]; intros m Hd Hin; [by apply elem_of_nil in Hin|]. cbn [foldl].
  apply NoDup_cons in Hd as [Hv Hd]. apply elem_of_cons in Hin as [-> |Hin]; [|by apply IH].
  rewrite add_users_other by done. apply lookup_insert_eq.
Qed.

Lemma users_of_inv us k s q : users_of us !! k = Some (s, q) → ∃ u, u ∈ us ∧ Authz.password u = s.
Proof.
  assert (∀ m, foldl add_user m us !! k = Some (s, q) → m !! k = Some (s, q) ∨ ∃ u, u ∈ us ∧ Authz.password u = s) as H.
  { induction us as [|u us IH]; intros m; cbn [foldl]; [by left|]. intros [E|(v & Hv & <-)]%IH.
    - unfold add_user in E. apply lookup_insert_Some in E as [(_ & [= <- _])|(_ & E)]; [right; exists u; split; [left|done]|by left].
    - right. exists v. split; [by right|done]. }
  intros [E|E]%H; [by rewrite lookup_empty in E|done].
Qed.

Lemma omap_parsed ps : (∀ p, p ∈ ps → ∃ q, Pattern.parse p = Ok q) →
  mapM_result Pattern.parse ps = Ok (omap (λ raw, match Pattern.parse raw with Ok p => Some p | Err _ => None end) ps).
Proof.
  intros H. apply mapM_result_Ok. induction ps as [|p ps IH]; [constructor|]. cbn.
  destruct (H p) as [q Hq]; [left|]. rewrite Hq. constructor; [done|]. apply IH. intros x Hx. apply H. by right.
Qed.

(** A configuration that start-up accepts is the one that runs: every user can
    be looked up with the password and privileges written for it, and every
    pattern of every binding is in force, none silently dropped. *)
Theorem validated_users_live (glob : GlobCrate) c u : validate c = Ok () → u ∈ a_users (s_auth c) →
  users (auth_new (s_auth c)) !! Authz.username u = Some (Authz.password u, Authz.from_user u) ∧
  ∀ b, b ∈ Authz.u_bindings u → ∃ qs, mapM_result Pattern.parse (Authz.rb_subjects b) = Ok qs ∧ qs ≠ [] ∧
    (Authz.rb_role b, qs) ∈ Authz.bindings (Authz.from_user u).
Proof.
  intros Hv%validate_exact Hu. split; [apply users_of_spec; [apply Hv|done]|]. intros b Hb.
  destruct Hv as [_ _ _ _ _ _ _ _ Hus]. rewrite Forall_forall in Hus.
  destruct (user_bindings _ _ (Hus u Hu) b Hb) as [Hne Hp]. pose proof (omap_parsed _ Hp) as Hm. eexists. split; [exact Hm|]. split.
  - apply mapM_result_Ok in Hm. intros E. rewrite E in Hm. by inversion Hm as [E'|]; rewrite <-E' in Hne.
  - unfold Authz.from_user. cbn [Authz.bindings]. apply list_elem_of_fmap. by exists b.
Qed.

Lemma max_same c cs : Forall (eq c) cs → foldl Z.max c cs = c.
Proof. induction 1 as [|d cs <- _ IH]; [done|]. cbn [foldl]. by rewrite Z.max_id. Qed.

(** Whether a name exists cannot be told from the work done: when all passwords
    are bcrypt hashes of one cost, an unknown name and a known one whose
    credentials are not cached both cost one verification of that cost. *)
Theorem names_not_revealed cfg cost a h user pw :
  (∀ p k, (4 ≤ k ≤ 31)%Z → ∃ hash, bcrypt_hash p k = Some hash ∧ bcrypt_cost hash = Some k) →
  (4 ≤ cost ≤ 31)%Z → a_users cfg ≠ [] → NoDup (Authz.username <$> a_users cfg) →
  (∀ u, u ∈ a_users cfg → is_bcrypt (Authz.password u) = true ∧ bcrypt_cost (Authz.password u) = Some cost) →
  users a = users_of (a_users cfg) → dummy_hash a = dummy_hash_for cfg →
  decode_basic h = Some (user, pw) → cached a h = None →
  ∃ hash, (authenticate a h).2 = [hash] ∧ bcrypt_cost hash = Some cost.
Proof.
  intros Hb Hcost Hne Hd Hus Eu Ed Edec Ec. unfold authenticate, cached in *. rewrite Edec in *. cbn [mbind option_bind] in Ec.
  rewrite Eu in *. destruct (users_of (a_users cfg) !! user) as [[st q]|] eqn:El; cbn [mbind option_bind] in Ec.
  - case_bool_decide; [done|]. exists st.
    apply users_of_inv in El as (u & Hu & <-).
    destruct (Hus u Hu) as [Hbc Hk]. rewrite Hbc. by destruct (password_ok pw _).
  - rewrite Ed. unfold dummy_hash_for.
    assert (omap (λ u, bcrypt_cost (Authz.password u)) (a_users cfg) = replicate (length (a_users cfg)) cost) as ->.
    { clear -Hus. induction (a_users cfg) as [|u us IH]; [done|]. cbn. destruct (Hus u) as [_ ->]; [left|]. cbn. f_equal.
      apply IH. intros v Hv. apply Hus. by right. }
    destruct (a_users cfg) as [|u us]; [done|]. cbn [length replicate].
    rewrite (max_same cost) by (apply Forall_replicate; done). unfold DEFAULT_BCRYPT_COST.
    destruct (Hb "schema-registry-dummy-password" cost Hcost) as (hash & Eh & Ek). exists hash.
    replace (Z.min (Z.max cost 4) (Z.max 12 cost)) with cost by lia. by rewrite Eh.
Qed.

End auth.

(** * The theorems on a small installation *)

Definition toy_sha256 (s : string) : string := s.
Definition toy_base64 (s : string) : option string := if bool_decide (String.length s < 100) then Some s else None.
Definition toy_hash (p : string) (k : Z) : option string := Some ("$2b$" +:+ pretty k +:+ "$" +:+ p).
Definition toy_verify (p h : string) : option bool := Some (bool_decide (h = "$2b$12$" +:+ p)).
Definition toy_glob : GlobCrate := {|
  GPattern := string; glob_new s := Ok s; glob_matches p s := bool_decide (p = s);
  glob_as_str p := p; glob_escape s := s |}.

Definition alice : Authz.UserConfig :=
  Authz.mkUser "alice" "$2b$12$secret" [] [Authz.mkBinding Authz.Readonly [".eu::orders*"]] [].
Definition demo_auth : AuthConfig := mkAuthConfig true "SchemaRegistry" [alice].
Definition demo_server : ServerConfig := mkServer "text" "BACKWARD" proxy_default demo_auth [].
Definition alice_lists : AuthRequest := mkAuthRequest (Some "Basic alice:secret") None "GET" "/subjects".
Definition alice_guesses : AuthRequest := mkAuthRequest (Some "Basic alice:guess") None "GET" "/subjects".

Lemma toy_base64_fits s d : toy_base64 s = Some d → fits d.
Proof. unfold toy_base64. case_bool_decide; [|done]. intros [= <-]. unfold fits. lia. Qed.

Lemma demo_users : users_of (a_users demo_auth) = {["alice" := ("$2b$12$secret", Authz.from_user alice)]}.
Proof. reflexivity. Qed.

(** A hash that forgets all but some bits. *)
Definition weak_sha256 (s : string) : string := be_bytes 4 (foldr (λ c n, (31 * n + Z.of_nat (cval c)) mod 65521)%Z 7%Z (String.list_ascii_of_string s)).
Lemma authentication_exact_witness :
  serve toy_verify toy_base64 weak_sha256 (auth_new toy_hash demo_auth) [alice_lists; alice_guesses; alice_lists] =
  [PassOn (Some (Authz.from_user alice)); Refuse ApiErr.unauthorized; PassOn (Some (Authz.from_user alice))].
Proof.
  destruct (authentication_exact toy_verify toy_hash toy_base64 weak_sha256 demo_auth [alice_lists; alice_guesses; alice_lists]) as [-> |H].
  - exact toy_base64_fits.
  - intros u s q. rewrite demo_users. intros [_ [= <- _]]%lookup_singleton_Some. unfold fits. cbn. lia.
  - vm_compute; reflexivity.
  - exfalso. destruct H as (s & t & Hs & Ht & Hne & E).
    assert (∃ x y, preimages toy_base64 demo_auth [alice_lists; alice_guesses; alice_lists] = [x; y; x] ∧ weak_sha256 x ≠ weak_sha256 y) as (x & y & HL & Hxy)
      by (eexists _, _; split; [vm_compute; reflexivity|vm_compute; discriminate]).
    rewrite HL, !elem_of_cons, elem_of_nil in Hs, Ht. destruct Hs as [-> |[-> |[-> |[]]]], Ht as [-> |[-> |[-> |[]]]]; congruence.
Defined.

Lemma validated_users_live_witness :
  validate (glob := toy_glob) demo_server = Ok () ∧
  users (auth_new toy_hash (s_auth demo_server)) !! "alice" = Some ("$2b$12$secret", Authz.from_user alice).
Proof.
  assert (validate (glob := toy_glob) demo_server = Ok ()) as Hv by (vm_compute; reflexivity).
  split; [exact Hv|]. apply (validated_users_live toy_hash toy_glob demo_server alice Hv). left.
Defined.

Lemma toy_cost p k : (4 ≤ k ≤ 31)%Z → ∃ h, toy_hash p k = Some h ∧ bcrypt_cost h = Some k.
Proof.
  intros Hk. eexists. split; [done|].
  assert (k ∈ seqZ 4 28) as Hin by (apply elem_of_seqZ; lia). cbn in Hin.
  repeat (apply elem_of_cons in Hin as [-> |Hin]; [vm_compute; reflexivity|]). by apply elem_of_nil in Hin.
Qed.

Lemma names_not_revealed_witness :
  ∃ hash, (authenticate toy_verify toy_base64 toy_sha256 (auth_new toy_hash demo_auth) "Basic bob:secret").2 = [hash] ∧
    bcrypt_cost hash = Some 12%Z.
Proof.
  eapply (names_not_revealed toy_verify toy_hash toy_base64 toy_sha256 demo_auth 12 _ _ "bob" "secret");
    [exact toy_cost|lia|done|apply NoDup_singleton| |reflexivity|reflexivity|vm_compute; reflexivity|vm_compute; reflexivity].
  intros u ->%list_elem_of_singleton. vm_compute. done.
Defined.
