(* ===== verification/Containers.v ===== *)
(** Host routing (containers.rs): which container a [Host] header reaches. *)
From S2P Require Import Prelude SortedVec RustStr Errors Json Model Context Snapshot Keys Views Rewrite Authz ProxyProtocol Config.

Open Scope string_scope.
Open Scope nat_scope.
Open Scope list_scope.

Section containers.
Context {glob : GlobCrate} {registry : Type}.

Record Containers := mkContainers { routes : list (GPattern * TenantId.t); by_name : gmap string registry }.

Definition host_pattern (host : string) : string :=
  if starts_with "[" host && contains_char ":" host then glob_escape host else host.

(** The byte after a position, compared with a colon. *)
Definition colon_at (s : string) (i : nat) : bool := bool_decide (String.get i s = Some ":"%char).

Definition without_port (host : string) : string :=
  let by_colon := match rsplit_once_char ":" host with Some (h, _) => h | None => host end in
  match find_char "]" host with
  | Some end_ =>
      if colon_at host (end_ + 1) then str_take (S end_) host
      else if bool_decide (end_ = String.length host - 1) then host
      else by_colon
  | None => by_colon
  end.

Definition has_port (pattern : string) : bool :=
  if starts_with "[[]" pattern then
    match find_str "[]]" pattern with Some end_ => colon_at pattern (end_ + 3) | None => false end
  else match find_char "]" pattern with
       | Some end_ => colon_at pattern (end_ + 1)
       | None => contains_char ":" pattern
       end.

(** The routes of one container. A name or a pattern that does not parse is left out. *)
Definition routes_of (c : ContainerConfig) : list (GPattern * TenantId.t) :=
  match TenantId.parse (c_name c) with
  | Ok name => omap (λ h, match glob_new (host_pattern (to_ascii_lowercase h)) with
                          | Ok p => Some (p, name) | Err _ => None end) (c_hosts c)
  | Err _ => []
  end.

(** [None]: the panic of [glob::Pattern::new("*").expect("valid")]. *)
Definition containers_new (configured : list ContainerConfig) (registries : gmap string registry) : option Containers :=
  let routes := configured ≫= routes_of in
  if decide (routes = []) then
    match glob_new "*" with
    | Ok p => Some (mkContainers [(p, TenantId.default_tenant)] registries)
    | Err _ => None
    end
  else Some (mkContainers routes registries).

(** Whether a route takes a host that was put in lower case. *)
Definition takes (p : GPattern) (host : string) : bool :=
  glob_matches p host || (negb (has_port (glob_as_str p)) && glob_matches p (without_port host)).

Definition route (c : Containers) (host : option string) : option (TenantId.t * registry) :=
  let host := to_ascii_lowercase (default "" host) in
  '(_, name) ← List.find (λ r, takes r.1 host) (routes c);
  reg ← by_name c !! TenantId.as_str name;
  Some (name, reg).

Definition no_such_host (host : option string) : ApiError :=
  ApiErr.new 42101 ("No host container is configured for host '" +:+ default "" host +:+ "'").

(** ** What the [glob] crate documents *)

Definition glob_meta (c : ascii) : bool := bool_decide (c ∈ ["?"; "*"; "["; "]"]%char).
(** Metacharacters surrounded by brackets. *)
Fixpoint bracketed (s : string) : string :=
  match s with
  | EmptyString => ""
  | String c s => (if glob_meta c then "[" +:+ str1 c +:+ "]" else str1 c) +:+ bracketed s
  end.

Class GlobLaws := {
  glob_keeps_text s p : glob_new s = Ok p → glob_as_str p = s;
  glob_star_any : ∃ p, glob_new "*" = Ok p ∧ ∀ s, glob_matches p s = true;
  glob_escape_brackets s : glob_escape s = bracketed s;
  glob_escape_exact s : ∃ p, glob_new (glob_escape s) = Ok p ∧ ∀ t, glob_matches p t = true ↔ t = s;
  glob_plain_exact s : str_forall (λ c, negb (glob_meta c)) s = true →
    ∃ p, glob_new s = Ok p ∧ ∀ t, glob_matches p t = true ↔ t = s }.

(** ** Hosts: a name or an IPv6 literal, with or without a port *)

Inductive Addr := Named (n : string) | Literal6 (a : string).
#[export] Instance Addr_eq_dec : EqDecision Addr.
Proof. solve_decision. Defined.
Record HostPort := mkHost { h_addr : Addr; h_port : option string }.

Definition addr_str (a : Addr) : string := match a with Named n => n | Literal6 a => "[" +:+ a +:+ "]" end.
Definition port_str (p : option string) : string := match p with Some p => ":" +:+ p | None => "" end.
Definition host_str (h : HostPort) : string := addr_str (h_addr h) +:+ port_str (h_port h).

Definition host_char (c : ascii) : bool := negb (glob_meta c) && negb (bool_decide (c = ":"%char)).
Definition addr_ok (a : Addr) : Prop :=
  match a with
  | Named n => str_forall host_char n = true
  | Literal6 a => str_forall (λ c, negb (glob_meta c)) a = true ∧ ¬ lacks ":" a
  end.
Definition host_ok (h : HostPort) : Prop := addr_ok (h_addr h) ∧ from_option (λ p, str_forall host_char p = true) True (h_port h).

Definition lower_addr (a : Addr) : Addr :=
  match a with Named n => Named (to_ascii_lowercase n) | Literal6 a => Literal6 (to_ascii_lowercase a) end.
Definition lower_host (h : HostPort) : HostPort := mkHost (lower_addr (h_addr h)) (to_ascii_lowercase <$> h_port h).

(** A configured host takes a requested one: the same address in any case, and
    the same port unless none was configured. *)
Definition covers (configured requested : HostPort) : Prop :=
  lower_addr (h_addr configured) = lower_addr (h_addr requested) ∧
  (h_port configured = None ∨ to_ascii_lowercase <$> h_port configured = to_ascii_lowercase <$> h_port requested).
#[export] Instance covers_dec c r : Decision (covers c r).
Proof. unfold covers. apply _. Defined.

(** ** Lemmas *)

Lemma colon_at_app s t i : colon_at (s +:+ t) (String.length s + i) = colon_at t i.
Proof. unfold colon_at. induction s as [|c s IH]; [done|]. exact IH. Qed.

Lemma colon_at_port p : colon_at (port_str p) 0 = bool_decide (is_Some p).
Proof. by destruct p. Qed.

Lemma bracketed_app a b : bracketed (a +:+ b) = bracketed a +:+ bracketed b.
Proof. induction a as [|c a IH]; cbn [bracketed String.append]; [done|]. by rewrite IH, str_app_assoc. Qed.

Lemma bracketed_plain s : str_forall (λ c, negb (glob_meta c)) s = true → bracketed s = s.
Proof.
  induction s as [|c s IH]; cbn [bracketed str_forall]; [done|]. rewrite andb_true_iff, negb_true_iff. intros [-> Hs].
  by rewrite IH.
Qed.

Lemma host_char_plain s : str_forall host_char s = true → str_forall (λ c, negb (glob_meta c)) s = true ∧ lacks ":" s.
Proof.
  intros H. split; [|by apply (str_forall_lacks host_char)]. revert H. induction s as [|c s IH]; [done|]. cbn.
  unfold host_char at 1. rewrite !andb_true_iff. naive_solver.
Qed.

Lemma plain_lacks c s : glob_meta c = true → str_forall (λ c, negb (glob_meta c)) s = true → lacks c s.
Proof. intros Hc. apply str_forall_lacks. by rewrite Hc. Qed.

Lemma lower_plain f s : f = host_char ∨ f = (λ c, negb (glob_meta c)) → str_forall f s = true → str_forall f (to_ascii_lowercase s) = true.
Proof. intros Hf. apply str_forall_map. intros c. destruct Hf as [-> | ->]; by destruct c as [[] [] [] [] [] [] [] []]. Qed.

Lemma lower_lacks_colon s : lacks ":" (to_ascii_lowercase s) ↔ lacks ":" s.
Proof.
  induction s as [|c s IH]; [done|]. change (to_ascii_lowercase (String c s)) with (String (to_lower c) (to_ascii_lowercase s)).
  rewrite !lacks_cons, IH. apply and_iff_compat_r. split; intros H E; apply H; revert E;
    by destruct c as [[] [] [] [] [] [] [] []].
Qed.

Lemma lower_host_ok h : host_ok h → host_ok (lower_host h).
Proof.
  destruct h as [ad q]. intros [Ha Hp]. split; cbn in *.
  - destruct ad as [n|a]; cbn in *; [by apply lower_plain; [left|]|]. destruct Ha as [Ha Hc].
    split; [by apply lower_plain; [right|]|]. by rewrite lower_lacks_colon.
  - destruct q as [q|]; cbn in *; [by apply lower_plain; [left|]|done].
Qed.

Lemma lower_host_str h : to_ascii_lowercase (host_str h) = host_str (lower_host h).
Proof.
  destruct h as [ad q]. unfold host_str, to_ascii_lowercase. rewrite str_map_app. f_equal; [|by destruct q].
  destruct ad as [n|a]; [done|]. cbn [lower_addr lower_host addr_str h_addr]. by rewrite !str_map_app.
Qed.

(** The text of a host is read one way only. *)
Lemma find_close h : host_ok h →
  find_char "]" (host_str h) = match h_addr h with Named _ => None | Literal6 a => Some (S (String.length a)) end.
Proof.
  destruct h as [ad q]. intros [Ha Hp]. cbn in Ha, Hp. assert (lacks "]" (port_str q)) as Hl.
  { destruct q as [q|]; [|done]. cbn in Hp. apply lacks_cons. split; [done|].
    apply plain_lacks; [done|]. by apply host_char_plain. }
  unfold host_str. cbn [h_addr h_port]. destruct ad as [n|a]; cbn [addr_str addr_ok] in *.
  - apply lacks_app. split; [|done]. apply plain_lacks; [done|]. by apply host_char_plain.
  - rewrite !str_app_assoc. apply (find_char_app "]" ("[" +:+ a)). apply lacks_app. split; [done|]. apply plain_lacks; [done|apply Ha].
Qed.

Lemma app3 (a b c d : string) : a +:+ b +:+ c +:+ d = (a +:+ b +:+ c) +:+ d.
Proof. by rewrite !str_app_assoc. Qed.

Lemma take_bracket a r : str_take (S (S (String.length a))) ("[" +:+ a +:+ "]" +:+ r) = "[" +:+ a +:+ "]".
Proof.
  replace (S (S (String.length a))) with (String.length ("[" +:+ a +:+ "]")) by (rewrite !str_length_app; cbn; lia).
  rewrite (app3 "[" a "]" r). apply str_take_app.
Qed.

Lemma without_port_host h : host_ok h → without_port (host_str h) = addr_str (h_addr h).
Proof.
  intros Hok. unfold without_port. rewrite find_close by done. destruct h as [ad q]. destruct Hok as [Ha Hp].
  unfold host_str. cbn [h_addr h_port] in *. destruct ad as [n|a]; cbn [addr_str] in *.
  - apply host_char_plain in Ha as [_ Hn]. destruct q as [q|]; cbn [port_str from_option] in *.
    + apply host_char_plain in Hp as [_ Hq]. change (":" +:+ q) with (String ":" q). by rewrite rsplit_once_char_app.
    + rewrite str_app_nil_r. apply rsplit_once_char_None in Hn. by rewrite Hn.
  - rewrite !str_app_assoc. rewrite take_bracket.
    replace (S (String.length a) + 1) with (String.length ("[" +:+ a +:+ "]") + 0) by (rewrite !str_length_app; cbn; lia).
    rewrite (app3 "[" a "]"), colon_at_app, colon_at_port.
    destruct q as [q|]; cbn [port_str]; [done|]. rewrite bool_decide_eq_false_2 by (by intros []).
    rewrite str_app_nil_r, bool_decide_eq_true_2; [done|]. rewrite !str_length_app. cbn. lia.
Qed.

Lemma find_bracket a r : lacks "[" a → find_str "[]]" (a +:+ "[]]" +:+ r) = Some (String.length a).
Proof.
  induction a as [|c a IH]; intros Ha; [done|]. apply lacks_cons in Ha as [Hc Ha]. rewrite find_str_unfold.
  change (String c a +:+ "[]]" +:+ r) with (String c (a +:+ "[]]" +:+ r)).
  assert (starts_with "[]]" (String c (a +:+ "[]]" +:+ r)) = false) as ->.
  { apply not_true_iff_false. intros [x E]%starts_with_spec. injection E as -> _. done. }
  by rewrite IH.
Qed.

Lemma has_port_6 a p : lacks "[" a → lacks "]" a → has_port ("[[]" +:+ a +:+ "[]]" +:+ port_str p) = bool_decide (is_Some p).
Proof.
  intros Ha Hb. unfold has_port. rewrite starts_with_app.
  assert (find_str "[]]" ("[[]" +:+ a +:+ "[]]" +:+ port_str p) = Some (3 + String.length a)) as ->.
  { pose proof (find_bracket a (port_str p) Ha) as H. cbn [String.append] in H |- *.
    rewrite find_str_unfold. replace (starts_with _ _) with false by done.
    rewrite find_str_unfold. replace (starts_with _ _) with false.
    2: { symmetry. apply not_true_iff_false. intros [x E]%starts_with_spec. injection E as E.
         destruct a as [|c a]; [done|]. injection E as -> _. by apply lacks_cons in Hb as [? _]. }
    rewrite find_str_unfold. replace (starts_with _ _) with false by done. rewrite H. done. }
  replace (3 + String.length a + 3) with (String.length ("[[]" +:+ a +:+ "[]]") + 0) by (rewrite !str_length_app; cbn; lia).
  rewrite (app3 "[[]" a "[]]"), colon_at_app. apply colon_at_port.
Qed.

Lemma has_port_named n p : str_forall host_char n = true → from_option (λ p, str_forall host_char p = true) True p →
  has_port (n +:+ port_str p) = bool_decide (is_Some p).
Proof.
  intros [Hn Hc]%host_char_plain Hp. unfold has_port.
  assert (∀ c, c = "["%char ∨ c = "]"%char → lacks c (n +:+ port_str p)) as Hl.
  { intros c Hcc. apply lacks_app. split; [apply plain_lacks; [by destruct Hcc as [-> | ->]|done]|].
    destruct p as [q|]; [|done]. cbn in Hp |- *. apply host_char_plain in Hp as [Hq _]. apply lacks_cons.
    split; [by destruct Hcc as [-> | ->]|]. apply plain_lacks; [by destruct Hcc as [-> | ->]|done]. }
  assert (starts_with "[[]" (n +:+ port_str p) = false) as ->.
  { apply not_true_iff_false. intros [x E]%starts_with_spec. pose proof (Hl "["%char (or_introl eq_refl)) as H. rewrite E in H. done. }
  pose proof (Hl "]"%char (or_intror eq_refl)) as H. unfold lacks in H. rewrite H.
  apply bool_decide_ext. destruct p as [q|]; cbn [port_str].
  - change (":" +:+ q) with (String ":" q). rewrite find_char_app by done. split; eauto.
  - rewrite str_app_nil_r, Hc. done.
Qed.

Lemma named_lacks n : str_forall host_char n = true → lacks "[" n.
Proof. intros [Hn _]%host_char_plain. by apply plain_lacks. Qed.

Lemma addr_str_inj a b : addr_ok a → addr_ok b → addr_str a = addr_str b → a = b.
Proof.
  destruct a as [n|a], b as [m|b]; cbn [addr_str addr_ok].
  - by intros _ _ ->.
  - intros Hn _ ->. apply named_lacks in Hn. done.
  - intros _ Hm E. apply named_lacks in Hm. rewrite <-E in Hm. done.
  - intros _ _ E. injection E as E. do 2 f_equal. apply (f_equal (str_take (String.length a))) in E as E'.
    rewrite str_take_app in E'. apply (f_equal String.length) in E. rewrite !str_length_app in E.
    replace (String.length a) with (String.length b) in E' by lia. by rewrite str_take_app in E'.
Qed.

Lemma host_str_eq x y : host_ok x → host_ok y → host_str x = host_str y ↔ h_addr x = h_addr y ∧ h_port x = h_port y.
Proof.
  intros Hx Hy. split; [|unfold host_str; by intros [-> ->]]. intros E.
  assert (h_addr x = h_addr y) as Ea.
  { apply addr_str_inj; [apply Hx|apply Hy|]. rewrite <-!without_port_host by done. by rewrite E. }
  split; [done|]. unfold host_str in E. rewrite Ea in E. apply str_app_inj_l in E.
  destruct (h_port x), (h_port y); cbn in E; congruence.
Qed.

Context {glob_laws : GlobLaws}.

Lemma port_plain q : from_option (λ p, str_forall host_char p = true) True q → str_forall (λ c, negb (glob_meta c)) (port_str q) = true.
Proof. destruct q as [q|]; [|done]. intros Hq. destruct (host_char_plain q Hq) as [Hp _]. exact Hp. Qed.

Lemma pattern_host y : host_ok y → ∃ p, glob_new (host_pattern (host_str y)) = Ok p ∧
  (∀ t, glob_matches p t = true ↔ t = host_str y) ∧ has_port (glob_as_str p) = bool_decide (is_Some (h_port y)).
Proof.
  destruct y as [ad q]. intros [Ha Hp]. unfold host_pattern, host_str. cbn [h_addr h_port] in *. destruct ad as [n|a]; cbn [addr_str addr_ok] in *.
  - assert (starts_with "[" (n +:+ port_str q) = false) as ->.
    { apply not_true_iff_false. intros [x E]%starts_with_spec.
      assert (lacks "[" (n +:+ port_str q)) as Hl; [|by rewrite E in Hl]. apply lacks_app. split; [by apply named_lacks|].
      destruct q as [q|]; [|done]. apply lacks_cons. split; [done|]. by apply named_lacks. }
    cbn [andb]. destruct (glob_plain_exact (n +:+ port_str q)) as (p & Hn & Hm).
    { rewrite str_forall_app, andb_true_iff. split; [by apply host_char_plain|by apply port_plain]. }
    exists p. split_and!; [done|done|]. rewrite (glob_keeps_text _ _ Hn). by apply has_port_named.
  - destruct Ha as [Ha Hc]. rewrite <-app3, starts_with_app, app3.
    assert (contains_char ":" (("[" +:+ a +:+ "]") +:+ port_str q) = true) as ->.
    { apply bool_decide_eq_true, not_eq_None_Some. intros [Hl _]%lacks_app. apply Hc. rewrite !lacks_app in Hl. naive_solver. }
    cbn [andb]. destruct (glob_escape_exact (("[" +:+ a +:+ "]") +:+ port_str q)) as (p & Hn & Hm).
    exists p. split_and!; [done|done|]. rewrite (glob_keeps_text _ _ Hn), glob_escape_brackets, !bracketed_app, (bracketed_plain a) by done.
    rewrite (bracketed_plain (port_str q)).
    2: by apply port_plain.
    rewrite <-app3. apply has_port_6; by apply plain_lacks.
Qed.

Lemma takes_host y x : host_ok y → host_ok x → ∃ p, glob_new (host_pattern (host_str y)) = Ok p ∧
  (takes p (host_str x) = true ↔ h_addr y = h_addr x ∧ (h_port y = None ∨ h_port y = h_port x)).
Proof.
  intros Hy Hx. destruct (pattern_host y Hy) as (p & Hn & Hm & Hp). exists p. split; [done|]. unfold takes.
  rewrite orb_true_iff, andb_true_iff, negb_true_iff, Hp, bool_decide_eq_false, !Hm, without_port_host by done.
  rewrite host_str_eq by done.
  assert (addr_str (h_addr x) = host_str (mkHost (h_addr x) None)) as -> by (unfold host_str; cbn; by rewrite str_app_nil_r).
  rewrite host_str_eq; [|by split; [apply Hx|]|done]. cbn [h_addr h_port]. rewrite <-eq_None_not_Some. naive_solver.
Qed.

Lemma takes_covers y x : host_ok y → host_ok x →
  ∃ p, glob_new (host_pattern (to_ascii_lowercase (host_str y))) = Ok p ∧
    takes p (to_ascii_lowercase (host_str x)) = bool_decide (covers y x).
Proof.
  intros Hy Hx. rewrite !lower_host_str. destruct (takes_host (lower_host y) (lower_host x)) as (p & Hn & Ht);
    [by apply lower_host_ok..|]. exists p. split; [done|]. apply eq_true_iff_eq. rewrite Ht, bool_decide_eq_true.
  unfold covers, lower_host. cbn [h_addr h_port]. destruct (h_port y); cbn; naive_solver.
Qed.

(** ** Theorem *)

(** A configuration of hosts, read. *)
Definition configure (cs : list (string * list HostPort)) : list ContainerConfig :=
  (λ c, mkContainer c.1 (host_str <$> c.2)) <$> cs.
Definition well_configured (c : string * list HostPort) : Prop :=
  TenantId.parse c.1 = Ok (TenantId.mk c.1) ∧ Forall host_ok c.2.

Lemma find_routes c x : well_configured c → host_ok x →
  List.find (λ r, takes r.1 (to_ascii_lowercase (host_str x))) (routes_of (mkContainer c.1 (host_str <$> c.2))) = None ∧
    existsb (λ h, bool_decide (covers h x)) c.2 = false ∨
  (∃ p, List.find (λ r, takes r.1 (to_ascii_lowercase (host_str x))) (routes_of (mkContainer c.1 (host_str <$> c.2))) = Some (p, TenantId.mk c.1)) ∧
    existsb (λ h, bool_decide (covers h x)) c.2 = true.
Proof.
  intros [Hn Hs] Hx. unfold routes_of. cbn [c_name c_hosts]. rewrite Hn. induction Hs as [|y ys Hy _ IH]; [by left|].
  destruct (takes_covers y x Hy Hx) as (p & Hp & Ht). cbn [fmap list_fmap omap list_omap]. rewrite Hp. cbn [List.find fst existsb].
  rewrite Ht. destruct (bool_decide (covers y x)); cbn [orb]; [right; eauto|exact IH].
Qed.

Lemma find_app {A} (f : A → bool) l k : List.find f (l ++ k) = match List.find f l with Some x => Some x | None => List.find f k end.
Proof. induction l as [|x l IH]; [done|]. cbn. by destruct (f x). Qed.

(** Routing of literal hosts: a request reaches the first container, in the
    order of the file, that lists its host: the same name or IPv6 literal in
    any case, with the same port, or with none configured. *)
Theorem host_routing_exact cs regs c x : Forall well_configured cs → host_ok x → (∃ k, k ∈ cs ∧ k.2 ≠ []) →
  containers_new (configure cs) regs = Some c →
  route c (Some (host_str x)) =
    k ← List.find (λ k, existsb (λ h, bool_decide (covers h x)) k.2) cs;
    reg ← regs !! k.1; Some (TenantId.mk k.1, reg).
Proof.
  intros Hcs Hx (k & Hk & Hne) Hc. unfold containers_new in Hc. rewrite decide_False in Hc.
  2: { intros E. rewrite Forall_forall in Hcs. destruct (Hcs k Hk) as [Hn Hs]. destruct k as [n hs], hs as [|y ys]; [done|].
       destruct (takes_covers y x (Forall_inv Hs) Hx) as (p & Hp & _). apply (elem_of_nil (p, TenantId.mk n)). rewrite <-E.
       apply list_elem_of_bind. exists (mkContainer n (host_str <$> (y :: ys))). split; [|apply list_elem_of_fmap; by exists (n, y :: ys)].
       unfold routes_of. cbn [c_name c_hosts fmap list_fmap omap list_omap]. cbn [fst] in Hn. rewrite Hn, Hp. left. }
  injection Hc as <-. unfold route. cbn [routes by_name]. change (default "" (Some (host_str x))) with (host_str x). clear Hk Hne k.
  assert (List.find (λ r, takes r.1 (to_ascii_lowercase (host_str x))) (configure cs ≫= routes_of) = None ∧
            List.find (λ k, existsb (λ h, bool_decide (covers h x)) k.2) cs = None ∨
          ∃ p k, List.find (λ r, takes r.1 (to_ascii_lowercase (host_str x))) (configure cs ≫= routes_of) = Some (p, TenantId.mk k.1) ∧
            List.find (λ k, existsb (λ h, bool_decide (covers h x)) k.2) cs = Some k) as [[-> ->]|(p & k & -> & ->)]; [|done|done].
  induction Hcs as [|k cs Hk _ IH]; [by left|]. cbn [configure fmap list_fmap mbind list_bind List.find]. rewrite find_app.
  destruct (find_routes k x Hk Hx) as [[-> ->]|[[p ->] ->]]; [exact IH|right; eauto].
Qed.

(** Nothing configured: one container, every host. *)
Theorem unconfigured_serves_all regs c host : containers_new [] regs = Some c →
  route c host = reg ← regs !! TenantId.DEFAULT_TENANT; Some (TenantId.default_tenant, reg).
Proof.
  unfold containers_new. cbn. destruct glob_star_any as (p & -> & Hp). intros [= <-]. unfold route, takes. cbn. by rewrite Hp.
Qed.
End containers.

(** * A small [glob]: a star alone, characters in brackets, and plain text *)

Fixpoint unbracket (s : string) : string :=
  match s with
  | EmptyString => ""
  | String a s' =>
      match s' with
      | String c (String b r) =>
          if bool_decide (a = "["%char) && bool_decide (b = "]"%char) then String c (unbracket r) else String a (unbracket s')
      | _ => String a (unbracket s')
      end
  end.

Definition small_glob : GlobCrate := {|
  GPattern := string; glob_new s := Ok s;
  glob_matches p t := bool_decide (p = "*") || bool_decide (t = unbracket p);
  glob_as_str p := p; glob_escape := bracketed |}.

Lemma unbracket_cons c s : c ≠ "["%char → unbracket (String c s) = String c (unbracket s).
Proof.
  intros Hc. destruct s as [|d [|e r]]; [done|done|]. cbn [unbracket]. rewrite (bool_decide_eq_false_2 (c = _)) by done. done.
Qed.

Lemma unbracket_bracketed s : unbracket (bracketed s) = s.
Proof.
  induction s as [|c s IH]; [done|]. cbn [bracketed]. destruct (glob_meta c) eqn:E.
  - cbn. by rewrite IH.
  - cbn [str1 String.append]. rewrite unbracket_cons, IH; [done|]. intros ->. done.
Qed.

Lemma unbracket_plain s : str_forall (λ c, negb (glob_meta c)) s = true → unbracket s = s.
Proof. intros H. rewrite <-(bracketed_plain s H) at 1. apply unbracket_bracketed. Qed.

Lemma bracketed_not_star s : bracketed s ≠ "*".
Proof.
  destruct s as [|c s]; [done|]. cbn [bracketed]. destruct (glob_meta c) eqn:E; [done|]. cbn. intros [= -> _]. done.
Qed.

Lemma small_glob_laws : GlobLaws (glob := small_glob).
Proof.
  split; cbn.
  - by intros s p [= <-].
  - exists "*". split; [done|]. intros s. done.
  - done.
  - intros s. exists (bracketed s). split; [done|]. intros t.
    rewrite orb_true_iff, !bool_decide_eq_true, unbracket_bracketed. split; [|by right].
    intros [E|E]; [by destruct (bracketed_not_star s)|done].
  - intros s Hs. exists s. split; [done|]. intros t. rewrite orb_true_iff, !bool_decide_eq_true, unbracket_plain by done.
    split; [|by right]. intros [-> |E]; done.
Qed.

(** Two containers: one for a name, one for an IPv6 literal with a port. *)
Definition demo_containers : list (string * list HostPort) :=
  [("prod", [mkHost (Named "sr.example.com") None]); ("dev", [mkHost (Literal6 "::1") (Some "8081")])].

Lemma host_routing_exact_witness :
  ∃ c, containers_new (glob := small_glob) (configure demo_containers) {["prod" := 1; "dev" := 2]} = Some c ∧
    route (glob := small_glob) c (Some "SR.example.com:8081") = Some (TenantId.mk "prod", 1) ∧
    route (glob := small_glob) c (Some "[::1]:8081") = Some (TenantId.mk "dev", 2) ∧
    route (glob := small_glob) c (Some "[::1]") = None.
Proof.
  destruct (containers_new (glob := small_glob) (configure demo_containers) {["prod" := 1; "dev" := 2]}) as [c|] eqn:E; [|discriminate E].
  exists c. split; [reflexivity|].
  assert (Forall well_configured demo_containers) as Hc.
  { repeat constructor; try (vm_compute; reflexivity). intros Hl; discriminate Hl. }
  assert (∃ k, k ∈ demo_containers ∧ k.2 ≠ []) as Hk by (eexists; split; [left|done]).
  pose proof (λ x Hx, host_routing_exact (glob_laws := small_glob_laws) demo_containers _ c x Hc Hx Hk E) as H.
  split_and!.
  - etransitivity; [refine (H (mkHost (Named "SR.example.com") (Some "8081")) _); split; vm_compute; reflexivity|vm_compute; reflexivity].
  - etransitivity; [refine (H (mkHost (Literal6 "::1") (Some "8081")) _)|vm_compute; reflexivity].
    repeat split; try (vm_compute; reflexivity). intros Hl; discriminate Hl.
  - etransitivity; [refine (H (mkHost (Literal6 "::1") None) _)|vm_compute; reflexivity].
    repeat split; try (vm_compute; reflexivity). intros Hl; discriminate Hl.
Defined.

Lemma unconfigured_serves_all_witness :
  ∃ c, containers_new (glob := small_glob) [] {["default" := 1]} = Some c ∧
    route (glob := small_glob) c (Some "anything:1") = Some (TenantId.default_tenant, 1).
Proof.
  eexists. split; [reflexivity|]. etransitivity; [by apply (unconfigured_serves_all (glob_laws := small_glob_laws))|reflexivity].
Defined.
