(* ===== verification/Worker.v ===== *)
(** The exporter worker (exporter.rs): which events are sent where, in what
    order, what is committed after each, and in which state it stops. What the
    worker meets outside itself (the destination's answers, the registry as
    other requests leave it) is an environment that may answer anything at any
    point of the history. *)
From S2P Require Import Prelude SortedVec RustStr Errors Json Model Context Snapshot Keys Plan Store Changelog SchemaLayer Views Registry Mutations ExporterVerbs Rewrite Authz ProxyProtocol Config.

Open Scope string_scope.
Open Scope nat_scope.
Open Scope list_scope.

(** * Values *)

Definition num (z : Z) : Value := VNumber (if bool_decide (z < 0)%Z then NegInt z else PosInt z).

(** * Halts *)

Record Halt := mkHalt { halt_state : ExporterState; halt_trace : string }.
Definition retry (t : string) : Halt := mkHalt ErrorState t.
Definition paused (t : string) : Halt := mkHalt Paused t.
Definition failed (t : string) : Halt := mkHalt Failed t.
Definition halt_at (h : Halt) (what : string) : Halt := mkHalt (halt_state h) (what +:+ ": " +:+ halt_trace h).

(** * What the worker meets *)

Record Request := mkRequest {
  rq_base : string; rq_auth : option (string * string);
  rq_method : string; rq_path : string; rq_body : option Value }.
#[export] Instance Request_eq_dec : EqDecision Request.
Proof. solve_decision. Defined.

(** No answer, or a status and the body ([None] when it is not JSON). *)
Inductive Reply := NoReply (e : string) | Response (status : Z) (body : option Value).

(** A call of [exporter_state]. *)
Record Report := mkReport {
  rp_name : string; rp_expected : Z; rp_new : Z; rp_state : ExporterState; rp_trace : option string }.

Inductive Event := Sent (r : Request) (a : Reply) | Reported (r : Report) (a : result string ()).
Abbreviation Trace := (list Event).

(** An error of the registry is its text. *)
Record Env := mkEnv {
  http : Trace → Request → Reply;
  payload_at : Trace → string → string → Z → result string (option (VersionRecord * SchemaRecord));
  floor_at : Trace → result string Z;
  seq_at : Trace → result string Z;
  log_at : Trace → Z → result string (list (Z * LogEvent));
  versions_at : Trace → result string (list (string * string * Z));
  contexts_at : Trace → result string (list string);
  report_at : Trace → Report → result string ();
}.

(** * The worker's state and its steps *)

(** The destinations checked to be in IMPORT mode, what this batch exported, the history. *)
Record W := mkW {
  w_ready : gset (string * string); w_exported : gset (string * string * Z); w_trace : Trace }.

Definition M (A : Type) : Type := W → result Halt A * W.
#[export] Instance m_ret : MRet M := λ A a w, (Ok a, w).
#[export] Instance m_bind : MBind M := λ A B f m w,
  match m w with (Ok a, w) => f a w | (Err h, w) => (Err h, w) end.

Definition halt {A} (h : Halt) : M A := λ w, (Err h, w).
(** Running a step and keeping its failure. *)
Definition catch {A} (m : M A) : M (result Halt A) := λ w, let '(r, w) := m w in (Ok r, w).
(** A read of the registry. *)
Definition ask {A} (f : Trace → result string A) : M A := λ w, (map_err retry (f (w_trace w)), w).

Definition is_ready (k : string * string) : M bool := λ w, (Ok (bool_decide (k ∈ w_ready w)), w).
Definition mark_ready (k : string * string) : M () := λ w, (Ok (), mkW ({[k]} ∪ w_ready w) (w_exported w) (w_trace w)).
(** [exported.insert], which says whether the key is new. *)
Definition mark_exported (k : string * string * Z) : M bool := λ w,
  (Ok (bool_decide (k ∉ w_exported w)), mkW (w_ready w) ({[k]} ∪ w_exported w) (w_trace w)).
Definition forget_exported : M () := λ w, (Ok (), mkW (w_ready w) ∅ (w_trace w)).

Definition all_m {A} (f : A → M ()) : list A → M () :=
  foldr (λ x k, f x ≫= λ _, k) (mret ()).

Section worker.
Context {glob : GlobCrate} (env : Env) (json_text : Value → string) (status_text : Z → string).

Definition report (r : Report) : M () := λ w,
  let a := report_at env (w_trace w) r in (map_err retry a, mkW (w_ready w) (w_exported w) (w_trace w ++ [Reported r a])).
Definition exchange (r : Request) : M Reply := λ w,
  let a := http env (w_trace w) r in (Ok a, mkW (w_ready w) (w_exported w) (w_trace w ++ [Sent r a])).

(** ** Which subjects *)

Definition subject_matches (patterns : list string) (ctx subj : string) : bool :=
  existsb (λ p, match Qualified.parse p with
    | Err _ => false
    | Ok q =>
        let ctx_ok := Qualified.is_wildcard q || bool_decide (context q = ctx) in
        let pat := if decide (subject q = "") then "*" else subject q in
        ctx_ok && match glob_new pat with Ok g => glob_matches g subj | Err _ => false end
    end) patterns.

Definition subject_matches_renamed (patterns : list string) (ctx : string) (rename : option string) (subj : string) : bool :=
  existsb (λ raw, match Qualified.parse raw with
    | Err _ => false
    | Ok q =>
        if negb (Qualified.is_wildcard q) && bool_decide (context q ≠ ctx) then false else
        let source_pattern := if decide (subject q = "") then "*" else subject q in
        let pattern := match rename with
          | Some f => if decide (f = "") then source_pattern
                      else join source_pattern (glob_escape <$> split_str "${subject}" f)
          | None => source_pattern
          end in
        match glob_new pattern with Ok p => glob_matches p subj | Err _ => false end
    end) patterns.

(** ** The destination *)

Record Destination := mkDest { d_base : string; d_auth : option (string * string); d_info : ExporterInfo; d_cluster : string }.

Definition destination_new (info : ExporterInfo) (cluster_id : string) : result string Destination :=
  url ← ok_or (map_get "schema.registry.url" (ei_config info) ≫= as_str) "missing schema.registry.url";
  Ok (mkDest (trim_end_char "/" (default "" (head (split_char "," url))))
        ((map_get "basic.auth.user.info" (ei_config info) ≫= as_str) ≫= split_once_char ":") info cluster_id).

Definition safe_id_char (c : ascii) : ascii :=
  if is_ascii_alphanumeric c || bool_decide (c = "-"%char) || bool_decide (c = "_"%char) then c else "-"%char.

Section dest.
Context (d : Destination).
Let info := d_info d.

(** [chars] are bytes here: cluster ids are configured ASCII or UUIDs. *)
Definition dest_context (src_ctx : string) : string :=
  if decide (ei_context_type info = "CUSTOM") then default DEFAULT_CONTEXT (ei_context info ≫= normalize_context)
  else if decide (ei_context_type info = "NONE") then src_ctx
  else if decide (ei_context_type info = "DEFAULT") then DEFAULT_CONTEXT
  else
    let id := str_map safe_id_char (d_cluster d) in
    if decide (src_ctx = DEFAULT_CONTEXT) then "." +:+ id else "." +:+ id +:+ src_ctx.

Definition renamed (subj : string) : string :=
  match ei_rename info with
  | Some f => if decide (f = "") then subj else replace_str "${subject}" subj f
  | None => subj
  end.
Definition dest_subject (ctx subj : string) : string := qualify (dest_context ctx) (renamed subj).

Definition req (method path : string) (body : option Value) : Request := mkRequest (d_base d) (d_auth d) method path body.

(** [anyhow] errors are their text. *)
Definition read_reply (a : Reply) (ok_codes : list Z) : result string Value :=
  match a with
  | NoReply e => Err e
  | Response status body =>
      let body := default VNull body in
      if bool_decide (200 ≤ status < 300)%Z then Ok body else
      let code := default status (get "error_code" body ≫= as_u64) in
      if bool_decide (code ∈ ok_codes) then Ok body
      else Err ("destination returned " +:+ status_text status +:+ ": " +:+ json_text body)
  end.
Definition send (r : Request) (ok_codes : list Z) : M (result string Value) :=
  a ← exchange r; mret (read_reply a ok_codes).
(** [send(...).await?]. *)
Definition send_ok (r : Request) (ok_codes : list Z) : M Value :=
  v ← send r ok_codes; match v with Ok v => mret v | Err e => halt (retry e) end.

Definition listing_path (prefix : string) : string :=
  "/subjects?subjectPrefix=" +:+ percent_encode_segment prefix +:+ "&deleted=true".
Definition mode_path (ctx : string) : string :=
  if decide (ctx = DEFAULT_CONTEXT) then "/mode" else "/mode/" +:+ percent_encode_segment (":" +:+ ctx +:+ ":").

(** A JSON array of strings. *)
Definition strings_of (v : Value) : result string (list string) :=
  match v with
  | VArray l => mapM_result (λ x, ok_or (as_str x) "invalid type: expected a string") l
  | _ => Err "invalid type: expected a sequence"
  end.
Definition subjects (prefix : string) : M (list string) :=
  v ← send_ok (req "GET" (listing_path prefix) None) [];
  match strings_of v with Ok l => mret l | Err e => halt (retry e) end.

Definition mode_of (ctx : string) : M (option string) :=
  v ← send_ok (req "GET" (mode_path ctx) None) [40401; 40409]%Z; mret (get "mode" v ≫= as_str).
Definition effective_mode (dest_subj : string) : M (result string (option string)) :=
  v ← send (req "GET" ("/mode/" +:+ percent_encode_segment dest_subj +:+ "?defaultToGlobal=true") None) [40401; 40409]%Z;
  mret (fmap (M:=result string) (λ v, get "mode" v ≫= as_str) v).

Definition import_body : Value := VObject [("mode", VString "IMPORT")].
Definition not_import (ctx_name : string) : string :=
  "destination context " +:+ ctx_name +:+ " is not in IMPORT mode and is not empty; put it in IMPORT mode (PUT /mode/" +:+
  ctx_name +:+ " {" +:+ str1 (byte 34) +:+ "mode" +:+ str1 (byte 34) +:+ ":" +:+ str1 (byte 34) +:+ "IMPORT" +:+ str1 (byte 34) +:+ "}) and resume".

Definition ensure_import_mode (ctx : string) : M () :=
  let key := (d_base d, ctx) in
  r ← is_ready key; if r : bool then mret () else
  let ctx_name := qualify ctx "" in
  m ← mode_of ctx;
  if decide (m = Some "IMPORT") then mark_ready key else
  existing ← send_ok (req "GET" (listing_path ctx_name) None) [];
  match as_array existing with
  | Some (_ :: _) => halt (paused (not_import ctx_name))
  | _ =>
      _ ← send_ok (req "PUT" (mode_path ctx +:+ "?force=true") (Some import_body)) [];
      mark_ready key
  end.

(** Whether the text of a rejected write is a conflict. *)
Definition is_conflict (msg : string) : bool :=
  let q := str1 (byte 34) in
  bool_decide (find_str (q +:+ "error_code" +:+ q +:+ ":42205") msg ≠ None) || bool_decide (find_str "409 Conflict" msg ≠ None).

Definition classify (msg dest_subj : string) : M Halt :=
  if negb (is_conflict msg) then mret (retry msg) else
  m ← effective_mode dest_subj;
  mret match m with
       | Ok (Some m) => if decide (m = "IMPORT") then failed msg
                        else paused ("destination " +:+ dest_subj +:+ " is not in IMPORT mode: " +:+ msg)
       | Ok None => paused ("destination " +:+ dest_subj +:+ " is not in IMPORT mode: " +:+ msg)
       | Err _ => retry msg
       end.

(** A write whose rejection decides the state to stop in. *)
Definition write_to (r : Request) (ok_codes : list Z) (dest_subj : string) : M () :=
  v ← send r ok_codes;
  match v with Ok _ => mret () | Err e => h ← classify e dest_subj; halt h end.

Definition delete_subject (subj : string) : M () :=
  write_to (req "DELETE" ("/subjects/" +:+ percent_encode_segment subj +:+ "?permanent=true") None) [40401%Z] subj.

Definition version_path (dest_subj : string) (version : Z) (permanent : bool) : string :=
  "/subjects/" +:+ percent_encode_segment dest_subj +:+ "/versions/" +:+ show version +:+ (if permanent then "?permanent=true" else "").
Definition delete_ (ctx subj : string) (version : Z) (permanent : bool) : M () :=
  let ds := dest_subject ctx subj in
  write_to (req "DELETE" (version_path ds version permanent) None) [40401; 40402; 40406; 40407]%Z ds.

(** The body of a registration. *)
Definition export_body (vr : VersionRecord) (rec : SchemaRecord) (refs : list Value) (version : Z) : Value :=
  VObject ([("schema", VString (sr_schema rec)); ("schemaType", VString (SchemaTypeM.as_str (sr_type rec)));
            ("references", VArray refs); ("id", num (vr_id vr)); ("version", num version)]
           ++ match sr_metadata rec with Some m => [("metadata", m)] | None => [] end
           ++ match sr_rule_set rec with Some r => [("ruleSet", r)] | None => [] end).
Definition register_path (dest_subj : string) : string := "/subjects/" +:+ percent_encode_segment dest_subj +:+ "/versions".

Definition ref_context (ctx : string) (r : SchemaReference) (target : QualifiedSubject) : string :=
  if starts_with ":" (ref_subject r) then context target else ctx.
Definition ref_body (r : SchemaReference) (rctx : string) (target : QualifiedSubject) : Value :=
  VObject [("name", VString (ref_name r)); ("subject", VString (dest_subject rctx (subject target))); ("version", num (ref_version r))].

Definition display (e : ApiError) : string := message e +:+ " (" +:+ show (code e) +:+ ")".

(** The loop over the references; [export] is the recursive call. *)
Fixpoint export_refs (export : string → string → Z → M ()) (ctx : string) (refs : list SchemaReference) : M (list Value) :=
  match refs with
  | [] => mret []
  | r :: refs =>
      match Qualified.parse (ref_subject r) with
      | Err e => halt (retry (display e))
      | Ok target =>
          let rctx := ref_context ctx r target in
          _ ← export rctx (subject target) (Z.max (ref_version r) 1);
          rest ← export_refs export ctx refs;
          mret (ref_body r rctx target :: rest)
      end
  end.

(** [levels]: 33 - [depth]; the code stops below depth 32. *)
Fixpoint export_version (levels : nat) (ctx subj : string) (version : Z) : M () :=
  match levels with
  | O => mret ()
  | S levels =>
      new ← mark_exported (ctx, subj, version);
      if negb new then mret () else
      payload ← ask (λ t, payload_at env t ctx subj version);
      match payload with
      | None => mret ()
      | Some (vr, rec) =>
          refs ← export_refs (export_version levels) ctx (sr_references rec);
          let ds := dest_subject ctx subj in
          _ ← ensure_import_mode (dest_context ctx);
          _ ← write_to (req "POST" (register_path ds) (Some (export_body vr rec refs version))) [] ds;
          if vr_deleted vr then delete_ ctx subj version false else mret ()
      end
  end.
Definition MAX_DEPTH : nat := 33.
End dest.

(** ** Batches *)

Definition BATCH : nat := 500.

Definition kind_text (k : LogEventKind) : string :=
  match k with Register => "Register" | SoftDelete => "SoftDelete" | HardDelete => "HardDelete" end.

Definition event_text (seq : Z) (ev : LogEvent) : string :=
  "event " +:+ show seq +:+ " (" +:+ kind_text (ev_kind ev) +:+ " " +:+ qualify (ev_ctx ev) (ev_subject ev) +:+ ":" +:+ show (ev_version ev) +:+ ")".

(** The step of one event against the destination. *)
Definition deliver (d : Destination) (ev : LogEvent) : M () :=
  match ev_kind ev with
  | Register => export_version d MAX_DEPTH (ev_ctx ev) (ev_subject ev) (ev_version ev)
  | SoftDelete => delete_ d (ev_ctx ev) (ev_subject ev) (ev_version ev) false
  | HardDelete => delete_ d (ev_ctx ev) (ev_subject ev) (ev_version ev) true
  end.

Definition stop (name : string) (offset : Z) (h : Halt) : M () :=
  _ ← report (mkReport name offset offset (halt_state h) (Some (halt_trace h))); halt h.
Definition progress (name : string) (offset next : Z) : M () := report (mkReport name offset next Running None).

Fixpoint replay_events (d : Destination) (info : ExporterInfo) (offset : Z) (events : list (Z * LogEvent)) : M () :=
  match events with
  | [] => mret ()
  | (seq, ev) :: events =>
      _ ← (if subject_matches (ei_subjects info) (ev_ctx ev) (ev_subject ev) then
             r ← catch (deliver d ev);
             match r with
             | Ok _ => mret ()
             | Err h => stop (ei_name info) offset (halt_at h (event_text seq ev))
             end
           else mret ());
      _ ← progress (ei_name info) offset (seq + 1);
      replay_events d info (seq + 1) events
  end.

(** Subjects of the destination that the exporter manages and the source no longer has. *)
Definition reconcile_context (d : Destination) (info : ExporterInfo) (sources : list string) (expected : list string) (dest_ctx : string) : M () :=
  subjs ← subjects d (qualify dest_ctx "");
  all_m (λ s, match Qualified.parse s with
    | Err _ => mret ()
    | Ok q =>
        if bool_decide (context q ≠ dest_ctx) || bool_decide (s ∈ expected) then mret () else
        if existsb (λ src, bool_decide (dest_context d src = dest_ctx)
                           && subject_matches_renamed (ei_subjects info) src (ei_rename info) (subject q)) sources
        then _ ← ensure_import_mode d dest_ctx; delete_subject d s
        else mret ()
    end) subjs.

(** The [HashSet]s of contexts are visited in the order of [elements]. *)
Definition reconcile_bootstrap (d : Destination) (info : ExporterInfo) (current : list (string * string * Z)) : M () :=
  contexts ← ask (contexts_at env);
  let sources := filter (λ ctx, existsb (λ p, match Qualified.parse p with
      | Ok q => Qualified.is_wildcard q || bool_decide (context q = ctx) | Err _ => false end) (ei_subjects info) = true) contexts in
  let destinations := elements (list_to_set (C := gset string) (dest_context d <$> sources)) in
  let expected := (λ x, dest_subject d x.1.1 x.1.2) <$> filter (λ x, subject_matches (ei_subjects info) x.1.1 x.1.2 = true) current in
  all_m (reconcile_context d info sources expected) destinations.

(** The current state instead of events that are gone. *)
Definition bootstrap (d : Destination) (rec : ExporterRecord) : M () :=
  let info := er_info rec in
  now ← ask (seq_at env);
  current ← ask (versions_at env);
  _ ← all_m (λ x : string * string * Z,
        if subject_matches (ei_subjects info) x.1.1 x.1.2 then
          r ← catch (export_version d MAX_DEPTH x.1.1 x.1.2 x.2);
          match r with
          | Ok _ => mret ()
          | Err h => stop (ei_name info) (er_offset rec) (halt_at h ("bootstrap (" +:+ qualify x.1.1 x.1.2 +:+ ":" +:+ show x.2 +:+ ")"))
          end
        else mret ()) current;
  r ← catch (reconcile_bootstrap d info current);
  _ ← match r with
      | Ok _ => mret ()
      | Err h => stop (ei_name info) (er_offset rec) (halt_at h "bootstrap reconciliation")
      end;
  progress (ei_name info) (er_offset rec) now.

Definition or_retry {A} (r : result string A) : M A := match r with Ok a => mret a | Err e => halt (retry e) end.

(** Whether there may be more waiting. *)
Definition export_batch (cluster_id : string) (rec : ExporterRecord) : M bool :=
  let info := er_info rec in
  floor ← ask (floor_at env);
  if bool_decide (er_offset rec < floor)%Z then
    d ← or_retry (destination_new info cluster_id);
    _ ← forget_exported;
    _ ← bootstrap d rec;
    mret true
  else
    events ← ask (λ t, log_at env t (er_offset rec));
    if decide (events = []) then
      _ ← (if decide (er_state rec = ErrorState) then progress (ei_name info) (er_offset rec) (er_offset rec) else mret ());
      mret false
    else
      d ← or_retry (destination_new info cluster_id);
      _ ← forget_exported;
      _ ← replay_events d info (er_offset rec) events;
      mret (bool_decide (length events = BATCH)).

(** One pass of the loop over the exporters: the stopped ones wait, and a
    failure forgets what was known of its destination. *)
Definition export_one (cluster_id : string) (rec : ExporterRecord) : M bool :=
  if negb (keep_going (er_state rec)) then mret false else
  r ← catch (export_batch cluster_id rec);
  match r with
  | Ok more => mret more
  | Err _ => λ w, (Ok false, match destination_new (er_info rec) cluster_id with
                             | Ok d => mkW (filter (λ k, k.1 ≠ d_base d) (w_ready w)) (w_exported w) (w_trace w)
                             | Err _ => w
                             end)
  end.
Fixpoint run_pass (cluster_id : string) (recs : list ExporterRecord) : M bool :=
  match recs with
  | [] => mret false
  | rec :: recs => a ← export_one cluster_id rec; b ← run_pass cluster_id recs; mret (a || b)
  end.

(** The loop, for the lists of exporters its rounds find. *)
Definition run_rounds (cluster_id : string) (rounds : list (list ExporterRecord)) : M () :=
  all_m (λ recs, _ ← run_pass cluster_id recs; mret ()) rounds.
End worker.

(** The lowest offset any exporter still needs, 0 when that is not known. *)
Definition prune_floor {E F} (exporters : result E (list ExporterRecord)) (log_seq : result F Z) : Z :=
  match exporters, log_seq with
  | Ok es, Ok seq => Z.min (match er_offset <$> es with [] => seq | o :: os => foldl Z.min o os end) seq
  | _, _ => 0%Z
  end.
