(* ===== verification/WorkerSafety.v ===== *)
(** The exporter worker's promises (exporter.rs): the mode of a destination is
    forced only where it was seen to be empty, every write follows a check of
    IMPORT mode and carries what the registry holds, and the recorded offset
    moves past an event only after the event was delivered. *)
From S2P Require Import Prelude SortedVec RustStr Errors Json Model Context Snapshot Keys Plan Store Durable Transaction MemDb Changelog SchemaLayer Views Registry Mutations ExporterVerbs Engine VerbSafety Consistency Rewrite Authz ProxyProtocol Config Containers Worker.

Open Scope string_scope.
Open Scope nat_scope.
Open Scope list_scope.

Section safety.
Context {glob : GlobCrate} (env : Env) (json_text : Value → string) (status_text : Z → string).
Implicit Types (w : W) (t : Trace) (d : Destination).

Abbreviation read_reply := (read_reply json_text status_text).

(** * What a history may contain *)

(** The answer to a request for a context's mode was IMPORT. *)
Definition mode_is (a : Reply) (m : option string) : Prop :=
  ∃ v, read_reply a [40401; 40409]%Z = Ok v ∧ get "mode" v ≫= as_str = m.

(** The request that forces IMPORT mode, and what must come right before it. *)
Definition force_request d (ctx : string) : Request := req d "PUT" (mode_path ctx +:+ "?force=true") (Some import_body).
Definition justified t (r : Request) : Prop := ∃ d ctx t0 a1 a2 m v,
  r = force_request d ctx ∧
  t = t0 ++ [Sent (req d "GET" (mode_path ctx) None) a1; Sent (req d "GET" (listing_path (qualify ctx "")) None) a2] ∧
  mode_is a1 m ∧ m ≠ Some "IMPORT" ∧
  read_reply a2 [] = Ok v ∧ (∀ x l, as_array v ≠ Some (x :: l)).

(** At some point the destination context was in IMPORT mode: it said so, or it accepted being put there. *)
Definition import_seen (base ctx : string) t : Prop := ∃ d a, d_base d = base ∧
  (Sent (req d "GET" (mode_path ctx) None) a ∈ t ∧ mode_is a (Some "IMPORT") ∨
   Sent (force_request d ctx) a ∈ t ∧ ∃ v, read_reply a [] = Ok v).

(** A registration carries the id, the version and the content the registry
    held at some moment before, with its references renamed, to a context seen
    in IMPORT mode. *)
Definition faithful t (r : Request) : Prop := ∃ d ctx subj version vr rec refs t0,
  r = req d "POST" (register_path (dest_subject d ctx subj)) (Some (export_body vr rec refs version)) ∧
  t0 `prefix_of` t ∧ payload_at env t0 ctx subj version = Ok (Some (vr, rec)) ∧
  Forall2 (λ rf v, ∃ target, Qualified.parse (ref_subject rf) = Ok target ∧
             v = ref_body d rf (ref_context ctx rf target) target) (sr_references rec) refs ∧
  import_seen (d_base d) (dest_context d ctx) t.

Definition allowed t (r : Request) : Prop :=
  (rq_method r = "PUT" → justified t r) ∧ (rq_method r = "POST" → faithful t r).
Definition history_allowed t : Prop := ∀ t1 r a t2, t = t1 ++ Sent r a :: t2 → allowed t1 r.

Record worker_ok w : Prop := {
  wi_history : history_allowed (w_trace w);
  wi_ready : ∀ k, k ∈ w_ready w → import_seen k.1 k.2 (w_trace w) }.

(** * Histories grow *)

Definition extends (ok : Event → Prop) w w' : Prop := ∃ seg, w_trace w' = w_trace w ++ seg ∧ Forall ok seg.

Lemma trace_extends_refl ok w : extends ok w w.
Proof. exists []. by rewrite app_nil_r. Qed.
Lemma extends_trans ok w1 w2 w3 : extends ok w1 w2 → extends ok w2 w3 → extends ok w1 w3.
Proof. intros (s1 & E1 & H1) (s2 & E2 & H2). exists (s1 ++ s2). rewrite E2, E1, app_assoc. split; [done|]. by apply Forall_app. Qed.
Lemma extends_weaken (ok ok' : Event → Prop) w w' : (∀ e, ok e → ok' e) → extends ok w w' → extends ok' w w'.
Proof. intros H (seg & E & Hs). exists seg. split; [done|]. by eapply Forall_impl. Qed.
Lemma extends_prefix ok w w' : extends ok w w' → w_trace w `prefix_of` w_trace w'.
Proof. intros (seg & E & _). by exists seg. Qed.

Lemma import_seen_mono b c t t' : t `prefix_of` t' → import_seen b c t → import_seen b c t'.
Proof.
  intros [k ->] (d & a & Hb & H). exists d, a. split; [done|].
  destruct H as [[H ?]|[H ?]]; [left|right]; (split; [|done]); apply elem_of_app; by left.
Qed.

Lemma history_snoc t e : history_allowed t → match e with Sent r _ => allowed t r | Reported _ _ => True end →
  history_allowed (t ++ [e]).
Proof.
  intros Ht He t1 r a t2 E. destruct t2 as [|x t2 _] using rev_ind.
  - apply app_inj_tail in E as [-> ->]. exact He.
  - rewrite app_comm_cons, app_assoc in E. apply app_inj_tail in E as [-> _]. by eapply Ht.
Qed.

(** * Runs: the invariant, growth, and a postcondition on success *)

Definition is_sent (e : Event) : Prop := match e with Sent _ _ => True | _ => False end.

Definition runs (ok : Event → Prop) {A} (P : W → Prop) (m : M A) (Q : A → W → Prop) : Prop :=
  ∀ w r w', worker_ok w → P w → m w = (r, w') →
    worker_ok w' ∧ extends ok w w' ∧ match r with Ok a => Q a w' | Err _ => True end.

(** A condition that further history does not undo. *)
Definition stable (S : W → Prop) : Prop := ∀ w w', w_trace w `prefix_of` w_trace w' → S w → S w'.

Section rules.
Context (ok : Event → Prop).

Lemma runs_ret {A} (a : A) (P : W → Prop) (Q : A → W → Prop) : (∀ w, P w → Q a w) → runs ok P (mret a) Q.
Proof. intros H w r w' Hi HP [= <- <-]. split_and!; [done|apply trace_extends_refl|by apply H]. Qed.

Lemma runs_halt {A} h (P : W → Prop) (Q : A → W → Prop) : runs ok P (halt h) Q.
Proof. intros w r w' Hi HP [= <- <-]. split_and!; [done|apply trace_extends_refl|done]. Qed.

Lemma runs_bind {A B} (m : M A) (f : A → M B) P Q R :
  runs ok P m Q → (∀ a, runs ok (Q a) (f a) R) → runs ok P (m ≫= f) R.
Proof.
  intros Hm Hf w r w' Hi HP. unfold mbind, m_bind. destruct (m w) as [[a|h] w1] eqn:E.
  - intros E2. destruct (Hm w _ w1 Hi HP E) as (Hi1 & He1 & HQ). destruct (Hf a w1 r w' Hi1 HQ E2) as (? & ? & ?).
    split_and!; [done|by eapply extends_trans|done].
  - intros [= <- <-]. destruct (Hm w _ w1 Hi HP E) as (? & ? & _). done.
Qed.

Lemma runs_pre {A} (m : M A) (P P' : W → Prop) Q : (∀ w, P w → P' w) → runs ok P' m Q → runs ok P m Q.
Proof. intros H Hm w r w' Hi HP. apply Hm; auto. Qed.
Lemma runs_post {A} (m : M A) P (Q Q' : A → W → Prop) : (∀ a w, Q a w → Q' a w) → runs ok P m Q → runs ok P m Q'.
Proof.
  intros H Hm w r w' Hi HP E. destruct (Hm w r w' Hi HP E) as (? & ? & ?). split_and!; [done..|]. destruct r; auto.
Qed.

(** What is stable holds after a step that does not mention it. *)
Lemma runs_frame {A} (m : M A) (P S : W → Prop) Q : stable S → runs ok P m Q → runs ok (λ w, P w ∧ S w) m (λ a w, Q a w ∧ S w).
Proof.
  intros HS Hm w r w' Hi [HP Hs] E. destruct (Hm w r w' Hi HP E) as (? & He & HQ). split_and!; [done..|].
  destruct r; [|done]. split; [done|]. by eapply HS; [eapply extends_prefix|].
Qed.

Lemma runs_catch {A} (m : M A) P (Q : A → W → Prop) : runs ok P m Q →
  runs ok P (catch m) (λ r w, match r with Ok a => Q a w | Err _ => True end).
Proof.
  intros Hm w r w' Hi HP. unfold catch. destruct (m w) as [x w1] eqn:E. intros [= <- <-].
  by destruct (Hm w x w1 Hi HP E) as (? & ? & ?).
Qed.

Lemma runs_ask {A} (f : Trace → result string A) P :
  runs ok P (ask f) (λ a w, P w ∧ f (w_trace w) = Ok a).
Proof.
  intros w r w' Hi HP. unfold ask. intros [= <- <-]. split_and!; [done|apply trace_extends_refl|].
  destruct (f (w_trace w)) eqn:E; cbn; [done|done].
Qed.

Lemma runs_mark_exported k P : stable P → runs ok P (mark_exported k) (λ _, P).
Proof.
  intros HS w r w' [Hh Hr] HP. unfold mark_exported. intros [= <- <-]. split_and!; [by split|by exists []; rewrite app_nil_r|].
  by eapply HS; [|exact HP].
Qed.

Lemma runs_forget P : stable P → runs ok P forget_exported (λ _, P).
Proof.
  intros HS w r w' [Hh Hr] HP. unfold forget_exported. intros [= <- <-]. split_and!; [by split|by exists []; rewrite app_nil_r|].
  by eapply HS; [|exact HP].
Qed.

Lemma runs_is_ready k P : runs ok P (is_ready k) (λ b w, P w ∧ (b = true → import_seen k.1 k.2 (w_trace w))).
Proof.
  intros w r w' Hi HP. unfold is_ready. intros [= <- <-]. split_and!; [done|apply trace_extends_refl|done|].
  rewrite bool_decide_eq_true. apply Hi.
Qed.

Lemma runs_mark_ready k : runs ok (λ w, import_seen k.1 k.2 (w_trace w)) (mark_ready k) (λ _ w, import_seen k.1 k.2 (w_trace w)).
Proof.
  intros w r w' [Hh Hr] HP. unfold mark_ready. intros [= <- <-]. split_and!; [|by exists []; rewrite app_nil_r|done].
  split; [done|]. cbn [w_ready w_trace]. intros k' [->%elem_of_singleton|Hk]%elem_of_union; [done|by apply Hr].
Qed.

Lemma runs_all {A} (f : A → M ()) l (P : W → Prop) : (∀ x, runs ok P (f x) (λ _, P)) → runs ok P (all_m f l) (λ _, P).
Proof. intros H. induction l as [|x l IH]; cbn; [by apply runs_ret|]. eapply runs_bind; [apply H|intros []; exact IH]. Qed.
End rules.

(** An exchange that is allowed here. *)
Lemma runs_exchange (ok : Event → Prop) r (P : W → Prop) : (∀ a, ok (Sent r a)) → (∀ w, P w → allowed (w_trace w) r) →
  runs ok P (exchange env r) (λ a w, ∃ w0, P w0 ∧ w_trace w = w_trace w0 ++ [Sent r a]).
Proof.
  intros Hok Ha w x w' [Hh Hr] HP. unfold exchange. intros [= <- <-]. split_and!.
  - split; cbn [w_trace w_ready]; [apply history_snoc; [done|by apply Ha]|].
    intros k Hk. eapply import_seen_mono; [|by apply Hr]. by eexists.
  - eexists [_]. split; [done|]. by repeat constructor.
  - by exists w.
Qed.

Lemma runs_report r P : stable P → runs (λ _, True) P (report env r) (λ _, P).
Proof.
  intros HS w x w' [Hh Hr] HP. unfold report. intros [= <- <-]. split_and!.
  - split; cbn [w_trace w_ready]; [by apply history_snoc|]. intros k Hk. eapply import_seen_mono; [|by apply Hr]. by eexists.
  - eexists [_]. split; [done|]. by repeat constructor.
  - destruct (report_at env (w_trace w) r); [|done]. cbn. eapply HS; [|exact HP]. by eexists.
Qed.

(** * Requests *)

Definition plain (r : Request) : Prop := rq_method r ≠ "PUT" ∧ rq_method r ≠ "POST".

Lemma plain_allowed t r : plain r → allowed t r.
Proof. intros [? ?]. by split. Qed.

Lemma runs_send r codes (P : W → Prop) : (∀ w, P w → allowed (w_trace w) r) →
  runs is_sent P (send env json_text status_text r codes)
    (λ v w, ∃ a w0, P w0 ∧ w_trace w = w_trace w0 ++ [Sent r a] ∧ v = read_reply a codes).
Proof.
  intros Ha. unfold send. eapply runs_bind; [by apply (runs_exchange is_sent)|]. intros a.
  apply runs_ret. intros w (w0 & ? & ?). eauto.
Qed.

Lemma runs_send_ok r codes (P : W → Prop) : (∀ w, P w → allowed (w_trace w) r) →
  runs is_sent P (send_ok env json_text status_text r codes)
    (λ v w, ∃ a w0, P w0 ∧ w_trace w = w_trace w0 ++ [Sent r a] ∧ read_reply a codes = Ok v).
Proof.
  intros Ha. unfold send_ok. eapply runs_bind; [by apply runs_send|]. intros [v|e]; [|apply runs_halt].
  apply runs_ret. intros w (a & w0 & ? & ? & Ev). eauto 10.
Qed.

(** Forgetting what was exchanged. *)
Lemma after_exchange (P : W → Prop) w : stable P → (∃ e w0, P w0 ∧ w_trace w = w_trace w0 ++ [e]) → P w.
Proof. intros HS (e & w0 & HP & E). eapply HS; [|exact HP]. rewrite E. by eexists. Qed.

Lemma runs_send_ok_plain r codes (P : W → Prop) : plain r → stable P →
  runs is_sent P (send_ok env json_text status_text r codes) (λ _, P).
Proof.
  intros Hr HS. eapply runs_post; [|apply runs_send_ok; intros; by apply plain_allowed]. cbn.
  intros _ w (a & w0 & ? & ? & _). apply after_exchange; eauto.
Qed.

Lemma runs_mode_of d ctx (P : W → Prop) :
  runs is_sent P (mode_of env json_text status_text d ctx)
    (λ m w, ∃ a w0, P w0 ∧ w_trace w = w_trace w0 ++ [Sent (req d "GET" (mode_path ctx) None) a] ∧ mode_is a m).
Proof.
  unfold mode_of. eapply runs_bind; [apply runs_send_ok; intros; by apply plain_allowed|]. intros v. apply runs_ret.
  intros w (a & w0 & ? & ? & Hv). exists a, w0. split_and!; [done..|]. by exists v.
Qed.

(** ** IMPORT mode *)

Lemma runs_ensure d ctx :
  runs is_sent (λ _, True) (ensure_import_mode env json_text status_text d ctx) (λ _ w, import_seen (d_base d) ctx (w_trace w)).
Proof.
  unfold ensure_import_mode. eapply runs_bind; [apply runs_is_ready|]. intros [|]; [apply runs_ret; naive_solver|].
  eapply runs_bind; [apply runs_mode_of|]. intros m. cbn beta. destruct (decide (m = Some "IMPORT")) as [-> |Hm].
  - eapply runs_pre; [|apply (runs_mark_ready is_sent (d_base d, ctx))]. cbn. intros w (a & w0 & _ & E & Ha).
    exists d, a. split; [done|]. left. rewrite E. split; [set_solver|done].
  - eapply runs_bind; [apply runs_send_ok; intros; by apply plain_allowed|]. intros v. cbn beta.
    assert (∀ x l, as_array v ≠ Some (x :: l) ∨ ∃ x l, as_array v = Some (x :: l)) as Hv by (intros; destruct (as_array v) as [[|]|]; naive_solver).
    destruct (as_array v) as [[|x l]|] eqn:Ea; [|apply runs_halt|].
    all: eapply runs_bind; [apply runs_send_ok|].
    2: intros v2. 4: intros v2.
    2,4: eapply runs_pre; [|apply (runs_mark_ready is_sent (d_base d, ctx))]; cbn; intros w (a & w0 & _ & E & Ha);
      exists d, a; split; [done|]; right; rewrite E; split; [set_solver|by exists v2].
    all: intros w (a2 & w1 & (a1 & w0 & _ & E1 & H1) & E2 & H2); split; [intros _|done];
      exists d, ctx, (w_trace w0), a1, a2, m, v; rewrite E2, E1, <-app_assoc; split_and!; [done..|congruence].
Qed.

Lemma runs_ensure_framed d ctx (P : W → Prop) : stable P →
  runs is_sent P (ensure_import_mode env json_text status_text d ctx) (λ _ w, import_seen (d_base d) ctx (w_trace w) ∧ P w).
Proof. intros HS. eapply runs_pre; [|apply runs_frame; [exact HS|apply runs_ensure]]. done. Qed.

(** ** Writes *)

Lemma runs_classify d msg ds (P : W → Prop) : stable P → runs is_sent P (classify env json_text status_text d msg ds) (λ _, P).
Proof.
  intros HS. unfold classify. case_match; [by apply runs_ret|]. eapply runs_bind; [|intros m; apply runs_ret; intros w H'; exact H'].
  unfold effective_mode. eapply runs_bind; [apply runs_send; intros; by apply plain_allowed|]. intros v. apply runs_ret.
  intros w (a & w0 & ? & ? & _). apply after_exchange; eauto.
Qed.

Lemma runs_write_to d r codes ds (P : W → Prop) : stable P → (∀ w, P w → allowed (w_trace w) r) →
  runs is_sent P (write_to env json_text status_text d r codes ds)
    (λ _ w, P w ∧ ∃ a w0, P w0 ∧ w_trace w = w_trace w0 ++ [Sent r a] ∧ ∃ v, read_reply a codes = Ok v).
Proof.
  intros HS Ha. unfold write_to. eapply runs_bind; [by apply runs_send|]. intros [v|e]; cbn beta.
  - apply runs_ret. intros w (a & w0 & HP & E & Hv). split; [apply after_exchange; eauto|]. exists a, w0. eauto.
  - eapply runs_bind; [|intros h; apply runs_halt]. eapply runs_pre; [|by apply (runs_classify _ _ _ P)].
    intros w (a & w0 & HP & E & _). apply after_exchange; eauto.
Qed.

Lemma runs_delete d ctx subj version permanent (P : W → Prop) : stable P →
  runs is_sent P (delete_ env json_text status_text d ctx subj version permanent)
    (λ _ w, P w ∧ ∃ a w0, P w0 ∧
       w_trace w = w_trace w0 ++ [Sent (req d "DELETE" (version_path (dest_subject d ctx subj) version permanent) None) a] ∧ ∃ v, read_reply a [40401; 40402; 40406; 40407]%Z = Ok v).
Proof. intros HS. apply runs_write_to; [done|]. intros. by apply plain_allowed. Qed.

(** ** Versions *)

Lemma runs_refs d export ctx refs (P : W → Prop) : (∀ c s v, runs is_sent P (export c s v) (λ _, P)) →
  runs is_sent P (export_refs d export ctx refs)
    (λ out w, P w ∧ Forall2 (λ rf v, ∃ target, Qualified.parse (ref_subject rf) = Ok target ∧
                v = ref_body d rf (ref_context ctx rf target) target) refs out).
Proof.
  intros Hx. induction refs as [|rf refs IH]; cbn [export_refs]; [apply runs_ret; auto|].
  destruct (Qualified.parse (ref_subject rf)) as [target|e] eqn:Ep; [|apply runs_halt].
  eapply runs_bind; [apply Hx|intros []]. eapply runs_bind; [exact IH|]. intros out. apply runs_ret. intros w [? ?]. eauto 10.
Qed.

Lemma stable_true : stable (λ _, True).
Proof. done. Qed.
Lemma stable_and P Q : stable P → stable Q → stable (λ w, P w ∧ Q w).
Proof. intros HP HQ w w' Hw [? ?]. split; [by eapply HP|by eapply HQ]. Qed.
Lemma stable_pure (Q : Prop) : stable (λ _, Q).
Proof. by intros w w' _ ?. Qed.
Lemma stable_seen b c : stable (λ w, import_seen b c (w_trace w)).
Proof. intros w w'. apply import_seen_mono. Qed.
Lemma stable_payload ctx subj version x :
  stable (λ w, ∃ t0, t0 `prefix_of` w_trace w ∧ payload_at env t0 ctx subj version = Ok x).
Proof. intros w w' Hw (t0 & ? & ?). exists t0. split; [by etrans|done]. Qed.

Lemma runs_export d levels ctx subj version (P : W → Prop) : stable P →
  runs is_sent P (export_version env json_text status_text d levels ctx subj version) (λ _, P).
Proof.
  intros HS. revert ctx subj version. induction levels as [|levels IH]; intros ctx subj version; cbn [export_version]; [by apply runs_ret|].
  eapply runs_bind; [by apply runs_mark_exported|]. intros new. cbn beta. destruct (negb new); [by apply runs_ret|].
  eapply runs_bind; [apply runs_ask|]. intros [[vr rec]|]; [|apply runs_ret; naive_solver].
  set (Pl w := ∃ t0, t0 `prefix_of` w_trace w ∧ payload_at env t0 ctx subj version = Ok (Some (vr, rec))).
  assert (stable Pl) as Hpl by apply stable_payload.
  eapply (runs_bind _ _ _ _ _ _). { eapply runs_pre with (P' := λ w, P w ∧ Pl w); [intros w [? ?]; split; [done|]; by exists (w_trace w)|].
    apply runs_frame; [done|]. apply runs_refs. exact IH. }
  intros refs. cbn beta.
  eapply runs_bind. { apply (runs_ensure_framed d (dest_context d ctx)).
    apply stable_and; [apply stable_and; [done|apply stable_pure]|done]. }
  intros []. cbn beta. eapply runs_bind.
  { apply (runs_write_to d _ _ _ _); [apply stable_and; [apply stable_seen|apply stable_and; [apply stable_and; [done|apply stable_pure]|done]]|].
    intros w (Hseen & [_ Hrefs] & t0 & Ht0 & Hp). split; [done|]. intros _.
    exists d, ctx, subj, version, vr, rec, refs, t0. done. }
  intros []. cbn beta. destruct (vr_deleted vr).
  - eapply runs_pre; [|eapply runs_post; [|apply (runs_delete d ctx subj version false P HS)]]; [naive_solver|by intros ? ? [? _]].
  - apply runs_ret. naive_solver.
Qed.

(** ** Batches and rounds *)

Abbreviation any := (λ _ : Event, True).

Lemma runs_any {A} (m : M A) P Q : runs is_sent P m Q → runs any P m Q.
Proof.
  intros H w r w' Hi HP E. destruct (H w r w' Hi HP E) as (? & He & ?). split_and!; [done| |done].
  eapply extends_weaken; [|exact He]. done.
Qed.

Lemma runs_stop name offset h (P : W → Prop) Q : stable P → runs any P (stop env name offset h) Q.
Proof. intros HS. unfold stop. eapply runs_bind; [by apply runs_report|]. intros []. apply runs_halt. Qed.

Lemma runs_or_retry {A} (r : result string A) (P : W → Prop) : runs any P (or_retry r) (λ _, P).
Proof. destruct r; [by apply runs_ret|apply runs_halt]. Qed.

Lemma runs_deliver d ev (P : W → Prop) : stable P → runs is_sent P (deliver env json_text status_text d ev) (λ _, P).
Proof.
  intros HS. unfold deliver. destruct (ev_kind ev); [by apply runs_export|..];
    (eapply runs_post; [|by apply runs_delete]; by intros ? ? [? _]).
Qed.

(** A step whose failure is reported. *)
Lemma runs_guarded {A} (m : M A) name offset (what : Halt → Halt) (P : W → Prop) : stable P → runs any P m (λ _, P) →
  runs any P (r ← catch m; match r with Ok _ => mret () | Err h => stop env name offset (what h) end) (λ _, P).
Proof.
  intros HS Hm w r w' Hi HP. unfold mbind, m_bind, catch. destruct (m w) as [[a|h] w1] eqn:E;
    destruct (Hm w _ w1 Hi HP E) as (Hi1 & He1 & HQ).
  - intros [= <- <-]. done.
  - intros E2. assert (P w1) as HP1 by (by eapply HS; [eapply extends_prefix|]).
    destruct (runs_stop name offset (what h) P (λ _, P) HS w1 r w' Hi1 HP1 E2) as (? & ? & ?).
    split_and!; [done|by eapply extends_trans|done].
Qed.

Lemma runs_replay d info offset events (P : W → Prop) : stable P →
  runs any P (replay_events env json_text status_text d info offset events) (λ _, P).
Proof.
  intros HS. revert offset. induction events as [|[seq ev] events IH]; intros offset; cbn [replay_events]; [by apply runs_ret|].
  eapply runs_bind with (Q := λ _, P); [|intros []; eapply runs_bind; [by apply (runs_report _ P)|intros []; apply IH]].
  destruct (subject_matches _ _ _); [|by apply runs_ret].
  apply (runs_guarded _ _ _ (λ h, halt_at h _)); [done|]. by apply runs_any, runs_deliver.
Qed.

Lemma runs_subjects d prefix (P : W → Prop) : stable P → runs any P (subjects env json_text status_text d prefix) (λ _, P).
Proof.
  intros HS. apply runs_any. unfold subjects. eapply runs_bind; [by apply runs_send_ok_plain|]. intros v.
  destruct (strings_of v); [by apply runs_ret|apply runs_halt].
Qed.

Lemma runs_reconcile d info current (P : W → Prop) : stable P →
  runs any P (reconcile_bootstrap env json_text status_text d info current) (λ _, P).
Proof.
  intros HS. unfold reconcile_bootstrap. eapply runs_bind; [apply runs_ask|]. intros contexts.
  eapply runs_pre; [intros w [H' _]; exact H'|]. apply runs_all. intros ctx. unfold reconcile_context.
  eapply runs_bind; [by apply (runs_subjects _ _ P)|]. intros subjs. apply runs_all. intros s.
  destruct (Qualified.parse s) as [q|e]; [|by apply runs_ret]. case_match; [by apply runs_ret|].
  case_match; [|by apply runs_ret]. eapply runs_bind; [apply runs_any, (runs_ensure_framed d ctx P HS)|]. intros []. apply runs_any.
  unfold delete_subject. eapply runs_pre with (P' := P); [by intros ? [? ?]|].
  eapply runs_post; [|apply runs_write_to; [done|intros; by apply plain_allowed]]. by intros ? ? [? _].
Qed.

Lemma runs_bootstrap d rec (P : W → Prop) : stable P → runs any P (bootstrap env json_text status_text d rec) (λ _, P).
Proof.
  intros HS. unfold bootstrap. eapply runs_bind; [apply runs_ask|]. intros now. eapply runs_pre; [intros w [H' _]; exact H'|].
  eapply runs_bind; [apply runs_ask|]. intros current. eapply runs_pre; [intros w [H' _]; exact H'|].
  eapply runs_bind with (Q := λ _, P); [apply runs_all; intros x|intros []].
  - case_match; [|by apply runs_ret]. apply (runs_guarded _ _ _ (λ h, halt_at h _)); [done|]. by apply runs_any, runs_export.
  - eapply (runs_pre _ _ P); [done|].
    assert (runs any P (r ← catch (reconcile_bootstrap env json_text status_text d (er_info rec) current);
      match r with Ok _ => mret () | Err h => stop env (ei_name (er_info rec)) (er_offset rec) (halt_at h "bootstrap reconciliation") end) (λ _, P)) as Hg.
    { apply (runs_guarded _ _ _ (λ h, halt_at h _)); [done|]. by apply runs_reconcile. }
    intros w r w' Hi HP E. apply (runs_bind any _ (λ _, progress env (ei_name (er_info rec)) (er_offset rec) now) P (λ _, P) (λ _, P) Hg
      (λ _, runs_report _ P HS) w r w' Hi HP). rewrite <-E. unfold mbind, m_bind. by destruct (catch _ w) as [[r0|h0] w0].
Qed.

Lemma runs_batch cluster rec (P : W → Prop) : stable P → runs any P (export_batch env json_text status_text cluster rec) (λ _, P).
Proof.
  intros HS. unfold export_batch. eapply runs_bind; [apply runs_ask|]. intros floor. eapply runs_pre; [intros w [H' _]; exact H'|].
  destruct (bool_decide (er_offset rec < floor)%Z).
  - eapply runs_bind; [apply runs_or_retry|]. intros d. eapply runs_bind; [by apply (runs_forget any P)|]. intros [].
    eapply runs_bind; [by apply (runs_bootstrap d rec P)|]. intros []. by apply runs_ret.
  - eapply runs_bind; [apply runs_ask|]. intros events. eapply runs_pre; [intros w [H' _]; exact H'|]. destruct (decide (events = [])).
    + eapply runs_bind with (Q := λ _, P); [|intros []; by apply runs_ret]. destruct (decide (er_state rec = ErrorState)); [by apply runs_report|by apply runs_ret].
    + eapply runs_bind; [apply runs_or_retry|]. intros d. eapply runs_bind; [by apply (runs_forget any P)|]. intros [].
      eapply runs_bind; [by apply (runs_replay d _ _ _ P)|]. intros []. by apply runs_ret.
Qed.

Lemma runs_pass cluster recs : runs any (λ _, True) (run_pass env json_text status_text cluster recs) (λ _ _, True).
Proof.
  induction recs as [|rec recs IH]; cbn [run_pass]; [by apply runs_ret|].
  eapply runs_bind with (Q := λ _ _, True); [|intros a; eapply runs_bind; [exact IH|intros b; by apply runs_ret]].
  unfold export_one. case_match; [by apply runs_ret|].
  eapply runs_bind; [apply runs_catch, runs_batch, stable_true|]. intros [more|h]; [by apply runs_ret|].
  intros w r w' [Hh Hr] _ [= <- <-]. destruct (destination_new _ _) as [d|]; [|split_and!; [by split|apply trace_extends_refl|done]].
  split_and!; [|by exists []; rewrite app_nil_r|done]. split; [done|]. cbn [w_ready]. intros k [_ Hk]%elem_of_filter. by apply Hr.
Qed.

Lemma worker_ok_init : worker_ok (mkW ∅ ∅ []).
Proof. split; cbn [w_trace w_ready]; [|set_solver]. intros t1 ? ? t2 E%symmetry. by apply app_eq_nil in E as [_ E]. Qed.

(** * Theorems *)

(** (C32) Whatever the destinations answer and however the registry changes meanwhile,
    the worker forces a destination context into IMPORT mode only right after
    that context said it was not in IMPORT mode and the listing of its subjects
    was answered with success and no subject; and every registration it sends goes to a context it saw in IMPORT
    mode (or put there), carrying the id, version, content and renamed
    references that the registry held. *)
Theorem worker_respects_destination cluster rounds :
  history_allowed (w_trace (run_rounds env json_text status_text cluster rounds (mkW ∅ ∅ [])).2).
Proof.
  destruct (run_rounds env json_text status_text cluster rounds (mkW ∅ ∅ [])) as [r w] eqn:Er. cbn [snd].
  assert (runs any (λ _, True) (run_rounds env json_text status_text cluster rounds) (λ _ _, True)) as H.
  { apply runs_all. intros recs. eapply runs_bind; [apply runs_pass|]. intros b. by apply runs_ret. }
  destruct (H _ _ _ worker_ok_init I Er) as [[Hh _] _]. exact Hh.
Qed.

(** * Delivery and progress *)

Definition posted d ctx subj (version : Z) t1 t2 : Prop := ∃ vr rec refs a s1 s2 v, t2 = t1 ++ s1 ++
  Sent (req d "POST" (register_path (dest_subject d ctx subj)) (Some (export_body vr rec refs version))) a :: s2 ∧ read_reply a [] = Ok v.

Lemma stable_from t : stable (λ w, t `prefix_of` w_trace w).
Proof. intros w w' Hw Ht. by etrans. Qed.
Lemma stable_posted d ctx subj version t : stable (λ w, posted d ctx subj version t (w_trace w)).
Proof.
  intros w w' [k ->] (vr & rec & refs & a & s1 & s2 & v & -> & Hv). exists vr, rec, refs, a, s1, (s2 ++ k), v.
  split; [|done]. by rewrite <-!app_assoc.
Qed.

Lemma runs_mark_new k w1 :
  runs is_sent (λ w, w = w1) (mark_exported k) (λ b w, w_trace w = w_trace w1 ∧ b = bool_decide (k ∉ w_exported w1)).
Proof.
  intros w r w' [Hh Hr] ->. unfold mark_exported. intros [= <- <-]. split_and!; [by split|by exists []; rewrite app_nil_r|done|done].
Qed.

Lemma export_acked d levels ctx subj version w1 :
  runs is_sent (λ w, w = w1) (export_version env json_text status_text d (S levels) ctx subj version)
    (λ _ w, (ctx, subj, version) ∈ w_exported w1 ∨
            (∃ t0, w_trace w1 `prefix_of` t0 ∧ t0 `prefix_of` w_trace w ∧ payload_at env t0 ctx subj version = Ok None) ∨
            posted d ctx subj version (w_trace w1) (w_trace w)).
Proof.
  cbn [export_version]. eapply runs_bind; [apply runs_mark_new|]. intros new. cbn beta. destruct (negb new) eqn:En.
  { apply runs_ret. intros w [_ ->]. left. apply negb_true_iff, bool_decide_eq_false in En. by apply dec_stable. }
  eapply runs_bind; [apply runs_ask|]. intros [[vr rec]|]; cbn beta.
  2: { apply runs_ret. intros w [[E _] Hp]. right; left. exists (w_trace w). rewrite <-E at 1. done. }
  set (Pl w := ∃ t0, t0 `prefix_of` w_trace w ∧ payload_at env t0 ctx subj version = Ok (Some (vr, rec))).
  set (From w := w_trace w1 `prefix_of` w_trace w).
  assert (stable Pl) as Hpl by apply stable_payload. assert (stable From) as Hfr by apply stable_from.
  eapply runs_bind. { eapply runs_pre with (P' := λ w, From w ∧ Pl w).
    { intros w [[E _] Hp]. split; [unfold From; by rewrite E|]. by exists (w_trace w). }
    apply runs_frame; [done|]. apply runs_refs. intros. by apply runs_export. }
  intros refs. cbn beta. eapply runs_bind.
  { apply (runs_ensure_framed d (dest_context d ctx)). apply stable_and; [apply stable_and; [done|apply stable_pure]|done]. }
  intros []. cbn beta. eapply runs_bind.
  { apply (runs_write_to d _ _ _ _); [apply stable_and; [apply stable_seen|apply stable_and; [apply stable_and; [done|apply stable_pure]|done]]|].
    intros w (Hseen & [_ Hrefs] & t0 & Ht0 & Hp). split; [done|]. intros _. exists d, ctx, subj, version, vr, rec, refs, t0. done. }
  intros []. cbn beta. eapply (runs_pre _ _ _ (λ w, posted d ctx subj version (w_trace w1) (w_trace w))).
  { intros w (_ & a & w0 & (_ & [[k Ek] _] & _) & E & v & Hv). exists vr, rec, refs, a, k, [], v. split; [|done].
    by rewrite E, Ek, <-app_assoc. }
  destruct (vr_deleted vr); [|apply runs_ret; by auto].
  eapply runs_post; [|apply (runs_delete d ctx subj version false _), stable_posted]. intros [] w [? _]. by auto.
Qed.

(** ** What a batch has sent of the versions it marked *)

(** Between [t1] and [t2] the destination accepted a registration of the
    version, or the registry turned out to have it no more. *)
Definition handled d t1 t2 (k : string * string * Z) : Prop :=
  posted d k.1.1 k.1.2 k.2 t1 t2 ∨
  ∃ t0, t1 `prefix_of` t0 ∧ t0 `prefix_of` t2 ∧ payload_at env t0 k.1.1 k.1.2 k.2 = Ok None.

Lemma posted_from d ctx subj version t1 t2 t : t1 `prefix_of` t2 → posted d ctx subj version t2 t → posted d ctx subj version t1 t.
Proof.
  intros [k ->] (vr & rec & refs & a & s1 & s2 & v & -> & Hv). exists vr, rec, refs, a, (k ++ s1), s2, v.
  split; [|done]. by rewrite <-!app_assoc.
Qed.
Lemma handled_mono d t0 t1 t2 t3 k : t0 `prefix_of` t1 → t2 `prefix_of` t3 → handled d t1 t2 k → handled d t0 t3 k.
Proof.
  intros H01 H23 [Hp|(t & ? & ? & ?)]; [left|right; exists t; split_and!; [by etrans..|done]].
  eapply posted_from; [exact H01|]. by apply (stable_posted d _ _ _ t1 (mkW ∅ ∅ t2) (mkW ∅ ∅ t3)).
Qed.

(** Of the versions marked as exported, all but those in [E] were handled
    since the history was [t0]. *)
Record covered d t0 (E : gset (string * string * Z)) w : Prop := {
  cv_ok : worker_ok w;
  cv_from : t0 `prefix_of` w_trace w;
  cv_handled : ∀ k, k ∈ w_exported w → k ∈ E ∨ handled d t0 (w_trace w) k;
}.

(** Steps that mark nothing. *)
Definition unmarked {A} (m : M A) : Prop := ∀ w, w_exported (m w).2 = w_exported w ∧ w_trace w `prefix_of` w_trace (m w).2.
Lemma unmarked_ret {A} (a : A) : unmarked (mret a).
Proof. done. Qed.
Lemma unmarked_halt {A} h : unmarked (halt (A := A) h).
Proof. done. Qed.
Lemma unmarked_bind {A B} (m : M A) (f : A → M B) : unmarked m → (∀ a, unmarked (f a)) → unmarked (m ≫= f).
Proof.
  intros Hm Hf w. unfold mbind, m_bind. destruct (Hm w) as [He Ht]. destruct (m w) as [[a|h] w1]; cbn in *; [|done].
  destruct (Hf a w1) as [He' Ht']. split; [congruence|by etrans].
Qed.
Lemma unmarked_send r codes : unmarked (send env json_text status_text r codes).
Proof. apply unmarked_bind; [|intros a; apply unmarked_ret]. intros w. split; [done|by eexists]. Qed.
Lemma unmarked_send_ok r codes : unmarked (send_ok env json_text status_text r codes).
Proof. apply unmarked_bind; [apply unmarked_send|intros [v|e]; [apply unmarked_ret|apply unmarked_halt]]. Qed.
Lemma unmarked_ensure d ctx : unmarked (ensure_import_mode env json_text status_text d ctx).
Proof.
  apply unmarked_bind; [done|]. intros [|]; [apply unmarked_ret|].
  apply unmarked_bind; [apply unmarked_bind; [apply unmarked_send_ok|intros v; apply unmarked_ret]|].
  intros m. destruct (decide _); [done|]. apply unmarked_bind; [apply unmarked_send_ok|].
  intros e. destruct (as_array e) as [[|]|]; [|apply unmarked_halt|]; (apply unmarked_bind; [apply unmarked_send_ok|done]).
Qed.
Lemma unmarked_write d r codes ds : unmarked (write_to env json_text status_text d r codes ds).
Proof.
  apply unmarked_bind; [apply unmarked_send|]. intros [v|e]; [apply unmarked_ret|].
  apply unmarked_bind; [|intros h; apply unmarked_halt]. unfold classify. destruct (negb _); [apply unmarked_ret|].
  apply unmarked_bind; [|intros m; apply unmarked_ret]. apply unmarked_bind; [apply unmarked_send|intros v; apply unmarked_ret].
Qed.

Lemma unmarked_delete d ctx subj version permanent : unmarked (delete_ env json_text status_text d ctx subj version permanent).
Proof. apply unmarked_write. Qed.

Lemma covered_step d t0 E w w' : worker_ok w' → w_trace w `prefix_of` w_trace w' → w_exported w' = w_exported w →
  covered d t0 E w → covered d t0 E w'.
Proof.
  intros Hok Hpre Hexp [_ Hf Hh]. split; [done|by etrans|]. rewrite Hexp. intros k Hk. destruct (Hh k Hk) as [?|?]; [by left|right].
  by apply (handled_mono d t0 t0 (w_trace w)).
Qed.

(** The rest of the export of one version, once its references are exported. *)
Definition post_version d ctx subj (version : Z) (vr : VersionRecord) (rec : SchemaRecord) (refs : list Value) : M () :=
  let ds := dest_subject d ctx subj in
  _ ← ensure_import_mode env json_text status_text d (dest_context d ctx);
  _ ← write_to env json_text status_text d (req d "POST" (register_path ds) (Some (export_body vr rec refs version))) [] ds;
  if vr_deleted vr then delete_ env json_text status_text d ctx subj version false else mret ().
Lemma unmarked_post d ctx subj version vr rec refs : unmarked (post_version d ctx subj version vr rec refs).
Proof.
  apply unmarked_bind; [apply unmarked_ensure|intros []]. apply unmarked_bind; [apply unmarked_write|intros []].
  destruct (vr_deleted vr); [apply unmarked_write|apply unmarked_ret].
Qed.

(** The versions one export marks are handled by its end. *)
Lemma refs_covered d t0 E levels ctx refs : (∀ c s v w w', covered d t0 E w →
    export_version env json_text status_text d levels c s v w = (Ok (), w') → covered d t0 E w') →
  ∀ w out w', covered d t0 E w → export_refs d (export_version env json_text status_text d levels) ctx refs w = (Ok out, w') →
  covered d t0 E w'.
Proof.
  intros Hx. induction refs as [|rf refs IH]; intros w out w' Hc; cbn [export_refs]; [by intros [= _ <-]|].
  destruct (Qualified.parse (ref_subject rf)) as [target|e]; [|done]. unfold mbind, m_bind.
  destruct (export_version _ _ _ _ _ _ _ _ w) as [[[]|h] w1] eqn:E1; [|done].
  destruct (export_refs _ _ _ _ w1) as [[rest|h] w2] eqn:E2; [|done]. intros [= _ <-].
  eapply IH; [|exact E2]. by eapply Hx.
Qed.

Lemma export_covered d t0 levels : ∀ E ctx subj version w w', covered d t0 E w →
  export_version env json_text status_text d levels ctx subj version w = (Ok (), w') → covered d t0 E w'.
Proof.
  induction levels as [|levels IH]; intros E ctx subj version w w' Hc Er; [by injection Er as <-|].
  pose proof (cv_ok _ _ _ _ Hc) as Hok. set (k := (ctx, subj, version)).
  destruct (export_acked d levels ctx subj version w w _ w' Hok eq_refl Er) as (Hok' & _ & Hack).
  assert (k ∈ w_exported w ∨ handled d t0 (w_trace w') k) as Hk.
  { destruct Hack as [?|Hack]; [by left|right]. apply (handled_mono d t0 (w_trace w) (w_trace w') (w_trace w')); [apply Hc|done|].
    destruct Hack as [?|?]; [by right|by left]. }
  clear Hack. cbn [export_version] in Er. unfold mbind at 1, m_bind at 1, mark_exported at 1 in Er. fold k in Er. cbn [negb] in Er.
  set (w1 := mkW (w_ready w) ({[k]} ∪ w_exported w) (w_trace w)) in *.
  case_bool_decide as Hnew; cbn [negb] in Er.
  2: { injection Er as <-. destruct Hc as [_ Hf Hh]. split; [done..|]. unfold w1. cbn [w_exported w_trace].
       intros x [->%elem_of_singleton|Hx]%elem_of_union; by apply Hh. }
  destruct Hk as [?|Hk]; [done|].
  assert (covered d t0 ({[k]} ∪ E) w1) as Hc1.
  { destruct Hc as [_ Hf Hh]. split; [by destruct Hok as [? ?]; split|done|]. unfold w1. cbn [w_exported w_trace].
    intros x [->%elem_of_singleton|Hx]%elem_of_union; [left; apply elem_of_union; left; by apply elem_of_singleton|].
    destruct (Hh x Hx) as [?|?]; [left; apply elem_of_union; by right|by right]. }
  assert (covered d t0 ({[k]} ∪ E) w') as Hc'.
  { unfold mbind at 1, m_bind at 1, ask in Er. destruct (payload_at env (w_trace w1) ctx subj version) as [[[vr rec]|]|e]; cbn [map_err] in Er;
      [|by injection Er as <-|done].
    unfold mbind at 1, m_bind at 1 in Er. destruct (export_refs _ _ _ _ w1) as [[refs|h] w2] eqn:E2; [|done].
    assert (covered d t0 ({[k]} ∪ E) w2) as Hc2 by (by eapply refs_covered; [intros; by eapply IH|exact Hc1|exact E2]).
    destruct (unmarked_post d ctx subj version vr rec refs w2) as [He Ht]. unfold post_version in He, Ht. rewrite Er in He, Ht.
    by eapply covered_step. }
  destruct Hc' as [_ Hf Hh]. split; [done..|]. intros x Hx. destruct (Hh x Hx) as [[->%elem_of_singleton|?]%elem_of_union|?]; auto.
Qed.

(** What the destination said to an event, between [t0] and [t2]; for a deletion, last. *)
Definition acked d (ev : LogEvent) t0 t1 t2 : Prop :=
  match ev_kind ev with
  | Register => handled d t0 t2 (ev_ctx ev, ev_subject ev, ev_version ev)
  | SoftDelete | HardDelete =>
      ∃ a s1 v, t2 = t1 ++ s1 ++ [Sent (req d "DELETE" (version_path (dest_subject d (ev_ctx ev) (ev_subject ev)) (ev_version ev)
        (bool_decide (ev_kind ev = HardDelete))) None) a] ∧ read_reply a [40401; 40402; 40406; 40407]%Z = Ok v
  end.

Lemma deliver_acked d t0 ev w r w' : covered d t0 ∅ w → deliver env json_text status_text d ev w = (r, w') →
  worker_ok w' ∧ extends is_sent w w' ∧ (r = Ok () → covered d t0 ∅ w' ∧ acked d ev t0 (w_trace w) (w_trace w')).
Proof.
  intros Hc. pose proof (cv_ok _ _ _ _ Hc) as Hok. unfold deliver, acked. destruct (ev_kind ev) eqn:Ek; intros Er.
  - destruct (export_acked d 32 _ _ _ w w r w' Hok eq_refl Er) as (Hok' & Hext & Hack). split_and!; [done..|]. intros ->.
    split; [by eapply export_covered|]. destruct Hack as [Hin|Hack].
    + destruct (cv_handled _ _ _ _ Hc _ Hin) as [Hn|Hh]; [by apply elem_of_empty in Hn|].
      eapply handled_mono; [done|by eapply extends_prefix|exact Hh].
    + apply (handled_mono d t0 (w_trace w) (w_trace w') (w_trace w')); [apply Hc|done|]. destruct Hack as [?|?]; [by right|by left].
  - destruct (runs_delete d (ev_ctx ev) (ev_subject ev) (ev_version ev) false _ (stable_from (w_trace w)) w r w' Hok) as (Hok' & Hext & Hq); [done|exact Er|].
    split_and!; [done..|]. intros ->. destruct Hq as (_ & a & w0 & [k Hk] & E & v & Hv). split.
    + eapply covered_step; [done|by eapply extends_prefix| |exact Hc]. pose proof (proj1 (unmarked_delete d (ev_ctx ev) (ev_subject ev) (ev_version ev) false w)) as He. by rewrite Er in He.
    + exists a, k, v. split; [|done]. by rewrite E, Hk, <-app_assoc.
  - destruct (runs_delete d (ev_ctx ev) (ev_subject ev) (ev_version ev) true _ (stable_from (w_trace w)) w r w' Hok) as (Hok' & Hext & Hq); [done|exact Er|].
    split_and!; [done..|]. intros ->. destruct Hq as (_ & a & w0 & [k Hk] & E & v & Hv). split.
    + eapply covered_step; [done|by eapply extends_prefix| |exact Hc]. pose proof (proj1 (unmarked_delete d (ev_ctx ev) (ev_subject ev) (ev_version ev) true w)) as He. by rewrite Er in He.
    + exists a, k, v. split; [|done]. by rewrite E, Hk, <-app_assoc.
Qed.

Lemma first_report sg s1 s2 rest rp a rp' a' : Forall is_sent sg →
  s1 ++ Reported rp a :: s2 = sg ++ Reported rp' a' :: rest →
  (s1 = sg ∧ rp = rp' ∧ a = a' ∧ s2 = rest) ∨ ∃ s1', s1 = sg ++ Reported rp' a' :: s1' ∧ rest = s1' ++ Reported rp a :: s2.
Proof.
  intros Hs. revert s1; induction Hs as [|e sg He _ IH]; intros s1 E.
  - destruct s1 as [|x s1]; cbn in E; [left; injection E as -> -> ->; done|]. injection E as -> E. right. by exists s1.
  - destruct s1 as [|x s1]; cbn in E; [injection E as <- _; done|]. injection E as -> E.
    destruct (IH s1 E) as [(-> & ? & ? & ?)|(s1' & -> & ?)]; [by left|right; by exists s1'].
Qed.

(** Where the exporter stands once the given events are behind it. *)
Definition position (offset : Z) (before : list (Z * LogEvent)) : Z :=
  match last before with Some (seq, _) => (seq + 1)%Z | None => offset end.

(** What a report, made when the history was [t], says of the batch that began
    in state [w]: all events before some event are behind it, and then either
    that event failed and the offset stays, or it is none of the exporter's, or
    it was delivered, and the offset moves past it. *)
Definition truthful_report d info offset (events : list (Z * LogEvent)) w t (rp : Report) : Prop :=
  ∃ before seq ev after w1, events = before ++ (seq, ev) :: after ∧
    replay_events env json_text status_text d info offset before w = (Ok (), w1) ∧ rp_expected rp = position offset before ∧
    ((rp_new rp = position offset before ∧ is_Some (rp_trace rp) ∧
      subject_matches (ei_subjects info) (ev_ctx ev) (ev_subject ev) = true ∧
      ∃ h w2, deliver env json_text status_text d ev w1 = (Err h, w2) ∧ rp_state rp = halt_state h ∧ t = w_trace w2) ∨
     (rp_new rp = (seq + 1)%Z ∧ rp_state rp = Running ∧
      if subject_matches (ei_subjects info) (ev_ctx ev) (ev_subject ev) then acked d ev (w_trace w) (w_trace w1) t
      else t = w_trace w1)).

Lemma replay_cons d info offset seq ev events w w2 :
  (if subject_matches (ei_subjects info) (ev_ctx ev) (ev_subject ev) then deliver env json_text status_text d ev w = (Ok (), w2) else w2 = w) →
  replay_events env json_text status_text d info offset ((seq, ev) :: events) w =
  (_ ← progress env (ei_name info) offset (seq + 1); replay_events env json_text status_text d info (seq + 1) events) w2.
Proof.
  intros H. cbn [replay_events]. destruct (subject_matches _ _ _); [|by subst].
  unfold mbind, m_bind, catch. by rewrite H.
Qed.

Lemma progress_step name offset next w : ∃ a w3, w_trace w3 = w_trace w ++ [Reported (mkReport name offset next Running None) a] ∧
  progress env name offset next w = (map_err retry a, w3) ∧ w_exported w3 = w_exported w ∧ (worker_ok w → worker_ok w3).
Proof.
  eexists _, _. split_and!; [|done|done|]; [done|]. intros Hi.
  by destruct (runs_report (mkReport name offset next Running None) (λ _, True) stable_true w _ _ Hi I eq_refl) as (? & _).
Qed.

Lemma replay_fail d info offset seq ev events w h w2 :
  subject_matches (ei_subjects info) (ev_ctx ev) (ev_subject ev) = true → deliver env json_text status_text d ev w = (Err h, w2) →
  replay_events env json_text status_text d info offset ((seq, ev) :: events) w =
  stop env (ei_name info) offset (halt_at h (event_text seq ev)) w2.
Proof.
  intros Em Ed. cbn [replay_events]. rewrite Em. unfold mbind, m_bind, catch. rewrite Ed. unfold stop, mbind, m_bind.
  by destruct (report env _ w2) as [[[]|h0] w0].
Qed.

(** The first event: delivered (or none of the exporter's), or the batch stops at it. *)
Lemma first_event d t0 info offset seq ev events w : covered d t0 ∅ w →
  ∃ w2 sg, w_trace w2 = w_trace w ++ sg ∧ Forall is_sent sg ∧ worker_ok w2 ∧
  ((covered d t0 ∅ w2 ∧ if subject_matches (ei_subjects info) (ev_ctx ev) (ev_subject ev)
    then deliver env json_text status_text d ev w = (Ok (), w2) ∧ acked d ev t0 (w_trace w) (w_trace w2) else w2 = w) ∨
   ∃ h, subject_matches (ei_subjects info) (ev_ctx ev) (ev_subject ev) = true ∧ deliver env json_text status_text d ev w = (Err h, w2) ∧
     replay_events env json_text status_text d info offset ((seq, ev) :: events) w =
     stop env (ei_name info) offset (halt_at h (event_text seq ev)) w2).
Proof.
  intros Hc. destruct (subject_matches (ei_subjects info) (ev_ctx ev) (ev_subject ev)) eqn:Em.
  2: { exists w, []. rewrite app_nil_r. split_and!; [done..|apply Hc|by left]. }
  destruct (deliver env json_text status_text d ev w) as [r w2] eqn:Ed.
  destruct (deliver_acked d t0 ev w r w2 Hc Ed) as (Hok & (sg & Esg & Hsg) & Hack). exists w2, sg. split_and!; [done..|].
  destruct r as [[]|h]; [left; by destruct (Hack eq_refl)|right]. exists h. split_and!; [done..|]. by apply replay_fail.
Qed.

Lemma stop_report name offset h w r w' : stop env name offset h w = (r, w') →
  ∃ a, w_trace w' = w_trace w ++ [Reported (mkReport name offset offset (halt_state h) (Some (halt_trace h))) a].
Proof.
  unfold stop, mbind, m_bind, report. destruct (report_at env (w_trace w) _) as [[]|]; intros [= _ <-]; by eexists.
Qed.

Lemma position_cons offset seq ev before : position offset ((seq, ev) :: before) = position (seq + 1) before.
Proof. unfold position. destruct before as [|x before] using rev_ind; [done|]. by rewrite app_comm_cons, !last_snoc. Qed.

Lemma replay_truthful d t0 info events : ∀ offset w r w' s1 rp a s2, covered d t0 ∅ w →
  replay_events env json_text status_text d info offset events w = (r, w') →
  w_trace w' = w_trace w ++ s1 ++ Reported rp a :: s2 →
  ∃ before seq ev after w1, events = before ++ (seq, ev) :: after ∧
    replay_events env json_text status_text d info offset before w = (Ok (), w1) ∧ rp_expected rp = position offset before ∧
    ((rp_new rp = position offset before ∧ is_Some (rp_trace rp) ∧
      subject_matches (ei_subjects info) (ev_ctx ev) (ev_subject ev) = true ∧
      ∃ h w2, deliver env json_text status_text d ev w1 = (Err h, w2) ∧ rp_state rp = halt_state h ∧ w_trace w ++ s1 = w_trace w2) ∨
     (rp_new rp = (seq + 1)%Z ∧ rp_state rp = Running ∧
      if subject_matches (ei_subjects info) (ev_ctx ev) (ev_subject ev) then acked d ev t0 (w_trace w1) (w_trace w ++ s1)
      else w_trace w ++ s1 = w_trace w1)).
Proof.
  induction events as [|[seq ev] events IH]; intros offset w r w' s1 rp a s2 Hc Er Et.
  { injection Er as _ <-. rewrite <-(app_nil_r (w_trace w)) in Et at 1. apply app_inv_head in Et. by destruct s1. }
  destruct (first_event d t0 info offset seq ev events w Hc) as (w2 & sg & E2 & Hsg & Hi2 & [[Hc2 Hd]|(h & Hm & Hdel & Hstop)]).
  2: { rewrite Hstop in Er. apply stop_report in Er as [pa Ew']. rewrite E2, <-app_assoc, Et in Ew'. apply app_inv_head in Ew'.
       apply first_report in Ew' as [(-> & -> & _)|(s1' & _ & E)]; [|by destruct s1'|done].
       exists [], seq, ev, events, w. split_and!; [done..|left]. split_and!; [done|by eexists|done|].
       exists h, w2. split_and!; [done..|by rewrite E2]. }
  destruct (progress_step (ei_name info) offset (seq + 1)%Z w2) as (pa & w3 & E3 & Ep & Hexp & Hi3).
  assert (covered d t0 ∅ w3) as Hc3 by (apply (covered_step d t0 ∅ w2); [by apply Hi3|rewrite E3; by eexists|done|done]).
  assert (if subject_matches (ei_subjects info) (ev_ctx ev) (ev_subject ev) then deliver env json_text status_text d ev w = (Ok (), w2) else w2 = w)
    as Hd' by (destruct (subject_matches _ _ _); [apply Hd|done]).
  rewrite (replay_cons d info offset seq ev events w w2 Hd') in Er. unfold mbind, m_bind in Er. rewrite Ep in Er.
  assert (∃ rest, w_trace w' = w_trace w3 ++ rest) as (rest & Ew3).
  { destruct pa as [[]|e]; cbn in Er; [|injection Er as _ <-; exists []; by rewrite app_nil_r].
    by destruct (runs_replay d info (seq + 1) events (λ _, True) stable_true w3 r w' (Hi3 Hi2) I Er) as (_ & (rest & Erest & _) & _); exists rest. }
  assert (s1 ++ Reported rp a :: s2 = sg ++ Reported (mkReport (ei_name info) offset (seq + 1) Running None) pa :: rest) as Es.
  { apply (app_inv_head (w_trace w)). rewrite <-Et, Ew3, E3, E2, <-!app_assoc. done. }
  apply first_report in Es as [(-> & -> & -> & _)|(s1' & -> & Erest)]; [| |done].
  - exists [], seq, ev, events, w. split_and!; [done..|right]. split_and!; [done..|]. rewrite <-E2.
    destruct (subject_matches _ _ _); [apply Hd|by subst].
  - destruct pa as [[]|e]; cbn in Er.
    2: { injection Er as _ <-. rewrite <-(app_nil_r (w_trace w3)) in Ew3 at 1. apply app_inv_head in Ew3. subst rest. by destruct s1'. }
    rewrite Erest in Ew3. destruct (IH (seq + 1)%Z w3 r w' s1' rp a s2 Hc3 Er Ew3) as (before & sq & e & after & w1 & -> & Hb & Hx & Hm).
    exists ((seq, ev) :: before), sq, e, after, w1. rewrite position_cons. split_and!; [done| |done|].
    + rewrite (replay_cons d info offset seq ev before w w2 Hd'). unfold mbind, m_bind. by rewrite Ep.
    + rewrite E3, E2, <-!app_assoc in Hm. exact Hm.
Qed.

(** (C33) The offset an exporter reports is true. A batch that starts with no
    version marked as exported takes its events in order and skips none; each
    report it makes expects the offset after the events it has behind it, and
    then either the next event failed, and the offset stays before it, or the
    offset moves past exactly that event, and then the event is none of the
    exporter's, or was delivered: a deletion the destination accepted just now
    or had already, or a registration for which the destination accepted the
    version, or the registry had it no more, since the batch began. (The
    version of a registration is sent once per batch, so one that was deleted
    and registered again in between is not sent a second time, see
    [reregistration_not_exported].) *)
Theorem offset_follows_delivery d info offset events w r w' s1 rp a s2 : worker_ok w → w_exported w = ∅ →
  replay_events env json_text status_text d info offset events w = (r, w') →
  w_trace w' = w_trace w ++ s1 ++ Reported rp a :: s2 →
  truthful_report d info offset events w (w_trace w ++ s1) rp.
Proof.
  intros Hok Hnone Er Et. eapply replay_truthful; [|exact Er|exact Et].
  split; [done..|]. rewrite Hnone. by intros k ?%elem_of_empty.
Qed.
End safety.

(** * Pruning *)

Section pruning.
Context `{!RocksDB DB, !RocksDBLaws DB}.
Context `{!Serde VersionRecord, !Serde ConfigRecord.t, !Serde Mode, !Serde LogEvent, !Serde ExporterRecord}.
Implicit Types db : DB.
Local Open Scope Z_scope.

Lemma foldl_min_le o os x : x ∈ o :: os → foldl Z.min o os ≤ x.
Proof.
  assert (∀ os o, foldl Z.min o os ≤ o) as Hle by (induction os0 as [|y os0 IH]; intros o0; cbn [foldl]; [lia|specialize (IH (Z.min o0 y)); lia]).
  revert o; induction os as [|y os IH]; intros o [-> |Hx]%elem_of_cons; cbn [foldl]; [lia|by apply elem_of_nil in Hx| |].
  - specialize (Hle os (Z.min o y)). lia.
  - apply elem_of_cons in Hx as [-> |Hx]; [specialize (Hle os (Z.min o y)); lia|]. apply IH. by right.
Qed.

Lemma prune_floor_bound {E F} (es : list ExporterRecord) n :
  prune_floor (Ok (E:=E) es) (Ok (E:=F) n) ≤ n ∧ ∀ e, e ∈ es → prune_floor (Ok (E:=E) es) (Ok (E:=F) n) ≤ er_offset e.
Proof.
  unfold prune_floor. split; [lia|]. intros e He. apply (list_elem_of_fmap_2 er_offset) in He.
  destruct (er_offset <$> es) as [|o os]; [by apply elem_of_nil in He|]. apply foldl_min_le in He. lia.
Qed.

Lemma prune_floor_pos {E F} (es : result E (list ExporterRecord)) (n : result F Z) :
  (∀ l e, es = Ok l → e ∈ l → 0 ≤ er_offset e) → (∀ k, n = Ok k → 0 ≤ k) → 0 ≤ prune_floor es n.
Proof.
  intros He Hn. destruct es as [l|], n as [k|]; cbn; [|lia..]. specialize (Hn k eq_refl).
  assert (∀ x, x ∈ (er_offset <$> l) → 0 ≤ x) as Hl by (intros x (e & -> & Hin)%list_elem_of_fmap; eauto).
  destruct (er_offset <$> l) as [|o os]; [lia|]. assert (0 ≤ foldl Z.min o os); [|lia]. revert o Hl.
  induction os as [|y os IH]; intros o Hl; cbn [foldl]; [apply Hl; left|]. apply IH. intros x [-> |Hx]%elem_of_cons; [|apply Hl; right; by right].
  assert (0 ≤ o) by (apply Hl; left). assert (0 ≤ y) by (apply Hl; right; left). lia.
Qed.

(** (C40) Pruning takes nothing from any exporter: after the worker prunes the log
    (or fails to), every stored exporter whose next event was still there reads
    exactly the events it would have read before. (The rows hold the published
    snapshot and the log, and offsets are 64-bit.) *)
Theorem pruning_spares_exporters st db s floor log db' r e (limit : nat) :
  durable st (rows db) s floor log →
  (∀ l x, list_exporters st db = Ok l → x ∈ l → is_u64 (er_offset x)) →
  prune_log st db (prune_floor (list_exporters st db) (stored_log_seq st db)) = (db', r) →
  (∃ l, list_exporters st db = Ok l ∧ e ∈ l) → Z.of_nat floor ≤ er_offset e →
  read_log st db' (er_offset e) limit = read_log st db (er_offset e) limit.
Proof.
  intros Hd Hu Hp (l & El & He) Hfl. pose proof (Hu l e El He) as Hue.
  assert (stored_log_seq st db = Ok (Z.of_nat (length log))) as Es by (apply stored_counter, Hd).
  set (k := prune_floor (list_exporters st db) (stored_log_seq st db)) in *.
  assert (0 ≤ k) as Hk.
  { apply prune_floor_pos; [intros l' x El' Hx; destruct (Hu l' x El' Hx); lia|]. rewrite Es. intros ? [= <-]. lia. }
  assert (k ≤ Z.of_nat (length log) ∧ k ≤ er_offset e) as [Hlen Hoff].
  { unfold k. rewrite El, Es. destruct (prune_floor_bound (E:=ApiError) (F:=Fault) l (Z.of_nat (length log))) as [? ?]. auto. }
  replace k with (Z.of_nat (Z.to_nat k)) in Hp by lia.
  pose proof (prune_log_durable st db s floor log (Z.to_nat k) db' r Hd ltac:(lia) Hp) as Hr.
  rewrite (read_log_page st db floor log) by (apply Hd || done). destruct r.
  - rewrite (read_log_page st db' (Nat.max floor (Z.to_nat k)) log) by (apply Hr || done). unfold log_page. do 3 f_equal. lia.
  - apply (read_log_page st db' floor log); [|done]. rewrite Hr. apply Hd.
Qed.
End pruning.

(** * Concrete runs *)

Definition plain_text (v : Value) : string := "".
Definition plain_status (z : Z) : string := "".

(** A registry that holds one version and a destination that accepts everything and is in IMPORT mode. *)
Definition order_schema : SchemaRecord := mkSchemaRecord Avro "string" [] None None "fp" "sfp" "guid".
Definition calm_env (log : list (Z * LogEvent)) : Env := {|
  http _ r := Response 200 (Some (if decide (rq_method r = "GET") then import_body else VNull));
  payload_at _ ctx subj v := Ok (if decide ((ctx, subj, v) = (".", "orders", 1%Z)) then Some (mkVersion 7 false 0, order_schema) else None);
  floor_at _ := Ok 0%Z; seq_at _ := Ok (Z.of_nat (length log)); log_at _ _ := Ok log;
  versions_at _ := Ok [(".", "orders", 1%Z)]; contexts_at _ := Ok ["."]; report_at _ _ := Ok () |}.
Definition to_dr : ExporterInfo :=
  mkExporterInfo "to-dr" ["*"] "NONE" None None [("schema.registry.url", VString "http://dr/")].
Definition dr : Destination := mkDest "http://dr" None to_dr "c1".
Definition one_event : list (Z * LogEvent) := [(0%Z, mkEvent "." "orders" 1 7 Register)].

Definition sent_of (t : Trace) : list (string * string) :=
  omap (λ e, match e with Sent r _ => Some (rq_method r, rq_path r) | Reported _ _ => None end) t.
Definition offsets_of (t : Trace) : list Z := omap (λ e, match e with Reported r _ => Some (rp_new r) | Sent _ _ => None end) t.

Lemma offset_follows_delivery_witness :
  let env := calm_env one_event in
  ∃ t rp, rp_new rp = 1%Z ∧ rp_state rp = Running ∧
    truthful_report (glob := small_glob) env plain_text plain_status dr to_dr 0 one_event (mkW ∅ ∅ []) t rp.
Proof.
  intros env.
  destruct (replay_events (glob := small_glob) env plain_text plain_status dr to_dr 0 one_event (mkW ∅ ∅ [])) as [r w] eqn:E.
  assert (∃ s1 rp a s2, w_trace w = [] ++ s1 ++ Reported rp a :: s2 ∧ rp_new rp = 1%Z ∧ rp_state rp = Running) as (s1 & rp & a & s2 & Ew & En & Ex).
  { vm_compute in E. injection E as _ <-. do 2 eexists. exists (Ok ()), []. cbn [w_trace app].
    split; [|split]; [match goal with |- ?x :: ?y :: ?z :: [] = _ => instantiate (2 := [x; y]); reflexivity end|reflexivity|reflexivity]. }
  exists (w_trace (mkW ∅ ∅ []) ++ s1), rp. split_and!; [exact En|exact Ex|].
  exact (offset_follows_delivery (glob := small_glob) env plain_text plain_status dr to_dr 0 one_event (mkW ∅ ∅ []) r w s1 rp a s2
    (worker_ok_init env plain_text plain_status) eq_refl E Ew).
Defined.

(** A subject registered, deleted, deleted for good and registered again before
    the worker looks: the second registration is taken for one the batch has
    already exported. The destination accepts everything, the offset moves past
    all four events, the source has version 1, and the last thing the
    destination was told about it is to delete it permanently. *)
Definition four_events : list (Z * LogEvent) :=
  [(0%Z, mkEvent "." "orders" 1 7 Register); (1%Z, mkEvent "." "orders" 1 7 SoftDelete);
   (2%Z, mkEvent "." "orders" 1 7 HardDelete); (3%Z, mkEvent "." "orders" 1 7 Register)].

Theorem reregistration_not_exported :
  let env := calm_env four_events in
  let '(r, w) := export_batch (glob := small_glob) env plain_text plain_status "c1" (mkExporter to_dr Running 0 0 "") (mkW ∅ ∅ []) in
  r = Ok false ∧ offsets_of (w_trace w) = [1; 2; 3; 4]%Z ∧
  sent_of (w_trace w) = [("GET", "/mode"); ("POST", "/subjects/orders/versions"); ("DELETE", "/subjects/orders/versions/1");
                         ("DELETE", "/subjects/orders/versions/1?permanent=true")] ∧
  payload_at env (w_trace w) "." "orders" 1 = Ok (Some (mkVersion 7 false 0, order_schema)).
Proof. vm_compute. done. Qed.

(** An answer that cannot be read counts as an empty listing: the destination is
    not in IMPORT mode, its list of subjects arrives with a success status but
    does not parse, and the worker forces IMPORT mode. *)
Definition garbled_env : Env := {|
  http _ r := Response 200 (if decide (rq_path r = "/mode") then Some (VObject [("mode", VString "READWRITE")]) else None);
  payload_at _ _ _ _ := Ok None; floor_at _ := Ok 0%Z; seq_at _ := Ok 0%Z; log_at _ _ := Ok [];
  versions_at _ := Ok []; contexts_at _ := Ok []; report_at _ _ := Ok () |}.

Theorem unreadable_listing_forces_import :
  let '(r, w) := ensure_import_mode garbled_env plain_text plain_status dr "." (mkW ∅ ∅ []) in
  r = Ok () ∧ sent_of (w_trace w) = [("GET", "/mode"); ("GET", "/subjects?subjectPrefix=&deleted=true"); ("PUT", "/mode?force=true")] ∧
  http garbled_env [] (req dr "GET" (listing_path "") None) = Response 200 None.
Proof. vm_compute. done. Qed.

(** A log of two events, of which the one exporter has consumed the first. *)
Definition behind : ExporterRecord := mkExporter to_dr Running 1 0 "".
Definition exporter_db : MemDB := (put_exporter demo_store demo_db behind ModeGate.not_schema_state).1.

Lemma exporter_db_durable : durable demo_store (rows exporter_db) demo_snap 0 demo_events.
Proof.
  apply (durable_frame demo_store (rows demo_db)); [|exact demo_durable]. intros cf k Hcf.
  unfold exporter_db, put_exporter. destruct (corrupt (to_vec behind)) as [v|]; [|done]. unfold physical_put, write.
  destruct (write_opt _ _) as [db1 r1] eqn:Hw. apply write_opt_law in Hw. destruct r1; cbn [fst]; rewrite Hw; [|done].
  cbn. apply lookup_insert_ne. congruence.
Qed.

Lemma exporter_db_lists : list_exporters demo_store exporter_db = Ok [behind].
Proof. vm_compute. reflexivity. Qed.
Lemma exporter_db_floor : prune_floor (list_exporters demo_store exporter_db) (stored_log_seq demo_store exporter_db) = 1%Z.
Proof. vm_compute. reflexivity. Qed.
Lemma exporter_db_prunes : (prune_log demo_store exporter_db 1).2 = Ok ().
Proof. vm_compute. reflexivity. Qed.
Lemma exporter_db_offsets l x : list_exporters demo_store exporter_db = Ok l → x ∈ l → is_u64 (er_offset x).
Proof. rewrite exporter_db_lists. intros [= <-] ->%list_elem_of_singleton. vm_compute. split; discriminate. Qed.

Lemma pruning_spares_exporters_witness :
  (prune_log demo_store exporter_db 1).2 = Ok () ∧
  read_log demo_store (prune_log demo_store exporter_db 1).1 1 10 = read_log demo_store exporter_db 1 10.
Proof.
  split; [exact exporter_db_prunes|].
  apply (pruning_spares_exporters demo_store exporter_db demo_snap 0 demo_events _ (prune_log demo_store exporter_db 1).2 behind 10
    exporter_db_durable exporter_db_offsets); [|exists [behind]; split; [exact exporter_db_lists|left]|done].
  rewrite exporter_db_floor. apply surjective_pairing.
Defined.
