(* ===== verification/Tags.v ===== *)
(** Schema tags (schema/tags.rs, [modify_tags] of registry/mod.rs and
    [rule_set_for_tags] of registry/schemas.rs): a tag request rewrites the
    schema text and registers the result. Reading and printing JSON and the
    Protobuf rewriting are parameters. *)
From S2P Require Import Prelude SortedVec RustStr Errors Json Model Context Snapshot Keys Plan Store SchemaLayer Views Registry Queries Mutations.

Open Scope string_scope.
Open Scope nat_scope.
Open Scope list_scope.

Definition TAGS_KEY : string := "confluent:tags".

(** [record]: a named type rather than a field. *)
Record TagEdit := mkTagEdit { te_path : string; te_record : bool; te_tags : list string }.

Definition no_match (path : string) : string :=
  "java.lang.IllegalArgumentException: No matching path '" +:+ path +:+ "' found in the schema".

(** [shift_remove]: the other entries keep their order. *)
Definition map_shift_remove (k : string) (m : Map) : Map := filter (λ e, e.1 ≠ k) m.

(** * One node *)

Definition add_new (current : list string) (t : string) : list string :=
  if bool_decide (t ∈ current) then current else current ++ [t].
Definition tags_of (o : Map) : list string := omap as_str (default [] (map_get TAGS_KEY o ≫= as_array)).
Definition edited_tags (current tags : list string) (adding : bool) : list string :=
  if adding then foldl add_new current tags else filter (λ t, t ∉ tags) current.

Definition edit_tags (o : Map) (tags : list string) (adding : bool) : Map :=
  let current := edited_tags (tags_of o) tags adding in
  if decide (current = []) then map_shift_remove TAGS_KEY o
  else map_insert TAGS_KEY (VArray (VString <$> current)) o.

(** * Avro *)

Section avro.
Context (edit : TagEdit) (adding : bool).

(** The full name of a named type; [None] for any other object. *)
Definition full_name (o : Map) (space : option string) : option string :=
  if bool_decide (default "" (map_get "type" o ≫= as_str) ∈ ["record"; "error"; "enum"; "fixed"]) then
    let name := default "" (map_get "name" o ≫= as_str) in
    let ns := match map_get "namespace" o ≫= as_str with Some ns => Some ns | None => space end in
    Some (match contains_char "." name, ns with
          | false, Some ns => if decide (ns = "") then name else ns +:+ "." +:+ name
          | _, _ => name
          end)
  else None.
(** [rsplit('.').next()]. *)
Definition simple_name (full : string) : string := match rsplit_once_char "." full with Some (_, s) => s | None => full end.

(** The first field of that name, edited. *)
Fixpoint edit_field (field : string) (fields : list Value) : option (list Value) :=
  match fields with
  | [] => None
  | f :: fields =>
      if decide (get "name" f ≫= as_str = Some field) then
        match f with VObject o => Some (VObject (edit_tags o (te_tags edit) adding) :: fields) | _ => None end
      else cons f <$> edit_field field fields
  end.

(** What the path names at this object itself: the type, or a field of it. *)
Definition edit_here (o : Map) (full : string) : option Map :=
  let simple := simple_name full in
  if te_record edit then
    if bool_decide (full = te_path edit) || bool_decide (simple = te_path edit)
    then Some (edit_tags o (te_tags edit) adding) else None
  else
    field ← (match strip_prefix (full +:+ ".") (te_path edit) with
             | Some f => Some f | None => strip_prefix (simple +:+ ".") (te_path edit) end);
    fields ← map_get "fields" o ≫= as_array;
    fields' ← edit_field field fields;
    Some (map_insert "fields" (VArray fields') o).

(** The schema with the edit made, [None] when the path names nothing in it. *)
Fixpoint avro_edit (v : Value) (space : option string) : option Value :=
  match v with
  | VArray items =>
      VArray <$> (fix go (l : list Value) : option (list Value) :=
        match l with
        | [] => None
        | x :: l => match avro_edit x space with Some x' => Some (x' :: l) | None => cons x <$> go l end
        end) items
  | VObject o =>
      let full := full_name o space in
      match full ≫= edit_here o with
      | Some o' => Some (VObject o')
      | None =>
          let inner := match full ≫= rsplit_once_char "." with Some (ns, _) => Some ns | None => space end in
          VObject <$> (fix go (l : list (string * Value)) : option (list (string * Value)) :=
            match l with
            | [] => None
            | (k, x) :: l =>
                if bool_decide (k = "name") || bool_decide (k = "namespace") then cons (k, x) <$> go l else
                match avro_edit x inner with Some x' => Some ((k, x') :: l) | None => cons (k, x) <$> go l end
            end) o
      end
  | _ => None
  end.

(** * JSON Schema *)

(** Alternating type and property names. *)
Fixpoint json_edit (segments : list string) (v : Value) : option Value :=
  match v with
  | VObject o =>
      let ty := default "" (map_get "type" o ≫= as_str) in
      match segments with
      | [] => None
      | [last] => if decide (last = ty) then Some (VObject (edit_tags o (te_tags edit) adding)) else None
      | head :: property :: rest =>
          if decide (head = ty) then
            props ← map_get "properties" o ≫= as_object;
            next ← map_get property props;
            next' ← match rest with
                    | [] => match next with VObject t => Some (VObject (edit_tags t (te_tags edit) adding)) | _ => None end
                    | _ => json_edit rest next
                    end;
            Some (VObject (map_insert "properties" (VObject (map_insert property next' props)) o))
          else None
      end
  | _ => None
  end.
End avro.

(** * Requests *)

Section apply.
Context (json_parse : string → result string Value) (json_print : Value → result string string).
Context (proto_apply_tags : string → list TagEdit → list TagEdit → result string string).

(** The edits in order, those to add first; the flag is whether to add. *)
Fixpoint edit_all (one : TagEdit → bool → Value → option Value) (edits : list (TagEdit * bool)) (v : Value) : result string Value :=
  match edits with
  | [] => Ok v
  | (e, adding) :: edits => v' ← ok_or (one e adding v) (no_match (te_path e)); edit_all one edits v'
  end.
Definition edits_of (add remove : list TagEdit) : list (TagEdit * bool) :=
  ((λ e, (e, true)) <$> add) ++ ((λ e, (e, false)) <$> remove).

Definition apply (ty : SchemaType) (text : string) (add remove : list TagEdit) : result string string :=
  match ty with
  | Avro => v ← json_parse text; v ← edit_all (λ e adding v, avro_edit e adding v None) (edits_of add remove) v; json_print v
  | JsonSchemaT => v ← json_parse text;
      v ← edit_all (λ e adding v, json_edit e adding (split_char "." (te_path e)) v) (edits_of add remove) v; json_print v
  | Protobuf => proto_apply_tags text add remove
  end.

Record TagSchemaRequest := mkTagRequest {
  tq_add : list TagEdit; tq_remove : list TagEdit; tq_new_version : option Z;
  tq_metadata : option Value; tq_rule_set : option Value; tq_rules_to_merge : option Value; tq_rules_to_remove : list string }.

Context `{!SchemaFormats}.

Definition rule_named (names : list string) (x : Value) : bool :=
  match get "name" x ≫= as_str with Some n => bool_decide (n ∈ names) | None => false end.
(** Drop the rules with one of these names. *)
Definition remove_rules (names : list string) (rs : Map) : Map :=
  foldl (λ rs key,
    match map_get key rs with
    | Some (VArray rules) => map_insert key (VArray (filter (λ x, rule_named names x = false) rules)) rs
    | _ => rs
    end) rs ["migrationRules"; "domainRules"].

Definition rule_set_for_tags (r : Reader) (q : QualifiedSubject) (req : TagSchemaRequest) : Outcome (option Value) :=
  if bool_decide (tq_rules_to_merge req = None) && bool_decide (tq_rules_to_remove req = []) then Ok (tq_rule_set req) else
  let spec := match tq_new_version req with
              | Some v => if bool_decide (1 < v)%Z then Exact (v - 1)%Z else Exact 1%Z
              | None => Latest
              end in
  previous ← match get_exact r q spec false with
             | Some (v, vr) => e ← entity r q v vr; Ok (en_rule_set e)
             | None => Ok None
             end;
  let rules := match tq_rules_to_merge req with
               | Some merge => merge_rule_sets [previous; Some merge]
               | None => previous
               end in
  Ok (if bool_decide (tq_rules_to_remove req = []) then rules else
      match rules with Some (VObject rs) => Some (VObject (remove_rules (tq_rules_to_remove req) rs)) | _ => rules end).

(** The registration a tag request turns into. *)
Definition tag_request (r : Reader) (subj : string) (spec : VersionSpec) (req : TagSchemaRequest) : Outcome RegisterSchemaRequest :=
  q ← api (Qualified.parse subj);
  match get_using_contexts r q spec false with
  | None => Err (Api (if has_subjects r q false then ApiErr.version_not_found (Spec.display spec) else ApiErr.subject_not_found subj))
  | Some (cq, _, vr) =>
      rec ← need_schema r (context cq) (vr_id vr);
      metadata ← with_confluent_version (match tq_metadata req with Some m => Some m | None => sr_metadata rec end)
                   (Z.max (default 0 (tq_new_version req)) 0)%Z;
      rule_set ← rule_set_for_tags r q req;
      text ← map_err (λ e, Api (ApiErr.new 42201 e)) (apply (sr_type rec) (sr_schema rec) (tq_add req) (tq_remove req));
      Ok (mkRegisterRequest (Some text) (Some (SchemaTypeM.as_str (sr_type rec)))
            (Some (RefIn.from <$> sr_references rec)) metadata rule_set (tq_new_version req) None)
  end.
End apply.

(** * Lemmas *)

(** A document without its tags. *)
Fixpoint strip (v : Value) : Value :=
  match v with
  | VArray l => VArray (map strip l)
  | VObject o => VObject (filter (λ e, e.1 ≠ TAGS_KEY) (map (λ p, match p with (k, x) => (k, strip x) end) o))
  | v => v
  end.
Definition strip_map (o : Map) : Map := filter (λ e, e.1 ≠ TAGS_KEY) (map (λ p, match p with (k, x) => (k, strip x) end) o).

Lemma strip_object o : strip (VObject o) = VObject (strip_map o).
Proof. done. Qed.
Lemma strip_cons k x o : strip_map ((k, x) :: o) = if decide (k = TAGS_KEY) then strip_map o else (k, strip x) :: strip_map o.
Proof.
  unfold strip_map. cbn [map]. rewrite filter_cons. cbn [fst]. destruct (decide (k = TAGS_KEY)) as [-> |Hk].
  - rewrite decide_False by (by intros []). done.
  - by rewrite decide_True by done.
Qed.

Lemma strip_shift_remove o : strip_map (map_shift_remove TAGS_KEY o) = strip_map o.
Proof.
  induction o as [|[k x] o IH]; [done|]. unfold map_shift_remove. rewrite filter_cons. cbn [fst]. rewrite strip_cons.
  destruct (decide (k = TAGS_KEY)) as [E|Hk].
  - rewrite decide_False by tauto. exact IH.
  - rewrite decide_True, strip_cons, decide_False by done. f_equal. exact IH.
Qed.

Lemma strip_insert_tags v o : strip_map (map_insert TAGS_KEY v o) = strip_map o.
Proof.
  induction o as [|[k x] o IH]; cbn [map_insert]; [by rewrite strip_cons, decide_True|].
  case_decide as Hk; [subst; by rewrite !strip_cons|]. by rewrite !strip_cons, IH.
Qed.

Lemma strip_edit_tags o tags adding : strip_map (edit_tags o tags adding) = strip_map o.
Proof. unfold edit_tags. case_decide; [apply strip_shift_remove|apply strip_insert_tags]. Qed.

Lemma strip_replace k old v o : map_get k o = Some old → strip v = strip old → strip_map (map_insert k v o) = strip_map o.
Proof.
  intros Hg Hv. induction o as [|[k' x] o IH]; cbn [map_get map_insert] in *; [done|].
  case_decide as Hk; [injection Hg as ->; subst; by rewrite !strip_cons, Hv|]. by rewrite !strip_cons, IH.
Qed.

Lemma strip_edit_field edit adding field fields fields' : edit_field edit adding field fields = Some fields' →
  map strip fields' = map strip fields.
Proof.
  revert fields'; induction fields as [|f fields IH]; intros fields'; cbn [edit_field]; [done|]. case_decide.
  - destruct f; try done. intros [= <-]. cbn [map]. f_equal. rewrite !strip_object. f_equal. apply strip_edit_tags.
  - destruct (edit_field edit adding field fields) as [l|]; [|done]. intros [= <-]. cbn [map]. f_equal. by apply IH.
Qed.

Lemma strip_edit_here edit adding o full o' : edit_here edit adding o full = Some o' → strip_map o' = strip_map o.
Proof.
  unfold edit_here. destruct (te_record edit).
  - case_match; [|done]. intros [= <-]. apply strip_edit_tags.
  - destruct (match strip_prefix (full +:+ ".") (te_path edit) with Some f => Some f | None => _ end) as [field|]; [|done]. cbn [mbind option_bind].
    destruct (map_get "fields" o) as [[]|] eqn:Ef; try done. cbn [mbind option_bind as_array].
    destruct (edit_field edit adding field l) as [l'|] eqn:El; [|done]. intros [= <-].
    apply (strip_replace _ _ _ _ Ef). cbn [strip]. f_equal. by eapply strip_edit_field.
Qed.

Lemma strip_avro_edit edit adding v : ∀ space v', avro_edit edit adding v space = Some v' → strip v' = strip v.
Proof.
  induction v as [v Hv|l IH|o IH] using value_nested_ind; intros space v'; cbn [avro_edit]; [by destruct v|..].
  - intros (l' & Hl & ->)%fmap_Some. cbn [strip]. f_equal. revert l' Hl.
    induction IH as [|x l Hx _ IHl]; intros l' Hl; [done|]. cbn in Hl. destruct (avro_edit edit adding x space) as [x'|] eqn:Ex.
    + injection Hl as <-. cbn [map]. f_equal. by eapply Hx.
    + apply fmap_Some in Hl as (l0 & Hl0 & ->). cbn [map]. f_equal. by apply IHl.
  - destruct (full_name o space ≫= edit_here edit adding o) as [o'|] eqn:Eh.
    + intros [= <-]. rewrite !strip_object. f_equal. destruct (full_name o space) as [full|]; [|done]. by eapply strip_edit_here.
    + intros (l' & Hl & ->)%fmap_Some. rewrite !strip_object. f_equal. clear Eh. revert l' Hl. generalize (full_name o space) as full.
      intros full. set (inner := match full ≫= rsplit_once_char "." with Some (ns, _) => Some ns | None => space end). clearbody inner.
      induction IH as [|[k x] o Hx _ IHo]; intros l' Hl; [done|]. cbn in Hl. destruct (_ || _).
      * apply fmap_Some in Hl as (l0 & Hl0 & ->). rewrite !strip_cons. by rewrite (IHo l0 Hl0).
      * destruct (avro_edit edit adding x inner) as [x'|] eqn:Ex.
        -- injection Hl as <-. rewrite !strip_cons. cbn in Hx. by rewrite (Hx inner x' Ex).
        -- apply fmap_Some in Hl as (l0 & Hl0 & ->). rewrite !strip_cons. by rewrite (IHo l0 Hl0).
Qed.

Lemma strip_json_edit edit adding segments v v' : json_edit edit adding segments v = Some v' → strip v' = strip v.
Proof.
  revert v v'. induction segments as [segments IH] using (induction_ltof1 _ (@length string)). unfold ltof in IH. intros v v'.
  destruct segments as [|head [|property rest]]; destruct v as [| | | | |o]; cbn [json_edit]; try done.
  - case_decide; [|done]. intros [= <-]. rewrite !strip_object. f_equal. apply strip_edit_tags.
  - case_decide; [|done]. destruct (map_get "properties" o) as [[| | | | |props]|] eqn:Ep; try done. cbn [mbind option_bind as_object].
    destruct (map_get property props) as [next|] eqn:En; [|done]. cbn [mbind option_bind].
    assert (∀ next', strip next' = strip next → strip (VObject (map_insert "properties" (VObject (map_insert property next' props)) o)) = strip (VObject o)) as Hset.
    { intros next' Hn. rewrite !strip_object. f_equal. apply (strip_replace _ _ _ _ Ep). rewrite !strip_object. f_equal. by eapply strip_replace. }
    destruct rest as [|x rest].
    + destruct next; try done. intros [= <-]. apply Hset. rewrite !strip_object. f_equal. apply strip_edit_tags.
    + destruct (json_edit edit adding (x :: rest) next) as [next'|] eqn:Ex; [|done]. intros [= <-]. apply Hset. apply (IH (x :: rest)); [cbn; lia|done].
Qed.

Lemma strip_edit_all one edits v v' : (∀ e adding v v', one e adding v = Some v' → strip v' = strip v) →
  edit_all one edits v = Ok v' → strip v' = strip v.
Proof.
  intros Hone. revert v; induction edits as [|[e adding] edits IH]; intros v; cbn [edit_all]; [by intros [= ->]|].
  destruct (one e adding v) as [v1|] eqn:E; [|done]. cbn [ok_or mbind result_bind]. intros ->%IH. by eapply Hone.
Qed.

Lemma elem_of_add_new current t x : x ∈ add_new current t ↔ x ∈ current ∨ x = t.
Proof. unfold add_new. case_bool_decide; [naive_solver|]. rewrite elem_of_app, list_elem_of_singleton. done. Qed.

Lemma elem_of_edited current tags adding x : x ∈ edited_tags current tags adding ↔
  if adding then x ∈ current ∨ x ∈ tags else x ∈ current ∧ x ∉ tags.
Proof.
  unfold edited_tags. destruct adding; [|rewrite list_elem_of_filter; tauto].
  revert current; induction tags as [|t tags IH]; intros current; cbn [foldl]; [set_solver|].
  rewrite IH, elem_of_add_new, elem_of_cons. tauto.
Qed.

Lemma tags_of_inserted l o : tags_of (map_insert TAGS_KEY (VArray (VString <$> l)) o) = l.
Proof.
  unfold tags_of. assert (map_get TAGS_KEY (map_insert TAGS_KEY (VArray (VString <$> l)) o) = Some (VArray (VString <$> l))) as ->.
  { induction o as [|[k x] o IH]; cbn [map_insert map_get]; [done|]. case_decide; [done|]. cbn [map_get]. by rewrite decide_False. }
  cbn. induction l as [|x l IH]; [done|]. cbn. by f_equal.
Qed.

Lemma tags_of_removed o : tags_of (map_shift_remove TAGS_KEY o) = [].
Proof.
  unfold tags_of. assert (map_get TAGS_KEY (map_shift_remove TAGS_KEY o) = None) as ->; [|done].
  induction o as [|[k x] o IH]; [done|]. unfold map_shift_remove. rewrite filter_cons. cbn [fst].
  case_decide; [|exact IH]. cbn [map_get]. rewrite decide_False by done. exact IH.
Qed.

(** * Theorems *)

(** Tagging a node adds exactly the tags it is given (or removes exactly those):
    the node's tags afterwards are its own with the change made. *)
Theorem edit_tags_exact o tags adding x : x ∈ tags_of (edit_tags o tags adding) ↔
  if adding then x ∈ tags_of o ∨ x ∈ tags else x ∈ tags_of o ∧ x ∉ tags.
Proof.
  rewrite <-elem_of_edited. unfold edit_tags. case_decide as E; [rewrite E, tags_of_removed|rewrite tags_of_inserted]; done.
Qed.

(** (C35) A tag request changes nothing of an Avro or JSON schema but its tags: the
    text that is registered prints a document which, with every
    [confluent:tags] taken out, is the stored one with its own taken out.
    (Protobuf texts are edited elsewhere, by [ProtoEdits], and are not claimed:
    a tag with a quotation mark breaks them.) *)
Theorem tagging_changes_only_tags json_parse json_print proto ty text v add remove text' :
  ty ≠ Protobuf → json_parse text = Ok v → apply json_parse json_print proto ty text add remove = Ok text' →
  ∃ v', json_print v' = Ok text' ∧ strip v' = strip v.
Proof.
  intros Hty Hp. unfold apply. destruct ty; [| |done]; rewrite Hp; cbn [mbind result_bind].
  all: match goal with |- context [edit_all ?one ?l ?u] => destruct (edit_all one l u) as [v'|] eqn:E; [|done] end; cbn [mbind result_bind];
    intros Hw; exists v'; split; [done|]; eapply strip_edit_all; [|exact E]; intros e adding u u'.
  - apply strip_avro_edit.
  - apply strip_json_edit.
Qed.

(** A record and one of its fields, tagged. *)
Definition user_record : Value := VObject [("type", VString "record"); ("name", VString "User"); ("namespace", VString "com.x");
  ("fields", VArray [VObject [("name", VString "email"); ("type", VString "string")]])].
Definition tagged_record : Value := VObject [("type", VString "record"); ("name", VString "User"); ("namespace", VString "com.x");
  ("fields", VArray [VObject [("name", VString "email"); ("type", VString "string"); (TAGS_KEY, VArray [VString "PII"])]])].
Definition toy_parse (s : string) : result string Value := if decide (s = "tagged") then Ok tagged_record else Ok user_record.
Definition toy_print (v : Value) : result string string := if decide (v = tagged_record) then Ok "tagged" else Ok "plain".

Lemma tagging_changes_only_tags_witness :
  apply toy_parse toy_print (λ _ _ _, Err "") Avro "plain" [mkTagEdit "com.x.User.email" false ["PII"]] [] = Ok "tagged" ∧
  ∃ v', toy_print v' = Ok "tagged" ∧ strip v' = strip user_record.
Proof.
  assert (apply toy_parse toy_print (λ _ _ _, Err "") Avro "plain" [mkTagEdit "com.x.User.email" false ["PII"]] [] = Ok "tagged") as E
    by (vm_compute; reflexivity).
  split; [exact E|]. apply (tagging_changes_only_tags toy_parse toy_print (λ _ _ _, Err "") Avro "plain" user_record
    [mkTagEdit "com.x.User.email" false ["PII"]] [] "tagged"); [discriminate|reflexivity|exact E].
Defined.
