(* ===== verification/Matching.v ===== *)
(** The bipartite matching of combined JSON schemas ([max_matching] of
    schema/json.rs): augmenting paths, found by a depth-first search that marks
    the right vertices it has seen. *)
From S2P Require Import Prelude.

Open Scope nat_scope.

Section matching.
Context (edges : list (list nat)).

(** The edges of a left vertex in turn: the marks and the owners of the right
    vertices; [None] when the fuel is used up or an index is out of range. *)
Fixpoint visit (rec : nat → list bool → list (option nat) → option (bool * list bool * list (option nat)))
    (l : nat) (rs : list nat) (seen : list bool) (owner : list (option nat)) : option (bool * list bool * list (option nat)) :=
  match rs with
  | [] => Some (false, seen, owner)
  | r :: rs =>
      mark ← seen !! r;
      if mark : bool then visit rec l rs seen owner else
      let seen := <[r := true]> seen in
      own ← owner !! r;
      match own with
      | None => Some (true, seen, <[r := Some l]> owner)
      | Some o =>
          '(found, seen, owner) ← rec o seen owner;
          if found : bool then Some (true, seen, <[r := Some l]> owner) else visit rec l rs seen owner
      end
  end.

Fixpoint augment (fuel : nat) (l : nat) (seen : list bool) (owner : list (option nat)) : option (bool * list bool * list (option nat)) :=
  match fuel with
  | 0 => None
  | S fuel => rs ← edges !! l; visit (augment fuel) l rs seen owner
  end.

(** The left vertices in turn, each with fresh marks; the number that found a partner. *)
Fixpoint match_all (fuel right : nat) (ls : list nat) (owner : list (option nat)) : option (nat * list (option nat)) :=
  match ls with
  | [] => Some (0, owner)
  | l :: ls =>
      '(found, _, owner) ← augment fuel l (replicate right false) owner;
      '(n, owner) ← match_all fuel right ls owner;
      Some ((if found : bool then S n else n), owner)
  end.

(** A path visits each right vertex once, so it is at most [right + 1] long. *)
Definition max_matching (right : nat) : option nat :=
  fst <$> match_all (S right) right (seq 0 (length edges)) (replicate right None).

(** * What a matching is *)

Definition edge (l r : nat) : Prop := ∃ rs, edges !! l = Some rs ∧ r ∈ rs.

(** Edges no two of which share an end. *)
Definition matching (m : list (nat * nat)) : Prop :=
  NoDup m.*1 ∧ NoDup m.*2 ∧ Forall (λ p, edge p.1 p.2) m.

(** * Lemmas *)

Definition owns (owner : list (option nat)) (r l : nat) : Prop := owner !! r = Some (Some l).
Definition marked (seen : list bool) (r : nat) : Prop := seen !! r = Some true.

(** Every edge ends at a right vertex. *)
Definition in_range (right : nat) : Prop := ∀ l r, edge l r → r < right.

(** Each left vertex owns one right vertex at most, along an edge. *)
Definition proper (owner : list (option nat)) : Prop :=
  (∀ r1 r2 l, owns owner r1 l → owns owner r2 l → r1 = r2) ∧ (∀ r l, owns owner r l → edge l r).

(** Dead ends: owned vertices whose owners have edges to dead ends only. *)
Definition closed (owner : list (option nat)) (C : nat → Prop) : Prop :=
  ∀ r, C r → ∃ o, owns owner r o ∧ ∀ r', edge o r' → C r'.

(** A search that found nothing: it changed no owner, and what it marked is a dead end. *)
Definition failed (l : nat) (seen seen' : list bool) (owner owner' : list (option nat)) : Prop :=
  owner' = owner ∧ (∀ r, edge l r → marked seen' r) ∧
  ∀ r, marked seen' r → ¬ marked seen r → ∃ o, owns owner r o ∧ ∀ r', edge o r' → marked seen' r'.

(** A search that found a path: [l] owns a vertex that was unmarked, the other
    owners still own one, and what was marked is as it was. *)
Definition succeeded (l : nat) (seen : list bool) (owner owner' : list (option nat)) : Prop :=
  length owner' = length owner ∧
  (∀ r, marked seen r → owner' !! r = owner !! r) ∧
  (∃ r, ¬ marked seen r ∧ owns owner' r l ∧ edge l r) ∧
  (∀ r x, owns owner' r x → ¬ marked seen r → x = l ∨ ∃ r', ¬ marked seen r' ∧ owns owner r' x) ∧
  (∀ r x, owns owner r x → ¬ marked seen r → ∃ r', ¬ marked seen r' ∧ owns owner' r' x) ∧
  (∀ r1 r2 x, ¬ marked seen r1 → ¬ marked seen r2 → owns owner' r1 x → owns owner' r2 x → r1 = r2) ∧
  (∀ r x, owns owner' r x → edge x r).

Definition unmarked (seen : list bool) : nat := length (filter (λ b, b = false) seen).

Lemma unmarked_le seen : unmarked seen ≤ length seen.
Proof. apply length_filter. Qed.

Lemma unmarked_insert seen r : seen !! r = Some false → unmarked (<[r := true]> seen) < unmarked seen.
Proof.
  unfold unmarked. revert r; induction seen as [|b seen IH]; intros [|r] Hr; try done; cbn in Hr.
  - injection Hr as ->. change (<[0 := true]> (false :: seen)) with (true :: seen). rewrite !filter_cons. repeat (case_decide; try done). cbn [length]. lia.
  - specialize (IH r Hr). change (<[S r := true]> (b :: seen)) with (b :: <[r := true]> seen). rewrite !filter_cons. case_decide; cbn [length]; lia.
Qed.

Lemma unmarked_mono seen seen' : length seen = length seen' → (∀ r, marked seen r → marked seen' r) → unmarked seen' ≤ unmarked seen.
Proof.
  unfold unmarked. revert seen'; induction seen as [|b seen IH]; intros [|b' seen'] Hl Hm; try done.
  assert (length (filter (λ b, b = false) seen') ≤ length (filter (λ b, b = false) seen)) as Hle.
  { apply IH; [by injection Hl|]. intros r Hr. apply (Hm (S r) Hr). }
  rewrite !filter_cons. destruct b, b'; repeat (case_decide; try done); cbn [length]; try lia. by specialize (Hm 0 eq_refl).
Qed.

Lemma marked_insert seen r r' : r < length seen → marked (<[r := true]> seen) r' ↔ r' = r ∨ marked seen r'.
Proof.
  intros Hr. unfold marked. destruct (decide (r' = r)) as [-> |Hne].
  - rewrite list_lookup_insert_eq by done. naive_solver.
  - rewrite list_lookup_insert_ne by done. naive_solver.
Qed.

Lemma owns_insert owner r l r' x : r < length owner → owns (<[r := Some l]> owner) r' x ↔ (r' = r ∧ x = l) ∨ (r' ≠ r ∧ owns owner r' x).
Proof.
  intros Hr. unfold owns. destruct (decide (r' = r)) as [-> |Hne].
  - rewrite list_lookup_insert_eq by done. naive_solver.
  - rewrite list_lookup_insert_ne by done. naive_solver.
Qed.

(** What one search does. *)
Definition found_spec (right l : nat) (seen : list bool) (owner : list (option nat)) (res : option (bool * list bool * list (option nat))) : Prop :=
  ∃ found seen' owner', res = Some (found, seen', owner') ∧ length seen' = right ∧ (∀ r, marked seen r → marked seen' r) ∧
    (if found : bool then succeeded l seen owner owner' else failed l seen seen' owner owner') ∧
    ∀ C, closed owner C → (found = true → ∃ r, edge l r ∧ ¬ C r) ∧ ∀ r, C r → owner' !! r = owner !! r.

(** The searched vertex owns marked vertices only. *)
Definition searchable (right l : nat) (seen : list bool) (owner : list (option nat)) : Prop :=
  length seen = right ∧ length owner = right ∧ proper owner ∧ l < length edges ∧ ∀ r, owns owner r l → marked seen r.

Lemma found_free right l seen owner r : searchable right l seen owner → edge l r → seen !! r = Some false → owner !! r = Some None →
  found_spec right l seen owner (Some (true, <[r := true]> seen, <[r := Some l]> owner)).
Proof.
  intros (Hs & Ho & [Hinj Hedge] & Hl & Hown) He Hseen Hfree. assert (r < right) as Hr by (rewrite <-Hs; by eapply lookup_lt_Some).
  assert (¬ marked seen r) as Hnm by (unfold marked; by rewrite Hseen). eexists _, _, _; split; [done|].
  split; [by rewrite length_insert|]. split; [intros r' H; apply marked_insert; [lia|by right]|].
  assert (∀ r' x, owns (<[r := Some l]> owner) r' x ↔ (r' = r ∧ x = l) ∨ (r' ≠ r ∧ owns owner r' x)) as Hins by (intros; apply owns_insert; lia).
  split.
  - unfold succeeded. setoid_rewrite Hins. split_and!.
    + by rewrite length_insert.
    + intros r' Hm. apply list_lookup_insert_ne. by intros ->.
    + exists r. naive_solver.
    + intros r' x [[-> ->]|[Hne H]] Hm; [by left|right; eauto].
    + intros r' x H Hm. exists r'. split; [done|]. right. split; [|done]. intros ->. unfold owns in H. congruence.
    + intros r1 r2 x H1 H2 [[-> ->]|[? Ha]] [[-> Hx]|[? Hb]]; [done| | |by eapply Hinj]; [|subst]; exfalso; eauto.
    + intros r' x [[-> ->]|[_ H]]; eauto.
  - intros C HC. assert (¬ C r) as Hr'. { intros (o & H & _)%HC. unfold owns in H. congruence. }
    split; [eauto|]. intros r' H. apply list_lookup_insert_ne. by intros ->.
Qed.

Lemma found_through right l seen owner r o seen' owner' : searchable right l seen owner → edge l r → seen !! r = Some false → owns owner r o →
  found_spec right o (<[r := true]> seen) owner (Some (true, seen', owner')) →
  found_spec right l seen owner (Some (true, seen', <[r := Some l]> owner')).
Proof.
  intros (Hs & Ho & [Hinj Hedge] & Hl & Hown) He Hseen Hro (? & ? & ? & [= <- <- <-] & Hs' & Hmono & (Hlen & Hsame & (r1 & Hr1 & Hr1o & _) & Hold & Hkept & Hinj' & Hedge') & HC).
  assert (r < right) as Hr by (rewrite <-Hs; by eapply lookup_lt_Some).
  assert (¬ marked seen r) as Hnm by (unfold marked; by rewrite Hseen).
  assert (∀ r', marked (<[r := true]> seen) r' ↔ r' = r ∨ marked seen r') as Hmk by (intros; apply marked_insert; lia).
  assert (∀ r' x, owns (<[r := Some l]> owner') r' x ↔ (r' = r ∧ x = l) ∨ (r' ≠ r ∧ owns owner' r' x)) as Hins by (intros; apply owns_insert; lia).
  assert (l ≠ o) as Hlo by (intros ->; eauto). setoid_rewrite Hmk in Hsame. setoid_rewrite Hmk in Hr1. setoid_rewrite Hmk in Hold.
  setoid_rewrite Hmk in Hkept. setoid_rewrite Hmk in Hinj'. setoid_rewrite Hmk in Hmono.
  assert (∀ r2, r2 ≠ r → ¬ marked seen r2 → ¬ owns owner' r2 l) as Hfresh.
  { intros r2 Hne Hm2 H2. destruct (Hold r2 l H2) as [->|(r3 & Hr3 & H3)]; [tauto|done|]. apply Hown in H3. tauto. }
  eexists _, _, _; split; [done|]. split; [done|]. split; [eauto|]. split.
  - unfold succeeded. setoid_rewrite Hins. split_and!.
    + by rewrite length_insert.
    + intros r' Hm. rewrite list_lookup_insert_ne by (by intros ->). apply Hsame. tauto.
    + exists r. tauto.
    + intros r' x [[-> ->]|[Hne H]] Hm; [by left|right]. destruct (Hold r' x H) as [->|(r3 & Hr3 & H3)]; [tauto|exists r; tauto|exists r3; tauto].
    + intros r' x H Hm. destruct (decide (r' = r)) as [-> |Hne].
      * assert (x = o) as -> by (unfold owns in *; congruence). exists r1. split; [tauto|]. right. split; [intros ->; tauto|done].
      * destruct (Hkept r' x H) as (r3 & Hr3 & H3); [tauto|]. exists r3. split; [tauto|]. right. split; [intros ->; tauto|done].
    + intros r2 r3 x H2 H3 [[-> ->]|[? Ha]] [[-> Hx]|[? Hb]]; [done|by edestruct Hfresh|subst; by edestruct Hfresh|]. eapply Hinj'; eauto; tauto.
    + intros r' x [[-> ->]|[_ H]]; eauto.
  - intros C HCl. destruct (HC C HCl) as [HC1 HC2]. assert (¬ C r) as HCr.
    { intros HCr. destruct (HCl r HCr) as (o' & Ho' & Hall). assert (o' = o) as -> by (unfold owns in *; congruence).
      destruct HC1 as (r2 & H2 & Hn2); [done|]. eauto. }
    split; [eauto|]. intros r' H. rewrite list_lookup_insert_ne by (by intros ->). by apply HC2.
Qed.

(** After a search from [o], the owner of [r], that found nothing, the search goes on. *)
Lemma found_after right l seen owner r o seen1 res : searchable right l seen owner → seen !! r = Some false → owns owner r o →
  found_spec right o (<[r := true]> seen) owner (Some (false, seen1, owner)) →
  found_spec right l seen1 owner res → found_spec right l seen owner res.
Proof.
  intros (Hs & Ho & [Hinj Hedge] & Hl & Hown) Hseen Hro (? & ? & ? & [= <- <- <-] & Hs' & Hmono & (_ & Hom & Hdead) & _)
    (found & seen' & owner' & -> & Hs2 & Hmono2 & Hres & HC).
  assert (r < right) as Hr by (rewrite <-Hs; by eapply lookup_lt_Some).
  assert (∀ r', marked (<[r := true]> seen) r' ↔ r' = r ∨ marked seen r') as Hmk by (intros; apply marked_insert; lia).
  setoid_rewrite Hmk in Hmono. setoid_rewrite Hmk in Hdead.
  exists found, seen', owner'. split; [done|]. split; [done|]. split; [eauto|]. split; [|done]. destruct found.
  - destruct Hres as (Hlen & Hsame & (r1 & Hr1 & Hr1o & Hr1e) & Hold & Hkept & Hinj' & Hedge').
    assert (∀ r', marked seen1 r' ∨ ¬ marked seen1 r') as Hdec. { intros r'. unfold marked. destruct (seen1 !! r') as [[]|]; [by left|by right..]. }
    assert (∀ r' x, marked seen1 r' → owns owner' r' x ↔ owns owner r' x) as Heq by (intros r' x Hm; unfold owns; by rewrite Hsame).
    split_and!; try done.
    + intros r' Hm. apply Hsame. eauto.
    + exists r1. split_and!; try done. eauto.
    + intros r' x H Hm. destruct (Hdec r') as [Hm1|Hm1]; [right; exists r'; split; [done|]; by apply Heq|].
      destruct (Hold r' x H Hm1) as [->|(r3 & Hr3 & H3)]; [by left|right; exists r3; split; [eauto|done]].
    + intros r' x H Hm. destruct (Hdec r') as [Hm1|Hm1]; [exists r'; split; [done|]; by apply Heq|].
      destruct (Hkept r' x H Hm1) as (r3 & Hr3 & H3). exists r3. split; [eauto|done].
    + assert (∀ r1 r2 x, marked seen1 r1 → ¬ marked seen1 r2 → ¬ marked seen r1 → owns owner' r1 x → owns owner' r2 x → r1 = r2) as Hmix.
      { intros r2 r3 x Hm2 Hm3 Hn H2%Heq H3; [|done]. destruct (Hold r3 x H3 Hm3) as [->|(r4 & Hr4 & H4)]; [exfalso; eauto|].
        exfalso. apply Hr4. by rewrite (Hinj r4 r2 x H4 H2). }
      intros r2 r3 x Hn2 Hn3 H2 H3. destruct (Hdec r2) as [Hm2|Hm2], (Hdec r3) as [Hm3|Hm3]; [|by eapply Hmix|symmetry; by eapply Hmix|by eapply Hinj'].
      apply Heq in H2, H3; [|done..]. by eapply Hinj.
  - destruct Hres as (-> & Hl' & Hdead'). split_and!; [done..|]. intros r' Hm Hn.
    assert (marked seen1 r' ∨ ¬ marked seen1 r') as [Hm1|Hm1]. { unfold marked. destruct (seen1 !! r') as [[]|]; [by left|by right..]. }
    + destruct (decide (r' = r)) as [-> |Hne]; [exists o; eauto|]. destruct (Hdead r' Hm1) as (o' & Ho' & Hall); [tauto|]. exists o'. eauto.
    + by apply Hdead'.
Qed.

Lemma visit_spec right n rec l rs seen owner : in_range right →
  (∀ o seen owner, searchable right o seen owner → unmarked seen < n → found_spec right o seen owner (rec o seen owner)) →
  searchable right l seen owner → unmarked seen ≤ n → (∀ r, r ∈ rs → edge l r) → (∀ r, edge l r → r ∈ rs ∨ marked seen r) →
  found_spec right l seen owner (visit rec l rs seen owner).
Proof.
  intros Hrange Hrec. revert seen. induction rs as [|r rs IH]; intros seen Hok Hn Hrs Hall; cbn [visit].
  - exists false, seen, owner. split_and!; [done|apply Hok|done| |by intros; split].
    split_and!; [done| |done]. intros r He. by destruct (Hall r He) as [?%not_elem_of_nil|].
  - assert (edge l r) as He by (apply Hrs; by left). pose proof (Hrange _ _ He) as Hr. pose proof Hok as (Hs & Ho & Hp & Hl & Hown).
    destruct (lookup_lt_is_Some_2 seen r) as [mark Hmark]; [lia|]. rewrite Hmark. cbn [mbind option_bind].
    destruct mark; [apply IH; [done..| |]|].
    { intros r' H. apply Hrs. by right. }
    { intros r' H. destruct (Hall r' H) as [[->|]%elem_of_cons|]; [by right|by left|by right]. }
    destruct (lookup_lt_is_Some_2 owner r) as [own Hro]; [lia|]. rewrite Hro. cbn [mbind option_bind].
    destruct own as [o|]; [|by apply found_free].
    assert (searchable right o (<[r := true]> seen) owner) as Hok1.
    { destruct Hp as [Hinj Hedge]. split_and!; [by rewrite length_insert|done|done| |].
      - destruct (Hedge r o Hro) as (rs' & H & _). by eapply lookup_lt_Some.
      - intros r' H. apply marked_insert; [lia|]. left. by eapply Hinj. }
    pose proof (unmarked_insert _ _ Hmark). pose proof (Hrec o _ _ Hok1 ltac:(lia)) as Hspec.
    pose proof Hspec as (found & seen1 & owner1 & E & Hs1 & Hmono & Hres & _). rewrite E in *. cbn [mbind option_bind].
    destruct found; [by eapply found_through|]. destruct Hres as (-> & Hres).
    assert (∀ r', marked seen r' → marked seen1 r') as Hmono1. { intros r' H'. apply Hmono, marked_insert; [lia|by right]. }
    eapply found_after; [done..|]. apply IH.
    + split_and!; try done. intros r' H'. eauto.
    + assert (unmarked seen1 ≤ unmarked seen) by (apply unmarked_mono; [lia|done]). lia.
    + intros r' H'. apply Hrs. by right.
    + intros r' H'. destruct (Hall r' H') as [[->|]%elem_of_cons|]; [|by left|right; eauto].
      right. apply Hmono, marked_insert; [lia|by left].
Qed.

Lemma augment_spec right fuel l seen owner : in_range right → searchable right l seen owner → unmarked seen < fuel →
  found_spec right l seen owner (augment fuel l seen owner).
Proof.
  intros Hrange. revert l seen owner. induction fuel as [|fuel IH]; intros l seen owner Hok Hf; [lia|]. cbn [augment].
  destruct (lookup_lt_is_Some_2 edges l) as [rs Hrs]; [apply Hok|]. rewrite Hrs. cbn [mbind option_bind].
  apply (visit_spec _ fuel); [done|exact IH|done|lia| |].
  - intros r H. by exists rs.
  - intros r (rs' & H & Hr). left. congruence.
Qed.

(** Between two searches: the vertices that found a partner, and the dead ends
    of those that did not. *)
Record progress (right : nat) (tried won : list nat) (owner : list (option nat)) (C : nat → Prop) : Prop := {
  pg_length : length owner = right;
  pg_proper : proper owner;
  pg_dec r : C r ∨ ¬ C r;
  pg_closed : closed owner C;
  pg_NoDup : NoDup won;
  pg_won x : x ∈ won ↔ ∃ r, owns owner r x;
  pg_tried l : l ∈ tried → l ∈ won ∨ ∀ r, edge l r → C r;
  pg_subset : won ⊆ tried;
}.

Lemma replicate_unmarked right r : ¬ marked (replicate right false) r.
Proof. unfold marked. by intros [? _]%lookup_replicate. Qed.

Lemma search_step right tried won owner C l : in_range right → progress right tried won owner C → l ∉ tried → l < length edges →
  ∃ found seen' owner' C', augment (S right) l (replicate right false) owner = Some (found, seen', owner') ∧
    progress right (tried ++ [l]) (if found : bool then won ++ [l] else won) owner' C'.
Proof.
  intros Hrange [Hlen Hp Hdec Hcl Hnd Hwon Htr Hsub] Hl Hlt.
  destruct (augment_spec right (S right) l (replicate right false) owner Hrange) as (found & seen' & owner' & E & Hs & _ & Hres & HC).
  { split_and!; [apply length_replicate|done..|]. intros r H. exfalso. apply Hl, Hsub, Hwon. eauto. }
  { pose proof (unmarked_le (replicate right false)) as H. rewrite length_replicate in H. lia. }
  pose proof (replicate_unmarked right) as Hno. destruct found.
  - destruct Hres as (Hlen' & _ & (r1 & _ & Hr1 & _) & Hold & Hkept & Hinj & Hedge). destruct (HC C Hcl) as [_ Hkeep].
    exists true, seen', owner', C. split; [done|]. assert (∀ x, x ∈ won ++ [l] ↔ ∃ r, owns owner' r x) as Hwon'.
    { intros x. rewrite elem_of_app, list_elem_of_singleton, Hwon. split.
      - intros [(r & H)| ->]; [|eauto]. destruct (Hkept r x H (Hno r)) as (r' & _ & H'). eauto.
      - intros (r & H). destruct (Hold r x H (Hno r)) as [->|(r' & _ & H')]; eauto. }
    split; [lia|split; eauto|done|..].
    + intros r Hr. destruct (Hcl r Hr) as (o & Ho & Hall). exists o. split; [|done]. unfold owns in *. by rewrite Hkeep.
    + apply NoDup_app. split_and!; [done| |apply NoDup_singleton]. intros x Hx ->%list_elem_of_singleton. by apply Hl, Hsub.
    + done.
    + intros l' [H| ->%list_elem_of_singleton]%elem_of_app; [|left; set_solver]. destruct (Htr l' H); [left; set_solver|by right].
    + set_solver.
  - destruct Hres as (-> & Hedges & Hdead). exists false, seen', owner, (λ r, C r ∨ marked seen' r). split; [done|]. split; try done.
    + intros r. destruct (Hdec r) as [|Hn]; [by left; left|]. unfold marked. destruct (seen' !! r) as [[]|]; [by left; right|right; by intros [?|?]..].
    + intros r [Hr|Hr].
      * destruct (Hcl r Hr) as (o & Ho & Hall). exists o. eauto.
      * destruct (Hdead r Hr (Hno r)) as (o & Ho & Hall). exists o. eauto.
    + intros l' [H| ->%list_elem_of_singleton]%elem_of_app; [|right; eauto]. destruct (Htr l' H); [by left|right; eauto].
    + set_solver.
Qed.

Lemma match_all_progress right ls tried won owner C : in_range right → progress right tried won owner C → NoDup (tried ++ ls) → Forall (λ l, l < length edges) ls →
  ∃ n owner' won' C', match_all (S right) right ls owner = Some (n, owner') ∧ progress right (tried ++ ls) won' owner' C' ∧ length won' = length won + n.
Proof.
  intros Hrange. revert tried won owner C. induction ls as [|l ls IH]; intros tried won owner C Hpg Hnd Hlt; cbn [match_all].
  - exists 0, owner, won, C. rewrite app_nil_r. split_and!; [done..|lia].
  - apply Forall_cons in Hlt as [Hl Hlt]. apply NoDup_app in Hnd as (Hnd1 & Hnd2 & Hnd3). apply NoDup_cons in Hnd3 as [Hl2 Hnd3].
    destruct (search_step right tried won owner C l) as (found & seen' & owner1 & C1 & E & Hpg1); [done..| |done|].
    { intros H. apply (Hnd2 l H). by left. }
    destruct (IH (tried ++ [l]) _ owner1 C1 Hpg1) as (n & owner' & won' & C' & E' & Hpg' & Hn).
    { rewrite <-app_assoc. apply NoDup_app. split_and!; [done..|]. by apply NoDup_cons. }
    { done. }
    rewrite E. cbn [mbind option_bind]. rewrite E'. cbn [mbind option_bind]. rewrite <-app_assoc in Hpg'.
    eexists _, owner', won', C'. split_and!; [done..|]. rewrite Hn. destruct found; [rewrite length_app; cbn; lia|done].
Qed.

(** The final owners are a matching of the vertices that won. *)
Lemma progress_matching right tried won owner C : progress right tried won owner C → ∃ m, matching m ∧ length m = length won.
Proof.
  intros [Hlen [Hinj Hedge] _ _ Hnd Hwon _ _].
  assert (∃ m : list (nat * nat), m.*1 = won ∧ Forall (λ p, owns owner p.2 p.1) m) as (m & <- & Hm).
  { assert (∀ x, x ∈ won → ∃ r, owns owner r x) as Hw by (intros x; apply Hwon). clear Hwon Hnd.
    induction won as [|x won IH]; [by exists []|]. destruct IH as (m & <- & Hm); [intros y Hy; apply Hw; by right|].
    destruct (Hw x) as [r Hr]; [by left|]. exists ((x, r) :: m). split; [done|by constructor]. }
  exists m. split; [|by rewrite length_fmap]. split_and!; [done| |].
  - clear Hwon. induction Hm as [|[x r] m Hx Hm IH]; [constructor|]. cbn in *. apply NoDup_cons in Hnd as [Hni Hnd]. apply NoDup_cons. split; [|by apply IH].
    intros ([x' r'] & -> & Hp)%list_elem_of_fmap. apply Hni. apply list_elem_of_fmap. exists (x', r'). split; [|done].
    pose proof (proj1 (Forall_forall _ _) Hm _ Hp) as Hx'. cbn in *. unfold owns in *. congruence.
  - eapply Forall_impl; [exact Hm|]. intros [x r] H. by apply Hedge.
Qed.

(** No matching is larger: each of its edges is charged to a different winner,
    the owner of its right end when that is a dead end, its left end otherwise. *)
Lemma progress_maximal right won owner C m : progress right (seq 0 (length edges)) won owner C → matching m → length m ≤ length won.
Proof.
  intros [Hlen [Hinj Hedge] Hdec Hcl Hnd Hwon Htr _] (Hm1 & Hm2 & Hme).
  assert (∀ l r, edge l r → ∃ x, x ∈ won ∧ ((C r ∧ owns owner r x) ∨ (¬ C r ∧ x = l))) as Hcharge.
  { intros l r He. destruct (Hdec r) as [HCr|HCr].
    - destruct (Hcl r HCr) as (o & Ho & _). exists o. split; [apply Hwon; eauto|by left].
    - exists l. split; [|by right]. destruct (Htr l) as [|Hall]; [|done|by destruct HCr; apply Hall].
      destruct He as (rs & H & _). apply elem_of_seq. apply lookup_lt_Some in H. lia. }
  assert (∃ xs, length xs = length m ∧ NoDup xs ∧ (∀ x, x ∈ xs → x ∈ won ∧ ∃ p, p ∈ m ∧ ((C p.2 ∧ owns owner p.2 x) ∨ (¬ C p.2 ∧ x = p.1))))
    as (xs & <- & Hxs & Hin); [|by apply submseteq_length, NoDup_submseteq; [|intros x [? _]%Hin]].
  induction Hme as [|[l r] m He Hme IH]; [by exists []; split_and!; [|constructor|intros ? ?%not_elem_of_nil]|]. cbn in Hm1, Hm2.
  apply NoDup_cons in Hm1 as [Hl Hm1]. apply NoDup_cons in Hm2 as [Hr Hm2]. destruct (IH Hm1 Hm2) as (xs & Hxl & Hxs & Hin).
  destruct (Hcharge l r He) as (x & Hx & Hc). exists (x :: xs). split_and!; [cbn; by rewrite Hxl| |].
  - apply NoDup_cons. split; [|done]. intros Hxx. destruct (Hin x Hxx) as (_ & [l' r'] & Hp & Hc'). cbn in Hc'.
    assert (l' ≠ l) as Hl' by (intros ->; apply Hl, list_elem_of_fmap; by exists (l, r')).
    assert (r' ≠ r) as Hr' by (intros ->; apply Hr, list_elem_of_fmap; by exists (l', r)).
    pose proof (proj1 (Forall_forall _ _) Hme _ Hp) as He'. cbn in He'.
    destruct Hc as [[HC Ho]|[HC ->]], Hc' as [[HC' Ho']|[HC' Hx']]; subst; try done.
    + apply Hr'. by eapply Hinj.
    + destruct (Hcl r HC) as (o & Ho2 & Hall). assert (o = l') as -> by (unfold owns in *; congruence). by apply HC', Hall.
    + destruct (Hcl r' HC') as (o & Ho2 & Hall). assert (o = l) as -> by (unfold owns in *; congruence). by apply HC, Hall.
  - intros y [->|Hy]%elem_of_cons; [split; [done|]; exists (l, r); split; [by left|done]|].
    destruct (Hin y Hy) as (? & p & Hp & Hc'). split; [done|]. exists p. split; [by right|done].
Qed.

Lemma progress_start right : progress right [] [] (replicate right None) (λ _, False).
Proof.
  assert (∀ r x, ¬ owns (replicate right None) r x) as Hno by (unfold owns; intros r x [? _]%lookup_replicate; congruence).
  split; [apply length_replicate|split; intros; exfalso; eapply Hno; eassumption|intros ?; right; by intros []|by intros r []|constructor| | |done].
  - intros x. split; [intros ?%not_elem_of_nil; done|intros [r H]; by edestruct Hno].
  - by intros l ?%not_elem_of_nil.
Qed.

Lemma max_matching_spec right : in_range right →
  ∃ n, max_matching right = Some n ∧ (∃ m, matching m ∧ length m = n) ∧ ∀ m, matching m → length m ≤ n.
Proof.
  intros Hrange. destruct (match_all_progress right (seq 0 (length edges)) [] [] (replicate right None) (λ _, False) Hrange (progress_start right))
    as (n & owner & won & C & E & Hpg & Hn); [apply NoDup_seq|apply Forall_forall; intros l ?%elem_of_seq; lia|].
  cbn [app length plus] in *. exists n. unfold max_matching. rewrite E. split; [done|]. rewrite <-Hn. split.
  - by eapply progress_matching.
  - intros m. by eapply progress_maximal.
Qed.

(** * Theorem *)

(** (C28) The matching of combined schemas is a maximum one: for every bipartite
    graph the search ends within its bound and touches no vertex out of range,
    some matching has the size it answers, and no matching is larger. *)
Theorem max_matching_exact right : in_range right →
  ∃ n, max_matching right = Some n ∧ (∃ m, matching m ∧ length m = n) ∧ ∀ m, matching m → length m ≤ n.
Proof. apply max_matching_spec. Qed.
End matching.

(** The first two vertices want the same partner first: the second search moves
    the first vertex on. *)
Lemma max_matching_exact_witness : in_range [[0; 1]; [0]; [1]] 2 ∧ max_matching [[0; 1]; [0]; [1]] 2 = Some 2 ∧
  ∀ m, matching [[0; 1]; [0]; [1]] m → length m ≤ 2.
Proof.
  assert (in_range [[0; 1]; [0]; [1]] 2) as Hr.
  { intros [|[|[|l]]] r (rs & Hl & Hr); cbn in Hl; simplify_eq; set_unfold; lia. }
  destruct (max_matching_exact [[0; 1]; [0]; [1]] 2 Hr) as (n & E & _ & Hmax).
  assert (max_matching [[0; 1]; [0]; [1]] 2 = Some 2) as E2 by reflexivity. rewrite E2 in E. injection E as <-. done.
Defined.
