(* ===== verification/Float64.v ===== *)
(** Double-precision floats, as far as JSON Schema bounds use them: what
    [serde_json] reads an integer as ([as_f64]), comparison, and the saturating
    cast to [i64]. A JSON float is never infinite or NaN. *)
From S2P Require Import Prelude SortedVec RustStr Json.

Local Open Scope Z_scope.

Module F64.

(** A finite float: [mantissa * 2 ^ exponent]. *)
Record t := mk { mantissa : Z; exponent : Z }.

(** Sign, biased exponent, fraction. *)
Definition of_bits (bits : Z) : t :=
  let fraction := Z.land bits (2 ^ 52 - 1) in
  let biased := Z.land (Z.shiftr bits 52) 2047 in
  let '(m, e) := if bool_decide (biased = 0) then (fraction, -1074) else (fraction + 2 ^ 52, biased - 1075) in
  mk (if Z.testbit bits 63 then - m else m) e.

(** [n as f64] for 0 ≤ n: the nearest float, ties to even. *)
Definition round (n : Z) : t :=
  let k := Z.log2 n - 52 in
  if bool_decide (k ≤ 0) then mk n 0 else
  let q := Z.shiftr n k in
  let rest := n - Z.shiftl q k in
  let half := 2 ^ (k - 1) in
  let up := bool_decide (half < rest) || (bool_decide (rest = half) && Z.odd q) in
  mk (if up then q + 1 else q) k.
Definition of_int (n : Z) : t :=
  if bool_decide (n < 0) then let f := round (- n) in mk (- mantissa f) (exponent f) else round n.

(** Both values as integers, in units of the smaller exponent. *)
Definition aligned (a b : t) : Z * Z :=
  let e := Z.min (exponent a) (exponent b) in
  (Z.shiftl (mantissa a) (exponent a - e), Z.shiftl (mantissa b) (exponent b - e)).
Definition ltb (a b : t) : bool := let '(x, y) := aligned a b in bool_decide (x < y).
Definition eqb (a b : t) : bool := let '(x, y) := aligned a b in bool_decide (x = y).

(** [f as i64]: towards zero, and to the ends of the range beyond them. *)
Definition to_i64 (a : t) : Z :=
  let n := if bool_decide (0 ≤ exponent a) then Z.shiftl (mantissa a) (exponent a)
           else Z.quot (mantissa a) (2 ^ (- exponent a)) in
  Z.max (- 2 ^ 63) (Z.min n (2 ^ 63 - 1)).

End F64.

Definition number_f64 (n : Number) : F64.t :=
  match n with PosInt n | NegInt n => F64.of_int n | Float bits => F64.of_bits bits end.
Definition as_f64 (v : Value) : option F64.t := match v with VNumber n => Some (number_f64 n) | _ => None end.
Definition as_number (v : Value) : option Number := match v with VNumber n => Some n | _ => None end.

(** [a % b] on [i64]: panics ([None]) for a zero divisor and for [i64::MIN % -1]. *)
Definition i64_rem (a b : Z) : option Z :=
  if bool_decide (b = 0) || bool_decide (a = - 2 ^ 63 ∧ b = -1) then None else Some (Z.rem a b).

(** * Lemmas *)

Lemma f64_eqb_refl a : F64.eqb a a = true.
Proof. unfold F64.eqb, F64.aligned. by apply bool_decide_eq_true_2. Qed.
Lemma f64_ltb_irrefl a : F64.ltb a a = false.
Proof. unfold F64.ltb, F64.aligned. apply bool_decide_eq_false_2. lia. Qed.
Lemma f64_not_less a b : F64.ltb a b = false → F64.ltb b a = false → F64.eqb a b = true.
Proof.
  unfold F64.ltb, F64.eqb, F64.aligned. rewrite (Z.min_comm (F64.exponent b)). rewrite !bool_decide_eq_false, bool_decide_eq_true. lia.
Qed.

(** Integers of at most 53 bits are read exactly, *)
Lemma of_int_exact n : Z.abs n < 2 ^ 53 → F64.of_int n = F64.mk n 0.
Proof.
  intros Hn. assert (∀ k, 0 ≤ k < 2 ^ 53 → F64.round k = F64.mk k 0) as Hr.
  { intros k Hk. unfold F64.round. rewrite bool_decide_eq_true_2; [done|].
    destruct (decide (k = 0)) as [-> |]; [done|]. assert (Z.log2 k < 53) by (apply Z.log2_lt_pow2; lia). lia. }
  unfold F64.of_int. case_bool_decide; rewrite Hr by lia; [|done]. cbn. f_equal. lia.
Qed.

(** and compared exactly. *)
Lemma of_int_ltb a b : Z.abs a < 2 ^ 53 → Z.abs b < 2 ^ 53 → F64.ltb (F64.of_int a) (F64.of_int b) = bool_decide (a < b).
Proof. intros Ha Hb. rewrite !of_int_exact by done. done. Qed.

Example one_and_a_half : F64.to_i64 (F64.of_bits 0x3FF8000000000000) = 1 ∧ F64.ltb (F64.of_int 1) (F64.of_bits 0x3FF8000000000000) = true.
Proof. by vm_compute. Qed.
(** Above them neighbours fall together. *)
Example wide_integers_collapse : F64.eqb (F64.of_int 9007199254740993) (F64.of_int 9007199254740992) = true.
Proof. by vm_compute. Qed.
