(* ===== verification/JsonSchema.v ===== *)
(** JSON Schema documents (schema/json.rs): validation, the sorted form, and the
    model a document is loaded into before two of them are compared. The
    [regex] crate, JSON reading and printing and the iteration order of a
    [HashMap] are an interface. *)
From S2P Require Import Prelude SortedVec RustStr Errors Json Model Context Snapshot Keys SchemaLayer JavaOrder Views Float64.

Open Scope string_scope.
Open Scope nat_scope.
Open Scope list_scope.

(** What the code calls outside itself. *)
Class JsonCrates := {
  json_from_str : string → result string Value;
  json_to_string : Value → result string string;
  (** [Display] of a value. *)
  value_display : Value → string;
  (** [None] when the pattern compiles, the error text otherwise. *)
  regex_error : string → option string;
  regex_is_match : string → string → bool;
  (** The entries of a hash map in its iteration order. *)
  hash_order : list (string * Value) → list (string * Value);
}.

Definition contains_str (p s : string) : bool := bool_decide (is_Some (find_str p s)).
Definition is_string (v : Value) : bool := match v with VString _ => true | _ => false end.
Definition is_boolean (v : Value) : bool := match v with VBool _ => true | _ => false end.
Definition is_number (v : Value) : bool := match v with VNumber _ => true | _ => false end.
Definition is_array (v : Value) : bool := match v with VArray _ => true | _ => false end.
(** [is_i64() || is_u64()]. *)
Definition is_integer (v : Value) : bool := match v with VNumber (Float _) => false | VNumber _ => true | _ => false end.

(** * Places in a document *)

Inductive Step := Key (k : string) | Item (i : nat).
#[export] Instance Step_eq_dec : EqDecision Step.
Proof. solve_decision. Defined.

(** The address of a value: its document (the root, or an entry of the
    references) and the way down from there. *)
Record Place := mkPlace { pl_doc : option string; pl_path : list Step }.
#[export] Instance Place_eq_dec : EqDecision Place.
Proof. solve_decision. Defined.

(** ** [Value::pointer] *)

(** [parse_index] of serde_json. *)
Definition parse_index (s : string) : option nat :=
  if starts_with "+" s || (starts_with "0" s && negb (bool_decide (String.length s = 1))) then None
  else Z.to_nat <$> parse_digits u64_max s.
Fixpoint pointer_tokens (ts : list string) (v : Value) : option (list Step * Value) :=
  match ts with
  | [] => Some ([], v)
  | t :: ts =>
      '(s, x) ← match v with
                | VObject m => x ← map_get t m; Some (Key t, x)
                | VArray l => i ← parse_index t; x ← l !! i; Some (Item i, x)
                | _ => None
                end;
      '(p, y) ← pointer_tokens ts x; Some (s :: p, y)
  end.
Definition pointer (ptr : string) (v : Value) : option (list Step * Value) :=
  if decide (ptr = "") then Some ([], v)
  else if starts_with "/" ptr
  then pointer_tokens ((λ t, replace_str "~0" "~" (replace_str "~1" "/" t)) <$> tail (split_char "/" ptr)) v
  else None.

(** Find a subschema whose [$id] (or draft-4 [id]) ends with the anchor. *)
Definition anchored (anchor : string) (o : Map) : bool :=
  match (match map_get "$id" o with Some v => Some v | None => map_get "id" o end) ≫= as_str with
  | Some id => bool_decide (id = anchor) || ends_with anchor id
  | None => false
  end.
Fixpoint find_anchor (anchor : string) (v : Value) : option (list Step * Value) :=
  match v with
  | VObject o =>
      if anchored anchor o then Some ([], v) else
      (fix go (m : list (string * Value)) : option (list Step * Value) :=
         match m with
         | [] => None
         | (k, x) :: m => match find_anchor anchor x with Some (p, y) => Some (Key k :: p, y) | None => go m end
         end) o
  | VArray a =>
      (fix go (i : nat) (l : list Value) : option (list Step * Value) :=
         match l with
         | [] => None
         | x :: l => match find_anchor anchor x with Some (p, y) => Some (Item i :: p, y) | None => go (S i) l end
         end) 0 a
  | _ => None
  end.

(** ** References *)

(** A reference text at its first [#]. *)
Definition split_ref (r : string) : string * string :=
  match find_char "#" r with Some i => (str_take i r, str_drop (S i) r) | None => (r, "") end.

(** The document a base names: an entry of that name, or one whose name ends it. *)
Definition find_doc (refs : list (string * Value)) (base : string) : option (string * Value) :=
  match map_get base refs with
  | Some v => Some (base, v)
  | None => head (filter (λ e, ends_with e.1 base = true) refs)
  end.

(** What a fragment names in a document. *)
Definition find_fragment (frag : string) (v : Value) : option (list Step * Value) :=
  let frag := replace_str "%22" (str1 (byte 34)) (replace_str "%25" "%" frag) in
  if bool_decide (frag = "") || bool_decide (frag = "/") then Some ([], v)
  else if starts_with "/" frag then pointer frag v
  else find_anchor ("#" +:+ frag) v.

Definition resolve_in (r : string) (doc : option string * Value) (refs : list (string * Value))
    : option ((option string * Value) * (list Step * Value)) :=
  let '(base, frag) := split_ref r in
  target_doc ← (if decide (base = "") then Some doc else '(k, v) ← find_doc refs base; Some (Some k, v));
  target ← find_fragment frag target_doc.2;
  Some (target_doc, target).

(** * Validation *)

Section validator.
Context {crates : JsonCrates}.
Context (refs : list (string * Value)) (draft4 : bool).

Definition TYPES : list string := ["null"; "boolean"; "object"; "array"; "number"; "string"; "integer"].

(** Java regexes the Rust engine cannot compile are still valid. *)
Definition regex_ok (p : string) : bool :=
  match regex_error p with
  | None => true
  | Some m => contains_str "look-around" m || contains_str "backreferences" m
  end.

Definition fail (path why : string) : result string () := Err ("Invalid JSON Schema: " +:+ why +:+ " at " +:+ path).
Definition unless (ok : bool) (path why : string) : result string () := if ok then Ok () else fail path why.

(** Every present keyword of a list satisfies a test. *)
Fixpoint each_keyword (o : Map) (test : Value → bool) (path : string) (why : string → string) (ks : list string) : result string () :=
  match ks with
  | [] => Ok ()
  | k :: ks =>
      _ ← match map_get k o with Some x => unless (test x) path (why k) | None => Ok () end;
      each_keyword o test path why ks
  end.

Definition type_ok (t : Value) : bool :=
  match t with
  | VString s => bool_decide (s ∈ TYPES)
  | VArray a => forallb (λ x, match as_str x with Some s => bool_decide (s ∈ TYPES) | None => false end) a
  | _ => false
  end.
Definition quoted (k : string) : string := "'" +:+ k +:+ "'".

(** The keywords that hold no subschema, in the order they are checked. *)
Definition keywords_ok (o : Map) (path : string) : result string () :=
  _ ← each_keyword o type_ok path (λ k, "invalid type " +:+ value_display (default VNull (map_get k o))) ["type"];
  _ ← each_keyword o is_integer path (λ k, quoted k +:+ " must be an integer")
        ["minLength"; "maxLength"; "minItems"; "maxItems"; "minProperties"; "maxProperties"];
  _ ← each_keyword o is_number path (λ k, quoted k +:+ " must be a number") ["minimum"; "maximum"];
  _ ← each_keyword o (λ m, match as_f64 m with Some f => negb (F64.eqb f (F64.of_int 0)) | None => false end) path
        (λ _, "multipleOf must be a non-zero number") ["multipleOf"];
  _ ← each_keyword o (if draft4 then is_boolean else is_number) path (λ k, "invalid " +:+ quoted k)
        ["exclusiveMinimum"; "exclusiveMaximum"];
  _ ← each_keyword o (λ p, match as_str p with Some p => regex_ok p | None => false end) path (λ _, "invalid pattern") ["pattern"];
  _ ← each_keyword o is_array path (λ _, "enum must be an array") ["enum"];
  _ ← each_keyword o (λ r, match as_array r with Some a => forallb is_string a | None => false end) path
        (λ _, "required must be an array of strings") ["required"];
  each_keyword o is_boolean path (λ _, "uniqueItems must be a boolean") ["uniqueItems"].

(** ** The walk *)

(** The places visited so far; [None] when the fuel is used up. *)
Definition VM : Type := list Place → option (result string (list Place)).
Definition vret : VM := λ vis, Some (Ok vis).
Definition vlift (r : result string ()) : VM := λ vis, Some (match r with Ok _ => Ok vis | Err e => Err e end).
Definition vseq (m n : VM) : VM := λ vis, match m vis with Some (Ok vis) => n vis | r => r end.
Fixpoint vall {A} (f : A → VM) (l : list A) : VM :=
  match l with [] => vret | x :: l => vseq (f x) (vall f l) end.

(** A schema at a place of a document, and the path it is reported under. *)
Definition Walk : Type := Value → Place → option string * Value → string → VM.

Section walk.
Context (rec : Walk).

Definition vsub : Walk := λ v place doc path,
  match v with
  | VBool _ => vret
  | VObject _ => rec v place doc path
  | _ => vlift (fail path "subschema must be an object or boolean")
  end.

Definition below (place : Place) (steps : list Step) : Place := mkPlace (pl_doc place) (pl_path place ++ steps).
(** A subschema under a keyword, and one inside a keyword's value. *)
Definition at_key (place : Place) (doc : option string * Value) (path : string) (key : string) (s : Value) : VM :=
  vsub s (below place [Key key]) doc (path +:+ "/" +:+ key).
Definition at_entry (place : Place) (doc : option string * Value) (path : string) (key : string) (e : string * Value) : VM :=
  vsub e.2 (below place [Key key; Key e.1]) doc (path +:+ "/" +:+ key +:+ "/" +:+ e.1).
Definition at_item (place : Place) (doc : option string * Value) (path : string) (key : string) (e : nat * Value) : VM :=
  vsub e.2 (below place [Key key; Item e.1]) doc (path +:+ "/" +:+ key +:+ "/" +:+ pretty e.1).
Definition enumerate {A} (l : list A) : list (nat * A) := imap pair l.

Definition walk_properties (o : Map) place doc path (key : string) : VM :=
  match map_get key o with
  | None => vret
  | Some (VObject p) =>
      vall (λ e, if bool_decide (key = "patternProperties") && negb (regex_ok e.1)
                 then vlift (fail path "invalid patternProperties regex") else at_entry place doc path key e) p
  | Some _ => vlift (fail path (quoted key +:+ " must be an object"))
  end.
Definition walk_combined (o : Map) place doc path (key : string) : VM :=
  match map_get key o with
  | None => vret
  | Some (VArray a) => vall (at_item place doc path key) (enumerate a)
  | Some _ => vlift (fail path (quoted key +:+ " must be an array"))
  end.
Definition walk_items (o : Map) place doc path : VM :=
  match map_get "items" o with
  | Some (VArray a) => vall (at_item place doc path "items") (enumerate a)
  | Some s => at_key place doc path "items" s
  | None => vret
  end.
Definition walk_single (o : Map) place doc path (key : string) : VM :=
  match map_get key o with Some s => at_key place doc path key s | None => vret end.
Definition walk_dependencies (o : Map) place doc path : VM :=
  match map_get "dependencies" o with
  | None => vret
  | Some (VObject d) =>
      vall (λ e, match e.2 with
                 | VArray a => if forallb is_string a then vret else vlift (fail path "dependency arrays must contain strings")
                 | _ => at_entry place doc path "dependencies" e
                 end) d
  | Some _ => vlift (fail path "dependencies must be an object")
  end.

Definition schema_body (o : Map) (place : Place) (doc : option string * Value) (path : string) : VM :=
  match map_get "$ref" o with
  | Some (VString r) =>
      match resolve_in r doc refs with
      | Some (tdoc, (steps, target)) => vsub target (mkPlace tdoc.1 steps) tdoc path
      | None => vlift (fail path ("cannot resolve $ref '" +:+ r +:+ "'"))
      end
  | Some _ => vlift (fail path "$ref must be a string")
  | None =>
      vseq (vlift (keywords_ok o path))
      (vseq (vall (walk_properties o place doc path) ["properties"; "patternProperties"])
      (vseq (vall (walk_combined o place doc path) ["allOf"; "anyOf"; "oneOf"])
      (vseq (walk_items o place doc path)
      (vseq (vall (walk_single o place doc path)
               ["additionalProperties"; "additionalItems"; "not"; "contains"; "propertyNames"; "if"; "then"; "else"])
            (walk_dependencies o place doc path)))))
  end.
End walk.

(** Each place is entered once. *)
Fixpoint schema (fuel : nat) : Walk := λ v place doc path vis,
  match fuel with
  | 0 => None
  | S fuel =>
      match v with
      | VObject o =>
          if bool_decide (place ∈ vis) then Some (Ok vis)
          else schema_body (schema fuel) o place doc path (vis ++ [place])
      | _ => Some (Ok vis)
      end
  end.
End validator.

(** * Parsing *)

(** Keys in byte order, at every level. *)
Fixpoint sorted (v : Value) : Value :=
  match v with
  | VObject o =>
      let o := map (λ e, match e with (k, x) => (k, sorted x) end) o in
      VObject (foldl (λ m k, match map_get k o with Some x => map_insert k x m | None => m end) [] (sort_vec o.*1))
  | VArray a => VArray (map sorted a)
  | v => v
  end.

Record JsonDoc := mkJsonDoc { jd_root : Value; jd_refs : list (string * Value); jd_canonical : string; jd_normalized : string }.

Section parse.
Context {crates : JsonCrates}.

Definition validate_fuel (fuel : nat) (root : Value) (refs : list (string * Value)) : option (result string ()) :=
  match root with
  | VNull => Some (Err "Invalid JSON Schema")
  | VObject _ =>
      let draft4 := match get "$schema" root ≫= as_str with Some s => contains_str "draft-04" s | None => false end in
      (λ r, match r with Ok _ => Ok () | Err e => Err e end) <$>
        schema refs draft4 fuel root (mkPlace None []) (None, root) "#" []
  | _ => Some (Ok ())
  end.

(** The references under their names and their own ids. *)
Fixpoint ref_map (acc : Map) (refs : list ResolvedRef) : result string Map :=
  match refs with
  | [] => Ok acc
  | r :: refs =>
      v ← map_err (λ e, "Invalid reference " +:+ rr_name r +:+ ": " +:+ e) (json_from_str (rr_schema r));
      let acc := match get "$id" v ≫= as_str with Some id => map_insert id v acc | None => acc end in
      ref_map (map_insert (rr_name r) v acc) refs
  end.

Definition parse_fuel (fuel : nat) (text : string) (refs : list ResolvedRef) : option (result string JsonDoc) :=
  match (root ← map_err (λ e, "Invalid JSON: " +:+ e) (json_from_str text); m ← ref_map [] refs; Ok (root, hash_order m)) with
  | Err e => Some (Err e)
  | Ok (root, m) =>
      valid ← validate_fuel fuel root m;
      Some (_ ← valid; canonical ← json_to_string root; normalized ← json_to_string (sorted root);
            Ok (mkJsonDoc root m canonical normalized))
  end.
End parse.

(** * The loaded model *)

Inductive Criterion := CAll | CAny | COne.
#[export] Instance Criterion_eq_dec : EqDecision Criterion.
Proof. solve_decision. Defined.
Definition crit_name (c : Criterion) : string := match c with CAll => "allOf" | CAny => "anyOf" | COne => "oneOf" end.

Record StrS := mkStrS { min_length : option Z; max_length : option Z; pattern : option string }.
Record NumS := mkNumS {
  minimum : option Number; maximum : option Number; exclusive_minimum : option Number; exclusive_maximum : option Number;
  multiple_of : option Number; requires_integer : bool }.
Record ArrS := mkArrS {
  all_items : option nat; item_schemas : option (list nat); permits_additional_items : bool;
  schema_of_additional_items : option nat; min_items : option Z; max_items : option Z; unique_items : bool }.
Record ObjS := mkObjS {
  properties : list (string * nat); required : list string; permits_additional : bool; schema_of_additional : option nat;
  pattern_properties : list (string * nat); property_dependencies : list (string * list string);
  schema_dependencies : list (string * nat); min_properties : option Z; max_properties : option Z }.

(** Subschemas by their index in the model. *)
Inductive Kind :=
| KTrue | KFalse | KEmpty | KBoolean | KNull
| KStr (s : StrS) | KNum (s : NumS) | KArr (s : ArrS) | KObj (s : ObjS)
| KEnum (vs : list Value) | KConst (v : Value) | KNot (i : nat)
| KCombined (crit : Criterion) (subs : list nat) (raw : list Value)
| KRef (i : nat) | KConditional.

Definition class (k : Kind) : nat :=
  match k with
  | KTrue => 0 | KFalse => 1 | KEmpty => 2 | KBoolean => 3 | KNull => 4 | KStr _ => 5 | KNum _ => 6 | KArr _ => 7 | KObj _ => 8
  | KEnum _ => 9 | KConst _ => 10 | KNot _ => 11 | KCombined _ _ _ => 12 | KRef _ => 13 | KConditional => 14
  end.

Record SNode := mkSNode {
  sn_kind : Kind; sn_id : option string; sn_title : option string; sn_description : option string; sn_default : option Value }.
Definition bare (k : Kind) : SNode := mkSNode k None None None None.

Definition ARRAY_KEYWORDS : list string := ["items"; "additionalItems"; "minItems"; "maxItems"; "uniqueItems"; "contains"].
Definition OBJECT_KEYWORDS : list string :=
  ["properties"; "required"; "minProperties"; "maxProperties"; "dependencies"; "patternProperties"; "additionalProperties"; "propertyNames"].
Definition NUMBER_KEYWORDS : list string := ["minimum"; "maximum"; "exclusiveMinimum"; "exclusiveMaximum"; "multipleOf"].
Definition STRING_KEYWORDS : list string := ["minLength"; "maxLength"; "pattern"; "format"].

(** [int]: an integer, or a float cut to one. *)
Definition int (v : Value) : option Z :=
  match as_i64 v with Some i => Some i | None => F64.to_i64 <$> as_f64 v end.

(** The nodes built so far and the node of each reference that was met. *)
Record LoaderS := mkLoader { ld_nodes : list SNode; ld_cache : gmap (string * string) nat }.
Definition LM (A : Type) : Type := LoaderS → option (A * LoaderS).
#[export] Instance lm_ret : MRet LM := λ A a st, Some (a, st).
#[export] Instance lm_bind : MBind LM := λ A B f m st, match m st with Some (a, st) => f a st | None => None end.

Fixpoint lm_map {A B} (f : A → LM B) (l : list A) : LM (list B) :=
  match l with [] => mret [] | x :: l => y ← f x; ys ← lm_map f l; mret (y :: ys) end.

Definition push (n : SNode) : LM nat := λ st, Some (length (ld_nodes st), mkLoader (ld_nodes st ++ [n]) (ld_cache st)).
(** [std::mem::replace(&mut nodes[i], n)]. *)
Definition replace_node (i : nat) (n : SNode) : LM SNode := λ st,
  old ← ld_nodes st !! i; Some (old, mkLoader (<[i := n]> (ld_nodes st)) (ld_cache st)).
Definition cached_ref (k : string * string) : LM (option nat) := λ st, Some (ld_cache st !! k, st).
Definition cache_ref (k : string * string) (i : nat) : LM () := λ st, Some ((), mkLoader (ld_nodes st) (<[k := i]> (ld_cache st))).

Definition str_at (k : string) (o : Map) : option string := map_get k o ≫= as_str.
Definition int_at (k : string) (o : Map) : option Z := map_get k o ≫= int.
Definition strings (a : list Value) : list string := omap as_str a.
(** [remaining.retain(|k| !keys.contains(k))]. *)
Definition consume (keys remaining : list string) : list string := filter (λ k, k ∉ keys) remaining.
Definition has_any (remaining keys : list string) : bool := existsb (λ k, bool_decide (k ∈ keys)) remaining.

Section loader.
Context (refs : list (string * Value)) (draft4 : bool).

Definition load_string (o : Map) : LM nat :=
  push (bare (KStr (mkStrS (int_at "minLength" o) (int_at "maxLength" o) (str_at "pattern" o)))).

(** Draft-04 exclusive limits are booleans: no numeric limit. *)
Definition load_number (o : Map) (requires_integer : bool) : LM nat :=
  let n k := map_get k o ≫= as_number in
  push (bare (KNum (mkNumS (n "minimum") (n "maximum") (if draft4 then None else n "exclusiveMinimum")
    (if draft4 then None else n "exclusiveMaximum") (n "multipleOf") requires_integer))).

Section rec.
(** Loading a value of a document that has a key. *)
Context (rec : Value → Value → string → LM nat).

Definition load_ref (r : string) (doc : Value) (doc_key : string) : LM nat :=
  let '(base, frag) := split_ref r in
  match (if decide (base = "") then Some (doc, doc_key) else '(_, d) ← find_doc refs base; Some (d, base)) with
  | None => push (bare KEmpty)
  | Some (target_doc, key) =>
      cached ← cached_ref (key, frag);
      match cached with
      | Some i => mret i
      | None =>
          (* A placeholder first, so recursive references resolve to this node. *)
          idx ← push (bare KEmpty);
          _ ← cache_ref (key, frag) idx;
          match find_fragment frag target_doc with
          | None => mret idx
          | Some (_, t) =>
              loaded ← rec t target_doc key;
              node ← replace_node loaded (bare KEmpty);
              _ ← replace_node idx node;
              _ ← replace_node loaded (bare (KRef idx));
              mret idx
          end
      end
  end.

Definition load_array (o : Map) (doc : Value) (doc_key : string) : LM nat :=
  '(all, each) ← match map_get "items" o with
                 | Some (VArray items) => ns ← lm_map (λ i, rec i doc doc_key) items; mret (None, Some ns)
                 | Some ((VObject _ | VBool _) as i) => i ← rec i doc doc_key; mret (Some i, None)
                 | _ => mret (None, None)
                 end;
  '(permits, extra) ← match map_get "additionalItems" o with
                      | Some (VBool b) => mret (b, None)
                      | Some (VObject _ as s) => s ← rec s doc doc_key; mret (true, Some s)
                      | _ => mret (true, None)
                      end;
  push (bare (KArr (mkArrS all each permits extra (int_at "minItems" o) (int_at "maxItems" o)
    (default false (map_get "uniqueItems" o ≫= as_bool))))).

Definition id_keyword : string := if draft4 then "id" else "$id".

(** One property, unless it is an id. *)
Definition load_property (props : Map) (doc : Value) (doc_key : string) (k : string) : LM (list (string * nat)) :=
  match map_get k props with
  | None => λ _, None
  | Some v =>
      if bool_decide (k = id_keyword) && negb (is_object v) then mret []
      else n ← rec v doc doc_key; mret [(k, n)]
  end.
Definition load_entry (doc : Value) (doc_key : string) (e : string * Value) : LM (string * nat) :=
  n ← rec e.2 doc doc_key; mret (e.1, n).

Definition array_entry (e : string * Value) : option (string * list string) :=
  match e.2 with VArray a => Some (e.1, strings a) | _ => None end.
Definition object_at (k : string) (o : Map) : Map := default [] (map_get k o ≫= as_object).

Definition load_obj (o : Map) (doc : Value) (doc_key : string) : LM nat :=
  let props := object_at "properties" o in
  props ← lm_map (load_property props doc doc_key) (map_order props.*1);
  '(permits, extra) ← match map_get "additionalProperties" o with
                      | Some (VBool b) => mret (b, None)
                      | Some (VObject _ as s) => s ← rec s doc doc_key; mret (true, Some s)
                      | _ => mret (true, None)
                      end;
  patterns ← lm_map (load_entry doc doc_key) (object_at "patternProperties" o);
  let deps := object_at "dependencies" o in
  schema_deps ← lm_map (load_entry doc doc_key) (filter (λ e, is_array e.2 = false) deps);
  push (bare (KObj (mkObjS (concat props) (strings (default [] (map_get "required" o ≫= as_array))) permits extra patterns
    (omap array_entry deps) schema_deps (int_at "minProperties" o) (int_at "maxProperties" o)))).

(** The node of one type name, and the keywords it leaves. *)
Definition load_typed (t : string) (o : Map) (doc : Value) (doc_key : string) (remaining : list string) : LM (nat * list string) :=
  if decide (t = "string") then n ← load_string o; mret (n, consume STRING_KEYWORDS remaining)
  else if decide (t = "integer") then n ← load_number o true; mret (n, consume NUMBER_KEYWORDS remaining)
  else if decide (t = "number") then n ← load_number o false; mret (n, consume NUMBER_KEYWORDS remaining)
  else if decide (t = "boolean") then n ← push (bare KBoolean); mret (n, remaining)
  else if decide (t = "null") then n ← push (bare KNull); mret (n, remaining)
  else if decide (t = "array") then n ← load_array o doc doc_key; mret (n, consume ARRAY_KEYWORDS remaining)
  else if decide (t = "object") then n ← load_obj o doc doc_key; mret (n, consume OBJECT_KEYWORDS remaining)
  else n ← push (bare KEmpty); mret (n, remaining).

Fixpoint load_types (ts : list string) (o : Map) (doc : Value) (doc_key : string) (remaining : list string) : LM (list nat * list string) :=
  match ts with
  | [] => mret ([], remaining)
  | t :: ts =>
      '(n, remaining) ← load_typed t o doc doc_key remaining;
      '(ns, remaining) ← load_types ts o doc doc_key remaining;
      mret (n :: ns, remaining)
  end.

Definition crit_of (key : string) : Criterion :=
  if decide (key = "allOf") then CAll else if decide (key = "anyOf") then CAny else COne.
Definition load_combined (o : Map) (doc : Value) (doc_key key : string) : LM nat :=
  let raw := default [] (map_get key o ≫= as_array) in
  subs ← lm_map (λ s, rec s doc doc_key) raw;
  push (bare (KCombined (crit_of key) subs raw)).

(** Nodes extracted so far and the keywords left, extended by a sniffed one. *)
Definition sniff (keys : list string) (ok : bool) (load : LM nat) (acc : list nat * list string) : LM (list nat * list string) :=
  let '(extracted, remaining) := acc in
  if ok && has_any remaining keys then n ← load; mret (extracted ++ [n], consume keys remaining) else mret acc.

Definition load_object (o : Map) (doc : Value) (doc_key : string) : LM nat :=
  let node k := mkSNode k (str_at id_keyword o) (str_at "title" o) (str_at "description" o) (map_get "default" o) in
  match map_get "$ref" o ≫= as_str with
  | Some r => target ← load_ref r doc doc_key; push (node (KRef target))
  | None =>
      let remaining := o.*1 in
      '(extracted, remaining) ← match map_get "enum" o with
        | Some (VArray vals) => n ← push (bare (KEnum vals)); mret ([n], consume ["enum"] remaining)
        | _ => mret ([], remaining)
        end;
      let present := filter (λ k, is_Some (map_get k o)) ["allOf"; "anyOf"; "oneOf"] in
      combined ← lm_map (load_combined o doc doc_key) (js_ordered (js_extend js_new present));
      let acc := (extracted ++ combined, consume ["allOf"; "anyOf"; "oneOf"] remaining) in
      '(extracted, remaining) ← match map_get "not" o with
        | Some not => inner ← rec not doc doc_key; n ← push (bare (KNot inner)); mret (acc.1 ++ [n], consume ["not"] acc.2)
        | None => mret acc
        end;
      '(extracted, remaining) ← match (if draft4 then None else map_get "const" o) with
        | Some c => n ← push (bare (KConst c)); mret (extracted ++ [n], consume ["const"] remaining)
        | None => mret (extracted, remaining)
        end;
      '(extracted, remaining) ← match map_get "type" o with
        | Some (VString t) => '(n, remaining) ← load_typed t o doc doc_key remaining; mret (extracted ++ [n], remaining)
        | Some (VArray ts) =>
            '(subs, remaining) ← load_types (strings ts) o doc doc_key remaining;
            n ← push (bare (KCombined CAny subs ts)); mret (extracted ++ [n], remaining)
        | _ => mret (extracted, remaining)
        end;
      acc ← sniff ARRAY_KEYWORDS true (load_array o doc doc_key) (extracted, consume ["type"] remaining);
      acc ← sniff OBJECT_KEYWORDS true (load_obj o doc doc_key) acc;
      acc ← sniff NUMBER_KEYWORDS true (load_number o false) acc;
      acc ← sniff STRING_KEYWORDS true (load_string o) acc;
      '(extracted, _) ← sniff ["if"; "then"; "else"] (negb draft4) (push (bare KConditional)) acc;
      match extracted with
      | [] => push (node KEmpty)
      | [only] => old ← replace_node only (bare KEmpty); push (node (sn_kind old))
      | _ => push (node (KCombined CAll extracted []))
      end
  end.

Definition load_value (v : Value) (doc : Value) (doc_key : string) : LM nat :=
  match v with
  | VBool true => push (bare KTrue)
  | VBool false => push (bare KFalse)
  | VObject o => load_object o doc doc_key
  | _ => push (bare KEmpty)
  end.
End rec.

Fixpoint load (fuel : nat) (v : Value) (doc : Value) (doc_key : string) : LM nat :=
  match fuel with 0 => λ _, None | S fuel => load_value (load fuel) v doc doc_key end.
End loader.

Record ModelS := mkModelS { md_nodes : list SNode; md_root : nat }.

Definition is_draft4 (root : Value) : bool :=
  match get "$schema" root ≫= as_str with
  | Some s => contains_str "draft-04" s || ends_with "json-schema.org/schema" s || ends_with "json-schema.org/schema#" s
  | None => false
  end.
Definition build_model_fuel (fuel : nat) (d : JsonDoc) : option ModelS :=
  '(root, st) ← load (jd_refs d) (is_draft4 (jd_root d)) fuel (jd_root d) (jd_root d) "" (mkLoader [] ∅);
  Some (mkModelS (ld_nodes st) root).
