(* ===== verification/JsonLoad.v ===== *)
(** Loading a JSON Schema: the loader answers for every document, references
    and their cycles included, and every index in the model it builds is in
    range. *)
From S2P Require Import Prelude SortedVec RustStr Errors Json Model Context Snapshot Keys SchemaLayer JavaOrder Views Float64 JsonSchema.

Open Scope nat_scope.
Open Scope list_scope.

(** * Sizes and references of a document *)

Fixpoint vsize (v : Value) : nat :=
  match v with
  | VArray l => S (foldr (λ x n, vsize x + n) 0 l)
  | VObject o => S (foldr (λ e n, match e with (_, x) => vsize x + n end) 0 o)
  | _ => 1
  end.
(** The texts of all references inside. *)
Fixpoint refs_of (v : Value) : list string :=
  match v with
  | VArray l => foldr (λ x r, refs_of x ++ r) [] l
  | VObject o =>
      match map_get "$ref" o ≫= as_str with Some r => [r] | None => [] end ++
      foldr (λ e r, match e with (_, x) => refs_of x ++ r end) [] o
  | _ => []
  end.

(** Multiples that are not negative: the remainder cannot overflow. *)
Definition multiple_ok (n : option Number) : Prop := match n with Some m => (0 ≤ F64.to_i64 (number_f64 m))%Z | None => True end.
(** A document of distinct keys and sound multiples. *)
Fixpoint doc_ok (v : Value) : Prop :=
  match v with
  | VArray l => foldr (λ x P, doc_ok x ∧ P) True l
  | VObject o => NoDup o.*1 ∧ multiple_ok (map_get "multipleOf" o ≫= as_number) ∧ foldr (λ e P, match e with (_, x) => doc_ok x ∧ P end) True o
  | _ => True
  end.

(** [x] is inside [v]: no larger, with no other references, and sound with it. *)
Definition inside (x v : Value) : Prop := vsize x ≤ vsize v ∧ refs_of x ⊆ refs_of v ∧ (doc_ok v → doc_ok x).
Definition strictly (x v : Value) : Prop := vsize x < vsize v ∧ refs_of x ⊆ refs_of v ∧ (doc_ok v → doc_ok x).

#[export] Instance inside_po : PreOrder inside.
Proof. split; [done|]. intros a b c (? & ? & ?) (? & ? & ?). split_and!; [lia|set_solver|auto]. Qed.
Lemma strictly_inside x v : strictly x v → inside x v.
Proof. intros (? & ? & ?). split_and!; [lia|done..]. Qed.
Lemma inside_strictly x y v : inside x y → strictly y v → strictly x v.
Proof. intros (? & ? & ?) (? & ? & ?). split_and!; [lia|set_solver|auto]. Qed.

Lemma array_strictly x l : x ∈ l → strictly x (VArray l).
Proof.
  unfold strictly. cbn [vsize refs_of doc_ok]. induction l as [|y l IH]; [by intros ?%not_elem_of_nil|].
  cbn [foldr]. intros [->|Hx]%elem_of_cons; [split_and!; [lia|set_solver|tauto]|]. destruct (IH Hx) as (? & ? & ?). split_and!; [lia|set_solver|tauto].
Qed.
Lemma object_strictly k x o : (k, x) ∈ o → strictly x (VObject o).
Proof.
  unfold strictly. intros Hin. assert (doc_ok (VObject o) → doc_ok x) as Hd.
  { cbn [doc_ok]. intros (_ & _ & Ho). induction o as [|[k' y] o IH]; [by apply not_elem_of_nil in Hin|]. cbn in Ho. destruct Ho.
    apply elem_of_cons in Hin as [[= -> ->]|Hx]; [done|by apply IH]. }
  assert (vsize x < vsize (VObject o) ∧ refs_of x ⊆ refs_of (VObject o)) as [? ?]; [|by split_and!]. clear Hd. revert Hin. cbn [vsize refs_of]. generalize (match map_get "$ref" o ≫= as_str with Some r => [r] | None => [] end). intros R.
  induction o as [|[k' y] o IH]; [by intros ?%not_elem_of_nil|].
  cbn [foldr]. intros [[= -> ->]|Hx]%elem_of_cons; [split; [lia|set_solver]|]. destruct (IH Hx). split; [lia|set_solver].
Qed.
Lemma map_get_elem k o x : map_get k o = Some x → (k, x) ∈ o.
Proof.
  induction o as [|[k' y] o IH]; cbn [map_get]; [done|]. case_decide as H; [|right; auto]. subst. intros [= ->]. by left.
Qed.
Lemma map_get_strictly k o x : map_get k o = Some x → strictly x (VObject o).
Proof. intros H%map_get_elem. by eapply object_strictly. Qed.

Lemma pointer_tokens_inside ts v p x : pointer_tokens ts v = Some (p, x) → inside x v.
Proof.
  revert v p. induction ts as [|t ts IH]; intros v p; cbn [pointer_tokens]; [by intros [= _ ->]|].
  intros ([s y] & Hy & ([p' z] & Hz & [= _ ->])%bind_Some)%bind_Some. apply IH in Hz. etrans; [exact Hz|].
  destruct v; try done; apply bind_Some in Hy as (w & Hw & Hy).
  - apply bind_Some in Hy as (w' & Hw' & [= _ <-]). apply strictly_inside, array_strictly. by eapply list_elem_of_lookup_2.
  - injection Hy as _ <-. apply strictly_inside. by eapply map_get_strictly.
Qed.
Lemma pointer_inside ptr v p x : pointer ptr v = Some (p, x) → inside x v.
Proof.
  unfold pointer. case_decide; [by intros [= _ ->]|]. case_match; [|done]. apply pointer_tokens_inside.
Qed.

Lemma find_anchor_inside anchor v : ∀ p x, find_anchor anchor v = Some (p, x) → inside x v.
Proof.
  induction v as [v Hv|l IH|o IH] using value_nested_ind; intros p x; [by destruct v|..].
  - cbn [find_anchor]. generalize 0 as i. intros i E.
    assert (∃ y, y ∈ l ∧ inside x y) as (y & Hy & Hxy).
    { revert i p E. induction IH as [|y l Hy _ IHl]; intros i p E; [done|]. destruct (find_anchor anchor y) as [[p' z]|] eqn:Ez.
      - injection E as _ ->. exists y. split; [by left|by eapply Hy].
      - destruct (IHl _ _ E) as (y' & ? & ?). exists y'. split; [by right|done]. }
    etrans; [exact Hxy|]. by apply strictly_inside, array_strictly.
  - cbn [find_anchor]. case_match; [by intros [= _ ->]|]. intros E.
    assert (∃ e, e ∈ o ∧ inside x e.2) as ([k y] & Hy & Hxy).
    { clear -IH E. revert p E. induction IH as [|[k y] l Hy _ IHl]; intros p E; [done|]. destruct (find_anchor anchor y) as [[p' z]|] eqn:Ez.
      - injection E as _ ->. exists (k, y). split; [by left|by eapply Hy].
      - destruct (IHl _ E) as (y' & ? & ?). exists y'. split; [by right|done]. }
    etrans; [exact Hxy|]. by eapply strictly_inside, object_strictly.
Qed.

Lemma find_fragment_inside frag v p x : find_fragment frag v = Some (p, x) → inside x v.
Proof.
  unfold find_fragment. case_match; [by intros [= _ ->]|]. case_match; [apply pointer_inside|apply find_anchor_inside].
Qed.
Lemma find_doc_elem refs base k v : find_doc refs base = Some (k, v) → (k, v) ∈ refs.
Proof.
  unfold find_doc. destruct (map_get base refs) eqn:E; [intros [= <- <-]; by apply map_get_elem|].
  intros H%head_Some_elem_of. by apply list_elem_of_filter in H as [_ ?].
Qed.

(** * The loader's state *)

(** The subschemas a kind refers to. *)
Definition children (k : Kind) : list nat :=
  match k with
  | KArr a => option_list (all_items a) ++ default [] (item_schemas a) ++ option_list (schema_of_additional_items a)
  | KObj o => (properties o).*2 ++ option_list (schema_of_additional o) ++ (pattern_properties o).*2 ++ (schema_dependencies o).*2
  | KNot i | KRef i => [i]
  | KCombined _ subs _ => subs
  | _ => []
  end.

Definition number_ok (n : NumS) : Prop := multiple_ok (multiple_of n).
Definition kind_ok (k : Kind) : Prop := match k with KNum n => number_ok n | _ => True end.
Definition kind_wf (k : Kind) : Prop :=
  match k with KEnum vs => Forall value_wf vs | KConst v => value_wf v | _ => True end.
Definition default_wf (n : SNode) : Prop := match sn_default n with Some v => value_wf v | None => True end.
(** Values that are compared: no object has a key twice. *)
Definition node_values_wf (n : SNode) : Prop := kind_wf (sn_kind n) ∧ default_wf n.
Definition node_ok (n : SNode) : Prop := kind_ok (sn_kind n) ∧ node_values_wf n.
Definition kind_sound (k : Kind) : Prop := kind_ok k ∧ kind_wf k.
Lemma node_ok_bare k : kind_sound k → node_ok (bare k).
Proof. by intros [? ?]. Qed.
Lemma doc_ok_wf v : doc_ok v → value_wf v.
Proof.
  induction v as [v Hv|l IH|o IH] using value_nested_ind; cbn [doc_ok value_wf]; [by destruct v|..].
  - induction IH as [|x l Hx _ IHl]; [done|]. cbn. intros [? ?]. auto.
  - intros (Hnd & _ & Ho). split; [done|]. clear Hnd. induction IH as [|[k x] o Hx _ IHo]; [done|]. cbn in *. destruct Ho. auto.
Qed.
Lemma doc_ok_array l : doc_ok (VArray l) → Forall value_wf l.
Proof. intros H%doc_ok_wf. cbn in H. induction l as [|x l IH]; [constructor|]. destruct H. constructor; auto. Qed.

(** Every node after the ones it refers to. *)
Definition nodes_below (nodes : list SNode) : Prop := ∀ i n, nodes !! i = Some n → Forall (λ c, c < i) (children (sn_kind n)).

(** Every index that is stored is in range. *)
Definition nodes_wf (nodes : list SNode) : Prop :=
  Forall (λ n, Forall (λ c, c < length nodes) (children (sn_kind n))) nodes.
(** Documents without references give nodes in order, sound ones sound nodes. *)
Definition state_wf (plain sound : Prop) (st : LoaderS) : Prop :=
  nodes_wf (ld_nodes st) ∧ map_Forall (λ _ i, i < length (ld_nodes st)) (ld_cache st) ∧
  (plain → nodes_below (ld_nodes st)) ∧ (sound → Forall node_ok (ld_nodes st)).
Abbreviation count st := (length (ld_nodes st)).
Definition grows (st st' : LoaderS) : Prop := count st ≤ count st' ∧ dom (ld_cache st) ⊆ dom (ld_cache st').

#[export] Instance grows_po : PreOrder grows.
Proof. split; [done|]. intros a b c [? ?] [? ?]. split; [lia|set_solver]. Qed.

Lemma nodes_wf_push nodes n : nodes_wf nodes → Forall (λ c, c < length nodes) (children (sn_kind n)) → nodes_wf (nodes ++ [n]).
Proof.
  intros Hn Hc. unfold nodes_wf. rewrite length_app. cbn [length]. apply Forall_app. split.
  - eapply Forall_impl; [exact Hn|]. intros m Hm. eapply Forall_impl; [exact Hm|]. intros c Hlt. cbn in *. lia.
  - apply Forall_singleton. eapply Forall_impl; [exact Hc|]. intros c Hlt. cbn in *. lia.
Qed.
Lemma nodes_wf_insert nodes i n : nodes_wf nodes → Forall (λ c, c < length nodes) (children (sn_kind n)) → nodes_wf (<[i := n]> nodes).
Proof. intros Hn Hc. unfold nodes_wf. rewrite length_insert. by apply Forall_insert. Qed.

Lemma nodes_below_push nodes n : nodes_below nodes → Forall (λ c, c < length nodes) (children (sn_kind n)) → nodes_below (nodes ++ [n]).
Proof.
  intros Hb Hc i m [Hi|[Hl Hi]]%lookup_app_Some; [by eapply Hb|]. apply list_lookup_singleton_Some in Hi as [Hz <-].
  eapply Forall_impl; [exact Hc|]. intros c ?. cbn in *. lia.
Qed.
Lemma nodes_below_insert nodes i n : nodes_below nodes → Forall (λ c, c < i) (children (sn_kind n)) → nodes_below (<[i := n]> nodes).
Proof.
  intros Hb Hc j m Hj. apply list_lookup_insert_Some in Hj as [(-> & <- & _)|[_ Hj]]; [done|by eapply Hb].
Qed.

Section total.
(** The keys a reference may be cached under, and what is known of the documents. *)
Context (U : gset (string * string)) (plain sound : Prop).
Abbreviation state_ok := (state_wf plain sound).

(** References still to be met. *)
Definition budget (st : LoaderS) : nat := size (U ∖ dom (ld_cache st)).

Lemma budget_grows st st' : grows st st' → budget st' ≤ budget st.
Proof. intros [_ Hd]. unfold budget. apply subseteq_size. set_solver. Qed.

(** From a sound state with at most [n] references to go, a step ends in a
    sound state. [P] and [Q] speak of the number of nodes. *)
Definition total {A} (n : nat) (P : nat → Prop) (m : LM A) (Q : nat → A → Prop) : Prop :=
  ∀ st, state_ok st → budget st ≤ n → P (count st) → ∃ a st', m st = Some (a, st') ∧ state_ok st' ∧ grows st st' ∧ Q (count st') a.
Definition up (P : nat → Prop) : Prop := ∀ a b, a ≤ b → P a → P b.
Definition node (len i : nat) : Prop := i < len.

Lemma up_true : up (λ _, True).
Proof. done. Qed.
Lemma up_node i : up (λ len, node len i).
Proof. intros a b Hle Hi. unfold node in *. lia. Qed.
Lemma up_nodes l : up (λ len, Forall (node len) l).
Proof. intros a b Hle Hl. eapply Forall_impl; [exact Hl|]. intros i. by apply up_node. Qed.
Lemma up_and P Q : up P → up Q → up (λ len, P len ∧ Q len).
Proof. intros HP HQ a b Hle [? ?]. split; eauto. Qed.

Lemma loads_ret {A} n P (a : A) Q : (∀ len, P len → Q len a) → total n P (mret a) Q.
Proof. intros H st Hwf _ HP. exists a, st. split_and!; [done..|]. by apply H. Qed.

Lemma loads_bind {A B} n P (m : LM A) (f : A → LM B) Q R : up P → total n P m Q →
  (∀ a, total n (λ len, P len ∧ Q len a) (f a) R) → total n P (m ≫= f) R.
Proof.
  intros Hup Hm Hf st Hwf Hb HP. destruct (Hm st Hwf Hb HP) as (a & st1 & E & Hwf1 & Hg1 & HQ).
  destruct (Hf a st1 Hwf1) as (b & st2 & E2 & Hwf2 & Hg2 & HR).
  { pose proof (budget_grows _ _ Hg1). lia. }
  { split; [|done]. eapply Hup; [|done]. apply Hg1. }
  exists b, st2. split_and!; [|done|by etrans|done]. unfold mbind, lm_bind. by rewrite E.
Qed.

Lemma total_weaken {A} n (P P' : nat → Prop) (m : LM A) (Q Q' : nat → A → Prop) :
  total n P' m Q' → (∀ len, P len → P' len) → (∀ len a, Q' len a → Q len a) → total n P m Q.
Proof. intros Hm HP HQ st Hwf Hb H. destruct (Hm st Hwf Hb (HP _ H)) as (a & st' & ? & ? & ? & ?). exists a, st'. eauto. Qed.

Lemma total_push n P k : (∀ len, P len → Forall (node len) (children (sn_kind k))) → (sound → node_ok k) → total n P (push k) node.
Proof.
  intros Hk Hg st (Hn & Hc & Hb & Ho) _ HP. eexists _, _. split; [done|]. cbn. split_and!; [split_and!| |]; cbn.
  - apply nodes_wf_push; [done|]. by apply Hk.
  - intros i x Hx. rewrite length_app. cbn. specialize (Hc i x Hx). cbn in Hc. lia.
  - intros Hpl. apply nodes_below_push; [by apply Hb|]. by apply Hk.
  - intros Hs. apply Forall_app. split; [by apply Ho|]. apply Forall_singleton. by apply Hg.
  - split; cbn; [rewrite length_app; lia|done].
  - unfold node. rewrite length_app. cbn. lia.
Qed.

Lemma total_map {A B} n P (f : A → LM B) (Q : nat → B → Prop) l : up P → (∀ b, up (λ len, Q len b)) →
  (∀ x, x ∈ l → total n P (f x) Q) → total n P (lm_map f l) (λ len, Forall (Q len)).
Proof.
  intros HP HQ. revert P HP. induction l as [|x l IH]; intros P HP Hf; cbn [lm_map]; [by apply loads_ret|].
  eapply loads_bind; [done|apply Hf; by left|]. intros y. eapply loads_bind; [by apply up_and| |].
  - apply IH; [by apply up_and|]. intros z Hz. eapply total_weaken; [apply Hf; by right|by intros ? [? _]|done].
  - intros ys. apply loads_ret. intros len [[_ ?] ?]. by constructor.
Qed.

Lemma total_replace n P i k : (∀ len, P len → node len i ∧ Forall (node len) (children (sn_kind k))) →
  (plain → Forall (λ c, c < i) (children (sn_kind k))) → (sound → node_ok k) →
  total n P (replace_node i k) (λ len old, Forall (node len) (children (sn_kind old)) ∧ (sound → node_ok old)).
Proof.
  intros Hk Hpl Hg st (Hn & Hc & Hb & Hok) _ HP. destruct (Hk _ HP) as [Hi Hch]. destruct (lookup_lt_is_Some_2 (ld_nodes st) i Hi) as [old Ho].
  unfold replace_node. rewrite Ho. eexists _, _. split; [done|]. cbn. rewrite length_insert. split_and!; [split_and!| | |]; cbn.
  - by apply nodes_wf_insert.
  - intros j x Hx. rewrite length_insert. by apply (Hc j).
  - intros H. apply nodes_below_insert; auto.
  - intros H. apply Forall_insert; auto.
  - split; cbn; [by rewrite length_insert|done].
  - by apply (proj1 (Forall_lookup _ _) Hn i).
  - intros H. by apply (proj1 (Forall_lookup _ _) (Hok H) i).
Qed.

(** ** Loading one object *)

Lemma total_of {A} n P (m : LM A) Q : total n (λ _, True) m Q → total n P m Q.
Proof. intros H. eapply total_weaken; [exact H|done|done]. Qed.

Lemma total_pre {A} n (P P' : nat → Prop) (m : LM A) Q : total n P' m Q → (∀ len, P len → P' len) → total n P m Q.
Proof. intros Hm HP. by eapply total_weaken. Qed.

Section object.
Context (n : nat) (refs : list (string * Value)) (draft4 : bool) (rec : Value → Value → string → LM nat).
Context (o : Map) (doc : Value) (doc_key : string).
Hypothesis Hrec : ∀ x, strictly x (VObject o) → total n (λ _, True) (rec x doc doc_key) node.
Hypothesis Hsound : sound → doc_ok (VObject o).

Lemma rec_below x v : strictly v (VObject o) → inside x v → total n (λ _, True) (rec x doc doc_key) node.
Proof. intros Hv Hx. apply Hrec. by eapply inside_strictly. Qed.

(** A step that answers nodes, listed by [f]. *)
Abbreviation lists f := (λ len a, Forall (node len) (f a)) (only parsing).

Lemma up_lists {A} (f : A → list nat) a : up (λ len, Forall (node len) (f a)).
Proof. apply up_nodes. Qed.

Lemma additional_total P k : up P → total n P
  (match map_get k o with
   | Some (VBool b) => mret (b, None)
   | Some (VObject _ as s) => s ← rec s doc doc_key; mret (true, Some s)
   | _ => mret (true, None)
   end) (lists (λ a : bool * option nat, option_list a.2)).
Proof.
  intros HP. destruct (map_get k o) as [[]|] eqn:E; try (by apply loads_ret).
  eapply loads_bind; [done|apply total_of, Hrec; by eapply map_get_strictly|]. intros i. apply loads_ret. intros len [_ Hi]. by apply Forall_singleton.
Qed.

Lemma load_array_total P : up P → total n P (load_array rec o doc doc_key) node.
Proof.
  intros HP. unfold load_array.
  eapply loads_bind with (Q := lists (λ a : option nat * option (list nat), option_list a.1 ++ default [] a.2)); [done| |].
  - destruct (map_get "items" o) as [[]|] eqn:E; try (by apply loads_ret); apply map_get_strictly in E as Hs.
    + eapply loads_bind; [done|apply total_of, Hrec; done|]. intros i. apply loads_ret. intros len [_ Hi]. by apply Forall_singleton.
    + eapply loads_bind; [done|apply (total_map n P _ node); [done|intros; apply up_node|]|].
      * intros x Hx. apply total_of. eapply rec_below; [exact Hs|]. by apply strictly_inside, array_strictly.
      * intros ns. by apply loads_ret; intros len [_ ?].
    + eapply loads_bind; [done|apply total_of, Hrec; done|]. intros i. apply loads_ret. intros len [_ Hi]. by apply Forall_singleton.
  - intros [all each]. eapply loads_bind; [apply up_and; [done|apply up_nodes]|apply additional_total; apply up_and; [done|apply up_nodes]|].
    intros [permits extra]. apply total_push; [|intros _; by apply node_ok_bare]. intros len [[_ H1] H2]. cbn in *. rewrite (assoc (++)). by apply Forall_app.
Qed.

Lemma concat_snd (l : list (list (string * nat))) : (concat l).*2 = concat ((λ x, x.*2) <$> l).
Proof. induction l as [|x l IH]; [done|]. cbn. by rewrite fmap_app, IH. Qed.

Lemma load_entries_total P (l : Map) : up P → (∀ e, e ∈ l → strictly e.2 (VObject o)) →
  total n P (lm_map (load_entry rec doc doc_key) l) (lists (λ a : list (string * nat), a.*2)).
Proof.
  intros HP Hl. eapply total_weaken; [apply (total_map n P _ (λ len e, node len e.2)); [done|intros; apply up_node|]|done|].
  - intros e He. unfold load_entry. eapply loads_bind; [done|apply total_of, Hrec; by apply Hl|]. intros i. by apply loads_ret; intros len [_ ?].
  - intros len a Ha. by apply Forall_fmap.
Qed.

Lemma object_at_strictly k e : e ∈ object_at k o → strictly e.2 (VObject o).
Proof.
  unfold object_at. destruct (map_get k o) as [[]|] eqn:E; cbn; try by intros ?%not_elem_of_nil.
  intros He. apply map_get_strictly in E. destruct e as [k' x]. apply object_strictly, strictly_inside in He. by eapply inside_strictly.
Qed.

Lemma load_obj_total P : up P → total n P (load_obj draft4 rec o doc doc_key) node.
Proof.
  intros HP. unfold load_obj.
  eapply loads_bind with (Q := lists (λ a : list (list (string * nat)), (concat a).*2)); [done| |].
  - eapply total_weaken; [apply (total_map n P _ (λ len a, Forall (node len) a.*2)); [done|intros b; apply up_nodes|]|done|].
    + intros k Hk. assert (is_Some (map_get k (object_at "properties" o))) as [v Hv].
      { apply (proj1 (java_orders_complete (object_at "properties" o).*1 [])) in Hk. clear -Hk. induction (object_at "properties" o) as [|[k' x] l IH]; [by apply not_elem_of_nil in Hk|].
        cbn in *. case_decide; [done|]. apply elem_of_cons in Hk as [?|?]; [done|by apply IH]. }
      unfold load_property. rewrite Hv. case_match; [by apply loads_ret|]. apply map_get_elem, object_at_strictly in Hv.
      eapply loads_bind; [done|by apply total_of, Hrec|]. intros i. apply loads_ret. intros len [_ Hi]. by apply Forall_singleton.
    + intros len a Ha. rewrite concat_snd. apply Forall_concat. by apply Forall_fmap.
  - intros props. pose proof (up_and _ _ HP (up_nodes (concat props).*2)) as H1. eapply loads_bind; [done|by apply additional_total|].
    intros [permits extra]. pose proof (up_and _ _ H1 (up_nodes (option_list extra))) as H2.
    eapply loads_bind; [done|apply load_entries_total; [done|apply object_at_strictly]|].
    intros patterns. pose proof (up_and _ _ H2 (up_nodes patterns.*2)) as H3.
    eapply loads_bind; [done|apply load_entries_total; [done|]|].
    { intros e [_ He]%list_elem_of_filter. by apply object_at_strictly in He. }
    intros deps. apply total_push; [|intros _; by apply node_ok_bare]. intros len H. destruct_and! H. cbn in *. by repeat (apply Forall_app; split).
Qed.

Lemma load_leaf_total P k : up P → children k = [] → (sound → kind_sound k) → total n P (push (bare k)) node.
Proof. intros HP Hk Hs. apply total_push; [|auto using node_ok_bare]. intros len _. cbn. by rewrite Hk. Qed.
Lemma load_string_total P : up P → total n P (load_string o) node.
Proof. intros HP. by apply load_leaf_total. Qed.
Lemma load_number_total P b : up P → total n P (load_number draft4 o b) node.
Proof. intros HP. apply load_leaf_total; [done..|]. intros (_ & Hm & _)%Hsound. by split. Qed.

(** A step that answers a node, then some words. *)
Lemma tag_total {B} P (m : LM nat) (b : B) : up P → total n P m node → total n P (i ← m; mret (i, b)) (λ len a, node len a.1).
Proof. intros HP Hm. eapply loads_bind; [done|exact Hm|]. intros i. by apply loads_ret; intros len [_ ?]. Qed.

Lemma load_typed_total P t remaining : up P → total n P (load_typed draft4 rec t o doc doc_key remaining) (λ len a, node len a.1).
Proof.
  intros HP. unfold load_typed. repeat case_decide; (apply tag_total; [done|]);
    [by apply load_string_total|by apply load_number_total..|by apply load_leaf_total|by apply load_leaf_total|by apply load_array_total|by apply load_obj_total|by apply load_leaf_total].
Qed.

Lemma load_types_total P ts remaining : up P →
  total n P (load_types draft4 rec ts o doc doc_key remaining) (lists (λ a : list nat * list string, a.1)).
Proof.
  revert P remaining. induction ts as [|t ts IH]; intros P remaining HP; cbn [load_types]; [by apply loads_ret|].
  eapply loads_bind; [done|by apply load_typed_total|]. intros [i rem]. pose proof (up_and _ _ HP (up_node i)) as H1.
  eapply loads_bind; [done|by apply IH|]. intros [ns rem']. apply loads_ret. intros len [[_ ?] ?]. by constructor.
Qed.

Lemma load_combined_total P key : up P → total n P (load_combined rec o doc doc_key key) node.
Proof.
  intros HP. unfold load_combined. eapply loads_bind; [done|apply (total_map n P _ node); [done|intros; apply up_node|]|].
  - intros x Hx. apply total_of. destruct (map_get key o) as [[]|] eqn:E; cbn in Hx; try by apply not_elem_of_nil in Hx.
    apply map_get_strictly in E. eapply rec_below; [exact E|]. by apply strictly_inside, array_strictly.
  - intros subs. apply total_push; [by intros len [_ ?]|intros _; by apply node_ok_bare].
Qed.

Lemma sniff_total P keys ok load acc : up P → (∀ P, up P → total n P load node) →
  total n (λ len, P len ∧ Forall (node len) acc.1) (sniff keys ok load acc) (lists (λ a : list nat * list string, a.1)).
Proof.
  intros HP Hl. destruct acc as [ex rem]. unfold sniff. pose proof (up_and _ _ HP (up_nodes ex)) as H1.
  case_match; [|apply loads_ret; by intros len [_ ?]].
  eapply loads_bind; [done|by apply Hl|]. intros i. apply loads_ret. intros len [[_ ?] ?]. apply Forall_app. split; [done|by apply Forall_singleton].
Qed.

Lemma sniff_bind {B} P keys ok load acc (f : list nat * list string → LM B) R : up P → (∀ P, up P → total n P load node) →
  (∀ acc, total n (λ len, P len ∧ Forall (node len) acc.1) (f acc) R) →
  total n (λ len, P len ∧ Forall (node len) acc.1) (sniff keys ok load acc ≫= f) R.
Proof.
  intros HP Hl Hf. eapply loads_bind; [apply up_and; [done|apply up_nodes]|by apply sniff_total|].
  intros acc'. eapply total_pre; [apply Hf|]. by intros len [[? _] ?].
Qed.

(** One more node, and its keywords consumed. *)
Lemma extend_total {B} P ex (m : LM nat) (b : B) : up P → total n (λ len, P len ∧ Forall (node len) ex) m node →
  total n (λ len, P len ∧ Forall (node len) ex) (i ← m; mret (ex ++ [i], b)) (lists (λ a : list nat * B, a.1)).
Proof.
  intros HP Hm. eapply loads_bind; [by apply up_and, up_nodes|exact Hm|]. intros i. apply loads_ret.
  intros len [[_ ?] ?]. apply Forall_app. split; [done|by apply Forall_singleton].
Qed.

Lemma load_object_total P : up P → (∀ r, map_get "$ref" o ≫= as_str = Some r → total n (λ _, True) (load_ref refs rec r doc doc_key) node) →
  total n P (load_object refs draft4 rec o doc doc_key) node.
Proof.
  intros HP Href. unfold load_object.
  assert (∀ k, (sound → kind_sound k) → sound → node_ok (mkSNode k (str_at (id_keyword draft4) o) (str_at "title" o) (str_at "description" o) (map_get "default" o))) as Hnode.
  { intros k Hk Hs. destruct (Hk Hs) as [? ?]. split; [done|]. split; [done|]. unfold default_wf. cbn.
    destruct (map_get "default" o) as [x|] eqn:E; [|done]. apply map_get_strictly in E as (_ & _ & E). auto using doc_ok_wf. }
  destruct (map_get "$ref" o ≫= as_str) as [r|].
  { eapply loads_bind; [done|by apply total_of, Href|]. intros t. apply total_push; [intros len [_ ?]; by apply Forall_singleton|]. apply Hnode. intros _. by split. }
  eapply loads_bind with (Q := lists (λ a : list nat * list string, a.1)); [done| |].
  { destruct (map_get "enum" o) as [[]|] eqn:E; try by apply loads_ret. apply map_get_strictly in E as (_ & _ & E).
    eapply loads_bind; [done|apply load_leaf_total; [done..|]; intros Hs; split; [done|]; apply doc_ok_array; auto|]. intros i. apply loads_ret. intros len [_ ?]. by apply Forall_singleton. }
  intros [ex0 rem0]. eapply loads_bind; [apply up_and; [done|apply up_nodes]| |].
  { apply (total_map n _ _ node); [apply up_and; [done|apply up_nodes]|intros; apply up_node|].
    intros key _. apply load_combined_total. apply up_and; [done|apply up_nodes]. }
  intros combined. eapply total_pre with (P' := λ len, P len ∧ Forall (node len) (ex0 ++ combined)); [|].
  2: { intros len [[? ?] ?]. split; [done|]. by apply Forall_app. }
  generalize (ex0 ++ combined) as ex1, (consume ["allOf"; "anyOf"; "oneOf"] rem0) as rem1. intros ex1 rem1.
  eapply loads_bind with (Q := lists (λ a : list nat * list string, a.1)); [apply up_and; [done|apply up_nodes]| |].
  { destruct (map_get "not" o) as [x|] eqn:E; [|apply loads_ret; by intros len [_ ?]]. cbn [fst snd].
    eapply loads_bind; [apply up_and; [done|apply up_nodes]|apply total_of, Hrec; by eapply map_get_strictly|].
    intros i. eapply total_pre with (P' := λ len, (P len ∧ node len i) ∧ Forall (node len) ex1); [|by intros len [[? ?] ?]].
    apply extend_total; [by apply up_and, up_node|]. apply total_push; [intros len [[_ ?] _]; by apply Forall_singleton|intros _; by apply node_ok_bare]. }
  intros [ex2 rem2]. eapply total_pre with (P' := λ len, P len ∧ Forall (node len) ex2); [|by intros len [[? _] ?]].
  eapply loads_bind with (Q := lists (λ a : list nat * list string, a.1)); [apply up_and; [done|apply up_nodes]| |].
  { destruct (if draft4 then None else map_get "const" o) as [x|] eqn:E; [|apply loads_ret; by intros len [_ ?]].
    apply extend_total; [done|]. apply load_leaf_total; [apply up_and; [done|apply up_nodes]|done|]. intros Hs. split; [done|].
    destruct draft4; [done|]. apply map_get_strictly in E as (_ & _ & E). apply doc_ok_wf; auto. }
  intros [ex3 rem3]. eapply total_pre with (P' := λ len, P len ∧ Forall (node len) ex3); [|by intros len [[? _] ?]].
  eapply loads_bind with (Q := lists (λ a : list nat * list string, a.1)); [apply up_and; [done|apply up_nodes]| |].
  { pose proof (up_and _ _ HP (up_nodes ex3)) as H1. destruct (map_get "type" o) as [[]|]; try (apply loads_ret; by intros len [_ ?]).
    - eapply loads_bind; [done|by apply load_typed_total|]. intros [i rem]. apply loads_ret. intros len [[_ ?] ?].
      apply Forall_app. split; [done|by apply Forall_singleton].
    - eapply loads_bind; [done|by apply load_types_total|]. intros [subs rem].
      eapply total_pre with (P' := λ len, (P len ∧ Forall (node len) subs) ∧ Forall (node len) ex3); [|by intros len [[? ?] ?]].
      apply extend_total; [by apply up_and, up_nodes|]. apply total_push; [by intros len [[_ ?] _]|intros _; by apply node_ok_bare]. }
  intros [ex4 rem4]. eapply total_pre with (P' := λ len, P len ∧ Forall (node len) (ex4, consume ["type"] rem4).1); [|by intros len [[? _] ?]].
  apply sniff_bind; [done|intros; by apply load_array_total|]. intros acc1.
  apply sniff_bind; [done|intros; by apply load_obj_total|]. intros acc2.
  apply sniff_bind; [done|intros; by apply load_number_total|]. intros ?.
  apply sniff_bind; [done|intros; by apply load_string_total|]. intros ?.
  apply sniff_bind; [done|intros; by apply load_leaf_total|]. intros acc3.
  destruct acc3 as [ex rem]. cbn [fst]. pose proof (up_and _ _ HP (up_nodes ex)) as H1. destruct ex as [|only [|i ex]].
  - apply total_push; [intros len _; constructor|]. by apply Hnode.
  - eapply loads_bind; [done|apply total_replace|].
    + intros len [_ Ho]. split; [by apply Forall_cons in Ho as [? _]|constructor].
    + intros _. constructor.
    + intros _. by apply node_ok_bare.
    + intros old. intros st Hwf Hb (HP1 & Hc & Hg). apply (total_push n (λ len, Forall (node len) (children (sn_kind old)))); [done| |done..].
      apply Hnode. intros Hs. destruct (Hg Hs) as (? & ? & ?). by split.
  - apply total_push; [by intros len [_ ?]|]. by apply Hnode.
Qed.
End object.
End total.

(** * Whole documents *)

Section documents.
Context (refs : list (string * Value)) (draft4 : bool) (R : list string) (limit : nat) (plain sound : Prop).

Definition tame (v : Value) : Prop := vsize v ≤ limit ∧ refs_of v ⊆ R ∧ (sound → doc_ok v).
Definition doc_keys : list string := "" :: ((λ r, (split_ref r).1) <$> R).
(** The keys references are cached under: a document and a fragment. *)
Definition ref_keys : gset (string * string) := list_to_set (list_prod doc_keys ((λ r, (split_ref r).2) <$> R)).

Hypothesis Hrefs : ∀ e, e ∈ refs → tame e.2.
Hypothesis Hplain : plain → R = [].

Lemma tame_inside x v : inside x v → tame v → tame x.
Proof. intros (? & ? & ?) (? & ? & ?). split_and!; [lia|set_solver|auto]. Qed.

Lemma elem_of_ref_keys k r : k ∈ doc_keys → r ∈ R → (k, (split_ref r).2) ∈ ref_keys.
Proof.
  intros Hk Hr. apply elem_of_list_to_set, list_elem_of_In, in_prod; apply list_elem_of_In; [done|].
  apply list_elem_of_fmap. by exists r.
Qed.

Lemma swap_total n i j : ¬ plain → total ref_keys plain sound n (λ len, node len i ∧ node len j)
  (n ← replace_node j (bare KEmpty); _ ← replace_node i n; _ ← replace_node j (bare (KRef i)); mret i) node.
Proof.
  intros Hpl. assert (up (λ len, node len i ∧ node len j)) as Hup by (apply up_and; apply up_node).
  eapply loads_bind; [done|apply total_replace; [by intros len [? ?]|done|intros _; by apply node_ok_bare]|]. intros k.
  intros st Hwf Hb ((Hi & Hj) & Hc & Hg). revert st Hwf Hb Hi Hj Hc.
  enough (total ref_keys plain sound n (λ len, (node len i ∧ node len j) ∧ Forall (node len) (children (sn_kind k)))
    (_ ← replace_node i k; _ ← replace_node j (bare (KRef i)); mret i) node) as H by (intros; by apply H).
  pose proof (up_and _ _ Hup (up_nodes (children (sn_kind k)))) as Hup1.
  eapply loads_bind; [done|apply total_replace; [by intros len [[? ?] ?]|done|done]|]. intros k1.
  eapply loads_bind; [|apply total_replace; [|done|intros _; by apply node_ok_bare]|].
  - intros a b Hle [H1 [H2 H3]]. split; [by eapply Hup1|split; [by eapply up_nodes|done]].
  - intros len [[[? ?] ?] ?]. split; [done|]. by apply Forall_singleton.
  - intros k2. apply loads_ret. naive_solver.
Qed.

Lemma load_ref_total n rec r doc key : tame doc → key ∈ doc_keys → r ∈ R →
  (∀ m v doc key, m < n → tame v → tame doc → key ∈ doc_keys → total ref_keys plain sound m (λ _, True) (rec v doc key) node) →
  total ref_keys plain sound n (λ _, True) (load_ref refs rec r doc key) node.
Proof.
  intros Hdoc Hkey Hr Hrec. unfold load_ref. pose proof (elem_of_ref_keys) as HU. destruct (split_ref r) as [base frag] eqn:Es.
  destruct (if decide (base = "") then _ else _) as [[td key']|] eqn:Et; [|apply total_push; [done|intros _; by apply node_ok_bare]].
  assert (¬ plain) as Hpl by (intros H%Hplain; rewrite H in Hr; by apply not_elem_of_nil in Hr).
  assert (tame td ∧ key' ∈ doc_keys) as [Htd Hk'].
  { case_decide; [by simplify_eq|]. destruct (find_doc refs base) as [[k d]|] eqn:Ed; [|done]. injection Et as <- <-.
    apply find_doc_elem, Hrefs in Ed. split; [done|]. right. apply list_elem_of_fmap. exists r. by rewrite Es. }
  specialize (HU key' r Hk' Hr). rewrite Es in HU. cbn in HU. intros st Hwf Hb _. unfold mbind, lm_bind, cached_ref.
  destruct (ld_cache st !! (key', frag)) as [i|] eqn:Ec.
  { exists i, st. split_and!; [done..|]. destruct Hwf as (_ & Hc & _). by apply (Hc (key', frag)). }
  cbn [push]. set (st2 := mkLoader (ld_nodes st ++ [bare KEmpty]) (<[(key', frag) := count st]> (ld_cache st))).
  assert (state_wf plain sound st2) as Hwf2.
  { destruct Hwf as (Hn & Hc & _ & Hok). split_and!; cbn; [by apply nodes_wf_push| |done|].
    - rewrite length_app. cbn. apply map_Forall_insert_2; [lia|]. eapply map_Forall_impl; [exact Hc|]. intros ? i ?. cbn in *. lia.
    - intros H. apply Forall_app. split; [auto|]. apply Forall_singleton. by apply node_ok_bare. }
  assert (grows st st2) as Hg2. { split; cbn; [rewrite length_app; lia|]. rewrite dom_insert. set_solver. }
  assert (budget ref_keys st2 < budget ref_keys st) as Hb2.
  { unfold budget. apply subset_size. cbn. rewrite dom_insert. apply not_elem_of_dom in Ec.
    split; [set_solver|]. intros Hsub. assert ((key', frag) ∈ ref_keys ∖ dom (ld_cache st)) as Hin by set_solver. set_solver. }
  assert (node (count st2) (count st)) as Hi. { unfold node. cbn. rewrite length_app. cbn. lia. }
  destruct (find_fragment frag td) as [[p t]|] eqn:Ef.
  - apply find_fragment_inside in Ef. destruct (Hrec (n - 1) t td key') with (st := st2) as (loaded & st3 & E & Hwf3 & Hg3 & Hl); [lia|by eapply tame_inside|done..|lia|done|].
    unfold cache_ref. cbn [ld_nodes ld_cache]. unfold st2 in E. rewrite E.
    destruct (swap_total n (count st) loaded Hpl st3 Hwf3) as (a & st4 & E4 & Hwf4 & Hg4 & Ha).
    { pose proof (budget_grows ref_keys _ _ Hg3). lia. }
    { split; [|done]. unfold node in *. destruct Hg3 as [? _]. lia. }
    exists a, st4. split_and!; [exact E4|done| |done]. etrans; [exact Hg2|]. by etrans.
  - exists (count st), st2. by split_and!.
Qed.

Lemma load_total fuel n v doc key : tame v → tame doc → key ∈ doc_keys → n * S limit + vsize v < fuel →
  total ref_keys plain sound n (λ _, True) (load refs draft4 fuel v doc key) node.
Proof.
  revert n v doc key. induction fuel as [|fuel IH]; intros n v doc key Hv Hdoc Hkey Hf; [lia|]. cbn [load].
  assert (∀ k, kind_sound k → children k = [] → total ref_keys plain sound n (λ _, True) (push (bare k)) node) as Hleaf.
  { intros k Hk Hc. apply total_push; [cbn; rewrite Hc; constructor|auto using node_ok_bare]. }
  destruct v as [|b| | | |o]; try (by apply Hleaf); [destruct b; by apply Hleaf|]. cbn [load_value].
  apply load_object_total; [|apply Hv|done|].
  - intros x Hx. pose proof Hx as (? & _ & _). apply IH; [by eapply tame_inside; [apply strictly_inside|]|done..|lia].
  - intros r Hr. apply load_ref_total; [done..| |].
    + destruct Hv as (_ & Hv & _). apply Hv. cbn [refs_of]. rewrite Hr. by left.
    + intros m v' doc' key' Hm Hv' Hdoc' Hkey'. apply IH; [done..|]. assert (S m * S limit ≤ n * S limit) by (apply Nat.mul_le_mono_r; lia).
      destruct Hv' as (? & _). lia.
Qed.
End documents.

(** * More fuel changes nothing *)

Definition lm_le {A} (m m' : LM A) : Prop := ∀ st r, m st = Some r → m' st = Some r.

Lemma lm_le_refl {A} (m : LM A) : lm_le m m.
Proof. by intros st r. Qed.
Lemma lm_le_bind {A B} (m m' : LM A) (f f' : A → LM B) : lm_le m m' → (∀ a, lm_le (f a) (f' a)) → lm_le (m ≫= f) (m' ≫= f').
Proof.
  intros Hm Hf st r. unfold mbind, lm_bind. destruct (m st) as [[a st1]|] eqn:E; [|done]. rewrite (Hm _ _ E). apply Hf.
Qed.
Lemma lm_le_map {A B} (f f' : A → LM B) l : (∀ a, lm_le (f a) (f' a)) → lm_le (lm_map f l) (lm_map f' l).
Proof.
  intros Hf. induction l as [|x l IH]; cbn [lm_map]; [apply lm_le_refl|]. apply lm_le_bind; [done|]. intros y.
  apply lm_le_bind; [done|]. intros ys. apply lm_le_refl.
Qed.

Create HintDb more_fuel.
#[export] Hint Resolve lm_le_refl lm_le_bind lm_le_map : more_fuel.
Ltac more_fuel := repeat first [done|by auto with more_fuel|apply lm_le_bind; [|intros ?]|apply lm_le_map; intros ?|case_match].

Section more_fuel.
Context (refs : list (string * Value)) (draft4 : bool) (rec rec' : Value → Value → string → LM nat).
Hypothesis Hrec : ∀ v doc key, lm_le (rec v doc key) (rec' v doc key).

Lemma load_array_mono o doc key : lm_le (load_array rec o doc key) (load_array rec' o doc key).
Proof. unfold load_array. more_fuel. Qed.
Lemma load_obj_mono o doc key : lm_le (load_obj draft4 rec o doc key) (load_obj draft4 rec' o doc key).
Proof. unfold load_obj, load_property, load_entry. more_fuel. Qed.
Lemma load_typed_mono t o doc key rem : lm_le (load_typed draft4 rec t o doc key rem) (load_typed draft4 rec' t o doc key rem).
Proof. pose proof load_array_mono. pose proof load_obj_mono. unfold load_typed. more_fuel. Qed.
Lemma load_types_mono ts o doc key rem : lm_le (load_types draft4 rec ts o doc key rem) (load_types draft4 rec' ts o doc key rem).
Proof. pose proof load_typed_mono. revert rem. induction ts as [|t ts IH]; intros rem; cbn [load_types]; more_fuel. Qed.
Lemma load_ref_mono r doc key : lm_le (load_ref refs rec r doc key) (load_ref refs rec' r doc key).
Proof. unfold load_ref. more_fuel. Qed.
Lemma sniff_mono keys ok m m' acc : lm_le m m' → lm_le (sniff keys ok m acc) (sniff keys ok m' acc).
Proof. intros. unfold sniff. more_fuel. Qed.

Lemma load_value_mono v doc key : lm_le (load_value refs draft4 rec v doc key) (load_value refs draft4 rec' v doc key).
Proof.
  pose proof load_array_mono. pose proof load_obj_mono. pose proof load_typed_mono. pose proof load_types_mono. pose proof load_ref_mono.
  pose proof sniff_mono. unfold load_value, load_object, load_combined. more_fuel.
Qed.
End more_fuel.

Lemma load_mono refs draft4 fuel fuel' v doc key : fuel ≤ fuel' → lm_le (load refs draft4 fuel v doc key) (load refs draft4 fuel' v doc key).
Proof.
  revert fuel' v doc key. induction fuel as [|fuel IH]; intros fuel' v doc key Hle; [done|]. destruct fuel' as [|fuel']; [lia|].
  cbn [load]. apply load_value_mono. intros. apply IH. lia.
Qed.

Lemma build_model_mono fuel fuel' d m : fuel ≤ fuel' → build_model_fuel fuel d = Some m → build_model_fuel fuel' d = Some m.
Proof.
  intros Hle. unfold build_model_fuel. destruct (load _ _ fuel _ _ _ _) as [[root st]|] eqn:E; [|done].
  by rewrite (load_mono _ _ _ _ _ _ _ Hle _ _ E).
Qed.

(** * Every document *)

(** Every index of a model is in range, its root included. *)
Definition model_wf (m : ModelS) : Prop := nodes_wf (md_nodes m) ∧ md_root m < length (md_nodes m).

(** The references of a document and of what it may refer to. *)
Definition all_docs (d : JsonDoc) : list Value := jd_root d :: (jd_refs d).*2.
Definition all_refs (d : JsonDoc) : list string := foldr (λ v r, refs_of v ++ r) [] (all_docs d).

Lemma build_model_ends (d : JsonDoc) : ∃ m, model_wf m ∧ (all_refs d = [] → nodes_below (md_nodes m)) ∧
  (Forall doc_ok (all_docs d) → Forall node_ok (md_nodes m)) ∧ ∃ fuel, ∀ fuel', fuel ≤ fuel' → build_model_fuel fuel' d = Some m.
Proof.
  set (limit := foldr (λ v n, vsize v + n) 0 (all_docs d)). set (R := all_refs d). set (sound := Forall doc_ok (all_docs d)).
  assert (∀ v, v ∈ all_docs d → tame R limit sound v) as Htame.
  { intros v Hv. unfold tame. rewrite (assoc and). split; [|intros Hs; by apply (proj1 (Forall_forall _ _) Hs)]. revert Hv. unfold R, all_refs, limit. clear.
    induction (all_docs d) as [|x l IH]; [by intros ?%not_elem_of_nil|]. cbn [foldr].
    intros [->|Hv]%elem_of_cons; [split; [lia|set_solver]|]. destruct (IH Hv). split; [lia|set_solver]. }
  assert (∀ e, e ∈ jd_refs d → tame R limit sound e.2) as Hrefs.
  { intros e He. apply Htame. right. apply list_elem_of_fmap. by exists e. }
  assert (tame R limit sound (jd_root d)) as Hroot by (apply Htame; by left).
  set (n := size (ref_keys R)). set (fuel := S (n * S limit + vsize (jd_root d))).
  destruct (load_total (jd_refs d) (is_draft4 (jd_root d)) R limit (R = []) sound Hrefs id fuel n (jd_root d) (jd_root d) "" Hroot Hroot) with (st := mkLoader [] ∅)
    as (root & st & E & (Hwf & _ & Hbelow & Hok) & _ & Hr); [by left|unfold fuel; lia|split_and!; [constructor|apply map_Forall_empty|by intros _ i|by constructor]| |done|].
  { unfold budget, n. apply subseteq_size. set_solver. }
  exists (mkModelS (ld_nodes st) root). split_and!; [done..|]. exists fuel. intros fuel' Hle. eapply build_model_mono; [exact Hle|].
  unfold build_model_fuel. by rewrite E.
Qed.

(** * Theorem *)

(** (C21) Loading ends, for every document and every set of references, however they
    refer to each other: with enough fuel the answer is one and the same model.
    Every index of that model is in range, so the comparison that follows never
    reaches outside it. *)
Theorem build_model_total (d : JsonDoc) : ∃ m, model_wf m ∧ ∃ fuel, ∀ fuel', fuel ≤ fuel' → build_model_fuel fuel' d = Some m.
Proof. destruct (build_model_ends d) as (m & Hm & _ & _ & Hf). by exists m. Qed.
