(* ===== verification/JsonDiff.v ===== *)
(** Comparison of JSON Schemas (schema/json.rs): the differences between a
    writer (the original) and a reader (the update), which of them break
    compatibility, and how they are reported. *)
From S2P Require Import Prelude SortedVec RustStr Errors Json Model Context Snapshot Keys SchemaLayer JavaOrder Views Float64 Matching JsonSchema.

Open Scope string_scope.
Open Scope nat_scope.
Open Scope list_scope.

(** * Differences *)

Definition COMPATIBLE : list string := [
  "ID_CHANGED"; "DESCRIPTION_CHANGED"; "TITLE_CHANGED"; "DEFAULT_CHANGED"; "SCHEMA_REMOVED"; "TYPE_EXTENDED";
  "MAX_LENGTH_INCREASED"; "MAX_LENGTH_REMOVED"; "MIN_LENGTH_DECREASED"; "MIN_LENGTH_REMOVED"; "PATTERN_REMOVED";
  "MAXIMUM_INCREASED"; "MAXIMUM_REMOVED"; "MINIMUM_DECREASED"; "MINIMUM_REMOVED"; "EXCLUSIVE_MAXIMUM_INCREASED";
  "EXCLUSIVE_MAXIMUM_REMOVED"; "EXCLUSIVE_MINIMUM_DECREASED"; "EXCLUSIVE_MINIMUM_REMOVED"; "MULTIPLE_OF_REDUCED";
  "MULTIPLE_OF_REMOVED"; "REQUIRED_ATTRIBUTE_WITH_DEFAULT_ADDED"; "REQUIRED_ATTRIBUTE_REMOVED"; "DEPENDENCY_ARRAY_NARROWED";
  "DEPENDENCY_ARRAY_REMOVED"; "DEPENDENCY_SCHEMA_REMOVED"; "MAX_PROPERTIES_INCREASED"; "MAX_PROPERTIES_REMOVED";
  "MIN_PROPERTIES_DECREASED"; "MIN_PROPERTIES_REMOVED"; "ADDITIONAL_PROPERTIES_ADDED"; "ADDITIONAL_PROPERTIES_EXTENDED";
  "PROPERTY_WITH_EMPTY_SCHEMA_ADDED_TO_OPEN_CONTENT_MODEL"; "REQUIRED_PROPERTY_WITH_DEFAULT_ADDED_TO_UNOPEN_CONTENT_MODEL";
  "OPTIONAL_PROPERTY_ADDED_TO_UNOPEN_CONTENT_MODEL"; "PROPERTY_WITH_FALSE_REMOVED_FROM_CLOSED_CONTENT_MODEL";
  "PROPERTY_REMOVED_FROM_OPEN_CONTENT_MODEL"; "PROPERTY_ADDED_IS_COVERED_BY_PARTIALLY_OPEN_CONTENT_MODEL";
  "PROPERTY_REMOVED_IS_COVERED_BY_PARTIALLY_OPEN_CONTENT_MODEL"; "MAX_ITEMS_INCREASED"; "MAX_ITEMS_REMOVED";
  "MIN_ITEMS_DECREASED"; "MIN_ITEMS_REMOVED"; "UNIQUE_ITEMS_REMOVED"; "ADDITIONAL_ITEMS_ADDED"; "ADDITIONAL_ITEMS_EXTENDED";
  "ITEM_WITH_EMPTY_SCHEMA_ADDED_TO_OPEN_CONTENT_MODEL"; "ITEM_ADDED_TO_CLOSED_CONTENT_MODEL";
  "ITEM_WITH_FALSE_REMOVED_FROM_CLOSED_CONTENT_MODEL"; "ITEM_REMOVED_FROM_OPEN_CONTENT_MODEL";
  "ITEM_ADDED_IS_COVERED_BY_PARTIALLY_OPEN_CONTENT_MODEL"; "ITEM_REMOVED_IS_COVERED_BY_PARTIALLY_OPEN_CONTENT_MODEL";
  "ENUM_ARRAY_EXTENDED"; "COMBINED_TYPE_EXTENDED"; "PRODUCT_TYPE_NARROWED"; "SUM_TYPE_EXTENDED"; "NOT_TYPE_NARROWED"].

Record Diff := mkDiff { df_kind : string; df_path : string }.
Definition incompatible (d : Diff) : bool := negb (bool_decide (df_kind d ∈ COMPATIBLE)).

(** ** Messages *)

Definition KEYWORD : list string := [
  "MAXIMUM_ADDED"; "MINIMUM_ADDED"; "EXCLUSIVE_MAXIMUM_ADDED"; "EXCLUSIVE_MINIMUM_ADDED"; "MULTIPLE_OF_ADDED";
  "MAX_LENGTH_ADDED"; "MIN_LENGTH_ADDED"; "PATTERN_ADDED"; "REQUIRED_ATTRIBUTE_ADDED"; "MAX_PROPERTIES_ADDED";
  "MIN_PROPERTIES_ADDED"; "DEPENDENCY_ARRAY_ADDED"; "DEPENDENCY_SCHEMA_ADDED"; "MAX_ITEMS_ADDED"; "MIN_ITEMS_ADDED";
  "UNIQUE_ITEMS_ADDED"; "ADDITIONAL_ITEMS_REMOVED"; "ADDITIONAL_PROPERTIES_REMOVED"].
Definition INCREASED : list string := [
  "MIN_LENGTH_INCREASED"; "MINIMUM_INCREASED"; "EXCLUSIVE_MINIMUM_INCREASED"; "MIN_PROPERTIES_INCREASED"; "MULTIPLE_OF_EXPANDED"; "MIN_ITEMS_INCREASED"].
Definition DECREASED : list string := [
  "MAX_LENGTH_DECREASED"; "MAXIMUM_DECREASED"; "MAX_ITEMS_DECREASED"; "EXCLUSIVE_MAXIMUM_DECREASED"; "MAX_PROPERTIES_DECREASED"].
Definition CHANGED : list string := ["PATTERN_CHANGED"; "MULTIPLE_OF_CHANGED"; "DEPENDENCY_ARRAY_CHANGED"].
Definition NARROWED : list string := ["ADDITIONAL_ITEMS_NARROWED"; "ENUM_ARRAY_NARROWED"; "SUM_TYPE_NARROWED"; "ADDITIONAL_PROPERTIES_NARROWED"].
Definition EXTENDED : list string := ["DEPENDENCY_ARRAY_EXTENDED"; "PRODUCT_TYPE_EXTENDED"; "SUM_TYPE_EXTENDED"; "NOT_TYPE_EXTENDED"].
Definition TYPE : list string := ["TYPE_CHANGED"; "TYPE_NARROWED"; "COMBINED_TYPE_CHANGED"; "COMBINED_TYPE_SUBSCHEMAS_CHANGED"; "ENUM_ARRAY_CHANGED"].

Definition describe (k p a b : string) : string :=
  if decide (k ∈ KEYWORD) then "The keyword at path '" +:+ p +:+ "' in the " +:+ a +:+ " schema is not present in the " +:+ b +:+ " schema"
  else if decide (k ∈ INCREASED) then "The value at path '" +:+ p +:+ "' in the " +:+ a +:+ " schema is more than its value in the " +:+ b +:+ " schema"
  else if decide (k ∈ DECREASED) then "The value at path '" +:+ p +:+ "' in the " +:+ a +:+ " schema is less than its value in the " +:+ b +:+ " schema"
  else if decide (k ∈ CHANGED) then "The value at path '" +:+ p +:+ "' is different between the " +:+ a +:+ " and " +:+ b +:+ " schema"
  else if decide (k ∈ NARROWED) then
    "An array or combined type at path '" +:+ p +:+ "' has fewer elements in the " +:+ a +:+ " schema than the " +:+ b +:+ " schema"
  else if decide (k ∈ EXTENDED) then
    "An array or combined type at path '" +:+ p +:+ "' has more elements in the " +:+ a +:+ " schema than the " +:+ b +:+ " schema"
  else if decide (k ∈ TYPE) then "A type at path '" +:+ p +:+ "' is different between the " +:+ a +:+ " schema and the " +:+ b +:+ " schema"
  else if decide (k ∈ ["PROPERTY_ADDED_TO_OPEN_CONTENT_MODEL"; "ITEM_ADDED_TO_OPEN_CONTENT_MODEL"]) then
    "The " +:+ a +:+ " schema has an open content model and has a property or item at path '" +:+ p +:+ "' which is missing in the " +:+ b +:+ " schema"
  else if decide (k = "REQUIRED_PROPERTY_ADDED_TO_UNOPEN_CONTENT_MODEL") then
    "The " +:+ a +:+ " schema has an unopen content model and has a required property at path '" +:+ p +:+ "' which is missing in the " +:+ b +:+ " schema"
  else if decide (k ∈ ["PROPERTY_REMOVED_FROM_CLOSED_CONTENT_MODEL"; "ITEM_REMOVED_FROM_CLOSED_CONTENT_MODEL"]) then
    "The " +:+ a +:+ " has a closed content model and is missing a property or item present at path '" +:+ p +:+ "' in the " +:+ b +:+ " schema"
  else if decide (k ∈ ["PROPERTY_REMOVED_NOT_COVERED_BY_PARTIALLY_OPEN_CONTENT_MODEL"; "ITEM_REMOVED_NOT_COVERED_BY_PARTIALLY_OPEN_CONTENT_MODEL"]) then
    "A property or item is missing in the " +:+ a +:+ " schema but present at path '" +:+ p +:+ "' in the " +:+ b +:+
    " schema and is not covered by its partially open content model"
  else if decide (k ∈ ["PROPERTY_ADDED_NOT_COVERED_BY_PARTIALLY_OPEN_CONTENT_MODEL"; "ITEM_ADDED_NOT_COVERED_BY_PARTIALLY_OPEN_CONTENT_MODEL"]) then
    "The " +:+ a +:+ " schema has a property or item at path '" +:+ p +:+ "' which is missing in the " +:+ b +:+
    " schema and is not covered by its partially open content model"
  else "".
Definition render (d : Diff) (a b : string) : string :=
  let q := str1 (byte 34) in
  "{errorType:" +:+ q +:+ df_kind d +:+ q +:+ ", description:" +:+ q +:+ describe (df_kind d) (df_path d) a b +:+ "'}".

(** * The comparison *)

(** The nodes of both models, where we are, what was found, and the original
    schemas being compared (the cycle guard). *)
Record Ctx := mkCtx { cx_o : list SNode; cx_u : list SNode; cx_path : list string; cx_diffs : list Diff; cx_stack : list nat }.

(** A step of the comparison; [None] when the fuel is used up or an index or an
    arithmetic operation panics. *)
Definition DM : Type := Ctx → option Ctx.
Definition dret : DM := Some.
Definition dseq (m n : DM) : DM := λ c, c ← m c; n c.
Fixpoint dall {A} (f : A → DM) (l : list A) : DM := match l with [] => dret | x :: l => dseq (f x) (dall f l) end.
Definition dwhen (b : bool) (m : DM) : DM := if b then m else dret.

Definition sub_ctx (c : Ctx) : Ctx := mkCtx (cx_o c) (cx_u c) (cx_path c) [] (cx_stack c).
Definition compatible (c : Ctx) : bool := negb (existsb incompatible (cx_diffs c)).
Definition extend (ds : list Diff) (c : Ctx) : Ctx := mkCtx (cx_o c) (cx_u c) (cx_path c) (cx_diffs c ++ ds) (cx_stack c).
Definition add (kind : string) : DM := λ c, Some (extend [mkDiff kind ("#/" +:+ join "/" (cx_path c))] c).
Definition with_path (p : list string) (c : Ctx) : Ctx := mkCtx (cx_o c) (cx_u c) p (cx_diffs c) (cx_stack c).
(** [path.push(name)], the step, [path.pop()]. *)
Definition within (name : string) (m : DM) : DM := λ c,
  c ← m (with_path (cx_path c ++ [name]) c); Some (with_path (removelast (cx_path c)) c).
Definition add_at (attr kind : string) : DM := within attr (add kind).
Definition with_stack (s : list nat) (c : Ctx) : Ctx := mkCtx (cx_o c) (cx_u c) (cx_path c) (cx_diffs c) s.

Definition deref (nodes : list SNode) (i : nat) : option nat :=
  n ← nodes !! i; Some match sn_kind n with KRef t => t | _ => i end.
(** The kind behind an index. *)
Definition kind_at (nodes : list SNode) (i : nat) : option Kind :=
  i ← deref nodes i; n ← nodes !! i; Some (sn_kind n).
Definition is_combined (k : Kind) : bool := match k with KCombined _ _ _ => true | _ => false end.
Definition accepts_all (k : Kind) : bool := match k with KEmpty | KTrue => true | _ => false end.
Definition accepts_none (k : Kind) : bool := match k with KFalse => true | _ => false end.

(** ** Leaves *)

(** What to report for a limit that was added, removed, increased, decreased. *)
Record Limit := mkLimit { added : string; removed : string; increased : string; decreased : string }.

Definition compare_bound (key : string) (o u : option Z) (kinds : Limit) : DM :=
  if decide (o = u) then dret else
  match o, u with
  | None, Some _ => add_at key (added kinds)
  | Some _, None => add_at key (removed kinds)
  | Some a, Some b => if bool_decide (a < b)%Z then add_at key (increased kinds) else if bool_decide (b < a)%Z then add_at key (decreased kinds) else dret
  | None, None => dret
  end.

Definition compare_string (o u : StrS) : DM :=
  dseq (compare_bound "maxLength" (max_length o) (max_length u)
          (mkLimit "MAX_LENGTH_ADDED" "MAX_LENGTH_REMOVED" "MAX_LENGTH_INCREASED" "MAX_LENGTH_DECREASED"))
  (dseq (compare_bound "minLength" (min_length o) (min_length u)
          (mkLimit "MIN_LENGTH_ADDED" "MIN_LENGTH_REMOVED" "MIN_LENGTH_INCREASED" "MIN_LENGTH_DECREASED"))
  match pattern o, pattern u with
  | None, Some _ => add_at "pattern" "PATTERN_ADDED"
  | Some _, None => add_at "pattern" "PATTERN_REMOVED"
  | Some a, Some b => dwhen (negb (bool_decide (a = b))) (add_at "pattern" "PATTERN_CHANGED")
  | None, None => dret
  end).

Definition opt_number_eqb (a b : option Number) : bool :=
  match a, b with None, None => true | Some a, Some b => number_eqb a b | _, _ => false end.
(** Equality of the numbers as they are written, then order as doubles. *)
Definition number_bound (key : string) (a b : option Number) (kinds : Limit) : DM :=
  if opt_number_eqb a b then dret else
  match number_f64 <$> a, number_f64 <$> b with
  | None, Some _ => add_at key (added kinds)
  | Some _, None => add_at key (removed kinds)
  | Some x, Some y => if F64.ltb x y then add_at key (increased kinds) else if F64.ltb y x then add_at key (decreased kinds) else dret
  | None, None => dret
  end.

Definition multiple_kind (a b : Z) : option string :=
  expanded ← (if bool_decide (a = 0%Z) then Some false else r ← i64_rem b a; Some (bool_decide (r = 0%Z)));
  if expanded : bool then Some "MULTIPLE_OF_EXPANDED" else
  reduced ← (if bool_decide (b = 0%Z) then Some false else r ← i64_rem a b; Some (bool_decide (r = 0%Z)));
  Some (if reduced : bool then "MULTIPLE_OF_REDUCED" else "MULTIPLE_OF_CHANGED").
Definition compare_multiple (o u : option Number) : DM :=
  match number_f64 <$> o, number_f64 <$> u with
  | None, None => dret
  | None, Some _ => add_at "multipleOf" "MULTIPLE_OF_ADDED"
  | Some _, None => add_at "multipleOf" "MULTIPLE_OF_REMOVED"
  | Some a, Some b =>
      if F64.eqb a b then dret else λ c, kind ← multiple_kind (F64.to_i64 a) (F64.to_i64 b); add_at "multipleOf" kind c
  end.

Definition compare_number (o u : NumS) : DM :=
  dseq (number_bound "maximum" (maximum o) (maximum u) (mkLimit "MAXIMUM_ADDED" "MAXIMUM_REMOVED" "MAXIMUM_INCREASED" "MAXIMUM_DECREASED"))
  (dseq (number_bound "minimum" (minimum o) (minimum u) (mkLimit "MINIMUM_ADDED" "MINIMUM_REMOVED" "MINIMUM_INCREASED" "MINIMUM_DECREASED"))
  (dseq (number_bound "exclusiveMaximum" (exclusive_maximum o) (exclusive_maximum u)
    (mkLimit "EXCLUSIVE_MAXIMUM_ADDED" "EXCLUSIVE_MAXIMUM_REMOVED" "EXCLUSIVE_MAXIMUM_INCREASED" "EXCLUSIVE_MAXIMUM_DECREASED"))
  (dseq (number_bound "exclusiveMinimum" (exclusive_minimum o) (exclusive_minimum u)
    (mkLimit "EXCLUSIVE_MINIMUM_ADDED" "EXCLUSIVE_MINIMUM_REMOVED" "EXCLUSIVE_MINIMUM_INCREASED" "EXCLUSIVE_MINIMUM_DECREASED"))
  (dseq (compare_multiple (multiple_of o) (multiple_of u))
  (dwhen (negb (bool_decide (requires_integer o = requires_integer u)))
    (add (if requires_integer o then "TYPE_EXTENDED" else "TYPE_NARROWED"))))))).

(** Every value of [y] is in [x]. *)
Definition contains_all (x y : list Value) : bool := forallb (λ v, existsb (λ w, value_eqb w v) x) y.
Definition compare_enum (a b : list Value) : DM :=
  if contains_all a b && contains_all b a then dret
  else if contains_all b a then add_at "enum" "ENUM_ARRAY_EXTENDED"
  else if contains_all a b then add_at "enum" "ENUM_ARRAY_NARROWED"
  else add_at "enum" "ENUM_ARRAY_CHANGED".
Definition compare_const (a b : Value) : DM := dwhen (negb (value_eqb a b)) (add_at "const" "ENUM_ARRAY_CHANGED").

(** ** Composite schemas *)

Section compare.
Context {crates : JsonCrates}.

Definition is_open_object (s : ObjS) : bool :=
  bool_decide (pattern_properties s = []) && bool_decide (schema_of_additional s = None) && permits_additional s.
Definition partial_schema (s : ObjS) (key : string) : option nat :=
  match head (filter (λ e, (bool_decide (regex_error e.1 = None) && regex_is_match e.1 key) = true) (pattern_properties s)) with
  | Some (_, i) => Some i
  | None => schema_of_additional s
  end.
Definition find_key {A} (key : string) (l : list (string * A)) : option A := snd <$> head (filter (λ e, e.1 = key) l).

Section rec.
Context (rec : option nat → option nat → DM).

(** A comparison on its own, its differences kept. *)
Definition attempt (o u : nat) (k : bool → DM) : DM := λ c,
  sub ← rec (Some o) (Some u) (sub_ctx c); k (compatible sub) (extend (cx_diffs sub) c).

(** The first alternative that is compatible, [None] when none is. *)
Fixpoint try_subs (pairs : list (nat * nat)) (note : DM) (c : Ctx) : option (option Ctx) :=
  match pairs with
  | [] => Some None
  | (o, u) :: pairs =>
      sub ← rec (Some o) (Some u) (sub_ctx c);
      if compatible sub then c ← note (extend (cx_diffs sub) c); Some (Some c) else try_subs pairs note c
  end.

(** A combined schema against one that is not: the comparison may end here. *)
Definition combined_shortcut (o u : nat) (ok uk : Kind) (c : Ctx) : option (option Ctx) :=
  match ok, uk with
  | KCombined _ _ _, KCombined _ _ _ => Some None
  | _, KCombined crit subs _ =>
      if bool_decide (length subs = 1) then try_subs (pair o <$> subs) dret c
      else if bool_decide (crit = CAll) then Some None
      else try_subs (pair o <$> subs) (add "SUM_TYPE_EXTENDED") c
  | KCombined crit subs _, _ =>
      if bool_decide (length subs = 1) then try_subs ((λ s, (s, u)) <$> subs) dret c
      else if bool_decide (crit = CAll) then try_subs ((λ s, (s, u)) <$> subs) (add "PRODUCT_TYPE_NARROWED") c
      else Some None
  | _, _ => Some None
  end.

(** [LinkedHashSet] of subschemas: identical ones collapse. *)
Fixpoint dedup_subs (seen : list Value) (subs : list nat) (raw : list Value) : list nat :=
  match subs, raw with
  | [], _ => []
  | s :: subs, v :: raw => if existsb (λ w, value_eqb w v) seen then dedup_subs seen subs raw else s :: dedup_subs (seen ++ [v]) subs raw
  | s :: subs, [] => s :: dedup_subs seen subs []
  end.

Definition single {A} (l : list A) : bool := bool_decide (length l = 1).
Definition criteria_extended (oc uc : Criterion) (os us : list nat) : bool :=
  bool_decide (uc = CAny) || (single os && single us) || (single os && bool_decide (uc = COne)) || (single us && bool_decide (oc = CAll)).

(** The alternatives of the update that one of the original fits. *)
Fixpoint fitting (o : nat) (us : list (nat * nat)) (c : Ctx) : option (list nat) :=
  match us with
  | [] => Some []
  | (j, u) :: us =>
      sub ← rec (Some o) (Some u) (sub_ctx c);
      js ← fitting o us c; Some (if compatible sub then j :: js else js)
  end.
Fixpoint pairings (name : string) (os : list (nat * nat)) (us : list nat) (c : Ctx) : option (list (list nat)) :=
  match os with
  | [] => Some []
  | (i, o) :: os =>
      js ← fitting o (enumerate us) (with_path (cx_path c ++ [name +:+ "/" +:+ pretty i]) c);
      rest ← pairings name os us c; Some (js :: rest)
  end.

Definition compare_pairings (oc : Criterion) (os us : list nat) : DM := λ c,
  edges ← pairings (crit_name oc) (enumerate os) us c;
  matched ← max_matching edges (length us);
  dwhen (bool_decide (matched < length os `min` length us)) (add "COMBINED_TYPE_SUBSCHEMAS_CHANGED") c.

Definition compare_combined (oc : Criterion) (os : list nat) (oraw : list Value) (uc : Criterion) (us : list nat) (uraw : list Value) : DM :=
  if negb (bool_decide (oc = uc)) && negb (criteria_extended oc uc os us) then add "COMBINED_TYPE_CHANGED" else
  dseq (dwhen (negb (bool_decide (oc = uc))) (add "COMBINED_TYPE_EXTENDED"))
  (let os := dedup_subs [] os oraw in
   let us := dedup_subs [] us uraw in
   dseq (if bool_decide (length os < length us) then add (if bool_decide (uc = CAll) then "PRODUCT_TYPE_EXTENDED" else "SUM_TYPE_EXTENDED")
         else if bool_decide (length us < length os) then add (if bool_decide (oc = CAll) then "PRODUCT_TYPE_NARROWED" else "SUM_TYPE_NARROWED")
         else dret)
   (compare_pairings oc os us)).

(** *** Objects *)

(** The test of a node of the update, decided before the step. *)
Definition asking {A} (f : Ctx → option A) (k : A → DM) : DM := λ c, a ← f c; k a c.
Definition has_default (i : nat) (c : Ctx) : option bool :=
  t ← deref (cx_u c) i; n ← cx_u c !! t;
  if bool_decide (is_Some (sn_default n)) then Some true else n ← cx_u c !! i; Some (bool_decide (is_Some (sn_default n))).

Definition compare_required (o u : ObjS) (key : string) : DM :=
  match find_key key (properties u) with
  | None => dret
  | Some uidx =>
      let orq := bool_decide (key ∈ required o) in
      let urq := bool_decide (key ∈ required u) in
      within key
        (if orq && negb urq then add "REQUIRED_ATTRIBUTE_REMOVED"
         else if negb orq && urq then
           asking (has_default uidx) (λ d : bool, add (if d then "REQUIRED_ATTRIBUTE_WITH_DEFAULT_ADDED" else "REQUIRED_ATTRIBUTE_ADDED"))
         else dret)
  end.

Definition property_removed (u : ObjS) (key : string) (os : nat) : DM :=
  if is_open_object u then add "PROPERTY_REMOVED_FROM_OPEN_CONTENT_MODEL" else
  match partial_schema u key with
  | Some partial => attempt os partial (λ ok, add (if ok then "PROPERTY_REMOVED_IS_COVERED_BY_PARTIALLY_OPEN_CONTENT_MODEL"
                                                  else "PROPERTY_REMOVED_NOT_COVERED_BY_PARTIALLY_OPEN_CONTENT_MODEL"))
  | None => asking (λ c, kind_at (cx_o c) os) (λ k,
      add (if accepts_none k then "PROPERTY_WITH_FALSE_REMOVED_FROM_CLOSED_CONTENT_MODEL" else "PROPERTY_REMOVED_FROM_CLOSED_CONTENT_MODEL"))
  end.
Definition property_added (o u : ObjS) (key : string) (us : nat) : DM :=
  if is_open_object o then
    asking (λ c, kind_at (cx_u c) us) (λ k,
      add (if accepts_all k then "PROPERTY_WITH_EMPTY_SCHEMA_ADDED_TO_OPEN_CONTENT_MODEL" else "PROPERTY_ADDED_TO_OPEN_CONTENT_MODEL"))
  else
    dseq match partial_schema o key with
         | Some partial => attempt partial us (λ ok, add (if ok then "PROPERTY_ADDED_IS_COVERED_BY_PARTIALLY_OPEN_CONTENT_MODEL"
                                                         else "PROPERTY_ADDED_NOT_COVERED_BY_PARTIALLY_OPEN_CONTENT_MODEL"))
         | None => dret
         end
    (if bool_decide (key ∈ required u) then
       asking (has_default us) (λ d : bool, add (if d then "REQUIRED_PROPERTY_WITH_DEFAULT_ADDED_TO_UNOPEN_CONTENT_MODEL"
                                              else "REQUIRED_PROPERTY_ADDED_TO_UNOPEN_CONTENT_MODEL"))
     else add "OPTIONAL_PROPERTY_ADDED_TO_UNOPEN_CONTENT_MODEL").
Definition compare_property (o u : ObjS) (key : string) : DM :=
  within key match find_key key (properties o), find_key key (properties u) with
             | Some os, None => property_removed u key os
             | None, Some us => property_added o u key us
             | Some os, Some us => rec (Some os) (Some us)
             | None, None => dret
             end.

Definition contains_strs (x y : list string) : bool := forallb (λ v, bool_decide (v ∈ x)) y.
Definition compare_property_dependency (o u : ObjS) (key : string) : DM :=
  within key match find_key key (property_dependencies o), find_key key (property_dependencies u) with
             | Some _, None => add "DEPENDENCY_ARRAY_REMOVED"
             | None, Some _ => add "DEPENDENCY_ARRAY_ADDED"
             | Some a, Some b =>
                 if contains_strs a b && contains_strs b a then dret
                 else if contains_strs b a then add "DEPENDENCY_ARRAY_EXTENDED"
                 else if contains_strs a b then add "DEPENDENCY_ARRAY_NARROWED"
                 else add "DEPENDENCY_ARRAY_CHANGED"
             | None, None => dret
             end.
Definition compare_schema_dependency (o u : ObjS) (key : string) : DM :=
  within key match find_key key (schema_dependencies o), find_key key (schema_dependencies u) with
             | Some _, None => add "DEPENDENCY_SCHEMA_REMOVED"
             | None, Some _ => add "DEPENDENCY_SCHEMA_ADDED"
             | Some a, Some b => rec (Some a) (Some b)
             | None, None => dret
             end.

Definition compare_additional (op up : bool) (o u : option nat) (gained lost narrowed widened : string) : DM :=
  if negb (bool_decide (op = up)) then add (if up then gained else lost)
  else match o, u with
       | None, Some _ => add narrowed
       | Some _, None => add widened
       | _, _ => rec o u
       end.

Definition property_keys (o u : ObjS) : list string :=
  js_ordered (js_extend (from_collection (properties o).*1) (properties u).*1).
Definition compare_object (o u : ObjS) : DM :=
  dseq (within "required" (dall (compare_required o u) (properties o).*1))
  (dseq (within "properties" (dall (compare_property o u) (property_keys o u)))
  (dseq (within "dependencies"
    (dseq (dall (compare_property_dependency o u) (union_order (property_dependencies o).*1 (property_dependencies u).*1))
          (dall (compare_schema_dependency o u) (union_order (schema_dependencies o).*1 (schema_dependencies u).*1))))
  (dseq (within "additionalProperties" (compare_additional (permits_additional o) (permits_additional u)
    (schema_of_additional o) (schema_of_additional u)
    "ADDITIONAL_PROPERTIES_ADDED" "ADDITIONAL_PROPERTIES_REMOVED" "ADDITIONAL_PROPERTIES_NARROWED" "ADDITIONAL_PROPERTIES_EXTENDED"))
  (dseq (compare_bound "maxProperties" (max_properties o) (max_properties u)
    (mkLimit "MAX_PROPERTIES_ADDED" "MAX_PROPERTIES_REMOVED" "MAX_PROPERTIES_INCREASED" "MAX_PROPERTIES_DECREASED"))
  (compare_bound "minProperties" (min_properties o) (min_properties u)
    (mkLimit "MIN_PROPERTIES_ADDED" "MIN_PROPERTIES_REMOVED" "MIN_PROPERTIES_INCREASED" "MIN_PROPERTIES_DECREASED")))))).

(** *** Arrays *)

Definition open_array (a : ArrS) : bool := bool_decide (schema_of_additional_items a = None) && permits_additional_items a.

Definition item_removed (u : ArrS) (os : nat) : DM :=
  if open_array u then add "ITEM_REMOVED_FROM_OPEN_CONTENT_MODEL" else
  match schema_of_additional_items u with
  | Some partial => attempt os partial (λ ok, add (if ok then "ITEM_REMOVED_IS_COVERED_BY_PARTIALLY_OPEN_CONTENT_MODEL"
                                                  else "ITEM_REMOVED_NOT_COVERED_BY_PARTIALLY_OPEN_CONTENT_MODEL"))
  | None => asking (λ c, kind_at (cx_o c) os) (λ k,
      add (if accepts_none k then "ITEM_WITH_FALSE_REMOVED_FROM_CLOSED_CONTENT_MODEL" else "ITEM_REMOVED_FROM_CLOSED_CONTENT_MODEL"))
  end.
Definition item_added (o : ArrS) (us : nat) : DM :=
  if open_array o then
    asking (λ c, kind_at (cx_u c) us) (λ k,
      add (if accepts_all k then "ITEM_WITH_EMPTY_SCHEMA_ADDED_TO_OPEN_CONTENT_MODEL" else "ITEM_ADDED_TO_OPEN_CONTENT_MODEL"))
  else match schema_of_additional_items o with
       | Some partial => attempt partial us (λ ok, add (if ok then "ITEM_ADDED_IS_COVERED_BY_PARTIALLY_OPEN_CONTENT_MODEL"
                                                       else "ITEM_ADDED_NOT_COVERED_BY_PARTIALLY_OPEN_CONTENT_MODEL"))
       | None => add "ITEM_ADDED_TO_CLOSED_CONTENT_MODEL"
       end.

(** The tuples side by side from index [i] on, then what one has beyond the
    other. *)
Definition at_index (i : nat) : DM → DM := within ("items/" +:+ pretty i).
Fixpoint compare_items (o u : ArrS) (i : nat) (oi ui : list nat) : DM :=
  match oi, ui with
  | x :: oi, y :: ui => dseq (at_index i (rec (Some x) (Some y))) (compare_items o u (S i) oi ui)
  | x :: oi, [] => dseq (at_index i (item_removed u x)) (compare_items o u (S i) oi [])
  | [], _ => dall (λ e, at_index (i + e.1) (item_added o e.2)) (enumerate ui)
  end.

Definition compare_array (o u : ArrS) : DM :=
  dseq (within "items" (rec (all_items o) (all_items u)))
  (dseq (compare_items o u 0 (default [] (item_schemas o)) (default [] (item_schemas u)))
  (dseq (within "additionalItems" (compare_additional (permits_additional_items o) (permits_additional_items u)
    (schema_of_additional_items o) (schema_of_additional_items u)
    "ADDITIONAL_ITEMS_ADDED" "ADDITIONAL_ITEMS_REMOVED" "ADDITIONAL_ITEMS_NARROWED" "ADDITIONAL_ITEMS_EXTENDED"))
  (dseq (compare_bound "maxItems" (max_items o) (max_items u) (mkLimit "MAX_ITEMS_ADDED" "MAX_ITEMS_REMOVED" "MAX_ITEMS_INCREASED" "MAX_ITEMS_DECREASED"))
  (dseq (compare_bound "minItems" (min_items o) (min_items u) (mkLimit "MIN_ITEMS_ADDED" "MIN_ITEMS_REMOVED" "MIN_ITEMS_INCREASED" "MIN_ITEMS_DECREASED"))
  (dwhen (negb (bool_decide (unique_items o = unique_items u)))
    (add_at "uniqueItems" (if unique_items o then "UNIQUE_ITEMS_REMOVED" else "UNIQUE_ITEMS_ADDED"))))))).

(** *** One pair *)

(** [not] inverts the direction; the guard starts over. *)
Definition compare_not (a b : nat) : DM := within "not" (λ c,
  sub ← rec (Some b) (Some a) (mkCtx (cx_u c) (cx_o c) (cx_path c) [] []);
  add (if compatible sub then "NOT_TYPE_NARROWED" else "NOT_TYPE_EXTENDED") c).

Definition compare_kinds (ok uk : Kind) : DM :=
  match ok, uk with
  | KStr a, KStr b => compare_string a b
  | KNum a, KNum b => compare_number a b
  | KConst a, KConst b => compare_const a b
  | KEnum a, KEnum b => compare_enum a b
  | KCombined oc os oraw, KCombined uc us uraw => compare_combined oc os oraw uc us uraw
  | KNot a, KNot b => compare_not a b
  | KObj a, KObj b => compare_object a b
  | KArr a, KArr b => compare_array a b
  | _, _ => dret
  end.
Definition compare_labels (on un : SNode) : DM :=
  dseq (dwhen (negb (bool_decide (sn_id on = sn_id un))) (add "ID_CHANGED"))
  (dseq (dwhen (negb (bool_decide (sn_title on = sn_title un))) (add "TITLE_CHANGED"))
  (dseq (dwhen (negb (bool_decide (sn_description on = sn_description un))) (add "DESCRIPTION_CHANGED"))
  (dwhen (negb (opt_value_eqb (sn_default on) (sn_default un))) (add "DEFAULT_CHANGED")))).

(** Schemas of one class, the original guarded while they are compared. *)
Definition compare_same (o : nat) (on un : SNode) : DM := λ c,
  if bool_decide (o ∈ cx_stack c) then Some c else
  c ← dseq (compare_labels on un) (compare_kinds (sn_kind on) (sn_kind un)) (with_stack (cx_stack c ++ [o]) c);
  Some (with_stack (removelast (cx_stack c)) c).

Definition compare_nodes (o u : nat) : DM := λ c,
  on ← cx_o c !! o;
  un ← cx_u c !! u;
  done ← combined_shortcut o u (sn_kind on) (sn_kind un) c;
  match done with
  | Some c => Some c
  | None =>
      if bool_decide (class (sn_kind on) = class (sn_kind un)) then compare_same o on un c
      else dwhen (negb (accepts_none (sn_kind on)) && negb (accepts_all (sn_kind un))) (add "TYPE_CHANGED") c
  end.

Definition compare_with (o u : option nat) : DM :=
  match o, u with
  | None, None => dret
  | None, Some _ => add "SCHEMA_ADDED"
  | Some _, None => add "SCHEMA_REMOVED"
  | Some o, Some u => λ c, o ← deref (cx_o c) o; u ← deref (cx_u c) u; compare_nodes o u c
  end.
End rec.

Fixpoint compare (fuel : nat) (o u : option nat) : DM :=
  match fuel with 0 => λ _, None | S fuel => compare_with (compare fuel) o u end.

(** The models of both schemas and the differences that break compatibility. *)
Definition compare_models (fuel : nat) (wm rm : ModelS) : option (list Diff) :=
  c ← compare fuel (Some (md_root wm)) (Some (md_root rm)) (mkCtx (md_nodes wm) (md_nodes rm) [] [] []);
  Some (filter (λ d, incompatible d = true) (cx_diffs c)).
Definition can_read_fuel (fuel : nat) (reader writer : JsonDoc) (labels : Labels) : option (list string) :=
  wm ← build_model_fuel fuel writer; rm ← build_model_fuel fuel reader;
  ds ← compare_models fuel wm rm;
  Some (map (λ d, render d (lb_reader labels) (lb_writer labels)) ds).
End compare.
