(* ===== verification/JsonCompare.v ===== *)
(** What the comparison of JSON Schemas guarantees: when it ends, that a schema
    reads itself, what its limits mean, and documents on which it fails. *)
From S2P Require Import Prelude SortedVec RustStr Errors Json Model Context Snapshot Keys SchemaLayer JavaOrder Views Float64 Matching JsonSchema JsonLoad JsonDiff.

Open Scope string_scope.
Open Scope nat_scope.
Open Scope list_scope.

Section yields.
(** The nodes of both models. *)
Context {crates : JsonCrates} (O U : list SNode).
(** The kinds of differences that may be found. *)
Implicit Types (G : string → Prop).

(** With these originals guarded, a step ends wherever it is taken, adds
    differences of these kinds and changes nothing else. *)
Definition yields (s : list nat) (m : DM) G : Prop :=
  ∀ p d, ∃ ds, m (mkCtx O U p d s) = Some (mkCtx O U p (d ++ ds) s) ∧ Forall (λ x, G (df_kind x)) ds.

Lemma yields_ret s G : yields s dret G.
Proof. intros p d. exists []. by rewrite app_nil_r. Qed.
Lemma yields_seq s m n G : yields s m G → yields s n G → yields s (dseq m n) G.
Proof.
  intros Hm Hn p d. destruct (Hm p d) as (ds & E & HG). destruct (Hn p (d ++ ds)) as (ds' & E' & HG').
  exists (ds ++ ds'). unfold dseq. rewrite E. cbn [mbind option_bind]. rewrite E', app_assoc. split; [done|by apply Forall_app].
Qed.
Lemma yields_all {A} s (f : A → DM) l G : (∀ x, x ∈ l → yields s (f x) G) → yields s (dall f l) G.
Proof.
  induction l as [|x l IH]; intros H; cbn [dall]; [apply yields_ret|].
  apply yields_seq; [apply H; by left|apply IH; intros; apply H; by right].
Qed.
Lemma yields_when s (b : bool) m G : (b = true → yields s m G) → yields s (dwhen b m) G.
Proof. destruct b; [auto|intros; apply yields_ret]. Qed.
Lemma yields_add s k G : G k → yields s (add k) G.
Proof. intros Hk p d. eexists [_]. split; [done|]. by apply Forall_singleton. Qed.
Lemma yields_within s name m G : yields s m G → yields s (within name m) G.
Proof.
  intros Hm p d. destruct (Hm (p ++ [name]) d) as (ds & E & HG). exists ds. split; [|done].
  unfold within, with_path. cbn [cx_o cx_u cx_path cx_diffs cx_stack]. rewrite E. cbn. by rewrite removelast_last.
Qed.
Lemma yields_add_at s a k G : G k → yields s (add_at a k) G.
Proof. intros. by apply yields_within, yields_add. Qed.
Lemma yields_asking {A} s (f : Ctx → option A) (k : A → DM) G :
  (∀ p d, ∃ a, f (mkCtx O U p d s) = Some a ∧ yields s (k a) G) → yields s (asking f k) G.
Proof. intros H p d. destruct (H p d) as (a & E & Hk). unfold asking. rewrite E. apply Hk. Qed.
Lemma yields_weaken s m G G' : yields s m G → (∀ k, G k → G' k) → yields s m G'.
Proof. intros Hm HG p d. destruct (Hm p d) as (ds & E & H). exists ds. split; [done|]. eapply Forall_impl; [exact H|]. auto. Qed.

Lemma yields_attempt s rec x y k G : yields s (rec (Some x) (Some y)) G → (∀ b, yields s (k b) G) → yields s (attempt rec x y k) G.
Proof.
  intros Hr Hk p d. unfold attempt, sub_ctx. cbn [cx_o cx_u cx_path cx_diffs cx_stack]. destruct (Hr p []) as (ds & -> & HG).
  cbn [mbind option_bind extend cx_o cx_u cx_path cx_diffs cx_stack app].
  destruct (Hk (compatible (mkCtx O U p ds s)) p (d ++ ds)) as (ds' & E & HG'). exists (ds ++ ds'). rewrite app_assoc. split; [exact E|by apply Forall_app].
Qed.

Definition any (_ : string) : Prop := True.
(** The kinds that keep compatibility. *)
Definition harmless (k : string) : Prop := k ∈ COMPATIBLE.

Lemma harmless_compatible ds p s : Forall (λ x, harmless (df_kind x)) ds → compatible (mkCtx O U p ds s) = true.
Proof.
  intros H. unfold compatible. cbn. apply negb_true_iff. apply not_true_is_false. intros (d & Hd & Hi)%existsb_exists.
  apply list_elem_of_In in Hd. pose proof (proj1 (Forall_forall _ _) H d Hd) as Hk. unfold incompatible in Hi.
  rewrite bool_decide_eq_true_2 in Hi by exact Hk. done.
Qed.

(** Take a step apart. *)
Ltac split_steps := repeat lazymatch goal with
  | |- yields _ (dseq _ _) _ => apply yields_seq
  | |- yields _ (within _ _) _ => apply yields_within
  end.

(** ** Limits *)

Lemma compare_bound_total s key o u k : yields s (compare_bound key o u k) any.
Proof. unfold compare_bound. repeat (case_match || case_decide); first [apply yields_ret|by apply yields_add_at]. Qed.
Lemma compare_bound_same s key o k G : yields s (compare_bound key o o k) G.
Proof. unfold compare_bound. rewrite decide_True by done. apply yields_ret. Qed.
Lemma compare_string_total s a b : yields s (compare_string a b) any.
Proof.
  unfold compare_string. split_steps; [apply compare_bound_total..|].
  repeat case_match; first [apply yields_ret|by apply yields_add_at|apply yields_when; intros; by apply yields_add_at].
Qed.
Lemma compare_string_same s a G : yields s (compare_string a a) G.
Proof.
  unfold compare_string. split_steps; [apply compare_bound_same..|]. destruct (pattern a); [|apply yields_ret].
  rewrite bool_decide_eq_true_2 by done. apply yields_ret.
Qed.

Lemma number_bound_total s key a b k : yields s (number_bound key a b k) any.
Proof. unfold number_bound. repeat case_match; first [apply yields_ret|by apply yields_add_at]. Qed.
Lemma number_bound_same s key a k G : yields s (number_bound key a a k) G.
Proof. unfold number_bound. destruct a; cbn; [rewrite number_eqb_refl|]; apply yields_ret. Qed.

Lemma i64_rem_ok a b : (0 < b)%Z → is_Some (i64_rem a b).
Proof. intros Hb. unfold i64_rem. rewrite !bool_decide_eq_false_2 by lia. done. Qed.
Lemma divides_ok a b : (0 ≤ b)%Z → ∃ x : bool, (if bool_decide (b = 0%Z) then Some false else r ← i64_rem a b; Some (bool_decide (r = 0%Z))) = Some x.
Proof.
  intros Hb. case_bool_decide; [by exists false|]. destruct (i64_rem_ok a b) as [r ->]; [lia|]. by eexists.
Qed.
Lemma multiple_kind_total a b : (0 ≤ a)%Z → (0 ≤ b)%Z → is_Some (multiple_kind a b).
Proof.
  intros Ha Hb. unfold multiple_kind. destruct (divides_ok b a Ha) as [x ->]. destruct (divides_ok a b Hb) as [y ->]. by destruct x.
Qed.
Lemma compare_multiple_total s a b : multiple_ok a → multiple_ok b → yields s (compare_multiple a b) any.
Proof.
  intros Ha Hb. unfold compare_multiple. destruct a as [a|], b as [b|]; cbn; first [apply yields_ret|by apply yields_add_at|idtac].
  case_match; [apply yields_ret|]. destruct (multiple_kind_total _ _ Ha Hb) as [k Hk]. intros p d. cbn in Hk. rewrite Hk. by apply yields_add_at.
Qed.
Lemma compare_multiple_same s a G : yields s (compare_multiple a a) G.
Proof. unfold compare_multiple. destruct a; cbn [fmap option_fmap option_map]; [rewrite f64_eqb_refl|]; apply yields_ret. Qed.

Lemma compare_number_total s a b : number_ok a → number_ok b → yields s (compare_number a b) any.
Proof.
  intros Ha Hb. unfold compare_number. split_steps; [apply number_bound_total..|by apply compare_multiple_total|].
  apply yields_when. intros. by apply yields_add.
Qed.
Lemma compare_number_same s a G : yields s (compare_number a a) G.
Proof.
  unfold compare_number. split_steps; [apply number_bound_same..|apply compare_multiple_same|].
  rewrite bool_decide_eq_true_2 by done. apply yields_ret.
Qed.

(** ** Nodes *)

Lemma deref_total nodes i : nodes_wf nodes → i < length nodes → ∃ t, deref nodes i = Some t ∧ t < length nodes.
Proof.
  intros Hwf Hi. destruct (lookup_lt_is_Some_2 nodes i Hi) as [n Hn]. unfold deref. rewrite Hn. cbn [mbind option_bind].
  eexists. split; [done|]. destruct (sn_kind n) eqn:E; try done.
  pose proof (proj1 (Forall_lookup _ _) Hwf i n Hn) as Hc. cbn in Hc. rewrite E in Hc. by apply Forall_cons in Hc as [? _].
Qed.
Lemma kind_at_total nodes i : nodes_wf nodes → i < length nodes → is_Some (kind_at nodes i).
Proof.
  intros Hwf Hi. destruct (deref_total nodes i Hwf Hi) as (t & E & Ht). unfold kind_at. rewrite E. cbn [mbind option_bind].
  destruct (lookup_lt_is_Some_2 nodes t Ht) as [n ->]. done.
Qed.

Lemma find_key_elem {A} key (l : list (string * A)) x : find_key key l = Some x → x ∈ l.*2.
Proof.
  unfold find_key. intros ([k y] & Hy & ->)%fmap_Some. apply head_Some_elem_of, list_elem_of_filter in Hy as [_ Hy].
  apply list_elem_of_fmap. by exists (k, y).
Qed.

Lemma property_child l x key : find_key key (properties l) = Some x → x ∈ children (KObj l).
Proof. intros Hx%find_key_elem. cbn [children]. set_solver. Qed.
Lemma dependency_child l x key : find_key key (schema_dependencies l) = Some x → x ∈ children (KObj l).
Proof. intros Hx%find_key_elem. cbn [children]. set_solver. Qed.
Lemma additional_item a x : schema_of_additional_items a = Some x → x ∈ children (KArr a).
Proof. intros Hx. cbn [children]. rewrite Hx. set_solver. Qed.

(** ** One pair of composite schemas *)

Section pair.
Context (s : list nat) (rec : option nat → option nat → DM).
Hypothesis HO : nodes_wf O.
Hypothesis HU : nodes_wf U.
Hypothesis Hnone : ∀ G x y, x = None ∨ y = None → (x = y ∨ G = any) → yields s (rec x y) G.

Abbreviation pairs_total ok uk := (∀ x y, x ∈ children ok → y ∈ children uk → yields s (rec (Some x) (Some y)) any).

Lemma partial_schema_child o key x : partial_schema o key = Some x → x ∈ children (KObj o).
Proof.
  unfold partial_schema. cbn [children]. destruct (head _) as [[p i]|] eqn:E.
  - intros [= <-]. apply head_Some_elem_of, list_elem_of_filter in E as [_ E].
    assert (i ∈ (pattern_properties o).*2) by (apply list_elem_of_fmap; by exists (p, i)). set_solver.
  - intros ->. cbn. set_solver.
Qed.

Lemma additional_total' op up o u a b c d : (∀ x y, o = Some x → u = Some y → yields s (rec o u) any) →
  yields s (compare_additional rec op up o u a b c d) any.
Proof.
  intros H. unfold compare_additional. case_match; [by apply yields_add|].
  destruct o, u; [by eapply H|by apply yields_add..|]. apply Hnone; auto.
Qed.

Lemma has_default_total i p d : i < length U → is_Some (has_default i (mkCtx O U p d s)).
Proof.
  intros Hi. unfold has_default. cbn [cx_u]. destruct (deref_total U i HU Hi) as (t & -> & Ht). cbn [mbind option_bind].
  destruct (lookup_lt_is_Some_2 U t Ht) as [n ->]. cbn [mbind option_bind]. case_bool_decide; [done|].
  destruct (lookup_lt_is_Some_2 U i Hi) as [m ->]. done.
Qed.
Lemma asking_default i (k : bool → DM) G : i < length U → (∀ b, yields s (k b) G) → yields s (asking (has_default i) k) G.
Proof. intros Hi Hk. apply yields_asking. intros p d. destruct (has_default_total i p d Hi) as [b E]. eauto. Qed.
Lemma asking_o i (k : Kind → DM) G : i < length O → (∀ b, yields s (k b) G) → yields s (asking (λ c, kind_at (cx_o c) i) k) G.
Proof. intros Hi Hk. apply yields_asking. intros p d. destruct (kind_at_total O i HO Hi) as [b E]. eauto. Qed.
Lemma asking_u i (k : Kind → DM) G : i < length U → (∀ b, yields s (k b) G) → yields s (asking (λ c, kind_at (cx_u c) i) k) G.
Proof. intros Hi Hk. apply yields_asking. intros p d. destruct (kind_at_total U i HU Hi) as [b E]. eauto. Qed.

Section objects.
Context (o u : ObjS).
Hypothesis Ho : Forall (λ c, c < length O) (children (KObj o)).
Hypothesis Hu : Forall (λ c, c < length U) (children (KObj u)).
Hypothesis Hpairs : pairs_total (KObj o) (KObj u).

Lemma object_child x : (x ∈ children (KObj o) → x < length O) ∧ (x ∈ children (KObj u) → x < length U).
Proof. split; intros Hx; [by apply (proj1 (Forall_forall _ _) Ho)|by apply (proj1 (Forall_forall _ _) Hu)]. Qed.
Lemma compare_required_total key : yields s (compare_required o u key) any.
Proof.
  unfold compare_required. destruct (find_key key (properties u)) as [i|] eqn:E; [|apply yields_ret]. apply yields_within.
  case_match; [by apply yields_add|]. case_match; [|apply yields_ret]. apply asking_default; [|intros; by apply yields_add].
  by eapply object_child, property_child.
Qed.
Lemma compare_property_total key : yields s (compare_property rec o u key) any.
Proof.
  unfold compare_property. apply yields_within.
  destruct (find_key key (properties o)) as [x|] eqn:Ex; destruct (find_key key (properties u)) as [y|] eqn:Ey;
    try apply property_child in Ex; try apply property_child in Ey; [by apply Hpairs| | |apply yields_ret].
  - unfold property_removed. case_match; [by apply yields_add|]. destruct (partial_schema u key) as [z|] eqn:Ez.
    + apply yields_attempt; [apply Hpairs; [done|by eapply partial_schema_child]|intros; by apply yields_add].
    + apply asking_o; [by apply object_child|intros; by apply yields_add].
  - unfold property_added. case_match; [apply asking_u; [by apply object_child|intros; by apply yields_add]|]. apply yields_seq.
    + destruct (partial_schema o key) as [z|] eqn:Ez; [|apply yields_ret].
      apply yields_attempt; [apply Hpairs; [by eapply partial_schema_child|done]|intros; by apply yields_add].
    + case_match; [|by apply yields_add]. apply asking_default; [by apply object_child|intros; by apply yields_add].
Qed.
Lemma compare_object_total : yields s (compare_object rec o u) any.
Proof.
  unfold compare_object. split_steps; try apply compare_bound_total.
  - apply yields_all. intros. apply compare_required_total.
  - apply yields_all. intros. apply compare_property_total.
  - apply yields_all. intros key _. unfold compare_property_dependency. apply yields_within. repeat case_match; first [apply yields_ret|by apply yields_add].
  - apply yields_all. intros key _. unfold compare_schema_dependency. apply yields_within.
    destruct (find_key key (schema_dependencies o)) as [x|] eqn:Ex; destruct (find_key key (schema_dependencies u)) as [y|] eqn:Ey;
      [|by apply yields_add..|apply yields_ret]. apply Hpairs; by eapply dependency_child.
  - apply additional_total'. intros x y Hx Hy. rewrite Hx, Hy. apply Hpairs; cbn [children]; rewrite ?Hx, ?Hy; set_solver.
Qed.
End objects.

Section arrays.
Context (o u : ArrS).
Hypothesis Ho : Forall (λ c, c < length O) (children (KArr o)).
Hypothesis Hu : Forall (λ c, c < length U) (children (KArr u)).
Hypothesis Hpairs : pairs_total (KArr o) (KArr u).

Lemma array_child x : (x ∈ children (KArr o) → x < length O) ∧ (x ∈ children (KArr u) → x < length U).
Proof. split; intros Hx; [by apply (proj1 (Forall_forall _ _) Ho)|by apply (proj1 (Forall_forall _ _) Hu)]. Qed.
Lemma item_removed_total x : x ∈ children (KArr o) → yields s (item_removed rec u x) any.
Proof.
  intros Hx. unfold item_removed. case_match; [by apply yields_add|]. destruct (schema_of_additional_items u) as [z|] eqn:Ez.
  - apply yields_attempt; [apply Hpairs; [done|by apply additional_item]|intros; by apply yields_add].
  - apply asking_o; [by apply array_child|intros; by apply yields_add].
Qed.
Lemma item_added_total y : y ∈ children (KArr u) → yields s (item_added rec o y) any.
Proof.
  intros Hy. unfold item_added. case_match; [apply asking_u; [by apply array_child|intros; by apply yields_add]|].
  destruct (schema_of_additional_items o) as [z|] eqn:Ez; [|by apply yields_add].
  apply yields_attempt; [apply Hpairs; [by apply additional_item|done]|intros; by apply yields_add].
Qed.
Lemma enumerate_snd {A} (l : list A) e : e ∈ enumerate l → e.2 ∈ l.
Proof. unfold enumerate. intros (i & x & -> & Hx)%elem_of_lookup_imap. cbn. by eapply list_elem_of_lookup_2. Qed.
Lemma compare_items_total i oi ui : oi ⊆ children (KArr o) → ui ⊆ children (KArr u) → yields s (compare_items rec o u i oi ui) any.
Proof.
  revert i ui. induction oi as [|x oi IH]; intros i ui Hoi Hui.
  - destruct ui; cbn [compare_items]; apply yields_all; intros e He%enumerate_snd; apply yields_within, item_added_total; set_solver.
  - destruct ui as [|y ui]; cbn [compare_items]; (apply yields_seq; [apply yields_within|apply IH; set_solver]).
    + apply item_removed_total. set_solver.
    + apply Hpairs; set_solver.
Qed.
Lemma compare_array_total : yields s (compare_array rec o u) any.
Proof.
  unfold compare_array. split_steps; try apply compare_bound_total.
  - destruct (all_items o) as [x|] eqn:Ex, (all_items u) as [y|] eqn:Ey; [|apply Hnone; auto..].
    apply Hpairs; cbn [children]; rewrite ?Ex, ?Ey; set_solver.
  - apply compare_items_total; cbn [children]; set_solver.
  - apply additional_total'. intros x y Hx Hy. rewrite Hx, Hy. apply Hpairs; by apply additional_item.
  - apply yields_when. intros. by apply yields_add_at.
Qed.
End arrays.

(** *** Alternatives *)

Lemma fitting_total o us p d : (∀ e, e ∈ us → yields s (rec (Some o) (Some e.2)) any) →
  ∃ js, fitting rec o us (mkCtx O U p d s) = Some js ∧ js ⊆ us.*1 ∧
    ∀ e, e ∈ us → yields s (rec (Some o) (Some e.2)) harmless → e.1 ∈ js.
Proof.
  induction us as [|[j y] us IH]; intros H; cbn [fitting].
  - exists []. split_and!; [done..|]. by intros e ?%not_elem_of_nil.
  - destruct IH as (js & E & Hsub & Hin); [intros; apply H; by right|]. unfold sub_ctx. cbn [cx_o cx_u cx_path cx_diffs cx_stack].
    destruct (H (j, y) ltac:(by left) p []) as (ds & E1 & _). cbn [snd] in E1. rewrite E1. cbn [mbind option_bind]. rewrite E. cbn [mbind option_bind app].
    eexists. split; [done|]. split; [destruct (compatible _); cbn; set_solver|].
    intros e [->|He]%elem_of_cons Hh; cbn [fst snd] in *.
    + destruct (Hh p []) as (ds' & E2 & HG). rewrite E1 in E2. injection E2 as <-. rewrite harmless_compatible by done. by left.
    + destruct (compatible _); [right|]; by apply Hin.
Qed.

Lemma pairings_total name k os us p d : (∀ x y, x ∈ os → y ∈ us → yields s (rec (Some x) (Some y)) any) →
  ∃ edges, pairings rec name (imap (λ i x, (k + i, x)) os) us (mkCtx O U p d s) = Some edges ∧ length edges = length os ∧
    ∀ i js, edges !! i = Some js → js ⊆ (enumerate us).*1 ∧
      ∀ x j y, os !! i = Some x → us !! j = Some y → yields s (rec (Some x) (Some y)) harmless → j ∈ js.
Proof.
  revert k. induction os as [|x os IH]; intros k H; cbn [imap].
  - exists []. split_and!; [done..|]. by intros i js Hi.
  - destruct (IH (S k)) as (edges & E & Hl & Hin); [intros; apply H; [by right|done]|].
    destruct (fitting_total x (enumerate us) (p ++ [name +:+ "/" +:+ pretty (k + 0)]) d) as (js & Ej & Hsub & Hj).
    { intros e He%enumerate_snd. apply H; [by left|done]. }
    exists (js :: edges). cbn [pairings]. unfold with_path. cbn [cx_o cx_u cx_path cx_diffs cx_stack]. rewrite Ej. cbn [mbind option_bind].
    assert (imap ((λ i y, (k + i, y)) ∘ S) os = imap (λ i y, (S k + i, y)) os) as -> by (apply imap_ext; intros; cbn; f_equal; lia).
    rewrite E. split; [done|]. split; [cbn; by rewrite Hl|]. intros [|i] js' Hi; cbn in Hi.
    + injection Hi as <-. split; [done|]. intros y j z [= <-] Hz Hh. apply (Hj (j, z)); [|done]. unfold enumerate. apply elem_of_lookup_imap. eauto.
    + destruct (Hin i js' Hi) as [H1 H2]. split; [done|]. intros y j z Hy. by apply H2.
Qed.

Lemma pairings_in_range (us : list nat) (edges : list (list nat)) :
  (∀ i js, edges !! i = Some js → js ⊆ (enumerate us).*1) → in_range edges (length us).
Proof.
  intros H l r (rs & Hl & Hr). apply (H l rs Hl) in Hr. apply list_elem_of_fmap in Hr as ([j y] & -> & He).
  unfold enumerate in He. apply elem_of_lookup_imap in He as (i & z & [= -> ->] & Hz). by eapply lookup_lt_Some.
Qed.

Lemma compare_pairings_total oc os us : (∀ x y, x ∈ os → y ∈ us → yields s (rec (Some x) (Some y)) any) → yields s (compare_pairings rec oc os us) any.
Proof.
  intros H p d. unfold compare_pairings. destruct (pairings_total (crit_name oc) 0 os us p d H) as (edges & E & Hl & Hin).
  unfold enumerate at 1. change (imap (λ i x, (0 + i, x)) os) with (imap pair os) in E. rewrite E. cbn [mbind option_bind].
  destruct (max_matching_spec edges (length us)) as (n & -> & _); [apply pairings_in_range; intros i js Hi; by apply (Hin i js Hi)|].
  cbn [mbind option_bind]. revert p d E. intros p d _. apply yields_when. intros. by apply yields_add.
Qed.

(** The same alternatives on both sides are matched with themselves. *)
Lemma compare_pairings_same oc os G : (∀ x y, x ∈ os → y ∈ os → yields s (rec (Some x) (Some y)) any) →
  (∀ x, x ∈ os → yields s (rec (Some x) (Some x)) harmless) → yields s (compare_pairings rec oc os os) G.
Proof.
  intros H Hself p d. unfold compare_pairings. destruct (pairings_total (crit_name oc) 0 os os p d H) as (edges & E & Hl & Hin).
  unfold enumerate at 1. change (imap (λ i x, (0 + i, x)) os) with (imap pair os) in E. rewrite E. cbn [mbind option_bind].
  destruct (max_matching_spec edges (length os)) as (n & -> & _ & Hmax); [apply pairings_in_range; intros i js Hi; by apply (Hin i js Hi)|].
  cbn [mbind option_bind]. rewrite bool_decide_eq_false_2; [apply yields_ret|]. rewrite Nat.min_id. enough (length os ≤ n) by lia.
  specialize (Hmax ((λ i, (i, i)) <$> seq 0 (length os))). rewrite length_fmap, length_seq in Hmax. apply Hmax.
  assert (∀ f : nat * nat → nat, (∀ i, f (i, i) = i) → f <$> ((λ i, (i, i)) <$> seq 0 (length os)) = seq 0 (length os)) as Hseq.
  { intros f Hf. rewrite <-list_fmap_compose. rewrite <-(list_fmap_id (seq 0 (length os))) at 2. apply list_fmap_ext. intros i x _. apply Hf. }
  split_and!; [rewrite Hseq by done; apply NoDup_seq|rewrite Hseq by done; apply NoDup_seq|].
  apply Forall_fmap, Forall_forall. intros i Hi%elem_of_seq. cbn. destruct (lookup_lt_is_Some_2 os i) as [x Hx]; [lia|].
  destruct (lookup_lt_is_Some_2 edges i) as [js Hjs]; [lia|]. exists js. split; [done|].
  apply (Hin i js Hjs) with (x := x) (y := x); [done..|]. apply Hself. by eapply list_elem_of_lookup_2.
Qed.

Lemma dedup_subs_sub seen subs raw : dedup_subs seen subs raw ⊆ subs.
Proof.
  revert seen raw. induction subs as [|x subs IH]; intros seen raw; cbn [dedup_subs]; [done|].
  destruct raw as [|v raw]; [specialize (IH seen []); set_solver|].
  case_match; [specialize (IH seen raw)|specialize (IH (seen ++ [v]) raw)]; set_solver.
Qed.

Lemma compare_combined_total oc os oraw uc us uraw : (∀ x y, x ∈ os → y ∈ us → yields s (rec (Some x) (Some y)) any) →
  yields s (compare_combined rec oc os oraw uc us uraw) any.
Proof.
  intros H. unfold compare_combined. case_match; [by apply yields_add|]. split_steps.
  - apply yields_when. intros. by apply yields_add.
  - repeat case_match; first [by apply yields_add|apply yields_ret].
  - apply compare_pairings_total. intros x y Hx%dedup_subs_sub Hy%dedup_subs_sub. by apply H.
Qed.
Lemma compare_combined_same oc os raw G : (∀ x y, x ∈ os → y ∈ os → yields s (rec (Some x) (Some y)) any) →
  (∀ x, x ∈ os → yields s (rec (Some x) (Some x)) harmless) → yields s (compare_combined rec oc os raw oc os raw) G.
Proof.
  intros H Hself. unfold compare_combined. rewrite bool_decide_eq_true_2 by done. cbn [negb andb]. split_steps.
  - apply yields_ret.
  - rewrite bool_decide_eq_false_2 by lia. apply yields_ret.
  - apply compare_pairings_same; intros; [apply H|apply Hself]; by eapply dedup_subs_sub.
Qed.

(** *** Any two kinds *)

Lemma compare_enum_total a b : yields s (compare_enum a b) any.
Proof. unfold compare_enum. repeat case_match; first [apply yields_ret|by apply yields_add_at]. Qed.

Lemma compare_kinds_total ok uk : kind_ok ok → kind_ok uk →
  Forall (λ c, c < length O) (children ok) → Forall (λ c, c < length U) (children uk) → pairs_total ok uk →
  (∀ a b, ok = KNot a → uk = KNot b → ∀ p, ∃ c, rec (Some b) (Some a) (mkCtx U O p [] []) = Some c) →
  yields s (compare_kinds rec ok uk) any.
Proof.
  intros Hok Huk Ho Hu Hp Hn. destruct ok, uk; try apply yields_ret; cbn [compare_kinds].
  - apply compare_string_total.
  - by apply compare_number_total.
  - by apply compare_array_total.
  - by apply compare_object_total.
  - apply compare_enum_total.
  - apply yields_when. intros. by apply yields_add_at.
  - apply yields_within. intros p d. cbn [cx_o cx_u cx_path]. destruct (Hn _ _ eq_refl eq_refl p) as [c ->]. cbn [mbind option_bind].
    by apply yields_add.
  - by apply compare_combined_total.
Qed.

(** *** A kind against itself *)

Abbreviation selves k := (∀ x, x ∈ children k → yields s (rec (Some x) (Some x)) harmless).

Lemma rec_same x : (∀ i, x = Some i → yields s (rec x x) harmless) → yields s (rec x x) harmless.
Proof. intros H. destruct x; [by eapply H|]. apply Hnone; auto. Qed.
Lemma additional_same p x a b c d : (∀ i, x = Some i → yields s (rec x x) harmless) → yields s (compare_additional rec p p x x a b c d) harmless.
Proof.
  intros H. unfold compare_additional. rewrite bool_decide_eq_true_2 by done. cbn [negb]. destruct x; by apply rec_same.
Qed.
Lemma contains_strs_refl l : contains_strs l l = true.
Proof. unfold contains_strs. apply forallb_forall. intros x Hx%list_elem_of_In. by apply bool_decide_eq_true_2. Qed.

Lemma compare_object_same o : selves (KObj o) → yields s (compare_object rec o o) harmless.
Proof.
  intros Hself. unfold compare_object. split_steps; try apply compare_bound_same; try (apply yields_all; intros key _).
  - unfold compare_required. case_match; [|apply yields_ret]. apply yields_within. repeat case_bool_decide; apply yields_ret.
  - unfold compare_property. apply yields_within. destruct (find_key key (properties o)) as [x|] eqn:E; [|apply yields_ret].
    eapply Hself, property_child; eassumption.
  - unfold compare_property_dependency. apply yields_within. destruct (find_key _ _); [|apply yields_ret]. rewrite contains_strs_refl. apply yields_ret.
  - unfold compare_schema_dependency. apply yields_within. destruct (find_key key (schema_dependencies o)) as [x|] eqn:E; [|apply yields_ret].
    eapply Hself, dependency_child; eassumption.
  - apply additional_same. intros i Hi. rewrite Hi. apply Hself. cbn [children]. rewrite Hi. set_solver.
Qed.

Lemma compare_items_same a k l : (∀ x, x ∈ l → yields s (rec (Some x) (Some x)) harmless) → yields s (compare_items rec a a k l l) harmless.
Proof.
  revert k. induction l as [|x l IH]; intros k H; cbn [compare_items]; [apply yields_ret|].
  apply yields_seq; [apply yields_within, H; by left|]. apply IH. intros. apply H. by right.
Qed.
Lemma compare_array_same a : selves (KArr a) → yields s (compare_array rec a a) harmless.
Proof.
  intros Hself. unfold compare_array. split_steps; try apply compare_bound_same.
  - apply rec_same. intros i Hi. rewrite Hi. apply Hself. cbn [children]. rewrite Hi. set_solver.
  - apply compare_items_same. intros x Hx. apply Hself. cbn [children]. set_solver.
  - apply additional_same. intros i Hi. rewrite Hi. by apply Hself, additional_item.
  - rewrite bool_decide_eq_true_2 by done. apply yields_ret.
Qed.

Lemma contains_all_refl l : Forall value_wf l → contains_all l l = true.
Proof.
  intros Hl. apply forallb_forall. intros x Hx. apply existsb_exists. exists x. split; [done|].
  apply value_eqb_refl. apply list_elem_of_In in Hx. by apply (proj1 (Forall_forall _ _) Hl).
Qed.

Lemma compare_kinds_same k : kind_wf k → pairs_total k k → selves k →
  (∀ a, k = KNot a → ∀ p, ∃ c, rec (Some a) (Some a) (mkCtx U O p [] []) = Some c ∧ compatible c = true) →
  yields s (compare_kinds rec k k) harmless.
Proof.
  intros Hk Hp Hself Hn. destruct k; try apply yields_ret; cbn [compare_kinds].
  - apply compare_string_same.
  - apply compare_number_same.
  - by apply compare_array_same.
  - by apply compare_object_same.
  - unfold compare_enum. rewrite contains_all_refl by done. apply yields_ret.
  - unfold compare_const. rewrite value_eqb_refl by done. apply yields_ret.
  - apply yields_within. intros p d. cbn [cx_o cx_u cx_path]. destruct (Hn _ eq_refl p) as (c & E1 & E2). rewrite E1. cbn [mbind option_bind].
    rewrite E2. apply yields_add. unfold harmless. by apply (bool_decide_unpack _); vm_compute.
  - by apply compare_combined_same.
Qed.

(** *** A pair of nodes *)

Lemma compare_labels_total a b : yields s (compare_labels a b) any.
Proof. unfold compare_labels. split_steps; apply yields_when; intros; by apply yields_add. Qed.
Lemma compare_labels_same a G : default_wf a → yields s (compare_labels a a) G.
Proof.
  intros Hd. unfold compare_labels. rewrite !bool_decide_eq_true_2 by done. cbn [negb dwhen]. split_steps; [apply yields_ret..|].
  unfold default_wf in Hd. destruct (sn_default a) as [v|]; cbn [opt_value_eqb]; [rewrite value_eqb_refl by done|]; apply yields_ret.
Qed.
End pair.

Lemma compare_same_yields rec s o on un G : (o ∉ s → yields (s ++ [o]) (dseq (compare_labels on un) (compare_kinds rec (sn_kind on) (sn_kind un))) G) →
  yields s (compare_same rec o on un) G.
Proof.
  intros H p d. unfold compare_same. cbn [cx_stack]. case_bool_decide as Hs.
  - exists []. by rewrite app_nil_r.
  - unfold with_stack. cbn [cx_o cx_u cx_path cx_diffs cx_stack]. destruct (H Hs p d) as (ds & -> & HG). cbn. rewrite removelast_last. eauto.
Qed.

Lemma try_subs_total rec s l note p d : (∀ e, e ∈ l → yields s (rec (Some e.1) (Some e.2)) any) → yields s note any →
  ∃ r, try_subs rec l note (mkCtx O U p d s) = Some r ∧
    match r with Some c => ∃ ds, c = mkCtx O U p (d ++ ds) s | None => True end.
Proof.
  intros H Hn. induction l as [|[x y] l IH]; cbn [try_subs]; [by exists None|]. unfold sub_ctx. cbn [cx_o cx_u cx_path cx_diffs cx_stack].
  destruct (H (x, y) ltac:(by left) p []) as (ds & E & _). cbn [fst snd] in E. rewrite E. cbn [mbind option_bind app].
  case_match; [|apply IH; intros; apply H; by right]. unfold extend. cbn [cx_o cx_u cx_path cx_diffs cx_stack].
  destruct (Hn p (d ++ ds)) as (ds' & -> & _). cbn. eexists. split; [done|]. exists (ds ++ ds'). by rewrite app_assoc.
Qed.
End yields.

(** * When the comparison ends *)

(** A model without a cycle of combined schemas and references only, and
    without a cycle through [not]: [cr] falls along the first, [nr] along the
    second. Multiples are not negative. *)
Record ranked (nodes : list SNode) (cr nr : nat → nat) (K : nat) : Prop := {
  rk_wf : nodes_wf nodes;
  rk_kinds : Forall (λ n, kind_ok (sn_kind n)) nodes;
  rk_bound i : cr i ≤ K;
  rk_nr i n c : nodes !! i = Some n → c ∈ children (sn_kind n) → nr c ≤ nr i;
  rk_not i n c : nodes !! i = Some n → sn_kind n = KNot c → nr c < nr i;
  rk_ref i n c : nodes !! i = Some n → sn_kind n = KRef c → cr c ≤ cr i;
  rk_combined i n c crit subs raw : nodes !! i = Some n → sn_kind n = KCombined crit subs raw → c ∈ subs → cr c < cr i;
}.

Section ends.
Context {crates : JsonCrates} (B C : nat).

Definition weight (a b c : nat) : nat := (a * S B + b) * S C + c.
Lemma weight_lt a b c a' b' c' : b' ≤ B → c' ≤ C → a' < a ∨ (a' ≤ a ∧ b' < b) ∨ (a' ≤ a ∧ b' ≤ b ∧ c' < c) → weight a' b' c' < weight a b c.
Proof.
  intros Hb Hc H. unfold weight. assert (a' < a → a' * S B + b' < a * S B + b) as Ha.
  { intros Hlt. assert (S a' * S B ≤ a * S B) by (apply Nat.mul_le_mono_r; lia). lia. }
  assert (a' ≤ a → a' * S B ≤ a * S B) as Ha' by (intros; by apply Nat.mul_le_mono_r).
  assert (∀ x y, x < y → x * S C + c' < y * S C + c) as Hlt.
  { intros x y Hxy. assert (S x * S C ≤ y * S C) by (apply Nat.mul_le_mono_r; lia). lia. }
  destruct H as [H|[[H1 H2]|(H1 & H2 & H3)]]; [apply Hlt; auto|apply Hlt; specialize (Ha' H1); lia|].
  specialize (Ha' H1). assert ((a' * S B + b') * S C ≤ (a * S B + b) * S C) by (apply Nat.mul_le_mono_r; lia). lia.
Qed.

(** Originals that are not guarded yet. *)
Definition free (nodes : list SNode) (s : list nat) : nat := size ((set_seq 0 (length nodes) : gset nat) ∖ list_to_set s).
Lemma free_le nodes s : free nodes s ≤ length nodes.
Proof.
  unfold free. transitivity (size (set_seq 0 (length nodes) : gset nat)); [apply subseteq_size; set_solver|].
  rewrite <-(list_to_set_seq (C := gset nat)). rewrite size_list_to_set by apply NoDup_seq. by rewrite length_seq.
Qed.
Lemma free_guard nodes s o : o < length nodes → o ∉ s → free nodes (s ++ [o]) < free nodes s.
Proof.
  intros Ho Hs. unfold free. apply subset_size. split.
  - rewrite list_to_set_app_L. set_solver.
  - intros Hsub. assert (o ∈ (set_seq 0 (length nodes) : gset nat) ∖ list_to_set s) as Hin.
    { apply elem_of_difference. split; [apply elem_of_set_seq; lia|by rewrite elem_of_list_to_set]. }
    apply Hsub, elem_of_difference in Hin as [_ Hn]. apply Hn, elem_of_list_to_set, elem_of_app. right. by left.
Qed.

Lemma deref_rank nodes cr nr K i t : ranked nodes cr nr K → deref nodes i = Some t → nr t ≤ nr i ∧ cr t ≤ cr i.
Proof.
  intros Hr. unfold deref. destruct (nodes !! i) as [n|] eqn:En; [|done]. cbn. intros [= <-].
  destruct (sn_kind n) eqn:E; try done. split; [eapply (rk_nr _ _ _ _ Hr i n); [done|]; rewrite E; by left|by eapply rk_ref].
Qed.

Lemma compare_none fuel O U s G x y : 0 < fuel → x = None ∨ y = None → (x = y ∨ G = any) → yields O U s (compare fuel x y) G.
Proof.
  intros Hf Hn HG. destruct fuel as [|fuel]; [lia|]. cbn [compare compare_with].
  destruct x, y; try (by destruct Hn); [destruct HG as [| ->]; [done|]; by apply yields_add..|apply yields_ret].
Qed.

Section models.
Context (O U : list SNode) (cro nro cru nru : nat → nat) (K : nat).
Hypothesis HO : ranked O cro nro K.
Hypothesis HU : ranked U cru nru K.

Lemma child_range (nodes : list SNode) i n : nodes_wf nodes → nodes !! i = Some n → Forall (λ c, c < length nodes) (children (sn_kind n)).
Proof. intros Hwf Hn. by apply (proj1 (Forall_lookup _ _) Hwf i). Qed.

Lemma shortcut_total fuel s o u on un p d : O !! o = Some on → U !! u = Some un →
  (∀ x y, (x = o ∨ x ∈ children (sn_kind on)) → (y = u ∨ y ∈ children (sn_kind un)) → cro x + cru y < cro o + cru u →
     yields O U s (compare fuel (Some x) (Some y)) any) →
  ∃ r, combined_shortcut (compare fuel) o u (sn_kind on) (sn_kind un) (mkCtx O U p d s) = Some r ∧
    match r with Some c => ∃ ds, c = mkCtx O U p (d ++ ds) s | None => True end.
Proof.
  intros Ho Hu H.
  assert (∀ crit subs raw note, sn_kind un = KCombined crit subs raw → yields O U s note any →
    ∃ r, try_subs (compare fuel) (pair o <$> subs) note (mkCtx O U p d s) = Some r ∧
      match r with Some c => ∃ ds, c = mkCtx O U p (d ++ ds) s | None => True end) as HsubU.
  { intros crit subs raw note E Hn. apply try_subs_total; [|done]. intros e (y & -> & Hy)%list_elem_of_fmap. cbn [fst snd].
    apply H; [by left|right; by rewrite E|]. pose proof (rk_combined _ _ _ _ HU u un y _ _ _ Hu E Hy). lia. }
  assert (∀ crit subs raw note, sn_kind on = KCombined crit subs raw → yields O U s note any →
    ∃ r, try_subs (compare fuel) ((λ x, (x, u)) <$> subs) note (mkCtx O U p d s) = Some r ∧
      match r with Some c => ∃ ds, c = mkCtx O U p (d ++ ds) s | None => True end) as HsubO.
  { intros crit subs raw note E Hn. apply try_subs_total; [|done]. intros e (x & -> & Hx)%list_elem_of_fmap. cbn [fst snd].
    apply H; [right; by rewrite E|by left|]. pose proof (rk_combined _ _ _ _ HO o on x _ _ _ Ho E Hx). lia. }
  destruct (sn_kind on) eqn:Eo, (sn_kind un) eqn:Eu; cbn [combined_shortcut]; try (by exists None);
    repeat case_bool_decide; first [by exists None|by eapply HsubU; [done|first [apply yields_ret|by apply yields_add]]|by eapply HsubO; [done|first [apply yields_ret|by apply yields_add]]].
Qed.
End models.

(** Enough fuel for a pair is enough for every pair it leads to. *)
Lemma compare_total fuel : ∀ O U cro nro cru nru K s o u, ranked O cro nro K → ranked U cru nru K → K + K ≤ C → length O ≤ B → length U ≤ B →
  o < length O → u < length U → weight (nro o + nru u) (free O s) (cro o + cru u) < fuel → yields O U s (compare fuel (Some o) (Some u)) any.
Proof.
  induction fuel as [|fuel IH]; intros O U cro nro cru nru K s o u HO HU HK HBO HBU Ho Hu Hw p d; [lia|]. cbn [compare compare_with cx_o cx_u].
  destruct (deref_total O o (rk_wf _ _ _ _ HO) Ho) as (od & Eo & Hod). destruct (deref_total U u (rk_wf _ _ _ _ HU) Hu) as (ud & Eu & Hud).
  rewrite Eo, Eu. cbn [mbind option_bind]. destruct (deref_rank _ _ _ _ _ _ HO Eo) as [Hno Hco]. destruct (deref_rank _ _ _ _ _ _ HU Eu) as [Hnu Hcu].
  destruct (lookup_lt_is_Some_2 O od Hod) as [on Hon]. destruct (lookup_lt_is_Some_2 U ud Hud) as [un Hun].
  pose proof (child_range O od on (rk_wf _ _ _ _ HO) Hon) as Hro. pose proof (child_range U ud un (rk_wf _ _ _ _ HU) Hun) as Hru.
  unfold compare_nodes. cbn [cx_o cx_u]. rewrite Hon, Hun. cbn [mbind option_bind].
  pose proof (free_le O s) as Hfs. pose proof (rk_bound _ _ _ _ HO) as HbO. pose proof (rk_bound _ _ _ _ HU) as HbU.
  destruct (shortcut_total O U cro nro cru nru K HO HU fuel s od ud on un p d Hon Hun) as (r & -> & Hr).
  { intros x y Hx Hy Hlt. assert (x < length O ∧ nro x ≤ nro od) as [Hxl Hxn].
    { destruct Hx as [->|Hx]; [done|]. split; [by apply (proj1 (Forall_forall _ _) Hro)|by eapply rk_nr]. }
    assert (y < length U ∧ nru y ≤ nru ud) as [Hyl Hyn].
    { destruct Hy as [->|Hy]; [done|]. split; [by apply (proj1 (Forall_forall _ _) Hru)|by eapply rk_nr]. }
    eapply IH; [done..|]. eapply Nat.lt_le_trans; [apply weight_lt|apply Nat.lt_succ_r, Hw]; [lia|pose proof (HbO x); pose proof (HbU y); lia|].
    right; right. lia. }
  cbn [mbind option_bind]. destruct r as [c|]; [destruct Hr as [ds ->]; exists ds; split; [done|by apply Forall_true]|].
  revert p d. change (yields O U s (λ c, if bool_decide (class (sn_kind on) = class (sn_kind un)) then compare_same (compare fuel) od on un c
    else dwhen (negb (accepts_none (sn_kind on)) && negb (accepts_all (sn_kind un))) (add "TYPE_CHANGED") c) any).
  case_bool_decide; [|apply yields_when; intros; by apply yields_add]. apply compare_same_yields. intros Hs.
  pose proof (free_guard O s od Hod Hs) as Hf. pose proof (free_le O (s ++ [od])) as Hfs'.
  assert (0 < fuel) as Hpos. { unfold weight in Hw. assert (1 * S C ≤ ((nro o + nru u) * S B + free O s) * S C) by (apply Nat.mul_le_mono_r; lia). lia. }
  apply yields_seq; [apply compare_labels_total|]. apply compare_kinds_total.
  - apply (rk_wf _ _ _ _ HO).
  - apply (rk_wf _ _ _ _ HU).
  - intros. by apply compare_none.
  - by apply (proj1 (Forall_lookup _ _) (rk_kinds _ _ _ _ HO) od).
  - by apply (proj1 (Forall_lookup _ _) (rk_kinds _ _ _ _ HU) ud).
  - done.
  - done.
  - intros x y Hx Hy. eapply IH; [done..|by apply (proj1 (Forall_forall _ _) Hro)|by apply (proj1 (Forall_forall _ _) Hru)|].
    pose proof (rk_nr _ _ _ _ HO od on x Hon Hx). pose proof (rk_nr _ _ _ _ HU ud un y Hun Hy).
    eapply Nat.lt_le_trans; [apply weight_lt|apply Nat.lt_succ_r, Hw]; [lia|pose proof (HbO x); pose proof (HbU y); lia|]. right; left. lia.
  - intros a b Ea Eb p. rewrite Ea in Hro. rewrite Eb in Hru. apply Forall_cons in Hro as [Ha _]. apply Forall_cons in Hru as [Hb _].
    pose proof (rk_not _ _ _ _ HO od on a Hon Ea). pose proof (rk_not _ _ _ _ HU ud un b Hun Eb). pose proof (free_le U []).
    destruct (IH U O cru nru cro nro K [] b a) with (p := p) (d := @nil Diff) as (ds & E & _); [done..| |by eexists].
    eapply Nat.lt_le_trans; [apply weight_lt|apply Nat.lt_succ_r, Hw]; [lia|pose proof (HbO a); pose proof (HbU b); lia|]. left. lia.
Qed.

(** A model against itself. *)
Lemma compare_self fuel : ∀ O cr nr K s o, ranked O cr nr K → Forall node_values_wf O → K + K ≤ C → length O ≤ B → o < length O →
  weight (nr o + nr o) (free O s) (cr o + cr o) < fuel → yields O O s (compare fuel (Some o) (Some o)) harmless.
Proof.
  induction fuel as [|fuel IH]; intros O cr nr K s o HO Hv HK HB Ho Hw p d; [lia|]. cbn [compare compare_with cx_o cx_u].
  destruct (deref_total O o (rk_wf _ _ _ _ HO) Ho) as (od & Eo & Hod). rewrite Eo. cbn [mbind option_bind].
  destruct (deref_rank _ _ _ _ _ _ HO Eo) as [Hno Hco]. destruct (lookup_lt_is_Some_2 O od Hod) as [on Hon].
  pose proof (child_range O od on (rk_wf _ _ _ _ HO) Hon) as Hro. unfold compare_nodes. cbn [cx_o cx_u]. rewrite Hon. cbn [mbind option_bind].
  pose proof (free_le O s) as Hfs. pose proof (rk_bound _ _ _ _ HO) as HbO.
  assert (combined_shortcut (compare fuel) od od (sn_kind on) (sn_kind on) (mkCtx O O p d s) = Some None) as -> by (by destruct (sn_kind on)).
  cbn [mbind option_bind]. rewrite bool_decide_eq_true_2 by done. revert p d. change (yields O O s (compare_same (compare fuel) od on on) harmless).
  apply compare_same_yields. intros Hs. pose proof (free_guard O s od Hod Hs) as Hf. pose proof (free_le O (s ++ [od])) as Hfs'.
  assert (0 < fuel) as Hpos. { unfold weight in Hw. assert (1 * S C ≤ ((nr o + nr o) * S B + free O s) * S C) by (apply Nat.mul_le_mono_r; lia). lia. }
  destruct (proj1 (Forall_lookup _ _) Hv od on Hon) as [Hk Hd]. apply yields_seq; [by apply compare_labels_same|].
  assert (∀ x y, x ∈ children (sn_kind on) → y ∈ children (sn_kind on) → weight (nr x + nr y) (free O (s ++ [od])) (cr x + cr y) < fuel) as Hlt.
  { intros x y Hx Hy. pose proof (rk_nr _ _ _ _ HO od on x Hon Hx). pose proof (rk_nr _ _ _ _ HO od on y Hon Hy).
    eapply Nat.lt_le_trans; [apply weight_lt|apply Nat.lt_succ_r, Hw]; [lia|pose proof (HbO x); pose proof (HbO y); lia|]. right; left. lia. }
  apply compare_kinds_same; [apply (rk_wf _ _ _ _ HO)|apply (rk_wf _ _ _ _ HO)|intros; by apply compare_none|done|..].
  - intros x y Hx Hy. eapply compare_total; [done..|by apply (proj1 (Forall_forall _ _) Hro)|by apply (proj1 (Forall_forall _ _) Hro)|by apply Hlt].
  - intros x Hx. eapply IH; [done..|by apply (proj1 (Forall_forall _ _) Hro)|by apply Hlt].
  - intros a Ea p. rewrite Ea in Hro. apply Forall_cons in Hro as [Ha _]. pose proof (rk_not _ _ _ _ HO od on a Hon Ea). pose proof (free_le O []).
    destruct (IH O cr nr K [] a) with (p := p) (d := @nil Diff) as (ds & E & HG); [done..| |].
    + eapply Nat.lt_le_trans; [apply weight_lt|apply Nat.lt_succ_r, Hw]; [lia|pose proof (HbO a); lia|]. left. lia.
    + eexists. split; [exact E|]. by apply harmless_compatible.
Qed.
End ends.

(** * More fuel changes nothing *)

Definition dm_le (m m' : DM) : Prop := ∀ c r, m c = Some r → m' c = Some r.

Lemma dm_le_refl m : dm_le m m.
Proof. by intros c r. Qed.
Lemma dm_le_seq m m' n n' : dm_le m m' → dm_le n n' → dm_le (dseq m n) (dseq m' n').
Proof. intros Hm Hn c r. unfold dseq. intros (c1 & H1 & H2)%bind_Some. rewrite (Hm _ _ H1). by apply Hn. Qed.
Lemma dm_le_all {A} (f f' : A → DM) l : (∀ x, dm_le (f x) (f' x)) → dm_le (dall f l) (dall f' l).
Proof. intros Hf. induction l as [|x l IH]; cbn [dall]; [apply dm_le_refl|]. by apply dm_le_seq. Qed.
Lemma dm_le_when b m m' : dm_le m m' → dm_le (dwhen b m) (dwhen b m').
Proof. intros H. destruct b; [done|apply dm_le_refl]. Qed.
Lemma dm_le_within name m m' : dm_le m m' → dm_le (within name m) (within name m').
Proof. intros Hm c r. unfold within. intros (c1 & H1 & H2)%bind_Some. by rewrite (Hm _ _ H1). Qed.

Section more.
Context {crates : JsonCrates} (rec rec' : option nat → option nat → DM).
Hypothesis Hrec : ∀ o u, dm_le (rec o u) (rec' o u).

Lemma attempt_mono x y k : dm_le (attempt rec x y k) (attempt rec' x y k).
Proof. intros c r. unfold attempt. intros (c1 & H1 & H2)%bind_Some. by rewrite (Hrec _ _ _ _ H1). Qed.

#[local] Hint Resolve dm_le_refl attempt_mono : core.
#[local] Hint Resolve Hrec : core.
Ltac mono := repeat first [by auto|
  lazymatch goal with
  | |- dm_le (dseq _ _) _ => apply dm_le_seq
  | |- dm_le (within _ _) _ => apply dm_le_within
  | |- dm_le (dwhen _ _) _ => apply dm_le_when
  | |- dm_le (dall _ _) _ => apply dm_le_all; intros ?
  | |- _ => case_match
  end].

Lemma compare_additional_mono a b o u c d e f : dm_le (compare_additional rec a b o u c d e f) (compare_additional rec' a b o u c d e f).
Proof. unfold compare_additional. mono. Qed.
Lemma compare_object_mono o u : dm_le (compare_object rec o u) (compare_object rec' o u).
Proof.
  pose proof compare_additional_mono. unfold compare_object, compare_property, property_removed, property_added, compare_schema_dependency. mono.
Qed.
Lemma compare_items_mono o u i oi ui : dm_le (compare_items rec o u i oi ui) (compare_items rec' o u i oi ui).
Proof.
  revert i ui. induction oi as [|x oi IH]; intros i ui; destruct ui as [|y ui]; cbn [compare_items]; unfold at_index, item_added, item_removed; mono.
Qed.
Lemma compare_array_mono o u : dm_le (compare_array rec o u) (compare_array rec' o u).
Proof. pose proof compare_additional_mono. pose proof compare_items_mono. unfold compare_array. mono. Qed.
Lemma compare_not_mono a b : dm_le (compare_not rec a b) (compare_not rec' a b).
Proof. apply dm_le_within. intros c r. intros (c1 & H1 & H2)%bind_Some. by rewrite (Hrec _ _ _ _ H1). Qed.

Lemma fitting_mono o us c js : fitting rec o us c = Some js → fitting rec' o us c = Some js.
Proof.
  revert js. induction us as [|[j u] us IH]; intros js; cbn [fitting]; [done|].
  intros (c1 & H1 & (js1 & H2 & H3)%bind_Some)%bind_Some. rewrite (Hrec _ _ _ _ H1). cbn [mbind option_bind]. by rewrite (IH _ H2).
Qed.
Lemma pairings_mono name os us c es : pairings rec name os us c = Some es → pairings rec' name os us c = Some es.
Proof.
  revert es. induction os as [|[i o] os IH]; intros es; cbn [pairings]; [done|].
  intros (js & H1 & (es1 & H2 & H3)%bind_Some)%bind_Some. rewrite (fitting_mono _ _ _ _ H1). cbn [mbind option_bind]. by rewrite (IH _ H2).
Qed.
Lemma compare_combined_mono a b c d e f : dm_le (compare_combined rec a b c d e f) (compare_combined rec' a b c d e f).
Proof.
  unfold compare_combined. mono. intros x r. unfold compare_pairings. intros (es & H1 & H2)%bind_Some. by rewrite (pairings_mono _ _ _ _ _ H1).
Qed.

Lemma try_subs_mono l note c r : try_subs rec l note c = Some r → try_subs rec' l note c = Some r.
Proof.
  induction l as [|[x y] l IH]; cbn [try_subs]; [done|]. intros (c1 & H1 & H2)%bind_Some. rewrite (Hrec _ _ _ _ H1). cbn [mbind option_bind].
  destruct (compatible c1); [done|by apply IH].
Qed.
Lemma shortcut_mono o u ok uk c r : combined_shortcut rec o u ok uk c = Some r → combined_shortcut rec' o u ok uk c = Some r.
Proof. destruct ok, uk; cbn [combined_shortcut]; try done; repeat case_match; try done; apply try_subs_mono. Qed.

Lemma compare_with_mono o u : dm_le (compare_with rec o u) (compare_with rec' o u).
Proof.
  pose proof compare_object_mono as M1. pose proof compare_array_mono as M2. pose proof compare_not_mono as M3. pose proof compare_combined_mono as M4.
  unfold compare_with. destruct o as [o|], u as [u|]; try apply dm_le_refl. intros c r.
  intros (od & -> & (ud & -> & E)%bind_Some)%bind_Some. cbn [mbind option_bind]. unfold compare_nodes in *.
  apply bind_Some in E as (on & -> & E). apply bind_Some in E as (un & -> & E). apply bind_Some in E as (x & H1 & E). cbn [mbind option_bind].
  rewrite (shortcut_mono _ _ _ _ _ _ H1). cbn [mbind option_bind]. destruct x as [c1|]; [done|]. case_bool_decide; [|done].
  unfold compare_same in *. case_bool_decide; [done|]. apply bind_Some in E as (c1 & H2 & E).
  assert (dm_le (dseq (compare_labels on un) (compare_kinds rec (sn_kind on) (sn_kind un)))
                (dseq (compare_labels on un) (compare_kinds rec' (sn_kind on) (sn_kind un)))) as Hle.
  { apply dm_le_seq; [apply dm_le_refl|]. unfold compare_kinds. mono. }
  by rewrite (Hle _ _ H2).
Qed.
End more.

Section can_read.
Context {crates : JsonCrates}.

Lemma compare_mono fuel fuel' o u : fuel ≤ fuel' → dm_le (compare fuel o u) (compare fuel' o u).
Proof.
  revert fuel' o u. induction fuel as [|fuel IH]; intros fuel' o u Hle; [done|]. destruct fuel' as [|fuel']; [lia|].
  cbn [compare]. apply compare_with_mono. intros. apply IH. lia.
Qed.

Lemma compare_models_mono fuel fuel' wm rm ds : fuel ≤ fuel' → compare_models fuel wm rm = Some ds → compare_models fuel' wm rm = Some ds.
Proof.
  intros Hle. unfold compare_models. intros (c & H1 & H2)%bind_Some. by rewrite (compare_mono _ _ _ _ Hle _ _ H1).
Qed.
Lemma can_read_mono fuel fuel' r w labels out : fuel ≤ fuel' → can_read_fuel fuel r w labels = Some out → can_read_fuel fuel' r w labels = Some out.
Proof.
  intros Hle. unfold can_read_fuel. intros (wm & H1 & (rm & H2 & (ds & H3 & H4)%bind_Some)%bind_Some)%bind_Some.
  rewrite (build_model_mono _ _ _ _ Hle H1). cbn [mbind option_bind]. rewrite (build_model_mono _ _ _ _ Hle H2). cbn [mbind option_bind].
  by rewrite (compare_models_mono _ _ _ _ _ Hle H3).
Qed.
End can_read.
