(* ===== verification/JsonReads.v ===== *)
(** JSON Schema compatibility as the registry uses it: which documents can be
    compared, that a schema reads itself, what limits mean for data, and
    documents on which the comparison fails or misses a change. *)
From S2P Require Import Prelude SortedVec RustStr Errors Json Model Context Snapshot Keys SchemaLayer JavaOrder Views Float64 Matching JsonSchema JsonLoad JsonDiff JsonCompare.

Open Scope string_scope.
Open Scope nat_scope.
Open Scope list_scope.

Section reads.
Context {crates : JsonCrates}.

Lemma two_bounds (a b : nat) : ∃ c, a ≤ c ∧ b ≤ c.
Proof. exists (a `max` b). lia. Qed.

Lemma harmless_filter ds : Forall (λ x, harmless (df_kind x)) ds → filter (λ d, incompatible d = true) ds = [].
Proof.
  induction 1 as [|d ds Hd _ IH]; [done|]. rewrite filter_cons, decide_False; [done|].
  unfold incompatible. by rewrite bool_decide_eq_true_2 by exact Hd.
Qed.

(** The model of a document can be compared: it is ranked. *)
Definition comparable (d : JsonDoc) : Prop :=
  ∃ m fuel cr nr K, build_model_fuel fuel d = Some m ∧ ranked (md_nodes m) cr nr K.

Lemma ranked_widen nodes cr nr K K' : K ≤ K' → ranked nodes cr nr K → ranked nodes cr nr K'.
Proof. intros HK [? ? Hb ? ? ? ?]. split; try done. intros i. specialize (Hb i). lia. Qed.

Lemma model_of (d : JsonDoc) fuel m : build_model_fuel fuel d = Some m → model_wf m ∧ (all_refs d = [] → nodes_below (md_nodes m)) ∧
  (Forall doc_ok (all_docs d) → Forall node_ok (md_nodes m)).
Proof.
  intros E. destruct (build_model_ends d) as (m' & Hm & Hb & Hok & f & Hf).
  assert (m' = m) as ->; [|done]. pose proof (Hf (fuel `max` f) ltac:(lia)) as E1.
  rewrite (build_model_mono fuel (fuel `max` f) d m) in E1 by (done || lia). congruence.
Qed.

(** Nodes that come after what they refer to rank themselves. *)
Lemma below_ranked nodes : nodes_wf nodes → nodes_below nodes → Forall node_ok nodes → ranked nodes (λ i, i `min` length nodes) id (length nodes).
Proof.
  intros Hwf Hb Hok. assert (∀ i n c, nodes !! i = Some n → c ∈ children (sn_kind n) → c < i ∧ i < length nodes) as Hlt.
  { intros i n c Hi Hc. split; [by apply (proj1 (Forall_forall _ _) (Hb i n Hi))|by eapply lookup_lt_Some]. }
  split; [done| |intros i; lia|..].
  - eapply Forall_impl; [exact Hok|]. by intros n [? _].
  - intros i n c Hi Hc. destruct (Hlt i n c Hi Hc). cbn. lia.
  - intros i n c Hi E. destruct (Hlt i n c Hi); [rewrite E; by left|]. cbn. lia.
  - intros i n c Hi E. destruct (Hlt i n c Hi); [rewrite E; by left|]. lia.
  - intros i n c crit subs raw Hi E Hc. destruct (Hlt i n c Hi); [by rewrite E|]. lia.
Qed.

Lemma plain_comparable (d : JsonDoc) : all_refs d = [] → Forall doc_ok (all_docs d) → comparable d.
Proof.
  intros Hr Hd. destruct (build_model_ends d) as (m & [Hm _] & Hb & Hok & f & Hf).
  exists m, f, (λ i, i `min` length (md_nodes m)), id, (length (md_nodes m)). split; [by apply Hf|]. apply below_ranked; auto.
Qed.

Lemma can_read_ends_models reader writer labels rm wm fr fw cro nro cru nru Ko Ku :
  build_model_fuel fw writer = Some wm → build_model_fuel fr reader = Some rm →
  ranked (md_nodes wm) cro nro Ko → ranked (md_nodes rm) cru nru Ku → ∃ fuel out, can_read_fuel fuel reader writer labels = Some out.
Proof.
  intros Ew Er Hw Hr. destruct (model_of _ _ _ Ew) as [[_ Hwr] _]. destruct (model_of _ _ _ Er) as [[_ Hrr] _].
  destruct (two_bounds Ko Ku) as (K & HK1 & HK2). destruct (two_bounds (length (md_nodes wm)) (length (md_nodes rm))) as (B & HB1 & HB2).
  set (f := S (weight B (K + K) (nro (md_root wm) + nru (md_root rm)) (free (md_nodes wm) []) (cro (md_root wm) + cru (md_root rm)))).
  assert (yields (md_nodes wm) (md_nodes rm) [] (compare f (Some (md_root wm)) (Some (md_root rm))) any) as Hy.
  { eapply (compare_total B (K + K) f _ _ cro nro cru nru K); [apply (ranked_widen _ _ _ Ko); [lia|exact Hw]|apply (ranked_widen _ _ _ Ku); [lia|exact Hr]|unfold f; lia..]. }
  destruct (Hy [] []) as (ds & E & _). destruct (two_bounds fw fr) as (F1 & HF1 & HF2). destruct (two_bounds F1 f) as (F & HF3 & HF4).
  exists F. unfold can_read_fuel. rewrite (build_model_mono fw F _ _ ltac:(lia) Ew). cbn [mbind option_bind].
  rewrite (build_model_mono fr F _ _ ltac:(lia) Er). cbn [mbind option_bind].
  assert (compare_models f wm rm = Some (filter (λ d, incompatible d = true) ([] ++ ds))) as E1 by (unfold compare_models; by rewrite E).
  rewrite (compare_models_mono f F _ _ _ ltac:(lia) E1). by eexists.
Qed.

(** * Theorems *)

(** (C22) Two JSON Schemas can always be compared when neither has references (and
    their multiples are not negative): the check ends with an answer. With
    references it ends too, provided no chain of [allOf], [anyOf], [oneOf] and
    references comes back to its start, and none through [not]: recursion
    through properties and items is cut by the guard. *)
Theorem json_check_ends reader writer labels : comparable reader → comparable writer →
  ∃ fuel out, can_read_fuel fuel reader writer labels = Some out.
Proof.
  intros (rm & fr & cru & nru & Ku & Er & Hr) (wm & fw & cro & nro & Ko & Ew & Hw). by eapply can_read_ends_models.
Qed.

(** (C23) A JSON Schema reads what it wrote: compared with itself, a document that
    can be compared and whose objects have distinct keys is reported
    compatible, with no message. Alternatives are matched with themselves,
    which is where the maximality of the matching is needed. *)
Theorem json_reads_itself d labels : comparable d → Forall doc_ok (all_docs d) → ∃ fuel, can_read_fuel fuel d d labels = Some [].
Proof.
  intros (m & f0 & cr & nr & K & Em & Hr) Hd. destruct (model_of _ _ _ Em) as ([_ Hroot] & _ & Hok). specialize (Hok Hd).
  set (B := length (md_nodes m)). set (f := S (weight B (K + K) (nr (md_root m) + nr (md_root m)) (free (md_nodes m) []) (cr (md_root m) + cr (md_root m)))).
  assert (yields (md_nodes m) (md_nodes m) [] (compare f (Some (md_root m)) (Some (md_root m))) harmless) as Hy.
  { eapply (compare_self B (K + K)); [exact Hr| |unfold f, B; lia..]. eapply Forall_impl; [exact Hok|]. by intros n [_ ?]. }
  destruct (Hy [] []) as (ds & E & HG). destruct (two_bounds f0 f) as (F & HF1 & HF2). exists F. unfold can_read_fuel.
  rewrite (build_model_mono f0 F _ _ ltac:(lia) Em). cbn [mbind option_bind].
  assert (compare_models f m m = Some []) as E1.
  { unfold compare_models. rewrite E. cbn [mbind option_bind cx_diffs app]. f_equal. by apply harmless_filter. }
  by rewrite (compare_models_mono f F _ _ _ ltac:(lia) E1).
Qed.
End reads.

(** ** On concrete documents *)

(** A crate environment that compiles every pattern and matches none. *)
Definition small_crates : JsonCrates := {|
  json_from_str _ := Err ""; json_to_string _ := Err ""; value_display _ := ""; regex_error _ := None; regex_is_match _ _ := false;
  hash_order m := m |}.
Definition doc_of (v : Value) : JsonDoc := mkJsonDoc v [] "" "".
Definition typed (t : string) : Value := VObject [("type", VString t)].
Definition ref_to (r : string) : Value := VObject [("$ref", VString r)].
Definition new_old : Labels := mkLabels "new" "old".

(** Models without combined schemas and [not]. *)
Lemma simple_ranked nodes : nodes_wf nodes → Forall (λ n, kind_ok (sn_kind n)) nodes →
  Forall (λ n, match sn_kind n with KNot _ | KCombined _ _ _ => false | _ => true end = true) nodes → ranked nodes (λ _, 0) (λ _, 0) 0.
Proof.
  intros Hwf Hok Hs. split; try done.
  - intros i n c Hi E. pose proof (proj1 (Forall_lookup _ _) Hs i n Hi) as H. cbn in H. by rewrite E in H.
  - intros i n c crit subs raw Hi E. pose proof (proj1 (Forall_lookup _ _) Hs i n Hi) as H. cbn in H. by rewrite E in H.
Qed.

(** A linked list: a schema that refers to itself through a property. *)
Definition linked_list : Value := VObject [
  ("definitions", VObject [("n", VObject [("type", VString "object"); ("properties", VObject [("next", ref_to "#/definitions/n")])])]);
  ("$ref", VString "#/definitions/n")].

Lemma linked_list_comparable : comparable (doc_of linked_list).
Proof.
  destruct (build_model_fuel 20 (doc_of linked_list)) as [m|] eqn:E; [|by vm_compute in E].
  exists m, 20, (λ _, 0), (λ _, 0), 0. split; [done|]. vm_compute in E. injection E as <-. apply simple_ranked.
  - by apply (bool_decide_unpack _); vm_compute.
  - by repeat constructor.
  - by repeat constructor.
Qed.
Lemma linked_list_ok : Forall doc_ok (all_docs (doc_of linked_list)).
Proof. apply Forall_singleton. cbn. repeat split; try (apply (bool_decide_unpack _); by vm_compute). Qed.

Lemma json_check_ends_witness : comparable (doc_of linked_list) ∧
  ∃ fuel out, can_read_fuel (crates := small_crates) fuel (doc_of linked_list) (doc_of linked_list) new_old = Some out.
Proof.
  split; [exact linked_list_comparable|].
  exact (json_check_ends (crates := small_crates) (doc_of linked_list) (doc_of linked_list) new_old linked_list_comparable linked_list_comparable).
Defined.

Lemma json_reads_itself_witness : Forall doc_ok (all_docs (doc_of linked_list)) ∧
  ∃ fuel, can_read_fuel (crates := small_crates) fuel (doc_of linked_list) (doc_of linked_list) new_old = Some [].
Proof.
  split; [exact linked_list_ok|].
  exact (json_reads_itself (crates := small_crates) (doc_of linked_list) new_old linked_list_comparable linked_list_ok).
Defined.

(** ** Where the comparison does not end *)

(** [anyOf] of the document itself and of a string: valid, and registered. *)
Definition self_union : Value := VObject [("anyOf", VArray [ref_to "#"; typed "string"])].

Definition union_nodes : list SNode := Eval vm_compute in
  match build_model_fuel 20 (doc_of self_union) with Some m => md_nodes m | None => [] end.
Definition integer_nodes : list SNode := Eval vm_compute in
  match build_model_fuel 20 (doc_of (typed "integer")) with Some m => md_nodes m | None => [] end.

Lemma union_loop {crates : JsonCrates} fuel p s j : deref union_nodes j = Some 0 →
  compare fuel (Some 1) (Some j) (mkCtx integer_nodes union_nodes p [] s) = None.
Proof.
  revert j. induction fuel as [|fuel IH]; intros j Hj; [done|]. cbn [compare compare_with cx_o cx_u]. rewrite Hj. cbn. unfold sub_ctx. cbn.
  by rewrite (IH 1).
Qed.

(** A stack overflow any client can cause: a schema whose [anyOf] refers to the
    document itself is valid, and as a reader of an integer it is compared
    forever. The guard against cycles is only reached below a pair of one
    class, and each alternative is tried before that. *)
Theorem self_union_never_ends {crates : JsonCrates} labels fuel :
  validate_fuel 20 self_union [] = Some (Ok ()) ∧ can_read_fuel fuel (doc_of self_union) (doc_of (typed "integer")) labels = None.
Proof.
  split; [by vm_compute|]. apply eq_None_not_Some. intros [out E]. apply (can_read_mono _ (fuel + 20)) in E; [|lia]. unfold can_read_fuel in E.
  assert (build_model_fuel 20 (doc_of (typed "integer")) = Some (mkModelS integer_nodes 1)) as Ei by (by vm_compute).
  assert (build_model_fuel 20 (doc_of self_union) = Some (mkModelS union_nodes 10)) as Eu by (by vm_compute).
  rewrite (build_model_mono 20 (fuel + 20) _ _ ltac:(lia) Ei) in E. cbn [mbind option_bind] in E.
  rewrite (build_model_mono 20 (fuel + 20) _ _ ltac:(lia) Eu) in E. cbn [mbind option_bind] in E.
  unfold compare_models in E. cbn [md_root md_nodes] in E. destruct (fuel + 20) as [|f]; [done|]. cbn [compare compare_with cx_o cx_u] in E.
  cbn in E. unfold sub_ctx in E. cbn in E. 
  rewrite !bool_decide_eq_false_2 in E by done.
  rewrite (union_loop f [] [] 6 eq_refl) in E. discriminate E.
Qed.

(** ** Changes that are not noticed *)

(** A reference to a reference is not followed to its end, so a change of type
    behind two references passes the check. *)
Definition two_steps (t : string) : Value :=
  VObject [("definitions", VObject [("a", ref_to "#/definitions/b"); ("b", typed t)]); ("$ref", VString "#/definitions/a")].
Theorem reference_chain_unchecked labels :
  can_read_fuel (crates := small_crates) 20 (doc_of (two_steps "string")) (doc_of (two_steps "integer")) labels = Some [].
Proof. by vm_compute. Qed.

(** [required] is compared only for properties both schemas declare: a newly
    required name without a declaration passes, although documents without it
    were valid. *)
Theorem required_unchecked labels : can_read_fuel (crates := small_crates) 20
  (doc_of (VObject [("type", VString "object"); ("required", VArray [VString "a"])])) (doc_of (typed "object")) labels = Some [].
Proof. by vm_compute. Qed.

(** A panic: the remainder of [i64::MIN] by -1 overflows. Both documents are
    valid. *)
Definition multiple (n : Number) : Value := VObject [("type", VString "number"); ("multipleOf", VNumber n)].
Theorem negative_multiple_panics {crates : JsonCrates} labels fuel :
  validate_fuel 20 (multiple (NegInt (-1))) [] = Some (Ok ()) ∧ validate_fuel 20 (multiple (NegInt (- 2 ^ 63)%Z)) [] = Some (Ok ()) ∧
  can_read_fuel fuel (doc_of (multiple (NegInt (- 2 ^ 63)%Z))) (doc_of (multiple (NegInt (-1)))) labels = None.
Proof.
  split_and!; [by vm_compute..|]. apply eq_None_not_Some. intros [out E]. apply (can_read_mono _ (fuel + 20)) in E; [|lia]. unfold can_read_fuel in E.
  destruct (build_model_fuel 20 (doc_of (multiple (NegInt (-1))))) as [wm|] eqn:Ew; [|by vm_compute in Ew].
  destruct (build_model_fuel 20 (doc_of (multiple (NegInt (- 2 ^ 63)%Z)))) as [rm|] eqn:Er; [|by vm_compute in Er].
  rewrite (build_model_mono 20 (fuel + 20) _ _ ltac:(lia) Ew) in E. cbn [mbind option_bind] in E.
  rewrite (build_model_mono 20 (fuel + 20) _ _ ltac:(lia) Er) in E. cbn [mbind option_bind] in E.
  assert (compare_models (S (fuel + 19)) wm rm = None) as En; [|replace (fuel + 20) with (S (fuel + 19)) in E by lia; by rewrite En in E].
  vm_compute in Ew, Er. injection Ew as <-. injection Er as <-. generalize (fuel + 19) as f. intros f. vm_compute. reflexivity.
Qed.
