(* ===== verification/JsonFacts.v ===== *)
(** What a compatible pair of JSON Schemas means for data (strings and
    integers), and what the normalized form keeps. *)
From S2P Require Import Prelude SortedVec RustStr Errors Json Model Context Snapshot Keys SchemaLayer JavaOrder Views Float64 JsonSchema JsonDiff.

Open Scope string_scope.
Open Scope Z_scope.
Open Scope list_scope.

(** * Limits *)

(** A comparison of two leaves that finds no incompatible difference. *)
Definition passes (m : DM) : Prop := ∃ c, m (mkCtx [] [] [] [] []) = Some c ∧ compatible c = true.

Definition harmless_kind (kind : string) : bool := bool_decide (kind ∈ COMPATIBLE).

Lemma add_at_inv key kind c c' : add_at key kind c = Some c' → compatible c' = true → compatible c = true ∧ harmless_kind kind = true.
Proof.
  unfold add_at, within, add, extend, with_path. cbn. intros [= <-]. unfold compatible. cbn [cx_diffs]. rewrite existsb_app. cbn [existsb].
  rewrite orb_false_r, negb_true_iff, orb_false_iff. intros [-> Hk]. split; [done|].
  unfold incompatible in Hk. by rewrite negb_false_iff in Hk.
Qed.
Lemma add_inv kind c c' : add kind c = Some c' → compatible c' = true → compatible c = true ∧ harmless_kind kind = true.
Proof.
  unfold add, extend. intros [= <-]. unfold compatible. cbn [cx_diffs]. rewrite existsb_app. cbn [existsb].
  rewrite orb_false_r, negb_true_iff, orb_false_iff. intros [-> Hk]. split; [done|].
  unfold incompatible in Hk. by rewrite negb_false_iff in Hk.
Qed.
Lemma dseq_inv (P Q : Prop) m n c c' : (∀ c c', m c = Some c' → compatible c' = true → compatible c = true ∧ P) →
  (∀ c c', n c = Some c' → compatible c' = true → compatible c = true ∧ Q) →
  dseq m n c = Some c' → compatible c' = true → compatible c = true ∧ P ∧ Q.
Proof.
  intros Hm Hn (c1 & H1 & H2)%bind_Some Hc. destruct (Hn _ _ H2 Hc) as [Hc1 HQ]. destruct (Hm _ _ H1 Hc1) as [? ?]. done.
Qed.

Definition at_most (limit : option Z) (n : Z) : Prop := match limit with Some m => n ≤ m | None => True end.
Definition at_least (limit : option Z) (n : Z) : Prop := match limit with Some m => m ≤ n | None => True end.

(** An upper limit passes when it is not added or lowered. *)
Lemma upper_inv key o u k c c' : harmless_kind (added k) = false → harmless_kind (decreased k) = false →
  compare_bound key o u k c = Some c' → compatible c' = true → compatible c = true ∧ ∀ n, at_most o n → at_most u n.
Proof.
  intros Ha Hd E Hc. unfold compare_bound in E. case_decide as Heq; [injection E as <-; subst; done|].
  destruct o as [a|], u as [b|]; [|by destruct (add_at_inv _ _ _ _ E Hc)|destruct (add_at_inv _ _ _ _ E Hc); congruence|by injection E as <-].
  repeat case_bool_decide; [destruct (add_at_inv _ _ _ _ E Hc); split; [done|]; intros n; cbn; lia|destruct (add_at_inv _ _ _ _ E Hc); congruence|].
  injection E as <-. split; [done|]. intros n. cbn. lia.
Qed.
Lemma lower_inv key o u k c c' : harmless_kind (added k) = false → harmless_kind (increased k) = false →
  compare_bound key o u k c = Some c' → compatible c' = true → compatible c = true ∧ ∀ n, at_least o n → at_least u n.
Proof.
  intros Ha Hd E Hc. unfold compare_bound in E. case_decide as Heq; [injection E as <-; subst; done|].
  destruct o as [a|], u as [b|]; [|by destruct (add_at_inv _ _ _ _ E Hc)|destruct (add_at_inv _ _ _ _ E Hc); congruence|by injection E as <-].
  repeat case_bool_decide; [destruct (add_at_inv _ _ _ _ E Hc); congruence|destruct (add_at_inv _ _ _ _ E Hc); split; [done|]; intros n; cbn; lia|].
  injection E as <-. split; [done|]. intros n. cbn. lia.
Qed.

Section strings.
Context {crates : JsonCrates}.

(** A string of a given length is valid. *)
Definition str_accepts (s : StrS) (len : Z) (text : string) : Prop :=
  at_least (min_length s) len ∧ at_most (max_length s) len ∧
  match pattern s with Some p => regex_is_match p text = true | None => True end.

(** What a reader may not do to the limits of a string: when the comparison
    passes, every string the writer's schema accepts is accepted by the
    reader's. *)
Theorem string_limits_sound a b : passes (compare_string a b) → ∀ len text, str_accepts a len text → str_accepts b len text.
Proof.
  intros (c & E & Hc) len text (Hmin & Hmax & Hpat). unfold compare_string in E.
  eapply dseq_inv in E as (_ & Hup & Hrest); [|by intros ? ?; apply upper_inv|intros ? ?; apply dseq_inv; [by intros ? ?; apply lower_inv|]|done].
  2: { intros c1 c2 E1 Hc1. assert (compatible c1 = true ∧ (pattern b = pattern a ∨ pattern b = None)) as H; [|exact H].
       destruct (pattern a) as [p|], (pattern b) as [q|].
       - unfold dwhen in E1. case_bool_decide as Hpq; cbn in E1; [injection E1 as <-; subst; auto|]. destruct (add_at_inv _ _ _ _ E1 Hc1). done.
       - destruct (add_at_inv _ _ _ _ E1 Hc1). auto.
       - destruct (add_at_inv _ _ _ _ E1 Hc1). done.
       - injection E1 as <-. auto. }
  destruct Hrest as [Hlow Hp]. split_and!; [by apply Hlow|by apply Hup|]. by destruct Hp as [-> | ->].
Qed.
End strings.

(** ** Integers *)

(** The integer a limit is, when doubles hold it exactly. *)
Definition whole (n : option Number) : option Z :=
  match n with Some (PosInt z | NegInt z) => Some z | _ => None end.
Definition exact (n : option Number) : Prop :=
  match n with Some (PosInt z | NegInt z) => Z.abs z < 2 ^ 53 | Some (Float _) => False | None => True end.

Lemma exact_f64 n : exact (Some n) → ∃ z, whole (Some n) = Some z ∧ Z.abs z < 2 ^ 53 ∧ number_f64 n = F64.of_int z.
Proof. destruct n as [z|z|bits]; cbn; [eauto..|done]. Qed.

(** The same number, written in the same way. *)
Lemma number_eqb_whole a b : exact (Some a) → exact (Some b) → number_eqb a b = true → whole (Some a) = whole (Some b).
Proof. intros Ha Hb. destruct a, b; cbn in *; try done; intros H%bool_decide_eq_true; by simplify_eq. Qed.

Lemma number_bound_inv key o u k c c' : exact o → exact u → number_bound key o u k c = Some c' → compatible c' = true → compatible c = true ∧
  match whole o, whole u with
  | None, Some _ => harmless_kind (added k) = true
  | Some a, Some b => (a < b → harmless_kind (increased k) = true) ∧ (b < a → harmless_kind (decreased k) = true)
  | _, None => True
  end.
Proof.
  intros Ho Hu E Hc. unfold number_bound in E. destruct o as [a|], u as [b|].
  - destruct (exact_f64 a Ho) as (x & Hx & Hxb & Fx). destruct (exact_f64 b Hu) as (y & Hy & Hyb & Fy). rewrite Hx, Hy. cbn [opt_number_eqb] in E.
    destruct (number_eqb a b) eqn:Eq.
    { injection E as <-. split; [done|]. apply number_eqb_whole in Eq; [|done..]. rewrite Hx, Hy in Eq. injection Eq as ->. lia. }
    cbn [fmap option_fmap option_map] in E. rewrite Fx, Fy, !of_int_ltb in E by done.
    repeat case_bool_decide; [destruct (add_at_inv _ _ _ _ E Hc); split; [done|]; split; [done|lia]|destruct (add_at_inv _ _ _ _ E Hc); split; [done|]; split; [lia|done]|].
    injection E as <-. split; [done|lia].
  - destruct (exact_f64 a Ho) as (x & Hx & _). rewrite Hx. cbn [whole]. cbn in E. by destruct (add_at_inv _ _ _ _ E Hc).
  - destruct (exact_f64 b Hu) as (y & Hy & _). rewrite Hy. cbn [whole]. cbn in E. destruct (add_at_inv _ _ _ _ E Hc). done.
  - cbn in E. by injection E as <-.
Qed.

Definition above (limit : option Z) (n : Z) : Prop := match limit with Some m => m < n | None => True end.
Definition beneath (limit : option Z) (n : Z) : Prop := match limit with Some m => n < m | None => True end.
Definition multiple_of_limit (limit : option Z) (n : Z) : Prop := match limit with Some m => (m | n) | None => True end.

(** An integer is valid. *)
Definition int_accepts (s : NumS) (z : Z) : Prop :=
  at_least (whole (minimum s)) z ∧ at_most (whole (maximum s)) z ∧ above (whole (exclusive_minimum s)) z ∧
  beneath (whole (exclusive_maximum s)) z ∧ multiple_of_limit (whole (multiple_of s)) z.

(** Limits that are integers of at most 53 bits, and a positive multiple. *)
Definition exact_limits (s : NumS) : Prop :=
  exact (minimum s) ∧ exact (maximum s) ∧ exact (exclusive_minimum s) ∧ exact (exclusive_maximum s) ∧ exact (multiple_of s) ∧
  match whole (multiple_of s) with Some m => 0 < m | None => True end.

Lemma multiple_inv o u c c' : exact o → exact u → (∀ m, whole o = Some m ∨ whole u = Some m → 0 < m) →
  compare_multiple o u c = Some c' → compatible c' = true → compatible c = true ∧ ∀ z, multiple_of_limit (whole o) z → multiple_of_limit (whole u) z.
Proof.
  intros Ho Hu Hpos E Hc. unfold compare_multiple in E. destruct o as [a|], u as [b|].
  - destruct (exact_f64 a Ho) as (x & Hx & Hxb & Fx). destruct (exact_f64 b Hu) as (y & Hy & Hyb & Fy). rewrite Hx, Hy in *.
    cbn [fmap option_fmap option_map] in E. rewrite Fx, Fy, !of_int_exact in E by done.
    assert (0 < x) by (apply Hpos; auto). assert (0 < y) by (apply Hpos; auto).
    assert (∀ w, 0 < w < 2 ^ 53 → F64.to_i64 (F64.mk w 0) = w) as Hi.
    { intros w Hw. unfold F64.to_i64. cbn [F64.exponent F64.mantissa]. rewrite bool_decide_eq_true_2 by lia. rewrite Z.shiftl_0_r. lia. }
    rewrite !Hi in E by lia.
    destruct (F64.eqb _ _) eqn:Eq.
    { unfold F64.eqb, F64.aligned in Eq. cbn [F64.exponent F64.mantissa] in Eq. rewrite Z.min_id, Z.sub_diag, !Z.shiftl_0_r in Eq.
      apply bool_decide_eq_true in Eq. injection E as <-. by rewrite Eq. }
    unfold multiple_kind, i64_rem in E. rewrite !bool_decide_eq_false_2 in E by lia. cbn [orb mbind option_bind] in E.
    case_bool_decide as H1; [by destruct (add_at_inv _ _ _ _ E Hc)|]. cbn [mbind option_bind] in E.
    case_bool_decide as H2; destruct (add_at_inv _ _ _ _ E Hc) as [Hcc Hk]; [|done]. split; [done|]. intros z Hz. cbn in *.
    apply Z.rem_divide in H2; [|lia]. by etrans.
  - destruct (exact_f64 a Ho) as (x & Hx & _). cbn in E. by destruct (add_at_inv _ _ _ _ E Hc).
  - cbn in E. destruct (add_at_inv _ _ _ _ E Hc). done.
  - cbn in E. by injection E as <-.
Qed.

(** (C29) The same for integers: when the comparison of two numeric schemas passes,
    every integer the writer's schema accepts is accepted by the reader's, as
    long as the limits are integers that doubles hold exactly. *)
Theorem integer_limits_sound a b : exact_limits a → exact_limits b → passes (compare_number a b) → ∀ z, int_accepts a z → int_accepts b z.
Proof.
  intros (A1 & A2 & A3 & A4 & A5 & A6) (B1 & B2 & B3 & B4 & B5 & B6) (c & E & Hc) z (H1 & H2 & H3 & H4 & H5). unfold compare_number in E.
  eapply dseq_inv in E as (_ & Hmax & Hrest); [|by intros ? ?; apply number_bound_inv|intros ? ?; apply dseq_inv; [by intros ? ?; apply number_bound_inv|];
    intros ? ?; apply dseq_inv; [by intros ? ?; apply number_bound_inv|]; intros ? ?; apply dseq_inv; [by intros ? ?; apply number_bound_inv|];
    intros ? ?; apply dseq_inv with (Q := True); [intros ? ?; apply multiple_inv; [done..|]|]|done].
  3: { clear. intros c1 c2 E1 Hc1. split; [|done]. unfold dwhen in E1. case_match; [by destruct (add_inv _ _ _ E1 Hc1)|by injection E1 as <-]. }
  2: { intros m [Hm|Hm]; [by rewrite Hm in A6|by rewrite Hm in B6]. }
  destruct Hrest as (Hmin & Hemax & Hemin & Hmul & _). cbn [added removed increased decreased] in *. unfold int_accepts.
  split_and!; [| | | |by apply Hmul].
  - destruct (whole (minimum a)), (whole (minimum b)); cbn in *; try done. destruct Hmin as [Hi _].
    destruct (decide (z0 < z1)); [by specialize (Hi l)|lia].
  - destruct (whole (maximum a)), (whole (maximum b)); cbn in *; try done. destruct Hmax as [_ Hd].
    destruct (decide (z1 < z0)); [by specialize (Hd l)|lia].
  - destruct (whole (exclusive_minimum a)), (whole (exclusive_minimum b)); cbn in *; try done. destruct Hemin as [Hi _].
    destruct (decide (z0 < z1)); [by specialize (Hi l)|lia].
  - destruct (whole (exclusive_maximum a)), (whole (exclusive_maximum b)); cbn in *; try done. destruct Hemax as [_ Hd].
    destruct (decide (z1 < z0)); [by specialize (Hd l)|lia].
Qed.

Lemma string_limits_sound_witness : passes (compare_string (mkStrS (Some 1) (Some 3) None) (mkStrS None (Some 4) None)) ∧
  ∀ crates : JsonCrates, ∀ len text, str_accepts (mkStrS (Some 1) (Some 3) None) len text → str_accepts (mkStrS None (Some 4) None) len text.
Proof.
  assert (passes (compare_string (mkStrS (Some 1) (Some 3) None) (mkStrS None (Some 4) None))) as Hp.
  { eexists. split; [vm_compute; reflexivity|vm_compute; reflexivity]. }
  split; [exact Hp|]. intros crates. exact (string_limits_sound _ _ Hp).
Defined.

Lemma integer_limits_sound_witness :
  int_accepts (mkNumS (Some (PosInt 1)) (Some (PosInt 9)) None None (Some (PosInt 6)) true) 6 ∧
  int_accepts (mkNumS None (Some (PosInt 12)) None None (Some (PosInt 3)) false) 6.
Proof.
  assert (int_accepts (mkNumS (Some (PosInt 1)) (Some (PosInt 9)) None None (Some (PosInt 6)) true) 6) as H.
  { repeat split; cbn; try lia. by exists 1. }
  split; [exact H|]. refine (integer_limits_sound _ _ _ _ _ 6 H); [by repeat split|by repeat split|].
  eexists. split; [vm_compute; reflexivity|vm_compute; reflexivity].
Defined.

(** * The normalized form *)

(** The same document with the keys of its objects in another order, at any depth. *)
Inductive reordered : Value → Value → Prop :=
| Rsame v : reordered v v
| Rarray l k : Forall2 reordered l k → reordered (VArray l) (VArray k)
| Robject (o p q : Map) : o ≡ₚ p → Forall2 (λ e f, e.1 = f.1 ∧ reordered e.2 f.2) p q → reordered (VObject o) (VObject q).

Definition sort_values (o : Map) : Map := map (λ e, match e with (k, x) => (k, sorted x) end) o.
Definition sort_keys (o : Map) : Map :=
  foldl (λ m k, match map_get k o with Some x => map_insert k x m | None => m end) [] (sort_vec o.*1).
Lemma sorted_object o : sorted (VObject o) = VObject (sort_keys (sort_values o)).
Proof. done. Qed.

(** Objects with the same entries have the same sorted form. *)
Lemma sort_keys_perm (o p : Map) : NoDup o.*1 → o ≡ₚ p → sort_keys o = sort_keys p.
Proof.
  intros Hnd Hp. unfold sort_keys. assert (NoDup p.*1) as Hnd' by (by rewrite <-Hp).
  assert (sort_vec o.*1 = sort_vec p.*1) as ->.
  { unfold sort_vec. apply (Sorted_unique kle); [apply (Sorted_merge_sort kle)..|]. by rewrite !merge_sort_Permutation, Hp. }
  assert (∀ k, map_get k o = map_get k p) as Hget.
  { intros k. destruct (map_get k p) as [x|] eqn:Ep.
    - apply map_get_unique; [done|]. rewrite Hp. clear -Ep. induction p as [|[k' y] p IH]; cbn [map_get] in Ep; [done|].
      case_decide; [simplify_eq; by left|right; auto].
    - destruct (map_get k o) as [x|] eqn:Eo; [|done]. assert ((k, x) ∈ p) as Hx.
      { rewrite <-Hp. clear -Eo. induction o as [|[k' y] o IH]; cbn [map_get] in Eo; [done|]. case_decide; [simplify_eq; by left|right; auto]. }
      rewrite (map_get_unique _ _ _ Hnd' Hx) in Ep. done. }
  generalize (@nil (string * Value)) as acc. induction (sort_vec p.*1) as [|k ks IH]; intros acc; cbn [foldl]; [done|]. rewrite Hget. apply IH.
Qed.
Lemma sort_values_keys o : (sort_values o).*1 = o.*1.
Proof. induction o as [|[k x] o IH]; [done|]. cbn. f_equal. exact IH. Qed.

Lemma value_wf_entries o : value_wf (VObject o) → Forall (λ e, value_wf e.2) o.
Proof. intros [_ H]. induction o as [|[k x] o IH]; [constructor|]. destruct H. constructor; auto. Qed.

(** The normalized form does not depend on the order of keys: documents that
    differ only in the order of keys, at any depth, sort to the same document,
    and so print the same normalized text. *)
Theorem normalized_ignores_key_order a b : value_wf a → reordered a b → sorted a = sorted b.
Proof.
  revert b. induction a as [a Ha|l IH|o IH] using value_nested_ind; intros b Hwf Hr.
  - inversion Hr; subst; done.
  - inversion Hr as [|l' k Hk|]; subst; [done|]. cbn [sorted]. f_equal. cbn [value_wf] in Hwf. clear Hr.
    revert k Hk. induction IH as [|x l Hx _ IHl]; intros k Hk; inversion Hk; subst; [done|]. destruct Hwf. cbn. f_equal; [by apply Hx|by apply IHl].
  - inversion Hr as [| |o' p q Hp Hq]; subst; [done|]. rewrite !sorted_object. f_equal. pose proof Hwf as [Hnd _].
    transitivity (sort_keys (sort_values p)).
    { apply sort_keys_perm; [by rewrite sort_values_keys|]. unfold sort_values. by rewrite Hp. }
    f_equal. apply value_wf_entries in Hwf. rewrite Hp in IH, Hwf. clear -IH Hq Hwf. revert q Hq.
    induction p as [|[k x] p IHp]; intros q Hq; inversion Hq as [|e f p' q' [Hk Hx] Hq']; subst; [done|]. destruct f as [k' y]. cbn in *. subst.
    apply Forall_cons in IH as [Hx0 IH]. apply Forall_cons in Hwf as [Hwx Hwf]. f_equal; [f_equal; by apply Hx0|by apply IHp].
Qed.

Lemma normalized_ignores_key_order_witness :
  sorted (VObject [("type", VString "object"); ("title", VString "t")]) = sorted (VObject [("title", VString "t"); ("type", VString "object")]).
Proof.
  apply normalized_ignores_key_order; [split; [by apply (bool_decide_unpack _); vm_compute|done]|].
  apply (Robject _ [("title", VString "t"); ("type", VString "object")]); [apply perm_swap|]. repeat constructor.
Defined.
