(* ===== verification/Dump.v ===== *)
(** Dumps of a registry (backup.rs): the records of a dump, reading them from
    newline-delimited JSON and writing them back. *)
From S2P Require Import Prelude SortedVec RustStr Errors Json Model Context Snapshot Keys Plan Store Durable Transaction MemDb.

Open Scope string_scope.
Open Scope nat_scope.
Open Scope list_scope.

(** * JSON text (serde_json) *)

Class JsonText := {
  value_to_string : Value → string;
  value_from_str : string → result string Value;
}.

(** Keys are unique, numbers are in their own range and none is a float: the
    parser of floats is allowed to be off by the last bit. *)
Fixpoint exact_value (v : Value) : Prop :=
  match v with
  | VNumber (PosInt n) => is_u64 n
  | VNumber (NegInt n) => (- 2 ^ 63 ≤ n < 0)%Z
  | VNumber (Float _) => False
  | VArray l => foldr (λ v P, exact_value v ∧ P) True l
  | VObject m => NoDup m.*1 ∧ foldr (λ e P, exact_value e.2 ∧ P) True m
  | _ => True
  end.

Definition LF : ascii := byte 10.
Definition CR : ascii := byte 13.

Class JsonTextLaws `{!JsonText} := {
  (** Such a value is read back as it was written. *)
  from_to_string v : exact_value v → value_from_str (value_to_string v) = Ok v;
  (** The compact form is one line, and no white space is around it. *)
  to_string_line v : lacks LF (value_to_string v);
  to_string_cr v : lacks CR (value_to_string v);
  to_string_trim v : trim (value_to_string v) = value_to_string v;
  to_string_nonempty v : value_to_string v ≠ "";
}.

(** * Records *)

Definition FORMAT : Z := 1.

Record Dump := mkDump {
  header : option Value;
  (** Subject to its versions, oldest first. *)
  subjects : gmap string (list Value);
  subject_order : list string;
  (** [None] is the registry as a whole. *)
  configs : list (option string * Value);
  modes : list (option string * string);
  exporters : list Value;
}.
Definition empty_dump : Dump := mkDump None ∅ [] [] [] [].

Definition version_count (d : Dump) : nat := map_fold (λ _ rows n, length rows + n) 0 (subjects d).

(** ** Fields of records *)

Definition subject_of (v : Value) : option string := get "subject" v ≫= as_str.
Definition type_of_record (v : Value) : string := default "" (get "type" v ≫= as_str).
(** [get("version").and_then(as_u64).unwrap_or(0)]. *)
Definition row_version (row : Value) : Z := default 0%Z (get "version" row ≫= as_u64).
Definition row_deleted (row : Value) : bool := default false (get "deleted" row ≫= as_bool).
Definition opt_string (s : option string) : Value := match s with Some s => VString s | None => VNull end.

(** ** Reading *)

(** [str::lines]. *)
Definition strip_cr (l : string) : string := default l (strip_suffix (str1 CR) l).
Definition lines (text : string) : list string :=
  let pieces := split_char LF text in
  strip_cr <$> (if decide (last pieces = Some "") then removelast pieces else pieces).

Definition add_config (d : Dump) (e : option string * Value) : Dump :=
  mkDump (header d) (subjects d) (subject_order d) (configs d ++ [e]) (modes d) (exporters d).
Definition add_mode (d : Dump) (e : option string * string) : Dump :=
  mkDump (header d) (subjects d) (subject_order d) (configs d) (modes d ++ [e]) (exporters d).
Definition add_row (d : Dump) (s : string) (row : Value) : Dump :=
  mkDump (header d) (<[s := default [] (subjects d !! s) ++ [row]]> (subjects d))
    (match subjects d !! s with Some _ => subject_order d | None => subject_order d ++ [s] end) (configs d) (modes d) (exporters d).
Definition add_exporter (d : Dump) (e : Value) : Dump :=
  mkDump (header d) (subjects d) (subject_order d) (configs d) (modes d) (exporters d ++ [e]).

(** An exporter without [info] is one record with everything in it. *)
Definition exporter_info (v : Value) : Value :=
  match get "info" v with
  | Some info => info
  | None => match v with VObject m => VObject (map_swap_remove "type" m) | _ => v end
  end.
Definition exporter_value (info : Value) (state : string) (offset ts : Z) (trace : string) : Value :=
  VObject [("info", info); ("state", VString state); ("offset", VNumber (PosInt offset));
           ("ts", VNumber (if bool_decide (0 ≤ ts)%Z then PosInt ts else NegInt ts)); ("trace", VString trace)].
Definition exporter_record (v : Value) : Value :=
  exporter_value (exporter_info v) (default "RUNNING" (get "state" v ≫= as_str)) (default 0%Z (get "offset" v ≫= as_u64))
    (default 0%Z (get "ts" v ≫= as_i64)) (default "" (get "trace" v ≫= as_str)).

Definition read_record (d : Dump) (v : Value) : Dump :=
  let ty := type_of_record v in
  if decide (ty = "registry") then mkDump (Some v) (subjects d) (subject_order d) (configs d) (modes d) (exporters d)
  else if decide (ty = "config") then add_config d (subject_of v, default (VObject []) (get "config" v))
  else if decide (ty = "mode") then match get "mode" v ≫= as_str with Some m => add_mode d (subject_of v, m) | None => d end
  else if decide (ty = "schema") then match subject_of v with Some s => add_row d s v | None => d end
  else if decide (ty = "exporter") then add_exporter d (exporter_record v)
  else d.

(** A stable sort. *)
Fixpoint insert_by {A} (key : A → Z) (x : A) (l : list A) : list A :=
  match l with
  | [] => [x]
  | y :: l => if bool_decide (key x ≤ key y)%Z then x :: y :: l else y :: insert_by key x l
  end.
Definition sort_by_key {A} (key : A → Z) (l : list A) : list A := foldr (insert_by key) [] l.

Section text.
Context `{!JsonText}.

Fixpoint read_lines (n : nat) (ls : list string) (d : Dump) : result string Dump :=
  match ls with
  | [] => Ok d
  | l :: ls =>
    let l := trim l in
    if decide (l = "") then read_lines (S n) ls d else
    match value_from_str l with
    | Err e => Err ("line " +:+ pretty (S n) +:+ ": " +:+ e)
    | Ok v => read_lines (S n) ls (read_record d v)
    end
  end.
Definition parse (text : string) : result string Dump :=
  d ← read_lines 0 (lines text) empty_dump;
  Ok (mkDump (header d) (sort_by_key row_version <$> subjects d) (subject_order d) (configs d) (modes d) (exporters d)).

(** ** Writing *)

Definition config_record (e : option string * Value) : Value :=
  VObject [("type", VString "config"); ("subject", opt_string e.1); ("config", e.2)].
Definition mode_record (e : option string * string) : Value :=
  VObject [("type", VString "mode"); ("subject", opt_string e.1); ("mode", VString e.2)].
(** [record["type"] = ..]: an object gets the key, null becomes an object, and
    anything else panics. *)
Definition index_set (k : string) (x v : Value) : option Value :=
  match v with VObject m => Some (VObject (map_insert k x m)) | VNull => Some (VObject [(k, x)]) | _ => None end.
(** The records of a dump, in the order they are written. *)
Definition records (d : Dump) : option (list Value) :=
  es ← mapM (index_set "type" (VString "exporter")) (exporters d);
  Some (option_list (header d) ++ (config_record <$> configs d) ++ (mode_record <$> modes d) ++
        (subject_order d ≫= λ s, default [] (subjects d !! s)) ++ es).
Definition to_ndjson (d : Dump) : option string :=
  rs ← records d; Some (foldr (λ v out, value_to_string v +:+ String LF out) "" rs).
End text.

(** * Writing and reading back *)

(** A dump as [dump_local], [read] and [parse] make them: records carry their
    type and their subject, versions are in order, exporters have all fields. *)
Definition wf_row (s : string) (row : Value) : Prop := exact_value row ∧ type_of_record row = "schema" ∧ subject_of row = Some s.
Definition wf_exporter (e : Value) : Prop :=
  ∃ info state offset ts trace, e = exporter_value info state offset ts trace ∧ exact_value info ∧ is_u64 offset ∧ (- 2 ^ 63 ≤ ts < 2 ^ 63)%Z.
Record wf_dump (d : Dump) : Prop := {
  wf_header h : header d = Some h → exact_value h ∧ type_of_record h = "registry";
  wf_configs e : e ∈ configs d → exact_value e.2;
  wf_order : NoDup (subject_order d);
  wf_subjects s : s ∈ subject_order d ↔ is_Some (subjects d !! s);
  wf_rows s rows : subjects d !! s = Some rows → rows ≠ [] ∧ Forall (wf_row s) rows ∧ StronglySorted (λ a b, row_version a ≤ row_version b)%Z rows;
  wf_exporters e : e ∈ exporters d → wf_exporter e;
}.

Lemma sort_by_key_sorted {A} (key : A → Z) l : StronglySorted (λ a b, key a ≤ key b)%Z l → sort_by_key key l = l.
Proof.
  induction 1 as [|x l Hs IH Hx]; [done|]. change (insert_by key x (sort_by_key key l) = x :: l). rewrite IH. destruct l as [|y l]; [done|]. cbn.
  apply Forall_cons in Hx as [Hx _]. by rewrite bool_decide_eq_true_2.
Qed.

Section roundtrip.
Context {text : JsonText} {laws : JsonTextLaws}.

Lemma lines_of vs : lines (foldr (λ v out, value_to_string v +:+ String LF out) "" vs) = value_to_string <$> vs.
Proof using laws.
  assert (split_char LF (foldr (λ v out, value_to_string v +:+ String LF out) "" vs) = (value_to_string <$> vs) ++ [""]) as E.
  { induction vs as [|v vs IH]; [done|]. cbn [foldr]. rewrite split_char_app by apply to_string_line. by rewrite IH. }
  unfold lines. rewrite E, last_snoc, decide_True, removelast_last by done. rewrite <-list_fmap_compose. apply list_fmap_ext.
  intros i v _. change (strip_cr (value_to_string v) = value_to_string v). unfold strip_cr. by rewrite strip_suffix_lacks by apply to_string_cr.
Qed.

Lemma read_lines_of vs : Forall exact_value vs → ∀ n d, read_lines n (value_to_string <$> vs) d = Ok (foldl read_record d vs).
Proof using laws.
  induction 1 as [|v vs Hv Hvs IH]; intros n d; [done|]. cbn. rewrite to_string_trim, decide_False by apply to_string_nonempty.
  by rewrite from_to_string.
Qed.

(** ** What each group of records adds *)

Lemma read_config d e : read_record d (config_record e) = add_config d e.
Proof. destruct e as [[s|] c]; done. Qed.
Lemma read_mode d e : read_record d (mode_record e) = add_mode d e.
Proof. destruct e as [[s|] m]; done. Qed.
Lemma read_row d s row : wf_row s row → read_record d row = add_row d s row.
Proof. intros (_ & Ht & Hs). unfold read_record. by rewrite Ht, Hs. Qed.
Lemma exporter_record_of info state offset ts trace : (- 2 ^ 63 ≤ ts < 2 ^ 63)%Z →
  exporter_record (VObject (map_insert "type" (VString "exporter")
    [("info", info); ("state", VString state); ("offset", VNumber (PosInt offset));
     ("ts", VNumber (if bool_decide (0 ≤ ts)%Z then PosInt ts else NegInt ts)); ("trace", VString trace)])) =
  exporter_value info state offset ts trace.
Proof.
  intros Hts. assert (as_i64 (VNumber (if bool_decide (0 ≤ ts)%Z then PosInt ts else NegInt ts)) = Some ts) as E.
  { case_bool_decide; unfold as_i64; [by rewrite bool_decide_eq_true_2 by lia|done]. }
  transitivity (exporter_value info state offset (default 0%Z (as_i64 (VNumber (if bool_decide (0 ≤ ts)%Z then PosInt ts else NegInt ts)))) trace);
    [reflexivity|by rewrite E].
Qed.
Lemma read_exporter d e r : wf_exporter e → index_set "type" (VString "exporter") e = Some r → read_record d r = add_exporter d e.
Proof.
  intros (info & state & offset & ts & trace & -> & _ & _ & Hts) [= <-]. rewrite <-(exporter_record_of info state offset ts trace Hts). done.
Qed.
Lemma exporter_record_exact e r : wf_exporter e → index_set "type" (VString "exporter") e = Some r → exact_value r.
Proof.
  intros (info & state & offset & ts & trace & -> & Hi & Ho & Hts) [= <-]. cbn -[bool_decide]. split_and!; try done.
  - apply (bool_decide_unpack _). vm_compute. exact I.
  - case_bool_decide; cbn; unfold is_u64, u64_max; lia.
Qed.

Lemma foldl_add {A} (f : A → Value) (g : Dump → A → Dump) l : (∀ d x, x ∈ l → read_record d (f x) = g d x) → ∀ d, foldl read_record d (f <$> l) = foldl g d l.
Proof.
  induction l as [|x l IH]; intros H d; [done|]. cbn. rewrite H by left. apply IH. intros d' y Hy. apply H. by right.
Qed.
Lemma foldl_configs l d : foldl add_config d l = mkDump (header d) (subjects d) (subject_order d) (configs d ++ l) (modes d) (exporters d).
Proof. revert d. induction l as [|x l IH]; intros [h s o c m e]; cbn; [by rewrite app_nil_r|]. rewrite IH. cbn. by rewrite <-app_assoc. Qed.
Lemma foldl_modes l d : foldl add_mode d l = mkDump (header d) (subjects d) (subject_order d) (configs d) (modes d ++ l) (exporters d).
Proof. revert d. induction l as [|x l IH]; intros [h s o c m e]; cbn; [by rewrite app_nil_r|]. rewrite IH. cbn. by rewrite <-app_assoc. Qed.
Lemma foldl_exporters l d : foldl add_exporter d l = mkDump (header d) (subjects d) (subject_order d) (configs d) (modes d) (exporters d ++ l).
Proof. revert d. induction l as [|x l IH]; intros [h s o c m e]; cbn; [by rewrite app_nil_r|]. rewrite IH. cbn. by rewrite <-app_assoc. Qed.

(** The rows of one subject that is new. *)
Lemma foldl_rows s rows d : Forall (wf_row s) rows → rows ≠ [] → subjects d !! s = None →
  foldl read_record d rows = mkDump (header d) (<[s := rows]> (subjects d)) (subject_order d ++ [s]) (configs d) (modes d) (exporters d).
Proof.
  intros Hrows Hne Hs. destruct rows as [|row rows]; [done|]. apply Forall_cons in Hrows as [Hrow Hrows]. cbn [foldl]. rewrite (read_row d s row Hrow).
  unfold add_row. rewrite Hs. cbn [default app].
  assert (∀ rows pre d', Forall (wf_row s) rows → subjects d' !! s = Some pre →
    foldl read_record d' rows = mkDump (header d') (<[s := pre ++ rows]> (subjects d')) (subject_order d') (configs d') (modes d') (exporters d')) as Hgen.
  { clear. induction rows as [|r rows IH]; intros pre d' Hr Hp; cbn [foldl].
    - rewrite app_nil_r, insert_id by done. by destruct d'.
    - apply Forall_cons in Hr as [Hr Hrs]. rewrite (read_row _ _ _ Hr). unfold add_row. rewrite Hp. cbn [default].
      rewrite (IH (pre ++ [r])); [|done|cbn; by rewrite lookup_insert_eq]. cbn. by rewrite insert_insert_eq, <-app_assoc. }
  rewrite (Hgen rows [row]); [|done|cbn; by rewrite lookup_insert_eq]. cbn. by rewrite insert_insert_eq.
Qed.
Lemma foldl_subjects (S : gmap string (list Value)) : (∀ s rows, S !! s = Some rows → rows ≠ [] ∧ Forall (wf_row s) rows) →
  ∀ order d, NoDup order → (∀ s, s ∈ order → is_Some (S !! s) ∧ subjects d !! s = None) →
  foldl read_record d (order ≫= λ s, default [] (S !! s)) =
    mkDump (header d) (foldl (λ m s, <[s := default [] (S !! s)]> m) (subjects d) order) (subject_order d ++ order) (configs d) (modes d) (exporters d).
Proof.
  intros HS order. induction order as [|s order IH]; intros d Hnd Hin; [destruct d; cbn; by rewrite app_nil_r|].
  apply NoDup_cons in Hnd as [Hs Hnd]. destruct (Hin s) as [[rows Hrows] Hfree]; [by left|]. destruct (HS s rows Hrows) as [Hne Hwf].
  cbn [mbind list_bind foldl]. rewrite foldl_app, Hrows. change (default [] (Some rows)) with rows. rewrite (foldl_rows s rows) by done. rewrite IH; [|done|].
  - cbn. by rewrite <-app_assoc.
  - intros t Ht. split; [apply Hin; by right|]. cbn. rewrite lookup_insert_ne by congruence. apply Hin. by right.
Qed.
Lemma foldl_insert_all (S : gmap string (list Value)) order (m : gmap string (list Value)) : ∀ s,
  foldl (λ m s, <[s := default [] (S !! s)]> m) m order !! s = if decide (s ∈ order) then Some (default [] (S !! s)) else m !! s.
Proof.
  revert m. induction order as [|t order IH]; intros m s; [by rewrite decide_False by apply not_elem_of_nil|]. cbn [foldl]. rewrite IH.
  destruct (decide (s ∈ order)) as [Hs|Hs]; [by rewrite decide_True by (by right)|].
  destruct (decide (s = t)) as [->|Hne]; [rewrite decide_True by (by left); by rewrite lookup_insert_eq|].
  rewrite decide_False by (by intros [?|?]%elem_of_cons). by rewrite lookup_insert_ne.
Qed.

Lemma records_of d : wf_dump d → ∃ es, mapM (index_set "type" (VString "exporter")) (exporters d) = Some es ∧
  Forall2 (λ e r, index_set "type" (VString "exporter") e = Some r) (exporters d) es.
Proof.
  intros Hd. destruct (mapM (index_set "type" (VString "exporter")) (exporters d)) as [es|] eqn:E; [exists es; split; [done|by apply mapM_Some in E]|].
  exfalso. apply mapM_None, Exists_exists in E as (e & He & E). destruct (wf_exporters d Hd e He) as (? & ? & ? & ? & ? & -> & _). done.
Qed.

(** A dump that is written is read back as it was: the header, the settings,
    the subjects in their order with their versions, and the exporters with
    their state and progress. *)
Theorem dump_roundtrip d : wf_dump d → ∃ out, to_ndjson d = Some out ∧ parse out = Ok d.
Proof using laws.
  intros Hd. destruct (records_of d Hd) as (es & Ees & Hes). unfold to_ndjson, records. rewrite Ees. cbn [mbind option_bind].
  eexists. split; [done|]. unfold parse. rewrite lines_of, read_lines_of.
  2: { rewrite !Forall_app. split_and!.
    - destruct (header d) as [h|] eqn:Eh; cbn; [|done]. apply Forall_singleton. by apply (wf_header d Hd).
    - apply Forall_fmap, Forall_forall. intros e He. pose proof (wf_configs d Hd e He). destruct e as [[s|] c]; cbn; (split; [|by split_and!]); apply (bool_decide_unpack _); vm_compute; exact I.
    - apply Forall_fmap, Forall_forall. intros e He. destruct e as [[s|] c]; cbn; (split; [|by split_and!]); apply (bool_decide_unpack _); vm_compute; exact I.
    - apply Forall_forall. intros r (s & Hr & Hs)%list_elem_of_bind. destruct (subjects d !! s) as [rows|] eqn:Er; [|by apply elem_of_nil in Hr].
      destruct (wf_rows d Hd s rows Er) as (_ & Hrows & _). by apply (proj1 (Forall_forall _ _) Hrows) in Hr as [? _].
    - apply Forall_forall. intros r (i & Hr)%list_elem_of_lookup. destruct (Forall2_lookup_r _ _ _ _ _ Hes Hr) as (e & He & Hi).
      eapply exporter_record_exact; [|exact Hi]. apply (wf_exporters d Hd). by eapply list_elem_of_lookup_2. }
  cbn [mbind result_bind]. rewrite !foldl_app. rewrite (foldl_add config_record add_config) by (intros; apply read_config).
  rewrite (foldl_add mode_record add_mode) by (intros; apply read_mode). rewrite foldl_configs, foldl_modes.
  assert (foldl read_record empty_dump (option_list (header d)) = mkDump (header d) ∅ [] [] [] []) as ->.
  { destruct (header d) as [h|] eqn:Eh; [|done]. cbn. unfold read_record. by destruct (wf_header d Hd h Eh) as [_ ->]. }
  cbn [header subjects subject_order configs modes exporters app].
  rewrite (foldl_subjects (subjects d)); [|intros s rows Hr; by destruct (wf_rows d Hd s rows Hr) as (? & ? & _)|apply (wf_order d Hd)|].
  2: { intros s Hs. split; [by apply (wf_subjects d Hd)|apply lookup_empty]. }
  cbn [header subjects subject_order configs modes exporters app].
  assert (∀ es l x, Forall2 (λ e r, index_set "type" (VString "exporter") e = Some r) l es → (∀ e, e ∈ l → wf_exporter e) →
    foldl read_record x es = foldl add_exporter x l) as Hex.
  { clear. intros es l x H. revert x. induction H as [|e r l es Hr H IH]; intros x Hl; [done|]. cbn.
    rewrite (read_exporter x e r) by (done || (apply Hl; by left)). apply IH. intros; apply Hl; by right. }
  rewrite (Hex _ _ _ Hes (wf_exporters d Hd)), foldl_exporters. cbn. f_equal. destruct d as [h S o c m e]. cbn in *. f_equal.
  apply map_eq. intros s. rewrite lookup_fmap, foldl_insert_all. destruct (decide (s ∈ o)) as [Hs|Hs].
  - destruct (proj1 (wf_subjects _ Hd s) Hs) as [rows Hr]. cbn in Hr. rewrite Hr. cbn. f_equal. apply sort_by_key_sorted. by destruct (wf_rows _ Hd s rows Hr) as (_ & _ & ?).
  - rewrite lookup_empty. cbn. symmetry. apply eq_None_not_Some. by rewrite <-(wf_subjects _ Hd s).
Qed.
End roundtrip.

(** * A concrete text *)

(** Values are trees, and trees are countable. *)
Fixpoint to_tree (v : Value) : gen_tree (bool + (nat * Z) + string) :=
  match v with
  | VNull => GenNode 0 []
  | VBool b => GenLeaf (inl (inl b))
  | VNumber (PosInt n) => GenLeaf (inl (inr (0, n)))
  | VNumber (NegInt n) => GenLeaf (inl (inr (1, n)))
  | VNumber (Float n) => GenLeaf (inl (inr (2, n)))
  | VString s => GenLeaf (inr s)
  | VArray l => GenNode 1 (to_tree <$> l)
  | VObject m => GenNode 2 ((λ e, match e with (k, v) => GenNode 3 [GenLeaf (inr k); to_tree v] end) <$> m)
  end.
Fixpoint of_tree (t : gen_tree (bool + (nat * Z) + string)) : Value :=
  match t with
  | GenLeaf (inl (inl b)) => VBool b
  | GenLeaf (inl (inr (0, n))) => VNumber (PosInt n)
  | GenLeaf (inl (inr (1, n))) => VNumber (NegInt n)
  | GenLeaf (inl (inr (_, n))) => VNumber (Float n)
  | GenLeaf (inr s) => VString s
  | GenNode 1 l => VArray (of_tree <$> l)
  | GenNode 2 l => VObject ((λ t, match t with GenNode _ [GenLeaf (inr k); v] => (k, of_tree v) | _ => ("", VNull) end) <$> l)
  | GenNode _ _ => VNull
  end.
Lemma of_to_tree v : of_tree (to_tree v) = v.
Proof.
  induction v as [v Hv|l IH|m IH] using value_nested_ind; [by destruct v as [| |[]| | |]|..]; cbn; f_equal; rewrite <-list_fmap_compose.
  - induction IH as [|v l Hv _ IH]; [done|]. cbn. by rewrite Hv, IH.
  - induction IH as [|[k v] m Hv _ IH]; [done|]. cbn in *. by rewrite Hv, IH.
Qed.

#[export] Instance demo_json : JsonText := {|
  value_to_string v := "{" +:+ bits (encode (to_tree v)) +:+ "}";
  value_from_str s :=
    match strip_prefix "{" s ≫= strip_suffix "}" with
    | Some s => of_tree <$> ok_or (decode (unbits s)) "expected value"
    | None => Err "expected value"
    end;
|}.

Lemma bits_digits p : str_forall (λ c, bool_decide (c ∈ ["0"%char; "1"%char])) (bits p) = true.
Proof. by induction p. Qed.
Lemma trim_braces s : trim ("{" +:+ s +:+ "}") = "{" +:+ s +:+ "}".
Proof.
  unfold trim. assert (trim_start ("{" +:+ s +:+ "}") = "{" +:+ s +:+ "}") as -> by done.
  unfold trim_end. rewrite <-str_app_assoc, rev_app.
  assert (∀ x n, trim_matches_fuel n (String.rev <$> white_space) (String.rev "}" +:+ x) = String.rev "}" +:+ x) as -> by (by intros x [|n]).
  by rewrite <-rev_app, rev_rev.
Qed.

#[export] Instance demo_json_laws : JsonTextLaws.
Proof.
  split.
  - intros v _. cbn [value_from_str value_to_string demo_json]. rewrite strip_prefix_app. cbn [mbind option_bind].
    assert (strip_suffix "}" (bits (encode (to_tree v)) +:+ "}") = Some (bits (encode (to_tree v)))) as -> by (by apply strip_suffix_Some).
    rewrite unbits_bits, decode_encode. cbn. by rewrite of_to_tree.
  - intros v. cbn. apply lacks_cons. split; [done|]. apply lacks_app. split; [|done]. eapply str_forall_lacks; [|apply bits_digits]. done.
  - intros v. cbn. apply lacks_cons. split; [done|]. apply lacks_app. split; [|done]. eapply str_forall_lacks; [|apply bits_digits]. done.
  - intros v. apply trim_braces.
  - done.
Qed.

Definition demo_row (s : string) (version id : Z) (deleted : bool) : Value :=
  VObject [("type", VString "schema"); ("subject", VString s); ("version", VNumber (PosInt version)); ("id", VNumber (PosInt id));
           ("schema", VString "text"); ("deleted", VBool deleted)].
Definition demo_dump : Dump :=
  mkDump (Some (VObject [("type", VString "registry"); ("format", VNumber (PosInt FORMAT))]))
    {["a" := [demo_row "a" 1 5 true; demo_row "a" 2 6 false]; "b" := [demo_row "b" 1 7 false]]} ["b"; "a"]
    [(None, VObject []); (Some "a", VObject [("normalize", VBool true)])] [(Some ":.eu:", "READONLY")]
    [exporter_value (VObject [("name", VString "dr")]) "PAUSED" 27 (-1) "stopped"].

Lemma demo_row_wf s version id deleted : is_u64 version → is_u64 id → wf_row s (demo_row s version id deleted).
Proof. intros. split_and!; [|done..]. cbn. split_and!; try done. apply (bool_decide_unpack _). vm_compute. exact I. Qed.
Lemma demo_dump_wf : wf_dump demo_dump.
Proof.
  split.
  - intros h [= <-]. split; [|done]. cbn. split_and!; try done. apply (bool_decide_unpack _). vm_compute. exact I.
  - intros e [->|[->|[]%elem_of_nil]%elem_of_cons]%elem_of_cons; cbn; split_and!; try done; apply (bool_decide_unpack _); vm_compute; exact I.
  - apply (bool_decide_unpack _). vm_compute. exact I.
  - intros s. cbn. rewrite lookup_insert_is_Some, lookup_singleton_is_Some. set_solver.
  - intros s rows. cbn. intros [[<- <-]|[Hs [<- <-]%lookup_singleton_Some]]%lookup_insert_Some; (split; [done|]); split.
    1, 3: repeat (apply Forall_cons; split); try apply Forall_nil; try done; apply demo_row_wf; unfold is_u64, u64_max; lia.
    all: repeat first [apply SSorted_nil|apply SSorted_cons|apply Forall_nil|apply Forall_cons; split|exact I|vm_compute; discriminate].
  - intros e ->%list_elem_of_singleton. eexists _, _, _, _, _. split_and!; try done; cbn; try lia.
    split; [|done]. apply (bool_decide_unpack _). vm_compute. exact I.
Qed.
Lemma dump_roundtrip_witness : ∃ out, to_ndjson demo_dump = Some out ∧ parse out = Ok demo_dump.
Proof. exact (dump_roundtrip demo_dump demo_dump_wf). Defined.
