(* ===== verification/DerivedJson.v ===== *)
(** The JSON of the records that a dump holds, as the derived conversions
    ([#[derive(Serialize, Deserialize)]] with camel-case names) give it. *)
From S2P Require Import Prelude SortedVec RustStr Errors Json Model Context Snapshot Keys JavaOrder SchemaLayer Views.

Open Scope string_scope.
Open Scope list_scope.

Class ToValue (A : Type) := to_value : A → Value.
Class FromValue (A : Type) := from_value : Value → result string A.

(** * Writing *)

(** A field that is skipped when there is nothing. *)
Definition entry (k : string) (v : option Value) : Map := match v with Some v => [(k, v)] | None => [] end.
(** Integers, unsigned when they can be. *)
Definition int (z : Z) : Value := VNumber (if bool_decide (0 ≤ z)%Z then PosInt z else NegInt z).

#[export] Instance reference_to_value : ToValue SchemaReference := λ r,
  VObject [("name", VString (ref_name r)); ("subject", VString (ref_subject r)); ("version", int (ref_version r))].

#[export] Instance view_to_value : ToValue SchemaView := λ v, VObject (
  [("subject", VString (sv_subject v)); ("version", int (sv_version v)); ("id", int (sv_id v))] ++
  entry "schemaType" (VString <$> sv_schema_type v) ++
  entry "references" (if bool_decide (sv_references v = []) then None else Some (VArray (to_value <$> sv_references v))) ++
  entry "metadata" (sv_metadata v) ++ entry "ruleSet" (sv_rule_set v) ++
  [("schema", VString (sv_schema v))] ++
  entry "aliases" ((λ l : list string, VArray (VString <$> l)) <$> sv_aliases v)).

#[export] Instance config_to_value : ToValue ConfigRecord.t := λ c, VObject (
  entry "compatibilityLevel" ((λ l, VString (Level.as_str l)) <$> ConfigRecord.compatibility_level c) ++
  entry "alias" (VString <$> ConfigRecord.alias c) ++
  entry "normalize" (VBool <$> ConfigRecord.normalize c) ++
  entry "validateFields" (VBool <$> ConfigRecord.validate_fields c) ++
  entry "validateRules" (VBool <$> ConfigRecord.validate_rules c) ++
  entry "compatibilityGroup" (VString <$> ConfigRecord.compatibility_group c) ++
  entry "defaultMetadata" (ConfigRecord.default_metadata c) ++
  entry "overrideMetadata" (ConfigRecord.override_metadata c) ++
  entry "defaultRuleSet" (ConfigRecord.default_rule_set c) ++
  entry "overrideRuleSet" (ConfigRecord.override_rule_set c)).

(** * Reading *)

(** An optional field: absent and null are both nothing. *)
Definition read_opt {A} (f : Value → result string A) (v : option Value) : result string (option A) :=
  match v with
  | None | Some VNull => Ok None
  | Some v => a ← f v; Ok (Some a)
  end.
Definition read_string (v : Value) : result string string := match v with VString s => Ok s | _ => Err "invalid type" end.
Definition read_bool (v : Value) : result string bool := match v with VBool b => Ok b | _ => Err "invalid type" end.
(** A unit variant is its name, or an object from its name to null. *)
Definition level_named (s : string) : result string CompatibilityLevel :=
  match List.find (λ l, bool_decide (Level.as_str l = s))
    [LNone; Backward; BackwardTransitive; Forward; ForwardTransitive; Full; FullTransitive] with
  | Some l => Ok l
  | None => Err "unknown variant"
  end.
Definition read_level (v : Value) : result string CompatibilityLevel :=
  match v with
  | VString s => level_named s
  | VObject [(s, VNull)] => level_named s
  | _ => Err "invalid value"
  end.

(** The fields, taken by name from an object or by position from an array. *)
Definition read_config (field : nat → string → option Value) : result string ConfigRecord.t :=
  level ← read_opt read_level (field 0 "compatibilityLevel");
  alias ← read_opt read_string (field 1 "alias");
  normalize ← read_opt read_bool (field 2 "normalize");
  validate_fields ← read_opt read_bool (field 3 "validateFields");
  validate_rules ← read_opt read_bool (field 4 "validateRules");
  group ← read_opt read_string (field 5 "compatibilityGroup");
  default_metadata ← read_opt Ok (field 6 "defaultMetadata");
  override_metadata ← read_opt Ok (field 7 "overrideMetadata");
  default_rule_set ← read_opt Ok (field 8 "defaultRuleSet");
  override_rule_set ← read_opt Ok (field 9 "overrideRuleSet");
  Ok (ConfigRecord.mk level alias normalize validate_fields validate_rules group default_metadata override_metadata default_rule_set override_rule_set).
#[export] Instance config_from_value : FromValue ConfigRecord.t := λ v,
  match v with
  | VObject m => read_config (λ _ k, map_get k m)
  | VArray l => if bool_decide (length l = 10) then read_config (λ i _, l !! i) else Err "invalid length"
  | _ => Err "invalid type"
  end.

(** * Reading back *)

Lemma map_get_entry k k' v : map_get k (entry k' v) = if decide (k = k') then v else None.
Proof. destruct v as [v|]; cbn; by destruct (decide _). Qed.

Lemma read_opt_some {A} (f : Value → result string A) (g : A → Value) (o : option A) :
  (∀ a, f (g a) = Ok a) → (∀ a, g a ≠ VNull) → read_opt f (g <$> o) = Ok o.
Proof. intros Hf Hg. destruct o as [a|]; [|done]. cbn. specialize (Hf a). specialize (Hg a). destruct (g a); try done; by rewrite Hf. Qed.
Lemma read_opt_value (o : option Value) : o ≠ Some VNull → read_opt Ok o = Ok o.
Proof. by destruct o as [[]|]. Qed.
Lemma level_named_str l : level_named (Level.as_str l) = Ok l.
Proof. by destruct l. Qed.

(** No document of the configuration is the value null. *)
Definition config_proper (c : ConfigRecord.t) : Prop :=
  ConfigRecord.default_metadata c ≠ Some VNull ∧ ConfigRecord.override_metadata c ≠ Some VNull ∧
  ConfigRecord.default_rule_set c ≠ Some VNull ∧ ConfigRecord.override_rule_set c ≠ Some VNull.

(** A field is found, past the fields before it. *)
Lemma get_field_miss k k' v m : k ≠ k' → map_get k (entry k' v ++ m) = map_get k m.
Proof. intros. by rewrite map_get_app, map_get_entry, decide_False. Qed.
Lemma get_field_hit k v m : map_get k m = None → map_get k (entry k v ++ m) = v.
Proof. intros H. rewrite map_get_app, map_get_entry, decide_True, H by done. by destruct v. Qed.
Ltac get_field := cbv zeta; repeat (rewrite get_field_miss by discriminate); first [apply get_field_hit|idtac]; repeat (rewrite get_field_miss by discriminate);
  rewrite ?map_get_entry; repeat first [rewrite decide_True by done|rewrite decide_False by discriminate]; done.

(** The configuration written into a dump is the one read from it. *)
Lemma config_roundtrip c : config_proper c → from_value (to_value c) = Ok c.
Proof.
  intros (H1 & H2 & H3 & H4). unfold from_value, config_from_value, to_value, config_to_value.
  match goal with |- read_config (λ _ k, map_get k ?m) = _ => set (M := m) end.
  assert (map_get "compatibilityLevel" M = (λ l, VString (Level.as_str l)) <$> ConfigRecord.compatibility_level c) as E0 by (unfold M; get_field).
  assert (map_get "alias" M = VString <$> ConfigRecord.alias c) as E1 by (unfold M; get_field).
  assert (map_get "normalize" M = VBool <$> ConfigRecord.normalize c) as E2 by (unfold M; get_field).
  assert (map_get "validateFields" M = VBool <$> ConfigRecord.validate_fields c) as E3 by (unfold M; get_field).
  assert (map_get "validateRules" M = VBool <$> ConfigRecord.validate_rules c) as E4 by (unfold M; get_field).
  assert (map_get "compatibilityGroup" M = VString <$> ConfigRecord.compatibility_group c) as E5 by (unfold M; get_field).
  assert (map_get "defaultMetadata" M = ConfigRecord.default_metadata c) as E6 by (unfold M; get_field).
  assert (map_get "overrideMetadata" M = ConfigRecord.override_metadata c) as E7 by (unfold M; get_field).
  assert (map_get "defaultRuleSet" M = ConfigRecord.default_rule_set c) as E8 by (unfold M; get_field).
  assert (map_get "overrideRuleSet" M = ConfigRecord.override_rule_set c) as E9 by (unfold M; get_field).
  clearbody M. unfold read_config. rewrite E0, (read_opt_some read_level) by (try done; apply level_named_str). cbn [mbind result_bind].
  rewrite E1, (read_opt_some read_string) by (by intros). cbn [mbind result_bind].
  do 3 (rewrite ?E2, ?E3, ?E4, (read_opt_some read_bool) by (by intros []); cbn [mbind result_bind]).
  rewrite E5, (read_opt_some read_string) by (by intros). cbn [mbind result_bind].
  rewrite E6, (read_opt_value _ H1). cbn [mbind result_bind]. rewrite E7, (read_opt_value _ H2). cbn [mbind result_bind].
  rewrite E8, (read_opt_value _ H3). cbn [mbind result_bind]. rewrite E9, (read_opt_value _ H4). cbn [mbind result_bind]. by destruct c.
Qed.
