(* ===== verification/Restore.v ===== *)
(** Backup and restore of one container (backup.rs): the dump that
    [/admin/api/backup] serves, and its replay by [/admin/api/restore]. *)
From S2P Require Import Prelude SortedVec RustStr Errors Json Model Context Snapshot Keys Plan Store Durable Transaction MemDb SchemaLayer JavaOrder Views Registry Queries Mutations ExporterVerbs Engine Dump DerivedJson.

Open Scope string_scope.
Open Scope nat_scope.
Open Scope list_scope.

(** * What a restore asks of a registry *)

(** The verbs, each on the registry's state. *)
Class RegistryVerbs (R : Type) := {
  set_config : option string → ConfigRecord.t → R → R * Outcome ();
  set_mode : option string → Mode → bool → R → R * Outcome ();
  register : string → RegisterSchemaRequest → bool → R → R * Outcome RegisterResponse;
  delete_version : string → VersionSpec → bool → R → R * Outcome Z;
  delete_config : option string → R → R * Outcome ConfigRecord.t;
  delete_mode : string → R → R * Outcome Mode;
  restore_exporter : ExporterRecord → R → R * Outcome bool;
}.

(** ** The engine as such a registry *)

Section engine.
Context `{!SchemaFormats, !RocksDB DB}.
Context `{!Serde SchemaRecord, !Serde VersionRecord, !Serde ConfigRecord.t, !Serde Mode,
          !Serde LogEvent, !Serde ExporterRecord}.

(** What each attempt meets on the way. *)
Variable ambient : RegistryState DB → Ambient.

(** [engine::run(self, verb?)]. *)
Definition run `{!Mutation M} (m : ApiResult M) (reg : RegistryState DB) : RegistryState DB * Outcome Output :=
  match m with
  | Err e => (reg, Err (Api e))
  | Ok m => run_inner reg m (ambient reg)
  end.

Definition engine_verbs : RegistryVerbs (RegistryState DB) := {|
  set_config s c := run (update_new s c);
  set_mode s m force := run (set_mode_new s m force);
  register s req normalize := run (register_new s req normalize);
  delete_version s spec permanent := run (delete_version_new s spec permanent);
  delete_config s := run (delete_config_new s);
  delete_mode s := run (delete_mode_new s);
  restore_exporter rec := run (Ok (mkRestore rec));
|}.
End engine.

(** * Replaying a dump *)

Record Restored := mkRestored {
  n_subjects : nat; n_versions : nat; n_soft_deleted : nat; n_configs : nat; n_modes : nat; n_exporters : nat }.
Definition nothing_restored : Restored := mkRestored 0 0 0 0 0 0.
Definition count_version (o : Restored) : Restored :=
  mkRestored (n_subjects o) (S (n_versions o)) (n_soft_deleted o) (n_configs o) (n_modes o) (n_exporters o).
Definition count_subject (o : Restored) : Restored :=
  mkRestored (S (n_subjects o)) (n_versions o) (n_soft_deleted o) (n_configs o) (n_modes o) (n_exporters o).
Definition count_delete (o : Restored) : Restored :=
  mkRestored (n_subjects o) (n_versions o) (S (n_soft_deleted o)) (n_configs o) (n_modes o) (n_exporters o).
Definition count_config (o : Restored) : Restored :=
  mkRestored (n_subjects o) (n_versions o) (n_soft_deleted o) (S (n_configs o)) (n_modes o) (n_exporters o).
Definition count_mode (o : Restored) : Restored :=
  mkRestored (n_subjects o) (n_versions o) (n_soft_deleted o) (n_configs o) (S (n_modes o)) (n_exporters o).
Definition count_exporter (o : Restored) : Restored :=
  mkRestored (n_subjects o) (n_versions o) (n_soft_deleted o) (n_configs o) (n_modes o) (S (n_exporters o)).

(** [`:.eu:`] and the like: a context, not a subject. *)
Definition is_scope (s : string) : bool := match Qualified.parse s with Ok q => Qualified.is_context_only q | Err _ => false end.

(** A reference written unqualified means "in the referrer's context". *)
Definition qualify_like (referrer referenced : string) : string :=
  if starts_with ":." referenced then referenced else
  match Qualified.parse referrer, Qualified.parse referenced with
  | Ok parent, Ok target => Qualified.qualified (mkQ (context parent) (subject target))
  | _, _ => referenced
  end.

(** The row a reference of a row means, when the dump has it. *)
Definition referenced_row (d : Dump) (subj : string) (r : Value) : option (string * Value) :=
  rs ← subject_of r; rv ← get "version" r ≫= as_i64;
  let target := qualify_like subj rs in
  rows ← subjects d !! target;
  row ← snd <$> list_find (λ x, get "version" x ≫= as_u64 = Some (Z.max rv 1)) rows;
  Some (target, row).
Definition row_references (row : Value) : list Value := default [] (get "references" row ≫= as_array).

Definition not_null (v : option Value) : option Value := v ← v; if is_null v then None else Some v.
Definition row_request (row : Value) (version : Z) : RegisterSchemaRequest :=
  mkRegisterRequest (get "schema" row ≫= as_str) (get "schemaType" row ≫= as_str)
    ((λ rs : list Value, RefIn.from_value <$> rs) <$> (get "references" row ≫= as_array))
    (not_null (get "metadata" row)) (not_null (get "ruleSet" row)) (Some (as_i32 version)) (as_i32 <$> (get "id" row ≫= as_i64)).

(** [ConfigRecord { normalize: Some(false), ..Default::default() }]. *)
Definition as_written : ConfigRecord.t := ConfigRecord.mk None None (Some false) None None None None None None None.

Section restore.
Context {R : Type} {verbs : RegistryVerbs R} {config_from : FromValue ConfigRecord.t} {exporter_from : FromValue ExporterRecord}.

(** A step of the replay: the registry changes, and the first error ends it.
    [None] when the fuel is used up. *)
Definition RM (A : Type) : Type := R → option (R * Outcome A).
Definition rret {A} (a : A) : RM A := λ reg, Some (reg, Ok a).
Definition rfail {A} (e : Fault) : RM A := λ reg, Some (reg, Err e).
Definition rbind {A B} (m : RM A) (f : A → RM B) : RM B := λ reg,
  match m reg with
  | Some (reg, Ok a) => f a reg
  | Some (reg, Err e) => Some (reg, Err e)
  | None => None
  end.
Definition verb {A} (v : R → R * Outcome A) : RM A := λ reg, Some (v reg).
Definition lift {A} (o : Outcome A) : RM A := λ reg, Some (reg, o).
Fixpoint rfold {A S} (f : A → S → RM S) (l : list A) (s : S) : RM S :=
  match l with [] => rret s | x :: l => rbind (f x s) (rfold f l) end.

(** What was written already, and the counts. *)
Definition Progress : Type := gset (string * Z) * Restored.

(** The subject takes imported ids and versions, and texts as they are. *)
Definition open_import (s : string) : RM () :=
  rbind (verb (set_mode (Some s) Import true)) (λ _, verb (set_config (Some s) as_written)).

(** [write_version_local]. *)
Fixpoint write_version (fuel : nat) (d : Dump) (s : string) (row : Value) (p : Progress) : RM Progress :=
  match fuel with
  | O => λ _, None
  | S fuel =>
    let version := as_u32 (row_version row) in
    if decide ((s, version) ∈ p.1) then rret p else
    rbind (rfold (λ r p, match referenced_row d s r with
                         | Some (target, row) => rbind (open_import target) (λ _, write_version fuel d target row p)
                         | None => rret p
                         end) (row_references row) ({[(s, version)]} ∪ p.1, p.2)) (λ p,
    rbind (verb (register s (row_request row version) false)) (λ _, rret (p.1, count_version p.2)))
  end.

(** Already soft-deleted, or gone: a replay is idempotent. *)
Definition delete_row (s : string) (row : Value) (p : Progress) : RM Progress := λ reg,
  match delete_version s (Exact (as_u32 (row_version row))) false reg with
  | (reg, Ok _) => Some (reg, Ok (p.1, count_delete p.2))
  | (reg, Err (Api e)) => Some (reg, if bool_decide (code e ∈ [40402%Z; 40406%Z; 40401%Z]) then Ok p else Err (Api e))
  | (reg, Err e) => Some (reg, Err e)
  end.

Definition restore_subject (fuel : nat) (d : Dump) (s : string) (p : Progress) : RM Progress :=
  rbind (lift (or_panic (subjects d !! s))) (λ rows,
  rbind (open_import s) (λ _,
  rbind (rfold (write_version fuel d s) rows p) (λ p,
  rbind (rfold (delete_row s) (filter (λ row, row_deleted row = true) rows) p) (λ p,
  rret (p.1, count_subject p.2))))).

Definition put_config (s : option string) (config : Value) : RM () :=
  let rec := match from_value config with Ok rec => rec | Err _ => ConfigRecord.empty end in
  rbind (lift match ConfigRecord.compatibility_level rec, get "compatibilityLevel" config ≫= as_str with
              | None, Some l => level ← api (Level.parse l);
                  Ok (ConfigRecord.mk (Some level) (ConfigRecord.alias rec) (ConfigRecord.normalize rec) (ConfigRecord.validate_fields rec)
                        (ConfigRecord.validate_rules rec) (ConfigRecord.compatibility_group rec) (ConfigRecord.default_metadata rec)
                        (ConfigRecord.override_metadata rec) (ConfigRecord.default_rule_set rec) (ConfigRecord.override_rule_set rec))
              | _, _ => Ok rec
              end) (λ rec, verb (set_config s rec)).

Definition put_configs (l : list (option string * Value)) (o : Restored) : RM Restored :=
  rfold (λ e o, rbind (put_config e.1 e.2) (λ _, rret (count_config o))) l o.
(** [let _ = ..]: an error is passed over, a panic is not. *)
Definition ignoring {A} (v : R → R * Outcome A) : RM () := λ reg,
  match v reg with (reg, Err Panic) => Some (reg, Err Panic) | (reg, _) => Some (reg, Ok ()) end.
Definition has_key {A} (s : string) (l : list (option string * A)) : bool := existsb (λ e, bool_decide (e.1 = Some s)) l.

Definition put_modes (l : list (option string * string)) (o : Restored) : RM Restored :=
  rfold (λ e o, rbind (lift (api (ModeM.parse e.2))) (λ m, rbind (verb (set_mode e.1 m true)) (λ _, rret (count_mode o)))) l o.
Definition put_exporters (l : list Value) (o : Restored) : RM Restored :=
  rfold (λ v o, rbind (lift (api (map_err (λ e, ApiErr.unprocessable ("exporter: " +:+ e)) (from_value v)))) (λ rec,
                rbind (verb (restore_exporter rec)) (λ fresh : bool, rret (if fresh then count_exporter o else o)))) l o.

Definition of_scope (e : option string * Value) : bool := match e.1 with None => true | Some s => is_scope s end.

Definition restore_local (fuel : nat) (d : Dump) (dry_run : bool) : RM Restored :=
  if dry_run then
    rret (mkRestored (length (subject_order d)) (version_count d) 0 (length (configs d)) (length (modes d)) (length (exporters d)))
  else
    rbind (put_configs (filter (λ e, of_scope e = true) (configs d)) nothing_restored) (λ o,
    rbind (rfold (restore_subject fuel d) (subject_order d) (∅, o)) (λ p,
    rbind (rfold (λ s o, if has_key s (configs d) then rret o else rbind (ignoring (delete_config (Some s))) (λ _, rret o)) (subject_order d) p.2) (λ o,
    rbind (put_configs (filter (λ e, of_scope e = false) (configs d)) o) (λ o,
    rbind (put_modes (modes d) o) (λ o,
    rbind (rfold (λ s o, if has_key s (modes d) then rret o else rbind (ignoring (delete_mode s)) (λ _, rret o)) (subject_order d) o) (λ o,
    put_exporters (exporters d) o)))))).
End restore.

(** * Making a dump *)

Section dump_local.
Context `{!SchemaFormats}.
Context {config_to : ToValue ConfigRecord.t} {view_to : ToValue SchemaView} {exporter_to : ToValue ExporterRecord}.
(** The registry as the snapshot shows it, and the exporters of its store. *)
Variable r : Reader.
Variable stored_exporters : Outcome (list ExporterRecord).
Variable get_exporter : string → Outcome (option ExporterRecord).

(** An error with one of these codes means that nothing is there. *)
Definition tolerate {A} (codes : list Z) (m : Outcome A) : Outcome (option A) :=
  match m with
  | Ok a => Ok (Some a)
  | Err (Api e) => if bool_decide (code e ∈ codes) then Ok None else Err (Api e)
  | Err e => Err e
  end.
Definition scope_config (s : option string) : Outcome (option Value) :=
  c ← tolerate [40401; 40408]%Z (get_config r s false); Ok (fmap (M:=option) to_value c).
Definition scope_mode (s : string) : Outcome (option string) :=
  m ← tolerate [40401; 40409]%Z (get_mode r (Some s) false); Ok (fmap (M:=option) ModeM.as_str m).

(** What was found of a scope, appended. *)
Definition with_settings (s : option string) (c : option Value) (m : option string) (d : Dump) : Dump :=
  mkDump (header d) (subjects d) (subject_order d) (configs d ++ option_list (pair s <$> c)) (modes d ++ option_list (pair s <$> m)) (exporters d).

Definition dump_row (s : string) (live : list Z) (v : Z) : Outcome Value :=
  view ← get_version_formatted r s (Exact v) true None;
  or_panic (row ← index_set "type" (VString "schema") (to_value view); index_set "deleted" (VBool (negb (bool_decide (v ∈ live)))) row).
Definition dump_subject (d : Dump) (s : string) : Outcome Dump :=
  let live := match list_versions r s false false with Ok l => l | Err _ => [] end in
  all ← list_versions r s true false;
  rows ← mapM_result (dump_row s live) all;
  match rows with
  | [] => Ok d
  | _ =>
    c ← scope_config (Some s); m ← scope_mode s;
    Ok (with_settings (Some s) c m (mkDump (header d) (<[s := rows]> (subjects d)) (subject_order d ++ [s]) (configs d) (modes d) (exporters d)))
  end.
Definition dump_context (d : Dump) (ctx : string) : Outcome Dump :=
  let name := ":" +:+ ctx +:+ ":" in
  c ← scope_config (Some name); m ← scope_mode name; Ok (with_settings (Some name) c m d).

Fixpoint foldM {A B} (f : B → A → Outcome B) (b : B) (l : list A) : Outcome B :=
  match l with [] => Ok b | x :: l => b ← f b x; foldM f b l end.

(** Every subject-level configuration, as the snapshot holds them. *)
Definition subject_configs : list (string * string * ConfigRecord.t) :=
  omap (λ e : Scope * ConfigRecord.t, match e.1 with SubjectScope ctx s => Some (ctx, s, e.2) | _ => None end) (map_to_list (config (rd_snap r))).
Fixpoint insert_named (x : string * Value) (l : list (string * Value)) : list (string * Value) :=
  match l with [] => [x] | y :: l => if String.leb x.1 y.1 then x :: y :: l else y :: insert_named x l end.
(** Subjects that are nothing but a setting (aliases), which no listing shows. *)
Definition settings_only (listed : list string) (prefix : option string) : list (string * Value) :=
  foldr insert_named [] (omap (λ e : string * string * ConfigRecord.t,
    let q := qualify e.1.1 e.1.2 in
    if bool_decide (q ∈ listed) then None
    else if match prefix with Some p => negb (starts_with (trim_end_char "*" p) q) | None => false end then None
    else Some (q, to_value e.2)) subject_configs).

Definition dump_local (head : Value) (prefix : option string) : Outcome Dump :=
  c ← scope_config None; m ← get_mode r None false;
  let d := with_settings None c (Some (ModeM.as_str m)) (mkDump (Some head) ∅ [] [] [] []) in
  d ← foldM dump_context d (filter (λ c, c ≠ DEFAULT_CONTEXT) (Snap.list_contexts (rd_snap r)));
  listed ← list_subjects r (Some (default ":*:" prefix)) true false;
  d ← foldM dump_subject d listed;
  let d := mkDump (header d) (subjects d) (subject_order d)
             (configs d ++ ((λ e : string * Value, (Some e.1, e.2)) <$> settings_only listed prefix)) (modes d) (exporters d) in
  es ← stored_exporters;
  es ← mapM_result (λ name, e ← get_exporter name; ok_or e (Api (ApiErr.exporter_not_found name))) ((λ e, ei_name (er_info e)) <$> es);
  Ok (mkDump (header d) (subjects d) (subject_order d) (configs d) (modes d) (exporters d ++ (to_value <$> es))).
End dump_local.
