(* ===== verification/RestoreSpec.v ===== *)
(** What a restore guarantees, for any registry that keeps the contract stated
    here: it ends, and if it succeeds, every version of the dump is there,
    under its id, live or deleted as the dump says. *)
From S2P Require Import Prelude SortedVec RustStr Errors Json Model Context Snapshot Keys Plan Store Durable Transaction MemDb SchemaLayer JavaOrder Views Registry Queries Mutations ExporterVerbs Engine Dump DerivedJson Restore.

Open Scope string_scope.
Open Scope nat_scope.
Open Scope list_scope.

(** * The contract *)

(** The versions a registry holds, and its own invariant. *)
Class VersionStore (R : Type) := {
  version_at : R → QualifiedSubject → Z → option VersionRecord;
  sound : R → Prop;
}.

(** The codes by which a registry says that there is no live version to delete. *)
Definition GONE : list Z := [40402; 40406; 40401]%Z.

(** A verb that leaves every version as it is. *)
Definition quiet {R A} `{!VersionStore R} (v : R → R * Outcome A) : Prop :=
  ∀ reg reg' o, sound reg → v reg = (reg', o) → sound reg' ∧ ∀ q n, version_at reg' q n = version_at reg q n.

Class RestoreTarget (R : Type) `{!RegistryVerbs R, !VersionStore R} := {
  (** A registration that brings a version and an id puts that version there,
      live and under that id. Other versions stay, but for deleted versions of
      the same subject with the same id, which may go. *)
  target_register s q req v id reg reg' o : sound reg → Qualified.parse s = Ok q →
    rq_version req = Some v → rq_id req = Some id → (0 < v ≤ i32_max)%Z → (0 ≤ id ≤ i32_max)%Z → register s req false reg = (reg', o) →
    sound reg' ∧ match o with
    | Ok _ => (∃ x, version_at reg' q v = Some x ∧ vr_id x = id ∧ vr_deleted x = false) ∧
              ∀ q' v', (q', v') ≠ (q, v) → version_at reg' q' v' = version_at reg q' v' ∨
                         (q' = q ∧ ∃ x, version_at reg q v' = Some x ∧ vr_deleted x = true)
    | Err _ => ∀ q' v', version_at reg' q' v' = version_at reg q' v'
    end;
  (** A soft delete marks one version, or there is no live one to mark. *)
  target_delete s q v reg reg' o : sound reg → Qualified.parse s = Ok q → delete_version s (Exact v) false reg = (reg', o) →
    sound reg' ∧ match o with
    | Ok _ => (∀ x, version_at reg q v = Some x → ∃ y, version_at reg' q v = Some y ∧ vr_id y = vr_id x ∧ vr_deleted y = true) ∧
              ∀ q' v', (q', v') ≠ (q, v) → version_at reg' q' v' = version_at reg q' v'
    | Err e => (∀ q' v', version_at reg' q' v' = version_at reg q' v') ∧
               ∀ a x, e = Api a → code a ∈ GONE → version_at reg q v = Some x → vr_deleted x = true
    end;
  target_set_config s c : quiet (set_config s c);
  target_set_mode s m : quiet (set_mode s m true);
  target_delete_config s : quiet (delete_config s);
  target_delete_mode s : quiet (delete_mode s);
  target_restore_exporter e : quiet (restore_exporter e);
}.

(** * Steps of a replay *)

Section steps.
Context {R : Type}.

(** When the step succeeds from a state in [P], [Q] holds of the result. *)
Definition triple {A} (P : R → Prop) (m : RM (R:=R) A) (Q : A → R → Prop) : Prop :=
  ∀ reg reg' a, P reg → m reg = Some (reg', Ok a) → Q a reg'.

Lemma triple_ret {A} (P : R → Prop) (a : A) Q : (∀ reg, P reg → Q a reg) → triple P (rret a) Q.
Proof. intros H reg reg' a' HP [= <- <-]. auto. Qed.
Lemma triple_bind {A B} P (m : RM (R:=R) A) (f : A → RM (R:=R) B) M Q : triple P m M → (∀ a, triple (M a) (f a) Q) → triple P (rbind m f) Q.
Proof.
  intros Hm Hf reg reg' b HP E. unfold rbind in E. destruct (m reg) as [[reg1 [a|e]]|] eqn:Em; [|done..].
  eapply Hf; [|exact E]. eapply Hm; [exact HP|exact Em].
Qed.
Lemma triple_impl {A} (P P' : R → Prop) (m : RM (R:=R) A) Q Q' : triple P m Q → (∀ reg, P' reg → P reg) → (∀ a reg, Q a reg → Q' a reg) → triple P' m Q'.
Proof. intros H HP HQ reg reg' a Hr E. eapply HQ, H; [by apply HP|exact E]. Qed.
Lemma triple_ex {A X} (P : X → R → Prop) (m : RM (R:=R) A) Q : (∀ x, triple (P x) m Q) → triple (λ reg, ∃ x, P x reg) m Q.
Proof. intros H reg reg' a [x Hx]. by apply (H x). Qed.
Lemma triple_pure {A} (P : R → Prop) (φ : Prop) (m : RM (R:=R) A) Q : (φ → triple P m Q) → triple (λ reg, P reg ∧ φ) m Q.
Proof. intros H reg reg' a [HP Hφ]. by apply H. Qed.
Lemma triple_lift {A} (P : R → Prop) (o : Outcome A) : triple P (lift o) (λ a reg, P reg ∧ o = Ok a).
Proof. intros reg reg' a HP [= <- ->]. done. Qed.
(** A loop that keeps [I] of what is done and what is left. *)
Lemma triple_fold {A S} (f : A → S → RM (R:=R) S) (I : list A → S → R → Prop) l : ∀ s,
  (∀ pre x s, (∃ post, l = pre ++ x :: post) → triple (I pre s) (f x s) (I (pre ++ [x]))) → triple (I [] s) (rfold f l s) (I l).
Proof.
  assert (∀ post pre s, l = pre ++ post → (∀ pre x s, (∃ post, l = pre ++ x :: post) → triple (I pre s) (f x s) (I (pre ++ [x]))) →
    triple (I pre s) (rfold f post s) (I l)) as Hgen; [|intros s; by apply Hgen].
  induction post as [|x post IH]; intros pre s -> Hf; cbn [rfold]; [apply triple_ret; by rewrite app_nil_r|].
  eapply triple_bind; [apply Hf; eauto|]. intros s'. apply IH; [by rewrite <-app_assoc|]. intros pre' y s'' Hp. apply Hf. exact Hp.
Qed.

(** A step that ends, with a result or an error. *)
Definition ends {A} (m : RM (R:=R) A) : Prop := ∀ reg, ∃ r, m reg = Some r.
Lemma ends_ret {A} (a : A) : ends (rret a).
Proof. intros reg. by eexists. Qed.
Lemma ends_bind {A B} (m : RM (R:=R) A) (f : A → RM (R:=R) B) : ends m → (∀ a, ends (f a)) → ends (rbind m f).
Proof. intros Hm Hf reg. unfold rbind. destruct (Hm reg) as [[reg1 [a|e]] ->]; [apply Hf|by eexists]. Qed.
Lemma ends_lift {A} (o : Outcome A) : ends (lift o).
Proof. intros reg. by eexists. Qed.
Lemma ends_verb {A} (v : R → R * Outcome A) : ends (verb v).
Proof. intros reg. by eexists. Qed.
Lemma ends_ignoring {A} (v : R → R * Outcome A) : ends (ignoring v).
Proof. intros reg. unfold ignoring. destruct (v reg) as [reg' [a|[e|e|]]]; by eexists. Qed.
Lemma ends_fold {A S} (f : A → S → RM (R:=R) S) l : (∀ x s, x ∈ l → ends (f x s)) → ∀ s, ends (rfold f l s).
Proof.
  induction l as [|x l IH]; intros H s; cbn [rfold]; [apply ends_ret|]. apply ends_bind; [apply H; by left|]. apply IH. intros; apply H; by right.
Qed.
(** The same, where what comes later depends on what came before. *)
Lemma ends_bind_with {A B} (m : RM (R:=R) A) (f : A → RM (R:=R) B) (J : A → Prop) :
  ends m → triple (λ _, True) m (λ a _, J a) → (∀ a, J a → ends (f a)) → ends (rbind m f).
Proof.
  intros Hm HJ Hf reg. unfold rbind. destruct (Hm reg) as [[reg1 [a|e]] E]; rewrite E; [|by eexists]. apply Hf. by eapply HJ.
Qed.
Lemma ends_fold_with {A S} (f : A → S → RM (R:=R) S) l (J : S → Prop) : (∀ x s, x ∈ l → J s → ends (f x s)) →
  (∀ x s, x ∈ l → J s → triple (λ _, True) (f x s) (λ s' _, J s')) → ∀ s, J s → ends (rfold f l s).
Proof.
  induction l as [|x l IH]; intros He Ht s Hs; cbn [rfold]; [apply ends_ret|].
  apply (ends_bind_with _ _ J); [apply He; [by left|done]|apply Ht; [by left|done]|].
  apply IH; intros; [apply He|apply Ht]; try done; by right.
Qed.
End steps.
Create HintDb restore.
#[export] Hint Resolve ends_ret ends_bind ends_lift ends_verb ends_ignoring ends_fold : restore.

(** * A replay ends *)

(** Every version of a dump, as the replay names it. *)
Definition all_keys (d : Dump) : gset (string * Z) :=
  list_to_set (map_to_list (subjects d) ≫= λ e, (λ row, (e.1, as_u32 (row_version row))) <$> e.2).
Lemma all_keys_elem d s rows row : subjects d !! s = Some rows → row ∈ rows → (s, as_u32 (row_version row)) ∈ all_keys d.
Proof.
  intros Hs Hr. apply elem_of_list_to_set, list_elem_of_bind. exists (s, rows). split; [|by apply elem_of_map_to_list].
  apply list_elem_of_fmap. eauto.
Qed.
Lemma referenced_row_elem d s r target row : referenced_row d s r = Some (target, row) → ∃ rows, subjects d !! target = Some rows ∧ row ∈ rows.
Proof.
  unfold referenced_row. destruct (subject_of r) as [rs|]; [|done]. cbn [mbind option_bind]. destruct (get "version" r ≫= as_i64) as [rv|]; [|done].
  destruct (subjects d !! qualify_like s rs) as [rows|] eqn:Er; [|done]. cbn [mbind option_bind].
  match goal with |- context [list_find ?P rows] => destruct (list_find P rows) as [[i x]|] eqn:Ef; [|done] end. intros [= <- <-]. exists rows. split; [done|]. apply list_find_Some in Ef as (Hi & _). by eapply list_elem_of_lookup_2.
Qed.

Lemma diff_new (A X : gset (string * Z)) k : k ∈ A → k ∉ X → size (A ∖ ({[k]} ∪ X)) < size (A ∖ X).
Proof. intros HA HX. apply subset_size. set_solver. Qed.
Lemma diff_mono (A X Y : gset (string * Z)) : X ⊆ Y → size (A ∖ Y) ≤ size (A ∖ X).
Proof. intros H. apply subseteq_size. set_solver. Qed.

(** What happens to the keys while a version is being written. *)
Section keys.
Implicit Types (X Y K : gset (string * Z)).
Lemma enter_key k X K : k ∉ X → ({[k]} ∪ X) ∖ ({[k]} ∪ K) = X ∖ K.
Proof. intros. apply leibniz_equiv. set_solver. Qed.
Lemma keys_grow k K X Y : K ⊆ X → {[k]} ∪ X ⊆ Y → {[k]} ∪ K ⊆ Y.
Proof. set_solver. Qed.
Lemma key_hidden k K Y : k ∉ Y ∖ ({[k]} ∪ K).
Proof. set_solver. Qed.
Lemma leave_key k X K Y : k ∉ X → K ⊆ X → {[k]} ∪ X ⊆ Y → {[k]} ∪ Y ∖ ({[k]} ∪ K) = Y ∖ K.
Proof. intros H1 H2 H3. apply leibniz_equiv. intros x. destruct (decide (x = k)); set_solver. Qed.
Lemma keys_done k X Y : {[k]} ∪ X ⊆ Y → X ⊆ Y ∧ k ∈ Y.
Proof. set_solver. Qed.
Lemma snoc_keys (l : list (string * Z)) k X : list_to_set (l ++ [k]) ∪ X = {[k]} ∪ (list_to_set l ∪ X).
Proof. apply leibniz_equiv. set_solver. Qed.
End keys.

Section replay.
Context {R : Type} {verbs : RegistryVerbs R} {config_from : FromValue ConfigRecord.t} {exporter_from : FromValue ExporterRecord}.

Lemma write_version_grows d : ∀ fuel s row p, triple (λ _ : R, True) (write_version fuel d s row p) (λ p' _, p.1 ⊆ p'.1).
Proof.
  induction fuel as [|fuel IH]; intros s row p; [by intros reg reg' a _|]. cbn [write_version].
  destruct (decide _) as [|Hn]; [by apply triple_ret|].
  eapply triple_bind with (M := λ p' _, p.1 ⊆ p'.1).
  - eapply triple_impl; [apply (triple_fold _ (λ _ p' _, p.1 ⊆ p'.1))| |]; [|intros reg _; apply union_subseteq_r|done].
    intros pre r p1 _. destruct (referenced_row d s r) as [[target row']|]; [|by apply triple_ret].
    eapply triple_bind with (M := λ _ _, p.1 ⊆ p1.1); [by intros reg reg' a H _|]. intros [].
    intros reg reg' p2 H E. etrans; [exact H|]. by eapply IH.
  - intros p1. eapply triple_bind with (M := λ _ _, p.1 ⊆ p1.1); [by intros reg reg' a H _|]. intros a. by apply triple_ret.
Qed.

Lemma write_version_ends d : ∀ fuel s row p, (s, as_u32 (row_version row)) ∈ all_keys d → size (all_keys d ∖ p.1) < fuel →
  ends (R:=R) (write_version fuel d s row p).
Proof.
  induction fuel as [|fuel IH]; intros s row p Hin Hf; [lia|]. cbn [write_version]. destruct (decide _) as [|Hn]; [apply ends_ret|].
  set (key := (s, as_u32 (row_version row))) in *.
  pose proof (diff_new (all_keys d) p.1 key Hin Hn) as Hlt.
  apply ends_bind; [|intros a; apply ends_bind; [apply ends_verb|intros; apply ends_ret]].
  apply (ends_fold_with _ _ (λ p', {[key]} ∪ p.1 ⊆ p'.1)); [..|done].
  - intros r p1 _ Hp1. destruct (referenced_row d s r) as [[target row']|] eqn:Er; [|apply ends_ret].
    apply ends_bind; [apply ends_bind; [apply ends_verb|intros; apply ends_verb]|]. intros _. apply IH.
    + apply referenced_row_elem in Er as (rows & Hrows & Hr). by eapply all_keys_elem.
    + pose proof (diff_mono (all_keys d) ({[key]} ∪ p.1) p1.1 Hp1). lia.
  - intros r p1 _ Hp1. destruct (referenced_row d s r) as [[target row']|]; [|by apply triple_ret].
    eapply triple_bind with (M := λ _ _, True); [done|]. intros _. eapply triple_impl; [apply write_version_grows|done|]. intros p2 reg Hp2. by etrans.
Qed.

(** A restore of any dump ends: with a result, or with the error of the first
    verb that fails. Cycles of references do not keep it going. *)
Theorem restore_ends d dry_run : ∀ fuel, size (all_keys d) < fuel → ∀ reg : R, ∃ r, restore_local fuel d dry_run reg = Some r.
Proof.
  intros fuel Hf. change (ends (R:=R) (restore_local fuel d dry_run)). unfold restore_local. destruct dry_run; [apply ends_ret|].
  assert (∀ l o, ends (R:=R) (put_configs l o)) as Hpc.
  { intros l. apply ends_fold. intros e o _. apply ends_bind; [|intros; apply ends_ret]. apply ends_bind; [apply ends_lift|intros; apply ends_verb]. }
  apply ends_bind; [apply Hpc|]. intros o. apply ends_bind; [|intros p; apply ends_bind; [|intros o1; apply ends_bind; [apply Hpc|intros o2; apply ends_bind]]].
  - apply ends_fold. intros s p _. unfold restore_subject. apply ends_bind_with with (J := λ rows, subjects d !! s = Some rows); [apply ends_lift| |].
    { intros reg reg' rows _ E. unfold lift, or_panic, ok_or in E. destruct (subjects d !! s); [|done]. by injection E as _ ->. }
    intros rows Hrows. apply ends_bind; [apply ends_bind; [apply ends_verb|intros; apply ends_verb]|]. intros _.
    apply ends_bind; [|intros p1; apply ends_bind; [|intros; apply ends_ret]].
    + apply ends_fold. intros row p1 Hrow. apply write_version_ends; [by eapply all_keys_elem|].
      assert (size (all_keys d ∖ p1.1) ≤ size (all_keys d)) by (apply subseteq_size, subseteq_difference_l, reflexivity). lia.
    + apply ends_fold. intros row p2 _ reg. unfold delete_row. destruct (delete_version _ _ _ reg) as [reg' [v|[e|e|]]]; by eexists.
  - apply ends_fold. intros s o' _. destruct (has_key s _); [apply ends_ret|]. apply ends_bind; [apply ends_ignoring|intros; apply ends_ret].
  - apply ends_fold. intros e o' _. apply ends_bind; [apply ends_lift|]. intros m. apply ends_bind; [apply ends_verb|intros; apply ends_ret].
  - intros o3. apply ends_bind.
    + apply ends_fold. intros s o' _. destruct (has_key s _); [apply ends_ret|]. apply ends_bind; [apply ends_ignoring|intros; apply ends_ret].
    + intros o4. apply ends_fold. intros v o' _. apply ends_bind; [apply ends_lift|]. intros rec. apply ends_bind; [apply ends_verb|intros; apply ends_ret].
Qed.
End replay.

(** * A restore that succeeds is faithful *)

Definition row_id (row : Value) : option Z := get "id" row ≫= as_i64.

(** Dumps whose rows carry a version and an id of their own, as every dump of a
    registry does, and whose subjects are spelled one way. *)
Record restorable (d : Dump) : Prop := {
  rs_row s rows row : subjects d !! s = Some rows → row ∈ rows →
    (0 < row_version row ≤ i32_max)%Z ∧ ∃ id, row_id row = Some id ∧ (0 ≤ id ≤ i32_max)%Z;
  rs_once s rows a b : subjects d !! s = Some rows → a ∈ rows → b ∈ rows → row_version a = row_version b → a = b;
  rs_names s s' : is_Some (subjects d !! s) → is_Some (subjects d !! s') → Qualified.parse s = Qualified.parse s' → s = s';
}.

Section faithful.
Context {R : Type} {verbs : RegistryVerbs R} {config_from : FromValue ConfigRecord.t} {exporter_from : FromValue ExporterRecord}.
Context {store : VersionStore R} {contract : RestoreTarget R}.
Variable d : Dump.
Hypothesis Hd : restorable d.

Definition dump_row_of (s : string) (row : Value) : Prop := ∃ rows, subjects d !! s = Some rows ∧ row ∈ rows.

(** The versions of [W] are there under their ids; those of [D] are deleted. No
    subject has a deleted version before all of its versions are there. *)
Record held (W D : gset (string * Z)) (reg : R) : Prop := {
  hd_sound : sound reg;
  hd_version s row q : dump_row_of s row → Qualified.parse s = Ok q → (s, row_version row) ∈ W →
    ∃ x, version_at reg q (row_version row) = Some x ∧ Some (vr_id x) = row_id row ∧
         vr_deleted x = bool_decide ((s, row_version row) ∈ D);
  hd_complete s row v : dump_row_of s row → (s, v) ∈ D → (s, row_version row) ∈ W;
}.

Lemma held_quiet {A} (v : R → R * Outcome A) W D reg reg' o : quiet v → held W D reg → v reg = (reg', o) → held W D reg'.
Proof.
  intros Hq [Hs Hv Hc] E. destruct (Hq _ _ _ Hs E) as [Hs' Hsame]. split; [done| |done]. intros s row q Hr Hp Hin.
  rewrite Hsame. by apply Hv.
Qed.
Lemma held_verb {A} (v : R → R * Outcome A) W D : quiet v → triple (held W D) (verb v) (λ _, held W D).
Proof. intros Hq reg reg' a HP E. unfold verb in E. injection E as E. by eapply held_quiet. Qed.
Lemma held_ignoring {A} (v : R → R * Outcome A) W D : quiet v → triple (held W D) (ignoring v) (λ _, held W D).
Proof.
  intros Hq reg reg' a HP E. unfold ignoring in E. destruct (v reg) as [reg1 o] eqn:Ev. pose proof (held_quiet _ _ _ _ _ _ Hq HP Ev) as H.
  destruct o as [x|[e|e|]]; by injection E as <-.
Qed.
Lemma held_import s W D : triple (held W D) (open_import s) (λ _, held W D).
Proof using contract. eapply triple_bind; [apply held_verb, target_set_mode|]. intros u. apply held_verb, target_set_config. Qed.

Lemma row_key s row : dump_row_of s row → as_u32 (row_version row) = row_version row ∧ as_i32 (row_version row) = row_version row.
Proof using Hd.
  intros (rows & Hs & Hr). destruct (rs_row d Hd s rows row Hs Hr) as [Hv _]. split; [apply as_u32_small|apply as_i32_small];
    unfold is_u32, is_i32, u32_max, i32_max, i32_min in *; lia.
Qed.

(** Registering one row adds it to what is held. *)
Lemma register_held s row W D : dump_row_of s row → (s, row_version row) ∉ W →
  triple (held W D) (verb (register s (row_request row (as_u32 (row_version row))) false)) (λ _, held ({[(s, row_version row)]} ∪ W) D).
Proof using Hd contract.
  intros Hrow HW reg reg' a [Hs Hv Hc] E. unfold verb in E. injection E as E. pose proof Hrow as (rows & Hrows & Hin).
  destruct (rs_row d Hd s rows row Hrows Hin) as (Hver & id & Hid & Hidr). destruct (row_key s row Hrow) as [Hk Hk'].
  destruct (Qualified.parse s) as [q|] eqn:Hq; [|done].
  assert ((s, row_version row) ∉ D) as HD by (intros HD; by apply HW, (Hc s row _ Hrow HD)).
  destruct (target_register s q (row_request row (as_u32 (row_version row))) (row_version row) id reg reg' (Ok a) Hs Hq) as (Hs' & (x & Hx & Hxid & Hxd) & Hother).
  - cbn. by rewrite Hk, Hk'.
  - cbn. unfold row_id in Hid. rewrite Hid. cbn. f_equal. apply as_i32_small. unfold is_i32, i32_max, i32_min in *. lia.
  - done.
  - done.
  - exact E.
  - split; [done| |].
    + intros s' row' q' Hrow' Hq' Hin'. destruct (decide ((s', row_version row') = (s, row_version row))) as [[= -> Hvv]|Hne].
      * destruct Hrow' as (rows' & Hrows' & Hin2). rewrite Hrows in Hrows'. injection Hrows' as <-.
        rewrite (rs_once d Hd s rows row' row Hrows Hin2 Hin Hvv) in *. assert (q' = q) as -> by congruence.
        exists x. split; [done|]. split; [congruence|]. by rewrite bool_decide_eq_false_2.
      * apply elem_of_union in Hin' as [Hin'%elem_of_singleton|Hin']; [done|]. destruct (Hv s' row' q' Hrow' Hq' Hin') as (y & Hy & Hyid & Hyd).
        destruct (Hother q' (row_version row')) as [Hsame|(-> & z & Hz & Hzd)].
        -- intros [= -> Hvv]. apply Hne. f_equal; [|done]. destruct Hrow' as (rows' & Hrows' & _). apply (rs_names d Hd); [eauto..|congruence].
        -- exists y. by rewrite Hsame.
        -- exfalso. assert (s' = s) as -> by (destruct Hrow' as (rows' & Hrows' & _); apply (rs_names d Hd); [eauto..|congruence]).
           rewrite Hy in Hz. injection Hz as <-. rewrite Hyd in Hzd. apply bool_decide_eq_true in Hzd. by apply HW, (Hc s row _ Hrow Hzd).
    + intros s' row' v Hrow' HDv. apply elem_of_union_r. by eapply Hc.
Qed.

Lemma write_version_held D : ∀ fuel s row p K, dump_row_of s row → K ⊆ p.1 →
  triple (held (p.1 ∖ K) D) (write_version fuel d s row p) (λ p' reg, held (p'.1 ∖ K) D reg ∧ p.1 ⊆ p'.1 ∧ (s, row_version row) ∈ p'.1).
Proof using Hd contract.
  induction fuel as [|fuel IH]; intros s row p K Hrow HK; [by intros reg reg' a _|]. cbn [write_version].
  destruct (row_key s row Hrow) as [Hk _]. rewrite Hk. set (key := (s, row_version row)). destruct (decide _) as [Hin|Hin]; [by apply triple_ret|].
  assert (({[key]} ∪ p.1) ∖ ({[key]} ∪ K) = p.1 ∖ K) as Estart by (by apply enter_key).
  eapply triple_bind with (M := λ p1 reg, held (p1.1 ∖ ({[key]} ∪ K)) D reg ∧ {[key]} ∪ p.1 ⊆ p1.1).
  - eapply triple_impl; [apply (triple_fold _ (λ _ p1 reg, held (p1.1 ∖ ({[key]} ∪ K)) D reg ∧ {[key]} ∪ p.1 ⊆ p1.1))| |done].
    + intros pre r p1 _. destruct (referenced_row d s r) as [[t row']|] eqn:Er; [|by apply triple_ret].
      apply referenced_row_elem in Er. intros reg reg' p2 [Hh Hsub] E.
      assert ({[key]} ∪ K ⊆ p1.1) as HK1 by (by apply (keys_grow _ _ p.1)).
      destruct (triple_bind _ _ _ _ _ (held_import t _ D) (λ _, IH t row' p1 ({[key]} ∪ K) Er HK1) reg reg' p2 Hh E) as (? & ? & _).
      split; [done|by etrans].
    + intros reg Hh. cbn [fst]. by rewrite Estart.
  - intros p1 reg reg' p2 [Hh Hsub] E. assert (key ∉ p1.1 ∖ ({[key]} ∪ K)) as Hk1 by (by apply key_hidden).
    assert ({[key]} ∪ p1.1 ∖ ({[key]} ∪ K) = p1.1 ∖ K) as Eend by (by apply (leave_key _ p.1)).
    assert (p.1 ⊆ p1.1 ∧ key ∈ p1.1) as Hdone by (by apply keys_done).
    refine (triple_bind (held (p1.1 ∖ ({[key]} ∪ K)) D) _ _ (λ _, held (p1.1 ∖ K) D) (λ (q : Progress) r, held (q.1 ∖ K) D r ∧ p.1 ⊆ q.1 ∧ key ∈ q.1) _ _ reg reg' p2 Hh E); [|intros a].
    + pose proof (register_held s row _ D Hrow Hk1) as Hreg. rewrite Hk in Hreg. eapply triple_impl; [exact Hreg|done|]. intros a r H. by rewrite <-Eend.
    + apply triple_ret. intros r H. split; [exact H|exact Hdone].
Qed.

Lemma delete_row_held s row p W D : dump_row_of s row → (∀ row', dump_row_of s row' → (s, row_version row') ∈ W) →
  triple (held W D) (delete_row s row p) (λ p' reg, held W ({[(s, row_version row)]} ∪ D) reg ∧ p'.1 = p.1).
Proof using Hd contract.
  intros Hrow Hall reg reg' p' [Hs Hv Hc] E. unfold delete_row in E. destruct (row_key s row Hrow) as [Hk _]. rewrite Hk in E.
  destruct (Qualified.parse s) as [q|] eqn:Hq; [|done]. destruct (delete_version s _ false reg) as [reg1 o] eqn:Ed.
  destruct (target_delete s q (row_version row) reg reg1 o Hs Hq Ed) as [Hs1 Ho]. destruct (Hv s row q Hrow Hq (Hall row Hrow)) as (x & Hx & Hxid & Hxd).
  assert (reg1 = reg' ∧ p'.1 = p.1 ∧ (∃ y, version_at reg1 q (row_version row) = Some y ∧ vr_id y = vr_id x ∧ vr_deleted y = true) ∧
    ∀ q' v', (q', v') ≠ (q, row_version row) → version_at reg1 q' v' = version_at reg q' v') as (<- & Hp & (y & Hy & Hyid & Hyd) & Hother).
  { destruct o as [v|[e|e|]]; [injection E as <- <-; destruct Ho as [Ho1 Ho2]; split_and!; [done..|by apply Ho1|done]| |discriminate E..].
    destruct Ho as [Hsame Hgone]. destruct (decide (code e ∈ GONE)) as [Hcode|Hcode];
      [rewrite bool_decide_eq_true_2 in E by exact Hcode|rewrite bool_decide_eq_false_2 in E by exact Hcode; discriminate E]. injection E as <- <-. split_and!; [done..| |by intros].
    exists x. rewrite Hsame. split_and!; [done..|]. by apply (Hgone e x). }
  split; [|done]. split; [done| |].
  - intros s' row' q' Hrow' Hq' Hin'. destruct (decide ((s', row_version row') = (s, row_version row))) as [[= -> Hvv]|Hne].
    + destruct Hrow as (rows & Hrows & Hin), Hrow' as (rows' & Hrows' & Hin2). rewrite Hrows in Hrows'. injection Hrows' as <-.
      rewrite (rs_once d Hd s rows row' row Hrows Hin2 Hin Hvv) in *. assert (q' = q) as -> by congruence.
      exists y. split_and!; [done|congruence|]. rewrite Hyd. symmetry. apply bool_decide_eq_true_2. by apply elem_of_union_l, elem_of_singleton.
    + destruct (Hv s' row' q' Hrow' Hq' Hin') as (z & Hz & Hzid & Hzd). exists z. rewrite Hother.
      * split_and!; [done..|]. rewrite Hzd. apply bool_decide_ext. rewrite elem_of_union, elem_of_singleton. naive_solver.
      * intros [= -> Hvv]. apply Hne. f_equal; [|done]. destruct Hrow as (rows & Hrows & _), Hrow' as (rows' & Hrows' & _). apply (rs_names d Hd); [eauto..|congruence].
  - intros s' row' v Hrow' [[= -> _]%elem_of_singleton|HD]%elem_of_union; [by apply Hall|by eapply Hc].
Qed.

(** The subjects that are done: all their versions are there, and exactly the
    deleted ones of the dump are deleted. *)
Definition restored_subjects (pre : list string) (p : Progress) (reg : R) : Prop :=
  ∃ D, held p.1 D reg ∧ (∀ s row, s ∈ pre → dump_row_of s row → (s, row_version row) ∈ p.1) ∧
       ∀ s v, (s, v) ∈ D ↔ s ∈ pre ∧ ∃ row, dump_row_of s row ∧ row_version row = v ∧ row_deleted row = true.

Lemma write_rows_held fuel s rows D p : subjects d !! s = Some rows →
  triple (held p.1 D) (rfold (write_version fuel d s) rows p) (λ p' reg, held p'.1 D reg ∧ p.1 ⊆ p'.1 ∧ ∀ row, row ∈ rows → (s, row_version row) ∈ p'.1).
Proof using Hd contract.
  intros Hrows. eapply triple_impl; [apply (triple_fold _ (λ pre p' reg, held p'.1 D reg ∧ p.1 ⊆ p'.1 ∧ ∀ row, row ∈ pre → (s, row_version row) ∈ p'.1))| |done].
  2: { intros reg Hh. split_and!; [done..|]. by intros row ?%elem_of_nil. }
  intros pre row p1 (post & Epost) reg reg' p2 (Hh & Hsub & Hpre) E.
  assert (dump_row_of s row) as Hrow by (exists rows; split; [done|]; rewrite Epost; apply elem_of_app; right; by left).
  destruct (write_version_held D fuel s row p1 ∅ Hrow (empty_subseteq _) reg reg' p2) as (Hh2 & Hsub2 & Hin2); [by rewrite difference_empty_L|done|].
  rewrite difference_empty_L in Hh2. split_and!; [done|by etrans|]. intros row' [Hr| ->%list_elem_of_singleton]%elem_of_app; [|done]. by apply Hsub2, Hpre.
Qed.

Lemma delete_rows_held s rows D p : subjects d !! s = Some rows → (∀ row, row ∈ rows → (s, row_version row) ∈ p.1) →
  triple (held p.1 D) (rfold (delete_row s) (filter (λ row, row_deleted row = true) rows) p)
    (λ p' reg, p'.1 = p.1 ∧ held p'.1 (list_to_set ((λ row, (s, row_version row)) <$> filter (λ row, row_deleted row = true) rows) ∪ D) reg).
Proof using Hd contract.
  intros Hrows Hall. eapply triple_impl; [apply (triple_fold _ (λ pre p' reg, p'.1 = p.1 ∧ held p.1 (list_to_set ((λ row, (s, row_version row)) <$> pre) ∪ D) reg))| |].
  2: { intros reg Hh. split; [done|]. cbn. by rewrite union_empty_l_L. }
  2: { intros p' reg [-> Hh]. done. }
  intros pre row p1 (post & Epost) reg reg' p2 (Ep & Hh) E.
  assert (dump_row_of s row) as Hrow.
  { exists rows. split; [done|]. assert (row ∈ filter (λ row, row_deleted row = true) rows) as Hin by (rewrite Epost; apply elem_of_app; right; by left).
    by apply list_elem_of_filter in Hin as [_ ?]. }
  destruct (delete_row_held s row p1 p.1 _ Hrow ltac:(intros row' (rows' & E1 & Hin); apply Hall; congruence) reg reg' p2 Hh E) as [Hh2 Ep2].
  split; [congruence|]. rewrite fmap_app. change ((λ row, (s, row_version row)) <$> [row]) with [(s, row_version row)]. by rewrite snoc_keys.
Qed.

Lemma restore_subject_held fuel s pre p : triple (restored_subjects pre p) (restore_subject fuel d s p) (restored_subjects (pre ++ [s])).
Proof using Hd contract.
  intros reg reg' p' (D & Hh & Hin & HD) E. unfold restore_subject, rbind in E. unfold lift, or_panic, ok_or in E.
  destruct (subjects d !! s) as [rows|] eqn:Hrows; [|discriminate E].
  destruct (open_import s reg) as [[reg1 [u|e]]|] eqn:E1; [|discriminate E..]. pose proof (held_import s _ _ _ _ _ Hh E1) as Hh1.
  destruct (rfold (write_version fuel d s) rows p reg1) as [[reg2 [p2|e]]|] eqn:E2; [|discriminate E..].
  destruct (write_rows_held fuel s rows D p Hrows _ _ _ Hh1 E2) as (Hh2 & Hsub & Hall).
  destruct (rfold (delete_row s) _ p2 reg2) as [[reg3 [p3|e]]|] eqn:E3; [|discriminate E..].
  destruct (delete_rows_held s rows D p2 Hrows Hall _ _ _ Hh2 E3) as [Ep3 Hh3]. injection E as <- <-. cbn [fst].
  eexists. split; [exact Hh3|]. assert (∀ row, dump_row_of s row ↔ row ∈ rows) as Hdr.
  { intros row. split; [intros (rows' & Er & ?); congruence|intros; by exists rows]. } rewrite Ep3. split.
  - intros s' row [Hs'| ->%list_elem_of_singleton]%elem_of_app Hrow; [by apply Hsub, Hin|]. apply Hall. by apply Hdr.
  - intros s' v. rewrite elem_of_union, elem_of_list_to_set, list_elem_of_fmap, HD, elem_of_app, list_elem_of_singleton. split.
    + intros [(row & [= -> ->] & [Hdel Hrow]%list_elem_of_filter)|[? ?]]; [|naive_solver]. split; [by right|]. exists row. by rewrite Hdr.
    + intros [[Hs'| ->] (row & Hrow & <- & Hdel)]; [right; eauto|]. left. exists row. split; [done|]. apply list_elem_of_filter. by rewrite Hdr in Hrow.
Qed.

(** ** The phases that leave the versions alone *)

Lemma put_configs_held W D l o : triple (held W D) (put_configs l o) (λ _, held W D).
Proof using contract.
  apply (triple_fold _ (λ _ _, held W D)). intros pre e o1 _. eapply (triple_bind _ _ _ (λ _, held W D)); [|intros u; by apply triple_ret].
  eapply (triple_bind _ _ _ (λ _, held W D)); [eapply triple_impl; [apply triple_lift|done|by intros a r [? _]]|]. intros rec. apply held_verb, target_set_config.
Qed.
Lemma put_modes_held W D l o : triple (held W D) (put_modes l o) (λ _, held W D).
Proof using contract.
  apply (triple_fold _ (λ _ _, held W D)). intros pre e o1 _.
  eapply (triple_bind _ _ _ (λ _, held W D)); [eapply triple_impl; [apply triple_lift|done|by intros a r [? _]]|]. intros m.
  eapply (triple_bind _ _ _ (λ _, held W D)); [apply held_verb, target_set_mode|]. intros u. by apply triple_ret.
Qed.
Lemma put_exporters_held W D l o : triple (held W D) (put_exporters l o) (λ _, held W D).
Proof using contract.
  apply (triple_fold _ (λ _ _, held W D)). intros pre e o1 _.
  eapply (triple_bind _ _ _ (λ _, held W D)); [eapply triple_impl; [apply triple_lift|done|by intros a r [? _]]|]. intros m.
  eapply (triple_bind _ _ _ (λ _, held W D)); [apply held_verb, target_restore_exporter|]. intros u. by apply triple_ret.
Qed.
Lemma clear_held {A B} W D (b : string → bool) (v : string → R → R * Outcome A) l (o : B) : (∀ s, quiet (v s)) →
  triple (held W D) (rfold (λ s o, if b s then rret o else rbind (ignoring (v s)) (λ _, rret o)) l o) (λ _, held W D).
Proof.
  intros Hq. apply (triple_fold _ (λ _ _, held W D)). intros pre s o1 _. destruct (b s); [by apply triple_ret|].
  eapply (triple_bind _ _ _ (λ _, held W D)); [by apply held_ignoring|]. intros u. by apply triple_ret.
Qed.

(** If a restore succeeds, then every version of the dump is in the registry,
    under the id the dump gives it, and it is soft-deleted exactly if the dump
    says so, whatever the registry held before. *)
Theorem restore_faithful fuel reg reg' out : sound reg → restore_local fuel d false reg = Some (reg', Ok out) →
  ∀ s rows row q, s ∈ subject_order d → subjects d !! s = Some rows → row ∈ rows → Qualified.parse s = Ok q →
    ∃ x, version_at reg' q (row_version row) = Some x ∧ Some (vr_id x) = row_id row ∧ vr_deleted x = row_deleted row.
Proof using Hd contract.
  intros Hs E s rows row q Hin Hrows Hrow Hq. assert (held ∅ ∅ reg) as H0.
  { split; [done|by intros ? ? ? ? ? ?%elem_of_empty|by intros ? ? ? ? ?%elem_of_empty]. }
  refine (triple_bind _ _ _ (λ _, held ∅ ∅) (λ _ r, ∃ x, version_at r q (row_version row) = Some x ∧ Some (vr_id x) = row_id row ∧ vr_deleted x = row_deleted row)
    (put_configs_held _ _ _ _) _ reg reg' out H0 E). intros o.
  eapply (triple_bind _ _ _ (λ p, restored_subjects (subject_order d) p)).
  { eapply triple_impl; [apply (triple_fold _ restored_subjects); intros pre s' p _; apply restore_subject_held| |done].
    intros r Hh. exists ∅. split; [exact Hh|]. split; [by intros ? ? ?%elem_of_nil|]. intros s' v. rewrite elem_of_empty, elem_of_nil. naive_solver. }
  intros p. apply triple_ex. intros D. apply triple_pure. intros [Hall HD].
  eapply triple_bind; [apply clear_held; intros; apply target_delete_config|]. intros o1. eapply triple_bind; [apply put_configs_held|].
  intros o2. eapply triple_bind; [apply put_modes_held|]. intros o3. eapply triple_bind; [apply clear_held; intros; apply target_delete_mode|].
  intros o4. eapply triple_impl; [apply put_exporters_held|done|]. intros o5 r Hh. assert (dump_row_of s row) as Hdr by (by exists rows).
  destruct (hd_version _ _ _ Hh s row q Hdr Hq (Hall s row Hin Hdr)) as (x & Hx & Hid & Hdel). exists x. split_and!; [done..|]. rewrite Hdel.
  destruct (row_deleted row) eqn:Erow; [apply bool_decide_eq_true_2, HD; split; [done|by exists row]|]. apply bool_decide_eq_false_2. rewrite HD.
  intros [_ (row' & (rows' & Er' & Hr') & Hv & Hdel')]. assert (row' = row) as -> by (apply (rs_once d Hd s rows); congruence). congruence.
Qed.
End faithful.
