(* ===== verification/RestoreEngine.v ===== *)
(** The engine keeps the contract a restore relies on: each verb, run by the
    engine, does to the versions what RestoreSpec asks of a registry. *)
From S2P Require Import Prelude SortedVec RustStr Errors Json Model Context Snapshot Keys Plan Store Durable Transaction MemDb SchemaLayer JavaOrder Views Registry Queries Mutations ExporterVerbs Engine VerbSafety Consistency Register Deletes Dump DerivedJson Restore RestoreSpec.

Open Scope string_scope.
Open Scope Z_scope.
Open Scope list_scope.

(** * One run of a verb, seen from the versions *)

Section engine.
Context {formats : SchemaFormats} `{!RocksDB DB}.
Context `{!Serde SchemaRecord, !Serde VersionRecord, !Serde ConfigRecord.t, !Serde Mode,
          !Serde LogEvent, !Serde ExporterRecord}.
Variable ambient : RegistryState DB → Ambient.
Implicit Types reg : RegistryState DB.

Definition registry_version reg (q : QualifiedSubject) (v : Z) : option VersionRecord :=
  Snap.get_version (reg_snap reg) (context q) (subject q) v.
Definition registry_sound reg : Prop := snap_wf (reg_snap reg) ∧ id_space (reg_snap reg).
#[export] Instance engine_store : VersionStore (RegistryState DB) := {| version_at := registry_version; sound := registry_sound |}.

(** The view a verb plans against. *)
Definition planned reg : ReadView :=
  read_view (cache_acts reg (am_seen0 (ambient reg))) (am_now (ambient reg)) (am_guid (ambient reg)).
Definition glanced reg : ReadView := read_view reg (am_now0 (ambient reg)) (am_guid0 (ambient reg)).

(** Closing a batch touches neither versions nor counters. *)
Lemma finished_snap s evs n : snap_wf s → let s' := Snap.apply_all s (if bool_decide (evs ≠ @nil LogEvent) then [OpSetLogSeq n] else []) in
  snap_wf s' ∧ (∀ ctx subj v, Snap.get_version s' ctx subj v = Snap.get_version s ctx subj v) ∧ ∀ ctx, Snap.next_id s' ctx = Snap.next_id s ctx.
Proof.
  intros Hwf. case_bool_decide; [|done]. cbv zeta. change (Snap.apply_all s [OpSetLogSeq n]) with (Snap.apply s (OpSetLogSeq n)).
  split_and!; [by apply apply_wf|intros; by rewrite get_version_apply|intros; by rewrite next_id_apply].
Qed.

(** A run leaves the snapshot, answering from it or failing, or publishes its
    plan. *)
Lemma run_outcome `{!Mutation M, !SafeVerb M} (m : M) reg reg' r : well_typed m → registry_sound reg → run ambient (Ok m) reg = (reg', r) →
  (reg_snap reg' = reg_snap reg ∧ match r with
     | Ok out => fast_path m (glanced reg) = Ok (Some out)
     | Err e => fast_path m (glanced reg) = Err e ∨ decide_plan m (planned reg) = Err e ∨
                ∃ p allowed db', commit_plan (reg_store reg) (reg_db reg) allowed (writes p) (events (T:=Output) p) = (db', Err e)
     end) ∨
  ∃ p, plan m (planned reg) = Ok p ∧ r = Ok (output p) ∧ snap_wf (reg_snap reg') ∧
    (∀ ctx subj v, Snap.get_version (reg_snap reg') ctx subj v = Snap.get_version (Snap.apply_all (reg_snap reg) (plan_ops (writes p))) ctx subj v) ∧
    ∀ ctx, Snap.next_id (reg_snap reg') ctx = Snap.next_id (Snap.apply_all (reg_snap reg) (plan_ops (writes p))) ctx.
Proof.
  intros Hty [Hwf Hspace] E. unfold run, run_inner in E. fold (glanced reg) in E.
  destruct (fast_path m (glanced reg)) as [[out|]|e] eqn:Ef; [injection E as <- <-; by left| |injection E as <- <-; left; eauto].
  unfold run_locked in E. fold (planned reg) in E. rewrite <-cache_acts_app in E. set (acts := am_seen0 _ ++ am_seen _) in E.
  destruct (decide_plan m (planned reg)) as [[p allowed]|e] eqn:Ed; [|injection E as <- <-; left; eauto].
  unfold apply_plan in E. cbn [cache_acts with_caches reg_store reg_db] in E.
  destruct (commit_plan _ _ _ _ _) as [db' [ops|e]] eqn:Ec; injection E as <- <-;
    [right|left; split; [done|]; right; right; eauto].
  apply decide_plan_Ok in Ed as [Hp _].
  exists p. split; [done|]. split; [done|]. destruct (commit_plan_ops _ _ _ _ _ _ _ Ec) as [seq ->]. cbn [publish reg_snap].
  cbn [cache_acts with_caches reg_snap]. rewrite apply_all_app. apply finished_snap. apply apply_all_wf; [done|].
  by apply (plan_safe m (planned reg)).
Qed.

(** Operations that touch no version and no counter. *)
Definition quiet_op (op : Op) : Prop := match op with OpSetNextId _ _ => False | _ => no_version op end.
Lemma uncounted_next ops : Forall (λ op, match op with OpSetNextId _ _ => False | _ => True end) ops →
  ∀ s ctx, Snap.next_id (Snap.apply_all s ops) ctx = Snap.next_id s ctx.
Proof.
  induction 1 as [|op ops Hop _ IH]; intros s ctx; [done|]. change (Snap.apply_all s (op :: ops)) with (Snap.apply_all (Snap.apply s op) ops).
  rewrite IH, next_id_apply. by destruct op.
Qed.
Lemma quiet_ops_silent ops : Forall quiet_op ops → Forall no_version ops.
Proof. intros H. eapply Forall_impl; [exact H|]. by intros []. Qed.

(** A verb that plans only such operations is quiet. *)
Lemma run_quiet `{!Mutation M, !SafeVerb M} (m : ApiResult M) : (∀ m, well_typed (M:=M) m) →
  (∀ m' view p, m = Ok m' → plan m' view = Ok p → Forall quiet_op (plan_ops (writes p))) → quiet (run ambient m).
Proof.
  intros Hty Hq reg reg' o Hs E. destruct m as [m|e]; [|by injection E as <- _].
  destruct (run_outcome m reg reg' o (Hty m) Hs E) as [[Hsame _]|(p & Hp & _ & Hwf & Hv & Hn)].
  - split; [by unfold sound, engine_store, registry_sound; rewrite Hsame|]. intros q n. cbn. unfold registry_version. by rewrite Hsame.
  - pose proof (Hq m (planned reg) p eq_refl Hp) as Hno. destruct Hs as [Hwf0 Hspace]. split.
    + split; [done|]. intros ctx. rewrite Hn, uncounted_next; [apply Hspace|]. eapply Forall_impl; [exact Hno|]. by intros [].
    + intros q n. cbn. unfold registry_version. rewrite Hv. apply get_version_silent; [done| |by apply quiet_ops_silent]. by apply (plan_safe m (planned reg)).
Qed.

(** ** The verbs that leave the versions alone *)

Lemma set_config_quiet s c : quiet (run ambient (update_new s c)).
Proof. apply run_quiet; [done|]. intros m view p _ [= <-]. by repeat constructor. Qed.
Lemma set_mode_quiet s mode : quiet (run ambient (set_mode_new s mode true)).
Proof.
  apply run_quiet; [done|]. intros m view p Em Hp. unfold set_mode_new in Em. apply bind_Ok in Em as (q & _ & [= <-]).
  change (set_mode_plan (mkSetMode q mode true) view = Ok p) in Hp. unfold set_mode_plan in Hp. cbv zeta in Hp. cbn [sm_force negb] in Hp.
  rewrite andb_false_r in Hp. injection Hp as <-. by repeat constructor.
Qed.
Lemma delete_config_quiet s : quiet (run ambient (delete_config_new s)).
Proof.
  apply run_quiet; [done|]. intros m view p _ Hp. change (delete_config_plan m view = Ok p) in Hp.
  apply bind_Ok in Hp as (c & _ & [= <-]). by repeat constructor.
Qed.
Lemma delete_mode_quiet s : quiet (run ambient (delete_mode_new s)).
Proof.
  apply run_quiet; [done|]. intros m view p _ Hp. change (delete_mode_plan m view = Ok p) in Hp.
  apply bind_Ok in Hp as (c & _ & [= <-]). by repeat constructor.
Qed.
Lemma restore_exporter_quiet e : quiet (run ambient (Ok (mkRestore e))).
Proof.
  apply run_quiet; [done|]. intros m view p _ Hp. change (restore_plan m view = Ok p) in Hp. unfold restore_plan in Hp.
  apply bind_Ok in Hp as (x & _ & Hp). destruct (bool_decide _); [injection Hp as <-|apply bind_Ok in Hp as ([] & _ & [= <-])];
    by repeat constructor.
Qed.

(** ** Registration *)

(** A version that is there and live, under an id. *)
Definition live_at (s : Snapshot) (q : QualifiedSubject) (v id : Z) : Prop :=
  ∃ x, Snap.get_version s (context q) (subject q) v = Some x ∧ vr_id x = id ∧ vr_deleted x = false.

Lemma entity_inv r q v vr e : entity r q v vr = Ok e → en_version e = v ∧ en_id e = vr_id vr.
Proof. unfold entity. intros H. by apply bind_Ok in H as (rec & _ & [= <-]). Qed.

Lemma lookup_versions_live r q c vs e : snap_wf (rd_snap r) → (∀ v vr, (v, vr) ∈ vs → (v, vr) ∈ versions_of r q ∧ vr_deleted vr = false) →
  lookup_versions r q c vs = Ok (Some e) → live_at (rd_snap r) q (en_version e) (en_id e).
Proof.
  intros Hwf. induction vs as [|[v vr] vs IH]; intros Hin; cbn [lookup_versions]; [done|]. intros H. apply bind_Ok in H as (prev & Hp & H).
  destruct (can_lookup c prev); [|apply IH; [intros; apply Hin; by right|done]]. injection H as <-.
  apply entity_inv in Hp as [-> ->]. destruct (Hin v vr) as [Hv Hd]; [by left|]. exists vr. split; [by apply list_versions_get|done].
Qed.

Lemma hash_lookup_inv r q c id v vr : snap_wf (rd_snap r) → hash_lookup r q c = Some (id, Some (v, vr)) →
  Snap.get_version (rd_snap r) (context q) (subject q) v = Some vr ∧ vr_id vr = id.
Proof.
  intros Hwf. unfold hash_lookup. destruct (Snap.id_for_fingerprint _ _ _) as [i|]; [|done]. cbn [mbind option_bind].
  case_bool_decide; [done|]. pose proof (max_opt_spec (filter (λ x, x.1 = subject q) (Snap.id_usages (rd_snap r) (context q) i)).*2) as Hm.
  destruct (max_opt _) as [m|]; [|done]. cbn [mbind option_bind]. destruct (Snap.get_version _ _ _ m) as [x|] eqn:Hx; [|done]. cbn [mbind option_bind].
  intros [= <- <- <-]. split; [done|]. destruct Hm as [Hm _]. apply list_elem_of_fmap in Hm as ([sj v'] & -> & [Hs Hu]%list_elem_of_filter).
  cbn in *. subst sj. rewrite id_usages_ctx, (wf_exact _ (wf_ctx _ Hwf _)) in Hu. destruct Hu as (y & Hy & <-). rewrite get_version_ctx in Hx. congruence.
Qed.

Lemma lookup_live r q d normalize latest e : snap_wf (rd_snap r) → lookup_under_subject r q d normalize false latest = Ok (Some e) →
  live_at (rd_snap r) q (en_version e) (en_id e).
Proof.
  intros Hwf. unfold lookup_under_subject. intros H. apply bind_Ok in H as ([c|] & _ & H); [|done]. cbn [orb] in H.
  assert (∀ v vr, (v, vr) ∈ filter (λ x, is_live false x = true) (reverse (versions_of r q)) → (v, vr) ∈ versions_of r q ∧ vr_deleted vr = false) as Hlive.
  { intros v vr [Hl Hin]%list_elem_of_filter. rewrite elem_of_reverse in Hin. split; [done|]. by apply negb_true_iff in Hl. }
  assert (∀ l, l = filter (λ x, is_live false x = true) (reverse (versions_of r q)) → lookup_versions r q c l = Ok (Some e) → live_at (rd_snap r) q (en_version e) (en_id e)) as Hlist
    by (intros l ->; by apply lookup_versions_live).
  destruct latest.
  - destruct (find_last _ _) as [[v vr]|] eqn:Ef; [|done]. eapply lookup_versions_live; [done| |exact H].
    intros v' vr' [= -> ->]%list_elem_of_singleton. unfold find_last in Ef. apply find_some in Ef as [Hin Hd]. apply list_elem_of_In in Hin.
    rewrite elem_of_reverse in Hin. split; [done|]. by apply negb_true_iff in Hd.
  - destruct (hash_lookup r q c) as [[id [[v vr]|]]|] eqn:Eh; [|by eapply Hlist..]. destruct (negb (vr_deleted vr)) eqn:Hd; [|by eapply Hlist].
    injection H as <-. apply hash_lookup_inv in Eh as [Hv Hid]; [|done]. exists vr. split; [done|]. split; [done|]. by apply negb_true_iff.
Qed.

(** The answer without the lock: the version asked for is there. *)
Lemma fast_path_live r q d normalize out : snap_wf (rd_snap r) → 0 < d_version d ≤ i32_max → 0 ≤ d_id d ≤ i32_max →
  register_fast_path r q d normalize = Ok (Some out) → live_at (rd_snap r) q (d_version d) (d_id d).
Proof.
  intros Hwf Hv Hi. assert (as_u32 (d_version d) = d_version d ∧ as_u32 (d_id d) = d_id d) as [Ev Ei]
    by (split; apply as_u32_small; unfold is_u32, u32_max, i32_max in *; lia).
  unfold register_fast_path. destruct (ConfigRecord.has_defaults_or_overrides _); [done|]. cbv zeta. rewrite Ev, Ei. intros H.
  apply bind_Ok in H as ([e|] & He & H); [|done]. apply lookup_live in He; [|done].
  rewrite !(bool_decide_eq_false_2 (d_version d = _)) in H by lia. cbn [orb] in H. rewrite (bool_decide_eq_true_2 (0 ≤ d_id d)) in H by lia.
  rewrite (bool_decide_eq_true_2 (0 < d_version d)) in H by lia. cbn [andb] in H. case_bool_decide as Hid; [|done]. rewrite Hid in He.
  case_bool_decide as Hver; [by rewrite Hver in He|]. destruct (get_exact r q _ false) as [[v vr]|] eqn:Ex; [|done].
  apply get_exact_in in Ex as (Hin & [|[= <-]] & Hd); [done|]. apply bind_Ok in H as (o & Ho & H). apply entity_inv in Ho as [_ Ho].
  case_bool_decide as Hoid; [|done]. exists vr. split; [by apply list_versions_get|]. split; [congruence|]. apply Hd. by right.
Qed.

(** A plan that brings a version and an id stores exactly those. *)
Lemma registration_asked m view p : 0 < d_version (rg_draft m) ≤ i32_max → 0 ≤ d_id (rg_draft m) ≤ i32_max → register_plan m view = Ok p →
  ∃ d c sid, registration m view p d c sid (d_version (rg_draft m)) (d_id (rg_draft m)).
Proof.
  intros Hv Hi Hp. apply register_plan_inv in Hp as [(_ & _ & ?)|(d & c & sid & version & id & Hn)]; [lia|].
  assert (as_u32 (d_version (rg_draft m)) = d_version (rg_draft m) ∧ as_u32 (d_id (rg_draft m)) = d_id (rg_draft m)) as [Ev Ei]
    by (split; apply as_u32_small; unfold is_u32, u32_max, i32_max in *; lia).
  assert (version = d_version (rg_draft m)) as <-.
  { pose proof (rn_version _ _ _ _ _ _ _ _ Hn) as Hc. unfold choose_version in Hc. destruct (rn_draft _ _ _ _ _ _ _ _ Hn) as [_ Ed]. rewrite Ed, Ev in Hc.
    rewrite bool_decide_eq_false_2 in Hc by lia. destruct (_ && _); [discriminate Hc|]. by injection Hc. }
  assert (sid = d_id (rg_draft m)) as ->.
  { pose proof (rn_stored _ _ _ _ _ _ _ _ Hn) as Hs. destruct (rn_draft _ _ _ _ _ _ _ _ Hn) as [Ed _]. unfold find_stored in Hs. cbv zeta in Hs. rewrite Ed, Ei in Hs.
    rewrite (bool_decide_eq_false_2 (d_id (rg_draft m) < 0)) in Hs by lia. cbn [orb] in Hs.
    assert (∀ x, d_id (rg_draft m) = x → as_i32 x = d_id (rg_draft m)) as Hsmall.
    { intros x <-. apply as_i32_small. unfold is_i32, i32_min, i32_max in *. lia. }
    destruct (hash_lookup _ _ _) as [[h [[v vr]|]]|]; [| |by injection Hs].
    - case_bool_decide; [|by injection Hs]. destruct (_ && _); [discriminate Hs|]. injection Hs as <-. auto.
    - case_bool_decide; [|by injection Hs]. injection Hs as <-. auto. }
  assert (id = d_id (rg_draft m)) as ->; [|by eauto].
  pose proof (rn_id _ _ _ _ _ _ _ _ Hn) as Hid. apply choose_id_cases in Hid as [[_ ->]|[? _]]; [done|lia].
Qed.

Lemma register_contract s q req v id reg reg' o : registry_sound reg → Qualified.parse s = Ok q →
  rq_version req = Some v → rq_id req = Some id → 0 < v ≤ i32_max → 0 ≤ id ≤ i32_max → run ambient (register_new s req false) reg = (reg', o) →
  registry_sound reg' ∧ match o with
  | Ok _ => live_at (reg_snap reg') q v id ∧
            ∀ q' v', (q', v') ≠ (q, v) → registry_version reg' q' v' = registry_version reg q' v' ∨
                       (q' = q ∧ ∃ x, registry_version reg q v' = Some x ∧ vr_deleted x = true)
  | Err _ => ∀ q' v', registry_version reg' q' v' = registry_version reg q' v'
  end.
Proof.
  intros Hs Hq Hrv Hri Hv Hi E. unfold register_new in E. destruct (is_valid_subject s); [|by injection E as <- <-]. rewrite Hq in E. cbn [mbind result_bind] in E.
  set (m := mkRegister q (draft_from req) false) in *.
  assert (d_version (rg_draft m) = v ∧ d_id (rg_draft m) = id) as [Edv Edi] by (by cbn; rewrite Hrv, Hri).
  assert (is_i32 (d_id (rg_draft m))) as Hty by (rewrite Edi; unfold is_i32, i32_min, i32_max in *; lia).
  assert (well_typed m) as Hwt by exact Hty. destruct (run_outcome m reg reg' o Hwt Hs E) as [[Hsame Ho]|(p & Hp & -> & Hwf' & Hver & Hnext)].
  - assert (∀ q' v', registry_version reg' q' v' = registry_version reg q' v') as Hall by (intros; unfold registry_version; by rewrite Hsame).
    split; [unfold registry_sound; by rewrite Hsame|]. destruct o as [out|e]; [|done]. split; [|intros; left; apply Hall].
    rewrite Hsame, <-Edv, <-Edi. eapply (fast_path_live (vw_reader (glanced reg))); [apply Hs|by rewrite Edv|by rewrite Edi|exact Ho].
  - destruct Hs as [Hwf Hspace]. destruct (registration_asked m (planned reg) p) as (d & c & sid & Hn); [by rewrite Edv|by rewrite Edi|exact Hp|].
    rewrite Edv, Edi in Hn. destruct (registration_state _ _ _ _ _ _ _ _ Hn Hty Hwf Hspace) as [_ Hget Hnx _]. cbn [planned read_view vw_reader reader rd_snap cache_acts with_caches reg_snap] in Hget, Hnx.
    assert (∀ q' v', registry_version reg' q' v' = if decide (context q' = context q ∧ subject q' = subject q ∧ v' = v) then Some (mkVersion id false (vw_now (planned reg)))
      else if decide (context q' = context q ∧ subject q' = subject q ∧ replaced (vw_reader (planned reg)) q v id v') then None else registry_version reg q' v') as Hall.
    { intros q' v'. unfold registry_version. rewrite Hver. exact (Hget (context q') (subject q') v'). }
    split; [split; [done|]|split].
    + intros ctx. rewrite Hnext, Hnx. specialize (Hspace ctx). destruct (decide _); unfold u32_max, i32_max in *; lia.
    + exists (mkVersion id false (vw_now (planned reg))). split_and!; [|done..]. change (registry_version reg' q v = Some (mkVersion id false (vw_now (planned reg)))).
      by rewrite Hall, decide_True.
    + intros q' v' Hne. rewrite Hall. destruct (decide _) as [(E1 & E2 & ->)|_]; [destruct q, q'; cbn in *; congruence|].
      destruct (decide _) as [(E1 & E2 & x & Hx & Hd & _)|_]; [|by left]. right. split; [destruct q, q'; cbn in *; congruence|]. by exists x.
Qed.

(** ** Deletion *)

(** What fails in a commit is the store. *)
Definition fails_in_store {A} (m : ApiResult A) : Prop := ∀ e, m = Err e → code e = 50001.
Lemma fails_in_store_bind {A B} (m : ApiResult A) (f : A → ApiResult B) : fails_in_store m → (∀ a, fails_in_store (f a)) → fails_in_store (a ← m; f a).
Proof. intros Hm Hf e. destruct m as [a|e']; [apply Hf|]. intros [= <-]. by apply Hm. Qed.
Lemma fails_in_store_ok {A} (a : A) : fails_in_store (Ok a).
Proof. done. Qed.
Lemma fails_in_store_put `{!Serde T} st t cf k (x : T) : fails_in_store (TxM.put st t cf k x).
Proof. apply fails_in_store_bind; [|done]. intros e. unfold corrupt. destruct (to_vec x); cbn; [done|]. by intros [= <-]. Qed.
Lemma fails_in_store_fold {A B} (f : A → B → ApiResult B) l : (∀ x b, fails_in_store (f x b)) →
  ∀ m, fails_in_store m → fails_in_store (foldl (λ acc x, b ← acc; f x b) m l).
Proof. intros Hf. induction l as [|x l IH]; intros m Hm; [done|]. cbn [foldl]. apply IH. by apply fails_in_store_bind. Qed.
Lemma apply_write_store st a w t : fails_in_store (TxM.apply_write st a w t).
Proof.
  destruct w; cbn [TxM.apply_write]; unfold TxM.put_schema, TxM.put_version, TxM.put_config, TxM.put_mode, TxM.put_exporter;
    first [apply fails_in_store_ok|apply fails_in_store_put|apply fails_in_store_bind; [apply fails_in_store_put|intros; apply fails_in_store_ok]].
Qed.

Lemma commit_plan_store st (db db' : DB) a ws evs e : commit_plan st db a ws evs = (db', Err (Api e)) → code e = 50001.
Proof.
  unfold commit_plan, tx, stored_log_seq, get_meta_u64, get_meta, backend, api.
  destruct (get_cf db _ _) as [v|msg]; cbn [map_err mbind result_bind]; [|by intros [= _ <-]].
  destruct (match v with Some v => _ | None => _ end) as [n|f] eqn:En; cbn [mbind result_bind].
  2: { intros [= _ ->]. destruct v as [v|]; [|done]. unfold or_panic, ok_or in En. by destruct (be_u64 v). }
  assert (∀ t, fails_in_store (t ← TxM.apply_writes st a ws t; TxM.append_logs st evs t)) as Hall.
  { intros t. apply fails_in_store_bind; [|intros t']; (apply fails_in_store_fold; [|done]); intros x b; [apply apply_write_store|].
    apply fails_in_store_bind; [apply fails_in_store_put|done]. }
  specialize (Hall (mkTx [] n false [])). destruct (TxM.apply_writes _ _ _ _ ≫= _) as [t|e'] eqn:Et; [|intros [= _ <-]; by apply Hall].
  unfold TxM.commit, write. destruct (write_opt _ _) as [db1 [u|msg]]; cbn; [done|]. by intros [= _ <-].
Qed.

Lemma live_exact r q v x : snap_wf (rd_snap r) → Snap.get_version (rd_snap r) (context q) (subject q) v = Some x → vr_deleted x = false →
  ∀ del, get_exact r q (Exact v) del = Some (v, x).
Proof.
  intros Hwf Hx Hd del. pose proof Hx as Hin. apply list_versions_get in Hin; [|done]. apply list_elem_of_In in Hin.
  unfold get_exact. destruct (List.find _ _) as [[v' x']|] eqn:Ef.
  - apply find_some in Ef as [Hin' Hb]. cbn in Hb. apply andb_true_iff in Hb as [Hb _]. apply bool_decide_eq_true in Hb as ->.
    apply list_elem_of_In, list_versions_get in Hin'; [|done]. congruence.
  - apply (find_none _ _ Ef) in Hin. cbn in Hin. rewrite bool_decide_eq_true_2, Hd in Hin by done. by rewrite orb_true_r in Hin.
Qed.

(** A live version is not refused as missing. *)
Lemma delete_plan_live q v view x a : snap_wf (rd_snap (vw_reader view)) → Snap.get_version (rd_snap (vw_reader view)) (context q) (subject q) v = Some x →
  vr_deleted x = false → decide_plan (mkDeleteVersion q (Exact v) false) view = Err (Api a) → code a ∉ GONE.
Proof.
  intros Hwf Hx Hd. pose proof (live_exact (vw_reader view) q v x Hwf Hx Hd) as Hex. unfold decide_plan. cbn [gate plan delete_version_mutation].
  unfold delete_version_plan. cbn [dv_subject dv_spec dv_permanent]. rewrite !Hex. cbv zeta. rewrite (bool_decide_eq_false_2 (_ = None)) by done.
  cbn [andb negb refuse mbind result_bind]. unfold check_not_referenced, refuse at 1.
  assert (∀ c, c ∉ GONE ↔ c ≠ 40402 ∧ c ≠ 40406 ∧ c ≠ 40401) as Hgone by (intros c; unfold GONE; rewrite !not_elem_of_cons; set_solver).
  rewrite Hgone. destruct (negb _); cbn [fail mbind result_bind]; [by intros [= <-]|].
  unfold ModeGate.check. cbn [intent]. destruct (mode_for _ _); by intros [= <-].
Qed.

Lemma delete_contract s q v reg reg' o : registry_sound reg → Qualified.parse s = Ok q → run ambient (delete_version_new s (Exact v) false) reg = (reg', o) →
  registry_sound reg' ∧ match o with
  | Ok _ => (∀ x, registry_version reg q v = Some x → ∃ y, registry_version reg' q v = Some y ∧ vr_id y = vr_id x ∧ vr_deleted y = true) ∧
            ∀ q' v', (q', v') ≠ (q, v) → registry_version reg' q' v' = registry_version reg q' v'
  | Err e => (∀ q' v', registry_version reg' q' v' = registry_version reg q' v') ∧
             ∀ a x, e = Api a → code a ∈ GONE → registry_version reg q v = Some x → vr_deleted x = true
  end.
Proof.
  intros Hs Hq E. unfold delete_version_new in E. rewrite Hq in E. cbn [mbind result_bind] in E. set (m := mkDeleteVersion q (Exact v) false) in *.
  assert (well_typed m) as Hwt by exact I. destruct (run_outcome m reg reg' o Hwt Hs E) as [[Hsame Ho]|(p & Hp & -> & Hwf' & Hver & Hnext)].
  - split; [unfold registry_sound; by rewrite Hsame|]. destruct o as [out|e]; [done|]. split; [intros; unfold registry_version; by rewrite Hsame|].
    intros a x -> Hgone Hx. destruct (vr_deleted x) eqn:Hd; [done|exfalso]. destruct Ho as [Ho|[Ho|(p & al & db' & Ho)]]; [done| |].
    + by apply (delete_plan_live q v (planned reg) x a (proj1 Hs) Hx Hd Ho).
    + apply commit_plan_store in Ho. rewrite Ho in Hgone. unfold GONE in Hgone. set_solver.
  - destruct Hs as [Hwf Hspace]. change (delete_version_plan m (planned reg) = Ok p) in Hp.
    destruct (delete_version_inv m (planned reg) p Hp Hwf) as (version & vr & Hex & Hout & Hvr & _ & Hd & Hws).
    apply get_exact_in in Hex as (_ & [|[= <-]] & _); [done|]. cbn [m dv_permanent dv_subject] in *.
    destruct (delete_version_effect m (planned reg) p Hwf Hp) as (vr' & Hvr' & _ & Hget). rewrite Hout in Hget. cbn [m dv_permanent dv_subject] in *.
    assert (∀ q' v', registry_version reg' q' v' = if decide (context q' = context q ∧ subject q' = subject q ∧ v' = v) then Some (soft vr') else registry_version reg q' v') as Hall.
    { intros q' v'. unfold registry_version. rewrite Hver. exact (Hget (context q') (subject q') v'). }
    split; [split; [done|]|split].
    + intros ctx. rewrite Hnext. destruct Hws as [Hws _]. specialize (Hspace ctx).
      rewrite uncounted_next; [exact Hspace|]. change (writes (T:=Output) p) with (writes (T:=Z) p). rewrite Hws, plan_ops_cons. apply Forall_app. split; [by repeat constructor|]. destruct (existsb _ _); by repeat constructor.
    + intros x Hx. exists (soft vr'). rewrite Hall, decide_True by done. split_and!; [done| |done]. rewrite Hout in Hvr'. cbn in Hvr'.
      unfold registry_version in Hx. cbn in *. congruence.
    + intros q' v' Hne. rewrite Hall. destruct (decide _) as [(E1 & E2 & ->)|_]; [destruct q, q'; cbn in *; congruence|done].
Qed.

#[export] Instance engine_target : RestoreTarget (RegistryState DB) (RegistryVerbs0 := engine_verbs ambient).
Proof.
  split.
  - intros s q req v id reg reg' o. apply register_contract.
  - intros s q v reg reg' o. apply delete_contract.
  - apply set_config_quiet.
  - apply set_mode_quiet.
  - apply delete_config_quiet.
  - apply delete_mode_quiet.
  - apply restore_exporter_quiet.
Qed.
End engine.
