(* ===== verification/BackupSpec.v ===== *)
(** Backups are complete: a dump of a registry records every version it has,
    with its id and whether it is deleted, and a restore of that dump brings
    all of them back. *)
From S2P Require Import Prelude SortedVec RustStr Errors Json Model Context Snapshot Keys Plan Store Durable Transaction MemDb Changelog Recovery SchemaLayer JavaOrder Views Registry Queries Mutations ExporterVerbs Engine VerbSafety Consistency Register Deletes Findings Dump DerivedJson Restore RestoreSpec RestoreEngine.

Open Scope string_scope.
Open Scope Z_scope.
Open Scope list_scope.

(** * One row *)

(** The fields of a row that a restore reads, as the view had them. *)
Lemma row_fields (v : SchemaView) deleted row :
  (row ← index_set "type" (VString "schema") (to_value v); index_set "deleted" (VBool deleted) row) = Some row →
  0 ≤ sv_version v → 0 ≤ sv_id v < 2 ^ 63 →
  row_version row = sv_version v ∧ row_id row = Some (sv_id v) ∧ row_deleted row = deleted.
Proof.
  intros E Hv Hi. set (m := match to_value v with VObject m => m | _ => [] end). change (to_value v) with (VObject m) in E. unfold index_set in E. cbn [mbind option_bind] in E.
  assert (map_get "version" m = Some (int (sv_version v)) ∧ map_get "id" m = Some (int (sv_id v))) as [Ev Ei] by (split; reflexivity).
  clearbody m. assert (row = VObject (map_insert "deleted" (VBool deleted) (map_insert "type" (VString "schema") m))) as -> by congruence.
  unfold row_version, row_id, row_deleted. cbn [get]. rewrite !map_get_insert.
  repeat first [rewrite decide_True by done|rewrite decide_False by discriminate]. rewrite Ev, Ei. unfold int.
  rewrite !bool_decide_eq_true_2 by lia. cbn. by rewrite bool_decide_eq_true_2 by lia.
Qed.

Section dumped.
Context {formats : SchemaFormats} {exporter_to : ToValue ExporterRecord}.
Variable r : Reader.
Hypothesis Hwf : snap_wf (rd_snap r).

(** Versions and ids are in the range a registration gives them, and subjects
    read back as they are listed (a subject of the default context whose name
    begins like a context does not). *)
Record dumpable (s : Snapshot) : Prop := {
  db_range ctx subj v x : Snap.get_version s ctx subj v = Some x → 0 < v ≤ i32_max ∧ 0 ≤ vr_id x ≤ i32_max;
  db_name ctx subj : subj ∈ Snap.list_subject_names s ctx → Qualified.parse (qualify ctx subj) = Ok (mkQ ctx subj);
}.
Hypothesis Hnames : dumpable (rd_snap r).

(** A row that records a version. *)
Definition records_version (q : QualifiedSubject) (v : Z) (row : Value) : Prop :=
  ∃ x, Snap.get_version (rd_snap r) (context q) (subject q) v = Some x ∧
       row_version row = v ∧ row_id row = Some (vr_id x) ∧ row_deleted row = vr_deleted x.

Definition live_versions (s : string) : list Z := match list_versions r s false false with Ok l => l | Err _ => [] end.

Lemma live_versions_elem s q v x : Qualified.parse s = Ok q → Snap.get_version (rd_snap r) (context q) (subject q) v = Some x →
  v ∈ live_versions s ↔ vr_deleted x = false.
Proof using Hwf.
  intros Hq Hx. unfold live_versions, list_versions. rewrite Hq. cbn [api map_err mbind result_bind orb].
  pose proof Hx as Hin. apply list_versions_get in Hin; [|done]. fold (versions_of r q) in Hin.
  destruct (has_subjects r q false) eqn:Eh; cbn.
  - rewrite list_elem_of_fmap. split.
    + intros ([v' x'] & -> & [Hd Hin']%list_elem_of_filter). apply list_versions_get in Hin'; [|done]. cbn in *. assert (x' = x) as -> by congruence. by apply negb_true_iff.
    + intros Hd. exists (v, x). split; [done|]. apply list_elem_of_filter. cbn. by rewrite Hd.
  - split; [by intros ?%elem_of_nil|]. intros Hd. exfalso. apply orb_false_iff in Eh as [Eh _]. 
    apply list_elem_of_In in Hin. apply not_true_iff_false in Eh. apply Eh, existsb_exists. exists (v, x). split; [done|]. unfold is_live. cbn. by rewrite Hd.
Qed.

Lemma dump_row_records s q v row : Qualified.parse s = Ok q → is_Some (Snap.get_version (rd_snap r) (context q) (subject q) v) →
  dump_row r s (live_versions s) v = Ok row → records_version q v row.
Proof using Hwf Hnames.
  intros Hq [x Hx] H. unfold dump_row in H. apply bind_Ok in H as (view & Hv & H).
  assert (get_exact r q (Exact v) true = Some (v, x)) as Hex.
  { unfold get_exact. pose proof Hx as Hin. apply list_versions_get in Hin; [|done]. apply list_elem_of_In in Hin.
    destruct (List.find _ _) as [[v' x']|] eqn:Ef.
    - apply find_some in Ef as [Hin' Hb]. cbn in Hb. rewrite andb_true_r in Hb. apply bool_decide_eq_true in Hb as ->.
      apply list_elem_of_In, list_versions_get in Hin'; [|done]. congruence.
    - apply (find_none _ _ Ef) in Hin. cbn in Hin. by rewrite bool_decide_eq_true_2 in Hin. }
  unfold get_version_formatted, version_or_error in Hv. rewrite Hq in Hv. cbn [api map_err mbind result_bind] in Hv. unfold get_using_contexts in Hv. rewrite Hex in Hv.
  cbn [mbind result_bind] in Hv. apply bind_Ok in Hv as (rec & _ & Hv). injection Hv as <-.
  unfold or_panic, ok_or in H. destruct (index_set _ _ _ ≫= _) as [row'|] eqn:Er; [|done]. injection H as <-.
  destruct (db_range _ Hnames _ _ _ _ Hx) as [Hvr Hir].
  apply row_fields in Er as (E1 & E2 & E3); [|cbn in *; unfold i32_max in *; lia..].
  exists x. split_and!; [done..|]. rewrite E3. rewrite (bool_decide_ext _ _ (live_versions_elem s q v x Hq Hx)).
  destruct (vr_deleted x); [by rewrite bool_decide_eq_false_2|by rewrite bool_decide_eq_true_2].
Qed.

(** * One subject *)

(** The rows of a subject, as a dump computes them. *)
Definition row_of (s : string) (row : Value) : Prop :=
  ∃ q v, Qualified.parse s = Ok q ∧ is_Some (Snap.get_version (rd_snap r) (context q) (subject q) v) ∧ dump_row r s (live_versions s) v = Ok row.

Lemma all_versions_elem s q all v : Qualified.parse s = Ok q → list_versions r s true false = Ok all →
  v ∈ all ↔ is_Some (Snap.get_version (rd_snap r) (context q) (subject q) v).
Proof using Hwf.
  intros Hq. unfold list_versions. rewrite Hq. cbn [api map_err mbind result_bind orb]. destruct (has_subjects _ _ _); [|done]. intros [= <-].
  rewrite list_elem_of_fmap. split.
  - intros ([v' x] & -> & [_ Hin]%list_elem_of_filter). apply list_versions_get in Hin; [|done]. by exists x.
  - intros [x Hx]. exists (v, x). split; [done|]. apply list_elem_of_filter. split; [done|]. by apply list_versions_get.
Qed.

Lemma Forall2_elem_l {A B} (P : A → B → Prop) l k x : Forall2 P l k → x ∈ l → ∃ y, y ∈ k ∧ P x y.
Proof. intros H [i Hi]%list_elem_of_lookup. destruct (Forall2_lookup_l _ _ _ _ _ H Hi) as (y & Hy & HP). exists y. split; [by eapply list_elem_of_lookup_2|done]. Qed.
Lemma Forall2_elem_r {A B} (P : A → B → Prop) l k y : Forall2 P l k → y ∈ k → ∃ x, x ∈ l ∧ P x y.
Proof. intros H [i Hi]%list_elem_of_lookup. destruct (Forall2_lookup_r _ _ _ _ _ H Hi) as (x & Hx & HP). exists x. split; [by eapply list_elem_of_lookup_2|done]. Qed.

Lemma dump_subject_rows d s q d' : Qualified.parse s = Ok q → dump_subject r d s = Ok d' → ∃ rows,
  (∀ row, row ∈ rows → row_of s row) ∧
  (∀ v, is_Some (Snap.get_version (rd_snap r) (context q) (subject q) v) → ∃ row, row ∈ rows ∧ records_version q v row) ∧
  ((rows = [] ∧ d' = d) ∨ (subjects d' = <[s := rows]> (subjects d) ∧ subject_order d' = subject_order d ++ [s])).
Proof using Hwf Hnames.
  intros Hq. unfold dump_subject. fold (live_versions s). cbv zeta. intros H. apply bind_Ok in H as (all & Hall & H).
  apply bind_Ok in H as (rows & Hrows & H). apply mapM_result_Ok in Hrows. exists rows. split_and!.
  - intros row Hrow. destruct (Forall2_elem_r _ _ _ _ Hrows Hrow) as (v & Hv & Hd). exists q, v. rewrite (all_versions_elem s q all) in Hv by done. done.
  - intros v Hv. pose proof Hv as Hv'. rewrite <-(all_versions_elem s q all) in Hv' by done. destruct (Forall2_elem_l _ _ _ _ Hrows Hv') as (row & Hrow & Hd).
    exists row. split; [done|]. by eapply dump_row_records.
  - destruct rows as [|row rows]; [left; by injection H|right]. apply bind_Ok in H as (c & _ & H). apply bind_Ok in H as (m & _ & [= <-]). done.
Qed.

(** * All subjects *)

(** What a dump of the subjects [pre] holds. *)
Record dumped (pre : list string) (d : Dump) : Prop := {
  du_has s q v : s ∈ pre → Qualified.parse s = Ok q → is_Some (Snap.get_version (rd_snap r) (context q) (subject q) v) →
    s ∈ subject_order d ∧ ∃ rows row, subjects d !! s = Some rows ∧ row ∈ rows ∧ records_version q v row;
  du_only s rows row : subjects d !! s = Some rows → row ∈ rows → row_of s row;
  du_listed s : is_Some (subjects d !! s) → s ∈ pre;
}.

Lemma dump_subject_dumped pre d s d' : dumped pre d → dump_subject r d s = Ok d' → dumped (pre ++ [s]) d'.
Proof using Hwf Hnames.
  intros [Hhas Honly Hlisted] H. destruct (parse_total s) as [q Hq].
  destruct (dump_subject_rows d s q d' Hq H) as (rows & Hrow & Hall & Hcase). split.
  - intros s' q' v Hin Hq' Hv. destruct (decide (s' = s)) as [->|Hne].
    + assert (q' = q) as -> by congruence. destruct (Hall v Hv) as (row & Hr & Hrec). destruct Hcase as [[-> _]|[Es Eo]]; [by apply elem_of_nil in Hr|].
      rewrite Es, Eo. split; [apply elem_of_app; right; by apply list_elem_of_singleton|]. exists rows, row. by rewrite lookup_insert_eq.
    + apply elem_of_app in Hin as [Hin|Hin%list_elem_of_singleton]; [|done]. destruct (Hhas s' q' v Hin Hq' Hv) as (Ho & rows' & row & Hs' & Hr).
      destruct Hcase as [[_ ->]|[Es Eo]]; [by eauto|]. rewrite Es, Eo. split; [apply elem_of_app; by left|]. exists rows', row. by rewrite lookup_insert_ne.
  - intros s' rows' row Hs' Hr. destruct Hcase as [[_ ->]|[Es _]]; [by eapply Honly|]. rewrite Es in Hs'.
    apply lookup_insert_Some in Hs' as [[-> ->]|[_ Hs']]; [by apply Hrow|by eapply Honly].
  - intros s' Hs'. apply elem_of_app. destruct Hcase as [[_ ->]|[Es _]]; [left; auto|]. rewrite Es in Hs'. apply lookup_insert_is_Some in Hs' as [->|[_ Hs']]; [right; by left|left; auto].
Qed.

Lemma foldM_inv {A B} (f : B → A → Outcome B) (I : list A → B → Prop) l b b' :
  (∀ pre x b b', I pre b → f b x = Ok b' → I (pre ++ [x]) b') → I [] b → foldM f b l = Ok b' → I l b'.
Proof.
  intros Hf. assert (∀ post pre b, I pre b → foldM f b post = Ok b' → I (pre ++ post) b') as Hgen; [|by intros H0; apply (Hgen l [])].
  induction post as [|x post IH]; intros pre b1 H1; cbn [foldM]; [intros [= <-]; by rewrite app_nil_r|].
  intros H. apply bind_Ok in H as (b2 & H2 & H). replace (pre ++ x :: post) with ((pre ++ [x]) ++ post) by (by rewrite <-app_assoc). eauto.
Qed.

(** ** The listing *)

Lemma list_contexts_elem s ctx : ctx ∈ known_contexts s → ctx ∈ Snap.list_contexts s.
Proof.
  intros H. unfold Snap.list_contexts, sort_vec. rewrite merge_sort_Permutation. assert (ctx ∈ merge_sort kle (elements (known_contexts s))) as H'
    by (rewrite merge_sort_Permutation; by apply elem_of_elements). case_bool_decide; [done|by right].
Qed.
Lemma subject_names_elem s ctx subj : subj ∈ Snap.list_subject_names s ctx ↔ is_Some (Snapshot.subjects (ctx_of s ctx) !! subj).
Proof.
  unfold Snap.list_subject_names, ctx_of. destruct (ctxs s !! ctx) as [c|]; cbn; [apply elem_of_ord_keys|]. rewrite elem_of_nil. split; [done|]. by intros [].
Qed.

Lemma listed_everything listed : list_subjects r (Some ":*:") true false = Ok listed →
  (∀ s, s ∈ listed → ∃ ctx subj, s = qualify ctx subj ∧ Qualified.parse s = Ok (mkQ ctx subj)) ∧
  ∀ q v, is_Some (Snap.get_version (rd_snap r) (context q) (subject q) v) →
    Qualified.qualified q ∈ listed ∧ Qualified.parse (Qualified.qualified q) = Ok q.
Proof using Hwf Hnames.
  unfold list_subjects, parse_prefix. change (Qualified.parse ":*:") with (Ok (E:=ApiError) (mkQ "*" "")). cbn [api map_err mbind result_bind context subject].
  intros [= <-]. split.
  - intros s. unfold sort_vec. rewrite merge_sort_Permutation. intros Hs. apply list_elem_of_bind in Hs as (ctx & Hs & _). apply list_elem_of_bind in Hs as (subj & Hs & Hin).
    destruct (_ || _); [|by apply elem_of_nil in Hs]. apply list_elem_of_singleton in Hs as ->. exists ctx, subj. split; [done|]. by apply (db_name _ Hnames).
  - intros q v [x Hx]. pose proof Hx as Hx'. rewrite get_version_ctx in Hx'. unfold version_of in Hx'.
    destruct (Snapshot.subjects (ctx_of (rd_snap r) (context q)) !! subject q) as [vs|] eqn:Evs; [|done].
    assert (subject q ∈ Snap.list_subject_names (rd_snap r) (context q)) as Hname by (apply subject_names_elem; by rewrite Evs).
    split; [|unfold Qualified.qualified; rewrite (db_name _ Hnames) by done; by destruct q]. unfold sort_vec. rewrite merge_sort_Permutation.
    apply list_elem_of_bind. exists (context q). split; [|apply list_contexts_elem, (wf_known _ Hwf _ (subject q)); by rewrite Evs].
    apply list_elem_of_bind. exists (subject q). split; [|done].
    apply list_versions_get in Hx; [|done]. unfold included. rewrite (bool_decide_eq_false_2 (_ = [])); [|intros E; rewrite E in Hx; by apply elem_of_nil in Hx].
    rewrite orb_true_r. by left.
Qed.

(** ** The whole dump *)

Theorem backup_complete stored get_exporter head d : dump_local r stored get_exporter head None = Ok d →
  restorable d ∧ ∀ q v x, Snap.get_version (rd_snap r) (context q) (subject q) v = Some x →
    let s := Qualified.qualified q in
    s ∈ subject_order d ∧ Qualified.parse s = Ok q ∧
    ∃ rows row, subjects d !! s = Some rows ∧ row ∈ rows ∧ row_version row = v ∧ row_id row = Some (vr_id x) ∧ row_deleted row = vr_deleted x.
Proof using Hwf Hnames.
  unfold dump_local. cbv zeta. intros H. apply bind_Ok in H as (c & _ & H). apply bind_Ok in H as (m & _ & H).
  apply bind_Ok in H as (d1 & H1 & H). apply bind_Ok in H as (listed & Hl & H). apply bind_Ok in H as (d2 & H2 & H).
  apply bind_Ok in H as (es & _ & H). apply bind_Ok in H as (es' & _ & [= <-]). cbn [default] in Hl.
  apply (foldM_inv _ (λ _ d, subjects d = ∅)) in H1; [|intros pre ctx b b' Hb Hc; unfold dump_context in Hc; apply bind_Ok in Hc as (c' & _ & Hc); by apply bind_Ok in Hc as (m' & _ & [= <-])|done].
  apply (foldM_inv _ dumped) in H2; [|by intros; eapply dump_subject_dumped|].
  2: { split; [by intros s q v ?%elem_of_nil|intros s rows row; by rewrite H1, lookup_empty|intros s; rewrite H1, lookup_empty; by intros []]. }
  destruct (listed_everything listed Hl) as [Hspelled Hthere]. destruct H2 as [Hhas Honly Hlisted]. split; [split|]; cbn [subjects subject_order].
  - intros s rows row Hs Hr. destruct (Honly s rows row Hs Hr) as (q & v & Hq & Hv & Hd).
    destruct (dump_row_records s q v row Hq Hv Hd) as (x & Hx & -> & -> & _). destruct (db_range _ Hnames _ _ _ _ Hx). by eauto.
  - intros s rows a b Hs Ha Hb E. destruct (Honly s rows a Hs Ha) as (q & va & Hq & Hva & Hda), (Honly s rows b Hs Hb) as (q' & vb & Hq' & Hvb & Hdb).
    assert (q' = q) as -> by congruence. destruct (dump_row_records s q va a Hq Hva Hda) as (x & _ & Ea & _), (dump_row_records s q vb b Hq Hvb Hdb) as (y & _ & Eb & _).
    assert (va = vb) as -> by congruence. congruence.
  - intros s s' Hs Hs' E. destruct (Hspelled s (Hlisted s Hs)) as (ctx & subj & -> & Eq), (Hspelled s' (Hlisted s' Hs')) as (ctx' & subj' & -> & Eq'). congruence.
  - intros q v x Hx. destruct (Hthere q v) as [Hin Hq]; [by exists x|]. destruct (Hhas _ q v Hin Hq) as (Ho & rows & row & Hs & Hr & y & Hy & E1 & E2 & E3); [by exists x|].
    assert (y = x) as -> by congruence. split_and!; [done..|]. exists rows, row. done.
Qed.
End dumped.

(** * There and back *)

Section there_and_back.
Context {formats : SchemaFormats} `{!RocksDB DB}.
Context `{!Serde SchemaRecord, !Serde VersionRecord, !Serde ConfigRecord.t, !Serde Mode,
          !Serde LogEvent, !Serde ExporterRecord}.
Context {exporter_to : ToValue ExporterRecord} {exporter_from : FromValue ExporterRecord}.
Variable ambient : RegistryState DB → Ambient.

(** The dump of a registry: its snapshot, and the exporters of its store. *)
Definition backup (reg : RegistryState DB) (head : Value) : Outcome Dump :=
  dump_local (reader reg) (api (list_exporters (reg_store reg) (reg_db reg)))
    (λ name, api (Store.get_exporter (reg_store reg) (reg_db reg) name)) head None.
(** A restore, with as many steps as the dump can need. *)
Definition restore (d : Dump) (dry_run : bool) (reg : RegistryState DB) : option (RegistryState DB * Outcome Restored) :=
  restore_local (verbs := engine_verbs ambient) (S (size (all_keys d))) d dry_run reg.

(** A restore ends, whatever the dump holds and however its references run. *)
Theorem engine_restore_ends d dry_run reg : ∃ reg' o, restore d dry_run reg = Some (reg', o).
Proof. destruct (restore_ends (verbs := engine_verbs ambient) d dry_run (S (size (all_keys d))) ltac:(lia) reg) as [[reg' o] E]. by exists reg', o. Qed.

(** (C30) What was backed up comes back: if a dump of one registry is restored into
    another, whatever that held, then every version of the first is in the
    second, under the same id, and deleted exactly if it was. *)
Theorem backup_restores source head d target target' out :
  snap_wf (reg_snap source) → dumpable (reg_snap source) → registry_sound target →
  backup source head = Ok d → restore d false target = Some (target', Ok out) →
  ∀ q v x, registry_version source q v = Some x →
    ∃ y, registry_version target' q v = Some y ∧ vr_id y = vr_id x ∧ vr_deleted y = vr_deleted x.
Proof.
  intros Hwf Hnames Hs Hb Hr q v x Hx. destruct (backup_complete (reader source) Hwf Hnames _ _ _ _ Hb) as [Hd Hall].
  destruct (Hall q v x Hx) as (Ho & Hq & rows & row & Hrows & Hrow & E1 & E2 & E3).
  destruct (restore_faithful (contract := engine_target ambient) d Hd _ target target' out Hs Hr _ rows row q Ho Hrows Hrow Hq) as (y & Hy & Eid & Edel).
  exists y. rewrite E1 in Hy. split; [exact Hy|]. split; congruence.
Qed.
End there_and_back.

(** * A backup and its restore *)

(** Names, versions and ids, checked on the maps. *)
Definition subject_dumpable (ctx subj : string) (vs : versions_t) : Prop :=
  match Qualified.parse (qualify ctx subj) with Ok q => q = mkQ ctx subj | Err _ => False end ∧ Forall (λ x : Z * VersionRecord, 0 < x.1 ≤ i32_max ∧ 0 ≤ vr_id x.2 ≤ i32_max) vs.
#[export] Instance subject_dumpable_dec ctx subj vs : Decision (subject_dumpable ctx subj vs).
Proof. unfold subject_dumpable. destruct (Qualified.parse _); apply _. Defined.
Lemma dumpable_check s : map_Forall (λ ctx c, map_Forall (subject_dumpable ctx) (Snapshot.subjects c)) (ctxs s) → dumpable s.
Proof.
  intros H. split.
  - intros ctx subj v x Hx. unfold Snap.get_version in Hx. destruct (ctxs s !! ctx) as [c|] eqn:Ec; [|done]. cbn [mbind option_bind] in Hx.
    destruct (Snapshot.subjects c !! subj) as [vs|] eqn:Es; [|done]. cbn [mbind option_bind] in Hx. unfold Snap.find_version in Hx.
    destruct (List.find _ vs) as [[v' x']|] eqn:Ef; [|done]. injection Hx as <-. apply find_some in Ef as [Hin Hb]. apply bool_decide_eq_true in Hb as ->.
    destruct (H ctx c Ec subj vs Es) as [_ Hall]. rewrite Forall_forall in Hall. apply list_elem_of_In in Hin. exact (Hall _ Hin).
  - intros ctx subj Hin. unfold Snap.list_subject_names in Hin. destruct (ctxs s !! ctx) as [c|] eqn:Ec; [|by apply elem_of_nil in Hin].
    apply elem_of_ord_keys in Hin as [vs Hvs]. destruct (H ctx c Ec subj vs Hvs) as [Hq _]. destruct (Qualified.parse _); [by subst|done].
Qed.

#[export] Instance demo_exporter_to : ToValue ExporterRecord := λ e, VString (ei_name (er_info e)).
#[export] Instance demo_exporter_from : FromValue ExporterRecord := λ _, Err "unknown".
Definition demo_ambient : RegistryState MemDB → Ambient := λ _, quiet_attempt.

(** [orders] has a deleted version and a live one that references [money]. *)
Definition shop_record (text : string) (refs : list SchemaReference) : SchemaRecord := mkSchemaRecord Avro text refs None None text text "guid".
Definition shop : RegistryState MemDB :=
  mkRegistry (mkSettings Backward false) demo_store (mkMem ∅ None)
    (Snap.apply_all empty_snap
      [OpSetNextId "." 4; OpPutVersion "." "money" 1 (mkVersion 1 false 7); OpPutVersion "." "orders" 1 (mkVersion 2 true 7); OpPutVersion "." "orders" 2 (mkVersion 3 false 7)])
    (list_to_map [(("." , 1), shop_record "m" []); ((".", 2), shop_record "o" []); ((".", 3), shop_record "p" [mkRef "money" "money" 1])]) ∅ ∅ [] [].
Definition shop_dump : Dump := match backup shop (VObject []) with Ok d => d | Err _ => empty_dump end.
Definition restored : RegistryState MemDB := match restore demo_ambient shop_dump false fresh_registry with Some (reg, _) => reg | None => fresh_registry end.

Lemma backup_restores_witness : ∃ y, registry_version restored (mkQ "." "orders") 1 = Some y ∧ vr_id y = 2 ∧ vr_deleted y = true.
Proof.
  apply (backup_restores demo_ambient shop (VObject []) shop_dump fresh_registry restored (mkRestored 2 3 1 1 1 0)) with (x := mkVersion 2 true 7).
  - apply apply_all_wf; [apply empty_snap_wf|]. repeat (split; [vm_compute; first [exact I|reflexivity|discriminate]|]). exact I.
  - apply dumpable_check. apply (bool_decide_unpack _). vm_compute. exact I.
  - split; [apply empty_snap_wf|]. intros ctx. vm_compute. split; [discriminate|reflexivity].
  - vm_compute. reflexivity.
  - vm_compute. reflexivity.
  - vm_compute. reflexivity.
Defined.

(** * Where a restore does not give back what was dumped: concrete runs of the
    backup and the restore of one container (backup.rs). *)

(** A dump, and what restoring it into an empty registry gives. *)
Definition dump_of (reg : RegistryState MemDB) : Dump := match backup reg (VObject []) with Ok d => d | Err _ => empty_dump end.
Definition brought_back (reg : RegistryState MemDB) : option (RegistryState MemDB * Outcome Restored) :=
  restore demo_ambient (dump_of reg) false fresh_registry.
Definition soft_delete (s : string) : DeleteSubject := mkDeleteSubject (mkQ "." s) false.

(** ** A chain of deleted subjects *)

(** [a] references [c], which references [b]; then all three are deleted, each
    when nothing live references it any more. *)
Definition chain : RegistryState MemDB :=
  let reg := request fresh_registry (register_in "." "b" "tb" [] (-1)) in
  let reg := request reg (register_in "." "c" "tc" [a_ref "b" "b" 1] (-1)) in
  let reg := request reg (register_in "." "a" "ta" [a_ref "c" "c" 1] (-1)) in
  request (request (request reg (soft_delete "a")) (soft_delete "c")) (soft_delete "b").

(** The dump of a legal registry cannot be restored: [b] is deleted again before
    [c], which still references it, and the restore stops half-way. *)
Theorem deleted_chain_not_restored :
  (Snap.list_versions (reg_snap chain) "." <$> ["a"; "b"; "c"]) = [[(1, mkVersion 3 true 7)]; [(1, mkVersion 1 true 7)]; [(1, mkVersion 2 true 7)]] ∧
  (λ x, match x.2 with Err (Api e) => code e | _ => 0 end) <$> brought_back chain = Some 42206.
Proof. split; vm_compute; reflexivity. Qed.

(** ** A read-only registry *)

Definition read_only : RegistryState MemDB :=
  request (request fresh_registry (register_in "." "a" "ta" [] (-1))) (mkSetMode None ReadonlyOverride false).

(** While the registry as a whole is READONLY_OVERRIDE, its dump gives that mode
    to every subject as its own, and a restore pins it there. *)
Theorem override_mode_pinned :
  Snap.get_mode (reg_snap read_only) (SubjectScope "." "a") = None ∧
  modes (dump_of read_only) = [(None, "READONLY_OVERRIDE"); (Some "a", "READONLY_OVERRIDE")] ∧
  (λ x, Snap.get_mode (reg_snap x.1) (SubjectScope "." "a")) <$> brought_back read_only = Some (Some ReadonlyOverride).
Proof. split_and!; vm_compute; reflexivity. Qed.

(** ** The configuration of an import *)

Definition configured_subject : RegistryState MemDB :=
  request (request fresh_registry (register_in "." "a" "ta" [] (-1)))
    (mkUpdate (Some (mkQ "." "a")) (ConfigRecord.mk (Some Full) None None None None None None None None None)).

(** A subject with a configuration of its own keeps the [normalize] that the
    import set on it: its configuration is merged into, not replaced. *)
Theorem import_normalize_kept :
  ConfigRecord.normalize <$> Snap.get_config (reg_snap configured_subject) (SubjectScope "." "a") = Some None ∧
  (λ x, ConfigRecord.normalize <$> Snap.get_config (reg_snap x.1) (SubjectScope "." "a")) <$> brought_back configured_subject = Some (Some (Some false)).
Proof. split; vm_compute; reflexivity. Qed.

(** ** The name of the level *)

(** A level under the name that requests use is not read. *)
Theorem request_level_not_read :
  from_value (VObject [("compatibility", VString "FULL")]) = Ok ConfigRecord.empty ∧
  ConfigRecord.compatibility_level <$> (match from_value (VObject [("compatibilityLevel", VString "FULL")]) with Ok c => Some c | Err _ => None end) = Some (Some Full).
Proof. split; vm_compute; reflexivity. Qed.
