(* ===== verification/Protobuf.v ===== *)
(** Comparison of Protobuf schemas (schema/protobuf.rs): the differences between
    a writer (the original) and a reader (the update), walked message by message
    and field by field, and how they are reported.

    The descriptors are those of the third-party crate prost_reflect, an
    interface here (class [Reflect]). *)
From S2P Require Import Prelude SortedVec RustStr Errors Json Model Context Snapshot Keys SchemaLayer JavaOrder.

Open Scope string_scope.
Open Scope nat_scope.
Open Scope list_scope.

(** * Descriptors *)

Inductive Label := LOptional | LRequired | LRepeated.
#[export] Instance Label_eq_dec : EqDecision Label.
Proof. solve_decision. Defined.

Inductive Syntax := Proto2 | Proto3.

(** prost_reflect's [Kind]; an enum is only ever recognized as one. *)
Inductive Kind (M : Type) :=
| KDouble | KFloat | KInt32 | KInt64 | KUint32 | KUint64 | KSint32 | KSint64 | KFixed32 | KFixed64
| KSfixed32 | KSfixed64 | KBool | KString | KBytes | KMessage (m : M) | KEnum.
Arguments KDouble {_}. Arguments KFloat {_}. Arguments KInt32 {_}. Arguments KInt64 {_}. Arguments KUint32 {_}.
Arguments KUint64 {_}. Arguments KSint32 {_}. Arguments KSint64 {_}. Arguments KFixed32 {_}. Arguments KFixed64 {_}.
Arguments KSfixed32 {_}. Arguments KSfixed64 {_}. Arguments KBool {_}. Arguments KString {_}. Arguments KBytes {_}.
Arguments KMessage {_}. Arguments KEnum {_}.

(** The accessors the comparison uses. A descriptor holds on to its pool, so an
    accessor needs nothing else. *)
Class Reflect := {
  DescriptorPool : Type;
  FileDescriptor : Type;
  MessageDescriptor : Type;
  FieldDescriptor : Type;
  OneofDescriptor : Type;
  get_file_by_name : DescriptorPool → string → option FileDescriptor;
  file_name : FileDescriptor → string;
  package_name : FileDescriptor → string;
  syntax : FileDescriptor → Syntax;
  messages : FileDescriptor → list MessageDescriptor;
  msg_name : MessageDescriptor → string;
  full_name : MessageDescriptor → string;
  msg_file : MessageDescriptor → FileDescriptor;
  is_map_entry : MessageDescriptor → bool;
  child_messages : MessageDescriptor → list MessageDescriptor;
  fields : MessageDescriptor → list FieldDescriptor;
  oneofs : MessageDescriptor → list OneofDescriptor;
  map_entry_key_field : MessageDescriptor → FieldDescriptor;
  map_entry_value_field : MessageDescriptor → FieldDescriptor;
  oneof_name : OneofDescriptor → string;
  is_synthetic : OneofDescriptor → bool;
  oneof_fields : OneofDescriptor → list FieldDescriptor;
  field_name : FieldDescriptor → string;
  number : FieldDescriptor → Z;
  field_kind : FieldDescriptor → Kind MessageDescriptor;
  is_map : FieldDescriptor → bool;
  containing_oneof : FieldDescriptor → option OneofDescriptor;
  field_file : FieldDescriptor → FileDescriptor;
  (* of the field's descriptor proto *)
  field_label : FieldDescriptor → Label;
  proto3_optional : FieldDescriptor → bool;
}.

(** What the crate documents of them. *)
Class ReflectLaws `{!Reflect} := {
  (** A nested message is named after the message around it. *)
  child_full_name m c : c ∈ child_messages m → full_name c = full_name m +:+ "." +:+ msg_name c;
  (** Keys and values of maps are not maps. *)
  map_entry_flat f e : is_map f = true → field_kind f = KMessage e →
    is_map (map_entry_key_field e) = false ∧ is_map (map_entry_value_field e) = false;
  (** No two fields of a message have the same number. *)
  number_unique m f g : f ∈ fields m → g ∈ fields m → number f = number g → f = g;
  (** The fields of a oneof are the fields of the message that say so. *)
  oneof_members m o f : o ∈ oneofs m → f ∈ oneof_fields o → f ∈ fields m ∧ containing_oneof f = Some o;
}.

(** * Differences *)

Definition ROOT : string := "__root__.proto".

Definition COMPATIBLE : list string := [
  "MESSAGE_ADDED"; "MESSAGE_MOVED"; "ENUM_ADDED"; "ENUM_REMOVED"; "ENUM_CONST_ADDED"; "ENUM_CONST_CHANGED"; "ENUM_CONST_REMOVED";
  "FIELD_ADDED"; "FIELD_REMOVED"; "FIELD_NAME_CHANGED"; "FIELD_STRING_OR_BYTES_LABEL_CHANGED"; "ONEOF_ADDED"; "ONEOF_REMOVED"; "ONEOF_FIELD_ADDED"].

Record Diff := mkDiff { df_kind : string; df_path : string }.
Definition incompatible (d : Diff) : bool := negb (bool_decide (df_kind d ∈ COMPATIBLE)).

Definition description (k p rl wl : string) : string :=
  if decide (k = "PACKAGE_CHANGED") then "The package at '" +:+ p +:+ "' in the " +:+ rl +:+ " schema does not match the package in the " +:+ wl +:+ " schema"
  else if decide (k = "MESSAGE_REMOVED") then "The " +:+ rl +:+ " schema is missing a MESSAGE type at path '" +:+ p +:+ "' in the " +:+ wl +:+ " schema"
  else if decide (k = "FIELD_KIND_CHANGED") then "The type of a field at path '" +:+ p +:+ "' in the " +:+ rl +:+ " schema does not match the " +:+ wl +:+ " schema"
  else if decide (k = "FIELD_SCALAR_KIND_CHANGED") then
    "The kind of a SCALAR field at path '" +:+ p +:+ "' in the " +:+ rl +:+ " schema does not match its kind in the " +:+ wl +:+ " schema"
  else if decide (k = "FIELD_NAMED_TYPE_CHANGED") then
    "The type of a MESSAGE field at path '" +:+ p +:+ "' in the " +:+ rl +:+ " schema does not match its type in the " +:+ wl +:+ " schema"
  else if decide (k = "FIELD_NUMERIC_LABEL_CHANGED") then
    "The label for a NUMERIC field at path '" +:+ p +:+ "' in the " +:+ rl +:+ " schema does not match its label in the " +:+ wl +:+ " schema"
  else if decide (k = "REQUIRED_FIELD_ADDED") then "A required field  at path '" +:+ p +:+ "' in the " +:+ rl +:+ " schema is missing in the " +:+ wl +:+ " schema"
  else if decide (k = "REQUIRED_FIELD_REMOVED") then "The " +:+ rl +:+ " schema is missing a required field at path: '" +:+ p +:+ "' in the " +:+ wl +:+ " schema"
  else if decide (k = "ONEOF_FIELD_REMOVED") then "The " +:+ rl +:+ " schema is missing a oneof field at path '" +:+ p +:+ "' in the " +:+ wl +:+ " schema"
  else if decide (k = "MULTIPLE_FIELDS_MOVED_TO_ONEOF") then
    "Multiple fields in the oneof at path '" +:+ p +:+ "' in the " +:+ rl +:+ " schema are outside a oneof in the " +:+ wl +:+ " schema"
  else if decide (k = "FIELD_MOVED_TO_EXISTING_ONEOF") then
    "A field in the oneof at path '" +:+ p +:+ "' in the " +:+ rl +:+ " schema is outside an existing oneof in the " +:+ wl +:+ " schema"
  else "".
Definition render (d : Diff) (rl wl : string) : string :=
  let q := str1 (byte 34) in
  "{errorType:" +:+ q +:+ df_kind d +:+ q +:+ ", description:" +:+ q +:+ description (df_kind d) (df_path d) rl wl +:+ q +:+ "}".

(** Where we are, what was found, and the messages being compared. The two
    schemas never change and are arguments. *)
Record Ctx := mkCtx { cx_path : list string; cx_diffs : list Diff; cx_stack : list string }.

(** A step of the comparison; [None] only when the fuel is used up. *)
Definition DM : Type := Ctx → option Ctx.
Definition dret : DM := Some.
Definition dseq (m n : DM) : DM := λ c, c ← m c; n c.
Fixpoint dall {A} (f : A → DM) (l : list A) : DM := match l with [] => dret | x :: l => dseq (f x) (dall f l) end.
Definition dwhen (b : bool) (m : DM) : DM := if b then m else dret.

Definition add (kind : string) : DM := λ c,
  Some (mkCtx (cx_path c) (cx_diffs c ++ [mkDiff kind ("#/" +:+ join "/" (cx_path c))]) (cx_stack c)).
Definition enter (p : string) : DM := λ c, Some (mkCtx (cx_path c ++ [p]) (cx_diffs c) (cx_stack c)).
Definition leave : DM := λ c, Some (mkCtx (removelast (cx_path c)) (cx_diffs c) (cx_stack c)).
(** [enter], the step, [leave]. *)
Definition within (p : string) (m : DM) : DM := dseq (enter p) (dseq m leave).
Definition push_stack (key : string) : DM := λ c, Some (mkCtx (cx_path c) (cx_diffs c) (cx_stack c ++ [key])).
Definition pop_stack : DM := λ c, Some (mkCtx (cx_path c) (cx_diffs c) (removelast (cx_stack c))).

(** * Field types *)

Inductive TypeKind := TScalar | TMap | TMessage.
#[export] Instance TypeKind_eq_dec : EqDecision TypeKind.
Proof. solve_decision. Defined.

Section proto.
Context `{!Reflect}.

Inductive FieldType :=
| FScalar (s : string)
| FEnum
| FMessage (m : MessageDescriptor)
| FMap (key value : FieldType).

Definition plain_type (k : Kind MessageDescriptor) : FieldType :=
  match k with
  | KMessage m => FMessage m
  | KEnum => FEnum
  | KDouble => FScalar "double"
  | KFloat => FScalar "float"
  | KInt32 => FScalar "int32"
  | KInt64 => FScalar "int64"
  | KUint32 => FScalar "uint32"
  | KUint64 => FScalar "uint64"
  | KSint32 => FScalar "sint32"
  | KSint64 => FScalar "sint64"
  | KFixed32 => FScalar "fixed32"
  | KFixed64 => FScalar "fixed64"
  | KSfixed32 => FScalar "sfixed32"
  | KSfixed64 => FScalar "sfixed64"
  | KBool => FScalar "bool"
  | KString => FScalar "string"
  | KBytes => FScalar "bytes"
  end.
(** [FieldType::of]. *)
Fixpoint type_of_fuel (fuel : nat) (f : FieldDescriptor) : option FieldType :=
  match fuel with
  | O => None
  | S fuel =>
    match is_map f, field_kind f with
    | true, KMessage entry =>
      k ← type_of_fuel fuel (map_entry_key_field entry); v ← type_of_fuel fuel (map_entry_value_field entry); Some (FMap k v)
    | _, k => Some (plain_type k)
    end
  end.
(** Maps hold no maps: two levels are enough. *)
Definition type_of (f : FieldDescriptor) : option FieldType := type_of_fuel 2 f.

Definition kind (t : FieldType) : TypeKind :=
  match t with FScalar _ | FEnum => TScalar | FMap _ _ => TMap | FMessage _ => TMessage end.

Definition scalar_kind (t : FieldType) : string :=
  match t with
  | FEnum => "GENERAL_NUMBER"
  | FScalar s =>
    if decide (s ∈ ["int32"; "int64"; "uint32"; "uint64"; "bool"]) then "GENERAL_NUMBER"
    else if decide (s ∈ ["sint32"; "sint64"]) then "SIGNED_NUMBER"
    else if decide (s ∈ ["string"; "bytes"]) then "STRING_OR_BYTES"
    else if decide (s ∈ ["fixed32"; "sfixed32"]) then "FIXED32"
    else if decide (s ∈ ["fixed64"; "sfixed64"]) then "FIXED64"
    else if decide (s = "float") then "FLOAT"
    else "DOUBLE"
  | _ => "ANY"
  end.

Definition oneof_of (f : FieldDescriptor) : option string :=
  o ← containing_oneof f; if is_synthetic o then None else Some (oneof_name o).

Definition explicit_label (f : FieldDescriptor) : option Label :=
  if bool_decide (is_Some (oneof_of f)) || is_map f then None else
  match syntax (field_file f) with
  | Proto3 => if decide (field_label f = LRepeated) then Some LRepeated else if proto3_optional f then Some LOptional else None
  | Proto2 => Some (field_label f)
  end.
Definition is_required (f : FieldDescriptor) : bool := bool_decide (explicit_label f = Some LRequired).

Definition local_name (m : MessageDescriptor) : string :=
  let pkg := package_name (msg_file m) in
  let full := full_name m in
  if negb (bool_decide (pkg = "")) && starts_with (pkg +:+ ".") full then str_drop (String.length pkg + 1) full else full.

(** Map entries do not exist in the text that is compared. *)
Definition named (msgs : list MessageDescriptor) : list MessageDescriptor := filter (λ m, is_map_entry m = false) msgs.

(** * The comparison *)

(** The files each schema refers to, by import name. *)
Variable orig_deps upd_deps : gmap string string.
(** [compare_message], on less fuel. *)
Variable rec : MessageDescriptor → MessageDescriptor → DM.

(** [iter().position(..)] and the element there. *)
Definition position {A} (p : A → bool) (l : list A) : option (nat * A) := list_find (λ x, p x = true) l.

Definition compare_type (orig upd : list MessageDescriptor) (name : string) : DM :=
  within name
    match position (λ m, bool_decide (msg_name m = name)) orig, position (λ m, bool_decide (msg_name m = name)) upd with
    | Some _, None => add "MESSAGE_REMOVED"
    | None, Some _ => add "MESSAGE_ADDED"
    | Some (o, om), Some (u, um) => dseq (rec om um) (dwhen (negb (bool_decide (o = u))) (add "MESSAGE_MOVED"))
    | None, None => dret
    end.
Definition compare_types (orig upd : list MessageDescriptor) : DM :=
  dall (compare_type orig upd) (union_order (msg_name <$> orig) (msg_name <$> upd)).

(** Both schemas take the type from themselves, or from the same text. *)
Definition same_origin (om um : MessageDescriptor) : bool :=
  let (f, g) := (file_name (msg_file om), file_name (msg_file um)) in
  bool_decide (f = ROOT) && bool_decide (g = ROOT) ||
  bool_decide (f = g) && match orig_deps !! f with Some a => bool_decide (upd_deps !! g = Some a) | None => false end.

Definition compare_message_types (om um : MessageDescriptor) : DM := λ c,
  let ol := local_name om in
  if decide (ol = local_name um) then
    if same_origin om um then Some c else
    c' ← rec om um (mkCtx (split_char "." ol) (cx_diffs c) (cx_stack c));
    dwhen (existsb incompatible (drop (length (cx_diffs c)) (cx_diffs c'))) (add "FIELD_NAMED_TYPE_CHANGED")
      (mkCtx (cx_path c) (cx_diffs c') (cx_stack c'))
  else add "FIELD_NAMED_TYPE_CHANGED" c.

Fixpoint compare_labels_and_types (ol ul : option Label) (ot ut : FieldType) : DM :=
  if decide (kind ot = kind ut) then
    match ot, ut with
    | FMap ok ov, FMap uk uv => dseq (compare_labels_and_types None None ok uk) (compare_labels_and_types None None ov uv)
    | FMessage om, FMessage um => compare_message_types om um
    | _, _ =>
      if decide (scalar_kind ot = scalar_kind ut) then
        match ol, ul with
        | Some a, Some b =>
          dwhen (negb (bool_decide (a = b)))
            (add (if decide (scalar_kind ot = "STRING_OR_BYTES") then "FIELD_STRING_OR_BYTES_LABEL_CHANGED" else "FIELD_NUMERIC_LABEL_CHANGED"))
        | _, _ => dret
        end
      else add "FIELD_SCALAR_KIND_CHANGED"
    end
  else add "FIELD_KIND_CHANGED".

Definition compare_field (o u : FieldDescriptor) : DM :=
  dseq (dwhen (negb (bool_decide (field_name o = field_name u))) (add "FIELD_NAME_CHANGED"))
  match type_of o, type_of u with
  | Some ot, Some ut => compare_labels_and_types (explicit_label o) (explicit_label u) ot ut
  | _, _ => λ _, None
  end.

(** ** The body of a message *)

Definition regular (m : MessageDescriptor) : list FieldDescriptor := filter (λ f, oneof_of f = None) (fields m).
Definition real_oneofs (m : MessageDescriptor) : list (string * list FieldDescriptor) :=
  (λ x, (oneof_name x, oneof_fields x)) <$> filter (λ x, is_synthetic x = false) (oneofs m).
Definition has_number (tag : Z) (f : FieldDescriptor) : bool := bool_decide (number f = tag).
Definition find_field (tag : Z) (fs : list FieldDescriptor) : option FieldDescriptor := snd <$> position (has_number tag) fs.
Definition find_oneof (name : string) (os : list (string * list FieldDescriptor)) : option (list FieldDescriptor) :=
  (λ p, p.2.2) <$> position (λ e, bool_decide (e.1 = name)) os.

(** One field of an updated oneof: it was a regular field (which is taken out
    of the originals), or a member of some oneof already. *)
Definition move_field (oneof_tags : list Z) (st : list FieldDescriptor * nat * nat) (f : FieldDescriptor) : list FieldDescriptor * nat * nat :=
  match st with (orig, moved, existing) =>
    match position (has_number (number f)) orig with
    | Some (i, _) => (delete i orig, S moved, existing)
    | None => if bool_decide (number f ∈ oneof_tags) then (orig, moved, S existing) else (orig, moved, existing)
    end
  end.
Definition moved_kind (moved existing : nat) : DM :=
  if bool_decide (1 < moved) then add "MULTIPLE_FIELDS_MOVED_TO_ONEOF"
  else dwhen (bool_decide (moved = 1) && bool_decide (0 < existing)) (add "FIELD_MOVED_TO_EXISTING_ONEOF").
(** The first loop, which hands the regular originals that are left to the rest. *)
Fixpoint move_oneofs (oneof_tags : list Z) (os : list (string * list FieldDescriptor)) (orig : list FieldDescriptor)
    (k : list FieldDescriptor → DM) : DM :=
  match os with
  | [] => k orig
  | (name, fs) :: os =>
    match foldl (move_field oneof_tags) (orig, 0, 0) fs with
    | (orig, moved, existing) => dseq (within name (moved_kind moved existing)) (move_oneofs oneof_tags os orig k)
    end
  end.

Definition compare_oneof_field (os us : list FieldDescriptor) (tag : Z) : DM :=
  within (show tag)
    match find_field tag os, find_field tag us with
    | Some _, None => add "ONEOF_FIELD_REMOVED"
    | None, Some _ => add "ONEOF_FIELD_ADDED"
    | Some a, Some b => compare_field a b
    | None, None => dret
    end.
Definition compare_oneof (orig upd : list (string * list FieldDescriptor)) (name : string) : DM :=
  within name
    match find_oneof name orig, find_oneof name upd with
    | Some _, None => add "ONEOF_REMOVED"
    | None, Some _ => add "ONEOF_ADDED"
    | Some os, Some us => dall (compare_oneof_field os us) (union_order (number <$> os) (number <$> us))
    | None, None => dret
    end.
Definition compare_tag (orig upd : list FieldDescriptor) (tag : Z) : DM :=
  within (show tag)
    match find_field tag orig, find_field tag upd with
    | Some f, None => add (if is_required f then "REQUIRED_FIELD_REMOVED" else "FIELD_REMOVED")
    | None, Some f => add (if is_required f then "REQUIRED_FIELD_ADDED" else "FIELD_ADDED")
    | Some a, Some b => compare_field a b
    | None, None => dret
    end.

(** The order of the tags: the originals' map order was fixed before fields were
    taken out. *)
Definition all_tags (before left upd : list FieldDescriptor) : list Z :=
  js_ordered (js_extend (from_collection (filter (λ t, existsb (has_number t) left = true) (map_order (number <$> before)))) (map_order (number <$> upd))).

Definition compare_message_body (o u : MessageDescriptor) : DM :=
  let orig := real_oneofs o in
  let upd := real_oneofs u in
  move_oneofs (orig ≫= λ e, number <$> e.2) upd (regular o) (λ left,
    dseq (dall (compare_oneof orig upd) (union_order orig.*1 upd.*1))
         (dall (compare_tag left (regular u)) (all_tags (regular o) left (regular u)))).
End proto.

Fixpoint compare_message `{!Reflect} (orig_deps upd_deps : gmap string string) (fuel : nat) (o u : MessageDescriptor) : DM :=
  match fuel with
  | O => λ _, None
  | S fuel => λ c,
    let rec := compare_message orig_deps upd_deps fuel in
    let key := full_name o in
    dseq (dwhen (negb (bool_decide (key ∈ cx_stack c)))
            (dseq (push_stack key) (dseq (compare_message_body orig_deps upd_deps rec o u) pop_stack)))
         (compare_types rec (named (child_messages o)) (named (child_messages u))) c
  end.

Record ProtoSchema `{!Reflect} := mkProtoSchema {
  ps_pool : DescriptorPool; ps_deps : gmap string string; ps_canonical : string; ps_normalized : string }.

(** Can [reader] read data written with [writer]? *)
Definition can_read_fuel `{!Reflect} (fuel : nat) (reader writer : ProtoSchema) (labels : Labels) : option (list string) :=
  match get_file_by_name (ps_pool writer) ROOT, get_file_by_name (ps_pool reader) ROOT with
  | Some wf, Some rf =>
    c ← dseq (dwhen (negb (bool_decide (package_name wf = package_name rf))) (add "PACKAGE_CHANGED"))
             (compare_types (compare_message (ps_deps writer) (ps_deps reader) fuel) (named (messages wf)) (named (messages rf))) (mkCtx [] [] []);
    Some ((λ d, render d (lb_reader labels) (lb_writer labels)) <$> filter (λ d, incompatible d = true) (cx_diffs c))
  | _, _ => Some []
  end.
