(* ===== verification/ProtoCheck.v ===== *)
(** What the comparison of Protobuf schemas guarantees: it ends, a schema reads
    itself, and what an accepted reader has in common with the writer. *)
From S2P Require Import Prelude SortedVec RustStr Errors Json Model Context Snapshot Keys SchemaLayer JavaOrder Protobuf.

Open Scope string_scope.
Open Scope nat_scope.
Open Scope list_scope.

(** * Concrete Protobuf descriptors: an instance of the interface to prost_reflect
    over a fixed table of example schemas, and the laws it keeps. *)

(** * Tables *)

Record FieldData := mkField { x_name : string; x_number : Z; x_kind : Kind nat; x_label : Label; x_optional : bool; x_oneof : option nat }.
Record MsgData := mkMsg {
  x_msg : string; x_full : string; x_file : nat; x_entry : bool; x_children : list nat; x_fields : list FieldData; x_oneofs : list (string * bool) }.
Record FileData := mkFile { x_path : string; x_package : string; x_syntax : Syntax; x_messages : list nat }.

Definition one (name : string) (n : Z) (k : Kind nat) : FieldData := mkField name n k LOptional false None.
Definition many (name : string) (n : Z) (k : Kind nat) : FieldData := mkField name n k LRepeated false None.
Definition choice (name : string) (n : Z) (k : Kind nat) : FieldData := mkField name n k LOptional false (Some 0).

(** The files: an order and a later form of it; a field moved into a new oneof
    and one moved out of a oneof that is dropped, both with another type; and
    imported types of the same local name. *)
Definition example_files : list FileData := [
  mkFile ROOT "shop" Proto3 [0]; mkFile ROOT "shop" Proto3 [3];
  mkFile ROOT "" Proto3 [6]; mkFile ROOT "" Proto3 [7];
  mkFile ROOT "" Proto3 [8]; mkFile ROOT "" Proto3 [9];
  mkFile ROOT "" Proto3 [10]; mkFile "d.proto" "d" Proto3 [11];
  mkFile ROOT "" Proto3 [12]; mkFile "e.proto" "e" Proto3 [13]; mkFile "f.proto" "f" Proto3 [14]].

Definition example_messages : list MsgData := [
  mkMsg "Order" "shop.Order" 0 false [1; 2]
    [one "id" 1 KString; many "lines" 2 (KMessage 1); many "tags" 3 (KMessage 2); choice "card" 4 KString; choice "cash" 5 KInt32; one "parent" 6 (KMessage 0)]
    [("pay", false)];
  mkMsg "Line" "shop.Order.Line" 0 false [] [one "sku" 1 KString; one "qty" 2 KInt32] [];
  mkMsg "TagsEntry" "shop.Order.TagsEntry" 0 true [] [one "key" 1 KString; one "value" 2 KInt32] [];
  mkMsg "Order" "shop.Order" 1 false [4; 5]
    [one "id" 1 KBytes; many "lines" 2 (KMessage 4); many "tags" 3 (KMessage 5); choice "card" 4 KString; choice "cash" 5 KUint64; one "parent" 6 (KMessage 3);
     choice "voucher" 7 KString; one "note" 8 KString]
    [("pay", false)];
  mkMsg "Line" "shop.Order.Line" 1 false [] [one "sku" 1 KString; one "qty" 2 KInt64; one "gift" 3 KBool] [];
  mkMsg "TagsEntry" "shop.Order.TagsEntry" 1 true [] [one "key" 1 KString; one "value" 2 KInt64] [];
  mkMsg "M" "M" 2 false [] [one "a" 1 KString] [];
  mkMsg "M" "M" 3 false [] [choice "a" 1 KInt32] [("x", false)];
  mkMsg "M" "M" 4 false [] [choice "a" 1 KString] [("x", false)];
  mkMsg "M" "M" 5 false [] [one "a" 1 KInt32] [];
  mkMsg "W" "W" 6 false [] [one "d" 1 (KMessage 11)] [];
  mkMsg "D" "d.D" 7 false [] [one "next" 1 (KMessage 11); one "x" 2 KInt32] [];
  mkMsg "W" "W" 8 false [] [one "d" 1 (KMessage 13)] [];
  mkMsg "D" "e.D" 9 false [] [one "next" 1 (KMessage 14); one "x" 2 KInt32] [];
  mkMsg "D" "f.D" 10 false [] [one "next" 1 (KMessage 14); one "x" 2 KString] []].

Definition file_at (i : nat) : FileData := default (mkFile "" "" Proto3 []) (example_files !! i).
Definition message_at (i : nat) : MsgData := default (mkMsg "" "" 0 false [] [] []) (example_messages !! i).

(** * The instance *)

Definition entry_field (e : nat) (n : Z) : nat * FieldData :=
  (e, default (one "" n KString) (snd <$> list_find (λ f, x_number f = n) (x_fields (message_at e)))).

#[export] Instance example_reflect : Reflect := {|
  DescriptorPool := list nat;
  FileDescriptor := nat;
  MessageDescriptor := nat;
  FieldDescriptor := nat * FieldData;
  OneofDescriptor := nat * nat;
  get_file_by_name pool name := snd <$> list_find (λ i, x_path (file_at i) = name) pool;
  file_name i := x_path (file_at i);
  package_name i := x_package (file_at i);
  syntax i := x_syntax (file_at i);
  messages i := x_messages (file_at i);
  msg_name m := x_msg (message_at m);
  full_name m := x_full (message_at m);
  msg_file m := x_file (message_at m);
  is_map_entry m := x_entry (message_at m);
  child_messages m := x_children (message_at m);
  fields m := pair m <$> x_fields (message_at m);
  oneofs m := pair m <$> seq 0 (length (x_oneofs (message_at m)));
  map_entry_key_field e := entry_field e 1;
  map_entry_value_field e := entry_field e 2;
  oneof_name o := default "" (fst <$> x_oneofs (message_at o.1) !! o.2);
  is_synthetic o := default false (snd <$> x_oneofs (message_at o.1) !! o.2);
  oneof_fields o := pair o.1 <$> filter (λ f, x_oneof f = Some o.2) (x_fields (message_at o.1));
  field_name f := x_name f.2;
  number f := x_number f.2;
  field_kind f := x_kind f.2;
  is_map f := bool_decide (x_label f.2 = LRepeated) && match x_kind f.2 with KMessage e => x_entry (message_at e) | _ => false end;
  containing_oneof f := pair f.1 <$> x_oneof f.2;
  field_file f := x_file (message_at f.1);
  field_label f := x_label f.2;
  proto3_optional f := x_optional f.2;
|}.

(** What is true of the table and of the default is true of every index. *)
Lemma message_at_ind (P : MsgData → Prop) : P (mkMsg "" "" 0 false [] [] []) → Forall P example_messages → ∀ i, P (message_at i).
Proof.
  intros Hd Hall i. unfold message_at. destruct (example_messages !! i) as [m|] eqn:E; [|done]. by eapply Forall_lookup_1 in Hall.
Qed.

(** The table checked once, by evaluation. *)
Definition map_field (f : FieldData) : bool :=
  bool_decide (x_label f = LRepeated) && match x_kind f with KMessage e => x_entry (message_at e) | _ => false end.
Definition entry_flat (n : Z) (x : MsgData) : bool :=
  negb (map_field (default (one "" n KString) (snd <$> list_find (λ f, x_number f = n) (x_fields x)))).
Definition children_named (x : MsgData) : bool :=
  forallb (λ c, bool_decide (x_full (message_at c) = x_full x +:+ "." +:+ x_msg (message_at c))) (x_children x).
Definition numbers_differ (x : MsgData) : bool := bool_decide (NoDup (x_number <$> x_fields x)).
Lemma checked (p : MsgData → bool) : p (mkMsg "" "" 0 false [] [] []) = true → forallb p example_messages = true → ∀ i, p (message_at i) = true.
Proof.
  intros Hd Hall. apply (message_at_ind (λ x, p x = true)); [done|]. apply Forall_forall. intros x Hx%list_elem_of_In.
  by apply (proj1 (forallb_forall _ _) Hall).
Qed.

#[export] Instance example_laws : ReflectLaws.
Proof.
  split.
  - intros m c Hc. cbn in *. pose proof (checked children_named eq_refl ltac:(vm_compute; reflexivity) m) as H.
    apply list_elem_of_In, (proj1 (forallb_forall _ _) H c) in Hc. by apply bool_decide_eq_true in Hc.
  - intros f e _ _. cbn. pose proof (checked (entry_flat 1) eq_refl ltac:(vm_compute; reflexivity) e) as H1.
    pose proof (checked (entry_flat 2) eq_refl ltac:(vm_compute; reflexivity) e) as H2.
    by apply negb_true_iff in H1, H2.
  - intros m f g Hf Hg Hn. cbn in *. pose proof (checked numbers_differ eq_refl ltac:(vm_compute; reflexivity) m) as H%bool_decide_eq_true.
    apply list_elem_of_fmap in Hf as (x & -> & (i & Hi)%list_elem_of_lookup), Hg as (y & -> & (j & Hj)%list_elem_of_lookup). cbn in Hn.
    assert (i = j) as ->; [|by simplify_eq]. eapply NoDup_lookup; [exact H|rewrite list_lookup_fmap, Hi; done|rewrite list_lookup_fmap, Hj; cbn; by rewrite Hn].
  - intros m o f Ho Hf. cbn in *. apply list_elem_of_fmap in Ho as (i & -> & _). apply list_elem_of_fmap in Hf as (fd & -> & [Hx Hf]%list_elem_of_filter).
    cbn in *. rewrite Hx. split; [apply list_elem_of_fmap; eauto|done].
Qed.

(** A schema made of some of the files, with the texts of its references. *)
Definition example (files : list nat) (deps : gmap string string) : ProtoSchema := mkProtoSchema _ files deps "" "".
Definition new_old : Labels := mkLabels "new" "old".

(** * Steps that end *)

(** With these messages guarded, two steps do the same wherever they are taken:
    they end, add differences of these kinds and change nothing else. *)
Definition settles (s : list string) (m n : DM) (G : string → Prop) : Prop :=
  ∀ p d, ∃ ds, m (mkCtx p d s) = Some (mkCtx p (d ++ ds) s) ∧ n (mkCtx p d s) = Some (mkCtx p (d ++ ds) s) ∧ Forall (λ x, G (df_kind x)) ds.

Definition any (_ : string) : Prop := True.
Definition nothing (_ : string) : Prop := False.

Section steps.
Implicit Types (s : list string) (m n : DM) (G : string → Prop).

Lemma settles_ret s G : settles s dret dret G.
Proof. intros p d. exists []. by rewrite app_nil_r. Qed.
Lemma settles_seq s m m' n n' G : settles s m m' G → settles s n n' G → settles s (dseq m n) (dseq m' n') G.
Proof.
  intros Hm Hn p d. destruct (Hm p d) as (ds & E & E' & HG). destruct (Hn p (d ++ ds)) as (es & F & F' & HG').
  exists (ds ++ es). unfold dseq. rewrite E, E'. cbn [mbind option_bind]. rewrite F, F', app_assoc. split_and!; [done..|by apply Forall_app].
Qed.
Lemma settles_all {A} s (f g : A → DM) l G : (∀ x, x ∈ l → settles s (f x) (g x) G) → settles s (dall f l) (dall g l) G.
Proof.
  induction l as [|x l IH]; intros H; cbn [dall]; [apply settles_ret|].
  apply settles_seq; [apply H; by left|apply IH; intros; apply H; by right].
Qed.
Lemma settles_when s (b : bool) m n G : (b = true → settles s m n G) → settles s (dwhen b m) (dwhen b n) G.
Proof. destruct b; [auto|intros; apply settles_ret]. Qed.
Lemma settles_add s k G : G k → settles s (add k) (add k) G.
Proof. intros Hk p d. eexists [_]. split_and!; [done..|]. by apply Forall_singleton. Qed.
Lemma settles_within s name m n G : settles s m n G → settles s (within name m) (within name n) G.
Proof.
  intros Hm p d. destruct (Hm (p ++ [name]) d) as (ds & E & E' & HG). exists ds. unfold within, dseq, enter, leave. cbn [mbind option_bind].
  cbn [cx_path cx_diffs cx_stack]. rewrite E, E'. cbn [mbind option_bind cx_path cx_diffs cx_stack]. by rewrite removelast_last.
Qed.
Lemma settles_guarded s key m n G : settles (s ++ [key]) m n G →
  settles s (dseq (push_stack key) (dseq m pop_stack)) (dseq (push_stack key) (dseq n pop_stack)) G.
Proof.
  intros Hm p d. destruct (Hm p d) as (ds & E & E' & HG). exists ds. unfold dseq, push_stack, pop_stack. cbn [mbind option_bind].
  cbn [cx_path cx_diffs cx_stack]. rewrite E, E'. cbn [mbind option_bind cx_path cx_diffs cx_stack]. by rewrite removelast_last.
Qed.
End steps.

Create HintDb proto.
#[export] Hint Resolve settles_ret settles_add settles_within settles_when : proto.

(** * Pools *)

Section pool.
Context {reflect : Reflect} {laws : ReflectLaws}.

Fixpoint type_messages (t : FieldType) : list MessageDescriptor :=
  match t with FMessage m => [m] | FMap k v => type_messages k ++ type_messages v | _ => [] end.

(** Every field that is looked at. *)
Definition all_fields (m : MessageDescriptor) : list FieldDescriptor := fields m ++ (real_oneofs m ≫= snd).

(** A set of messages that holds the nested messages and the types of fields of
    its members: what a pool is. *)
Definition closed (ms : list MessageDescriptor) : Prop :=
  ∀ m, m ∈ ms → (∀ c, c ∈ child_messages m → c ∈ ms) ∧
    (∀ f t c, f ∈ all_fields m → type_of f = Some t → c ∈ type_messages t → c ∈ ms).

Lemma flat_type fuel f : is_map f = false → type_of_fuel (S fuel) f = Some (plain_type (field_kind f)).
Proof. intros Hf. cbn [type_of_fuel]. by rewrite Hf. Qed.
Lemma type_of_total f : ∃ t, type_of f = Some t.
Proof.
  unfold type_of. cbn [type_of_fuel]. destruct (is_map f) eqn:Hm; [|by eexists].
  destruct (field_kind f) as [| | | | | | | | | | | | | | |e|] eqn:Hk; [by eexists..| |by eexists].
  destruct (map_entry_flat f e Hm Hk) as [-> ->]. by eexists.
Qed.

Lemma regular_elem m f : f ∈ regular m ↔ oneof_of f = None ∧ f ∈ fields m.
Proof. unfold regular. by rewrite list_elem_of_filter. Qed.
Lemma oneof_elem m name fs f : (name, fs) ∈ real_oneofs m → f ∈ fs → f ∈ fields m ∧ oneof_of f = Some name.
Proof.
  unfold real_oneofs. intros (o & [= -> ->] & [Hs Ho]%list_elem_of_filter)%list_elem_of_fmap Hf.
  destruct (oneof_members m o f Ho Hf) as [Hm Hc]. split; [done|]. unfold oneof_of. rewrite Hc. cbn. by rewrite Hs.
Qed.
Lemma oneof_not_regular m name fs f g : (name, fs) ∈ real_oneofs m → f ∈ fs → g ∈ regular m → number g ≠ number f.
Proof.
  intros Ho Hf [Hg Hgm]%regular_elem Hn. destruct (oneof_elem m name fs f Ho Hf) as [Hm Hc].
  by rewrite (number_unique m g f Hgm Hm Hn), Hc in Hg.
Qed.

Lemma position_Some {A} (p : A → bool) l i x : position p l = Some (i, x) → l !! i = Some x ∧ p x = true.
Proof. unfold position. intros (H1 & H2 & _)%list_find_Some. done. Qed.
Lemma position_elem {A} (p : A → bool) l i x : position p l = Some (i, x) → x ∈ l ∧ p x = true.
Proof. intros [H ?]%position_Some. split; [by eapply list_elem_of_lookup_2|done]. Qed.
Lemma position_None {A} (p : A → bool) l : position p l = None ↔ ∀ x, x ∈ l → p x = false.
Proof.
  unfold position. rewrite list_find_None, Forall_forall. split; intros H x Hx; specialize (H x Hx); [by apply not_true_is_false|by rewrite H].
Qed.
Lemma find_field_Some tag fs f : find_field tag fs = Some f → f ∈ fs ∧ number f = tag.
Proof.
  unfold find_field. destruct (position _ _) as [[i x]|] eqn:E; [|done]. intros [= <-].
  apply position_elem in E as [? Hn]. split; [done|]. unfold has_number in Hn. by apply bool_decide_eq_true in Hn.
Qed.
Lemma find_field_None tag fs : find_field tag fs = None ↔ ∀ f, f ∈ fs → number f ≠ tag.
Proof.
  unfold find_field. destruct (position _ _) as [[i x]|] eqn:E.
  - split; [done|]. apply position_elem in E as [Hx Hn]. unfold has_number in Hn. apply bool_decide_eq_true in Hn. intros H. exfalso. by apply (H x).
  - split; [|done]. intros _ f Hf Hn. pose proof (proj1 (position_None _ _) E f Hf) as Hx. unfold has_number in Hx. by apply bool_decide_eq_false in Hx.
Qed.
(** Taking out what moved leaves originals, and loses none but the moved. *)
Lemma move_fields_spec tags fs : ∀ orig a b left moved existing, foldl (move_field tags) (orig, a, b) fs = (left, moved, existing) →
  (∀ f, f ∈ left → f ∈ orig) ∧ (∀ f, f ∈ orig → f ∈ left ∨ ∃ g, g ∈ fs ∧ number g = number f).
Proof.
  induction fs as [|g fs IH]; intros orig a b left moved existing; cbn [foldl]; [intros [= -> _ _]; auto|].
  intros E. unfold move_field at 2 in E. destruct (position _ orig) as [[i x]|] eqn:Ep.
  - destruct (IH _ _ _ _ _ _ E) as [H1 H2]. apply position_Some in Ep as [Hi Hn]. unfold has_number in Hn. apply bool_decide_eq_true in Hn.
    pose proof (delete_Permutation _ _ _ Hi) as Hp. split.
    + intros f Hf%H1. rewrite Hp. by right.
    + intros f Hf. rewrite Hp in Hf. apply elem_of_cons in Hf as [->|Hf]; [right; exists g; split; [by left|done]|].
      destruct (H2 f Hf) as [?|(g' & ? & ?)]; [by left|right; exists g'; split; [by right|done]].
  - case_bool_decide; destruct (IH _ _ _ _ _ _ E) as [H1 H2]; (split; [done|]); intros f Hf;
      (destruct (H2 f Hf) as [?|(g' & ? & ?)]; [by left|right; exists g'; split; [by right|done]]).
Qed.
Lemma move_fields_sub tags fs orig a b left moved existing f : foldl (move_field tags) (orig, a, b) fs = (left, moved, existing) → f ∈ left → f ∈ orig.
Proof. intros E. by apply (move_fields_spec _ _ _ _ _ _ _ _ E). Qed.

Lemma find_oneof_elem name os fs : find_oneof name os = Some fs → (name, fs) ∈ os.
Proof.
  unfold find_oneof. destruct (position _ _) as [[i [n x]]|] eqn:E; [|done]. intros [= <-].
  apply position_elem in E as [? Hn]. apply bool_decide_eq_true in Hn. cbn in Hn. by subst.
Qed.

(** * The comparison ends *)

(** Steps of the comparison on which two versions of the recursive call agree. *)
Section total.
Variable od ud : gmap string string.
Variable rec rec' : MessageDescriptor → MessageDescriptor → DM.
Variable s : list string.
Variable ms : list MessageDescriptor.
Hypothesis Hrec : ∀ o u, o ∈ ms → settles s (rec o u) (rec' o u) any.

Lemma compare_types_total orig upd : (∀ m, m ∈ orig → m ∈ ms) → settles s (compare_types rec orig upd) (compare_types rec' orig upd) any.
Proof using Hrec.
  intros Hin. apply settles_all. intros name _. apply settles_within. destruct (position _ orig) as [[i o]|] eqn:Eo, (position _ upd) as [[j u]|] eqn:Eu;
    [|by apply settles_add..|apply settles_ret].
  apply settles_seq; [|apply settles_when; intros _; by apply settles_add]. apply Hrec, Hin. by apply position_elem in Eo as [? _].
Qed.

Lemma compare_message_types_total om um : om ∈ ms → settles s (compare_message_types od ud rec om um) (compare_message_types od ud rec' om um) any.
Proof using Hrec.
  intros Hin p d. unfold compare_message_types. case_decide; [|apply (settles_add s _ any I)]. destruct (same_origin _ _ _ _); [exists []; by rewrite app_nil_r|].
  cbn [cx_path cx_diffs cx_stack]. destruct (Hrec om um Hin (split_char "." (local_name om)) d) as (ds & -> & -> & _).
  cbn [mbind option_bind cx_path cx_diffs cx_stack]. destruct (existsb _ _); [eexists (ds ++ [_])|exists ds]; cbn.
  - unfold add. cbn. rewrite <-app_assoc. split_and!; [done..|]. by apply Forall_forall.
  - split_and!; [done..|]. by apply Forall_forall.
Qed.

Lemma labels_and_types_total ot ut : (∀ c, c ∈ type_messages ot → c ∈ ms) → ∀ ol ul,
  settles s (compare_labels_and_types od ud rec ol ul ot ut) (compare_labels_and_types od ud rec' ol ul ot ut) any.
Proof using Hrec.
  revert ut. induction ot as [x| |m|k IHk v IHv]; intros ut Hin ol ul; cbn [compare_labels_and_types];
    (case_decide as Hk; [|by apply settles_add]); destruct ut; try discriminate Hk;
    try (destruct (decide _); [|by apply settles_add]; destruct ol, ul; first [apply settles_ret|apply settles_when; intros; by apply settles_add]).
  - apply compare_message_types_total, Hin. by apply list_elem_of_singleton.
  - apply settles_seq; [apply IHk|apply IHv]; intros c Hc; apply Hin; cbn; apply elem_of_app; auto.
Qed.

Lemma compare_field_total o u : (∀ t c, type_of o = Some t → c ∈ type_messages t → c ∈ ms) →
  settles s (compare_field od ud rec o u) (compare_field od ud rec' o u) any.
Proof using Hrec laws.
  intros Hin. unfold compare_field. destruct (type_of_total o) as [ot Eo], (type_of_total u) as [ut Eu]. rewrite Eo, Eu.
  apply settles_seq; [apply settles_when; intros; by apply settles_add|]. apply labels_and_types_total. eauto.
Qed.

Lemma moved_kind_total moved existing : settles s (moved_kind moved existing) (moved_kind moved existing) any.
Proof. unfold moved_kind. case_bool_decide; [by apply settles_add|]. apply settles_when; intros; by apply settles_add. Qed.

Lemma move_oneofs_total tags os orig k k' : (∀ left, (∀ f, f ∈ left → f ∈ orig) → settles s (k left) (k' left) any) →
  settles s (move_oneofs tags os orig k) (move_oneofs tags os orig k') any.
Proof.
  revert orig. induction os as [|[name fs] os IH]; intros orig Hk; cbn [move_oneofs]; [by apply Hk|].
  destruct (foldl (move_field tags) (orig, 0, 0) fs) as [[left moved] existing] eqn:E.
  apply settles_seq; [apply settles_within, moved_kind_total|]. apply IH. intros l Hl. apply Hk. intros f Hf.
  apply Hl in Hf. eapply move_fields_sub; [exact E|done].
Qed.

Lemma compare_body_total o u : (∀ f t c, f ∈ all_fields o → type_of f = Some t → c ∈ type_messages t → c ∈ ms) →
  settles s (compare_message_body od ud rec o u) (compare_message_body od ud rec' o u) any.
Proof using Hrec laws.
  intros Hin. apply move_oneofs_total. intros left Hleft. apply settles_seq; apply settles_all.
  - intros name _. apply settles_within. destruct (find_oneof name (real_oneofs o)) as [os|] eqn:Eo, (find_oneof name (real_oneofs u)) as [us|];
      [|by apply settles_add..|apply settles_ret].
    apply settles_all. intros tag _. apply settles_within. destruct (find_field tag os) as [f|] eqn:Ef, (find_field tag us); [|by apply settles_add..|apply settles_ret].
    apply compare_field_total. intros t c. apply Hin. apply elem_of_app. right. apply find_oneof_elem in Eo. apply find_field_Some in Ef as [Hf _].
    apply list_elem_of_bind. by exists (name, os).
  - intros tag _. apply settles_within. destruct (find_field tag left) as [f|] eqn:Ef, (find_field tag (regular u)); [|by apply settles_add..|apply settles_ret].
    apply compare_field_total. intros t c. apply Hin. apply elem_of_app. left. apply find_field_Some in Ef as [Hf _]. by apply Hleft, regular_elem in Hf as [_ ?].
Qed.
End total.

(** ** Fuel *)

(** How long names get, and how many messages are not guarded. *)
Definition longest (ms : list MessageDescriptor) : nat := max_list ((λ m, String.length (full_name m)) <$> ms).
Definition open_names (s : list string) (ms : list MessageDescriptor) : gset string := list_to_set (full_name <$> ms) ∖ list_to_set s.
(** Guarding a message uses up a name; nesting makes names longer. *)
Definition enough (s : list string) (ms : list MessageDescriptor) (o : MessageDescriptor) : nat :=
  size (open_names s ms) * S (longest ms) + (longest ms - String.length (full_name o)).

Lemma longest_bound ms m : m ∈ ms → String.length (full_name m) ≤ longest ms.
Proof. intros Hm. apply max_list_elem_of_le. apply list_elem_of_fmap. eauto. Qed.
Lemma enough_child s ms o c : c ∈ ms → c ∈ child_messages o → enough s ms c < enough s ms o.
Proof using laws.
  intros Hm Hc. pose proof (longest_bound ms c Hm) as Hb. unfold enough. rewrite (child_full_name o c Hc) in *.
  rewrite !str_length_app in *. cbn in *. lia.
Qed.
Lemma enough_guarded s ms o m : o ∈ ms → full_name o ∉ s → enough (s ++ [full_name o]) ms m < enough s ms o.
Proof.
  intros Ho Hs. assert (size (open_names (s ++ [full_name o]) ms) < size (open_names s ms)) as Hlt.
  { apply subset_size. unfold open_names. rewrite list_to_set_app. split; [set_solver|]. intros H.
    assert (full_name o ∈ (list_to_set (full_name <$> ms) : gset string)) by (apply elem_of_list_to_set, list_elem_of_fmap; eauto). set_solver. }
  unfold enough. nia.
Qed.

Lemma named_elem l m : m ∈ named l → m ∈ l.
Proof. unfold named. by intros [_ ?]%list_elem_of_filter. Qed.

Lemma compare_message_total od ud ms : closed ms → ∀ n s o u fuel fuel', o ∈ ms → enough s ms o < n → n ≤ fuel → n ≤ fuel' →
  settles s (compare_message od ud fuel o u) (compare_message od ud fuel' o u) any.
Proof using laws.
  intros Hcl. induction n as [|n IH]; intros s o u fuel fuel' Ho Hn Hf Hf'; [lia|].
  destruct fuel as [|fuel], fuel' as [|fuel']; [lia..|]. destruct (Hcl o Ho) as [Hch Hty].
  assert (settles s (compare_types (compare_message od ud fuel) (named (child_messages o)) (named (child_messages u)))
                   (compare_types (compare_message od ud fuel') (named (child_messages o)) (named (child_messages u))) any) as Hts.
  { apply (compare_types_total _ _ _ (named (child_messages o))); [|done]. intros c d Hc%named_elem. apply IH; [by apply Hch| |lia..].
    pose proof (enough_child s ms o c (Hch c Hc) Hc). lia. }
  cbn [compare_message]. intros p d. cbn [cx_stack]. refine (settles_seq s _ _ _ _ any _ Hts p d).
  apply settles_when. intros Hs%negb_true_iff%bool_decide_eq_false. apply settles_guarded. apply (compare_body_total _ _ _ _ _ ms); [|done].
  intros m v Hm. apply IH; [done| |lia..]. pose proof (enough_guarded s ms o m Ho Hs). lia.
Qed.

(** (C24) The comparison of two Protobuf schemas ends, whatever the schemas: they may
    nest and may be recursive, directly or through each other. *)
Theorem proto_check_ends ms reader writer labels : closed ms →
  (∀ wf, get_file_by_name (ps_pool writer) ROOT = Some wf → ∀ m, m ∈ messages wf → m ∈ ms) →
  ∃ n report, ∀ fuel, n ≤ fuel → can_read_fuel fuel reader writer labels = Some report.
Proof using laws.
  intros Hcl Hin. unfold can_read_fuel. destruct (get_file_by_name (ps_pool writer) ROOT) as [wf|]; [|by exists 0; eexists].
  destruct (get_file_by_name (ps_pool reader) ROOT) as [rf|]; [|by exists 0; eexists]. specialize (Hin wf eq_refl).
  assert (∀ s o, o ∈ ms → enough s ms o < S (size (open_names s ms) * S (longest ms) + longest ms)) as Hb by (unfold enough; lia).
  exists (S (size (open_names [] ms) * S (longest ms) + longest ms)).
  assert (∀ f f', S (size (open_names [] ms) * S (longest ms) + longest ms) ≤ f → S (size (open_names [] ms) * S (longest ms) + longest ms) ≤ f' →
    settles [] (compare_types (compare_message (ps_deps writer) (ps_deps reader) f) (named (messages wf)) (named (messages rf)))
              (compare_types (compare_message (ps_deps writer) (ps_deps reader) f') (named (messages wf)) (named (messages rf))) any) as Hall.
  { intros f f' Hf Hf'. apply (compare_types_total _ _ _ ms); [|intros m Hm%named_elem; by apply Hin]. intros o u Ho.
    by apply (compare_message_total _ _ ms Hcl _ _ _ _ _ _ Ho (Hb [] o Ho)). }
  set (pk := dwhen _ (add "PACKAGE_CHANGED")). assert (settles [] pk pk any) as Hpk by (apply settles_when; intros; by apply settles_add).
  pose proof (λ f f' Hf Hf', settles_seq _ _ _ _ _ _ Hpk (Hall f f' Hf Hf') [] []) as Hrun. cbn in Hrun.
  destruct (Hrun _ _ (le_n _) (le_n _)) as (ds & E & _ & _). eexists. intros fuel Hfuel.
  destruct (Hrun _ _ (le_n _) Hfuel) as (ds' & E1 & -> & _). rewrite E in E1. injection E1 as <-. done.
Qed.

(** * A schema reads itself *)

Lemma settles_nothing s m d : settles s m m nothing → ∀ p, m (mkCtx p d s) = Some (mkCtx p d s).
Proof. intros H p. destruct (H p d) as ([|x ds] & E & _ & HG); [by rewrite app_nil_r in E|]. by apply Forall_cons in HG as [[] _]. Qed.

Section same.
Variable deps : gmap string string.
Variable rec : MessageDescriptor → MessageDescriptor → DM.
Variable s : list string.
Variable ms : list MessageDescriptor.
Hypothesis Hrec : ∀ o, o ∈ ms → settles s (rec o o) (rec o o) nothing.

Lemma compare_types_same l : (∀ m, m ∈ l → m ∈ ms) → settles s (compare_types rec l l) (compare_types rec l l) nothing.
Proof using Hrec.
  intros Hin. apply settles_all. intros name _. apply settles_within. destruct (position _ l) as [[i o]|] eqn:E; [|apply settles_ret].
  apply settles_seq; [apply Hrec, Hin; by apply position_elem in E as [? _]|]. rewrite bool_decide_eq_true_2 by done. apply settles_ret.
Qed.

Lemma compare_message_types_same m : m ∈ ms → settles s (compare_message_types deps deps rec m m) (compare_message_types deps deps rec m m) nothing.
Proof using Hrec.
  intros Hin p d. unfold compare_message_types. rewrite decide_True by done. exists []. rewrite app_nil_r. destruct (same_origin _ _ _ _); [done|].
  cbn [cx_path cx_diffs cx_stack]. rewrite (settles_nothing s _ _ (Hrec m Hin)). cbn [mbind option_bind cx_path cx_diffs cx_stack].
  by rewrite drop_all.
Qed.

Lemma labels_and_types_same t : (∀ c, c ∈ type_messages t → c ∈ ms) → ∀ l,
  settles s (compare_labels_and_types deps deps rec l l t t) (compare_labels_and_types deps deps rec l l t t) nothing.
Proof using Hrec.
  induction t as [x| |m|k IHk v IHv]; intros Hin l; cbn [compare_labels_and_types]; rewrite decide_True by done.
  1, 2: rewrite decide_True by done; destruct l; [rewrite bool_decide_eq_true_2 by done|]; apply settles_ret.
  - apply compare_message_types_same, Hin. by apply list_elem_of_singleton.
  - apply settles_seq; [apply IHk|apply IHv]; intros c Hc; apply Hin; cbn; apply elem_of_app; auto.
Qed.

Lemma compare_field_same f : (∀ t c, type_of f = Some t → c ∈ type_messages t → c ∈ ms) →
  settles s (compare_field deps deps rec f f) (compare_field deps deps rec f f) nothing.
Proof using Hrec laws.
  intros Hin. unfold compare_field. destruct (type_of_total f) as [t E]. rewrite E, bool_decide_eq_true_2 by done.
  apply settles_seq; [apply settles_ret|]. apply labels_and_types_same. eauto.
Qed.

(** No regular field is in a oneof of the same message. *)
Lemma move_oneofs_same m tags k : settles s (k (regular m)) (k (regular m)) nothing → ∀ os, (∀ e, e ∈ os → e ∈ real_oneofs m) →
  settles s (move_oneofs tags os (regular m) k) (move_oneofs tags os (regular m) k) nothing.
Proof using laws.
  intros Hk os. induction os as [|[name fs] os IH]; intros Hin; cbn [move_oneofs]; [done|].
  assert (∀ gs, (∀ g, g ∈ gs → g ∈ fs) → ∀ b, ∃ b', foldl (move_field tags) (regular m, 0, b) gs = (regular m, 0, b')) as Hmv.
  { induction gs as [|g gs IHg]; intros Hg b; [by exists b|]. cbn [foldl]. unfold move_field at 2.
    assert (position (has_number (number g)) (regular m) = None) as ->.
    { apply position_None. intros f Hf. apply bool_decide_eq_false. eapply oneof_not_regular; [apply Hin; by left|apply Hg; by left|done]. }
    case_bool_decide; apply IHg; intros; apply Hg; by right. }
  destruct (Hmv fs (λ _ H, H) 0) as [b ->]. apply settles_seq; [apply settles_within; apply settles_ret|]. apply IH. intros; apply Hin; by right.
Qed.

Lemma compare_body_same m : (∀ f t c, f ∈ all_fields m → type_of f = Some t → c ∈ type_messages t → c ∈ ms) →
  settles s (compare_message_body deps deps rec m m) (compare_message_body deps deps rec m m) nothing.
Proof using Hrec laws.
  intros Hin. apply move_oneofs_same; [|done]. apply settles_seq; apply settles_all.
  - intros name _. apply settles_within. destruct (find_oneof name (real_oneofs m)) as [os|] eqn:Eo; [|apply settles_ret].
    apply settles_all. intros tag _. apply settles_within. destruct (find_field tag os) as [f|] eqn:Ef; [|apply settles_ret].
    apply compare_field_same. intros t c. apply Hin. apply elem_of_app. right. apply find_oneof_elem in Eo. apply find_field_Some in Ef as [Hf _].
    apply list_elem_of_bind. by exists (name, os).
  - intros tag _. apply settles_within. destruct (find_field tag (regular m)) as [f|] eqn:Ef; [|apply settles_ret].
    apply compare_field_same. intros t c. apply Hin. apply elem_of_app. left. apply find_field_Some in Ef as [Hf _]. by apply regular_elem in Hf as [_ ?].
Qed.
End same.

Lemma compare_message_same deps ms : closed ms → ∀ n s o fuel, o ∈ ms → enough s ms o < n → n ≤ fuel →
  settles s (compare_message deps deps fuel o o) (compare_message deps deps fuel o o) nothing.
Proof using laws.
  intros Hcl. induction n as [|n IH]; intros s o fuel Ho Hn Hf; [lia|]. destruct fuel as [|fuel]; [lia|]. destruct (Hcl o Ho) as [Hch Hty].
  assert (settles s (compare_types (compare_message deps deps fuel) (named (child_messages o)) (named (child_messages o)))
                   (compare_types (compare_message deps deps fuel) (named (child_messages o)) (named (child_messages o))) nothing) as Hts.
  { apply (compare_types_same _ _ (named (child_messages o))); [|done]. intros c Hc%named_elem. apply IH; [by apply Hch| |lia].
    pose proof (enough_child s ms o c (Hch c Hc) Hc). lia. }
  cbn [compare_message]. intros p d. cbn [cx_stack]. refine (settles_seq s _ _ _ _ nothing _ Hts p d).
  apply settles_when. intros Hs%negb_true_iff%bool_decide_eq_false. apply settles_guarded. apply (compare_body_same _ _ _ ms); [|done].
  intros m Hm. apply IH; [done| |lia]. pose proof (enough_guarded s ms o m Ho Hs). lia.
Qed.

(** (C25) A Protobuf schema reads what was written with itself: the comparison ends
    and reports nothing, for recursive schemas, oneofs and imports alike. *)
Theorem proto_reads_itself ms x labels : closed ms →
  (∀ wf, get_file_by_name (ps_pool x) ROOT = Some wf → ∀ m, m ∈ messages wf → m ∈ ms) →
  ∃ n, ∀ fuel, n ≤ fuel → can_read_fuel fuel x x labels = Some [].
Proof using laws.
  intros Hcl Hin. unfold can_read_fuel. destruct (get_file_by_name (ps_pool x) ROOT) as [wf|]; [|by exists 0].
  specialize (Hin wf eq_refl). exists (S (size (open_names [] ms) * S (longest ms) + longest ms)). intros fuel Hf.
  rewrite bool_decide_eq_true_2 by done. unfold dseq. cbn [dwhen negb dret mbind option_bind].
  assert (settles [] (compare_types (compare_message (ps_deps x) (ps_deps x) fuel) (named (messages wf)) (named (messages wf)))
     (compare_types (compare_message (ps_deps x) (ps_deps x) fuel) (named (messages wf)) (named (messages wf))) nothing) as Hy.
  { apply (compare_types_same _ _ ms); [|intros m Hm%named_elem; by apply Hin]. intros o Ho.
    apply (compare_message_same _ ms Hcl (S (size (open_names [] ms) * S (longest ms) + longest ms))); [done|unfold enough; lia|done]. }
  by rewrite (settles_nothing _ _ [] Hy).
Qed.
End pool.

(** * On the examples *)

Definition within_table (c : nat) : bool := bool_decide (c ∈ seq 0 (length example_messages)).
Definition closed_at (m : nat) : bool :=
  forallb within_table (child_messages m) &&
  forallb (λ f, match type_of f with Some t => forallb within_table (type_messages t) | None => true end) (all_fields m).
Lemma examples_closed : closed (seq 0 (length example_messages)).
Proof.
  assert (forallb closed_at (seq 0 (length example_messages)) = true) as Hall by (vm_compute; reflexivity).
  intros m Hm%list_elem_of_In. apply (proj1 (forallb_forall _ _) Hall) in Hm. apply andb_true_iff in Hm as [Hc Hf]. split.
  - intros c Hin%list_elem_of_In. apply (proj1 (forallb_forall _ _) Hc) in Hin. by apply bool_decide_eq_true in Hin.
  - intros f t c Hin%list_elem_of_In Et Hct%list_elem_of_In. apply (proj1 (forallb_forall _ _) Hf) in Hin. rewrite Et in Hin.
    apply (proj1 (forallb_forall _ _) Hin) in Hct. by apply bool_decide_eq_true in Hct.
Qed.
Lemma example_messages_in i : (i < 2)%nat → ∀ wf, get_file_by_name (ps_pool (example [i] ∅)) ROOT = Some wf →
  ∀ m, m ∈ messages wf → m ∈ seq 0 (length example_messages).
Proof.
  intros Hi wf E m Hm. destruct i as [|[|i]]; [..|lia]; vm_compute in E; injection E as <-; vm_compute in Hm;
    apply list_elem_of_singleton in Hm as ->; apply (bool_decide_unpack _); vm_compute; exact I.
Qed.

Lemma proto_check_ends_witness : ∃ n report, ∀ fuel, n ≤ fuel → can_read_fuel fuel (example [1] ∅) (example [0] ∅) new_old = Some report.
Proof. exact (proto_check_ends _ (example [1] ∅) (example [0] ∅) new_old examples_closed (example_messages_in 0 ltac:(lia))). Defined.
Lemma proto_reads_itself_witness : ∃ n, ∀ fuel, n ≤ fuel → can_read_fuel fuel (example [0] ∅) (example [0] ∅) new_old = Some [].
Proof. exact (proto_reads_itself _ (example [0] ∅) new_old examples_closed (example_messages_in 0 ltac:(lia))). Defined.
