(* ===== verification/ProtoAccepts.v ===== *)
(** What a Protobuf reader that is accepted has in common with the writer, and
    schemas that are accepted although they are not compatible. *)
From S2P Require Import Prelude SortedVec RustStr Errors Json Model Context Snapshot Keys SchemaLayer JavaOrder Protobuf ProtoCheck.

Open Scope string_scope.
Open Scope nat_scope.
Open Scope list_scope.

(** * Steps that find nothing incompatible *)

Definition clean (ds : list Diff) : Prop := Forall (λ d, incompatible d = false) ds.

(** A step leaves the place and the guards as they were; if nothing incompatible
    is found when it ends, nothing was found before, and [Q] holds. *)
Definition accepts (s : list string) (m : DM) (Q : Prop) : Prop :=
  ∀ p d c, m (mkCtx p d s) = Some c → cx_path c = p ∧ cx_stack c = s ∧ (clean (cx_diffs c) → clean d ∧ Q).

Section steps.
Implicit Types (s : list string) (m n : DM) (Q R : Prop).

Lemma accepts_impl s m Q R : accepts s m Q → (Q → R) → accepts s m R.
Proof. intros H HQ p d c E. destruct (H p d c E) as (? & ? & Hc). split_and!; [done..|]. naive_solver. Qed.
Lemma accepts_ret s : accepts s dret True.
Proof. by intros p d c [= <-]. Qed.
Lemma accepts_seq s m n Q R : accepts s m Q → accepts s n R → accepts s (dseq m n) (Q ∧ R).
Proof.
  intros Hm Hn p d c E. unfold dseq in E. destruct (m (mkCtx p d s)) as [[p1 d1 s1]|] eqn:E1; [|done]. cbn [mbind option_bind] in E.
  destruct (Hm _ _ _ E1) as (Hp & Hs & Hc). cbn in Hp, Hs, Hc. subst. destruct (Hn _ _ _ E) as (? & ? & Hc'). split_and!; [done..|naive_solver].
Qed.
Lemma accepts_all {A} s (f : A → DM) l (Q : A → Prop) : (∀ x, x ∈ l → accepts s (f x) (Q x)) → accepts s (dall f l) (∀ x, x ∈ l → Q x).
Proof.
  induction l as [|x l IH]; intros H; cbn [dall]; [eapply accepts_impl; [apply accepts_ret|by intros _ x ?%elem_of_nil]|].
  eapply accepts_impl; [apply accepts_seq; [apply H; by left|apply IH; intros; apply H; by right]|]. intros [Hx Hl] y [->|Hy]%elem_of_cons; auto.
Qed.
Lemma accepts_add s k : accepts s (add k) (k ∈ COMPATIBLE).
Proof.
  intros p d c [= <-]. cbn. split_and!; [done..|]. intros [Hd Hk]%Forall_app. split; [done|]. apply Forall_cons in Hk as [Hk _].
  unfold incompatible in Hk. cbn in Hk. by apply negb_false_iff, bool_decide_eq_true in Hk.
Qed.
Lemma accepts_when s (b : bool) m Q : accepts s m Q → accepts s (dwhen b m) (b = true → Q).
Proof. intros H. destruct b; cbn; [eapply accepts_impl; [exact H|auto]|eapply accepts_impl; [apply accepts_ret|done]]. Qed.
Lemma accepts_within s name m Q : accepts s m Q → accepts s (within name m) Q.
Proof.
  intros H p d c E. unfold within, dseq, enter, leave in E. cbn [mbind option_bind cx_path cx_diffs cx_stack] in E.
  destruct (m _) as [[p1 d1 s1]|] eqn:E1; [|done]. injection E as <-. destruct (H _ _ _ E1) as (Hp & Hs & Hc). cbn in *. subst.
  by rewrite removelast_last.
Qed.
Lemma accepts_guarded s key m Q : accepts (s ++ [key]) m Q → accepts s (dseq (push_stack key) (dseq m pop_stack)) Q.
Proof.
  intros H p d c E. unfold dseq, push_stack, pop_stack in E. cbn [mbind option_bind cx_path cx_diffs cx_stack] in E.
  destruct (m _) as [[p1 d1 s1]|] eqn:E1; [|done]. injection E as <-. destruct (H _ _ _ E1) as (Hp & Hs & Hc). cbn in *. subst.
  by rewrite removelast_last.
Qed.
Lemma accepts_refused s k : k ∉ COMPATIBLE → accepts s (add k) False.
Proof. intros Hk. eapply accepts_impl; [apply accepts_add|done]. Qed.
End steps.

(** Whether a kind of difference is one of the compatible ones. *)
Ltac listed := apply (bool_decide_unpack _); vm_compute; exact I.

(** * Agreement *)

Section agree.
Context {reflect : Reflect} {laws : ReflectLaws}.

(** The types of two fields, with their labels, are of the same kind. *)
Fixpoint agree (ol ul : option Label) (ot ut : FieldType) : Prop :=
  kind ot = kind ut ∧
  match ot, ut with
  | FMap ok ov, FMap uk uv => agree None None ok uk ∧ agree None None ov uv
  | FMessage om, FMessage um => local_name om = local_name um
  | _, _ => scalar_kind ot = scalar_kind ut ∧ (scalar_kind ot ≠ "STRING_OR_BYTES" → ∀ a b, ol = Some a → ul = Some b → a = b)
  end.
Definition field_agrees (f g : FieldDescriptor) : Prop :=
  ∃ ot ut, type_of f = Some ot ∧ type_of g = Some ut ∧ agree (explicit_label f) (explicit_label g) ot ut.

(** Messages of the same name at the same place. *)
Definition find_message (name : string) (l : list MessageDescriptor) : option MessageDescriptor :=
  snd <$> position (λ m, bool_decide (msg_name m = name)) l.
Definition none_removed (orig upd : list MessageDescriptor) : Prop :=
  ∀ o, o ∈ orig → ∃ u, find_message (msg_name o) upd = Some u.

(** The fields of two messages agree. *)
Definition fields_agree (o u : MessageDescriptor) : Prop :=
  (∀ f g, f ∈ regular o → g ∈ regular u → number f = number g → field_agrees f g) ∧
  (∀ f, f ∈ regular o → is_required f = true → ∃ g, g ∈ fields u ∧ number g = number f) ∧
  (∀ g, g ∈ regular u → is_required g = true → ∃ f, f ∈ regular o ∧ number f = number g) ∧
  (∀ name os us f, find_oneof name (real_oneofs o) = Some os → find_oneof name (real_oneofs u) = Some us → f ∈ os →
     ∃ g, g ∈ us ∧ number g = number f ∧ field_agrees f g).

Lemma collected_elem {K} `{EqDecision K, JavaHash K} (a b : list K) x :
  x ∈ js_ordered (js_extend (from_collection a) b) ↔ x ∈ a ∨ x ∈ b.
Proof.
  unfold js_ordered, from_collection. rewrite by_bucket_Permutation. set (e := mkJavaSet [] _).
  destruct (js_extend_spec e a NoDup_nil_2) as [Hnd Hel]. rewrite (proj2 (js_extend_spec _ b Hnd)), Hel. simpl. rewrite elem_of_nil. naive_solver.
Qed.
Lemma map_elem {K} `{EqDecision K, JavaHash K} (a : list K) x : x ∈ map_order a ↔ x ∈ a.
Proof. apply (java_orders_complete a []). Qed.
Lemma union_elem {K} `{EqDecision K, JavaHash K} (a b : list K) x : x ∈ union_order a b ↔ x ∈ a ∨ x ∈ b.
Proof. apply java_orders_complete. Qed.
Lemma all_tags_elem before left upd t :
  t ∈ all_tags before left upd ↔ ((∃ f, f ∈ left ∧ number f = t) ∧ ∃ f, f ∈ before ∧ number f = t) ∨ ∃ g, g ∈ upd ∧ number g = t.
Proof.
  unfold all_tags. rewrite collected_elem, list_elem_of_filter, !map_elem, !list_elem_of_fmap.
  assert (existsb (has_number t) left = true ↔ ∃ f, f ∈ left ∧ number f = t) as ->; [|naive_solver].
  rewrite existsb_exists. setoid_rewrite <-list_elem_of_In. unfold has_number. by setoid_rewrite bool_decide_eq_true.
Qed.

Section body.
Variable od ud : gmap string string.
Variable rec : MessageDescriptor → MessageDescriptor → DM.
Variable s : list string.
Hypothesis Hrec : ∀ o u, accepts s (rec o u) True.

Lemma compare_message_types_accepts om um : accepts s (compare_message_types od ud rec om um) (local_name om = local_name um).
Proof using Hrec.
  intros p d c E. unfold compare_message_types in E. case_decide as Hl; [|eapply accepts_refused in E as (? & ? & Hc); [|listed]; split_and!; [done..|naive_solver]].
  destruct (same_origin _ _ _ _); [by injection E as <-|]. cbn [cx_path cx_diffs cx_stack] in E.
  destruct (rec om um _) as [[p1 d1 s1]|] eqn:E1; [|done]. cbn [mbind option_bind cx_path cx_diffs cx_stack] in E.
  destruct (Hrec _ _ _ _ _ E1) as (_ & Hs & Hc). cbn in Hs, Hc. subst.
  destruct (accepts_when s _ _ _ (accepts_add s _) _ _ _ E) as (? & ? & Hc'). split_and!; [done..|]. naive_solver.
Qed.

Lemma compare_labels_accepts ot ut : ∀ ol ul, accepts s (compare_labels_and_types od ud rec ol ul ot ut) (agree ol ul ot ut).
Proof using Hrec.
  revert ut. induction ot as [x| |m|k IHk v IHv]; intros ut ol ul; cbn [compare_labels_and_types agree];
    (case_decide as Hk; [|eapply accepts_impl; [apply accepts_refused; listed|done]]); destruct ut; try discriminate Hk.
  1-4: destruct (decide _) as [Hsk|]; [|eapply accepts_impl; [apply accepts_refused; listed|done]];
    destruct ol as [a|], ul as [b|]; [|eapply accepts_impl; [apply accepts_ret|naive_solver]..];
    eapply accepts_impl; [apply accepts_when, accepts_add|]; intros H; split_and!; [done..|]; intros Hn ? ? [= <-] [= <-];
    rewrite (decide_False (P := _ = "STRING_OR_BYTES")) in H by done; destruct (decide (a = b)) as [|Hab]; [done|];
    rewrite bool_decide_eq_false_2 in H by done; specialize (H eq_refl); exfalso; revert H; listed.
  - eapply accepts_impl; [apply compare_message_types_accepts|done].
  - eapply accepts_impl; [apply accepts_seq; [apply IHk|apply IHv]|done].
Qed.

Lemma compare_field_accepts f g : accepts s (compare_field od ud rec f g) (field_agrees f g).
Proof using Hrec laws.
  unfold compare_field, field_agrees. destruct (type_of_total f) as [ot ->], (type_of_total g) as [ut ->].
  eapply accepts_impl; [apply accepts_seq; [apply accepts_when, accepts_add|apply compare_labels_accepts]|]. naive_solver.
Qed.

Lemma move_oneofs_accepts tags k Q : ∀ os orig,
  (∀ left, (∀ f, f ∈ left → f ∈ orig) → (∀ f, f ∈ orig → f ∈ left ∨ ∃ e g, e ∈ os ∧ g ∈ e.2 ∧ number g = number f) → accepts s (k left) Q) →
  accepts s (move_oneofs tags os orig k) Q.
Proof.
  induction os as [|[name fs] os IH]; intros orig Hk; cbn [move_oneofs]; [apply Hk; auto|].
  destruct (foldl _ _ fs) as [[left moved] existing] eqn:E. destruct (move_fields_spec _ _ _ _ _ _ _ _ E) as [Hsub Hall].
  assert (accepts s (moved_kind moved existing) True) as Hm.
  { unfold moved_kind. case_bool_decide; eapply accepts_impl; [apply accepts_add|done|apply accepts_when, accepts_add|done]. }
  eapply accepts_impl; [apply accepts_seq; [apply accepts_within, Hm|apply IH]|by intros [_ ?]].
  intros l Hl Hl'. apply Hk; [auto|]. intros f Hf. destruct (Hall f Hf) as [Hf'|(g & Hg & Hn)].
  - destruct (Hl' f Hf') as [?|(e & g & He & Hg & Hn)]; [by left|right]. exists e, g. split; [by right|done].
  - right. exists (name, fs), g. split; [by left|done].
Qed.

Lemma compare_oneofs_accepts o u :
  accepts s (dall (compare_oneof od ud rec (real_oneofs o) (real_oneofs u)) (union_order (real_oneofs o).*1 (real_oneofs u).*1))
    (∀ name os us f, find_oneof name (real_oneofs o) = Some os → find_oneof name (real_oneofs u) = Some us → f ∈ os →
       ∃ g, g ∈ us ∧ number g = number f ∧ field_agrees f g).
Proof using Hrec laws.
  eapply accepts_impl; [apply accepts_all with (Q := λ name, ∀ os us f, find_oneof name (real_oneofs o) = Some os →
    find_oneof name (real_oneofs u) = Some us → f ∈ os → ∃ g, g ∈ us ∧ number g = number f ∧ field_agrees f g)|].
  - intros name _. apply accepts_within. destruct (find_oneof name (real_oneofs o)) as [os|] eqn:Eo, (find_oneof name (real_oneofs u)) as [us|] eqn:Eu;
      [|eapply accepts_impl; [first [apply accepts_add|apply accepts_ret]|done]..].
    eapply accepts_impl; [apply accepts_all with (Q := λ tag, ∀ f, find_field tag os = Some f → ∃ g, g ∈ us ∧ number g = tag ∧ field_agrees f g)|].
    + intros tag _. apply accepts_within. destruct (find_field tag os) as [f|] eqn:Ef, (find_field tag us) as [g|] eqn:Eg.
      * eapply accepts_impl; [apply compare_field_accepts|]. intros Ha ? [= <-]. apply find_field_Some in Eg as [? ?]. eauto.
      * eapply accepts_impl; [apply accepts_refused; listed|done].
      * eapply accepts_impl; [apply accepts_add|done].
      * eapply accepts_impl; [apply accepts_ret|done].
    + intros H ? ? f [= <-] [= <-] Hf. destruct (find_field (number f) os) as [f'|] eqn:Ef.
      * pose proof (find_field_Some _ _ _ Ef) as [Hf' Hn]. pose proof (find_oneof_elem _ _ _ Eo) as He.
        assert (f' = f) as -> by (apply (number_unique o); [eapply oneof_elem; [exact He|done]..|done]).
        apply H; [|done]. apply union_elem. left. apply list_elem_of_fmap. eauto.
      * exfalso. by apply (proj1 (find_field_None _ _) Ef f).
  - intros H name os us f Eo Eu Hf. apply (H name) with os; [|done..]. apply union_elem. left. apply find_oneof_elem in Eo.
    apply list_elem_of_fmap. by exists (name, os).
Qed.

Lemma compare_tags_accepts o u left : (∀ f, f ∈ left → f ∈ regular o) →
  accepts s (dall (compare_tag od ud rec left (regular u)) (all_tags (regular o) left (regular u)))
    ((∀ f g, f ∈ left → g ∈ regular u → number f = number g → field_agrees f g) ∧
     (∀ f, f ∈ left → is_required f = true → ∃ g, g ∈ regular u ∧ number g = number f) ∧
     (∀ g, g ∈ regular u → is_required g = true → ∃ f, f ∈ left ∧ number f = number g)).
Proof using Hrec laws.
  intros Hsub.
  eapply accepts_impl; [apply accepts_all with (Q := λ tag,
    (∀ f g, find_field tag left = Some f → find_field tag (regular u) = Some g → field_agrees f g) ∧
    (∀ f, find_field tag left = Some f → find_field tag (regular u) = None → is_required f = false) ∧
    (∀ g, find_field tag left = None → find_field tag (regular u) = Some g → is_required g = false))|].
  - intros tag _. apply accepts_within. destruct (find_field tag left) as [f|] eqn:Ef, (find_field tag (regular u)) as [g|] eqn:Eg.
    + eapply accepts_impl; [apply compare_field_accepts|naive_solver].
    + eapply accepts_impl; [apply accepts_add|]. intros Hk. split_and!; [done| |done]. intros ? [= <-] _. destruct (is_required f); [|done].
      exfalso. revert Hk. listed.
    + eapply accepts_impl; [apply accepts_add|]. intros Hk. split_and!; [done..|]. intros ? _ [= <-]. destruct (is_required g); [|done].
      exfalso. revert Hk. listed.
    + eapply accepts_impl; [apply accepts_ret|done].
  - intros H. assert (∀ l m f, (∀ x, x ∈ l → x ∈ fields m) → f ∈ l → find_field (number f) l = Some f) as Hfind.
    { intros l m f Hl Hf. destruct (find_field (number f) l) as [f'|] eqn:E; [|exfalso; by apply (proj1 (find_field_None _ _) E f)].
      apply find_field_Some in E as [Hf' Hn]. f_equal. by apply (number_unique m); [apply Hl..|]. }
    assert (∀ f, f ∈ left → find_field (number f) left = Some f) as Hleft.
    { intros f. apply (Hfind _ o). by intros x [_ ?]%Hsub%regular_elem. }
    assert (∀ g, g ∈ regular u → find_field (number g) (regular u) = Some g) as Hreg.
    { intros g. apply (Hfind _ u). by intros x [_ ?]%regular_elem. }
    split_and!.
    + intros f g Hf Hg Hn. destruct (H (number f)) as (Ha & _ & _); [apply all_tags_elem; left; split; eauto|].
      apply Ha; [by apply Hleft|]. rewrite Hn. by apply Hreg.
    + intros f Hf Hreq. destruct (H (number f)) as (_ & Hr & _); [apply all_tags_elem; left; split; eauto|].
      specialize (Hr f (Hleft f Hf)). destruct (find_field (number f) (regular u)) as [g|] eqn:E; [apply find_field_Some in E; eauto|].
      rewrite Hr in Hreq by done. done.
    + intros g Hg Hreq. destruct (H (number g)) as (_ & _ & Hr); [apply all_tags_elem; right; eauto|].
      specialize (Hr g). destruct (find_field (number g) left) as [f|] eqn:E; [apply find_field_Some in E; eauto|].
      rewrite Hr in Hreq; [done..|by apply Hreg].
Qed.

Lemma compare_body_accepts o u : accepts s (compare_message_body od ud rec o u) (fields_agree o u).
Proof using Hrec laws.
  apply move_oneofs_accepts. intros left Hsub Hall.
  eapply accepts_impl; [apply accepts_seq; [apply compare_oneofs_accepts|by apply compare_tags_accepts]|].
  intros (Hone & Hag & Hreq & Hadd). unfold fields_agree. split_and!; [| | |done].
  - intros f g Hf Hg Hn. apply Hag; [|done..]. destruct (Hall f Hf) as [?|([name fs] & g' & He & Hg' & Hn')]; [done|].
    exfalso. eapply oneof_not_regular; [exact He|exact Hg'|exact Hg|congruence].
  - intros f Hf Hr. destruct (Hall f Hf) as [Hl|([name fs] & g' & He & Hg' & Hn')].
    + destruct (Hreq f Hl Hr) as (g & Hg & Hn). exists g. split; [by apply regular_elem in Hg as [_ ?]|done].
    + exists g'. split; [eapply oneof_elem; [exact He|done]|done].
  - intros g Hg Hr. destruct (Hadd g Hg Hr) as (f & Hf & Hn). eauto.
Qed.

Lemma compare_types_accepts Q orig upd : (∀ o u, accepts s (rec o u) (Q o u)) →
  accepts s (compare_types rec orig upd)
    (none_removed orig upd ∧ ∀ name o u, find_message name orig = Some o → find_message name upd = Some u → Q o u).
Proof.
  intros HQ. unfold compare_types.
  eapply accepts_impl; [apply accepts_all with (Q := λ name, ∀ o, find_message name orig = Some o → ∃ u, find_message name upd = Some u ∧ Q o u)|].
  - intros name _. apply accepts_within. unfold find_message. destruct (position _ orig) as [[i o]|], (position _ upd) as [[j u]|].
    + eapply accepts_impl; [apply accepts_seq; [apply HQ|apply accepts_when, accepts_add]|]. intros [? _] ? [= <-]. eauto.
    + eapply accepts_impl; [apply accepts_refused; listed|done].
    + eapply accepts_impl; [apply accepts_add|done].
    + eapply accepts_impl; [apply accepts_ret|done].
  - intros H. assert (∀ name o, find_message name orig = Some o → msg_name o = name ∧ o ∈ orig) as Hf.
    { intros name o. unfold find_message. destruct (position _ _) as [[i x]|] eqn:E; [|done]. intros [= <-].
      apply position_elem in E as [? ?%bool_decide_eq_true]. done. }
    assert (∀ name o, find_message name orig = Some o → ∃ u, find_message name upd = Some u ∧ Q o u) as H'.
    { intros name o E. destruct (Hf _ _ E) as [<- Ho]. apply (H (msg_name o)); [|done]. apply union_elem. left. apply list_elem_of_fmap. eauto. }
    split; [|intros name o u Eo Eu; destruct (H' _ _ Eo) as (u' & Eu' & ?); by simplify_eq].
    intros o Ho. destruct (find_message (msg_name o) orig) as [o'|] eqn:E; [destruct (H' _ _ E) as (u & ? & _); eauto|].
    exfalso. unfold find_message in E. destruct (position _ orig) as [[? ?]|] eqn:Ep; [done|].
    pose proof (proj1 (position_None _ _) Ep o Ho) as Hx. by apply bool_decide_eq_false in Hx.
Qed.
End body.

(** [x] and [y] are found by the same names inside [o] and [u]. *)
Inductive below : MessageDescriptor → MessageDescriptor → MessageDescriptor → MessageDescriptor → Prop :=
| below_here o u : below o u o u
| below_child name o u c d x y : find_message name (named (child_messages o)) = Some c → find_message name (named (child_messages u)) = Some d →
    below c d x y → below o u x y.

Lemma compare_message_accepts od ud fuel : ∀ s o u, accepts s (compare_message od ud fuel o u)
  (∀ x y, below o u x y → (full_name x ∉ s → fields_agree x y) ∧ none_removed (named (child_messages x)) (named (child_messages y))).
Proof using laws.
  induction fuel as [|fuel IH]; intros s o u; [by intros p d c|]. intros p d c E.
  assert (∀ s o u, accepts s (compare_message od ud fuel o u) True) as Hrec by (intros; eapply accepts_impl; [apply IH|done]).
  cbn [compare_message cx_stack] in E.
  refine (accepts_impl s _ _ _ (accepts_seq s _ _ _ _ (accepts_when s _ _ _ (accepts_guarded s _ _ _ (compare_body_accepts od ud _ _ (Hrec _) o u)))
            (compare_types_accepts _ s _ _ _ (IH s))) _ p d c E).
  intros (Hb & Hn & Hc) x y Hxy. inversion Hxy as [|name o' u' c' d' x' y' Eo Eu Hbelow]; subst.
  - split; [|done]. intros Hs. apply Hb. by rewrite bool_decide_eq_false_2.
  - by apply (Hc _ _ _ Eo Eu).
Qed.

End agree.


(** * Incompatible readers that are accepted *)

(** Two regular fields with the same number, and of types that are not the same
    on the wire. *)
Definition kinds_differ `{!Reflect} (f g : FieldDescriptor) : Prop :=
  number f = number g ∧ ∃ ot ut, type_of f = Some ot ∧ type_of g = Some ut ∧ scalar_kind ot ≠ scalar_kind ut.

(** A field that moves into a new oneof, or out of a oneof that is dropped, may
    change its type at the same time: string and int32 are accepted for each
    other, which [FIELD_SCALAR_KIND_CHANGED] reports when the field stays. *)
Theorem moved_field_type_unchecked :
  (∃ f g, f ∈ fields 6 ∧ g ∈ fields 7 ∧ kinds_differ f g) ∧ can_read_fuel 20 (example [3] ∅) (example [2] ∅) new_old = Some [] ∧
  (∃ f g, f ∈ fields 8 ∧ g ∈ fields 9 ∧ kinds_differ f g) ∧ can_read_fuel 20 (example [5] ∅) (example [4] ∅) new_old = Some [] ∧
  can_read_fuel 20 (example [5] ∅) (example [2] ∅) new_old ≠ Some [].
Proof.
  split_and!; try (vm_compute; first [reflexivity|discriminate]).
  - eexists (6, _), (7, _). split_and!; [by left..|]. split; [done|]. eexists _, _. split_and!; [vm_compute; reflexivity..|vm_compute; discriminate].
  - eexists (8, _), (9, _). split_and!; [by left..|]. split; [done|]. eexists _, _. split_and!; [vm_compute; reflexivity..|vm_compute; discriminate].
Qed.

(** The guard against recursion knows the writer's message only: while [d.D] is
    compared with [e.D], its field [next] is not compared with [f.D], although
    [x] is an int32 in one and a string in the other. *)
Theorem guard_hides_other_type :
  can_read_fuel 20 (example [8; 9; 10] {["e.proto" := "e"; "f.proto" := "f"]}) (example [6; 7] {["d.proto" := "d"]}) new_old = Some [] ∧
  ∃ f g, f ∈ fields 11 ∧ g ∈ fields 14 ∧ kinds_differ f g.
Proof.
  split; [vm_compute; reflexivity|]. eexists (11, _), (14, _). split_and!; [right; by left..|]. split; [done|].
  eexists _, _. split_and!; [vm_compute; reflexivity..|vm_compute; discriminate].
Qed.
