(* ===== verification/ProtoLex.v ===== *)
(** The lexer of [.proto] sources (schema/proto_wire.rs, [tokenize]), and when a
    text spells a list of tokens. *)
From S2P Require Import Prelude SortedVec RustStr.

Open Scope string_scope.
Open Scope nat_scope.
Open Scope list_scope.

(** * Characters *)

(** The Unicode tables of the standard library, for what is not ASCII. *)
Class UnicodeTables := {
  unicode_alphabetic : string → bool;
  unicode_numeric : string → bool;
}.

(** [str::chars], each character by its encoding. *)
Fixpoint chars_fuel (fuel : nat) (s : string) : list string :=
  match fuel, s with
  | S fuel, String _ _ => let n := (utf8_step s).1 in str_take n s :: chars_fuel fuel (str_drop n s)
  | _, _ => []
  end.
Definition chars (s : string) : list string := chars_fuel (String.length s) s.

(** A test that holds of ASCII characters only. *)
Definition ascii_is (f : ascii → bool) (ch : string) : bool := match ch with String c "" => f c | _ => false end.
Definition is_char (c : ascii) (ch : string) : bool := bool_decide (ch = str1 c).
Definition is_letter (c : ascii) : bool := is_ascii_upper c || is_ascii_lower c.
Definition DQUOTE : ascii := byte 34.
Definition SQUOTE : ascii := byte 39.
Definition BACKSLASH : ascii := byte 92.
Definition NEWLINE : ascii := byte 10.

Inductive Tok :=
| TIdent (s : string)
| TStr (s : string)
| TNum (s : string)
| TSym (c : ascii).
#[export] Instance Tok_eq_dec : EqDecision Tok.
Proof. solve_decision. Defined.

Section lexer.
Context {tables : UnicodeTables}.

Definition is_whitespace (ch : string) : bool := bool_decide (ch ∈ white_space).
Definition is_alphabetic (ch : string) : bool := match ch with String c "" => is_letter c | _ => unicode_alphabetic ch end.
Definition is_alphanumeric (ch : string) : bool :=
  match ch with String c "" => is_ascii_alphanumeric c | _ => unicode_alphabetic ch || unicode_numeric ch end.

(** ** The pieces of the loop *)

Fixpoint skip_line (c : list string) : list string :=
  match c with
  | ch :: rest => if is_char NEWLINE ch then c else skip_line rest
  | [] => []
  end.
(** After the opening of a block comment; an unclosed one takes everything. *)
Fixpoint skip_block (c : list string) : list string :=
  match c with
  | a :: (b :: rest) as c' => if is_char "*" a && is_char "/" b then rest else skip_block c'
  | _ => []
  end.
(** After the opening quote; what the escapes escape is kept with them. *)
Fixpoint read_string (q : string) (c : list string) (s : string) : string * list string :=
  match c with
  | [] => (s, [])
  | ch :: rest =>
      if bool_decide (ch = q) then (s, rest)
      else if is_char BACKSLASH ch then
        match rest with
        | e :: rest => read_string q rest ((s +:+ ch) +:+ e)
        | [] => (s +:+ ch, [])
        end
      else read_string q rest (s +:+ ch)
  end.
(** Further characters of a number; [prev] is the one before. *)
Definition num_char (prev ch : string) : bool :=
  ascii_is is_ascii_alphanumeric ch || is_char "." ch ||
  (is_char "-" ch || is_char "+" ch) && (is_char "e" prev || is_char "E" prev).
Fixpoint take_num (prev : string) (c : list string) : string * list string :=
  match c with
  | ch :: rest => if num_char prev ch then let '(s, rest) := take_num ch rest in (ch +:+ s, rest) else ("", c)
  | [] => ("", [])
  end.
Definition ident_char (ch : string) : bool := is_alphanumeric ch || is_char "_" ch || is_char "." ch.
Fixpoint take_ident (c : list string) : string * list string :=
  match c with
  | ch :: rest => if ident_char ch then let '(s, rest) := take_ident rest in (ch +:+ s, rest) else ("", c)
  | [] => ("", [])
  end.
Definition name_start (ch : string) : bool := is_alphabetic ch || is_char "_" ch.
Definition SYMBOLS : list ascii := ["{"; "}"; "["; "]"; "("; ")"; "<"; ">"; ";"; ","; "="; ":"; "-"]%char.
Definition is_symbol (c : ascii) : bool := bool_decide (c ∈ SYMBOLS).

(** Adjacent string literals concatenate ([out] is kept newest first). *)
Definition push_str (s : string) (out : list Tok) : list Tok :=
  match out with
  | TStr prev :: out => TStr (prev +:+ s) :: out
  | _ => TStr s :: out
  end.

Definition starts_num (ch : string) (rest : list string) : bool :=
  ascii_is is_ascii_digit ch ||
  is_char "-" ch && match rest with d :: _ => ascii_is is_ascii_digit d || is_char "." d | [] => false end.
Definition starts_ident (ch : string) (rest : list string) : bool :=
  name_start ch || is_char "." ch && match rest with d :: _ => name_start d | [] => false end.
Definition second_is (c : ascii) (rest : list string) : bool := match rest with d :: _ => is_char c d | [] => false end.

(** One round of the loop: what is left, and what was read. [None] ends it. *)
Definition lex_step (ch : string) (rest : list string) (out : list Tok) : option (list string * list Tok) :=
  if is_whitespace ch then Some (rest, out)
  else if is_char "/" ch && second_is "/" rest then Some (skip_line (ch :: rest), out)
  else if is_char "/" ch && second_is "*" rest then Some (skip_block (tail rest), out)
  else if is_char DQUOTE ch || is_char SQUOTE ch then
    let '(s, rest) := read_string ch rest "" in Some (rest, push_str s out)
  else if starts_num ch rest then let '(s, rest) := take_num ch rest in Some (rest, TNum (ch +:+ s) :: out)
  else if starts_ident ch rest then let '(s, rest) := take_ident rest in Some (rest, TIdent (ch +:+ s) :: out)
  else match ch with
       | String c "" => if is_symbol c then Some (rest, TSym c :: out) else None
       | _ => None
       end.

Fixpoint tokenize_loop (fuel : nat) (c : list string) (out : list Tok) : option (list Tok) :=
  match c, fuel with
  | [], _ => Some (reverse out)
  | ch :: rest, S fuel => '(c, out) ← lex_step ch rest out; tokenize_loop fuel c out
  | _ :: _, 0 => None
  end.
Definition tokenize (src : string) : option (list Tok) := tokenize_loop (length (chars src)) (chars src) [].
End lexer.

(** * Characters and text *)

Fixpoint cat (cs : list string) : string := match cs with [] => "" | ch :: cs => ch +:+ cat cs end.
Lemma cat_app a b : cat (a ++ b) = cat a +:+ cat b.
Proof. induction a as [|ch a IH]; [done|]. cbn. by rewrite IH, str_app_assoc. Qed.

(** One encoded character. *)
Definition one_char (ch : string) : Prop := ch ≠ "" ∧ utf8_step ch = (String.length ch, true).
#[export] Instance one_char_dec ch : Decision (one_char ch).
Proof. unfold one_char. apply _. Defined.

Lemma utf8_step_prefix a b n : utf8_step a = (n, true) → n = String.length a → a ≠ "" → utf8_step (a +:+ b) = (n, true).
Proof.
  unfold utf8_step. destruct a as [|c0 [|c1 [|c2 [|c3 a]]]]; intros H Hn He; [done|..]; cbn [String.length] in Hn; subst n; revert H;
    repeat match goal with |- context [byte_at (String ?c ?s) ?i] => progress change (byte_at (String c s +:+ b) i) with (byte_at (String c (s +:+ b)) i) end;
    cbn [byte_at String.get String.append]; repeat case_match; try discriminate; try done.
Qed.
Lemma one_char_step ch b : one_char ch → utf8_step (ch +:+ b) = (String.length ch, true).
Proof. intros [H1 H2]. by apply utf8_step_prefix. Qed.

Lemma chars_fuel_enough n s : String.length s ≤ n → chars_fuel n s = chars s.
Proof.
  unfold chars. remember (String.length s) as k eqn:Hk. assert (String.length s ≤ k) as Hle by lia. clear Hk. revert n s Hle.
  induction k as [k IH] using lt_wf_ind. intros n [|c s] Hle Hn; [by destruct n, k|]. destruct n as [|n], k as [|k]; cbn in Hle; [lia..|].
  cbn [chars_fuel]. pose proof (utf8_step_pos (String c s)) as Hp. f_equal.
  assert (String.length (str_drop (utf8_step (String c s)).1 (String c s)) ≤ k) as Hd by (rewrite str_drop_length; cbn; lia). apply (IH k); [lia|done|lia].
Qed.
Lemma chars_cons ch b : one_char ch → chars (ch +:+ b) = ch :: chars b.
Proof.
  intros Hch. pose proof (one_char_step ch b Hch) as Hstep. destruct Hch as [Hne _]. destruct ch as [|c ch]; [done|].
  unfold chars at 1. cbn [String.append String.length chars_fuel]. change (String c (ch +:+ b)) with (String c ch +:+ b). rewrite Hstep. cbn [fst].
  rewrite str_take_app, str_drop_app. f_equal. apply chars_fuel_enough. rewrite str_length_app. lia.
Qed.
Lemma chars_app cs b : Forall one_char cs → chars (cat cs +:+ b) = cs ++ chars b.
Proof. induction 1 as [|ch cs Hch _ IH]; [done|]. cbn [cat]. rewrite str_app_assoc, chars_cons by done. cbn. by f_equal. Qed.
Lemma ascii_char c : cval c < 128 → one_char (str1 c).
Proof. intros H. split; [done|]. unfold utf8_step. cbn. by rewrite bool_decide_eq_true_2. Qed.
Lemma chars_ascii c s : cval c < 128 → chars (String c s) = str1 c :: chars s.
Proof. intros H. by apply (chars_cons (str1 c)), ascii_char. Qed.

Lemma chars_head c s : ∃ x r, chars (String c s) = String c x :: r.
Proof.
  unfold chars. cbn [String.length chars_fuel]. pose proof (utf8_step_pos (String c s)) as Hp. destruct (utf8_step (String c s)) as [[|n] ok]; cbn [fst] in *; [lia|].
  cbn [str_take]. eauto.
Qed.

(** What Rust guarantees of a string: it is made of characters. *)
Lemma valid_chars s : utf8_valid s = true → Forall one_char (chars s) ∧ cat (chars s) = s.
Proof.
  remember (String.length s) as n eqn:Hn. revert s Hn. induction n as [n IH] using lt_wf_ind. intros [|c s] Hn Hv; [done|].
  assert (∃ k, utf8_step (String c s) = (k, true) ∧ utf8_valid (str_drop k (String c s)) = true) as (k & Hk & Hd).
  { unfold utf8_valid in Hv. cbn [String.length utf8_valid_fuel] in Hv. destruct (utf8_step (String c s)) as [k ok] eqn:Ek. apply andb_true_iff in Hv as [-> Hv].
    exists k. split; [done|]. rewrite <-(utf8_valid_enough (String.length s)); [done|]. rewrite str_drop_length. pose proof (utf8_step_pos (String c s)) as Hp. rewrite Ek in Hp. cbn in *. lia. }
  pose proof (utf8_step_pos (String c s)) as Hp. rewrite Hk in Hp. cbn [fst] in Hp.
  unfold chars at 1 2. cbn [String.length chars_fuel]. rewrite Hk. cbn [fst].
  rewrite chars_fuel_enough by (rewrite str_drop_length; cbn; lia).
  destruct (IH (String.length (str_drop k (String c s)))) with (s := str_drop k (String c s)) as [Hall Hcat]; [rewrite str_drop_length; subst n; cbn; lia|done|done|].
  split; [|cbn [cat]; rewrite <-(str_take_drop k (String c s)) at 3; f_equal; exact Hcat].
  constructor; [|done]. revert Hk Hp. clear. intros Hk Hp. split; [destruct k; [lia|done]|].
  unfold utf8_step in Hk. repeat match type of Hk with context [if ?b then _ else _] => destruct b eqn:? end; injection Hk as <-;
    destruct s as [|c1 [|c2 [|c3 s]]]; try discriminate; unfold utf8_step; cbn in *;
    repeat match goal with H : _ = true |- _ => rewrite H; clear H | H : _ = false |- _ => rewrite H; clear H end; done.
Qed.


(** * The loop ends *)

Section lexing.
Context {tables : UnicodeTables}.

Lemma skip_line_length c : length (skip_line c) ≤ length c.
Proof. induction c as [|ch c IH]; [done|]. cbn. destruct (is_char _ _); cbn; lia. Qed.
Lemma skip_block_length c : length (skip_block c) ≤ length c.
Proof.
  induction c as [|a c IH]; [done|]. destruct c as [|b rest]; [cbn; lia|]. change (skip_block (a :: b :: rest)) with (if is_char "*" a && is_char "/" b then rest else skip_block (b :: rest)).
  destruct (_ && _); cbn in *; lia.
Qed.
Lemma read_string_length q : ∀ c s, length (read_string q c s).2 ≤ length c.
Proof.
  assert (∀ n c s, length c ≤ n → length (read_string q c s).2 ≤ length c) as H; [|intros; by eapply H].
  induction n as [|n IH]; intros [|ch c] s Hn; cbn in *; try lia. destruct (bool_decide _); cbn; [lia|]. destruct (is_char _ _).
  - destruct c as [|e c]; cbn in *; [lia|]. specialize (IH c ((s +:+ ch) +:+ e)). lia.
  - specialize (IH c (s +:+ ch)). lia.
Qed.
Lemma take_num_length prev c : length (take_num prev c).2 ≤ length c.
Proof. revert prev. induction c as [|ch c IH]; intros prev; cbn; [lia|]. destruct (num_char _ _); cbn; [|lia]. specialize (IH ch). destruct (take_num ch c); cbn in *; lia. Qed.
Lemma take_ident_length c : length (take_ident c).2 ≤ length c.
Proof. induction c as [|ch c IH]; cbn; [lia|]. destruct (ident_char _); cbn; [|lia]. destruct (take_ident c); cbn in *; lia. Qed.

Lemma lex_step_length ch rest out c out' : lex_step ch rest out = Some (c, out') → length c ≤ length rest.
Proof.
  unfold lex_step. destruct (is_whitespace ch); [by intros [= <- _]|].
  destruct (is_char "/" ch && second_is "/" rest) eqn:E1.
  { intros [= <- _]. cbn. apply andb_true_iff in E1 as [E1 _]. apply bool_decide_eq_true in E1 as ->. cbn. apply skip_line_length. }
  destruct (is_char "/" ch && second_is "*" rest) eqn:E2.
  { intros [= <- _]. pose proof (skip_block_length (tail rest)). destruct rest; cbn in *; lia. }
  destruct (_ || _). { pose proof (read_string_length ch rest "") as H. destruct (read_string ch rest ""). by intros [= <- _]. }
  destruct (starts_num ch rest). { pose proof (take_num_length ch rest) as H. destruct (take_num ch rest). by intros [= <- _]. }
  destruct (starts_ident ch rest). { pose proof (take_ident_length rest) as H. destruct (take_ident rest). by intros [= <- _]. }
  destruct ch as [|a [|]]; try done. destruct (is_symbol a); [|done]. by intros [= <- _].
Qed.

(** One round for each character is enough. *)
Lemma tokenize_fuel n c out : length c ≤ n → tokenize_loop n c out = tokenize_loop (length c) c out.
Proof.
  remember (length c) as k eqn:Hk. assert (length c ≤ k) as Hle by lia. clear Hk. revert n c out Hle.
  induction k as [k IH] using lt_wf_ind. intros n [|ch rest] out Hle Hn; [by destruct n, k|]. destruct n as [|n], k as [|k]; cbn in Hle; [lia..|].
  cbn [tokenize_loop]. destruct (lex_step ch rest out) as [[c out']|] eqn:E; [|done]. apply lex_step_length in E. cbn [mbind option_bind]. apply (IH k); lia.
Qed.
Definition lex_all (c : list string) (out : list Tok) : option (list Tok) := tokenize_loop (length c) c out.
Lemma lex_all_cons ch rest out : lex_all (ch :: rest) out = '(c, out) ← lex_step ch rest out; lex_all c out.
Proof.
  unfold lex_all. cbn [length tokenize_loop]. destruct (lex_step ch rest out) as [[c out']|] eqn:E; [|done]. apply lex_step_length in E. cbn [mbind option_bind]. by apply tokenize_fuel.
Qed.

(** * Spelling *)

(** ** Tokens that can be written *)

(** A string between double quotes that reads back, on one line. *)
Definition quotable (s : string) : Prop := (∀ rest, read_string (str1 DQUOTE) (chars s ++ str1 DQUOTE :: rest) "" = (s, rest)) ∧ lacks NEWLINE s.

Fixpoint num_chars (prev : string) (cs : list string) : Prop :=
  match cs with [] => True | ch :: cs => num_char prev ch = true ∧ num_chars ch cs end.

Definition tok_ok (t : Tok) : Prop :=
  match t with
  | TIdent s => ∃ ch cs, s = ch +:+ cat cs ∧ Forall one_char (ch :: cs) ∧ is_whitespace ch = false ∧ starts_ident ch cs = true ∧ Forall (λ x, ident_char x = true) cs
  | TNum s => ∃ ch cs, s = ch +:+ cat cs ∧ Forall one_char (ch :: cs) ∧ starts_num ch cs = true ∧ num_chars ch cs
  | TStr s => ∃ cs, s = cat cs ∧ Forall one_char cs ∧ quotable s
  | TSym c => is_symbol c = true
  end.

Definition quoted (s : string) : string := String DQUOTE (s +:+ str1 DQUOTE).
Definition tok_text (t : Tok) : string := match t with TIdent s | TNum s => s | TStr s => quoted s | TSym c => str1 c end.

(** ** Texts *)

(** Of the next character, which is an ASCII one. *)
Definition first_char (f : string → Prop) (s : string) : Prop := match s with String c _ => cval c < 128 ∧ f (str1 c) | "" => True end.
Lemma first_char_chars f s : first_char f s → match chars s with ch :: _ => f ch | [] => True end.
Proof. destruct s as [|c s]; [done|]. intros [Hc Hf]. by rewrite chars_ascii. Qed.
(** What comes next does not run into the token. *)
Definition follows (t : Tok) (s : string) (ts : list Tok) : Prop :=
  match t with
  | TIdent _ => first_char (λ ch, ident_char ch = false) s
  | TNum _ => first_char (λ ch, ∀ prev, num_char prev ch = false) s
  | TStr _ => match ts with TStr _ :: _ => False | _ => True end
  | TSym c => c = "-"%char → match s with String d _ => is_ascii_digit d = false ∧ d ≠ "."%char | "" => True end
  end.

Inductive spelled : string → list Tok → Prop :=
| sp_nil : spelled "" []
| sp_space s ts : spelled s ts → spelled (String " " s) ts
| sp_line s ts : spelled s ts → spelled (String NEWLINE s) ts
| sp_tok t s ts : tok_ok t → follows t s ts → spelled s ts → spelled (tok_text t +:+ s) (t :: ts).

(** ** Reading a text that spells tokens *)

Lemma ascii_all (P : ascii → bool) : (forallb P (ascii_of_nat <$> seq 0 256) = true) → ∀ c, P c = true.
Proof.
  intros H c. rewrite forallb_forall in H. apply H. apply list_elem_of_In, list_elem_of_fmap. exists (cval c).
  split; [symmetry; apply ascii_nat_embedding|]. apply elem_of_seq. unfold cval. pose proof (nat_ascii_bounded c). lia.
Qed.
Lemma digit_plain c : is_ascii_digit c = true → is_whitespace (str1 c) = false ∧ is_char "/" (str1 c) = false ∧ (is_char DQUOTE (str1 c) || is_char SQUOTE (str1 c)) = false.
Proof.
  intros H. pose proof (ascii_all (λ c, negb (is_ascii_digit c) || (negb (is_whitespace (str1 c)) && negb (is_char "/" (str1 c)) && negb (is_char DQUOTE (str1 c) || is_char SQUOTE (str1 c)))) ltac:(vm_compute; reflexivity) c) as Hc.
  cbv beta in Hc. rewrite H in Hc. cbn [negb orb] in Hc. apply andb_true_iff in Hc as [[H1 H2]%andb_true_iff H3]. by rewrite !negb_true_iff in *.
Qed.
Lemma starts_num_ascii ch cs : starts_num ch cs = true → ∃ c, ch = str1 c ∧ (is_ascii_digit c = true ∨ c = "-"%char ∧ cs ≠ []).
Proof.
  unfold starts_num. intros [H|[H1 H2]%andb_true_iff]%orb_true_iff.
  - destruct ch as [|c []]; try done. exists c. auto.
  - apply bool_decide_eq_true in H1 as ->. exists "-"%char. split; [done|]. right. split; [done|]. by destruct cs.
Qed.
Lemma starts_num_app ch cs r : starts_num ch cs = true → starts_num ch (cs ++ r) = true.
Proof. unfold starts_num. destruct cs; [|exact (λ H, H)]. rewrite andb_false_r, orb_false_r. by intros ->. Qed.
Lemma starts_num_plain ch cs : starts_num ch cs = true → is_whitespace ch = false ∧ is_char "/" ch = false ∧ (is_char DQUOTE ch || is_char SQUOTE ch) = false.
Proof. intros (c & -> & [H|[-> _]])%starts_num_ascii; [by apply digit_plain|by vm_compute]. Qed.

Lemma starts_ident_app ch cs r : starts_ident ch cs = true → starts_ident ch (cs ++ r) = true.
Proof. unfold starts_ident. destruct cs; [|exact (λ H, H)]. rewrite andb_false_r, orb_false_r. by intros ->. Qed.
Definition name_ascii (c : ascii) : bool := is_letter c || bool_decide (c = "_"%char) || bool_decide (c = "."%char).
Lemma starts_ident_ascii c cs : starts_ident (str1 c) cs = true → name_ascii c = true.
Proof.
  unfold starts_ident, name_start. cbn [is_alphabetic str1]. unfold is_char. intros H.
  assert (∀ d, bool_decide (str1 c = str1 d) = bool_decide (c = d)) as E by (intros d; apply bool_decide_ext; split; [by intros [=]|by intros ->]).
  change (String c "") with (str1 c) in H. rewrite !E in H. unfold name_ascii. destruct (is_letter c || bool_decide (c = "_"%char)); [done|]. cbn in *. by apply andb_true_iff in H as [H _].
Qed.
Lemma starts_ident_plain ch cs r : starts_ident ch cs = true → is_char "/" ch = false ∧ (is_char DQUOTE ch || is_char SQUOTE ch) = false ∧ starts_num ch r = false.
Proof.
  intros H. destruct ch as [|c [|]]; [by unfold starts_num, is_char; rewrite !bool_decide_eq_false_2 by discriminate| |by unfold starts_num, is_char; rewrite !bool_decide_eq_false_2 by discriminate]. pose proof (starts_ident_ascii c cs H) as Hc.
  pose proof (ascii_all (λ c, negb (name_ascii c) ||
    (negb (is_char "/" (str1 c)) && negb (is_char DQUOTE (str1 c) || is_char SQUOTE (str1 c)) && negb (is_ascii_digit c) && negb (is_char "-" (str1 c)))) ltac:(vm_compute; reflexivity) c) as Hall.
  cbv beta in Hall. rewrite Hc in Hall. cbn [negb orb] in Hall. apply andb_true_iff in Hall as [[[H1 H2]%andb_true_iff H3]%andb_true_iff H4].
  rewrite !negb_true_iff in *. unfold str1 in *. split_and!; [done..|]. unfold starts_num. cbn [ascii_is]. by rewrite H3, H4.
Qed.

Lemma take_ident_spelled cs r : Forall (λ x, ident_char x = true) cs → match r with ch :: _ => ident_char ch = false | [] => True end → take_ident (cs ++ r) = (cat cs, r).
Proof.
  intros Hcs Hr. induction Hcs as [|ch cs Hch _ IH]; cbn.
  - destruct r as [|ch r]; [done|]. cbn. by rewrite Hr.
  - rewrite Hch. by rewrite IH.
Qed.
Lemma take_num_spelled cs r : match r with ch :: _ => ∀ prev, num_char prev ch = false | [] => True end → ∀ prev, num_chars prev cs → take_num prev (cs ++ r) = (cat cs, r).
Proof.
  intros Hr. induction cs as [|ch cs IH]; intros prev; cbn.
  - intros _. destruct r as [|ch r]; [done|]. cbn. by rewrite Hr.
  - intros [-> Hcs]. by rewrite IH.
Qed.

(** The newest token is not a string that would be continued. *)
Definition no_join (out ts : list Tok) : Prop := match out, ts with TStr _ :: _, TStr _ :: _ => False | _, _ => True end.

Lemma lex_tok t s ts out : tok_ok t → follows t s ts → no_join out (t :: ts) →
  lex_all (chars (tok_text t +:+ s)) out = lex_all (chars s) (t :: out) ∧ no_join (t :: out) ts.
Proof.
  intros Hok Hf Hj. split; [|by destruct t]. destruct t as [id|str|num|c]; cbn [tok_text tok_ok follows] in *.
  - destruct Hok as (ch & cs & -> & Hone & Hw & Hs & Hcs). rewrite str_app_assoc. change (ch +:+ cat cs +:+ s) with (ch +:+ (cat cs +:+ s)). apply Forall_cons in Hone as [H1 H2].
    rewrite chars_cons, chars_app, lex_all_cons by done. destruct (starts_ident_plain ch cs (cs ++ chars s) Hs) as (E1 & E2 & E3).
    unfold lex_step. rewrite Hw, E1, E2, E3, (starts_ident_app _ _ _ Hs), take_ident_spelled by (try done; by apply (first_char_chars (λ ch, ident_char ch = false))). done.
  - destruct Hok as (cs & Ecs & Hone & Hq & _). unfold quoted. change (String DQUOTE (str +:+ str1 DQUOTE) +:+ s) with (String DQUOTE ((str +:+ str1 DQUOTE) +:+ s)).
    rewrite chars_ascii, lex_all_cons by (vm_compute; lia). unfold lex_step.
    assert (read_string (str1 DQUOTE) (chars ((str +:+ str1 DQUOTE) +:+ s)) "" = (str, chars s)) as Er.
    { rewrite str_app_assoc. rewrite Ecs at 1. rewrite chars_app by done. change (str1 DQUOTE +:+ s) with (String DQUOTE s). rewrite chars_ascii by (vm_compute; lia).
      rewrite <-(Hq (chars s)). do 2 f_equal. rewrite Ecs, <-(str_app_nil_r (cat cs)), chars_app by done. by rewrite app_nil_r. }
    rewrite Er. change (is_whitespace (str1 DQUOTE)) with false. change (is_char "/" (str1 DQUOTE)) with false. change (is_char DQUOTE (str1 DQUOTE)) with true. cbn [andb orb mbind option_bind].
    f_equal. unfold push_str. by destruct out as [|[] out].
  - destruct Hok as (ch & cs & -> & Hone & Hs & Hcs). rewrite str_app_assoc. apply Forall_cons in Hone as [H1 H2].
    rewrite chars_cons, chars_app, lex_all_cons by done. destruct (starts_num_plain ch cs Hs) as (E1 & E2 & E3).
    unfold lex_step. rewrite E1, E2, E3, (starts_num_app _ _ _ Hs), take_num_spelled by (try done; by apply (first_char_chars (λ ch, ∀ prev, num_char prev ch = false))). done.
  - change (str1 c +:+ s) with (String c s). assert (cval c < 128) as Hc.
    { pose proof (ascii_all (λ c, negb (is_symbol c) || Nat.ltb (cval c) 128) ltac:(vm_compute; reflexivity) c) as Hall. cbv beta in Hall. rewrite Hok in Hall. cbn [negb orb] in Hall. by apply Nat.ltb_lt in Hall. }
    rewrite chars_ascii, lex_all_cons by done. unfold lex_step.
    pose proof (ascii_all (λ c, negb (is_symbol c) || (negb (is_whitespace (str1 c)) && negb (is_char "/" (str1 c)) && negb (is_char DQUOTE (str1 c) || is_char SQUOTE (str1 c)) && negb (is_ascii_digit c) &&
      negb (name_ascii c))) ltac:(vm_compute; reflexivity) c) as Hall. cbv beta in Hall. rewrite Hok in Hall. cbn [negb orb] in Hall.
    apply andb_true_iff in Hall as [[[[H1 H2]%andb_true_iff H3]%andb_true_iff H4]%andb_true_iff H5]. rewrite !negb_true_iff in *.
    assert (starts_ident (str1 c) (chars s) = false) as Ei by (apply not_true_iff_false; intros E%starts_ident_ascii; congruence).
    assert (starts_num (str1 c) (chars s) = false) as En.
    { unfold starts_num. change (ascii_is is_ascii_digit (str1 c)) with (is_ascii_digit c). rewrite H4. cbn [orb]. destruct (is_char "-" (str1 c)) eqn:Em; [|done]. apply bool_decide_eq_true in Em. injection Em as ->.
      specialize (Hf eq_refl). destruct s as [|d s]; [done|]. destruct (chars_head d s) as (x & r & ->). destruct Hf as [Hd Hdot]. destruct x; cbn [ascii_is].
      - rewrite Hd. unfold is_char. by rewrite bool_decide_eq_false_2 by (intros [=]; done).
      - unfold is_char. by rewrite bool_decide_eq_false_2 by done. }
    rewrite H1, H2, H3, En, Ei. cbn [andb str1]. by rewrite Hok.
Qed.

Lemma tokenize_spelled s ts : spelled s ts → ∀ out, no_join out ts → lex_all (chars s) out = Some (reverse out ++ ts).
Proof.
  induction 1 as [|s ts _ IH|s ts _ IH|t s ts Hok Hf _ IH]; intros out Hj.
  - cbn. by rewrite app_nil_r.
  - rewrite chars_ascii, lex_all_cons by (vm_compute; lia). by apply IH.
  - rewrite chars_ascii, lex_all_cons by (vm_compute; lia). by apply IH.
  - destruct (lex_tok t s ts out Hok Hf Hj) as [-> Hj']. rewrite IH by done. by rewrite reverse_cons, <-app_assoc.
Qed.
Corollary spelled_tokens s ts : spelled s ts → tokenize s = Some ts.
Proof. intros H. exact (tokenize_spelled s ts H [] I). Qed.

(** ** The tokens of a text can be written again *)

(** All but that a string may contain what double quotes do not allow. *)
Definition tok_made (t : Tok) : Prop := match t with TStr s => ∃ cs, s = cat cs ∧ Forall one_char cs | t => tok_ok t end.
Lemma tok_made_ok t : tok_made t → (∀ s, t = TStr s → quotable s) → tok_ok t.
Proof. intros H Hq. destruct t; try done. destruct H as (cs & -> & H). exists cs. split_and!; [done..|]. by apply Hq. Qed.

Lemma take_ident_inv c s r : take_ident c = (s, r) → ∃ cs, c = cs ++ r ∧ s = cat cs ∧ Forall (λ x, ident_char x = true) cs ∧
  match r with ch :: _ => ident_char ch = false | [] => True end.
Proof.
  revert s r. induction c as [|ch c IH]; intros s r; cbn; [intros [= <- <-]; by exists []|]. destruct (ident_char ch) eqn:E; [|intros [= <- <-]; by exists []].
  destruct (take_ident c) as [s' r'] eqn:Et. intros [= <- <-]. destruct (IH s' r' eq_refl) as (cs & -> & -> & Hcs & Hr). exists (ch :: cs). split_and!; [done..|by constructor|done].
Qed.
Lemma take_num_inv prev c s r : take_num prev c = (s, r) → ∃ cs, c = cs ++ r ∧ s = cat cs ∧ num_chars prev cs ∧ (cs = [] → match r with ch :: _ => num_char prev ch = false | [] => True end).
Proof.
  revert prev s r. induction c as [|ch c IH]; intros prev s r; cbn; [intros [= <- <-]; by exists []|]. destruct (num_char prev ch) eqn:E; [|intros [= <- <-]; by exists []].
  destruct (take_num ch c) as [s' r'] eqn:Et. intros [= <- <-]. destruct (IH ch s' r' Et) as (cs & -> & -> & Hcs & Hr). exists (ch :: cs). by split_and!.
Qed.
Lemma read_string_inv q : ∀ c acc s r, Forall one_char c → read_string q c acc = (s, r) → ∃ cs, s = acc +:+ cat cs ∧ Forall one_char cs ∧ Forall one_char r.
Proof.
  assert (∀ n c acc s r, length c ≤ n → Forall one_char c → read_string q c acc = (s, r) → ∃ cs, s = acc +:+ cat cs ∧ Forall one_char cs ∧ Forall one_char r) as H; [|intros; by eapply H].
  induction n as [|n IH]; intros [|ch c] acc s r Hn Hc; cbn in *; try lia; try (intros [= <- <-]; exists []; by rewrite str_app_nil_r).
  apply Forall_cons in Hc as [Hch Hc]. destruct (bool_decide (ch = q)); [intros [= <- <-]; exists []; by rewrite str_app_nil_r|]. destruct (is_char BACKSLASH ch).
  - destruct c as [|e c]; [intros [= <- <-]; exists [ch]; split_and!; [by cbn; rewrite str_app_nil_r|by apply Forall_singleton|done]|]. apply Forall_cons in Hc as [He Hc].
    intros H. destruct (IH c _ s r ltac:(cbn in *; lia) Hc H) as (cs & -> & Hcs & Hr). exists (ch :: e :: cs). split_and!; [by cbn; rewrite !str_app_assoc|by constructor; [done|constructor]|done].
  - intros H. destruct (IH c _ s r ltac:(lia) Hc H) as (cs & -> & Hcs & Hr). exists (ch :: cs). split_and!; [by cbn; rewrite !str_app_assoc|by constructor|done].
Qed.

Lemma skip_line_suffix c : ∃ p, c = p ++ skip_line c.
Proof. induction c as [|ch c [p IH]]; [by exists []|]. cbn. destruct (is_char _ _); [by exists []|]. exists (ch :: p). cbn. by f_equal. Qed.
Lemma skip_block_suffix c : ∃ p, c = p ++ skip_block c.
Proof.
  induction c as [|a c [p IH]]; [by exists []|]. destruct c as [|b rest]; [by exists [a]|].
  change (skip_block (a :: b :: rest)) with (if is_char "*" a && is_char "/" b then rest else skip_block (b :: rest)). destruct (_ && _); [by exists [a; b]|]. exists (a :: p). cbn. by f_equal.
Qed.

Lemma lex_step_made ch rest out c out' : one_char ch → Forall one_char rest → Forall tok_made out → lex_step ch rest out = Some (c, out') →
  Forall one_char c ∧ Forall tok_made out'.
Proof.
  intros Hch Hrest Hout. unfold lex_step. destruct (is_whitespace ch) eqn:Ew; [by intros [= <- <-]|].
  destruct (is_char "/" ch && second_is "/" rest).
  { intros [= <- <-]. split; [|done]. destruct (skip_line_suffix (ch :: rest)) as [p E]. assert (Forall one_char (ch :: rest)) as H by (by constructor). rewrite E in H. by apply Forall_app in H as [_ H]. }
  destruct (is_char "/" ch && second_is "*" rest).
  { intros [= <- <-]. split; [|done]. destruct (skip_block_suffix (tail rest)) as [p E]. assert (Forall one_char (tail rest)) as H by (destruct rest; [done|by apply Forall_cons in Hrest as [_ ?]]). rewrite E in H. by apply Forall_app in H as [_ H]. }
  destruct (_ || _).
  { destruct (read_string ch rest "") as [s r] eqn:Er. intros [= <- <-]. destruct (read_string_inv _ _ _ _ _ Hrest Er) as (cs & -> & Hcs & Hr). split; [done|].
    destruct out as [|[| | |] out]; cbn [push_str]; try (constructor; [by exists cs|done]). apply Forall_cons in Hout as [(cs' & -> & Hcs') Hout].
    constructor; [|done]. exists (cs' ++ cs). split; [symmetry; apply cat_app|by apply Forall_app]. }
  destruct (starts_num ch rest) eqn:En.
  { destruct (take_num ch rest) as [s r] eqn:Et. intros [= <- <-]. apply take_num_inv in Et as (cs & -> & -> & Hcs & Hempty). apply Forall_app in Hrest as [Hr1 Hr2]. split; [done|].
    constructor; [|done]. exists ch, cs. split_and!; [done|by constructor| |done]. destruct cs as [|d cs]; [|exact En]. destruct (starts_num_ascii _ _ En) as (a & -> & [Hd|[-> _]]).
    - unfold starts_num, str1. cbn [ascii_is]. by rewrite Hd.
    - exfalso. specialize (Hempty eq_refl). cbn [app] in En. destruct r as [|d r]; [done|]. unfold starts_num in En. change (ascii_is is_ascii_digit (str1 "-")) with false in En. change (is_char "-" (str1 "-")) with true in En. cbn [andb orb] in En.
      unfold num_char in Hempty. rewrite !orb_false_iff in Hempty. destruct Hempty as [[H1 H2] _]. rewrite H2, orb_false_r in En. destruct d as [|x []]; try done. cbn in En, H1.
      unfold is_ascii_alphanumeric in H1. by rewrite En in H1. }
  destruct (starts_ident ch rest) eqn:Ei.
  { destruct (take_ident rest) as [s r] eqn:Et. intros [= <- <-]. apply take_ident_inv in Et as (cs & -> & -> & Hcs & Hr). apply Forall_app in Hrest as [Hr1 Hr2]. split; [done|].
    constructor; [|done]. exists ch, cs. split_and!; [done|by constructor|done| |done]. destruct cs as [|d cs]; [|exact Ei]. unfold starts_ident in *. destruct (name_start ch); [done|]. cbn [orb app] in Ei.
    apply andb_true_iff in Ei as [_ Ei]. destruct r as [|d r]; [done|]. exfalso. unfold ident_char in Hr. unfold name_start in Ei. rewrite !orb_false_iff in Hr. destruct Hr as [[H1 H2] _]. rewrite H2, orb_false_r in Ei.
    destruct d as [|x [|y d]]; cbn in Ei, H1; [by rewrite Ei in H1| |by rewrite Ei in H1]. unfold is_letter in Ei. unfold is_ascii_alphanumeric in H1. destruct (is_ascii_upper x), (is_ascii_lower x), (is_ascii_digit x); done. }
  destruct ch as [|a [|]]; try done. destruct (is_symbol a) eqn:Ea; [|done]. intros [= <- <-]. split; [done|]. by constructor.
Qed.

Lemma lex_all_made c : ∀ out ts, Forall one_char c → Forall tok_made out → lex_all c out = Some ts → Forall tok_made ts.
Proof.
  remember (length c) as n eqn:Hn. revert c Hn. induction n as [n IH] using lt_wf_ind. intros [|ch c] Hn out ts Hc Hout.
  - intros [= <-]. by apply Forall_reverse.
  - rewrite lex_all_cons. destruct (lex_step ch c out) as [[c' out']|] eqn:E; [|done]. cbn [mbind option_bind]. apply Forall_cons in Hc as [H1 H2].
    destruct (lex_step_made _ _ _ _ _ H1 H2 Hout E) as [Hc' Hout']. apply lex_step_length in E. apply (IH (length c')); [subst n; cbn; lia|done..].
Qed.
Corollary tokenize_made src ts : utf8_valid src = true → tokenize src = Some ts → Forall tok_made ts.
Proof. intros [H _]%valid_chars. by apply lex_all_made. Qed.
End lexing.
