(* ===== verification/ProtoWire.v ===== *)
(** The source-level model of [.proto] files (schema/proto_wire.rs): the parser
    that builds it and the printer that writes it back as Square Wire does. *)
From S2P Require Import Prelude SortedVec RustStr ProtoLex.

Open Scope string_scope.
Open Scope nat_scope.
Open Scope list_scope.

(** * The model *)

Inductive WValue :=
| WStr (s : string)
| WRaw (s : string)
| WMap (entries : list (string * WValue))
| WList (items : list WValue).

Record Opt := mkOpt { o_name : string; o_value : WValue }.
(** [f_sorted]: set by normalization, the options are in their final order. *)
Record Field := mkField { f_sorted : bool; f_label : option string; f_ty : string; f_name : string; f_tag : string; f_options : list Opt }.
Record OneOf := mkOneOf { oo_name : string; oo_options : list Opt; oo_fields : list Field }.
Record EnumEl := mkEnumEl { e_name : string; e_reserved : list string; e_options : list Opt; e_constants : list (string * string * list Opt) }.
Record Extend := mkExtend { x_name : string; x_fields : list Field }.
Inductive Message := mkMessage (name : string) (reserved : list string) (options : list Opt) (fields : list Field)
  (oneofs : list OneOf) (extensions : list string) (nested : list TypeEl) (extends : list Extend)
with TypeEl := TMessage (m : Message) | TEnum (e : EnumEl).
Record Rpc := mkRpc { r_name : string; r_req : string; r_req_stream : bool; r_resp : string; r_resp_stream : bool; r_options : list Opt }.
Record Service := mkService { s_name : string; s_options : list Opt; s_rpcs : list Rpc }.
Record File := mkFile { fl_syntax : option string; fl_package : option string; fl_imports : list string; fl_public_imports : list string;
  fl_options : list Opt; fl_types : list TypeEl; fl_extends : list Extend; fl_services : list Service }.
Definition empty_file : File := mkFile None None [] [] [] [] [] [].

(** ** Adding to an element under construction *)

Section message.
Implicit Types m : Message.
Definition m_name m := let '(mkMessage name _ _ _ _ _ _ _) := m in name.
Definition m_reserved m := let '(mkMessage _ r _ _ _ _ _ _) := m in r.
Definition m_options m := let '(mkMessage _ _ o _ _ _ _ _) := m in o.
Definition m_fields m := let '(mkMessage _ _ _ f _ _ _ _) := m in f.
Definition m_oneofs m := let '(mkMessage _ _ _ _ oo _ _ _) := m in oo.
Definition m_extensions m := let '(mkMessage _ _ _ _ _ x _ _) := m in x.
Definition m_nested m := let '(mkMessage _ _ _ _ _ _ t _) := m in t.
Definition m_extends m := let '(mkMessage _ _ _ _ _ _ _ x) := m in x.
Definition m_add_reserved r' m := let '(mkMessage n r o f oo x t e) := m in mkMessage n (r ++ [r']) o f oo x t e.
Definition m_add_option o' m := let '(mkMessage n r o f oo x t e) := m in mkMessage n r (o ++ [o']) f oo x t e.
Definition m_add_field f' m := let '(mkMessage n r o f oo x t e) := m in mkMessage n r o (f ++ [f']) oo x t e.
Definition m_add_oneof oo' m := let '(mkMessage n r o f oo x t e) := m in mkMessage n r o f (oo ++ [oo']) x t e.
Definition m_add_extensions x' m := let '(mkMessage n r o f oo x t e) := m in mkMessage n r o f oo (x ++ [x']) t e.
Definition m_add_nested t' m := let '(mkMessage n r o f oo x t e) := m in mkMessage n r o f oo x (t ++ [t']) e.
Definition m_add_extend e' m := let '(mkMessage n r o f oo x t e) := m in mkMessage n r o f oo x t (e ++ [e']).
End message.

(** * The parser *)

(** The tokens that are left; [OutOfFuel] is not an answer of the code. *)
Inductive Parsed (A : Type) := Done (a : A) (ts : list Tok) | Bad | OutOfFuel.
Arguments Done {A}.
Arguments Bad {A}.
Arguments OutOfFuel {A}.
Definition P (A : Type) : Type := list Tok → Parsed A.
#[export] Instance parser_ret : MRet P := λ A a ts, Done a ts.
#[export] Instance parser_bind : MBind P := λ A B f p ts,
  match p ts with Done a ts => f a ts | Bad => Bad | OutOfFuel => OutOfFuel end.
Definition bad {A} : P A := λ _, Bad.
Definition out_of_fuel {A} : P A := λ _, OutOfFuel.

Definition next : P Tok := λ ts, match ts with t :: ts => Done t ts | [] => Bad end.
Definition skip : P () := λ ts, Done () (tail ts).
Definition at_sym (c : ascii) (ts : list Tok) : bool := match ts with TSym d :: _ => bool_decide (d = c) | _ => false end.
Definition at_ident (s : string) (ts : list Tok) : bool := match ts with TIdent x :: _ => bool_decide (x = s) | _ => false end.
Definition is_sym (c : ascii) : P bool := λ ts, Done (at_sym c ts) ts.
Definition is_ident (s : string) : P bool := λ ts, Done (at_ident s ts) ts.
Definition sym (c : ascii) : P () := t ← next; if decide (t = TSym c) then mret () else bad.
Definition ident : P string := t ← next; match t with TIdent s => mret s | _ => bad end.
Definition str : P string := t ← next; match t with TStr s => mret s | _ => bad end.
Definition num : P string := t ← next; match t with TNum s => mret s | _ => bad end.
(** [if self.is_sym(c) { self.i += 1 }]. *)
Definition eat (c : ascii) : P () := b ← is_sym c; if b : bool then skip else mret ().
Fixpoint skip_semis (ts : list Tok) : list Tok :=
  match ts with TSym c :: rest => if decide (c = ";"%char) then skip_semis rest else ts | _ => ts end.

(** [while !self.is_sym(c) { .. } self.i += 1]. *)
Fixpoint until {S} (c : ascii) (n : nat) (step : S → P S) (s : S) : P S := λ ts,
  if at_sym c ts then Done s (tail ts) else
  match n with 0 => OutOfFuel | S n => (s ← step s; until c n step s) ts end.
(** [loop { self.skip_semis(); if self.is_sym('}') { self.i += 1; break } .. }]. *)
Fixpoint braces {S} (n : nat) (step : S → P S) (s : S) : P S := λ ts,
  let ts := skip_semis ts in
  if at_sym "}" ts then Done s (tail ts) else
  match n with 0 => OutOfFuel | S n => (s ← step s; braces n step s) ts end.
(** [loop { .. if self.is_sym(',') { self.i += 1 } else { break } }]. *)
Fixpoint commas {S} (n : nat) (step : S → P S) (s : S) : P S :=
  match n with
  | 0 => out_of_fuel
  | S n => s ← step s; b ← is_sym ","; if b : bool then _ ← skip; commas n step s else mret s
  end.

(** The tail of a dotted name arrives as one token that begins with a dot. *)
Definition at_dotted (ts : list Tok) : option string :=
  match ts with TIdent s :: _ => if starts_with "." s then Some s else None | _ => None end.
Definition dotted_tail (name : string) : P string := λ ts,
  match at_dotted ts with Some s => Done (name +:+ s) (tail ts) | None => Done name ts end.
Definition option_name : P string :=
  paren ← is_sym "(";
  name ← (if paren : bool then _ ← skip; name ← ident; _ ← sym ")"; mret ("(" +:+ name +:+ ")") else ident);
  dotted_tail name.

(** Repeated keys collapse into a list. *)
Fixpoint add_entry (key : string) (v : WValue) (entries : list (string * WValue)) : list (string * WValue) :=
  match entries with
  | [] => [(key, v)]
  | (k, old) :: entries =>
      if decide (k = key) then (k, match old with WList l => WList (l ++ [v]) | old => WList [old; v] end) :: entries
      else (k, old) :: add_entry key v entries
  end.

Definition entry_key : P string :=
  bracket ← is_sym "[";
  if bracket : bool then _ ← skip; k ← ident; _ ← sym "]"; mret ("[" +:+ k +:+ "]") else ident.
(** [if self.is_sym(',') || self.is_sym(';') { self.i += 1 }]. *)
Definition eat_separator : P () := a ← is_sym ","; b ← is_sym ";"; if (a || b) : bool then skip else mret ().
Definition aggregate_entry (value : P WValue) (entries : list (string * WValue)) : P (list (string * WValue)) :=
  key ← entry_key; _ ← eat ":"; v ← value; _ ← eat_separator; mret (add_entry key v entries).
Definition list_item (value : P WValue) (items : list WValue) : P (list WValue) :=
  v ← value; _ ← eat ","; mret (items ++ [v]).

Fixpoint value (n : nat) : P WValue :=
  match n with
  | 0 => out_of_fuel
  | S n =>
    t ← next;
    match t with
    | TStr s => mret (WStr s)
    | TNum s | TIdent s => mret (WRaw s)
    | TSym c =>
        if decide (c = "-"%char) then
          t ← next; match t with TIdent s | TNum s => mret (WRaw ("-" +:+ s)) | _ => bad end
        else if decide (c = "{"%char) then entries ← until "}" n (aggregate_entry (value n)) []; mret (WMap entries)
        else if decide (c = "["%char) then items ← until "]" n (list_item (value n)) []; mret (WList items)
        else bad
    end
  end.

(** [name = value], as an option. *)
Definition named_value (n : nat) : P Opt := name ← option_name; _ ← sym "="; v ← value n; mret (mkOpt name v).
Definition option_decl (n : nat) : P Opt := o ← named_value n; _ ← sym ";"; mret o.
Definition field_options (n : nat) : P (list Opt) :=
  bracket ← is_sym "[";
  if bracket : bool then
    _ ← skip; opts ← commas n (λ opts, o ← named_value n; mret (opts ++ [o])) []; _ ← sym "]"; mret opts
  else mret [].

Definition is_label (s : string) : bool := bool_decide (s ∈ ["optional"; "required"; "repeated"]).
Definition map_type (ty : string) : P string :=
  open ← is_sym "<";
  if bool_decide (ty = "map") && open then
    _ ← skip; k ← ident; _ ← sym ","; v ← ident; _ ← sym ">"; mret ("map<" +:+ k +:+ ", " +:+ v +:+ ">")
  else mret ty.
Definition field (n : nat) (first : string) (in_oneof : bool) : P Field :=
  '(label, ty) ← (if negb in_oneof && is_label first then ty ← ident; mret (Some first, ty) else mret (None, first));
  ty ← map_type ty;
  if decide (ty = "group") then bad else
  name ← ident; _ ← sym "="; tag ← num; opts ← field_options n; _ ← sym ";";
  mret (mkField false label ty name tag opts).

(** One item of a [reserved] or [extensions] statement, as it is printed. *)
Definition range_item (parts : list string) : P (list string) :=
  t ← next;
  match t with
  | TStr s => mret (parts ++ [quoted s])
  | TIdent s => mret (parts ++ [s])
  | TNum a =>
      to ← is_ident "to";
      if to : bool then
        _ ← skip; t ← next;
        match t with TNum b | TIdent b => mret (parts ++ [a +:+ " to " +:+ b]) | _ => bad end
      else mret (parts ++ [a])
  | TSym _ => bad
  end.
Definition ranges (n : nat) (kw : string) : P string :=
  parts ← commas n range_item [];
  bracket ← is_sym "[";
  _ ← (if bracket : bool then _ ← field_options n; mret () else mret ());
  _ ← sym ";";
  mret (kw +:+ " " +:+ join ", " parts +:+ ";").

Definition oneof_step (n : nat) (o : OneOf) : P OneOf :=
  kw ← ident;
  if decide (kw = "option") then x ← option_decl n; mret (mkOneOf (oo_name o) (oo_options o ++ [x]) (oo_fields o))
  else f ← field n kw true; mret (mkOneOf (oo_name o) (oo_options o) (oo_fields o ++ [f])).
Definition oneof (n : nat) : P OneOf := name ← ident; _ ← sym "{"; braces n (oneof_step n) (mkOneOf name [] []).

(** The number of a constant; a minus may stand on its own. *)
Definition constant_tag : P string :=
  t ← next;
  match t with
  | TNum s => mret s
  | TSym c => if decide (c = "-"%char) then s ← num; mret ("-" +:+ s) else bad
  | _ => bad
  end.
Definition enum_step (n : nat) (e : EnumEl) : P EnumEl :=
  kw ← ident;
  if decide (kw = "option") then x ← option_decl n; mret (mkEnumEl (e_name e) (e_reserved e) (e_options e ++ [x]) (e_constants e))
  else if decide (kw = "reserved") then r ← ranges n "reserved"; mret (mkEnumEl (e_name e) (e_reserved e ++ [r]) (e_options e) (e_constants e))
  else
    _ ← sym "="; tag ← constant_tag; opts ← field_options n; _ ← sym ";";
    mret (mkEnumEl (e_name e) (e_reserved e) (e_options e) (e_constants e ++ [(kw, tag, opts)])).
Definition enumeration (n : nat) : P EnumEl := name ← ident; _ ← sym "{"; braces n (enum_step n) (mkEnumEl name [] [] []).

Definition extend_step (n : nat) (x : Extend) : P Extend := kw ← ident; f ← field n kw false; mret (mkExtend (x_name x) (x_fields x ++ [f])).
Definition extend (n : nat) : P Extend := name ← ident; _ ← sym "{"; braces n (extend_step n) (mkExtend name []).

Definition message_step (n : nat) (message : P Message) (m : Message) : P Message :=
  kw ← ident;
  if decide (kw = "option") then o ← option_decl n; mret (m_add_option o m)
  else if decide (kw = "reserved") then r ← ranges n "reserved"; mret (m_add_reserved r m)
  else if decide (kw = "extensions") then x ← ranges n "extensions"; mret (m_add_extensions x m)
  else if decide (kw = "message") then t ← message; mret (m_add_nested (TMessage t) m)
  else if decide (kw = "enum") then e ← enumeration n; mret (m_add_nested (TEnum e) m)
  else if decide (kw = "extend") then x ← extend n; mret (m_add_extend x m)
  else if decide (kw = "oneof") then o ← oneof n; mret (m_add_oneof o m)
  else f ← field n kw false; mret (m_add_field f m).
Fixpoint message (n : nat) : P Message :=
  match n with
  | 0 => out_of_fuel
  | S n => name ← ident; _ ← sym "{"; braces n (message_step n (message n)) (mkMessage name [] [] [] [] [] [] [])
  end.

(** [(Type)] or [(stream Type)]. *)
Definition rpc_type : P (bool * string) :=
  _ ← sym "("; stream ← is_ident "stream"; _ ← (if stream : bool then skip else mret ()); ty ← ident; _ ← sym ")"; mret (stream, ty).
Definition rpc_option (n : nat) (opts : list Opt) : P (list Opt) :=
  kw ← ident; if decide (kw = "option") then o ← option_decl n; mret (opts ++ [o]) else bad.
Definition rpc (n : nat) : P Rpc :=
  name ← ident; req ← rpc_type; kw ← ident;
  if decide (kw = "returns") then
    resp ← rpc_type; body ← is_sym "{";
    opts ← (if body : bool then _ ← skip; braces n (rpc_option n) [] else _ ← sym ";"; mret []);
    mret (mkRpc name req.2 req.1 resp.2 resp.1 opts)
  else bad.
Definition service_step (n : nat) (s : Service) : P Service :=
  kw ← ident;
  if decide (kw = "option") then o ← option_decl n; mret (mkService (s_name s) (s_options s ++ [o]) (s_rpcs s))
  else if decide (kw = "rpc") then r ← rpc n; mret (mkService (s_name s) (s_options s) (s_rpcs s ++ [r]))
  else bad.
Definition service (n : nat) : P Service := name ← ident; _ ← sym "{"; braces n (service_step n) (mkService name [] []).

(** An import: whether it is public, and the file. *)
Definition import_decl : P (bool * string) :=
  public ← is_ident "public"; weak ← is_ident "weak";
  _ ← (if (public || weak) : bool then skip else mret ()); path ← str; _ ← sym ";"; mret (public, path).
Definition file_step (n : nat) (f : File) : P File :=
  let '(mkFile syntax package imports public options types extends services) := f in
  kw ← ident;
  if bool_decide (kw = "syntax") || bool_decide (kw = "edition") then
    _ ← sym "="; s ← str; _ ← sym ";"; mret (mkFile (Some s) package imports public options types extends services)
  else if decide (kw = "package") then p ← ident; _ ← sym ";"; mret (mkFile syntax (Some p) imports public options types extends services)
  else if decide (kw = "import") then
    i ← import_decl;
    mret (if i.1 : bool then mkFile syntax package imports (public ++ [i.2]) options types extends services
          else mkFile syntax package (imports ++ [i.2]) public options types extends services)
  else if decide (kw = "option") then o ← option_decl n; mret (mkFile syntax package imports public (options ++ [o]) types extends services)
  else if decide (kw = "message") then m ← message n; mret (mkFile syntax package imports public options (types ++ [TMessage m]) extends services)
  else if decide (kw = "enum") then e ← enumeration n; mret (mkFile syntax package imports public options (types ++ [TEnum e]) extends services)
  else if decide (kw = "extend") then x ← extend n; mret (mkFile syntax package imports public options types (extends ++ [x]) services)
  else if decide (kw = "service") then s ← service n; mret (mkFile syntax package imports public options types extends (services ++ [s]))
  else bad.
Fixpoint file (k n : nat) (f : File) : P File := λ ts,
  match ts, k with
  | [], _ => Done f []
  | _ :: _, 0 => OutOfFuel
  | _ :: rest, S k => if at_sym ";" ts then file k n f rest else (f ← file_step n f; file k n f) ts
  end.

(** * The printer *)

(** [append_indented], on what it appends. *)
Definition lines_of (value : string) : list string :=
  let ls := split_char NEWLINE value in
  match last ls with Some l => if decide (l = "") then removelast ls else ls | None => ls end.
Definition LF : string := str1 NEWLINE.
Definition indented (value : string) : string := cat ((λ l, "  " +:+ l +:+ LF) <$> lines_of value).

(** [if i + 1 < len { "," } else { "" }]. *)
Fixpoint with_commas {A} (f : A → string → string) (l : list A) : string :=
  match l with [] => "" | [x] => f x "" | x :: l => f x "," +:+ with_commas f l end.

Fixpoint value_str (v : WValue) : string :=
  match v with
  | WStr s => quoted s
  | WRaw s => s
  | WMap entries => "{" +:+ LF +:+
      (fix go (l : list (string * WValue)) : string :=
         match l with
         | [] => ""
         | [(k, v)] => indented (k +:+ ": " +:+ value_str v)
         | (k, v) :: l => indented (k +:+ ": " +:+ value_str v +:+ ",") +:+ go l
         end) entries +:+ "}"
  | WList items => "[" +:+ LF +:+
      (fix go (l : list WValue) : string :=
         match l with
         | [] => ""
         | [v] => indented (value_str v)
         | v :: l => indented (value_str v +:+ ",") +:+ go l
         end) items +:+ "]"
  end.

Definition opt_str (o : Opt) : string := o_name o +:+ " = " +:+ value_str (o_value o).
Definition opt_decl (o : Opt) : string := "option " +:+ opt_str o +:+ ";" +:+ LF.
Definition options_str (opts : list Opt) : string :=
  match opts with
  | [o] => "[" +:+ opt_str o +:+ "]"
  | _ => "[" +:+ LF +:+ with_commas (λ o endl, indented (opt_str o +:+ endl)) opts +:+ "]"
  end.

(** [default] and [json_name] come after the other options. *)
Definition arranged_options (opts : list Opt) : list Opt :=
  filter (λ o, o_name o ≠ "default" ∧ o_name o ≠ "json_name") opts ++ filter (λ o, o_name o = "default") opts ++ filter (λ o, o_name o = "json_name") opts.
Definition printed_options (f : Field) : list Opt := if f_sorted f then f_options f else arranged_options (f_options f).
Definition spaced_options (opts : list Opt) : string := match opts with [] => "" | _ => " " +:+ options_str opts end.
Definition field_str (f : Field) : string :=
  match f_label f with Some l => l +:+ " " | None => "" end +:+ f_ty f +:+ " " +:+ f_name f +:+ " = " +:+ f_tag f +:+
  spaced_options (printed_options f) +:+ ";" +:+ LF.

(** A group of elements, after a line break when there are any. *)
Definition section_str {A} (f : A → string) (l : list A) : string :=
  match l with [] => "" | _ => LF +:+ cat ((λ x, indented (f x)) <$> l) end.

Definition oneof_str (o : OneOf) : string :=
  "oneof " +:+ oo_name o +:+ " {" +:+ section_str opt_decl (oo_options o) +:+ section_str field_str (oo_fields o) +:+ "}" +:+ LF.
Definition constant_str (c : string * string * list Opt) : string := c.1.1 +:+ " = " +:+ c.1.2 +:+ spaced_options c.2 +:+ ";" +:+ LF.
Definition enum_str (e : EnumEl) : string :=
  "enum " +:+ e_name e +:+ " {" +:+ section_str (λ r, r +:+ LF) (e_reserved e) +:+
  (if bool_decide (e_reserved e = []) && (negb (bool_decide (length (e_options e) = 0)) || negb (bool_decide (length (e_constants e) = 0))) then LF else "") +:+
  cat ((λ o, indented (opt_decl o)) <$> e_options e) +:+ cat ((λ c, indented (constant_str c)) <$> e_constants e) +:+ "}" +:+ LF.
Definition extend_str (x : Extend) : string := "extend " +:+ x_name x +:+ " {" +:+ section_str field_str (x_fields x) +:+ "}" +:+ LF.

(** Messages before enums. *)
Definition is_message (t : TypeEl) : bool := match t with TMessage _ => true | TEnum _ => false end.
Definition ordered {A} (is_msg : A → bool) (l : list A) : list A := filter (λ t, is_msg t = true) l ++ filter (λ t, is_msg t = false) l.

(** The texts of the nested types come with whether they are messages. *)
Fixpoint message_str (m : Message) : string :=
  let '(mkMessage name reserved options fields oneofs extensions nested extends) := m in
  let texts := (fix go (l : list TypeEl) : list (bool * string) :=
                  match l with
                  | [] => []
                  | TMessage m :: l => (true, message_str m) :: go l
                  | TEnum e :: l => (false, enum_str e) :: go l
                  end) nested in
  "message " +:+ name +:+ " {" +:+ section_str (λ r, r +:+ LF) reserved +:+ section_str opt_decl options +:+ section_str field_str fields +:+
  section_str oneof_str oneofs +:+ section_str (λ x, x +:+ LF) extensions +:+ section_str snd (ordered fst texts) +:+ section_str extend_str extends +:+ "}" +:+ LF.
Definition type_str (t : TypeEl) : string := match t with TMessage m => message_str m | TEnum e => enum_str e end.

Definition streamed (s : bool) (ty : string) : string := "(" +:+ (if s then "stream " else "") +:+ ty +:+ ")".
Definition rpc_str (r : Rpc) : string :=
  "rpc " +:+ r_name r +:+ " " +:+ streamed (r_req_stream r) (r_req r) +:+ " returns " +:+ streamed (r_resp_stream r) (r_resp r) +:+
  match r_options r with
  | [] => ";" +:+ LF
  | opts => " {" +:+ LF +:+ cat ((λ o, indented (opt_decl o)) <$> opts) +:+ "};" +:+ LF
  end.
Definition service_str (s : Service) : string :=
  "service " +:+ s_name s +:+ " {" +:+ section_str opt_decl (s_options s) +:+ section_str rpc_str (s_rpcs s) +:+ "}" +:+ LF.

(** The same, not indented. *)
Definition top_section {A} (f : A → string) (l : list A) : string := match l with [] => "" | _ => LF +:+ cat (f <$> l) end.
Definition file_str (f : File) : string :=
  match fl_syntax f with Some s => "syntax = " +:+ quoted s +:+ ";" +:+ LF | None => "" end +:+
  match fl_package f with Some p => "package " +:+ p +:+ ";" +:+ LF | None => "" end +:+
  match fl_imports f, fl_public_imports f with
  | [], [] => ""
  | imports, public => LF +:+ cat ((λ i, "import " +:+ quoted i +:+ ";" +:+ LF) <$> imports) +:+ cat ((λ i, "import public " +:+ quoted i +:+ ";" +:+ LF) <$> public)
  end +:+
  top_section opt_decl (fl_options f) +:+ top_section type_str (ordered is_message (fl_types f)) +:+
  top_section extend_str (fl_extends f) +:+ top_section service_str (fl_services f).

Section wire.
Context {tables : UnicodeTables}.
(** [Parser { t: tokenize(src)?, i: 0 }.file()], with a step for each token and one for the end. *)
Definition parse_tokens (ts : list Tok) : Parsed File := file (S (length ts)) (S (length ts)) empty_file ts.
Definition wire_file (src : string) : option File :=
  ts ← tokenize src; match parse_tokens ts with Done f _ => Some f | _ => None end.
(** The canonical text of a source; [None] when the model does not cover it. *)
Definition canonical (src : string) : option string := f ← wire_file src; Some (file_str f).
End wire.

(** ** An example *)

#[local] Instance no_unicode : UnicodeTables := {| unicode_alphabetic _ := false; unicode_numeric _ := false |}.
Definition q (s : string) : string := quoted s.
Example formats_like_wire :
  canonical ("syntax=" +:+ q "proto3" +:+ ";package acme;// c" +:+ LF +:+ "message Order{string id=1;int32 qty=2;}") =
  Some ("syntax = " +:+ q "proto3" +:+ ";" +:+ LF +:+ "package acme;" +:+ LF +:+ LF +:+ "message Order {" +:+ LF +:+ "  string id = 1;" +:+ LF +:+ "  int32 qty = 2;" +:+ LF +:+ "}" +:+ LF).
Proof. vm_compute. reflexivity. Qed.
