(* ===== verification/ProtoLogic.v ===== *)
(** A program logic for the parser of [.proto] sources, and that the parser
    always ends: a step for each token is enough. *)
From S2P Require Import Prelude SortedVec RustStr ProtoLex ProtoWire.

Open Scope string_scope.
Open Scope nat_scope.
Open Scope list_scope.

(** * Weakest preconditions *)

(** [F]: what running out of fuel means. *)
Definition wp {A} (F : Prop) (p : P A) (Q : A → list Tok → Prop) (ts : list Tok) : Prop :=
  match p ts with Done a ts => Q a ts | Bad => True | OutOfFuel => F end.

Section rules.
Context {F : Prop}.

Lemma wp_mono {A} (p : P A) (Q Q' : A → list Tok → Prop) ts : wp F p Q ts → (∀ a ts, Q a ts → Q' a ts) → wp F p Q' ts.
Proof. unfold wp. destruct (p ts); auto. Qed.
Lemma wp_bind {A B} (p : P A) (f : A → P B) Q ts : wp F p (λ a, wp F (f a) Q) ts → wp F (p ≫= f) Q ts.
Proof. unfold wp, mbind, parser_bind. by destruct (p ts). Qed.
Lemma wp_ret {A} (a : A) (Q : A → list Tok → Prop) ts : Q a ts → wp F (mret a) Q ts.
Proof. done. Qed.
Lemma wp_bad {A} (Q : A → list Tok → Prop) ts : wp F bad Q ts.
Proof. done. Qed.
Lemma wp_next (Q : Tok → list Tok → Prop) ts : (∀ t ts', ts = t :: ts' → Q t ts') → wp F next Q ts.
Proof. unfold wp. destruct ts; cbn; auto. Qed.
Lemma wp_skip (Q : () → list Tok → Prop) ts : Q () (tail ts) → wp F skip Q ts.
Proof. done. Qed.
Lemma wp_sym c (Q : () → list Tok → Prop) ts : (∀ ts', ts = TSym c :: ts' → Q () ts') → wp F (sym c) Q ts.
Proof. intros H. apply wp_bind, wp_next. intros t ts' ->. destruct (decide _) as [->|_]; [by apply wp_ret, H|apply wp_bad]. Qed.
Lemma wp_ident (Q : string → list Tok → Prop) ts : (∀ s ts', ts = TIdent s :: ts' → Q s ts') → wp F ident Q ts.
Proof. intros H. apply wp_bind, wp_next. intros [] ts' ->; try apply wp_bad. by apply wp_ret, H. Qed.
Lemma wp_str (Q : string → list Tok → Prop) ts : (∀ s ts', ts = TStr s :: ts' → Q s ts') → wp F str Q ts.
Proof. intros H. apply wp_bind, wp_next. intros [] ts' ->; try apply wp_bad. by apply wp_ret, H. Qed.
Lemma wp_num (Q : string → list Tok → Prop) ts : (∀ s ts', ts = TNum s :: ts' → Q s ts') → wp F num Q ts.
Proof. intros H. apply wp_bind, wp_next. intros [] ts' ->; try apply wp_bad. by apply wp_ret, H. Qed.
Lemma at_sym_inv c ts : at_sym c ts = true → ∃ ts', ts = TSym c :: ts'.
Proof. destruct ts as [|[] ts]; try done. cbn. intros ->%bool_decide_eq_true. eauto. Qed.
Lemma at_ident_inv s ts : at_ident s ts = true → ∃ ts', ts = TIdent s :: ts'.
Proof. destruct ts as [|[] ts]; try done. cbn. intros ->%bool_decide_eq_true. eauto. Qed.
Lemma wp_is_sym c (Q : bool → list Tok → Prop) ts : (∀ ts', ts = TSym c :: ts' → Q true ts) → Q false ts → wp F (is_sym c) Q ts.
Proof. unfold wp, is_sym. intros H1 H2. destruct (at_sym c ts) eqn:E; [|done]. apply at_sym_inv in E as [ts' E]. eauto. Qed.
Lemma wp_is_ident s (Q : bool → list Tok → Prop) ts : (∀ ts', ts = TIdent s :: ts' → Q true ts) → Q false ts → wp F (is_ident s) Q ts.
Proof. unfold wp, is_ident. intros H1 H2. destruct (at_ident s ts) eqn:E; [|done]. apply at_ident_inv in E as [ts' E]. eauto. Qed.
End rules.

(** ** The loops, with an invariant of the tokens and of what is built *)

Section loops.
Context {F : Prop} {S : Type} (step : S → P S) (I : S → list Tok → Prop).

(** With a measure: the tokens that are left. *)
Section ending.
Context (N : nat).
Hypothesis Hstep : ∀ s ts, I s ts → length ts < N → wp F (step s) (λ s' ts', I s' ts' ∧ length ts' < length ts) ts.

Lemma wp_until c n s ts Q : I s ts → length ts < N → length ts < n → (∀ s ts', I s (TSym c :: ts') → length ts' < length ts → Q s ts') → wp F (until c n step s) Q ts.
Proof.
  intros HI HN Hn HQ. revert n s ts HI HN Hn HQ. induction n as [|n IH]; intros s ts HI HN Hn HQ; [lia|]. unfold wp. cbn [until].
  destruct (at_sym c ts) eqn:E; [apply at_sym_inv in E as [ts' ->]; cbn; apply HQ; [done|cbn; lia]|].
  change (wp F (s ← step s; until c n step s) Q ts). apply wp_bind. eapply wp_mono; [by apply Hstep|]. intros s' ts' [HI' Hl]. cbn beta. apply IH; [done|lia..|]. intros. apply HQ; [done|lia].
Qed.
Hypothesis Isemi : ∀ s ts, I s (TSym ";" :: ts) → I s ts.
Lemma skip_semis_length ts : length (skip_semis ts) ≤ length ts.
Proof. induction ts as [|[] ts IH]; cbn; try lia. destruct (decide _); cbn; lia. Qed.
Lemma skip_semis_inv s ts : I s ts → I s (skip_semis ts).
Proof. induction ts as [|[] ts IH]; try done. cbn [skip_semis]. destruct (decide _) as [->|]; [|done]. intros H. by apply IH, Isemi. Qed.
Lemma wp_braces n s ts Q : I s ts → length ts < N → length ts < n → (∀ s ts', I s (TSym "}" :: ts') → length ts' < length ts → Q s ts') → wp F (braces n step s) Q ts.
Proof.
  intros HI HN Hn HQ. revert n s ts HI HN Hn HQ. induction n as [|n IH]; intros s ts HI HN Hn HQ; [lia|]. unfold wp. cbn [braces].
  apply skip_semis_inv in HI. pose proof (skip_semis_length ts) as Hs.
  destruct (at_sym "}" (skip_semis ts)) eqn:E; [apply at_sym_inv in E as [ts' E]; rewrite E in *; cbn in *; apply HQ; [done|lia]|].
  change (wp F (s ← step s; braces n step s) Q (skip_semis ts)). apply wp_bind. eapply wp_mono; [apply Hstep; [done|lia]|]. intros s' ts' [HI' Hl]. cbn beta. apply IH; [done|lia..|]. intros. apply HQ; [done|lia].
Qed.
Hypothesis Icomma : ∀ s ts, I s (TSym "," :: ts) → I s ts.
Lemma wp_commas n s ts Q : I s ts → length ts < N → length ts < n → (∀ s ts', I s ts' → length ts' < length ts → Q s ts') → wp F (commas n step s) Q ts.
Proof.
  intros HI HN Hn HQ. revert n s ts HI HN Hn HQ. induction n as [|n IH]; intros s ts HI HN Hn HQ; [lia|]. cbn [commas].
  apply wp_bind. eapply wp_mono; [by apply Hstep|]. intros s' ts' [HI' Hl]. cbn beta. apply wp_bind, wp_is_sym; [|apply wp_ret, HQ; [done|lia]].
  intros ts'' ->. apply wp_bind, wp_skip. cbn [tail length] in *. apply IH; [by apply Icomma|lia..|]. intros. apply HQ; [done|lia].
Qed.
End ending.
End loops.

(** * The parser ends *)

(** [k]: how many tokens it takes at least. *)
Definition ends {A} (k : nat) (p : P A) (ts : list Tok) : Prop := wp False p (λ _ ts', length ts' + k ≤ length ts) ts.
Lemma wp_ends {A} k (p : P A) Q ts : ends k p ts → (∀ a ts', length ts' + k ≤ length ts → Q a ts') → wp False p Q ts.
Proof. intros H HQ. eapply wp_mono; [exact H|]. intros a ts' Hl. cbn in Hl. by apply HQ. Qed.

Create HintDb ends discriminated.
Ltac ends_prim :=
  first [ simple apply wp_ret | simple apply wp_bad | simple apply wp_skip | simple apply wp_sym; intros ? -> | simple apply wp_ident; intros ? ? -> | simple apply wp_num; intros ? ? ->
        | simple apply wp_str; intros ? ? -> | simple apply wp_is_sym; [intros ? ->|] | simple apply wp_is_ident; [intros ? ?; simplify_eq|] | simple apply wp_next; intros ? ? -> | simple apply wp_bind ].
Ltac ends_call := eapply wp_ends; [solve [eauto with ends lia]|intros ? ? ?].
Ltac ends_case := match goal with |- wp _ (match ?x with _ => _ end) _ _ => destruct x | |- wp _ (if ?x then _ else _) _ _ => destruct x end.
Ltac ends_norm := rewrite ?andb_true_r, ?andb_false_r; cbn beta iota; cbn [tail length app orb andb] in *.
Ltac ends_tac := unfold ends; repeat (ends_norm; first [ends_prim | ends_call | ends_case]); ends_norm; try lia.
#[export] Hint Extern 3 (_ < _) => cbn [length tail] in *; lia : ends.
#[export] Hint Extern 3 (_ <= _) => cbn [length tail] in *; lia : ends.

Lemma dotted_tail_ends name ts : ends 0 (dotted_tail name) ts.
Proof. unfold ends, wp, dotted_tail. destruct (at_dotted ts); [|cbn; lia]. destruct ts; cbn; lia. Qed.
#[export] Hint Resolve dotted_tail_ends : ends.
Lemma option_name_ends ts : ends 1 option_name ts.
Proof. unfold option_name. ends_tac. Qed.
Lemma eat_ends c ts : ends 0 (eat c) ts.
Proof. unfold eat. ends_tac. Qed.
Lemma eat_separator_ends ts : ends 0 eat_separator ts.
Proof. unfold eat_separator. ends_tac; destruct ts; cbn; lia. Qed.
Lemma entry_key_ends ts : ends 1 entry_key ts.
Proof. unfold entry_key. ends_tac. Qed.
#[export] Hint Resolve option_name_ends eat_ends eat_separator_ends entry_key_ends : ends.

Section loop_ends.
Context {S : Type} (step : S → P S) (n : nat) (ts : list Tok).
Hypothesis Hstep : ∀ s ts', length ts' ≤ length ts → ends 1 (step s) ts'.
Hypothesis Hn : length ts < n.
Lemma loop_step s ts' : True → length ts' < Datatypes.S (length ts) → wp False (step s) (λ _ ts'', True ∧ length ts'' < length ts') ts'.
Proof. intros _ Hl. apply (wp_ends 1); [apply Hstep; lia|]. intros. split; [done|lia]. Qed.
Lemma until_ends c s : ends 1 (until c n step s) ts.
Proof. unfold ends. apply (wp_until step (λ _ _, True) (Datatypes.S (length ts)) loop_step); auto; intros; lia. Qed.
Lemma braces_ends s : ends 1 (braces n step s) ts.
Proof. unfold ends. apply (wp_braces step (λ _ _, True) (Datatypes.S (length ts)) loop_step); auto; intros; lia. Qed.
Lemma commas_ends s : ends 1 (commas n step s) ts.
Proof. unfold ends. apply (wp_commas step (λ _ _, True) (Datatypes.S (length ts)) loop_step); auto; intros; lia. Qed.
End loop_ends.

Ltac loop_call :=
  first [ eapply wp_ends; [simple apply until_ends; [intros ? ? ?|ends_norm; lia]|intros ? ? ?]
        | eapply wp_ends; [simple apply braces_ends; [intros ? ? ?|ends_norm; lia]|intros ? ? ?]
        | eapply wp_ends; [simple apply commas_ends; [intros ? ? ?|ends_norm; lia]|intros ? ? ?] ].
Ltac ends_loop := unfold ends; repeat (ends_norm; first [loop_call | ends_prim | ends_call | ends_case | match goal with |- ends _ _ _ => unfold ends end]); ends_norm; try lia.

Lemma value_ends n ts : length ts < n → ends 1 (value n) ts.
Proof.
  revert ts. induction n as [|n IH]; intros ts Hn; [lia|]. cbn [value]. unfold aggregate_entry, list_item. ends_loop.
Qed.
#[export] Hint Resolve value_ends : ends.
Lemma named_value_ends n ts : length ts < n → ends 1 (named_value n) ts.
Proof. intros Hn. unfold named_value. ends_loop. Qed.
#[export] Hint Resolve named_value_ends : ends.
Lemma option_decl_ends n ts : length ts < n → ends 1 (option_decl n) ts.
Proof. intros Hn. unfold option_decl. ends_loop. Qed.
Lemma field_options_ends n ts : length ts < n → ends 0 (field_options n) ts.
Proof. intros Hn. unfold field_options. ends_loop. Qed.
Lemma map_type_ends ty ts : ends 0 (map_type ty) ts.
Proof. unfold map_type. ends_loop. Qed.
#[export] Hint Resolve option_decl_ends field_options_ends map_type_ends : ends.
Lemma field_ends n first in_oneof ts : length ts < n → ends 1 (field n first in_oneof) ts.
Proof. intros Hn. unfold field. ends_loop. Qed.
Lemma range_item_ends parts ts : ends 1 (range_item parts) ts.
Proof. unfold range_item. ends_loop. Qed.
#[export] Hint Resolve field_ends range_item_ends : ends.
Lemma ranges_ends n kw ts : length ts < n → ends 1 (ranges n kw) ts.
Proof. intros Hn. unfold ranges. ends_loop. Qed.
#[export] Hint Resolve ranges_ends : ends.
Lemma oneof_ends n ts : length ts < n → ends 1 (oneof n) ts.
Proof. intros Hn. unfold oneof, oneof_step. ends_loop. Qed.
Lemma constant_tag_ends ts : ends 1 constant_tag ts.
Proof. unfold constant_tag. ends_loop. Qed.
#[export] Hint Resolve oneof_ends constant_tag_ends : ends.
Lemma enumeration_ends n ts : length ts < n → ends 1 (enumeration n) ts.
Proof. intros Hn. unfold enumeration, enum_step. ends_loop. Qed.
Lemma extend_ends n ts : length ts < n → ends 1 (extend n) ts.
Proof. intros Hn. unfold extend, extend_step. ends_loop. Qed.
#[export] Hint Resolve enumeration_ends extend_ends : ends.
Lemma message_ends n ts : length ts < n → ends 1 (message n) ts.
Proof. revert ts. induction n as [|n IH]; intros ts Hn; [lia|]. cbn [message]. unfold message_step. ends_loop. Qed.
Lemma rpc_type_ends ts : ends 1 rpc_type ts.
Proof. unfold rpc_type. ends_loop. Qed.
#[export] Hint Resolve message_ends rpc_type_ends : ends.
Lemma rpc_ends n ts : length ts < n → ends 1 (rpc n) ts.
Proof. intros Hn. unfold rpc, rpc_option. ends_loop. Qed.
#[export] Hint Resolve rpc_ends : ends.
Lemma service_ends n ts : length ts < n → ends 1 (service n) ts.
Proof. intros Hn. unfold service, service_step. ends_loop. Qed.
Lemma import_decl_ends ts : ends 1 import_decl ts.
Proof. unfold import_decl. ends_loop. Qed.
#[export] Hint Resolve service_ends import_decl_ends : ends.
Lemma file_step_ends n f ts : length ts ≤ n → ends 1 (file_step n f) ts.
Proof. intros Hn. destruct f. unfold file_step. ends_loop. Qed.

Lemma file_ends n : ∀ k f ts, length ts ≤ k → length ts ≤ n → file k n f ts ≠ OutOfFuel.
Proof.
  induction k as [|k IH]; intros f [|t ts] Hk Hn; try done; cbn in Hk; [lia|]. cbn [file]. destruct (at_sym ";" (t :: ts)); [apply IH; cbn in *; lia|].
  pose proof (file_step_ends n f (t :: ts) Hn) as H. unfold ends, wp in H. unfold mbind, parser_bind. destruct (file_step n f (t :: ts)) as [f' ts'| |]; try done. cbn in H, Hn. apply IH; lia.
Qed.
