(* ===== verification/ProtoSpell.v ===== *)
(** Texts that spell tokens, and what the parser reads from them: layout does
    not matter, and the rules by which the parser's steps consume a text. *)
From S2P Require Import Prelude SortedVec RustStr ProtoLex ProtoWire ProtoLogic.

Open Scope string_scope.
Open Scope nat_scope.
Open Scope list_scope.

(** * The text of a token *)

Lemma second_ok_cont b c : second_ok b c = true → is_cont c = true.
Proof. unfold second_ok, is_cont, between. repeat case_match; rewrite !bool_decide_eq_true; lia. Qed.
Definition wide (s : string) : bool := str_forall (λ c, bool_decide (128 ≤ cval c)) s.
Lemma cont_wide c : is_cont (cval c) = true → bool_decide (128 ≤ cval c) = true.
Proof. unfold is_cont, between. rewrite !bool_decide_eq_true. lia. Qed.
(** A character that is not one byte is made of bytes that are not ASCII. *)
Lemma one_char_wide c d s : one_char (String c (String d s)) → wide (String c (String d s)) = true.
Proof.
  intros [_ H]. revert H. unfold utf8_step, wide. cbn [String.length]. change (byte_at (String c (String d s)) 0) with (cval c). change (byte_at (String c (String d s)) 1) with (cval d).
  cbn [str_forall]. destruct (bool_decide (cval c < 128)) eqn:Ec; [done|]. apply bool_decide_eq_false in Ec. rewrite (bool_decide_eq_true_2 (128 ≤ cval c)) by lia.
  destruct (between 194 223 (cval c)); [destruct (is_cont (cval d)) eqn:Ed; [|done]; destruct s; [|done]; by rewrite cont_wide|].
  destruct (between 224 239 (cval c)).
  { destruct (second_ok (cval c) (cval d)) eqn:Ed; [|done]. apply second_ok_cont, cont_wide in Ed as ->. destruct s as [|e []]; cbn -[is_cont]; try (destruct (is_cont _); done).
    intros H. rewrite cont_wide; [done|]. by destruct (is_cont (cval e)). }
  destruct (between 240 244 (cval c)); [|done]. destruct (second_ok (cval c) (cval d)) eqn:Ed; [|done]. apply second_ok_cont, cont_wide in Ed as ->.
  destruct s as [|e [|f []]]; cbn -[is_cont]; try (repeat destruct (is_cont _); done).
  intros H. destruct (is_cont (cval e)) eqn:Ee, (is_cont (cval f)) eqn:Ef; try done. by rewrite !cont_wide.
Qed.
Lemma wide_lacks c s : cval c < 128 → wide s = true → lacks c s.
Proof. intros Hc. apply str_forall_lacks. by rewrite bool_decide_eq_false_2 by lia. Qed.
(** One byte, or none of them is a line break. *)
Lemma one_char_cases ch : one_char ch → (∃ c, ch = str1 c) ∨ wide ch = true ∧ ∀ c, ch ≠ str1 c.
Proof. destruct ch as [|c [|d s]]; [by intros []|left; by exists c|]. intros H. right. split; [by apply one_char_wide|done]. Qed.

Section texts.
Context {tables : UnicodeTables}.

Lemma lacks_cat c cs : Forall (λ ch, lacks c ch) cs → lacks c (cat cs).
Proof. induction 1; cbn; [done|]. by apply lacks_app. Qed.
Lemma char_lacks_newline ch : one_char ch → is_char NEWLINE ch = false → lacks NEWLINE ch.
Proof.
  intros [[c ->]|[Hw _]]%one_char_cases Hn; [|by apply wide_lacks; [vm_compute; lia|]]. apply bool_decide_eq_false in Hn. apply lacks_cons. split; [|done]. intros <-. done.
Qed.
Lemma ident_char_newline ch : ident_char ch = true → is_char NEWLINE ch = false.
Proof. intros H. apply not_true_iff_false. intros ->%bool_decide_eq_true. done. Qed.
Lemma num_char_newline prev ch : num_char prev ch = true → is_char NEWLINE ch = false.
Proof. intros H. apply not_true_iff_false. intros ->%bool_decide_eq_true. done. Qed.
Lemma num_chars_newline cs : ∀ prev, num_chars prev cs → Forall (λ ch, is_char NEWLINE ch = false) cs.
Proof. induction cs as [|ch cs IH]; intros prev; [done|]. intros [H1 H2]. constructor; [by eapply num_char_newline|by eapply IH]. Qed.

Lemma tok_text_newline t : tok_ok t → lacks NEWLINE (tok_text t).
Proof.
  assert (∀ ch cs, Forall one_char (ch :: cs) → is_char NEWLINE ch = false → Forall (λ ch, is_char NEWLINE ch = false) cs → lacks NEWLINE (ch +:+ cat cs)) as Hall.
  { intros ch cs [H1 H2]%Forall_cons E1 E2. apply lacks_app. split; [by apply char_lacks_newline|]. apply lacks_cat. clear H1. induction H2; [done|]. apply Forall_cons in E2 as [E2 E3]. constructor; [by apply char_lacks_newline|auto]. }
  destruct t as [s|s|s|c]; cbn [tok_ok tok_text].
  - intros (ch & cs & -> & Hone & Hw & _ & Hcs). apply Hall; [done| |by eapply Forall_impl; [exact Hcs|]; intros; apply ident_char_newline]. apply not_true_iff_false. intros ->%bool_decide_eq_true. done.
  - intros (cs & _ & _ & _ & Hs). apply lacks_cons. split; [done|]. apply lacks_app. by split.
  - intros (ch & cs & -> & Hone & Hs & Hcs). apply Hall; [done| |by eapply num_chars_newline]. apply starts_num_plain in Hs as [Hw _]. apply not_true_iff_false. intros ->%bool_decide_eq_true. done.
  - intros H. apply lacks_cons. split; [by intros <-|done].
Qed.

(** What a token begins with. *)
Definition head_of (s : string) : option ascii := String.get 0 s.
Definition is_blank_char (c : ascii) : bool := bool_decide (c = " "%char) || bool_decide (c = NEWLINE).
Lemma ident_head s : tok_ok (TIdent s) → ∃ c r, s = String c r ∧ (name_ascii c = true ∨ 128 ≤ cval c).
Proof.
  intros (ch & cs & -> & [H1 _]%Forall_cons & _ & Hs & _). destruct ch as [|c [|d ch]]; [by destruct H1|exists c, (cat cs); split; [done|left; by eapply starts_ident_ascii]|].
  exists c, (String d ch +:+ cat cs). split; [done|]. right. apply one_char_wide in H1. apply andb_true_iff in H1 as [H1 _]. by apply bool_decide_eq_true in H1.
Qed.
Lemma num_head s : tok_ok (TNum s) → ∃ c r, s = String c r ∧ (is_ascii_digit c = true ∨ c = "-"%char).
Proof. intros (ch & cs & -> & _ & (c & -> & Hc)%starts_num_ascii & _). exists c, (cat cs). split; [done|]. destruct Hc as [|[? _]]; auto. Qed.

(** The sort of a token by its first byte. *)
Definition head_ok (t : Tok) (c : ascii) : bool :=
  match t with
  | TIdent _ => name_ascii c || bool_decide (128 ≤ cval c)
  | TStr _ => bool_decide (c = DQUOTE)
  | TNum _ => is_ascii_digit c || bool_decide (c = "-"%char)
  | TSym d => bool_decide (c = d)
  end.
Lemma tok_head t : tok_ok t → ∃ c r, tok_text t = String c r ∧ head_ok t c = true.
Proof.
  destruct t as [s|s|s|c]; cbn [tok_text head_ok].
  - intros (c & r & -> & H)%ident_head. exists c, r. split; [done|]. apply orb_true_iff. by rewrite bool_decide_eq_true.
  - intros _. by exists DQUOTE, (s +:+ str1 DQUOTE).
  - intros (c & r & -> & H)%num_head. exists c, r. split; [done|]. apply orb_true_iff. by rewrite bool_decide_eq_true.
  - intros _. exists c, "". split; [done|]. by apply bool_decide_eq_true.
Qed.
Lemma head_not_blank t c : tok_ok t → head_ok t c = true → is_blank_char c = false.
Proof.
  intros Ht H. apply not_true_iff_false. unfold is_blank_char. rewrite orb_true_iff, !bool_decide_eq_true. intros [->| ->]; destruct t; try done; apply bool_decide_eq_true in H as <-; done.
Qed.

(** * Layout *)

Lemma spelled_blank c s ts : is_blank_char c = true → spelled s ts → spelled (String c s) ts.
Proof. unfold is_blank_char. rewrite orb_true_iff, !bool_decide_eq_true. intros [->| ->]; by constructor. Qed.
Lemma spelled_after_blank c s ts : is_blank_char c = true → spelled (String c s) ts → spelled s ts.
Proof.
  intros Hc H. inversion H as [|s' ts' H'|s' ts' H'|t s' ts' Ht _ _ E]; subst; try done. destruct (tok_head t Ht) as (d & r & Ed & Hd). rewrite Ed in E. injection E as -> _.
  by rewrite (head_not_blank t c) in Hc.
Qed.

(** Past a line break, whatever spells the same may stand. *)
Lemma split_before_newline t s a b : lacks NEWLINE t → t +:+ s = a +:+ String NEWLINE b → ∃ a', a = t +:+ a' ∧ s = a' +:+ String NEWLINE b.
Proof.
  revert a. induction t as [|c t IH]; intros a Ht E; [by exists a|]. apply lacks_cons in Ht as [Hc Ht]. destruct a as [|d a]; cbn in E; [injection E as -> _; done|].
  injection E as -> E. destruct (IH a Ht E) as (a' & -> & ->). by exists a'.
Qed.
Lemma spelled_line_mono a b b' ts : (∀ ts, spelled b ts → spelled b' ts) → spelled (a +:+ String NEWLINE b) ts → spelled (a +:+ String NEWLINE b') ts.
Proof.
  intros Hb H. remember (a +:+ String NEWLINE b) as s eqn:Es. revert a Es. induction H as [|s ts Hs IH|s ts Hs IH|t s ts Hok Hf Hs IH]; intros a Es.
  - by destruct a.
  - destruct a as [|c a]; [done|]. injection Es as <- Es. cbn. apply sp_space. by apply IH.
  - destruct a as [|c a]; [injection Es as ->; apply sp_line; by apply Hb|]. injection Es as <- Es. apply sp_line. by apply IH.
  - apply split_before_newline in Es as (a' & -> & ->); [|by apply tok_text_newline]. rewrite str_app_assoc. apply sp_tok; [done| |by apply IH].
    destruct t as [| | |c]; cbn [follows] in *; try (by destruct a'); done.
Qed.

Lemma lines_of_line s a : lacks NEWLINE a → lines_of (a +:+ String NEWLINE s) = a :: lines_of s.
Proof.
  intros Ha. unfold lines_of. rewrite split_char_app by done. assert (split_char NEWLINE s ≠ []) as Hne by (destruct s; cbn; [done|]; by repeat case_match).
  destruct (split_char NEWLINE s) as [|l ls]; [done|]. change (last (a :: l :: ls)) with (last (l :: ls)). destruct (last (l :: ls)) as [x|]; [|done]. by destruct (decide (x = "")).
Qed.
(** Indenting what is on lines of its own changes nothing. *)
Lemma spelled_indented s r ts : spelled (s +:+ LF +:+ r) ts → spelled (indented s +:+ r) ts.
Proof.
  remember (String.length s) as n eqn:Hn. revert s r ts Hn. induction n as [n IH] using lt_wf_ind. intros s r ts ->.
  destruct (find_char NEWLINE s) as [i|] eqn:E.
  - apply find_char_Some in E as (a & b & -> & Ha & _). unfold indented. rewrite lines_of_line by done. cbn [fmap list_fmap cat]. fold (indented b).
    change (str1 NEWLINE) with LF. rewrite !str_app_assoc. intros H. cbn [String.append]. do 2 apply sp_space. revert H. apply spelled_line_mono. intros ts'. apply (IH (String.length b)); [|done]. rewrite str_length_app. cbn. lia.
  - unfold indented, lines_of. rewrite split_char_lacks by done. cbn [last]. destruct (decide (s = "")) as [->|].
    + cbn. by apply spelled_after_blank.
    + cbn [removelast fmap list_fmap cat]. rewrite str_app_nil_r, !str_app_assoc. intros H. cbn [String.append]. by do 2 apply sp_space.
Qed.

(** The first byte that is not blank. *)
Fixpoint lead (s : string) : option ascii := match s with String c r => if is_blank_char c then lead r else Some c | "" => None end.
Lemma spelled_lead s ts : spelled s ts → match ts with [] => lead s = None | t :: _ => ∃ c, lead s = Some c ∧ tok_ok t ∧ head_ok t c = true end.
Proof.
  induction 1 as [|s ts _ IH|s ts _ IH|t s ts Hok Hf _ IH]; [done|exact IH..|]. destruct (tok_head t Hok) as (c & r & -> & Hc). exists c. cbn. by rewrite (head_not_blank t c).
Qed.
Definition plain_symbol (c : ascii) : bool := is_symbol c && negb (bool_decide (c = "-"%char)).
Definition head_apart (c : ascii) : bool :=
  negb (plain_symbol c) || negb (name_ascii c || bool_decide (128 ≤ cval c)) && negb (bool_decide (c = DQUOTE)) && negb (is_ascii_digit c || bool_decide (c = "-"%char)).
Lemma symbol_head c t : plain_symbol c = true → head_ok t c = true → t = TSym c.
Proof.
  intros Hc. assert (head_apart c = true) as H by (apply ascii_all; vm_compute; reflexivity). unfold head_apart in H. rewrite Hc in H. cbn [negb orb] in H. apply andb_true_iff in H as [[H1 H2]%andb_true_iff H3]. rewrite negb_true_iff in *. destruct t; cbn [head_ok]; try congruence. intros ->%bool_decide_eq_true. done.
Qed.
(** Looking at the next token. *)
Lemma spelled_at_sym c s ts : plain_symbol c = true → spelled s ts → at_sym c ts = bool_decide (lead s = Some c).
Proof.
  intros Hc H%spelled_lead. destruct ts as [|t ts]; [by rewrite H|]. destruct H as (d & -> & Ht & Hd). destruct (decide (d = c)) as [->|Hne].
  - rewrite (symbol_head c t) by done. cbn. by rewrite !bool_decide_eq_true_2.
  - rewrite (bool_decide_eq_false_2 (Some d = Some c)) by congruence. destruct t; try done. cbn in *. apply bool_decide_eq_true in Hd as <-. by apply bool_decide_eq_false_2.
Qed.
Lemma spelled_symbol c s ts : plain_symbol c = true → spelled (String c s) ts → ∃ ts', ts = TSym c :: ts' ∧ spelled s ts'.
Proof.
  intros Hc H. pose proof (spelled_lead _ _ H) as Hl. assert (is_blank_char c = false) as Hb.
  { apply not_true_iff_false. unfold is_blank_char. rewrite orb_true_iff, !bool_decide_eq_true. by intros [->| ->]. }
  cbn [lead] in Hl. rewrite Hb in Hl. inversion H as [|s' ts' H'|s' ts' H'|t s' ts' Ht _ Hs E]; subst; try (by unfold is_blank_char in Hb; vm_compute in Hb).
  destruct Hl as (d & [= <-] & _ & Hd). apply symbol_head in Hd as ->; [|done]. cbn in E. injection E as ->. eauto.
Qed.
Lemma spelled_no_ident x s ts : match lead s with Some c => negb (name_ascii c || bool_decide (128 ≤ cval c)) | None => true end = true → spelled s ts → at_ident x ts = false ∧ at_dotted ts = None.
Proof.
  intros Hl H%spelled_lead. destruct ts as [|t ts]; [done|]. destruct H as (c & E & _ & Hc). rewrite E in Hl. destruct t; try done. cbn in Hc. by rewrite Hc in Hl.
Qed.

(** The next word is the longest one. *)
Definition no_str (out : list Tok) : Prop := match out with TStr _ :: _ => False | _ => True end.
Lemma lex_step_keeps ch rest pre out c out' : no_str out → lex_step ch rest (pre ++ out) = Some (c, out') → ∃ pre', out' = pre' ++ out.
Proof.
  intros Hout. assert (∀ t, ∃ pre', t :: pre ++ out = pre' ++ out) as Hcons by (intros t; by exists (t :: pre)).
  unfold lex_step. repeat (case_match; try (by intros [= <- <-]; eauto)); try done.
  all: intros [= <- <-]; destruct pre as [|[] pre]; cbn; eauto.
  all: try (destruct out as [|[] out]; try done; by eexists [_]).
  all: try by eexists (_ :: _).
Qed.
Lemma lex_all_keeps c out : no_str out → ∀ pre ts, lex_all c (pre ++ out) = Some ts → ∃ ts', ts = reverse out ++ ts'.
Proof.
  intros Hout. remember (length c) as n eqn:Hn. revert c Hn. induction n as [n IH] using lt_wf_ind. intros [|ch c] -> pre ts.
  - intros [= <-]. rewrite reverse_app. eauto.
  - rewrite lex_all_cons. destruct (lex_step ch c (pre ++ out)) as [[c' out']|] eqn:E; [|done]. cbn [mbind option_bind]. pose proof (lex_step_length _ _ _ _ _ E) as Hl.
    apply lex_step_keeps in E as [pre' ->]; [|done]. apply (IH (length c')); [cbn; lia|done].
Qed.

(** * Reading a text *)

(** [p] reads, from a text [s] that ends in [r], a value for which [Q] holds,
    and leaves [r]; with more fuel than [s] has tokens. *)
Definition run {A} (p : nat → P A) (s : string) (Q : A → Prop) (r : string) : Prop :=
  ∃ a, Q a ∧ ∀ rts, spelled r rts → ∃ ts, spelled s ts ∧ length rts ≤ length ts ∧ ∀ n, length ts < n → p n ts = Done a rts.

Lemma run_ret {A} (a : A) (Q : A → Prop) s : Q a → run (λ _, mret a) s Q s.
Proof. intros HQ. exists a. split; [done|]. intros rts H. by exists rts. Qed.
Lemma run_mono {A} p s (Q Q' : A → Prop) r : run p s Q r → (∀ a, Q a → Q' a) → run p s Q' r.
Proof. intros (a & Ha & H) HQ. exists a. auto. Qed.
Lemma run_bind {A B} (p : nat → P A) (f : A → nat → P B) s Q s' R r :
  run p s Q s' → (∀ a, Q a → run (f a) s' R r) → run (λ n, p n ≫= λ a, f a n) s R r.
Proof.
  intros (a & Ha & Hp) Hf. destruct (Hf a Ha) as (b & Hb & Hfa). exists b. split; [done|]. intros rts Hr.
  destruct (Hfa rts Hr) as (ts' & Hs' & Hl' & Hn'). destruct (Hp ts' Hs') as (ts & Hs & Hl & Hn). exists ts. split_and!; [done|lia|].
  intros n Hlt. unfold mbind, parser_bind. rewrite Hn by done. apply Hn'. lia.
Qed.
(** The same with the value fixed. *)
Lemma run_bind_eq {A B} (p : nat → P A) (f : A → nat → P B) s a s' R r :
  run p s (λ x, x = a) s' → run (f a) s' R r → run (λ n, p n ≫= λ a, f a n) s R r.
Proof. intros Hp Hf. eapply run_bind; [exact Hp|]. by intros ? ->. Qed.
Lemma run_text {A} (p : nat → P A) s s' Q r : (∀ ts, spelled s ts → spelled s' ts) → run p s Q r → run p s' Q r.
Proof. intros Hs (a & Ha & H). exists a. split; [done|]. intros rts Hr. destruct (H rts Hr) as (ts & Hts & ? & ?). exists ts. auto. Qed.
Lemma run_blank {A} (p : nat → P A) c s Q r : is_blank_char c = true → run p s Q r → run p (String c s) Q r.
Proof. intros Hc. apply run_text. intros ts. by apply spelled_blank. Qed.
Lemma run_drop {A} (p : nat → P A) c s Q r : is_blank_char c = true → run p s Q (String c r) → run p s Q r.
Proof. intros Hc (a & Ha & H). exists a. split; [done|]. intros rts Hr. apply H. by apply spelled_blank. Qed.
Lemma run_ext {A} (p q : nat → P A) s Q r : (∀ n, q n = p n) → run p s Q r → run q s Q r.
Proof. intros E (a & Ha & H). exists a. split; [done|]. intros rts Hr. destruct (H rts Hr) as (ts & ? & ? & Hn). exists ts. split_and!; [done..|]. intros n Hlt. rewrite E. by apply Hn. Qed.
Lemma run_indented {A} (p : nat → P A) s t Q r : run p (s +:+ LF +:+ t) Q r → run p (indented s +:+ t) Q r.
Proof. apply run_text. intros ts. apply spelled_indented. Qed.

(** ** Tokens *)

(** What may follow a word, and what may follow a value. *)
Definition delim (r : string) : bool := match r with String c _ => is_blank_char c || plain_symbol c | "" => true end.
Definition stops (r : string) : bool := delim r && match lead r with Some c => plain_symbol c | None => false end.
Definition delim_apart (c : ascii) : bool :=
  negb (is_blank_char c || plain_symbol c) ||
  Nat.ltb (cval c) 128 && negb (is_ascii_alphanumeric c || bool_decide (c = "_"%char) || bool_decide (c = "."%char) || bool_decide (c = "-"%char) || bool_decide (c = "+"%char)).
Lemma delim_word r : delim r = true → first_char (λ ch, ident_char ch = false) r ∧ first_char (λ ch, ∀ prev, num_char prev ch = false) r.
Proof.
  destruct r as [|c r]; [done|]. cbn [delim first_char]. intros Hc. assert (delim_apart c = true) as H by (apply ascii_all; vm_compute; reflexivity).
  unfold delim_apart in H. rewrite Hc in H. cbn [negb orb] in H. apply andb_true_iff in H as [H1%Nat.ltb_lt H2%negb_true_iff]. rewrite !orb_false_iff, !bool_decide_eq_false in H2. destruct H2 as [[[[H2 H3] H4] H5] H6].
  assert (∀ d, c ≠ d → is_char d (str1 c) = false) as Hd by (intros d Hd; apply bool_decide_eq_false; intros [=]; done).
  split; (split; [done|]).
  - unfold ident_char. cbn [is_alphanumeric str1]. change (String c "") with (str1 c). by rewrite H2, !Hd.
  - intros prev. unfold num_char. cbn [ascii_is str1]. change (String c "") with (str1 c). by rewrite H2, !Hd.
Qed.

Lemma run_next t r : tok_ok t → (∀ ts, spelled r ts → follows t r ts) → run (λ _, next) (tok_text t +:+ r) (λ x, x = t) r.
Proof. intros Ht Hf. exists t. split; [done|]. intros rts Hr. exists (t :: rts). split_and!; [by constructor; auto|cbn; lia|done]. Qed.
Lemma run_next_ident x r : tok_ok (TIdent x) → delim r = true → run (λ _, next) (x +:+ r) (λ t, t = TIdent x) r.
Proof. intros Hx Hr. apply (run_next (TIdent x)); [done|]. intros ts _. cbn. by apply delim_word. Qed.
Lemma run_next_num x r : tok_ok (TNum x) → delim r = true → run (λ _, next) (x +:+ r) (λ t, t = TNum x) r.
Proof. intros Hx Hr. apply (run_next (TNum x)); [done|]. intros ts _. cbn. by apply delim_word. Qed.
Lemma run_next_str x r : tok_ok (TStr x) → stops r = true → run (λ _, next) (quoted x +:+ r) (λ t, t = TStr x) r.
Proof.
  intros Hx [_ Hr]%andb_true_iff. apply (run_next (TStr x)); [done|]. intros ts Hts%spelled_lead. cbn. destruct ts as [|t ts]; [done|]. destruct Hts as (c & E & Ht & Hc). rewrite E in Hr.
  by rewrite (symbol_head c t).
Qed.
Lemma run_next_sym c r : plain_symbol c = true → run (λ _, next) (String c r) (λ t, t = TSym c) r.
Proof.
  intros Hc. apply (run_next (TSym c)); [by apply andb_true_iff in Hc as [Hc _]|]. intros ts _. cbn. intros ->. done.
Qed.
(** A test of the next token. *)
Lemma run_ident x r : tok_ok (TIdent x) → delim r = true → run (λ _, ident) (x +:+ r) (λ y, y = x) r.
Proof. intros Hx Hr. unfold ident. eapply run_bind_eq; [by apply run_next_ident|]. by apply run_ret. Qed.
Lemma run_num x r : tok_ok (TNum x) → delim r = true → run (λ _, num) (x +:+ r) (λ y, y = x) r.
Proof. intros Hx Hr. unfold num. eapply run_bind_eq; [by apply run_next_num|]. by apply run_ret. Qed.
Lemma run_str x r : tok_ok (TStr x) → stops r = true → run (λ _, str) (quoted x +:+ r) (λ y, y = x) r.
Proof. intros Hx Hr. unfold str. eapply run_bind_eq; [by apply run_next_str|]. by apply run_ret. Qed.
Lemma run_sym c r : plain_symbol c = true → run (λ _, sym c) (String c r) (λ y, y = ()) r.
Proof. intros Hc. unfold sym. eapply run_bind_eq; [by apply run_next_sym|]. rewrite decide_True by done. by apply run_ret. Qed.
Lemma run_skip c r : plain_symbol c = true → run (λ _, skip) (String c r) (λ y, y = ()) r.
Proof.
  intros Hc. exists (). split; [done|]. intros rts Hr. exists (TSym c :: rts). split_and!; [|cbn; lia|done]. apply (sp_tok (TSym c)); [by apply andb_true_iff in Hc as [Hc _]| |done].
  cbn. by intros ->.
Qed.
Lemma run_is_sym c b s : plain_symbol c = true → bool_decide (lead s = Some c) = b → run (λ _, is_sym c) s (λ x, x = b) s.
Proof. intros Hc <-. exists (bool_decide (lead s = Some c)). split; [done|]. intros rts Hr. exists rts. split_and!; [done..|]. intros n _. unfold is_sym. by rewrite (spelled_at_sym c s). Qed.
Lemma run_eat c r : plain_symbol c = true → run (λ _, eat c) (String c r) (λ y, y = ()) r.
Proof.
  intros Hc. unfold eat. eapply run_bind_eq; [apply run_is_sym; [done|reflexivity]|]. cbn beta iota. assert (lead (String c r) = Some c) as ->.
  { cbn. assert (is_blank_char c = false) as ->; [|done]. apply not_true_iff_false. unfold is_blank_char. rewrite orb_true_iff, !bool_decide_eq_true. by intros [->| ->]. }
  rewrite bool_decide_eq_true_2 by done. by apply run_skip.
Qed.
Lemma run_eat_no c s : plain_symbol c = true → bool_decide (lead s = Some c) = false → run (λ _, eat c) s (λ y, y = ()) s.
Proof. intros Hc Hs. unfold eat. eapply run_bind_eq; [apply run_is_sym; [done|exact Hs]|]. by apply run_ret. Qed.
(** [lead] of a text that begins with a word. *)
Definition word_apart (c : ascii) : bool := negb (is_symbol c) || negb (name_ascii c || bool_decide (128 ≤ cval c)).
Lemma lead_word x r : tok_ok (TIdent x) → ∃ c, lead (x +:+ r) = Some c ∧ is_symbol c = false.
Proof.
  intros Hx. pose proof Hx as (c & s & -> & Hc)%ident_head. exists c. cbn. assert (name_ascii c || bool_decide (128 ≤ cval c) = true) as Hc' by (apply orb_true_iff; by rewrite bool_decide_eq_true).
  rewrite (head_not_blank (TIdent (String c s)) c) by done. split; [done|]. assert (word_apart c = true) as H by (apply ascii_all; vm_compute; reflexivity). unfold word_apart in H. rewrite Hc' in H.
  by destruct (is_symbol c).
Qed.
Lemma lead_word_sym x r c : tok_ok (TIdent x) → plain_symbol c = true → bool_decide (lead (x +:+ r) = Some c) = false.
Proof. intros Hx [Hc _]%andb_true_iff. destruct (lead_word x r Hx) as (d & -> & Hd). apply bool_decide_eq_false. intros [= ->]. congruence. Qed.

Lemma spelled_word x r ts : tok_ok (TIdent x) → delim r = true → spelled (x +:+ r) ts → ∃ ts', ts = TIdent x :: ts'.
Proof.
  intros Hx Hr H%spelled_tokens. unfold tokenize in H. change (lex_all (chars (tok_text (TIdent x) +:+ r)) [] = Some ts) in H.
  destruct (lex_tok (TIdent x) r [] []) as [E _]; [done|by apply delim_word|done|]. rewrite E in H. by apply (lex_all_keeps (chars r) [TIdent x] I []) in H.
Qed.
Lemma run_is_ident x y b r : tok_ok (TIdent y) → delim r = true → bool_decide (y = x) = b → run (λ _, is_ident x) (y +:+ r) (λ z, z = b) (y +:+ r).
Proof.
  intros Hy Hr <-. exists (bool_decide (y = x)). split; [done|]. intros rts H. exists rts. split_and!; [done..|]. intros n _. apply spelled_word in H as [ts ->]; done.
Qed.
Lemma run_skip_word x r : tok_ok (TIdent x) → delim r = true → run (λ _, skip) (x +:+ r) (λ y, y = ()) r.
Proof. intros Hx Hr. exists (). split; [done|]. intros rts H. exists (TIdent x :: rts). split_and!; [|cbn; lia|done]. apply (sp_tok (TIdent x)); [done|by apply delim_word|done]. Qed.

(** ** Loops *)

Lemma done_shrinks {A} (p : nat → P A) s (Q : A → Prop) r : (∀ n ts, length ts < n → ends 1 (p n) ts) → run p s Q r →
  ∃ a, Q a ∧ ∀ rts, spelled r rts → ∃ ts, spelled s ts ∧ length rts < length ts ∧ ∀ n, length ts < n → p n ts = Done a rts.
Proof.
  intros He (a & Ha & H). exists a. split; [done|]. intros rts Hr. destruct (H rts Hr) as (ts & Hs & _ & Hn). exists ts. split_and!; [done| |done].
  specialize (He (S (length ts)) ts ltac:(lia)). unfold ends, wp in He. rewrite Hn in He by lia. lia.
Qed.

Section loop.
Context {T : Type} (step : nat → T → P T) (Hends : ∀ n st ts, length ts < n → ends 1 (step n st) ts).

Lemma until_fuel c n : ∀ k k' st ts, length ts < n → length ts < k → length ts < k' → until c k (step n) st ts = until c k' (step n) st ts.
Proof.
  induction k as [|k IH]; intros [|k'] st ts Hn Hk Hk'; try lia. cbn [until]. destruct (at_sym c ts); [done|]. pose proof (Hends n st ts Hn) as He. unfold mbind, parser_bind. unfold ends, wp in He.
  destruct (step n st ts); try done. apply IH; lia.
Qed.
Lemma braces_fuel n : ∀ k k' st ts, length ts < n → length ts < k → length ts < k' → braces k (step n) st ts = braces k' (step n) st ts.
Proof.
  induction k as [|k IH]; intros [|k'] st ts Hn Hk Hk'; try lia. cbn [braces]. pose proof (skip_semis_length ts) as Hs. destruct (at_sym "}" _); [done|].
  pose proof (Hends n st (skip_semis ts) ltac:(lia)) as He. unfold mbind, parser_bind. unfold ends, wp in He. destruct (step n st (skip_semis ts)); try done. apply IH; lia.
Qed.
Lemma commas_fuel n : ∀ k k' st ts, length ts < n → length ts < k → length ts < k' → commas k (step n) st ts = commas k' (step n) st ts.
Proof.
  induction k as [|k IH]; intros [|k'] st ts Hn Hk Hk'; try lia. cbn [commas]. pose proof (Hends n st ts Hn) as He. unfold mbind, parser_bind, is_sym. unfold ends, wp in He.
  destruct (step n st ts) as [st' ts'| |]; try done. destruct (at_sym "," ts'); cbn; [|done]. destruct ts' as [|t ts']; cbn in *; apply IH; cbn; lia.
Qed.

Lemma run_until_done c st r : plain_symbol c = true → run (λ n, until c n (step n) st) (String c r) (λ x, x = st) r.
Proof.
  intros Hc. exists st. split; [done|]. intros rts Hr. exists (TSym c :: rts). split_and!; [|cbn; lia|].
  - apply (sp_tok (TSym c)); [by apply andb_true_iff in Hc as [Hc _]| |done]. cbn. by intros ->.
  - intros [|n] Hn; cbn [until at_sym]; by rewrite bool_decide_eq_true_2.
Qed.
Lemma run_until_step c st s Q s' R r : plain_symbol c = true → bool_decide (lead s = Some c) = false → run (λ n, step n st) s Q s' →
  (∀ st', Q st' → run (λ n, until c n (step n) st') s' R r) → run (λ n, until c n (step n) st) s R r.
Proof.
  intros Hc Hl Hs Hloop. apply done_shrinks in Hs as (st' & HQ & Hs); [|auto]. destruct (Hloop st' HQ) as (b & Hb & Hl'). exists b. split; [done|]. intros rts Hr.
  destruct (Hl' rts Hr) as (ts' & Hsp' & Hlen' & Hn'). destruct (Hs ts' Hsp') as (ts & Hsp & Hlen & Hn). exists ts. split_and!; [done|lia|]. intros [|n] Hlt; [lia|]. cbn [until].
  rewrite (spelled_at_sym c s), Hl by done. unfold mbind, parser_bind. rewrite Hn by done. rewrite (until_fuel c (S n) n (S n)) by lia. apply Hn'. lia.
Qed.
Lemma run_braces_done st r : run (λ n, braces n (step n) st) (String "}" r) (λ x, x = st) r.
Proof.
  exists st. split; [done|]. intros rts Hr. exists (TSym "}" :: rts). split_and!; [|cbn; lia|by intros [|n] Hn].
  by apply (sp_tok (TSym "}")).
Qed.
Lemma run_braces_step st s Q s' R r : bool_decide (lead s = Some "}"%char) = false → bool_decide (lead s = Some ";"%char) = false → run (λ n, step n st) s Q s' →
  (∀ st', Q st' → run (λ n, braces n (step n) st') s' R r) → run (λ n, braces n (step n) st) s R r.
Proof.
  intros Hl Hsemi Hs Hloop. apply done_shrinks in Hs as (st' & HQ & Hs); [|auto]. destruct (Hloop st' HQ) as (b & Hb & Hl'). exists b. split; [done|]. intros rts Hr.
  destruct (Hl' rts Hr) as (ts' & Hsp' & Hlen' & Hn'). destruct (Hs ts' Hsp') as (ts & Hsp & Hlen & Hn). exists ts. split_and!; [done|lia|]. intros [|n] Hlt; [lia|]. cbn [braces].
  assert (skip_semis ts = ts) as ->. { pose proof (spelled_at_sym ";" s ts eq_refl Hsp) as E. rewrite Hsemi in E. destruct ts as [|[| | |d] ts]; try done. cbn in *. apply bool_decide_eq_false in E. by rewrite decide_False. }
  rewrite (spelled_at_sym "}" s), Hl by done. unfold mbind, parser_bind. rewrite Hn by done. rewrite (braces_fuel (S n) n (S n)) by lia. apply Hn'. lia.
Qed.
Lemma run_braces_semi st s R r : run (λ n, braces n (step n) st) s R r → run (λ n, braces n (step n) st) (String ";" s) R r.
Proof.
  intros (a & Ha & H). exists a. split; [done|]. intros rts Hr. destruct (H rts Hr) as (ts & Hs & Hl & Hn). exists (TSym ";" :: ts). split_and!; [by apply (sp_tok (TSym ";"))|cbn; lia|].
  intros n Hlt. cbn in Hlt. rewrite <-(Hn n) by lia. by destruct n.
Qed.
Lemma run_commas_last st s Q r : run (λ n, step n st) s Q r → bool_decide (lead r = Some ","%char) = false → run (λ n, commas n (step n) st) s Q r.
Proof.
  intros (a & Ha & H) Hl. exists a. split; [done|]. intros rts Hr. destruct (H rts Hr) as (ts & Hs & Hlen & Hn). exists ts. split_and!; [done..|]. intros [|n] Hlt; [lia|].
  cbn [commas]. unfold mbind, parser_bind. rewrite Hn by done. unfold is_sym. by rewrite (spelled_at_sym "," r), Hl.
Qed.
Lemma run_commas_more st s Q s' R r : run (λ n, step n st) s Q (String "," s') → (∀ st', Q st' → run (λ n, commas n (step n) st') s' R r) → run (λ n, commas n (step n) st) s R r.
Proof.
  intros Hs Hloop. apply done_shrinks in Hs as (st' & HQ & Hs); [|auto]. destruct (Hloop st' HQ) as (b & Hb & Hl'). exists b. split; [done|]. intros rts Hr.
  destruct (Hl' rts Hr) as (ts' & Hsp' & Hlen' & Hn'). destruct (Hs (TSym "," :: ts')) as (ts & Hsp & Hlen & Hn); [by apply (sp_tok (TSym ","))|]. exists ts. cbn in Hlen. split_and!; [done|lia|]. intros [|n] Hlt; [lia|].
  cbn [commas]. unfold mbind, parser_bind, is_sym. rewrite Hn by done. cbn [at_sym skip tail]. rewrite bool_decide_eq_true_2 by done.
  cbn [tail]. rewrite (commas_fuel (S n) n (S n)) by lia. apply Hn'. lia.
Qed.
End loop.
End texts.
