(* ===== verification/ProtoRead.v ===== *)
(** Reading back what the printer of [.proto] sources writes: values, options,
    fields, and the elements they make up. *)
From S2P Require Import Prelude SortedVec RustStr ProtoLex ProtoWire ProtoLogic ProtoSpell.

Open Scope string_scope.
Open Scope nat_scope.
Open Scope list_scope.

(** * Induction on values *)

Section value_induction.
Context (Q : WValue → Prop).
Context (Hstr : ∀ s, Q (WStr s)) (Hraw : ∀ s, Q (WRaw s)).
Context (Hmap : ∀ es : list (string * WValue), Forall (λ e, Q e.2) es → Q (WMap es)) (Hlist : ∀ vs, Forall Q vs → Q (WList vs)).
Fixpoint wvalue_induction (v : WValue) : Q v :=
  match v with
  | WStr s => Hstr s
  | WRaw s => Hraw s
  | WMap es => Hmap es ((fix go (es : list (string * WValue)) : Forall (λ e, Q e.2) es :=
      match es with [] => @Forall_nil_2 _ _ | e :: es => @Forall_cons_2 _ _ e es (wvalue_induction e.2) (go es) end) es)
  | WList vs => Hlist vs ((fix go (vs : list WValue) : Forall Q vs :=
      match vs with [] => @Forall_nil_2 _ _ | v :: vs => @Forall_cons_2 _ _ v vs (wvalue_induction v) (go vs) end) vs)
  end.
End value_induction.

(** ** Their printed form *)

Definition entry_line (e : string * WValue) : string := e.1 +:+ ": " +:+ value_str e.2.
Definition entry_str (e : string * WValue) (endl : string) : string := indented (entry_line e +:+ endl).
Definition item_str (v : WValue) (endl : string) : string := indented (value_str v +:+ endl).
Lemma value_str_map es : value_str (WMap es) = "{" +:+ LF +:+ with_commas entry_str es +:+ "}".
Proof.
  cbn [value_str]. do 3 f_equal. induction es as [|[k v] es IH]; [done|]. destruct es as [|e es]; [unfold entry_str, entry_line; cbn; by rewrite str_app_nil_r|].
  change (with_commas entry_str ((k, v) :: e :: es)) with (entry_str (k, v) "," +:+ with_commas entry_str (e :: es)). rewrite <-IH. unfold entry_str, entry_line. cbn [fst snd]. by rewrite !str_app_assoc.
Qed.
Lemma value_str_list vs : value_str (WList vs) = "[" +:+ LF +:+ with_commas item_str vs +:+ "]".
Proof.
  cbn [value_str]. do 3 f_equal. induction vs as [|v vs IH]; [done|]. destruct vs as [|w vs]; [unfold item_str; cbn; by rewrite str_app_nil_r|].
  change (with_commas item_str (v :: w :: vs)) with (item_str v "," +:+ with_commas item_str (w :: vs)). by rewrite <-IH.
Qed.

Section reading.
Context {tables : UnicodeTables}.

(** * Lists of lines *)

(** The items of a loop, each on lines of its own. *)
Section listed.
Context {T X : Type} (step : nat → T → P T) (Hends : ∀ n st ts, length ts < n → ends 1 (step n st) ts).
Context (c : ascii) (Hc : plain_symbol c = true) (text : X → string) (add : T → X → T).

Lemma run_until_lines xs : ∀ st r,
  Forall (λ x, (∀ r, bool_decide (lead (text x +:+ r) = Some c) = false) ∧
    ∀ st, (∀ r, run (λ n, step n st) (text x +:+ String "," r) (λ st', st' = add st x) r) ∧
          (∀ r, run (λ n, step n st) (text x +:+ LF +:+ String c r) (λ st', st' = add st x) (String c r))) xs →
  run (λ n, until c n (step n) st) (with_commas (λ x e, indented (text x +:+ e)) xs +:+ String c r) (λ st', st' = foldl add st xs) r.
Proof.
  induction xs as [|x xs IH]; intros st r Hxs; [by apply run_until_done|]. apply Forall_cons in Hxs as [[Hl Hx] Hxs]. destruct (Hx st) as [Hmore Hlast]. destruct xs as [|y xs].
  - cbn [with_commas]. apply run_indented. rewrite str_app_nil_r. eapply run_until_step; [done|done|done|apply Hlast|]. intros st' ->. by apply run_until_done.
  - change (with_commas (λ x e, indented (text x +:+ e)) (x :: y :: xs)) with (indented (text x +:+ ",") +:+ with_commas (λ x e, indented (text x +:+ e)) (y :: xs)). rewrite str_app_assoc. apply run_indented.
    rewrite str_app_assoc. eapply run_until_step; [done|done|apply Hl|apply Hmore|]. intros st' ->. apply run_blank; [done|]. by apply IH.
Qed.
End listed.

(** * Values *)

Definition name_ok (x : string) : Prop := tok_ok (TIdent x).
Definition num_ok (x : string) : Prop := tok_ok (TNum x).
Definition str_ok (x : string) : Prop := tok_ok (TStr x).
(** A word or a number, or one after a minus that stays on its own. *)
Definition raw_ok (s : string) : Prop :=
  name_ok s ∨ num_ok s ∨ ∃ x, s = String "-" x ∧ (name_ok x ∧ starts_with "." x = false ∨ num_ok x ∧ starts_with "-" x = true).
Definition key_ok (k : string) : Prop := name_ok k ∨ ∃ x, name_ok x ∧ k = "[" +:+ x +:+ "]".
Fixpoint value_ok (v : WValue) : Prop :=
  match v with
  | WStr s => str_ok s
  | WRaw s => raw_ok s
  | WMap es => NoDup es.*1 ∧ (fix go (es : list (string * WValue)) : Prop := match es with [] => True | e :: es => (key_ok e.1 ∧ value_ok e.2) ∧ go es end) es
  | WList vs => (fix go (vs : list WValue) : Prop := match vs with [] => True | v :: vs => value_ok v ∧ go vs end) vs
  end.
Lemma value_ok_map es : value_ok (WMap es) ↔ NoDup es.*1 ∧ Forall (λ e, key_ok e.1 ∧ value_ok e.2) es.
Proof. cbn [value_ok]. apply and_iff_compat_l. induction es as [|e es IH]; [done|]. by rewrite Forall_cons, IH. Qed.
Lemma value_ok_list vs : value_ok (WList vs) ↔ Forall value_ok vs.
Proof. cbn [value_ok]. induction vs as [|v vs IH]; [done|]. by rewrite Forall_cons, IH. Qed.

(** A step of the fuel is spent on the first token. *)
Lemma run_enter {A B} (first : P A) (p : nat → P B) (f : A → nat → P B) s a s' R r :
  (∀ ts, ends 1 first ts) → (∀ m, p (S m) = first ≫= λ a, f a m) → run (λ _, first) s (λ x, x = a) s' → run (f a) s' R r → run p s R r.
Proof.
  intros He Hp Hfirst (b & Hb & Hf). apply done_shrinks in Hfirst as (x & -> & Hfirst); [|auto]. exists b. split; [done|]. intros rts Hr.
  destruct (Hf rts Hr) as (ts' & Hs' & Hl' & Hn'). destruct (Hfirst ts' Hs') as (ts & Hs & Hl & Hn). exists ts. split_and!; [done|lia|]. intros [|n] Hlt; [lia|].
  rewrite Hp. unfold mbind, parser_bind. rewrite (Hn (S n)) by done. apply Hn'. lia.
Qed.
Lemma next_ends ts : ends 1 next ts.
Proof. unfold ends. apply wp_next. intros t ts' ->. cbn. lia. Qed.
Definition value_rest (t : Tok) (n : nat) : P WValue :=
  match t with
  | TStr s => mret (WStr s)
  | TNum s | TIdent s => mret (WRaw s)
  | TSym c =>
      if decide (c = "-"%char) then
        t ← next; match t with TIdent s | TNum s => mret (WRaw ("-" +:+ s)) | _ => bad end
      else if decide (c = "{"%char) then entries ← until "}" n (aggregate_entry (value n)) []; mret (WMap entries)
      else if decide (c = "["%char) then items ← until "]" n (list_item (value n)) []; mret (WList items)
      else bad
  end.
Lemma run_value t s s' R r : run (λ _, next) s (λ x, x = t) s' → run (value_rest t) s' R r → run value s R r.
Proof. intros H1 H2. eapply (run_enter next value value_rest); [apply next_ends|done|exact H1|exact H2]. Qed.

Lemma stops_delim r : stops r = true → delim r = true.
Proof. by intros [? _]%andb_true_iff. Qed.
Lemma stops_blank c r : is_blank_char c = true → stops r = true → stops (String c r) = true.
Proof. intros Hc [_ Hr]%andb_true_iff. unfold stops. cbn [delim lead]. by rewrite Hc. Qed.
Lemma run_raw s r : raw_ok s → stops r = true → run value (s +:+ r) (λ v, v = WRaw s) r.
Proof.
  intros Hs Hr. pose proof (stops_delim r Hr) as Hd. destruct Hs as [Hs|[Hs|(x & -> & Hx)]].
  - eapply run_value; [by apply run_next_ident|]. by apply run_ret.
  - eapply run_value; [by apply run_next_num|]. by apply run_ret.
  - eapply run_value.
    + apply (run_next (TSym "-")); [done|]. intros ts _ _. destruct Hx as [[Hx Hdot]|[Hx Hminus]].
      * destruct (ident_head x Hx) as (c & y & -> & Hc). cbn. split.
        { destruct Hc as [Hc|Hc]; [|unfold is_ascii_digit, in_range; apply bool_decide_eq_false; lia]. destruct (is_ascii_digit c) eqn:E; [|done].
          assert (negb (name_ascii c) || negb (is_ascii_digit c) = true) as H by (apply (ascii_all (λ c, negb (name_ascii c) || negb (is_ascii_digit c))); vm_compute; reflexivity). by rewrite Hc, E in H. }
        intros ->. done.
      * apply starts_with_spec in Hminus as [y ->]. done.
    + change (value_rest (TSym "-")) with (λ _ : nat, t ← next; match t with TIdent s | TNum s => mret (WRaw ("-" +:+ s)) | _ => bad end). destruct Hx as [[Hx _]|[Hx _]].
      * eapply run_bind_eq; [by apply run_next_ident|]. by apply run_ret.
      * eapply run_bind_eq; [by apply run_next_num|]. by apply run_ret.
Qed.

Lemma entry_ends n st ts : length ts < n → ends 1 (aggregate_entry (value n) st) ts.
Proof. intros Hn. unfold aggregate_entry. ends_tac. Qed.
Lemma item_ends n st ts : length ts < n → ends 1 (list_item (value n) st) ts.
Proof. intros Hn. unfold list_item. ends_tac. Qed.

Lemma run_key k r : key_ok k → run (λ _, entry_key) (k +:+ String ":" r) (λ x, x = k) (String ":" r).
Proof.
  intros [Hk|(x & Hx & ->)]; unfold entry_key.
  - eapply run_bind_eq; [apply run_is_sym; [done|by apply lead_word_sym]|]. by apply run_ident.
  - rewrite !str_app_assoc. cbn [String.append]. eapply run_bind_eq; [by apply run_is_sym|]. cbn beta iota. eapply run_bind_eq; [by apply run_skip|]. eapply run_bind_eq; [by apply run_ident|].
    eapply run_bind_eq; [by apply run_sym|]. by apply run_ret.
Qed.
Lemma key_lead k r : key_ok k → bool_decide (lead (k +:+ r) = Some "}"%char) = false.
Proof. intros [Hk|(x & Hx & ->)]; [by apply lead_word_sym|done]. Qed.

Lemma run_separator_more r : run (λ _, eat_separator) (String "," r) (λ x, x = ()) r.
Proof. unfold eat_separator. eapply run_bind_eq; [by apply run_is_sym|]. eapply run_bind_eq; [by apply run_is_sym|]. by apply run_skip. Qed.
Lemma run_separator_last r : run (λ _, eat_separator) (LF +:+ String "}" r) (λ x, x = ()) (String "}" r).
Proof. apply run_blank; [done|]. unfold eat_separator. eapply run_bind_eq; [by apply run_is_sym|]. eapply run_bind_eq; [by apply run_is_sym|]. by apply run_ret. Qed.

Definition reads_value (v : WValue) : Prop := ∀ r, stops r = true → run value (value_str v +:+ r) (λ x, x = v) r.
Definition add_pair (es : list (string * WValue)) (e : string * WValue) : list (string * WValue) := add_entry e.1 e.2 es.
Lemma add_entry_new k v es : k ∉ es.*1 → add_entry k v es = es ++ [(k, v)].
Proof. induction es as [|[k' v'] es IH]; cbn; [done|]. intros Hk. rewrite not_elem_of_cons in Hk. destruct Hk as [Hk1 Hk2]. rewrite decide_False by done. by rewrite IH. Qed.
Lemma foldl_add_pair es : ∀ acc, NoDup (acc ++ es).*1 → foldl add_pair acc es = acc ++ es.
Proof.
  induction es as [|[k v] es IH]; intros acc H; cbn; [by rewrite app_nil_r|]. unfold add_pair at 2. cbn [fst snd]. rewrite add_entry_new.
  - rewrite IH; [by rewrite <-app_assoc|by rewrite <-app_assoc].
  - rewrite fmap_app in H. apply NoDup_app in H as (_ & H & _). intros Hk. apply (H k Hk). left.
Qed.
Lemma foldl_snoc {X} (xs : list X) : ∀ acc, foldl (λ acc x, acc ++ [x]) acc xs = acc ++ xs.
Proof. induction xs as [|x xs IH]; intros acc; cbn; [by rewrite app_nil_r|]. by rewrite IH, <-app_assoc. Qed.

Lemma run_entry e st s s' : key_ok e.1 → reads_value e.2 → stops s = true → run (λ _, eat_separator) s (λ x, x = ()) s' →
  run (λ n, aggregate_entry (value n) st) (entry_line e +:+ s) (λ st', st' = add_pair st e) s'.
Proof.
  intros Hk Hv Hs Hsep. unfold aggregate_entry, entry_line. rewrite !str_app_assoc. cbn [String.append]. eapply run_bind_eq; [by apply run_key|]. eapply run_bind_eq; [by apply run_eat|]. apply run_blank; [done|].
  eapply run_bind_eq; [by apply Hv|]. eapply run_bind_eq; [exact Hsep|]. by apply run_ret.
Qed.
Lemma run_item v st s s' : reads_value v → stops s = true → run (λ _, eat ",") s (λ x, x = ()) s' → run (λ n, list_item (value n) st) (value_str v +:+ s) (λ st', st' = st ++ [v]) s'.
Proof. intros Hv Hs Hsep. unfold list_item. eapply run_bind_eq; [by apply Hv|]. eapply run_bind_eq; [exact Hsep|]. by apply run_ret. Qed.

Lemma value_lead v r : value_ok v → bool_decide (lead (value_str v +:+ r) = Some "]"%char) = false.
Proof.
  destruct v as [s|s|es|vs]; [done| |by rewrite value_str_map|by rewrite value_str_list]. intros [Hs|[Hs|(x & -> & _)]]; [by apply lead_word_sym| |done].
  cbn [value_str]. destruct (num_head s Hs) as (c & y & -> & Hc). cbn. rewrite (head_not_blank (TNum (String c y)) c); [|done|cbn; apply orb_true_iff; by rewrite bool_decide_eq_true].
  apply bool_decide_eq_false. intros [= ->]. by destruct Hc.
Qed.

Lemma value_reads v : value_ok v → reads_value v.
Proof.
  induction v as [s|s|es IH|vs IH] using wvalue_induction; intros Hok r Hr.
  - cbn [value_str]. eapply run_value; [by apply run_next_str|]. by apply run_ret.
  - cbn [value_str]. by apply run_raw.
  - rewrite value_str_map, !str_app_assoc. apply value_ok_map in Hok as [Hnd Hok]. cbn [String.append]. eapply run_value; [by apply run_next_sym|].
    change (value_rest (TSym "{")) with (λ n, entries ← until "}" n (aggregate_entry (value n)) []; mret (WMap entries)). apply run_blank; [done|].
    eapply run_bind_eq; [|by apply run_ret]. eapply run_mono; [apply (run_until_lines (λ n, aggregate_entry (value n)) entry_ends "}" eq_refl entry_line add_pair)|].
    2:{ intros a ->. by rewrite foldl_add_pair. }
    clear Hnd. induction Hok as [|e es [Hk Hv] _ IHok]; [constructor|]. apply Forall_cons in IH as [IHe IH]. constructor; [|by apply IHok]. split; [intros r'; unfold entry_line; rewrite str_app_assoc; by apply key_lead|].
    intros st. split; intros r'; apply run_entry; auto using run_separator_more, run_separator_last.
  - rewrite value_str_list, !str_app_assoc. apply value_ok_list in Hok. cbn [String.append]. eapply run_value; [by apply run_next_sym|].
    change (value_rest (TSym "[")) with (λ n, items ← until "]" n (list_item (value n)) []; mret (WList items)). apply run_blank; [done|].
    eapply run_bind_eq; [|by apply run_ret]. eapply run_mono; [apply (run_until_lines (λ n, list_item (value n)) item_ends "]" eq_refl value_str (λ acc v, acc ++ [v]))|].
    2:{ intros a ->. by rewrite foldl_snoc. }
    induction Hok as [|v vs Hv _ IHok]; [constructor|]. apply Forall_cons in IH as [IHv IH]. constructor; [|by apply IHok]. split; [intros r'; by apply value_lead|].
    intros st. split; intros r'; apply run_item; auto; [by apply run_eat|]. apply run_blank; [done|]. by apply run_eat_no.
Qed.

(** * Options *)

Definition word_byte (c : ascii) : bool := is_ascii_alphanumeric c || bool_decide (c = "_"%char) || bool_decide (c = "."%char).
Definition word_byte_ascii (c : ascii) : bool := negb (word_byte c) || Nat.ltb (cval c) 128.
Definition letter_plain (c : ascii) : bool := negb (is_letter c) || Nat.ltb (cval c) 128 && negb (is_whitespace (str1 c)).
Lemma word_bytes s : str_forall word_byte s = true → ∃ cs, s = cat cs ∧ Forall one_char cs ∧ Forall (λ x, ident_char x = true) cs.
Proof.
  induction s as [|c s IH]; [by exists []|]. cbn [str_forall]. intros [Hc Hs]%andb_true_iff. destruct (IH Hs) as (cs & -> & H1 & H2). exists (str1 c :: cs). split; [done|].
  assert (word_byte_ascii c = true) as Hall by (apply ascii_all; vm_compute; reflexivity). unfold word_byte_ascii in Hall.
  rewrite Hc in Hall. cbn [negb orb] in Hall. apply Nat.ltb_lt in Hall. split; (constructor; [|done]); [by apply ascii_char|].
  unfold word_byte in Hc. rewrite !orb_true_iff, !bool_decide_eq_true in Hc. unfold ident_char. cbn [is_alphanumeric str1]. destruct Hc as [[E| ->]| ->]; [|by vm_compute..].
  by rewrite E.
Qed.
(** A keyword. *)
Definition keyword (s : string) : bool := match s with String c r => is_letter c && str_forall word_byte r | "" => false end.
Lemma keyword_ok s : keyword s = true → name_ok s.
Proof.
  destruct s as [|c s]; [done|]. cbn [keyword]. intros [Hc (cs & -> & H1 & H2)%word_bytes]%andb_true_iff. exists (str1 c), cs.
  assert (letter_plain c = true) as Hall by (apply ascii_all; vm_compute; reflexivity). unfold letter_plain in Hall. rewrite Hc in Hall. cbn [negb orb] in Hall.
  apply andb_true_iff in Hall as [Ha%Nat.ltb_lt Hw%negb_true_iff]. split_and!; [done|constructor; [by apply ascii_char|done]|done| |done].
  unfold starts_ident, name_start. cbn [is_alphabetic str1]. by rewrite Hc.
Qed.
Lemma run_keyword kw r : keyword kw = true → delim r = true → run (λ _, ident) (kw +:+ r) (λ y, y = kw) r.
Proof. intros H%keyword_ok. by apply run_ident. Qed.

Definition opt_name_ok (s : string) : Prop :=
  name_ok s ∨ ∃ x t, s = "(" +:+ x +:+ ")" +:+ t ∧ name_ok x ∧ (t = "" ∨ name_ok t ∧ starts_with "." t = true).
Definition opt_ok (o : Opt) : Prop := opt_name_ok (o_name o) ∧ value_ok (o_value o).

Lemma stops_tokens r ts : stops r = true → spelled r ts → at_dotted ts = None ∧ ∀ x, at_ident x ts = false.
Proof.
  intros [_ Hr]%andb_true_iff H%spelled_lead. destruct ts as [|t ts]; [done|]. destruct H as (c & E & Ht & Hc). rewrite E in Hr. by rewrite (symbol_head c t).
Qed.
Lemma run_no_tail name r : stops r = true → run (λ _, dotted_tail name) r (λ x, x = name) r.
Proof. intros Hr. exists name. split; [done|]. intros rts H. exists rts. split_and!; [done..|]. intros n _. unfold dotted_tail. by rewrite (proj1 (stops_tokens r rts Hr H)). Qed.
Lemma run_tail name t r : name_ok t → starts_with "." t = true → delim r = true → run (λ _, dotted_tail name) (t +:+ r) (λ x, x = name +:+ t) r.
Proof.
  intros Ht Hd Hr. exists (name +:+ t). split; [done|]. intros rts H. exists (TIdent t :: rts). split_and!; [|cbn; lia|].
  - apply (sp_tok (TIdent t)); [done| |done]. by apply delim_word.
  - intros n _. unfold dotted_tail, at_dotted. by rewrite Hd.
Qed.
Lemma run_option_name s r : opt_name_ok s → stops r = true → run (λ _, option_name) (s +:+ r) (λ x, x = s) r.
Proof.
  intros Hs Hr. pose proof (stops_delim r Hr) as Hd. unfold option_name. destruct Hs as [Hs|(x & t & -> & Hx & Ht)].
  - eapply run_bind_eq; [apply run_is_sym; [done|by apply lead_word_sym]|]. cbn beta iota. eapply run_bind_eq; [by apply run_ident|]. by apply run_no_tail.
  - rewrite !str_app_assoc. cbn [String.append]. eapply run_bind_eq; [by apply (run_is_sym _ true)|]. cbn beta iota. eapply run_bind_eq.
    + eapply run_bind_eq; [by apply run_skip|]. eapply run_bind_eq; [by apply run_ident|]. eapply run_bind_eq; [by apply run_sym|]. by apply run_ret.
    + destruct Ht as [->|[Ht Hdot]]; [by apply run_no_tail|]. eapply run_mono; [by apply run_tail|]. intros ? ->. cbn. by rewrite !str_app_assoc.
Qed.

Definition reads_opt (o : Opt) : Prop := ∀ r, stops r = true → run named_value (opt_str o +:+ r) (λ x, x = o) r.
Lemma opt_reads o : opt_ok o → reads_opt o.
Proof.
  intros [Hn Hv%value_reads] r Hr. unfold opt_str. rewrite !str_app_assoc. cbn [String.append]. unfold named_value. eapply run_bind_eq; [by apply run_option_name|]. apply run_blank; [done|].
  eapply run_bind_eq; [by apply run_sym|]. apply run_blank; [done|]. eapply run_bind_eq; [by apply Hv|]. destruct o. by apply run_ret.
Qed.
(** After the keyword. *)
Lemma run_option_decl o r : opt_ok o → run option_decl (opt_str o +:+ ";" +:+ r) (λ x, x = o) r.
Proof. intros Ho%opt_reads. unfold option_decl. eapply run_bind_eq; [by apply Ho|]. cbn [String.append]. eapply run_bind_eq; [by apply run_sym|]. by apply run_ret. Qed.

(** ** Lists between commas *)

Section comma_lines.
Context {X : Type} (item : nat → list X → P (list X)) (Hends : ∀ n st ts, length ts < n → ends 1 (item n st) ts) (text : X → string).
Lemma run_commas_lines xs : xs ≠ [] → ∀ st r, Forall (λ x, ∀ st r, stops r = true → run (λ n, item n st) (text x +:+ r) (λ st', st' = st ++ [x]) r) xs →
  stops r = true → bool_decide (lead r = Some ","%char) = false →
  run (λ n, commas n (item n) st) (with_commas (λ x e, indented (text x +:+ e)) xs +:+ r) (λ st', st' = st ++ xs) r.
Proof.
  induction xs as [|x xs IH]; intros Hne st r Hxs Hr Hl; [done|]. apply Forall_cons in Hxs as [Hx Hxs]. destruct xs as [|y xs].
  - cbn [with_commas]. apply run_indented. rewrite str_app_nil_r. apply run_commas_last; [|done]. apply (run_drop _ NEWLINE); [done|]. apply Hx. by apply stops_blank.
  - change (with_commas (λ x e, indented (text x +:+ e)) (x :: y :: xs)) with (indented (text x +:+ ",") +:+ with_commas (λ x e, indented (text x +:+ e)) (y :: xs)). rewrite str_app_assoc. apply run_indented.
    rewrite str_app_assoc. eapply (run_commas_more _ Hends); [by apply Hx|]. intros st' ->. apply run_blank; [done|]. eapply run_mono; [by apply IH|]. intros ? ->. by rewrite <-app_assoc.
Qed.
End comma_lines.

Definition more_opt (n : nat) (opts : list Opt) : P (list Opt) := o ← named_value n; mret (opts ++ [o]).
Lemma more_opt_ends n st ts : length ts < n → ends 1 (more_opt n st) ts.
Proof. intros Hn. unfold more_opt. ends_tac. Qed.
Lemma run_more_opt o st r : opt_ok o → stops r = true → run (λ n, more_opt n st) (opt_str o +:+ r) (λ st', st' = st ++ [o]) r.
Proof. intros Ho%opt_reads Hr. unfold more_opt. eapply run_bind_eq; [by apply Ho|]. by apply run_ret. Qed.
Lemma run_bracket_options opts r : opts ≠ [] → Forall opt_ok opts → run (λ n, commas n (more_opt n) []) (str_drop 1 (options_str opts) +:+ r) (λ x, x = opts) (String "]" r).
Proof.
  intros Hne Hopts. destruct opts as [|o [|o' opts]]; [done| |].
  - apply Forall_cons in Hopts as [Ho _]. cbn [options_str String.append str_drop]. rewrite str_app_assoc. apply run_commas_last; [|done]. by apply (run_more_opt o []).
  - change (str_drop 1 (options_str (o :: o' :: opts))) with (LF +:+ with_commas (λ o endl, indented (opt_str o +:+ endl)) (o :: o' :: opts) +:+ "]"). rewrite !str_app_assoc. apply run_blank; [done|].
    apply (run_commas_lines more_opt more_opt_ends opt_str (o :: o' :: opts)); [done| |done..]. eapply Forall_impl; [exact Hopts|]. intros x Hx st r'. by apply run_more_opt.
Qed.
Lemma run_field_options opts r : Forall opt_ok opts → run field_options (spaced_options opts +:+ String ";" r) (λ x, x = opts) (String ";" r).
Proof.
  intros Hopts. unfold field_options. destruct (decide (opts = [])) as [->|Hne].
  - cbn [spaced_options String.append]. eapply run_bind_eq; [by apply (run_is_sym _ false)|]. by apply run_ret.
  - assert (spaced_options opts = String " " (String "[" (str_drop 1 (options_str opts)))) as -> by (by destruct opts as [|o [|]]).
    cbn [String.append]. apply run_blank; [done|]. eapply run_bind_eq; [by apply (run_is_sym _ true)|]. cbn beta iota. eapply run_bind_eq; [by apply run_skip|].
    eapply run_bind_eq; [by apply run_bracket_options|]. eapply run_bind_eq; [by apply run_sym|]. by apply run_ret.
Qed.

(** * Fields *)

(** The word a type begins with, and what follows it. *)
Definition type_split (ty w rest : string) : Prop :=
  name_ok ty ∧ ty ≠ "group" ∧ w = ty ∧ rest = "" ∨
  ∃ k v, name_ok k ∧ name_ok v ∧ w = "map" ∧ rest = "<" +:+ k +:+ ", " +:+ v +:+ ">" ∧ ty = "map<" +:+ k +:+ ", " +:+ v +:+ ">".
Lemma type_split_text ty w rest : type_split ty w rest → ty = w +:+ rest ∧ name_ok w ∧ ty ≠ "group".
Proof.
  intros [(H1 & H2 & -> & ->)|(k & v & H1 & H2 & -> & -> & ->)]; [by rewrite str_app_nil_r|]. split_and!; [done| |done]. by apply keyword_ok.
Qed.
Lemma run_map_type ty w rest name r : type_split ty w rest → name_ok name → run (λ _, map_type w) (rest +:+ String " " (name +:+ r)) (λ x, x = ty) (String " " (name +:+ r)).
Proof.
  intros Hty Hname. unfold map_type. destruct Hty as [(H1 & H2 & -> & ->)|(k & v & H1 & H2 & -> & -> & ->)].
  - cbn [String.append]. eapply run_bind_eq; [apply (run_is_sym _ false); [done|]; by apply lead_word_sym|]. rewrite andb_false_r. by apply run_ret.
  - rewrite !str_app_assoc. cbn [String.append]. eapply run_bind_eq; [by apply (run_is_sym _ true)|]. rewrite bool_decide_eq_true_2 by done. cbn [andb]. eapply run_bind_eq; [by apply run_skip|].
    eapply run_bind_eq; [by apply run_ident|]. eapply run_bind_eq; [by apply run_sym|]. apply run_blank; [done|]. eapply run_bind_eq; [by apply run_ident|]. eapply run_bind_eq; [by apply run_sym|]. by apply run_ret.
Qed.

(** A field, the word its text begins with, and what follows it. *)
Definition field_split (sorted in_oneof : bool) (f : Field) (first rest : string) : Prop :=
  f_sorted f = sorted ∧ name_ok (f_name f) ∧ num_ok (f_tag f) ∧ Forall opt_ok (f_options f) ∧
  match f_label f with
  | None => type_split (f_ty f) first rest ∧ (in_oneof = false → is_label first = false)
  | Some l => in_oneof = false ∧ is_label l = true ∧ first = l ∧ ∃ w wrest, type_split (f_ty f) w wrest ∧ rest = String " " (w +:+ wrest)
  end.
Definition field_tail (f : Field) : string := " " +:+ f_name f +:+ " = " +:+ f_tag f +:+ spaced_options (printed_options f) +:+ ";" +:+ LF.
Lemma label_ok l : is_label l = true → name_ok l.
Proof. intros H%bool_decide_eq_true. apply keyword_ok. repeat (apply elem_of_cons in H as [->|H]; [done|]). by apply elem_of_nil in H. Qed.
Lemma field_split_text sorted in_oneof f first rest : field_split sorted in_oneof f first rest → field_str f = first +:+ rest +:+ field_tail f ∧ name_ok first.
Proof.
  intros (_ & _ & _ & _ & H). unfold field_str, field_tail. destruct (f_label f) as [l|].
  - destruct H as (_ & Hl & -> & w & wrest & (E & _ & _)%type_split_text & ->). split; [|by apply label_ok]. rewrite E. cbn [String.append]. rewrite !str_app_assoc. cbn [String.append]. by rewrite ?str_app_assoc.
  - destruct H as [(E & Hw & _)%type_split_text _]. split; [|done]. rewrite E. cbn [String.append]. by rewrite !str_app_assoc.
Qed.

(** ** [default] and [json_name] last, once and for all *)
Definition arr_field (f : Field) : Field := mkField false (f_label f) (f_ty f) (f_name f) (f_tag f) (printed_options f).
Lemma filter_all {A} (R : A → Prop) `{∀ x, Decision (R x)} l : Forall R l → filter R l = l.
Proof. induction 1 as [|x l Hx _ IH]; [done|]. rewrite filter_cons_True by done. by rewrite IH. Qed.
Lemma filter_none {A} (R : A → Prop) `{∀ x, Decision (R x)} l : Forall (λ x, ¬ R x) l → filter R l = [].
Proof. induction 1 as [|x l Hx _ IH]; [done|]. by rewrite filter_cons_False. Qed.
Lemma Forall_filter_self {A} (R : A → Prop) `{∀ x, Decision (R x)} l : Forall R (filter R l).
Proof. apply Forall_forall. intros x. by rewrite list_elem_of_filter; intros []. Qed.
Lemma arranged_idem opts : arranged_options (arranged_options opts) = arranged_options opts.
Proof.
  unfold arranged_options. rewrite !filter_app. set (P1 := λ o, o_name o ≠ "default" ∧ o_name o ≠ "json_name"). set (P2 := λ o, o_name o = "default"). set (P3 := λ o, o_name o = "json_name").
  assert (∀ (R R' : Opt → Prop) `{!∀ x, Decision (R x)} `{!∀ x, Decision (R' x)}, (∀ o, R o → ¬ R' o) → filter R' (filter R opts) = []) as Hnone.
  { intros R R' ? ? H. apply filter_none. eapply Forall_impl; [apply Forall_filter_self|]. done. }
  rewrite (filter_all P1 (filter P1 opts)), (filter_all P2 (filter P2 opts)), (filter_all P3 (filter P3 opts)) by apply Forall_filter_self.
  rewrite (Hnone P1 P2), (Hnone P1 P3), (Hnone P2 P1), (Hnone P2 P3), (Hnone P3 P1), (Hnone P3 P2) by (unfold P1, P2, P3; intros o; naive_solver congruence). by rewrite !app_nil_r.
Qed.
Lemma arr_field_str f : f_sorted f = false → field_str (arr_field f) = field_str f.
Proof. intros Hf. assert (printed_options (arr_field f) = printed_options f) as E by (unfold arr_field, printed_options; rewrite Hf; apply arranged_idem). unfold field_str. by rewrite E. Qed.
Lemma printed_options_ok f : Forall opt_ok (f_options f) → Forall opt_ok (printed_options f).
Proof.
  intros H. unfold printed_options. destruct (f_sorted f); [done|]. unfold arranged_options. rewrite !Forall_app. rewrite Forall_forall in H. split_and!; apply Forall_forall; intros x Hx%list_elem_of_filter; apply H, Hx.
Qed.

(** After its first word. *)
Lemma run_field sorted in_oneof f first rest r : field_split sorted in_oneof f first rest → run (λ n, field n first in_oneof) (rest +:+ field_tail f +:+ r) (λ x, x = arr_field f) r.
Proof.
  intros (_ & Hname & Htag & Hopts%printed_options_ok & H). unfold field, field_tail. rewrite !str_app_assoc. cbn [String.append].
  assert (∀ w wrest label, type_split (f_ty f) w wrest → label = f_label f →
    run (λ n, ty ← map_type w; if decide (ty = "group") then bad else name ← ident; _ ← sym "="; tag ← num; opts ← field_options n; _ ← sym ";"; mret (mkField false label ty name tag opts))
      (wrest +:+ String " " (f_name f +:+ String " " (String "=" (String " " (f_tag f +:+ spaced_options (printed_options f) +:+ String ";" (LF +:+ r)))))) (λ x, x = arr_field f) r) as Htail.
  { intros w wrest label Hty ->. eapply run_bind_eq; [by apply (run_map_type (f_ty f))|]. cbn beta. destruct (type_split_text _ _ _ Hty) as (_ & _ & Hg).
    eapply (run_ext (λ n, name ← ident; _ ← sym "="; tag ← num; opts ← field_options n; _ ← sym ";"; mret (mkField false (f_label f) (f_ty f) name tag opts))); [intros n; by rewrite decide_False|].
    apply run_blank; [done|]. eapply run_bind_eq; [by apply run_ident|]. apply run_blank; [done|]. eapply run_bind_eq; [by apply run_sym|]. apply run_blank; [done|].
    eapply run_bind_eq; [apply run_num; [done|by destruct (printed_options f)]|]. eapply run_bind_eq; [by apply run_field_options|]. eapply run_bind_eq; [by apply run_sym|].
    apply (run_drop _ NEWLINE); [done|]. by apply run_ret. }
  destruct (f_label f) as [l|] eqn:El.
  - destruct H as (-> & Hl & -> & w & wrest & Hty & ->). rewrite Hl. cbn [negb andb]. destruct (type_split_text _ _ _ Hty) as (_ & Hw & _).
    eapply (run_bind_eq _ _ _ (Some l, w)); [|by apply (Htail w wrest (Some l))]. cbn [String.append]. apply run_blank; [done|]. rewrite str_app_assoc.
    eapply run_bind_eq; [apply run_ident; [done|]|by apply run_ret]. destruct Hty as [(_ & _ & _ & ->)|(k & v & _ & _ & _ & -> & _)]; done.
  - destruct H as [Hty Hfirst]. eapply (run_bind_eq _ _ _ (None, first)); [|by apply (Htail first rest None)]. assert (negb in_oneof && is_label first = false) as ->; [|by apply run_ret].
    destruct in_oneof; [done|]. by rewrite Hfirst.
Qed.

(** * Ranges *)

Definition part_ok (p : string) : Prop :=
  (∃ x, str_ok x ∧ p = quoted x) ∨ name_ok p ∨ num_ok p ∨ ∃ a b, num_ok a ∧ (num_ok b ∨ name_ok b) ∧ p = a +:+ " to " +:+ b.
Definition ranges_ok (kw s : string) : Prop := ∃ parts, parts ≠ [] ∧ Forall part_ok parts ∧ s = kw +:+ " " +:+ join ", " parts +:+ ";".
Lemma run_is_ident_no x s : stops s = true → run (λ _, is_ident x) s (λ b, b = false) s.
Proof. intros Hs. exists false. split; [done|]. intros rts H. exists rts. split_and!; [done..|]. intros n _. unfold is_ident. by rewrite (proj2 (stops_tokens s rts Hs H)). Qed.
End reading.
