(* ===== verification/ProtoElements.v ===== *)
(** Reading back the elements of a [.proto] file that the printer writes:
    ranges, oneofs, enums, extensions, messages, services. *)
From S2P Require Import Prelude SortedVec RustStr ProtoLex ProtoWire ProtoLogic ProtoSpell ProtoRead.

Open Scope string_scope.
Open Scope nat_scope.
Open Scope list_scope.

Section elements.
Context {tables : UnicodeTables}.
(** Whether the fields come with their options in their final order. *)
Context (so : bool).

(** * Sections of an element *)

Definition starts_word (s : string) : Prop := ∃ w t, name_ok w ∧ s = w +:+ t.
Lemma starts_word_app s t : starts_word s → starts_word (s +:+ t).
Proof. intros (w & u & Hw & ->). exists w, (u +:+ t). by rewrite str_app_assoc. Qed.
Lemma starts_word_lead s c : starts_word s → plain_symbol c = true → bool_decide (lead s = Some c) = false.
Proof. intros (w & u & Hw & ->). by apply lead_word_sym. Qed.

Section items.
Context {T X : Type} (step : nat → T → P T) (Hends : ∀ n st ts, length ts < n → ends 1 (step n st) ts).
Context (text : X → string) (Inv : list X → T → Prop).
(** Each item is read, whatever comes after it; a semicolon may be left. *)
Definition item_reads (x : X) : Prop :=
  starts_word (text x) ∧ ∀ don st s, Inv don st → run (λ n, step n st) (text x +:+ s) (Inv (don ++ [x])) s ∨ run (λ n, step n st) (text x +:+ s) (Inv (don ++ [x])) (";" +:+ LF +:+ s).

Lemma run_items xs : Forall item_reads xs → ∀ don st rest Q r, Inv don st → (∀ st', Inv (don ++ xs) st' → run (λ n, braces n (step n) st') rest Q r) →
  run (λ n, braces n (step n) st) (cat ((λ x, indented (text x)) <$> xs) +:+ rest) Q r.
Proof.
  induction 1 as [|x xs [Hw Hx] _ IH]; intros don st rest Q r Hst Hrest; [cbn; apply Hrest; by rewrite app_nil_r|]. cbn [fmap list_fmap cat]. rewrite str_app_assoc. apply run_indented.
  assert (∀ st', Inv (don ++ [x]) st' → run (λ n, braces n (step n) st') (LF +:+ cat ((λ x, indented (text x)) <$> xs) +:+ rest) Q r) as Hnext.
  { intros st' Hst'. apply run_blank; [done|]. apply (IH (don ++ [x])); [done|]. by rewrite <-app_assoc. }
  destruct (Hx don st (LF +:+ cat ((λ x, indented (text x)) <$> xs) +:+ rest) Hst) as [Hrun|Hrun].
  - eapply (run_braces_step step Hends); [by apply starts_word_lead; [apply starts_word_app|]..|exact Hrun|exact Hnext].
  - eapply (run_braces_step step Hends); [by apply starts_word_lead; [apply starts_word_app|]..|exact Hrun|]. intros st' Hst'. apply run_braces_semi. apply run_blank; [done|]. by apply Hnext.
Qed.
Lemma run_section xs st rest Q r : Forall item_reads xs → Inv [] st → (∀ st', Inv xs st' → run (λ n, braces n (step n) st') rest Q r) →
  run (λ n, braces n (step n) st) (section_str text xs +:+ rest) Q r.
Proof.
  intros Hxs Hst Hrest. destruct xs as [|x xs]; [by apply Hrest|]. unfold section_str. rewrite str_app_assoc. apply run_blank; [done|]. by apply (run_items (x :: xs) Hxs []).
Qed.
End items.

Lemma run_finish {A} p s (Q : A → Prop) r : run p s Q (LF +:+ r) → run p s Q r.
Proof. by apply run_drop. Qed.

(** * Ranges *)

Lemma run_range_item p st r : part_ok p → stops r = true → run (λ _, range_item st) (p +:+ r) (λ st', st' = st ++ [p]) r.
Proof.
  intros Hp Hr. pose proof (stops_delim r Hr) as Hd. unfold range_item. destruct Hp as [(x & Hx & ->)|[Hp|[Hp|(a & b & Ha & Hb & ->)]]].
  - eapply run_bind_eq; [by apply run_next_str|]. by apply run_ret.
  - eapply run_bind_eq; [by apply run_next_ident|]. by apply run_ret.
  - eapply run_bind_eq; [by apply run_next_num|]. eapply run_bind_eq; [by apply run_is_ident_no|]. by apply run_ret.
  - rewrite !str_app_assoc. cbn [String.append]. eapply run_bind_eq; [by apply run_next_num|]. apply run_blank; [done|]. change (String "t" (String "o" (String " " (b +:+ r)))) with ("to" +:+ String " " (b +:+ r)).
    eapply run_bind_eq; [apply (run_is_ident _ _ true); [by apply keyword_ok|done..]|]. cbn beta iota. eapply run_bind_eq; [apply run_skip_word; [by apply keyword_ok|done]|]. apply run_blank; [done|].
    destruct Hb as [Hb|Hb]; (eapply run_bind_eq; [first [by apply run_next_num|by apply run_next_ident]|]); by apply run_ret.
Qed.
Lemma run_parts parts : parts ≠ [] → ∀ st r, Forall part_ok parts → stops r = true → bool_decide (lead r = Some ","%char) = false →
  run (λ n, commas n range_item st) (join ", " parts +:+ r) (λ st', st' = st ++ parts) r.
Proof.
  induction parts as [|p parts IH]; intros Hne st r Hps Hr Hl; [done|]. apply Forall_cons in Hps as [Hp Hps]. destruct parts as [|q parts].
  - apply (run_commas_last (λ _, range_item)); [|done]. by apply run_range_item.
  - change (join ", " (p :: q :: parts)) with (p +:+ ", " +:+ join ", " (q :: parts)). rewrite !str_app_assoc. cbn [String.append].
    eapply (run_commas_more (λ _, range_item)); [intros; apply range_item_ends|by apply run_range_item|]. intros st' ->. apply run_blank; [done|]. eapply run_mono; [by apply IH|]. intros ? ->. by rewrite <-app_assoc.
Qed.
Lemma run_ranges kw parts r : parts ≠ [] → Forall part_ok parts →
  run (λ n, ranges n kw) (join ", " parts +:+ ";" +:+ r) (λ s, s = kw +:+ " " +:+ join ", " parts +:+ ";") r.
Proof.
  intros Hne Hps. unfold ranges. eapply run_bind_eq; [by apply run_parts|]. cbn [String.append]. eapply run_bind_eq; [by apply (run_is_sym _ false)|]. cbn beta iota.
  eapply run_bind_eq; [by apply (run_ret ())|]. eapply run_bind_eq; [by apply run_sym|]. by apply run_ret.
Qed.
(** A keyword and what follows it. *)
Lemma run_kw kw s r : keyword kw = true → s = kw +:+ r → delim r = true → run (λ _, ident) s (λ y, y = kw) r.
Proof. intros Hkw ->. by apply run_keyword. Qed.
(** A whole statement, in an element whose step reads a keyword first. *)
Lemma run_ranges_decl {T} (rest : string → nat → P T) kw (add : string → T) s r :
  keyword kw = true → ranges_ok kw s → (∀ n, rest kw n = (x ← ranges n kw; mret (add x))) → run (λ n, kw ← ident; rest kw n) ((s +:+ LF) +:+ r) (λ st', st' = add s) r.
Proof.
  intros Hkw (parts & Hne & Hps & ->) E. rewrite !str_app_assoc. eapply run_bind_eq; [by apply run_keyword|]. cbn [String.append]. apply run_blank; [done|]. eapply run_ext; [exact E|].
  eapply run_bind_eq; [by apply run_ranges|]. apply run_finish. by apply run_ret.
Qed.
Lemma run_opt_decl {T} (rest : string → nat → P T) (add : Opt → T) o r :
  opt_ok o → (∀ n, rest "option" n = (x ← option_decl n; mret (add x))) → run (λ n, kw ← ident; rest kw n) (opt_decl o +:+ r) (λ st', st' = add o) r.
Proof.
  intros Ho E. unfold opt_decl. rewrite !str_app_assoc. eapply run_bind_eq; [eapply (run_kw "option"); [done|reflexivity|done]|]. apply run_blank; [done|]. eapply run_ext; [exact E|].
  eapply run_bind_eq; [by apply run_option_decl|]. apply run_finish. by apply run_ret.
Qed.
Lemma run_field_decl {T} (rest : string → nat → P T) (add : Field → T) in_oneof f first frest r :
  field_split so in_oneof f first frest → (∀ n, rest first n = (x ← field n first in_oneof; mret (add x))) → run (λ n, kw ← ident; rest kw n) (field_str f +:+ r) (λ st', st' = add (arr_field f)) r.
Proof.
  intros Hf E. destruct (field_split_text _ _ _ _ _ Hf) as [-> Hfirst]. rewrite !str_app_assoc. eapply run_bind_eq; [apply run_ident; [done|]|].
  - destruct Hf as (_ & _ & _ & _ & Hf). destruct (f_label f) as [l|]; [by destruct Hf as (_ & _ & _ & w & wrest & _ & ->)|]. destruct Hf as [[(_ & _ & _ & ->)|(k & v & _ & _ & _ & -> & _)] _]; done.
  - eapply run_ext; [exact E|]. eapply run_bind_eq; [by eapply run_field|]. by apply run_ret.
Qed.
Lemma opt_decl_word o : starts_word (opt_decl o).
Proof. exists "option". eexists. split; [by apply keyword_ok|]. reflexivity. Qed.
Lemma field_word in_oneof f first rest : field_split so in_oneof f first rest → starts_word (field_str f).
Proof. intros [-> H]%field_split_text. by exists first, (rest +:+ field_tail f). Qed.
Lemma ranges_word kw s : keyword kw = true → ranges_ok kw s → starts_word (s +:+ LF).
Proof. intros Hkw (parts & _ & _ & ->). apply starts_word_app. exists kw. eexists. split; [by apply keyword_ok|reflexivity]. Qed.

(** * Oneofs and extensions *)

Definition arr_oneof (o : OneOf) : OneOf := mkOneOf (oo_name o) (oo_options o) (arr_field <$> oo_fields o).
Definition oneof_field_ok (f : Field) : Prop := ∃ first rest, field_split so true f first rest ∧ first ≠ "option".
Definition oneof_ok (o : OneOf) : Prop := name_ok (oo_name o) ∧ Forall opt_ok (oo_options o) ∧ Forall oneof_field_ok (oo_fields o).
Lemma oneof_step_ends n st ts : length ts < n → ends 1 (oneof_step n st) ts.
Proof. intros Hn. unfold oneof_step. ends_tac. Qed.
Definition oneof_rest (n : nat) (o : OneOf) (kw : string) : P OneOf :=
  if decide (kw = "option") then x ← option_decl n; mret (mkOneOf (oo_name o) (oo_options o ++ [x]) (oo_fields o))
  else f ← field n kw true; mret (mkOneOf (oo_name o) (oo_options o) (oo_fields o ++ [f])).

Definition oneof_tail (o : OneOf) : string := oo_name o +:+ " {" +:+ section_str opt_decl (oo_options o) +:+ section_str field_str (oo_fields o) +:+ "}" +:+ LF.
Lemma run_oneof o r : oneof_ok o → run oneof (oneof_tail o +:+ r) (λ x, x = arr_oneof o) r.
Proof.
  intros (Hname & Hopts & Hfields). unfold oneof, oneof_tail. rewrite !str_app_assoc. eapply run_bind_eq; [by apply run_ident|]. cbn [String.append]. apply run_blank; [done|]. eapply run_bind_eq; [by apply run_sym|].
  apply (run_section oneof_step oneof_step_ends opt_decl (λ don st, st = mkOneOf (oo_name o) don [])); [|done|].
  { eapply Forall_impl; [exact Hopts|]. intros x Hx. split; [apply opt_decl_word|]. intros don st s ->. left. apply (run_opt_decl (λ kw n, oneof_rest n (mkOneOf (oo_name o) don []) kw) (λ x, mkOneOf (oo_name o) (don ++ [x]) [])); [done|]. reflexivity. }
  intros st ->. apply (run_section oneof_step oneof_step_ends field_str (λ don st, st = mkOneOf (oo_name o) (oo_options o) (arr_field <$> don))); [|done|].
  { eapply Forall_impl; [exact Hfields|]. intros x (first & rest & Hx & Hne). split; [by eapply field_word|]. intros don st s ->. left. rewrite fmap_app.
    apply (run_field_decl (λ kw n, oneof_rest n (mkOneOf (oo_name o) (oo_options o) (arr_field <$> don)) kw) (λ f, mkOneOf (oo_name o) (oo_options o) ((arr_field <$> don) ++ [f])) true x first rest); [done|]. intros n. unfold oneof_rest. by rewrite decide_False. }
  intros st ->. apply run_finish. by apply run_braces_done.
Qed.

Definition extend_field_ok (f : Field) : Prop := ∃ first rest, field_split so false f first rest.
Definition extend_ok (x : Extend) : Prop := name_ok (x_name x) ∧ Forall extend_field_ok (x_fields x).
Definition arr_extend (x : Extend) : Extend := mkExtend (x_name x) (arr_field <$> x_fields x).
Lemma extend_step_ends n st ts : length ts < n → ends 1 (extend_step n st) ts.
Proof. intros Hn. unfold extend_step. ends_tac. Qed.
Definition extend_tail (x : Extend) : string := x_name x +:+ " {" +:+ section_str field_str (x_fields x) +:+ "}" +:+ LF.
Lemma run_extend x r : extend_ok x → run extend (extend_tail x +:+ r) (λ y, y = arr_extend x) r.
Proof.
  intros [Hname Hfields]. unfold extend, extend_tail. rewrite !str_app_assoc. eapply run_bind_eq; [by apply run_ident|]. cbn [String.append]. apply run_blank; [done|]. eapply run_bind_eq; [by apply run_sym|].
  apply (run_section extend_step extend_step_ends field_str (λ don st, st = mkExtend (x_name x) (arr_field <$> don))); [|done|].
  { eapply Forall_impl; [exact Hfields|]. intros f (first & rest & Hf). split; [by eapply field_word|]. intros don st s ->. left. rewrite fmap_app.
    apply (run_field_decl (λ kw n, f ← field n kw false; mret (mkExtend (x_name x) ((arr_field <$> don) ++ [f]))) (λ f, mkExtend (x_name x) ((arr_field <$> don) ++ [f])) false f first rest); [done|]. reflexivity. }
  intros st ->. apply run_finish. by apply run_braces_done.
Qed.

(** * Enums *)

Definition tag_ok (t : string) : Prop := num_ok t ∨ ∃ x, t = String "-" x ∧ num_ok x ∧ starts_with "-" x = true.
Definition constant_ok (c : string * string * list Opt) : Prop := name_ok c.1.1 ∧ c.1.1 ≠ "option" ∧ c.1.1 ≠ "reserved" ∧ tag_ok c.1.2 ∧ Forall opt_ok c.2.
Definition enum_ok (e : EnumEl) : Prop := name_ok (e_name e) ∧ Forall (ranges_ok "reserved") (e_reserved e) ∧ Forall opt_ok (e_options e) ∧ Forall constant_ok (e_constants e).
Lemma enum_step_ends n st ts : length ts < n → ends 1 (enum_step n st) ts.
Proof. intros Hn. unfold enum_step. ends_tac. Qed.
Definition enum_rest (n : nat) (e : EnumEl) (kw : string) : P EnumEl :=
  if decide (kw = "option") then x ← option_decl n; mret (mkEnumEl (e_name e) (e_reserved e) (e_options e ++ [x]) (e_constants e))
  else if decide (kw = "reserved") then r ← ranges n "reserved"; mret (mkEnumEl (e_name e) (e_reserved e ++ [r]) (e_options e) (e_constants e))
  else
    _ ← sym "="; tag ← constant_tag; opts ← field_options n; _ ← sym ";";
    mret (mkEnumEl (e_name e) (e_reserved e) (e_options e) (e_constants e ++ [(kw, tag, opts)])).
Lemma run_constant_tag t r : tag_ok t → delim r = true → run (λ _, constant_tag) (t +:+ r) (λ x, x = t) r.
Proof.
  intros Ht Hr. unfold constant_tag. destruct Ht as [Ht|(x & -> & Hx & Hm)].
  - eapply run_bind_eq; [by apply run_next_num|]. by apply run_ret.
  - eapply run_bind_eq; [apply (run_next (TSym "-")); [done|]|]. { intros ts _ _. by apply starts_with_spec in Hm as [y ->]. }
    cbn beta iota. rewrite decide_True by done. eapply run_bind_eq; [by apply run_num|]. by apply run_ret.
Qed.
Lemma run_constant r e c : constant_ok c → run (λ n, enum_step n e) (constant_str c +:+ r) (λ e', e' = mkEnumEl (e_name e) (e_reserved e) (e_options e) (e_constants e ++ [c])) r.
Proof.
  intros (Hname & Hne1 & Hne2 & Htag & Hopts). destruct c as [[name tag] opts]. unfold constant_str. cbn [fst snd] in *. rewrite !str_app_assoc. eapply (run_bind_eq (λ _, ident) (λ kw n, enum_rest n e kw)); [by apply run_ident|].
  eapply (run_ext (λ n, _ ← sym "="; tag ← constant_tag; opts ← field_options n; _ ← sym ";"; mret (mkEnumEl (e_name e) (e_reserved e) (e_options e) (e_constants e ++ [(name, tag, opts)])))).
  { intros m. unfold enum_rest. by rewrite !decide_False. }
  cbn [String.append]. apply run_blank; [done|]. eapply run_bind_eq; [by apply run_sym|]. apply run_blank; [done|]. eapply run_bind_eq; [apply run_constant_tag; [done|by destruct opts]|].
  eapply run_bind_eq; [by apply run_field_options|]. eapply run_bind_eq; [by apply run_sym|]. apply run_finish. by apply run_ret.
Qed.
Lemma constant_word c : constant_ok c → starts_word (constant_str c).
Proof. intros (H & _). exists c.1.1. eexists. split; [done|reflexivity]. Qed.

Definition enum_tail (e : EnumEl) : string :=
  e_name e +:+ " {" +:+ section_str (λ r, r +:+ LF) (e_reserved e) +:+
  (if bool_decide (e_reserved e = []) && (negb (bool_decide (length (e_options e) = 0)) || negb (bool_decide (length (e_constants e) = 0))) then LF else "") +:+
  cat ((λ o, indented (opt_decl o)) <$> e_options e) +:+ cat ((λ c, indented (constant_str c)) <$> e_constants e) +:+ "}" +:+ LF.
Lemma run_enum e r : enum_ok e → run enumeration (enum_tail e +:+ r) (λ x, x = e) r.
Proof.
  destruct e as [name res opts consts]. intros (Hname & Hres & Hopts & Hconsts). cbn [e_name e_reserved e_options e_constants] in *. unfold enumeration, enum_tail. cbn [e_name e_reserved e_options e_constants].
  rewrite !str_app_assoc. eapply run_bind_eq; [by apply run_ident|]. cbn [String.append]. apply run_blank; [done|]. eapply run_bind_eq; [by apply run_sym|].
  apply (run_section enum_step enum_step_ends (λ r, r +:+ LF) (λ don st, st = mkEnumEl name don [] [])); [|done|].
  { eapply Forall_impl; [exact Hres|]. intros x Hx. split; [by eapply (ranges_word "reserved")|]. intros don st s ->. left.
    apply (run_ranges_decl (λ kw n, enum_rest n (mkEnumEl name don [] []) kw) "reserved" (λ x, mkEnumEl name (don ++ [x]) [] [])); [done..|]. reflexivity. }
  intros st ->. assert (∀ s Q, run (λ n, braces n (enum_step n) (mkEnumEl name res [] [])) s Q r →
    run (λ n, braces n (enum_step n) (mkEnumEl name res [] [])) ((if bool_decide (res = []) && (negb (bool_decide (length opts = 0)) || negb (bool_decide (length consts = 0))) then LF else "") +:+ s) Q r) as Hblank.
  { intros s Q H. destruct (_ && _); [by apply run_blank|done]. }
  apply Hblank. apply (run_items enum_step enum_step_ends opt_decl (λ don st, st = mkEnumEl name res don [])) with (don := []); [|done|].
  { eapply Forall_impl; [exact Hopts|]. intros x Hx. split; [apply opt_decl_word|]. intros don st s ->. left.
    apply (run_opt_decl (λ kw n, enum_rest n (mkEnumEl name res don []) kw) (λ x, mkEnumEl name res (don ++ [x]) [])); [done|]. reflexivity. }
  intros st ->. apply (run_items enum_step enum_step_ends constant_str (λ don st, st = mkEnumEl name res opts don)) with (don := []); [|done|].
  { eapply Forall_impl; [exact Hconsts|]. intros x Hx. split; [by apply constant_word|]. intros don st s ->. left. by apply (run_constant s (mkEnumEl name res opts don)). }
  intros st ->. apply run_finish. by apply run_braces_done.
Qed.

(** * What is printed the same *)

Lemma section_str_ext {X Y} (f : X → string) (g : Y → string) xs ys : f <$> xs = g <$> ys → section_str f xs = section_str g ys.
Proof.
  intros E. assert (cat ((λ x, indented (f x)) <$> xs) = cat ((λ y, indented (g y)) <$> ys)) as Hcat by (rewrite (list_fmap_compose f indented), (list_fmap_compose g indented); by rewrite E).
  destruct xs, ys; try discriminate; [done|]. unfold section_str. by rewrite Hcat.
Qed.
Lemma fmap_arr {X} (arr : X → X) (f : X → string) (ok : X → Prop) xs : (∀ x, ok x → f (arr x) = f x) → Forall ok xs → f <$> (arr <$> xs) = f <$> xs.
Proof. intros H. induction 1 as [|x xs Hx _ IH]; [done|]. cbn. by rewrite H, <-IH. Qed.
Lemma split_arr in_oneof f first rest : so = false → field_split so in_oneof f first rest → field_str (arr_field f) = field_str f.
Proof. intros Hso (H & _). apply arr_field_str. congruence. Qed.
Lemma arr_oneof_str o : so = false → oneof_ok o → oneof_str (arr_oneof o) = oneof_str o.
Proof.
  intros Hso (_ & _ & Hf). unfold oneof_str, arr_oneof. cbn [oo_name oo_options oo_fields]. rewrite (section_str_ext field_str field_str _ (oo_fields o)); [done|]. apply (fmap_arr arr_field field_str oneof_field_ok); [|done]. intros f (first & rest & H & _). by eapply split_arr.
Qed.
Lemma arr_extend_str x : so = false → extend_ok x → extend_str (arr_extend x) = extend_str x.
Proof.
  intros Hso (_ & Hf). unfold extend_str, arr_extend. cbn [x_name x_fields]. rewrite (section_str_ext field_str field_str _ (x_fields x)); [done|]. apply (fmap_arr arr_field field_str extend_field_ok); [|done]. intros f (first & rest & H). by eapply split_arr.
Qed.

(** * Messages *)

Definition typed_str (t : TypeEl) : bool * string := (is_message t, type_str t).
Definition message_tail (m : Message) : string :=
  let '(mkMessage name reserved options fields oneofs extensions nested extends) := m in
  name +:+ " {" +:+ section_str (λ r, r +:+ LF) reserved +:+ section_str opt_decl options +:+ section_str field_str fields +:+
  section_str oneof_str oneofs +:+ section_str (λ x, x +:+ LF) extensions +:+ section_str type_str (ordered is_message nested) +:+ section_str extend_str extends +:+ "}" +:+ LF.
Lemma filter_fmap_fst (l : list TypeEl) b : filter (λ p : bool * string, p.1 = b) (typed_str <$> l) = typed_str <$> filter (λ t, is_message t = b) l.
Proof.
  induction l as [|t l IH]; [done|]. cbn [fmap list_fmap]. destruct (decide (is_message t = b)).
  - rewrite !filter_cons_True by done. cbn. by rewrite IH.
  - by rewrite !filter_cons_False.
Qed.
Lemma message_str_tail m : message_str m = "message " +:+ message_tail m.
Proof.
  destruct m as [name reserved options fields oneofs extensions nested extends]. cbn [message_str message_tail].
  assert (∀ l, (fix go (l : list TypeEl) : list (bool * string) := match l with [] => [] | TMessage m :: l => (true, message_str m) :: go l | TEnum e :: l => (false, enum_str e) :: go l end) l = typed_str <$> l) as E.
  { induction l as [|[m|e] l IH]; [done|exact (f_equal (cons (true, message_str m)) IH)|exact (f_equal (cons (false, enum_str e)) IH)]. }
  rewrite E, (section_str_ext snd type_str _ (ordered is_message nested)); [done|]. unfold ordered. rewrite (filter_fmap_fst nested true), (filter_fmap_fst nested false), <-fmap_app, <-list_fmap_compose. done.
Qed.

(** The form in which a message is read: options in order, messages before
    enums. *)
Fixpoint arr_message (m : Message) : Message :=
  let '(mkMessage name reserved options fields oneofs extensions nested extends) := m in
  mkMessage name reserved options (arr_field <$> fields) (arr_oneof <$> oneofs) extensions
    (ordered is_message ((fix go (l : list TypeEl) : list TypeEl := match l with [] => [] | TMessage m :: l => TMessage (arr_message m) :: go l | TEnum e :: l => TEnum e :: go l end) nested))
    (arr_extend <$> extends).
Definition arr_type (t : TypeEl) : TypeEl := match t with TMessage m => TMessage (arr_message m) | TEnum e => TEnum e end.
Lemma is_message_arr t : is_message (arr_type t) = is_message t.
Proof. by destruct t. Qed.
Lemma ordered_fmap (g : TypeEl → TypeEl) l : (∀ t, is_message (g t) = is_message t) → ordered is_message (g <$> l) = g <$> ordered is_message l.
Proof.
  intros Hg. unfold ordered. rewrite fmap_app. assert (∀ b, filter (λ t, is_message t = b) (g <$> l) = g <$> filter (λ t, is_message t = b) l) as E; [|by rewrite !E].
  intros b. induction l as [|t l IH]; [done|]. cbn [fmap list_fmap]. destruct (decide (is_message t = b)) as [Hb|Hb].
  - rewrite !filter_cons_True by (by rewrite ?Hg). cbn. by rewrite <-IH.
  - rewrite !filter_cons_False by (by rewrite ?Hg). done.
Qed.
Lemma arr_message_eq name res opts fields oneofs exts nested extends :
  arr_message (mkMessage name res opts fields oneofs exts nested extends) =
  mkMessage name res opts (arr_field <$> fields) (arr_oneof <$> oneofs) exts (arr_type <$> ordered is_message nested) (arr_extend <$> extends).
Proof.
  cbn [arr_message]. f_equal. rewrite <-ordered_fmap by apply is_message_arr. f_equal. induction nested as [|[m|e] l IH]; [done|exact (f_equal (cons (TMessage (arr_message m))) IH)|exact (f_equal (cons (TEnum e)) IH)].
Qed.

(** A type that is read after its keyword. *)
Definition type_reads (t : TypeEl) : Prop :=
  match t with
  | TMessage m => ∀ r, run message (message_tail m +:+ r) (λ m', m' = arr_message m) r
  | TEnum e => enum_ok e
  end.
Definition MESSAGE_WORDS : list string := ["option"; "reserved"; "extensions"; "message"; "enum"; "extend"; "oneof"].
Definition message_field_ok (f : Field) : Prop := ∃ first rest, field_split so false f first rest ∧ first ∉ MESSAGE_WORDS.
Fixpoint message_ok (m : Message) : Prop :=
  let '(mkMessage name reserved options fields oneofs extensions nested extends) := m in
  name_ok name ∧ Forall (ranges_ok "reserved") reserved ∧ Forall opt_ok options ∧ Forall message_field_ok fields ∧ Forall oneof_ok oneofs ∧ Forall (ranges_ok "extensions") extensions ∧
  (fix go (l : list TypeEl) : Prop := match l with [] => True | TMessage m :: l => message_ok m ∧ go l | TEnum e :: l => enum_ok e ∧ go l end) nested ∧ Forall extend_ok extends.
Definition type_ok (t : TypeEl) : Prop := match t with TMessage m => message_ok m | TEnum e => enum_ok e end.
Lemma message_ok_eq name res opts fields oneofs exts nested extends :
  message_ok (mkMessage name res opts fields oneofs exts nested extends) ↔
  name_ok name ∧ Forall (ranges_ok "reserved") res ∧ Forall opt_ok opts ∧ Forall message_field_ok fields ∧ Forall oneof_ok oneofs ∧ Forall (ranges_ok "extensions") exts ∧ Forall type_ok nested ∧ Forall extend_ok extends.
Proof.
  cbn [message_ok]. do 6 apply and_iff_compat_l. apply and_iff_compat_r. induction nested as [|[m|e] l IH]; [done|by rewrite Forall_cons, IH..].
Qed.

Definition message_rest (n : nat) (message : P Message) (m : Message) (kw : string) : P Message :=
  if decide (kw = "option") then o ← option_decl n; mret (m_add_option o m)
  else if decide (kw = "reserved") then r ← ranges n "reserved"; mret (m_add_reserved r m)
  else if decide (kw = "extensions") then x ← ranges n "extensions"; mret (m_add_extensions x m)
  else if decide (kw = "message") then t ← message; mret (m_add_nested (TMessage t) m)
  else if decide (kw = "enum") then e ← enumeration n; mret (m_add_nested (TEnum e) m)
  else if decide (kw = "extend") then x ← extend n; mret (m_add_extend x m)
  else if decide (kw = "oneof") then o ← oneof n; mret (m_add_oneof o m)
  else f ← field n kw false; mret (m_add_field f m).
Definition message_round (n : nat) (m : Message) : P Message := message_step n (message n) m.
Lemma message_round_ends n st ts : length ts < n → ends 1 (message_round n st) ts.
Proof. intros Hn. unfold message_round, message_step. ends_tac. Qed.
(** An element that begins with a keyword. *)
Lemma run_element {T A} (rest : string → nat → P T) (p : nat → P A) (add : A → T) (Q : A → Prop) kw tail r :
  keyword kw = true → (∀ n, rest kw n = (x ← p n; mret (add x))) → run p (tail +:+ r) Q r →
  run (λ n, kw ← ident; rest kw n) ((kw +:+ " " +:+ tail) +:+ r) (λ st', ∃ x, Q x ∧ st' = add x) r.
Proof.
  intros Hkw E Hp. rewrite !str_app_assoc. eapply run_bind_eq; [by apply run_keyword|]. cbn [String.append]. apply run_blank; [done|]. eapply run_ext; [exact E|]. eapply run_bind; [exact Hp|].
  intros a Ha. apply run_ret. eauto.
Qed.

Lemma element_word kw tail : keyword kw = true → starts_word (kw +:+ " " +:+ tail).
Proof. intros H%keyword_ok. by exists kw, (" " +:+ tail). Qed.
Definition type_kw (t : TypeEl) : string := if is_message t then "message" else "enum".
Definition type_tail (t : TypeEl) : string := match t with TMessage m => message_tail m | TEnum e => enum_tail e end.
Lemma type_str_tail t : type_str t = type_kw t +:+ " " +:+ type_tail t.
Proof. destruct t as [m|e]; [apply message_str_tail|done]. Qed.

Section message_sections.
Context (name : string) (res : list string) (opts : list Opt) (fields : list Field) (oneofs : list OneOf) (exts : list string) (nested : list TypeEl) (extends : list Extend).
Let loop (m : Message) : nat → P Message := λ n, braces n (message_round n) m.
Let rest (m : Message) : string → nat → P Message := λ kw n, message_rest n (message n) m kw.

Lemma run_message_reserved s Q r : Forall (ranges_ok "reserved") res → run (loop (mkMessage name res [] [] [] [] [] [])) s Q r →
  run (loop (mkMessage name [] [] [] [] [] [] [])) (section_str (λ r, r +:+ LF) res +:+ s) Q r.
Proof.
  intros Hok Hs. apply (run_section message_round message_round_ends _ (λ don st, st = mkMessage name don [] [] [] [] [] [])); [|done|by intros st ->].
  eapply Forall_impl; [exact Hok|]. intros x Hx. split; [by eapply (ranges_word "reserved")|]. intros don st t ->. left.
  apply (run_ranges_decl (rest (mkMessage name don [] [] [] [] [] [])) "reserved" (λ x, mkMessage name (don ++ [x]) [] [] [] [] [] [])); [done..|]. reflexivity.
Qed.
Lemma run_message_options s Q r : Forall opt_ok opts → run (loop (mkMessage name res opts [] [] [] [] [])) s Q r →
  run (loop (mkMessage name res [] [] [] [] [] [])) (section_str opt_decl opts +:+ s) Q r.
Proof.
  intros Hok Hs. apply (run_section message_round message_round_ends _ (λ don st, st = mkMessage name res don [] [] [] [] [])); [|done|by intros st ->].
  eapply Forall_impl; [exact Hok|]. intros x Hx. split; [apply opt_decl_word|]. intros don st t ->. left.
  apply (run_opt_decl (rest (mkMessage name res don [] [] [] [] [])) (λ x, mkMessage name res (don ++ [x]) [] [] [] [] [])); [done|]. reflexivity.
Qed.
Lemma run_message_fields s Q r : Forall message_field_ok fields → run (loop (mkMessage name res opts (arr_field <$> fields) [] [] [] [])) s Q r →
  run (loop (mkMessage name res opts [] [] [] [] [])) (section_str field_str fields +:+ s) Q r.
Proof.
  intros Hok Hs. apply (run_section message_round message_round_ends _ (λ don st, st = mkMessage name res opts (arr_field <$> don) [] [] [] [])); [|done|by intros st ->].
  eapply Forall_impl; [exact Hok|]. intros x (first & frest & Hx & Hw). split; [by eapply field_word|]. intros don st t ->. left. rewrite fmap_app.
  apply (run_field_decl (rest (mkMessage name res opts (arr_field <$> don) [] [] [] [])) (λ f, mkMessage name res opts ((arr_field <$> don) ++ [f]) [] [] [] []) false x first frest); [done|].
  intros n. unfold rest, message_rest. by rewrite !decide_False by (intros ->; apply Hw; set_solver).
Qed.
Lemma run_message_oneofs s Q r : Forall oneof_ok oneofs → run (loop (mkMessage name res opts (arr_field <$> fields) (arr_oneof <$> oneofs) [] [] [])) s Q r →
  run (loop (mkMessage name res opts (arr_field <$> fields) [] [] [] [])) (section_str oneof_str oneofs +:+ s) Q r.
Proof.
  intros Hok Hs. apply (run_section message_round message_round_ends _ (λ don st, st = mkMessage name res opts (arr_field <$> fields) (arr_oneof <$> don) [] [] [])); [|done|by intros st ->].
  eapply Forall_impl; [exact Hok|]. intros x Hx. split; [by apply (element_word "oneof" (oneof_tail x))|]. intros don st t ->. left. rewrite fmap_app.
  eapply run_mono; [eapply (run_element (rest (mkMessage name res opts (arr_field <$> fields) (arr_oneof <$> don) [] [] [])) oneof (λ o, mkMessage name res opts (arr_field <$> fields) ((arr_oneof <$> don) ++ [o]) [] [] []) _ "oneof" (oneof_tail x)); [done|reflexivity|by apply run_oneof]|].
  by intros ? (? & -> & ->).
Qed.
Lemma run_message_extensions s Q r : Forall (ranges_ok "extensions") exts → run (loop (mkMessage name res opts (arr_field <$> fields) (arr_oneof <$> oneofs) exts [] [])) s Q r →
  run (loop (mkMessage name res opts (arr_field <$> fields) (arr_oneof <$> oneofs) [] [] [])) (section_str (λ x, x +:+ LF) exts +:+ s) Q r.
Proof.
  intros Hok Hs. apply (run_section message_round message_round_ends _ (λ don st, st = mkMessage name res opts (arr_field <$> fields) (arr_oneof <$> oneofs) don [] [])); [|done|by intros st ->].
  eapply Forall_impl; [exact Hok|]. intros x Hx. split; [by eapply (ranges_word "extensions")|]. intros don st t ->. left.
  apply (run_ranges_decl (rest (mkMessage name res opts (arr_field <$> fields) (arr_oneof <$> oneofs) don [] [])) "extensions" (λ x, mkMessage name res opts (arr_field <$> fields) (arr_oneof <$> oneofs) (don ++ [x]) [] [])); [done..|]. reflexivity.
Qed.
Lemma run_message_nested ts s Q r : Forall type_reads ts → run (loop (mkMessage name res opts (arr_field <$> fields) (arr_oneof <$> oneofs) exts (arr_type <$> ts) [])) s Q r →
  run (loop (mkMessage name res opts (arr_field <$> fields) (arr_oneof <$> oneofs) exts [] [])) (section_str type_str ts +:+ s) Q r.
Proof.
  intros Hok Hs. set (st_of := λ ts', mkMessage name res opts (arr_field <$> fields) (arr_oneof <$> oneofs) exts ts' []).
  apply (run_section message_round message_round_ends _ (λ don st, st = st_of (arr_type <$> don))); [|done|by intros st ->].
  eapply Forall_impl; [exact Hok|]. intros x Hx. unfold item_reads. rewrite type_str_tail. split; [apply element_word; by destruct x|]. intros don st t ->. left. rewrite fmap_app. destruct x as [m|e].
  - eapply run_mono; [eapply (run_element (rest (st_of (arr_type <$> don))) message (λ m, st_of ((arr_type <$> don) ++ [TMessage m])) _ "message" (message_tail m)); [done|reflexivity|apply Hx]|]. by intros ? (? & -> & ->).
  - eapply run_mono; [eapply (run_element (rest (st_of (arr_type <$> don))) enumeration (λ e, st_of ((arr_type <$> don) ++ [TEnum e])) _ "enum" (enum_tail e)); [done|reflexivity|by apply run_enum]|]. by intros ? (? & -> & ->).
Qed.
Lemma run_message_extends ts' s Q r : Forall extend_ok extends → run (loop (mkMessage name res opts (arr_field <$> fields) (arr_oneof <$> oneofs) exts ts' (arr_extend <$> extends))) s Q r →
  run (loop (mkMessage name res opts (arr_field <$> fields) (arr_oneof <$> oneofs) exts ts' [])) (section_str extend_str extends +:+ s) Q r.
Proof.
  intros Hok Hs. set (st_of := mkMessage name res opts (arr_field <$> fields) (arr_oneof <$> oneofs) exts ts').
  apply (run_section message_round message_round_ends _ (λ don st, st = st_of (arr_extend <$> don))); [|done|by intros st ->].
  eapply Forall_impl; [exact Hok|]. intros x Hx. split; [by apply (element_word "extend" (extend_tail x))|]. intros don st t ->. left. rewrite fmap_app.
  eapply run_mono; [eapply (run_element (rest (st_of (arr_extend <$> don))) extend (λ x, st_of ((arr_extend <$> don) ++ [x])) _ "extend" (extend_tail x)); [done|reflexivity|by apply run_extend]|].
  by intros ? (? & -> & ->).
Qed.
End message_sections.
End elements.

(** * Reading back a whole [.proto] file as the printer writes it. *)

(** Induction on messages, and the messages nested in them. *)
Section message_induction.
Context (Q : Message → Prop).
Context (H : ∀ name res opts fields oneofs exts nested extends, Forall (λ t, match t with TMessage m => Q m | TEnum _ => True end) nested → Q (mkMessage name res opts fields oneofs exts nested extends)).
Fixpoint message_induction (m : Message) : Q m :=
  let '(mkMessage name res opts fields oneofs exts nested extends) as m := m return Q m in
  H name res opts fields oneofs exts nested extends
    ((fix go (l : list TypeEl) : Forall (λ t, match t with TMessage m => Q m | TEnum _ => True end) l :=
        match l with
        | [] => @Forall_nil_2 _ _
        | t :: l => @Forall_cons_2 _ _ t l (match t return match t with TMessage m => Q m | TEnum _ => True end with TMessage m => message_induction m | TEnum _ => I end) (go l)
        end) nested).
End message_induction.

Section files.
Context {tables : UnicodeTables} (so : bool).

(** * A message *)

Lemma Forall_ordered (R : TypeEl → Prop) ts : Forall R ts → Forall R (ordered is_message ts).
Proof. intros H. unfold ordered. rewrite Forall_app. rewrite Forall_forall in H. split; apply Forall_forall; intros t Ht%list_elem_of_filter; apply H, Ht. Qed.
Lemma ordered_idem ts : ordered is_message (ordered is_message ts) = ordered is_message ts.
Proof.
  unfold ordered at 1. unfold ordered. rewrite !filter_app. pose proof (Forall_filter_self (λ t, is_message t = true) ts) as A1. pose proof (Forall_filter_self (λ t, is_message t = false) ts) as A2.
  set (l1 := filter (λ t, is_message t = true) ts) in *. set (l2 := filter (λ t, is_message t = false) ts) in *.
  rewrite (filter_all (λ t, is_message t = true) l1), (filter_all (λ t, is_message t = false) l2) by done.
  rewrite (filter_none (λ t, is_message t = true) l2), (filter_none (λ t, is_message t = false) l1) by (eapply Forall_impl; [eassumption|]; cbn; congruence). by rewrite app_nil_r.
Qed.
Lemma message_reads m : message_ok so m → type_reads (TMessage m).
Proof.
  induction m as [name res opts fields oneofs exts nested extends IH] using message_induction. rewrite message_ok_eq. intros (Hname & Hres & Hopts & Hfields & Honeofs & Hexts & Hnested & Hextends) r.
  cbn [message_tail]. rewrite !str_app_assoc.
  eapply (run_enter ident message (λ name n, _ ← sym "{"; braces n (message_round n) (mkMessage name [] [] [] [] [] [] []))); [intros ts; unfold ends; apply wp_ident; intros ? ? ->; cbn; lia|done|by apply run_ident|].
  cbn [String.append]. apply run_blank; [done|]. eapply run_bind_eq; [by apply run_sym|]. apply run_message_reserved; [done|]. apply run_message_options; [done|]. apply (run_message_fields so); [done|]. apply (run_message_oneofs so); [done|].
  apply run_message_extensions; [done|]. apply run_message_nested.
  { apply Forall_ordered. apply Forall_forall. intros t Ht. rewrite Forall_forall in IH, Hnested. specialize (IH t Ht). specialize (Hnested t Ht). destruct t as [m|e]; [by apply IH|done]. }
  apply (run_message_extends so); [done|]. apply run_finish. eapply run_mono; [by apply run_braces_done|]. intros ? ->. by rewrite arr_message_eq.
Qed.
Lemma type_reads_ok t : type_ok so t → type_reads t.
Proof. destruct t; [apply message_reads|done]. Qed.

(** The form it is read in is printed the same. *)
Lemma arr_types_str ts : Forall (λ t, type_str (arr_type t) = type_str t) ts → type_str <$> ordered is_message (arr_type <$> ordered is_message ts) = type_str <$> ordered is_message ts.
Proof.
  intros H%Forall_ordered. rewrite ordered_fmap by apply is_message_arr. rewrite ordered_idem. induction H as [|t l Ht _ IH]; [done|]. cbn. by rewrite Ht, IH.
Qed.
Lemma arr_message_str m : so = false → message_ok so m → message_str (arr_message m) = message_str m.
Proof.
  intros Hso. induction m as [name res opts fields oneofs exts nested extends IH] using message_induction. rewrite message_ok_eq. intros (Hname & Hres & Hopts & Hfields & Honeofs & Hexts & Hnested & Hextends).
  rewrite arr_message_eq, !message_str_tail. cbn [message_tail].
  rewrite (section_str_ext type_str type_str _ (ordered is_message nested)).
  2:{ apply arr_types_str. apply Forall_forall. intros t Ht. rewrite Forall_forall in IH, Hnested. specialize (IH t Ht). specialize (Hnested t Ht). destruct t as [m|e]; [by apply IH|done]. }
  rewrite (section_str_ext field_str field_str _ fields) by (apply (fmap_arr _ _ (message_field_ok so)); [|done]; intros f (? & ? & H & _); by eapply split_arr).
  rewrite (section_str_ext oneof_str oneof_str _ oneofs) by (apply (fmap_arr _ _ (oneof_ok so)); [intros; by apply (arr_oneof_str so)|done]).
  by rewrite (section_str_ext extend_str extend_str _ extends) by (apply (fmap_arr _ _ (extend_ok so)); [intros; by apply (arr_extend_str so)|done]).
Qed.
Lemma arr_type_str t : so = false → type_ok so t → type_str (arr_type t) = type_str t.
Proof. intros Hso. destruct t; [by apply arr_message_str|done]. Qed.

(** * A service *)

Definition rpc_type_ok (stream : bool) (ty : string) : Prop := name_ok ty ∧ (stream = false → ty ≠ "stream").
Definition rpc_ok (r : Rpc) : Prop := name_ok (r_name r) ∧ rpc_type_ok (r_req_stream r) (r_req r) ∧ rpc_type_ok (r_resp_stream r) (r_resp r) ∧ Forall opt_ok (r_options r).
Definition service_ok (s : Service) : Prop := name_ok (s_name s) ∧ Forall opt_ok (s_options s) ∧ Forall rpc_ok (s_rpcs s).
Lemma run_rpc_type stream ty r : rpc_type_ok stream ty → run (λ _, rpc_type) (streamed stream ty +:+ r) (λ x, x = (stream, ty)) r.
Proof.
  intros [Hty Hne]. unfold rpc_type, streamed. rewrite !str_app_assoc. change ("(" +:+ ?x) with (String "(" x). eapply run_bind_eq; [by apply run_sym|]. destruct stream.
  - change ("stream " +:+ ty +:+ ")" +:+ r) with ("stream" +:+ String " " (ty +:+ String ")" r)). eapply run_bind_eq; [apply (run_is_ident _ _ true); [by apply keyword_ok|done..]|]. cbn beta iota.
    eapply run_bind_eq; [apply run_skip_word; [by apply keyword_ok|done]|]. apply run_blank; [done|]. eapply run_bind_eq; [by apply run_ident|]. eapply run_bind_eq; [by apply run_sym|]. by apply run_ret.
  - cbn [String.append]. eapply run_bind_eq; [apply (run_is_ident _ _ false); [done|done|]; by apply bool_decide_eq_false, Hne|]. cbn beta iota.
    eapply run_bind_eq; [by apply (run_ret ())|]. eapply run_bind_eq; [by apply run_ident|]. eapply run_bind_eq; [by apply run_sym|]. by apply run_ret.
Qed.
Lemma rpc_option_ends n st ts : length ts < n → ends 1 (rpc_option n st) ts.
Proof. intros Hn. unfold rpc_option. ends_tac. Qed.
Definition rpc_tail (r : Rpc) : string :=
  r_name r +:+ " " +:+ streamed (r_req_stream r) (r_req r) +:+ " returns " +:+ streamed (r_resp_stream r) (r_resp r) +:+
  match r_options r with
  | [] => ";" +:+ LF
  | opts => " {" +:+ LF +:+ cat ((λ o, indented (opt_decl o)) <$> opts) +:+ "};" +:+ LF
  end.
(** What an rpc leaves: nothing, or the semicolon after its body. *)
Definition rpc_leaves (r : Rpc) (s : string) : string := match r_options r with [] => s | _ => ";" +:+ LF +:+ s end.
Lemma run_rpc x s : rpc_ok x → run rpc (rpc_tail x +:+ s) (λ y, y = x) (rpc_leaves x s).
Proof.
  destruct x as [name req rs resp ps opts]. intros (Hname & Hreq & Hresp & Hopts). unfold rpc, rpc_tail, rpc_leaves. cbn [r_name r_req r_req_stream r_resp r_resp_stream r_options] in *. rewrite !str_app_assoc.
  eapply run_bind_eq; [by apply run_ident|]. apply run_blank; [done|]. eapply run_bind_eq; [by apply run_rpc_type|]. change (" returns " +:+ ?x) with (String " " ("returns" +:+ String " " x)). apply run_blank; [done|].
  eapply run_bind_eq; [by apply run_keyword|]. cbn beta. eapply run_ext; [intros n; by rewrite decide_True by done|]. apply run_blank; [done|]. eapply run_bind_eq; [by apply run_rpc_type|]. destruct opts as [|o opts].
  - cbn [String.append]. eapply run_bind_eq; [by apply (run_is_sym _ false)|]. cbn beta iota. eapply run_bind_eq; [|by apply run_ret]. eapply run_bind_eq; [by apply run_sym|]. apply run_finish. by apply run_ret.
  - change (" {" +:+ ?x) with (String " " (String "{" x)). cbn [String.append]. apply run_blank; [done|]. eapply run_bind_eq; [by apply (run_is_sym _ true)|]. cbn beta iota.
    eapply (run_bind_eq _ _ _ (o :: opts)); [|by apply run_ret]. eapply run_bind_eq; [by apply run_skip|].
    apply run_blank; [done|]. rewrite !str_app_assoc. apply (run_items rpc_option rpc_option_ends opt_decl (λ don st, st = don) (o :: opts)) with (don := []); [|done|intros st ->; by apply run_braces_done].
    eapply Forall_impl; [exact Hopts|]. intros x Hx. split; [apply opt_decl_word|]. intros don st t ->. left.
    apply (run_opt_decl (λ kw n, if decide (kw = "option") then o ← option_decl n; mret (don ++ [o]) else bad) (λ o, don ++ [o])); [done|]. reflexivity.
Qed.

Definition service_rest (n : nat) (s : Service) (kw : string) : P Service :=
  if decide (kw = "option") then o ← option_decl n; mret (mkService (s_name s) (s_options s ++ [o]) (s_rpcs s))
  else if decide (kw = "rpc") then r ← rpc n; mret (mkService (s_name s) (s_options s) (s_rpcs s ++ [r]))
  else bad.
Lemma service_step_ends n st ts : length ts < n → ends 1 (service_step n st) ts.
Proof. intros Hn. unfold service_step. ends_tac. Qed.
Definition service_tail (s : Service) : string := s_name s +:+ " {" +:+ section_str opt_decl (s_options s) +:+ section_str rpc_str (s_rpcs s) +:+ "}" +:+ LF.
Lemma run_rpc_decl (rest : string → nat → P Service) (add : Rpc → Service) x s : rpc_ok x → (∀ n, rest "rpc" n = (r ← rpc n; mret (add r))) →
  run (λ n, kw ← ident; rest kw n) (rpc_str x +:+ s) (λ st, st = add x) (rpc_leaves x s).
Proof.
  intros Hx E. change (rpc_str x) with ("rpc" +:+ String " " (rpc_tail x)). rewrite str_app_assoc. eapply run_bind_eq; [by apply run_keyword|]. cbn [String.append]. apply run_blank; [done|]. eapply run_ext; [exact E|].
  eapply run_bind_eq; [by apply run_rpc|]. by apply run_ret.
Qed.
Lemma run_service x r : service_ok x → run service (service_tail x +:+ r) (λ y, y = x) r.
Proof.
  destruct x as [name opts rpcs]. intros (Hname & Hopts & Hrpcs). cbn [s_name s_options s_rpcs] in *. unfold service, service_tail. cbn [s_name s_options s_rpcs]. rewrite !str_app_assoc.
  eapply run_bind_eq; [by apply run_ident|]. cbn [String.append]. apply run_blank; [done|]. eapply run_bind_eq; [by apply run_sym|].
  apply (run_section service_step service_step_ends _ (λ don st, st = mkService name don [])); [|done|].
  { eapply Forall_impl; [exact Hopts|]. intros x Hx. split; [apply opt_decl_word|]. intros don st t ->. left.
    apply (run_opt_decl (λ kw n, service_rest n (mkService name don []) kw) (λ o, mkService name (don ++ [o]) [])); [done|]. reflexivity. }
  intros st ->. apply (run_section service_step service_step_ends _ (λ don st, st = mkService name opts don)); [|done|].
  { eapply Forall_impl; [exact Hrpcs|]. intros x Hx. split; [by apply (element_word "rpc" (rpc_tail x))|]. intros don st t ->.
    pose proof (run_rpc_decl (λ kw n, service_rest n (mkService name opts don) kw) (λ r, mkService name opts (don ++ [r])) x t Hx ltac:(reflexivity)) as H.
    unfold rpc_leaves in H. destruct (r_options x); [by left|by right]. }
  intros st ->. apply run_finish. by apply run_braces_done.
Qed.

(** * The file *)

Lemma file_fuel n : ∀ k k' f ts, length ts < n → length ts < k → length ts < k' → file k n f ts = file k' n f ts.
Proof.
  induction k as [|k IH]; intros [|k'] f ts Hn Hk Hk'; try lia. destruct ts as [|t ts]; [done|]. cbn [file]. cbn [length] in *. destruct (at_sym ";" (t :: ts)); [apply IH; lia|].
  pose proof (file_step_ends n f (t :: ts) ltac:(cbn; lia)) as He. unfold mbind, parser_bind. unfold ends, wp in He. destruct (file_step n f (t :: ts)) as [f' ts'| |]; try done. cbn [length] in He. apply IH; lia.
Qed.
Definition whole (f : File) (n : nat) : P File := file n n f.
Lemma run_whole_end f : run (whole f) "" (λ x, x = f) "".
Proof. exists f. split; [done|]. intros rts Hr. exists rts. apply spelled_tokens in Hr as Ht. injection Ht as <-. split_and!; [done..|]. by intros [|n] Hn. Qed.
Lemma run_whole_step f s Q s' R : starts_word s → run (λ n, file_step n f) s Q s' → (∀ f', Q f' → run (whole f') s' R "") → run (whole f) s R "".
Proof.
  intros Hw Hs Hloop. apply done_shrinks in Hs as (f' & HQ & Hs); [|intros; apply file_step_ends; lia]. destruct (Hloop f' HQ) as (b & Hb & Hl'). exists b. split; [done|]. intros rts Hr.
  destruct (Hl' rts Hr) as (ts' & Hsp' & Hlen' & Hn'). destruct (Hs ts' Hsp') as (ts & Hsp & Hlen & Hn). exists ts. split_and!; [done|lia|]. intros [|n] Hlt; [lia|]. unfold whole.
  destruct ts as [|t ts]; [cbn in Hlen; lia|]. cbn [file]. rewrite (spelled_at_sym ";" s (t :: ts) eq_refl Hsp), (starts_word_lead s ";" Hw eq_refl).
  unfold mbind, parser_bind. rewrite Hn by done. rewrite (file_fuel (S n) n (S n)) by (cbn in *; lia). apply (Hn' (S n)). cbn in *; lia.
Qed.
Section top.
Context {X : Type} (text : X → string) (Inv : list X → File → Prop).
Definition top_reads (x : X) : Prop := starts_word (text x) ∧ ∀ don st s, Inv don st → run (λ n, file_step n st) (text x +:+ s) (Inv (don ++ [x])) s.
Lemma run_top xs : Forall top_reads xs → ∀ don st rest Q, Inv don st → (∀ st', Inv (don ++ xs) st' → run (whole st') rest Q "") → run (whole st) (cat (text <$> xs) +:+ rest) Q "".
Proof.
  induction 1 as [|x xs [Hw Hx] _ IH]; intros don st rest Q Hst Hrest; [cbn; apply Hrest; by rewrite app_nil_r|]. cbn [fmap list_fmap cat]. rewrite str_app_assoc.
  eapply run_whole_step; [by apply starts_word_app|by apply Hx|]. intros st' Hst'. apply (IH (don ++ [x])); [done|]. by rewrite <-app_assoc.
Qed.
Lemma run_top_section xs st rest Q : Forall top_reads xs → Inv [] st → (∀ st', Inv xs st' → run (whole st') rest Q "") → run (whole st) (top_section text xs +:+ rest) Q "".
Proof.
  intros Hxs Hst Hrest. destruct xs as [|x xs]; [by apply Hrest|]. unfold top_section. rewrite str_app_assoc. apply run_blank; [done|]. by apply (run_top (x :: xs) Hxs []).
Qed.
End top.

Definition file_ok (f : File) : Prop :=
  (∀ s, fl_syntax f = Some s → str_ok s) ∧ (∀ p, fl_package f = Some p → name_ok p) ∧ Forall str_ok (fl_imports f) ∧ Forall str_ok (fl_public_imports f) ∧
  Forall opt_ok (fl_options f) ∧ Forall (type_ok so) (fl_types f) ∧ Forall (extend_ok so) (fl_extends f) ∧ Forall service_ok (fl_services f).
Definition file_rest (f : File) (kw : string) (n : nat) : P File :=
  let '(mkFile syntax package imports public options types extends services) := f in
  if bool_decide (kw = "syntax") || bool_decide (kw = "edition") then
    _ ← sym "="; s ← str; _ ← sym ";"; mret (mkFile (Some s) package imports public options types extends services)
  else if decide (kw = "package") then p ← ident; _ ← sym ";"; mret (mkFile syntax (Some p) imports public options types extends services)
  else if decide (kw = "import") then
    i ← import_decl;
    mret (if i.1 : bool then mkFile syntax package imports (public ++ [i.2]) options types extends services
          else mkFile syntax package (imports ++ [i.2]) public options types extends services)
  else if decide (kw = "option") then o ← option_decl n; mret (mkFile syntax package imports public (options ++ [o]) types extends services)
  else if decide (kw = "message") then m ← message n; mret (mkFile syntax package imports public options (types ++ [TMessage m]) extends services)
  else if decide (kw = "enum") then e ← enumeration n; mret (mkFile syntax package imports public options (types ++ [TEnum e]) extends services)
  else if decide (kw = "extend") then x ← extend n; mret (mkFile syntax package imports public options types (extends ++ [x]) services)
  else if decide (kw = "service") then s ← service n; mret (mkFile syntax package imports public options types extends (services ++ [s]))
  else bad.
Lemma run_file_step f (kw := λ n, kw ← ident; file_rest f kw n) s Q r : run kw s Q r → run (λ n, file_step n f) s Q r.
Proof. apply run_ext. intros n. by destruct f. Qed.

Definition syntax_str (s : string) : string := "syntax = " +:+ quoted s +:+ ";" +:+ LF.
Definition package_str (p : string) : string := "package " +:+ p +:+ ";" +:+ LF.
Definition import_str (i : string) : string := "import " +:+ quoted i +:+ ";" +:+ LF.
Definition public_str (i : string) : string := "import public " +:+ quoted i +:+ ";" +:+ LF.
Lemma kw_word kw s t : keyword kw = true → s = kw +:+ t → starts_word s.
Proof. intros H%keyword_ok ->. by exists kw, t. Qed.

Section decls.
Context (sy pk : option string) (im pub : list string).

Lemma run_syntax s r : str_ok s → run (λ n, file_step n empty_file) (syntax_str s +:+ r) (λ f, f = mkFile (Some s) None [] [] [] [] [] []) r.
Proof.
  intros Hs. apply run_file_step. unfold syntax_str. rewrite !str_app_assoc. eapply run_bind_eq; [eapply (run_kw "syntax"); [done|reflexivity|done]|]. apply run_blank; [done|].
  eapply (run_ext (λ _, _ ← sym "="; s ← str; _ ← sym ";"; mret (mkFile (Some s) None [] [] [] [] [] []))); [reflexivity|]. eapply run_bind_eq; [by apply run_sym|]. apply run_blank; [done|].
  eapply run_bind_eq; [by apply run_str|]. eapply run_bind_eq; [by apply run_sym|]. apply run_finish. by apply run_ret.
Qed.
Lemma run_package p r : name_ok p → run (λ n, file_step n (mkFile sy None [] [] [] [] [] [])) (package_str p +:+ r) (λ f, f = mkFile sy (Some p) [] [] [] [] [] []) r.
Proof.
  intros Hp. apply run_file_step. unfold package_str. rewrite !str_app_assoc. eapply run_bind_eq; [eapply (run_kw "package"); [done|reflexivity|done]|]. apply run_blank; [done|].
  eapply (run_ext (λ _, p ← ident; _ ← sym ";"; mret (mkFile sy (Some p) [] [] [] [] [] []))); [reflexivity|]. eapply run_bind_eq; [by apply run_ident|].
  eapply run_bind_eq; [by apply run_sym|]. apply run_finish. by apply run_ret.
Qed.
Lemma run_peek_str x s r : str_ok s → run (λ _, is_ident x) (quoted s +:+ r) (λ b, b = false) (quoted s +:+ r).
Proof. intros Hs. exists false. split; [done|]. intros rts H. exists rts. split_and!; [done..|]. intros n _. unfold is_ident. by rewrite (proj1 (spelled_no_ident x (quoted s +:+ r) rts eq_refl H)). Qed.
Lemma run_import i r : str_ok i → run (λ n, file_step n (mkFile sy pk im pub [] [] [] [])) (import_str i +:+ r) (λ f, f = mkFile sy pk (im ++ [i]) pub [] [] [] []) r.
Proof.
  intros Hi. apply run_file_step. unfold import_str. rewrite !str_app_assoc. eapply run_bind_eq; [eapply (run_kw "import"); [done|reflexivity|done]|]. apply run_blank; [done|].
  eapply (run_ext (λ _, i ← import_decl; mret (if i.1 : bool then mkFile sy pk im (pub ++ [i.2]) [] [] [] [] else mkFile sy pk (im ++ [i.2]) pub [] [] [] []))); [reflexivity|].
  eapply (run_bind_eq _ _ _ (false, i)); [|by apply run_ret]. unfold import_decl. eapply run_bind_eq; [by apply run_peek_str|]. eapply run_bind_eq; [by apply run_peek_str|]. cbn [orb]. cbn beta iota.
  eapply run_bind_eq; [by apply (run_ret ())|]. eapply run_bind_eq; [by apply run_str|]. eapply run_bind_eq; [by apply run_sym|]. apply run_finish. by apply run_ret.
Qed.
Lemma run_public i r : str_ok i → run (λ n, file_step n (mkFile sy pk im pub [] [] [] [])) (public_str i +:+ r) (λ f, f = mkFile sy pk im (pub ++ [i]) [] [] [] []) r.
Proof.
  intros Hi. apply run_file_step. unfold public_str. rewrite !str_app_assoc. eapply run_bind_eq; [eapply (run_kw "import"); [done|reflexivity|done]|]. apply run_blank; [done|].
  eapply (run_ext (λ _, i ← import_decl; mret (if i.1 : bool then mkFile sy pk im (pub ++ [i.2]) [] [] [] [] else mkFile sy pk (im ++ [i.2]) pub [] [] [] []))); [reflexivity|].
  eapply (run_bind_eq _ _ _ (true, i)); [|by apply run_ret]. unfold import_decl. match goal with |- run _ ?t _ _ => change t with ("public" +:+ String " " (quoted i +:+ ";" +:+ LF +:+ r)) end.
  eapply run_bind_eq; [apply (run_is_ident _ _ true); [by apply keyword_ok|done..]|]. eapply run_bind_eq; [apply (run_is_ident _ _ false); [by apply keyword_ok|done..]|]. cbn [orb]. cbn beta iota.
  eapply run_bind_eq; [apply run_skip_word; [by apply keyword_ok|done]|]. apply run_blank; [done|]. eapply run_bind_eq; [by apply run_str|]. eapply run_bind_eq; [by apply run_sym|]. apply run_finish. by apply run_ret.
Qed.
End decls.

Section sections.
Context (sy pk : option string) (im pub : list string) (opts : list Opt).
Lemma run_file_options r : Forall opt_ok opts → ∀ Q, run (whole (mkFile sy pk im pub opts [] [] [])) r Q "" → run (whole (mkFile sy pk im pub [] [] [] [])) (top_section opt_decl opts +:+ r) Q "".
Proof.
  intros Hok Q Hr. apply (run_top_section opt_decl (λ don st, st = mkFile sy pk im pub don [] [] [])); [|done|by intros st ->]. eapply Forall_impl; [exact Hok|]. intros x Hx. split; [apply opt_decl_word|].
  intros don st t ->. apply run_file_step. apply (run_opt_decl (file_rest (mkFile sy pk im pub don [] [] [])) (λ o, mkFile sy pk im pub (don ++ [o]) [] [] [])); [done|]. reflexivity.
Qed.
Lemma run_file_types ts r Q : Forall type_reads ts → run (whole (mkFile sy pk im pub opts (arr_type <$> ts) [] [])) r Q "" →
  run (whole (mkFile sy pk im pub opts [] [] [])) (top_section type_str ts +:+ r) Q "".
Proof.
  intros Hok Hr. set (st_of := λ ts', mkFile sy pk im pub opts ts' [] []). apply (run_top_section type_str (λ don st, st = st_of (arr_type <$> don))); [|done|by intros st ->].
  eapply Forall_impl; [exact Hok|]. intros x Hx. unfold top_reads. rewrite type_str_tail. split; [apply element_word; by destruct x|]. intros don st t ->. apply run_file_step. rewrite fmap_app. destruct x as [m|e].
  - eapply run_mono; [eapply (run_element (file_rest (st_of (arr_type <$> don))) message (λ m, st_of ((arr_type <$> don) ++ [TMessage m])) _ "message" (message_tail m)); [done|reflexivity|apply Hx]|]. by intros ? (? & -> & ->).
  - eapply run_mono; [eapply (run_element (file_rest (st_of (arr_type <$> don))) enumeration (λ e, st_of ((arr_type <$> don) ++ [TEnum e])) _ "enum" (enum_tail e)); [done|reflexivity|by apply run_enum]|]. by intros ? (? & -> & ->).
Qed.
Lemma run_file_extends ts xs r Q : Forall (extend_ok so) xs → run (whole (mkFile sy pk im pub opts ts (arr_extend <$> xs) [])) r Q "" →
  run (whole (mkFile sy pk im pub opts ts [] [])) (top_section extend_str xs +:+ r) Q "".
Proof.
  intros Hok Hr. set (st_of := λ xs, mkFile sy pk im pub opts ts xs []). apply (run_top_section extend_str (λ don st, st = st_of (arr_extend <$> don))); [|done|by intros st ->].
  eapply Forall_impl; [exact Hok|]. intros x Hx. split; [by apply (element_word "extend" (extend_tail x))|]. intros don st t ->. apply run_file_step. rewrite fmap_app.
  eapply run_mono; [eapply (run_element (file_rest (st_of (arr_extend <$> don))) extend (λ x, st_of ((arr_extend <$> don) ++ [x])) _ "extend" (extend_tail x)); [done|reflexivity|by apply (run_extend so)]|].
  by intros ? (? & -> & ->).
Qed.
Lemma run_file_services ts xs ss r Q : Forall service_ok ss → run (whole (mkFile sy pk im pub opts ts xs ss)) r Q "" → run (whole (mkFile sy pk im pub opts ts xs [])) (top_section service_str ss +:+ r) Q "".
Proof.
  intros Hok Hr. set (st_of := mkFile sy pk im pub opts ts xs). apply (run_top_section service_str (λ don st, st = st_of don)); [|done|by intros st ->].
  eapply Forall_impl; [exact Hok|]. intros x Hx. split; [by apply (element_word "service" (service_tail x))|]. intros don st t ->. apply run_file_step.
  eapply run_mono; [eapply (run_element (file_rest (st_of don)) service (λ s, st_of (don ++ [s])) _ "service" (service_tail x)); [done|reflexivity|by apply run_service]|].
  by intros ? (? & -> & ->).
Qed.
Lemma run_file_imports r Q : Forall str_ok im → Forall str_ok pub → run (whole (mkFile sy pk im pub [] [] [] [])) r Q "" →
  run (whole (mkFile sy pk [] [] [] [] [] [])) (cat (import_str <$> im) +:+ cat (public_str <$> pub) +:+ r) Q "".
Proof.
  intros Him Hpub Hr. apply (run_top import_str (λ don st, st = mkFile sy pk don [] [] [] [] [])) with (don := []); [|done|].
  { eapply Forall_impl; [exact Him|]. intros x Hx. split; [by eapply (kw_word "import")|]. intros don st t ->. by apply run_import. }
  intros st ->. apply (run_top public_str (λ don st, st = mkFile sy pk im don [] [] [] [])) with (don := []); [|done|by intros st ->].
  eapply Forall_impl; [exact Hpub|]. intros x Hx. split; [by eapply (kw_word "import")|]. intros don st t ->. by apply run_public.
Qed.
End sections.

Lemma top_section_ext {X Y} (f : X → string) (g : Y → string) xs ys : f <$> xs = g <$> ys → top_section f xs = top_section g ys.
Proof. intros E. destruct xs, ys; try discriminate; [done|]. unfold top_section. by rewrite E. Qed.

(** The file after its syntax and its package. *)
Definition file_body (f : File) : string :=
  match fl_imports f, fl_public_imports f with [], [] => "" | _, _ => LF end +:+ cat (import_str <$> fl_imports f) +:+ cat (public_str <$> fl_public_imports f) +:+
  top_section opt_decl (fl_options f) +:+ top_section type_str (ordered is_message (fl_types f)) +:+ top_section extend_str (fl_extends f) +:+ top_section service_str (fl_services f).
Lemma file_str_body f : file_str f = from_option syntax_str "" (fl_syntax f) +:+ from_option package_str "" (fl_package f) +:+ file_body f.
Proof. unfold file_str, file_body. destruct (fl_syntax f), (fl_package f), (fl_imports f), (fl_public_imports f); cbn [from_option]; unfold syntax_str, package_str; by rewrite ?str_app_assoc. Qed.
(** The form in which a file is read. *)
Definition arr_file (f : File) : File :=
  mkFile (fl_syntax f) (fl_package f) (fl_imports f) (fl_public_imports f) (fl_options f) (arr_type <$> ordered is_message (fl_types f)) (arr_extend <$> fl_extends f) (fl_services f).
Lemma run_file_body f : file_ok f → run (whole (mkFile (fl_syntax f) (fl_package f) [] [] [] [] [] [])) (file_body f) (λ f', f' = arr_file f) "".
Proof.
  destruct f as [sy pk im pub opts ts xs ss]. intros (_ & _ & Him & Hpub & Hopts & Hts & Hxs & Hss). unfold file_body. cbn [fl_syntax fl_package fl_imports fl_public_imports fl_options fl_types fl_extends fl_services] in *.
  assert (∀ Q s, run (whole (mkFile sy pk [] [] [] [] [] [])) s Q "" → run (whole (mkFile sy pk [] [] [] [] [] [])) ((match im, pub with [], [] => "" | _, _ => LF end) +:+ s) Q "") as Hlf.
  { intros Q s H. destruct im, pub; [done|by apply run_blank..]. }
  apply Hlf. apply run_file_imports; [done..|]. apply run_file_options; [done|]. apply run_file_types; [apply Forall_ordered; eapply Forall_impl; [exact Hts|]; intros; by apply type_reads_ok|].
  apply run_file_extends; [done|]. rewrite <-(str_app_nil_r (top_section service_str ss)). apply run_file_services; [done|]. eapply run_mono; [apply run_whole_end|]. by intros ? ->.
Qed.
(** What a file prints is read as the file it arranges. *)
Lemma file_reads f : file_ok f → run (whole empty_file) (file_str f) (λ f', f' = arr_file f) "".
Proof.
  intros Hf. pose proof Hf as (Hsy & Hpk & _). rewrite (file_str_body f). pose proof (run_file_body f Hf) as Hbody.
  assert (run (whole (mkFile (fl_syntax f) None [] [] [] [] [] [])) (from_option package_str "" (fl_package f) +:+ file_body f) (λ f', f' = arr_file f) "") as Hpkg.
  { destruct (fl_package f) as [p|] eqn:Ep; [|done]. eapply run_whole_step; [apply starts_word_app; by eapply (kw_word "package")|by apply run_package, Hpk|]. by intros ? ->. }
  destruct (fl_syntax f) as [s|] eqn:Es; [|done]. eapply run_whole_step; [apply starts_word_app; by eapply (kw_word "syntax")|by apply run_syntax, Hsy|]. by intros ? ->.
Qed.
Lemma wire_file_str f : file_ok f → wire_file (file_str f) = Some (arr_file f).
Proof.
  intros (f' & -> & H)%file_reads. destruct (H [] sp_nil) as (ts & Hts & _ & Hn). unfold wire_file. rewrite (spelled_tokens _ _ Hts). cbn [mbind option_bind].
  unfold parse_tokens. specialize (Hn (S (length ts)) ltac:(lia)). unfold whole in Hn. by rewrite Hn.
Qed.
Lemma arr_file_str f : so = false → file_ok f → file_str (arr_file f) = file_str f.
Proof.
  intros Hso (_ & _ & _ & _ & _ & Hts & Hxs & _). unfold file_str, arr_file. cbn [fl_syntax fl_package fl_imports fl_public_imports fl_options fl_types fl_extends fl_services].
  rewrite (top_section_ext type_str type_str _ (ordered is_message (fl_types f))) by (apply arr_types_str; eapply Forall_impl; [exact Hts|]; intros; by apply arr_type_str).
  by rewrite (top_section_ext extend_str extend_str (arr_extend <$> fl_extends f) (fl_extends f)) by (apply (fmap_arr _ _ (extend_ok so)); [intros; by apply (arr_extend_str so)|done]).
Qed.
End files.
