(* ===== verification/ProtoCanonical.v ===== *)
(** The canonical text of a [.proto] source is its own canonical text, and
    what the sources that fall outside that look like. *)
From S2P Require Import Prelude SortedVec RustStr ProtoLex ProtoWire ProtoLogic ProtoSpell ProtoRead ProtoElements.

Open Scope string_scope.
Open Scope nat_scope.
Open Scope list_scope.

(** * What the parser of [.proto] sources builds can be printed and read again,
    when its tokens can be written. *)

Section made.
Context {tables : UnicodeTables}.

(** * Tokens that can be written, and what is read from them *)

(** A minus does not stand before a word that begins with a dot: the two would
    be read as a number. *)
Fixpoint toks_ok (ts : list Tok) : Prop :=
  match ts with
  | [] => True
  | t :: ts => tok_ok t ∧ (t = TSym "-" → match ts with TIdent x :: _ => starts_with "." x = false | _ => True end) ∧ toks_ok ts
  end.
Lemma toks_ok_tail ts : toks_ok ts → toks_ok (tail ts).
Proof. destruct ts; [done|]. by intros (_ & _ & H). Qed.
Definition yields {A} (p : P A) (G : A → Prop) : Prop := ∀ ts, toks_ok ts → wp True p (λ a ts', toks_ok ts' ∧ G a) ts.
Lemma wp_yields {A} (p : P A) G (Q : A → list Tok → Prop) ts : yields p G → toks_ok ts → (∀ a ts', toks_ok ts' → G a → Q a ts') → wp True p Q ts.
Proof. intros H Hts HQ. eapply wp_mono; [by apply H|]. intros a ts' [? ?]. by apply HQ. Qed.
Lemma made_ret {A} (a : A) (G : A → Prop) : G a → yields (mret a) G.
Proof. intros H ts Hts. by apply wp_ret. Qed.
Lemma yields_bad {A} (G : A → Prop) : yields bad G.
Proof. intros ts Hts. apply wp_bad. Qed.
Lemma yields_bind {A B} (p : P A) (f : A → P B) G G' : yields p G → (∀ a, G a → yields (f a) G') → yields (p ≫= f) G'.
Proof. intros Hp Hf ts Hts. apply wp_bind. eapply wp_yields; [exact Hp|done|]. intros a ts' Hts' Ha. by apply Hf. Qed.
Lemma yields_mono {A} (p : P A) (G G' : A → Prop) : yields p G → (∀ a, G a → G' a) → yields p G'.
Proof. intros H HG ts Hts. eapply wp_yields; [exact H|done|]. auto. Qed.

Lemma next_yields : yields next tok_ok.
Proof. intros ts Hts. apply wp_next. intros t ts' ->. by destruct Hts as (? & _ & ?). Qed.
Lemma sym_yields c : yields (sym c) (λ _, True).
Proof. intros ts Hts. apply wp_sym. intros ts' ->. by apply toks_ok_tail in Hts. Qed.
Lemma ident_yields : yields ident name_ok.
Proof. intros ts Hts. apply wp_ident. intros x ts' ->. by destruct Hts as (? & _ & ?). Qed.
Lemma str_yields : yields str str_ok.
Proof. intros ts Hts. apply wp_str. intros x ts' ->. by destruct Hts as (? & _ & ?). Qed.
Lemma num_yields : yields num num_ok.
Proof. intros ts Hts. apply wp_num. intros x ts' ->. by destruct Hts as (? & _ & ?). Qed.
Lemma skip_yields : yields skip (λ _, True).
Proof. intros ts Hts. apply wp_skip. split; [by apply toks_ok_tail|done]. Qed.
Lemma is_sym_yields c : yields (is_sym c) (λ _, True).
Proof. intros ts Hts. done. Qed.
Lemma is_ident_yields x : yields (is_ident x) (λ _, True).
Proof. intros ts Hts. done. Qed.

(** ** Loops *)
Section loops.
Context {T : Type} (step : T → P T) (I : T → Prop) (Hstep : ∀ s, I s → yields (step s) I).
Lemma until_yields c n : ∀ s, I s → yields (until c n step s) I.
Proof.
  induction n as [|n IH]; intros s Hs ts Hts; unfold wp; cbn [until]; (destruct (at_sym c ts); [split; [by apply toks_ok_tail|done]|]); [done|].
  change (wp True (s ← step s; until c n step s) (λ a ts', toks_ok ts' ∧ I a) ts). apply wp_bind. eapply wp_yields; [by apply Hstep|done|]. intros s' ts' Hts' Hs'. by apply IH.
Qed.
Lemma skip_semis_ok ts : toks_ok ts → toks_ok (skip_semis ts).
Proof. induction ts as [|[] ts IH]; try done. cbn [skip_semis]. destruct (decide _); [|done]. intros (_ & _ & H). by apply IH. Qed.
Lemma braces_yields n : ∀ s, I s → yields (braces n step s) I.
Proof.
  induction n as [|n IH]; intros s Hs ts Hts; unfold wp; cbn [braces]; apply skip_semis_ok in Hts; (destruct (at_sym "}" (skip_semis ts)); [split; [by apply toks_ok_tail|done]|]); [done|].
  change (wp True (s ← step s; braces n step s) (λ a ts', toks_ok ts' ∧ I a) (skip_semis ts)). apply wp_bind. eapply wp_yields; [by apply Hstep|done|]. intros s' ts' Hts' Hs'. by apply IH.
Qed.
(** At least one step was taken. *)
Lemma commas_yields (I' : T → Prop) n : (∀ s, I s → yields (step s) I') → (∀ s, I' s → I s) → ∀ s, I s → yields (commas n step s) I'.
Proof.
  intros Hstep' HI. induction n as [|n IH]; intros s Hs; [intros ts Hts; done|]. cbn [commas]. eapply yields_bind; [by apply Hstep'|]. intros s' Hs'. eapply yields_bind; [apply is_sym_yields|]. intros [] _; [|by apply made_ret].
  eapply yields_bind; [apply skip_yields|]. intros _ _. by apply IH, HI.
Qed.
End loops.

Create HintDb yields discriminated.
#[local] Hint Resolve next_yields sym_yields ident_yields str_yields num_yields skip_yields is_sym_yields is_ident_yields : yields.
Ltac yields_step :=
  first [ simple apply yields_bad | match goal with |- yields (mbind _ _) _ => eapply yields_bind; [solve [eauto with yields]|intros ? ?] end
        | match goal with |- yields (if ?x then _ else _) _ => destruct x end ].
Ltac yields_tac := repeat (cbn beta iota; yields_step); try (simple apply made_ret).

Lemma eat_yields c : yields (eat c) (λ _, True).
Proof. unfold eat. yields_tac; [apply skip_yields|done]. Qed.
Lemma eat_separator_yields : yields eat_separator (λ _, True).
Proof. unfold eat_separator. yields_tac; [apply skip_yields|done]. Qed.
Lemma entry_key_yields : yields entry_key key_ok.
Proof. unfold entry_key. yields_tac; [right; eauto|]. eapply yields_mono; [apply ident_yields|]. by left. Qed.
#[local] Hint Resolve eat_yields eat_separator_yields entry_key_yields : yields.

(** ** Names of options *)
Lemma name_dotted x t : name_ok x → name_ok t → starts_with "." t = true → name_ok (x +:+ t).
Proof.
  intros (ch & cs & -> & [H1 H2]%Forall_cons & Hw & Hs & Hcs) (ch' & cs' & -> & [H1' H2']%Forall_cons & _ & _ & Hcs') Hdot. exists ch, (cs ++ ch' :: cs'). split_and!.
  - rewrite cat_app. cbn [cat]. by rewrite str_app_assoc.
  - constructor; [done|]. apply Forall_app. split; [done|]. by constructor.
  - done.
  - by apply starts_ident_app.
  - apply Forall_app. split; [done|]. constructor; [|done]. apply starts_with_spec in Hdot as [r E]. pose proof H1' as [Hne _]. apply one_char_cases in H1' as [[c ->]|[Hwide _]].
    + cbn in E. injection E as -> _. by vm_compute.
    + destruct ch' as [|c ch']; [done|]. cbn in E. injection E as -> _. done.
Qed.
Lemma dotted_yields name (G : string → Prop) : G name → (∀ t, name_ok t → starts_with "." t = true → G (name +:+ t)) → yields (dotted_tail name) G.
Proof.
  intros H1 H2 ts Hts. unfold wp, dotted_tail, at_dotted. destruct ts as [|[x| | |] ts]; try done. destruct (starts_with "." x) eqn:E; [|done]. destruct Hts as (Hx & _ & Hts). split; [done|]. by apply H2.
Qed.
Lemma option_name_yields : yields option_name opt_name_ok.
Proof.
  unfold option_name. eapply yields_bind; [apply is_sym_yields|]. intros [] _.
  - eapply (yields_bind _ _ (λ s, ∃ x, name_ok x ∧ s = "(" +:+ x +:+ ")")); [yields_tac; eauto|]. intros s (x & Hx & ->). apply dotted_yields.
    + right. exists x, "". split_and!; [done..|by left].
    + intros t Ht Hd. right. exists x, t. split_and!; [cbn; by rewrite !str_app_assoc|done|by right].
  - eapply yields_bind; [apply ident_yields|]. intros x Hx. apply dotted_yields; [by left|]. intros t Ht Hd. left. by apply name_dotted.
Qed.
#[local] Hint Resolve option_name_yields : yields.

(** ** Values *)
Lemma minus_num s : num_ok s → num_ok (String "-" s) ∨ starts_with "-" s = true.
Proof.
  intros (ch & cs & -> & Hone & Hs & Hcs). pose proof Hs as (c & -> & [Hc|[-> _]])%starts_num_ascii; [left|right; by apply starts_with_app].
  exists (str1 "-"), (str1 c :: cs). split_and!; [done|constructor; [by apply ascii_char; vm_compute; lia|done]| |].
  - unfold starts_num. cbn [ascii_is str1]. by rewrite Hc.
  - cbn [num_chars]. split; [|done]. unfold num_char. cbn [ascii_is str1]. unfold is_ascii_alphanumeric. rewrite Hc. by destruct (is_ascii_upper c), (is_ascii_lower c).
Qed.
Lemma minus_num_raw s : num_ok s → raw_ok (String "-" s).
Proof. intros Hs. destruct (minus_num s Hs) as [H|H]; [right; by left|]. right. right. exists s. auto. Qed.
Definition entries_ok (es : list (string * WValue)) : Prop := NoDup es.*1 ∧ Forall (λ e, key_ok e.1 ∧ value_ok e.2) es.
Lemma add_entry_keys k v es : (add_entry k v es).*1 = if decide (k ∈ es.*1) then es.*1 else es.*1 ++ [k].
Proof.
  induction es as [|[k' old] es IH]; [done|]. cbn [add_entry fmap list_fmap]. destruct (decide (k' = k)) as [->|Hne].
  - rewrite decide_True by (cbn; set_solver). done.
  - cbn [fmap list_fmap fst]. rewrite IH. destruct (decide (k ∈ es.*1)); [rewrite decide_True by set_solver|rewrite decide_False by set_solver]; done.
Qed.
Lemma add_entry_ok k v es : key_ok k → value_ok v → entries_ok es → entries_ok (add_entry k v es).
Proof.
  intros Hk Hv [Hnd Hes]. split.
  - rewrite add_entry_keys. destruct (decide _); [done|]. apply NoDup_app. split_and!; [done| |apply NoDup_singleton]. set_solver.
  - clear Hnd. induction Hes as [|[k' old] es [Hk' Hold] Hes IH]; cbn; [by constructor|]. destruct (decide (k' = k)); constructor; try done. split; [done|]. cbn [snd] in *.
    destruct old as [| | |l]; try (by cbn). apply value_ok_list. apply value_ok_list in Hold. apply Forall_app. split; [done|]. by constructor.
Qed.
Lemma aggregate_yields value es : yields value value_ok → entries_ok es → yields (aggregate_entry value es) entries_ok.
Proof. intros Hv Hes. unfold aggregate_entry. yields_tac. by apply add_entry_ok. Qed.
Lemma list_item_yields value vs : yields value value_ok → Forall value_ok vs → yields (list_item value vs) (Forall value_ok).
Proof. intros Hv Hvs. unfold list_item. yields_tac. apply Forall_app. split; [done|]. by constructor. Qed.
Lemma value_yields n : yields (value n) value_ok.
Proof.
  induction n as [|n IH]; intros ts Hts; [done|]. cbn [value]. apply wp_bind, wp_next. intros t ts' ->. destruct Hts as (Ht & Hadj & Hts). destruct t as [x|x|x|c].
  - apply wp_ret. split; [done|by left].
  - apply wp_ret. by split.
  - apply wp_ret. split; [done|right; by left].
  - destruct (decide (c = "-"%char)) as [->|_].
    { specialize (Hadj eq_refl). apply wp_bind, wp_next. intros t ts'' ->. destruct Hts as (Ht' & _ & Hts). destruct t as [x| |x|]; try apply wp_bad; apply wp_ret; (split; [done|]); [|by apply minus_num_raw].
      right. right. exists x. auto. }
    destruct (decide (c = "{"%char)) as [->|_].
    { revert ts' Hadj Hts. assert (yields (entries ← until "}" n (aggregate_entry (value n)) []; mret (WMap entries)) value_ok) as H; [|intros ts' _ Hts; by apply H].
      eapply yields_bind; [apply (until_yields _ entries_ok); [intros es Hes; by apply aggregate_yields|split; constructor]|]. intros es Hes. apply made_ret. by apply value_ok_map. }
    destruct (decide (c = "["%char)) as [->|_]; [|apply wp_bad].
    revert ts' Hadj Hts. assert (yields (items ← until "]" n (list_item (value n)) []; mret (WList items)) value_ok) as H; [|intros ts' _ Hts; by apply H].
    eapply yields_bind; [apply (until_yields _ (Forall value_ok)); [intros vs Hvs; by apply list_item_yields|constructor]|]. intros vs Hvs. apply made_ret. by apply value_ok_list.
Qed.
#[local] Hint Resolve value_yields : yields.

(** * Elements *)
Lemma named_value_yields n : yields (named_value n) opt_ok.
Proof. unfold named_value. yields_tac. by split. Qed.
#[local] Hint Resolve named_value_yields : yields.
Lemma option_decl_yields n : yields (option_decl n) opt_ok.
Proof. unfold option_decl. by yields_tac. Qed.
Lemma field_options_yields n : yields (field_options n) (Forall opt_ok).
Proof.
  unfold field_options. eapply yields_bind; [apply is_sym_yields|]. intros [] _; [|by apply made_ret]. eapply yields_bind; [apply skip_yields|]. intros _ _.
  eapply yields_bind; [apply (commas_yields _ (Forall opt_ok) (Forall opt_ok)); [|done|constructor]|]; [intros os Hos; yields_tac; apply Forall_app; split; [done|by constructor]|]. intros os Hos. by yields_tac.
Qed.
#[local] Hint Resolve option_decl_yields field_options_yields : yields.
Lemma map_type_yields ty : name_ok ty → yields (map_type ty) (λ ty', ty' ≠ "group" → ∃ rest, type_split ty' ty rest).
Proof.
  intros Hty. unfold map_type. eapply yields_bind; [apply is_sym_yields|]. intros b _. destruct (bool_decide (ty = "map") && b) eqn:E.
  - apply andb_true_iff in E as [->%bool_decide_eq_true _]. yields_tac. intros _. eexists. right. eauto 10.
  - apply made_ret. intros Hg. exists "". by left.
Qed.
Lemma field_yields n first in_oneof : name_ok first → yields (field n first in_oneof) (λ f, ∃ rest, field_split false in_oneof f first rest).
Proof.
  intros Hfirst. unfold field. destruct (negb in_oneof && is_label first) eqn:E.
  - apply andb_true_iff in E as [E1%negb_true_iff E2]. eapply (yields_bind _ _ (λ p, ∃ w, p = (Some first, w) ∧ name_ok w)); [yields_tac; eauto|]. intros ? (w & -> & Hw).
    eapply yields_bind; [by apply map_type_yields|]. intros ty Hty. destruct (decide (ty = "group")) as [|Hg]; [apply yields_bad|]. destruct (Hty Hg) as [rest Hrest]. yields_tac.
    exists (String " " (w +:+ rest)). split_and!; [done..|]. cbn. split_and!; [done..|]. eauto.
  - eapply (yields_bind _ _ (λ p, p = (None, first))); [by apply made_ret|]. intros ? ->. eapply yields_bind; [by apply map_type_yields|]. intros ty Hty.
    destruct (decide (ty = "group")) as [|Hg]; [apply yields_bad|]. destruct (Hty Hg) as [rest Hrest]. yields_tac. exists rest. split_and!; [done..|]. cbn. split; [done|]. intros ->. done.
Qed.

Lemma range_item_yields parts : Forall part_ok parts → yields (range_item parts) (λ ps, ps ≠ [] ∧ Forall part_ok ps).
Proof.
  intros Hps. assert (∀ p, part_ok p → parts ++ [p] ≠ [] ∧ Forall part_ok (parts ++ [p])) as Hsnoc. { intros p Hp. split; [by destruct parts|]. apply Forall_app. split; [done|by constructor]. }
  unfold range_item. eapply yields_bind; [apply next_yields|]. intros [x|x|a|c] Ht; [..|apply yields_bad].
  - apply made_ret, Hsnoc. right. by left.
  - apply made_ret, Hsnoc. left. eauto.
  - eapply yields_bind; [apply is_ident_yields|]. intros [] _; [|apply made_ret, Hsnoc; right; right; by left]. eapply yields_bind; [apply skip_yields|]. intros _ _.
    eapply yields_bind; [apply next_yields|]. intros [b| |b|] Hb; try apply yields_bad; apply made_ret, Hsnoc; right; right; right; exists a, b; auto.
Qed.
Lemma ranges_yields n kw : yields (ranges n kw) (ranges_ok kw).
Proof.
  unfold ranges. eapply yields_bind; [apply (commas_yields _ (Forall part_ok) (λ ps, ps ≠ [] ∧ Forall part_ok ps)); [intros; by apply range_item_yields|by intros ? []|constructor]|]. intros parts [Hne Hps].
  eapply yields_bind; [apply is_sym_yields|]. intros b _. eapply (yields_bind _ _ (λ _, True)); [by destruct b; yields_tac|]. intros _ _. yields_tac. by exists parts.
Qed.
#[local] Hint Resolve ranges_yields : yields.
Lemma Forall_snoc {X} (R : X → Prop) l x : Forall R l → R x → Forall R (l ++ [x]).
Proof. intros. apply Forall_app. split; [done|by constructor]. Qed.
#[local] Hint Resolve Forall_snoc : core.

Lemma oneof_yields n : yields (oneof n) (oneof_ok false).
Proof.
  unfold oneof. yields_tac. apply (braces_yields _ (oneof_ok false)); [|split_and!; [done|constructor..]]. intros o (H1 & H2 & H3). unfold oneof_step. eapply yields_bind; [apply ident_yields|]. intros kw Hkw.
  destruct (decide (kw = "option")) as [|Hne]; [yields_tac; by split_and!; cbn; auto|]. eapply yields_bind; [by apply field_yields|]. intros f [rest Hf]. apply made_ret. split_and!; cbn; [done..|]. apply Forall_snoc; [done|]. by exists kw, rest.
Qed.
Lemma constant_tag_yields : yields constant_tag tag_ok.
Proof.
  unfold constant_tag. eapply yields_bind; [apply next_yields|]. intros [x|x|x|c] Ht; try apply yields_bad; [apply made_ret; by left|]. destruct (decide (c = "-"%char)); [|apply yields_bad].
  eapply yields_bind; [apply num_yields|]. intros x Hx. apply made_ret. destruct (minus_num x Hx) as [H|H]; [by left|]. right. eauto.
Qed.
#[local] Hint Resolve oneof_yields constant_tag_yields : yields.
Lemma enumeration_yields n : yields (enumeration n) enum_ok.
Proof.
  unfold enumeration. yields_tac. apply (braces_yields _ enum_ok); [|split_and!; [done|constructor..]]. intros e (H1 & H2 & H3 & H4). unfold enum_step. eapply yields_bind; [apply ident_yields|]. intros kw Hkw.
  destruct (decide (kw = "option")); [yields_tac; by split_and!; cbn; auto|]. destruct (decide (kw = "reserved")); [yields_tac; by split_and!; cbn; auto|]. yields_tac. split_and!; cbn; [done..|]. by apply Forall_snoc; [|split_and!].
Qed.
Lemma extend_yields n : yields (extend n) (extend_ok false).
Proof.
  unfold extend. yields_tac. apply (braces_yields _ (extend_ok false)); [|split_and!; [done|constructor..]]. intros x (H1 & H2). unfold extend_step. eapply yields_bind; [apply ident_yields|]. intros kw Hkw.
  eapply yields_bind; [by apply field_yields|]. intros f [rest Hf]. apply made_ret. split_and!; cbn; [done..|]. apply Forall_snoc; [done|]. by exists kw, rest.
Qed.
#[local] Hint Resolve enumeration_yields extend_yields : yields.
Lemma message_step_yields n message m : yields message (message_ok false) → (message_ok false) m → yields (message_step n message m) (message_ok false).
Proof.
  intros Hmessage Hm. destruct m as [name res opts fields oneofs exts nested extends]. apply message_ok_eq in Hm as (H1 & H2 & H3 & H4 & H5 & H6 & H7 & H8).
  unfold message_step. eapply yields_bind; [apply ident_yields|]. intros kw Hkw. destruct (decide (kw = "option")); [yields_tac; apply message_ok_eq; by split_and!; auto|]. destruct (decide (kw = "reserved")); [yields_tac; apply message_ok_eq; by split_and!; auto|].
  destruct (decide (kw = "extensions")); [yields_tac; apply message_ok_eq; by split_and!; auto|].
  destruct (decide (kw = "message")). { eapply yields_bind; [exact Hmessage|]. intros m' Hm'. apply made_ret. apply message_ok_eq. split_and!; try done. by apply Forall_snoc. }
  destruct (decide (kw = "enum")); [yields_tac; apply message_ok_eq; by split_and!; auto|]. destruct (decide (kw = "extend")); [yields_tac; apply message_ok_eq; by split_and!; auto|]. destruct (decide (kw = "oneof")); [yields_tac; apply message_ok_eq; by split_and!; auto|].
  eapply yields_bind; [by apply field_yields|]. intros f [rest Hf]. apply made_ret. apply message_ok_eq. split_and!; try done. apply Forall_snoc; [done|]. exists kw, rest. split; [done|]. unfold MESSAGE_WORDS. set_solver.
Qed.
Lemma message_yields n : yields (message n) (message_ok false).
Proof.
  induction n as [|n IH]; [intros ts Hts; done|]. cbn [message]. yields_tac. apply (braces_yields _ (message_ok false)); [|split_and!; [done|constructor..]]. intros m Hm. by apply message_step_yields.
Qed.

Lemma rpc_type_yields : yields rpc_type (λ p, rpc_type_ok p.1 p.2).
Proof.
  unfold rpc_type. eapply yields_bind; [apply sym_yields|]. intros _ _ ts Hts. apply wp_bind. unfold is_ident. unfold wp at 1. destruct (at_ident "stream" ts) eqn:E.
  - assert (yields (_ ← skip; ty ← ident; _ ← sym ")"; mret (true, ty)) (λ p, rpc_type_ok p.1 p.2)) as H; [|by apply H]. yields_tac. by split.
  - apply wp_bind, wp_ret, wp_bind, wp_ident. intros ty ts' ->. destruct Hts as (Hty & _ & Hts). cbn in E. apply bool_decide_eq_false in E.
    assert (yields (_ ← sym ")"; mret (false, ty)) (λ p, rpc_type_ok p.1 p.2)) as H; [|by apply H]. yields_tac. by split.
Qed.
#[local] Hint Resolve rpc_type_yields : yields.
Lemma rpc_yields n : yields (rpc n) rpc_ok.
Proof.
  unfold rpc. eapply yields_bind; [apply ident_yields|]. intros name Hname. eapply yields_bind; [apply rpc_type_yields|]. intros req Hreq. eapply yields_bind; [apply ident_yields|]. intros kw _.
  destruct (decide (kw = "returns")); [|apply yields_bad]. eapply yields_bind; [apply rpc_type_yields|]. intros resp Hresp. eapply yields_bind; [apply is_sym_yields|]. intros b _.
  eapply (yields_bind _ _ (Forall opt_ok)); [|intros opts Hopts; by apply made_ret]. destruct b; [|by yields_tac]. eapply yields_bind; [apply skip_yields|]. intros _ _.
  apply (braces_yields _ (Forall opt_ok)); [|constructor]. intros os Hos. unfold rpc_option. yields_tac. by apply Forall_snoc.
Qed.
#[local] Hint Resolve rpc_yields message_yields : yields.
Lemma service_yields n : yields (service n) service_ok.
Proof.
  unfold service. yields_tac. apply (braces_yields _ service_ok); [|split_and!; [done|constructor..]]. intros s (H1 & H2 & H3). unfold service_step. eapply yields_bind; [apply ident_yields|]. intros kw Hkw.
  destruct (decide (kw = "option")); [yields_tac; by split_and!; cbn; auto|]. destruct (decide (kw = "rpc")); [|apply yields_bad]. yields_tac. by split_and!; cbn; auto.
Qed.
Lemma import_yields : yields import_decl (λ i, str_ok i.2).
Proof. unfold import_decl. eapply yields_bind; [apply is_ident_yields|]. intros b _. eapply yields_bind; [apply is_ident_yields|]. intros b' _. eapply (yields_bind _ _ (λ _, True)); [destruct (b || b'); [apply skip_yields|by apply made_ret]|]. intros _ _. by yields_tac. Qed.
#[local] Hint Resolve service_yields import_yields : yields.
Lemma file_step_yields n f : (file_ok false) f → yields (file_step n f) (file_ok false).
Proof.
  destruct f as [sy pk im pub opts ts xs ss]. intros (H1 & H2 & H3 & H4 & H5 & H6 & H7 & H8). cbn in H1, H2, H3, H4, H5, H6, H7, H8. unfold file_step. eapply yields_bind; [apply ident_yields|]. intros kw Hkw.
  destruct (_ || _); [yields_tac; split_and!; cbn; auto; by intros ? [= <-]|]. destruct (decide (kw = "package")); [yields_tac; split_and!; cbn; auto; by intros ? [= <-]|].
  destruct (decide (kw = "import")); [eapply yields_bind; [apply import_yields|]; intros [[] i] Hi; apply made_ret; split_and!; cbn in *; auto|].
  destruct (decide (kw = "option")); [yields_tac; by split_and!; cbn; auto|].
  destruct (decide (kw = "message")). { eapply yields_bind; [apply message_yields|]. intros m' Hm'. apply made_ret. split_and!; cbn; try done. by apply Forall_snoc. }
  destruct (decide (kw = "enum")); [yields_tac; by split_and!; cbn; auto|]. destruct (decide (kw = "extend")); [yields_tac; by split_and!; cbn; auto|]. destruct (decide (kw = "service")); [yields_tac; by split_and!; cbn; auto|]. apply yields_bad.
Qed.
Lemma file_yields n : ∀ k f, (file_ok false) f → yields (file k n f) (file_ok false).
Proof.
  induction k as [|k IH]; intros f Hf [|t ts] Hts; try done. unfold wp. cbn [file]. destruct (at_sym ";" (t :: ts)); [apply IH; [done|]; by apply (toks_ok_tail (t :: ts))|].
  change (wp True (f ← file_step n f; file k n f) (λ a ts', toks_ok ts' ∧ (file_ok false) a) (t :: ts)). apply wp_bind. eapply wp_yields; [by apply file_step_yields|done|]. intros f' ts' Hts' Hf'. by apply IH.
Qed.
End made.

(** * Sources that can be written between double quotes *)

(** No double quote that is not escaped, and no escape that is cut off. *)
Fixpoint closed (cs : list string) : bool :=
  match cs with
  | [] => true
  | ch :: cs => if is_char DQUOTE ch then false else if is_char BACKSLASH ch then match cs with _ :: cs => closed cs | [] => false end else closed cs
  end.
Definition tidy_tok (t : Tok) : bool := match t with TStr s => closed (chars s) && negb (contains_char NEWLINE s) | _ => true end.
Definition joins (t : Tok) (ts : list Tok) : bool := bool_decide (t = TSym "-") && match ts with TIdent x :: _ => starts_with "." x | _ => false end.
Fixpoint tidy (ts : list Tok) : bool := match ts with [] => true | t :: ts => tidy_tok t && negb (joins t ts) && tidy ts end.

Section canonical.
Context {tables : UnicodeTables}.

Lemma closed_reads n : ∀ cs acc rest, length cs ≤ n → closed cs = true → read_string (str1 DQUOTE) (cs ++ str1 DQUOTE :: rest) acc = (acc +:+ cat cs, rest).
Proof.
  induction n as [|n IH]; intros [|ch cs] acc rest Hn; cbn in Hn; try lia; try (intros _; cbn; by rewrite str_app_nil_r).
  cbn [closed app read_string]. fold (is_char DQUOTE ch). destruct (is_char DQUOTE ch); [done|]. destruct (is_char BACKSLASH ch).
  - destruct cs as [|e cs]; [done|]. intros H. cbn [app]. rewrite IH by (done || cbn in *; lia). cbn [cat]. by rewrite !str_app_assoc.
  - intros H. rewrite IH by (done || lia). cbn [cat]. by rewrite !str_app_assoc.
Qed.
Lemma tidy_quotable cs : Forall one_char cs → tidy_tok (TStr (cat cs)) = true → quotable (cat cs).
Proof.
  intros Hone [H1 H2%negb_true_iff]%andb_true_iff. assert (chars (cat cs) = cs) as E by (rewrite <-(str_app_nil_r (cat cs)), chars_app by done; by rewrite app_nil_r). rewrite E in H1. split.
  - intros rest. rewrite E. by apply (closed_reads (length cs) cs "").
  - unfold contains_char in H2. apply bool_decide_eq_false in H2. unfold lacks. destruct (find_char NEWLINE (cat cs)); [|done]. exfalso. by apply H2.
Qed.
(** Text that can be written between double quotes. *)
Definition writable (s : string) : bool := utf8_valid s && tidy_tok (TStr s).
Lemma writable_ok s : writable s = true → tok_ok (TStr s).
Proof. intros [[H1 H2]%valid_chars Ht]%andb_true_iff. exists (chars s). split_and!; [done..|]. rewrite <-H2. apply tidy_quotable; [done|]. by rewrite H2. Qed.
Lemma tidy_ok ts : Forall tok_made ts → tidy ts = true → toks_ok ts.
Proof.
  induction 1 as [|t ts Ht _ IH]; [done|]. cbn [tidy toks_ok]. intros [[H1 H2%negb_true_iff]%andb_true_iff H3]%andb_true_iff. split_and!; [|intros ->; by destruct ts as [|[] ts]|by apply IH].
  apply tok_made_ok; [done|]. intros s ->. destruct Ht as (cs & -> & Hone). by apply tidy_quotable.
Qed.

(** * The parser always answers *)

(** The parser of [.proto] sources ends on every list of
    tokens, well formed or not: each round of each of its loops, and each of
    its recursive calls, takes a token, so that one step of fuel for each token
    and one more are enough. *)
Theorem parse_ends ts : parse_tokens ts ≠ OutOfFuel.
Proof. apply file_ends; lia. Qed.

(** * The canonical text *)

Lemma made_reads src ts f rest : utf8_valid src = true → tokenize src = Some ts → tidy ts = true → parse_tokens ts = Done f rest → file_ok false f.
Proof.
  intros Hsrc Hts Htidy Hf. assert (toks_ok ts) as Hok by (apply tidy_ok; [by eapply tokenize_made|done]).
  pose proof (file_yields (S (length ts)) (S (length ts)) empty_file) as H. specialize (H ltac:(split_and!; try done; constructor) ts Hok). unfold wp in H. unfold parse_tokens in Hf. rewrite Hf in H. by destruct H.
Qed.
(** (C27) The canonical text of a [.proto] source is
    its own canonical text: parsing what [file_str] prints gives a file that
    prints the same, whatever the file has (nested messages, oneofs, ranges,
    aggregate option values, extensions, services), so that a schema that is
    registered under its canonical form is found again. The source is UTF-8,
    its string literals can be written between double quotes, and it has no
    minus directly before a word that begins with a dot. *)
Theorem canonical_idempotent src ts t : utf8_valid src = true → tokenize src = Some ts → tidy ts = true → canonical src = Some t → canonical t = Some t.
Proof.
  intros Hsrc Hts Htidy Ht. unfold canonical, wire_file in Ht. rewrite Hts in Ht. cbn [mbind option_bind] in Ht. destruct (parse_tokens ts) as [f rest| |] eqn:Ef; try done. injection Ht as <-.
  pose proof (made_reads src ts f rest Hsrc Hts Htidy Ef) as Hf. unfold canonical. rewrite (wire_file_str false f Hf). cbn. by rewrite (arr_file_str false f).
Qed.
End canonical.

(** ** An example *)

Section examples.
#[local] Instance no_tables : UnicodeTables := {| unicode_alphabetic _ := false; unicode_numeric _ := false |}.
Definition dq (s : string) : string := quoted s.
Definition sq (s : string) : string := String SQUOTE (s +:+ str1 SQUOTE).

Definition order_proto : string :=
  "syntax=" +:+ dq "proto3" +:+ ";package acme;import " +:+ sq "a.proto" +:+ ";message Order{enum Kind{A=0;B=-1;}repeated string id=1[json_name=" +:+ dq "ID" +:+ ",(x).y={k:[1,-inf],k:2}];reserved 4 to max,7;" +:+
  "oneof o{int32 a=2;map b=3;}message Line{}}service S{rpc F(stream Order)returns(Order){option (z)=true;}}".
Definition order_tokens : list Tok := match tokenize order_proto with Some ts => ts | None => [] end.
Definition order_text : string := match canonical order_proto with Some t => t | None => "" end.
Lemma canonical_idempotent_witness : canonical order_text = Some order_text.
Proof. apply (canonical_idempotent order_proto order_tokens order_text); vm_compute; reflexivity. Defined.

(** * Sources outside of it *)

(** A literal between single quotes may contain a double quote; it is printed
    between double quotes all the same, and the text is no source any more. *)
Definition quote_proto : string := "option x = " +:+ sq ("a" +:+ str1 DQUOTE +:+ "b") +:+ ";".
Theorem single_quotes_lost :
  canonical quote_proto = Some (LF +:+ "option x = " +:+ dq "a" +:+ "b" +:+ str1 DQUOTE +:+ ";" +:+ LF) ∧
  canonical (LF +:+ "option x = " +:+ dq "a" +:+ "b" +:+ str1 DQUOTE +:+ ";" +:+ LF) = None.
Proof. split; vm_compute; reflexivity. Qed.

(** Adjacent literals are joined with their escapes as they are written, so
    that an octal escape takes the digit that follows it. *)
Definition BS : string := str1 BACKSLASH.
Theorem escapes_run_together :
  canonical ("option x = " +:+ dq (BS +:+ "1") +:+ " " +:+ dq "2" +:+ ";") = canonical ("option x = " +:+ dq (BS +:+ "12") +:+ ";") ∧
  is_Some (canonical ("option x = " +:+ dq (BS +:+ "12") +:+ ";")).
Proof. split; [vm_compute; reflexivity|]. eexists. vm_compute. reflexivity. Qed.

(** A list under a key that is there already becomes an item of its list, and
    lists do not nest in the text format. *)
Theorem repeated_list_nested :
  option_map fl_options (wire_file "option x = { k: [1] k: [2] };") = Some [mkOpt "x" (WMap [("k", WList [WRaw "1"; WList [WRaw "2"]])])].
Proof. vm_compute. reflexivity. Qed.

(** The options of an [extensions] statement are read and dropped. *)
Theorem extension_options_dropped :
  canonical "message M { extensions 4 to 9 [verification = UNVERIFIED]; }" = canonical "message M { extensions 4 to 9; }".
Proof. vm_compute. reflexivity. Qed.
End examples.
