(* ===== verification/ProtoEdits.v ===== *)
(** Edits of a parsed [.proto] source (schema/proto_wire.rs): the text without
    extensions, and the tags of messages, fields and enums. *)
From S2P Require Import Prelude SortedVec RustStr Errors Json Tags ProtoLex ProtoWire ProtoLogic ProtoSpell ProtoRead ProtoElements ProtoCanonical.

Open Scope string_scope.
Open Scope nat_scope.
Open Scope list_scope.

(** * Without extensions *)

(** No custom options, whose names are in parentheses. *)
Definition plain_opts (o : list Opt) : list Opt := filter (λ x, starts_with "(" (o_name x) = false) o.
Definition plain_field (f : Field) : Field := mkField (f_sorted f) (f_label f) (f_ty f) (f_name f) (f_tag f) (plain_opts (f_options f)).
Definition plain_oneof (o : OneOf) : OneOf := mkOneOf (oo_name o) (plain_opts (oo_options o)) (plain_field <$> oo_fields o).
Definition plain_enum (e : EnumEl) : EnumEl := mkEnumEl (e_name e) (e_reserved e) (plain_opts (e_options e)) ((λ c, (c.1.1, c.1.2, plain_opts c.2)) <$> e_constants e).
Fixpoint plain_message (m : Message) : Message :=
  let '(mkMessage name reserved options fields oneofs _ nested _) := m in
  mkMessage name reserved (plain_opts options) (plain_field <$> fields) (plain_oneof <$> oneofs) []
    ((fix go (l : list TypeEl) : list TypeEl := match l with [] => [] | TMessage m :: l => TMessage (plain_message m) :: go l | TEnum e :: l => TEnum (plain_enum e) :: go l end) nested) [].
Definition plain_type (t : TypeEl) : TypeEl := match t with TMessage m => TMessage (plain_message m) | TEnum e => TEnum (plain_enum e) end.
Definition plain_rpc (r : Rpc) : Rpc := mkRpc (r_name r) (r_req r) (r_req_stream r) (r_resp r) (r_resp_stream r) (plain_opts (r_options r)).
Definition plain_service (s : Service) : Service := mkService (s_name s) (plain_opts (s_options s)) (plain_rpc <$> s_rpcs s).
Definition plain_file (f : File) : File :=
  mkFile (fl_syntax f) (fl_package f) (fl_imports f) (fl_public_imports f) (plain_opts (fl_options f)) (plain_type <$> fl_types f) [] (plain_service <$> fl_services f).
Lemma plain_message_eq name res opts fields oneofs exts nested extends :
  plain_message (mkMessage name res opts fields oneofs exts nested extends) = mkMessage name res (plain_opts opts) (plain_field <$> fields) (plain_oneof <$> oneofs) [] (plain_type <$> nested) [].
Proof. cbn [plain_message]. f_equal. induction nested as [|[m|e] l IH]; [done|exact (f_equal (cons (TMessage (plain_message m))) IH)|exact (f_equal (cons (TEnum (plain_enum e))) IH)]. Qed.

Section without.
Context {tables : UnicodeTables}.
Definition without_extensions (src : string) : option string := f ← wire_file src; Some (file_str (plain_file f)).
End without.

(** ** Twice is once *)

Lemma fmap_idem {X} (g : X → X) (l : list X) : (∀ x, g (g x) = g x) → g <$> (g <$> l) = g <$> l.
Proof. intros H. induction l as [|x l IH]; [done|]. cbn. rewrite H. f_equal. exact IH. Qed.
Lemma plain_opts_idem o : plain_opts (plain_opts o) = plain_opts o.
Proof. apply filter_all, Forall_filter_self. Qed.
Lemma plain_field_idem f : plain_field (plain_field f) = plain_field f.
Proof. unfold plain_field. cbn [f_sorted f_label f_ty f_name f_tag f_options]. by rewrite plain_opts_idem. Qed.
Lemma plain_oneof_idem o : plain_oneof (plain_oneof o) = plain_oneof o.
Proof. unfold plain_oneof. cbn [oo_name oo_options oo_fields]. by rewrite plain_opts_idem, (fmap_idem _ _ plain_field_idem). Qed.
Lemma plain_enum_idem e : plain_enum (plain_enum e) = plain_enum e.
Proof.
  unfold plain_enum. cbn [e_name e_reserved e_options e_constants]. rewrite plain_opts_idem. f_equal. apply (fmap_idem (λ c : string * string * list Opt, (c.1.1, c.1.2, plain_opts c.2))). intros c. cbn [fst snd]. by rewrite plain_opts_idem.
Qed.
Lemma plain_message_idem m : plain_message (plain_message m) = plain_message m.
Proof.
  induction m as [name res opts fields oneofs exts nested extends IH] using message_induction. rewrite !plain_message_eq, plain_opts_idem, (fmap_idem _ _ plain_field_idem), (fmap_idem _ _ plain_oneof_idem). f_equal.
  induction IH as [|[m|e] l Ht _ IHl]; [done|..]; cbn [fmap list_fmap plain_type]; f_equal; try exact IHl; f_equal; [exact Ht|apply plain_enum_idem].
Qed.
Lemma plain_type_idem t : plain_type (plain_type t) = plain_type t.
Proof. destruct t; cbn; f_equal; [apply plain_message_idem|apply plain_enum_idem]. Qed.
Lemma plain_service_idem s : plain_service (plain_service s) = plain_service s.
Proof. unfold plain_service. cbn [s_name s_options s_rpcs]. rewrite plain_opts_idem. f_equal. apply fmap_idem. intros r. unfold plain_rpc. cbn [r_name r_req r_req_stream r_resp r_resp_stream r_options]. by rewrite plain_opts_idem. Qed.
Lemma plain_file_idem f : plain_file (plain_file f) = plain_file f.
Proof. unfold plain_file. cbn [fl_syntax fl_package fl_imports fl_public_imports fl_options fl_types fl_extends fl_services]. by rewrite plain_opts_idem, (fmap_idem _ _ plain_type_idem), (fmap_idem _ _ plain_service_idem). Qed.

(** ** It can be done before or after reading back *)

Lemma filter_comm {X} (R S : X → Prop) `{!∀ x, Decision (R x)} `{!∀ x, Decision (S x)} (l : list X) : filter R (filter S l) = filter S (filter R l).
Proof.
  induction l as [|x l IH]; [done|]. destruct (decide (R x)) as [HR|HR], (decide (S x)) as [HS|HS]; rewrite ?(filter_cons_True S _ _ HS), ?(filter_cons_False S _ _ HS), ?(filter_cons_True R _ _ HR), ?(filter_cons_False R _ _ HR), ?(filter_cons_True S _ _ HS), ?(filter_cons_False S _ _ HS); by rewrite ?IH.
Qed.
Lemma plain_arranged opts : arranged_options (plain_opts opts) = plain_opts (arranged_options opts).
Proof. unfold arranged_options, plain_opts. rewrite !filter_app. f_equal; [apply filter_comm|]. f_equal; apply filter_comm. Qed.
Lemma plain_arr_field f : arr_field (plain_field f) = plain_field (arr_field f).
Proof. unfold arr_field, plain_field, printed_options. cbn [f_sorted f_label f_ty f_name f_tag f_options]. destruct (f_sorted f); [done|]. by rewrite plain_arranged. Qed.
Lemma fmap_comm {X} (g h : X → X) (l : list X) : (∀ x, g (h x) = h (g x)) → g <$> (h <$> l) = h <$> (g <$> l).
Proof. intros H. induction l as [|x l IH]; [done|]. cbn. rewrite H. f_equal. exact IH. Qed.
Lemma plain_arr_oneof o : arr_oneof (plain_oneof o) = plain_oneof (arr_oneof o).
Proof. unfold arr_oneof, plain_oneof. cbn [oo_name oo_options oo_fields]. by rewrite (fmap_comm _ _ _ plain_arr_field). Qed.
Lemma is_message_plain t : is_message (plain_type t) = is_message t.
Proof. by destruct t. Qed.
Lemma plain_arr_message m : arr_message (plain_message m) = plain_message (arr_message m).
Proof.
  induction m as [name res opts fields oneofs exts nested extends IH] using message_induction. rewrite arr_message_eq, !plain_message_eq, arr_message_eq, (fmap_comm _ _ _ plain_arr_field), (fmap_comm _ _ _ plain_arr_oneof). f_equal.
  rewrite ordered_fmap by apply is_message_plain. apply Forall_ordered in IH. induction IH as [|[m|e] l Ht _ IHl]; [done|..]; cbn [fmap list_fmap plain_type arr_type]; f_equal; try exact IHl; by f_equal.
Qed.
Lemma plain_arr_type t : arr_type (plain_type t) = plain_type (arr_type t).
Proof. destruct t; cbn; [by rewrite plain_arr_message|done]. Qed.
Lemma plain_arr_file f : arr_file (plain_file f) = plain_file (arr_file f).
Proof.
  unfold arr_file, plain_file. cbn [fl_syntax fl_package fl_imports fl_public_imports fl_options fl_types fl_extends fl_services]. f_equal. rewrite ordered_fmap by apply is_message_plain. apply fmap_comm, plain_arr_type.
Qed.

(** ** The result can be printed and read *)

Section plain_ok.
Context {tables : UnicodeTables} (so : bool).
Lemma plain_opts_ok o : Forall opt_ok o → Forall opt_ok (plain_opts o).
Proof. rewrite !Forall_forall. intros H x Hx%list_elem_of_filter. apply H, Hx. Qed.
(** A field with other options. *)
Lemma field_split_options in_oneof f first rest opts : field_split so in_oneof f first rest → Forall opt_ok opts → field_split so in_oneof (mkField (f_sorted f) (f_label f) (f_ty f) (f_name f) (f_tag f) opts) first rest.
Proof. intros (H1 & H2 & H3 & _ & H4) Ho. by split_and!. Qed.
Lemma field_split_opts in_oneof f first rest : field_split so in_oneof f first rest → Forall opt_ok (f_options f).
Proof. by intros (_ & _ & _ & H & _). Qed.
Lemma plain_oneof_ok o : oneof_ok so o → oneof_ok so (plain_oneof o).
Proof.
  intros (H1 & H2 & H3). split_and!; cbn; [done|by apply plain_opts_ok|]. apply Forall_fmap. eapply Forall_impl; [exact H3|]. intros f (first & rest & Hf & Hne). exists first, rest. split; [|done].
  apply field_split_options; [done|]. by eapply plain_opts_ok, field_split_opts.
Qed.
Lemma plain_enum_ok e : enum_ok e → enum_ok (plain_enum e).
Proof.
  intros (H1 & H2 & H3 & H4). split_and!; cbn; [done|done|by apply plain_opts_ok|]. apply Forall_fmap. eapply Forall_impl; [exact H4|]. intros c (C1 & C2 & C3 & C4 & C5). split_and!; cbn; [done..|]. by apply plain_opts_ok.
Qed.
Lemma plain_message_ok m : message_ok so m → message_ok so (plain_message m).
Proof.
  induction m as [name res opts fields oneofs exts nested extends IH] using message_induction. rewrite plain_message_eq, !message_ok_eq. intros (H1 & H2 & H3 & H4 & H5 & _ & H7 & _). split_and!; [done|done|by apply plain_opts_ok| | |constructor| |constructor].
  - apply Forall_fmap. eapply Forall_impl; [exact H4|]. intros f (first & rest & Hf & Hw). exists first, rest. split; [|done]. apply field_split_options; [done|]. by eapply plain_opts_ok, field_split_opts.
  - apply Forall_fmap. eapply Forall_impl; [exact H5|]. apply plain_oneof_ok.
  - apply Forall_fmap. apply Forall_forall. intros t Ht. rewrite Forall_forall in IH, H7. specialize (IH t Ht). specialize (H7 t Ht). destruct t; [by apply IH|by apply plain_enum_ok].
Qed.
Lemma plain_file_ok f : file_ok so f → file_ok so (plain_file f).
Proof.
  intros (H1 & H2 & H3 & H4 & H5 & H6 & _ & H8). split_and!; cbn; [done..|by apply plain_opts_ok| |constructor|].
  - apply Forall_fmap. eapply Forall_impl; [exact H6|]. intros [m|e]; [apply plain_message_ok|apply plain_enum_ok].
  - apply Forall_fmap. eapply Forall_impl; [exact H8|]. intros s (S1 & S2 & S3). split_and!; cbn; [done|by apply plain_opts_ok|]. apply Forall_fmap. eapply Forall_impl; [exact S3|].
    intros r (R1 & R2 & R3 & R4). split_and!; cbn; [done..|]. by apply plain_opts_ok.
Qed.
End plain_ok.

Section edits.
Context {tables : UnicodeTables}.

(** The text without extensions reads back as
    a file that has none (no custom options, extension ranges or [extend]
    blocks), is its own canonical text, and has no extensions left to drop. *)
Theorem without_extensions_stable src ts t : utf8_valid src = true → tokenize src = Some ts → tidy ts = true → without_extensions src = Some t →
  (∃ f, wire_file t = Some f ∧ plain_file f = f ∧ file_str f = t) ∧ without_extensions t = Some t.
Proof.
  intros Hsrc Hts Htidy Ht. unfold without_extensions, wire_file in Ht. rewrite Hts in Ht. cbn [mbind option_bind] in Ht. destruct (parse_tokens ts) as [f rest| |] eqn:Ef; try done. injection Ht as <-.
  pose proof (plain_file_ok false f (made_reads src ts f rest Hsrc Hts Htidy Ef)) as Hok. pose proof (wire_file_str false _ Hok) as Hread. pose proof (arr_file_str false _ eq_refl Hok) as Htext.
  assert (plain_file (arr_file (plain_file f)) = arr_file (plain_file f)) as Hplain by (by rewrite <-plain_arr_file, plain_file_idem). split; [by exists (arr_file (plain_file f))|].
  unfold without_extensions. rewrite Hread. cbn. by rewrite Hplain, Htext.
Qed.
End edits.

(** * Tags *)

Definition tag_values (v : WValue) : list string :=
  match v with
  | WList items => omap (λ x, match x with WStr s => Some s | _ => None end) items
  | WStr s => [s]
  | _ => []
  end.
Definition find_opt (name : string) (options : list Opt) : option Opt := snd <$> list_find (λ o, o_name o = name) options.
Definition current_tags (options : list Opt) (name : string) : list string :=
  match find_opt name options with
  | Some o => match o_value o with
              | WMap entries => match list_find (λ e, e.1 = "tags") entries with Some (_, e) => tag_values e.2 | None => [] end
              | _ => []
              end
  | None => []
  end.
Definition edit_option_tags (options : list Opt) (name : string) (tags : list string) (adding : bool) : list Opt :=
  let current := edited_tags (current_tags options name) tags adding in
  let options := filter (λ o, o_name o ≠ name) options in
  if decide (current = []) then options else options ++ [mkOpt name (WMap [("tags", WList (WStr <$> current))])].

(** [iter_mut().find(..)], and the edit of what it finds. *)
Fixpoint edit_first {A} (found : A → bool) (edit : A → A) (l : list A) : option (list A) :=
  match l with [] => None | x :: l => if found x then Some (edit x :: l) else cons x <$> edit_first found edit l end.

Section edit.
Context (edit : TagEdit) (adding : bool).
Definition edit_field_tags (f : Field) : Field :=
  mkField (f_sorted f) (f_label f) (f_ty f) (f_name f) (f_tag f) (edit_option_tags (f_options f) "(confluent.field_meta)" (te_tags edit) adding).
Definition edit_fields (name : string) (fields : list Field) : option (list Field) := edit_first (λ f, bool_decide (f_name f = name)) edit_field_tags fields.
(** The first oneof that has the field. *)
Fixpoint edit_oneofs (name : string) (oneofs : list OneOf) : option (list OneOf) :=
  match oneofs with
  | [] => None
  | o :: oneofs =>
      match edit_fields name (oo_fields o) with
      | Some fields => Some (mkOneOf (oo_name o) (oo_options o) fields :: oneofs)
      | None => cons o <$> edit_oneofs name oneofs
      end
  end.
Definition set_nested (m : Message) (types : list TypeEl) : Message := let '(mkMessage n r o f oo x _ e) := m in mkMessage n r o f oo x types e.
(** What the rest of the path names in a message; [nested]: the nested types, edited. *)
Definition edit_message (m : Message) (rest : list string) (nested : option (list TypeEl)) : option Message :=
  let '(mkMessage n r o f oo x t e) := m in
  match rest with
  | [] => if te_record edit then Some (mkMessage n r (edit_option_tags o "(confluent.message_meta)" (te_tags edit) adding) f oo x t e) else None
  | name :: more =>
      let here := if bool_decide (more = []) && negb (te_record edit) then
                    match edit_fields name f with
                    | Some f => Some (mkMessage n r o f oo x t e)
                    | None => match edit_oneofs name oo with Some oo => Some (mkMessage n r o f oo x t e) | None => None end
                    end
                  else None in
      match here with Some m => Some m | None => set_nested m <$> nested end
  end.
(** [None] when nothing is found: nothing has been changed then. *)
Fixpoint edit_types (segments : list string) (types : list TypeEl) : option (list TypeEl) :=
  match segments with
  | [] => None
  | head :: rest =>
      (fix go (types : list TypeEl) : option (list TypeEl) :=
         match types with
         | [] => None
         | TMessage m :: types =>
             if decide (m_name m = head) then (λ m, TMessage m :: types) <$> edit_message m rest (edit_types rest (m_nested m))
             else cons (TMessage m) <$> go types
         | TEnum e :: types =>
             if bool_decide (e_name e = head) && bool_decide (rest = []) && te_record edit
             then Some (TEnum (mkEnumEl (e_name e) (e_reserved e) (edit_option_tags (e_options e) "(confluent.enum_meta)" (te_tags edit) adding) (e_constants e)) :: types)
             else cons (TEnum e) <$> go types
         end) types
  end.
Definition no_segment (segments : list string) : string :=
  let '(what, name) := match te_record edit, segments with
                       | false, _ :: _ :: _ => ("Field", default "" (last segments))
                       | _, first :: _ => ("Message", first)
                       | _, [] => ("Message", te_path edit)
                       end in
  "java.lang.IllegalArgumentException: No matching " +:+ what +:+ " with name '" +:+ name +:+ "' found in the schema".
End edit.

Definition with_types (f : File) (types : list TypeEl) : File :=
  mkFile (fl_syntax f) (fl_package f) (fl_imports f) (fl_public_imports f) (fl_options f) types (fl_extends f) (fl_services f).
Fixpoint tag_file (edits : list (TagEdit * bool)) (f : File) : result string File :=
  match edits with
  | [] => Ok f
  | (e, adding) :: edits =>
      let segments := split_char "." (te_path e) in
      match edit_types e adding segments (fl_types f) with
      | Some types => tag_file edits (with_types f types)
      | None => Err (no_segment e segments)
      end
  end.
Section apply_tags.
Context {tables : UnicodeTables}.
Definition apply_tags (src : string) (add remove : list TagEdit) : result string string :=
  match wire_file src with
  | Some f => f ← tag_file (edits_of add remove) f; Ok (file_str f)
  | None => Err "Could not parse Protobuf"
  end.
End apply_tags.

(** ** What an edit does to the tags *)

Lemma find_opt_last options o name : filter (λ x, o_name x ≠ name) options = options → o_name o = name → find_opt name (options ++ [o]) = Some o.
Proof.
  intros H Ho. unfold find_opt. rewrite list_find_app_r; [|apply list_find_None; rewrite <-H; apply Forall_filter_self]. cbn. by rewrite decide_True.
Qed.
Lemma find_opt_none options name : find_opt name (filter (λ x, o_name x ≠ name) options) = None.
Proof. unfold find_opt. apply fmap_None, list_find_None. apply Forall_filter_self. Qed.
Lemma tag_values_strings l : tag_values (WList (WStr <$> l)) = l.
Proof. cbn. induction l as [|x l IH]; [done|]. cbn. by f_equal. Qed.
Lemma current_tags_edited options name tags adding : current_tags (edit_option_tags options name tags adding) name = edited_tags (current_tags options name) tags adding.
Proof.
  unfold edit_option_tags. case_decide as Hc; [by unfold current_tags at 1; rewrite find_opt_none|]. unfold current_tags at 1. rewrite find_opt_last; [|apply filter_all, Forall_filter_self|done]. cbn [o_value]. apply tag_values_strings.
Qed.
(** Adding tags to the options of a message, field or
    enum leaves it with exactly its own tags and the new ones, removing them
    with exactly those of its own that were not named; the other options keep
    their order. *)
Theorem proto_tags_exact options name tags adding :
  (∀ x, x ∈ current_tags (edit_option_tags options name tags adding) name ↔ if adding then x ∈ current_tags options name ∨ x ∈ tags else x ∈ current_tags options name ∧ x ∉ tags) ∧
  filter (λ o, o_name o ≠ name) (edit_option_tags options name tags adding) = filter (λ o, o_name o ≠ name) options.
Proof.
  split; [intros x; by rewrite current_tags_edited, elem_of_edited|]. unfold edit_option_tags. case_decide; [apply filter_all, Forall_filter_self|]. rewrite filter_app, filter_cons_False by (by intros []).
  rewrite app_nil_r. apply filter_all, Forall_filter_self.
Qed.

(** ** The result can be printed and read *)

Section tags_ok.
Context {tables : UnicodeTables} (so : bool).
Lemma current_tags_ok options name : Forall opt_ok options → Forall str_ok (current_tags options name).
Proof.
  intros Hopts. unfold current_tags, find_opt. destruct (list_find _ options) as [[i o]|] eqn:E; [|constructor]. cbn. apply list_find_Some in E as (Hi & _ & _). rewrite Forall_forall in Hopts.
  destruct (Hopts o (list_elem_of_lookup_2 _ _ _ Hi)) as [_ Hv]. destruct (o_value o) as [| |es|]; try constructor. apply value_ok_map in Hv as [_ Hes].
  destruct (list_find _ es) as [[j e]|] eqn:Ee; [|constructor]. apply list_find_Some in Ee as (Hj & _ & _). rewrite Forall_forall in Hes. destruct (Hes e (list_elem_of_lookup_2 _ _ _ Hj)) as [_ He].
  destruct (e.2) as [s| | |vs]; try constructor; [done|constructor|]. apply value_ok_list in He. cbn. clear -He. induction He as [|v vs Hv _ IH]; [constructor|]. cbn. destruct v; try done. by constructor.
Qed.
Lemma edit_option_tags_ok options name tags adding : Forall opt_ok options → opt_name_ok name → Forall str_ok tags → Forall opt_ok (edit_option_tags options name tags adding).
Proof.
  intros Hopts Hname Htags. assert (Forall opt_ok (filter (λ o, o_name o ≠ name) options)) as Hf by (rewrite Forall_forall in *; intros x Hx%list_elem_of_filter; apply Hopts, Hx).
  assert (Forall str_ok (edited_tags (current_tags options name) tags adding)) as Hcur.
  { pose proof (current_tags_ok options name Hopts) as Hc. rewrite Forall_forall in *. intros x Hx%elem_of_edited. destruct adding; [destruct Hx; auto|destruct Hx; auto]. }
  unfold edit_option_tags. case_decide; [done|]. apply Forall_app. split; [done|]. constructor; [|constructor]. split; [done|]. cbn [o_value]. apply value_ok_map. split; [apply NoDup_singleton|]. constructor; [|constructor].
  split; [left; by apply keyword_ok|]. cbn [snd]. apply value_ok_list. apply Forall_fmap. exact Hcur.
Qed.
Lemma meta_name s : keyword s = true → opt_name_ok ("(" +:+ s +:+ ")").
Proof. intros H%keyword_ok. right. exists s, "". split_and!; [done..|by left]. Qed.
Lemma edit_first_ok {A} (R : A → Prop) found (g : A → A) l l' : (∀ x, R x → R (g x)) → Forall R l → edit_first found g l = Some l' → Forall R l'.
Proof.
  intros Hg H. revert l'. induction H as [|x l Hx Hl IH]; intros l'; cbn; [done|]. destruct (found x); [intros [= <-]; by constructor; [apply Hg|]|]. intros (l0 & E & ->)%fmap_Some. constructor; auto.
Qed.
Context (edit : TagEdit) (adding : bool) (Htags : Forall str_ok (te_tags edit)).
Lemma edit_field_ok in_oneof f first rest : field_split so in_oneof f first rest → field_split so in_oneof (edit_field_tags edit adding f) first rest.
Proof. intros Hf. apply field_split_options; [done|]. apply edit_option_tags_ok; [by eapply field_split_opts|by apply (meta_name "confluent.field_meta")|done]. Qed.
Lemma edit_oneofs_ok name l l' : Forall (oneof_ok so) l → edit_oneofs edit adding name l = Some l' → Forall (oneof_ok so) l'.
Proof.
  intros H. revert l'. induction H as [|o l (O1 & O2 & O3) Hl IH]; intros l'; cbn; [done|]. destruct (edit_fields edit adding name (oo_fields o)) as [fs|] eqn:Ef.
  - intros [= <-]. constructor; [|done]. split_and!; cbn; [done..|]. eapply edit_first_ok; [|exact O3|exact Ef]. intros f (first & rest & Hf & Hne). exists first, rest. split; [by apply edit_field_ok|done].
  - intros (l0 & E & ->)%fmap_Some. constructor; [done|]. by apply IH.
Qed.
Lemma edit_message_ok m rest nested m' : message_ok so m → (∀ ts, nested = Some ts → Forall (type_ok so) ts) → edit_message edit adding m rest nested = Some m' → message_ok so m'.
Proof.
  destruct m as [n r o f oo x t e]. rewrite message_ok_eq. intros (H1 & H2 & H3 & H4 & H5 & H6 & H7 & H8) Hnested. cbn [edit_message set_nested]. destruct rest as [|name more].
  - destruct (te_record edit); [|done]. intros [= <-]. apply message_ok_eq. split_and!; try done. apply edit_option_tags_ok; [done|by apply (meta_name "confluent.message_meta")|done].
  - assert (∀ m', (λ types, mkMessage n r o f oo x types e) <$> nested = Some m' → message_ok so m') as Hn. { intros m0 (ts & Hts & ->)%fmap_Some. apply message_ok_eq. split_and!; auto. }
    destruct (bool_decide (more = []) && negb (te_record edit)); [|apply Hn]. destruct (edit_fields edit adding name f) as [fs|] eqn:Ef.
    + intros [= <-]. apply message_ok_eq. split_and!; try done. eapply edit_first_ok; [|exact H4|exact Ef]. intros g (first & rest & Hg & Hw). exists first, rest. split; [by apply edit_field_ok|done].
    + destruct (edit_oneofs edit adding name oo) as [oo'|] eqn:Eo; [|apply Hn]. intros [= <-]. apply message_ok_eq. split_and!; try done. by eapply edit_oneofs_ok.
Qed.
Lemma edit_types_ok segments : ∀ types types', Forall (type_ok so) types → edit_types edit adding segments types = Some types' → Forall (type_ok so) types'.
Proof.
  induction segments as [|head rest IH]; [done|]. intros types types' H. revert types'. cbn [edit_types]. induction H as [|[m|e] types Ht Hts IHt]; intros types'; [done|..].
  - destruct (decide (m_name m = head)); [|intros (l & E & ->)%fmap_Some; constructor; auto]. intros (m' & Em & ->)%fmap_Some. constructor; [|done]. eapply edit_message_ok; [exact Ht| |exact Em].
    intros ts Hn. eapply IH; [|exact Hn]. destruct m. cbn [type_ok] in Ht. rewrite message_ok_eq in Ht. cbn. tauto.
  - destruct (_ && te_record edit); [|intros (l & E & ->)%fmap_Some; constructor; auto]. intros [= <-]. constructor; [|done]. destruct Ht as (E1 & E2 & E3 & E4). split_and!; cbn; [done..| |done].
    apply edit_option_tags_ok; [done|by apply (meta_name "confluent.enum_meta")|done].
Qed.
End tags_ok.

Section tagging.
Context {tables : UnicodeTables}.
Lemma tag_file_ok so edits : ∀ f f', Forall (λ e, Forall str_ok (te_tags e.1)) edits → file_ok so f → tag_file edits f = Ok f' → file_ok so f'.
Proof.
  induction edits as [|[e adding] edits IH]; intros f f' He Hf; cbn [tag_file]; [by intros [= <-]|]. apply Forall_cons in He as [He Hes].
  destruct (edit_types e adding _ (fl_types f)) as [types|] eqn:Et; [|done]. apply IH; [done|]. destruct Hf as (H1 & H2 & H3 & H4 & H5 & H6 & H7 & H8). split_and!; cbn; try done. by eapply edit_types_ok.
Qed.
(** When the tags can be written between double
    quotes, tagging a Protobuf schema gives a text that is its own canonical
    text, from a source that can be written. *)
Theorem tagged_text_canonical src ts add remove t : utf8_valid src = true → tokenize src = Some ts → tidy ts = true →
  forallb (λ e, forallb writable (te_tags e)) (add ++ remove) = true → apply_tags src add remove = Ok t → canonical t = Some t.
Proof.
  intros Hsrc Hts Htidy Htags Ht. unfold apply_tags, wire_file in Ht. rewrite Hts in Ht. cbn [mbind option_bind] in Ht. destruct (parse_tokens ts) as [f rest| |] eqn:Ef; try done.
  destruct (tag_file (edits_of add remove) f) as [f'|] eqn:Et; [|done]. injection Ht as <-. assert (file_ok false f') as Hf'.
  { assert (Forall (λ e, Forall str_ok (te_tags e)) (add ++ remove)) as Hok.
    { apply Forall_forall. intros e He. rewrite forallb_forall in Htags. specialize (Htags e (proj1 (list_elem_of_In _ _) He)). rewrite forallb_forall in Htags. apply Forall_forall. intros x Hx. by apply writable_ok, Htags, list_elem_of_In. }
    eapply tag_file_ok; [|by eapply made_reads|exact Et]. unfold edits_of. apply Forall_app in Hok as [Ha Hr]. apply Forall_app. split; by apply Forall_fmap. }
  unfold canonical. rewrite (wire_file_str false f' Hf'). cbn. by rewrite (arr_file_str false f').
Qed.
End tagging.

(** ** Examples *)

Section edit_examples.
#[local] Instance ascii_tables : UnicodeTables := {| unicode_alphabetic _ := false; unicode_numeric _ := false |}.
Definition custom_proto : string := "message A{option (m)=1;option deprecated=true;int32 x=1[(f).g={a:1},json_name=" +:+ quoted "X" +:+ "];extensions 4 to 9;extend A{int32 y=4;}}extend A{int32 z=5;}".
Definition custom_tokens : list Tok := match tokenize custom_proto with Some ts => ts | None => [] end.
Definition plain_text : string := match without_extensions custom_proto with Some t => t | None => "" end.
Lemma without_extensions_stable_witness : (∃ f, wire_file plain_text = Some f ∧ plain_file f = f ∧ file_str f = plain_text) ∧ without_extensions plain_text = Some plain_text.
Proof. apply (without_extensions_stable custom_proto custom_tokens plain_text); vm_compute; reflexivity. Defined.

Definition pii : TagEdit := mkTagEdit "A.x" false ["PII"; "PRIVATE"].
Definition tagged_text : string := match apply_tags custom_proto [pii] [] with Ok t => t | Err _ => "" end.
Lemma tagged_text_canonical_witness : canonical tagged_text = Some tagged_text.
Proof. apply (tagged_text_canonical custom_proto custom_tokens [pii] [] tagged_text); vm_compute; reflexivity. Defined.
Example tagged_field : current_tags (edit_option_tags [] "(confluent.field_meta)" ["PII"; "PRIVATE"] true) "(confluent.field_meta)" = ["PII"; "PRIVATE"].
Proof. reflexivity. Qed.

(** A tag is written as it is, also when it has a double quote: what is
    registered then is no source. *)
Definition quote_tag : TagEdit := mkTagEdit "A" true [str1 DQUOTE].
Theorem quoted_tag_breaks_text : ∃ t, apply_tags "message A{}" [quote_tag] [] = Ok t ∧ canonical t = None.
Proof. eexists. split; [vm_compute; reflexivity|]. vm_compute. reflexivity. Qed.
End edit_examples.
