(* ===== verification/FloatText.v ===== *)
(** Floats as text: how Rust's standard library reads and prints [f64] and [f32]
    ([str::parse], the formats [{}] and [{:e}], the casts between widths), as far
    as the defaults of Avro fields use it. *)
From S2P Require Import Prelude SortedVec RustStr Json Float64.

Local Open Scope Z_scope.

(** * Floats of a width *)

(** Bits of the mantissa, and the exponents of the last of them. *)
Record Width := mkWidth { prec : Z; emin : Z; emax : Z }.
Definition binary64 : Width := mkWidth 53 (-1074) 971.
Definition binary32 : Width := mkWidth 24 (-149) 104.

(** [Fin neg m e] is [m * 2 ^ e], with the sign kept apart for the zeros. *)
Inductive fp := NaN | Inf (neg : bool) | Fin (neg : bool) (m e : Z).
#[export] Instance fp_eq_dec : EqDecision fp.
Proof. solve_decision. Defined.

Definition zero (w : Width) (neg : bool) : fp := Fin neg 0 (emin w).
Definition is_finite (f : fp) : bool := match f with Fin _ _ _ => true | _ => false end.

(** [p / q] times a power of the base, as a ratio. *)
Definition scaled (base p q x : Z) : Z * Z :=
  if bool_decide (0 ≤ x) then (p * base ^ x, q) else (p, q * base ^ (- x)).
(** The nearest integer to [n / d], the even one of two. *)
Definition nearest (n d : Z) : Z :=
  let m := n / d in
  let r := n `mod` d in
  if bool_decide (d < 2 * r) || (bool_decide (2 * r = d) && Z.odd m) then m + 1 else m.

(** The float nearest to [p / q], for [0 ≤ p] and [0 < q]. *)
Definition round_ratio (w : Width) (neg : bool) (p q : Z) : fp :=
  if bool_decide (p = 0) then zero w neg else
  let k0 := Z.log2 p - Z.log2 q in
  let '(n0, d0) := scaled 2 p q (- k0) in
  let k := if bool_decide (d0 ≤ n0) then k0 else k0 - 1 in
  let e := Z.max (emin w) (k - prec w + 1) in
  let '(n, d) := scaled 2 p q (- e) in
  let m := nearest n d in
  let '(m, e) := if bool_decide (m = 2 ^ prec w) then (2 ^ (prec w - 1), e + 1) else (m, e) in
  if bool_decide (emax w < e) then Inf neg else Fin neg m e.

(** [as f32], [as f64]; an integer to either width. *)
Definition cast (w : Width) (f : fp) : fp :=
  match f with
  | Fin neg m e => let '(p, q) := scaled 2 m 1 e in round_ratio w neg p q
  | f => f
  end.
Definition of_integer (w : Width) (i : Z) : fp := round_ratio w (bool_decide (i < 0)) (Z.abs i) 1.

(** The bits of a finite [f64], as [serde_json] keeps numbers. *)
Definition to_bits (neg : bool) (m e : Z) : Z :=
  (if neg then 2 ^ 63 else 0) + (if bool_decide (m < 2 ^ 52) then m else (e + 1075) * 2 ^ 52 + (m - 2 ^ 52)).
Definition of_bits (bits : Z) : fp :=
  let f := F64.of_bits bits in Fin (Z.testbit bits 63) (Z.abs (F64.mantissa f)) (F64.exponent f).
(** [Number::from_f64]: nothing for the values JSON has no numbers for. *)
Definition from_f64 (f : fp) : option Number :=
  match f with Fin neg m e => Some (Float (to_bits neg m e)) | _ => None end.
(** [Value::from(f64)]. *)
Definition value_from_f64 (f : fp) : Value := match from_f64 f with Some n => VNumber n | None => VNull end.
(** [Number::as_f64]. *)
Definition number_fp (n : Number) : fp :=
  match n with PosInt n | NegInt n => of_integer binary64 n | Float bits => of_bits bits end.

(** * Reading ([str::parse]) *)

Definition digit_value (c : ascii) : Z := Z.of_nat (cval c - 48).
(** The digits at the front: their value, their number, the rest. *)
Fixpoint take_digits (acc : Z) (n : nat) (s : string) : Z * nat * string :=
  match s with
  | String c r => if is_ascii_digit c then take_digits (acc * 10 + digit_value c) (S n) r else (acc, n, s)
  | "" => (acc, n, "")
  end.
Definition take_sign (s : string) : bool * string :=
  match s with
  | String c r => if decide (c = "-"%char) then (true, r) else if decide (c = "+"%char) then (false, r) else (false, s)
  | "" => (false, "")
  end.
(** The exponent: nothing, or [e] and at least one digit, up to the end. *)
Definition read_exponent (s : string) : option Z :=
  match s with
  | "" => Some 0
  | String c r =>
      if decide (c = "e"%char ∨ c = "E"%char) then
        let '(neg, r) := take_sign r in
        let '(x, n, r) := take_digits 0 0 r in
        match n, r with S _, "" => Some (if neg then - x else x) | _, _ => None end
      else None
  end.
Definition decimal (w : Width) (neg : bool) (digits x : Z) : fp :=
  let '(p, q) := scaled 10 digits 1 x in round_ratio w neg p q.
Definition parse_fp (w : Width) (s : string) : option fp :=
  let '(neg, r) := take_sign s in
  if eq_ignore_ascii_case r "nan" then Some NaN
  else if eq_ignore_ascii_case r "inf" || eq_ignore_ascii_case r "infinity" then Some (Inf neg)
  else
    let '(whole, n, r) := take_digits 0 0 r in
    let '(all, n', r) :=
      match r with
      | String c r' => if decide (c = "."%char) then take_digits whole n r' else (whole, n, r)
      | "" => (whole, n, "")
      end in
    match n' with
    | O => None
    | S _ => x ← read_exponent r; Some (decimal w neg all (x - Z.of_nat (n' - n)))
    end.

(** * Printing *)

(** The exponent of the first decimal digit of [p / q], from below. *)
Fixpoint climb (fuel : nat) (p q x : Z) : Z :=
  match fuel with
  | O => x
  | S fuel => let '(n, d) := scaled 10 p q (- (x + 1)) in if bool_decide (d ≤ n) then climb fuel p q (x + 1) else x
  end.
Definition decimal_exponent (p q : Z) : Z := climb 4 p q ((Z.log2 p - Z.log2 q - 1) * 30103 / 100000 - 1).

(** The fewest decimal digits that read back as the float, and among them the
    ones nearest to it: [digits * 10 ^ x]. *)
Fixpoint shortest_from (w : Width) (f : fp) (p q first : Z) (fuel : nat) (n : Z) : option (Z * Z) :=
  match fuel with
  | O => None
  | S fuel =>
      let x := first - n + 1 in
      let '(num, den) := scaled 10 p q (- x) in
      let lo := num / den in
      let reads d := bool_decide (decimal w false d x = f) in
      let pick := if reads lo && reads (lo + 1) then Some (nearest num den)
                  else if reads lo then Some lo else if reads (lo + 1) then Some (lo + 1) else None in
      match pick with Some d => Some (d, x) | None => shortest_from w f p q first fuel (n + 1) end
  end.
Fixpoint drop_zeros (fuel : nat) (d x : Z) : Z * Z :=
  match fuel with
  | O => (d, x)
  | S fuel => if bool_decide (d `mod` 10 = 0) then drop_zeros fuel (d / 10) (x + 1) else (d, x)
  end.
Definition shortest (w : Width) (m e : Z) : Z * Z :=
  if bool_decide (m = 0) then (0, 0) else
  let '(p, q) := scaled 2 m 1 e in
  let '(d, x) := default (m, 0) (shortest_from w (Fin false m e) p q (decimal_exponent p q) 17 1) in
  drop_zeros 20 d x.

Definition zeros (n : Z) : string := String.concat "" (replicate (Z.to_nat n) "0").
Definition sign_text (neg : bool) : string := if neg then "-" else "".

(** The format [{}]: no exponent, however large or small. *)
Definition display (w : Width) (f : fp) : string :=
  match f with
  | NaN => "NaN"
  | Inf neg => sign_text neg +:+ "inf"
  | Fin neg m e =>
      let '(d, x) := shortest w m e in
      let digits : string := pretty d in
      let len := Z.of_nat (String.length digits) in
      sign_text neg +:+
      (if bool_decide (0 ≤ x) then digits +:+ (if bool_decide (d = 0) then "" else zeros x)
       else if bool_decide (- x < len) then str_take (Z.to_nat (len + x)) digits +:+ "." +:+ str_drop (Z.to_nat (len + x)) digits
       else "0." +:+ zeros (- x - len) +:+ digits)
  end.
(** The format [{:e}]. *)
Definition lower_exp (w : Width) (f : fp) : string :=
  match f with
  | NaN => "NaN"
  | Inf neg => sign_text neg +:+ "inf"
  | Fin neg m e =>
      let '(d, x) := shortest w m e in
      let digits : string := pretty d in
      let len := Z.of_nat (String.length digits) in
      sign_text neg +:+ str_take 1 digits +:+ (if bool_decide (len = 1) then "" else "." +:+ str_drop 1 digits) +:+
      "e" +:+ pretty (x + len - 1)
  end.

(** * Comparisons *)

(** [a < b] on absolute values of finite floats. *)
Definition fp_lt (a b : fp) : bool :=
  match a, b with Fin _ m e, Fin _ m' e' => F64.ltb (F64.mk m e) (F64.mk m' e') | _, _ => false end.

(** * Examples *)

Example reads_numbers :
  parse_fp binary64 "1.5e3" = Some (cast binary64 (Fin false 1500 0)) ∧
  parse_fp binary64 ".5" = parse_fp binary64 "5e-1" ∧ parse_fp binary64 "." = None ∧ parse_fp binary64 "1e" = None ∧
  parse_fp binary64 "1e400" = Some (Inf false) ∧ parse_fp binary64 "1e-400" = Some (zero binary64 false).
Proof. by vm_compute. Qed.
Example prints_numbers :
  (display binary64 <$> parse_fp binary64 "0.1") = Some "0.1" ∧
  (display binary64 <$> parse_fp binary64 "123456789012") = Some "123456789012" ∧
  (lower_exp binary64 <$> parse_fp binary64 "1e23") = Some "1e23" ∧
  (lower_exp binary64 <$> parse_fp binary64 "5e-324") = Some "5e-324" ∧
  (lower_exp binary32 <$> (cast binary32 <$> parse_fp binary64 "0.1")) = Some "1e-1" ∧
  (display binary64 <$> (cast binary64 <$> (cast binary32 <$> parse_fp binary64 "0.1"))) = Some "0.10000000149011612".
Proof. by vm_compute. Qed.
Example keeps_bits :
  (value_from_f64 <$> parse_fp binary64 "1.5") = Some (VNumber (Float 0x3FF8000000000000)) ∧
  of_bits 0x3FF8000000000000 = cast binary64 (Fin false 3 (-1)) ∧ to_bits false 1 (-1074) = 1 ∧
  (to_bits true 0 (-1074) = 2 ^ 63).
Proof. by vm_compute. Qed.
