(* ===== verification/AvroRender.v ===== *)
(** Avro schemas as text (schema/avro.rs): the rendering of a schema as Java's
    [Schema.toString], which is what the registry stores, and the search for
    types that are defined twice. A schema is a JSON value; the text of a value
    is serde_json's (class [JsonText]). *)
From S2P Require Import Prelude SortedVec RustStr Errors Json Model SchemaLayer Dump.

Open Scope string_scope.
Open Scope nat_scope.
Open Scope list_scope.

Definition PRIMITIVES : list string := ["null"; "boolean"; "int"; "long"; "float"; "double"; "bytes"; "string"].
Definition NAMED_TYPES : list string := ["record"; "error"; "enum"; "fixed"].

(** Marks a default string that must be printed as a bare number. *)
Definition RAW_NUMBER : string := str1 NUL +:+ "raw-number:".

(** [o.get(k)] handed on: [f] at the first value of the key, [d] without one. *)
Definition on_key {A} (k : string) (f : Value → A) (d : A) : Map → A :=
  fix go (m : Map) : A :=
    match m with
    | [] => d
    | (k', v) :: m => if decide (k = k') then f v else go m
    end.
Definition str_at (k : string) (m : Map) : option string := map_get k m ≫= as_str.
Definition is_string (v : Value) : bool := match v with VString _ => true | _ => false end.
Definition mem (x : string) (l : list string) : bool := bool_decide (x ∈ l).

(** * Names *)

(** (full name, namespace) per the Avro naming rules. *)
Definition split_name (name : string) (namespace : option string) (enclosing : string) : string * option string :=
  match rsplit_once_char "." name with
  | Some (space, _) => (name, Some space)
  | None =>
      let space := default enclosing namespace in
      if decide (space = "") then (name, None) else (space +:+ "." +:+ name, Some space)
  end.

(** Name as Java prints a reference: simple when in the current namespace. *)
Definition qualified (full : string) (space : option string) : string :=
  match rsplit_once_char "." full, space with
  | Some (ns, simple), Some cur => if decide (ns = cur) then simple else full
  | _, _ => full
  end.

(** [rsplit('.').next()]. *)
Definition last_segment (full : string) : string :=
  match rsplit_once_char "." full with Some (_, s) => s | None => full end.

(** What a named type of the schema is called, in a namespace. *)
Definition named_of (o : Map) (enclosing : string) : string * option string :=
  split_name (default "" (str_at "name" o)) (str_at "namespace" o) enclosing.

(** The type a string refers to: the name in the current namespace, unless only
    the name without one is known. *)
Definition referred (t : string) (space : option string) (known : list string) : string :=
  let full :=
    if contains_char "." t then t
    else match space with
         | Some ns => if decide (ns = "") then t else ns +:+ "." +:+ t
         | None => t
         end in
  if mem full known || negb (mem t known) then full else t.

Section names.
(** The names a schema defines, in the order of the document. *)
Fixpoint collect_defined (v : Value) (ns : string) (out : list string) : list string :=
  match v with
  | VArray a => foldl (λ out x, collect_defined x ns out) out a
  | VObject o =>
      let '(inner, out) :=
        match str_at "type" o, str_at "name" o with
        | Some t, Some name =>
            if mem t NAMED_TYPES then
              let '(full, space) := split_name name (str_at "namespace" o) ns in
              (default "" space, out ++ [full])
            else (ns, out)
        | _, _ => (ns, out)
        end in
      let child k out := on_key k (λ x, if is_string x then out else collect_defined x inner out) out o in
      child "values" (child "items" (child "fields" (child "type" out)))
  | _ => out
  end.
End names.

(** * Rendering *)

Section render.
Context {text : JsonText}.
(** [SORT_PROPS]. *)
Context (sort_props : bool).

Definition json_str (s : string) : string := value_to_string (VString s).
(** A key or a value that is written as it is in the source. *)
Definition quoted (s : string) : string := str1 (byte 34) +:+ s +:+ str1 (byte 34).
(** [,"key":text]. *)
Definition attribute (key t : string) : string := "," +:+ quoted key +:+ ":" +:+ t.

(** Properties in the order of the document, or by name. *)
Definition prop_le (a b : string * Value) : bool := bool_decide (string_le a.1 b.1).
Fixpoint insert_prop (e : string * Value) (m : Map) : Map :=
  match m with
  | [] => [e]
  | e' :: m => if prop_le e e' then e :: e' :: m else e' :: insert_prop e m
  end.
(** [sort_by]: a stable sort. *)
Definition sort_map (m : Map) : Map := foldr insert_prop [] m.
Definition props (o : Map) (reserved : list string) : Map :=
  filter (λ e, e.1 ∉ reserved) (if sort_props then sort_map o else o).

Definition member (e : string * Value) : string := json_str e.1 +:+ ":" +:+ value_to_string e.2.
Definition write_props (o : Map) (reserved : list string) : string :=
  foldr (λ e s, "," +:+ member e +:+ s) "" (props o reserved).

Definition write_aliases (o : Map) : string :=
  match map_get "aliases" o with
  | Some (VArray (x :: a)) => attribute "aliases" (value_to_string (VArray (x :: a)))
  | _ => ""
  end.


Definition write_doc (o : Map) : string :=
  match str_at "doc" o with Some d => attribute "doc" (json_str d) | None => "" end.

(** The namespace, where it differs from the enclosing one. *)
Definition write_namespace (ns space : option string) : string :=
  match ns, space with
  | Some n, Some cur => if decide (n = cur) then "" else attribute "namespace" (json_str n)
  | Some n, None => attribute "namespace" (json_str n)
  | None, Some cur => if decide (cur = "") then "" else attribute "namespace" (quoted "")
  | None, None => ""
  end.

(** What [&mut] arguments the renderer shares. *)
Record Pen := mkPen { p_space : option string; p_known : list string; p_out : string }.
Definition write (s : string) (p : Pen) : Pen := mkPen (p_space p) (p_known p) (p_out p +:+ s).
Definition enter (space : option string) (p : Pen) : Pen := mkPen space (p_known p) (p_out p).
Definition know (full : string) (p : Pen) : Pen := mkPen (p_space p) (p_known p ++ [full]) (p_out p).

(** A list with commas between its elements. *)
Definition separated {A} (f : A → Pen → Pen) : bool → list A → Pen → Pen :=
  fix go (first : bool) (l : list A) (p : Pen) : Pen :=
    match l with
    | [] => p
    | x :: l => go false l (f x (if first then p else write "," p))
    end.

Definition render_name (t : string) (p : Pen) : Pen :=
  if mem t PRIMITIVES then write (json_str t) p
  else write (json_str (qualified (referred t (p_space p) (p_known p)) (p_space p))) p.

(** [{"type":t,"name":simple], and the namespace and the documentation. *)
Definition write_head (t full : string) (ns : option string) (o : Map) (p : Pen) : Pen :=
  write ("{" +:+ quoted "type" +:+ ":" +:+ json_str t +:+ attribute "name" (json_str (last_segment full)) +:+
         write_namespace ns (p_space p) +:+ write_doc o) p.

Definition ENUM_KEYS : list string := ["type"; "name"; "namespace"; "doc"; "symbols"; "default"; "aliases"].
Definition FIXED_KEYS : list string := ["type"; "name"; "namespace"; "doc"; "size"; "aliases"].
Definition RECORD_KEYS : list string := ["type"; "name"; "namespace"; "doc"; "fields"; "aliases"].
Definition FIELD_KEYS : list string := ["name"; "type"; "doc"; "default"; "order"; "aliases"].

Definition enum_body (o : Map) : string :=
  attribute "symbols" (value_to_string (default (VArray []) (map_get "symbols" o))) +:+
  match map_get "default" o with Some d => attribute "default" (value_to_string d) | None => "" end +:+
  write_props o ENUM_KEYS.
Definition fixed_body (o : Map) : string :=
  attribute "size" (match map_get "size" o with Some s => value_to_string s | None => "" end) +:+ write_props o FIXED_KEYS.

(** What follows the type of a field. A default held as a double node, converted
    from text, prints bare. *)
Definition default_text (d : Value) : string :=
  match as_str d ≫= strip_prefix RAW_NUMBER with Some raw => raw | None => value_to_string d end.
Definition field_tail (o : Map) : string :=
  write_doc o +:+
  match map_get "default" o with Some d => attribute "default" (default_text d) | None => "" end +:+
  match str_at "order" o with
  | Some order => if decide (order = "ascending") then "" else attribute "order" (json_str order)
  | None => ""
  end +:+
  write_aliases o +:+ write_props o FIELD_KEYS +:+ "}".

(** A field, given how its type is rendered; without one it is [null]. *)
Definition render_field_with (render : Value → Pen → Pen) (f : Value) (p : Pen) : Pen :=
  match f with
  | VObject o =>
      let p := write ("{" +:+ quoted "name" +:+ ":" +:+ json_str (default "" (str_at "name" o)) +:+ "," +:+ quoted "type" +:+ ":") p in
      write (field_tail o) (on_key "type" render (write (value_to_string VNull)) o p)
  | _ => p
  end.

Fixpoint render_schema (v : Value) (p : Pen) : Pen :=
  match v with
  | VString t => render_name t p
  | VArray branches => write "]" (separated render_schema true branches (write "[" p))
  | VObject o =>
      match str_at "type" o with
      | Some t =>
          if mem t NAMED_TYPES then
            let '(full, ns) := named_of o (default "" (p_space p)) in
            if mem full (p_known p) then write (json_str (qualified full (p_space p))) p
            else
              let inside := enter ns (write_head t full ns o (know full p)) in
              let body :=
                if decide (t = "enum") then write (enum_body o) inside
                else if decide (t = "fixed") then write (fixed_body o) inside
                else
                  let fields p := on_key "fields" (λ f,
                    match f with VArray fs => separated (render_field_with render_schema) true fs | _ => λ p, p end) (λ p, p) o p in
                  write (write_props o RECORD_KEYS) (write "]" (fields (write (attribute "fields" "[") inside))) in
              enter (p_space p) (write (write_aliases o +:+ "}") body)
          else if decide (t = "array") then
            let p := write ("{" +:+ quoted "type" +:+ ":" +:+ quoted "array" +:+ attribute "items" "") p in
            write (write_props o ["type"; "items"] +:+ "}") (on_key "items" render_schema (write (value_to_string VNull)) o p)
          else if decide (t = "map") then
            let p := write ("{" +:+ quoted "type" +:+ ":" +:+ quoted "map" +:+ attribute "values" "") p in
            write (write_props o ["type"; "values"] +:+ "}") (on_key "values" render_schema (write (value_to_string VNull)) o p)
          else if mem t PRIMITIVES then
            if decide (length o = 1) then write (json_str t) p
            else write ("{" +:+ quoted "type" +:+ ":" +:+ json_str t +:+ write_props o ["type"] +:+ "}") p
          else render_name t p
      | None => on_key "type" render_schema (write (value_to_string v)) o p
      end
  | v => write (value_to_string v) p
  end.

Definition render_field (f : Value) (p : Pen) : Pen := render_field_with render_schema f p.

(** Types defined by references are known up front and printed by name. *)
Definition known_of (refs : list ResolvedRef) : list string :=
  foldl (λ known r, match value_from_str (rr_schema r) with Ok v => collect_defined v "" known | Err _ => known end) [] refs.
Definition java_render (v : Value) (refs : list ResolvedRef) : string :=
  p_out (render_schema v (mkPen None (known_of refs) "")).
End render.

Section texts.
Context {text : JsonText}.
(** Java's [Schema#toString] of a schema given as JSON (for messages). *)
Definition java_string_of (v : Value) : string := java_render false v [].
Definition java_to_string (v : Value) (refs : list ResolvedRef) : string := java_render false v refs.
End texts.

(** * Definitions that repeat *)

(** [walk]: the names seen, or the first that is defined again. *)
Fixpoint redefinitions (v : Value) (ns : string) (seen : list string) : result string (list string) :=
  match v with
  | VArray a =>
      (fix go (l : list Value) (seen : list string) : result string (list string) :=
         match l with [] => Ok seen | x :: l => seen ← redefinitions x ns seen; go l seen end) a seen
  | VObject o =>
      let ty := default "" (str_at "type" o) in
      '(inner, seen) ← (match str_at "name" o with
        | Some name =>
            if mem ty NAMED_TYPES then
              let full := if contains_char "." name then name else
                let space := default ns (str_at "namespace" o) in
                if decide (space = "") then name else space +:+ "." +:+ name in
              if mem full seen then Err ("Can't redefine: " +:+ full)
              else Ok (from_option fst "" (rsplit_once_char "." full), seen ++ [full])
            else Ok (ns, seen)
        | None => Ok (ns, seen)
        end);
      seen ← on_key "type" (λ t, if is_string t then Ok seen else redefinitions t inner seen) (Ok seen) o;
      let child k seen := on_key k (λ x, redefinitions x inner seen) (Ok seen) o in
      seen ← child "fields" seen;
      seen ← child "items" seen;
      child "values" seen
  | _ => Ok seen
  end.

Section redefinitions.
Context {text : JsonText}.
Fixpoint seen_in_refs (refs : list ResolvedRef) (seen : list string) : result string (list string) :=
  match refs with
  | [] => Ok seen
  | r :: refs =>
      match value_from_str (rr_schema r) with
      | Ok v => seen ← redefinitions v "" seen; seen_in_refs refs seen
      | Err _ => seen_in_refs refs seen
      end
  end.
Definition check_redefinitions (v : Value) (refs : list ResolvedRef) : result string () :=
  seen ← seen_in_refs refs [];
  _ ← redefinitions v "" seen;
  Ok ().
End redefinitions.
