(* ===== verification/AvroJava.v ===== *)
(** Java Avro's schema parser checks (schema/avro_java.rs): the names a schema
    defines and refers to, its defaults, and the error for what is wrong first.
    The parser works on JSON values; names may be in any script
    (class [UnicodeTables]). *)
From S2P Require Import Prelude SortedVec RustStr Errors Json Float64 FloatText Model SchemaLayer Dump ProtoLex AvroRender.

Open Scope string_scope.
Open Scope nat_scope.
Open Scope list_scope.

(** * Parsed schemas *)

Inductive J :=
| JPrim (p : string)
| JRecord (full : string) (fields : list (string * J * option Value))
| JEnum (full : string) (first : option string) (symbols : list string)
| JFixed (full : string) (size : Z)
| JArray (items : J)
| JMap (values : J)
| JUnion (types : list J)
(** A named type, by full name (records may refer to themselves). *)
| JNamed (full : string).

Definition J_full_name (j : J) : string :=
  match j with
  | JPrim p => p
  | JRecord full _ | JEnum full _ _ | JFixed full _ | JNamed full => full
  | JArray _ => "array"
  | JMap _ => "map"
  | JUnion _ => "union"
  end.

(** * Names *)

Section names.
Context {tables : UnicodeTables}.

Definition name_char (ch : string) : bool := is_alphanumeric ch || is_char "_" ch.
(** [Schema.validateName]. *)
Definition validate_name (name : option string) : result string string :=
  match name with
  | None => Err "Null name"
  | Some name =>
      match chars name with
      | [] => Err "Empty name"
      | first :: rest =>
          if negb (is_alphabetic first) && negb (is_char "_" first) then Err ("Illegal initial character: " +:+ name)
          else if negb (forallb name_char rest) then Err ("Illegal character in: " +:+ name)
          else Ok name
      end
  end.

(** [Schema.Name]: namespace and full name. *)
Definition qualify (space : option string) (simple : string) : option string * string :=
  match space with
  | Some s => if decide (s = "") then (None, simple) else (Some s, s +:+ "." +:+ simple)
  | None => (None, simple)
  end.
Definition name_new (name : string) (space : option string) : result string (option string * string) :=
  match rsplit_once_char "." name with
  | Some (ns, simple) => simple ← validate_name (Some simple); Ok (qualify (Some ns) simple)
  | None => simple ← validate_name (Some name); Ok (qualify space simple)
  end.
End names.

(** * Numbers *)

Definition is_ascii_alphabetic (ch : string) : bool := ascii_is is_letter ch.
Definition float_suffixes : list string := ["d"; "D"; "f"; "F"].
(** [Double.valueOf] for the inputs that matter here. *)
Definition java_double (s : string) : option fp :=
  let t := trim s in
  if mem t ["NaN"; "+NaN"; "-NaN"] then Some NaN
  else if mem t ["Infinity"; "+Infinity"] then Some (Inf false)
  else if decide (t = "-Infinity") then Some (Inf true)
  else
    let t := default t (head (omap (λ x, strip_suffix x t) float_suffixes)) in
    if existsb (λ ch, is_ascii_alphabetic ch && negb (is_char "e" ch) && negb (is_char "E" ch)) (chars t) then None
    else parse_fp binary64 t.

(** [Double.toString] and [Float.toString]. *)
Definition with_point (s : string) : string := if contains_char "." s then s else s +:+ ".0".
(** [exp.parse::<i32>().unwrap_or(0)]. *)
Definition exponent_of (s : string) : Z :=
  let '(neg, r) := take_sign s in
  let '(x, n, r) := take_digits 0 0 r in
  let x := if neg then (- x)%Z else x in
  match n, r with S _, "" => if bool_decide (is_i32 x) then x else 0%Z | _, _ => 0%Z end.
Definition java_fp (f : fp) (is_float : bool) : string :=
  match f with
  | NaN => "NaN"
  | Inf neg => if neg then "-Infinity" else "Infinity"
  | Fin _ m _ =>
      let w := if is_float then binary32 else binary64 in
      let f' := if is_float then cast binary32 f else f in
      let digits := lower_exp w f' in
      let '(mant, exp) := default (digits, "0") (split_once_char "e" digits) in
      let milli := decimal binary64 false 1 (-3) in
      let ten_millions := decimal binary64 false 1 7 in
      if bool_decide (m = 0%Z) || (negb (fp_lt f milli) && fp_lt f ten_millions) then with_point (display w f')
      else with_point mant +:+ "E" +:+ pretty (exponent_of exp)
  end.

(** * Values of defaults *)

(** A Java datum from [JacksonUtils.toObject]; [None] stands for Java [null]. *)
Inductive D :=
| DNull
| DBool (b : bool)
| DInt (i : Z)
| DLong (i : Z)
| DFloat (f : fp)
| DDouble (f : fp)
| DStr (s : string)
| DBytes (s : string)
| DList (l : list (option D))
| DMap (m : list (string * option D)).

Definition NPE_DATUM : string :=
  "Cannot invoke " +:+ quoted "Object.getClass()" +:+ " because " +:+ quoted "datum" +:+ " is null".
Definition NPE_FIELD : string :=
  "Cannot invoke " +:+ quoted "org.apache.avro.Schema$Field.schema()" +:+ " because the return value of " +:+
  quoted "org.apache.avro.Schema.getField(String)" +:+ " is null".

Definition from_i64 (i : Z) : Value := VNumber (if bool_decide (0 ≤ i)%Z then PosInt i else NegInt i).
(** [from_f64(..).map(Value::Number).unwrap_or(Value::Null)]. *)
Definition number_or_null (f : option fp) : Value := from_option value_from_f64 VNull f.
Definition collect_map (l : list (string * Value)) : Map := map_extend [] l.

(** [AvroSchemaUtils.genJson] into a JSON value. *)
Fixpoint gen_datum (d : D) : result string Value :=
  let gen_json (d : option D) := match d with None => Err NPE_DATUM | Some d => gen_datum d end in
  match d with
  | DNull => Ok VNull
  | DBool b => Ok (VBool b)
  | DInt i | DLong i => Ok (from_i64 i)
  | DFloat f => Ok (number_or_null (parse_fp binary64 (display binary32 f)))
  | DDouble f => Ok (number_or_null (Some f))
  | DStr s | DBytes s => Ok (VString s)
  | DList l => VArray <$> mapM_result gen_json l
  | DMap m => (λ m, VObject (collect_map m)) <$>
      mapM_result (λ e, match e with (k, d) => v ← gen_json d; Ok (k, v) end) m
  end.
Definition gen_json (d : option D) : result string Value :=
  match d with None => Err NPE_DATUM | Some d => gen_datum d end.

(** * The table of names *)

Abbreviation Table := (gmap string J).

(** The table holds the definitions of named types, so a chain of names that is
    longer than the table would have no end. *)
Fixpoint resolve_fuel (fuel : nat) (names : Table) (j : J) : J :=
  match j with
  | JNamed n =>
      match names !! n with
      | Some x => match fuel with S fuel => resolve_fuel fuel names x | O => x end
      | None => j
      end
  | j => j
  end.
Definition resolve (names : Table) (j : J) : J := resolve_fuel (size names) names j.

Definition is_prim (ps : list string) (j : J) : bool := match j with JPrim p => mem p ps | _ => false end.
Definition is_f64 (v : Value) : bool := match v with VNumber (Float _) => true | _ => false end.
Definition fits_i32 (i : Z) : bool := bool_decide (is_i32 i).
Definition repeat_str (n : Z) (s : string) : string := String.concat "" (replicate (Z.to_nat n) s).

(** [Iterator::all] over a test that may not end. *)
Definition all_of {A} (f : A → option bool) : list A → option bool :=
  fix go (l : list A) : option bool :=
    match l with
    | [] => Some true
    | x :: l => b ← f x; if b : bool then go l else Some false
    end.
(** [iter().map(..).collect()], likewise. *)
Fixpoint collect {A B} (f : A → option B) (l : list A) : option (list B) :=
  match l with [] => Some [] | x :: l => y ← f x; ys ← collect f l; Some (y :: ys) end.
Fixpoint collect_ok {A B} (f : A → option (result string B)) (l : list A) : option (result string (list B)) :=
  match l with
  | [] => Some (Ok [])
  | x :: l =>
      y ← f x;
      match y with
      | Err e => Some (Err e)
      | Ok y => ys ← collect_ok f l; Some (fmap (M := result string) (cons y) ys)
      end
  end.

Definition prim_valid (p : string) (d : Value) : bool :=
  if mem p ["string"; "bytes"] then is_string d
  else if decide (p = "int") then from_option fits_i32 false (as_i64 d) && negb (is_f64 d)
  else if decide (p = "long") then bool_decide (is_Some (as_i64 d)) && negb (is_f64 d)
  else if mem p ["float"; "double"] then match d with VNumber _ => true | _ => false end
  else if decide (p = "boolean") then match d with VBool _ => true | _ => false end
  else if decide (p = "null") then is_null d
  else false.
Definition prim_stand_in (p : string) : Value :=
  if decide (p = "null") then VNull
  else if decide (p = "boolean") then VBool false
  else if mem p ["int"; "long"] then from_i64 0
  else if mem p ["float"; "double"] then value_from_f64 (zero binary64 false)
  else VString "".

Section table.
Context (names : Table).

(** The three walks through a type below run on fuel: [None] is a walk that goes
    on (and, in the program, a stack that overflows). *)

(** [Schema.isValidDefault]. *)
Fixpoint valid_default (fuel : nat) (j : J) (d : option Value) : option bool :=
  match fuel with
  | O => None
  | S fuel =>
      match d with
      | None => Some false
      | Some d =>
          match resolve names j with
          | JPrim p => Some (prim_valid p d)
          | JEnum _ _ _ | JFixed _ _ => Some (is_string d)
          | JArray items =>
              match as_array d with
              | Some a => all_of (λ e, valid_default fuel items (Some e)) a
              | None => Some false
              end
          | JMap values =>
              match as_object d with
              | Some o => all_of (λ e, valid_default fuel values (Some e.2)) o
              | None => Some false
              end
          | JUnion types => match types with t :: _ => valid_default fuel t (Some d) | [] => Some false end
          | JRecord _ fields =>
              if is_object d then
                all_of (λ f : string * J * option Value, let '(n, s, fd) := f in
                  valid_default fuel s (match get n d with Some e => Some e | None => fd end)) fields
              else Some false
          | _ => Some false
          end
      end
  end.

(** What the [apache_avro] model additionally insists on. *)
Fixpoint model_accepts (fuel : nat) (j : J) (d : Value) : option bool :=
  match fuel with
  | O => None
  | S fuel =>
      match resolve names j with
      | JEnum _ _ symbols => Some (from_option (λ s, mem s symbols) false (as_str d))
      | JFixed _ size => Some (from_option (λ s, bool_decide (Z.of_nat (length (chars s)) = size)) false (as_str d))
      | JUnion types => match types with t :: _ => model_accepts fuel t d | [] => Some true end
      | JArray items =>
          match as_array d with Some a => all_of (λ e, model_accepts fuel items e) a | None => Some true end
      | JMap values =>
          match as_object d with Some o => all_of (λ e, model_accepts fuel values e.2) o | None => Some true end
      | JRecord _ fields =>
          match as_object d with
          | Some o =>
              all_of (λ f : string * J * option Value, let '(n, t, _) := f in
                match map_get n o with Some e => model_accepts fuel t e | None => Some true end) fields
          | None => Some true
          end
      | _ => Some true
      end
  end.

(** Some value of this type (for tolerated invalid defaults). *)
Fixpoint stand_in (fuel : nat) (j : J) : option Value :=
  match fuel with
  | O => None
  | S fuel =>
      match resolve names j with
      | JPrim p => Some (prim_stand_in p)
      | JEnum _ first _ => Some (VString (default "" first))
      | JFixed _ size => Some (VString (repeat_str size (str1 NUL)))
      | JArray _ => Some (VArray [])
      | JMap _ => Some (VObject [])
      | JUnion types => match types with t :: _ => stand_in fuel t | [] => Some VNull end
      | JRecord _ fields =>
          (λ l, VObject (collect_map l)) <$>
          collect (λ f : string * J * option Value, let '(n, t, _) := f in pair n <$> stand_in fuel t) fields
      | JNamed _ => Some VNull
      end
  end.

(** A short type description for messages. *)
Definition type_json (j : J) : string :=
  match resolve names j with JPrim p => quoted p | other => quoted (J_full_name other) end.

(** [Schema.Type] name, as [Field#toString] prints it. *)
Definition type_name (j : J) : string :=
  match resolve names j with
  | JPrim p => if mem p ["null"; "boolean"; "int"; "long"; "float"; "double"; "bytes"] then to_ascii_uppercase p else "STRING"
  | JRecord _ _ => "RECORD" | JEnum _ _ _ => "ENUM" | JFixed _ _ => "FIXED" | JArray _ => "ARRAY" | JMap _ => "MAP"
  | JUnion _ => "UNION" | JNamed _ => "RECORD"
  end.

(** Latin-1, as Java reads bytes; [?] for what is not. *)
Definition latin1 (ch : string) : string :=
  match ch with
  | String _ "" => ch
  | String c _ => if bool_decide (cval c ≤ 195) then ch else "?"
  | "" => "?"
  end.

Definition as_bytes (t : string) : D := DBytes (String.concat "" (latin1 <$> chars t)).

(** [JacksonUtils.toObject(node, schema)]. *)
Fixpoint to_object (fuel : nat) (node : Value) (j : option J) : option (result string (option D)) :=
  match fuel with
  | O => None
  | S fuel =>
      let j := resolve names <$> j in
      let prim p := match j with Some (JPrim x) => bool_decide (x = p) | _ => false end in
      match j with
      | Some (JUnion types) => to_object fuel node (head types)
      | _ =>
          match node with
          | VNull => Some (Ok (Some DNull))
          | VBool b => Some (Ok (Some (DBool b)))
          | VNumber (Float bits) =>
              let f := of_bits bits in
              Some (Ok (if match j with None => true | _ => prim "double" end then Some (DDouble f)
                        else if prim "float" then Some (DFloat (cast binary32 f)) else None))
          | VNumber _ =>
              match as_i64 node with
              | None => Some (Ok None)
              | Some i =>
                  let is_int := fits_i32 i in
                  let any_int := match j with None => true | _ => prim "int" end in
                  Some (Ok (if prim "float" then Some (DFloat (of_integer binary32 i))
                            else if prim "double" then Some (DDouble (of_integer binary64 i))
                            else if is_int && any_int then Some (DInt i)
                            else if prim "long" || (negb is_int && any_int) then Some (DLong i)
                            else None))
              end
          | VString t =>
              Some (Ok match j with
                       | None | Some (JEnum _ _ _) => Some (DStr t)
                       | Some (JFixed _ _) => Some (as_bytes t)
                       | _ => if prim "string" then Some (DStr t) else if prim "bytes" then Some (as_bytes t) else None
                       end)
          | VArray items =>
              match j with
              | Some (JArray e) => fmap (M := result string) (Some ∘ DList) <$> collect_ok (λ x, to_object fuel x (Some e)) items
              | None => fmap (M := result string) (Some ∘ DList) <$> collect_ok (λ x, to_object fuel x None) items
              | Some other => Some (Err ("Not an array: " +:+ type_json other))
              end
          | VObject o =>
              let entry (e : string * Value) :=
                match j with
                | Some (JMap v) => fmap (M := result string) (pair e.1) <$> to_object fuel e.2 (Some v)
                | Some (JRecord _ fields) =>
                    match List.find (λ f : string * J * option Value, bool_decide (f.1.1 = e.1)) fields with
                    | Some (_, t, _) => fmap (M := result string) (pair e.1) <$> to_object fuel e.2 (Some t)
                    | None => Some (Err NPE_FIELD)
                    end
                | _ => fmap (M := result string) (pair e.1) <$> to_object fuel e.2 None
                end in
              fmap (M := result string) (Some ∘ DMap) <$> collect_ok entry o
          end
      end
  end.
End table.

(** * The parser *)

(** A default as Confluent's normalization renders it: converted, dropped
    ([None]), or the exception that conversion throws. *)
Abbreviation Normalized := (result string (option Value)).

Record PState := mkPState {
  ps_names : Table;
  ps_space : option string;
  (** JSON pointer of the node being parsed. *)
  ps_path : list string;
  (** Invalid defaults Java accepted: pointer and a stand-in. *)
  ps_lenient : list (string * Value);
  ps_normalized : list (string * Normalized);
  ps_numbers : list (string * string);
}.
Definition set_space (sp : option string) (s : PState) : PState :=
  mkPState (ps_names s) sp (ps_path s) (ps_lenient s) (ps_normalized s) (ps_numbers s).
Definition set_path (p : list string) (s : PState) : PState :=
  mkPState (ps_names s) (ps_space s) p (ps_lenient s) (ps_normalized s) (ps_numbers s).
Definition define (full : string) (j : J) (s : PState) : PState :=
  mkPState (<[full := j]> (ps_names s)) (ps_space s) (ps_path s) (ps_lenient s) (ps_normalized s) (ps_numbers s).
Definition push_lenient (e : string * Value) (s : PState) : PState :=
  mkPState (ps_names s) (ps_space s) (ps_path s) (ps_lenient s ++ [e]) (ps_normalized s) (ps_numbers s).
Definition push_normalized (e : string * Normalized) (s : PState) : PState :=
  mkPState (ps_names s) (ps_space s) (ps_path s) (ps_lenient s) (ps_normalized s ++ [e]) (ps_numbers s).
Definition push_number (e : string * string) (s : PState) : PState :=
  mkPState (ps_names s) (ps_space s) (ps_path s) (ps_lenient s) (ps_normalized s) (ps_numbers s ++ [e]).

(** A step of the parser: the new state, an error (the parser is dropped with
    it), or no end. *)
Definition M (A : Type) : Type := PState → option (result string (A * PState)).
#[export] Instance M_ret : MRet M := λ A a s, Some (Ok (a, s)).
#[export] Instance M_bind : MBind M := λ A B f m s,
  match m s with
  | Some (Ok (a, s)) => f a s
  | Some (Err e) => Some (Err e)
  | None => None
  end.
Definition fails {A} (e : string) : M A := λ _, Some (Err e).
Definition state : M PState := λ s, Some (Ok (s, s)).
Definition update (f : PState → PState) : M () := λ s, Some (Ok ((), f s)).
Definition lift {A} (r : result string A) : M A := λ s, Some (match r with Ok a => Ok (a, s) | Err e => Err e end).
Definition ends_in {A} (o : option A) : M A := λ s, a ← o; Some (Ok (a, s)).
Definition guard_that (b : bool) (e : string) : M () := if b then mret () else fails e.

(** [at]: a segment of the pointer around a step. *)
Definition at_seg {A} (seg : string) (m : M A) : M A := λ s,
  match m (set_path (ps_path s ++ [seg]) s) with
  | Some (Ok (a, s')) => Some (Ok (a, set_path (removelast (ps_path s')) s'))
  | r => r
  end.
Definition pointer (path : list string) : string := foldr (λ seg s, "/" +:+ seg +:+ s) "" path.

Definition each {A B} (f : nat → A → M B) : nat → list A → M (list B) :=
  fix go (i : nat) (l : list A) : M (list B) :=
    match l with
    | [] => mret []
    | x :: l => y ← f i x; ys ← go (S i) l; mret (y :: ys)
    end.

Section parser.
Context {text : JsonText} {tables : UnicodeTables}.
Context (validate_defaults : bool) (fuel : nat).

(** [Names#get]. *)
Definition get_name (o : string) (s : PState) : result string (option J) :=
  if mem o PRIMITIVES then Ok (Some (JPrim o))
  else
    n ← name_new o (ps_space s);
    if bool_decide (is_Some (ps_names s !! n.2)) then Ok (Some (JNamed n.2))
    else
      n ← name_new o None;
      Ok (if bool_decide (is_Some (ps_names s !! n.2)) then Some (JNamed n.2) else None).
Definition lookup_name (o : string) : M (option J) := λ s, lift (get_name o s) s.

(** [Names#add]. *)
Definition add (full : string) (j : J) : M () :=
  s ← state;
  _ ← guard_that (bool_decide (ps_names s !! full = None)) ("Can't redefine: " +:+ full);
  update (define full j).

(** [Schema.parseAliases]. *)
Definition aliases (v : Value) : result string () :=
  match Json.get "aliases" v with
  | None => Ok ()
  | Some (VArray a) =>
      match List.find (λ x, negb (is_string x)) a with
      | Some bad => Err ("alias not a string: " +:+ value_to_string bad)
      | None => Ok ()
      end
  | Some _ => Err ("aliases not an array: " +:+ value_to_string v)
  end.

Definition named_schema_check (full : string) : result string () :=
  refuse_if (mem full PRIMITIVES) ("Schemas may not be named after primitives: " +:+ full).

Definition required (o : Value) (key error : string) : result string string :=
  ok_or (Json.get key o ≫= as_str) (error +:+ ": " +:+ value_to_string o).

(** The checks of a union after its branches are parsed. *)
Fixpoint union_check (names : Table) (v : Value) (types : list J) (seen : list string) : result string () :=
  match types with
  | [] => Ok ()
  | t :: types =>
      match resolve names t with
      | JUnion _ => Err ("Nested union: " +:+ java_string_of v)
      | _ =>
          let name := J_full_name t in
          if mem name seen then Err ("Duplicate in union:" +:+ name) else union_check names v types (seen ++ [name])
      end
  end.

Definition order_check (field : Value) : result string () :=
  match Json.get "order" field with
  | None => Ok ()
  | Some order =>
      let o := to_ascii_uppercase (default "" (as_str order)) in
      if mem o ["ASCENDING"; "DESCENDING"; "IGNORE"] then Ok ()
      else Err ("No enum constant org.apache.avro.Schema.Field.Order." +:+ o)
  end.

(** The pointer of the default of field [fi] of the record being parsed. *)
Definition default_pointer (fi : nat) (s : PState) : string := pointer (ps_path s ++ ["fields"; pretty fi; "default"]).

(** A textual float or double default is converted first; the default to go on
    with, and whether it was text. *)
Definition textual_default (fi : nat) (fschema : J) (d : option Value) : M (option Value * bool) :=
  s ← state;
  match d with
  | Some (VString t) =>
      if is_prim ["float"; "double"] (resolve (ps_names s) fschema) then
        f ← lift (ok_or (java_double t) ("For input string: " +:+ quoted t));
        let ptr := default_pointer fi s in
        _ ← update (push_lenient (ptr, value_from_f64 (if is_finite f then f else zero binary64 false)));
        _ ← update (push_number (ptr, java_fp f false));
        let is_float := is_prim ["float"] (resolve (ps_names s) fschema) in
        _ ← update (push_normalized (ptr, Ok (Some (VString (RAW_NUMBER +:+ java_fp f is_float)))));
        mret (Some (value_from_f64 (if is_finite f then f else zero binary64 false)), true)
      else mret (d, false)
  | _ => mret (d, false)
  end.

(** The field constructor's check of a default. *)
Definition check_default (fi : nat) (fname : string) (ftype : Value) (fschema : J) (d : Value) : M () :=
  s ← state;
  let names := ps_names s in
  valid ← ends_in (valid_default names fuel fschema (Some d));
  fine ← (if valid then ends_in (model_accepts names fuel fschema d) else mret false);
  if fine : bool then mret ()
  else if validate_defaults && negb valid then
    fails ("Invalid default for field " +:+ fname +:+ ": " +:+ value_to_string d +:+ " not a " +:+ java_string_of ftype)
  else
    x ← ends_in (stand_in names fuel fschema);
    update (push_lenient (default_pointer fi s, x)).

(** The default as the normalized form renders it. *)
Definition note_normalized (fi : nat) (fschema : J) (d : Value) : M () :=
  s ← state;
  o ← ends_in (to_object (ps_names s) fuel d (Some fschema));
  let out : Normalized :=
    o ← o;
    match o with None => Ok None | Some o => Some <$> gen_json (Some o) end in
  update (push_normalized (default_pointer fi s, out)).

Definition when_some {A} (o : option A) (f : A → M ()) : M () := match o with Some a => f a | None => mret () end.

(** The checks of a field once its type is parsed: the order, the name, the
    default, the aliases. *)
Definition field_rest (fi : nat) (fname : string) (ftype : Value) (fschema : J) (fo : Map) : M (string * J * option Value) :=
  _ ← lift (order_check (VObject fo));
  td ← textual_default fi fschema (map_get "default" fo);
  _ ← lift (validate_name (Some fname));
  _ ← when_some td.1 (check_default fi fname ftype fschema);
  _ ← when_some (if td.2 : bool then None else td.1) (note_normalized fi fschema);
  _ ← lift (aliases (VObject fo));
  mret (fname, fschema, td.1).

(** One field of a record, given how its type is parsed. *)
Definition parse_field_with (schema : Value → M J) (fi : nat) (field : Value) : M (string * J * option Value) :=
  fname ← lift (required field "name" "No field name");
  match field with
  | VObject fo =>
      on_key "type" (λ ftype,
        _ ← (match ftype with
             | VString t =>
                 known ← lookup_name t;
                 guard_that (bool_decide (is_Some known))
                   (value_to_string ftype +:+ " is not a defined name. The type of the " +:+ quoted fname +:+
                    " field must be a defined name or a {" +:+ quoted "type" +:+ ": ...} expression.")
             | _ => mret ()
             end);
        fschema ← at_seg "fields" (at_seg (pretty fi) (at_seg "type" (schema ftype)));
        field_rest fi fname ftype fschema fo)
      (fails ("No field type: " +:+ value_to_string field)) fo
  | _ => fails ("No field type: " +:+ value_to_string field)
  end.

(** [RecordSchema#setFields]: no field twice. *)
Fixpoint position (n : string) (fields : list (string * J * option Value)) : option (nat * J) :=
  match fields with
  | [] => None
  | (m, s, _) :: fields => if decide (m = n) then Some (0, s) else prod_map S id <$> position n fields
  end.
Fixpoint repeated_field (names : Table) (full : string) (i : nat) (before fields : list (string * J * option Value)) : result string () :=
  match fields with
  | [] => Ok ()
  | (n, s, d) :: fields =>
      match position n before with
      | Some (j, s') =>
          Err ("Duplicate field " +:+ n +:+ " in record " +:+ full +:+ ": " +:+ n +:+ " type:" +:+ type_name names s +:+
               " pos:" +:+ pretty i +:+ " and " +:+ n +:+ " type:" +:+ type_name names s' +:+ " pos:" +:+ pretty j +:+ ".")
      | None => repeated_field names full (S i) (before ++ [(n, s, d)]) fields
      end
  end.

Fixpoint symbols_check (symbols : list Value) (seen : list string) : result string (list string) :=
  match symbols with
  | [] => Ok seen
  | s :: symbols =>
      sym ← validate_name (as_str s);
      if mem sym seen then Err ("Duplicate enum symbol: " +:+ sym)
      else symbols_check symbols (seen ++ [default "" (as_str s)])
  end.

Definition parse_enum (v : Value) (full : string) : M J :=
  match Json.get "symbols" v with
  | Some (VArray symbols) =>
      _ ← lift (named_schema_check full);
      seen ← lift (symbols_check symbols []);
      let list := omap as_str symbols in
      _ ← (match Json.get "default" v ≫= as_str with
           | Some d => guard_that (mem d seen)
               ("The Enum Default: " +:+ d +:+ " is not in the enum symbol set: [" +:+ join ", " list +:+ "]")
           | None => mret ()
           end);
      let e := JEnum full (head symbols ≫= as_str) list in
      _ ← add full e;
      mret e
  | _ => fails ("Enum has no symbols: " +:+ value_to_string v)
  end.

Definition fixed_size (v : Value) : option Z :=
  n ← Json.get "size" v ≫= as_i64;
  if fits_i32 n then Some n else None.
Definition parse_fixed (v : Value) (full : string) : M J :=
  match fixed_size v with
  | None => fails ("Invalid or no size: " +:+ value_to_string v)
  | Some n =>
      _ ← guard_that (bool_decide (0 ≤ n)%Z) ("Malformed data. Length is negative: " +:+ pretty n);
      _ ← lift (named_schema_check full);
      let f := JFixed full n in
      _ ← add full f;
      mret f
  end.

(** [{"type": name}]: [None] is nothing known by that name. *)
Definition parse_other (ty : string) : M (option J) :=
  s ← state;
  n ← lift (name_new ty (ps_space s));
  mret (if bool_decide (is_Some (ps_names s !! n.2)) then Some (JNamed n.2) else None).

Fixpoint schema (v : Value) : M J :=
  match v with
  | VString s =>
      j ← lookup_name s;
      match j with Some j => mret j | None => fails ("Undefined name: " +:+ value_to_string v) end
  | VArray items =>
      types ← each (λ i t, at_seg (pretty i) (schema t)) 0 items;
      s ← state;
      _ ← lift (union_check (ps_names s) v types []);
      mret (JUnion types)
  | VObject o =>
      ty ← lift (required v "type" "No type");
      s ← state;
      let saved := ps_space s in
      let named := mem ty NAMED_TYPES in
      full ← (if named then
          let space := match str_at "namespace" o with Some ns => Some ns | None => saved end in
          name ← lift (required v "name" "No name in schema");
          n ← lift (name_new name space);
          _ ← update (set_space n.1);
          mret n.2
        else mret "");
      result ←
        (if mem ty PRIMITIVES then mret (JPrim ty)
         else if mem ty ["record"; "error"] then
           _ ← lift (named_schema_check full);
           _ ← add full (JRecord full []);
           on_key "fields" (λ f,
             match f with
             | VArray fields_node =>
                 fields ← each (parse_field_with schema) 0 fields_node;
                 s ← state;
                 _ ← lift (repeated_field (ps_names s) full 0 [] fields);
                 let rec := JRecord full fields in
                 _ ← update (define full rec);
                 mret rec
             | _ => fails ("Record has no fields: " +:+ value_to_string v)
             end) (fails ("Record has no fields: " +:+ value_to_string v)) o
         else if decide (ty = "enum") then parse_enum v full
         else if decide (ty = "array") then
           on_key "items" (λ items, j ← at_seg "items" (schema items); mret (JArray j))
             (fails ("Array has no items type: " +:+ value_to_string v)) o
         else if decide (ty = "map") then
           on_key "values" (λ values, j ← at_seg "values" (schema values); mret (JMap j))
             (fails ("Map has no values type: " +:+ value_to_string v)) o
         else if decide (ty = "fixed") then parse_fixed v full
         else
           j ← parse_other ty;
           match j with Some j => mret j | None => fails ("Type not supported: " +:+ ty) end);
      _ ← update (set_space saved);
      _ ← (if named then lift (aliases v) else mret ());
      mret result
  | _ => fails ("Schema not yet supported: " +:+ value_to_string v)
  end.

Record Parsed := mkParsed {
  pd_lenient : list (string * Value);
  pd_normalized : list (string * Normalized);
  pd_numbers : list (string * string);
}.
(** [Parser#parse] for one (reference or root) schema; names accumulate. *)
Definition parse_value (names : Table) (v : Value) : option (result string (Parsed * Table)) :=
  r ← schema v (mkPState names None [] [] [] []);
  Some (match r with
        | Ok (_, s) => Ok (mkParsed (ps_lenient s) (ps_normalized s) (ps_numbers s), ps_names s)
        | Err e => Err e
        end).
End parser.
