(* ===== verification/AvroParse.v ===== *)
(** Reading an Avro schema (schema/avro.rs, [AvroSchema::parse]): Java's checks,
    the defaults that are exchanged, and the texts that are stored. The Avro
    library's own parser is a parameter (class [AvroCrate]). *)
From S2P Require Import Prelude SortedVec RustStr Errors Json Float64 FloatText Model SchemaLayer Dump ProtoLex Avro AvroRender AvroJava.

Open Scope string_scope.
Open Scope nat_scope.
Open Scope list_scope.

(** * JSON pointers ([Value::pointer_mut]) *)

Definition unescape (seg : string) : string := replace_str "~0" "~" (replace_str "~1" "/" seg).
(** An index has no sign and no leading zero (one that is too large for [usize]
    is past the end of any array). *)
Definition parse_index (seg : string) : option nat :=
  if starts_with "+" seg || (starts_with "0" seg && negb (bool_decide (String.length seg = 1))) then None
  else let '(x, n, r) := take_digits 0 0 seg in
    match n, r with S _, "" => Some (Z.to_nat x) | _, _ => None end.
Fixpoint update_key (k : string) (f : Value → option Value) (m : Map) : option Map :=
  match m with
  | [] => None
  | (k', v) :: m => if decide (k = k') then v' ← f v; Some ((k', v') :: m) else cons (k', v) <$> update_key k f m
  end.
Definition update_nth (i : nat) (f : Value → option Value) (l : list Value) : option (list Value) :=
  x ← l !! i; x' ← f x; Some (<[i := x']> l).
Fixpoint update_path (path : list string) (f : Value → Value) (v : Value) : option Value :=
  match path with
  | [] => Some (f v)
  | seg :: path =>
      match v with
      | VObject m => VObject <$> update_key seg (update_path path f) m
      | VArray l => i ← parse_index seg; VArray <$> update_nth i (update_path path f) l
      | _ => None
      end
  end.
Definition pointer_path (ptr : string) : option (list string) :=
  match ptr with
  | "" => Some []
  | String c _ => if decide (c = "/"%char) then Some (unescape <$> drop 1 (split_char "/" ptr)) else None
  end.
(** The value with what a pointer leads to changed; itself, when it leads nowhere. *)
Definition pointer_update (ptr : string) (f : Value → Value) (v : Value) : Value :=
  default v (path ← pointer_path ptr; update_path path f v).
Definition pointer_set (ptr : string) (x : Value) (v : Value) : Value := pointer_update ptr (λ _, x) v.

(** * Namespaces the library refuses *)

Definition ident_start (ch : string) : bool := is_ascii_alphabetic ch || is_char "_" ch.
Definition ascii_alnum (ch : string) : bool := ascii_is is_ascii_alphanumeric ch.
Definition safe_segment (seg : string) : string :=
  if match chars seg with ch :: _ => ident_start ch | [] => false end && forallb (λ ch, ascii_alnum ch || is_char "_" ch) (chars seg)
  then seg else "_" +:+ String.concat "" ((λ ch, if ascii_alnum ch then ch else "_") <$> chars seg).
Definition safe_namespace (ns : string) : string := join "." (safe_segment <$> split_char "." ns).
(** A name: the part before its last dot. *)
Definition safe_name (s : string) : string :=
  match rsplit_once_char "." s with Some (ns, simple) => safe_namespace ns +:+ "." +:+ simple | None => s end.
Definition safe_attribute (named : bool) (k s : string) : string :=
  if decide (k = "namespace") then safe_namespace s
  else if named && bool_decide (k = "name") then safe_name s else s.
Fixpoint model_safe_namespaces (v : Value) : Value :=
  match v with
  | VObject o =>
      let named := match str_at "type" o with Some t => mem t NAMED_TYPES | None => false end in
      VObject ((λ e, match e with (k, x) =>
        (k, match x with VString s => VString (safe_name (safe_attribute named k s)) | x => model_safe_namespaces x end) end) <$> o)
  | VArray a => VArray (model_safe_namespaces <$> a)
  | VString s => VString (safe_name s)
  | v => v
  end.

(** * Parsing *)

Class AvroCrate `{!AvroNames} := {
  (** [Schema::parse]. *)
  crate_parse : Value → result string Schema;
  (** [Schema::parse_str_with_list]: the schema, and the others. *)
  crate_parse_with_list : string → list string → result string (Schema * list Schema);
  (** The end of the first value of a text that is not one JSON value. *)
  first_value_end : string → option nat;
}.

(** The struct [AvroSchema]. *)
Record ParsedAvro `{!AvroNames} := mkParsedAvro {
  pa_schema : AvroSchema;
  pa_canonical : string;
  pa_normalized : string;
  pa_normalize_error : option string;
}.
Arguments mkParsedAvro {_} _ _ _ _.

Section parse.
Context {text : JsonText} {tables : UnicodeTables} {avro_names : AvroNames} {crate : AvroCrate}.
Context (validate_defaults : bool) (fuel : nat).

Definition read_error (t e : string) : string :=
  match first_value_end t with
  | Some n =>
      let rest := trim (slice_from t n) in
      if decide (rest = "") then "Invalid JSON: " +:+ e else "dangling content after end of schema: " +:+ rest
  | None => "Invalid JSON: " +:+ e
  end.

Definition with_stand_ins (lenient : list (string * Value)) (v : Value) : Value :=
  foldl (λ v e, pointer_set e.1 e.2 v) v lenient.
Definition with_numbers (numbers : list (string * string)) (v : Value) : Value :=
  foldl (λ v e, pointer_set e.1 (VString (RAW_NUMBER +:+ e.2)) v) v numbers.

(** The parent of a default: everything before the last [/]. *)
Definition parent_pointer (ptr : string) : string := from_option fst "" (rsplit_once_char "/" ptr).
Definition drop_default (v : Value) : Value :=
  match v with VObject o => VObject (filter (λ e, e.1 ≠ "default") o) | v => v end.
(** One default of the normalized form, and the first error of them. *)
Definition normalize_one (acc : Value * option string) (e : string * Normalized) : Value * option string :=
  match e.2 with
  | Ok (Some v) => (pointer_set e.1 v acc.1, acc.2)
  | Ok None => (pointer_update (parent_pointer e.1) drop_default acc.1, acc.2)
  | Err err => (acc.1, match acc.2 with Some first => Some first | None => Some err end)
  end.

(** The references: the names they define and the texts the library gets. *)
Fixpoint parse_refs (refs : list ResolvedRef) (names : Table) : option (result string (list string * Table)) :=
  match refs with
  | [] => Some (Ok ([], names))
  | r :: refs =>
      match value_from_str (rr_schema r) with
      | Ok v =>
          p ← parse_value validate_defaults fuel names v;
          match p with
          | Err e => Some (Err e)
          | Ok (p, names) =>
              rest ← parse_refs refs names;
              Some (match rest with
                    | Ok (texts, names) => Ok (value_to_string (with_stand_ins (pd_lenient p) v) :: texts, names)
                    | Err e => Err e
                    end)
          end
      | Err _ =>
          rest ← parse_refs refs names;
          Some (match rest with Ok (texts, names) => Ok (rr_schema r :: texts, names) | Err e => Err e end)
      end
  end.

(** What is done with a schema that passed Java's checks. *)
Definition finish (v : Value) (refs : list ResolvedRef) (dep_texts : list string) (root : Parsed) : result string ParsedAvro :=
  let value := with_numbers (pd_numbers root) v in
  let model_value := model_safe_namespaces (with_stand_ins (pd_lenient root) v) in
  let '(normalized_value, normalize_error) := foldl normalize_one (value, None) (pd_normalized root) in
  let compact := value_to_string model_value in
  '(schema, schemata) ← (match refs with
    | [] => s ← crate_parse model_value; Ok (s, [])
    | _ => crate_parse_with_list compact dep_texts
    end);
  _ ← check_redefinitions value refs;
  Ok (mkParsedAvro (avro_of schema schemata) (java_to_string value refs) (java_render true normalized_value refs) normalize_error).

Definition parse_str (t : string) (refs : list ResolvedRef) : option (result string ParsedAvro) :=
  match value_from_str t with
  | Err e => Some (Err (read_error t e))
  | Ok v =>
      deps ← parse_refs refs ∅;
      match deps with
      | Err e => Some (Err e)
      | Ok (dep_texts, names) =>
          root ← parse_value validate_defaults fuel names v;
          Some ('(root, _) ← root; finish v refs dep_texts root)
      end
  end.
Definition avro_parse (t : string) (refs : list ResolvedRef) : option (result SchemaError ParsedAvro) :=
  map_err SchemaErr.parse <$> parse_str t refs.
End parse.
