(* ===== verification/AvroShown.v ===== *)
(** The rendering of an Avro schema as a value: [shown] is the JSON value whose
    compact text the renderer writes, and showing a shown schema changes nothing
    once the names in it are known. *)
From S2P Require Import Prelude SortedVec RustStr Errors Json Model SchemaLayer Float64 Dump ProtoLex FloatText AvroRender.

Open Scope string_scope.
Open Scope nat_scope.
Open Scope list_scope.

(** * What is shown *)

(** A list through which the known names are threaded. *)
Definition thread {A B K} (f : A → K → B * K) : list A → K → list B * K :=
  fix go (l : list A) (k : K) : list B * K :=
    match l with
    | [] => ([], k)
    | x :: l => let '(y, k) := f x k in let '(ys, k) := go l k in (y :: ys, k)
    end.

Section shown.
Context (sort_props : bool).

Definition entry (k : string) (v : option Value) : Map := match v with Some v => [(k, v)] | None => [] end.
Definition shown_name (t : string) (space : option string) (known : list string) : string :=
  if mem t PRIMITIVES then t else qualified (referred t space known) space.
Definition shown_namespace (ns space : option string) : option Value :=
  match ns, space with
  | Some n, Some cur => if decide (n = cur) then None else Some (VString n)
  | Some n, None => Some (VString n)
  | None, Some cur => if decide (cur = "") then None else Some (VString "")
  | None, None => None
  end.
Definition shown_aliases (o : Map) : option Value :=
  match map_get "aliases" o with Some (VArray (x :: a)) => Some (VArray (x :: a)) | _ => None end.
Definition shown_doc (o : Map) : option Value := VString <$> str_at "doc" o.
Definition shown_order (o : Map) : option Value :=
  match str_at "order" o with
  | Some order => if decide (order = "ascending") then None else Some (VString order)
  | None => None
  end.
Definition shown_head (t full : string) (ns space : option string) (o : Map) : Map :=
  [("type", VString t); ("name", VString (last_segment full))] ++ entry "namespace" (shown_namespace ns space) ++ entry "doc" (shown_doc o).

Definition shown_field_with (show : Value → list string → Value * list string) (f : Value) (known : list string) : Value * list string :=
  match f with
  | VObject o =>
      let '(t, known) := on_key "type" show (λ known, (VNull, known)) o known in
      (VObject ([("name", VString (default "" (str_at "name" o))); ("type", t)] ++ entry "doc" (shown_doc o) ++
        entry "default" (map_get "default" o) ++ entry "order" (shown_order o) ++ entry "aliases" (shown_aliases o) ++
        props sort_props o FIELD_KEYS), known)
  | _ => (VNull, known)
  end.

Fixpoint shown (v : Value) (space : option string) (known : list string) : Value * list string :=
  match v with
  | VString t => (VString (shown_name t space known), known)
  | VArray branches => let '(l, known) := thread (λ b, shown b space) branches known in (VArray l, known)
  | VObject o =>
      match str_at "type" o with
      | Some t =>
          if mem t NAMED_TYPES then
            let '(full, ns) := named_of o (default "" space) in
            if mem full known then (VString (qualified full space), known)
            else
              let head := shown_head t full ns space o in
              if decide (t = "enum") then
                (VObject (head ++ [("symbols", default (VArray []) (map_get "symbols" o))] ++ entry "default" (map_get "default" o) ++
                  props sort_props o ENUM_KEYS ++ entry "aliases" (shown_aliases o)), known ++ [full])
              else if decide (t = "fixed") then
                (VObject (head ++ entry "size" (map_get "size" o) ++ props sort_props o FIXED_KEYS ++ entry "aliases" (shown_aliases o)), known ++ [full])
              else
                let '(fs, known) := on_key "fields" (λ f,
                  match f with VArray fs => thread (shown_field_with (λ v, shown v ns)) fs | _ => λ known, ([], known) end) (λ known, ([], known)) o (known ++ [full]) in
                (VObject (head ++ [("fields", VArray fs)] ++ props sort_props o RECORD_KEYS ++ entry "aliases" (shown_aliases o)), known)
          else if decide (t = "array") then
            let '(x, known) := on_key "items" (λ x, shown x space) (λ known, (VNull, known)) o known in
            (VObject ([("type", VString "array"); ("items", x)] ++ props sort_props o ["type"; "items"]), known)
          else if decide (t = "map") then
            let '(x, known) := on_key "values" (λ x, shown x space) (λ known, (VNull, known)) o known in
            (VObject ([("type", VString "map"); ("values", x)] ++ props sort_props o ["type"; "values"]), known)
          else if mem t PRIMITIVES then
            (if decide (length o = 1) then VString t else VObject (("type", VString t) :: props sort_props o ["type"]), known)
          else (VString (shown_name t space known), known)
      | None => on_key "type" (λ x, shown x space) (λ known, (v, known)) o known
      end
  | v => (v, known)
  end.
Definition shown_field (ns : option string) : Value → list string → Value * list string := shown_field_with (λ v, shown v ns).
End shown.

(** * Schemas that are rendered as JSON *)

(** A default the renderer takes for a converted number. *)
Definition marked (d : Value) : bool := bool_decide (is_Some (as_str d ≫= strip_prefix RAW_NUMBER)).

(** Fields are objects, a fixed type has its size, no default is marked. *)
Fixpoint printable (v : Value) : bool :=
  match v with
  | VArray l => forallb printable l
  | VObject o =>
      let ty := default "" (str_at "type" o) in
      let field f := match f with
        | VObject fo => on_key "type" printable true fo && negb (from_option marked false (map_get "default" fo))
        | _ => false
        end in
      if mem ty ["record"; "error"] then on_key "fields" (λ f, match f with VArray fs => forallb field fs | _ => true end) true o
      else if decide (ty = "fixed") then bool_decide (is_Some (map_get "size" o))
      else if decide (ty = "array") then on_key "items" printable true o
      else if decide (ty = "map") then on_key "values" printable true o
      else on_key "type" printable true o
  | _ => true
  end.

(** * The shape of JSON text *)

Fixpoint plain_word (s : string) : bool :=
  match s with "" => true | String c s => is_ascii_alphanumeric c && plain_word s end.

(** serde_json's compact form: brackets, commas and colons without white space,
    and quotes around a word. *)
Class JsonShape {text : JsonText} := {
  array_text l : value_to_string (VArray l) = "[" +:+ join "," (value_to_string <$> l) +:+ "]";
  object_text m : value_to_string (VObject m) = "{" +:+ join "," (member <$> m) +:+ "}";
  word_text s : plain_word s = true → value_to_string (VString s) = quoted s;
}.

(** * Lemmas *)

Lemma mem_true x l : mem x l = true ↔ x ∈ l.
Proof. unfold mem. apply bool_decide_eq_true. Qed.
Lemma mem_false x l : mem x l = false ↔ x ∉ l.
Proof. unfold mem. apply bool_decide_eq_false. Qed.

Lemma named_record t : mem t NAMED_TYPES = true → t ≠ "enum" → t ≠ "fixed" → mem t ["record"; "error"] = true.
Proof. rewrite !mem_true. unfold NAMED_TYPES. rewrite !elem_of_cons, elem_of_nil. naive_solver. Qed.
Lemma unnamed t : mem t NAMED_TYPES = false → mem t ["record"; "error"] = false ∧ t ≠ "fixed" ∧ t ≠ "enum".
Proof. rewrite !mem_false. unfold NAMED_TYPES. rewrite !not_elem_of_cons. naive_solver. Qed.

Lemma on_key_get {A} k (f : Value → A) d m : on_key k f d m = from_option f d (map_get k m).
Proof. induction m as [|[k' v] m IH]; [done|]. cbn. by case_decide. Qed.

(** Induction for functions that go through keys. *)
Lemma map_get_in k v m : map_get k m = Some v → (k, v) ∈ m.
Proof.
  induction m as [|[k' v'] m IH]; [done|]. cbn. case_decide; [intros [= ->]; subst; left|intros Hg; right; by apply IH].
Qed.
Lemma value_key_ind (P : Value → Prop) :
  (∀ v, match v with VArray _ | VObject _ => False | _ => True end → P v) →
  (∀ l, Forall P l → P (VArray l)) →
  (∀ o, (∀ k x, map_get k o = Some x → P x ∧ (∀ l, x = VArray l → Forall P l) ∧
       (∀ l, x = VArray l → Forall (λ f, match f with VObject fo => ∀ k y, map_get k fo = Some y → P y | _ => True end) l)) → P (VObject o)) →
  ∀ v, P v.
Proof.
  intros Ha Hl Ho v.
  set (Q := λ v, P v ∧ match v with VArray l => Forall P l | VObject o => ∀ k y, map_get k o = Some y → P y | _ => True end ∧
      match v with VArray l => Forall (λ f, match f with VObject fo => ∀ k y, map_get k fo = Some y → P y | _ => True end) l | _ => True end).
  enough (Q v) as [? _] by done. induction v as [v Hv|l IH|o IH] using value_nested_ind.
  - split_and!; [by apply Ha|by destruct v..].
  - assert (Forall P l) as Hp by (eapply Forall_impl; [done|by intros x [? _]]).
    split_and!; [by apply Hl|done|]. apply (Forall_impl _ _ _ IH). intros x (_ & Hx & _). by destruct x.
  - assert (∀ k y, map_get k o = Some y → Q y) as Hq.
    { intros k y Hy%map_get_in. by apply (proj1 (Forall_forall _ _) IH (k, y)). }
    split_and!; [|by intros k y Hy; apply (Hq k y Hy)|done].
    apply Ho. intros k y Hy. destruct (Hq k y Hy) as (? & H1 & H2). split_and!; [done|by intros l ->..].
Qed.

Definition commas (l : list string) : string := foldr (λ x s, "," +:+ x +:+ s) "" l.
Lemma join_commas x l : join "," (x :: l) = x +:+ commas l.
Proof. revert x. induction l as [|y l IH]; intros x; [cbn; by rewrite str_app_nil_r|]. change (join "," (x :: y :: l)) with (x +:+ "," +:+ join "," (y :: l)). by rewrite IH. Qed.
Lemma commas_app l k : commas (l ++ k) = commas l +:+ commas k.
Proof. induction l as [|x l IH]; [done|]. change (commas (x :: l ++ k) = commas (x :: l) +:+ commas k). unfold commas at 1 2. cbn [foldr]. fold (commas (l ++ k)) (commas l). by rewrite IH, !str_app_assoc. Qed.

Section text.
Context {text : JsonText} {shape : JsonShape}.
Context (sort_props : bool).

Lemma write_props_text o keys : write_props sort_props o keys = commas (member <$> props sort_props o keys).
Proof. unfold write_props, commas. induction (props sort_props o keys) as [|e m IH]; [done|]. cbn [fmap list_fmap foldr]. by rewrite IH. Qed.

Lemma object_cons e m : value_to_string (VObject (e :: m)) = "{" +:+ member e +:+ commas (member <$> m) +:+ "}".
Proof. rewrite object_text. cbn [fmap list_fmap]. by rewrite join_commas, str_app_assoc. Qed.
Lemma array_cons x l : value_to_string (VArray (x :: l)) = "[" +:+ value_to_string x +:+ commas (value_to_string <$> l) +:+ "]".
Proof. rewrite array_text. cbn [fmap list_fmap]. by rewrite join_commas, str_app_assoc. Qed.
Lemma array_nil : value_to_string (VArray []) = "[]".
Proof. by rewrite array_text. Qed.

Lemma member_word k v : plain_word k = true → member (k, v) = quoted k +:+ ":" +:+ value_to_string v.
Proof. intros Hk. unfold member, json_str. cbn [fst snd]. by rewrite word_text by done. Qed.
Lemma attribute_word k v : plain_word k = true → attribute k (value_to_string v) = commas [member (k, v)].
Proof. intros Hk. rewrite member_word by done. cbn. by rewrite str_app_nil_r. Qed.
Lemma attribute_entry k v : plain_word k = true →
  match v with Some v => attribute k (value_to_string v) | None => "" end = commas (member <$> entry k v).
Proof. intros Hk. destruct v as [v|]; [|done]. by apply attribute_word. Qed.

Lemma write_namespace_text ns space : write_namespace ns space = commas (member <$> entry "namespace" (shown_namespace ns space)).
Proof.
  rewrite <-attribute_entry by done. unfold write_namespace, shown_namespace. destruct ns, space; try done; case_decide; try done.
  by rewrite (word_text "").
Qed.
Lemma write_doc_text o : write_doc o = commas (member <$> entry "doc" (shown_doc o)).
Proof. rewrite <-attribute_entry by done. unfold write_doc, shown_doc. by destruct (str_at "doc" o). Qed.
Lemma write_aliases_text o : write_aliases o = commas (member <$> entry "aliases" (shown_aliases o)).
Proof. rewrite <-attribute_entry by done. unfold write_aliases, shown_aliases. by destruct (map_get "aliases" o) as [[| | | |[|x a]|]|]. Qed.

(** ** The renderer writes the text of what is shown *)

#[local] Arguments commas : simpl never.
#[local] Arguments String.append : simpl never.

(** The pen after something was shown. *)
Definition shown_pen (r : Value * list string) (p : Pen) : Pen := mkPen (p_space p) r.2 (p_out p +:+ value_to_string r.1).
Definition writes_shown (render : Value → Pen → Pen) (show : Value → option string → list string → Value * list string) (v : Value) : Prop :=
  ∀ p, render v p = shown_pen (show v (p_space p) (p_known p)) p.

Lemma pen_eta p : mkPen (p_space p) (p_known p) (p_out p) = p.
Proof. by destruct p. Qed.
Lemma write_write a b p : write b (write a p) = write (a +:+ b) p.
Proof. unfold write. cbn. by rewrite str_app_assoc. Qed.

(** A list of them, after its first element. *)
Lemma separated_tail (f : Value → Pen → Pen) (show : Value → list string → Value * list string) sp l :
  Forall (λ x, ∀ p, p_space p = sp → f x p = shown_pen (show x (p_known p)) p) l → ∀ p, p_space p = sp →
  separated f false l p = mkPen sp (thread show l (p_known p)).2 (p_out p +:+ commas (value_to_string <$> (thread show l (p_known p)).1)).
Proof.
  induction 1 as [|x l Hx _ IH]; intros p Hp; cbn; [rewrite str_app_nil_r, <-Hp; by destruct p|].
  rewrite Hx, IH by done. unfold shown_pen. cbn. destruct (show x (p_known p)) as [y k]. cbn.
  destruct (thread show l k) as [ys k']. cbn. by rewrite !str_app_assoc.
Qed.
Lemma separated_text (f : Value → Pen → Pen) (show : Value → list string → Value * list string) sp l p :
  Forall (λ x, ∀ p, p_space p = sp → f x p = shown_pen (show x (p_known p)) p) l → p_space p = sp →
  write "]" (separated f true l (write "[" p)) = mkPen sp (thread show l (p_known p)).2 (p_out p +:+ value_to_string (VArray (thread show l (p_known p)).1)).
Proof.
  destruct 1 as [|x l Hx Hl]; intros Hp; cbn -[String.append]; [rewrite array_nil, <-Hp; unfold write; cbn -[String.append]; by rewrite str_app_assoc|].
  rewrite Hx by done. unfold shown_pen. cbn. destruct (show x (p_known p)) as [y k]. cbn.
  rewrite (separated_tail f show sp) by done. cbn -[thread]. destruct (thread show l k) as [ys k']. unfold write. cbn.
  by rewrite array_cons, !str_app_assoc.
Qed.

Lemma commas_cons x l : commas (x :: l) = "," +:+ x +:+ commas l.
Proof. done. Qed.
Lemma commas_nil : commas [] = "".
Proof. done. Qed.

(** Both sides as pieces of text: attributes on one, members on the other. *)
Ltac spell_text :=
  unfold write_head, shown_pen, write, enter, know, attribute, shown_head; cbn [p_space p_known p_out fst snd app];
  rewrite ?write_props_text, ?write_aliases_text, ?write_doc_text, ?write_namespace_text, ?object_cons;
  repeat (progress rewrite ?fmap_app, ?commas_app, ?fmap_cons, ?fmap_nil, ?commas_cons, ?commas_nil);
  rewrite ?member_word by done; unfold json_str; f_equal; rewrite ?str_app_nil_r, ?str_app_assoc; try done.

Definition field_ok (f : Value) : bool :=
  match f with
  | VObject fo => on_key "type" printable true fo && negb (from_option marked false (map_get "default" fo))
  | _ => false
  end.

Lemma default_text_unmarked o : from_option marked false (map_get "default" o) = false →
  match map_get "default" o with Some d => attribute "default" (default_text d) | None => "" end = commas (member <$> entry "default" (map_get "default" o)).
Proof.
  intros Hm. rewrite <-attribute_entry by done. destruct (map_get "default" o) as [d|]; [|done]. cbn in Hm. unfold default_text.
  unfold marked in Hm. apply bool_decide_eq_false in Hm. destruct (_ ≫= _); [by destruct Hm|done].
Qed.
Lemma order_text o :
  match str_at "order" o with Some order => if decide (order = "ascending") then "" else attribute "order" (json_str order) | None => "" end =
  commas (member <$> entry "order" (shown_order o)).
Proof. rewrite <-attribute_entry by done. unfold shown_order. destruct (str_at "order" o) as [x|]; [|done]. by case_decide. Qed.

Definition renders (x : Value) : Prop :=
  printable x = true → ∀ p, render_schema sort_props x p = shown_pen (shown sort_props x (p_space p) (p_known p)) p.

Lemma field_text (o : Map) (p : Pen) : field_ok (VObject o) = true → (∀ x, map_get "type" o = Some x → renders x) →
  render_field_with sort_props (render_schema sort_props) (VObject o) p = shown_pen (shown_field sort_props (p_space p) (VObject o) (p_known p)) p.
Proof.
  unfold field_ok. rewrite andb_true_iff, negb_true_iff, on_key_get. intros [Ht Hd] Hx. unfold shown_field. cbn [render_field_with shown_field_with].
  rewrite !on_key_get. unfold field_tail. rewrite default_text_unmarked, order_text by done.
  destruct (map_get "type" o) as [x|]; cbn [from_option] in *.
  - rewrite (Hx x eq_refl Ht). cbn [p_space p_known write]. destruct (shown sort_props x (p_space p) (p_known p)) as [y k]. by spell_text.
  - by spell_text.
Qed.

Lemma enum_body_text o : enum_body sort_props o =
  commas (member <$> [("symbols", default (VArray []) (map_get "symbols" o))] ++ entry "default" (map_get "default" o) ++ props sort_props o ENUM_KEYS).
Proof. unfold enum_body. rewrite (attribute_entry "default") by done. by spell_text. Qed.
Lemma fixed_body_text o n : map_get "size" o = Some n →
  fixed_body sort_props o = commas (member <$> entry "size" (map_get "size" o) ++ props sort_props o FIXED_KEYS).
Proof. unfold fixed_body. intros ->. cbn [entry app]. by spell_text. Qed.

(** [{"type":t,"items":..}], with the properties after it. *)
Lemma wrapper_text t k keys o p : plain_word k = true → plain_word t = true →
  (∀ x, map_get k o = Some x → renders x) → from_option printable true (map_get k o) = true →
  write (write_props sort_props o keys +:+ "}") (on_key k (render_schema sort_props) (write (value_to_string VNull)) o
    (write ("{" +:+ quoted "type" +:+ ":" +:+ quoted t +:+ attribute k "") p)) =
  shown_pen (let '(x, known) := on_key k (λ x, shown sort_props x (p_space p)) (λ known, (VNull, known)) o (p_known p) in
    (VObject ([("type", VString t); (k, x)] ++ props sort_props o keys), known)) p.
Proof.
  intros Hk Ht Hx Hp. rewrite !on_key_get. destruct (map_get k o) as [x|]; cbn [from_option] in *.
  - rewrite (Hx x eq_refl Hp). cbn [p_space p_known write]. destruct (shown sort_props x (p_space p) (p_known p)) as [y ks]. spell_text.
    by rewrite (word_text t) by done.
  - spell_text. by rewrite (word_text t) by done.
Qed.

Lemma record_text t full ns o p : mem t ["record"; "error"] = true →
  (∀ fs, map_get "fields" o = Some (VArray fs) → forallb field_ok fs = true ∧
     Forall (λ f, match f with VObject fo => ∀ k y, map_get k fo = Some y → renders y | _ => True end) fs) →
  let fields p := on_key "fields" (λ f,
    match f with VArray fs => separated (render_field_with sort_props (render_schema sort_props)) true fs | _ => λ p, p end) (λ p, p) o p in
  enter (p_space p) (write (write_aliases o +:+ "}") (write (write_props sort_props o RECORD_KEYS) (write "]" (fields (write (attribute "fields" "[")
    (enter ns (write_head t full ns o (know full p)))))))) =
  shown_pen (let '(fs, known) := on_key "fields" (λ f,
      match f with VArray fs => thread (shown_field_with sort_props (λ v, shown sort_props v ns)) fs | _ => λ known, ([], known) end)
      (λ known, ([], known)) o (p_known p ++ [full]) in
    (VObject (shown_head t full ns (p_space p) o ++ [("fields", VArray fs)] ++ props sort_props o RECORD_KEYS ++ entry "aliases" (shown_aliases o)), known)) p.
Proof.
  intros Ht Hf. cbn zeta. rewrite !on_key_get.
  assert (∀ q, write (attribute "fields" "[") q = write "[" (write (attribute "fields" "") q)) as Hw by (intros q; rewrite write_write; by unfold attribute; rewrite !str_app_assoc).
  rewrite Hw. clear Hw. set (q := write (attribute "fields" "") _).
  assert (write "]" (write "[" q) = write (value_to_string (VArray [])) q) as Hnil by (by rewrite write_write, array_nil).
  destruct (map_get "fields" o) as [[| | | |fs|]|]; cbn [from_option]; rewrite ?Hnil; try (unfold q; by spell_text).
  destruct (Hf fs eq_refl) as [Hok Hr]. rewrite (separated_text _ (shown_field sort_props ns) ns); [|..|done].
  - change (p_known q) with (p_known p ++ [full]). fold (shown_field sort_props ns).
    destruct (thread (shown_field sort_props ns) fs (p_known p ++ [full])) as [ys k]. unfold q. by spell_text.
  - rewrite forallb_forall in Hok. apply Forall_forall. intros f Hin p' <-. pose proof (Hok f (proj1 (list_elem_of_In _ _) Hin)) as H1.
    pose proof (proj1 (Forall_forall _ _) Hr f Hin) as H2. destruct f; try done. apply field_text; [done|]. intros x. apply H2.
Qed.

(** The renderer writes the compact text of the shown schema, and leaves the
    names it knows as showing does. *)
Lemma render_shown v : renders v.
Proof.
  induction v as [v Hv|l IH|o IH] using value_key_ind; intros Hp p.
  - destruct v; try done; cbn [render_schema shown]. unfold render_name, shown_name. by destruct (mem s PRIMITIVES).
  - cbn [render_schema shown printable] in *. rewrite (separated_text (render_schema sort_props) (λ b, shown sort_props b (p_space p)) (p_space p)); [by destruct (thread _ l _)| |done].
    rewrite forallb_forall in Hp. apply Forall_forall. intros x Hx q Hq. rewrite <-Hq. apply (proj1 (Forall_forall _ _) IH x Hx). apply Hp. by apply list_elem_of_In.
  - cbn [render_schema shown]. destruct (str_at "type" o) as [t|] eqn:Et.
    2: { rewrite !on_key_get. cbn [printable] in Hp. rewrite Et in Hp. change (on_key "type" printable true o = true) in Hp. rewrite on_key_get in Hp.
      destruct (map_get "type" o) as [x|] eqn:Ex; cbn [from_option] in *; [|done]. by apply (IH _ _ Ex). }
    cbn [printable] in Hp. rewrite Et in Hp. cbn [default from_option id] in Hp. destruct (mem t NAMED_TYPES) eqn:En.
    + destruct (named_of o (default "" (p_space p))) as [full ns]. destruct (mem full (p_known p)) eqn:Ek; [done|].
      destruct (decide (t = "enum")) as [->|Hne]; [rewrite enum_body_text; by spell_text|].
      destruct (decide (t = "fixed")) as [->|Hnf].
      { cbn in Hp. apply bool_decide_eq_true in Hp as [n Hn]. rewrite (fixed_body_text o n Hn). by spell_text. }
      assert (mem t ["record"; "error"] = true) as Hrec by by apply named_record.
      apply record_text; [done|]. intros fs Hfs. rewrite Hrec, on_key_get, Hfs in Hp. cbn [from_option] in Hp. split; [done|]. by apply (IH _ _ Hfs).
    + destruct (unnamed t En) as (Hrec & Hnf & _). rewrite Hrec, (decide_False _ _ Hnf) in Hp.
      destruct (decide (t = "array")) as [->|Hna]; [rewrite on_key_get in Hp; apply wrapper_text; try done; intros x Hx; by apply (IH _ _ Hx)|].
      destruct (decide (t = "map")) as [->|Hnm]; [rewrite on_key_get in Hp; apply wrapper_text; try done; intros x Hx; by apply (IH _ _ Hx)|].
      destruct (mem t PRIMITIVES) eqn:Epr; [case_decide; [done|by spell_text]|].
      unfold render_name, shown_name. by rewrite Epr.
Qed.

End text.

(** * The compact text of JSON values as a function, an instance of the text class:
    strings with the escapes of serde_json, numbers that are integers in decimal.
    The examples about Avro schemas are evaluated with it. *)

Definition hex_digit (n : nat) : ascii := byte (if bool_decide (n < 10) then 48 + n else 87 + n).
Definition escaped (c : ascii) : string :=
  let esc x := String BACKSLASH (str1 x) in
  let n := cval c in
  if bool_decide (n = 34) then esc DQUOTE
  else if bool_decide (n = 92) then esc BACKSLASH
  else if bool_decide (n = 8) then esc "b"%char
  else if bool_decide (n = 12) then esc "f"%char
  else if bool_decide (n = 10) then esc "n"%char
  else if bool_decide (n = 13) then esc "r"%char
  else if bool_decide (n = 9) then esc "t"%char
  else if bool_decide (n < 32) then String BACKSLASH ("u00" +:+ str1 (hex_digit (n / 16)) +:+ str1 (hex_digit (n `mod` 16)))
  else str1 c.
Fixpoint escape (s : string) : string := match s with "" => "" | String c s => escaped c +:+ escape s end.

Definition number_text (n : Number) : string :=
  match n with
  | PosInt n | NegInt n => pretty n
  | Float bits => let s := display binary64 (of_bits bits) in if contains_char "." s then s else s +:+ ".0"
  end.

Fixpoint compact (v : Value) : string :=
  match v with
  | VNull => "null"
  | VBool b => if b then "true" else "false"
  | VNumber n => number_text n
  | VString s => quoted (escape s)
  | VArray l => "[" +:+ join "," (compact <$> l) +:+ "]"
  | VObject m => "{" +:+ join "," ((λ e, match e with (k, v) => quoted (escape k) +:+ ":" +:+ compact v end) <$> m) +:+ "}"
  end.

(** A text; nothing is read in the examples. *)
#[export] Instance compact_json : JsonText := {| value_to_string := compact; value_from_str _ := Err "expected value" |}.
#[export] Instance ascii_names : UnicodeTables := {| unicode_alphabetic _ := false; unicode_numeric _ := false |}.

Lemma escape_word s : plain_word s = true → escape s = s.
Proof.
  induction s as [|c s IH]; [done|]. cbn [plain_word escape]. rewrite andb_true_iff. intros [Hc Hs]. rewrite IH by done.
  assert (escaped c = str1 c) as ->; [|done]. unfold escaped. unfold is_ascii_alphanumeric, is_ascii_digit, is_ascii_upper, is_ascii_lower, in_range in Hc.
  rewrite !orb_true_iff, !bool_decide_eq_true in Hc. repeat (case_bool_decide; [lia|]). done.
Qed.
#[export] Instance compact_shape : JsonShape.
Proof.
  split; [done| |].
  - intros m. cbn. do 3 f_equal. apply list_fmap_ext. by intros _ [k v] _.
  - intros s Hs. cbn. by rewrite escape_word.
Qed.

(** * Schemas *)

Definition field_of (name : string) (type : Value) (default : option Value) : Value :=
  VObject ([("name", VString name); ("type", type)] ++ match default with Some d => [("default", d)] | None => [] end).
Definition record_of (name : string) (fields : list Value) : Value :=
  VObject [("type", VString "record"); ("name", VString name); ("fields", VArray fields)].

(** A linked list in a namespace, with a property and a default. *)
Definition list_schema : Value :=
  VObject [("namespace", VString "com.acme"); ("type", VString "record"); ("name", VString "Node"); ("owner", VString "core");
    ("fields", VArray [field_of "value" (VObject [("type", VString "int")]) (Some (VNumber (PosInt 0))); field_of "next" (VArray [VString "null"; VString "com.acme.Node"]) (Some VNull)])].
