(* ===== verification/AvroStable.v ===== *)
(** A shown Avro schema is shown as itself: the text the registry stores is the
    text it stores for that text. *)
From S2P Require Import Prelude SortedVec RustStr Errors Json Model SchemaLayer Dump AvroRender AvroShown.

Open Scope string_scope.
Open Scope nat_scope.
Open Scope list_scope.

(** * Objects *)

Lemma map_get_here k v (m : Map) : map_get k ((k, v) :: m) = Some v.
Proof. cbn. by rewrite decide_True. Qed.
Lemma map_get_there k k' v (m : Map) : k ≠ k' → map_get k ((k', v) :: m) = map_get k m.
Proof. intros H. cbn. by rewrite decide_False. Qed.
Lemma map_get_entry_same k v : map_get k (entry k v) = v.
Proof. destruct v; [apply map_get_here|done]. Qed.
Lemma map_get_entry_ne k k' v : k ≠ k' → map_get k (entry k' v) = None.
Proof. intros H. destruct v; [|done]. by cbn [entry]; rewrite map_get_there. Qed.
Lemma map_get_filter k (P : string * Value → Prop) `{∀ e, Decision (P e)} (m : Map) : (∀ v, ¬ P (k, v)) → map_get k (filter P m) = None.
Proof.
  intros HP. induction m as [|[k' v] m IH]; [done|]. rewrite filter_cons. case_decide as Hd; [|done].
  rewrite map_get_there; [done|]. intros ->. by destruct (HP v).
Qed.

(** * Properties *)

Lemma string_le_trans a b c : string_le a b → string_le b c → string_le a c.
Proof. unfold string_le. rewrite <-!Is_true_true. apply (transitivity (R := String.le)). Qed.

Definition sorted_map (m : Map) : Prop := Sorted (λ a b, prop_le a b = true) m.

Lemma insert_prop_front e m : sorted_map (e :: m) → insert_prop e m = e :: m.
Proof. destruct m as [|e' m]; [done|]. intros [_ H%HdRel_inv]%Sorted_inv. cbn. by rewrite H. Qed.
Lemma sort_map_sorted m : sorted_map m → sort_map m = m.
Proof.
  induction m as [|e m IH]; [done|]. intros H. cbn. fold (sort_map m). rewrite IH by (by apply Sorted_inv in H as [? _]). by apply insert_prop_front.
Qed.
Lemma prop_le_total a b : prop_le a b = false → prop_le b a = true.
Proof.
  unfold prop_le. rewrite bool_decide_eq_false, bool_decide_eq_true. unfold string_le. intros H.
  destruct (String.leb_total b.1 a.1) as [E|E]; congruence.
Qed.
Lemma insert_prop_sorted e m : sorted_map m → sorted_map (insert_prop e m).
Proof.
  unfold sorted_map. induction 1 as [|e' m Hm IH Hd]; cbn; [repeat constructor|].
  destruct (prop_le e e') eqn:E; [constructor; [by constructor|by constructor]|].
  constructor; [done|]. apply prop_le_total in E. destruct m as [|e'' m]; cbn; [by constructor|].
  apply HdRel_inv in Hd. destruct (prop_le e e''); by constructor.
Qed.
Lemma sort_map_is_sorted m : sorted_map (sort_map m).
Proof. induction m as [|e m IH]; [constructor|]. by apply insert_prop_sorted. Qed.

Lemma prop_le_trans a b c : prop_le a b = true → prop_le b c = true → prop_le a c = true.
Proof. unfold prop_le. rewrite !bool_decide_eq_true. apply string_le_trans. Qed.
Lemma insert_prop_filter (P : string * Value → Prop) `{∀ e, Decision (P e)} e m : sorted_map m →
  filter P (insert_prop e m) = if decide (P e) then insert_prop e (filter P m) else filter P m.
Proof.
  unfold sorted_map. intros Hs%Sorted_StronglySorted; [|intros a b c; apply prop_le_trans]. induction Hs as [|e' m Hm IH Hall]; cbn [insert_prop].
  - rewrite filter_cons, filter_nil. by case_decide.
  - destruct (prop_le e e') eqn:E.
    + rewrite (filter_cons _ e). case_decide as He; [|done]. rewrite filter_cons. case_decide; [cbn; by rewrite E|].
      assert (Forall (λ x, prop_le e x = true) (filter P m)) as Hf.
      { apply Forall_forall. intros x [_ Hx]%list_elem_of_filter. eapply prop_le_trans; [done|]. by apply (proj1 (Forall_forall _ _) Hall). }
      destruct (filter P m) as [|x l]; [done|]. cbn. apply Forall_cons in Hf as [-> _]. done.
    + rewrite !filter_cons, IH. repeat case_decide; try done. cbn. by rewrite E.
Qed.
Lemma sort_map_filter (P : string * Value → Prop) `{∀ e, Decision (P e)} m : filter P (sort_map m) = sort_map (filter P m).
Proof.
  induction m as [|e m IH]; [done|]. change (sort_map (e :: m)) with (insert_prop e (sort_map m)). rewrite insert_prop_filter by apply sort_map_is_sorted. rewrite filter_cons, IH. by case_decide.
Qed.

(** The properties of an object in which they already are the only ones left. *)
Lemma props_again sp (o out : Map) keys : filter (λ e, e.1 ∉ keys) out = props sp o keys → props sp out keys = props sp o keys.
Proof.
  unfold props. intros E. destruct sp; [|done]. rewrite sort_map_filter, E, sort_map_filter. apply sort_map_sorted, sort_map_is_sorted.
Qed.
Lemma props_kept sp o keys : filter (λ e : string * Value, e.1 ∉ keys) (props sp o keys) = props sp o keys.
Proof. unfold props. rewrite list_filter_filter. apply list_filter_iff. tauto. Qed.
Lemma props_get sp o keys k : k ∈ keys → map_get k (props sp o keys) = None.
Proof. intros Hk. unfold props. apply map_get_filter. by intros v Hv. Qed.
Lemma filter_entry (keys : list string) k v : k ∈ keys → filter (λ e : string * Value, e.1 ∉ keys) (entry k v) = [].
Proof. intros Hk. destruct v; [|done]. cbn [entry]. rewrite filter_cons, decide_False; [done|]. cbn. by intros ?. Qed.
Lemma filter_one (keys : list string) k v (m : Map) : k ∈ keys → filter (λ e : string * Value, e.1 ∉ keys) ((k, v) :: m) = filter (λ e, e.1 ∉ keys) m.
Proof. intros Hk. rewrite filter_cons, decide_False; [done|]. cbn. by intros ?. Qed.

(** * Names *)

Lemma rsplit_once_char_Some c s a b : rsplit_once_char c s = Some (a, b) → s = a +:+ String c b ∧ lacks c b.
Proof.
  unfold rsplit_once_char. destruct (split_once_char c (String.rev s)) as [[x y]|] eqn:E; [|done]. cbn. intros [= <- <-].
  apply split_once_char_Some in E as [E Hx]. rewrite lacks_rev. split; [|done].
  rewrite <-(rev_rev s), E, rev_app, rev_cons, str_app_assoc. done.
Qed.
Lemma has_char c a b : ¬ lacks c (a +:+ String c b).
Proof. rewrite lacks_app, lacks_cons. by intros (_ & ? & _). Qed.
Lemma last_segment_lacks full : lacks "." (last_segment full).
Proof.
  unfold last_segment. destruct (rsplit_once_char "." full) as [[a b]|] eqn:E; [by apply rsplit_once_char_Some in E as [_ ?]|by apply rsplit_once_char_None].
Qed.
Lemma last_segment_dot ns s : lacks "." s → last_segment (ns +:+ String "." s) = s.
Proof. intros Hs. unfold last_segment. by rewrite rsplit_once_char_app. Qed.
Lemma last_segment_plain s : lacks "." s → last_segment s = s.
Proof. unfold last_segment. by intros ->%rsplit_once_char_None. Qed.

(** A name whose namespace, if it has one, is not empty, and which is not
    mistaken for a primitive type when it is printed without it. *)
Definition proper (full : string) : bool :=
  negb (mem (last_segment full) PRIMITIVES) && match rsplit_once_char "." full with Some (ns, _) => negb (bool_decide (ns = "")) | None => true end.

(** What [split_name] gives: a name in a namespace, or a simple name. *)
Lemma split_name_shape name ns enc full sp : split_name name ns enc = (full, sp) → proper full = true →
  match sp with
  | Some n => n ≠ "" ∧ full = n +:+ "." +:+ last_segment full
  | None => lacks "." full
  end.
Proof.
  unfold split_name, proper. destruct (rsplit_once_char "." name) as [[a b]|] eqn:E.
  - intros [= <- <-]. rewrite E, andb_true_iff, !negb_true_iff, bool_decide_eq_false. intros [_ Ha]. split; [done|].
    apply rsplit_once_char_Some in E as [-> Hb]. by rewrite last_segment_dot.
  - apply rsplit_once_char_None in E. case_decide; intros [= <- <-]; [done|]. intros _. split; [done|]. by rewrite last_segment_dot.
Qed.
Lemma named_again name ns space full sp : split_name name ns (default "" space) = (full, sp) → proper full = true →
  split_name (last_segment full) (shown_namespace sp space ≫= as_str) (default "" space) = (full, sp).
Proof.
  intros Hs Hp. pose proof (split_name_shape _ _ _ _ _ Hs Hp) as H. unfold split_name. pose proof (last_segment_lacks full) as Hl.
  rewrite (proj2 (rsplit_once_char_None _ _) Hl). destruct sp as [n|].
  - destruct H as [Hn Hf]. assert (∀ x, default (default "" space) x = n → (if decide (default (default "" space) x = "") then (last_segment full, None) else (default (default "" space) x +:+ "." +:+ last_segment full, Some (default (default "" space) x))) = (full, Some n)) as Hx.
    { intros x ->. rewrite decide_False by done. by rewrite <-Hf. }
    apply Hx. unfold shown_namespace. destruct space as [cur|]; [case_decide; [by subst|done]|done].
  - rewrite (last_segment_plain _ H). unfold shown_namespace. destruct space as [cur|]; [destruct (decide (cur = "")) as [->|]; cbn|]; by rewrite decide_True.
Qed.

Section shown_name.
Context (known : list string) (Hknown : forallb proper known = true).
Lemma known_proper full : mem full known = true → proper full = true.
Proof. rewrite mem_true. intros H. rewrite forallb_forall in Hknown. apply Hknown. by apply list_elem_of_In. Qed.

Lemma referred_dotted f space : contains_char "." f = true → referred f space known = f.
Proof. intros Hd. unfold referred. rewrite Hd. by destruct (mem f known). Qed.

(** A reference that is printed refers to the same type. *)
Lemma shown_name_again t space : mem t PRIMITIVES = false → mem (referred t space known) known = true →
  let t' := qualified (referred t space known) space in mem t' PRIMITIVES = false ∧ referred t' space known = referred t space known.
Proof.
  intros Ht Hk. cbn zeta. pose proof (known_proper _ Hk) as Hp. set (full := referred t space known) in *. unfold qualified. unfold proper in Hp.
  rewrite andb_true_iff, negb_true_iff in Hp. destruct Hp as [Hprim Hns]. destruct (rsplit_once_char "." full) as [[n s]|] eqn:Er.
  - apply rsplit_once_char_Some in Er as [Ef Hs]. assert (last_segment full = s) as El by (rewrite Ef; by apply last_segment_dot).
    assert (contains_char "." full = true) as Hdot. { unfold contains_char. rewrite bool_decide_eq_true. apply not_eq_None_Some. intros H. rewrite Ef in H. by apply has_char in H. }
    assert (mem full PRIMITIVES = false ∧ referred full space known = full) as [H1 H2].
    { split; [|by apply referred_dotted]. apply mem_false. intros Hin. assert (Forall (λ p, contains_char "." p = false) PRIMITIVES) as HP by (repeat constructor).
      rewrite (proj1 (Forall_forall _ _) HP _ Hin) in Hdot. done. }
    destruct space as [cur|]; [|by split]. destruct (decide (n = cur)) as [<-|Hc]; [|by split]. rewrite El in Hprim. split; [done|].
    unfold referred. assert (contains_char "." s = false) as ->. { unfold contains_char. rewrite bool_decide_eq_false. unfold lacks in Hs. rewrite Hs. by intros [? ?]. }
    rewrite decide_False by by rewrite negb_true_iff, bool_decide_eq_false in Hns. change (n +:+ "." +:+ s) with (n +:+ String "." s). rewrite <-Ef, Hk. done.
  - assert (full = t) as E.
    { apply rsplit_once_char_None in Er. unfold full, referred in *. destruct (contains_char "." t) eqn:Ed; [by case_match|].
      destruct space as [cur|]; [|by case_match]. case_decide; [by case_match|]. case_match; [|done]. by apply has_char in Er. }
    destruct space; (split; [by rewrite E|]); rewrite E at 1; done.
Qed.
End shown_name.

(** * Showing twice *)

(** A test along a list through which names are threaded. *)
Definition through {A B K} (ok : A → K → bool) (f : A → K → B * K) : list A → K → bool :=
  fix go (l : list A) (k : K) : bool := match l with [] => true | x :: l => ok x k && go l (f x k).2 end.

(** Looking a key up in an object in parts, and its properties. *)
Ltac look := repeat first
  [ rewrite map_get_app | rewrite map_get_here | rewrite map_get_there by done | rewrite map_get_entry_same
  | rewrite map_get_entry_ne by done | rewrite props_get by (by apply mem_true) | done ].
Ltac strip := rewrite ?filter_app; repeat first
  [ rewrite filter_app | rewrite filter_entry by (by apply mem_true) | rewrite filter_one by (by apply mem_true) | rewrite props_kept | progress cbn [app] | rewrite filter_nil | rewrite app_nil_r ].

Section settled.
Context (sp : bool).

Definition settled_field_with (ok : Value → list string → bool) (f : Value) (known : list string) : bool :=
  match f with VObject fo => on_key "type" (λ x, ok x known) true fo | _ => true end.

(** Names are proper, no type is defined again, what is referred to is known, and
    an object around a primitive type says more than the type. *)
Fixpoint settled (v : Value) (space : option string) (known : list string) : bool :=
  match v with
  | VString t => mem t PRIMITIVES || mem (referred t space known) known
  | VArray l => through (λ b, settled b space) (λ b, shown sp b space) l known
  | VObject o =>
      match str_at "type" o with
      | Some t =>
          if mem t NAMED_TYPES then
            let '(full, ns) := named_of o (default "" space) in
            proper full && negb (mem full known) &&
            (if mem t ["enum"; "fixed"] then true
             else on_key "fields" (λ f,
               match f with
               | VArray fs => through (settled_field_with (λ v, settled v ns)) (shown_field sp ns) fs (known ++ [full])
               | _ => true
               end) true o)
          else if decide (t = "array") then on_key "items" (λ x, settled x space known) true o
          else if decide (t = "map") then on_key "values" (λ x, settled x space known) true o
          else if mem t PRIMITIVES then bool_decide (length o = 1) || negb (bool_decide (props sp o ["type"] = []))
          else mem (referred t space known) known
      | None => on_key "type" (λ x, settled x space known) true o
      end
  | _ => true
  end.

(** What is shown is shown as itself, and the names stay proper. *)
Definition again (show : list string → Value * list string) (show' : Value → list string → Value * list string) (known : list string) : Prop :=
  forallb proper (show known).2 = true ∧ show' (show known).1 known = show known.

Lemma thread_again {ok : Value → list string → bool} {show : Value → list string → Value * list string} l :
  Forall (λ x, ∀ known, forallb proper known = true → ok x known = true → again (show x) show known) l → ∀ known,
  forallb proper known = true → through ok show l known = true →
  forallb proper (thread show l known).2 = true ∧ thread show (thread show l known).1 known = thread show l known.
Proof.
  induction 1 as [|x l Hx _ IH]; intros known Hk; [done|]. cbn [through thread]. rewrite andb_true_iff. intros [H1 H2].
  destruct (Hx known Hk H1) as [Hp Ha]. destruct (show x known) as [y k] eqn:E. cbn [fst snd] in *. destruct (IH k Hp H2) as [Hp' Ha'].
  destruct (thread show l k) as [ys k'] eqn:E'. cbn [fst snd thread] in *. rewrite Ha. cbn. by rewrite Ha'.
Qed.

Lemma shown_doc_again o out : map_get "doc" out = shown_doc o → shown_doc out = shown_doc o.
Proof. unfold shown_doc, str_at. intros ->. by destruct (map_get "doc" o ≫= as_str). Qed.
Lemma shown_aliases_again o out : map_get "aliases" out = shown_aliases o → shown_aliases out = shown_aliases o.
Proof. unfold shown_aliases at 2. intros ->. unfold shown_aliases. by destruct (map_get "aliases" o) as [[| | | |[|x a]|]|]. Qed.

(** The attributes every named type begins with. *)
Lemma head_again t full ns space o body : named_of o (default "" space) = (full, ns) → proper full = true →
  (∀ k, k ∈ ["type"; "name"; "namespace"; "doc"] → map_get k body = None) →
  let out := shown_head t full ns space o ++ body in
  str_at "type" out = Some t ∧ named_of out (default "" space) = (full, ns) ∧ shown_head t full ns space out = shown_head t full ns space o.
Proof.
  intros Hn Hp Hb. cbn zeta. set (out := _ ++ _).
  assert (map_get "type" out = Some (VString t)) as H1 by done.
  assert (map_get "name" out = Some (VString (last_segment full))) as H2 by done.
  assert (map_get "namespace" out = shown_namespace ns space) as H3.
  { unfold out, shown_head. cbn [app]. look. rewrite Hb by set_solver. by destruct (shown_namespace ns space). }
  assert (map_get "doc" out = shown_doc o) as H4.
  { unfold out, shown_head. cbn [app]. look. rewrite Hb by set_solver. by destruct (shown_doc o). }
  split_and!.
  - unfold str_at. by rewrite H1.
  - unfold named_of, str_at. rewrite H2, H3. cbn [mbind option_bind as_str default from_option id]. by eapply named_again.
  - unfold shown_head. by rewrite (shown_doc_again _ _ H4).
Qed.

Definition enum_shown (o : Map) : Map :=
  [("symbols", default (VArray []) (map_get "symbols" o))] ++ entry "default" (map_get "default" o) ++ props sp o ENUM_KEYS ++ entry "aliases" (shown_aliases o).
Definition fixed_shown (o : Map) : Map := entry "size" (map_get "size" o) ++ props sp o FIXED_KEYS ++ entry "aliases" (shown_aliases o).
Definition record_shown (fs : list Value) (o : Map) : Map := [("fields", VArray fs)] ++ props sp o RECORD_KEYS ++ entry "aliases" (shown_aliases o).

Lemma enum_again t full ns space o : enum_shown (shown_head t full ns space o ++ enum_shown o) = enum_shown o.
Proof.
  set (out := shown_head _ _ _ _ _ ++ _). unfold enum_shown at 1. rewrite (props_again sp o out); [|unfold out, shown_head, enum_shown; by strip].
  rewrite (shown_aliases_again o out); [|unfold out, shown_head, enum_shown; look; by destruct (shown_aliases o)].
  assert (map_get "symbols" out = Some (default (VArray []) (map_get "symbols" o))) as -> by (unfold out, shown_head, enum_shown; look).
  assert (map_get "default" out = map_get "default" o) as -> by (unfold out, shown_head, enum_shown; look; by destruct (map_get "default" o)).
  done.
Qed.
Lemma fixed_again t full ns space o : fixed_shown (shown_head t full ns space o ++ fixed_shown o) = fixed_shown o.
Proof.
  set (out := shown_head _ _ _ _ _ ++ _). unfold fixed_shown at 1. rewrite (props_again sp o out); [|unfold out, shown_head, fixed_shown; by strip].
  rewrite (shown_aliases_again o out); [|unfold out, shown_head, fixed_shown; look; by destruct (shown_aliases o)].
  assert (map_get "size" out = map_get "size" o) as -> by (unfold out, shown_head, fixed_shown; look; by destruct (map_get "size" o)).
  done.
Qed.
Lemma record_again t full ns space o fs : record_shown fs (shown_head t full ns space o ++ record_shown fs o) = record_shown fs o.
Proof.
  set (out := shown_head _ _ _ _ _ ++ _). unfold record_shown at 1. rewrite (props_again sp o out); [|unfold out, shown_head, record_shown; by strip].
  rewrite (shown_aliases_again o out); [|unfold out, shown_head, record_shown; look; by destruct (shown_aliases o)]. done.
Qed.

Definition field_shown (t : Value) (o : Map) : Map :=
  [("name", VString (default "" (str_at "name" o))); ("type", t)] ++ entry "doc" (shown_doc o) ++ entry "default" (map_get "default" o) ++
  entry "order" (shown_order o) ++ entry "aliases" (shown_aliases o) ++ props sp o FIELD_KEYS.
Lemma field_shown_again t o : map_get "type" (field_shown t o) = Some t ∧ field_shown t (field_shown t o) = field_shown t o.
Proof.
  set (out := field_shown t o) at 1 2. split; [done|]. unfold field_shown at 1. rewrite (props_again sp o out); [|unfold out, field_shown; by strip].
  rewrite (shown_aliases_again o out); [|unfold out, field_shown; look; by destruct (shown_aliases o)].
  rewrite (shown_doc_again o out); [|unfold out, field_shown; look; by destruct (shown_doc o)].
  assert (map_get "default" out = map_get "default" o) as -> by (unfold out, field_shown; look; by destruct (map_get "default" o)).
  assert (shown_order out = shown_order o) as ->.
  { assert (map_get "order" out = shown_order o) as Ho by (unfold out, field_shown; look; by destruct (shown_order o)).
    unfold shown_order at 1, str_at at 1. rewrite Ho. unfold shown_order. destruct (str_at "order" o) as [x|]; [|done]. case_decide; [done|]. cbn. by rewrite decide_False. }
  assert (str_at "name" out = Some (default "" (str_at "name" o))) as -> by done. done.
Qed.
Lemma field_again ns o known : forallb proper known = true →
  (∀ x known, map_get "type" o = Some x → forallb proper known = true → settled x ns known = true → again (λ k, shown sp x ns k) (λ v, shown sp v ns) known) →
  settled_field_with (λ v, settled v ns) (VObject o) known = true →
  again (shown_field sp ns (VObject o)) (shown_field sp ns) known.
Proof.
  intros Hk Hx. cbn [settled_field_with]. unfold again, shown_field. cbn [shown_field_with]. rewrite !on_key_get.
  destruct (map_get "type" o) as [x|] eqn:Et; cbn [from_option].
  - intros Hs. destruct (Hx x known eq_refl Hk Hs) as [Hp Ha]. destruct (shown sp x ns known) as [y k]. cbn [fst snd] in *. fold (field_shown y o).
    destruct (field_shown_again y o) as [Ht Hf]. split; [done|]. cbn [shown_field_with]. rewrite on_key_get, Ht. cbn [from_option]. rewrite Ha. fold (field_shown y (field_shown y o)). by rewrite Hf.
  - intros _. cbn [fst snd]. fold (field_shown VNull o). destruct (field_shown_again VNull o) as [Ht Hf]. split; [done|].
    cbn [shown_field_with]. rewrite on_key_get, Ht. cbn [from_option shown]. fold (field_shown VNull (field_shown VNull o)). by rewrite Hf.
Qed.

(** An array or a map. *)
Lemma wrapper_again t key x space o known known' :
  (t = "array" ∧ key = "items" ∨ t = "map" ∧ key = "values") → shown sp x space known = (x, known') →
  shown sp (VObject ([("type", VString t); (key, x)] ++ props sp o ["type"; key])) space known =
  (VObject ([("type", VString t); (key, x)] ++ props sp o ["type"; key]), known').
Proof.
  intros H Ha. set (out := [_; _] ++ _). assert (props sp out ["type"; key] = props sp o ["type"; key]) as Hp.
  { apply props_again. unfold out. by destruct H as [[-> ->]|[-> ->]]; strip. }
  destruct H as [[-> ->]|[-> ->]]; cbn [shown]; rewrite !on_key_get.
  - change (str_at "type" out) with (Some "array"). change (map_get "items" out) with (Some x). cbn [from_option].
    change (mem "array" NAMED_TYPES) with false. rewrite decide_True by done. cbn iota. by rewrite Ha, Hp.
  - change (str_at "type" out) with (Some "map"). change (map_get "values" out) with (Some x). cbn [from_option].
    change (mem "map" NAMED_TYPES) with false. rewrite decide_False, decide_True by done. cbn iota. by rewrite Ha, Hp.
Qed.

(** Unfolding [shown] at a named type. *)
Lemma shown_named t o space known full ns : str_at "type" o = Some t → mem t NAMED_TYPES = true →
  named_of o (default "" space) = (full, ns) → mem full known = false →
  shown sp (VObject o) space known =
    if decide (t = "enum") then (VObject (shown_head t full ns space o ++ enum_shown o), known ++ [full])
    else if decide (t = "fixed") then (VObject (shown_head t full ns space o ++ fixed_shown o), known ++ [full])
    else let '(fs, known) := from_option (λ f, match f with VArray fs => thread (shown_field sp ns) fs | _ => λ known, ([], known) end)
           (λ known, ([], known)) (map_get "fields" o) (known ++ [full]) in
         (VObject (shown_head t full ns space o ++ record_shown fs o), known).
Proof. intros Ht Hn Ho Hk. cbn [shown]. rewrite Ht, Hn, Ho, Hk, on_key_get. done. Qed.

Lemma proper_snoc known full : forallb proper known = true → proper full = true → forallb proper (known ++ [full]) = true.
Proof. intros Hk Hp. rewrite forallb_app, Hk. cbn. by rewrite Hp. Qed.

Lemma fields_again ns fs known : forallb proper known = true →
  Forall (λ f, match f with VObject fo => ∀ k y, map_get k fo = Some y → ∀ space known, forallb proper known = true → settled y space known = true →
      again (λ k, shown sp y space k) (λ v, shown sp v space) known | _ => True end) fs →
  through (settled_field_with (λ v, settled v ns)) (shown_field sp ns) fs known = true →
  forallb proper (thread (shown_field sp ns) fs known).2 = true ∧
  thread (shown_field sp ns) (thread (shown_field sp ns) fs known).1 known = thread (shown_field sp ns) fs known.
Proof.
  intros Hk Hf. apply thread_again; [|done]. eapply Forall_impl; [exact Hf|]. intros f H k Hpk Hs. destruct f; try done.
  apply field_again; [done| |done]. intros x k' Hx Hpk' Hsx. by apply (H _ _ Hx).
Qed.

Definition stable (v : Value) : Prop := ∀ space known, forallb proper known = true → settled v space known = true →
  again (λ k, shown sp v space k) (λ v, shown sp v space) known.

Ltac head_free := intros k Hk; repeat (apply elem_of_cons in Hk as [->|Hk]; [look|]); by apply not_elem_of_nil in Hk.
Lemma enum_free o k : k ∈ ["type"; "name"; "namespace"; "doc"] → map_get k (enum_shown o) = None.
Proof. revert k. unfold enum_shown. head_free. Qed.
Lemma fixed_free o k : k ∈ ["type"; "name"; "namespace"; "doc"] → map_get k (fixed_shown o) = None.
Proof. revert k. unfold fixed_shown. head_free. Qed.
Lemma record_free fs o k : k ∈ ["type"; "name"; "namespace"; "doc"] → map_get k (record_shown fs o) = None.
Proof. revert k. unfold record_shown. head_free. Qed.

Lemma named_stable t o : str_at "type" o = Some t → mem t NAMED_TYPES = true →
  (∀ fs, map_get "fields" o = Some (VArray fs) → Forall (λ f, match f with VObject fo => ∀ k y, map_get k fo = Some y → stable y | _ => True end) fs) →
  stable (VObject o).
Proof.
  intros Ht Hn Hf space known Hk. cbn [settled]. rewrite Ht, Hn. destruct (named_of o (default "" space)) as [full ns] eqn:Ho.
  rewrite !andb_true_iff, negb_true_iff, on_key_get. intros [[Hp Hm] Hs]. pose proof (proper_snoc _ _ Hk Hp) as Hk'. unfold again.
  rewrite (shown_named t o space known full ns) by done. destruct (decide (t = "enum")) as [->|Hne].
  { destruct (head_again "enum" full ns space o (enum_shown o) Ho Hp (enum_free o)) as (E1 & E2 & E3). split; [done|]. cbn [fst].
    rewrite (shown_named "enum" _ space known full ns) by done. by rewrite decide_True, enum_again, E3. }
  destruct (decide (t = "fixed")) as [->|Hnf].
  { destruct (head_again "fixed" full ns space o (fixed_shown o) Ho Hp (fixed_free o)) as (E1 & E2 & E3). split; [done|]. cbn [fst].
    rewrite (shown_named "fixed" _ space known full ns) by done. by rewrite decide_False, decide_True, fixed_again, E3. }
  assert (mem t ["enum"; "fixed"] = false) as Het by (apply mem_false; rewrite !not_elem_of_cons; by split_and!; [..|apply not_elem_of_nil]). rewrite Het in Hs.
  assert (∃ fs k, from_option (λ f, match f with VArray fs => thread (shown_field sp ns) fs | _ => λ known, ([], known) end)
           (λ known, ([], known)) (map_get "fields" o) (known ++ [full]) = (fs, k) ∧ forallb proper k = true ∧
           thread (shown_field sp ns) fs (known ++ [full]) = (fs, k)) as (fs & k & E & Hpk & Ea).
  { destruct (map_get "fields" o) as [[| | | |fs|]|]; try by (exists [], (known ++ [full])). cbn [from_option] in *.
    destruct (fields_again ns fs _ Hk' (Hf fs eq_refl) Hs) as [H1 H2]. destruct (thread (shown_field sp ns) fs (known ++ [full])) as [ys k]. by exists ys, k. }
  rewrite E. cbn [fst snd]. split; [done|]. destruct (head_again t full ns space o (record_shown fs o) Ho Hp (record_free fs o)) as (E1 & E2 & E3).
  rewrite (shown_named t _ space known full ns), !decide_False by done.
  assert (map_get "fields" (shown_head t full ns space o ++ record_shown fs o) = Some (VArray fs)) as -> by (unfold shown_head, record_shown; look).
  cbn [from_option]. by rewrite Ea, record_again, E3.
Qed.

(** What is shown is shown as itself. *)
Lemma shown_stable v : stable v.
Proof.
  induction v as [v Hv|l IH|o IH] using value_key_ind.
  - intros space known Hk. destruct v; try done. cbn [settled shown]. intros Hs. split; [done|]. cbn [fst shown]. unfold shown_name.
    destruct (mem s PRIMITIVES) eqn:Ep; [by rewrite Ep|]. cbn in Hs. destruct (shown_name_again known Hk s space Ep Hs) as [E1 E2]. by rewrite E1, E2.
  - intros space known Hk. cbn [settled shown]. intros Hs. unfold again.
    destruct (thread_again (ok := λ b, settled b space) (show := λ b, shown sp b space) l) with (known := known) as [H1 H2]; [|done..|].
    { eapply Forall_impl; [exact IH|]. intros x Hx k Hpk Hsx. by apply Hx. }
    destruct (thread (λ b, shown sp b space) l known) as [ys k]. cbn [fst snd shown] in *. by rewrite H2.
  - destruct (str_at "type" o) as [t|] eqn:Et; [destruct (mem t NAMED_TYPES) eqn:En|].
    + apply (named_stable t); [done..|]. intros fs Hfs. by apply (IH _ _ Hfs).
    + intros space known Hk. cbn [settled]. rewrite Et, En, !on_key_get. unfold again. cbn [shown]. rewrite Et, En, !on_key_get.
      assert (∀ key x, map_get key o = Some x → settled x space known = true → again (λ k, shown sp x space k) (λ v, shown sp v space) known) as Hx
        by (intros key x Hx Hs; by apply (IH _ _ Hx)).
      destruct (decide (t = "array")) as [->|Hna]; [|destruct (decide (t = "map")) as [->|Hnm]].
      * destruct (map_get "items" o) as [x|] eqn:Ex; cbn [from_option]; intros Hs.
        -- destruct (Hx _ _ Ex Hs) as [H1 H2]. destruct (shown sp x space known) as [y k]. split; [done|]. by apply wrapper_again; [left|].
        -- split; [done|]. by apply wrapper_again; [left|].
      * destruct (map_get "values" o) as [x|] eqn:Ex; cbn [from_option]; intros Hs.
        -- destruct (Hx _ _ Ex Hs) as [H1 H2]. destruct (shown sp x space known) as [y k]. split; [done|]. by apply wrapper_again; [right|].
        -- split; [done|]. by apply wrapper_again; [right|].
      * unfold shown_name. destruct (mem t PRIMITIVES) eqn:Ep; intros Hs; (split; [done|]); cbn [fst].
        -- destruct (decide (length o = 1)) as [Hlen|Hlen]; cbn [fst]; [cbn [shown]; unfold shown_name; by rewrite Ep|]. rewrite orb_true_iff, bool_decide_eq_true in Hs. destruct Hs as [?|Hs]; [done|].
           rewrite negb_true_iff, bool_decide_eq_false in Hs. set (out := _ :: _). assert (props sp out ["type"] = props sp o ["type"]) as Hp by (apply props_again; unfold out; by strip).
           cbn [shown]. change (str_at "type" out) with (Some t). cbn iota beta. rewrite En, !decide_False, Ep, Hp by (done || (unfold out; cbn; by destruct (props sp o ["type"]))). done.
        -- cbn [shown]. unfold shown_name. destruct (shown_name_again known Hk t space Ep Hs) as [E1 E2]. by rewrite E1, E2.
    + intros space known Hk. cbn [settled]. rewrite Et, on_key_get. unfold again. cbn [shown]. rewrite Et, on_key_get.
      destruct (map_get "type" o) as [x|] eqn:Ex; cbn [from_option]; intros Hs; [by apply (IH _ _ Ex)|].
      split; [done|]. cbn [fst shown]. by rewrite Et, on_key_get, Ex.
Qed.
End settled.

(** * What is shown can be printed and read *)

Section exact.
Context (sp : bool).

Lemma exact_array l : exact_value (VArray l) ↔ Forall exact_value l.
Proof. cbn. induction l as [|x l IH]; cbn; [done|]. by rewrite IH, Forall_cons. Qed.
Lemma exact_object (m : Map) : exact_value (VObject m) ↔ NoDup m.*1 ∧ Forall (λ e, exact_value e.2) m.
Proof. cbn. apply and_iff_compat_l. induction m as [|x m IH]; cbn; [done|]. by rewrite IH, Forall_cons. Qed.
Lemma exact_perm (m n : Map) : m ≡ₚ n → exact_value (VObject m) → exact_value (VObject n).
Proof. intros E. rewrite !exact_object. by rewrite E. Qed.
Lemma exact_get k o x : exact_value (VObject o) → map_get k o = Some x → exact_value x.
Proof. rewrite exact_object. intros [_ Ho] Hx%map_get_in. by apply (proj1 (Forall_forall _ _) Ho (k, x)). Qed.

Lemma insert_prop_perm e m : insert_prop e m ≡ₚ e :: m.
Proof. induction m as [|e' m IH]; cbn; [done|]. destruct (prop_le e e'); [done|]. by rewrite IH, Permutation_swap. Qed.
Lemma sort_map_perm m : sort_map m ≡ₚ m.
Proof. induction m as [|e m IH]; [done|]. cbn. fold (sort_map m). by rewrite insert_prop_perm, IH. Qed.
Lemma props_perm o keys : props sp o keys ≡ₚ filter (λ e, e.1 ∉ keys) o.
Proof. unfold props. destruct sp; [|done]. by rewrite sort_map_perm. Qed.

(** Attributes in order, those that are there. *)
Definition slots (l : list (string * option Value)) : Map := l ≫= λ e, entry e.1 e.2.

Lemma slots_keys l k : k ∈ (slots l).*1 → k ∈ l.*1.
Proof.
  induction l as [|[k' v] l IH]; [done|]. cbn [slots mbind list_bind fmap list_fmap fst]. fold (slots l). rewrite fmap_app, elem_of_app, elem_of_cons.
  intros [H|H]; [left|right; by apply IH]. destruct v; cbn in H; [by apply list_elem_of_singleton in H|by apply not_elem_of_nil in H].
Qed.
Lemma slots_exact l o keys : NoDup l.*1 → Forall (λ e, e.1 ∈ keys ∧ from_option exact_value True e.2) l → exact_value (VObject o) →
  exact_value (VObject (slots l ++ props sp o keys)).
Proof.
  intros Hnd Hl Ho. rewrite exact_object. rewrite fmap_app, NoDup_app, Forall_app. rewrite props_perm. apply exact_object in Ho as [Hno Hfo]. split_and!.
  - induction l as [|[k v] l IH]; [constructor|]. cbn [slots mbind list_bind fst snd]. fold (slots l). apply NoDup_cons in Hnd as [Hk Hnd]. apply Forall_cons in Hl as [_ Hl].
    destruct v as [v|]; [|by apply IH]. cbn. constructor; [|by apply IH]. by intros H%slots_keys.
  - intros k Hk%slots_keys [e [-> [He _]%list_elem_of_filter]]%list_elem_of_fmap. apply list_elem_of_fmap in Hk as [e' [E He']].
    apply He. rewrite E. by apply (proj1 (Forall_forall _ _) Hl e' He').
  - eapply sublist_NoDup; [done|]. apply fmap_sublist, sublist_filter.
  - induction l as [|[k v] l IH]; [constructor|]. cbn [slots mbind list_bind fst snd]. fold (slots l). apply NoDup_cons in Hnd as [_ Hnd]. apply Forall_cons in Hl as [[_ Hv] Hl].
    destruct v as [v|]; [constructor; [done|by apply IH]|by apply IH].
  - apply Forall_forall. intros e [_ He]%list_elem_of_filter. by apply (proj1 (Forall_forall _ _) Hfo).
Qed.

Lemma exact_aliases o : exact_value (VObject o) → from_option exact_value True (shown_aliases o).
Proof.
  intros Ho. unfold shown_aliases. destruct (map_get "aliases" o) as [[| | | |[|x a]|]|] eqn:E; try done. by apply (exact_get _ _ _ Ho E).
Qed.
Lemma exact_opt_get k o : exact_value (VObject o) → from_option exact_value True (map_get k o).
Proof. intros Ho. destruct (map_get k o) as [x|] eqn:E; [|done]. by apply (exact_get _ _ _ Ho E). Qed.
Lemma exact_namespace ns space : from_option exact_value True (shown_namespace ns space).
Proof. unfold shown_namespace. destruct ns, space; try done; by case_decide. Qed.
Lemma exact_doc o : from_option exact_value True (shown_doc o).
Proof. unfold shown_doc. by destruct (str_at "doc" o). Qed.
Lemma exact_order o : from_option exact_value True (shown_order o).
Proof. unfold shown_order. destruct (str_at "order" o); [|done]. by case_decide. Qed.

Definition head_slots (t full : string) (ns space : option string) (o : Map) : list (string * option Value) :=
  [("type", Some (VString t)); ("name", Some (VString (last_segment full))); ("namespace", shown_namespace ns space); ("doc", shown_doc o)].

(** The attributes of an object, each exact and with a key of its own. *)
Ltac exact_slots :=
  match goal with |- exact_value (VObject (slots ?l ++ props _ _ _)) =>
    apply slots_exact; [cbn [fmap list_fmap fst]; apply (bool_decide_unpack _); vm_compute; exact I|
      repeat (apply Forall_cons; split; [split; [by apply mem_true|cbn [snd]; first [done|by auto using exact_aliases, exact_opt_get, exact_namespace, exact_doc, exact_order]]|]); apply Forall_nil; exact I|done]
  end.

Lemma exact_enum t full ns space o : exact_value (VObject o) → exact_value (VObject (shown_head t full ns space o ++ enum_shown sp o)).
Proof.
  intros Ho. assert (exact_value (default (VArray []) (map_get "symbols" o))) as Hs by (pose proof (exact_opt_get "symbols" o Ho) as H; by destruct (map_get "symbols" o)).
  apply (exact_perm (slots (head_slots t full ns space o ++ [("symbols", Some (default (VArray []) (map_get "symbols" o))); ("default", map_get "default" o); ("aliases", shown_aliases o)]) ++ props sp o ENUM_KEYS)).
  - unfold enum_shown, shown_head, head_slots. cbn [slots mbind list_bind fst snd app entry]. rewrite app_nil_r, <-!app_assoc. cbn [app]. by rewrite <-?app_assoc, (Permutation_app_comm (entry "aliases" _)).
  - unfold head_slots. cbn [app]. exact_slots.
Qed.
Lemma exact_fixed t full ns space o : exact_value (VObject o) → exact_value (VObject (shown_head t full ns space o ++ fixed_shown sp o)).
Proof.
  intros Ho. apply (exact_perm (slots (head_slots t full ns space o ++ [("size", map_get "size" o); ("aliases", shown_aliases o)]) ++ props sp o FIXED_KEYS)).
  - unfold fixed_shown, shown_head, head_slots. cbn [slots mbind list_bind fst snd app entry]. rewrite app_nil_r, <-!app_assoc. cbn [app]. by rewrite <-?app_assoc, (Permutation_app_comm (entry "aliases" _)).
  - unfold head_slots. cbn [app]. exact_slots.
Qed.
Lemma exact_record t full ns space o fs : exact_value (VObject o) → Forall exact_value fs → exact_value (VObject (shown_head t full ns space o ++ record_shown sp fs o)).
Proof.
  intros Ho Hfs%exact_array. apply (exact_perm (slots (head_slots t full ns space o ++ [("fields", Some (VArray fs)); ("aliases", shown_aliases o)]) ++ props sp o RECORD_KEYS)).
  - unfold record_shown, shown_head, head_slots. cbn [slots mbind list_bind fst snd app entry]. rewrite app_nil_r, <-!app_assoc. cbn [app]. by rewrite <-?app_assoc, (Permutation_app_comm (entry "aliases" _)).
  - unfold head_slots. cbn [app]. exact_slots.
Qed.
Lemma exact_field t o : exact_value (VObject o) → exact_value t → exact_value (VObject (field_shown sp t o)).
Proof.
  intros Ho Ht. change (exact_value (VObject (slots [("name", Some (VString (default "" (str_at "name" o)))); ("type", Some t)] ++ entry "doc" (shown_doc o) ++ entry "default" (map_get "default" o) ++
    entry "order" (shown_order o) ++ entry "aliases" (shown_aliases o) ++ props sp o FIELD_KEYS))).
  assert (∀ l k v m, slots l ++ entry k v ++ m = slots (l ++ [(k, v)]) ++ m) as E.
  { intros l k v m. unfold slots. rewrite bind_app, <-app_assoc. cbn [mbind list_bind fst snd]. by rewrite app_nil_r. }
  rewrite !E. cbn [app]. exact_slots.
Qed.
Lemma exact_wrapper t k x o : k ≠ "type" → exact_value (VObject o) → exact_value x → exact_value (VObject ([("type", VString t); (k, x)] ++ props sp o ["type"; k])).
Proof.
  intros Hk Ho Hx. apply (slots_exact [("type", Some (VString t)); (k, Some x)] o ["type"; k]); [| |done].
  - cbn. rewrite !NoDup_cons, list_elem_of_singleton. split_and!; [done|apply not_elem_of_nil|constructor].
  - repeat constructor; cbn; try done; set_solver.
Qed.

Lemma thread_exact (show : Value → list string → Value * list string) l :
  Forall (λ x, ∀ known, exact_value (show x known).1) l → ∀ known, Forall exact_value (thread show l known).1.
Proof.
  induction 1 as [|x l Hx _ IH]; intros known; [constructor|]. cbn. specialize (Hx known). destruct (show x known) as [y k]. specialize (IH k).
  destruct (thread show l k). by constructor.
Qed.
Lemma exact_keys o keys t : exact_value (VObject o) → exact_value (VObject (("type", VString t) :: props sp o ("type" :: keys))).
Proof.
  intros Ho. apply (slots_exact [("type", Some (VString t))] o ("type" :: keys)); [apply NoDup_singleton| |done]. repeat constructor; cbn; set_solver.
Qed.

Lemma shown_field_exact ns f : (∀ fo, f = VObject fo → exact_value f ∧ ∀ x, map_get "type" fo = Some x → ∀ known, exact_value (shown sp x ns known).1) →
  ∀ known, exact_value (shown_field sp ns f known).1.
Proof.
  intros Hf known. destruct f as [| | | | |fo]; try done. destruct (Hf fo eq_refl) as [Ho Hx]. unfold shown_field. cbn [shown_field_with]. rewrite on_key_get.
  destruct (map_get "type" fo) as [x|]; cbn [from_option]; [|by apply exact_field].
  specialize (Hx x eq_refl known). destruct (shown sp x ns known) as [y k]. by apply exact_field.
Qed.

(** What is shown of a value that is read back as it was written is read back. *)
Lemma shown_exact v : exact_value v → ∀ space known, exact_value (shown sp v space known).1.
Proof.
  induction v as [v Hv|l IH|o IH] using value_key_ind; intros Ho space known.
  - by destruct v.
  - cbn [shown]. pose proof (thread_exact (λ b, shown sp b space) l) as H. destruct (thread _ l known) as [ys k] eqn:E. cbn [fst]. apply exact_array.
    change ys with (ys, k).1. rewrite <-E. apply H. apply exact_array in Ho. apply Forall_forall. intros x Hx k0. apply (proj1 (Forall_forall _ _) IH x Hx). by apply (proj1 (Forall_forall _ _) Ho).
  - assert (∀ key x, map_get key o = Some x → ∀ space known, exact_value (shown sp x space known).1) as Hx.
    { intros key x Hx. apply (IH _ _ Hx). by apply (exact_get _ _ _ Ho Hx). }
    destruct (str_at "type" o) as [t|] eqn:Et; [destruct (mem t NAMED_TYPES) eqn:En|].
    + destruct (named_of o (default "" space)) as [full ns] eqn:Hn. destruct (mem full known) eqn:Hm.
      { cbn [shown]. by rewrite Et, En, Hn, Hm. }
      rewrite (shown_named sp t o space known full ns) by done. case_decide; [by apply exact_enum|]. case_decide; [by apply exact_fixed|].
      destruct (map_get "fields" o) as [[| | | |fs|]|] eqn:Ef; cbn [from_option]; try by apply exact_record.
      destruct (thread (shown_field sp ns) fs (known ++ [full])) as [ys k] eqn:E. apply exact_record; [done|]. change ys with (ys, k).1. rewrite <-E.
      apply thread_exact. pose proof (exact_get _ _ _ Ho Ef) as Hfs. rewrite exact_array in Hfs. destruct (IH _ _ Ef) as (_ & _ & Hff). specialize (Hff fs eq_refl).
      apply Forall_forall. intros f Hin. apply shown_field_exact. intros fo ->. pose proof (proj1 (Forall_forall _ _) Hfs _ Hin) as Hfo. split; [done|].
      intros x Hxo k0. apply (proj1 (Forall_forall _ _) Hff _ Hin _ _ Hxo). by apply (exact_get _ _ _ Hfo Hxo).
    + cbn [shown]. rewrite Et, En, !on_key_get. case_decide; [|case_decide].
      * destruct (map_get "items" o) as [x|] eqn:Ex; cbn [from_option]; [|by apply exact_wrapper].
        specialize (Hx _ _ Ex space known). destruct (shown sp x space known). by apply exact_wrapper.
      * destruct (map_get "values" o) as [x|] eqn:Ex; cbn [from_option]; [|by apply exact_wrapper].
        specialize (Hx _ _ Ex space known). destruct (shown sp x space known). by apply exact_wrapper.
      * destruct (mem t PRIMITIVES); [|done]. case_decide; [done|]. by apply exact_keys.
    + cbn [shown]. rewrite Et, on_key_get. destruct (map_get "type" o) as [x|] eqn:Ex; cbn [from_option]; [by apply (Hx _ _ Ex)|done].
Qed.
End exact.

Section printable.
Context (sp : bool).

Lemma printable_object o t : str_at "type" o = Some t → printable (VObject o) =
  if mem t ["record"; "error"] then from_option (λ f, match f with VArray fs => forallb field_ok fs | _ => true end) true (map_get "fields" o)
  else if decide (t = "fixed") then bool_decide (is_Some (map_get "size" o))
  else if decide (t = "array") then from_option printable true (map_get "items" o)
  else if decide (t = "map") then from_option printable true (map_get "values" o)
  else true.
Proof.
  intros Ht. cbn [printable]. rewrite Ht, !on_key_get. cbn [default from_option id]. repeat case_match; try done.
  unfold str_at in Ht. destruct (map_get "type" o) as [[]|]; by cbn in *.
Qed.

Definition stays_printable (v : Value) : Prop := printable v = true → ∀ space known, printable (shown sp v space known).1 = true.

Lemma thread_printable (ok : Value → bool) (show : Value → list string → Value * list string) l :
  Forall (λ x, ok x = true → ∀ known, ok (show x known).1 = true) l → forallb ok l = true → ∀ known, forallb ok (thread show l known).1 = true.
Proof.
  induction 1 as [|x l Hx _ IH]; [done|]. cbn. rewrite andb_true_iff. intros [H1 H2] known. specialize (Hx H1 known). destruct (show x known) as [y k].
  specialize (IH H2 k). destruct (thread show l k). cbn in *. by rewrite Hx, IH.
Qed.
Lemma field_printable ns f : (∀ fo, f = VObject fo → ∀ x, map_get "type" fo = Some x → stays_printable x) →
  field_ok f = true → ∀ known, field_ok (shown_field sp ns f known).1 = true.
Proof.
  intros Hx Hf known. destruct f as [| | | | |fo]; try done. cbn [field_ok] in Hf. rewrite on_key_get, andb_true_iff in Hf. destruct Hf as [Ht Hd].
  unfold shown_field. cbn [shown_field_with]. rewrite on_key_get.
  assert (∀ y, printable y = true → field_ok (VObject (field_shown sp y fo)) = true) as Hy.
  { intros y Hy. cbn [field_ok]. rewrite on_key_get, (proj1 (field_shown_again sp y fo)). cbn [from_option]. rewrite Hy. cbn [andb].
    assert (map_get "default" (field_shown sp y fo) = map_get "default" fo) as -> by (unfold field_shown; look; by destruct (map_get "default" fo)). done. }
  destruct (map_get "type" fo) as [x|] eqn:Ex; cbn [from_option] in *; [|by apply Hy]. pose proof (Hx fo eq_refl x Ex Ht ns known) as H.
  destruct (shown sp x ns known) as [y k]. by apply Hy.
Qed.

Lemma shown_printable v : stays_printable v.
Proof.
  induction v as [v Hv|l IH|o IH] using value_key_ind; intros Hp space known.
  - by destruct v.
  - cbn [shown]. cbn [printable] in Hp. pose proof (thread_printable printable (λ b, shown sp b space) l) as H. destruct (thread _ l known) as [ys k] eqn:E. cbn [fst printable].
    change ys with (ys, k).1. rewrite <-E. apply H; [|done]. eapply Forall_impl; [exact IH|]. intros x Hx Hpx k0. by apply Hx.
  - destruct (str_at "type" o) as [t|] eqn:Et; [rewrite (printable_object o t Et) in Hp; destruct (mem t NAMED_TYPES) eqn:En|].
    + destruct (named_of o (default "" space)) as [full ns] eqn:Hn. destruct (mem full known) eqn:Hm.
      { cbn [shown]. by rewrite Et, En, Hn, Hm. }
      rewrite (shown_named sp t o space known full ns) by done. destruct (decide (t = "enum")) as [He|He]; [subst t; cbn [fst]; by rewrite (printable_object _ "enum")|].
      destruct (decide (t = "fixed")) as [Hf|Hf].
      { subst t. cbn [fst]. rewrite (printable_object _ "fixed") by done. cbn [mem] in *.
        assert (map_get "size" (shown_head "fixed" full ns space o ++ fixed_shown sp o) = map_get "size" o) as -> by (unfold shown_head, fixed_shown; look; by destruct (map_get "size" o)). done. }
      rewrite (named_record t En He Hf) in Hp.
      assert (∀ fs, forallb field_ok fs = true → printable (VObject (shown_head t full ns space o ++ record_shown sp fs o)) = true) as Hrec.
      { intros fs Hfs. rewrite (printable_object _ t), (named_record t En He Hf) by done.
        assert (map_get "fields" (shown_head t full ns space o ++ record_shown sp fs o) = Some (VArray fs)) as -> by (unfold shown_head, record_shown; look). done. }
      destruct (map_get "fields" o) as [[| | | |fs|]|] eqn:Ef; cbn [from_option] in *; try by apply Hrec.
      destruct (thread (shown_field sp ns) fs (known ++ [full])) as [ys k] eqn:E. apply Hrec. change ys with (ys, k).1. rewrite <-E.
      apply thread_printable; [|done]. destruct (IH _ _ Ef) as (_ & _ & Hff). eapply Forall_impl; [by apply Hff|]. intros f Hfo Hok k0. apply field_printable; [|done].
      intros fo -> x Hx. by apply (Hfo _ _ Hx).
    + destruct (unnamed t En) as (Hrec & Hnf & _). rewrite Hrec, (decide_False _ _ Hnf) in Hp. cbn [shown]. rewrite Et, En, !on_key_get. destruct (decide (t = "array")) as [Ha|Ha]; [|destruct (decide (t = "map")) as [Hm|Hm]].
      * destruct (map_get "items" o) as [x|] eqn:Ex; cbn [from_option] in *; [|cbn [fst]; by rewrite (printable_object _ "array")].
        pose proof (proj1 (IH _ _ Ex) Hp space known) as H. destruct (shown sp x space known). cbn [fst]; by rewrite (printable_object _ "array").
      * destruct (map_get "values" o) as [x|] eqn:Ex; cbn [from_option] in *; [|cbn [fst]; by rewrite (printable_object _ "map")].
        pose proof (proj1 (IH _ _ Ex) Hp space known) as H. destruct (shown sp x space known). cbn [fst]; by rewrite (printable_object _ "map").
      * destruct (mem t PRIMITIVES); [|done]. case_decide; [done|]. cbn [fst]. rewrite (printable_object _ t) by done. by rewrite Hrec, !decide_False.
    + cbn [shown]. rewrite Et, on_key_get. cbn [printable] in Hp. rewrite Et in Hp. change (on_key "type" printable true o = true) in Hp. rewrite on_key_get in Hp.
      destruct (map_get "type" o) as [x|] eqn:Ex; cbn [from_option] in *; [by apply (proj1 (IH _ _ Ex))|]. cbn [fst printable]. rewrite Et.
      change (on_key "type" printable true o = true). by rewrite on_key_get, Ex.
Qed.
End printable.

(** * The stored text *)

Section stored.
Context {text : JsonText} {laws : JsonTextLaws} {shape : JsonShape}.
Context (sp : bool).

(** The text of a schema is read as the schema shown, and that schema has the
    same text. *)
Lemma stored_again v refs : exact_value v → printable v = true → forallb proper (known_of refs) = true → settled sp v None (known_of refs) = true →
  let w := (shown sp v None (known_of refs)).1 in
  value_from_str (java_render sp v refs) = Ok w ∧ java_render sp w refs = java_render sp v refs.
Proof.
  intros He Hp Hk Hs w. unfold java_render. rewrite !render_shown by (done || by apply shown_printable). cbn [p_out p_space p_known shown_pen].
  destruct (shown_stable sp v None (known_of refs) Hk Hs) as [_ Ha]. cbn in Ha. fold w in Ha. rewrite Ha.
  split; [|done]. cbn [String.append]. apply from_to_string. by apply shown_exact.
Qed.
End stored.
