(* ===== verification/AvroTypes.v ===== *)
(** What Java's checks guarantee of a schema they accept: every type in the table
    is well formed and refers to types of the table only, types that were there
    stay as they are, and every pointer that is noted leads to the default of a
    field of the schema. *)
From S2P Require Import Prelude SortedVec RustStr Errors Json Model SchemaLayer Float64 Dump ProtoLex FloatText AvroRender AvroJava AvroParse AvroShown AvroStable.

Open Scope string_scope.
Open Scope nat_scope.
Open Scope list_scope.

(** * Successful runs of Java's schema checks (AvroJava): what a run that accepts a
    schema consists of, step by step. The other files about the parser argue by
    cases on these runs. *)

(** * Steps *)

Definition gives {A} (m : M A) (s : PState) (Q : A → PState → Prop) : Prop := ∀ a s', m s = Some (Ok (a, s')) → Q a s'.

Section rules.
Context {A B : Type}.
Implicit Types (m : M A) (s : PState).
Lemma gives_mono m s (Q R : A → PState → Prop) : (∀ a s', Q a s' → R a s') → gives m s Q → gives m s R.
Proof. intros H Hm a s' E. by apply H, Hm. Qed.
Lemma gives_self m s : gives m s (λ a s', m s = Some (Ok (a, s'))).
Proof. by intros a s' E. Qed.
Lemma gives_bind m (f : A → M B) s (Q : B → PState → Prop) : gives m s (λ a s', gives (f a) s' Q) → gives (m ≫= f) s Q.
Proof. intros Hm b s'. unfold mbind, M_bind. destruct (m s) as [[[a s1]|e]|] eqn:E; try done. by apply Hm. Qed.
Lemma gives_ret (a : A) s (Q : A → PState → Prop) : Q a s → gives (mret a) s Q.
Proof. by intros HQ ?? [= <- <-]. Qed.
Lemma gives_fails e s (Q : A → PState → Prop) : gives (fails e) s Q.
Proof. done. Qed.
Lemma gives_lift r s (Q : A → PState → Prop) : (∀ a, r = Ok a → Q a s) → gives (lift r) s Q.
Proof. intros H a s'. unfold lift. destruct r; [|done]. intros [= -> <-]. by apply H. Qed.
Lemma gives_ends o s (Q : A → PState → Prop) : (∀ a, o = Some a → Q a s) → gives (ends_in o) s Q.
Proof. intros H a s'. unfold ends_in. destruct o; [|done]. intros [= -> <-]. by apply H. Qed.
Lemma gives_at seg m s (Q : A → PState → Prop) :
  gives m (set_path (ps_path s ++ [seg]) s) (λ a s', Q a (set_path (removelast (ps_path s')) s')) → gives (at_seg seg m) s Q.
Proof. intros H a s'. unfold at_seg. destruct (m _) as [[[a' s1]|e]|] eqn:E; try done. intros [= -> <-]. by apply (H a s1). Qed.
End rules.
Lemma gives_state s (Q : PState → PState → Prop) : Q s s → gives state s Q.
Proof. by intros HQ ?? [= <- <-]. Qed.
Lemma gives_update f s (Q : () → PState → Prop) : Q () (f s) → gives (update f) s Q.
Proof. by intros HQ ?? [= <- <-]. Qed.
Lemma gives_guard b e s (Q : () → PState → Prop) : (b = true → Q () s) → gives (guard_that b e) s Q.
Proof. destruct b; [|done]. intros H. apply gives_ret. by apply H. Qed.
Lemma gives_when {X} (o : option X) f s (Q : () → PState → Prop) :
  (o = None → Q () s) → (∀ x, o = Some x → gives (f x) s Q) → gives (when_some o f) s Q.
Proof. destruct o as [x|]; intros H1 H2; [by apply H2|]. by apply gives_ret, H1. Qed.

Create HintDb runs.
#[export] Hint Resolve gives_fails : runs.
(** One step of a program. *)
Ltac run_step := first
  [ apply gives_bind | apply gives_state | apply gives_update | apply gives_fails
  | apply gives_lift; intros ? ? | apply gives_guard; intros ? | apply gives_ends; intros ? ? | apply gives_ret ].

(** A loop, element by element. *)
Inductive each_run {A B} (f : nat → A → M B) : nat → list A → PState → list B → PState → Prop :=
| each_nil i s : each_run f i [] s [] s
| each_cons i x l s y s1 ys s2 :
    f i x s = Some (Ok (y, s1)) → each_run f (S i) l s1 ys s2 → each_run f i (x :: l) s (y :: ys) s2.
Lemma gives_each {A B} (f : nat → A → M B) i l s : gives (each f i l) s (each_run f i l s).
Proof.
  revert i s. induction l as [|x l IH]; intros i s; [apply gives_ret; constructor|]. cbn [each].
  apply gives_bind. eapply gives_mono; [|apply gives_self]. intros y s1 Hy. apply gives_bind.
  eapply gives_mono; [|apply IH]. intros ys s2 Hys. apply gives_ret. by apply (each_cons f i x l s y s1 ys s2).
Qed.

Section runs.
Context {text : JsonText} {tables : UnicodeTables}.
Context (vd : bool) (fuel : nat).
Abbreviation schema := (AvroJava.schema vd fuel).

(** * Objects *)

Lemma set_space_id s : set_space (ps_space s) s = s.
Proof. by destruct s. Qed.

(** The namespace a named type is in. *)
Definition space_of (o : Map) (s : PState) : option string := match str_at "namespace" o with Some ns => Some ns | None => ps_space s end.

(** The common part of named types: the name, which is not taken. *)
Record naming (o : Map) (s : PState) (t : string) (ns : option string) (full : string) : Prop := {
  nm_type : str_at "type" o = Some t;
  nm_name : ∃ name, str_at "name" o = Some name ∧ name_new name (space_of o s) = Ok (ns, full);
  nm_prim : mem full PRIMITIVES = false;
  nm_new : ps_names s !! full = None;
  nm_aliases : aliases (VObject o) = Ok ();
}.

Inductive object_run (o : Map) (s : PState) : J → PState → Prop :=
| run_prim t : str_at "type" o = Some t → mem t PRIMITIVES = true → object_run o s (JPrim t) s
| run_record t ns full fs fields s2 :
    naming o s t ns full → mem t ["record"; "error"] = true → map_get "fields" o = Some (VArray fs) →
    each_run (parse_field_with vd fuel schema) 0 fs (define full (JRecord full []) (set_space ns s)) fields s2 →
    repeated_field (ps_names s2) full 0 [] fields = Ok () →
    object_run o s (JRecord full fields) (set_space (ps_space s) (define full (JRecord full fields) s2))
| run_enum ns full symbols seen :
    naming o s "enum" ns full → map_get "symbols" o = Some (VArray symbols) → symbols_check symbols [] = Ok seen →
    (∀ d, str_at "default" o = Some d → mem d seen = true) →
    let e := JEnum full (head symbols ≫= as_str) (omap as_str symbols) in
    object_run o s e (define full e s)
| run_fixed ns full n :
    naming o s "fixed" ns full → fixed_size (VObject o) = Some n → (0 ≤ n)%Z →
    object_run o s (JFixed full n) (define full (JFixed full n) s)
| run_array x j s1 :
    str_at "type" o = Some "array" → map_get "items" o = Some x →
    schema x (set_path (ps_path s ++ ["items"]) s) = Some (Ok (j, s1)) →
    object_run o s (JArray j) (set_space (ps_space s) (set_path (removelast (ps_path s1)) s1))
| run_map x j s1 :
    str_at "type" o = Some "map" → map_get "values" o = Some x →
    schema x (set_path (ps_path s ++ ["values"]) s) = Some (Ok (j, s1)) →
    object_run o s (JMap j) (set_space (ps_space s) (set_path (removelast (ps_path s1)) s1))
| run_other t n :
    str_at "type" o = Some t → mem t PRIMITIVES = false → mem t NAMED_TYPES = false → t ≠ "array" → t ≠ "map" →
    name_new t (ps_space s) = Ok n → is_Some (ps_names s !! n.2) → object_run o s (JNamed n.2) s.

Lemma required_get o key e x : required (VObject o) key e = Ok x ↔ str_at key o = Some x.
Proof. unfold required. rewrite ok_or_Ok. done. Qed.
Lemma prim_not_named t : mem t PRIMITIVES = true → mem t NAMED_TYPES = false.
Proof.
  rewrite mem_true, mem_false. intros Hp Hn. assert (Forall (λ t, t ∉ NAMED_TYPES) PRIMITIVES) as H by (by apply (bool_decide_unpack _); vm_compute).
  by apply (proj1 (Forall_forall _ _) H t).
Qed.

Lemma run_add full j s (Q : () → PState → Prop) : (ps_names s !! full = None → Q () (define full j s)) → gives (add full j) s Q.
Proof.
  intros H. unfold add. repeat run_step. by eapply H, bool_decide_eq_true_1.
Qed.

Lemma object_runs o s : gives (schema (VObject o)) s (object_run o s).
Proof.
  cbn [AvroJava.schema]. apply gives_bind, gives_lift. intros t Ht%required_get. apply gives_bind, gives_state.
  destruct (mem t PRIMITIVES) eqn:Ep.
  { rewrite (prim_not_named t Ep). apply gives_bind, gives_ret, gives_bind, gives_ret, gives_bind, gives_update, gives_bind, gives_ret, gives_ret.
    rewrite set_space_id. by constructor. }
  destruct (mem t NAMED_TYPES) eqn:En.
  - apply gives_bind, gives_bind, gives_lift. intros name Hname%required_get. apply gives_bind, gives_lift. intros [ns full] Hn. apply gives_bind, gives_update, gives_ret. cbn [fst snd].
    assert (mem full PRIMITIVES = false → ps_names s !! full = None → aliases (VObject o) = Ok () → naming o s t ns full) as Hnaming by (intros; constructor; try done; by exists name).
    apply gives_bind. destruct (mem t ["record"; "error"]) eqn:Er.
    + apply gives_bind, gives_lift. intros [] Hprim%refuse_if_Ok. apply gives_bind, run_add. cbn [ps_names set_space]. intros Hnew. rewrite on_key_get.
      destruct (map_get "fields" o) as [[| | | |fs|]|] eqn:Ef; cbn [from_option]; try apply gives_fails.
      apply gives_bind. eapply gives_mono; [|apply gives_each]. intros fields s2 Hrun. apply gives_bind, gives_state, gives_bind, gives_lift. intros [] Hrep.
      apply gives_bind, gives_update, gives_ret, gives_bind, gives_update, gives_bind, gives_lift. intros [] Hal. apply gives_ret. by eapply run_record; [apply Hnaming|..].
    + assert (t = "enum" ∨ t = "fixed") as Ht'.
      { destruct (decide (t = "enum")) as [?|He]; [by left|]. destruct (decide (t = "fixed")) as [?|Hf]; [by right|]. by rewrite (named_record t En He Hf) in Er. }
      destruct Ht' as [->| ->].
      * rewrite decide_True by done. unfold parse_enum. cbn [Json.get]. destruct (map_get "symbols" o) as [[| | | |symbols|]|] eqn:Es; try apply gives_fails.
        apply gives_bind, gives_lift. intros [] Hprim%refuse_if_Ok. apply gives_bind, gives_lift. intros seen Hseen.
        apply gives_bind. apply (gives_mono _ _ (λ _ s', s' = set_space ns s ∧ ∀ d, str_at "default" o = Some d → mem d seen = true)).
        2: { change (map_get "default" o ≫= as_str) with (str_at "default" o). destruct (str_at "default" o) as [d|]; [apply gives_guard|apply gives_ret]; [|done]. intros Hd. split; [done|]. by intros ? [= <-]. }
        intros [] s1 [-> Hd]. apply gives_bind, run_add. cbn [ps_names set_space]. intros Hnew. apply gives_ret, gives_bind, gives_update, gives_bind, gives_lift. intros [] Hal. apply gives_ret.
        pose proof (run_enum o s ns full symbols seen) as H. cbn zeta in H. unfold define in *. cbn [set_space ps_names ps_space ps_path ps_lenient ps_normalized ps_numbers]. apply H; [by apply Hnaming|done..].
      * rewrite !decide_False, decide_True by done. unfold parse_fixed. destruct (fixed_size (VObject o)) as [n|] eqn:Es; [|apply gives_fails].
        apply gives_bind, gives_guard. intros Hn0%bool_decide_eq_true. apply gives_bind, gives_lift. intros [] Hprim%refuse_if_Ok.
        apply gives_bind, run_add. cbn [ps_names set_space]. intros Hnew. apply gives_ret, gives_bind, gives_update, gives_bind, gives_lift. intros [] Hal. apply gives_ret.
        pose proof (run_fixed o s ns full n) as H. unfold define in *. cbn [set_space ps_names ps_space ps_path ps_lenient ps_normalized ps_numbers]. apply H; [by apply Hnaming|done..].
  - apply gives_bind, gives_ret. destruct (unnamed t En) as (Hrec & Hnf & Hne). apply gives_bind. rewrite Hrec, (decide_False _ _ Hne), !on_key_get.
    destruct (decide (t = "array")) as [->|Hna]; [|destruct (decide (t = "map")) as [->|Hnm]].
    + destruct (map_get "items" o) as [x|] eqn:Ex; cbn [from_option]; [|apply gives_fails]. apply gives_bind, gives_at. eapply gives_mono; [|apply gives_self]. intros j s1 Hj.
      apply gives_ret, gives_bind, gives_update, gives_bind, gives_ret, gives_ret. by eapply run_array.
    + destruct (map_get "values" o) as [x|] eqn:Ex; cbn [from_option]; [|apply gives_fails]. apply gives_bind, gives_at. eapply gives_mono; [|apply gives_self]. intros j s1 Hj.
      apply gives_ret, gives_bind, gives_update, gives_bind, gives_ret, gives_ret. by eapply run_map.
    + rewrite (decide_False _ _ Hnf). unfold parse_other. apply gives_bind, gives_bind, gives_state, gives_bind, gives_lift. intros n Hn. apply gives_ret.
      case_bool_decide as Hk; [|apply gives_fails]. apply gives_ret, gives_bind, gives_update, gives_bind, gives_ret, gives_ret. rewrite set_space_id. by eapply run_other.
Qed.

(** * Fields *)

(** What a field may leave in the lists besides its type: entries at one pointer. *)
Record noted (ptr : string) (s s' : PState) : Prop := {
  nt_names : ps_names s' = ps_names s;
  nt_space : ps_space s' = ps_space s;
  nt_path : ps_path s' = ps_path s;
  nt_lenient : ∃ l, ps_lenient s' = ps_lenient s ++ l ∧ Forall (λ e, e.1 = ptr) l;
  nt_normalized : ∃ l, ps_normalized s' = ps_normalized s ++ l ∧ Forall (λ e, e.1 = ptr) l;
  nt_numbers : ∃ l, ps_numbers s' = ps_numbers s ++ l ∧ Forall (λ e, e.1 = ptr) l;
}.
Lemma noted_refl ptr s : noted ptr s s.
Proof. constructor; try done; exists []; rewrite app_nil_r; by split. Qed.
Lemma noted_trans ptr s1 s2 s3 : noted ptr s1 s2 → noted ptr s2 s3 → noted ptr s1 s3.
Proof.
  intros [E1 E2 E3 (l1 & H1 & F1) (l2 & H2 & F2) (l3 & H3 & F3)] [E1' E2' E3' (k1 & K1 & G1) (k2 & K2 & G2) (k3 & K3 & G3)].
  constructor; [congruence..|exists (l1 ++ k1)|exists (l2 ++ k2)|exists (l3 ++ k3)]; (split; [rewrite ?K1, ?K2, ?K3, ?H1, ?H2, ?H3; by rewrite app_assoc|by apply Forall_app]).
Qed.
Lemma noted_lenient s ptr x : noted ptr s (push_lenient (ptr, x) s).
Proof. constructor; try done; [exists [(ptr, x)]|exists []..]; rewrite ?app_nil_r; split; first [done|by apply Forall_nil|by repeat constructor]. Qed.
Lemma noted_normalized s ptr x : noted ptr s (push_normalized (ptr, x) s).
Proof. constructor; try done; [exists []|exists [(ptr, x)]|exists []]; rewrite ?app_nil_r; split; first [done|by apply Forall_nil|by repeat constructor]. Qed.
Lemma noted_number s ptr x : noted ptr s (push_number (ptr, x) s).
Proof. constructor; try done; [exists []..|exists [(ptr, x)]]; rewrite ?app_nil_r; split; first [done|by apply Forall_nil|by repeat constructor]. Qed.

Lemma textual_noted fi j d s : gives (textual_default fi j d) s (λ td s', noted (default_pointer fi s) s s' ∧ (d = None → td.1 = None ∧ s' = s)).
Proof.
  unfold textual_default. apply gives_bind, gives_state.
  assert (∀ s0, gives (mret (d, false)) s0 (λ (td : option Value * bool) s', noted (default_pointer fi s) s0 s' ∧ (d = None → td.1 = None ∧ s' = s0))) as Hret.
  { intros s0. apply gives_ret. split; [apply noted_refl|done]. }
  destruct d as [[| | |t| |]|]; try apply Hret. destruct (is_prim _ _); [|apply Hret]. apply gives_bind, gives_lift. intros f Hf.
  do 3 apply gives_bind, gives_update. apply gives_ret. split; [|done].
  eapply noted_trans; [apply noted_lenient|]. eapply noted_trans; [apply noted_number|apply noted_normalized].
Qed.
Lemma check_noted fi fname ftype j d s : gives (check_default vd fuel fi fname ftype j d) s (λ _ s', noted (default_pointer fi s) s s').
Proof.
  unfold check_default. apply gives_bind, gives_state, gives_bind, gives_ends. intros valid Hv. apply gives_bind.
  apply (gives_mono _ _ (λ _ s', s' = s)). 2: { destruct valid; [apply gives_ends; by intros|by apply gives_ret]. }
  intros fine s' ->. destruct fine; [apply gives_ret, noted_refl|]. destruct (_ && _); [apply gives_fails|].
  apply gives_bind, gives_ends. intros x Hx. apply gives_update, noted_lenient.
Qed.
Lemma normalized_noted fi j d s : gives (note_normalized fuel fi j d) s (λ _ s', noted (default_pointer fi s) s s').
Proof. unfold note_normalized. apply gives_bind, gives_state, gives_bind, gives_ends. intros o Ho. apply gives_update, noted_normalized. Qed.

(** The state after the type of a field. *)
Definition after_type (s : PState) : PState := set_path (removelast (removelast (removelast (ps_path s)))) s.

Inductive field_run (fi : nat) (fo : Map) (s : PState) : string * J * option Value → PState → Prop :=
| run_field fname ftype j s1 d s2 :
    str_at "name" fo = Some fname → validate_name (Some fname) = Ok fname → map_get "type" fo = Some ftype →
    schema ftype (set_path (((ps_path s ++ ["fields"]) ++ [pretty fi]) ++ ["type"]) s) = Some (Ok (j, s1)) →
    field_rest vd fuel fi fname ftype j fo (after_type s1) = Some (Ok ((fname, j, d), s2)) →
    noted (default_pointer fi (after_type s1)) (after_type s1) s2 → (map_get "default" fo = None → s2 = after_type s1) →
    field_run fi fo s (fname, j, d) s2.

Lemma default_pointer_noted ptr fi s s' : noted ptr s s' → default_pointer fi s' = default_pointer fi s.
Proof. intros H. unfold default_pointer. by rewrite (nt_path _ _ _ H). Qed.

Lemma validate_name_Ok n x : validate_name (Some n) = Ok x → x = n.
Proof. unfold validate_name. repeat case_match; congruence. Qed.

Lemma field_rest_runs fi fname ftype j fo s : gives (field_rest vd fuel fi fname ftype j fo) s (λ r s', ∃ d, r = (fname, j, d) ∧
  validate_name (Some fname) = Ok fname ∧ noted (default_pointer fi s) s s' ∧ (map_get "default" fo = None → s' = s)).
Proof.
  unfold field_rest. apply gives_bind, gives_lift. intros [] _. apply gives_bind. eapply gives_mono; [|apply textual_noted].
  intros td s2 [Hn2 Hnone]. apply gives_bind, gives_lift. intros n Hn. rewrite (validate_name_Ok _ _ Hn) in Hn. set (ptr := default_pointer fi s) in *.
  apply gives_bind. apply (gives_mono _ _ (λ _ s3, noted ptr s s3 ∧ (map_get "default" fo = None → s3 = s))).
  2: { apply gives_when; [intros _; split; [done|by intros [_ ?]%Hnone]|]. intros d Hd. eapply gives_mono; [|apply check_noted]. intros [] s3 H3.
    rewrite (default_pointer_noted ptr _ _ _ Hn2) in H3. split; [by eapply noted_trans|]. intros Hdef%Hnone. rewrite (proj1 Hdef) in Hd. done. }
  intros [] s3 [Hn3 Hs3]. apply gives_bind. apply (gives_mono _ _ (λ _ s4, noted ptr s s4 ∧ (map_get "default" fo = None → s4 = s))).
  2: { apply gives_when; [done|]. intros d Hd. eapply gives_mono; [|apply normalized_noted]. intros [] s4 H4.
    rewrite (default_pointer_noted ptr _ _ _ Hn3) in H4. split; [by eapply noted_trans|]. intros Hdef%Hnone. rewrite (proj1 Hdef) in Hd. by destruct td.2. }
  intros [] s4 [Hn4 Hs4]. apply gives_bind, gives_lift. intros [] Hal. apply gives_ret. by exists td.1.
Qed.
Lemma field_runs fi f s : gives (parse_field_with vd fuel schema fi f) s (λ r s', ∃ fo, f = VObject fo ∧ field_run fi fo s r s').
Proof.
  unfold parse_field_with. apply gives_bind, gives_lift. intros fname Hname. destruct f as [| | | | |fo]; try apply gives_fails. rewrite on_key_get.
  apply required_get in Hname. destruct (map_get "type" fo) as [ftype|] eqn:Et; cbn [from_option]; [|apply gives_fails]. apply gives_bind.
  apply (gives_mono _ _ (λ _ s', s' = s)).
  2: { destruct ftype as [| | |t| |]; try by apply gives_ret. apply gives_bind. unfold lookup_name. intros k s0. unfold lift. destruct (get_name _ _); [|done]. intros [= <- <-]. by apply gives_guard. }
  intros [] s0 ->. apply gives_bind. do 3 apply gives_at. cbn [set_path ps_path]. eapply gives_mono; [|apply gives_self]. intros j s1 Hj.
  change (set_path _ _) with (after_type s1). eapply gives_mono; [|apply gives_self]. intros r s2 Hr.
  pose proof (field_rest_runs _ _ _ _ _ _ _ _ Hr) as (d & -> & Hv & Hn & Hnone). exists fo. split; [done|]. by apply (run_field fi fo s fname ftype j s1 d s2).
Qed.

(** * Unions and references *)

Lemma union_runs l s : gives (schema (VArray l)) s (λ j s', ∃ types,
  j = JUnion types ∧ each_run (λ i t, at_seg (pretty i) (schema t)) 0 l s types s' ∧ union_check (ps_names s') (VArray l) types [] = Ok ()).
Proof.
  cbn [AvroJava.schema]. apply gives_bind. eapply gives_mono; [|apply gives_each]. intros types s1 H. apply gives_bind, gives_state, gives_bind, gives_lift.
  intros [] Hu. apply gives_ret. by exists types.
Qed.
Lemma name_runs t s : gives (schema (VString t)) s (λ j s', s' = s ∧ get_name t s = Ok (Some j)).
Proof.
  cbn [AvroJava.schema]. apply gives_bind. unfold lookup_name. intros o s0. unfold lift. destruct (get_name t s) as [o'|] eqn:E; [|done]. intros [= -> <-].
  destruct o as [j|]; [|apply gives_fails]. by apply gives_ret.
Qed.
Lemma get_name_Some t s j : get_name t s = Ok (Some j) →
  (mem t PRIMITIVES = true ∧ j = JPrim t) ∨
  (mem t PRIMITIVES = false ∧ ∃ n, j = JNamed n.2 ∧ is_Some (ps_names s !! n.2) ∧
    (name_new t (ps_space s) = Ok n ∨ name_new t None = Ok n ∧ ∃ n', name_new t (ps_space s) = Ok n' ∧ ps_names s !! n'.2 = None)).
Proof.
  unfold get_name. destruct (mem t PRIMITIVES); [intros [= <-]; by left|]. rewrite bind_Ok. intros (n & Hn & H). right. split; [done|].
  case_bool_decide as Hk; [injection H as [= <-]; exists n; by auto|]. apply bind_Ok in H as (n2 & Hn2 & H). case_bool_decide as Hk2; [|done].
  injection H as [= <-]. exists n2. split_and!; [done..|]. right. split; [done|]. exists n. split; [done|]. by apply eq_None_not_Some.
Qed.

End runs.

(** * JSON pointers to the defaults of a schema: a pointer that is printed is read
    back, and what it leads to can be exchanged. *)

(** * Indices *)

Lemma digit_char x : (x < 10)%N → is_ascii_digit (pretty_N_char x) = true ∧ digit_value (pretty_N_char x) = Z.of_N x.
Proof.
  intros Hx. assert (x = 0 ∨ x = 1 ∨ x = 2 ∨ x = 3 ∨ x = 4 ∨ x = 5 ∨ x = 6 ∨ x = 7 ∨ x = 8 ∨ x = 9)%N as H by lia.
  repeat (destruct H as [->|H]; [by vm_compute|]). by subst.
Qed.

(** Reading continues after the digits of a number. *)
Lemma take_digits_pretty x s : ∃ k, ((0 < x)%N → 0 < k) ∧ ∀ acc n,
  take_digits acc n (pretty_N_go x s) = take_digits (acc * 10 ^ Z.of_nat k + Z.of_N x)%Z (n + k) s.
Proof.
  revert s. induction (N.lt_wf_0 x) as [x _ IH]; intros s. destruct (decide (x = 0)%N) as [->|Hx].
  { exists 0. split; [lia|]. intros acc n. rewrite pretty_N_go_0. f_equal; lia. }
  rewrite pretty_N_go_step by lia. destruct (IH (x `div` 10)%N ltac:(apply N.div_lt; lia) (String (pretty_N_char (x `mod` 10)) s)) as (k & _ & Hk).
  exists (S k). split; [lia|]. intros acc n. rewrite Hk. assert (x `mod` 10 < 10)%N as Hm by (by apply N.mod_lt). destruct (digit_char _ Hm) as [Hd Hv].
  cbn [take_digits]. rewrite Hd, Hv. f_equal; [|lia]. rewrite Nat2Z.inj_succ, Z.pow_succ_r by lia.
  pose proof (N.div_mod x 10 ltac:(lia)). lia.
Qed.
Lemma pretty_go_head x s : (0 < x)%N → ∃ c r, pretty_N_go x s = String c r ∧ is_ascii_digit c = true ∧ c ≠ "0"%char.
Proof.
  revert s. induction (N.lt_wf_0 x) as [x _ IH]; intros s Hx. rewrite pretty_N_go_step by done. destruct (decide (x < 10)%N) as [Hlt|Hge].
  - rewrite N.div_small by done. rewrite pretty_N_go_0, N.mod_small by done. exists (pretty_N_char x), s. split_and!; [done|by apply digit_char|].
    intros E. pose proof (proj2 (digit_char x Hlt)) as Hv. rewrite E in Hv. change (digit_value "0") with 0%Z in Hv. lia.
  - apply IH; [apply N.div_lt; lia|]. apply N.div_str_pos. lia.
Qed.

Lemma parse_index_pretty (i : nat) : parse_index (pretty i) = Some i.
Proof.
  unfold pretty, pretty_nat, pretty, pretty_N. case_decide as Hi; [by replace i with 0 by lia|].
  destruct (take_digits_pretty (N.of_nat i) "") as (k & Hk & E). destruct (pretty_go_head (N.of_nat i) "" ltac:(lia)) as (c & r & Ec & Hd & Hc).
  unfold parse_index. rewrite E. rewrite Ec. assert (starts_with "+" (String c r) = false ∧ starts_with "0" (String c r) = false) as [-> ->].
  { unfold starts_with. rewrite !bool_decide_eq_false. cbn [strip_prefix]. split; (rewrite decide_False; [by intros [? ?]|]); [|done]. intros <-. done. }
  cbn [orb andb take_digits]. specialize (Hk ltac:(lia)). destruct k as [|k]; [lia|]. cbn [Nat.add]. f_equal. lia.
Qed.

(** * Paths *)

Fixpoint value_at (path : list string) (v : Value) : option Value :=
  match path with
  | [] => Some v
  | seg :: path =>
      match v with
      | VObject m => map_get seg m ≫= value_at path
      | VArray l => i ← parse_index seg; l !! i ≫= value_at path
      | _ => None
      end
  end.

Lemma value_at_app p q v : value_at (p ++ q) v = value_at p v ≫= value_at q.
Proof.
  revert v. induction p as [|seg p IH]; intros v; [done|]. cbn [app value_at]. destruct v as [| | | |l|m]; try done.
  - destruct (parse_index seg) as [i|]; [|done]. cbn. destruct (l !! i) as [x|]; [|done]. cbn. apply IH.
  - destruct (map_get seg m) as [x|]; [|done]. cbn. apply IH.
Qed.

Lemma update_key_get k f (m : Map) x y : map_get k m = Some x → f x = Some y → ∃ m', update_key k f m = Some m' ∧ map_get k m' = Some y ∧
  ∀ k', k' ≠ k → map_get k' m' = map_get k' m.
Proof.
  induction m as [|[k' v] m IH]; [done|]. cbn [map_get update_key]. case_decide as Hd.
  - intros [= ->] Hf. subst k'. rewrite Hf. cbn. exists ((k, y) :: m). split_and!; [done|by rewrite map_get_here|]. intros k' Hk. cbn. by rewrite !decide_False.
  - intros Hx Hf. destruct (IH Hx Hf) as (m' & E & Hm & Ho). rewrite E. cbn. exists ((k', v) :: m'). split_and!; [done|by rewrite map_get_there|].
    intros k2 Hk2. cbn. case_decide; [done|by apply Ho].
Qed.

(** What is put at the end of a path that leads somewhere is found there. *)
Lemma update_path_get path f v x : value_at path v = Some x → ∃ w, update_path path f v = Some w ∧ value_at path w = Some (f x).
Proof.
  revert v. induction path as [|seg path IH]; intros v; cbn [value_at update_path].
  - intros [= ->]. by exists (f x).
  - destruct v as [| | | |l|m]; try done.
    + destruct (parse_index seg) as [i|] eqn:Ei; [|done]. cbn. destruct (l !! i) as [y|] eqn:El; [|done]. cbn. intros Hx. destruct (IH y Hx) as (w & E & Hw).
      unfold update_nth. rewrite El. cbn. rewrite E. cbn. exists (VArray (<[i:=w]> l)). split; [done|]. cbn. rewrite list_lookup_insert_eq by (by eapply lookup_lt_Some). done.
    + destruct (map_get seg m) as [y|] eqn:Em; [|done]. cbn. intros Hx. destruct (IH y Hx) as (w & E & Hw).
      destruct (update_key_get seg (update_path path f) m y w Em E) as (m' & Em' & Hg & _). exists (VObject m'). rewrite Em'. split; [done|]. cbn. by rewrite Hg.
Qed.

(** * Pointers *)

(** A segment that is written as it is. *)
Definition plain_seg (seg : string) : Prop := lacks "/" seg ∧ lacks "~" seg.

Lemma replace_lacks p by_ c s : lacks c s → replace_str (String c p) by_ s = s.
Proof.
  intros Hc. unfold replace_str, split_str. destruct s as [|d s]; [done|]. cbn [String.length split_str_fuel].
  assert (find_str (String c p) (String d s) = None) as ->.
  { revert Hc. generalize (String d s) as t. induction t as [|e t IH]; [done|]. rewrite lacks_cons. intros [Hce Ht]. cbn [find_str].
    assert (starts_with (String c p) (String e t) = false) as -> by (unfold starts_with; apply bool_decide_eq_false; cbn; rewrite decide_False by done; by intros [? ?]). by rewrite IH. }
  done.
Qed.
Lemma unescape_plain seg : plain_seg seg → unescape seg = seg.
Proof. intros [_ Ht]. unfold unescape. rewrite (replace_lacks "1"), (replace_lacks "0"); done. Qed.

Lemma pointer_cons seg path : pointer (seg :: path) = "/" +:+ (seg +:+ pointer path).
Proof. done. Qed.
Lemma split_pointer path : Forall plain_seg path → split_char "/" (pointer path) = "" :: path.
Proof.
  induction 1 as [|seg path [Hs _] _ IH]; [done|]. rewrite pointer_cons, split_slash. f_equal. destruct path as [|seg' path].
  - change (pointer []) with "". by rewrite str_app_nil_r, split_char_lacks.
  - rewrite pointer_cons, split_slash in IH. injection IH as IH. rewrite pointer_cons. etrans; [by apply (split_char_app "/" seg (seg' +:+ pointer path))|]. by rewrite IH.
Qed.
Lemma pointer_path_pointer path : Forall plain_seg path → pointer_path (pointer path) = Some path.
Proof.
  intros Hp. destruct path as [|seg path]; [done|]. unfold pointer_path. rewrite split_pointer by done. rewrite pointer_cons. cbn [String.append]. rewrite decide_True by done. cbn [drop]. f_equal. rewrite <-(list_fmap_id (seg :: path)) at 2. apply list_fmap_ext. intros i x Hx. apply unescape_plain. by eapply Forall_lookup_1.
Qed.

(** * Well-formed types *)

Section types.
Context {text : JsonText} {tables : UnicodeTables}.

Definition is_union (j : J) : bool := match j with JUnion _ => true | _ => false end.
Definition is_definition (j : J) : bool := match j with JRecord _ _ | JEnum _ _ _ | JFixed _ _ => true | _ => false end.
Definition valid_name (n : string) : Prop := validate_name (Some n) = Ok n.

(** [names] are the names that are defined. *)
Fixpoint type_ok (names : gset string) (j : J) : Prop :=
  match j with
  | JPrim p => p ∈ PRIMITIVES
  | JRecord full fields =>
      NoDup fields.*1.*1 ∧
      foldr (λ f P, match f with (n, t, _) => (valid_name n ∧ type_ok names t) ∧ P end) True fields
  | JEnum full first symbols => NoDup symbols ∧ Forall valid_name symbols ∧ first = head symbols
  | JFixed full size => (0 ≤ size ≤ i32_max)%Z
  | JArray t | JMap t => type_ok names t
  | JUnion types =>
      NoDup (J_full_name <$> types) ∧ foldr (λ t (P : Prop), ((is_union t = false) ∧ type_ok names t) ∧ P) True types
  | JNamed n => n ∈ names
  end.

(** A table: each type under its own full name. *)
Definition table_ok (names : Table) : Prop :=
  ∀ n j, names !! n = Some j → J_full_name j = n ∧ is_definition j = true ∧ (n ∉ PRIMITIVES) ∧ type_ok (dom names) j.

Lemma foldr_Forall {A} (Q : A → Prop) l : foldr (λ x P, Q x ∧ P) True l ↔ Forall Q l.
Proof. induction l as [|x l IH]; cbn; [done|]. by rewrite Forall_cons, IH. Qed.
Lemma record_ok names full fields : type_ok names (JRecord full fields) ↔
  NoDup fields.*1.*1 ∧ Forall (λ f, valid_name f.1.1 ∧ type_ok names f.1.2) fields.
Proof.
  cbn [type_ok]. apply and_iff_compat_l. induction fields as [|[[n t] d] fields IH]; cbn; [done|]. by rewrite Forall_cons, IH.
Qed.
Lemma union_ok names types : type_ok names (JUnion types) ↔
  NoDup (J_full_name <$> types) ∧ Forall (λ t, is_union t = false ∧ type_ok names t) types.
Proof. cbn [type_ok]. by rewrite (foldr_Forall (λ t, is_union t = false ∧ type_ok names t)). Qed.

Section J_ind.
Context (P : J → Prop).
Context (Hprim : ∀ p, P (JPrim p)) (Henum : ∀ a b c, P (JEnum a b c)) (Hfixed : ∀ a n, P (JFixed a n)) (Hnamed : ∀ n, P (JNamed n)).
Context (Harray : ∀ j, P j → P (JArray j)) (Hmap : ∀ j, P j → P (JMap j)).
Context (Hunion : ∀ l, Forall P l → P (JUnion l)).
Context (Hrecord : ∀ full fs, Forall (λ f : string * J * option Value, P f.1.2) fs → P (JRecord full fs)).
(** Induction through the lists of a type. *)
Fixpoint J_nested_ind (j : J) : P j :=
  match j with
  | JPrim p => Hprim p
  | JRecord full fs => Hrecord full fs ((fix go fs : Forall (λ f : string * J * option Value, P f.1.2) fs :=
      match fs with [] => List.Forall_nil _ | (n, t, d) :: fs => List.Forall_cons _ (n, t, d) fs (J_nested_ind t) (go fs) end) fs)
  | JEnum a b c => Henum a b c
  | JFixed a n => Hfixed a n
  | JArray t => Harray t (J_nested_ind t)
  | JMap t => Hmap t (J_nested_ind t)
  | JUnion l => Hunion l ((fix go l : Forall P l :=
      match l with [] => List.Forall_nil P | t :: l => List.Forall_cons P t l (J_nested_ind t) (go l) end) l)
  | JNamed n => Hnamed n
  end.
End J_ind.

Lemma type_ok_mono names names' j : names ⊆ names' → type_ok names j → type_ok names' j.
Proof.
  intros Hs. induction j as [| | | |t IH|t IH|l IH|full fs IH] using J_nested_ind; try done; [set_solver|..].
  - rewrite !union_ok. intros [Hn Hl]. split; [done|]. eapply Forall_impl; [exact (proj2 (list.Forall_and _ _) (conj IH Hl))|]. cbn. tauto.
  - rewrite !record_ok. intros [Hn Hl]. split; [done|]. eapply Forall_impl; [exact (proj2 (list.Forall_and _ _) (conj IH Hl))|]. cbn. tauto.
Qed.

Lemma table_ok_empty : table_ok ∅.
Proof. intros n j Hx. by rewrite lookup_empty in Hx. Qed.
Lemma table_insert names full j : table_ok names → J_full_name j = full → is_definition j = true → full ∉ PRIMITIVES →
  type_ok ({[full]} ∪ dom names) j → table_ok (<[full := j]> names).
Proof.
  intros Ht Hf Hd Hp Hj n j' [[-> ->]|[Hne Hn]]%lookup_insert_Some.
  - split_and!; [done..|]. by rewrite dom_insert_L.
  - destruct (Ht n j' Hn) as (? & ? & ? & Hok). split_and!; [done..|]. rewrite dom_insert_L. eapply type_ok_mono; [|done]. set_solver.
Qed.

(** A name in such a table resolves in one step, to a definition. *)
Lemma resolve_ok names j : table_ok names → resolve names j = match j with JNamed n => default j (names !! n) | _ => j end.
Proof.
  intros Ht. unfold resolve. destruct j as [p|f fs|f a b|f n|j|j|l|full]; try by destruct (size names). destruct (names !! full) as [x|] eqn:E.
  - assert (size names ≠ 0) as Hs by (intros H%map_size_empty_inv; by rewrite H, lookup_empty in E).
    destruct (size names) as [|n]; [done|]. cbn [resolve_fuel]. rewrite E. cbn. destruct (Ht _ _ E) as (_ & Hd & _). destruct x; try done; by destruct n.
  - by destruct (size names); cbn; rewrite E.
Qed.
Lemma resolve_union names j : table_ok names → is_union (resolve names j) = is_union j.
Proof.
  intros Ht. rewrite resolve_ok by done. destruct j; try done. destruct (names !! full) as [x|] eqn:E; [|done]. cbn. destruct (Ht _ _ E) as (_ & Hd & _). by destruct x.
Qed.
End types.

(** * Runs keep the table *)

Section good.
Context {text : JsonText} {tables : UnicodeTables}.
Context (vd : bool) (fuel : nat).
Abbreviation schema := (AvroJava.schema vd fuel).

(** The pointers that were noted. *)
Definition pointers (s : PState) : list string := (ps_lenient s).*1 ++ (ps_normalized s).*1 ++ (ps_numbers s).*1.

Definition default_at (v : Value) (rel : list string) : Prop :=
  is_Some (value_at rel v) ∧ last rel = Some "default" ∧ Forall plain_seg rel.

Record frame (P : list string → Prop) (s s' : PState) : Prop := {
  fr_space : ps_space s' = ps_space s;
  fr_path : ps_path s' = ps_path s;
  fr_names : ps_names s ⊆ ps_names s';
  fr_table : table_ok (ps_names s');
  fr_pointers : ∀ ptr, ptr ∈ pointers s' → ptr ∈ pointers s ∨ ∃ rel, P rel ∧ ptr = pointer (ps_path s ++ rel);
}.

Lemma frame_refl P s : table_ok (ps_names s) → frame P s s.
Proof. intros Ht. constructor; auto. Qed.
Lemma frame_trans (P Q R : list string → Prop) s1 s2 s3 : frame P s1 s2 → frame Q s2 s3 → (∀ rel, P rel → R rel) → (∀ rel, Q rel → R rel) → frame R s1 s3.
Proof.
  intros [A1 A2 A3 A4 A5] [B1 B2 B3 B4 B5] HP HQ. constructor; [congruence..|by etrans|done|].
  intros ptr [H|(rel & Hr & ->)]%B5; [|rewrite A2; eauto]. apply A5 in H as [H|(rel & Hr & ->)]; eauto.
Qed.
Lemma frame_weaken (P R : list string → Prop) s1 s2 : frame P s1 s2 → (∀ rel, P rel → R rel) → frame R s1 s2.
Proof. intros [A1 A2 A3 A4 A5] HP. constructor; try done. intros ptr [H|(rel & Hr & ->)]%A5; eauto. Qed.
Lemma frame_dom P s s' : frame P s s' → dom (ps_names s) ⊆ dom (ps_names s').
Proof. intros H. apply subseteq_dom, H. Qed.

(** Inside a segment of the path. *)
Lemma frame_at (P : list string → Prop) seg s s' : frame P (set_path (ps_path s ++ [seg]) s) s' →
  frame (λ rel, ∃ rel', rel = seg :: rel' ∧ P rel') s (set_path (removelast (ps_path s')) s').
Proof.
  intros [A1 A2 A3 A4 A5]. cbn in *. constructor; try done; cbn.
  - by rewrite A2, removelast_last.
  - intros ptr [H|(rel & Hr & ->)]%A5; [by left|]. right. exists (seg :: rel). rewrite <-app_assoc. eauto.
Qed.

Lemma each_frame {A B} (f : nat → A → M B) (P : nat → A → list string → Prop) (R : gset string → B → Prop) i l s ys s' :
  (∀ d d' y, d ⊆ d' → R d y → R d' y) → each_run f i l s ys s' → table_ok (ps_names s) →
  (∀ k x s y s1, l !! k = Some x → table_ok (ps_names s) → f (i + k) x s = Some (Ok (y, s1)) → frame (P (i + k) x) s s1 ∧ R (dom (ps_names s1)) y) →
  frame (λ rel, ∃ k x, l !! k = Some x ∧ P (i + k) x rel) s s' ∧ Forall (R (dom (ps_names s'))) ys.
Proof.
  intros Hmono Hrun. induction Hrun as [i s|i x l s y s1 ys s2 Hf Hrun IH]; intros Ht Hstep; [split; [by apply frame_refl|constructor]|].
  destruct (Hstep 0 x s y s1 eq_refl Ht ltac:(by rewrite Nat.add_0_r)) as [F1 R1].
  destruct IH as [F2 R2]; [apply F1|intros k z s3 w s4 Hk Ht3 Hz; rewrite Nat.add_succ_comm in *; by apply (Hstep (S k))|].
  split; [|constructor; [|done]; by eapply Hmono; [eapply frame_dom|]].
  eapply frame_trans; [done..|intros rel Hr; by exists 0, x|]. intros rel (k & z & Hk & Hr). exists (S k), z. by rewrite <-Nat.add_succ_comm.
Qed.

(** ** Definitions *)

Lemma NoDup_snoc {A} (l : list A) x : x ∉ l → NoDup l → NoDup (l ++ [x]).
Proof. intros Hx Hl. apply NoDup_app. split_and!; [done| |apply NoDup_singleton]. by intros y Hy ->%list_elem_of_singleton. Qed.

Lemma symbols_ok symbols seen out : symbols_check symbols seen = Ok out → NoDup seen → Forall valid_name seen →
  out = seen ++ omap as_str symbols ∧ NoDup out ∧ Forall valid_name out ∧ head symbols ≫= as_str = head (omap as_str symbols).
Proof.
  revert seen. induction symbols as [|s symbols IH]; intros seen; cbn.
  { intros [= <-]. by rewrite app_nil_r. }
  rewrite bind_Ok. intros (sym & Hsym & H) Hnd Hv. destruct (mem sym seen) eqn:Em; [done|]. destruct (as_str s) as [x|] eqn:Ex; [|done].
  pose proof (validate_name_Ok _ _ Hsym) as ->. apply mem_false in Em. apply IH in H as (-> & Hn & Hv' & _); [rewrite <-app_assoc in *; done|..].
  - by apply NoDup_snoc.
  - apply Forall_app. split; [done|]. by repeat constructor.
Qed.
Lemma repeated_ok names full i before fields : repeated_field names full i before fields = Ok () → NoDup before.*1.*1 → NoDup (before ++ fields).*1.*1.
Proof.
  revert i before. induction fields as [|[[n t] d] fields IH]; intros i before; cbn [repeated_field]; [by rewrite app_nil_r|].
  destruct (position n before) as [[k t']|] eqn:Ep; [done|]. intros H Hnd. rewrite (cons_middle (n, t, d)), app_assoc. eapply IH; [done|].
  rewrite !fmap_app. apply NoDup_snoc; [|done]. intros Hm.
  clear -Ep Hm. induction before as [|[[m t0] d0] before IH]; [by apply not_elem_of_nil in Hm|]. cbn in *. case_decide; [done|].
  destruct (position n before); [done|]. apply elem_of_cons in Hm as [?|?]; [done|by apply IH].
Qed.
Lemma union_check_ok names v types seen : table_ok names → union_check names v types seen = Ok () → NoDup seen →
  NoDup (seen ++ (J_full_name <$> types)) ∧ Forall (λ t, is_union t = false) types.
Proof.
  intros Ht. revert seen. induction types as [|t types IH]; intros seen; cbn [union_check]; [by rewrite app_nil_r|].
  pose proof (resolve_union names t Ht) as Hr. destruct (resolve names t) eqn:E; try done; cbn in Hr; (destruct (mem (J_full_name t) seen) eqn:Em; [done|]);
    (intros H Hnd; apply mem_false in Em; apply IH in H as [Hn Hu]; [|by apply NoDup_snoc]; rewrite <-app_assoc in Hn; split; [done|by constructor]).
Qed.

(** ** Segments *)

Lemma pretty_go_lacks c x s : is_ascii_digit c = false → lacks c s → lacks c (pretty_N_go x s).
Proof.
  intros Hc. revert s. induction (N.lt_wf_0 x) as [x _ IH]; intros s Hs. destruct (decide (x = 0)%N) as [->|Hx]; [by rewrite pretty_N_go_0|].
  rewrite pretty_N_go_step by lia. apply IH; [apply N.div_lt; lia|]. rewrite lacks_cons. split; [|done]. intros ->.
  rewrite (proj1 (digit_char (x `mod` 10) ltac:(by apply N.mod_lt))) in Hc. done.
Qed.
Lemma plain_index (i : nat) : plain_seg (pretty i).
Proof.
  unfold pretty, pretty_nat, pretty, pretty_N. case_decide; [by split; vm_compute|]. split; by apply pretty_go_lacks.
Qed.
Lemma default_under seg v x rel : plain_seg seg → (value_at (seg :: rel) v = value_at rel x) → default_at x rel → default_at v (seg :: rel).
Proof. intros Hs E (Hv & Hl & Hp). split_and!; [by rewrite E|by destruct rel|by constructor]. Qed.

(** ** Fields *)

Lemma after_type_frame (P : list string → Prop) a b c s s1 : frame P (set_path (((ps_path s ++ [a]) ++ [b]) ++ [c]) s) s1 →
  frame (λ rel, ∃ rel', rel = a :: b :: c :: rel' ∧ P rel') s (after_type s1).
Proof.
  intros [A1 A2 A3 A4 A5]. cbn in *. unfold after_type. constructor; try done; cbn.
  - by rewrite A2, !removelast_last.
  - intros ptr [H|(rel & Hr & ->)]%A5; [by left|]. right. exists (a :: b :: c :: rel). rewrite <-!app_assoc. eauto.
Qed.
Lemma keys_added {A} (l k : list (string * A)) p ptr : Forall (λ e, e.1 = p) k → ptr ∈ (l ++ k).*1 → ptr ∈ l.*1 ∨ ptr = p.
Proof.
  intros Hk. rewrite fmap_app, elem_of_app. intros [H|(e & -> & He)%list_elem_of_fmap]; [by left|right]. by apply (proj1 (Forall_forall _ _) Hk).
Qed.
Lemma noted_frame rel s s' : table_ok (ps_names s) → noted (pointer (ps_path s ++ rel)) s s' → frame (λ r, r = rel) s s'.
Proof.
  intros Ht [E1 E2 E3 (l1 & H1 & F1) (l2 & H2 & F2) (l3 & H3 & F3)]. constructor; [done..|by rewrite E1|by rewrite E1|].
  intros ptr. unfold pointers. rewrite H1, H2, H3, !elem_of_app.
  intros [H|[H|H]]; (apply (keys_added _ _ (pointer (ps_path s ++ rel))) in H as [H| ->]; [auto|right; by exists rel|done]).
Qed.

(** Where a field may leave pointers. *)
Definition field_default (fi : nat) (f : Value) (rel : list string) : Prop :=
  ∃ fo, f = VObject fo ∧
  ((∃ ft rel', map_get "type" fo = Some ft ∧ rel = "fields" :: pretty fi :: "type" :: rel' ∧ default_at ft rel') ∨
   (is_Some (map_get "default" fo) ∧ rel = ["fields"; pretty fi; "default"])).

Lemma field_good fi fo s n j d s' : table_ok (ps_names s) → field_run vd fuel fi fo s (n, j, d) s' →
  (∀ ft s j s', map_get "type" fo = Some ft → table_ok (ps_names s) → schema ft s = Some (Ok (j, s')) → frame (default_at ft) s s' ∧ type_ok (dom (ps_names s')) j) →
  frame (field_default fi (VObject fo)) s s' ∧ valid_name n ∧ type_ok (dom (ps_names s')) j.
Proof.
  intros Ht Hrun IH. inversion Hrun as [fname ft j' s1 d' s2 Hn Hv Hft Hs Hrest Hnote Hnone]; subst. destruct (IH ft (set_path _ s) j s1 Hft Ht Hs) as [F1 T1].
  apply after_type_frame in F1. destruct (map_get "default" fo) as [d0|] eqn:Ed.
  - unfold default_pointer in Hnote. apply noted_frame in Hnote as F2; [|apply F1]. split_and!; [|done|by rewrite (nt_names _ _ _ Hnote)].
    eapply frame_trans; [exact F1|exact F2|..].
    + intros rel (rel' & -> & Hd). exists fo. split; [done|]. left. by exists ft, rel'.
    + intros rel ->. exists fo. split; [done|]. right. by split.
  - rewrite (Hnone eq_refl) in *. split_and!; [|done|done]. eapply frame_weaken; [exact F1|]. intros rel (rel' & -> & Hd). exists fo. split; [done|]. left. by exists ft, rel'.
Qed.

Lemma record_defaults o fs rel : map_get "fields" o = Some (VArray fs) →
  (∃ k x, fs !! k = Some x ∧ field_default (0 + k) x rel) → default_at (VObject o) rel.
Proof.
  intros Ho (k & x & Hk & fo & -> & H). cbn [Nat.add] in H.
  assert (∀ r y, map_get "type" fo = Some y ∧ r = "type" ∨ map_get "default" fo = Some y ∧ r = "default" → ∀ q, value_at ("fields" :: pretty k :: r :: q) (VObject o) = value_at q y) as Hv.
  { intros r y Hy q. cbn [value_at]. rewrite Ho. cbn. rewrite parse_index_pretty. cbn. rewrite Hk. cbn. by destruct Hy as [[Hy ->]|[Hy ->]]; rewrite Hy. }
  destruct H as [(ft & rel' & Hft & -> & Hd & Hl & Hp)|([d Hd] & ->)].
  - split_and!; [rewrite (Hv "type" ft) by auto; done|by destruct rel'|]. repeat (constructor; [first [by split; vm_compute|apply plain_index]|]). done.
  - split_and!; [rewrite (Hv "default" d) by auto; done|done|]. repeat (constructor; [first [by split; vm_compute|apply plain_index]|]). done.
Qed.

Lemma define_frame (P : list string → Prop) full j s : table_ok (ps_names s) → ps_names s !! full = None → J_full_name j = full → is_definition j = true →
  mem full PRIMITIVES = false → type_ok ({[full]} ∪ dom (ps_names s)) j → frame P s (define full j s).
Proof.
  intros Ht Hn Hf Hd Hp Hj. constructor; [done..| | |by left]; cbn; [by apply insert_subseteq|]. apply table_insert; try done. by apply mem_false.
Qed.

(** What a run that accepts a schema does to the parser. *)
Lemma schema_good v : ∀ s j s', table_ok (ps_names s) → schema v s = Some (Ok (j, s')) → frame (default_at v) s s' ∧ type_ok (dom (ps_names s')) j.
Proof.
  induction v as [v Hv|l IH|o IH] using value_key_ind; intros s j s' Ht Hs.
  - destruct v as [| | |t| |]; try done. apply name_runs in Hs as [-> Hn]. split; [by apply frame_refl|].
    apply get_name_Some in Hn as [[Hp ->]|[_ (n & -> & Hn & _)]]; [by apply mem_true|by apply elem_of_dom].
  - apply union_runs in Hs as (types & -> & Hrun & Hu).
    destruct (each_frame _ (λ i x rel, ∃ rel', rel = pretty i :: rel' ∧ default_at x rel') type_ok _ _ _ _ _ ltac:(by intros; eapply type_ok_mono) Hrun Ht) as [F R].
    { intros k x s0 y s1 Hk Ht0 Hx. cbn [Nat.add] in *. unfold at_seg in Hx. destruct (schema x _) as [[[y' s2]|e]|] eqn:E; try done. injection Hx as [= -> <-].
      destruct (proj1 (Forall_forall _ _) IH x ltac:(by eapply list_elem_of_lookup_2) (set_path _ s0) _ _ Ht0 E) as [F T]. split; [by apply frame_at|done]. }
    apply union_check_ok in Hu as [Hnd Hun]; [|apply F|constructor]. split.
    + eapply frame_weaken; [exact F|]. cbn. intros rel (k & x & Hk & rel' & -> & Hd). eapply default_under; [apply plain_index| |exact Hd]. cbn. by rewrite parse_index_pretty; cbn; rewrite Hk.
    + apply union_ok. split; [done|]. by apply list.Forall_and.
  - apply object_runs in Hs. destruct Hs as [t Et Ep|t ns full fs fields s2 Hnm Er Ef Hrun Hrep|ns full symbols seen Hnm Esy Hseen Hdef|ns full n Hnm Esz Hn0|x j s1 Et Ex Hs|x j s1 Et Ex Hs|t n Et Ep En Ha Hm Hnn Hk].
    + split; [by apply frame_refl|by apply mem_true].
    + destruct Hnm as [Hty (name & Hname & Hnew) Hpr Hfree Hal].
      assert (frame (λ _, False) (set_space ns s) (define full (JRecord full []) (set_space ns s))) as F0.
      { apply define_frame; try done. by split; [constructor|]. }
      destruct (each_frame _ field_default (λ d f, valid_name f.1.1 ∧ type_ok d f.1.2) _ _ _ _ _ ltac:(intros ??? ? [??]; split; [done|by eapply type_ok_mono]) Hrun (fr_table _ _ _ F0)) as [F R].
      { intros k f s0 y s1 Hk Ht0 Hf. cbn [Nat.add] in *. apply field_runs in Hf as (fo & -> & Hf). destruct y as [[n y] d].
        eapply field_good; [done|exact Hf|]. intros ft s3 j3 s4 Hft Ht3 E3. destruct (IH _ _ Ef) as (_ & _ & Hff).
        by apply (proj1 (Forall_forall _ _) (Hff fs eq_refl) (VObject fo) ltac:(by eapply list_elem_of_lookup_2) _ _ Hft). }
      assert (type_ok (dom (ps_names s2)) (JRecord full fields)) as Hrec.
      { apply record_ok. split; [by apply (repeated_ok _ _ _ _ _ Hrep), NoDup_nil_2|done]. }
      assert (full ∈ dom (ps_names s2)) as Hin by (apply (frame_dom _ _ _ F); cbn; rewrite dom_insert_L; by apply elem_of_union_l, elem_of_singleton).
      split; [|eapply type_ok_mono; [|exact Hrec]; cbn; rewrite dom_insert_L; apply union_subseteq_r]. constructor; cbn; [done|by rewrite (fr_path _ _ _ F)|..].
      * apply map_subseteq_spec. intros m x Hx. assert (m ≠ full) by congruence. rewrite lookup_insert_ne by done.
        eapply lookup_weaken; [|apply F]. cbn. by rewrite lookup_insert_ne.
      * apply table_insert; [apply F|done..|by apply mem_false|]. eapply type_ok_mono; [|exact Hrec]. apply union_subseteq_r.
      * intros ptr Hp. destruct (fr_pointers _ _ _ F ptr Hp) as [H|(rel & Hr & ->)]; [by left|]. right. exists rel. split; [|done]. by eapply record_defaults.
    + destruct Hnm as [Hty _ Hpr Hfree Hal]. apply symbols_ok in Hseen as (-> & Hnd & Hv & Hhead); [|constructor..]. cbn [app] in *.
      assert (∀ d, type_ok d e) as He. { intros d. by split_and!. }
      split; [by apply define_frame|apply He].
    + destruct Hnm as [Hty _ Hpr Hfree Hal]. assert (∀ d, type_ok d (JFixed full n)) as He.
      { intros d. cbn. unfold fixed_size, fits_i32 in Esz. destruct (Json.get "size" (VObject o) ≫= as_i64) as [m|]; [|done]. cbn in Esz. case_bool_decide as Hb; [|done].
        injection Esz as ->. by destruct Hb. }
      split; [by apply define_frame|apply He].
    + destruct (proj1 (IH _ _ Ex) (set_path _ s) _ _ Ht Hs) as [F T]. pose proof (frame_at _ _ _ _ F) as F'. rewrite <-(fr_space _ _ _ F'), set_space_id. split; [|done].
      eapply frame_weaken; [exact F'|]. intros rel (rel' & -> & Hd). eapply default_under; [by split; vm_compute| |exact Hd]. cbn. by rewrite Ex.
    + destruct (proj1 (IH _ _ Ex) (set_path _ s) _ _ Ht Hs) as [F T]. pose proof (frame_at _ _ _ _ F) as F'. rewrite <-(fr_space _ _ _ F'), set_space_id. split; [|done].
      eapply frame_weaken; [exact F'|]. intros rel (rel' & -> & Hd). eapply default_under; [by split; vm_compute| |exact Hd]. cbn. by rewrite Ex.
    + split; [by apply frame_refl|by apply elem_of_dom].
Qed.
End good.

(** * A schema *)

Section parsed.
Context {text : JsonText} {tables : UnicodeTables}.

(** (C19) Whatever schema Java's checks accept, the table of types stays well formed:
    each type is under its own name, refers only to types of the table, has
    valid and distinct field names or symbols, a size that fits, and unions
    without repetition or nesting; and no type that was there is changed. *)
Theorem avro_types_wellformed vd fuel names v p names' : table_ok names → parse_value vd fuel names v = Some (Ok (p, names')) →
  table_ok names' ∧ names ⊆ names'.
Proof.
  intros Ht. unfold parse_value. destruct (schema vd fuel v _) as [[[j s']|]|] eqn:E; try done. intros [= _ <-].
  destruct (schema_good vd fuel v (mkPState names None [] [] [] []) j s' Ht E) as [F _]. split; apply F.
Qed.

(** Every pointer noted for an accepted schema leads to the default of a field of
    that schema, and exchanging what it leads to exchanges that default. *)
Theorem avro_defaults_addressed vd fuel names v p names' ptr : table_ok names → parse_value vd fuel names v = Some (Ok (p, names')) →
  ptr ∈ (pd_lenient p).*1 ++ (pd_normalized p).*1 ++ (pd_numbers p).*1 →
  ∃ path d, pointer_path ptr = Some path ∧ last path = Some "default" ∧ value_at path v = Some d ∧
    ∀ x, value_at path (pointer_set ptr x v) = Some x.
Proof.
  intros Ht. unfold parse_value. destruct (schema vd fuel v _) as [[[j s']|]|] eqn:E; try done. intros [= <- _] Hptr.
  destruct (schema_good vd fuel v (mkPState names None [] [] [] []) j s' Ht E) as [F _].
  destruct (fr_pointers _ _ _ F ptr Hptr) as [H|(path & ([d Hd] & Hl & Hp) & ->)]; [by apply not_elem_of_nil in H|]. cbn [ps_path app].
  exists path, d. split_and!; [by apply pointer_path_pointer|done|done|]. intros x. unfold pointer_set, pointer_update. rewrite pointer_path_pointer by done. cbn.
  destruct (update_path_get path (λ _, x) v d Hd) as (w & -> & Hw). done.
Qed.
End parsed.

(** The linked list. *)
Lemma avro_types_wellformed_witness : ∃ p names', parse_value true 10 ∅ list_schema = Some (Ok (p, names')) ∧ table_ok names' ∧ ∅ ⊆ names'.
Proof.
  assert (∃ p names', parse_value true 10 ∅ list_schema = Some (Ok (p, names'))) as (p & names' & E) by (eexists _, _; vm_compute; reflexivity).
  exists p, names'. split; [exact E|]. exact (avro_types_wellformed true 10 ∅ list_schema p names' table_ok_empty E).
Defined.
(** A default that is text for a number. *)
Definition textual_schema : Value := record_of "A" [field_of "x" (VString "double") (Some (VString "1.5"))].
Lemma avro_defaults_addressed_witness : ∃ path d, pointer_path "/fields/0/default" = Some path ∧ last path = Some "default" ∧
  value_at path textual_schema = Some d ∧ ∀ x, value_at path (pointer_set "/fields/0/default" x textual_schema) = Some x.
Proof.
  assert (∃ p names', parse_value true 10 ∅ textual_schema = Some (Ok (p, names')) ∧ (pd_numbers p).*1 = ["/fields/0/default"]) as (p & names' & E & Hn)
    by (eexists _, _; vm_compute; split; reflexivity).
  apply (avro_defaults_addressed true 10 ∅ textual_schema p names' _ table_ok_empty E). rewrite Hn, !elem_of_app. right. right. by left.
Defined.
