(* ===== verification/AvroMeaning.v ===== *)
(** The stored text means what was registered: Java's checks accept the shown
    schema, with the same types, names and notes as the schema itself. *)
From S2P Require Import Prelude SortedVec RustStr Errors Json Model SchemaLayer Avro Float64 Dump ProtoLex FloatText AvroRender AvroJava AvroParse AvroShown AvroStable AvroTypes.

Open Scope string_scope.
Open Scope nat_scope.
Open Scope list_scope.

(** * A schema that Java's checks accept is stored as text that is read as the same
    schema: the renderer and the checks agree on every name. *)

(** * Schemas without the names and defaults the renderer confuses *)

(** No empty namespace is written in front of a name. *)
Definition spaced (name : string) : bool := match rsplit_once_char "." name with Some (ns, _) => negb (bool_decide (ns = "")) | None => true end.

Fixpoint neat (v : Value) : bool :=
  match v with
  | VString t => spaced t
  | VArray l => forallb neat l
  | VObject o =>
      let ty := default "" (str_at "type" o) in
      let field f := match f with
        | VObject fo => on_key "type" neat true fo && negb (from_option marked false (map_get "default" fo))
        | _ => true
        end in
      (if mem ty NAMED_TYPES then proper (default "" (str_at "name" o)) else spaced ty) &&
      on_key "fields" (λ f, match f with VArray fs => forallb field fs | _ => true end) true o &&
      on_key "items" neat true o && on_key "values" neat true o
  | _ => true
  end.

(** * Names *)

Section names.
Context {text : JsonText} {tables : UnicodeTables}.

(** The names the renderer knows are those of the table. *)
Definition agree (known : list string) (names : Table) : Prop := ∀ n, n ∈ known ↔ is_Some (names !! n).

Lemma agree_empty : agree [] ∅.
Proof. intros n. rewrite lookup_empty. split; [by intros ?%not_elem_of_nil|by intros [x Hx]]. Qed.
Lemma agree_mem known names n : agree known names → mem n known = bool_decide (is_Some (names !! n)).
Proof. intros H. unfold mem. apply bool_decide_ext, H. Qed.
Lemma agree_insert known names full j : agree known names → agree (known ++ [full]) (<[full := j]> names).
Proof. intros H n. rewrite elem_of_app, list_elem_of_singleton, lookup_insert_is_Some', (H n). split; (intros [?|?]; [by right|by left]). Qed.
Lemma agree_overwrite known names full j : agree known names → is_Some (names !! full) → agree known (<[full := j]> names).
Proof. intros H Hf n. rewrite lookup_insert_is_Some'. rewrite (H n). split; [auto|]. by intros [<-|?]. Qed.

Lemma validate_lacks name x : validate_name (Some name) = Ok x → x = name.
Proof. apply validate_name_Ok. Qed.

Lemma name_new_undotted t space n : rsplit_once_char "." t = None → name_new t space = Ok n → n = qualify space t.
Proof. intros E. unfold name_new. rewrite E, bind_Ok. intros (x & Hx%validate_lacks & [= <-]). by subst. Qed.
Lemma name_new_dotted t space n a b : rsplit_once_char "." t = Some (a, b) → name_new t space = Ok n → n = qualify (Some a) b.
Proof. intros E. unfold name_new. rewrite E, bind_Ok. intros (x & Hx%validate_lacks & [= <-]). by subst. Qed.

Lemma contains_dot t : contains_char "." t = match rsplit_once_char "." t with Some _ => true | None => false end.
Proof.
  destruct (rsplit_once_char "." t) as [[a b]|] eqn:E.
  - apply rsplit_once_char_Some in E as [-> _]. unfold contains_char. apply bool_decide_eq_true, not_eq_None_Some. apply has_char.
  - apply rsplit_once_char_None in E. unfold contains_char. apply bool_decide_eq_false. unfold lacks in E. rewrite E. by intros [? ?].
Qed.

(** A reference: both find the same type. *)
Lemma referred_found t space known names n : spaced t = true → agree known names →
  name_new t space = Ok n → is_Some (names !! n.2) → referred t space known = n.2.
Proof.
  intros Hs Ha Hn Hk. unfold referred. rewrite contains_dot. unfold spaced in Hs. destruct (rsplit_once_char "." t) as [[a b]|] eqn:E.
  - pose proof (name_new_dotted _ _ _ _ _ E Hn) as ->. unfold qualify in *. apply negb_true_iff, bool_decide_eq_false in Hs. rewrite decide_False in * by done. cbn [snd] in *.
    apply rsplit_once_char_Some in E as [-> _]. by destruct (mem _ known).
  - pose proof (name_new_undotted _ _ _ E Hn) as ->. unfold qualify in *. destruct space as [ns|]; [case_decide|]; cbn [snd] in *; rewrite !(agree_mem _ _ _ Ha), (bool_decide_eq_true_2 _ Hk); done.
Qed.
Lemma referred_outside t space known names n n' : spaced t = true → agree known names →
  name_new t None = Ok n → is_Some (names !! n.2) → name_new t space = Ok n' → names !! n'.2 = None → referred t space known = n.2.
Proof.
  intros Hs Ha Hn Hk Hn' Hno. unfold referred. rewrite contains_dot. unfold spaced in Hs. destruct (rsplit_once_char "." t) as [[a b]|] eqn:E.
  - pose proof (name_new_dotted _ _ _ _ _ E Hn) as ->. pose proof (name_new_dotted _ _ _ _ _ E Hn') as ->. destruct Hk as [? Hk]. congruence.
  - pose proof (name_new_undotted _ _ _ E Hn) as ->. pose proof (name_new_undotted _ _ _ E Hn') as ->. cbn in Hk. unfold qualify in Hno.
    destruct space as [ns|]; [case_decide|]; cbn [snd] in *; rewrite !(agree_mem _ _ _ Ha); rewrite ?(bool_decide_eq_true_2 _ Hk); try done.
    rewrite (bool_decide_eq_false_2 (is_Some (names !! _))); [done|]. rewrite Hno. by intros [? ?].
Qed.
Lemma reference_settled t space s j known : spaced t = true → agree known (ps_names s) → ps_space s = space → get_name t s = Ok (Some j) →
  mem t PRIMITIVES || mem (referred t space known) known = true.
Proof.
  intros Hs Ha <- [[Hp _]|(Hp & n & -> & Hk & Hn)]%get_name_Some; [by rewrite Hp|]. rewrite Hp. cbn [orb].
  assert (referred t (ps_space s) known = n.2) as ->.
  { destruct Hn as [Hn|(Hn & n' & Hn' & Hno)]; [by eapply referred_found|by eapply referred_outside]. }
  rewrite (agree_mem _ _ _ Ha). by apply bool_decide_eq_true.
Qed.

(** A definition: both give it the same name. *)
Lemma naming_shown o s t ns full : naming o s t ns full → proper (default "" (str_at "name" o)) = true →
  named_of o (default "" (ps_space s)) = (full, ns) ∧ proper full = true.
Proof.
  intros [_ (name & Hname & Hn) _ _ _] Hp. unfold named_of. rewrite Hname in *. cbn [default from_option id] in *. unfold split_name, space_of in *.
  unfold proper in Hp. apply andb_true_iff in Hp as [Hprim Hsp]. destruct (rsplit_once_char "." name) as [[a b]|] eqn:E.
  - pose proof (name_new_dotted _ _ _ _ _ E Hn) as Hq. unfold qualify in Hq. apply negb_true_iff, bool_decide_eq_false in Hsp. rewrite decide_False in Hq by done.
    injection Hq as -> ->. pose proof E as [Hname' _]%rsplit_once_char_Some. change (a +:+ "." +:+ b) with (a +:+ String "." b). rewrite <-Hname'. split; [done|].
    unfold proper. rewrite Hprim, E. cbn. by rewrite bool_decide_eq_false_2.
  - pose proof (name_new_undotted _ _ _ E Hn) as Hq. apply rsplit_once_char_None in E as Hl. rewrite last_segment_plain in Hprim by done.
    assert (∀ sp, (ns, full) = qualify (Some sp) name → (if decide (sp = "") then (name, None) else (sp +:+ "." +:+ name, Some sp)) = (full, ns) ∧ proper full = true) as Hgen.
    { intros sp. unfold qualify. case_decide as Hd; intros [= -> ->]; (split; [done|]); unfold proper.
      - by rewrite last_segment_plain, Hprim, E.
      - change (sp +:+ "." +:+ name) with (sp +:+ String "." name). rewrite last_segment_dot, Hprim, rsplit_once_char_app by done. cbn. by rewrite bool_decide_eq_false_2. }
    destruct (str_at "namespace" o) as [sp|]; cbn [default from_option id]; [by apply Hgen|]. destruct (ps_space s) as [sp|]; [by apply Hgen|]. by apply Hgen.
Qed.
End names.

(** * Accepted schemas are settled *)

Section accepted.
Context {text : JsonText} {tables : UnicodeTables}.
Context (vd : bool) (fuel : nat) (sp : bool).
Abbreviation schema := (AvroJava.schema vd fuel).

Definition accepted (v : Value) (s s' : PState) (known : list string) : Prop :=
  printable v = true ∧ settled sp v (ps_space s) known = true ∧ agree (shown sp v (ps_space s) known).2 (ps_names s').
Definition accepts (v : Value) : Prop := ∀ s j s' known, table_ok (ps_names s) → schema v s = Some (Ok (j, s')) →
  exact_value v → neat v = true → agree known (ps_names s) → accepted v s s' known.

Lemma prim_object_props o t : exact_value (VObject o) → str_at "type" o = Some t → length o = 1 ∨ props sp o ["type"] ≠ [].
Proof.
  rewrite exact_object. intros [Hnd _] Ht. destruct (decide (props sp o ["type"] = [])) as [E|E]; [left|by right].
  assert (∀ k x, (k, x) ∈ o → k = "type") as Hall.
  { intros k x Hx. destruct (decide (k = "type")) as [?|Hne]; [done|]. assert ((k, x) ∈ props sp o ["type"]) as Hin; [|rewrite E in Hin; by apply not_elem_of_nil in Hin].
    rewrite props_perm. apply list_elem_of_filter. split; [|done]. cbn. by rewrite list_elem_of_singleton. }
  destruct o as [|[k x] [|[k' x'] o]]; [done|done|]. exfalso. cbn in Hnd. apply NoDup_cons in Hnd as [Hnin _]. apply Hnin.
  rewrite (Hall k x) by set_solver. rewrite (Hall k' x') by set_solver. by left.
Qed.

(** Elements with their index, and fields. *)
Lemma union_accepted i l s ys s' known : Forall accepts l → each_run (λ i t, at_seg (pretty i) (schema t)) i l s ys s' → table_ok (ps_names s) →
  Forall exact_value l → forallb neat l = true → agree known (ps_names s) →
  forallb printable l = true ∧ through (λ b, settled sp b (ps_space s)) (λ b, shown sp b (ps_space s)) l known = true ∧
  agree (thread (λ b, shown sp b (ps_space s)) l known).2 (ps_names s').
Proof.
  intros IH Hrun. revert known IH. induction Hrun as [i s|i x l s y s1 ys s2 Hf Hrun IHl]; intros known IH Ht He Hn Ha; [done|].
  apply Forall_cons in IH as [IHx IH]. apply Forall_cons in He as [Hex He]. cbn [forallb] in Hn. apply andb_true_iff in Hn as [Hnx Hn].
  unfold at_seg in Hf. destruct (schema x _) as [[[y' s3]|e]|] eqn:E; try done. injection Hf as [= -> <-].
  destruct (schema_good vd fuel x (set_path _ s) y s3 Ht E) as [F _]. destruct (IHx (set_path _ s) y s3 known Ht E Hex Hnx Ha) as (P1 & S1 & A1). cbn [ps_space set_path] in *.
  destruct (shown sp x (ps_space s) known) as [z k] eqn:Es. cbn [snd] in A1.
  destruct (IHl k IH (fr_table _ _ _ F) He Hn A1) as (P2 & S2 & A2). cbn [ps_space set_path] in *. rewrite (fr_space _ _ _ F) in S2, A2. cbn [ps_space set_path] in *.
  cbn [forallb through thread]. rewrite P1, S1, Es. cbn [snd andb]. split_and!; [done..|]. by destruct (thread _ l k).
Qed.

Lemma fields_accepted i fs s ys s' known :
  Forall (λ f, match f with VObject fo => ∀ k y, map_get k fo = Some y → accepts y | _ => True end) fs →
  each_run (parse_field_with vd fuel schema) i fs s ys s' → table_ok (ps_names s) → Forall exact_value fs →
  forallb (λ f, match f with VObject fo => on_key "type" neat true fo && negb (from_option marked false (map_get "default" fo)) | _ => true end) fs = true →
  agree known (ps_names s) →
  forallb field_ok fs = true ∧ through (settled_field_with (λ v, settled sp v (ps_space s))) (shown_field sp (ps_space s)) fs known = true ∧
  agree (thread (shown_field sp (ps_space s)) fs known).2 (ps_names s').
Proof.
  intros IH Hrun. revert known IH. induction Hrun as [i s|i x l s y s1 ys s2 Hf Hrun IHl]; intros known IH Ht He Hn Ha; [done|].
  apply Forall_cons in IH as [IHx IH]. apply Forall_cons in He as [Hex He]. cbn [forallb] in Hn. apply andb_true_iff in Hn as [Hnx Hn].
  apply field_runs in Hf as (fo & -> & Hf). inversion Hf as [fname ft j s3 d s4 Hname Hv Hft Hs Hrest Hnote Hnone]; subst. rewrite on_key_get, Hft in Hnx. cbn [from_option] in Hnx.
  apply andb_true_iff in Hnx as [Hnx Hmk]. destruct (schema_good vd fuel ft (set_path _ s) j s3 Ht Hs) as [F _].
  destruct (IHx _ _ Hft (set_path _ s) j s3 known Ht Hs (exact_get _ _ _ Hex Hft) Hnx Ha) as (P1 & S1 & A1). cbn [ps_space set_path] in *.
  destruct Hnote as [N1 N2 _ _ _ _]. cbn [after_type set_path ps_names ps_space] in N1, N2.
  assert (ps_space s1 = ps_space s) as Hsp by (rewrite N2; apply F).
  assert (shown_field sp (ps_space s) (VObject fo) known = (VObject (field_shown sp (shown sp ft (ps_space s) known).1 fo), (shown sp ft (ps_space s) known).2)) as Ef.
  { unfold shown_field. cbn [shown_field_with]. rewrite on_key_get, Hft. cbn [from_option]. by destruct (shown sp ft (ps_space s) known). }
  destruct (IHl (shown sp ft (ps_space s) known).2 IH) as (P2 & S2 & A2); [rewrite N1; apply F|done..|by rewrite N1|]. rewrite Hsp in S2, A2.
  cbn [forallb through thread]. rewrite Ef. cbn [snd]. split_and!.
  - cbn [field_ok]. rewrite on_key_get, Hft. cbn [from_option]. by rewrite P1, Hmk.
  - cbn [settled_field_with]. rewrite on_key_get, Hft. cbn [from_option]. by rewrite S1.
  - by destruct (thread _ l _).
Qed.

Lemma fields_names i fs s ys s' : each_run (parse_field_with vd fuel schema) i fs s ys s' → table_ok (ps_names s) → ps_names s ⊆ ps_names s'.
Proof.
  intros Hrun Ht. destruct (each_frame _ field_default (λ _ _, True) _ _ _ _ _ ltac:(done) Hrun Ht) as [F _]; [|apply F].
  intros k f s0 [[n y] d] s1 Hk Ht0 Hf. apply field_runs in Hf as (fo & -> & Hf). split; [|done]. eapply field_good; [done|exact Hf|]. intros ft s2 j2 s3 _ Ht2 E2. by apply (schema_good vd fuel ft s2).
Qed.

Lemma new_unknown known names full : agree known names → names !! full = None → mem full known = false.
Proof. intros Ha Hf. rewrite (agree_mem _ _ _ Ha). apply bool_decide_eq_false. rewrite Hf. by intros [? ?]. Qed.

Lemma schema_accepts v : accepts v.
Proof.
  induction v as [v Hv|l IH|o IH] using value_key_ind; intros s j s' known Ht Hs He Hn Ha.
  - destruct v as [| | |t| |]; try done. apply name_runs in Hs as [-> Hg]. split_and!; [done| |done]. by eapply reference_settled.
  - apply union_runs in Hs as (types & -> & Hrun & _). apply exact_array in He. destruct (union_accepted _ _ _ _ _ known IH Hrun Ht He Hn Ha) as (P & S & A).
    split_and!; [done..|]. cbn [shown]. by destruct (thread _ l known).
  - apply object_runs in Hs. cbn [neat] in Hn. rewrite !on_key_get, !andb_true_iff in Hn. destruct Hn as [[[Hname Hfields] Hitems] Hvalues].
    destruct Hs as [t Et Ep|t ns full fs fields s2 Hnm Er Ef Hrun Hrep|ns full symbols seen Hnm Esy Hseen Hdef|ns full n Hnm Esz Hn0|x j s1 Et Ex Hs|x j s1 Et Ex Hs|t n Et Ep En Hna Hnmp Hnn Hk].
    + pose proof (prim_not_named t Ep) as En. destruct (unnamed t En) as (Hrec & Hnf & _).
      assert (t ≠ "array" ∧ t ≠ "map") as [H1 H2] by (split; intros ->; vm_compute in Ep; done).
      unfold accepted. rewrite (printable_object o t Et). cbn [settled shown]. rewrite Et, En, Hrec, !decide_False, Ep by done. split_and!; [done| |by case_decide].
      apply orb_true_iff. rewrite bool_decide_eq_true, negb_true_iff, bool_decide_eq_false. by eapply prim_object_props.
    + pose proof Hnm as [Et _ Hpr Hfree _]. rewrite Et in Hname. cbn [default from_option id] in Hname.
      assert (mem t NAMED_TYPES = true ∧ mem t ["enum"; "fixed"] = false ∧ t ≠ "enum" ∧ t ≠ "fixed") as (En & Hef & Hne & Hnf).
      { apply mem_true in Er. rewrite !elem_of_cons, elem_of_nil in Er. destruct Er as [->|[->|[]]]; by vm_compute. }
      rewrite En in Hname. destruct (naming_shown _ _ _ _ _ Hnm Hname) as [Hof Hprop]. pose proof (new_unknown _ _ _ Ha Hfree) as Hm.
      pose proof (exact_get _ _ _ He Ef) as Hfe. apply exact_array in Hfe. rewrite Ef in Hfields. cbn [from_option] in Hfields.
      assert (table_ok (ps_names (define full (JRecord full []) (set_space ns s)))) as Ht0.
      { apply (fr_table (λ _, False) (set_space ns s)), define_frame; try done. by split; [constructor|]. }
      destruct (fields_accepted _ _ _ _ _ (known ++ [full]) (proj2 (proj2 (IH _ _ Ef)) fs eq_refl) Hrun Ht0 Hfe Hfields (agree_insert _ _ _ _ Ha)) as (P & S & A).
      cbn [ps_space define set_space] in S, A. unfold accepted. split_and!.
      * by rewrite (printable_object o t Et), Er, Ef.
      * cbn [settled]. by rewrite Et, En, Hof, Hprop, Hm, Hef, on_key_get, Ef.
      * rewrite (shown_named sp t o _ _ full ns), !decide_False, Ef by done. cbn [from_option]. destruct (thread (shown_field sp ns) fs (known ++ [full])) as [ws k]. cbn [snd] in *.
        apply agree_overwrite; [done|]. apply (lookup_weaken_is_Some (ps_names (define full (JRecord full []) (set_space ns s)))); [|by eapply fields_names]. cbn. rewrite lookup_insert_eq. done.
    + pose proof Hnm as [Et _ Hpr Hfree _]. rewrite Et in Hname. destruct (naming_shown _ _ _ _ _ Hnm Hname) as [Hof Hprop]. pose proof (new_unknown _ _ _ Ha Hfree) as Hm.
      unfold accepted. split_and!; [by rewrite (printable_object o "enum" Et)| |].
      * cbn [settled]. rewrite Et, Hof, Hprop, Hm. done.
      * rewrite (shown_named sp "enum" o _ _ full ns), decide_True by done. by apply agree_insert.
    + pose proof Hnm as [Et _ Hpr Hfree _]. rewrite Et in Hname. destruct (naming_shown _ _ _ _ _ Hnm Hname) as [Hof Hprop]. pose proof (new_unknown _ _ _ Ha Hfree) as Hm.
      unfold accepted. split_and!.
      * rewrite (printable_object o "fixed" Et). change (mem "fixed" ["record"; "error"]) with false. rewrite decide_True by done. apply bool_decide_eq_true.
        unfold fixed_size in Esz. cbn [Json.get] in Esz. by destruct (map_get "size" o).
      * cbn [settled]. rewrite Et, Hof, Hprop, Hm. done.
      * rewrite (shown_named sp "fixed" o _ _ full ns), decide_False, decide_True by done. by apply agree_insert.
    + rewrite Ex in Hitems. destruct (proj1 (IH _ _ Ex) (set_path _ s) j s1 known Ht Hs (exact_get _ _ _ He Ex) Hitems Ha) as (P & S & A). cbn [ps_space set_path] in *.
      unfold accepted. split_and!.
      * rewrite (printable_object o "array" Et), Ex. done.
      * cbn [settled]. rewrite Et, on_key_get, Ex. done.
      * cbn [shown]. rewrite Et, on_key_get, Ex. change (mem "array" NAMED_TYPES) with false. rewrite decide_True by done. cbn [from_option]. by destruct (shown sp x (ps_space s) known).
    + rewrite Ex in Hvalues. destruct (proj1 (IH _ _ Ex) (set_path _ s) j s1 known Ht Hs (exact_get _ _ _ He Ex) Hvalues Ha) as (P & S & A). cbn [ps_space set_path] in *.
      unfold accepted. split_and!.
      * rewrite (printable_object o "map" Et), Ex. done.
      * cbn [settled]. rewrite Et, !on_key_get, Ex. done.
      * cbn [shown]. rewrite Et, !on_key_get, Ex. change (mem "map" NAMED_TYPES) with false. rewrite decide_False, decide_True by done. cbn [from_option]. by destruct (shown sp x (ps_space s) known).
    + destruct (unnamed t En) as (Hrec & Hnf & _). rewrite Et in Hname. cbn [default from_option id] in Hname. rewrite En in Hname. unfold accepted.
      rewrite (printable_object o t Et). cbn [settled shown]. rewrite Et, En, Hrec, !decide_False, Ep by done. split_and!; [done| |done].
      rewrite (referred_found _ _ _ _ _ Hname Ha Hnn Hk), (agree_mem _ _ _ Ha). by apply bool_decide_eq_true.
Qed.
End accepted.

(** * Runs are enough *)

Lemma ok_bind {A B} (m : M A) (f : A → M B) s a s1 r : m s = Some (Ok (a, s1)) → f a s1 = r → (m ≫= f) s = r.
Proof. unfold mbind, M_bind. by intros ->. Qed.
Lemma ok_lift {A} (x : result string A) a s : x = Ok a → lift x s = Some (Ok (a, s)).
Proof. by intros ->. Qed.
Lemma ok_guard b e s : b = true → guard_that b e s = Some (Ok ((), s)).
Proof. by intros ->. Qed.
Lemma ok_at {A} seg (m : M A) s a s1 : m (set_path (ps_path s ++ [seg]) s) = Some (Ok (a, s1)) →
  at_seg seg m s = Some (Ok (a, set_path (removelast (ps_path s1)) s1)).
Proof. unfold at_seg. by intros ->. Qed.
Lemma each_complete {A B} (f : nat → A → M B) i l s ys s' : each_run f i l s ys s' → each f i l s = Some (Ok (ys, s')).
Proof. induction 1 as [|i x l s y s1 ys s2 Hf _ IH]; [done|]. cbn [each]. eapply ok_bind; [done|]. by eapply ok_bind. Qed.

Section complete.
Context {text : JsonText} {tables : UnicodeTables}.
Context (vd : bool) (fuel : nat).
Abbreviation schema := (AvroJava.schema vd fuel).

Lemma add_complete full j s : ps_names s !! full = None → add full j s = Some (Ok ((), define full j s)).
Proof. intros H. unfold add. eapply ok_bind; [done|]. eapply ok_bind; [|done]. by apply ok_guard, bool_decide_eq_true. Qed.

Lemma object_complete o s j s' : object_run vd fuel o s j s' → schema (VObject o) s = Some (Ok (j, s')).
Proof.
  intros Hrun. cbn [AvroJava.schema]. destruct Hrun as [t Et Ep|t ns full fs fields s2 Hnm Er Ef Hrun Hrep|ns full symbols seen Hnm Esy Hseen Hdef|ns full n Hnm Esz Hn0|x j s1 Et Ex Hs|x j s1 Et Ex Hs|t n Et Ep En Hna Hnm Hnn Hk].
  - eapply ok_bind; [by apply ok_lift, required_get|]. eapply ok_bind; [done|]. rewrite (prim_not_named t Ep), Ep. do 4 (eapply ok_bind; [done|]). by rewrite set_space_id.
  - destruct Hnm as [Et (name & Hname & Hnew) Hpr Hfree Hal].
    assert (mem t NAMED_TYPES = true ∧ mem t PRIMITIVES = false) as [En Ep] by (apply mem_true in Er; rewrite !elem_of_cons, elem_of_nil in Er; by destruct Er as [->|[->|[]]]).
    eapply ok_bind; [by apply ok_lift, required_get|]. eapply ok_bind; [done|]. rewrite En, Ep, Er.
    eapply ok_bind; [eapply ok_bind; [by apply ok_lift, required_get|]; eapply ok_bind; [by apply ok_lift|]; eapply ok_bind; done|].
    eapply ok_bind.
    { eapply ok_bind; [by apply (ok_lift _ ()), refuse_if_Ok|]. eapply ok_bind; [by apply add_complete|]. rewrite on_key_get, Ef. cbn [from_option].
      eapply ok_bind; [by apply each_complete|]. eapply ok_bind; [done|]. eapply ok_bind; [by apply ok_lift|]. eapply ok_bind; done. }
    eapply ok_bind; [done|]. by eapply ok_bind; [apply ok_lift|].
  - destruct Hnm as [Et (name & Hname & Hnew) Hpr Hfree Hal].
    eapply ok_bind; [by apply ok_lift, required_get|]. eapply ok_bind; [done|]. change (mem "enum" NAMED_TYPES) with true. change (mem "enum" PRIMITIVES) with false. change (mem "enum" ["record"; "error"]) with false.
    eapply ok_bind; [eapply ok_bind; [by apply ok_lift, required_get|]; eapply ok_bind; [by apply ok_lift|]; eapply ok_bind; done|].
    rewrite decide_True by done. eapply ok_bind.
    { unfold parse_enum. cbn [Json.get]. rewrite Esy. eapply ok_bind; [by apply (ok_lift _ ()), refuse_if_Ok|]. eapply ok_bind; [by apply ok_lift|].
      apply (ok_bind _ _ _ () (set_space ns s)); [|eapply ok_bind; [by apply add_complete|done]]. change (map_get "default" o ≫= as_str) with (str_at "default" o).
      destruct (str_at "default" o) as [d|]; [by apply ok_guard, Hdef|done]. }
    eapply ok_bind; [done|]. eapply ok_bind; [by apply ok_lift|]. by destruct s.
  - destruct Hnm as [Et (name & Hname & Hnew) Hpr Hfree Hal].
    eapply ok_bind; [by apply ok_lift, required_get|]. eapply ok_bind; [done|]. change (mem "fixed" NAMED_TYPES) with true. change (mem "fixed" PRIMITIVES) with false. change (mem "fixed" ["record"; "error"]) with false.
    eapply ok_bind; [eapply ok_bind; [by apply ok_lift, required_get|]; eapply ok_bind; [by apply ok_lift|]; eapply ok_bind; done|].
    rewrite !decide_False, decide_True by done. eapply ok_bind.
    { unfold parse_fixed. rewrite Esz. eapply ok_bind; [by apply ok_guard, bool_decide_eq_true|]. eapply ok_bind; [by apply (ok_lift _ ()), refuse_if_Ok|].
      eapply ok_bind; [by apply add_complete|done]. }
    eapply ok_bind; [done|]. eapply ok_bind; [by apply ok_lift|]. by destruct s.
  - eapply ok_bind; [by apply ok_lift, required_get|]. eapply ok_bind; [done|]. change (mem "array" NAMED_TYPES) with false. change (mem "array" PRIMITIVES) with false. change (mem "array" ["record"; "error"]) with false.
    eapply ok_bind; [done|]. rewrite decide_False, decide_True, on_key_get, Ex by done. cbn [from_option]. eapply ok_bind; [eapply ok_bind; [by apply ok_at|done]|]. by do 2 (eapply ok_bind; [done|]).
  - eapply ok_bind; [by apply ok_lift, required_get|]. eapply ok_bind; [done|]. change (mem "map" NAMED_TYPES) with false. change (mem "map" PRIMITIVES) with false. change (mem "map" ["record"; "error"]) with false.
    eapply ok_bind; [done|]. rewrite !decide_False, decide_True, on_key_get, Ex by done. cbn [from_option]. eapply ok_bind; [eapply ok_bind; [by apply ok_at|done]|]. by do 2 (eapply ok_bind; [done|]).
  - destruct (unnamed t En) as (Hrec & Hnf & Hne). eapply ok_bind; [by apply ok_lift, required_get|]. eapply ok_bind; [done|]. rewrite En, Ep, Hrec. eapply ok_bind; [done|]. rewrite !decide_False by done.
    eapply ok_bind. { eapply ok_bind; [unfold parse_other; eapply ok_bind; [done|]; eapply ok_bind; [by apply ok_lift|]; rewrite bool_decide_eq_true_2 by done; done|done]. }
    do 2 (eapply ok_bind; [done|]). by rewrite set_space_id.
Qed.

Lemma field_complete fi fo s r s' fname ftype j s1 :
  str_at "name" fo = Some fname → map_get "type" fo = Some ftype →
  schema ftype (set_path (((ps_path s ++ ["fields"]) ++ [pretty fi]) ++ ["type"]) s) = Some (Ok (j, s1)) →
  field_rest vd fuel fi fname ftype j fo (after_type s1) = Some (Ok (r, s')) →
  parse_field_with vd fuel schema fi (VObject fo) s = Some (Ok (r, s')).
Proof.
  intros Hn Ht Hs Hr. unfold parse_field_with. eapply ok_bind; [by apply ok_lift, required_get|]. rewrite on_key_get, Ht. cbn [from_option].
  eapply ok_bind.
  { destruct ftype as [| | |t| |]; try done. apply name_runs in Hs as [_ Hg]. eapply ok_bind; [unfold lookup_name; by apply ok_lift|]. by apply ok_guard, bool_decide_eq_true. }
  eapply ok_bind; [by do 3 apply ok_at|]. done.
Qed.
End complete.

(** * The shown schema runs the same way *)

Section meaning.
Context {text : JsonText} {tables : UnicodeTables}.
Context (vd : bool) (fuel : nat) (sp : bool).
Abbreviation schema := (AvroJava.schema vd fuel).

(** Every name of a table can be printed and is a valid name without its namespace. *)
Definition table_named (names : Table) : Prop := ∀ n, is_Some (names !! n) → proper n = true ∧ valid_name (last_segment n).

Lemma table_named_empty : table_named ∅.
Proof. intros n [x Hx]. by rewrite lookup_empty in Hx. Qed.
Lemma named_insert names full j : table_named names → proper full = true → valid_name (last_segment full) → table_named (<[full := j]> names).
Proof. intros H Hp Hv n. rewrite lookup_insert_is_Some'. intros [<-|Hn]; [done|by apply H]. Qed.
Lemma agree_proper known names : table_named names → agree known names → forallb proper known = true.
Proof. intros H Ha. apply forallb_forall. intros n Hn%list_elem_of_In%Ha. by apply H. Qed.

Lemma name_new_valid name space ns full : proper name = true → name_new name space = Ok (ns, full) → valid_name (last_segment full).
Proof.
  intros Hp. unfold name_new. unfold proper in Hp. apply andb_true_iff in Hp as [_ Hp]. destruct (rsplit_once_char "." name) as [[a b]|] eqn:E; rewrite bind_Ok; intros (x & Hx & Hq); pose proof (validate_lacks _ _ Hx) as ->.
  - apply negb_true_iff, bool_decide_eq_false in Hp. unfold qualify in Hq. rewrite decide_False in Hq by done. injection Hq as <- <-. apply rsplit_once_char_Some in E as [_ Hb].
    change (a +:+ "." +:+ b) with (a +:+ String "." b). by rewrite last_segment_dot.
  - apply rsplit_once_char_None in E. unfold qualify in Hq. destruct space as [n|]; [case_decide|]; injection Hq as <- <-; rewrite ?(last_segment_plain name) by done; try done.
    change (n +:+ "." +:+ name) with (n +:+ String "." name). by rewrite last_segment_dot.
Qed.

(** A name in the namespace it is printed in. *)
Lemma name_new_plain name space x : lacks "." name → valid_name name → name_new name space = Ok x ↔ qualify space name = x.
Proof.
  intros Hl Hv. unfold name_new. rewrite (proj2 (rsplit_once_char_None _ _) Hl), Hv. cbn. split; congruence.
Qed.
Lemma name_new_full full space : proper full = true → valid_name (last_segment full) → contains_char "." full = true → ∃ ns, name_new full space = Ok (ns, full).
Proof.
  intros Hp Hv Hd. rewrite contains_dot in Hd. unfold name_new, proper, last_segment in *. destruct (rsplit_once_char "." full) as [[a b]|] eqn:E; [|done].
  rewrite Hv. cbn. apply andb_true_iff in Hp as [_ Hp]. apply negb_true_iff, bool_decide_eq_false in Hp. unfold qualify. rewrite decide_False by done.
  apply rsplit_once_char_Some in E as [-> _]. by exists (Some a).
Qed.

Lemma get_known t s n : mem t PRIMITIVES = false → name_new t (ps_space s) = Ok n → is_Some (ps_names s !! n.2) → get_name t s = Ok (Some (JNamed n.2)).
Proof. intros Hp Hn Hk. unfold get_name. rewrite Hp, Hn. cbn. by rewrite bool_decide_eq_true_2. Qed.

(** A printed reference names the same type. *)
Lemma get_name_shown t s j known : spaced t = true → table_named (ps_names s) → agree known (ps_names s) → get_name t s = Ok (Some j) →
  get_name (shown_name t (ps_space s) known) s = Ok (Some j).
Proof.
  intros Hs Htn Ha Hg. pose proof Hg as [[Hp ->]|(Hp & n & -> & Hk & Hn)]%get_name_Some; unfold shown_name; rewrite Hp; [done|].
  assert (referred t (ps_space s) known = n.2) as Hr.
  { destruct Hn as [Hn|(Hn & n' & Hn' & Hno)]; [by eapply referred_found|by eapply referred_outside]. }
  pose proof (reference_settled t _ s _ known Hs Ha eq_refl Hg) as Hm. rewrite Hp in Hm. cbn [orb] in Hm.
  destruct (shown_name_again known (agree_proper _ _ Htn Ha) t (ps_space s) Hp Hm) as [Hnp _]. rewrite Hr in *.
  destruct (Htn _ Hk) as [Hprop Hvalid]. unfold qualified in *. destruct (rsplit_once_char "." n.2) as [[a b]|] eqn:E.
  - assert (contains_char "." n.2 = true) as Hdot by (by rewrite contains_dot, E).
    assert (last_segment n.2 = b) as Hl by (unfold last_segment; by rewrite E).
    destruct (ps_space s) as [cur|] eqn:Esp; [case_decide as Hc|].
    + subst cur. rewrite Hl in Hvalid. pose proof E as [E1 E2]%rsplit_once_char_Some.
      unfold proper in Hprop. rewrite E in Hprop. apply andb_true_iff in Hprop as [_ Hprop]. apply negb_true_iff, bool_decide_eq_false in Hprop.
      assert (name_new b (ps_space s) = Ok (Some a, n.2)) as Hb. { apply name_new_plain; [done..|]. rewrite Esp. unfold qualify. rewrite decide_False by done. by rewrite E1. }
      by apply (get_known b s (Some a, n.2)).
    + destruct (name_new_full n.2 (ps_space s) Hprop Hvalid Hdot) as [ns Hf]. by apply (get_known n.2 s (ns, n.2)).
    + destruct (name_new_full n.2 (ps_space s) Hprop Hvalid Hdot) as [ns Hf]. by apply (get_known n.2 s (ns, n.2)).
  - assert (n.2 = t) as Et.
    { apply rsplit_once_char_None in E. rewrite <-Hr in *. unfold referred in *. destruct (contains_char "." t) eqn:Ed; [by case_match|].
      destruct (ps_space s) as [cur|]; [|by case_match]. case_decide; [by case_match|]. case_match; [|done]. by apply has_char in E. }
    assert (match ps_space s with Some _ => n.2 | None => n.2 end = t) as Et' by (by destruct (ps_space s)).
    destruct (ps_space s); rewrite <-Hg; by rewrite Et.
Qed.

(** A named type keeps its name. *)
Lemma naming_again o s t ns full body : naming o s t ns full → proper (default "" (str_at "name" o)) = true →
  (∀ k, k ∈ ["type"; "name"; "namespace"; "doc"] → map_get k body = None) → map_get "aliases" body = shown_aliases o →
  naming (shown_head t full ns (ps_space s) o ++ body) s t ns full ∧ proper full = true ∧ valid_name (last_segment full).
Proof.
  intros Hnm Hp Hb Hal. destruct (naming_shown _ _ _ _ _ Hnm Hp) as [Hof Hprop]. destruct Hnm as [Et (name & Hname & Hn) Hpr Hfree Hali].
  rewrite Hname in Hp. cbn in Hp. pose proof (name_new_valid _ _ _ _ Hp Hn) as Hv. split_and!; [|done|done].
  unfold named_of in Hof. pose proof (split_name_shape _ _ _ _ _ Hof Hprop) as Hshape. set (out := _ ++ body).
  assert (map_get "namespace" out = shown_namespace ns (ps_space s)) as Hns.
  { unfold out, shown_head. look. rewrite Hb by set_solver. by destruct (shown_namespace ns (ps_space s)). }
  constructor; [done| |done|done|].
  - exists (last_segment full). split; [done|]. apply name_new_plain; [apply last_segment_lacks|done|]. unfold space_of, str_at. rewrite Hns.
    destruct ns as [n|].
    + destruct Hshape as [Hn0 Hf]. assert (qualify (Some n) (last_segment full) = (Some n, full)) as Hq by (unfold qualify; rewrite decide_False by done; by rewrite <-Hf).
      unfold shown_namespace. destruct (ps_space s) as [cur|]; [|done]. case_decide; [by subst|done].
    + rewrite (last_segment_plain full) by done. unfold shown_namespace. destruct (ps_space s) as [cur|]; [|done]. case_decide; [by subst|done].
  - unfold aliases. cbn [Json.get]. assert (map_get "aliases" out = shown_aliases o) as ->.
    { unfold out, shown_head. look. }
    unfold aliases in Hali. cbn [Json.get] in Hali. unfold shown_aliases. by destruct (map_get "aliases" o) as [[| | | |[|x a]|]|].
Qed.

Definition same_run (v : Value) : Prop := ∀ s j s' known, table_ok (ps_names s) → table_named (ps_names s) → schema v s = Some (Ok (j, s')) →
  exact_value v → neat v = true → agree known (ps_names s) →
  schema (shown sp v (ps_space s) known).1 s = Some (Ok (j, s')) ∧ table_named (ps_names s').

Lemma union_same i l s ys s' known : Forall same_run l → each_run (λ i t, at_seg (pretty i) (schema t)) i l s ys s' → table_ok (ps_names s) → table_named (ps_names s) →
  Forall exact_value l → forallb neat l = true → agree known (ps_names s) →
  each_run (λ i t, at_seg (pretty i) (schema t)) i (thread (λ b, shown sp b (ps_space s)) l known).1 s ys s' ∧ table_named (ps_names s').
Proof.
  intros IH Hrun. revert known IH. induction Hrun as [i s|i x l s y s1 ys s2 Hf Hrun IHl]; intros known IH Ht Htn He Hn Ha; [split; [constructor|done]|].
  apply Forall_cons in IH as [IHx IH]. apply Forall_cons in He as [Hex He]. cbn [forallb] in Hn. apply andb_true_iff in Hn as [Hnx Hn].
  unfold at_seg in Hf. destruct (schema x _) as [[[y' s3]|e]|] eqn:E; try done. injection Hf as [= -> <-].
  destruct (schema_good vd fuel x (set_path _ s) y s3 Ht E) as [F _].
  destruct (schema_accepts vd fuel sp x (set_path _ s) y s3 known Ht E Hex Hnx Ha) as (_ & _ & A1).
  destruct (IHx (set_path _ s) y s3 known Ht Htn E Hex Hnx Ha) as [R1 N1]. cbn [ps_space set_path] in *.
  cbn [thread]. destruct (shown sp x (ps_space s) known) as [z k]. cbn [fst snd] in *.
  destruct (IHl k IH (fr_table _ _ _ F) N1 He Hn A1) as [R2 N2]. cbn [ps_space set_path] in *. rewrite (fr_space _ _ _ F) in R2. cbn [ps_space set_path] in *.
  destruct (thread _ l k) as [zs k']. cbn [fst] in *. split; [|done]. econstructor; [|exact R2]. by apply ok_at.
Qed.

(** The rest of a field depends on what is shown of it only. *)
Lemma check_default_type fi fname ft ft' j d s r : check_default vd fuel fi fname ft j d s = Some (Ok r) → check_default vd fuel fi fname ft' j d s = Some (Ok r).
Proof.
  unfold check_default, mbind, M_bind, state, ends_in. cbn [option_bind mbind]. destruct (valid_default _ _ _ _) as [valid|]; [|done]. cbn.
  destruct valid; cbn; [|by destruct vd]. destruct (model_accepts _ _ _ _) as [[]|]; [done| |done]. by rewrite andb_false_r.
Qed.
Lemma when_type (o : option Value) fi fname ft ft' j s r :
  when_some o (check_default vd fuel fi fname ft j) s = Some (Ok r) → when_some o (check_default vd fuel fi fname ft' j) s = Some (Ok r).
Proof. destruct o; [apply check_default_type|done]. Qed.

Lemma field_rest_same fi fname ft ft' j fo s r s' : field_rest vd fuel fi fname ft j fo s = Some (Ok (r, s')) →
  field_rest vd fuel fi fname ft' j (field_shown sp ft' fo) s = Some (Ok (r, s')).
Proof.
  unfold field_rest. set (out := field_shown sp ft' fo).
  assert (map_get "default" out = map_get "default" fo) as Hd by (unfold out, field_shown; look; by destruct (map_get "default" fo)).
  assert (order_check (VObject fo) = Ok () → order_check (VObject out) = Ok ()) as Ho.
  { assert (map_get "order" out = shown_order fo) as Eo by (unfold out, field_shown; look; by destruct (shown_order fo)).
    unfold order_check. cbn [Json.get]. rewrite Eo. unfold shown_order, str_at. destruct (map_get "order" fo) as [x|]; [|done]. cbn. destruct x; try done. cbn. by case_decide. }
  assert (aliases (VObject fo) = Ok () → aliases (VObject out) = Ok ()) as Hal.
  { assert (map_get "aliases" out = shown_aliases fo) as Ea by (unfold out, field_shown; look; by destruct (shown_aliases fo)).
    unfold aliases. cbn [Json.get]. rewrite Ea. unfold shown_aliases. by destruct (map_get "aliases" fo) as [[| | | |[|x a]|]|]. }
  rewrite Hd. intros H. unfold mbind, M_bind, lift in *. destruct (order_check (VObject fo)) as [[]|]; [|done]. rewrite Ho by done.
  destruct (textual_default fi j (map_get "default" fo) s) as [[[td s1]|]|]; try done. destruct (validate_name (Some fname)); [|done].
  destruct (when_some td.1 _ s1) as [[[[] s2]|]|] eqn:Ew; try done. rewrite (when_type _ _ _ ft ft' _ _ _ Ew).
  destruct (when_some (if td.2 then _ else _) _ s2) as [[[[] s3]|]|]; try done. destruct (aliases (VObject fo)) as [[]|]; [|done]. by rewrite Hal.
Qed.

Lemma fields_same i fs s ys s' known :
  Forall (λ f, match f with VObject fo => ∀ k y, map_get k fo = Some y → same_run y | _ => True end) fs →
  each_run (parse_field_with vd fuel schema) i fs s ys s' → table_ok (ps_names s) → table_named (ps_names s) → Forall exact_value fs →
  forallb (λ f, match f with VObject fo => on_key "type" neat true fo && negb (from_option marked false (map_get "default" fo)) | _ => true end) fs = true →
  agree known (ps_names s) →
  each_run (parse_field_with vd fuel schema) i (thread (shown_field sp (ps_space s)) fs known).1 s ys s' ∧ table_named (ps_names s').
Proof.
  intros IH Hrun. revert known IH. induction Hrun as [i s|i x l s y s1 ys s2 Hf Hrun IHl]; intros known IH Ht Htn He Hn Ha; [split; [constructor|done]|].
  apply Forall_cons in IH as [IHx IH]. apply Forall_cons in He as [Hex He]. cbn [forallb] in Hn. apply andb_true_iff in Hn as [Hnx Hn].
  apply field_runs in Hf as (fo & -> & Hf). inversion Hf as [fname ft j s3 d s4 Hname Hv Hft Hs Hrest Hnote Hnone]; subst. rewrite on_key_get, Hft in Hnx. cbn [from_option] in Hnx.
  apply andb_true_iff in Hnx as [Hnx Hmk]. destruct (schema_good vd fuel ft (set_path _ s) j s3 Ht Hs) as [F _]. pose proof (exact_get _ _ _ Hex Hft) as Hfe.
  destruct (schema_accepts vd fuel sp ft (set_path _ s) j s3 known Ht Hs Hfe Hnx Ha) as (_ & _ & A1).
  destruct (IHx _ _ Hft (set_path _ s) j s3 known Ht Htn Hs Hfe Hnx Ha) as [R1 N1]. cbn [ps_space set_path] in *.
  destruct Hnote as [M1 M2 _ _ _ _]. cbn [after_type set_path ps_names ps_space] in M1, M2.
  assert (ps_space s1 = ps_space s) as Hsp by (rewrite M2; apply F).
  assert (shown_field sp (ps_space s) (VObject fo) known = (VObject (field_shown sp (shown sp ft (ps_space s) known).1 fo), (shown sp ft (ps_space s) known).2)) as Ef.
  { unfold shown_field. cbn [shown_field_with]. rewrite on_key_get, Hft. cbn [from_option]. by destruct (shown sp ft (ps_space s) known). }
  destruct (IHl (shown sp ft (ps_space s) known).2 IH) as [R2 N2]; [rewrite M1; apply F|by rewrite M1|done..|by rewrite M1|]. rewrite Hsp in R2.
  cbn [thread]. rewrite Ef. destruct (thread _ l _) as [zs k']. cbn [fst] in *. split; [|done]. econstructor; [|exact R2].
  eapply field_complete; [|by apply field_shown_again|exact R1|by eapply field_rest_same]. change (str_at "name" (field_shown sp _ fo)) with (Some (default "" (str_at "name" fo))). by rewrite Hname.
Qed.

Lemma union_check_any names v w types seen : union_check names v types seen = Ok () → union_check names w types seen = Ok ().
Proof.
  revert seen. induction types as [|t types IH]; [done|]. intros seen. cbn [union_check]. destruct (resolve names t); try done; (destruct (mem _ seen); [done|apply IH]).
Qed.

Lemma schema_same v : same_run v.
Proof.
  induction v as [v Hv|l IH|o IH] using value_key_ind; intros s j s' known Ht Htn Hs He Hn Ha.
  - destruct v as [| | |t| |]; try done. apply name_runs in Hs as [-> Hg]. split; [|done]. cbn [shown fst AvroJava.schema].
    eapply ok_bind; [unfold lookup_name; by apply ok_lift, get_name_shown|done].
  - apply union_runs in Hs as (types & -> & Hrun & Hu). apply exact_array in He. destruct (union_same _ _ _ _ _ known IH Hrun Ht Htn He Hn Ha) as [R N]. split; [|done].
    cbn [shown]. destruct (thread _ l known) as [zs k]. cbn [fst AvroJava.schema] in *. eapply ok_bind; [by apply each_complete|]. eapply ok_bind; [done|].
    by eapply ok_bind; [by eapply ok_lift, union_check_any|].
  - apply object_runs in Hs. cbn [neat] in Hn. rewrite !on_key_get, !andb_true_iff in Hn. destruct Hn as [[[Hname Hfields] Hitems] Hvalues].
    destruct Hs as [t Et Ep|t ns full fs fields s2 Hnm Er Ef Hrun Hrep|ns full symbols seen Hnm Esy Hseen Hdef|ns full n Hnm Esz Hn0|x j s1 Et Ex Hs|x j s1 Et Ex Hs|t n Et Ep En Hna Hnmp Hnn Hk].
    + pose proof (prim_not_named t Ep) as En. assert (t ≠ "array" ∧ t ≠ "map") as [H1 H2] by (split; intros ->; vm_compute in Ep; done). split; [|done].
      cbn [shown]. rewrite Et, En, !decide_False, Ep by done. cbn [fst]. case_decide.
      * cbn [AvroJava.schema]. eapply ok_bind; [unfold lookup_name; apply ok_lift; unfold get_name; by rewrite Ep|done].
      * apply object_complete. by apply run_prim.
    + pose proof Hnm as [Et _ Hpr Hfree _]. rewrite Et in Hname. cbn [default from_option id] in Hname.
      assert (mem t NAMED_TYPES = true ∧ t ≠ "enum" ∧ t ≠ "fixed") as (En & Hne & Hnf).
      { apply mem_true in Er. rewrite !elem_of_cons, elem_of_nil in Er. destruct Er as [->|[->|[]]]; by vm_compute. }
      rewrite En in Hname. destruct (naming_shown _ _ _ _ _ Hnm Hname) as [Hof Hprop]. pose proof (new_unknown _ _ _ Ha Hfree) as Hm.
      pose proof (exact_get _ _ _ He Ef) as Hfe. apply exact_array in Hfe. rewrite Ef in Hfields. cbn [from_option] in Hfields.
      assert (table_ok (ps_names (define full (JRecord full []) (set_space ns s)))) as Ht0.
      { apply (fr_table (λ _, False) (set_space ns s)), define_frame; try done. by split; [constructor|]. }
      rewrite (shown_named sp t o _ _ full ns), !decide_False, Ef by done. cbn [from_option].
      destruct (thread (shown_field sp ns) fs (known ++ [full])) as [ws k] eqn:Ews. cbn [fst].
      destruct (naming_again o s t ns full (record_shown sp ws o) Hnm Hname (record_free sp ws o)) as (Hnm' & _ & Hval); [unfold record_shown; look|].
      assert (table_named (ps_names (define full (JRecord full []) (set_space ns s)))) as Htn0 by (by apply named_insert).
      destruct (fields_same _ _ _ _ _ (known ++ [full]) (proj2 (proj2 (IH _ _ Ef)) fs eq_refl) Hrun Ht0 Htn0 Hfe Hfields (agree_insert _ _ _ _ Ha)) as [R N].
      change (ps_space (define full (JRecord full []) (set_space ns s))) with ns in R. rewrite Ews in R. cbn [fst] in R.
      split; [|by apply named_insert]. apply object_complete. eapply run_record; [exact Hnm'|done| |exact R|done]. unfold shown_head, record_shown. look.
    + pose proof Hnm as [Et _ Hpr Hfree _]. rewrite Et in Hname. destruct (naming_shown _ _ _ _ _ Hnm Hname) as [Hof Hprop]. pose proof (new_unknown _ _ _ Ha Hfree) as Hm.
      rewrite (shown_named sp "enum" o _ _ full ns), decide_True by done. cbn [fst].
      destruct (naming_again o s "enum" ns full (enum_shown sp o) Hnm Hname (enum_free sp o)) as (Hnm' & _ & Hval); [unfold enum_shown; look|].
      split; [|by apply named_insert]. apply object_complete. eapply run_enum; [exact Hnm'| |exact Hseen|].
      * unfold shown_head, enum_shown. look. by rewrite Esy.
      * intros d. unfold str_at. assert (map_get "default" (shown_head "enum" full ns (ps_space s) o ++ enum_shown sp o) = map_get "default" o) as ->; [|apply Hdef].
        unfold shown_head, enum_shown. look. by destruct (map_get "default" o).
    + pose proof Hnm as [Et _ Hpr Hfree _]. rewrite Et in Hname. destruct (naming_shown _ _ _ _ _ Hnm Hname) as [Hof Hprop]. pose proof (new_unknown _ _ _ Ha Hfree) as Hm.
      rewrite (shown_named sp "fixed" o _ _ full ns), decide_False, decide_True by done. cbn [fst].
      destruct (naming_again o s "fixed" ns full (fixed_shown sp o) Hnm Hname (fixed_free sp o)) as (Hnm' & _ & Hval); [unfold fixed_shown; look|].
      split; [|by apply named_insert]. apply object_complete. eapply run_fixed; [exact Hnm'| |done]. unfold fixed_size in *. cbn [Json.get] in *.
      assert (map_get "size" (shown_head "fixed" full ns (ps_space s) o ++ fixed_shown sp o) = map_get "size" o) as ->; [|done].
      unfold shown_head, fixed_shown. look. by destruct (map_get "size" o).
    + rewrite Ex in Hitems. destruct (proj1 (IH _ _ Ex) (set_path _ s) j s1 known Ht Htn Hs (exact_get _ _ _ He Ex) Hitems Ha) as [R N]. cbn [ps_space set_path] in *. split; [|done].
      cbn [shown]. rewrite Et, on_key_get, Ex. change (mem "array" NAMED_TYPES) with false. rewrite decide_True by done. cbn [from_option].
      destruct (shown sp x (ps_space s) known) as [y k]. cbn [fst] in *. apply object_complete. by eapply run_array.
    + rewrite Ex in Hvalues. destruct (proj1 (IH _ _ Ex) (set_path _ s) j s1 known Ht Htn Hs (exact_get _ _ _ He Ex) Hvalues Ha) as [R N]. cbn [ps_space set_path] in *. split; [|done].
      cbn [shown]. rewrite Et, !on_key_get, Ex. change (mem "map" NAMED_TYPES) with false. rewrite decide_False, decide_True by done. cbn [from_option].
      destruct (shown sp x (ps_space s) known) as [y k]. cbn [fst] in *. apply object_complete. by eapply run_map.
    + rewrite Et in Hname. cbn [default from_option id] in Hname. rewrite En in Hname. split; [|done]. destruct (unnamed t En) as (_ & Hnf & _).
      cbn [shown]. rewrite Et, En, !decide_False, Ep by done. cbn [fst AvroJava.schema].
      eapply ok_bind; [unfold lookup_name; apply ok_lift, get_name_shown; try done; by apply get_known|done].
Qed.
End meaning.

(** * The stored text *)

Section stored.
Context {text : JsonText} {tables : UnicodeTables} {shape : JsonShape}.

(** The rendered text of a schema is the text of one that means the same. *)
Lemma rendered_text_means_the_schema vd fuel sp names v refs p names' :
  table_ok names → table_named names → agree (known_of refs) names →
  exact_value v → neat v = true → parse_value vd fuel names v = Some (Ok (p, names')) →
  ∃ w, java_render sp v refs = value_to_string w ∧ exact_value w ∧
    parse_value vd fuel names w = Some (Ok (p, names')) ∧ java_render sp w refs = java_render sp v refs.
Proof.
  intros Ht Htn Ha He Hn Hp. set (s := mkPState names None [] [] [] []) in *. unfold parse_value in Hp. fold s in Hp.
  destruct (schema vd fuel v s) as [[[j s']|]|] eqn:Hs; try done. exists (shown sp v None (known_of refs)).1.
  destruct (schema_accepts vd fuel sp v s j s' (known_of refs) Ht Hs He Hn Ha) as (Hpr & Hset & _).
  destruct (schema_same vd fuel sp v s j s' (known_of refs) Ht Htn Hs He Hn Ha) as [Hw _]. cbn [ps_space s] in *.
  destruct (shown_stable sp v None (known_of refs) (agree_proper _ _ Htn Ha) Hset) as [_ Hag]. split_and!.
  - unfold java_render. by rewrite render_shown.
  - by apply shown_exact.
  - unfold parse_value. fold s. by rewrite Hw.
  - unfold java_render. rewrite !render_shown by (done || by apply shown_printable). cbn [p_out p_space p_known shown_pen]. cbn in Hag. by rewrite Hag.
Qed.

(** (C18) What is stored for an Avro schema means that schema, under conditions
    on how it is written: no name is written with an empty namespace or called
    like a primitive type, no default starts with the marker of converted
    numbers ([neat]), no default of a float or double is written as text (the
    parser noted no number to convert), and numbers are exact integers with no
    repeated key ([exact_value]). Then the text that is stored is the JSON text
    of a schema that Java's checks accept with the same types, names and notes,
    and for which the same text is stored again. [names] and [known_of refs] are
    the types of the references. *)
Theorem stored_text_means_the_schema {avro_names : AvroNames} {crate : AvroCrate} vd fuel names v refs deps root names' out :
  table_ok names → table_named names → agree (known_of refs) names →
  exact_value v → neat v = true →
  parse_value vd fuel names v = Some (Ok (root, names')) → pd_numbers root = [] → finish v refs deps root = Ok out →
  ∃ w, pa_canonical out = value_to_string w ∧ exact_value w ∧
    parse_value vd fuel names w = Some (Ok (root, names')) ∧
    java_to_string (with_numbers (pd_numbers root) w) refs = pa_canonical out.
Proof.
  intros Ht Htn Ha He Hn Hp Hnum Hf.
  assert (∀ x o, finish x refs deps root = Ok o → pa_canonical o = java_render false x refs) as Hcan.
  { intros x o. unfold finish. rewrite Hnum. cbn [with_numbers foldl]. destruct (foldl normalize_one _ _) as [nv ne].
    intros Hx. apply bind_Ok in Hx as ([sc scs] & _ & Hx). apply bind_Ok in Hx as ([] & _ & [= <-]). done. }
  destruct (rendered_text_means_the_schema vd fuel false names v refs root names' Ht Htn Ha He Hn Hp) as (w & Hw & Hew & Hpw & Hr).
  exists w. rewrite (Hcan v out Hf), Hnum. by split_and!.
Qed.
End stored.

(** The linked list, behind a library that takes every schema for [null]. *)
Definition plain_names : AvroNames := {| Name := string; Alias := string; fullname := id; namespace := λ _, None; alias_fullname := λ a _, a |}.
Definition null_crate : @AvroCrate plain_names := {|
  crate_parse _ := Ok (SNull (avro_names := plain_names));
  crate_parse_with_list _ _ := Ok (SNull (avro_names := plain_names), []);
  first_value_end _ := None |}.
Definition finish_list (root : Parsed) : result string (@ParsedAvro plain_names) :=
  finish (avro_names := plain_names) (crate := null_crate) list_schema [] [] root.

Lemma stored_text_means_the_schema_witness :
  ∃ root names' out w, parse_value true 10 ∅ list_schema = Some (Ok (root, names')) ∧ finish_list root = Ok out ∧
    pa_canonical out = value_to_string w ∧ exact_value w ∧ parse_value true 10 ∅ w = Some (Ok (root, names')).
Proof.
  assert (∃ root names', parse_value true 10 ∅ list_schema = Some (Ok (root, names')) ∧ pd_numbers root = []) as (root & names' & E & Hnum)
    by (eexists _, _; split; vm_compute; reflexivity).
  assert (∃ out, finish_list root = Ok out) as [out Hf].
  { unfold finish_list, finish. destruct (foldl normalize_one _ _) as [nv ne]. cbn [mbind result_bind crate_parse null_crate].
    rewrite Hnum. cbn [with_numbers foldl]. destruct (check_redefinitions list_schema []) as [[]|] eqn:Ec; [by eexists|].
    exfalso. vm_compute in Ec. discriminate. }
  destruct (stored_text_means_the_schema (avro_names := plain_names) (crate := null_crate) true 10 ∅ list_schema [] [] root names' out)
    as (w & Hw & Hew & Hpw & _).
  - apply table_ok_empty.
  - apply table_named_empty.
  - apply agree_empty.
  - cbn. repeat match goal with
      | |- _ ∧ _ => split
      | |- True => exact I
      | |- NoDup _ => apply (bool_decide_unpack _); vm_compute; exact I
      | |- is_u64 _ => split; vm_compute; congruence
      end.
  - vm_compute. reflexivity.
  - exact E.
  - exact Hnum.
  - exact Hf.
  - exists root, names', out, w. split_and!; [exact E|exact Hf|exact Hw|exact Hew|exact Hpw].
Defined.
(** Its text, with quotation marks as apostrophes. *)
Definition apostrophes (s : string) : string := str_map (λ c, if decide (c = byte 34) then byte 39 else c) s.
Example stored_text_of_the_list :
  apostrophes (java_render false list_schema []) =
  "{'type':'record','name':'Node','namespace':'com.acme','fields':[{'name':'value','type':'int','default':0},{'name':'next','type':['null','Node'],'default':null}],'owner':'core'}".
Proof. by vm_compute. Qed.
