(* ===== verification/AvroEnds.v ===== *)
(** When Java's schema checks end. The checks of a default walk through the type
    of its field and, in records, through the defaults of their fields; without
    objects among those defaults every walk ends. *)
From S2P Require Import Prelude SortedVec RustStr Errors Json Model SchemaLayer Avro Float64 Dump ProtoLex FloatText AvroRender AvroJava AvroParse AvroShown AvroStable AvroTypes AvroMeaning.

Open Scope string_scope.
Open Scope nat_scope.
Open Scope list_scope.

(** * Walks that end *)

(** With enough fuel, always the same answer. *)
Definition settles {A} (f : nat → option A) : Prop := ∃ n0 a, ∀ n, n0 ≤ n → f n = Some a.

Lemma settles_now {A} (f : nat → option A) (a : A) : (∀ n, f (S n) = Some a) → settles f.
Proof. intros H. exists 1, a. intros [|n] Hn; [lia|apply H]. Qed.
Lemma settles_step {A} (f g : nat → option A) : (∀ n, f (S n) = g n) → settles g → settles f.
Proof. intros H (n0 & a & Ha). exists (S n0), a. intros [|n] Hn; [lia|]. rewrite H. apply Ha. lia. Qed.

(** All answers of a list of walks. *)
Lemma all_settles {A} (f : nat → A → option bool) l : Forall (λ x, settles (λ n, f n x)) l → settles (λ n, all_of (f n) l).
Proof.
  induction 1 as [|x l (n0 & b & Hb) _ (n1 & c & Hc)]; [by exists 0, true|].
  exists (n0 `max` n1), (if b then c else false). intros n Hn. cbn. rewrite Hb by lia. cbn. destruct b; [apply Hc; lia|done].
Qed.
Lemma collect_settles {A B} (f : nat → A → option B) l : Forall (λ x, settles (λ n, f n x)) l → settles (λ n, collect (f n) l).
Proof.
  induction 1 as [|x l (n0 & b & Hb) _ (n1 & c & Hc)]; [by exists 0, []|].
  exists (n0 `max` n1), (b :: c). intros n Hn. cbn. rewrite Hb by lia. cbn. rewrite Hc by lia. done.
Qed.
Lemma collect_ok_settles {A B} (f : nat → A → option (result string B)) l : Forall (λ x, settles (λ n, f n x)) l → settles (λ n, collect_ok (f n) l).
Proof.
  induction 1 as [|x l (n0 & b & Hb) _ (n1 & c & Hc)]; [by exists 0, (Ok [])|]. destruct b as [y|e].
  - exists (n0 `max` n1), (fmap (M := result string) (cons y) c). intros n Hn. cbn. rewrite Hb by lia. cbn. rewrite Hc by lia. done.
  - exists n0, (Err e). intros n Hn. cbn. by rewrite Hb.
Qed.
Lemma settles_fmap {A B} (g : A → B) (f : nat → option A) : settles f → settles (λ n, g <$> f n).
Proof. intros (n0 & a & Ha). exists n0, (g a). intros n Hn. by rewrite Ha. Qed.

(** No object anywhere. *)
Fixpoint no_object (v : Value) : bool := match v with VObject _ => false | VArray l => forallb no_object l | _ => true end.

(** The defaults that a type stores hold no object. *)
Fixpoint flat_type (j : J) : bool :=
  match j with
  | JRecord _ fields => forallb (λ f, match f with (_, t, d) => flat_type t && from_option no_object true d end) fields
  | JArray t | JMap t => flat_type t
  | JUnion l => forallb flat_type l
  | _ => true
  end.
Definition flat_table (names : Table) : Prop := ∀ n j, names !! n = Some j → flat_type j = true.

Section walks.
Context {tables : UnicodeTables}.
Context (names : Table) (Htable : table_ok names) (Hflat : flat_table names).

Lemma resolve_flat j : flat_type j = true → flat_type (resolve names j) = true.
Proof. intros Hj. rewrite resolve_ok by done. destruct j as [| | | | | | |n]; try done. destruct (names !! n) as [x|] eqn:E; [|done]. by apply (Hflat n). Qed.

Lemma value_ind_2 (P : Value → Prop) :
  (∀ v, (∀ l, v = VArray l → Forall P l) → (∀ o, v = VObject o → Forall (λ e, P e.2) o) → P v) → ∀ v, P v.
Proof.
  intros H v. induction v as [v Hv|l IH|o IH] using value_nested_ind; apply H; try (by intros ? ->); try done; by intros ? [= <-].
Qed.

(** A default without objects, at any type. *)
Lemma valid_flat_ends d : no_object d = true → ∀ j, settles (λ n, valid_default names n j (Some d)).
Proof.
  induction d as [d IHl _] using value_ind_2. intros Hd j.
  assert (∀ j r, resolve names j = r → (match r with JUnion _ => False | _ => True end) → settles (λ n, valid_default names n j (Some d))) as Hnu.
  { clear j. intros j r Er Hr. destruct r as [p|full fs|full a b|full n|t|t|l|n] eqn:E; try done;
      try (eapply settles_now; intros n'; cbn [valid_default]; rewrite Er; reflexivity).
    - eapply settles_now. intros n'. cbn [valid_default]. rewrite Er. destruct d; try reflexivity. done.
    - destruct (as_array d) as [l|] eqn:El; [|eapply settles_now; intros n'; cbn [valid_default]; by rewrite Er, El].
      apply (settles_step _ (λ n, all_of (λ e, valid_default names n t (Some e)) l)); [intros n'; cbn [valid_default]; by rewrite Er, El|].
      apply all_settles. destruct d; try done. injection El as ->. cbn in Hd. rewrite forallb_forall in Hd. pose proof (IHl _ eq_refl) as Hall.
      apply Forall_forall. intros x Hx. apply (proj1 (Forall_forall _ _) Hall x Hx). apply Hd. by apply list_elem_of_In.
    - eapply settles_now. intros n'. cbn [valid_default]. rewrite Er. destruct d; try reflexivity. done. }
  induction j as [p|a b c|a n|n|t IH|t IH|l IH|full fs IH] using J_nested_ind; try by (eapply Hnu; [rewrite resolve_ok by done; reflexivity|done]).
  - eapply Hnu; [reflexivity|]. rewrite resolve_ok by done. destruct (names !! n) as [x|] eqn:E; [|done]. cbn. destruct (Htable _ _ E) as (_ & H & _). by destruct x.
  - destruct l as [|t l]; [eapply settles_now; intros n; cbn [valid_default]; by rewrite resolve_ok|].
    apply (settles_step _ (λ n, valid_default names n t (Some d))); [intros n; cbn [valid_default]; by rewrite resolve_ok|]. by apply Forall_cons in IH as [? _].
Qed.

Lemma record_flat full fs f : flat_type (JRecord full fs) = true → f ∈ fs → flat_type f.1.2 = true ∧ from_option no_object true f.2 = true.
Proof.
  cbn [flat_type]. rewrite forallb_forall. intros H Hf%list_elem_of_In. specialize (H f Hf). destruct f as [[n t] d]. by apply andb_true_iff in H.
Qed.
Lemma resolved_not_union j : is_union j = false → is_union (resolve names j) = false.
Proof. by rewrite resolve_union. Qed.

(** Induction for walks: a value gets smaller, or a union is left for its first
    branch. *)
Lemma walk_ind (P : J → Value → Prop) :
  (∀ j d, is_union j = false → (∀ l t, d = VArray l → Forall (P t) l) → (∀ o t, d = VObject o → Forall (λ e, P t e.2) o) → P j d) →
  (∀ d, P (JUnion []) d) → (∀ t l d, P t d → P (JUnion (t :: l)) d) → ∀ d j, P j d.
Proof.
  intros H Hn Hu d. induction d as [d IHl IHo] using value_ind_2.
  induction j as [p|a b c|a n|n|t IH|t IH|[|t l] IH|full fs IH] using J_nested_ind; try (by apply H; [done|..];
    [intros l t' E; apply (Forall_impl _ _ _ (IHl l E)); auto|intros o t' E; apply (Forall_impl _ _ _ (IHo o E)); auto]).
  - apply Hn.
  - apply Hu. by apply Forall_cons in IH as [? _].
Qed.

(** Any default, at a type that stores defaults without objects. *)
Lemma valid_ends d j : flat_type j = true → settles (λ n, valid_default names n j (Some d)).
Proof.
  revert d j. apply (walk_ind (λ j d, flat_type j = true → settles (λ n, valid_default names n j (Some d)))).
  - intros j d Hu IHl IHo Hj. pose proof (resolve_flat j Hj) as Hr. pose proof (resolved_not_union j Hu) as Hru. destruct (resolve names j) as [p|full fs|full a b|full n|t|t|l|n] eqn:Er; try done;
      try (eapply settles_now; intros n'; cbn [valid_default]; rewrite Er; reflexivity).
    + destruct d as [| | | | |o]; try (eapply settles_now; intros n'; cbn [valid_default]; rewrite Er; reflexivity).
      apply (settles_step _ (λ n, all_of (λ f : string * J * option Value, let '(k, s, fd) := f in
        valid_default names n s (match Json.get k (VObject o) with Some e => Some e | None => fd end)) fs)); [intros n; cbn [valid_default]; by rewrite Er|].
      apply all_settles. apply Forall_forall. intros [[k t] fd] Hf. destruct (record_flat full fs _ Hr Hf) as [Ht Hfd]. cbn [fst snd Json.get] in *.
      destruct (map_get k o) as [e|] eqn:Ee.
      * apply map_get_in in Ee. by apply (proj1 (Forall_forall _ _) (IHo o t eq_refl) _ Ee).
      * destruct fd as [e|]; [by apply valid_flat_ends|by eapply settles_now].
    + destruct (as_array d) as [l|] eqn:El; [|eapply settles_now; intros n'; cbn [valid_default]; by rewrite Er, El].
      apply (settles_step _ (λ n, all_of (λ e, valid_default names n t (Some e)) l)); [intros n'; cbn [valid_default]; by rewrite Er, El|].
      apply all_settles. destruct d; try done. injection El as ->. apply (Forall_impl _ _ _ (IHl _ t eq_refl)). auto.
    + destruct (as_object d) as [o|] eqn:El; [|eapply settles_now; intros n'; cbn [valid_default]; by rewrite Er, El].
      apply (settles_step _ (λ n, all_of (λ e : string * Value, valid_default names n t (Some e.2)) o)); [intros n'; cbn [valid_default]; by rewrite Er, El|].
      apply all_settles. destruct d; try done. injection El as ->. apply (Forall_impl _ _ _ (IHo _ t eq_refl)). auto.
  - intros d _. eapply settles_now. intros n. cbn [valid_default]. by rewrite resolve_ok.
  - intros t l d IH Hj. cbn in Hj. apply andb_true_iff in Hj as [Ht _]. apply (settles_step _ (λ n, valid_default names n t (Some d))); [intros n; cbn [valid_default]; by rewrite resolve_ok|]. by apply IH.
Qed.

(** The library's wishes, and the conversion of a default. *)
Lemma model_ends d j : settles (λ n, model_accepts names n j d).
Proof.
  revert d j. apply walk_ind.
  - intros j d Hu IHl IHo. pose proof (resolved_not_union j Hu) as Hru. destruct (resolve names j) as [p|full fs|full a b|full n|t|t|l|n] eqn:Er; try done;
      try (eapply settles_now; intros n'; cbn [model_accepts]; rewrite Er; reflexivity).
    + destruct (as_object d) as [o|] eqn:Eo; [|eapply settles_now; intros n'; cbn [model_accepts]; by rewrite Er, Eo].
      apply (settles_step _ (λ n, all_of (λ f : string * J * option Value, let '(k, t, _) := f in
        match map_get k o with Some e => model_accepts names n t e | None => Some true end) fs)); [intros n; cbn [model_accepts]; by rewrite Er, Eo|].
      apply all_settles. apply Forall_forall. intros [[k t] fd] Hf. destruct d; try done. injection Eo as ->.
      destruct (map_get k o) as [e|] eqn:Ee; [|by exists 0, true]. apply map_get_in in Ee. by apply (proj1 (Forall_forall _ _) (IHo o t eq_refl) _ Ee).
    + destruct (as_array d) as [l|] eqn:El; [|eapply settles_now; intros n'; cbn [model_accepts]; by rewrite Er, El].
      apply (settles_step _ (λ n, all_of (λ e, model_accepts names n t e) l)); [intros n'; cbn [model_accepts]; by rewrite Er, El|].
      apply all_settles. destruct d; try done. injection El as ->. by apply IHl.
    + destruct (as_object d) as [o|] eqn:El; [|eapply settles_now; intros n'; cbn [model_accepts]; by rewrite Er, El].
      apply (settles_step _ (λ n, all_of (λ e : string * Value, model_accepts names n t e.2) o)); [intros n'; cbn [model_accepts]; by rewrite Er, El|].
      apply all_settles. destruct d; try done. injection El as ->. by apply IHo.
  - intros d. eapply settles_now. intros n. cbn [model_accepts]. by rewrite resolve_ok.
  - intros t l d IH. apply (settles_step _ (λ n, model_accepts names n t d)); [intros n; cbn [model_accepts]; by rewrite resolve_ok|done].
Qed.
Lemma settles_const {A} (f : nat → option A) : (∀ n, f (S n) = f 1) → is_Some (f 1) → settles f.
Proof. intros H [a Ha]. apply (settles_now f a). intros n. by rewrite H. Qed.

Lemma object_untyped d : settles (λ n, to_object names n d None).
Proof.
  induction d as [d IHl IHo] using value_ind_2. destruct d as [|b|n|s|l|o].
  - by eapply settles_now.
  - by eapply settles_now.
  - apply settles_const; [done|]. destruct n; cbn [to_object fmap option_fmap option_map]; [|done..]. by destruct (as_i64 _).
  - by eapply settles_now.
  - apply (settles_step _ (λ n, fmap (M := result string) (Some ∘ DList) <$> collect_ok (λ x, to_object names n x None) l)); [done|].
    by apply settles_fmap, collect_ok_settles, IHl.
  - apply (settles_step _ (λ n, fmap (M := result string) (Some ∘ DMap) <$> collect_ok (λ e : string * Value, fmap (M := result string) (pair e.1) <$> to_object names n e.2 None) o)); [done|].
    apply settles_fmap, collect_ok_settles. apply (Forall_impl _ _ _ (IHo o eq_refl)). intros e He. by apply settles_fmap.
Qed.
Lemma object_ends d j : settles (λ n, to_object names n d (Some j)).
Proof.
  revert d j. apply (walk_ind (λ j d, settles (λ n, to_object names n d (Some j)))).
  - intros j d Hu IHl IHo. pose proof (resolved_not_union j Hu) as Hru. destruct d as [|b|n|s|l|o].
    + apply settles_const; [by intros n'; cbn [to_object fmap option_fmap option_map]; destruct (resolve names j)|]. cbn [to_object fmap option_fmap option_map]. by destruct (resolve names j).
    + apply settles_const; [by intros n'; cbn [to_object fmap option_fmap option_map]; destruct (resolve names j)|]. cbn [to_object fmap option_fmap option_map]. by destruct (resolve names j).
    + apply settles_const; [by intros n'; cbn [to_object fmap option_fmap option_map]; destruct (resolve names j)|]. cbn [to_object fmap option_fmap option_map]. destruct (resolve names j); try done; destruct n; try done; by destruct (as_i64 _).
    + apply settles_const; [by intros n'; cbn [to_object fmap option_fmap option_map]; destruct (resolve names j)|]. cbn [to_object fmap option_fmap option_map]. by destruct (resolve names j).
    + destruct (resolve names j) as [p|full fs|full a b|full m|t|t|ts|m] eqn:Er; try done;
        try (eapply settles_now; intros n'; cbn [to_object fmap option_fmap option_map]; rewrite Er; reflexivity).
      apply (settles_step _ (λ n, fmap (M := result string) (Some ∘ DList) <$> collect_ok (λ x, to_object names n x (Some t)) l)); [intros n'; cbn [to_object fmap option_fmap option_map]; by rewrite Er|].
      by apply settles_fmap, collect_ok_settles, IHl.
    + assert (∀ r (entry : nat → string * Value → option (result string (string * option D))), resolve names j = r → (∀ n, to_object names (S n) (VObject o) (Some j) =
          fmap (M := result string) (Some ∘ DMap) <$> collect_ok (entry n) o) → (∀ e, e ∈ o → settles (λ n, entry n e)) → settles (λ n, to_object names n (VObject o) (Some j))) as Hgo.
      { intros r entry _ E He. apply (settles_step _ (λ n, fmap (M := result string) (Some ∘ DMap) <$> collect_ok (entry n) o)); [done|].
        apply settles_fmap, collect_ok_settles, Forall_forall, He. }
      assert (∀ e, e ∈ o → settles (λ n, fmap (M := result string) (pair e.1) <$> to_object names n e.2 None)) as Hno by (intros e _; apply settles_fmap, object_untyped).
      assert (∀ t e, e ∈ o → settles (λ n, fmap (M := result string) (pair e.1) <$> to_object names n e.2 (Some t))) as Hyes.
      { intros t e He. apply settles_fmap. by apply (proj1 (Forall_forall _ _) (IHo o t eq_refl) e He). }
      destruct (resolve names j) as [p|full fs|full a b|full m|t|t|ts|m] eqn:Er; try done.
      1, 3, 4, 5, 7: by eapply (Hgo _ (λ n e, fmap (M := result string) (pair e.1) <$> to_object names n e.2 None) eq_refl); [intros n; cbn [to_object fmap option_fmap option_map]; rewrite Er|].
      * eapply (Hgo _ (λ n e, match List.find (λ f : string * J * option Value, bool_decide (f.1.1 = e.1)) fs with
            | Some (_, t, _) => fmap (M := result string) (pair e.1) <$> to_object names n e.2 (Some t) | None => Some (Err NPE_FIELD) end) eq_refl);
          [intros n; cbn [to_object fmap option_fmap option_map]; by rewrite Er|].
        intros e He. destruct (List.find _ fs) as [[[k t] fd]|]; [by apply Hyes|by exists 0, (Err NPE_FIELD)].
      * by eapply (Hgo _ (λ n e, fmap (M := result string) (pair e.1) <$> to_object names n e.2 (Some t)) eq_refl); [intros n; cbn [to_object fmap option_fmap option_map]; rewrite Er|apply Hyes].
  - intros d. apply (settles_step _ (λ n, to_object names n d None)); [intros n; cbn [to_object fmap option_fmap option_map]; by rewrite resolve_ok|apply object_untyped].
  - intros t l d IH. apply (settles_step _ (λ n, to_object names n d (Some t))); [intros n; cbn [to_object fmap option_fmap option_map]; by rewrite resolve_ok|done].
Qed.

(** A type that has a valid default has a stand-in. *)
Lemma all_of_true {A} (f : A → option bool) l : all_of f l = Some true ↔ Forall (λ x, f x = Some true) l.
Proof.
  induction l as [|x l IH]; cbn; [done|]. rewrite Forall_cons, <-IH. destruct (f x) as [[]|]; cbn; [tauto|split; [done|by intros [? _]]..].
Qed.
Lemma stand_in_ends n : ∀ j d, valid_default names n j d = Some true → ∃ x, ∀ m, n ≤ m → stand_in names m j = Some x.
Proof.
  induction n as [|n IH]; intros j d; [done|]. cbn [valid_default]. destruct d as [d|]; [|done]. intros H.
  assert (∀ x (f : nat → option Value), (∀ m, stand_in names (S m) j = f m) → (∀ m, n ≤ m → f m = Some x) → ∃ x, ∀ m, S n ≤ m → stand_in names m j = Some x) as Hgo.
  { intros x f Hf Hx. exists x. intros [|m] Hm; [lia|]. rewrite Hf. apply Hx. lia. }
  destruct (resolve names j) as [p|full fs|full a b|full k|t|t|[|t l]|k] eqn:Er; try done;
    try (eapply (Hgo _ (λ _, Some _)); [intros m; cbn [stand_in]; rewrite Er; reflexivity|done]).
  - destruct (is_object d); [|done]. apply all_of_true in H.
    assert (∃ l, ∀ m, n ≤ m → collect (λ f : string * J * option Value, let '(k, t, _) := f in pair k <$> stand_in names m t) fs = Some l) as [l Hl].
    { clear Er Hgo. induction H as [|[[k t] fd] fs Hf _ IHf]; [by exists []|]. destruct (IH _ _ Hf) as [x Hx]. destruct IHf as [l Hl]. exists ((k, x) :: l). intros m Hm. cbn. rewrite Hx by done. cbn. by rewrite Hl. }
    eapply (Hgo _ (λ m, (λ l, VObject (collect_map l)) <$> collect (λ f : string * J * option Value, let '(k, t, _) := f in pair k <$> stand_in names m t) fs)).
    + intros m. cbn [stand_in]. by rewrite Er.
    + intros m Hm. by rewrite Hl.
  - destruct (IH _ _ H) as [x Hx]. eapply (Hgo x (λ m, stand_in names m t)); [intros m; cbn [stand_in]; by rewrite Er|done].
Qed.
End walks.

(** * Programs that end *)

(** With enough fuel, always the same outcome, and the postcondition if it is a
    success. *)
Definition total {A} (m : nat → M A) (s : PState) (Q : A → PState → Prop) : Prop :=
  ∃ n0 r, (∀ n, n0 ≤ n → m n s = Some r) ∧ match r with Ok (a, s') => Q a s' | Err _ => True end.

Section total.
Context {A B : Type}.
Implicit Types m : nat → M A.
Lemma total_mono m s (Q R : A → PState → Prop) : (∀ a s', Q a s' → R a s') → total m s Q → total m s R.
Proof. intros H (n & r & Hr & HQ). exists n, r. split; [done|]. destruct r as [[a s']|]; [by apply H|done]. Qed.
Lemma total_also m s (Q R : A → PState → Prop) : (∀ n a s', m n s = Some (Ok (a, s')) → R a s') → total m s Q → total m s (λ a s', Q a s' ∧ R a s').
Proof. intros H (n & r & Hr & HQ). exists n, r. split; [done|]. destruct r as [[a s']|]; [|done]. split; [done|]. apply (H n). by apply Hr. Qed.
Lemma run_total_bind m (f : nat → A → M B) s (Q : B → PState → Prop) :
  total m s (λ a s', total (λ n, f n a) s' Q) → total (λ n, m n ≫= f n) s Q.
Proof.
  intros (n & r & Hr & HQ). destruct r as [[a s1]|e].
  - destruct HQ as (n' & r' & Hr' & HQ). exists (n `max` n'), r'. split; [|done]. intros k Hk. unfold mbind, M_bind. rewrite Hr by lia. apply Hr'. lia.
  - exists n, (Err e). split; [|done]. intros k Hk. unfold mbind, M_bind. by rewrite Hr.
Qed.
Lemma run_total_ret (a : A) s (Q : A → PState → Prop) : Q a s → total (λ _, mret a) s Q.
Proof. intros HQ. by exists 0, (Ok (a, s)). Qed.
Lemma total_fails e s (Q : A → PState → Prop) : total (λ _, fails e) s Q.
Proof. by exists 0, (Err e). Qed.
Lemma total_lift r s (Q : A → PState → Prop) : (∀ a, r = Ok a → Q a s) → total (λ _, lift r) s Q.
Proof. intros H. destruct r as [a|e]; [exists 0, (Ok (a, s))|by exists 0, (Err e)]. split; [done|by apply H]. Qed.
Lemma total_ends (f : nat → option A) s (Q : A → PState → Prop) : settles f → (∀ a n, f n = Some a → Q a s) → total (λ n, ends_in (f n)) s Q.
Proof. intros (n & a & Ha) HQ. exists n, (Ok (a, s)). split; [intros k Hk; unfold ends_in; by rewrite Ha|]. apply (HQ a n). by apply Ha. Qed.
Lemma total_at seg m s (Q : A → PState → Prop) :
  total m (set_path (ps_path s ++ [seg]) s) (λ a s', Q a (set_path (removelast (ps_path s')) s')) → total (λ n, at_seg seg (m n)) s Q.
Proof.
  intros (n & r & Hr & HQ). exists n, (match r with Ok (a, s') => Ok (a, set_path (removelast (ps_path s')) s') | Err e => Err e end). split.
  - intros k Hk. unfold at_seg. rewrite Hr by done. by destruct r as [[a s']|].
  - by destruct r as [[a s']|].
Qed.
Lemma total_on_key k (f : nat → Value → M A) (d : nat → M A) o s (Q : A → PState → Prop) :
  (∀ x, map_get k o = Some x → total (λ n, f n x) s Q) → (map_get k o = None → total d s Q) → total (λ n, on_key k (f n) (d n) o) s Q.
Proof.
  intros H1 H2. induction o as [|[k' v] o IH]; [by apply H2|]. cbn in *. case_decide; [by apply H1|by apply IH].
Qed.
End total.
Lemma total_each {X A} (f : nat → nat → X → M A) (I : PState → Prop) (R : A → Prop) i l s :
  (∀ k x s, l !! k = Some x → I s → total (λ n, f n (i + k) x) s (λ y s', I s' ∧ R y)) → I s → total (λ n, each (f n) i l) s (λ ys s', I s' ∧ Forall R ys).
Proof.
  revert i s. induction l as [|x l IH]; intros i s Hf Hs; [by apply run_total_ret|]. cbn [each].
  apply (run_total_bind (λ n, f n i x)). pose proof (Hf 0 x s eq_refl Hs) as H0. rewrite Nat.add_0_r in H0. eapply total_mono; [|exact H0].
  intros y s1 [Hs1 Hy]. apply (run_total_bind (λ n, each (f n) (S i) l)). eapply total_mono; [|apply IH; [|done]].
  - intros ys s2 [Hs2 Hys]. apply run_total_ret. by split; [|constructor].
  - intros k z s2 Hk Hs2. rewrite Nat.add_succ_comm. by apply (Hf (S k)).
Qed.
Lemma total_state s (Q : PState → PState → Prop) : Q s s → total (λ _, state) s Q.
Proof. intros HQ. by exists 0, (Ok (s, s)). Qed.
Lemma total_update f s (Q : () → PState → Prop) : Q () (f s) → total (λ _, update f) s Q.
Proof. intros HQ. by exists 0, (Ok ((), f s)). Qed.
Lemma total_guard b e s (Q : () → PState → Prop) : (b = true → Q () s) → total (λ _, guard_that b e) s Q.
Proof. intros H. destruct b; [apply run_total_ret; by apply H|apply total_fails]. Qed.
Lemma total_when {X} (o : option X) (f : nat → X → M ()) s (Q : () → PState → Prop) :
  (o = None → Q () s) → (∀ x, o = Some x → total (λ n, f n x) s Q) → total (λ n, when_some o (f n)) s Q.
Proof. destruct o as [x|]; intros H1 H2; [by apply H2|]. by apply run_total_ret, H1. Qed.

(** * Schemas whose checks end *)

(** A type whose values need no record. *)
Definition simple_type (v : Value) : bool :=
  match v with
  | VString t | VArray (VString t :: _) => mem t PRIMITIVES
  | VArray [] => true
  | VObject o => from_option (λ t, mem t (PRIMITIVES ++ ["array"; "map"; "enum"; "fixed"])) false (str_at "type" o)
  | _ => false
  end.

(** Defaults hold no object; when defaults are not validated, those of other than
    simple types are not looked at. *)
Fixpoint plain_defaults (vd : bool) (v : Value) : bool :=
  match v with
  | VArray l => forallb (plain_defaults vd) l
  | VObject o =>
      let field f := match f with
        | VObject fo =>
            on_key "type" (plain_defaults vd) true fo &&
            match map_get "default" fo with
            | Some d => no_object d && (vd || from_option simple_type false (map_get "type" fo))
            | None => true
            end
        | _ => true
        end in
      on_key "fields" (λ f, match f with VArray fs => forallb field fs | _ => true end) true o &&
      on_key "items" (plain_defaults vd) true o && on_key "values" (plain_defaults vd) true o
  | _ => true
  end.

Section parser.
Context {text : JsonText} {tables : UnicodeTables}.
Context (vd : bool).

Definition calm (s : PState) : Prop := table_ok (ps_names s) ∧ flat_table (ps_names s).
Definition grounded (names : Table) (j : J) : Prop := settles (λ n, stand_in names n j).

Lemma simple_grounded v n s j s' : simple_type v = true → schema vd n v s = Some (Ok (j, s')) → ∀ names, table_ok names → grounded names j.
Proof.
  intros Hv Hs names Ht. assert (∀ x, (∀ m, stand_in names (S m) j = Some x) → grounded names j) as Hgo by (intros x Hx; by apply (settles_now _ x)).
  destruct v as [| | |t|l|o]; try done.
  - change (mem t PRIMITIVES = true) in Hv. apply name_runs in Hs as [_ Hg]. apply get_name_Some in Hg as [[_ ->]|[Hp _]]; [|by rewrite Hp in Hv]. eapply Hgo. intros m. cbn [stand_in]. by rewrite resolve_ok.
  - apply union_runs in Hs as (types & -> & Hrun & _). inversion Hrun as [|? x l' ? y s1 ys s2 Hx Hrest]; subst.
    + eapply Hgo. intros m. cbn [stand_in]. by rewrite resolve_ok.
    + destruct x as [| | |t| |]; try done. unfold at_seg in Hx. destruct (schema vd n (VString t) _) as [[[y' s3]|]|] eqn:E; try done. injection Hx as [= -> <-].
      apply name_runs in E as [_ Hg]. change (mem t PRIMITIVES = true) in Hv. apply get_name_Some in Hg as [[_ ->]|[Hp _]]; [|by rewrite Hp in Hv].
      apply (settles_step _ (λ m, stand_in names m (JPrim t))); [intros m; cbn [stand_in]; by rewrite resolve_ok|]. eapply settles_now. intros m. cbn [stand_in]. by rewrite resolve_ok.
  - apply object_runs in Hs. cbn [simple_type] in Hv. destruct Hs as [t Et Ep|t ns full fs fields s2 Hnm Er Ef Hrun Hrep|ns full symbols seen Hnm Esy Hseen Hdef|ns full k Hnm Esz Hn0|x j s1 Et Ex Hs|x j s1 Et Ex Hs|t k Et Ep En Hna Hnmp Hnn Hk];
      try (eapply Hgo; intros m; cbn [stand_in]; by rewrite resolve_ok).
    + exfalso. rewrite (nm_type _ _ _ _ _ Hnm) in Hv. cbn [from_option] in Hv. apply mem_true in Er. rewrite !elem_of_cons, elem_of_nil in Er. by destruct Er as [->|[->|[]]].
    + exfalso. rewrite Et in Hv. cbn [from_option] in Hv. apply mem_true in Hv. rewrite elem_of_app in Hv. apply mem_false in Ep. apply mem_false in En.
      destruct Hv as [?|Hv]; [done|]. rewrite !elem_of_cons, elem_of_nil in Hv. destruct Hv as [?|[?|[->|[->|[]]]]]; try done; apply En; by apply mem_true.
Qed.

Lemma total_const {A} (m : M A) s (Q : A → PState → Prop) : is_Some (m s) → gives m s Q → total (λ _, m) s Q.
Proof. intros [r Hr] Hg. exists 0, r. split; [done|]. destruct r as [[a s']|]; [|done]. by apply Hg. Qed.

Definition same_names (s s' : PState) : Prop := ps_names s' = ps_names s.
Lemma calm_same s s' : same_names s s' → calm s → calm s'.
Proof. unfold calm, same_names. by intros ->. Qed.

Lemma textual_total fi j d s : from_option no_object true d = true →
  total (λ _, textual_default fi j d) s (λ td s', same_names s s' ∧ from_option no_object true td.1 = true ∧ (is_Some td.1 → is_Some d)).
Proof.
  intros Hd. apply total_const.
  - unfold textual_default, mbind, M_bind, state. destruct d as [[]|]; try done. destruct (is_prim _ _); [|done]. unfold lift. by destruct (java_double _).
  - unfold textual_default. apply gives_bind, gives_state. assert (gives (mret (d, false)) s (λ (td : option Value * bool) s', same_names s s' ∧ from_option no_object true td.1 = true ∧ (is_Some td.1 → is_Some d))) as Hret by (by apply gives_ret).
    destruct d as [[| | |t| |]|]; try exact Hret. destruct (is_prim _ _); [|exact Hret]. apply gives_bind, gives_lift. intros f Hf. do 3 apply gives_bind, gives_update. apply gives_ret.
    split_and!; [done| |done]. cbn. unfold value_from_f64. by destruct (if is_finite f then f else _).
Qed.
Lemma check_total fi fname ft j d s : calm s → flat_type j = true → (vd = true ∨ grounded (ps_names s) j) →
  total (λ n, check_default vd n fi fname ft j d) s (λ _ s', same_names s s').
Proof.
  intros [Ht Hf] Hj Hg. unfold check_default. apply (run_total_bind (λ _, state)), total_state. apply (run_total_bind (λ n, ends_in (valid_default (ps_names s) n j (Some d)))), total_ends; [by apply valid_ends|].
  intros valid n Hv. apply (run_total_bind (λ n, if valid then ends_in (model_accepts (ps_names s) n j d) else mret false)).
  apply (total_mono _ _ (λ _ s', s' = s)). 2: { destruct valid; [apply total_ends; [by apply model_ends|done]|by apply run_total_ret]. }
  intros fine s' ->. destruct fine; [by apply run_total_ret|]. destruct (vd && negb valid) eqn:Ev; [apply total_fails|].
  apply (run_total_bind (λ n, ends_in (stand_in (ps_names s) n j))), total_ends; [|by intros; apply total_update].
  destruct Hg as [->|Hg]; [|done]. cbn in Ev. apply negb_false_iff in Ev as ->. destruct (stand_in_ends (ps_names s) n j (Some d) Hv) as [x Hx]. by exists n, x.
Qed.
Lemma normalized_total fi j d s : calm s → total (λ n, note_normalized n fi j d) s (λ _ s', same_names s s').
Proof.
  intros [Ht _]. unfold note_normalized. apply (run_total_bind (λ _, state)), total_state. apply (run_total_bind (λ n, ends_in (to_object (ps_names s) n d (Some j)))), total_ends; [by apply object_ends|].
  intros o n Ho. by apply total_update.
Qed.
Lemma field_rest_total fi fname ft j fo s : calm s → flat_type j = true → from_option no_object true (map_get "default" fo) = true →
  (is_Some (map_get "default" fo) → vd = true ∨ grounded (ps_names s) j) →
  total (λ n, field_rest vd n fi fname ft j fo) s (λ r s', same_names s s' ∧ r.1 = (fname, j) ∧ from_option no_object true r.2 = true).
Proof.
  intros Hc Hj Hd Hg. unfold field_rest. apply (run_total_bind (λ _, lift _)), total_lift. intros [] _. apply (run_total_bind (λ _, textual_default fi j (map_get "default" fo))).
  eapply total_mono; [|by apply textual_total]. intros td s1 (Hs1 & Htd & Hsome). apply (run_total_bind (λ _, lift _)), total_lift. intros n _.
  apply (run_total_bind (λ n, when_some td.1 (check_default vd n fi fname ft j))). apply (total_mono _ _ (λ _ s', same_names s s')).
  2: { apply total_when; [done|]. intros d Ed. eapply total_mono; [|apply check_total; [by eapply calm_same|done|rewrite Hs1; apply Hg, Hsome; by rewrite Ed]]. intros [] s2 H2. unfold same_names in *. congruence. }
  intros [] s2 Hs2. apply (run_total_bind (λ n, when_some (if td.2 : bool then None else td.1) (note_normalized n fi j))). apply (total_mono _ _ (λ _ s', same_names s s')).
  2: { apply total_when; [done|]. intros d Ed. eapply total_mono; [|apply normalized_total; by eapply calm_same]. intros [] s3 H3. unfold same_names in *. congruence. }
  intros [] s3 Hs3. apply (run_total_bind (λ _, lift _)), total_lift. intros [] _. by apply run_total_ret.
Qed.

Definition schema_ends (v : Value) : Prop := ∀ s, calm s → plain_defaults vd v = true →
  total (λ n, schema vd n v) s (λ j s', calm s' ∧ flat_type j = true).

Lemma calm_path p s : calm s → calm (set_path p s).
Proof. done. Qed.

Lemma field_total fi f s : calm s →
  (∀ fo, f = VObject fo → ∀ k y, map_get k fo = Some y → schema_ends y) →
  match f with
  | VObject fo => on_key "type" (plain_defaults vd) true fo && match map_get "default" fo with Some d => no_object d && (vd || from_option simple_type false (map_get "type" fo)) | None => true end
  | _ => true end = true →
  total (λ n, parse_field_with vd n (schema vd n) fi f) s (λ r s', calm s' ∧ flat_type r.1.2 = true ∧ from_option no_object true r.2 = true).
Proof.
  intros Hc IH Hp. unfold parse_field_with. apply (run_total_bind (λ _, lift _)), total_lift. intros fname _. destruct f as [| | | | |fo]; try apply total_fails.
  rewrite on_key_get, andb_true_iff in Hp. destruct Hp as [Hpt Hpd]. apply total_on_key; [|intros; apply total_fails]. intros ft Hft. rewrite Hft in *. cbn [from_option] in *.
  apply (run_total_bind (λ _, match ft with VString t => _ | _ => _ end)). apply (total_mono _ _ (λ _ s', s' = s)).
  2: { apply total_const.
    - destruct ft; try done. unfold lookup_name, mbind, M_bind, lift. destruct (get_name _ _); [|done]. unfold guard_that. by case_bool_decide.
    - destruct ft as [| | |t| |]; try by apply gives_ret. apply gives_bind. unfold lookup_name. intros k s0. unfold lift. destruct (get_name _ _); [|done]. intros [= <- <-]. by apply gives_guard. }
  intros [] s0 ->. apply (run_total_bind (λ n, at_seg "fields" (at_seg (pretty fi) (at_seg "type" (schema vd n ft))))).
  apply (total_mono _ _ (λ j s', calm s' ∧ flat_type j = true ∧ (is_Some (map_get "default" fo) → vd = true ∨ grounded (ps_names s') j))).
  2: { apply (total_at "fields" (λ n, at_seg (pretty fi) (at_seg "type" (schema vd n ft)))), (total_at (pretty fi) (λ n, at_seg "type" (schema vd n ft))), (total_at "type" (λ n, schema vd n ft)).
    eapply total_mono; [|eapply total_also; [|by apply (IH fo eq_refl _ _ Hft)]].
    - intros j s1 [[Hc1 Hj] Hr]. split_and!; [done..|]. exact (Hr Hc1).
    - intros n j s1 Hs Hc1. cbn in *. intros [d Hd]. rewrite Hd in Hpd. apply andb_true_iff in Hpd as [_ Hpd]. apply orb_true_iff in Hpd as [->|Hst]; [by left|right]. eapply simple_grounded; [done|exact Hs|apply Hc1]. }
  intros j s1 (Hc1 & Hj & Hg). eapply total_mono; [|apply field_rest_total; try done]; [|by destruct (map_get "default" fo); [apply andb_true_iff in Hpd as [? _]|]].
  intros [[n t] d] s2 (Hs2 & [= -> ->] & Hd). split_and!; [by eapply calm_same|done|done].
Qed.

Lemma flat_insert names full j : flat_table names → flat_type j = true → flat_table (<[full := j]> names).
Proof. intros Hf Hj n x [[_ <-]|[_ Hn]]%lookup_insert_Some; [done|by apply (Hf n)]. Qed.
Lemma flat_define s full j : calm s → table_ok (<[full := j]> (ps_names s)) → flat_type j = true → calm (define full j s).
Proof. intros [_ Hf] Ht Hj. split; [done|by apply flat_insert]. Qed.

Lemma add_total full j s (Q : () → PState → Prop) : (ps_names s !! full = None → Q () (define full j s)) → total (λ _, add full j) s Q.
Proof.
  intros H. apply total_const.
  - unfold add, mbind, M_bind, state, guard_that. by case_bool_decide.
  - by apply run_add.
Qed.

(** A definition whose check ends: the table it leaves is the one of a run. *)
Lemma calm_run n v s j s' : calm s → schema vd n v s = Some (Ok (j, s')) → flat_table (ps_names s') → calm s'.
Proof. intros [Ht _] Hs Hf. split; [|done]. by destruct (schema_good vd n v s j s' Ht Hs) as [F _]; apply F. Qed.

Lemma record_total full fs ns s : calm s → mem full PRIMITIVES = false → ps_names s !! full = None →
  Forall (λ f, match f with VObject fo => ∀ k y, map_get k fo = Some y → schema_ends y | _ => True end) fs →
  forallb (λ f, match f with
    | VObject fo => on_key "type" (plain_defaults vd) true fo && match map_get "default" fo with Some d => no_object d && (vd || from_option simple_type false (map_get "type" fo)) | None => true end
    | _ => true end) fs = true →
  total (λ n, each (parse_field_with vd n (schema vd n)) 0 fs) (define full (JRecord full []) (set_space ns s))
    (λ fields s', calm s' ∧ Forall (λ f, flat_type f.1.2 = true ∧ from_option no_object true f.2 = true) fields).
Proof.
  intros Hc Hp Hn IH Hfs. apply (total_each (λ n, parse_field_with vd n (schema vd n)) calm).
  - intros k f s1 Hk Hc1. cbn [Nat.add]. rewrite forallb_forall in Hfs. pose proof (list_elem_of_lookup_2 _ _ _ Hk) as Hin. apply field_total; [done| |apply Hfs; by apply list_elem_of_In].
    intros fo ->. by apply (proj1 (Forall_forall _ _) IH _ Hin).
  - apply flat_define; [done| |done]. apply (fr_table (λ _, False) (set_space ns s) (define full (JRecord full []) (set_space ns s))), define_frame; try done; [apply Hc|]. by split; [constructor|].
Qed.

Lemma schema_total v : schema_ends v.
Proof.
  induction v as [v Hv|l IH|o IH] using value_key_ind; intros s Hc Hp.
  - destruct v as [| | |t| |]; try done; try apply total_fails. apply total_const.
    + cbn [schema]. unfold lookup_name, mbind, M_bind, lift. destruct (get_name t s) as [[j|]|]; done.
    + eapply gives_mono; [|apply (name_runs vd 0)]. intros j s' [-> Hg]. split; [done|]. by apply get_name_Some in Hg as [[_ ->]|[_ (n & -> & _)]].
  - cbn [schema]. apply (run_total_bind (λ n, each (λ i t, at_seg (pretty i) (schema vd n t)) 0 l)).
    eapply total_mono; [|apply (total_each (λ n i t, at_seg (pretty i) (schema vd n t)) calm (λ j, flat_type j = true)); [|done]].
    + intros types s1 [Hc1 Ht]. apply (run_total_bind (λ _, state)), total_state, (run_total_bind (λ _, lift _)), total_lift. intros [] _. apply run_total_ret. split; [done|]. cbn. apply forallb_forall.
      intros x Hx%list_elem_of_In. by apply (proj1 (Forall_forall _ _) Ht).
    + intros k x s1 Hk Hc1. apply (total_at (pretty (0 + k)) (λ n, schema vd n x)). cbn [plain_defaults] in Hp. rewrite forallb_forall in Hp. pose proof (list_elem_of_lookup_2 _ _ _ Hk) as Hin.
      eapply total_mono; [|apply (proj1 (Forall_forall _ _) IH x Hin); [done|apply Hp; by apply list_elem_of_In]]. by intros j s2 [? ?].
  - assert (total (λ n, schema vd n (VObject o)) s (λ j s', flat_table (ps_names s') ∧ flat_type j = true)) as H.
    2: { eapply total_mono; [|eapply total_also; [|exact H]]; [|intros n j s' Hs; exact (calm_run n _ _ _ _ Hc Hs)]. cbn. intros j s' [[Hf Hj] Hr]. split; [by apply Hr|done]. }
    cbn [plain_defaults] in Hp. rewrite !andb_true_iff, !on_key_get in Hp. destruct Hp as [[Hfields Hitems] Hvalues].
    cbn [schema]. apply (run_total_bind (λ _, lift _)), total_lift. intros t Ht%required_get. apply (run_total_bind (λ _, state)), total_state.
    apply (run_total_bind (λ _, if mem t NAMED_TYPES then _ else _)).
    apply (total_mono _ _ (λ full s', ps_names s' = ps_names s)).
    2: { destruct (mem t NAMED_TYPES); [|by apply run_total_ret]. apply (run_total_bind (λ _, lift _)), total_lift. intros name _. apply (run_total_bind (λ _, lift _)), total_lift. intros [ns full] _.
      apply (run_total_bind (λ _, update _)), total_update, run_total_ret. done. }
    intros full s1 Hs1. assert (calm s1) as Hc1 by (by unfold calm; rewrite Hs1).
    assert (∀ (m : nat → M J), total m s1 (λ j s', flat_table (ps_names s') ∧ flat_type j = true) →
      total (λ n, m n ≫= λ result, update (set_space (ps_space s)) ≫= λ _, (if mem t NAMED_TYPES then lift (aliases (VObject o)) else mret ()) ≫= λ _, mret result) s1
        (λ j s', flat_table (ps_names s') ∧ flat_type j = true)) as Hend.
    { intros m Hm. apply run_total_bind. eapply total_mono; [|exact Hm]. intros j s2 [Hf Hj]. apply (run_total_bind (λ _, update _)), total_update.
      apply (run_total_bind (λ _, if mem t NAMED_TYPES then _ else _)). apply (total_mono _ _ (λ _ s', ps_names s' = ps_names s2)); [intros [] s3 E; apply run_total_ret; by rewrite E|].
      destruct (mem t NAMED_TYPES); [apply total_lift|apply run_total_ret]; done. }
    apply Hend. clear Hend. destruct (mem t PRIMITIVES); [apply run_total_ret; split; [apply Hc1|done]|]. destruct (mem t ["record"; "error"]).
    { apply (run_total_bind (λ _, lift _)), total_lift. intros [] Hpr%refuse_if_Ok. apply (run_total_bind (λ _, add _ _)), add_total. intros Hnew.
      apply total_on_key; [|intros; apply total_fails]. intros f Hf. rewrite Hf in Hfields. cbn [from_option] in Hfields. destruct f as [| | | |fs|]; try apply total_fails.
      apply (run_total_bind (λ n, each (parse_field_with vd n (schema vd n)) 0 fs)).
      pose proof (record_total full fs (ps_space s1) s1 Hc1 Hpr Hnew (proj2 (proj2 (IH _ _ Hf)) fs eq_refl) Hfields) as Hrec. rewrite set_space_id in Hrec. eapply total_mono; [|exact Hrec].
      intros fields s2 [Hc2 Hff]. apply (run_total_bind (λ _, state)), total_state, (run_total_bind (λ _, lift _)), total_lift. intros [] _.
      apply (run_total_bind (λ _, update _)), total_update, run_total_ret.
      assert (flat_type (JRecord full fields) = true) as Hj.
      { cbn. apply forallb_forall. intros [[k y] d] Hin%list_elem_of_In. apply andb_true_iff. by apply (proj1 (Forall_forall _ _) Hff _ Hin). }
      split; [|done]. by apply flat_insert; [apply Hc2|]. }
    destruct (decide (t = "enum")).
    { apply total_const.
      - unfold parse_enum. destruct (Json.get "symbols" (VObject o)) as [[]|]; try done. unfold mbind, M_bind, lift. destruct (named_schema_check full) as [[]|]; [|done]. destruct (symbols_check _ _); [|done].
        destruct (option_bind _ _ _ _) as [d|]; unfold guard_that; [destruct (mem d _); [|done]|]; cbn; unfold add, mbind, M_bind, state, guard_that; by case_bool_decide.
      - unfold parse_enum. destruct (Json.get "symbols" (VObject o)) as [[]|]; try apply gives_fails. apply gives_bind, gives_lift. intros [] _. apply gives_bind, gives_lift. intros seen _. apply gives_bind.
        apply (gives_mono _ _ (λ _ s', s' = s1)). 2: { destruct (_ ≫= as_str); [by apply gives_guard|by apply gives_ret]. }
        intros [] s2 ->. apply gives_bind, run_add. intros _. apply gives_ret. split; [|done]. by apply flat_insert; [apply Hc1|]. }
    destruct (decide (t = "array")).
    { apply total_on_key; [|intros; apply total_fails]. intros x Hx. rewrite Hx in Hitems. apply (run_total_bind (λ n, at_seg "items" (schema vd n x))), (total_at "items" (λ n, schema vd n x)).
      eapply total_mono; [|by apply (proj1 (IH _ _ Hx))]. intros j s2 [Hc2 Hj]. apply run_total_ret. split; [apply Hc2|done]. }
    destruct (decide (t = "map")).
    { apply total_on_key; [|intros; apply total_fails]. intros x Hx. rewrite Hx in Hvalues. apply (run_total_bind (λ n, at_seg "values" (schema vd n x))), (total_at "values" (λ n, schema vd n x)).
      eapply total_mono; [|by apply (proj1 (IH _ _ Hx))]. intros j s2 [Hc2 Hj]. apply run_total_ret. split; [apply Hc2|done]. }
    destruct (decide (t = "fixed")).
    { unfold parse_fixed. destruct (fixed_size (VObject o)) as [k|]; [|apply total_fails]. apply (run_total_bind (λ _, guard_that _ _)), total_guard. intros _. apply (run_total_bind (λ _, lift _)), total_lift. intros [] _.
      apply (run_total_bind (λ _, add _ _)), add_total. intros _. apply run_total_ret. split; [|done]. by apply flat_insert; [apply Hc1|]. }
    apply (run_total_bind (λ _, parse_other t)). unfold parse_other. apply (run_total_bind (λ _, state)), total_state, (run_total_bind (λ _, lift _)), total_lift. intros k _. apply run_total_ret.
    case_bool_decide; [|apply total_fails]. apply run_total_ret. split; [apply Hc1|done].
Qed.

(** (C20) Java's checks end for every schema whose defaults hold no object (and, when
    defaults are not validated, are only those of types that need no record). *)
Theorem avro_checks_end names v : table_ok names → flat_table names → plain_defaults vd v = true →
  ∃ n0 r, ∀ n, n0 ≤ n → parse_value vd n names v = Some r.
Proof.
  intros Ht Hf Hp. destruct (schema_total v (mkPState names None [] [] [] []) (conj Ht Hf) Hp) as (n0 & r & Hr & _).
  eexists n0, _. intros n Hn. unfold parse_value. rewrite Hr by done. reflexivity.
Qed.
End parser.

(** The linked list, with validation and without. *)
Lemma avro_checks_end_witness :
  (∃ n0 r, ∀ n, n0 ≤ n → parse_value true n ∅ list_schema = Some r) ∧ (∃ n0 r, ∀ n, n0 ≤ n → parse_value false n ∅ list_schema = Some r).
Proof.
  assert (flat_table ∅) as Hf by (intros n j Hn; by rewrite lookup_empty in Hn).
  split; [apply (avro_checks_end true ∅ list_schema)|apply (avro_checks_end false ∅ list_schema)]; try apply table_ok_empty; try exact Hf; by vm_compute.
Defined.

(** * Checks that do not end *)

Lemma bind_none {A B} (m : M A) (f : A → M B) s : m s = None → (m ≫= f) s = None.
Proof. unfold mbind, M_bind. by intros ->. Qed.

Section endless.
Context {text : JsonText} {tables : UnicodeTables}.
Context (vd : bool) (n : nat).

(** A field whose default is not text, and whose check goes on. *)
Lemma field_none fi fo s fname ftype j s1 d : str_at "name" fo = Some fname → map_get "type" fo = Some ftype →
  schema vd n ftype (set_path (((ps_path s ++ ["fields"]) ++ [pretty fi]) ++ ["type"]) s) = Some (Ok (j, s1)) →
  map_get "order" fo = None → map_get "default" fo = Some d → is_string d = false → valid_name fname →
  check_default vd n fi fname ftype j d (after_type s1) = None →
  parse_field_with vd n (schema vd n) fi (VObject fo) s = None.
Proof.
  intros Hn Ht Hs Ho Hd Hstr Hv Hc. unfold parse_field_with. eapply ok_bind; [by apply ok_lift, required_get|]. rewrite on_key_get, Ht. cbn [from_option].
  eapply ok_bind.
  { destruct ftype as [| | |t| |]; try done. apply name_runs in Hs as [_ Hg]. eapply ok_bind; [unfold lookup_name; by apply ok_lift|]. by apply ok_guard, bool_decide_eq_true. }
  eapply ok_bind; [by do 3 apply ok_at|]. unfold field_rest. eapply ok_bind; [apply ok_lift; unfold order_check; cbn; by rewrite Ho|].
  eapply ok_bind; [rewrite Hd; unfold textual_default; eapply ok_bind; [done|]; by destruct d|]. eapply ok_bind; [by apply ok_lift|]. cbn [fst when_some]. by apply bind_none.
Qed.
(** A record whose only field goes on. *)
Lemma record_none o s name ns full f : str_at "type" o = Some "record" → str_at "name" o = Some name → name_new name (space_of o s) = Ok (ns, full) →
  mem full PRIMITIVES = false → ps_names s !! full = None → map_get "fields" o = Some (VArray [f]) →
  parse_field_with vd n (schema vd n) 0 f (define full (JRecord full []) (set_space ns s)) = None → schema vd n (VObject o) s = None.
Proof.
  intros Ht Hname Hn Hp Hnew Hf Hnone. cbn [schema]. eapply ok_bind; [by apply ok_lift, required_get|]. eapply ok_bind; [done|].
  change (mem "record" NAMED_TYPES) with true. change (mem "record" PRIMITIVES) with false. change (mem "record" ["record"; "error"]) with true.
  eapply ok_bind; [eapply ok_bind; [by apply ok_lift, required_get|]; eapply ok_bind; [by apply ok_lift|]; eapply ok_bind; done|].
  apply bind_none. eapply ok_bind; [by apply (ok_lift _ ()), refuse_if_Ok|]. eapply ok_bind; [by apply add_complete|]. rewrite on_key_get, Hf. cbn [from_option each]. do 2 apply bind_none. exact Hnone.
Qed.
End endless.

Lemma resolve_self names full j : names !! full = Some j → is_definition j = true → resolve names (JNamed full) = j.
Proof.
  intros Hn Hd. unfold resolve. assert (size names ≠ 0) as Hs by (intros H%map_size_empty_inv; by rewrite H, lookup_empty in Hn). destruct (size names) as [|m]; [done|].
  cbn [resolve_fuel]. rewrite Hn. destruct j; try done; by destruct m.
Qed.

(** A record with a field of its own type and the default [{}], used with the
    default [{}]: while the record is parsed its fields are not there yet, so its
    own default passes; afterwards the check of [{}] leads to itself. *)
Definition inner_default : Value := record_of "A" [field_of "a" (VString "A") (Some (VObject []))].
Definition endless_default : Value := record_of "B" [field_of "x" inner_default (Some (VObject []))].
Definition endless_record : J := JRecord "A" [("a", JNamed "A", Some (VObject []))].

Lemma endless_valid names n j : names !! "A" = Some endless_record → j = JNamed "A" ∨ j = endless_record → valid_default names n j (Some (VObject [])) = None.
Proof.
  intros Hn. revert j. induction n as [|n IH]; [done|]. intros j Hj. cbn [valid_default].
  assert (resolve names j = endless_record) as -> by (destruct Hj as [->| ->]; [by apply resolve_self|by unfold resolve; destruct (size names)]).
  cbn. by rewrite IH by auto.
Qed.

(** The same record without a default: no value of it exists, and a stand-in for
    one is built without end. *)
Definition inner_record : Value := record_of "A" [field_of "a" (VString "A") None].
Definition endless_stand_in : Value := record_of "B" [field_of "x" inner_record (Some (VNumber (PosInt 5)))].
Definition uninhabited_record : J := JRecord "A" [("a", JNamed "A", None)].

Lemma endless_built names n j : names !! "A" = Some uninhabited_record → j = JNamed "A" ∨ j = uninhabited_record → stand_in names n j = None.
Proof.
  intros Hn. revert j. induction n as [|n IH]; [done|]. intros j Hj. cbn [stand_in].
  assert (resolve names j = uninhabited_record) as -> by (destruct Hj as [->| ->]; [by apply resolve_self|by unfold resolve; destruct (size names)]).
  cbn. by rewrite IH by auto.
Qed.

(** Registering these schemas never ends: the first whether defaults are validated
    or not, the second when they are not. The program recurses until its stack is
    exhausted. *)
Theorem recursive_defaults_never_end : (∀ vd n, parse_value vd n ∅ endless_default = None) ∧ (∀ n, parse_value false n ∅ endless_stand_in = None).
Proof.
  assert (∀ vd n v, schema vd n v (mkPState ∅ None [] [] [] []) = None → parse_value vd n ∅ v = None) as Hp by (intros vd n v H; unfold parse_value; by rewrite H).
  split.
  - intros vd [|n]; [by vm_compute|]. apply Hp. eapply (record_none _ _ _ _ "B" None "B"); [done..|].
    eapply (field_none _ _ _ _ _ "x" inner_default endless_record); [done|done|vm_compute; reflexivity|done..|].
    unfold check_default. eapply ok_bind; [done|]. apply bind_none. unfold ends_in. by rewrite endless_valid by auto.
  - intros [|n]; [by vm_compute|]. apply Hp. eapply (record_none _ _ _ _ "B" None "B"); [done..|].
    eapply (field_none _ _ _ _ _ "x" inner_record uninhabited_record); [done|done|vm_compute; reflexivity|done..|].
    unfold check_default. eapply ok_bind; [done|]. eapply ok_bind; [vm_compute; reflexivity|]. eapply ok_bind; [done|]. cbn [andb]. apply bind_none. unfold ends_in. by rewrite endless_built by auto.
Qed.

(** * Avro schemas on which reading and storing part ways (schema/avro.rs and
    schema/avro_java.rs), each evaluated with the compact printer. *)

Definition in_space (ns : string) (v : Value) : Value := match v with VObject o => VObject (("namespace", VString ns) :: o) | v => v end.
(** The text stored for a schema whose defaults are validated, if it is accepted;
    quotation marks as apostrophes. *)
Definition stored (v : Value) : option string :=
  match parse_value true 20 ∅ v with
  | Some (Ok (p, _)) => Some (apostrophes (java_to_string (with_numbers (pd_numbers p) v) []))
  | _ => None
  end.
(** The normalized form, likewise. *)
Definition normal (v : Value) : option string :=
  match parse_value true 20 ∅ v with
  | Some (Ok (p, _)) => Some (apostrophes (java_render true (foldl normalize_one (with_numbers (pd_numbers p) v, None) (pd_normalized p)).1 []))
  | _ => None
  end.
Definition refused (v : Value) : option string := match parse_value true 20 ∅ v with Some (Err e) => Some (apostrophes e) | _ => None end.

(** A type may be called [int] in a namespace; a reference to it from the same
    namespace is written without the namespace, and is the primitive when it is
    read again. *)
Definition int_record : Value := VArray [in_space "a" (record_of "int" []); in_space "a" (record_of "R" [field_of "x" (VString "a.int") None])].
Example reference_becomes_primitive :
  stored int_record = Some "[{'type':'record','name':'int','namespace':'a','fields':[]},{'type':'record','name':'R','namespace':'a','fields':[{'name':'x','type':'int'}]}]".
Proof. vm_compute. reflexivity. Qed.

(** A textual default of a number is stored bare, also when it is not a number of
    JSON; one that is too large for a float has a mantissa [inf] in the normalized
    form. *)
Definition textual (type t : string) : Value := record_of "R" [field_of "x" (VString type) (Some (VString t))].
Example bare_infinity : stored (textual "double" "-Infinity") = Some "{'type':'record','name':'R','fields':[{'name':'x','type':'double','default':-Infinity}]}".
Proof. vm_compute. reflexivity. Qed.
Example bare_nan : stored (textual "float" "NaN") = Some "{'type':'record','name':'R','fields':[{'name':'x','type':'float','default':NaN}]}".
Proof. vm_compute. reflexivity. Qed.
Example infinite_mantissa : normal (textual "float" "1e300") = Some "{'type':'record','name':'R','fields':[{'name':'x','type':'float','default':inf.0E0}]}".
Proof. vm_compute. reflexivity. Qed.

(** A string that starts with the marker of such defaults is stored bare too: any
    text at all, here one that closes the document. *)
Example marker_injection :
  stored (textual "string" (RAW_NUMBER +:+ "0}]} anything")) = Some "{'type':'record','name':'R','fields':[{'name':'x','type':'string','default':0}]} anything}]}".
Proof. vm_compute. reflexivity. Qed.

(** A name with an empty namespace: the checks take it for a type without one, so
    [A] refers to it, while the text has an empty namespace. The text of what is
    stored then differs from it. *)
Example empty_namespace : stored (record_of ".A" []) = Some "{'type':'record','name':'A','namespace':'','fields':[]}" ∧
  stored (VObject [("type", VString "record"); ("name", VString "A"); ("namespace", VString ""); ("fields", VArray [])]) = Some "{'type':'record','name':'A','fields':[]}".
Proof. split; vm_compute; reflexivity. Qed.

(** What the library gets: every string with a dot counts as a name, defaults
    included, so a default of a fixed type that is as long as it should be gets
    longer. *)
Example default_rewritten : model_safe_namespaces (field_of "x" (VString "F") (Some (VString "1.5"))) = field_of "x" (VString "F") (Some (VString "_1.5")).
Proof. vm_compute. reflexivity. Qed.

(** The second search for types that are defined twice looks into [items] of a
    record as well, which is a property like any other: a schema that Java accepts
    is refused. *)
Definition with_items : Value := VObject [("type", VString "record"); ("name", VString "R"); ("fields", VArray []); ("items", record_of "R" [])].
Example property_redefines : is_Some (stored with_items) ∧ check_redefinitions with_items [] = Err "Can't redefine: R".
Proof. split; [eexists|]; vm_compute; reflexivity. Qed.

(** * The checks, on one schema each *)

Example message_no_fields : refused (VObject [("type", VString "record"); ("name", VString "R")]) = Some "Record has no fields: {'type':'record','name':'R'}".
Proof. vm_compute. reflexivity. Qed.
Example message_duplicate_field : refused (record_of "X" [field_of "a" (VString "int") None; field_of "a" (VString "string") None]) =
  Some "Duplicate field a in record X: a type:STRING pos:1 and a type:INT pos:0.".
Proof. vm_compute. reflexivity. Qed.
Example message_undefined : refused (VArray [VString "null"; VString "x"]) = Some "Undefined name: 'x'".
Proof. vm_compute. reflexivity. Qed.
Example message_default : refused (record_of "R" [field_of "x" (VString "int") (Some (VString "a"))]) = Some "Invalid default for field x: 'a' not a 'int'".
Proof. vm_compute. reflexivity. Qed.
Example message_union : refused (VArray [VString "int"; VObject [("type", VString "int")]]) = Some "Duplicate in union:int".
Proof. vm_compute. reflexivity. Qed.
