(* ===== verification/Requests.v ===== *)
(** What a request says (api/jackson.rs, the [from_json] readers of model.rs, and
    the body and query parameters of api/mod.rs): bodies read the way Jackson
    reads them, with its coercions and its messages. *)
From S2P Require Import Prelude SortedVec RustStr Errors Json Model Context Snapshot Keys Plan Store SchemaLayer Views Registry Queries Mutations Rewrite Tags Float64 Dump ProtoLex FloatText AvroRender.

Open Scope string_scope.
Open Scope nat_scope.
Open Scope list_scope.

(** * Jackson *)

Module Jackson.
Definition bad (msg : string) : ApiError := ApiErr.new 400 msg.

Definition is_float (n : Number) : bool := match n with Float _ => true | _ => false end.
(** Jackson's name for a JSON token, as used in its messages. *)
Definition token (v : Value) : string :=
  match v with
  | VNull => "JsonToken.VALUE_NULL"
  | VBool b => if b then "JsonToken.VALUE_TRUE" else "JsonToken.VALUE_FALSE"
  | VNumber n => if is_float n then "JsonToken.VALUE_NUMBER_FLOAT" else "JsonToken.VALUE_NUMBER_INT"
  | VString _ => "JsonToken.VALUE_STRING"
  | VArray _ => "JsonToken.START_ARRAY"
  | VObject _ => "JsonToken.START_OBJECT"
  end.
Definition kind (v : Value) : string :=
  match v with
  | VNull => "Null" | VBool _ => "Boolean" | VNumber _ => "Number" | VString _ => "String"
  | VArray _ => "Array" | VObject _ => "Object"
  end.
Definition in_ticks (s : string) : string := "`" +:+ s +:+ "`".
(** [Cannot deserialize value of type ... from ... value (token ...)]. *)
Definition mismatch (ty : string) (v : Value) : ApiError :=
  bad ("Cannot deserialize value of type " +:+ in_ticks ty +:+ " from " +:+ kind v +:+ " value (token " +:+ in_ticks (token v) +:+ ")").
Definition no_creator (ty argument : string) : string :=
  "Cannot construct instance of " +:+ in_ticks ty +:+ " (although at least one Creator exists): no " +:+ argument +:+
  "-argument constructor/factory method to deserialize from ".

Section jackson.
Context {text : JsonText} {tables : UnicodeTables}.

(** [Number]'s own text. *)
Definition number_string (n : Number) : string := value_to_string (VNumber n).

(** The integral part, towards zero, and whether there is nothing else. *)
Definition truncated (f : fp) : Z :=
  match f with
  | Fin neg m e => let z := if bool_decide (0 ≤ e)%Z then (m * 2 ^ e)%Z else (m / 2 ^ (- e))%Z in if neg then (- z)%Z else z
  | _ => 0%Z
  end.
Definition integral (f : fp) : bool :=
  match f with
  | Fin _ m e => bool_decide (0 ≤ e)%Z || bool_decide (m `mod` 2 ^ (- e) = 0)%Z
  | _ => false
  end.
Definition magnitude (f : fp) : fp := match f with Fin _ m e => Fin false m e | f => f end.
(** Java's [Double.toString] for the values JSON can carry. *)
Definition java_number (n : Number) : string :=
  match n with
  | Float bits =>
      let f := of_bits bits in
      if integral f && fp_lt (magnitude f) (decimal binary64 false 1 7) then display binary64 f +:+ ".0" else display binary64 f
  | n => number_string n
  end.

(** A bean: the top level of a body, or a nested object property. *)
Definition object (v : Value) (ty : string) : ApiResult Map :=
  match v with
  | VObject o => Ok o
  | VString s => Err (bad (no_creator ty "String" +:+ "String value ('" +:+ s +:+ "')"))
  | VNumber n => Err (bad (no_creator ty "int/Int" +:+ "Number value (" +:+ number_string n +:+ ")"))
  | v => Err (mismatch ty v)
  end.
(** An optional nested bean ([null] is absent). *)
Definition opt_object (v : option Value) (ty : string) : ApiResult (option Map) :=
  match v with
  | None | Some VNull => Ok None
  | Some v => Some <$> object v ty
  end.

Definition string_of (v : option Value) : ApiResult (option string) :=
  match v with
  | None | Some VNull => Ok None
  | Some (VString s) => Ok (Some s)
  | Some (VBool b) => Ok (Some (if b then "true" else "false"))
  | Some (VNumber n) => Ok (Some (java_number n))
  | Some v => Err (mismatch "String" v)
  end.

Definition out_of_range (s : string) : ApiError :=
  bad ("Numeric value (" +:+ s +:+ ") out of range of int (-2147483648 - 2147483647)").
Definition number_int (n : Number) : Z :=
  match n with PosInt i | NegInt i => i | Float bits => truncated (of_bits bits) end.
Definition int (v : option Value) : ApiResult (option Z) :=
  match v with
  | None | Some VNull => Ok None
  | Some (VNumber n) =>
      if bool_decide (is_i32 (number_int n)) then Ok (Some (number_int n)) else Err (out_of_range (number_string n))
  | Some (VString s) =>
      if decide (trim s = "") then Ok None
      else match java_int (trim s) with
           | Some i => Ok (Some i)
           | None => Err (bad ("Cannot deserialize value of type " +:+ in_ticks "Integer" +:+ " from String " +:+ quoted s +:+
                               ": not a valid " +:+ in_ticks "java.lang.Integer" +:+ " value"))
           end
  | Some v => Err (mismatch "Integer" v)
  end.

Definition nonzero (n : Number) : bool :=
  match n with
  | PosInt i | NegInt i => bool_decide (i ≠ 0)%Z
  | Float bits => negb (is_zero_bits bits)
  end.
Definition boolean (v : option Value) : ApiResult (option bool) :=
  match v with
  | None | Some VNull => Ok None
  | Some (VBool b) => Ok (Some b)
  | Some (VNumber n) => Ok (Some (nonzero n))
  | Some (VString s) =>
      if decide (s = "") then Ok None
      else if mem s ["true"; "True"; "TRUE"] then Ok (Some true)
      else if mem s ["false"; "False"; "FALSE"] then Ok (Some false)
      else Err (bad ("Cannot deserialize value of type " +:+ in_ticks "Boolean" +:+ " from String " +:+ quoted s +:+
                     ": only " +:+ quoted "true" +:+ " or " +:+ quoted "false" +:+ " recognized"))
  | Some v => Err (mismatch "Boolean" v)
  end.

(** [Set<String>] (Jackson does not wrap a lone string into an array). *)
Definition string_set (v : Value) : ApiResult (list string) :=
  match v with
  | VArray a =>
      out ← mapM_result (λ x, string_of (Some x)) a;
      Ok (dedup (sort_vec (omap id out)))
  | VString s => Err (bad (no_creator "HashSet" "String" +:+ "String value ('" +:+ s +:+ "')"))
  | v => Err (mismatch "HashSet" v)
  end.
Definition strings (l : list string) : Value := VArray (VString <$> l).

(** * Metadata *)

Definition sorted (m : Map) : Value := VObject (sort_map m).
(** A member that is left out when it is empty. *)
Definition non_empty {A} (l : list A) (k : string) (v : Value) (out : Map) : Map :=
  match l with [] => out | _ => map_insert k v out end.

Fixpoint tag_entries (tags : Map) (t : Map) : ApiResult Map :=
  match tags with
  | [] => Ok t
  | (k, x) :: tags =>
      if is_null x then tag_entries tags t
      else s ← string_set x; tag_entries tags (map_insert k (strings s) t)
  end.
Fixpoint property_entries (props : Map) (p : Map) : ApiResult Map :=
  match props with
  | [] => Ok p
  | (k, x) :: props =>
      s ← string_of (Some x);
      match s with
      | Some s => property_entries props (map_insert k (VString s) p)
      | None => Err (ApiErr.new 500 "Internal Server Error")
      end
  end.
(** Confluent's [Metadata] bean in canonical form. *)
Definition metadata (v : option Value) : ApiResult (option Value) :=
  o ← opt_object v "Metadata";
  match o with
  | None => Ok None
  | Some o =>
      tags ← opt_object (map_get "tags" o) "Map";
      t ← tag_entries (default [] tags) [];
      props ← opt_object (map_get "properties" o) "Map";
      p ← property_entries (default [] props) [];
      s ← (match map_get "sensitive" o with
           | None | Some VNull => Ok []
           | Some s => string_set s
           end);
      Ok (Some (VObject (non_empty s "sensitive" (strings s) (non_empty p "properties" (sorted p) (non_empty t "tags" (sorted t) [])))))
  end.

(** * Rule sets *)

Definition RULE_KINDS : list string := ["CONDITION"; "TRANSFORM"].
Definition RULE_MODES : list string := ["UPGRADE"; "DOWNGRADE"; "UPDOWN"; "WRITE"; "READ"; "WRITEREAD"].
Definition MIGRATION_MODES : list string := ["UPGRADE"; "DOWNGRADE"; "UPDOWN"].
Definition DOMAIN_MODES : list string := ["WRITE"; "READ"; "WRITEREAD"].

Definition rule_char (ch : string) : bool := is_alphanumeric ch || is_char "_" ch || is_char "-" ch.
(** [Rule#validateName]. *)
Definition rule_name (r : Map) : result string string :=
  match str_at "name" r with
  | None => Err "Missing rule name"
  | Some name =>
      match chars name with
      | [] => Err "Empty rule name"
      | first :: rest =>
          if bool_decide (64 < length (chars name)) then Err "Rule name too long"
          else if negb (is_alphabetic first) && negb (is_char "_" first) then Err ("Illegal initial character in rule name: " +:+ name)
          else if negb (forallb rule_char rest) then Err ("Illegal character in rule name: " +:+ name)
          else Ok name
      end
  end.

Definition fail42210 (m : string) : ApiError := ApiErr.new 42210 m.
(** Only [WRITEREAD] and [UPDOWN] may list several actions. *)
Definition several_actions (r : Map) : bool :=
  existsb (λ action, match str_at action r with Some a => contains_char "," a | None => false end) ["onSuccess"; "onFailure"].
Definition check_rule (modes : list string) (only : string) (r : Map) (names : list string) : ApiResult (list string) :=
  name ← map_err fail42210 (rule_name r);
  _ ← refuse_if (mem name names) (fail42210 ("Found rule with duplicate name '" +:+ name +:+ "'"));
  _ ← refuse_if (bool_decide (str_at "type" r = None)) (fail42210 "Missing rule type");
  _ ← (match str_at "mode" r with
       | Some m =>
           _ ← refuse_if (negb (mem m ["WRITEREAD"; "UPDOWN"]) && several_actions r) (fail42210 "Multiple actions only valid with WRITEREAD and UPDOWN");
           refuse_if (negb (mem m modes)) (fail42210 only)
       | None => Ok ()
       end);
  Ok (names ++ [name]).
Fixpoint check_rules (modes : list string) (only : string) (rules : list Value) (names : list string) : ApiResult (list string) :=
  match rules with
  | [] => Ok names
  | VObject r :: rules => names ← check_rule modes only r names; check_rules modes only rules names
  | _ :: rules => check_rules modes only rules names
  end.
(** [RuleSet#validate] and [Rule#validate]. *)
Definition validate_rule_set (rule_set : Value) : ApiResult () :=
  match rule_set with
  | VObject o =>
      let rules key := default [] (map_get key o ≫= as_array) in
      names ← check_rules MIGRATION_MODES "Migration rules can only be UPGRADE, DOWNGRADE, UPDOWN" (rules "migrationRules") [];
      _ ← check_rules DOMAIN_MODES "Domain rules can only be WRITE, READ, WRITEREAD" (rules "domainRules") names;
      Ok ()
  | _ => Ok ()
  end.

Definition check_enum (r : Map) (field : string) (allowed : list string) (ty : string) : ApiResult () :=
  s ← string_of (map_get field r);
  match s with
  | Some s =>
      refuse_if (negb (mem s allowed))
        (bad ("Cannot deserialize value of type " +:+ in_ticks ty +:+ " from String " +:+ quoted s +:+
              ": not one of the values accepted for Enum class: [" +:+ join ", " allowed +:+ "]"))
  | None => Ok ()
  end.
Definition check_shape (r : Value) : ApiResult () :=
  o ← opt_object (Some r) "Rule";
  match o with
  | Some r => _ ← check_enum r "kind" RULE_KINDS "RuleKind"; check_enum r "mode" RULE_MODES "RuleMode"
  | None => Ok ()
  end.
Definition check_list (v : option Value) : ApiResult () :=
  match v with
  | None | Some VNull => Ok ()
  | Some (VArray rules) => _ ← mapM_result check_shape rules; Ok ()
  | Some x => Err (mismatch "ArrayList<Rule>" x)
  end.
(** Confluent's [RuleSet] bean: shape and enum values are checked, the rest is
    kept as sent. *)
Definition rule_set (v : option Value) : ApiResult (option Value) :=
  o ← opt_object v "RuleSet";
  match o with
  | None => Ok None
  | Some o =>
      _ ← mapM_result (λ key, check_list (map_get key o)) ["migrationRules"; "domainRules"; "encodingRules"];
      Ok (Some (default VNull v))
  end.
End jackson.
End Jackson.

(** * Bodies (model.rs) *)

Section bodies.
Context {text : JsonText} {tables : UnicodeTables}.

Definition read_ref (r : Value) : ApiResult RefIn.t :=
  o ← Jackson.opt_object (Some r) "SchemaReference";
  match o with
  | None => Ok (RefIn.mk true None None None)
  | Some r =>
      name ← Jackson.string_of (map_get "name" r);
      subject ← Jackson.string_of (map_get "subject" r);
      version ← Jackson.int (map_get "version" r);
      Ok (RefIn.mk false name subject version)
  end.
Definition read_refs (v : option Value) : ApiResult (option (list RefIn.t)) :=
  match v with
  | None | Some VNull => Ok None
  | Some (VArray a) => Some <$> mapM_result read_ref a
  | Some x =>
      let what := if is_string x then "String value (token `JsonToken.VALUE_STRING`)" else "Object value (token `JsonToken.START_OBJECT`)" in
      Err (Jackson.bad ("Cannot deserialize value of type `SchemaReference>` from " +:+ what))
  end.
Definition register_from_json (v : Value) : ApiResult RegisterSchemaRequest :=
  o ← Jackson.object v "RegisterSchemaRequest";
  references ← read_refs (map_get "references" o);
  schema ← Jackson.string_of (map_get "schema" o);
  schema_type ← Jackson.string_of (map_get "schemaType" o);
  metadata ← Jackson.metadata (map_get "metadata" o);
  rule_set ← Jackson.rule_set (map_get "ruleSet" o);
  version ← Jackson.int (map_get "version" o);
  id ← Jackson.int (map_get "id" o);
  Ok (mkRegisterRequest schema schema_type references metadata rule_set version id).

Definition config_from_json (v : Value) : ApiResult ConfigUpdateRequest.t :=
  o ← Jackson.object v "ConfigUpdateRequest";
  alias ← Jackson.string_of (map_get "alias" o);
  normalize ← Jackson.boolean (map_get "normalize" o);
  validate_fields ← Jackson.boolean (map_get "validateFields" o);
  validate_rules ← Jackson.boolean (map_get "validateRules" o);
  compatibility ← Jackson.string_of (map_get "compatibility" o);
  compatibility_group ← Jackson.string_of (map_get "compatibilityGroup" o);
  default_metadata ← Jackson.metadata (map_get "defaultMetadata" o);
  override_metadata ← Jackson.metadata (map_get "overrideMetadata" o);
  default_rule_set ← Jackson.rule_set (map_get "defaultRuleSet" o);
  override_rule_set ← Jackson.rule_set (map_get "overrideRuleSet" o);
  Ok (ConfigUpdateRequest.mk alias normalize validate_fields validate_rules compatibility compatibility_group
        default_metadata override_metadata default_rule_set override_rule_set).

(** [ModeUpdateRequest]: the mode as sent. *)
Definition mode_from_json (v : Value) : ApiResult (option string) :=
  o ← Jackson.object v "ModeUpdateRequest";
  Jackson.string_of (map_get "mode" o).

Definition array_strings (v : option Value) : list string := omap as_str (default [] (v ≫= as_array)).
Definition read_edit (x : Value) : ApiResult TagEdit :=
  e ← Jackson.object x "SchemaTags";
  entity ← Jackson.opt_object (map_get "schemaEntity" e) "SchemaEntity";
  let path := default "" (entity ≫= str_at "entityPath") in
  let ty := default "sr_field" (entity ≫= str_at "entityType") in
  (* [SchemaEntity] drops a leading dot from the path. *)
  Ok (mkTagEdit (default path (strip_prefix "." path)) (eq_ignore_ascii_case ty "sr_record") (array_strings (map_get "tags" e))).
Definition read_edits (o : Map) (key : string) : ApiResult (list TagEdit) :=
  mapM_result read_edit (default [] (map_get key o ≫= as_array)).
Definition tags_from_json (v : Value) : ApiResult TagSchemaRequest :=
  o ← Jackson.object v "TagSchemaRequest";
  tags_to_add ← read_edits o "tagsToAdd";
  tags_to_remove ← read_edits o "tagsToRemove";
  new_version ← Jackson.int (map_get "newVersion" o);
  metadata ← Jackson.metadata (map_get "metadata" o);
  rule_set ← Jackson.rule_set (map_get "ruleSet" o);
  rules_to_merge ← Jackson.rule_set (map_get "rulesToMerge" o);
  Ok (mkTagRequest tags_to_add tags_to_remove new_version metadata rule_set rules_to_merge (array_strings (map_get "rulesToRemove" o))).
End bodies.

(** * Requests (api/mod.rs) *)

(** A request, once its container was found; the handlers see it after its path was
    rewritten and its caller authenticated. Reading the body may fail (it is too
    large, or the connection ends). *)
Record HttpRequest := mkRequest {
  hq_method : string;
  hq_path : string;
  hq_query : option string;
  hq_content_type : option string;
  hq_body : ApiResult string;
}.

Section request.
Context {text : JsonText}.

Definition CONSUMED : list string :=
  ["application/vnd.schemaregistry.v1+json"; "application/vnd.schemaregistry+json"; "application/json"; "application/octet-stream"].
Definition is_ascii_space (c : ascii) : bool := bool_decide (cval c ∈ [32; 9; 10; 12; 13]).
Definition media_type (ct : string) : string := to_ascii_lowercase (trim (default "" (head (split_char ";" ct)))).

(** [JsonBody]: [None] for an empty or [null] body. *)
Definition json_body (rq : HttpRequest) : ApiResult (option Value) :=
  _ ← (match hq_content_type rq with
       | Some ct => refuse_if (negb (bool_decide (media_type ct = "")) && negb (mem (media_type ct) CONSUMED)) (ApiErr.new 415 "HTTP 415 Unsupported Media Type")
       | None => Ok ()
       end);
  bytes ← hq_body rq;
  if str_forall is_ascii_space bytes then Ok None
  else match value_from_str bytes with
       | Ok VNull => Ok None
       | Ok v => Ok (Some v)
       | Err e => Err (Jackson.bad ("Unexpected JSON input: " +:+ e))
       end.
Definition require (body : option Value) (param : string) : ApiResult Value :=
  ok_or body (ApiErr.new 422 (param +:+ " must not be null (was null)")).

(** ** Query parameters; of repeated ones the first counts. *)

Definition params (rq : HttpRequest) : Pairs := query_pairs (default "" (hq_query rq)).
Definition flag (p : Pairs) (name : string) : bool :=
  match Rewrite.find_param p name with Some v => eq_ignore_ascii_case v "true" | None => false end.
Definition all_params (p : Pairs) (name : string) : list string := snd <$> filter (λ kv, kv.1 = name) p.
Definition not_found_404 : ApiError := ApiErr.new 404 "HTTP 404 Not Found".
(** A Java [int] parameter. *)
Definition int_param (p : Pairs) (name : string) (d : Z) : ApiResult Z :=
  match Rewrite.find_param p name with
  | None => Ok d
  | Some v => ok_or (java_int v) not_found_404
  end.
(** [offset] and a capped [limit]. *)
Definition page_capped {A} (p : Pairs) (items : list A) (d max : Z) : ApiResult (list A) :=
  offset ← int_param p "offset" 0;
  limit ← int_param p "limit" (-1);
  Ok (take (Z.to_nat (normalize_limit limit d max)) (drop (Z.to_nat (Z.max offset 0)) items)).
(** An [Integer] path parameter. *)
Definition parse_id (id : string) : ApiResult Z := ok_or (java_int id) not_found_404.
End request.
