(* ===== verification/Listings.v ===== *)
(** The wider listings (registry/listings.rs, [list_schemas]) and the projections of
    the admin console (registry/admin.rs). *)
From S2P Require Import Prelude SortedVec RustStr Errors Json Model Context Snapshot Keys Plan Store SchemaLayer JavaOrder Views Registry Queries DerivedJson.

Open Scope string_scope.
Open Scope nat_scope.
Open Scope list_scope.

Section listings.
Context `{!SchemaFormats}.
Implicit Types r : Reader.

(** Every subject-level configuration. *)
Definition subject_settings r : list (string * string * ConfigRecord.t) :=
  omap (λ e : Scope * ConfigRecord.t, match e.1 with SubjectScope ctx s => Some (ctx, s, e.2) | _ => None end) (map_to_list (config (rd_snap r))).

(** * Schemas *)

(** The subject an alias stands for; one without a context is in that of the
    subject that has the alias. *)
Definition alias_target (ctx alias : string) : ApiResult QualifiedSubject :=
  target ← Qualified.parse_subject alias;
  Ok (if starts_with ":" alias then target else mkQ ctx (subject target)).
Definition in_prefix (ctxs : list string) (p : QualifiedSubject) (ctx name : string) : bool :=
  bool_decide (ctx ∈ ctxs) && starts_with (subject p) name.
Fixpoint collect_aliases (ctxs : list string) (p : QualifiedSubject) (l : list (string * string * ConfigRecord.t))
    (acc : gmap string (list string)) : ApiResult (gmap string (list string)) :=
  match l with
  | [] => Ok acc
  | (ctx, subj, cfg) :: l =>
      match ConfigRecord.alias cfg with
      | Some alias =>
          if decide (alias = "") then collect_aliases ctxs p l acc
          else if in_prefix ctxs p ctx subj then
            target ← alias_target ctx alias;
            let k := Qualified.qualified target in
            collect_aliases ctxs p l (<[k := default [] (acc !! k) ++ [qualify ctx subj]]> acc)
          else collect_aliases ctxs p l acc
      | None => collect_aliases ctxs p l acc
      end
  end.
Fixpoint add_targets (targets : list string) (subjects : list QualifiedSubject) : ApiResult (list QualifiedSubject) :=
  match targets with
  | [] => Ok subjects
  | t :: targets =>
      q ← Qualified.parse_subject t;
      add_targets targets (if bool_decide (q ∈ subjects) then subjects else subjects ++ [q])
  end.
Definition with_aliases (aliases : gmap string (list string)) (q : QualifiedSubject) (v : SchemaView) : SchemaView :=
  mkView (sv_subject v) (sv_version v) (sv_id v) (sv_schema_type v) (sv_references v) (sv_metadata v) (sv_rule_set v) (sv_schema v)
    (fmap (M := option) sort_vec (aliases !! Qualified.qualified q)).
(** The view of one version, when it is listed. *)
Definition listed_view r (aliases : option (gmap string (list string))) (rule_type : option string) (q : QualifiedSubject) (x : Z * VersionRecord) :
    Outcome (option SchemaView) :=
  e ← entity r q x.1 x.2;
  let view := entity_view e in
  let wanted := match rule_type with Some t => bool_decide (t = "") || has_rules_with_type (sv_rule_set view) t | None => true end in
  Ok (if wanted then Some (match aliases with Some a => with_aliases a q view | None => view end) else None).
Definition chosen_versions r (deleted latest_only : bool) (q : QualifiedSubject) : versions_t :=
  let versions := filter (λ x : Z * VersionRecord, deleted || negb (vr_deleted x.2) = true) (versions_of r q) in
  if latest_only then option_list (last versions) else versions.
Definition view_le (a b : SchemaView) : bool :=
  bool_decide (string_lt (sv_subject a) (sv_subject b)) ||
  (bool_decide (sv_subject a = sv_subject b) && bool_decide (sv_version a ≤ sv_version b)%Z).
Fixpoint insert_view (v : SchemaView) (l : list SchemaView) : list SchemaView :=
  match l with [] => [v] | w :: l => if view_le v w then v :: w :: l else w :: insert_view v l end.

Definition list_schemas r (prefix : option string) (deleted latest_only include_aliases : bool) (rule_type : option string) :
    Outcome (list SchemaView) :=
  p ← api (parse_prefix prefix);
  let ctxs := contexts_matching r (context p) in
  aliases ← (if include_aliases then api (Some <$> collect_aliases ctxs p (subject_settings r) ∅) else Ok None);
  let subjects := ctx ← ctxs; mkQ ctx <$> filter (λ name, starts_with (subject p) name = true) (Snap.list_subject_names (rd_snap r) ctx) in
  subjects ← api (add_targets (sort_vec (from_option (λ a : gmap string (list string), elements (dom a)) [] aliases)) subjects);
  views ← mapM_result (λ e : QualifiedSubject * (Z * VersionRecord), listed_view r aliases rule_type e.1 e.2)
            (q ← subjects; pair q <$> chosen_versions r deleted latest_only q);
  Ok (foldr insert_view [] (omap id views)).

(** * The admin console *)

Definition jint (n : nat) : Value := VNumber (PosInt (Z.of_nat n)).
Definition jnum (z : Z) : Value := VNumber (if bool_decide (0 ≤ z)%Z then PosInt z else NegInt z).
Definition jopt {A} (f : A → Value) (o : option A) : Value := from_option f VNull o.

Definition live_versions (vs : versions_t) : versions_t := filter (λ x : Z * VersionRecord, vr_deleted x.2 = false) vs.
(** Where the compatibility level of a subject comes from. *)
Definition level_scope r (q : QualifiedSubject) : string :=
  if bool_decide (is_Some (Snap.get_config (rd_snap r) (scope_for q))) then "subject"
  else if bool_decide (context q ≠ DEFAULT_CONTEXT) && bool_decide (is_Some (Snap.get_config (rd_snap r) (ContextScope (context q)))) then "context"
  else if bool_decide (is_Some (Snap.get_config (rd_snap r) Snapshot.Global)) then "global" else "default".
Definition overview_row r (q : QualifiedSubject) (versions : versions_t) : Outcome Value :=
  let live := live_versions versions in
  let own := Snap.get_config (rd_snap r) (scope_for q) in
  let cfg := config_in_scope r q in
  let latest := match last live with Some x => Some x | None => last versions end in
  schema_type ← (match latest return Outcome (option string) with
                 | Some (_, vr) => rec ← get_schema r (context q) (vr_id vr); Ok (fmap (M := option) (SchemaTypeM.as_str ∘ sr_type) rec)
                 | None => Ok None
                 end);
  Ok (VObject [
    ("subject", VString (Qualified.qualified q)); ("context", VString (context q));
    ("versions", jint (length versions)); ("deletedVersions", jint (length versions - length live));
    ("deleted", VBool (bool_decide (live = []))); ("latestVersion", jopt (λ x : Z * VersionRecord, jnum x.1) latest);
    ("latestId", jopt (λ x : Z * VersionRecord, jnum (vr_id x.2)) latest); ("schemaType", jopt VString schema_type);
    ("compatibility", VString (Level.as_str (default (default_compatibility (rd_reg r)) (ConfigRecord.compatibility_level cfg))));
    ("compatibilityFrom", VString (level_scope r q)); ("normalize", VBool (bool_decide (ConfigRecord.normalize cfg = Some true)));
    ("mode", VString (ModeM.as_str (mode_in_scope r q)));
    ("modeFrom", VString (if bool_decide (is_Some (Snap.get_mode (rd_snap r) (scope_for q))) then "subject" else "inherited"));
    ("alias", jopt VString (own ≫= ConfigRecord.alias))]).

Definition visible_subjects r (visible : string → string → bool) (ctx : string) : list (QualifiedSubject * versions_t) :=
  (λ name, (mkQ ctx name, versions_of r (mkQ ctx name))) <$> filter (λ name, visible ctx name = true) (Snap.list_subject_names (rd_snap r) ctx).

Definition context_row r (visible : string → string → bool) (ctx : string) : option Value :=
  let seen := visible_subjects r visible ctx in
  let alive := filter (λ e : QualifiedSubject * versions_t, live_versions e.2 ≠ []) seen in
  let own := if decide (ctx = DEFAULT_CONTEXT) then Snapshot.Global else ContextScope ctx in
  let cfg := Snap.get_config (rd_snap r) own in
  let mode := Snap.get_mode (rd_snap r) own in
  let set := rd_reg r in
  if bool_decide (seen = []) && negb (visible ctx "") then None
  else Some (VObject [
    ("name", VString ctx); ("subjects", jint (length alive)); ("deletedSubjects", jint (length seen - length alive));
    ("versions", jint (sum_list (length ∘ snd <$> seen)));
    ("compatibility", VString (Level.as_str (default (default_compatibility set) (cfg ≫= ConfigRecord.compatibility_level))));
    ("compatibilityFrom", VString (if bool_decide (is_Some cfg) then "own" else "default"));
    ("normalize", VBool (default (normalize_default set) (cfg ≫= ConfigRecord.normalize)));
    ("mode", VString (ModeM.as_str (if bool_decide (global_mode_in r = ReadonlyOverride) then ReadonlyOverride else default Readwrite mode)));
    ("modeFrom", VString (if bool_decide (is_Some mode) then "own" else "default"))]).
Definition admin_contexts r (visible : string → string → bool) : list Value := omap (context_row r visible) (Snap.list_contexts (rd_snap r)).

Definition exporter_state_name (s : ExporterState) : string :=
  match s with Starting => "STARTING" | Running => "RUNNING" | Paused => "PAUSED" | ErrorState => "ERROR" | Failed => "FAILED" end.
Definition exporter_row (e : ExporterRecord) : Value :=
  let i := er_info e in
  VObject [("name", VString (ei_name i)); ("state", VString (exporter_state_name (er_state e))); ("offset", jnum (er_offset e)); ("ts", jnum (er_ts e));
    ("trace", VString (er_trace e)); ("subjects", VArray (VString <$> ei_subjects i)); ("contextType", VString (ei_context_type i));
    ("context", jopt VString (ei_context i)); ("subjectRenameFormat", jopt VString (ei_rename i)); ("config", VObject (ei_config i))].

(** What the process is, for the console. *)
Record AboutProcess := mkAbout { ab_container : string; ab_cluster_id : string; ab_version : string }.
(** The subjects of the prefix that the caller is shown, with their versions. *)
Definition overview_subjects r (prefix : option string) (deleted : bool) (visible : string → string → bool) :
    ApiResult (list (QualifiedSubject * versions_t)) :=
  p ← parse_prefix prefix;
  Ok (filter (λ e : QualifiedSubject * versions_t, starts_with (subject p) (subject e.1) && (deleted || negb (bool_decide (live_versions e.2 = []))) = true)
        (ctx ← contexts_matching r (context p); visible_subjects r visible ctx)).
Definition row_le (a b : Value) : bool := bool_decide (string_le (default "" (get "subject" a ≫= as_str)) (default "" (get "subject" b ≫= as_str))).
Fixpoint insert_row (v : Value) (l : list Value) : list Value :=
  match l with [] => [v] | w :: l => if row_le v w then v :: w :: l else w :: insert_row v l end.
Definition admin_overview r (exporters : Outcome (list ExporterRecord)) (about : AboutProcess) (prefix : option string) (deleted : bool) (limit : nat)
    (visible : string → string → bool) : Outcome Value :=
  all ← api (overview_subjects r prefix deleted visible);
  rows ← mapM_result (λ e : QualifiedSubject * versions_t, overview_row r e.1 e.2) (take limit all);
  es ← exporters;
  Ok (VObject [
    ("container", VString (ab_container about)); ("clusterId", VString (ab_cluster_id about)); ("version", VString (ab_version about));
    ("contexts", VArray (admin_contexts r visible));
    ("global", VObject [
      ("compatibility", VString (Level.as_str (default (default_compatibility (rd_reg r)) (config_of r None ≫= ConfigRecord.compatibility_level))));
      ("normalize", VBool (normalize_default (rd_reg r))); ("mode", VString (ModeM.as_str (global_mode_in r)))]);
    ("counts", VObject [("subjects", jint (length all)); ("versions", jint (sum_list (length ∘ snd <$> all))); ("shown", jint (length rows))]);
    ("exporters", VArray (exporter_row <$> es));
    ("subjects", VArray (foldr insert_row [] rows))]).

Definition detail_row r (q : QualifiedSubject) (x : Z * VersionRecord) : Outcome Value :=
  rec ← need_schema r (context q) (vr_id x.2);
  Ok (VObject [
    ("version", jnum x.1); ("id", jnum (vr_id x.2)); ("deleted", VBool (vr_deleted x.2)); ("registeredAt", jnum (vr_ts x.2));
    ("schemaType", VString (SchemaTypeM.as_str (sr_type rec))); ("schema", VString (sr_schema rec));
    ("references", VArray (reference_to_value <$> sr_references rec)); ("metadata", default VNull (sr_metadata rec)); ("ruleSet", default VNull (sr_rule_set rec));
    ("referencedBy", VArray (jnum <$> live_referrers r (context q) (subject q) x.1))]).
Definition admin_subject r (subj : string) : Outcome Value :=
  q ← api (Qualified.parse subj);
  let versions := versions_of r q in
  if bool_decide (versions = []) then fail (ApiErr.subject_not_found (Qualified.qualified q))
  else
    out ← mapM_result (detail_row r q) versions;
    Ok (VObject [
      ("subject", VString (Qualified.qualified q)); ("config", jopt config_to_value (Snap.get_config (rd_snap r) (scope_for q)));
      ("effectiveCompatibility", VString (Level.as_str (default (default_compatibility (rd_reg r)) (ConfigRecord.compatibility_level (config_in_scope r q)))));
      ("mode", VString (ModeM.as_str (mode_in_scope r q))); ("versions", VArray out)]).
End listings.
