(* ===== verification/Api.v ===== *)
(** The HTTP interface (api/mod.rs, api/handlers.rs, api/exporters.rs, api/admin.rs):
    the routes, and a handler for each of them, as functions of the request and
    the registry. The table of routes is the code's; [follows] and [find_route]
    read it as axum documents it: a route is matched segment by segment, a
    parameter stands for one segment that is not empty, and a wildcard for the
    rest. How axum decodes a parameter and parses a URI is an interface (class
    [Axum]); an answer is the data that is rendered. *)
From S2P Require Import Prelude SortedVec RustStr Errors Json Model Context Snapshot Keys Plan Store Durable Transaction MemDb SchemaLayer JavaOrder Views Registry Queries Mutations ExporterVerbs Engine Rewrite Authz ProxyProtocol Config Auth Tags Dump DerivedJson Restore RestoreSpec ProtoLex AvroRender Requests Listings.

Open Scope string_scope.
Open Scope nat_scope.
Open Scope list_scope.

(** * Routes *)

Inductive Endpoint :=
| EpRoot | EpRootPost | EpMetadataId | EpMetadataVersion
| EpListSchemas | EpSchemaTypes | EpSchemaById (id : string) | EpSchemaByIdRaw (id : string) | EpIdSubjects (id : string) | EpIdVersions (id : string)
| EpListSubjects | EpLookup (subj : string) | EpDeleteSubject (subj : string) | EpListVersions (subj : string) | EpRegister (subj : string)
| EpGetVersion (subj version : string) | EpDeleteVersion (subj version : string) | EpGetVersionRaw (subj version : string)
| EpReferencedBy (subj version : string) | EpModifyTags (subj version : string) | EpLatestWithMetadata (subj : string)
| EpCompatAll (subj : string) | EpCompatVersion (subj version : string)
| EpGetConfig (subj : option string) | EpPutConfig (subj : option string) | EpDeleteConfig (subj : option string)
| EpGetMode (subj : option string) | EpPutMode (subj : option string) | EpDeleteMode (subj : string)
| EpListContexts | EpDeleteContext (ctx : string)
| EpListExporters | EpCreateExporter | EpExporterInfo (name : string) | EpUpdateExporter (name : string) | EpDeleteExporter (name : string)
| EpExporterStatus (name : string) | EpExporterConfig (name : string) | EpPutExporterConfig (name : string) | EpTransition (name action : string)
| EpAdminPage | EpOverview | EpSubjectDetail (subj : string) | EpBackup | EpRestore | EpMetrics | EpMoved.

(** A segment of a route, or a parameter; the last line is [{*rest}]. *)
Inductive Part := Seg (s : string) | Param | Rest.
(** The handlers of a route by method, given the parameters. *)
Abbreviation Methods := (list (string * (list string → option Endpoint))).

Definition ep0 (e : Endpoint) (ps : list string) : option Endpoint := match ps with [] => Some e | _ => None end.
Definition ep1 (f : string → Endpoint) (ps : list string) : option Endpoint := match ps with [a] => Some (f a) | _ => None end.
Definition ep2 (f : string → string → Endpoint) (ps : list string) : option Endpoint := match ps with [a; b] => Some (f a b) | _ => None end.

Definition routes : list (list Part * Methods) := [
  ([Seg ""], [("GET", ep0 EpRoot); ("POST", ep0 EpRootPost)]);
  ([Seg "v1"; Seg "metadata"; Seg "id"], [("GET", ep0 EpMetadataId)]);
  ([Seg "v1"; Seg "metadata"; Seg "version"], [("GET", ep0 EpMetadataVersion)]);
  ([Seg "schemas"], [("GET", ep0 EpListSchemas)]);
  ([Seg "schemas"; Seg "types"], [("GET", ep0 EpSchemaTypes)]);
  ([Seg "schemas"; Seg "ids"; Param], [("GET", ep1 EpSchemaById)]);
  ([Seg "schemas"; Seg "ids"; Param; Seg "schema"], [("GET", ep1 EpSchemaByIdRaw)]);
  ([Seg "schemas"; Seg "ids"; Param; Seg "subjects"], [("GET", ep1 EpIdSubjects)]);
  ([Seg "schemas"; Seg "ids"; Param; Seg "versions"], [("GET", ep1 EpIdVersions)]);
  ([Seg "subjects"], [("GET", ep0 EpListSubjects)]);
  ([Seg "subjects"; Param], [("POST", ep1 EpLookup); ("DELETE", ep1 EpDeleteSubject)]);
  ([Seg "subjects"; Param; Seg "versions"], [("GET", ep1 EpListVersions); ("POST", ep1 EpRegister)]);
  ([Seg "subjects"; Param; Seg "versions"; Param], [("GET", ep2 EpGetVersion); ("DELETE", ep2 EpDeleteVersion)]);
  ([Seg "subjects"; Param; Seg "versions"; Param; Seg "schema"], [("GET", ep2 EpGetVersionRaw)]);
  ([Seg "subjects"; Param; Seg "versions"; Param; Seg "referencedby"], [("GET", ep2 EpReferencedBy)]);
  ([Seg "subjects"; Param; Seg "versions"; Param; Seg "tags"], [("POST", ep2 EpModifyTags)]);
  ([Seg "subjects"; Param; Seg "metadata"], [("GET", ep1 EpLatestWithMetadata)]);
  ([Seg "compatibility"; Seg "subjects"; Param; Seg "versions"], [("POST", ep1 EpCompatAll)]);
  ([Seg "compatibility"; Seg "subjects"; Param; Seg "versions"; Param], [("POST", ep2 EpCompatVersion)]);
  ([Seg "config"], [("GET", ep0 (EpGetConfig None)); ("PUT", ep0 (EpPutConfig None)); ("DELETE", ep0 (EpDeleteConfig None))]);
  ([Seg "config"; Param], [("GET", ep1 (EpGetConfig ∘ Some)); ("PUT", ep1 (EpPutConfig ∘ Some)); ("DELETE", ep1 (EpDeleteConfig ∘ Some))]);
  ([Seg "mode"], [("GET", ep0 (EpGetMode None)); ("PUT", ep0 (EpPutMode None))]);
  ([Seg "mode"; Param], [("GET", ep1 (EpGetMode ∘ Some)); ("PUT", ep1 (EpPutMode ∘ Some)); ("DELETE", ep1 EpDeleteMode)]);
  ([Seg "contexts"], [("GET", ep0 EpListContexts)]);
  ([Seg "contexts"; Param], [("DELETE", ep1 EpDeleteContext)]);
  ([Seg "exporters"], [("GET", ep0 EpListExporters); ("POST", ep0 EpCreateExporter)]);
  ([Seg "exporters"; Param], [("GET", ep1 EpExporterInfo); ("PUT", ep1 EpUpdateExporter); ("DELETE", ep1 EpDeleteExporter)]);
  ([Seg "exporters"; Param; Seg "status"], [("GET", ep1 EpExporterStatus)]);
  ([Seg "exporters"; Param; Seg "config"], [("GET", ep1 EpExporterConfig); ("PUT", ep1 EpPutExporterConfig)]);
  ([Seg "exporters"; Param; Seg "pause"], [("PUT", ep1 (λ n, EpTransition n "pause"))]);
  ([Seg "exporters"; Param; Seg "resume"], [("PUT", ep1 (λ n, EpTransition n "resume"))]);
  ([Seg "exporters"; Param; Seg "reset"], [("PUT", ep1 (λ n, EpTransition n "reset"))]);
  ([Seg "admin"], [("GET", ep0 EpAdminPage)]);
  ([Seg "admin"; Seg ""], [("GET", ep0 EpAdminPage)]);
  ([Seg "admin"; Seg "api"; Seg "overview"], [("GET", ep0 EpOverview)]);
  ([Seg "admin"; Seg "api"; Seg "subjects"; Param], [("GET", ep1 EpSubjectDetail)]);
  ([Seg "admin"; Seg "api"; Seg "backup"], [("GET", ep0 EpBackup)]);
  ([Seg "admin"; Seg "api"; Seg "restore"], [("POST", ep0 EpRestore)]);
  ([Seg "metrics"], [("GET", ep0 EpMetrics)]);
  ([Seg "_admin"], [("GET", ep0 EpMoved)]);
  ([Seg "_admin"; Seg ""], [("GET", ep0 EpMoved)]);
  ([Seg "_admin"; Rest], [("GET", ep0 EpMoved)])
].

(** Does a path follow a route; the segments in the places of parameters, as they
    are in the path. A parameter is not empty. *)
Fixpoint follows (parts : list Part) (segs : list string) : option (list string) :=
  match parts, segs with
  | [], [] => Some []
  | [Rest], _ :: _ => if bool_decide (segs = [""]) then None else Some []
  | Seg s :: parts, x :: segs => if decide (s = x) then follows parts segs else None
  | Param :: parts, x :: segs => if decide (x = "") then None else cons x <$> follows parts segs
  | _, _ => None
  end.
(** The segments of a path behind its first slash. *)
Definition path_segments (path : string) : option (list string) := split_char "/" <$> strip_prefix "/" path.
Fixpoint find_route (table : list (list Part * Methods)) (segs : list string) : option (list string * Methods) :=
  match table with
  | [] => None
  | (parts, ms) :: table => match follows parts segs with Some raw => Some (raw, ms) | None => find_route table segs end
  end.
(** [HEAD] is answered by the handler of [GET]. *)
Definition handler_of (ms : Methods) (method : string) : option (list string → option Endpoint) :=
  let method := if decide (method = "HEAD") then "GET" else method in
  snd <$> List.find (λ m : string * (list string → option Endpoint), bool_decide (m.1 = method)) ms.

Class Axum := {
  (** A parameter as the handler gets it; [None] when it is not text. *)
  path_decode : string → option string;
  path_rejection : ApiError;
  (** [Uri::from_str]: the path and the query. *)
  uri_parse : string → option (string * option string);
}.

Section route.
Context {axum : Axum}.
Definition method_not_allowed : ApiError := ApiErr.new 405 "HTTP 405 Method Not Allowed".
Definition route (method path : string) : ApiResult Endpoint :=
  match path_segments path ≫= find_route routes with
  | None => Err not_found_404
  | Some (raw, ms) =>
      f ← ok_or (handler_of ms method) method_not_allowed;
      ps ← ok_or (mapM path_decode raw) path_rejection;
      ok_or (f ps) not_found_404
  end.
End route.

(** * Answers *)

Inductive Answer :=
| AnEmptyObject | AnText (t : string) | AnStrings (l : list string) | AnNumbers (l : list Z) | AnNumber (n : Z)
| AnViews (l : list SchemaView) | AnView (v : SchemaView) | AnById (v : SchemaByIdView) | AnSubjectVersions (l : list SubjectVersion)
| AnRegistered (r : RegisterResponse) | AnCompatible (ok : bool) (messages : option (list string))
| AnConfig (c : ConfigRecord.t) | AnEcho (c : ConfigUpdateRequest.t) | AnMode (m : string) | AnNoContent
| AnExporter (i : ExporterInfo) | AnName (name : string) | AnObject (m : Map)
| AnJson (v : Value) | AnDump (d : Dump) | AnRestored (dry_run : bool) (r : Restored) | AnPage | AnMoved (location : string).

(** What the process tells of itself, and the limits of listings. *)
Record Limits := mkLimits { schema_default : Z; schema_max : Z; subject_default : Z; subject_max : Z }.

Section api.
Context {formats : SchemaFormats} `{!RocksDB DB}.
Context `{!Serde SchemaRecord, !Serde VersionRecord, !Serde ConfigRecord.t, !Serde Mode,
          !Serde LogEvent, !Serde ExporterRecord}.
Context {text : JsonText} {tables : UnicodeTables} {axum : Axum}.
Context {exporter_to : ToValue ExporterRecord} {exporter_from : FromValue ExporterRecord} {update_from : FromValue ExporterUpdateRequest}.
Context (proto_apply_tags : string → list TagEdit → list TagEdit → result string string).
Variable ambient : RegistryState DB → Ambient.
Variable limits : Limits.
Variable about : AboutProcess.
(** The header of a dump made now, and the text of the counters. *)
Variable dump_header : Value.
Variable metrics : string.

Abbreviation State := (RegistryState DB).
(** A handler: what it does to the registry, and its answer. *)
Definition H (A : Type) : Type := State → State * Outcome A.
#[export] Instance H_ret : MRet H := λ A a reg, (reg, Ok a).
#[export] Instance H_bind : MBind H := λ A B f m reg,
  match m reg with (reg, Ok a) => f a reg | (reg, Err e) => (reg, Err e) end.
Definition pure_ok {A} (r : ApiResult A) : H A := λ reg, (reg, api r).
(** What reading leaves of the caches. *)
Definition seen (reg : State) : State := cache_acts reg (am_seen0 (ambient reg)).
(** [inline]: a read of the registry as it is. *)
Definition inline {A} (f : Reader → Outcome A) : H A := λ reg, (seen reg, f (reader reg)).
(** [blocking] with a query: the snapshot and the exporters of the store. *)
Definition query {A} (f : State → Outcome A) : H A := λ reg, (seen reg, f reg).
(** [blocking]: a verb of the registry. *)
Definition blocking {A} (f : State → State * Outcome A) : H A := f.

(** ** Schemas *)

Section with_params.
Variable p : Pairs.

Definition get_param (name : string) : option string := Rewrite.find_param p name.

Definition list_schemas_handler (caller : Authz.Principal) : H Answer :=
  _ ← pure_ok (int_param p "offset" 0); _ ← pure_ok (int_param p "limit" (-1));
  l ← inline (λ r, Listings.list_schemas r (get_param "subjectPrefix") (flag p "deleted") (flag p "latestOnly") (flag p "aliases") (get_param "ruleType"));
  l ← pure_ok (page_capped p (Authz.caller_filter caller l sv_subject) (schema_default limits) (schema_max limits));
  mret (AnViews l).
Definition schema_by_id (id : string) : H Answer :=
  id ← pure_ok (parse_id id);
  v ← inline (λ r, get_schema_by_id r id (get_param "subject") (flag p "fetchMaxId") (get_param "format"));
  mret (AnById v).
Definition schema_by_id_raw (id : string) : H Answer :=
  id ← pure_ok (parse_id id);
  v ← inline (λ r, get_schema_by_id r id (get_param "subject") false (get_param "format"));
  mret (AnText (bi_schema v)).
Definition schema_id_subjects (caller : Authz.Principal) (id : string) : H Answer :=
  id ← pure_ok (parse_id id);
  l ← inline (λ r, id_subjects r id (get_param "subject") (flag p "deleted"));
  mret (AnStrings (Authz.caller_filter caller l (λ s, s))).
Definition schema_id_versions (caller : Authz.Principal) (id : string) : H Answer :=
  id ← pure_ok (parse_id id);
  l ← inline (λ r, id_versions r id (get_param "subject") (flag p "deleted"));
  mret (AnSubjectVersions (Authz.caller_filter caller l sn_subject)).

(** ** Subjects *)

Definition list_subjects_handler (caller : Authz.Principal) : H Answer :=
  _ ← pure_ok (int_param p "offset" 0); _ ← pure_ok (int_param p "limit" (-1));
  l ← inline (λ r, list_subjects r (get_param "subjectPrefix") (flag p "deleted") (flag p "deletedOnly"));
  l ← pure_ok (page_capped p (Authz.caller_filter caller l (λ s, s)) (subject_default limits) (subject_max limits));
  mret (AnStrings l).
Definition list_versions_handler (subj : string) : H Answer :=
  l ← inline (λ r, list_versions r subj (flag p "deleted") (flag p "deletedOnly")); mret (AnNumbers l).

(** [RegisterSchema::new] and the run, for a request that was read. *)
Definition registry_register (subj : string) (req : RegisterSchemaRequest) (normalize : bool) : H RegisterResponse :=
  blocking (A := RegisterResponse) (run ambient (register_new subj req normalize)).
Definition check_rules_of (l : list (option Value)) : ApiResult () :=
  _ ← mapM_result (λ o : option Value, match o with Some rs => Jackson.validate_rule_set rs | None => Ok () end) l; Ok ().
Definition register_schema (subj : string) (body : option Value) : H Answer :=
  v ← pure_ok (require body "register.arg5");
  req ← pure_ok (register_from_json v);
  _ ← pure_ok (check_rules_of [rq_rule_set req]);
  resp ← registry_register subj req (flag p "normalize");
  mret (AnRegistered resp).
Definition lookup_schema (subj : string) (body : option Value) : H Answer :=
  v ← pure_ok (require body "lookUpSchemaUnderSubject.arg5");
  req ← pure_ok (register_from_json v);
  view ← inline (λ r, lookup r subj req (flag p "normalize") (flag p "deleted") (get_param "format"));
  mret (AnView view).
Definition delete_subject_handler (subj : string) : H Answer :=
  l ← blocking (A := list Z) (run ambient (delete_subject_new subj (flag p "permanent"))); mret (AnNumbers l).
Definition get_version_handler (subj version : string) : H Answer :=
  spec ← pure_ok (Spec.parse version);
  v ← inline (λ r, get_version_formatted r subj spec (flag p "deleted") (get_param "format"));
  mret (AnView v).
Definition latest_with_metadata_handler (subj : string) : H Answer :=
  v ← inline (λ r, latest_with_metadata r subj (zip (all_params p "key") (all_params p "value")) (flag p "deleted") (get_param "format"));
  mret (AnView v).
Definition get_version_raw (subj version : string) : H Answer :=
  spec ← pure_ok (Spec.parse version);
  v ← inline (λ r, get_version_formatted r subj spec (flag p "deleted") (get_param "format"));
  mret (AnText (sv_schema v)).
Definition referenced_by_handler (subj version : string) : H Answer :=
  spec ← pure_ok (Spec.parse version); l ← inline (λ r, referenced_by r subj spec); mret (AnNumbers l).
Definition delete_version_handler (subj version : string) : H Answer :=
  spec ← pure_ok (Spec.parse version);
  v ← blocking (A := Z) (run ambient (delete_version_new subj spec (flag p "permanent"))); mret (AnNumber v).

(** [Registry::modify_tags]: the tagged schema is registered as a new version. *)
Definition registry_modify_tags (subj : string) (spec : VersionSpec) (req : TagSchemaRequest) : H RegisterResponse :=
  rq ← inline (λ r, tag_request value_from_str (λ v, Ok (value_to_string v)) proto_apply_tags r subj spec req);
  registry_register subj rq false.
Definition modify_tags (subj version : string) (body : option Value) : H Answer :=
  v ← pure_ok (require body "modifyTags.arg4");
  req ← pure_ok (tags_from_json v);
  _ ← pure_ok (refuse_if (negb (is_valid_subject subj)) (ApiErr.invalid_subject subj));
  spec ← pure_ok (Spec.parse version);
  _ ← pure_ok (refuse_if ((bool_decide (is_Some (tq_rules_to_merge req)) || negb (bool_decide (tq_rules_to_remove req = []))) && bool_decide (is_Some (tq_rule_set req)))
        (ApiErr.new 42210 "ruleSet should be omitted if specifying rulesToMerge or rulesToRemove"));
  _ ← pure_ok (check_rules_of [tq_rules_to_merge req; tq_rule_set req]);
  resp ← registry_modify_tags subj spec req;
  mret (AnRegistered resp).

(** ** Compatibility *)

Definition compat_response (messages : list string) (verbose : bool) : Answer :=
  AnCompatible (bool_decide (messages = [])) (if verbose then Some messages else None).
Definition compat_all (subj : string) (body : option Value) : H Answer :=
  v ← pure_ok (require body "testCompatibilityForSubject.arg3");
  req ← pure_ok (register_from_json v);
  msgs ← inline (λ r, test_compatibility r subj None req (flag p "normalize") (flag p "verbose"));
  mret (compat_response msgs (flag p "verbose")).
Definition compat_version (subj version : string) (body : option Value) : H Answer :=
  v ← pure_ok (require body "testCompatibilityBySubjectName.arg4");
  req ← pure_ok (register_from_json v);
  spec ← pure_ok (Spec.parse version);
  msgs ← inline (λ r, test_compatibility r subj (Some spec) req (flag p "normalize") (flag p "verbose"));
  mret (compat_response msgs (flag p "verbose")).

(** ** Settings *)

Definition check_subject (subj : option string) : ApiResult () :=
  match subj with Some s => refuse_if (negb (is_valid_subject s)) (ApiErr.invalid_subject s) | None => Ok () end.
Definition config_get (subj : option string) : H Answer :=
  c ← inline (λ r, get_config r subj (flag p "defaultToGlobal")); mret (AnConfig c).
Definition config_put (subj : option string) (body : Value) : H Answer :=
  req ← pure_ok (config_from_json body);
  _ ← pure_ok (match ConfigUpdateRequest.compatibility req with Some level => _ ← Level.parse level; Ok () | None => Ok () end);
  _ ← pure_ok (check_rules_of [ConfigUpdateRequest.default_rule_set req; ConfigUpdateRequest.override_rule_set req]);
  _ ← pure_ok (check_subject subj);
  update ← pure_ok (ConfigUpdateRequest.into_record req);
  _ ← blocking (A := ()) (run ambient (update_new subj update));
  mret (AnEcho req).
Definition config_delete (subj : option string) : H Answer :=
  c ← blocking (A := ConfigRecord.t) (run ambient (delete_config_new subj)); mret (AnConfig c).
(** The body is required under the name of the resource's method. *)
Definition put_config_handler (subj : option string) (body : option Value) : H Answer :=
  v ← pure_ok (require body (match subj with None => "updateTopLevelConfig.arg1" | Some _ => "updateSubjectLevelConfig.arg2" end));
  config_put subj v.

Definition mode_get (subj : option string) : H Answer :=
  m ← inline (λ r, get_mode r subj (flag p "defaultToGlobal")); mret (AnMode (ModeM.as_str m)).
Definition mode_put (subj : option string) (body : Value) : H Answer :=
  req ← pure_ok (mode_from_json body);
  _ ← pure_ok (check_subject subj);
  raw ← pure_ok (ok_or req (ApiErr.new 500 "Internal Server Error"));
  mode ← pure_ok (ModeM.parse raw);
  _ ← blocking (A := ()) (run ambient (set_mode_new subj mode (flag p "force")));
  mret (AnMode raw).
Definition put_mode_handler (subj : option string) (body : option Value) : H Answer :=
  v ← pure_ok (require body (match subj with None => "updateTopLevelMode.arg1" | Some _ => "updateMode.arg2" end));
  mode_put subj v.
Definition mode_delete (subj : string) : H Answer :=
  m ← blocking (A := Mode) (run ambient (delete_mode_new subj)); mret (AnMode (ModeM.as_str m)).

(** ** Contexts *)

Definition list_contexts_handler (caller : Authz.Principal) : H Answer :=
  l ← inline (λ r, Ok (Snap.list_contexts (rd_snap r)));
  mret (AnStrings (filter (λ c, Authz.can_see_context caller c = true) l)).
Definition delete_context_handler (ctx : string) : H Answer :=
  _ ← blocking (A := ()) (run ambient (delete_context_new ctx)); mret AnNoContent.

(** ** Exporters *)

(** [Body<T>]: our own endpoints read a body with serde; nothing is [{}]. *)
Definition typed_body {A} `{!FromValue A} (body : option Value) : ApiResult A :=
  map_err (λ e, ApiErr.new 422 ("Unrecognized request body: " +:+ e)) (from_value (default (VObject []) body)).
Definition map_body (body : option Value) : ApiResult Map :=
  match default (VObject []) body with
  | VObject m => Ok m
  | _ => Err (ApiErr.new 422 "Unrecognized request body: invalid type")
  end.
Definition store_exporter (name : string) : H ExporterRecord :=
  query (λ reg, e ← api (Store.get_exporter (reg_store reg) (reg_db reg) name); ok_or e (Api (ApiErr.exporter_not_found name))).
Definition list_exporters_handler : H Answer :=
  l ← query (λ reg, api (list_exporters (reg_store reg) (reg_db reg))); mret (AnStrings ((λ e, ei_name (er_info e)) <$> l)).
Definition create_exporter (body : option Value) : H Answer :=
  req ← pure_ok (typed_body body);
  name ← blocking (A := string) (run ambient (Ok (mkCreate req))); mret (AnName name).
Definition get_info (name : string) : H Answer := e ← store_exporter name; mret (AnExporter (er_info e)).
Definition update_exporter (name : string) (body : option Value) : H Answer :=
  req ← pure_ok (typed_body body);
  name ← blocking (A := string) (run ambient (Ok (mkUpdateExporter name req))); mret (AnName name).
Definition delete_exporter (name : string) : H Answer :=
  _ ← blocking (A := ()) (run ambient (Ok (mkDeleteExporter name))); mret AnNoContent.
(** registry/mod.rs *)
Definition exporter_status_json (e : ExporterRecord) : Value :=
  VObject ([("name", VString (ei_name (er_info e))); ("state", VString (exporter_state_name (er_state e)));
            ("offset", jnum (er_offset e)); ("ts", jnum (er_ts e))]
           ++ (if decide (er_trace e = "") then [] else [("trace", VString (er_trace e))])).
Definition exporter_status (name : string) : H Answer := e ← store_exporter name; mret (AnJson (exporter_status_json e)).
Definition exporter_config (name : string) : H Answer := e ← store_exporter name; mret (AnObject (ei_config (er_info e))).
Definition put_exporter_config (name : string) (body : option Value) : H Answer :=
  cfg ← pure_ok (map_body body);
  name ← blocking (A := string) (run ambient (Ok (update_exporter_config_only name cfg))); mret (AnName name).
Definition transition_handler (name action : string) : H Answer :=
  name ← blocking (A := string) (run ambient (Ok (mkTransition name action))); mret (AnName name).

(** ** The console *)

Definition DEFAULT_LIMIT : Z := 5000.
Definition overview (caller : Authz.Principal) : H Answer :=
  limit ← pure_ok (int_param p "limit" DEFAULT_LIMIT);
  v ← query (λ reg, admin_overview (reader reg) (api (list_exporters (reg_store reg) (reg_db reg))) about (get_param "subjectPrefix")
                      (flag p "deleted") (Z.to_nat (Z.max limit 0)) (Authz.is_admin_of caller));
  mret (AnJson v).
Definition subject_detail (subj : string) : H Answer := v ← inline (λ r, admin_subject r subj); mret (AnJson v).
Definition backup_handler (caller : Authz.Principal) : H Answer :=
  _ ← pure_ok (refuse_if (negb (Authz.is_global_admin caller)) (ApiErr.forbidden "A backup covers every subject, so it needs registry-wide admin"));
  d ← query (λ reg, dump_local (reader reg) (api (list_exporters (reg_store reg) (reg_db reg)))
                      (λ name, api (Store.get_exporter (reg_store reg) (reg_db reg) name)) dump_header (get_param "subjectPrefix"));
  mret (AnDump d).
(** The replay has as many steps as the dump can need. *)
Definition restore_handler (caller : Authz.Principal) (body : ApiResult string) : H Answer :=
  bytes ← pure_ok body;
  _ ← pure_ok (refuse_if (negb (Authz.is_global_admin caller)) (ApiErr.forbidden "A restore writes every subject, so it needs registry-wide admin"));
  _ ← pure_ok (refuse_if (negb (utf8_valid bytes)) (ApiErr.unprocessable "not text"));
  d ← pure_ok (map_err ApiErr.unprocessable (Dump.parse bytes));
  r ← blocking (λ reg, default (reg, Err Panic) (restore_local (verbs := engine_verbs ambient) (S (size (all_keys d))) d (flag p "dryRun") reg));
  mret (AnRestored (flag p "dryRun") r).

Definition metadata_id : Value :=
  VObject [("scope", VObject [("path", VArray []);
    ("clusters", VObject [("kafka-cluster", VString (ab_cluster_id about)); ("schema-registry-cluster", VString "schema-registry")])])].
Definition metadata_version : Value := VObject [("version", VString (ab_version about)); ("commitId", VString "rust-schema-registry")].

(** [trim_start_matches("/_admin")]: as often as it is there. *)
Fixpoint trim_old_prefix (fuel : nat) (s : string) : string :=
  match fuel, strip_prefix "/_admin" s with S fuel, Some s' => trim_old_prefix fuel s' | _, _ => s end.
Definition moved_to (rq : HttpRequest) : string :=
  "/admin" +:+ trim_old_prefix (String.length (hq_path rq)) (hq_path rq) +:+ from_option (λ q, "?" +:+ q) "" (hq_query rq).

Definition root_post (body : option Value) : H Answer :=
  match body with
  | Some v =>
      o ← pure_ok (Jackson.object v "String>");
      _ ← pure_ok (mapM_result (λ e : string * Value, Jackson.string_of (Some e.2)) o);
      mret AnEmptyObject
  | None => mret AnEmptyObject
  end.
End with_params.

(** * The service *)

(** The handler of an endpoint. The body is read by those that take one. *)
Definition endpoint (caller : Authz.Principal) (rq : HttpRequest) (e : Endpoint) : H Answer :=
  let p := params rq in
  let body := pure_ok (json_body rq) in
  match e with
  | EpRoot => mret AnEmptyObject
  | EpMetadataId => mret (AnJson metadata_id)
  | EpMetadataVersion => mret (AnJson metadata_version)
  | EpRootPost => b ← body; root_post b
  | EpListSchemas => list_schemas_handler p caller
  | EpSchemaTypes => mret (AnStrings ["JSON"; "PROTOBUF"; "AVRO"])
  | EpSchemaById id => schema_by_id p id
  | EpSchemaByIdRaw id => schema_by_id_raw p id
  | EpIdSubjects id => schema_id_subjects p caller id
  | EpIdVersions id => schema_id_versions p caller id
  | EpListSubjects => list_subjects_handler p caller
  | EpLookup s => b ← body; lookup_schema p s b
  | EpDeleteSubject s => delete_subject_handler p s
  | EpListVersions s => list_versions_handler p s
  | EpRegister s => b ← body; register_schema p s b
  | EpGetVersion s v => get_version_handler p s v
  | EpDeleteVersion s v => delete_version_handler p s v
  | EpGetVersionRaw s v => get_version_raw p s v
  | EpReferencedBy s v => referenced_by_handler s v
  | EpModifyTags s v => b ← body; modify_tags s v b
  | EpLatestWithMetadata s => latest_with_metadata_handler p s
  | EpCompatAll s => b ← body; compat_all p s b
  | EpCompatVersion s v => b ← body; compat_version p s v b
  | EpGetConfig s => config_get p s
  | EpPutConfig s => b ← body; put_config_handler s b
  | EpDeleteConfig s => config_delete s
  | EpGetMode s => mode_get p s
  | EpPutMode s => b ← body; put_mode_handler p s b
  | EpDeleteMode s => mode_delete s
  | EpListContexts => list_contexts_handler caller
  | EpDeleteContext c => delete_context_handler c
  | EpListExporters => list_exporters_handler
  | EpCreateExporter => b ← body; create_exporter b
  | EpExporterInfo n => get_info n
  | EpUpdateExporter n => b ← body; update_exporter n b
  | EpDeleteExporter n => delete_exporter n
  | EpExporterStatus n => exporter_status n
  | EpExporterConfig n => exporter_config n
  | EpPutExporterConfig n => b ← body; put_exporter_config n b
  | EpTransition n a => transition_handler n a
  | EpAdminPage => mret AnPage
  | EpOverview => overview p caller
  | EpSubjectDetail s => subject_detail s
  | EpBackup => backup_handler p caller
  | EpRestore => restore_handler p caller (hq_body rq)
  | EpMetrics => mret (AnText metrics)
  | EpMoved => mret (AnMoved (moved_to rq))
  end.

(** The router, for a caller that was let through. *)
Definition handle (caller : Authz.Principal) (rq : HttpRequest) : H Answer :=
  e ← pure_ok (route (hq_method rq) (hq_path rq)); endpoint caller rq e.

(** ** The layers in front of it *)

(** [prematch] (api/mod.rs): the path and query the router gets. *)
Definition is_delete_context (rq : HttpRequest) : bool :=
  bool_decide (hq_method rq = "DELETE") && bool_decide (length (split_char "/" (trim_char "/" (hq_path rq))) = 2)
  && starts_with "contexts/" (trim_start_char "/" (hq_path rq)).
Definition rewritten (reg : State) (rq : HttpRequest) : ApiResult HttpRequest :=
  new ← Rewrite.prematch (λ s, Ok (alias_of (reader reg) s)) (hq_path rq) (hq_query rq) (is_delete_context rq);
  Ok match uri_parse new with
     | Some (path, query) => mkRequest (hq_method rq) path query (hq_content_type rq) (hq_body rq)
     | None => rq
     end.

(** bcrypt, base64 and SHA-256, as the middleware takes them. *)
Context (bcrypt_verify : string → string → option bool) (base64_decode : string → option string) (sha256 : string → string).
(** What the authentication layer asks, of the request as it was rewritten. *)
Definition checked (credentials : option string) (reg : State) (rq : HttpRequest) (auth : Auth) : Verdict * Auth :=
  middleware bcrypt_verify base64_decode sha256 auth
    (mkAuthRequest credentials (Some (st_tenant (reg_store reg))) (hq_method rq) (hq_path rq)).
(** [service], for the registry the request was routed to: rewriting, then
    authentication and authorization, then the router. Without authentication
    the caller is unrestricted. *)
Definition service (credentials : option string) (rq : HttpRequest) (auth : Auth) (reg : State) : Auth * State * Outcome Answer :=
  match rewritten reg rq with
  | Err e => (auth, reg, Err (Api e))
  | Ok rq =>
      match checked credentials reg rq auth with
      | (Refuse e, auth) => (auth, reg, Err (Api e))
      | (PassOn who, auth) => let '(reg, out) := handle (default Authz.unrestricted who) rq reg in (auth, reg, out)
      end
  end.
End api.
