(* ===== verification/ApiSafety.v ===== *)
(** What the HTTP interface promises: the router and the authorization read a
    path the same way, reads change nothing, and nothing of a subject changes
    unless the caller may write it. *)
From S2P Require Import Prelude SortedVec RustStr Errors Json Model Context Snapshot Keys Plan Store Durable Transaction MemDb SchemaLayer JavaOrder Views Registry Queries Mutations ExporterVerbs Engine VerbSafety Consistency Rewrite Authz ProxyProtocol Config Auth Tags Dump DerivedJson Restore RestoreSpec BackupSpec ProtoLex AvroRender Requests Listings Api.

Open Scope string_scope.
Open Scope nat_scope.
Open Scope list_scope.

(** * Paths *)

Lemma join_split c s : join (str1 c) (split_char c s) = s.
Proof.
  induction s as [|d s IH]; [done|]. cbn [split_char]. case_decide as Hc.
  - destruct (split_char_cons c s) as (w & ws & E). rewrite E in *. rewrite join_cons by done. rewrite IH. by subst.
  - destruct (split_char_cons c s) as (w & ws & E). rewrite E in *. destruct ws as [|w' ws]; cbn in *; [by subst|].
    by rewrite <-IH.
Qed.
Lemma split_lacks c s : Forall (lacks c) (split_char c s).
Proof.
  induction s as [|d s IH]; cbn [split_char]; [by repeat constructor|]. case_decide; [by constructor|].
  destruct (split_char_cons c s) as (w & ws & E). rewrite E in *. apply Forall_cons in IH as [Hw Hws].
  constructor; [|done]. by apply lacks_cons.
Qed.
Lemma lacks_join c d l : c ≠ d → lacks c (join (str1 d) l) → Forall (lacks c) l.
Proof.
  intros Hcd. induction l as [|s l IH]; [constructor|]. destruct l as [|s' l]; [by repeat constructor|].
  rewrite join_cons by done. rewrite !lacks_app. intros (? & ? & ?). constructor; auto.
Qed.

Lemma join_segments_nonempty l : l ≠ [] → Forall segment l → join "/" l ≠ "".
Proof.
  destruct l as [|s l]; [done|]. intros _ [[Hs _] _]%Forall_cons. destruct (join_head s l) as [r ->]. by destruct s.
Qed.
Lemma trim_end_char_lacks c s : lacks c s → trim_end_char c s = s.
Proof.
  intros H. unfold trim_end_char. apply lacks_rev in H. destruct (decide (String.rev s = "")) as [E|E].
  - apply (f_equal String.rev) in E. rewrite rev_rev in E. by subst.
  - rewrite <-(str_app_nil_r (String.rev s)), trim_start_char_lacks, str_app_nil_r by done. apply rev_rev.
Qed.
Lemma trim_join l : l ≠ [] → Forall segment l → trim_end_char "/" (join "/" l) = join "/" l.
Proof.
  induction l as [|s l IH]; [done|]. intros _ [[_ Hs] Hl]%Forall_cons. destruct l as [|s' l]; [by apply trim_end_char_lacks|].
  rewrite join_cons, <-str_app_assoc, trim_end_stop by (rewrite ?IH by done; try done; by apply join_segments_nonempty).
  by rewrite IH.
Qed.

(** A path the router cut into segments that are not empty is cut the same way
    by the authorization. *)
Lemma segs_of_segments path segs : path_segments path = Some segs → Forall (λ s, s ≠ "") segs → Authz.segs_of path = segs.
Proof.
  unfold path_segments. destruct (strip_prefix "/" path) as [rest|] eqn:E; [|done]. intros [= <-] Hs.
  apply strip_prefix_Some in E as ->.
  assert (Forall segment (split_char "/" rest)) as Hseg.
  { pose proof (split_lacks "/" rest) as Hl. rewrite Forall_forall in Hs, Hl. apply Forall_forall. intros x Hx. split; auto. }
  assert (split_char "/" rest ≠ []) as Hne by (destruct (split_char_cons "/" rest) as (w & ws & ->); done).
  assert (rest = join "/" (split_char "/" rest)) as E by (symmetry; apply join_split).
  revert E Hseg Hne. clear Hs. generalize (split_char "/" rest). intros l -> Hseg Hne.
  unfold Authz.segs_of, trim_char. change ("/" +:+ join "/" l) with (path_of l).
  destruct l as [|s l]; [done|]. rewrite trim_path_of by (by apply Forall_cons in Hseg as []).
  rewrite trim_join by done. apply (split_join "/"); [done|]. eapply Forall_impl; [exact Hseg|]. by intros ? [].
Qed.

(** A segment of a path without a plus sign has none. *)
Lemma segments_lack_plus path segs : path_segments path = Some segs → lacks "+" path → Forall (lacks "+") segs.
Proof.
  unfold path_segments. destruct (strip_prefix "/" path) as [rest|] eqn:E; [|done]. intros [= <-].
  apply strip_prefix_Some in E as ->. rewrite lacks_app. intros [_ H]. apply (lacks_join "+" "/"); [done|].
  by rewrite (join_split "/" rest).
Qed.

(** * Routing and authorization *)

(** What an endpoint is about, in the terms of the authorization. *)
Definition subject_target (s : string) : Authz.Target :=
  match Qualified.parse s with Ok q => Authz.TSubject q | Err _ => Authz.Global end.
Definition settings_target (s : string) : Authz.Target :=
  match Qualified.parse s with
  | Ok q => if Qualified.is_context_only q then Authz.TContext (context q) else Authz.TSubject q
  | Err _ => Authz.Global
  end.
Definition about_target (e : Endpoint) : Authz.Target :=
  match e with
  | EpListSchemas | EpIdSubjects _ | EpIdVersions _ | EpListSubjects | EpListContexts
  | EpAdminPage | EpOverview | EpBackup | EpRestore | EpMoved => Authz.Listing
  | EpLookup s | EpDeleteSubject s | EpListVersions s | EpRegister s | EpGetVersion s _ | EpDeleteVersion s _
  | EpGetVersionRaw s _ | EpReferencedBy s _ | EpModifyTags s _ | EpLatestWithMetadata s
  | EpCompatAll s | EpCompatVersion s _ | EpSubjectDetail s => subject_target s
  | EpGetConfig (Some s) | EpPutConfig (Some s) | EpDeleteConfig (Some s)
  | EpGetMode (Some s) | EpPutMode (Some s) | EpDeleteMode s => settings_target s
  | EpDeleteContext c => Authz.TContext (default "" (normalize_context c))
  | _ => Authz.Global
  end.
(** The endpoints that run no verb. *)
Definition reads_only (e : Endpoint) : bool :=
  match e with
  | EpRootPost | EpDeleteSubject _ | EpRegister _ | EpDeleteVersion _ _ | EpModifyTags _ _ | EpPutConfig _ | EpDeleteConfig _
  | EpPutMode _ | EpDeleteMode _ | EpDeleteContext _ | EpCreateExporter | EpUpdateExporter _ | EpDeleteExporter _
  | EpPutExporterConfig _ | EpTransition _ _ | EpRestore => false
  | _ => true
  end.

(** axum's parameters are percent-decoded text; unlike in a query, a plus sign
    stands for itself. *)
Class AxumLaws {axum : Axum} : Prop :=
  path_decode_plain raw d : lacks "+" raw → path_decode raw = Some d → percent_decode raw = d.
Arguments AxumLaws : clear implicits.

Lemma find_route_elem table segs raw ms : find_route table segs = Some (raw, ms) →
  ∃ parts, (parts, ms) ∈ table ∧ follows parts segs = Some raw.
Proof.
  induction table as [|[parts ms'] table IH]; [done|]. cbn. destruct (follows parts segs) as [raw'|] eqn:E.
  - intros [= <- <-]. exists parts. split; [left|done].
  - intros H. destruct (IH H) as (p & Hp & ?). exists p. split; [by right|done].
Qed.

Lemma follows_seg s parts segs raw : follows (Seg s :: parts) segs = Some raw → ∃ r, segs = s :: r ∧ follows parts r = Some raw.
Proof. destruct segs as [|x segs]; [done|]. cbn. case_decide; naive_solver. Qed.
Lemma follows_param parts segs raw : follows (Param :: parts) segs = Some raw →
  ∃ x r raw', segs = x :: r ∧ x ≠ "" ∧ raw = x :: raw' ∧ follows parts r = Some raw'.
Proof.
  destruct segs as [|x segs]; [done|]. cbn. case_decide; [done|].
  destruct (follows parts segs) eqn:E; cbn; [|done]. intros [= <-]. eauto 10.
Qed.
Lemma follows_nil segs raw : follows [] segs = Some raw → segs = [] ∧ raw = [].
Proof. destruct segs; naive_solver. Qed.

Section routing.
Context {axum : Axum} {axum_laws : AxumLaws axum}.

(** What a row of the table has to satisfy. *)
Definition row_agrees (row : list Part * Methods) : Prop :=
  ∀ path segs raw m f ps e, path_segments path = Some segs → follows row.1 segs = Some raw → lacks "+" path →
    handler_of row.2 m = Some f → mapM path_decode raw = Some ps → f ps = Some e →
    Authz.target_of path = about_target e ∧ Authz.read_only_request m path = reads_only e.
End routing.

(** The segments of a path that follows a route, one after the other. *)
Ltac segments H :=
  lazymatch type of H with
  | follows (Seg _ :: _) _ = _ =>
      let r := fresh "r" in let E := fresh "E" in apply follows_seg in H as (r & E & H); rewrite E in *; clear E; segments H
  | follows (Param :: _) _ = _ =>
      let x := fresh "x" in let r := fresh "r" in let w := fresh "w" in let E := fresh "E" in let Ew := fresh "E" in
      apply follows_param in H as (x & r & w & E & ? & Ew & H); rewrite E, Ew in *; clear E Ew; segments H
  | follows [] _ = _ => let E := fresh "E" in let Ew := fresh "E" in apply follows_nil in H as [E Ew]; rewrite E, Ew in *; clear E Ew
  | _ => idtac
  end.

(** The method of a request that reached a handler. *)
Definition same_method (m n : string) : Prop := m = n ∨ (m = "HEAD" ∧ n = "GET").
Lemma handler_inv ms m f : handler_of ms m = Some f → ∃ n, (n, f) ∈ ms ∧ same_method m n.
Proof.
  unfold handler_of. cbv zeta. destruct (List.find _ ms) as [[n g]|] eqn:E; [|done]. intros [= <-].
  apply find_some in E as [Hin%list_elem_of_In Hn]. apply bool_decide_eq_true in Hn. cbn in Hn. exists n. split; [done|].
  unfold same_method. case_decide; [right|left]; by subst.
Qed.
Lemma same_get m : same_method m "GET" → m = "GET" ∨ m = "HEAD".
Proof. intros [?|[? _]]; auto. Qed.
Lemma same_other m n : n ≠ "GET" → same_method m n → m = n.
Proof. intros ? [?|[_ ?]]; done. Qed.

Section rows.
Context {axum : Axum} {axum_laws : AxumLaws axum}.

Lemma param_inv x raw ps : mapM path_decode (x :: raw) = Some ps → lacks "+" x →
  ∃ ds, ps = percent_decode x :: ds ∧ mapM path_decode raw = Some ds.
Proof.
  cbn. destruct (path_decode x) as [d|] eqn:E; cbn; [|done]. destruct (mapM path_decode raw) as [ds|]; cbn; [|done].
  intros [= <-] Hl. exists ds. by rewrite (path_decode_plain x d).
Qed.
End rows.

(** The parameters, decoded. *)
Ltac parameters Hps Hseg :=
  lazymatch type of Hps with
  | mapM _ (_ :: _) = _ =>
      let ds := fresh "ds" in let E := fresh "E" in
      apply param_inv in Hps as (ds & E & Hps); [rewrite E in *; clear E; parameters Hps Hseg|by (repeat (apply Forall_cons in Hseg as [? Hseg]))]
  | mapM _ [] = _ => injection Hps as Hps; rewrite <-Hps in *
  end.
(** The handlers of a row, one method after the other. *)
Ltac methods Hh He :=
  let n := fresh "n" in let Hin := fresh "Hin" in let Hm := fresh "Hm" in
  apply handler_inv in Hh as (n & Hin & Hm);
  repeat (apply elem_of_cons in Hin as [Hin|Hin]; [injection Hin as -> ->|]); try (by apply elem_of_nil in Hin);
  cbv [ep0 ep1 ep2 compose] in He; injection He as <-;
  first [apply same_get in Hm as [-> | ->] | apply same_other in Hm as ->; [|done]].

Lemma path_of_segments path segs : path_segments path = Some segs → path = "/" +:+ join "/" segs.
Proof.
  unfold path_segments. destruct (strip_prefix "/" path) as [rest|] eqn:E; [|done]. intros [= <-].
  apply strip_prefix_Some in E as ->. f_equal. symmetry. apply join_split.
Qed.

Lemma trim_start_suffix c s : ∃ t, s = t +:+ trim_start_char c s.
Proof.
  induction s as [|d s [t IH]]; [by exists ""|]. cbn. case_decide; [|by exists ""]. exists (String d t). cbn. by rewrite <-IH.
Qed.
Lemma trim_end_prefix c s : ∃ t, s = trim_end_char c s +:+ t.
Proof.
  unfold trim_end_char. destruct (trim_start_suffix c (String.rev s)) as [t E]. exists (String.rev t).
  by rewrite <-rev_app, <-E, rev_rev.
Qed.
Lemma trim_start_all c a b : trim_start_char c a = "" → trim_start_char c (a +:+ b) = trim_start_char c b.
Proof. induction a as [|d a IH]; [done|]. cbn. case_decide; [auto|done]. Qed.

(** Trimming leaves the first segment of a path. *)
Lemma segs_of_slash s rest : segment s → ∃ l, Authz.segs_of ("/" +:+ s +:+ "/" +:+ rest) = s :: l.
Proof.
  intros [Hs Hl]. unfold Authz.segs_of, trim_char.
  change (trim_start_char "/" ("/" +:+ ?x)) with (trim_start_char "/" x).
  rewrite trim_start_char_lacks by done. destruct (trim_end_char "/" ("/" +:+ rest)) as [|d r] eqn:E.
  - exists []. unfold trim_end_char in *. apply (f_equal String.rev) in E. rewrite rev_rev in E.
    rewrite rev_app, trim_start_all by done. fold (trim_end_char "/" s).
    rewrite trim_end_char_lacks by done. by apply split_char_lacks.
  - rewrite trim_end_stop, E by (by rewrite E). destruct (trim_end_prefix "/" ("/" +:+ rest)) as [t Et].
    rewrite E in Et. injection Et as <- _. eexists. by apply split_char_app.
Qed.

Section rows.
Context {axum : Axum} {axum_laws : AxumLaws axum}.

(** The rows whose segments are not empty, and those whose paths are known; then the last. *)
Lemma named_rows_agree : Forall row_agrees (take 41 routes).
Proof.
  unfold routes. cbn [take].
  repeat (apply Forall_cons; split); [..|constructor].
  all: intros path segs raw m f ps e Hp Hf Hl Hh Hps He; cbn [fst snd] in *; segments Hf;
    pose proof (segments_lack_plus _ _ Hp Hl) as Hseg; parameters Hps Hseg; clear Hseg;
    methods Hh He.
  all: try solve [ apply segs_of_segments in Hp; [|repeat (apply Forall_cons; split); done || constructor];
            unfold Authz.target_of, Authz.read_only_request, Authz.is_lookup_post; rewrite Hp; split; reflexivity
          | apply path_of_segments in Hp as ->; split; vm_compute; reflexivity].
Qed.


Lemma moved_row_agrees : row_agrees ([Seg "_admin"; Rest], [("GET", ep0 EpMoved)]).
Proof.
  intros path segs raw m f ps e Hp Hf Hl Hh Hps He; cbn [fst snd] in *. segments Hf.
  destruct r as [|x r]; [done|]. cbn in Hf. destruct (bool_decide _); [done|]. injection Hf as <-. injection Hps as <-.
  apply path_of_segments in Hp as ->. rewrite join_cons by done.
  destruct (segs_of_slash "_admin" (join "/" (x :: r))) as [l E]; [done|]. methods Hh He;
    unfold Authz.target_of, Authz.read_only_request; rewrite E; destruct l; split; reflexivity.
Qed.

Lemma route_agrees m path e : lacks "+" path → route m path = Ok e →
  Authz.target_of path = about_target e ∧ Authz.read_only_request m path = reads_only e.
Proof.
  intros Hl. unfold route. destruct (path_segments path) as [segs|] eqn:Hp; cbn [mbind option_bind]; [|done].
  destruct (find_route routes segs) as [[raw ms]|] eqn:Hr; [|done].
  intros H. apply bind_Ok in H as (f & Hf%ok_or_Ok & H). apply bind_Ok in H as (ps & Hps%ok_or_Ok & H%ok_or_Ok).
  apply find_route_elem in Hr as (parts & Hin & Hfo).
  assert (Forall row_agrees routes) as Hall.
  { change routes with (take 41 routes ++ [([Seg "_admin"; Rest], [("GET", ep0 EpMoved)])]).
    apply Forall_app. split; [apply named_rows_agree|]. constructor; [apply moved_row_agrees|constructor]. }
  rewrite Forall_forall in Hall. by eapply (Hall _ Hin).
Qed.
End rows.

(** * What a change reaches *)

Section reach.
Implicit Types (s : Snapshot) (W : QualifiedSubject → Prop).

(** Changes to the settings of a scope reach every subject that inherits them. *)
Definition scope_within W (scope : Scope) : Prop :=
  match scope with
  | Global => ∀ q, W q
  | ContextScope ctx => ∀ subj, W (mkQ ctx subj)
  | SubjectScope ctx subj => W (mkQ ctx subj)
  end.
Definition op_within W (op : Op) : Prop :=
  match op with
  | OpPutVersion ctx subj _ _ | OpDeleteVersion ctx subj _ _ => W (mkQ ctx subj)
  | OpPutConfig scope _ | OpDeleteConfig scope | OpPutMode scope _ | OpDeleteMode scope => scope_within W scope
  | _ => True
  end.
Definition writes_within W (ws : list Write) : Prop := Forall (op_within W) (plan_ops ws).

(** The scopes a subject reads its settings from. *)
Definition scopes_of (q : QualifiedSubject) : list Scope := [scope_for q; ContextScope (context q); Global].
(** What the snapshot holds of a subject: its versions and the settings in force. *)
Definition same_subject (q : QualifiedSubject) s s' : Prop :=
  Snap.list_versions s' (context q) (subject q) = Snap.list_versions s (context q) (subject q) ∧
  ∀ scope, scope ∈ scopes_of q → Snap.get_config s' scope = Snap.get_config s scope ∧ Snap.get_mode s' scope = Snap.get_mode s scope.

Lemma list_versions_mut s ctx f ctx' subj :
  (∀ c, Snapshot.subjects (f c) !! subj = Snapshot.subjects c !! subj) → Snap.list_versions (Snap.ctx_mut s ctx f) ctx' subj = Snap.list_versions s ctx' subj.
Proof.
  intros Hf. unfold Snap.list_versions, Snap.ctx_mut. cbn. destruct (decide (ctx' = ctx)) as [->|Hc].
  - rewrite lookup_insert_eq. cbn. rewrite Hf. destruct (ctxs s !! ctx); [done|]. cbn. by rewrite lookup_empty.
  - by rewrite lookup_insert_ne.
Qed.
Lemma list_versions_elsewhere s ctx f ctx' subj : ctx' ≠ ctx → Snap.list_versions (Snap.ctx_mut s ctx f) ctx' subj = Snap.list_versions s ctx' subj.
Proof. intros Hc. unfold Snap.list_versions, Snap.ctx_mut. cbn. by rewrite lookup_insert_ne. Qed.

Lemma put_version_others subj v rec c subj' : subj' ≠ subj → Snapshot.subjects (Snap.put_version subj v rec c) !! subj' = Snapshot.subjects c !! subj'.
Proof. intros Hs. unfold Snap.put_version. cbn. rewrite lookup_insert_ne by done. by repeat case_match. Qed.
Lemma delete_version_others subj v id c subj' : subj' ≠ subj → Snapshot.subjects (Snap.delete_version subj v id c) !! subj' = Snapshot.subjects c !! subj'.
Proof.
  intros Hs. unfold Snap.delete_version. repeat (case_match; cbn); by rewrite ?lookup_insert_ne, ?lookup_delete_ne.
Qed.

Lemma scope_not_within W q scope : ¬ W q → scope ∈ scopes_of q → ¬ scope_within W scope.
Proof.
  intros Hq Hin Hw. apply Hq. destruct q as [ctx subj]. unfold scopes_of, scope_for in Hin. cbn in Hin.
  repeat (apply elem_of_cons in Hin as [->|Hin]); [..|by apply elem_of_nil in Hin]; try apply Hw.
  destruct (Qualified.is_context_only _); apply Hw.
Qed.

Lemma apply_within W s op q : op_within W op → ¬ W q → same_subject q s (Snap.apply s op).
Proof.
  intros Hop Hq. split.
  - destruct q as [ctx subj], op as [ctx' id rec [|]| |ctx' subj' v' rec|ctx' subj' v' id|ctx' subj' v' id|ctx' subj' v' id
      |ctx' next| | | | | |]; cbn in *; try done; try (by apply list_versions_mut).
    + destruct (decide (ctx = ctx')) as [->|]; [|rewrite list_versions_elsewhere by done; done].
      rewrite list_versions_mut; [done|]. intros c. apply put_version_others. by intros ->.
    + destruct (decide (ctx = ctx')) as [->|]; [|by apply list_versions_elsewhere].
      apply list_versions_mut. intros c. apply delete_version_others. by intros ->.
    + apply list_versions_mut. intros c. unfold Snap.delete_refby. by repeat (case_match; cbn).
  - intros scope Hin. pose proof (scope_not_within W q scope Hq Hin) as Hs.
    destruct op as [ctx' id rec [|]| | | | | | | |scope' rec|scope'|scope' m|scope'|]; cbn in *; try done;
      unfold Snap.get_config, Snap.get_mode; cbn; assert (scope' ≠ scope) by (intros ->; done);
      by rewrite ?lookup_insert_ne, ?lookup_delete_ne.
Qed.

Lemma same_subject_trans q s1 s2 s3 : same_subject q s1 s2 → same_subject q s2 s3 → same_subject q s1 s3.
Proof.
  intros [H1 H2] [H3 H4]. split; [congruence|]. intros scope Hin. destruct (H2 scope Hin), (H4 scope Hin). split; congruence.
Qed.
Lemma apply_all_within W s ops q : Forall (op_within W) ops → ¬ W q → same_subject q s (Snap.apply_all s ops).
Proof.
  intros Hops Hq. revert s. induction Hops as [|op ops Hop _ IH]; intros s; [done|].
  cbn. eapply same_subject_trans; [by eapply apply_within|apply IH].
Qed.
End reach.

(** * Every verb keeps to its target *)

Definition covers (t : Target) (q : QualifiedSubject) : Prop :=
  match t with
  | SubjectTarget q' => q = q'
  | ContextTarget ctx => context q = ctx
  | GlobalTarget => True
  | ExportersTarget => False
  end.

Section verbs.
Context {formats : SchemaFormats}.

Class Confined (M : Type) `{!Mutation M} : Prop :=
  plan_confined (m : M) (view : ReadView) p : plan m view = Ok p → writes_within (covers (target m)) (writes p).

Lemma within_app W a b : writes_within W a → writes_within W b → writes_within W (a ++ b).
Proof. unfold writes_within. rewrite plan_ops_app. intros. by apply Forall_app. Qed.
Lemma within_each W ws : Forall (λ w, Forall (op_within W) (write_ops w)) ws → writes_within W ws.
Proof. apply plan_ops_Forall. Qed.

Lemma hard_delete_within W r q v vr also ws ev : hard_delete_writes r q v vr also = Ok (ws, ev) → W q → writes_within W ws.
Proof.
  intros H Hq. apply hard_delete_shape in H as (_ & extra & -> & Hextra). apply within_each. constructor.
  - destruct q. by repeat constructor.
  - eapply Forall_impl; [exact Hextra|]. intros w. by destruct w; repeat constructor.
Qed.
Lemma hard_delete_all_within W r l also ws evs : hard_delete_all r l also = Ok (ws, evs) →
  Forall (λ x : QualifiedSubject * Z * VersionRecord, W x.1.1) l → writes_within W ws.
Proof.
  unfold hard_delete_all. intros H Hl. apply bind_Ok in H as (xs & Hxs & [= <- <-]).
  apply mapM_result_Ok in Hxs. induction Hxs as [|[[q v] vr] [ws ev] l k Hx Hxs IH]; cbn; [constructor|].
  apply Forall_cons in Hl as [Hv Hl]. apply within_app; [by eapply hard_delete_within|auto].
Qed.
Lemma own_versions W (q : QualifiedSubject) (l : versions_t) : W q → Forall (λ x : QualifiedSubject * Z * VersionRecord, W x.1.1) (map (λ x, (q, x.1, x.2)) l).
Proof. intros Hq. apply Forall_forall. intros x (y & -> & _)%list_elem_of_fmap. done. Qed.

Lemma register_plan_confined m view p : register_plan m view = Ok p → writes_within (covers (SubjectTarget (rg_subject m))) (writes p).
Proof.
  intros Hp. apply register_plan_inv in Hp as [[-> _]|(d & c & sid & version & id & Hn)]; [constructor|].
  destruct Hn as [_ _ _ _ _ _ _ _ Hrows _].
  apply register_rows_shape in Hrows as (ws1 & evs1 & ws2 & evs2 & rec & H1 & H2 & _ & -> & _).
  apply within_app; [apply within_app|].
  - eapply hard_delete_all_within; [exact H1|]. destruct (List.find _ _) as [[??]|]; by repeat constructor.
  - eapply hard_delete_all_within; [exact H2|]. by apply own_versions.
  - apply within_app; [by repeat constructor|]. apply within_app; [by destruct (bool_decide _); repeat constructor|].
    apply within_app; [destruct (rg_subject m); by repeat constructor|].
    apply within_each, Forall_forall. intros w (x & -> & _)%list_elem_of_fmap. by repeat constructor.
Qed.
#[export] Instance register_confined : Confined RegisterSchema := register_plan_confined.

Lemma soft_delete_within (q : QualifiedSubject) v vr : Forall (op_within (covers (SubjectTarget q))) (write_ops (soft_delete_write q v vr)).
Proof. destruct q. by repeat constructor. Qed.
Lemma drop_settings_within (q : QualifiedSubject) : writes_within (covers (SubjectTarget q)) (drop_settings q).
Proof. destruct q. by repeat constructor. Qed.

#[export] Instance delete_subject_confined : Confined DeleteSubject.
Proof.
  intros m view p Hp. change (delete_subject_plan m view = Ok p) in Hp. unfold delete_subject_plan in Hp. cbv zeta in Hp.
  apply bind_Ok in Hp as ([] & _ & Hp). apply bind_Ok in Hp as ([] & _ & Hp). apply bind_Ok in Hp as ([] & _ & Hp).
  apply bind_Ok in Hp as ([ws evs] & Hws & [= <-]). cbn [target delete_subject_mutation writes]. destruct (ds_permanent m).
  - eapply hard_delete_all_within; [exact Hws|]. by apply own_versions.
  - injection Hws as <- <-. apply within_app; [|apply drop_settings_within].
    apply within_each, Forall_forall. intros w (x & -> & _)%list_elem_of_fmap. apply soft_delete_within.
Qed.

#[export] Instance delete_version_confined : Confined DeleteSubjectVersion.
Proof.
  intros m view p Hp. change (delete_version_plan m view = Ok p) in Hp. unfold delete_version_plan in Hp. cbv zeta in Hp.
  destruct (get_exact _ _ _ true) as [[v vr]|]; [|done].
  apply bind_Ok in Hp as ([] & _ & Hp). apply bind_Ok in Hp as ([] & _ & Hp). apply bind_Ok in Hp as ([] & _ & Hp).
  cbn [target delete_version_mutation]. destruct (dv_permanent m).
  - apply bind_Ok in Hp as ([ws ev] & Hws & [= <-]). by eapply hard_delete_within.
  - injection Hp as <-. apply (within_app _ [_]); [|destruct (existsb _ _); [constructor|apply drop_settings_within]].
    apply within_each. constructor; [apply soft_delete_within|constructor].
Qed.

(** The scope a settings verb writes is the one of its target. *)
Lemma opt_scope_within q : scope_within (covers (opt_target q)) (opt_scope q).
Proof. destruct q as [[ctx subj]|]; [|done]. cbn. by destruct (Qualified.is_context_only _). Qed.

#[export] Instance update_confined : Confined UpdateCompatibility.
Proof. intros m view p [= <-]. apply within_each. repeat constructor. apply opt_scope_within. Qed.
#[export] Instance delete_config_confined : Confined DeleteSubjectConfig.
Proof.
  intros m view p Hp. change (delete_config_plan m view = Ok p) in Hp. apply bind_Ok in Hp as (c & _ & [= <-]).
  apply within_each. repeat constructor. apply opt_scope_within.
Qed.
#[export] Instance delete_mode_confined : Confined DeleteMode.
Proof.
  intros m view p Hp. change (delete_mode_plan m view = Ok p) in Hp. apply bind_Ok in Hp as (c & _ & [= <-]).
  apply within_each. repeat constructor. apply (opt_scope_within (Some _)).
Qed.
#[export] Instance delete_context_confined : Confined DeleteContext.
Proof.
  intros m view p Hp. change (delete_context_plan m view = Ok p) in Hp. apply bind_Ok in Hp as ([] & _ & [= <-]).
  by repeat constructor.
Qed.

Lemma subjects_in_scope_covered r subj : Forall (covers (opt_target subj)) (subjects_in_scope r subj).
Proof.
  apply Forall_forall. destruct subj as [q|]; [|done]. cbn. destruct (Qualified.is_context_only q).
  - intros x (s & -> & _)%list_elem_of_fmap. done.
  - intros x Hx. by apply list_elem_of_singleton in Hx.
Qed.
#[export] Instance set_mode_confined : Confined SetMode.
Proof.
  intros m view p Hp. change (set_mode_plan m view = Ok p) in Hp. unfold set_mode_plan in Hp. cbv zeta in Hp.
  apply bind_Ok in Hp as ([ws evs] & Hws & [= <-]). apply within_app.
  - destruct (_ && _); [|injection Hws as <- <-; constructor].
    apply bind_Ok in Hws as ([] & _ & Hws). apply bind_Ok in Hws as ([] & _ & Hws).
    eapply hard_delete_all_within; [exact Hws|]. apply Forall_forall. intros x Hx.
    apply list_elem_of_bind in Hx as (sq & (y & -> & _)%list_elem_of_fmap & Hin).
    pose proof (subjects_in_scope_covered (vw_reader view) (sm_subject m)) as Hc. rewrite Forall_forall in Hc. by apply Hc.
  - apply within_each. repeat constructor. apply opt_scope_within.
Qed.

(** Exporters are no part of the snapshot. *)
Lemma exporter_within W ws : Forall (λ w, write_ops w = []) ws → writes_within W ws.
Proof. intros Hws. apply within_each. eapply Forall_impl; [exact Hws|]. intros w ->. constructor. Qed.
#[export] Instance create_exporter_confined : Confined CreateExporter.
Proof.
  intros m view p Hp. apply exporter_within. change (create_plan m view = Ok p) in Hp. unfold create_plan in Hp.
  apply bind_Ok in Hp as (e & _ & Hp). apply bind_Ok in Hp as ([] & _ & Hp). apply bind_Ok in Hp as ([] & _ & [= <-]).
  by repeat constructor.
Qed.
#[export] Instance restore_exporter_confined : Confined RestoreExporter.
Proof.
  intros m view p Hp. apply exporter_within. change (restore_plan m view = Ok p) in Hp. unfold restore_plan in Hp.
  apply bind_Ok in Hp as (e & _ & Hp). destruct (bool_decide _); [injection Hp as <-; constructor|].
  apply bind_Ok in Hp as ([] & _ & [= <-]). by repeat constructor.
Qed.
#[export] Instance update_exporter_confined : Confined UpdateExporter.
Proof.
  intros m view p Hp. apply exporter_within. change (update_exporter_plan m view = Ok p) in Hp.
  apply bind_Ok in Hp as (e & _ & Hp). apply bind_Ok in Hp as ([] & _ & [= <-]). by repeat constructor.
Qed.
#[export] Instance delete_exporter_confined : Confined DeleteExporter.
Proof.
  intros m view p Hp. apply exporter_within. change (delete_exporter_plan m view = Ok p) in Hp.
  apply bind_Ok in Hp as (e & _ & [= <-]). by repeat constructor.
Qed.
#[export] Instance transition_confined : Confined TransitionExporter.
Proof.
  intros m view p Hp. apply exporter_within. change (transition_plan m view = Ok p) in Hp.
  apply bind_Ok in Hp as (e & _ & Hp). apply bind_Ok in Hp as (e' & _ & [= <-]). by repeat constructor.
Qed.
End verbs.

(** * Who may change what *)

(** The caller may write the subject. *)
Definition may_write (p : Authz.Principal) (q : QualifiedSubject) : Prop :=
  Authz.Write ∈ Authz.roles_for_subject p q ∨ Authz.Admin ∈ Authz.roles_for_subject p q.
#[export] Instance may_write_dec p q : Decision (may_write p q).
Proof. pose proof Authz.Role_eq_dec. unfold may_write. apply _. Defined.

Lemma global_role_everywhere p q r : r ∈ Authz.roles p → r ∈ Authz.roles_for_subject p q.
Proof. intros Hr. apply add_roles_elem. by left. Qed.
Lemma context_role_everywhere p ctx subj r : r ∈ Authz.roles_for_context p ctx → r ∈ Authz.roles_for_subject p (mkQ ctx subj).
Proof.
  intros [Hr|(ps & pt & Hps & Hpt & Hc)]%add_roles_elem; apply add_roles_elem; [by left|right].
  exists ps, pt. split_and!; [done..|]. unfold Pattern.covers_context, Pattern.matches in *. cbn.
  apply andb_true_iff in Hc as [-> Hc]. by destruct (Pattern.subject pt).
Qed.
Lemma global_admin_everywhere p q : Authz.is_global_admin p = true → may_write p q.
Proof.
  intros [Hr%bool_decide_eq_true|Hb]%orb_true_iff; right; [by apply global_role_everywhere|].
  apply existsb_elem in Hb as ([r ps] & Hin & [Hr%bool_decide_eq_true Hpt]%andb_true_iff). cbn in Hr. subst r.
  apply existsb_elem in Hpt as (pt & Hpt & Hall). apply add_roles_elem. right. exists ps, pt. split_and!; [done..|].
  unfold Pattern.is_everything, Pattern.matches in *. apply andb_true_iff in Hall as [Hc Hs].
  by destruct (Pattern.context pt), (Pattern.subject pt).
Qed.

(** What a caller who was let through with more than a read may write. *)
Definition target_within (W : QualifiedSubject → Prop) (t : Authz.Target) : Prop :=
  match t with
  | Authz.TSubject q => W q
  | Authz.TContext ctx => ∀ subj, W (mkQ ctx subj)
  | Authz.Global => ∀ q, W q
  | Authz.Listing => True
  end.
Lemma authorized_may_write p m path : Authz.authorized p m path = true → Authz.read_only_request m path = false →
  target_within (may_write p) (Authz.target_of path).
Proof.
  intros Ha Hr. destruct (Authz.Target_eq_dec (Authz.target_of path) Authz.Listing) as [->|Ht]; [done|].
  rewrite authorized_at, allows_spec, Hr in Ha by done.
  destruct (Authz.target_of path) as [q|ctx| |]; cbn in *; [| |done|].
  - destruct Ha as [?|(_ & _ & ? & _)]; [by right|by left].
  - intros subj. destruct Ha as [Ha|(_ & _ & _ & ? & ?)]; [|done]. right. by apply context_role_everywhere.
  - intros q. destruct Ha as [Ha|(_ & _ & _ & ? & ?)]; [|done]. right. by apply global_role_everywhere.
Qed.

Section handlers.
Context {formats : SchemaFormats} `{!RocksDB DB}.
Context `{!Serde SchemaRecord, !Serde VersionRecord, !Serde ConfigRecord.t, !Serde Mode,
          !Serde LogEvent, !Serde ExporterRecord}.
Variable ambient : RegistryState DB → Ambient.

Lemma run_confined `{!Mutation M, !Confined M} (m : ApiResult M) (reg : RegistryState DB) q :
  (∀ m', m = Ok m' → ¬ covers (target m') q) →
  same_subject q (reg_snap reg) (reg_snap (run ambient m reg).1).
Proof.
  intros Hm. destruct m as [m|e]; cbn; [|done].
  destruct (run_inner reg m _) as [reg' r] eqn:Hr.
  apply run_cases in Hr as [[acts ->]|[acts [->|(p & allowed & Hp & _ & Hc)]]]; [done..|]. cbn.
  destruct Hc as [(db' & e & _ & _ & ->)|(db' & ops & _ & Hc & ->)]; [done|]. cbn.
  apply commit_plan_ops in Hc as [seq ->]. apply (apply_all_within (covers (target m))); [|by apply Hm].
  apply Forall_app. split; [by eapply plan_confined|]. by destruct (bool_decide _); repeat constructor.
Qed.

(** ** What a handler does to the registry, step by step *)

Section moves.
Context (R : RegistryState DB → RegistryState DB → Prop) `{!PreOrder R, !subrelation only_reads R}.

Definition moves {A} (h : H (DB := DB) A) : Prop := ∀ reg, R reg (h reg).1.

Lemma moves_ret {A} (a : A) : moves (mret a).
Proof. intros reg. cbn. reflexivity. Qed.
Lemma moves_pure {A} (r : ApiResult A) : moves (pure_ok r).
Proof. intros reg. cbn. reflexivity. Qed.
Lemma moves_inline {A} (f : Reader → Outcome A) : moves (inline ambient f).
Proof. intros reg. apply subrelation0. by eexists. Qed.
Lemma moves_query {A} (f : RegistryState DB → Outcome A) : moves (query ambient f).
Proof. intros reg. apply subrelation0. by eexists. Qed.
Lemma moves_bind {A B} (h : H A) (f : A → H B) : moves h → (∀ a, moves (f a)) → moves (h ≫= f).
Proof.
  intros Hh Hf reg. specialize (Hh reg). unfold mbind, H_bind. destruct (h reg) as [reg1 [a|e]]; cbn in *; [|done].
  etrans; [exact Hh|apply Hf].
Qed.
(** Reading the request first: what was read may be used. *)
Lemma moves_read {A B} (r : ApiResult A) (f : A → H B) : (∀ a, r = Ok a → moves (f a)) → moves (pure_ok r ≫= f).
Proof. intros Hf reg. unfold mbind, H_bind, pure_ok, api. destruct r as [a|e]; cbn; [by apply Hf|reflexivity]. Qed.
End moves.
End handlers.

Create HintDb handlers.
#[export] Hint Unfold list_schemas_handler schema_by_id schema_by_id_raw schema_id_subjects schema_id_versions list_subjects_handler
  list_versions_handler lookup_schema get_version_handler latest_with_metadata_handler get_version_raw referenced_by_handler
  compat_all compat_version config_get mode_get list_contexts_handler list_exporters_handler store_exporter get_info exporter_status
  exporter_config overview subject_detail backup_handler root_post delete_subject_handler register_schema delete_version_handler
  modify_tags registry_modify_tags put_config_handler config_put config_delete put_mode_handler mode_put mode_delete delete_context_handler
  create_exporter update_exporter delete_exporter put_exporter_config transition_handler : handlers.

(** Steps that leave the registry as it is. *)
Ltac stays :=
  repeat first [ apply moves_ret | apply moves_pure | apply moves_inline | apply moves_query
               | apply moves_bind; [apply _| |intros ?] | case_match
               | progress autounfold with handlers | solve [apply _] ].

Section endpoints.
Context {formats : SchemaFormats} `{!RocksDB DB}.
Context `{!Serde SchemaRecord, !Serde VersionRecord, !Serde ConfigRecord.t, !Serde Mode,
          !Serde LogEvent, !Serde ExporterRecord}.
Context {text : JsonText} {tables : UnicodeTables} {axum : Axum}.
Context {exporter_to : ToValue ExporterRecord} {exporter_from : FromValue ExporterRecord} {update_from : FromValue ExporterUpdateRequest}.
Context (proto_apply_tags : string → list TagEdit → list TagEdit → result string string).
Variable ambient : RegistryState DB → Ambient.
Context (limits : Limits) (about : AboutProcess) (dump_header : Value) (metrics : string).

Abbreviation endpoint := (endpoint proto_apply_tags ambient limits about dump_header metrics).
Abbreviation handle := (handle proto_apply_tags ambient limits about dump_header metrics).

Lemma reads_stay caller rq e : reads_only e = true → moves only_reads (endpoint caller rq e).
Proof. destruct e; try done; intros _; cbn; stays.
Qed.

(** What a subject is: its versions, and the settings in force for it. *)
Definition subject_state (reg : RegistryState DB) (q : QualifiedSubject) : versions_t * ConfigRecord.t * Mode :=
  (versions_of (reader reg) q, config_in_scope (reader reg) q, mode_in_scope (reader reg) q).
Definition kept (q : QualifiedSubject) (reg reg' : RegistryState DB) : Prop := subject_state reg' q = subject_state reg q.
#[local] Instance kept_preorder q : PreOrder (kept q).
Proof. unfold kept. split; [done|]. intros x y z. congruence. Qed.

#[local] Instance kept_by_reads q : subrelation only_reads (kept q).
Proof. by intros reg reg' [acts ->]. Qed.

Lemma same_subject_state reg reg' q : reg_settings reg' = reg_settings reg → same_subject q (reg_snap reg) (reg_snap reg') → kept q reg reg'.
Proof.
  intros Hs [Hv Hc]. unfold kept, subject_state, versions_of, config_in_scope, mode_in_scope, global_mode_in. cbn.
  rewrite Hv, Hs. destruct (Hc (scope_for q)) as [-> ->]; [by left|].
  destruct (Hc (ContextScope (context q))) as [-> ->]; [by right; left|].
  by destruct (Hc Global) as [-> ->]; [by right; right; left|].
Qed.
Lemma verb_keeps `{!Mutation M, !Confined M} (m : ApiResult M) q :
  (∀ m', m = Ok m' → ¬ covers (target m') q) → moves (kept q) (blocking (run ambient m)).
Proof.
  intros Hm reg. apply same_subject_state; [|by apply run_confined]. destruct m as [m|e]; [|done].
  unfold blocking, run, run_inner, run_locked, apply_plan. by repeat case_match.
Qed.

Ltac verb := lazymatch goal with |- moves (kept ?q) (blocking (run _ ?m)) => refine (verb_keeps m q _) end.

(** ** The verbs of the endpoints, for a caller who may write what they are about *)

Section allowed.
Variable W : QualifiedSubject → Prop.

Lemma subject_within s q : target_within W (subject_target s) → Qualified.parse s = Ok q → W q.
Proof. unfold subject_target. intros H Hq. by rewrite Hq in H. Qed.
Lemma settings_within s q q' : target_within W (settings_target s) → Qualified.parse s = Ok q → covers (opt_target (Some q)) q' → W q'.
Proof.
  unfold settings_target. intros H Hq. rewrite Hq in H. cbn. destruct (Qualified.is_context_only q); cbn in *; [|by intros ->].
  intros E. destruct q' as [c s']. cbn in E. subst c. apply H.
Qed.
Lemma optional_within subj oq q : target_within W (match subj with None => Authz.Global | Some s => settings_target s end) →
  optional_parse subj = Ok oq → covers (opt_target oq) q → W q.
Proof.
  intros H Hq Hc. destruct subj as [s|]; [|apply H]. unfold optional_parse in Hq.
  apply bind_Ok in Hq as (q' & Hq' & [= <-]). by eapply settings_within.
Qed.

Variable q : QualifiedSubject.
Hypothesis Hq : ¬ W q.

Lemma register_keeps s req n : target_within W (subject_target s) → moves (kept q) (registry_register ambient s req n).
Proof.
  intros Ht. unfold registry_register. verb. intros m Hm Hc. apply Hq. rewrite Hc. eapply subject_within; [done|].
  unfold register_new in Hm. destruct (is_valid_subject s); [|done]. apply bind_Ok in Hm as (q' & Hq' & [= <-]). done.
Qed.

Lemma endpoint_keeps caller rq e : reads_only e = false → target_within W (about_target e) →
  (Authz.is_global_admin caller = true → W q) → moves (kept q) (endpoint caller rq e).
Proof.
  intros He Ht Hadmin. destruct e; try done; cbn [Api.endpoint].
  - stays.
  - stays. verb. intros m Hm Hc. apply bind_Ok in Hm as (q' & Hq' & [= <-]).
    apply Hq. rewrite Hc. by eapply subject_within.
  - stays. by apply register_keeps.
  - stays. verb. intros m Hm Hc. apply bind_Ok in Hm as (q' & Hq' & [= <-]).
    apply Hq. rewrite Hc. by eapply subject_within.
  - stays; by apply register_keeps.
  - stays; verb; intros m Hm Hc; apply bind_Ok in Hm as (q' & Hq' & [= <-]);
      apply Hq; by eapply (optional_within subj).
  - stays. verb. intros m Hm Hc; apply bind_Ok in Hm as (q' & Hq' & [= <-]);
      apply Hq; by eapply (optional_within subj).
  - stays; verb; intros m Hm Hc; apply bind_Ok in Hm as (q' & Hq' & [= <-]);
      apply Hq; by eapply (optional_within subj).
  - stays. verb. intros m Hm Hc; apply bind_Ok in Hm as (q' & Hq' & [= <-]);
      apply Hq; by eapply settings_within.
  - stays. verb. intros m Hm Hc. apply bind_Ok in Hm as (c & Hn%ok_or_Ok & Hm).
    cbn in Ht. rewrite Hn in Ht. destruct (_ || _); [done|]. injection Hm as <-. cbn in Hc. apply Hq. destruct q. subst. apply Ht.
  - stays. verb. intros m [= <-] [].
  - stays. verb. intros m [= <-] [].
  - stays. verb. intros m [= <-] [].
  - stays. verb. intros m [= <-] [].
  - stays. verb. intros m [= <-] [].
  - unfold restore_handler. apply moves_read; [apply _|]. intros bytes _. apply moves_read; [apply _|]. intros u Hu.
    exfalso. apply Hq, Hadmin. unfold refuse_if in Hu. by destruct (Authz.is_global_admin caller).
Qed.
End allowed.

(** ** Requests *)

Lemma request_keeps {axum_laws : AxumLaws axum} p rq reg q : lacks "+" (hq_path rq) →
  Authz.authorized p (hq_method rq) (hq_path rq) = true → ¬ may_write p q → kept q reg (handle p rq reg).1.
Proof.
  intros Hl Ha Hq. apply (moves_read (kept q)). intros e He.
  destruct (route_agrees _ _ _ Hl He) as [Ht Hr]. destruct (reads_only e) eqn:Hro.
  - intros reg1. apply kept_by_reads. by apply reads_stay.
  - pose proof (authorized_may_write _ _ _ Ha Hr) as Hw. rewrite Ht in Hw.
    apply (endpoint_keeps (may_write p)); [done..|]. by apply global_admin_everywhere.
Qed.

(** ** The service *)

Context (bcrypt_verify : string → string → option bool) (base64_decode : string → option string) (sha256 : string → string).
Abbreviation service := (service proto_apply_tags ambient limits about dump_header metrics bcrypt_verify base64_decode sha256).
Abbreviation checked := (checked bcrypt_verify base64_decode sha256).

(** Who is let through: anyone when authentication is off, else a caller the
    request was authorized for in this container. *)
Lemma passed credentials (reg : RegistryState DB) rq auth who auth' : checked credentials reg rq auth = (PassOn who, auth') →
  match who with
  | None => enabled auth = false
  | Some p => enabled auth = true ∧ Authz.may_use p (st_tenant (reg_store reg)) = true ∧ Authz.authorized p (hq_method rq) (hq_path rq) = true
  end.
Proof.
  unfold Api.checked, middleware. destruct (enabled auth); cbn [negb rq_credentials]; [|by intros [= <- _]].
  destruct credentials as [creds|]; [|done].
  destruct (match cached _ _ _ _ with Some p => _ | None => _ end) as [[p|] a]; [|done].
  unfold permit. cbn. destruct (Authz.may_use p _) eqn:Hu; cbn; [|done].
  destruct (Authz.authorized p _ _) eqn:Ha; cbn; [|done]. intros [= <- _]. done.
Qed.

(** (C14) Nothing of a subject changes through the HTTP interface unless the
    caller may write it. Whatever the request - its path rewritten, the caller
    authenticated and authorized, the request routed and handled - when the
    versions of a subject or the configuration and mode in force for it differ
    afterwards, then authentication was off, or the caller may use the container
    and holds the write or the admin role on that very subject. (The path has no
    plus sign: authorization decodes it as a space.) *)
Theorem only_writers_change_subjects {axum_laws : AxumLaws axum} credentials rq auth (reg : RegistryState DB) q :
  (∀ rq', rewritten reg rq = Ok rq' → lacks "+" (hq_path rq')) →
  subject_state (service credentials rq auth reg).1.2 q ≠ subject_state reg q →
  ∃ rq' who auth', rewritten reg rq = Ok rq' ∧ checked credentials reg rq' auth = (PassOn who, auth') ∧
    match who with
    | None => enabled auth = false
    | Some p => Authz.may_use p (st_tenant (reg_store reg)) = true ∧ may_write p q
    end.
Proof.
  unfold Api.service. destruct (rewritten reg rq) as [rq'|e] eqn:Hrw; [|done]. intros Hl Hchange. specialize (Hl rq' eq_refl).
  destruct (checked credentials reg rq' auth) as [[who|e] auth'] eqn:Hc; [|done]. exists rq', who, auth'. split_and!; [done..|].
  apply passed in Hc. destruct who as [p|]; [|done]. destruct Hc as (_ & Hu & Ha). split; [done|].
  destruct (decide (may_write p q)) as [?|Hno]; [done|]. destruct Hchange.
  pose proof (request_keeps p rq' reg q Hl Ha Hno) as Hk. unfold kept in Hk.
  change (default Authz.unrestricted (Some p)) with p.
  by destruct (handle p rq' reg).
Qed.

(** (C15) The authorization decides about what the router serves: for a path
    without a plus sign that is routed to an endpoint, the target the
    authorization reads off the path is the subject, context or listing the
    handler works on, and the requests it takes for reads are those whose
    handlers only read: nothing but the caches is any different afterwards. *)
Theorem authorization_matches_routing {axum_laws : AxumLaws axum} m path e : lacks "+" path → route m path = Ok e →
  Authz.target_of path = about_target e ∧ Authz.read_only_request m path = reads_only e ∧
  (Authz.read_only_request m path = true → ∀ caller rq reg, ∃ acts, (endpoint caller rq e reg).1 = cache_acts reg acts).
Proof.
  intros Hl He. destruct (route_agrees m path e Hl He) as [Ht Hr]. split_and!; [done..|].
  intros Hread caller rq reg. apply (reads_stay caller rq e). congruence.
Qed.
End endpoints.

(** * A registry behind its interface *)

(** Parameters as axum decodes them: a plus sign is no space. *)
Fixpoint escape_plus (s : string) : string :=
  match s with
  | "" => ""
  | String c s => (if decide (c = "+"%char) then "%2B" else str1 c) +:+ escape_plus s
  end.
#[local] Instance demo_axum : Axum := {|
  path_decode raw := Some (percent_decode (escape_plus raw));
  path_rejection := ApiErr.new 400 "Invalid URL";
  uri_parse u := Some (match split_once_char "?" u with Some (p, q) => (p, Some q) | None => (u, None) end) |}.
#[local] Instance demo_axum_laws : AxumLaws demo_axum.
Proof.
  intros raw d Hl [= <-]. f_equal. induction raw as [|c raw IH]; [done|]. apply lacks_cons in Hl as [Hc Hl].
  cbn. rewrite decide_False by done. cbn. by rewrite <-IH.
Qed.
#[local] Instance demo_tables : UnicodeTables := {| unicode_alphabetic _ := false; unicode_numeric _ := false |}.
#[local] Instance demo_update_from : FromValue ExporterUpdateRequest := λ _, Err "unknown".

(** A registry with one subject, and one user who may write some of them. *)
Definition demo_ambient (reg : RegistryState MemDB) : Ambient := mkAmbient 0 "" [] 8 "guid" [].
Definition demo_of (subj : string) : RegistryState MemDB := (run_inner fresh_registry (demo_register subj "a") quiet_attempt).1.
Definition demo_user (role : Authz.Role) (subj : string) : Authz.UserConfig :=
  Authz.mkUser "ana" "pw" [] [Authz.mkBinding role [subj]] [].
Definition demo_users (u : Authz.UserConfig) : Auth := auth_new toy_hash (mkAuthConfig true "" [u]).
Definition demo_request (method path : string) : HttpRequest := mkRequest method path None None (Ok "").
Definition demo_service (u : Authz.UserConfig) (rq : HttpRequest) (reg : RegistryState MemDB) : Auth * RegistryState MemDB * Outcome Answer :=
  service (λ text _ _, Ok text) demo_ambient (mkLimits 10 10 10 10) (mkAbout "default" "id" "1") VNull "" toy_verify toy_base64 toy_sha256
    (Some "Basic ana:pw") rq (demo_users u) reg.

Lemma only_writers_change_subjects_witness :
  let u := demo_user Authz.Write "orders" in let rq := demo_request "DELETE" "/subjects/orders" in
  let reg := demo_of "orders" in let q := mkQ "." "orders" in
  (∀ rq', rewritten reg rq = Ok rq' → lacks "+" (hq_path rq')) ∧
  subject_state (demo_service u rq reg).1.2 q ≠ subject_state reg q ∧
  ∃ rq' who auth', rewritten reg rq = Ok rq' ∧
    checked toy_verify toy_base64 toy_sha256 (Some "Basic ana:pw") reg rq' (demo_users u) = (PassOn who, auth') ∧
    match who with
    | None => enabled (demo_users u) = false
    | Some p => Authz.may_use p (st_tenant (reg_store reg)) = true ∧ may_write p q
    end.
Proof.
  intros u rq reg q.
  assert (∀ rq', rewritten reg rq = Ok rq' → lacks "+" (hq_path rq')) as Hl.
  { intros rq' H. assert (rewritten reg rq = Ok rq) as E by (vm_compute; reflexivity). rewrite E in H. injection H as <-. by vm_compute. }
  assert (subject_state (demo_service u rq reg).1.2 q ≠ subject_state reg q) as Hc by (vm_compute; discriminate).
  split_and!; [exact Hl|exact Hc|].
  apply (only_writers_change_subjects (λ text _ _, Ok text) demo_ambient (mkLimits 10 10 10 10) (mkAbout "default" "id" "1") VNull ""
    toy_verify toy_base64 toy_sha256 (Some "Basic ana:pw") rq (demo_users u) reg q); [exact Hl|exact Hc].
Defined.

Lemma authorization_matches_routing_witness :
  lacks "+" "/subjects/%3A.eu%3Aorders/versions" ∧
  route "POST" "/subjects/%3A.eu%3Aorders/versions" = Ok (EpRegister ":.eu:orders") ∧
  Authz.target_of "/subjects/%3A.eu%3Aorders/versions" = about_target (EpRegister ":.eu:orders") ∧
  Authz.read_only_request "POST" "/subjects/%3A.eu%3Aorders/versions" = false.
Proof.
  destruct (authorization_matches_routing (DB := MemDB) (λ text _ _, Ok text) demo_ambient (mkLimits 10 10 10 10) (mkAbout "default" "id" "1") VNull ""
    "POST" "/subjects/%3A.eu%3Aorders/versions" (EpRegister ":.eu:orders")) as (Ht & Hr & _); [by vm_compute|by vm_compute|].
  split_and!; [by vm_compute|by vm_compute|exact Ht|exact Hr].
Defined.

(** * Where the two readings of a path differ *)

(** With a plus sign in the path the caller who may write [a b] deletes the
    subject [a+b], which is not theirs, and the caller who may write [a+b] is
    turned away. *)
Theorem plus_sign_grants_writes :
  let reg := demo_of "a+b" in let rq := demo_request "DELETE" "/subjects/a+b" in let q := mkQ "." "a+b" in
  ¬ may_write (Authz.from_user (demo_user Authz.Write "a b")) q ∧
  subject_state (demo_service (demo_user Authz.Write "a b") rq reg).1.2 q ≠ subject_state reg q ∧
  may_write (Authz.from_user (demo_user Authz.Write "a+b")) q ∧
  (demo_service (demo_user Authz.Write "a+b") rq reg).2 = Err (Api denied).
Proof.
  intros reg rq q. split_and!.
  - apply (bool_decide_unpack _). vm_compute. exact I.
  - vm_compute. discriminate.
  - apply (bool_decide_unpack _). vm_compute. exact I.
  - vm_compute. reflexivity.
Qed.

(** The console tells exporters' credentials: a caller who is the admin of one
    subject alone is refused an exporter's definition, and reads it, secret
    included, off the overview. *)
Definition demo_exporting : RegistryState MemDB :=
  (run demo_ambient (Ok (mkCreate (mkExporterUpdate (Some "east") None None None None
    (Some [("schema.registry.url", VString "http://east"); ("basic.auth.user.info", VString "root:secret")])))) (demo_of "orders")).1.
Theorem overview_tells_credentials :
  let u := demo_user Authz.Admin "unrelated" in
  (demo_service u (demo_request "GET" "/exporters/east") demo_exporting).2 = Err (Api denied) ∧
  (demo_service u (demo_request "GET" "/exporters/east/config") demo_exporting).2 = Err (Api denied) ∧
  ∃ v l row m, (demo_service u (demo_request "GET" "/admin/api/overview") demo_exporting).2 = Ok (AnJson v) ∧
    get "exporters" v = Some (VArray l) ∧ row ∈ l ∧ get "config" row = Some (VObject m) ∧
    ("basic.auth.user.info", VString "root:secret") ∈ m.
Proof.
  intros u. split_and!; [vm_compute; reflexivity..|].
  eexists _, _, _, _. split_and!; [vm_compute; reflexivity|vm_compute; reflexivity|left|vm_compute; reflexivity|right; left].
Qed.
